(* ===== verification/_CoqProject ===== *)
-Q . S2P
Prelude.v
Double.v
PathKey.v
Heap.v
Free.v
Sched.v
SchedInv.v
SchedOps.v
SchedHello.v
SchedPick.v
SchedDispatch.v
SchedPlace.v
SchedTheorems.v
SchedFrame.v
Exec.v
ExecInv.v
ExecSettle.v
ExecOps.v
ExecGraph.v
ExecStream.v
ExecFollow.v
ClientRun.v
ClientRunInv.v
ClientFlush.v
ClientOps.v
ClientGraph.v
ClientSystem.v
ClientResults.v
ClientDemo.v
TopDown.v
TopDownWalks.v
TopDownBuild.v
TopDownDemo.v
LoadJobs.v
LoadJobsFarm.v
LoadJobsProof.v
LoadJobsDemo.v
Xfcc.v
XfccTheorems.v
Acl.v
Oidc.v
OidcTheorems.v
Auth.v
Reactor.v
Dispatcher.v
DispatcherInv.v
DispatcherOps.v
DispatcherDispatch.v
DispatcherClients.v
DispatcherConn.v
DispatcherWorkers.v
DispatcherSessions.v
DispatcherSystem.v
DispatcherDemo.v
Builder.v
BuilderInv.v
BuilderSections.v
BuilderView.v
BuilderSystem.v
BuilderDemo.v
Spill.v
SpillTheorems.v
Retry.v
NarFetch.v
NarFetchTheorems.v
NarFetcher.v
NarFetcherSystem.v
NarFetcherDemo.v
Uploads.v
UploadsSystem.v
UploadsDemo.v
Push.v
PushSystem.v
PushRefine.v
PushDemo.v
Eds.v
EdsTheorems.v
EdsDemo.v
Pump.v
NarRoundtrip.v
