(* ===== verification/Prelude.v ===== *)
(** * A verification of nix-grpc-store

    nix-grpc-store lets nix build on a farm over gRPC.  A client (src/src/client/) turns a
    nix build request into a graph of jobs, asks the farm's scheduler for places and
    builds each job on the worker it was given.  A daemon (src/src/daemon/) serves the
    store's RPCs and, with the right options, schedules the builds of all clients over the
    workers that connect to it.  This library models the parts of the program that decide
    something, as they are written, and proves what they promise.

    ** Conventions

    A C++ member function that changes its object is a function of type [M S A] below: from
    the object to the object and a result, which is a value or an exception; the object is
    returned also with an exception.  [Undefined] stands for undefined behaviour and
    [OutOfFuel] for a loop of the model that was not given enough fuel; both are shown
    not to happen, the first but for the races that the theorems name.    [wp m P s] says that [m] returns from [s], without any exception,
    with [P]: it is total correctness.  Unsigned integers are [N] with their wrap-around
    ([u32], [u64]), signed ones [Z], [double] is binary64 (Double.v), a [std::vector] that
    is indexed is a list with checked access ([at_]), hash tables are [gmap]s, and where
    their order matters it is an argument.  Threads are sections under a mutex that
    interleave freely: an inductive relation has every section any thread may run next, and
    the theorems hold of all states it reaches.  What nix, gRPC, protobuf, OpenSSL,
    jwt-cpp and the file system do is an argument of the definitions that use it, with
    the documented behaviour a theorem needs as a named hypothesis and a witness at concrete
    functions.  Log lines and counters are left out.

    ** The scheduler's placement core: src/src/daemon/scheduler.hh

    [PathKey] (PathKey.v), [IndexedHeap] (Heap.v), [FreeIndex] (Free.v) and [Core] (Sched.v, one
    definition per member function).  The heap refines a finite map with its least entry on
    top, the index of free slots a map from workers to counts.  SchedInv.v has the
    invariant of [Core] (tables, queues, places, counts), SchedOps.v, SchedHello.v,
    SchedPick.v, SchedDispatch.v and SchedPlace.v that every operation keeps it and what it
    does, SchedFrame.v what no operation changes.  SchedTheorems.v: no operation
    throws but a Want on a full table; every derivation is queued once or placed once;
    a dispatch is sound, complete (no queued derivation is left beside a willing worker
    with a free slot) and never inverts priorities; Hello reconciles; the soft state is bounded.
    The loop of a dispatch gets one unit of fuel per queued derivation and one more,
    as each round takes one off a queue.

    ** The dispatcher: src/src/daemon/dispatcher.cc, dispatcher.hh, sched-reactor.hh

    Reactor.v has the send queue and the reactor of one stream, whose threads
    interleave; what a send accepted is written in order, once.  Dispatcher.v has the
    [Dispatcher]: the core, clients, sessions, orphans, membership and metrics under one mutex,
    one definition per member function, the actions a [Lock] defers, the lookup threads and
    the statistics thread; the messages are those of src/proto/nix_remote.proto.
    DispatcherInv.v states the invariant with exceptions, for use in the middle of a
    section; DispatcherOps.v, DispatcherDispatch.v, DispatcherClients.v, DispatcherConn.v,
    DispatcherWorkers.v and DispatcherSessions.v show it for the operations.
    DispatcherSystem.v: in every interleaving all sections return, but for two uses of an object that may be
    gone, of which it shows that they are undefined then; the worker and the
    followers of a placed derivation have been told exactly where it is; those who wait for
    nobody know it; what the balancer is told is current.  DispatcherDemo.v has runs.

    ** The client's run: src/src/client/executor.hh, build.cc

    Exec.v is [exec::Executor], the state machine of the jobs; ExecInv.v to ExecFollow.v
    its invariant and what its operations do.  ClientRun.v is [GrpcStore::Run], which
    couples it with the Schedule stream and the build threads; ClientRunInv.v,
    ClientFlush.v, ClientOps.v and ClientGraph.v show its sections keep the invariant.
    ClientSystem.v and ClientResults.v: all sections return; while jobs remain somebody
    has work or the scheduler owes an answer; the inputs a job has in the graph are built first; one thread per build; every
    ended job has a reason that holds; the scheduler follows what the run wants.  The loops
    of [settle] and [next] get fuel from the size of the graph and of the queue.

    ** From a request to jobs: src/src/top-down.hh, src/src/client/build.cc, src/src/nix-compat.hh

    TopDown.v has the two walks that find what a store lacks; TopDownWalks.v and
    TopDownBuild.v show they end and find exactly what the specification
    says.  LoadJobs.v has [loadJobs] and what it calls; LoadJobsFarm.v and
    LoadJobsProof.v show that it returns exactly the derivations nix
    would build, as a graph a run can start from, with their critical paths.  The fuel is
    the number of nodes of the finite graph, which must be acyclic.

    ** Who may call: src/src/daemon/xfcc.hh, acl.hh, oidc.hh, auth.cc

    Xfcc.v parses the identity a proxy forwards; XfccTheorems.v has the syntax of the header as a grammar: the parser
    returns on any header and finds the name that the syntax gives it, and no other.  Acl.v has roles and rules, Oidc.v and OidcTheorems.v bearer tokens and their
    configuration, Auth.v [Auth]: a call is let through exactly if its caller is entitled.

    ** The worker: src/src/daemon/coordinator.cc, main.cc

    Builder.v is [Builder], the table of the builds a worker was told to expect, and the handler of
    BuildDerivation with everything it decides; a thread is at a point, and a section takes it past one
    mutex or atomic.  BuilderInv.v has the account of leases, BuilderSections.v that every section keeps
    it, BuilderView.v what a section makes the scheduler believe.  BuilderSystem.v: no lease is lost or
    reported twice, callers are answered with results of builds of theirs, and the scheduler believes in no
    lease that the worker does not hold or is about to report; draining gives back all that nobody came for.  The end
    of Builder.v is the worker in the scheduler's own process, with the dispatcher that calls it under its mutex; BuilderDemo.v has runs, and
    shows when a hold of that mutex does not end.

    ** Build logs: src/src/daemon/log-spill.hh

    Spill.v is [LogSpill] and [followSpill], with system calls that may be cut short, interrupted or fail;
    SpillTheorems.v: a reader gives out the log in order, whole if its reads succeed, and returns whatever they do.

    ** Retries: src/src/client/retry.hh, store.hh, build.cc

    Retry.v: which statuses are worth a retry, the doubling pause under a deadline, and the two loops that use
    them, which end.  They are given as many rounds as half seconds fit the budget, and one more.

    ** Downloads: src/src/client/nar-fetcher.hh

    NarFetch.v has the spools of a session, its thread, which demultiplexes streams of compressed frames,
    and the readers; NarFetcher.v is [NarFetcher], which spreads paths over sessions and finds them again.
    A session keeps a record of what it asked for and what the frames said, apart from
    what it makes of them.  NarFetchTheorems.v: a reader passes on what the frames of one stream that named its path carried, and does not wait for a
    session that is over; NarFetcherSystem.v: the groups are even, and a call reads
    the path it asked for, from a download that had not failed.  NarFetcherDemo.v has a run.

    ** Compressed streams: src/src/pump.hh, FetchNars of main.cc

    Pump.v has the tunnel's two pumps and the sink and source for bulk data, over an interface to zstd whose laws are those
    of its manual: all that went in comes out, and in the tunnel nothing is held back.  A call of the compressor is repeated as
    often as the interface says it may need.  NarRoundtrip.v is [FetchNars]; with NarFetch.v: readers get the NARs that the
    server's store wrote.

    ** Uploads: src/src/daemon/upload-claims.hh, upload-spool.hh, main.cc

    Uploads.v is [importUploads] with the claims by which concurrent uploads share paths, the file they spool to, and the
    references it has substituted from the cache (cache.hh).
    UploadsSystem.v: a path is imported by one upload at
    a time, an upload that returned has all its paths in the store, and uploads of sorted streams never wait for each
    other for ever.  UploadsDemo.v has runs, one of them with streams that are not sorted.

    ** Publishing: src/src/daemon/push.hh, src/spec/push.qnt

    Push.v is [PushProcess]: requests that share a child process, and the thread that reads its acks.
    PushSystem.v: no request waits without somebody who will answer it, and one
    that returns was acked as often as it has paths.  PushRefine.v has the Quint model of the protocol, safe for any number of
    requests, and shows that the code refines it.  PushDemo.v has runs.

    ** Endpoint discovery: src/src/daemon/eds.cc, eds.hh, src/proto/eds.proto

    Eds.v turns the dispatcher's membership into lists of endpoints, with the addresses it accepts, and is
    [EdsReactor], with gRPC's reactions and the dispatcher's wake-ups as threads, and [EdsService].  EdsTheorems.v: gRPC's rules are kept but
    for one race, and a stream on which nothing is under way has sent what is current.  EdsDemo.v has runs, one of them with the race.

    ** Not modelled

    - src/src/daemon/main.cc but for BuildDerivation, FetchNars and importUploads: RPC handlers that hand requests to a nix store and
      frames to a stream; what they decide is in the parts above.
    - src/src/client/store.cc, store.hh, transfer.cc, channel.cc, channel.hh, plugin-loader.cc:
      nix store interface and gRPC channels around the modelled parts.
    - src/src/daemon/backend.cc, cache.hh but for completeRefs, niks3-client.hh, import-paths.hh,
      src/src/http.hh, path-info-wire.hh: requests to other services and nix stores.
    - src/src/daemon/sandbox*.cc, socket-activation.hh, token-file.hh, options.cc: system calls and
      command-line parsing.
    - src/src/daemon/metrics.hh, logfmt.hh: output. *)

From stdpp Require Export base tactics decidable numbers option list gmap strings fin_maps.

#[export] Set Default Goal Selector "!".

(** ** Errors and effects

    A C++ member function that mutates its object and may throw is a function
    from the object to the object and a result.  The object is returned also
    when the function throws, because a C++ exception leaves the mutations made
    so far in place. *)

(** What a call can end with besides a value: [std::vector::at] out of range, a
    [nix::Error], undefined behaviour (an empty [back()], a dereferenced end
    iterator), or a loop of the model that ran out of fuel.  The last two are
    shown never to happen. *)
Inductive exn :=
  | OutOfRange
  | NixError (msg : string)
  | Undefined
  | OutOfFuel.

Inductive result (A : Type) :=
  | Ok (a : A)
  | Throw (e : exn).
Arguments Ok {A} a.
Arguments Throw {A} e.

Definition M (S A : Type) : Type := S → S * result A.

#[export] Instance M_ret (S : Type) : MRet (M S) := λ A a s, (s, Ok a).
#[export] Instance M_bind (S : Type) : MBind (M S) := λ A B f m s,
  match m s with
  | (s', Ok a) => f a s'
  | (s', Throw e) => (s', Throw e)
  end.

Section Operations.
Context {S : Type}.

Definition throw {A} (e : exn) : M S A := λ s, (s, Throw e).
Definition get : M S S := λ s, (s, Ok s).
Definition gets {A} (f : S → A) : M S A := λ s, (s, Ok (f s)).
Definition modify (f : S → S) : M S () := λ s, (f s, Ok tt).

(** A value that must be present, or the call throws. *)
Definition expect {A} (e : exn) (o : option A) : M S A :=
  match o with Some a => mret a | None => throw e end.

(** A range-[for] whose body mutates the state. *)
Fixpoint forM_ {A} (l : list A) (f : A → M S ()) : M S () :=
  match l with
  | [] => mret tt
  | x :: l' => f x ≫= λ _, forM_ l' f
  end.

(** A range-[for] that also updates a local variable. *)
Fixpoint foldM {A B} (f : B → A → M S B) (b : B) (l : list A) : M S B :=
  match l with
  | [] => mret b
  | x :: l' => f b x ≫= λ b', foldM f b' l'
  end.

(** Run an operation of a member object [T] inside its owner [S]. *)
Definition zoom {T A} (view : S → T) (put : T → S → S) (m : M T A) : M S A :=
  λ s, let '(t, r) := m (view s) in (put t s, r).
End Operations.

(** ** Total correctness

    [wp m Φ s]: run from [s], the operation [m] returns a value (it does not
    throw, and no loop of it runs out of fuel) and [Φ] holds of the value and
    the final state. *)
Definition wp {S A} (m : M S A) (Φ : A → S → Prop) (s : S) : Prop :=
  ∃ a s', m s = (s', Ok a) ∧ Φ a s'.

Create HintDb sched discriminated.

Section WpRules.
Context {S : Type}.
Implicit Types s : S.

Lemma wp_ret {A} (a : A) (Φ : A → S → Prop) s : Φ a s → wp (mret a) Φ s.
Proof. intros H. by exists a, s. Qed.

Lemma wp_bind {A B} (m : M S A) (f : A → M S B) (Φ : B → S → Prop) s :
  wp m (λ a, wp (f a) Φ) s → wp (m ≫= f) Φ s.
Proof.
  intros (a & s' & Hm & b & s'' & Hf & HΦ). exists b, s''. split; [|done].
  unfold mbind, M_bind. by rewrite Hm.
Qed.

Lemma wp_mono {A} (m : M S A) (Φ Ψ : A → S → Prop) s :
  wp m Φ s → (∀ a s', Φ a s' → Ψ a s') → wp m Ψ s.
Proof. intros (a & s' & ? & ?) HΦΨ. exists a, s'. auto. Qed.

Lemma wp_get (Φ : S → S → Prop) s : Φ s s → wp get Φ s.
Proof. intros H. by exists s, s. Qed.

Lemma wp_gets {A} (f : S → A) (Φ : A → S → Prop) s : Φ (f s) s → wp (gets f) Φ s.
Proof. intros H. by exists (f s), s. Qed.

Lemma wp_modify (f : S → S) (Φ : () → S → Prop) s : Φ tt (f s) → wp (modify f) Φ s.
Proof. intros H. by exists tt, (f s). Qed.

Lemma wp_expect {A} e (o : option A) a (Φ : A → S → Prop) s :
  o = Some a → Φ a s → wp (expect e o) Φ s.
Proof. intros -> H. by exists a, s. Qed.

Lemma wp_zoom {T A} (view : S → T) (put : T → S → S) (m : M T A) (Φ : A → S → Prop) s :
  wp m (λ a t, Φ a (put t s)) (view s) → wp (zoom view put m) Φ s.
Proof. intros (a & t & Hm & H). exists a, (put t s). unfold zoom. by rewrite Hm. Qed.

(** Loops: an invariant over what is left to visit. *)
Lemma wp_forM {A} (f : A → M S ()) (I : list A → S → Prop) l s :
  I l s →
  (∀ x l' s', I (x :: l') s' → wp (f x) (λ _, I l') s') →
  wp (forM_ l f) (λ _, I []) s.
Proof.
  revert s. induction l as [|x l IH]; intros s HI Hstep; simpl.
  - by apply wp_ret.
  - apply wp_bind. eapply wp_mono; [by apply Hstep|]. simpl. eauto.
Qed.

Lemma wp_foldM {A B} (f : B → A → M S B) (I : list A → B → S → Prop) b l s :
  I l b s →
  (∀ x l' b' s', I (x :: l') b' s' → wp (f b' x) (λ b'', I l' b'') s') →
  wp (foldM f b l) (λ b', I [] b') s.
Proof.
  revert b s. induction l as [|x l IH]; intros b s HI Hstep; simpl.
  - by apply wp_ret.
  - apply wp_bind. eapply wp_mono; [by apply Hstep|]. simpl. eauto.
Qed.

(** Loops: an invariant over what was visited. *)
Lemma wp_foldM_prefix {A B} (f : B → A → M S B) (I : list A → B → S → Prop) b l s :
  I [] b s →
  (∀ done x rest b' s', l = done ++ x :: rest → I done b' s' → wp (f b' x) (I (done ++ [x])) s') →
  wp (foldM f b l) (I l) s.
Proof.
  intros HI Hstep. eapply wp_mono.
  - apply (wp_foldM f (λ rest b' s', ∃ done, l = done ++ rest ∧ I done b' s')); [by exists []|].
    intros x rest b' s' (done & -> & HI'). eapply wp_mono; [by eapply Hstep|].
    intros b'' s'' ?. exists (done ++ [x]). by rewrite <- app_assoc.
  - intros b' s' (done & -> & ?). by rewrite app_nil_r.
Qed.

Lemma wp_forM_prefix {A} (f : A → M S ()) (I : list A → S → Prop) l s :
  I [] s →
  (∀ done x rest s', l = done ++ x :: rest → I done s' → wp (f x) (λ _, I (done ++ [x])) s') →
  wp (forM_ l f) (λ _, I l) s.
Proof.
  intros HI Hstep. eapply wp_mono.
  - apply (wp_forM f (λ rest s', ∃ done, l = done ++ rest ∧ I done s')); [by exists []|].
    intros x rest s' (done & -> & HI'). eapply wp_mono; [by eapply Hstep|].
    intros ? s'' ?. exists (done ++ [x]). by rewrite <- app_assoc.
  - intros ? s' (done & -> & ?). by rewrite app_nil_r.
Qed.
End WpRules.

(** The state an operation leaves behind, whether it returns or throws. *)
Definition exec {S A} (m : M S A) (s : S) : S := (m s).1.

Lemma wp_exec {S A} (m : M S A) (Φ : A → S → Prop) s :
  wp m Φ s → ∃ a, (m s).2 = Ok a ∧ Φ a (exec m s).
Proof. intros (a & s' & Hm & H). exists a. unfold exec. by rewrite Hm. Qed.

(** ** Frames

    [keeps P m]: whatever an operation does, also when it throws, the states before
    and after are related by the preorder [P]. *)
Definition keeps {S A} (P : S → S → Prop) (m : M S A) : Prop := ∀ s, P s (exec m s).

Section Keeps.
Context {S : Type} (P : S → S → Prop) `{!PreOrder P}.

Lemma keeps_ret {A} (a : A) : keeps P (mret a).
Proof. intros s. done. Qed.
Lemma keeps_throw {A} e : keeps P (throw (A:=A) e).
Proof. intros s. done. Qed.
Lemma keeps_get : keeps P get.
Proof. intros s. done. Qed.
Lemma keeps_gets {A} (f : S → A) : keeps P (gets f).
Proof. intros s. done. Qed.
Lemma keeps_expect {A} e (o : option A) : keeps P (expect e o).
Proof. intros s. by destruct o. Qed.
Lemma keeps_modify (f : S → S) : (∀ s, P s (f s)) → keeps P (modify f).
Proof. intros H s. apply H. Qed.
Lemma keeps_bind {A B} (m : M S A) (k : A → M S B) :
  keeps P m → (∀ a, keeps P (k a)) → keeps P (m ≫= k).
Proof.
  intros Hm Hk s. specialize (Hm s). unfold exec, mbind, M_bind in *.
  destruct (m s) as [s' [a|e]]; [|done]. etrans; [exact Hm|]. apply Hk.
Qed.
Lemma keeps_forM {A} (l : list A) f : (∀ x, keeps P (f x)) → keeps P (forM_ l f).
Proof. intros Hf. induction l; simpl; [apply keeps_ret|by apply keeps_bind]. Qed.
Lemma keeps_foldM {A B} (f : B → A → M S B) b l : (∀ b x, keeps P (f b x)) → keeps P (foldM f b l).
Proof. intros Hf. revert b. induction l; intros b; simpl; [apply keeps_ret|by apply keeps_bind]. Qed.
End Keeps.

Lemma wp_keeps {S A} (P : S → S → Prop) (m : M S A) (Φ : A → S → Prop) s :
  keeps P m → wp m Φ s → wp m (λ a s', Φ a s' ∧ P s s') s.
Proof.
  intros Hk (a & s' & Hm & HΦ). exists a, s'. split; [done|]. split; [done|].
  specialize (Hk s). unfold exec in Hk. by rewrite Hm in Hk.
Qed.

(** One step of a monadic program. *)
Ltac wp_step :=
  match goal with
  | |- wp (_ ≫= _) _ _ => apply wp_bind
  | |- wp (mret _) _ _ => apply wp_ret
  | |- wp get _ _ => apply wp_get
  | |- wp (gets _) _ _ => apply wp_gets
  | |- wp (modify _) _ _ => apply wp_modify
  | |- wp (zoom _ _ _) _ _ => apply wp_zoom
  | H : ?o = Some _ |- wp (expect _ ?o) _ _ => apply (wp_expect _ _ _ _ _ H)
  end.
Ltac wp_steps := repeat (wp_step; cbn beta).

Lemma wp_and {S A} (m : M S A) (Φ Ψ : A → S → Prop) s : wp m Φ s → wp m Ψ s → wp m (λ a s', Φ a s' ∧ Ψ a s') s.
Proof. intros (a & s1 & Hm & HΦ) (b & s2 & Hm2 & HΨ). exists a, s1. rewrite Hm in Hm2. by simplify_eq. Qed.

(** ** Vectors

    A [std::vector] indexed by an unsigned id is a list with stdpp's lookup and
    insert at an index of type [N]. *)

#[export] Instance vec_lookup A : Lookup N A (list A) := λ i l, l !! N.to_nat i.
#[export] Instance vec_insert A : Insert N A (list A) := λ i x l, <[N.to_nat i := x]> l.
#[global] Typeclasses Opaque vec_lookup vec_insert.
#[global] Arguments vec_lookup : simpl never.
#[global] Arguments vec_insert : simpl never.

Definition vlen {A} (l : list A) : N := N.of_nat (length l).

(** [vector::resize(n, x)] *)
Definition vresize {A} (n : N) (x : A) (l : list A) : list A := resize (N.to_nat n) x l.

(** [v.at(i)] and [v.at(i) = x]: both throw [std::out_of_range]. *)
Definition at_ {S A} (v : S → list A) (i : N) : M S A := λ s,
  match v s !! i with
  | Some a => (s, Ok a)
  | None => (s, Throw OutOfRange)
  end.

Definition set_at {S A} (v : S → list A) (put : list A → S → S) (i : N) (x : A) : M S () := λ s,
  match v s !! i with
  | Some _ => (put (<[i := x]> (v s)) s, Ok tt)
  | None => (s, Throw OutOfRange)
  end.

Section Vectors.
Context {A : Type}.
Implicit Types (l : list A) (i j : N) (x y : A).

Lemma vlookup_lt l i : is_Some (l !! i) ↔ (i < vlen l)%N.
Proof. unfold lookup, vec_lookup, vlen. rewrite lookup_lt_is_Some. lia. Qed.

Lemma vlookup_nat l (n : nat) : l !! N.of_nat n = l !! n.
Proof. unfold lookup at 1, vec_lookup. by rewrite Nat2N.id. Qed.

Lemma vlookup_lt_Some l i x : l !! i = Some x → (i < vlen l)%N.
Proof. intros H. apply vlookup_lt. by eexists. Qed.

Lemma vlookup_ge l i : l !! i = None ↔ (vlen l ≤ i)%N.
Proof. unfold lookup, vec_lookup, vlen. rewrite lookup_ge_None. lia. Qed.

Lemma vlookup_insert_eq l i x : (i < vlen l)%N → <[i := x]> l !! i = Some x.
Proof.
  unfold lookup, vec_lookup, insert, vec_insert, vlen. intros H.
  apply list_lookup_insert_eq. lia.
Qed.

Lemma vlookup_insert_ne l i j x : i ≠ j → <[i := x]> l !! j = l !! j.
Proof.
  unfold lookup, vec_lookup, insert, vec_insert. intros H.
  apply list_lookup_insert_ne. lia.
Qed.

Lemma vlookup_insert_Some l i j x y :
  <[i := x]> l !! j = Some y ↔
  (i = j ∧ x = y ∧ (i < vlen l)%N) ∨ (i ≠ j ∧ l !! j = Some y).
Proof.
  destruct (decide (i = j)) as [->|Hij].
  - destruct (decide (j < vlen l)%N) as [Hlt|Hge].
    + rewrite vlookup_insert_eq by done. naive_solver.
    + assert (<[j := x]> l !! j = None) as ->; [|naive_solver].
      apply vlookup_ge. unfold vlen, insert, vec_insert in *.
      rewrite length_insert. lia.
  - rewrite vlookup_insert_ne by done. naive_solver.
Qed.

Lemma vinsert_insert l i x y : <[i := x]> (<[i := y]> l) = <[i := x]> l.
Proof. unfold insert, vec_insert. apply list_insert_insert_eq. Qed.

Lemma vinsert_commute l i j x y : i ≠ j → <[i := x]> (<[j := y]> l) = <[j := y]> (<[i := x]> l).
Proof. intros. unfold insert, vec_insert. apply list_insert_insert_ne. lia. Qed.

Lemma vlen_insert l i x : vlen (<[i := x]> l) = vlen l.
Proof. unfold vlen, insert, vec_insert. by rewrite length_insert. Qed.

Lemma vlen_app l k : vlen (l ++ k) = (vlen l + vlen k)%N.
Proof. unfold vlen. rewrite length_app. lia. Qed.

Lemma vlookup_app_l l k i : (i < vlen l)%N → (l ++ k) !! i = l !! i.
Proof. unfold lookup, vec_lookup, vlen. intros. apply lookup_app_l. lia. Qed.

Lemma vlookup_snoc_Some l x i y :
  (l ++ [x]) !! i = Some y ↔ l !! i = Some y ∨ (i = vlen l ∧ x = y).
Proof.
  unfold lookup, vec_lookup, vlen. rewrite lookup_app_Some.
  split.
  - intros [?|[Hle Hx]]; [by left|right].
    apply list_lookup_singleton_Some in Hx as [? ->]. split; [lia|done].
  - intros [?|[-> ->]]; [by left|right]. split; [lia|].
    by replace (N.to_nat _ - _) with 0 by lia.
Qed.

Lemma vlookup_snoc_eq l x : (l ++ [x]) !! vlen l = Some x.
Proof. apply vlookup_snoc_Some. by right. Qed.

Lemma elem_of_vlookup l x : x ∈ l ↔ ∃ i : N, l !! i = Some x.
Proof.
  rewrite list_elem_of_lookup. split.
  - intros [i Hi]. exists (N.of_nat i). unfold lookup, vec_lookup. by rewrite Nat2N.id.
  - intros [i Hi]. by exists (N.to_nat i).
Qed.

Lemma vlookup_resize_Some l n x i y :
  (vlen l ≤ n)%N →
  vresize n x l !! i = Some y ↔
  l !! i = Some y ∨ ((vlen l ≤ i < n)%N ∧ x = y).
Proof.
  intros Hn. unfold vresize, vlen, lookup, vec_lookup in *.
  destruct (decide (i < N.of_nat (length l))%N) as [Hi|Hi].
  - rewrite lookup_resize by lia. naive_solver lia.
  - rewrite (lookup_ge_None_2 l) by lia.
    destruct (decide (i < n)%N).
    + rewrite lookup_resize_new by lia. naive_solver lia.
    + rewrite lookup_resize_old by lia. naive_solver lia.
Qed.

Lemma vlookup_nil i : ([] : list A) !! i = None.
Proof. apply vlookup_ge. unfold vlen. simpl. lia. Qed.

Lemma vlookup_take_Some l (n : nat) i x :
  take n l !! i = Some x ↔ (i < N.of_nat n)%N ∧ l !! i = Some x.
Proof. unfold lookup, vec_lookup. rewrite lookup_take_Some. split; intros [??]; (split; [done || lia|done || lia]). Qed.

Lemma vlookup_last l x : last l = Some x → l !! (vlen l - 1)%N = Some x.
Proof.
  intros [l' ->]%last_Some. rewrite vlen_app. unfold vlen at 2. simpl length.
  replace (vlen l' + N.of_nat 1 - 1)%N with (vlen l') by lia. apply vlookup_snoc_eq.
Qed.

Lemma vlookup_swap_perm l i j x y z :
  l !! j = Some y → i ≠ j → (i < vlen l)%N → z = <[i := x]> l →
  <[j := x]> (<[i := y]> l) = <[j := x]> (<[i := y]> z) ∧
  <[j := x]> (<[i := y]> z) ≡ₚ z.
Proof.
  intros Hj Hij Hi ->. unfold insert, vec_insert, lookup, vec_lookup, vlen in *.
  split.
  - by rewrite list_insert_insert_eq.
  - apply Permutation_insert_swap.
    + apply list_lookup_insert_eq. lia.
    + rewrite list_lookup_insert_ne by lia. done.
Qed.

Lemma vlen_resize l n x : vlen (vresize n x l) = n.
Proof. unfold vlen, vresize. rewrite length_resize. lia. Qed.
End Vectors.

Lemma wp_at {S A} (v : S → list A) i a (Φ : A → S → Prop) s :
  v s !! i = Some a → Φ a s → wp (at_ v i) Φ s.
Proof. intros H HΦ. exists a, s. unfold at_. by rewrite H. Qed.

Lemma wp_set_at {S A} (v : S → list A) put i x (Φ : () → S → Prop) s :
  (i < vlen (v s))%N → Φ tt (put (<[i := x]> (v s)) s) → wp (set_at v put i x) Φ s.
Proof.
  intros [y Hy]%vlookup_lt HΦ. exists tt, (put (<[i := x]> (v s)) s).
  unfold set_at. by rewrite Hy.
Qed.

(** ** Machine integers *)

Definition u32 (n : N) : N := (n mod 2 ^ 32)%N.
Definition u64 (n : N) : N := (n mod 2 ^ 64)%N.

(** [a - b] on [size_t] and [uint64_t]. *)
Definition sub64 (a b : N) : N := u64 (a + 2 ^ 64 - b).

Lemma u64_small n : (n < 2 ^ 64)%N → u64 n = n.
Proof. apply N.mod_small. Qed.

Lemma sub64_small a b : (b ≤ a < 2 ^ 64)%N → sub64 a b = (a - b)%N.
Proof.
  intros [? ?]. unfold sub64, u64.
  replace (a + 2 ^ 64 - b)%N with (a - b + 1 * 2 ^ 64)%N by lia.
  rewrite N.Div0.mod_add. apply N.mod_small. lia.
Qed.

Lemma u32_small n : (n < 2 ^ 32)%N → u32 n = n.
Proof. apply N.mod_small. Qed.

(** The values of [i] in [for (i = a; i < b; i++)]. *)
Definition range (a b : N) : list N := N.of_nat <$> seq (N.to_nat a) (N.to_nat (b - a)).

Lemma elem_of_range a b i : i ∈ range a b ↔ (a ≤ i < b)%N.
Proof.
  unfold range. rewrite list_elem_of_fmap. setoid_rewrite elem_of_seq. split.
  - intros (n & -> & ?). lia.
  - intros ?. exists (N.to_nat i). lia.
Qed.

Lemma range_nil a b : (b ≤ a)%N → range a b = [].
Proof. intros. unfold range. by replace (N.to_nat (b - a)) with 0 by lia. Qed.

Lemma range_cons a b : (a < b)%N → range a b = a :: range (a + 1) b.
Proof.
  intros. unfold range.
  replace (N.to_nat (b - a)) with (S (N.to_nat (b - (a + 1)))) by lia.
  rewrite <- cons_seq, fmap_cons. f_equal; [lia|].
  by replace (N.to_nat (a + 1)) with (S (N.to_nat a)) by lia.
Qed.
