(* ===== verification/Double.v ===== *)
(** * IEEE 754 binary64

    The scheduler's keys and scores are C++ [double]s.  They are modelled by
    the Standard Library's executable specification of IEEE 754 arithmetic
    ([SpecFloat]) at 53 bits of precision, so rounding, signed zeros,
    infinities and NaN behave as in the program.

    The lemmas show that [<] is a strict weak order on the doubles that are not
    NaN (on all of them it is not), and which operations never produce NaN. *)

From S2P Require Import Prelude.
From Stdlib Require Import SpecFloat.

Definition prec : Z := 53.
Definition emax : Z := 1024.

Abbreviation double := spec_float.

Definition dadd : double → double → double := SFadd prec emax.
Definition dsub : double → double → double := SFsub prec emax.
Definition dmul : double → double → double := SFmul prec emax.
Definition ddiv : double → double → double := SFdiv prec emax.
Definition dopp : double → double := SFopp.

(** [static_cast<double>] of an integer: round to nearest, ties to even. *)
Definition double_of_Z (z : Z) : double := binary_normalize prec emax z 0 false.

Definition dltb (x y : double) : bool := SFltb x y.
Definition dleb (x y : double) : bool := SFleb x y.
Definition deqb (x y : double) : bool := SFeqb x y.

(** [std::max(x, y)] *)
Definition dmax (x y : double) : double := if dltb x y then y else x.

Definition is_nan (x : double) : bool := match x with S754_nan => true | _ => false end.
Definition is_finite (x : double) : bool :=
  match x with S754_zero _ | S754_finite _ _ _ => true | _ => false end.
(** Neither NaN nor below zero; [-0.0] is allowed. *)
Definition nonneg (x : double) : bool :=
  match x with
  | S754_zero _ => true
  | S754_infinity s | S754_finite s _ _ => negb s
  | S754_nan => false
  end.

(** ** The order *)

(** The sign class, exponent and mantissa of a double that is not NaN: comparing
    doubles is comparing these lexicographically. *)
Definition rank (x : double) : Z * Z * Z :=
  match x with
  | S754_infinity true => (-2, 0, 0)
  | S754_finite true m e => (-1, -e, Zneg m)
  | S754_zero _ => (0, 0, 0)
  | S754_finite false m e => (1, e, Zpos m)
  | S754_infinity false => (2, 0, 0)
  | S754_nan => (3, 0, 0)
  end%Z.

Definition rank_lt (a b : Z * Z * Z) : Prop :=
  let '(a1, a2, a3) := a in let '(b1, b2, b3) := b in
  (a1 < b1 ∨ (a1 = b1 ∧ (a2 < b2 ∨ (a2 = b2 ∧ a3 < b3))))%Z.

Lemma rank_lt_trans a b c : rank_lt a b → rank_lt b c → rank_lt a c.
Proof. destruct a as [[]], b as [[]], c as [[]]. simpl. lia. Qed.

Lemma rank_lt_irrefl a : ¬ rank_lt a a.
Proof. destruct a as [[]]. simpl. lia. Qed.

Lemma rank_total a b : rank_lt a b ∨ a = b ∨ rank_lt b a.
Proof.
  destruct a as [[a1 a2] a3], b as [[b1 b2] b3]. simpl.
  destruct (decide (a1 = b1)) as [->|?]; [|lia].
  destruct (decide (a2 = b2)) as [->|?]; [|lia].
  destruct (decide (a3 = b3)) as [->|?]; [|lia]. auto.
Qed.

Lemma SFcompare_rank x y :
  is_nan x = false → is_nan y = false →
  ∃ c, SFcompare x y = Some c ∧
    match c with
    | Lt => rank_lt (rank x) (rank y)
    | Eq => rank x = rank y
    | Gt => rank_lt (rank y) (rank x)
    end.
Proof.
  destruct x as [[]|[]| |[] m e], y as [[]|[]| |[] m' e']; simpl; intros Hx Hy;
    try discriminate; try (eexists; split; [reflexivity|simpl; lia || done]).
  - change (Pos.compare_cont Eq m m') with (Pos.compare m m').
    destruct (Z.compare_spec e e'), (Pos.compare_spec m m');
      eexists; (split; [reflexivity|simpl]); subst; try lia; try (f_equal; lia); done.
  - change (Pos.compare_cont Eq m m') with (Pos.compare m m').
    destruct (Z.compare_spec e e'), (Pos.compare_spec m m');
      eexists; (split; [reflexivity|simpl]); subst; try lia; try (f_equal; lia); done.
Qed.

Lemma dltb_rank x y :
  is_nan x = false → is_nan y = false → dltb x y = true ↔ rank_lt (rank x) (rank y).
Proof.
  intros Hx Hy. unfold dltb, SFltb.
  destruct (SFcompare_rank x y Hx Hy) as ([] & -> & H); split; try done;
    destruct (rank x) as [[]], (rank y) as [[]]; simpl in *; simplify_eq; lia.
Qed.

Lemma dleb_rank x y :
  is_nan x = false → is_nan y = false → dleb x y = true ↔ ¬ rank_lt (rank y) (rank x).
Proof.
  intros Hx Hy. unfold dleb, SFleb.
  destruct (SFcompare_rank x y Hx Hy) as ([] & -> & H); split; try done;
    destruct (rank x) as [[]], (rank y) as [[]]; simpl in *; simplify_eq; lia.
Qed.

Lemma deqb_rank x y :
  is_nan x = false → is_nan y = false → deqb x y = true ↔ rank x = rank y.
Proof.
  intros Hx Hy. unfold deqb, SFeqb.
  destruct (SFcompare_rank x y Hx Hy) as ([] & -> & H); split; try done;
    destruct (rank x) as [[]], (rank y) as [[]]; simpl in *; intros; simplify_eq; lia.
Qed.

Lemma dltb_asym x y :
  is_nan x = false → is_nan y = false → dltb x y = true → dltb y x = false.
Proof.
  intros Hx Hy Hxy%dltb_rank; [|done..]. apply not_true_iff_false. intros Hyx%dltb_rank; [|done..].
  by eapply rank_lt_irrefl, rank_lt_trans.
Qed.

Lemma dltb_false_trans x y z :
  is_nan x = false → is_nan y = false → is_nan z = false →
  dltb x y = false → dltb y z = false → dltb x z = false.
Proof.
  intros Hx Hy Hz H1 H2. apply not_true_iff_false. intros H3%dltb_rank; [|done..].
  destruct (rank_total (rank x) (rank y)) as [Hl|[He|Hl]].
  - apply dltb_rank in Hl; [congruence|done..].
  - rewrite He in H3. apply dltb_rank in H3; [congruence|done..].
  - pose proof (rank_lt_trans _ _ _ Hl H3) as H4. apply dltb_rank in H4; [congruence|done..].
Qed.

(** ** Operations that do not produce NaN *)

Lemma iter_pos_inv {A} (P : A → Prop) (f : A → A) p x :
  (∀ y, P y → P (f y)) → P x → P (iter_pos f p x).
Proof. intros Hf. revert x. induction p; simpl; auto. Qed.

Lemma shr_fexp_nonneg m e l : (0 ≤ m)%Z → (0 ≤ shr_m (shr_fexp prec emax m e l).1)%Z.
Proof.
  intros Hm. unfold shr_fexp, shr.
  assert (0 ≤ shr_m (shr_record_of_loc m l))%Z by (by destruct l as [|[]]).
  destruct (_ - _)%Z; simpl; try done.
  apply (iter_pos_inv (λ r, 0 ≤ shr_m r)%Z); [|done].
  intros [[|[]|] ??]; simpl; lia.
Qed.

Lemma binary_round_aux_sign s m e l :
  (0 ≤ m)%Z →
  match binary_round_aux prec emax s m e l with
  | S754_zero s' | S754_infinity s' | S754_finite s' _ _ => s' = s
  | S754_nan => False
  end.
Proof.
  intros Hm. unfold binary_round_aux.
  pose proof (shr_fexp_nonneg m e l Hm) as H1.
  destruct (shr_fexp _ _ m e l) as [mrs e']. simpl in H1.
  set (m2 := round_nearest_even _ _).
  assert (0 ≤ m2)%Z as Hm2.
  { unfold m2, round_nearest_even. destruct (loc_of_shr_record mrs) as [|[]]; try case_match; lia. }
  pose proof (shr_fexp_nonneg m2 e' loc_Exact Hm2) as H2.
  destruct (shr_fexp _ _ m2 e' loc_Exact) as [mrs' e'']. simpl in H2.
  destruct (shr_m mrs'); first [done | by destruct (Z.leb _ _) | lia].
Qed.

Lemma binary_round_sign s m e :
  match binary_round prec emax s m e with
  | S754_zero s' | S754_infinity s' | S754_finite s' _ _ => s' = s
  | S754_nan => False
  end.
Proof.
  unfold binary_round. destruct (shl_align _ _ _) as [mz ez].
  by apply binary_round_aux_sign.
Qed.

Lemma binary_normalize_not_nan m e s : is_nan (binary_normalize prec emax m e s) = false.
Proof.
  destruct m; simpl; [done| |];
    match goal with |- context [binary_round _ _ ?b ?p ?x] =>
      pose proof (binary_round_sign b p x); by destruct (binary_round _ _ _ _ _) end.
Qed.

Lemma binary_normalize_nonneg m e s :
  (0 ≤ m)%Z → nonneg (binary_normalize prec emax m e s) = true.
Proof.
  intros Hm. destruct m as [|p|p]; simpl; [done| |lia].
  pose proof (binary_round_sign false p e).
  destruct (binary_round _ _ _ _ _); simplify_eq/=; done.
Qed.

Lemma double_of_Z_nonneg z : (0 ≤ z)%Z → nonneg (double_of_Z z) = true.
Proof. apply binary_normalize_nonneg. Qed.

Lemma nonneg_not_nan x : nonneg x = true → is_nan x = false.
Proof. by destruct x. Qed.

Lemma finite_not_nan x : is_finite x = true → is_nan x = false.
Proof. by destruct x. Qed.

Lemma dadd_nonneg x y : nonneg x = true → nonneg y = true → nonneg (dadd x y) = true.
Proof.
  destruct x as [s1|[]| |[] m1 e1], y as [s2|[]| |[] m2 e2]; intros H1 H2; try done.
  - unfold dadd. simpl. by destruct s1, s2.
  - unfold dadd, SFadd. apply binary_normalize_nonneg. simpl. lia.
Qed.

Lemma dmul_nonneg x y :
  nonneg x = true → nonneg y = true → is_finite x = true → is_finite y = true →
  nonneg (dmul x y) = true.
Proof.
  destruct x as [s1|[]| |[] m1 e1], y as [s2|[]| |[] m2 e2]; intros H1 H2 H3 H4; try done.
  unfold dmul, SFmul.
  pose proof (binary_round_aux_sign (xorb false false) (Z.pos (m1 * m2)) (e1 + e2) loc_Exact) as H.
  simpl in *. destruct (binary_round_aux _ _ _ _ _ _); simpl; first [done | rewrite H by lia; done | exfalso; apply H; lia].
Qed.

(** Subtracting a finite number only gives NaN from NaN. *)
Lemma dsub_not_nan x y : is_nan x = false → is_finite y = true → is_nan (dsub x y) = false.
Proof.
  destruct x as [[]|[]| |[] m1 e1], y as [[]|[]| |[] m2 e2]; intros H1 H2; try done;
    unfold dsub, SFsub; apply binary_normalize_not_nan.
Qed.

Lemma dopp_not_nan x : is_nan x = false → is_nan (dopp x) = false.
Proof. by destruct x. Qed.

Lemma dmax_not_nan x y : is_nan x = false → is_nan y = false → is_nan (dmax x y) = false.
Proof. unfold dmax. by case_match. Qed.

Lemma dmax_nonneg x y : nonneg x = true → nonneg y = true → nonneg (dmax x y) = true.
Proof. unfold dmax. by case_match. Qed.

#[export] Hint Resolve nonneg_not_nan finite_not_nan dopp_not_nan dsub_not_nan dadd_nonneg
  dmax_nonneg : sched.
