(* ===== verification/PathKey.v ===== *)
(** * Keys of store paths

    [sched::PathKey] of src/src/daemon/scheduler.hh: store paths are keyed by
    the 32 characters of their hash part, held in a zero-initialised
    [std::array<char, 32>].  A C++ string is a Rocq [string]: a sequence of
    bytes that may contain NUL. *)

From S2P Require Import Prelude.
From Stdlib Require Import Ascii.

Definition PathKey_len : nat := 32.

(** [string_view::rfind] of a character: its last index. *)
Fixpoint rfind (ch : Ascii.ascii) (s : string) : option nat :=
  match s with
  | EmptyString => None
  | String c s' =>
      match rfind ch s' with
      | Some i => Some (S i)
      | None => if bool_decide (c = ch) then Some 0 else None
      end
  end.

(** [string_view::remove_prefix] *)
Fixpoint remove_prefix (n : nat) (s : string) : string :=
  match n, s with
  | O, _ => s
  | S n', EmptyString => EmptyString
  | S n', String _ s' => remove_prefix n' s'
  end.

(** The first [n] bytes copied over an array of [n] zero bytes. *)
Fixpoint copy_padded (n : nat) (s : string) : string :=
  match n with
  | O => EmptyString
  | S n' =>
      match s with
      | EmptyString => String Ascii.zero (copy_padded n' EmptyString)
      | String c s' => String c (copy_padded n' s')
      end
  end.

Definition PathKey (path : string) : string :=
  let path :=
    match rfind "/"%char path with
    | Some slash => remove_prefix (slash + 1) path
    | None => path
    end in
  copy_padded PathKey_len path.

(** ** Facts *)

Fixpoint no_char (ch : Ascii.ascii) (s : string) : bool :=
  match s with
  | EmptyString => true
  | String c s' => negb (bool_decide (c = ch)) && no_char ch s'
  end.

Lemma rfind_none ch s : no_char ch s = true → rfind ch s = None.
Proof.
  induction s as [|c s IH]; simpl; [done|]. intros [Hc Hs]%andb_true_iff.
  rewrite IH by done. apply negb_true_iff in Hc. by rewrite Hc.
Qed.

Lemma rfind_app ch s s' :
  no_char ch s' = true → rfind ch (s +:+ String ch s') = Some (String.length s).
Proof.
  intros Hs'. induction s as [|c s IH]; simpl.
  - rewrite rfind_none by done. by rewrite bool_decide_true.
  - by rewrite IH.
Qed.

Lemma remove_prefix_app s s' : remove_prefix (String.length s) (s +:+ s') = s'.
Proof. induction s as [|c s IH]; simpl; [by destruct s'|done]. Qed.

Lemma copy_padded_app s s' : copy_padded (String.length s) (s +:+ s') = s.
Proof. induction s as [|c s IH]; simpl; [done|]. by rewrite IH. Qed.

Lemma copy_padded_length n s : String.length (copy_padded n s) = n.
Proof. revert s. induction n as [|n IH]; intros [|c s]; simpl; by rewrite ?IH. Qed.

Lemma no_char_app ch s s' : no_char ch (s +:+ s') = no_char ch s && no_char ch s'.
Proof. induction s as [|c s IH]; simpl; [done|]. by rewrite IH, andb_assoc. Qed.

Lemma app_char_assoc a c b : a +:+ String c b = (a +:+ String c EmptyString) +:+ b.
Proof. induction a as [|c' a IH]; [done|].
  change (String c' (a +:+ String c b) = String c' ((a +:+ String c EmptyString) +:+ b)).
  by rewrite IH.
Qed.

(** A path of the store: directory, 32-character hash part, name. *)
Definition store_path (dir hash name : string) : string :=
  dir +:+ "/" +:+ hash +:+ "-" +:+ name.

Lemma PathKey_store_path dir hash name :
  String.length hash = 32 → no_char "/" (hash +:+ "-" +:+ name) = true →
  PathKey (store_path dir hash name) = hash.
Proof.
  intros Hlen Hno. unfold PathKey, store_path.
  change (dir +:+ "/" +:+ hash +:+ "-" +:+ name) with (dir +:+ String "/" (hash +:+ "-" +:+ name)).
  rewrite rfind_app by done.
  assert (String.length dir + 1 = String.length (dir +:+ "/")) as ->.
  { induction dir; simpl; lia. }
  rewrite (app_char_assoc dir "/" (hash +:+ "-" +:+ name)).
  rewrite remove_prefix_app. unfold PathKey_len. rewrite <- Hlen. apply copy_padded_app.
Qed.

(** The key of a store path is its hash part, so two store paths name the
    same derivation (or output) exactly when their hash parts agree, whatever
    the store directory and the name; every key fits the 32-byte array. *)
Theorem path_key_identifies_hash (dir1 hash1 name1 dir2 hash2 name2 path : string) :
  String.length hash1 = 32 → String.length hash2 = 32 →
  no_char "/" (hash1 +:+ "-" +:+ name1) = true → no_char "/" (hash2 +:+ "-" +:+ name2) = true →
  (PathKey (store_path dir1 hash1 name1) = PathKey (store_path dir2 hash2 name2) ↔ hash1 = hash2) ∧
  String.length (PathKey path) = PathKey_len.
Proof.
  intros. rewrite !PathKey_store_path by done. split; [done|]. apply copy_padded_length.
Qed.

Lemma path_key_identifies_hash_witness :
  PathKey (store_path "/nix/store" "0c0qz3xlrbqvl7y8fgb7s6s6v6h0f7b1" "hello-2.12.drv") ≠
  PathKey (store_path "/nix/store" "1c0qz3xlrbqvl7y8fgb7s6s6v6h0f7b1" "hello-2.12.drv").
Proof.
  destruct (path_key_identifies_hash
    "/nix/store" "0c0qz3xlrbqvl7y8fgb7s6s6v6h0f7b1" "hello-2.12.drv"
    "/nix/store" "1c0qz3xlrbqvl7y8fgb7s6s6v6h0f7b1" "hello-2.12.drv" ""
    eq_refl eq_refl eq_refl eq_refl) as [[H _] _].
  intros Hk. specialize (H Hk). discriminate.
Defined.
