(* ===== verification/Heap.v ===== *)
(** * The scheduler's priority queue

    [sched::IndexedHeap] of src/src/daemon/scheduler.hh: a 4-ary min-heap of
    (key, derivation id) pairs with a position table, so that a derivation's
    key can be changed and a derivation removed by its id.

    [wf] is the structural invariant (the table and the heap agree), [ordered]
    the heap order, [view] the finite map from derivation to key that the heap
    represents.  Every operation is shown to return normally on a well-formed
    heap (no [at()] out of range, no loop without end), to keep both invariants
    and to act on the view as insert, delete and minimum. *)

From S2P Require Import Prelude Double.

Module IndexedHeap.

Abbreviation item := (double * N)%type.

Record t := mk { heap : list item; pos : list N }.

Definition with_heap (v : list item) (h : t) : t := mk v (pos h).
Definition with_pos (v : list N) (h : t) : t := mk (heap h) v.

Definition empty : t := mk [] [].

Definition npos : N := (2 ^ 32 - 1)%N.

(** [operator<] and [operator<=] of [std::pair<double, DrvId>]: the id decides
    between equal keys; nothing compares with NaN. *)
Definition item_ltb (x y : item) : bool :=
  dltb x.1 y.1 || (deqb x.1 y.1 && (x.2 <? y.2)%N).
Definition item_leb (x y : item) : bool :=
  dltb x.1 y.1 || (deqb x.1 y.1 && (x.2 <=? y.2)%N).

(** The index of the parent of [idx > 0] in the 4-ary heap. *)
Definition parent (idx : N) : N := ((idx - 1) / 4)%N.

Definition place (idx : N) (x : item) : M t () :=
  set_at pos with_pos x.2 (u32 idx);;
  set_at heap with_heap idx x.

(** The loop of [siftUp]; returns the index the item is placed at. *)
Fixpoint siftUp_loop (fuel : nat) (idx : N) (x : item) : M t N :=
  match fuel with
  | O => throw OutOfFuel
  | S fuel =>
      if (0 <? idx)%N then
        hp ← at_ heap (parent idx);
        if item_leb hp x then mret idx
        else place idx hp;; siftUp_loop fuel (parent idx) x
      else mret idx
  end.

Definition siftUp (idx : N) : M t () :=
  x ← at_ heap idx;
  idx' ← siftUp_loop (S (N.to_nat idx)) idx x;
  place idx' x.

(** The smallest of the children [first], ..., [min (first + 4) len - 1]. *)
Definition min_child (first len : N) : M t N :=
  foldM (λ best child,
           hc ← at_ heap child;
           hb ← at_ heap best;
           mret (if item_ltb hc hb then child else best))
    first (range (first + 1) (N.min (first + 4) len)).

Fixpoint siftDown_loop (fuel : nat) (len idx : N) (x : item) : M t N :=
  match fuel with
  | O => throw OutOfFuel
  | S fuel =>
      let first := (4 * idx + 1)%N in
      if (len <=? first)%N then mret idx
      else
        best ← min_child first len;
        hb ← at_ heap best;
        if item_leb x hb then mret idx
        else place idx hb;; siftDown_loop fuel len best x
  end.

Definition siftDown (idx : N) : M t () :=
  x ← at_ heap idx;
  len ← gets (λ h, vlen (heap h));
  idx' ← siftDown_loop (S (N.to_nat len)) len idx x;
  place idx' x.

Definition size (h : t) : N := vlen (heap h).

Definition contains (d : N) (h : t) : bool :=
  match pos h !! d with Some i => negb (i =? npos)%N | None => false end.

Definition top (h : t) : option N := snd <$> head (heap h).

Definition topKey (h : t) : option double := fst <$> head (heap h).

Definition set (d : N) (key : double) : M t () :=
  (if (d =? npos)%N then throw (NixError "IndexedHeap: id out of range") else mret tt);;
  n ← gets (λ h, vlen (pos h));
  (if (n <=? d)%N then modify (λ h, with_pos (vresize (d + 1) npos (pos h)) h) else mret tt);;
  p ← at_ pos d;
  if (p =? npos)%N then
    len ← gets size;
    set_at pos with_pos d (u32 len);;
    modify (λ h, with_heap (heap h ++ [(key, d)]) h);;
    len' ← gets size;
    siftUp (len' - 1)
  else
    old ← at_ heap p;
    set_at heap with_heap p (key, old.2);;
    if dltb key old.1 then siftUp p else siftDown p.

Definition erase (d : N) : M t () :=
  b ← gets (contains d);
  if negb b then mret tt
  else
    idx ← at_ pos d;
    set_at pos with_pos d npos;;
    h ← get;
    lst ← expect Undefined (last (heap h));
    modify (λ h, with_heap (take (length (heap h) - 1) (heap h)) h);;
    len ← gets size;
    if (len <=? idx)%N then mret tt
    else
      place idx lst;;
      siftUp idx;;
      p ← at_ pos lst.2;
      siftDown p.

(** ** Invariants and the abstract view *)

Record wf (h : t) : Prop := {
  wf_heap_pos : ∀ i k d, heap h !! (i : N) = Some (k, d) → pos h !! d = Some i;
  wf_pos_heap : ∀ d i, pos h !! (d : N) = Some i → i ≠ npos → ∃ k, heap h !! i = Some (k, d);
  wf_len : (vlen (pos h) ≤ npos)%N;
}.

Definition keys_ok (l : list item) : Prop := Forall (λ x, is_nan x.1 = false) l.

(** Every item is at least its parent. *)
Definition ordered (l : list item) : Prop :=
  ∀ (i : N) p x, (0 < i)%N → l !! (parent i) = Some p → l !! i = Some x →
    item_leb p x = true.

(** The represented finite map. *)
Definition view (h : t) : gmap N double := list_to_map ((λ x : item, (x.2, x.1)) <$> heap h).

(** ** The order on items *)

Lemma item_leb_rank x y :
  is_nan x.1 = false → is_nan y.1 = false →
  item_leb x y = true ↔
  rank_lt (rank x.1) (rank y.1) ∨ (rank x.1 = rank y.1 ∧ (x.2 ≤ y.2)%N).
Proof.
  intros Hx Hy. unfold item_leb.
  by rewrite orb_true_iff, andb_true_iff, dltb_rank, deqb_rank, N.leb_le.
Qed.

Lemma item_ltb_rank x y :
  is_nan x.1 = false → is_nan y.1 = false →
  item_ltb x y = true ↔
  rank_lt (rank x.1) (rank y.1) ∨ (rank x.1 = rank y.1 ∧ (x.2 < y.2)%N).
Proof.
  intros Hx Hy. unfold item_ltb.
  by rewrite orb_true_iff, andb_true_iff, dltb_rank, deqb_rank, N.ltb_lt.
Qed.

Lemma item_leb_trans x y z :
  is_nan x.1 = false → is_nan y.1 = false → is_nan z.1 = false →
  item_leb x y = true → item_leb y z = true → item_leb x z = true.
Proof.
  intros Hx Hy Hz. rewrite !item_leb_rank by done.
  intros [H1|[H1 ?]] [H2|[H2 ?]].
  - left. by eapply rank_lt_trans.
  - left. by rewrite <- H2.
  - left. by rewrite H1.
  - right. split; [congruence|lia].
Qed.

Lemma item_leb_refl x : is_nan x.1 = false → item_leb x x = true.
Proof. intros. apply item_leb_rank; [done..|]. right. split; [done|lia]. Qed.

Lemma item_leb_total x y :
  is_nan x.1 = false → is_nan y.1 = false →
  item_leb x y = false → item_leb y x = true.
Proof.
  intros Hx Hy H. apply item_leb_rank; [done..|].
  assert (¬ (item_leb x y = true)) as Hn by (by rewrite H).
  rewrite item_leb_rank in Hn by done.
  destruct (rank_total (rank y.1) (rank x.1)) as [?|[Heq|?]]; [by left| |tauto].
  right. split; [done|].
  destruct (decide (y.2 ≤ x.2)%N); [done|]. exfalso. apply Hn. right. split; [done|lia].
Qed.

Lemma item_ltb_leb x y :
  is_nan x.1 = false → is_nan y.1 = false → item_ltb x y = negb (item_leb y x).
Proof.
  intros Hx Hy. apply eq_true_iff_eq.
  rewrite negb_true_iff, <- not_true_iff_false, item_ltb_rank, item_leb_rank by done.
  pose proof (rank_lt_irrefl (rank y.1)).
  split.
  - intros [H1|[H1 ?]] [H2|[H2 ?]].
    + by apply (rank_lt_irrefl (rank x.1)), (rank_lt_trans _ (rank y.1)).
    + by rewrite H2 in *.
    + by rewrite H1 in *.
    + lia.
  - intros Hn. destruct (rank_total (rank x.1) (rank y.1)) as [?|[Heq|?]]; [by left| |tauto].
    right. split; [done|].
    destruct (decide (x.2 < y.2)%N); [done|]. exfalso. apply Hn. right. split; [done|lia].
Qed.

(** ** Structure *)

Lemma wf_ids_nodup h : wf h → NoDup (snd <$> heap h).
Proof.
  intros Hwf. apply NoDup_alt. intros i j d.
  rewrite !list_lookup_fmap, <- !vlookup_nat.
  destruct (heap h !! N.of_nat i) as [[k1 d1]|] eqn:Hi; [|done].
  destruct (heap h !! N.of_nat j) as [[k2 d2]|] eqn:Hj; [|done].
  simpl. intros [= ->] [= ->].
  apply (wf_heap_pos h Hwf) in Hi. apply (wf_heap_pos h Hwf) in Hj.
  rewrite Hi in Hj. simplify_eq. lia.
Qed.

Lemma wf_heap_len h : wf h → (vlen (heap h) ≤ vlen (pos h))%N.
Proof.
  intros Hwf.
  assert (snd <$> heap h ⊆+ range 0 (vlen (pos h))) as Hsub%submseteq_length.
  { apply NoDup_submseteq; [by apply wf_ids_nodup|].
    intros d ([k d'] & -> & Hin)%list_elem_of_fmap. apply elem_of_range.
    apply elem_of_vlookup in Hin as [i Hi].
    apply (wf_heap_pos h Hwf), vlookup_lt_Some in Hi. simpl. lia. }
  revert Hsub. unfold range. rewrite !length_fmap, length_seq. unfold vlen. lia.
Qed.

Lemma wf_heap_id_lt h i x : wf h → heap h !! (i : N) = Some x → (x.2 < vlen (pos h))%N.
Proof. intros Hwf Hi. destruct x. by eapply vlookup_lt_Some, wf_heap_pos. Qed.

Lemma elem_of_view h d k : wf h → view h !! d = Some k ↔ (k, d) ∈ heap h.
Proof.
  intros Hwf. unfold view. split.
  - intros ([k' d'] & [= -> ->] & ?)%elem_of_list_to_map_2%list_elem_of_fmap. done.
  - intros Hin. apply elem_of_list_to_map_1.
    + rewrite <- list_fmap_compose. apply (wf_ids_nodup h Hwf).
    + apply list_elem_of_fmap. by exists (k, d).
Qed.

Lemma view_perm h h' : wf h → heap h ≡ₚ heap h' → view h' = view h.
Proof.
  intros Hwf Hp. symmetry. apply list_to_map_proper.
  - rewrite <- list_fmap_compose. by apply wf_ids_nodup.
  - by rewrite Hp.
Qed.

(** The heap with item [x] put at index [idx]: what [place] makes of it, and
    what a sift's working state, with its hole at [idx], stands for. *)
Definition hole (h : t) (idx : N) (x : item) : t :=
  mk (<[idx := x]> (heap h)) (<[x.2 := idx]> (pos h)).

Lemma place_spec idx x h :
  (idx < vlen (heap h))%N → (x.2 < vlen (pos h))%N → (vlen (heap h) ≤ npos)%N →
  wp (place idx x) (λ _ h', h' = hole h idx x) h.
Proof.
  intros Hi Hx Hn. unfold place. wp_step. apply wp_set_at; [done|]. cbn beta.
  apply wp_set_at; [done|]. simpl. unfold hole, with_heap, with_pos. simpl.
  rewrite u32_small; [done|]. unfold npos in Hn. lia.
Qed.

Lemma wf_hole_ne h idx x j y :
  wf (hole h idx x) → (idx < vlen (heap h))%N → heap h !! (j : N) = Some y → j ≠ idx →
  (x.2 < vlen (pos h))%N ∧ (y.2 < vlen (pos h))%N ∧ y.2 ≠ x.2.
Proof.
  intros Hwf Hidx Hj Hne. destruct x as [kx dx], y as [ky dy]. simpl.
  pose proof (wf_heap_pos _ Hwf idx kx dx) as Hx. simpl in Hx.
  pose proof (wf_heap_pos _ Hwf j ky dy) as Hy. simpl in Hy.
  rewrite vlookup_insert_eq in Hx by done. specialize (Hx eq_refl).
  rewrite vlookup_insert_ne in Hy by done. specialize (Hy Hj).
  pose proof (vlookup_lt_Some _ _ _ Hx) as Hlx. pose proof (vlookup_lt_Some _ _ _ Hy) as Hly.
  rewrite vlen_insert in Hlx, Hly. split_and!; [done..|].
  intros ->. rewrite Hx in Hy. by simplify_eq.
Qed.

(** Moving the item at [j] into the hole at [idx] moves the hole to [j]. *)
Lemma wf_hole_move h idx x j y :
  wf (hole h idx x) → (idx < vlen (heap h))%N → heap h !! (j : N) = Some y → j ≠ idx →
  wf (hole (hole h idx y) j x).
Proof.
  intros Hwf Hidx Hj Hne.
  destruct (wf_hole_ne _ _ _ _ _ Hwf Hidx Hj Hne) as (Hx & Hy & Hxy).
  pose proof (wf_hole_ne h idx x) as Hids.
  assert (wf (hole h idx x)) as [Hhp Hph Hlen] by done. simpl in *.
  split; simpl.
  - intros i k d. rewrite vlookup_insert_Some. intros [(-> & -> & ?)|[Hji Hi]].
    + rewrite vlookup_insert_eq by (by rewrite vlen_insert). done.
    + apply vlookup_insert_Some in Hi as [(-> & -> & ?)|[Hidxi Hi]].
      * rewrite vlookup_insert_ne, vlookup_insert_eq by done. done.
      * destruct (Hids i (k, d) Hwf Hidx Hi ltac:(done)) as (_ & ? & Hdx). simpl in Hdx.
        pose proof (Hhp i k d) as Hi'. rewrite vlookup_insert_ne in Hi' by done.
        specialize (Hi' Hi). rewrite vlookup_insert_ne in Hi' by done.
        rewrite vlookup_insert_ne by done.
        destruct (decide (y.2 = d)) as [<-|]; [|by rewrite vlookup_insert_ne].
        destruct y as [ky dy]. simpl in *.
        pose proof (Hhp j ky dy) as Hj'. rewrite vlookup_insert_ne in Hj' by done.
        specialize (Hj' Hj). rewrite vlookup_insert_ne in Hj' by done.
        rewrite Hi' in Hj'. simplify_eq.
  - intros d i. rewrite vlookup_insert_Some. intros [(<- & -> & ?)|[Hdx Hd]] Hi.
    + exists x.1. rewrite vlookup_insert_eq; [by destruct x|]. rewrite vlen_insert.
      by eapply vlookup_lt_Some.
    + apply vlookup_insert_Some in Hd as [(<- & -> & ?)|[Hdy Hd]].
      * exists y.1. rewrite vlookup_insert_ne, vlookup_insert_eq by done. by destruct y.
      * destruct (Hph d i) as [k Hk]; [by rewrite vlookup_insert_ne|done|].
        apply vlookup_insert_Some in Hk as [(-> & -> & ?)|[? Hk]]; [done|].
        exists k. rewrite !vlookup_insert_ne; [done..|].
        intros ->. rewrite Hj in Hk. by simplify_eq.
  - by rewrite !vlen_insert in *.
Qed.

Lemma parent_iff (c i : N) : (0 < c)%N → (parent c = i ↔ 4 * i + 1 ≤ c ≤ 4 * i + 4)%N.
Proof.
  intros. unfold parent. pose proof (N.div_mod (c - 1) 4 ltac:(done)).
  pose proof (N.mod_upper_bound (c - 1) 4 ltac:(done)).
  generalize dependent ((c - 1) `div` 4)%N. generalize dependent ((c - 1) `mod` 4)%N. lia.
Qed.

Lemma parent_lt (c : N) : (0 < c)%N → (parent c < c)%N.
Proof. intros H. pose proof (proj1 (parent_iff c _ H) eq_refl). lia. Qed.

(** ** The sifts

    Both loops are described by any predicate [J] of the heap (with the item
    [x] in the hole) and the hole's index that a move keeps. *)

Lemma hole_lookup h idx x : (idx < vlen (heap h))%N → heap (hole h idx x) !! idx = Some x.
Proof. intros. by apply vlookup_insert_eq. Qed.

Lemma hole_move_heap h idx x j y :
  (idx < vlen (heap h))%N → heap h !! (j : N) = Some y → j ≠ idx →
  heap (hole (hole h idx y) j x) = <[j := x]> (<[idx := y]> (heap (hole h idx x))) ∧
  heap (hole (hole h idx y) j x) ≡ₚ heap (hole h idx x).
Proof.
  intros Hidx Hj Hne.
  destruct (vlookup_swap_perm (heap h) idx j x y _ Hj ltac:(done) Hidx eq_refl) as [He Hp].
  simpl. rewrite He. by split.
Qed.

Lemma siftUp_loop_spec (J : list item → N → Prop) x :
  (∀ L idx y, J L idx → (0 < idx)%N → L !! idx = Some x →
     L !! (parent idx) = Some y → item_leb y x = false →
     J (<[(parent idx) := x]> (<[idx := y]> L)) (parent idx)) →
  ∀ fuel idx h,
  (N.to_nat idx < fuel) → (idx < vlen (heap h))%N →
  wf (hole h idx x) → J (heap (hole h idx x)) idx →
  wp (siftUp_loop fuel idx x) (λ idx' h',
    (idx' < vlen (heap h'))%N ∧ wf (hole h' idx' x) ∧
    heap (hole h' idx' x) ≡ₚ heap (hole h idx x) ∧ J (heap (hole h' idx' x)) idx' ∧
    (idx' = 0%N ∨ ∃ y, heap h' !! (parent idx') = Some y ∧ item_leb y x = true)) h.
Proof.
  intros HJ fuel. induction fuel as [|fuel IH]; intros idx h Hf Hidx Hwf HJ0; [lia|].
  simpl. destruct (N.ltb_spec 0 idx) as [Hpos|]; [|wp_steps; split_and!; [done..|left; lia]].
  assert (parent idx < idx)%N as Hlt by (by apply parent_lt).
  destruct (proj2 (vlookup_lt (heap h) (parent idx))) as [hp Hhp]; [lia|].
  wp_step. eapply wp_at; [done|].
  destruct (item_leb hp x) eqn:Hle.
  { wp_steps. split_and!; [done..|]. right. by exists hp. }
  destruct (wf_hole_ne _ _ _ _ _ Hwf Hidx Hhp ltac:(lia)) as (Hx & Hy & _).
  pose proof (wf_heap_len _ Hwf) as Hlen. pose proof (wf_len _ Hwf) as Hlen'.
  simpl in Hlen, Hlen'. rewrite !vlen_insert in Hlen. rewrite vlen_insert in Hlen'.
  wp_step. eapply wp_mono; [apply place_spec; [done..|lia]|]. simpl. intros _ h' ->.
  destruct (hole_move_heap h idx x (parent idx) hp Hidx Hhp ltac:(lia)) as [Heq Hp].
  eapply wp_mono; [apply IH|].
  - lia.
  - simpl. rewrite vlen_insert. lia.
  - apply wf_hole_move; [done..|lia].
  - rewrite Heq. apply HJ; [done..| | |done].
    + by apply hole_lookup.
    + simpl. rewrite vlookup_insert_ne by lia. done.
  - intros idx' h' (? & ? & Hp' & ? & ?). split_and!; [done..| |done|done].
    by etrans; [apply Hp'|].
Qed.

Lemma min_child_spec first h :
  (first < vlen (heap h))%N →
  wp (min_child first (vlen (heap h))) (λ b h', h' = h ∧
    (first ≤ b < N.min (first + 4) (vlen (heap h)))%N ∧
    ((∀ (c : N) z, (first ≤ c < first + 4)%N → heap h !! c = Some z → is_nan z.1 = false) →
     ∀ (c : N) y z, (first ≤ c < first + 4)%N →
      heap h !! b = Some y → heap h !! c = Some z → item_leb y z = true)) h.
Proof.
  intros Hfirst. unfold min_child. set (hi := N.min (first + 4) (vlen (heap h))).
  eapply wp_mono; [apply (wp_foldM _ (λ rest b h', h' = h ∧
    ∃ m, rest = range m hi ∧ (first < m ≤ hi)%N ∧ (first ≤ b < m)%N ∧
    ((∀ (c : N) z, (first ≤ c < first + 4)%N → heap h !! c = Some z → is_nan z.1 = false) →
     ∀ (c : N) y z, (first ≤ c < m)%N →
      heap h !! b = Some y → heap h !! c = Some z → item_leb y z = true)))|].
  - split; [done|]. exists (first + 1)%N. split_and!; [done|lia..|].
    intros Hok c y z Hc Hy Hz. assert (c = first) as -> by lia. simplify_eq.
    apply item_leb_refl, (Hok first); [lia|done].
  - intros c rest b h' (-> & m & Hrest & Hm & Hb & Hmin).
    assert (m < hi)%N as Hlt.
    { destruct (decide (m < hi)%N); [done|]. by rewrite range_nil in Hrest by lia. }
    rewrite range_cons in Hrest by done. simplify_eq.
    destruct (proj2 (vlookup_lt (heap h) m)) as [hc Hhc]; [lia|].
    destruct (proj2 (vlookup_lt (heap h) b)) as [hb Hhb]; [lia|].
    wp_step. eapply wp_at; [done|]. wp_step. eapply wp_at; [done|]. wp_steps.
    split; [done|]. exists (m + 1)%N. split_and!; [done|lia..|case_match; lia|case_match; lia|].
    intros Hok c y z Hc Hy Hz. specialize (Hmin Hok).
    pose proof (Hok m hc ltac:(lia) Hhc). pose proof (Hok b hb ltac:(lia) Hhb).
    pose proof (Hok c z ltac:(lia) Hz).
    destruct (item_ltb hc hb) eqn:Hcmp; simplify_eq;
      rewrite item_ltb_leb in Hcmp by eauto.
    + apply negb_true_iff in Hcmp.
      destruct (decide (c = m)) as [->|]; simplify_eq; [apply item_leb_refl; eauto|].
      eapply (item_leb_trans _ hb z); [by eauto..| |].
      * apply item_leb_total; by eauto.
      * apply (Hmin c hb z); [lia|done..].
    + apply negb_false_iff in Hcmp.
      destruct (decide (c = m)) as [->|]; simplify_eq; [done|].
      eapply (Hmin c _ z); [lia|done..].
  - intros b h' (-> & m & Hnil & Hm & Hb & Hmin). split_and!; [done|lia..|].
    assert (m = hi) as ->.
    { destruct (decide (m < hi)%N); [|lia]. by rewrite range_cons in Hnil. }
    intros Hok c y z Hc Hy Hz. apply (Hmin Hok c); [|done..].
    pose proof (vlookup_lt_Some _ _ _ Hz). lia.
Qed.

Lemma siftDown_loop_spec (J : list item → N → Prop) x :
  (∀ L (idx b : N) y, J L idx → L !! idx = Some x → (4 * idx + 1 ≤ b ≤ 4 * idx + 4)%N →
     L !! b = Some y → item_leb x y = false →
     (keys_ok L → ∀ (c : N) z, (4 * idx + 1 ≤ c ≤ 4 * idx + 4)%N → L !! c = Some z →
        item_leb y z = true) →
     J (<[b := x]> (<[idx := y]> L)) b) →
  ∀ fuel idx h,
  (N.to_nat (vlen (heap h)) < fuel + N.to_nat idx) → (idx < vlen (heap h))%N →
  wf (hole h idx x) → J (heap (hole h idx x)) idx →
  wp (siftDown_loop fuel (vlen (heap h)) idx x) (λ idx' h',
    (idx' < vlen (heap h'))%N ∧ wf (hole h' idx' x) ∧
    heap (hole h' idx' x) ≡ₚ heap (hole h idx x) ∧ J (heap (hole h' idx' x)) idx' ∧
    (keys_ok (heap (hole h' idx' x)) → ∀ (c : N) z, (4 * idx' + 1 ≤ c ≤ 4 * idx' + 4)%N →
       heap (hole h' idx' x) !! c = Some z → item_leb x z = true)) h.
Proof.
  intros HJ fuel. induction fuel as [|fuel IH]; intros idx h Hf Hidx Hwf HJ0; [lia|].
  assert (∀ (c : N) z, c ≠ idx → heap (hole h idx x) !! c = Some z ↔ heap h !! c = Some z) as Hne.
  { intros c z Hc. simpl. by rewrite vlookup_insert_ne. }
  assert (∀ (c : N) z, keys_ok (heap (hole h idx x)) → heap (hole h idx x) !! c = Some z →
    is_nan z.1 = false) as Hnan.
  { intros c z Hok Hz. unfold keys_ok in Hok. rewrite Forall_forall in Hok.
    apply Hok, elem_of_vlookup. eauto. }
  cbn [siftDown_loop]. destruct (N.leb_spec (vlen (heap h)) (4 * idx + 1)) as [Hend|Hin].
  { wp_steps. split_and!; [done..|]. intros _ c z Hc Hz%vlookup_lt_Some.
    simpl in Hz. rewrite vlen_insert in Hz. lia. }
  wp_step. eapply wp_mono; [by apply min_child_spec|]. simpl. intros b h' (-> & Hb & Hmin).
  destruct (proj2 (vlookup_lt (heap h) b)) as [hb Hhb]; [lia|].
  wp_step. eapply wp_at; [done|].
  assert (keys_ok (heap (hole h idx x)) → ∀ (c : N) z, (4 * idx + 1 ≤ c ≤ 4 * idx + 4)%N →
    heap (hole h idx x) !! c = Some z → item_leb hb z = true) as Hmin'.
  { intros Hok c z Hc Hz. rewrite Hne in Hz by lia. refine (Hmin _ c hb z _ Hhb Hz); [|lia].
    intros c' z' Hc' Hz'. apply (Hnan c'); [done|]. rewrite Hne by lia. done. }
  destruct (item_leb x hb) eqn:Hle.
  { wp_steps. split_and!; [done..|]. intros Hok c z Hc Hz.
    eapply (item_leb_trans x hb z); [| | |done|by eauto].
    - apply (Hnan idx); [done|]. by apply hole_lookup.
    - apply (Hnan b); [done|]. rewrite Hne by lia. done.
    - by eapply Hnan. }
  destruct (wf_hole_ne _ _ _ _ _ Hwf Hidx Hhb ltac:(lia)) as (Hx & Hy & _).
  pose proof (wf_heap_len _ Hwf) as Hlen. pose proof (wf_len _ Hwf) as Hlen'.
  simpl in Hlen, Hlen'. rewrite !vlen_insert in Hlen. rewrite vlen_insert in Hlen'.
  wp_step. eapply wp_mono; [apply place_spec; [done..|lia]|]. simpl. intros _ h' ->.
  destruct (hole_move_heap h idx x b hb Hidx Hhb ltac:(lia)) as [Heq Hp].
  replace (vlen (heap h)) with (vlen (heap (hole h idx hb))) by apply vlen_insert.
  eapply wp_mono; [apply IH|].
  - simpl. rewrite vlen_insert. lia.
  - simpl. rewrite vlen_insert. lia.
  - apply wf_hole_move; [done..|lia].
  - rewrite Heq. apply (HJ _ idx b hb); [done| |lia| |done|done].
    + by apply hole_lookup.
    + rewrite Hne by lia. done.
  - intros idx' h' (? & ? & Hp' & ? & ?). split_and!; [done..| |done|done].
    by etrans; [apply Hp'|].
Qed.

(** [siftUp] and [siftDown] from a well-formed heap: they return, keep it well
    formed and only permute the items. *)
Lemma hole_same h idx x : wf h → heap h !! idx = Some x → hole h idx x = h.
Proof.
  intros Hwf Hx. destruct h as [H P], x as [k d]. unfold hole. simpl in *.
  pose proof (wf_heap_pos _ Hwf idx k d Hx) as Hp. simpl in Hp.
  f_equal; unfold insert, vec_insert, lookup, vec_lookup in *; by apply list_insert_id.
Qed.

Lemma place_hole idx x h :
  wf (hole h idx x) → (idx < vlen (heap h))%N →
  wp (place idx x) (λ _ h', h' = hole h idx x) h.
Proof.
  intros Hwf Hidx.
  pose proof (wf_heap_id_lt _ _ _ Hwf (hole_lookup h idx x Hidx)) as Hid.
  pose proof (wf_heap_len _ Hwf) as Hlen. pose proof (wf_len _ Hwf) as Hlen'.
  simpl in *. rewrite !vlen_insert in *. apply place_spec; [done..|lia].
Qed.

Lemma siftUp_spec (J : list item → N → Prop) idx x h :
  (∀ L idx y, J L idx → (0 < idx)%N → L !! idx = Some x →
     L !! (parent idx) = Some y → item_leb y x = false →
     J (<[(parent idx) := x]> (<[idx := y]> L)) (parent idx)) →
  wf h → heap h !! idx = Some x → J (heap h) idx →
  wp (siftUp idx) (λ _ h', wf h' ∧ heap h' ≡ₚ heap h ∧ ∃ idx', J (heap h') idx' ∧
    heap h' !! idx' = Some x ∧
    (idx' = 0%N ∨ ∃ y, heap h' !! (parent idx') = Some y ∧ item_leb y x = true)) h.
Proof.
  intros HJ Hwf Hx HJ0. pose proof (vlookup_lt_Some _ _ _ Hx) as Hidx.
  pose proof (hole_same _ _ _ Hwf Hx) as Hsame.
  unfold siftUp. wp_step. eapply wp_at; [done|]. wp_step.
  eapply wp_mono; [apply (siftUp_loop_spec J x HJ); [lia|done|by rewrite Hsame..]|].
  cbn beta. intros idx' h' (Hidx' & Hwf' & Hp & HJ' & Hend). rewrite Hsame in Hp.
  eapply wp_mono; [by apply place_hole|]. cbn beta. intros _ h'' ->.
  split_and!; [done..|]. exists idx'. split_and!; [done|by apply hole_lookup|].
  destruct Hend as [->|(y & Hy & Hle)]; [by left|].
  destruct (decide (idx' = 0%N)) as [->|Hnz]; [by left|right].
  exists y. split; [|done]. simpl.
  rewrite vlookup_insert_ne; [done|]. pose proof (parent_lt idx'). lia.
Qed.

Lemma siftDown_spec (J : list item → N → Prop) idx x h :
  (∀ L (idx b : N) y, J L idx → L !! idx = Some x → (4 * idx + 1 ≤ b ≤ 4 * idx + 4)%N →
     L !! b = Some y → item_leb x y = false →
     (keys_ok L → ∀ (c : N) z, (4 * idx + 1 ≤ c ≤ 4 * idx + 4)%N → L !! c = Some z →
        item_leb y z = true) →
     J (<[b := x]> (<[idx := y]> L)) b) →
  wf h → heap h !! idx = Some x → J (heap h) idx →
  wp (siftDown idx) (λ _ h', wf h' ∧ heap h' ≡ₚ heap h ∧ ∃ idx', J (heap h') idx' ∧
    heap h' !! idx' = Some x ∧
    (keys_ok (heap h') → ∀ (c : N) z, (4 * idx' + 1 ≤ c ≤ 4 * idx' + 4)%N →
       heap h' !! c = Some z → item_leb x z = true)) h.
Proof.
  intros HJ Hwf Hx HJ0. pose proof (vlookup_lt_Some _ _ _ Hx) as Hidx.
  pose proof (hole_same _ _ _ Hwf Hx) as Hsame.
  unfold siftDown. wp_step. eapply wp_at; [done|]. wp_steps.
  eapply wp_mono; [apply (siftDown_loop_spec J x HJ); [lia|done|by rewrite Hsame..]|].
  cbn beta. intros idx' h' (Hidx' & Hwf' & Hp & HJ' & Hend). rewrite Hsame in Hp.
  eapply wp_mono; [by apply place_hole|]. cbn beta. intros _ h'' ->.
  split_and!; [done..|]. exists idx'. split_and!; [done|by apply hole_lookup|done].
Qed.

(** ** The heap order *)

(** [L] is ordered but for the item at [idx], which may be out of order with its
    parent and with its children; the children are in order with the parent. *)
Definition weak (up down : bool) (L : list item) (idx : N) : Prop :=
  keys_ok L ∧
  (∀ (i : N) p z, (0 < i)%N → (up = true → i ≠ idx) → (down = true → parent i ≠ idx) →
     L !! parent i = Some p → L !! i = Some z → item_leb p z = true) ∧
  (∀ (c : N) p z, (0 < idx)%N → (0 < c)%N → parent c = idx →
     L !! parent idx = Some p → L !! c = Some z → item_leb p z = true).

Lemma keys_ok_lookup L (i : N) z : keys_ok L → L !! i = Some z → is_nan z.1 = false.
Proof.
  unfold keys_ok. rewrite Forall_forall. intros Hok Hz. apply Hok, elem_of_vlookup. eauto.
Qed.

Lemma vlookup_move (L : list item) (i j : N) (x y : item) (c : N) z :
  L !! i = Some x → L !! j = Some y →
  <[j := x]> (<[i := y]> L) !! c = Some z →
  (c = j ∧ z = x) ∨ (c = i ∧ c ≠ j ∧ z = y) ∨ (c ≠ i ∧ c ≠ j ∧ L !! c = Some z).
Proof.
  intros Hi Hj. rewrite !vlookup_insert_Some. naive_solver.
Qed.

Lemma keys_ok_move (L : list item) (i j : N) (x y : item) :
  keys_ok L → L !! i = Some x → L !! j = Some y → keys_ok (<[j := x]> (<[i := y]> L)).
Proof.
  intros Hok Hi Hj. unfold keys_ok. apply Forall_forall.
  intros z [c Hc]%elem_of_vlookup.
  apply (vlookup_move _ _ _ _ _ _ _ Hi Hj) in Hc as [[-> ->]|[(-> & ? & ->)|(? & ? & Hc)]];
    by eapply keys_ok_lookup.
Qed.

Lemma weak_up_step down L idx x y :
  weak true down L idx → (0 < idx)%N → L !! idx = Some x → L !! parent idx = Some y →
  item_leb y x = false → weak true false (<[parent idx := x]> (<[idx := y]> L)) (parent idx).
Proof.
  intros (Hok & Hord & Hgr) Hidx Hx Hy Hle.
  pose proof (parent_lt idx Hidx) as Hp.
  pose proof (keys_ok_lookup _ _ _ Hok Hx) as Hnx. pose proof (keys_ok_lookup _ _ _ Hok Hy) as Hny.
  pose proof (item_leb_total y x Hny Hnx Hle) as Hxy.
  split_and!; [by apply keys_ok_move|..].
  - intros i p z Hi Hne _ Hpl Hzl. specialize (Hne eq_refl). pose proof (parent_lt i Hi).
    apply (vlookup_move _ _ _ _ _ _ _ Hx Hy) in Hzl as [[-> ->]|[(-> & ? & ->)|(Hi1 & Hi2 & Hzl)]]; [done| | |done..].
    + apply (vlookup_move _ _ _ _ _ _ _ Hx Hy) in Hpl as [[_ ->]|[(? & ? & ?)|(? & ? & ?)]]; [done|lia|done|done..].
    + pose proof (keys_ok_lookup _ _ _ Hok Hzl).
      apply (vlookup_move _ _ _ _ _ _ _ Hx Hy) in Hpl as [[Hpi ->]|[(Hpi & ? & ->)|(? & ? & Hpl)]]; [| | |done..].
      * apply (item_leb_trans x y z); [done..|]. apply (Hord i); [done|done|lia|congruence|done].
      * by apply (Hgr i).
      * by apply (Hord i).
  - intros c p z Hpp Hc Hpc Hpl Hzl. pose proof (parent_lt c Hc). pose proof (parent_lt _ Hpp).
    assert (L !! parent (parent idx) = Some p) as Hpl'.
    { apply (vlookup_move _ _ _ _ _ _ _ Hx Hy) in Hpl as [[? ?]|[(? & ? & ?)|(? & ? & ?)]]; [lia|lia|done..]. }
    assert (item_leb p y = true) as Hpy by (apply (Hord (parent idx)); [done|lia|lia|done..]).
    apply (vlookup_move _ _ _ _ _ _ _ Hx Hy) in Hzl as [[? ?]|[(? & ? & ->)|(? & ? & Hzl)]]; [lia|done| |done..].
    pose proof (keys_ok_lookup _ _ _ Hok Hzl). pose proof (keys_ok_lookup _ _ _ Hok Hpl').
    apply (item_leb_trans p y z); [done..|]. apply (Hord c); [done|lia|lia|congruence|done].
Qed.

Lemma weak_down_step L (idx b : N) x y :
  weak false true L idx → L !! idx = Some x → (4 * idx + 1 ≤ b ≤ 4 * idx + 4)%N →
  L !! b = Some y → item_leb x y = false →
  (keys_ok L → ∀ (c : N) z, (4 * idx + 1 ≤ c ≤ 4 * idx + 4)%N → L !! c = Some z →
     item_leb y z = true) →
  weak false true (<[b := x]> (<[idx := y]> L)) b.
Proof.
  intros (Hok & Hord & Hgr) Hx Hb Hy Hle Hmin. specialize (Hmin Hok).
  assert (parent b = idx) as Hpb by (apply parent_iff; lia).
  pose proof (keys_ok_lookup _ _ _ Hok Hx) as Hnx. pose proof (keys_ok_lookup _ _ _ Hok Hy) as Hny.
  pose proof (item_leb_total x y Hnx Hny Hle) as Hyx.
  split_and!; [by apply keys_ok_move|..].
  - intros i p z Hi _ Hne Hpl Hzl. specialize (Hne eq_refl). pose proof (parent_lt i Hi).
    apply (vlookup_move _ _ _ _ _ _ _ Hx Hy) in Hzl as [[-> ->]|[(-> & ? & ->)|(Hi1 & Hi2 & Hzl)]]; [| | |done..].
    + apply (vlookup_move _ _ _ _ _ _ _ Hx Hy) in Hpl as [[? ?]|[(? & ? & ->)|(? & ? & ?)]]; [lia|done|congruence|done..].
    + apply (vlookup_move _ _ _ _ _ _ _ Hx Hy) in Hpl as [[? ?]|[(? & ? & ?)|(? & ? & Hpl)]]; [done|lia| |done..].
      apply (Hgr b); [lia..|done|done|done].
    + apply (vlookup_move _ _ _ _ _ _ _ Hx Hy) in Hpl as [[? ?]|[(Hpi & ? & ->)|(? & ? & Hpl)]]; [done| | |done..].
      * apply (Hmin i); [|done]. apply parent_iff; done.
      * by apply (Hord i).
  - intros c p z _ Hc Hpc Hpl Hzl. rewrite Hpb in Hpl. pose proof (parent_lt c Hc).
    assert (0 < b)%N as Hb0 by lia. pose proof (parent_lt b Hb0).
    apply (vlookup_move _ _ _ _ _ _ _ Hx Hy) in Hpl as [[? ?]|[(? & ? & ->)|(? & ? & ?)]]; [lia| |done..].
    apply (vlookup_move _ _ _ _ _ _ _ Hx Hy) in Hzl as [[? ?]|[(? & ? & ?)|(? & ? & Hzl)]]; [lia|lia| |done..].
    apply (Hord c); [done|done|lia|congruence|done].
Qed.

Definition good (L : list item) : Prop := keys_ok L ∧ ordered L.

Lemma weak_up_done L idx x :
  weak true false L idx → L !! idx = Some x →
  (idx = 0%N ∨ ∃ y, L !! parent idx = Some y ∧ item_leb y x = true) → good L.
Proof.
  intros (Hok & Hord & _) Hx Hend. split; [done|]. intros i p z Hi Hp Hz.
  destruct (decide (i = idx)) as [->|]; [|by apply (Hord i)].
  destruct Hend as [->|(y & ? & ?)]; [lia|congruence].
Qed.

Lemma weak_both_done L idx x :
  weak true true L idx → L !! idx = Some x →
  (idx = 0%N ∨ ∃ y, L !! parent idx = Some y ∧ item_leb y x = true) → weak false true L idx.
Proof.
  intros (Hok & Hord & Hgr) Hx Hend. split_and!; [done| |done].
  intros i p z Hi _ Hne Hp Hz.
  destruct (decide (i = idx)) as [->|]; [|by apply (Hord i)].
  destruct Hend as [->|(y & ? & ?)]; [lia|congruence].
Qed.

Lemma weak_down_done L idx x :
  weak false true L idx → L !! idx = Some x →
  (keys_ok L → ∀ (c : N) z, (4 * idx + 1 ≤ c ≤ 4 * idx + 4)%N → L !! c = Some z →
     item_leb x z = true) → good L.
Proof.
  intros (Hok & Hord & _) Hx Hend. split; [done|]. intros i p z Hi Hp Hz.
  destruct (decide (parent i = idx)) as [<-|]; [|by apply (Hord i)].
  simplify_eq. apply (Hend Hok i); [|done]. by apply parent_iff.
Qed.

Lemma weak_true_true L idx : weak true false L idx → weak true true L idx.
Proof. intros (? & Hord & ?). split_and!; [done| |done]. intros i p z ? ? _. by apply Hord. Qed.

(** The items of a good heap with an item changed at [idx] are weakly ordered. *)
Lemma good_insert L idx x :
  good L → is_nan x.1 = false → weak true true (<[idx := x]> L) idx.
Proof.
  intros [Hok Hord] Hx. split_and!.
  - apply Forall_forall. intros z [c Hc]%elem_of_vlookup.
    apply vlookup_insert_Some in Hc as [(? & <- & ?)|[? ?]]; [done|by eapply keys_ok_lookup].
  - intros i p z Hi Hup Hdown Hp Hz. rewrite vlookup_insert_ne in Hp by (intros ->; by apply Hdown).
    rewrite vlookup_insert_ne in Hz by (intros ->; by apply Hup). by apply (Hord i).
  - intros c p z Hi Hc Hpc Hp Hz. pose proof (parent_lt idx Hi). pose proof (parent_lt c Hc).
    rewrite vlookup_insert_ne in Hp, Hz by lia.
    destruct (proj2 (vlookup_lt L idx)) as [y Hy].
    { apply vlookup_lt_Some in Hz. lia. }
    apply (item_leb_trans p y z); [by eapply keys_ok_lookup..| |].
    + by apply (Hord idx).
    + apply (Hord c); [done|by rewrite Hpc|done].
Qed.

Lemma good_snoc L x : good L → is_nan x.1 = false → weak true false (L ++ [x]) (vlen L).
Proof.
  intros [Hok Hord] Hx. split_and!.
  - apply Forall_app. by split; [|apply Forall_singleton].
  - intros i p z Hi Hne _ Hp Hz. specialize (Hne eq_refl). pose proof (parent_lt i Hi).
    apply vlookup_snoc_Some in Hz as [Hz|[? ?]]; [|done].
    pose proof (vlookup_lt_Some _ _ _ Hz).
    apply vlookup_snoc_Some in Hp as [Hp|[? ?]]; [|lia]. by apply (Hord i).
  - intros c p z _ Hc Hpc _ Hz%vlookup_lt_Some. pose proof (parent_lt c Hc).
    rewrite vlen_app in Hz. unfold vlen at 2 in Hz. simpl in Hz. lia.
Qed.

Lemma good_prefix L x : good (L ++ [x]) → good L.
Proof.
  intros [Hok Hord]. apply Forall_app in Hok as [Hok _]. split; [done|].
  intros i p z Hi Hp Hz. apply (Hord i); [done|..]; apply vlookup_snoc_Some; by left.
Qed.

Lemma good_decrease L idx x y :
  good L → L !! idx = Some y → is_nan x.1 = false → item_leb x y = true →
  weak true false (<[idx := x]> L) idx.
Proof.
  intros HL Hy Hx Hxy. destruct (good_insert L idx x HL Hx) as (? & Hw & ?). destruct HL as [Hok Hord].
  split_and!; [done| |done]. intros i p z Hi Hup _ Hp Hz.
  destruct (decide (parent i = idx)) as [Hpi|Hpi]; [|by apply (Hw i)].
  pose proof (parent_lt i Hi). rewrite vlookup_insert_ne in Hz by lia.
  assert (item_leb y z = true) by (apply (Hord i); [done|congruence|done]).
  apply vlookup_insert_Some in Hp as [(_ & <- & _)|[? _]]; [|done].
  apply (item_leb_trans x y z); [done|apply (keys_ok_lookup _ _ _ Hok Hy)|
    apply (keys_ok_lookup _ _ _ Hok Hz)|done|done].
Qed.

Lemma good_increase L idx x y :
  good L → L !! idx = Some y → is_nan x.1 = false → item_leb y x = true →
  weak false true (<[idx := x]> L) idx.
Proof.
  intros HL Hy Hx Hyx. destruct (good_insert L idx x HL Hx) as (? & Hw & ?). destruct HL as [Hok Hord].
  split_and!; [done| |done]. intros i p z Hi _ Hdown Hp Hz.
  destruct (decide (i = idx)) as [->|]; [|by apply (Hw i)].
  pose proof (parent_lt idx Hi). rewrite vlookup_insert_ne in Hp by lia.
  apply vlookup_insert_Some in Hz as [(_ & <- & _)|[? _]]; [|done].
  apply (item_leb_trans p y x); [apply (keys_ok_lookup _ _ _ Hok Hp)|
    apply (keys_ok_lookup _ _ _ Hok Hy)|done| |done].
  by apply (Hord idx).
Qed.

(** ** Set, erase, minimum *)

Lemma wf_resize h n :
  wf h → (vlen (pos h) ≤ n)%N → (n ≤ npos)%N → wf (with_pos (vresize n npos (pos h)) h).
Proof.
  intros [Hhp Hph Hlen] Hn Hmax. split; simpl.
  - intros i k d Hi. apply vlookup_resize_Some; [done|]. left. by eapply Hhp.
  - intros d i Hd Hi. apply vlookup_resize_Some in Hd as [Hd|[_ <-]]; [|done..]. by apply Hph.
  - by rewrite vlen_resize.
Qed.

(** Adding an absent derivation at the end. *)
Lemma wf_snoc h d k :
  wf h → pos h !! d = Some npos → wf (mk (heap h ++ [(k, d)]) (<[d := vlen (heap h)]> (pos h))).
Proof.
  intros [Hhp Hph Hlen] Hd. pose proof (vlookup_lt_Some _ _ _ Hd) as Hdl.
  assert (vlen (heap h) ≤ vlen (pos h))%N as Hle by (by apply wf_heap_len).
  assert (∀ (i : N) k', heap h !! i ≠ Some (k', d)) as Hnot.
  { intros i k' Hi. pose proof (vlookup_lt_Some _ _ _ Hi). apply Hhp in Hi. rewrite Hd in Hi.
    simplify_eq. lia. }
  split; simpl.
  - intros i k' d' [Hi|[-> [= -> ->]]]%vlookup_snoc_Some; [|by apply vlookup_insert_eq].
    rewrite vlookup_insert_ne; [by eapply Hhp|]. intros ->. by eapply Hnot.
  - intros d' i [(<- & <- & ?)|[Hne Hd']]%vlookup_insert_Some Hi.
    + exists k. apply vlookup_snoc_eq.
    + destruct (Hph d' i Hd' Hi) as [k' Hk']. exists k'. apply vlookup_snoc_Some. by left.
  - by rewrite vlen_insert.
Qed.

Lemma wf_set_key h (i : N) d k k' :
  wf h → heap h !! i = Some (k, d) → wf (with_heap (<[i := (k', d)]> (heap h)) h).
Proof.
  intros [Hhp Hph Hlen] Hi. split; simpl; [| |done].
  - intros j k2 d2 [(<- & [= <- <-] & ?)|[? Hj]]%vlookup_insert_Some; by eapply Hhp.
  - intros d2 j Hd2 Hj. destruct (Hph d2 j Hd2 Hj) as [k2 Hk2].
    destruct (decide (i = j)) as [->|].
    + simplify_eq. exists k'. apply vlookup_insert_eq. by eapply vlookup_lt_Some.
    + exists k2. by rewrite vlookup_insert_ne.
Qed.

Lemma view_ext h' (m : gmap N double) :
  wf h' → (∀ d k, (k, d) ∈ heap h' ↔ m !! d = Some k) → view h' = m.
Proof.
  intros Hwf Hm. apply map_eq. intros d. apply option_eq. intros k.
  by rewrite elem_of_view, Hm.
Qed.

(** The two halves of [set]: a derivation that is not in the heap, and one whose
    key changes. *)
Lemma set_absent_spec d key h :
  wf h → pos h !! d = Some npos →
  wp (siftUp (vlen (heap h)))
    (λ _ h', wf h' ∧ view h' = <[d := key]> (view h) ∧
      (good (heap h) → is_nan key = false → good (heap h')))
    (mk (heap h ++ [(key, d)]) (<[d := vlen (heap h)]> (pos h))).
Proof.
  intros Hwf Hp. pose proof (wf_heap_len _ Hwf). pose proof (wf_len _ Hwf).
  eapply wp_mono; [apply (siftUp_spec (λ L i,
    good (heap h) → is_nan key = false → weak true false L i) _ (key, d))|].
  - intros L i y HJ ? ? ? ? Hg Hk. by eapply weak_up_step; [apply HJ|..].
  - by apply wf_snoc.
  - apply vlookup_snoc_eq.
  - intros Hg Hk. by apply good_snoc.
  - cbn beta. intros _ h' (Hwf' & Hperm & idx' & HJ & Hx & Hend). split_and!; [done| |].
    + apply view_ext; [done|]. intros d' k'. rewrite Hperm. simpl.
      rewrite elem_of_app, list_elem_of_singleton, <- elem_of_view, lookup_insert_Some by done.
      split; [|naive_solver].
      intros [Hin|[= -> ->]]; [right|by left]. split; [|done]. intros ->.
      apply elem_of_view, elem_of_vlookup in Hin as [i Hi]; [|done].
      pose proof (vlookup_lt_Some _ _ _ Hi). apply (wf_heap_pos _ Hwf) in Hi.
      simplify_eq. unfold npos in *. lia.
    + intros Hg Hk. by eapply weak_up_done; [apply HJ|..].
Qed.

Lemma view_set_key h h' (p : N) d old key :
  wf h → heap h !! p = Some (old, d) → wf h' → heap h' ≡ₚ <[p := (key, d)]> (heap h) →
  view h' = <[d := key]> (view h).
Proof.
  intros Hwf Hold Hwf' Hperm. apply view_ext; [done|]. intros d' k'. rewrite Hperm.
  rewrite lookup_insert_Some, elem_of_view, !elem_of_vlookup by done.
  setoid_rewrite vlookup_insert_Some. split.
  - intros [i [(-> & [= -> ->] & ?)|[Hne Hi]]]; [by left|right]. split; [|by eauto].
    intros ->. apply (wf_heap_pos _ Hwf) in Hi, Hold. congruence.
  - intros [[-> ->]|[Hne [i Hi]]].
    + exists p. left. split_and!; [done..|by eapply vlookup_lt_Some].
    + exists i. right. split; [|done]. intros ->. congruence.
Qed.

Lemma set_present_spec (p : N) d old key h :
  wf h → heap h !! p = Some (old, d) →
  wp (if dltb key old then siftUp p else siftDown p)
    (λ _ h', wf h' ∧ view h' = <[d := key]> (view h) ∧
      (good (heap h) → is_nan key = false → good (heap h')))
    (with_heap (<[p := (key, d)]> (heap h)) h).
Proof.
  intros Hwf Hold. pose proof (wf_set_key h p d old key Hwf Hold) as Hwf2.
  assert ((<[p := (key, d)]> (heap h)) !! p = Some (key, d)) as Hlk.
  { apply vlookup_insert_eq. by eapply vlookup_lt_Some. }
  destruct (dltb key old) eqn:Hlt.
  - eapply wp_mono; [apply (siftUp_spec (λ L i,
      good (heap h) → is_nan key = false → weak true false L i) p (key, d))|]; try done.
    + intros L i y HJ ? ? ? ? Hg Hk. by eapply weak_up_step; [apply HJ|..].
    + intros Hg Hk. eapply good_decrease; [done..|]. unfold item_leb. simpl. by rewrite Hlt.
    + cbn beta. intros _ h' (Hwf' & Hperm & idx' & HJ & Hx & Hend).
      split_and!; [done|by eapply view_set_key|]. intros Hg Hk. by eapply weak_up_done; [apply HJ|..].
  - eapply wp_mono; [apply (siftDown_spec (λ L i,
      good (heap h) → is_nan key = false → weak false true L i) p (key, d))|]; try done.
    + intros L i c y HJ ? ? ? ? Hmin Hg Hk. by eapply weak_down_step; [apply HJ|..].
    + intros Hg Hk. eapply good_increase; [done..|].
      assert (item_ltb (key, d) (old, d) = false) as Hl.
      { unfold item_ltb. simpl. by rewrite Hlt, N.ltb_irrefl, andb_false_r. }
      destruct Hg as [Hok _]. pose proof (keys_ok_lookup _ _ _ Hok Hold).
      rewrite item_ltb_leb in Hl by done. by apply negb_false_iff in Hl.
    + cbn beta. intros _ h' (Hwf' & Hperm & idx' & HJ & Hx & Hend).
      split_and!; [done|by eapply view_set_key|]. intros Hg Hk. by eapply weak_down_done; [apply HJ|..].
Qed.

Lemma heap_set_spec d key h :
  wf h → (d < npos)%N →
  wp (set d key) (λ _ h', wf h' ∧ view h' = <[d := key]> (view h) ∧
    (good (heap h) → is_nan key = false → good (heap h'))) h.
Proof.
  intros Hwf Hd. unfold set. destruct (N.eqb_spec d npos); [lia|]. wp_steps.
  set (h1 := if (vlen (pos h) <=? d)%N then with_pos (vresize (d + 1) npos (pos h)) h else h).
  apply (wp_mono _ (λ _ h', h' = h1)).
  { unfold h1. destruct (N.leb_spec (vlen (pos h)) d); by wp_steps. }
  intros _ ? ->.
  assert (wf h1 ∧ heap h1 = heap h ∧ (d < vlen (pos h1))%N) as (Hwf1 & Hheap & Hdl).
  { unfold h1. destruct (N.leb_spec (vlen (pos h)) d); split_and!; try done.
    - apply wf_resize; [done|lia..].
    - simpl. rewrite vlen_resize. lia. }
  assert (view h = view h1) as -> by (by unfold view; rewrite Hheap).
  rewrite <- Hheap. destruct (proj2 (vlookup_lt (pos h1) d) Hdl) as [p Hp].
  wp_step. eapply wp_at; [done|]. destruct (N.eqb_spec p npos) as [->|Hpn].
  - pose proof (wf_heap_len _ Hwf1). pose proof (wf_len _ Hwf1).
    wp_steps. apply wp_set_at; [done|]. wp_steps. unfold size, with_heap, with_pos. simpl.
    rewrite u32_small by (unfold size, npos in *; lia). rewrite vlen_app.
    replace (vlen (heap h1) + vlen [(key, d)] - 1)%N with (vlen (heap h1))
      by (unfold vlen at 3; simpl; lia).
    by apply set_absent_spec.
  - destruct (wf_pos_heap _ Hwf1 d p Hp Hpn) as [old Hold].
    wp_step. eapply wp_at; [done|]. wp_step.
    apply wp_set_at; [by eapply vlookup_lt_Some|]. by apply set_present_spec.
Qed.

Lemma contains_view d h : wf h → contains d h = true ↔ is_Some (view h !! d).
Proof.
  intros Hwf. unfold contains. split.
  - destruct (pos h !! d) as [i|] eqn:Hd; [|done].
    intros Hi%negb_true_iff%N.eqb_neq. destruct (wf_pos_heap _ Hwf d i Hd Hi) as [k Hk].
    exists k. apply elem_of_view, elem_of_vlookup; eauto.
  - intros [k [i Hi]%elem_of_view%elem_of_vlookup]; [|done].
    pose proof (vlookup_lt_Some _ _ _ Hi). pose proof (wf_heap_len _ Hwf). pose proof (wf_len _ Hwf).
    rewrite (wf_heap_pos _ Hwf i k d Hi). apply negb_true_iff, N.eqb_neq. lia.
Qed.

(** The heap and table after [erase] dropped the last item: without the erased
    derivation if it was the last one, and otherwise with a free place at its
    index that the last item takes. *)
Lemma erase_last H0 P k d i :
  wf (mk (H0 ++ [(k, d)]) P) → P !! d = Some i →
  i = vlen H0 ∧ wf (mk H0 (<[d := npos]> P)).
Proof.
  intros Hwf Hi. pose proof (wf_heap_pos _ Hwf (vlen H0) k d (vlookup_snoc_eq _ _)) as Hd.
  simpl in Hd. simplify_eq. split; [done|]. destruct Hwf as [Hhp Hph Hlen]. simpl in *. split; simpl.
  - intros j k' d' Hj. pose proof (vlookup_lt_Some _ _ _ Hj) as Hjl.
    assert (P !! d' = Some j) as Hd' by (eapply Hhp, vlookup_snoc_Some; by left).
    rewrite vlookup_insert_ne; [done|]. intros ->. simplify_eq. lia.
  - intros d' j [(_ & <- & _)|[Hne Hd']]%vlookup_insert_Some Hj; [done|].
    destruct (Hph d' j Hd' Hj) as [k' [Hk'|[? ?]]%vlookup_snoc_Some]; [eauto|congruence].
  - by rewrite vlen_insert.
Qed.

Lemma erase_inner H0 P lst d (i : N) k :
  wf (mk (H0 ++ [lst]) P) → P !! d = Some i → H0 !! i = Some (k, d) →
  wf (hole (mk H0 (<[d := npos]> P)) i lst) ∧ (lst.2 < vlen P)%N ∧ lst.2 ≠ d.
Proof.
  intros Hwf Hi Hk. destruct lst as [kl dl].
  pose proof (vlookup_lt_Some _ _ _ Hk) as Hil.
  pose proof (wf_heap_pos _ Hwf (vlen H0) kl dl (vlookup_snoc_eq _ _)) as Hdl. simpl in Hdl.
  assert (dl ≠ d) as Hne by (intros ->; simplify_eq; lia).
  pose proof (vlookup_lt_Some _ _ _ Hdl) as Hdll.
  split; [|done]. destruct Hwf as [Hhp Hph Hlen]. simpl in *. split; simpl.
  - intros j k' d' [(<- & [= <- <-] & ?)|[Hij Hj]]%vlookup_insert_Some.
    + by rewrite vlookup_insert_eq by (by rewrite vlen_insert).
    + pose proof (vlookup_lt_Some _ _ _ Hj) as Hjl.
      assert (P !! d' = Some j) as Hd' by (eapply Hhp, vlookup_snoc_Some; by left).
      rewrite !vlookup_insert_ne; [done|..]; intros ->; simplify_eq. lia.
  - intros d' j [(<- & <- & ?)|[Hdd Hd']]%vlookup_insert_Some Hj.
    + exists kl. by apply vlookup_insert_eq.
    + apply vlookup_insert_Some in Hd' as [(_ & <- & _)|[? Hd']]; [done|].
      destruct (Hph d' j Hd' Hj) as [k' [Hk'|[? ?]]%vlookup_snoc_Some]; [|congruence].
      exists k'. rewrite vlookup_insert_ne; [done|]. intros ->. congruence.
  - by rewrite !vlen_insert.
Qed.

Lemma view_erase_inner H0 P lst d (i : N) k h' :
  wf (mk (H0 ++ [lst]) P) → H0 !! i = Some (k, d) → wf h' → heap h' ≡ₚ <[i := lst]> H0 →
  view h' = delete d (view (mk (H0 ++ [lst]) P)).
Proof.
  intros Hwf Hk Hwf' Hperm. apply view_ext; [done|]. intros d' k'.
  assert (d' ≠ d ∧ (k', d') ∈ H0 ++ [lst] ↔ (k', d') ∈ <[i := lst]> H0) as Hiff.
  { pose proof (wf_heap_pos _ Hwf) as Hhp. simpl in Hhp.
    assert ((H0 ++ [lst]) !! i = Some (k, d)) as Hid by (apply vlookup_snoc_Some; by left).
    pose proof (vlookup_lt_Some _ _ _ Hk). rewrite !elem_of_vlookup. split.
    - intros [Hne [j [Hj|[-> ->]]%vlookup_snoc_Some]].
      + exists j. rewrite vlookup_insert_ne; [done|]. congruence.
      + exists i. by apply vlookup_insert_eq.
    - intros [j [(<- & -> & ?)|[Hij Hj]]%vlookup_insert_Some].
      + pose proof (vlookup_snoc_eq H0 (k', d')) as Hl. split; [|by eauto].
        intros ->. apply Hhp in Hl, Hid. simplify_eq. lia.
      + assert ((H0 ++ [lst]) !! j = Some (k', d')) as Hj' by (apply vlookup_snoc_Some; by left).
        split; [|by eauto]. intros ->. apply Hhp in Hj', Hid. congruence. }
  rewrite Hperm, <- Hiff, lookup_delete_Some, elem_of_view by done. simpl. naive_solver.
Qed.

Lemma erase_sift_spec H0 P lst d (i : N) k :
  wf (mk (H0 ++ [lst]) P) → P !! d = Some i → H0 !! i = Some (k, d) →
  wp (place i lst;; siftUp i;; p ← at_ pos lst.2; siftDown p)
    (λ _ h', wf h' ∧ view h' = delete d (view (mk (H0 ++ [lst]) P)) ∧
      (good (H0 ++ [lst]) → good (heap h'))) (mk H0 (<[d := npos]> P)).
Proof.
  intros Hwf Hi Hk. destruct (erase_inner H0 P lst d i k Hwf Hi Hk) as (Hwf1 & _ & _).
  pose proof (vlookup_lt_Some _ _ _ Hk) as Hil. wp_step.
  eapply wp_mono; [by apply place_hole|]. cbn beta. intros _ h1 ->. wp_step.
  eapply wp_mono; [apply (siftUp_spec (λ L j, good (H0 ++ [lst]) → weak true true L j) i lst)|].
  - intros L j y HJ ? ? ? ? Hg. by eapply weak_true_true, weak_up_step; [apply HJ|..].
  - done.
  - by apply hole_lookup.
  - intros Hg. simpl. apply good_insert; [by eapply good_prefix|].
    destruct Hg as [Hok _]. apply (keys_ok_lookup _ (vlen H0) _ Hok), vlookup_snoc_eq.
  - cbn beta. intros _ h2 (Hwf2 & Hp2 & j & HJ & Hj & Hend).
    wp_step. eapply wp_at; [destruct lst; by eapply (wf_heap_pos _ Hwf2)|].
    eapply wp_mono; [apply (siftDown_spec (λ L j, good (H0 ++ [lst]) → weak false true L j) j lst)|].
    + intros L j' b y HJ' ? ? ? ? ? Hg. by eapply weak_down_step; [apply HJ'|..].
    + done.
    + done.
    + intros Hg. by eapply weak_both_done; [apply HJ|..].
    + cbn beta. intros _ h3 (Hwf3 & Hp3 & j' & HJ' & Hj' & Hend'). split_and!; [done| |].
      * eapply view_erase_inner; [done..|]. by rewrite Hp3, Hp2.
      * intros Hg. by eapply weak_down_done; [apply HJ'|..].
Qed.

Lemma erase_spec d h :
  wf h →
  wp (erase d) (λ _ h', wf h' ∧ view h' = delete d (view h) ∧
    (good (heap h) → good (heap h'))) h.
Proof.
  intros Hwf. unfold erase. wp_step. apply wp_gets.
  destruct (contains d h) eqn:Hc.
  2:{ simpl. wp_steps. split_and!; [done| |done]. symmetry. apply delete_id.
      destruct (view h !! d) as [k|] eqn:Hk; [|done].
      assert (contains d h = true) by (apply contains_view; [done|by eexists]). congruence. }
  simpl. apply contains_view in Hc as [k [i Hi]%elem_of_view%elem_of_vlookup]; [|done..].
  pose proof (wf_heap_pos _ Hwf i k d Hi) as Hd.
  wp_step. eapply wp_at; [done|]. wp_step. apply wp_set_at; [by eapply vlookup_lt_Some|].
  wp_steps. destruct (last (heap h)) as [lst|] eqn:Hlast.
  2:{ apply last_None in Hlast. rewrite Hlast in Hi. apply vlookup_lt_Some in Hi. unfold vlen in Hi. simpl in Hi. lia. }
  apply last_Some in Hlast as [H0 Hlast]. destruct h as [H P]. simpl in *. subst H.
  eapply wp_expect; [by rewrite last_snoc|]. wp_steps. simpl.
  unfold size, with_heap, with_pos. simpl.
  rewrite length_app, Nat.add_sub, take_app_length.
  destruct (N.leb_spec (vlen H0) i) as [Hle|Hlt].
  - apply vlookup_snoc_Some in Hi as [Hi%vlookup_lt_Some|[-> ->]]; [lia|].
    wp_steps. destruct (erase_last H0 P k d _ Hwf Hd) as [_ Hwf'].
    split_and!; [done| |apply good_prefix].
    apply view_ext; [done|]. intros d' k'. rewrite lookup_delete_Some, elem_of_view by done. simpl.
    rewrite elem_of_app, list_elem_of_singleton. split; [|naive_solver].
    intros Hin. split; [|by left]. intros <-. apply elem_of_vlookup in Hin as [j Hj].
    pose proof (vlookup_lt_Some _ _ _ Hj). pose proof (wf_heap_pos _ Hwf j k' d) as Hj'.
    simpl in Hj'. rewrite vlookup_app_l, Hd in Hj' by done. specialize (Hj' Hj). simplify_eq. lia.
  - eapply erase_sift_spec; [done..|]. by rewrite vlookup_app_l in Hi.
Qed.

Lemma heap_empty_spec : wf empty ∧ good (heap empty) ∧ view empty = ∅.
Proof.
  split_and!; [|split; [by constructor|]|done].
  - split; simpl; [| |done]; intros i k Hi%vlookup_lt_Some || intros i k d Hi%vlookup_lt_Some;
      unfold vlen in Hi; simpl in Hi; lia.
  - intros i p x _ Hp%vlookup_lt_Some. unfold vlen in Hp. simpl in Hp. lia.
Qed.

Lemma size_view h : wf h → size h = N.of_nat (base.size (view h)).
Proof.
  intros Hwf. unfold size, view, vlen. f_equal.
  rewrite map_size_list_to_map; [by rewrite length_fmap|].
  rewrite <- list_fmap_compose. by apply wf_ids_nodup.
Qed.

Lemma root_min L x (i : N) z :
  good L → head L = Some x → L !! i = Some z → item_leb x z = true.
Proof.
  intros [Hok Hord] Hx. assert (L !! 0%N = Some x) as Hroot by (by destruct L).
  revert z. induction (N.lt_wf_0 i) as [i _ IH]. intros z Hz.
  destruct (decide (i = 0%N)) as [->|Hi].
  { simplify_eq. apply item_leb_refl, (keys_ok_lookup _ _ _ Hok Hroot). }
  assert (parent i < i)%N as Hp by (apply parent_lt; lia).
  destruct (proj2 (vlookup_lt L (parent i))) as [p Hpl].
  { apply vlookup_lt_Some in Hz. lia. }
  apply (item_leb_trans x p z).
  - apply (keys_ok_lookup _ _ _ Hok Hroot).
  - apply (keys_ok_lookup _ _ _ Hok Hpl).
  - apply (keys_ok_lookup _ _ _ Hok Hz).
  - by apply (IH (parent i)).
  - apply (Hord i); [lia|done..].
Qed.

(** The abstract priority queue: [o] is the derivation with the least (key, id)
    of the map [m], if there is one. *)
Definition is_min (m : gmap N double) (o : option (double * N)) : Prop :=
  match o with
  | None => m = ∅
  | Some (k, d) => m !! d = Some k ∧
      ∀ d' k', m !! d' = Some k' → item_leb (k, d) (k', d') = true
  end.

Lemma top_is_min h :
  wf h → good (heap h) → is_min (view h) (k ← topKey h; d ← top h; Some (k, d)).
Proof.
  intros Hwf Hg. unfold topKey, top, is_min.
  destruct (head (heap h)) as [[k d]|] eqn:Hhd; simpl.
  - split.
    + apply elem_of_view, elem_of_vlookup; [done|]. exists 0%N. by destruct (heap h).
    + intros d' k' [i Hi]%elem_of_view%elem_of_vlookup; [|done]. by eapply root_min.
  - apply head_None in Hhd. unfold view. by rewrite Hhd.
Qed.

Lemma top_lookup h d : wf h → top h = Some d → ∃ k, topKey h = Some k ∧ view h !! d = Some k.
Proof.
  intros Hwf. unfold top, topKey. destruct (head (heap h)) as [[k d']|] eqn:Hhd; [|done].
  intros [= ->]. exists k. split; [done|].
  apply elem_of_view, elem_of_vlookup; [done|]. exists 0%N. by destruct (heap h).
Qed.

Lemma topKey_top h k : topKey h = Some k → ∃ d, top h = Some d.
Proof. unfold top, topKey. destruct (head (heap h)); [eauto|done]. Qed.

(** ** The queue as its users see it *)

Inductive op :=
  | OpSet (d : N) (key : double)
  | OpErase (d : N).

Definition run_op (o : op) : M t () :=
  match o with OpSet d key => set d key | OpErase d => erase d end.

Definition apply_op (m : gmap N double) (o : op) : gmap N double :=
  match o with OpSet d key => <[d := key]> m | OpErase d => delete d m end.

(** Derivation ids are below [npos]; the scheduler's keys are not NaN (see
    [prio_not_nan]). *)
Definition valid_op (o : op) : bool :=
  match o with OpSet d key => (d <? npos)%N && negb (is_nan key) | OpErase _ => true end.

Lemma heap_run_op_spec o h :
  valid_op o → wf h → good (heap h) →
  wp (run_op o) (λ _ h', wf h' ∧ good (heap h') ∧ view h' = apply_op (view h) o) h.
Proof.
  intros Hv Hwf Hg. destruct o as [d key|d]; simpl in *.
  - apply andb_True in Hv as [Hd Hk]. eapply wp_mono; [apply heap_set_spec; [done|]|].
    + by apply N.ltb_lt, Is_true_true.
    + simpl. intros _ h' (? & ? & Hg'). split_and!; try done. apply Hg'; [done|].
      by apply negb_true_iff, Is_true_true.
  - eapply wp_mono; [by apply erase_spec|]. simpl. naive_solver.
Qed.

(** C4. Refinement of [IndexedHeap]: from the empty heap, any sequence of [set]
    and [erase] calls on valid ids and keys returns normally (no throw, no
    out-of-range access, no endless loop), the heap then represents exactly the
    map those calls describe, [size] and [contains] read that map, and
    [topKey]/[top] are its least (key, id) pair. *)
Theorem heap_refines_map (ops : list op) :
  Forall valid_op ops →
  ∃ h, forM_ ops run_op empty = (h, Ok tt) ∧
    let m := foldl apply_op ∅ ops in
    view h = m ∧ size h = N.of_nat (base.size m) ∧
    (∀ d, contains d h = bool_decide (is_Some (m !! d))) ∧
    is_min m (k ← topKey h; d ← top h; Some (k, d)).
Proof.
  intros Hv. destruct heap_empty_spec as (Hwf & Hg & Hview).
  assert (wp (forM_ ops run_op) (λ _ h, wf h ∧ good (heap h) ∧
    view h = foldl apply_op ∅ ops) empty) as ([] & h & Hrun & Hwf' & Hg' & Hm).
  { eapply wp_mono; [apply (wp_forM _ (λ rest h, Forall valid_op rest ∧ wf h ∧
      good (heap h) ∧ foldl apply_op (view h) rest = foldl apply_op ∅ ops))|naive_solver].
    - by rewrite Hview.
    - intros o rest h (Ho & ? & ? & Hm). apply Forall_cons in Ho as [Ho Hrest].
      eapply wp_mono; [by apply heap_run_op_spec|]. simpl. intros _ h' (? & ? & ->). by split_and!. }
  exists h. split; [done|]. cbv zeta. rewrite <- Hm.
  split_and!; [done|by apply size_view| |by apply top_is_min].
  intros d. apply eq_true_iff_eq. by rewrite contains_view, bool_decide_eq_true.
Qed.

Lemma heap_refines_map_witness :
  ∃ h, forM_ [OpSet 3 (double_of_Z 7); OpSet 1 (double_of_Z 9); OpSet 3 (double_of_Z 10);
              OpErase 2; OpSet 5 (double_of_Z 9)] run_op empty = (h, Ok tt) ∧ top h = Some 1%N.
Proof.
  destruct (heap_refines_map [OpSet 3 (double_of_Z 7); OpSet 1 (double_of_Z 9);
    OpSet 3 (double_of_Z 10); OpErase 2; OpSet 5 (double_of_Z 9)]) as (h & Hrun & _).
  - repeat constructor.
  - exists h. split; [exact Hrun|]. vm_compute in Hrun. injection Hrun as <-. reflexivity.
Defined.
End IndexedHeap.
