(* ===== verification/Free.v ===== *)
(** * The index of free build slots

    [sched::FreeIndex] of src/src/daemon/scheduler.hh: workers bucketed by
    their number of free slots, with a 64-bit mask of the buckets that are not
    empty, so that "the worker with most free slots" costs a count of leading
    zeros.

    [wf] is the invariant between the four tables and the mask.  The index is
    shown to implement a finite map from known workers to free slots, [maxFree]
    and [emptiest] its maximum, and its operations to never throw on a
    well-formed index and a known worker. *)

From S2P Require Import Prelude.

Module FreeIndex.

Definition maxSlots : Z := 63.

Record t := mk {
  free : list Z;         (* may go negative (draining below running) *)
  pos : list N;
  tracked : list bool;
  byFree : list (list N);
  nonempty : N;          (* a uint64_t *)
}.

Definition with_free v f := mk v (pos f) (tracked f) (byFree f) (nonempty f).
Definition with_pos v f := mk (free f) v (tracked f) (byFree f) (nonempty f).
Definition with_tracked v f := mk (free f) (pos f) v (byFree f) (nonempty f).
Definition with_byFree v f := mk (free f) (pos f) (tracked f) v (nonempty f).
Definition with_nonempty v f := mk (free f) (pos f) (tracked f) (byFree f) v.

Definition empty : t := mk [] [] [] (replicate 64 []) 0.

Definition bucket (val : Z) : N := Z.to_N (Z.max 0 (Z.min val maxSlots)).

Definition check (wid : N) : M t () :=
  n ← gets (λ f, vlen (free f));
  if (n <=? wid)%N then throw (NixError "FreeIndex: unknown worker")
  else
    b ← at_ tracked wid;
    if (negb b : bool) then throw (NixError "FreeIndex: unknown worker") else mret tt.

(** Append to a bucket and set its bit; the worker's position is its end. *)
Definition bucket_push (b wid : N) : M t () :=
  l ← at_ byFree b;
  set_at pos with_pos wid (u32 (vlen l));;
  set_at byFree with_byFree b (l ++ [wid]);;
  modify (λ f, with_nonempty (N.lor (nonempty f) (N.shiftl 1 b)) f).

Definition push (wid : N) : M t () :=
  f ← get;
  known ← (if (wid <? vlen (free f))%N then at_ tracked wid else mret false);
  if (known : bool) then mret tt
  else
    (if (vlen (free f) <=? wid)%N then
       modify (λ f, with_free (vresize (u32 (wid + 1)) 0%Z (free f)) f);;
       modify (λ f, with_pos (vresize (u32 (wid + 1)) 0%N (pos f)) f);;
       modify (λ f, with_tracked (vresize (u32 (wid + 1)) false (tracked f)) f)
     else mret tt);;
    set_at tracked with_tracked wid true;;
    bucket_push 0 wid.

Definition get (wid : N) (f : t) : Z := default 0%Z (free f !! wid).

(** Take the worker out of its bucket: the last of the bucket takes its place. *)
Definition bucket_remove (from wid : N) : M t () :=
  src ← at_ byFree from;
  idx ← at_ pos wid;
  (if negb (bool_decide (src !! idx = Some wid)) then
     throw (NixError "FreeIndex: corrupt bucket for worker")
   else mret tt);;
  lst ← expect Undefined (last src);
  set_at byFree with_byFree from (<[idx := lst]> src);;
  set_at pos with_pos lst idx;;
  src' ← at_ byFree from;
  let src'' := take (length src' - 1) src' in
  set_at byFree with_byFree from src'';;
  if bool_decide (src'' = []) then
    modify (λ f, with_nonempty (N.land (nonempty f) (N.lnot (N.shiftl 1 from) 64)) f)
  else mret tt.

Definition set (wid : N) (val : Z) : M t () :=
  check wid;;
  old ← at_ free wid;
  let from := bucket old in
  let dest := bucket val in
  set_at free with_free wid val;;
  if (from =? dest)%N then mret tt
  else
    bucket_remove from wid;;
    bucket_push dest wid.

(** [std::countl_zero] of a [uint64_t] *)
Definition countl_zero (n : N) : Z := 64 - Z.of_N (N.size n).

Definition maxFree (f : t) : Z :=
  if (nonempty f =? 0)%N then 0 else maxSlots - countl_zero (nonempty f).

Definition emptiest : M t (option N) :=
  top ← gets maxFree;
  if (top <=? 0)%Z then mret None
  else
    l ← at_ byFree (Z.to_N top);
    mret (head l).

(** ** Invariant *)

Definition is_tracked (f : t) (wid : N) : Prop := tracked f !! wid = Some true.

(** The buckets hold each worker [w] once, in bucket [bk w]; [pos] is where. *)
Record buckets (bk : N → option N) (f : t) : Prop := {
  bk_in : ∀ w b, bk w = Some b → ∃ i l,
    pos f !! w = Some i ∧ byFree f !! b = Some l ∧ l !! (i : N) = Some w;
  bk_out : ∀ (b i : N) l w, byFree f !! b = Some l → l !! i = Some w →
    bk w = Some b ∧ pos f !! w = Some i;
  bk_mask : ∀ b, N.testbit (nonempty f) b = true ↔ ∃ w, bk w = Some b;
  bk_len : vlen (byFree f) = 64%N;
  bk_pos : (vlen (pos f) < 2 ^ 32)%N;
}.

(** The bucket a worker belongs in. *)
Definition bucket_of (f : t) (w : N) : option N :=
  match tracked f !! w with Some true => Some (bucket (get w f)) | _ => None end.

Record wf (f : t) : Prop := {
  wf_buckets : buckets (bucket_of f) f;
  wf_len_pos : vlen (pos f) = vlen (free f);
  wf_len_tracked : vlen (tracked f) = vlen (free f);
  wf_zero : ∀ w, tracked f !! w = Some false → free f !! w = Some 0%Z;
}.

(** The represented finite map: free slots of the known workers. *)
Definition known (f : t) (w : N) : option Z :=
  match tracked f !! w with Some true => Some (get w f) | _ => None end.

Lemma bucket_lt v : (bucket v < 64)%N.
Proof. unfold bucket, maxSlots. lia. Qed.

Lemma bucket_pos v : (0 < bucket v)%N ↔ (0 < v)%Z.
Proof. unfold bucket, maxSlots. lia. Qed.

Lemma get_lookup f w : (w < vlen (free f))%N → free f !! w = Some (get w f).
Proof. intros [v Hv]%vlookup_lt. unfold get. by rewrite Hv. Qed.

(** ** Buckets *)

(** Two entries of the buckets that hold the same worker are the same entry. *)
Lemma bk_inj bk f b1 (i1 : N) l1 b2 (i2 : N) l2 w :
  buckets bk f → byFree f !! b1 = Some l1 → l1 !! i1 = Some w →
  byFree f !! b2 = Some l2 → l2 !! i2 = Some w → b1 = b2 ∧ i1 = i2.
Proof.
  intros Hb H1 H1' H2 H2'.
  destruct (bk_out _ _ Hb _ _ _ _ H1 H1') as [? ?]. destruct (bk_out _ _ Hb _ _ _ _ H2 H2') as [? ?].
  naive_solver.
Qed.

Lemma bk_lt bk f b (l : list N) : buckets bk f → byFree f !! b = Some l → (vlen l ≤ vlen (pos f))%N.
Proof.
  intros Hb Hl. assert (l ⊆+ range 0 (vlen (pos f))) as Hsub%submseteq_length.
  { apply NoDup_submseteq.
    - apply NoDup_alt. intros i j w. rewrite <- !vlookup_nat. intros Hi Hj.
      destruct (bk_inj _ _ _ _ _ _ _ _ _ Hb Hl Hi Hl Hj). lia.
    - intros w [i Hi]%elem_of_vlookup. apply elem_of_range.
      destruct (bk_out _ _ Hb _ _ _ _ Hl Hi) as [_ Hw%vlookup_lt_Some]. lia. }
  revert Hsub. unfold range, vlen. rewrite !length_fmap, length_seq. lia.
Qed.

Lemma bucket_push_spec bk b wid f :
  buckets bk f → bk wid = None → (b < 64)%N → (wid < vlen (pos f))%N →
  wp (bucket_push b wid) (λ _ f',
    buckets (λ w, if decide (w = wid) then Some b else bk w) f' ∧
    free f' = free f ∧ tracked f' = tracked f ∧ vlen (pos f') = vlen (pos f)) f.
Proof.
  intros Hb Hnew Hb64 Hwid. unfold bucket_push.
  destruct (proj2 (vlookup_lt (byFree f) b)) as [l Hl]; [by rewrite (bk_len _ _ Hb)|].
  pose proof (bk_lt _ _ _ _ Hb Hl). pose proof (bk_pos _ _ Hb).
  wp_step. eapply wp_at; [done|]. wp_step. apply wp_set_at; [done|]. cbn beta.
  wp_step. apply wp_set_at; [by eapply vlookup_lt_Some|]. wp_steps. simpl.
  rewrite u32_small by lia.
  assert (∀ (b' i : N) l', byFree f !! b' = Some l' → l' !! i ≠ Some wid) as Hno.
  { intros b' i l' Hl' Hi. destruct (bk_out _ _ Hb _ _ _ _ Hl' Hi). congruence. }
  split_and!; [|done|done|by rewrite vlen_insert].
  destruct Hb as [Hin Hout Hmask Hlen Hpos]. split; simpl; rewrite ?vlen_insert; try done.
  - intros w b'. case_decide as Hw; [intros [= <-]; subst w|intros Hbk].
    + exists (vlen l), (l ++ [wid]). rewrite !vlookup_insert_eq; [|by eapply vlookup_lt_Some|done].
      split_and!; [done..|apply vlookup_snoc_eq].
    + destruct (Hin w b' Hbk) as (i & l' & Hi & Hl' & Hw'). rewrite vlookup_insert_ne by done.
      destruct (decide (b = b')) as [->|].
      * simplify_eq. exists i, (l ++ [wid]). rewrite vlookup_insert_eq by (by eapply vlookup_lt_Some).
        split_and!; [done..|]. apply vlookup_snoc_Some. by left.
      * exists i, l'. by rewrite vlookup_insert_ne.
  - intros b' i l' w Hl' Hi. apply vlookup_insert_Some in Hl' as [(<- & <- & _)|[Hne Hl']].
    + apply vlookup_snoc_Some in Hi as [Hi|[-> <-]].
      * rewrite decide_False by (intros ->; by eapply Hno).
        rewrite vlookup_insert_ne by (intros ->; by eapply Hno). by eapply Hout.
      * by rewrite decide_True, vlookup_insert_eq.
    + rewrite decide_False by (intros ->; by eapply Hno).
      rewrite vlookup_insert_ne by (intros ->; by eapply Hno). by eapply Hout.
  - intros b'. rewrite N.lor_spec, orb_true_iff, Hmask, N.shiftl_1_l, N.pow2_bits_eqb.
    rewrite N.eqb_eq. split.
    + intros [[w Hw]|<-]; [|exists wid; by rewrite decide_True].
      exists w. rewrite decide_False; [done|]. congruence.
    + intros [w Hw]. case_decide; [right; congruence|left; eauto].
Qed.
(** The bucket list without the worker at [idx], whose place the last one takes. *)
Definition swap_remove (src : list N) (idx lst : N) : list N :=
  take (length (<[idx := lst]> src) - 1) (<[idx := lst]> src).

Lemma swap_remove_Some (src : list N) (idx lst i w : N) :
  src !! idx = Some w → ∀ w', swap_remove src idx lst !! i = Some w' ↔
  (i < vlen src - 1)%N ∧ ((i = idx ∧ w' = lst) ∨ (i ≠ idx ∧ src !! i = Some w')).
Proof.
  intros Hidx w'. unfold swap_remove. rewrite vlookup_take_Some, vlookup_insert_Some.
  assert (length (<[idx := lst]> src) = length src) as Hlen by apply length_insert.
  rewrite Hlen. unfold vlen. pose proof (vlookup_lt_Some _ _ _ Hidx). unfold vlen in *.
  split.
  - intros [? [(<- & <- & ?)|[? ?]]]; (split; [lia|]); [by left|right; by split].
  - intros [? [(-> & ->)|[? ?]]]; (split; [lia|]); [by left|right; by split].
Qed.

Lemma buckets_remove bk f from (wid idx lst : N) src nonempty' :
  buckets bk f → bk wid = Some from → byFree f !! from = Some src → pos f !! wid = Some idx →
  src !! idx = Some wid → last src = Some lst →
  (∀ b, N.testbit nonempty' b = true ↔
     N.testbit (nonempty f) b = true ∧ (b = from → swap_remove src idx lst ≠ [])) →
  buckets (λ w, if decide (w = wid) then None else bk w)
    (mk (free f) (<[lst := idx]> (pos f)) (tracked f)
       (<[from := swap_remove src idx lst]> (byFree f)) nonempty').
Proof.
  intros Hb Hbk Hsrc Hpos Hidx Hlast%vlookup_last Hne.
  pose proof (swap_remove_Some src idx lst) as Hrem.
  pose proof (λ i w, bk_out _ _ Hb from i src w Hsrc) as Hout'.
  destruct (Hout' _ _ Hlast) as [Hlbk Hlpos].
  assert (∀ i : N, src !! i = Some wid → i = idx) as Huniq.
  { intros i Hi. destruct (Hout' _ _ Hi). congruence. }
  pose proof (vlookup_lt_Some _ _ _ Hidx) as Hil.
  assert (∀ (i w : N), swap_remove src idx lst !! i = Some w →
    w ≠ wid ∧ bk w = Some from ∧ <[lst := idx]> (pos f) !! w = Some i) as Hnew.
  { intros i w [Hi [[-> ->]|[Hiidx Hw]]]%(Hrem i wid Hidx).
    - split_and!; [|done|apply vlookup_insert_eq; by eapply vlookup_lt_Some].
      intros ->. apply Huniq in Hlast. lia.
    - destruct (Hout' _ _ Hw) as [? ?]. split_and!; [|done|].
      + intros ->. by apply Hiidx, Huniq.
      + rewrite vlookup_insert_ne; [done|]. intros ->.
        destruct (bk_inj _ _ _ _ _ _ _ _ _ Hb Hsrc Hlast Hsrc Hw). lia. }
  assert (∀ w i, w ≠ wid → src !! i = Some w → bk w = Some from →
    ∃ i', <[lst := idx]> (pos f) !! w = Some i' ∧ swap_remove src idx lst !! i' = Some w) as Hold.
  { intros w i Hw Hi Hwb. destruct (decide (w = lst)) as [->|Hwl].
    - exists idx. rewrite vlookup_insert_eq by (by eapply vlookup_lt_Some). split; [done|].
      apply (Hrem idx wid Hidx). assert (idx ≠ vlen src - 1)%N by (intros ->; congruence).
      split; [lia|by left].
    - exists i. rewrite vlookup_insert_ne by done. destruct (Hout' _ _ Hi). split; [done|].
      apply (Hrem i wid Hidx). pose proof (vlookup_lt_Some _ _ _ Hi).
      assert (i ≠ vlen src - 1)%N by (intros ->; congruence).
      split; [lia|right]. split; [congruence|done]. }
  destruct Hb as [Hin Hout Hmask Hlen Hpl]. split; simpl; rewrite ?vlen_insert; try done.
  - intros w b. case_decide as Hw; [done|]. intros Hwb.
    destruct (Hin w b Hwb) as (i & l & Hi & Hl & Hwl). destruct (decide (from = b)) as [<-|Hfb].
    + simplify_eq. destruct (Hold w i Hw Hwl Hwb) as (i' & ? & ?).
      exists i', (swap_remove src idx lst). split_and!; [done| |done].
      apply vlookup_insert_eq. by eapply vlookup_lt_Some.
    + exists i, l. rewrite (vlookup_insert_ne (byFree f)) by done.
      rewrite vlookup_insert_ne; [done|]. intros ->. congruence.
  - intros b i l w Hl Hi. apply vlookup_insert_Some in Hl as [(<- & <- & _)|[Hfb Hl]].
    + destruct (Hnew i w Hi) as (? & ? & ?). by rewrite decide_False.
    + destruct (Hout b i l w Hl Hi) as [Hwb ?]. rewrite decide_False by congruence.
      split; [done|]. rewrite vlookup_insert_ne; [done|]. intros ->. congruence.
  - intros b. rewrite Hne, Hmask. split.
    + intros [[w Hw] Hemp]. destruct (decide (b = from)) as [->|].
      * specialize (Hemp eq_refl). destruct (swap_remove src idx lst) as [|w' L] eqn:HL; [done|].
        destruct (Hnew 0%N w') as (? & ? & _); [done|]. exists w'. by rewrite decide_False.
      * exists w. rewrite decide_False; [done|]. congruence.
    + intros [w Hw]. case_decide; [done|]. split; [by eauto|]. intros ->.
      destruct (Hin w from Hw) as (i & l & Hi & Hl & Hwl). simplify_eq.
      destruct (Hold w i) as (i' & _ & Hi'); [done..|].
      intros Heq. by rewrite Heq, vlookup_nil in Hi'.
Qed.

Lemma mask_clear m (b b' : N) :
  (b < 64)%N →
  N.testbit (N.land m (N.lnot (N.shiftl 1 b) 64)) b' = true ↔
  (b' < 64)%N ∧ N.testbit m b' = true ∧ b' ≠ b.
Proof.
  intros Hb. rewrite N.land_spec, andb_true_iff, N.shiftl_1_l.
  destruct (decide (b' < 64)%N).
  - rewrite N.lnot_spec_low by done. rewrite N.pow2_bits_eqb, negb_true_iff, N.eqb_neq. naive_solver.
  - rewrite N.lnot_spec_high by lia. rewrite N.pow2_bits_eqb, N.eqb_eq. naive_solver lia.
Qed.

Lemma bucket_remove_spec bk from wid f :
  buckets bk f → bk wid = Some from →
  wp (bucket_remove from wid) (λ _ f',
    buckets (λ w, if decide (w = wid) then None else bk w) f' ∧
    free f' = free f ∧ tracked f' = tracked f ∧ vlen (pos f') = vlen (pos f)) f.
Proof.
  intros Hb Hbk. destruct (bk_in _ _ Hb _ _ Hbk) as (idx & src & Hpos & Hsrc & Hidx).
  destruct (last src) as [lst|] eqn:Hlast.
  2:{ apply last_None in Hlast as ->. by rewrite vlookup_nil in Hidx. }
  pose proof (vlookup_last _ _ Hlast) as Hl.
  destruct (bk_out _ _ Hb _ _ _ _ Hsrc Hl) as [_ Hlpos].
  pose proof (vlookup_lt_Some _ _ _ Hsrc) as Hfrom.
  unfold bucket_remove. wp_step. eapply wp_at; [done|]. wp_step. eapply wp_at; [done|].
  rewrite bool_decide_true by done. simpl. wp_steps.
  apply wp_set_at; [done|]. wp_step. apply wp_set_at; [by eapply vlookup_lt_Some|]. wp_step.
  eapply wp_at; [by apply vlookup_insert_eq|]. wp_step. simpl.
  apply wp_set_at; [simpl; by rewrite vlen_insert|]. simpl.
  assert (∀ (A : Type) (l : list A) (i : N) x y, <[i := x]> (<[i := y]> l) = <[i := x]> l) as Hii.
  { intros. unfold insert, vec_insert. by rewrite list_insert_insert_eq. }
  fold (swap_remove src idx lst). case_bool_decide as Hemp; wp_steps; simpl; rewrite Hii.
  all: unfold with_nonempty, with_byFree, with_pos; simpl.
  all: split_and!; [apply (buckets_remove bk f); [done..|]|done|done|by rewrite vlen_insert].
  - intros b. rewrite mask_clear by (rewrite <- (bk_len _ _ Hb); done). split.
    + intros (_ & ? & ?). by split.
    + intros [Hbit Hbf]. split_and!; [|done|intros ->; by apply Hbf].
      apply (bk_mask _ _ Hb) in Hbit as [w Hw].
      destruct (bk_in _ _ Hb _ _ Hw) as (_ & l & _ & Hlb%vlookup_lt_Some & _).
      by rewrite (bk_len _ _ Hb) in Hlb.
  - intros b. naive_solver.
Qed.
(** ** The index as a map *)

Lemma buckets_ext bk bk' f f' :
  buckets bk f → (∀ w, bk w = bk' w) → pos f' = pos f → byFree f' = byFree f →
  nonempty f' = nonempty f → buckets bk' f'.
Proof.
  intros [Hin Hout Hmask Hlen Hpos] Hext Hp Hb Hn. split; rewrite ?Hp, ?Hb, ?Hn; try done.
  - intros w b. rewrite <- Hext. apply Hin.
  - intros b i l w. rewrite <- Hext. apply Hout.
  - intros b. rewrite Hmask. by setoid_rewrite Hext.
Qed.

Lemma bucket_of_known f w : bucket_of f w = bucket <$> known f w.
Proof. unfold bucket_of, known. by destruct (tracked f !! w) as [[]|]. Qed.

Lemma get_known f w : wf f → get w f = default 0%Z (known f w).
Proof.
  intros Hwf. unfold known. destruct (tracked f !! w) as [[]|] eqn:Ht; [done| |].
  - unfold get. by rewrite (wf_zero f Hwf w Ht).
  - unfold get. destruct (free f !! w) eqn:Hf; [|done].
    apply vlookup_lt_Some in Hf. apply vlookup_ge in Ht.
    rewrite (wf_len_tracked f Hwf) in Ht. lia.
Qed.

Lemma known_lt f w v : wf f → known f w = Some v → (w < vlen (free f))%N.
Proof.
  intros Hwf. unfold known. destruct (tracked f !! w) as [b|] eqn:Ht; [|done]. intros _.
  rewrite <- (wf_len_tracked f Hwf). by eapply vlookup_lt_Some.
Qed.

Lemma free_empty_spec : wf empty ∧ ∀ w, known empty w = None.
Proof.
  assert (∀ w, known empty w = None) as Hk.
  { intros w. unfold known. change (tracked empty) with (@nil bool). by rewrite vlookup_nil. }
  split; [|done]. split; [|done|done|].
  - split; [| | |done|done].
    + intros w b. by rewrite bucket_of_known, Hk.
    + intros b i l w Hl Hi. change (byFree empty) with (replicate 64 (@nil N)) in Hl.
      unfold lookup, vec_lookup in Hl.
      apply lookup_replicate in Hl as [-> _]. by rewrite vlookup_nil in Hi.
    + intros b. split; [done|]. intros [w Hw].
      by rewrite bucket_of_known, Hk in Hw.
  - intros w. change (tracked empty) with (@nil bool). by rewrite vlookup_nil.
Qed.

(** Growing the tables makes no worker known. *)
Definition grow (n : N) (f : t) : t :=
  mk (vresize n 0%Z (free f)) (vresize n 0%N (pos f)) (vresize n false (tracked f))
     (byFree f) (nonempty f).

Lemma grow_spec n f :
  wf f → (vlen (free f) ≤ n)%N → (n < 2 ^ 32)%N →
  wf (grow n f) ∧ vlen (free (grow n f)) = n ∧ ∀ w, known (grow n f) w = known f w.
Proof.
  intros Hwf Hle Hn.
  assert (∀ w, get w (grow n f) = get w f) as Hget.
  { intros w. unfold get, grow. simpl. destruct (free f !! w) as [v|] eqn:Hw.
    - by rewrite (proj2 (vlookup_resize_Some _ _ _ _ _ Hle) (or_introl Hw)).
    - destruct (vresize n 0%Z (free f) !! w) as [v|] eqn:Hw'; [|done].
      apply vlookup_resize_Some in Hw' as [?|[_ <-]]; [congruence|done|done]. }
  assert (∀ w, known (grow n f) w = known f w) as Hk.
  { intros w. unfold known. rewrite Hget. simpl.
    assert (vlen (tracked f) ≤ n)%N as Hlt by (by rewrite (wf_len_tracked f Hwf)).
    destruct (tracked f !! w) as [v|] eqn:Hw.
    - by rewrite (proj2 (vlookup_resize_Some _ _ _ _ _ Hlt) (or_introl Hw)).
    - destruct (vresize n false (tracked f) !! w) as [v|] eqn:Hw'; [|done].
      apply vlookup_resize_Some in Hw' as [?|[_ <-]]; [congruence|done|done]. }
  split_and!; [|apply vlen_resize|done]. split; simpl; rewrite ?vlen_resize; [|done|done|].
  - destruct (wf_buckets f Hwf) as [Hin Hout Hmask Hlen Hpos].
    assert (vlen (pos f) ≤ n)%N as Hlp by (by rewrite (wf_len_pos f Hwf)).
    assert (∀ w, bucket_of (grow n f) w = bucket_of f w) as Hb.
    { intros w. by rewrite !bucket_of_known, Hk. }
    split; simpl; rewrite ?vlen_resize; [| | |done|done].
    + intros w b. rewrite Hb. intros (i & l & Hi & ?)%Hin. exists i, l. split; [|done].
      apply vlookup_resize_Some; [done|by left].
    + intros b i l w Hl Hi. rewrite Hb. destruct (Hout b i l w Hl Hi) as [? ?]. split; [done|].
      apply vlookup_resize_Some; [done|by left].
    + intros b. rewrite Hmask. by setoid_rewrite Hb.
  - intros w. rewrite !vlookup_resize_Some.
    + intros [Hw|[Hw _]]; [left; by apply (wf_zero f Hwf)|right].
      by rewrite (wf_len_tracked f Hwf) in Hw.
    + done.
    + by rewrite (wf_len_tracked f Hwf).
Qed.

Lemma push_spec wid f :
  wf f → (wid < 2 ^ 32 - 1)%N →
  wp (push wid) (λ _ f', wf f' ∧
    ∀ w, known f' w = if decide (w = wid) then Some (get wid f) else known f w) f.
Proof.
  intros Hwf Hwid. unfold push. wp_steps.
  apply (wp_mono _ (λ b f', f' = f ∧ b = bool_decide (is_Some (known f wid)))).
  { unfold known. destruct (N.ltb_spec wid (vlen (free f))) as [Hlt|Hge].
    - destruct (proj2 (vlookup_lt (tracked f) wid)) as [b Hb]; [by rewrite (wf_len_tracked f Hwf)|].
      eapply wp_at; [done|]. rewrite Hb. split; [done|]. by destruct b.
    - wp_steps. split; [done|]. destruct (tracked f !! wid) eqn:Ht; [|done].
      apply vlookup_lt_Some in Ht. rewrite (wf_len_tracked f Hwf) in Ht. lia. }
  intros b ? [-> ->]. case_bool_decide as Hk.
  { wp_steps. split; [done|]. intros w. case_decide as Hw; [|done]. subst.
    destruct Hk as [v Hv]. by rewrite (get_known _ _ Hwf), Hv. }
  set (f1 := if (vlen (free f) <=? wid)%N then grow (wid + 1) f else f).
  wp_step. apply (wp_mono _ (λ _ f', f' = f1)).
  { unfold f1. destruct (N.leb_spec (vlen (free f)) wid); [|by wp_steps].
    wp_steps. unfold grow, with_free, with_pos, with_tracked. simpl. by rewrite u32_small by lia. }
  intros _ ? ->.
  assert (wf f1 ∧ (wid < vlen (free f1))%N ∧ ∀ w, known f1 w = known f w) as (Hwf1 & Hlt & Hk1).
  { unfold f1. destruct (N.leb_spec (vlen (free f)) wid).
    - destruct (grow_spec (wid + 1) f) as (? & -> & ?); [done|lia..|]. split_and!; [done|lia|done].
    - done. }
  assert (known f1 wid = None) as Hnone by (rewrite Hk1; by apply eq_None_not_Some).
  assert (get wid f1 = 0%Z) as Hz by (by rewrite get_known, Hnone).
  assert (get wid f = 0%Z) as -> by (by rewrite (get_known f), <- Hk1, Hnone).
  clearbody f1. apply (wp_mono _ (λ _ f', wf f' ∧
    ∀ w, known f' w = if decide (w = wid) then Some 0%Z else known f1 w)).
  2:{ intros _ f' [? Hk2]. split; [done|]. intros w. by rewrite Hk2, Hk1. }
  wp_step. apply wp_set_at; [by rewrite (wf_len_tracked f1 Hwf1)|]. cbn beta.
  eapply wp_mono; [eapply (bucket_push_spec (bucket_of f1) 0 wid)|].
  - by eapply buckets_ext; [apply (wf_buckets f1 Hwf1)|..].
  - by rewrite bucket_of_known, Hnone.
  - done.
  - simpl. by rewrite (wf_len_pos f1 Hwf1).
  - simpl. intros _ f' (Hb & Hf & Ht & Hp).
    assert (∀ w, known f' w = if decide (w = wid) then Some 0%Z else known f1 w) as Hk'.
    { intros w. unfold known. rewrite Ht. unfold get. rewrite Hf. case_decide as Hw.
      - subst. rewrite vlookup_insert_eq by (by rewrite (wf_len_tracked f1 Hwf1)).
        unfold get in Hz. by rewrite Hz.
      - by rewrite vlookup_insert_ne. }
    split; [|done]. split; rewrite ?Hp, ?Hf, ?Ht, ?vlen_insert; try apply Hwf1.
    + eapply buckets_ext; [done| |done..]. intros w. rewrite !bucket_of_known, Hk'. by case_decide.
    + intros w. destruct (decide (w = wid)) as [->|Hw].
      * by rewrite vlookup_insert_eq by (by rewrite (wf_len_tracked f1 Hwf1)).
      * rewrite vlookup_insert_ne by done. apply (wf_zero f1 Hwf1).
Qed.

Lemma check_spec wid f v :
  wf f → known f wid = Some v → wp (check wid) (λ _ f', f' = f) f.
Proof.
  intros Hwf Hk. pose proof (known_lt _ _ _ Hwf Hk) as Hlt. unfold check. wp_steps.
  destruct (N.leb_spec (vlen (free f)) wid); [lia|].
  unfold known in Hk. destruct (tracked f !! wid) as [b|] eqn:Ht; [|done].
  wp_step. eapply wp_at; [done|]. destruct b; [|simplify_eq]. simpl. by wp_steps.
Qed.

Lemma free_set_spec wid val f old :
  wf f → known f wid = Some old →
  wp (set wid val) (λ _ f', wf f' ∧
    ∀ w, known f' w = if decide (w = wid) then Some val else known f w) f.
Proof.
  intros Hwf Hk. pose proof (known_lt _ _ _ Hwf Hk) as Hlt. unfold set. wp_step.
  eapply wp_mono; [by eapply check_spec|]. cbn beta. intros _ ? ->.
  assert (get wid f = old) as Hget by (by rewrite get_known, Hk).
  wp_step. eapply wp_at; [by apply get_lookup|]. rewrite Hget.
  wp_step. apply wp_set_at; [done|]. cbn beta.
  assert (tracked f !! wid = Some true) as Htw.
  { unfold known in Hk. by destruct (tracked f !! wid) as [[]|]. }
  (* any index with these tables is what we want *)
  assert (∀ f', buckets (λ w, if decide (w = wid) then Some (bucket val) else bucket_of f w) f' →
    free f' = <[wid := val]> (free f) → tracked f' = tracked f → vlen (pos f') = vlen (pos f) →
    wf f' ∧ ∀ w, known f' w = if decide (w = wid) then Some val else known f w) as Hdone.
  { intros f' Hb Hf Ht Hp.
    assert (∀ w, known f' w = if decide (w = wid) then Some val else known f w) as Hk'.
    { intros w. unfold known. rewrite Ht. unfold get. rewrite Hf. case_decide as Hw.
      - subst. rewrite Htw. by rewrite vlookup_insert_eq.
      - by rewrite vlookup_insert_ne. }
    split; [|done]. split; rewrite ?Hp, ?Hf, ?Ht, ?vlen_insert; try apply Hwf.
    + eapply buckets_ext; [done| |done..]. intros w. rewrite !bucket_of_known, Hk'. by case_decide.
    + intros w Hw. rewrite vlookup_insert_ne by congruence. by apply (wf_zero f Hwf). }
  pose proof (wf_buckets f Hwf) as Hb.
  assert (bucket_of f wid = Some (bucket old)) as Hbo by (by rewrite bucket_of_known, Hk).
  destruct (N.eqb_spec (bucket old) (bucket val)) as [Heq|Hne].
  - wp_steps. apply Hdone; [|done..]. eapply buckets_ext; [done| |done..].
    intros w. case_decide; [subst; congruence|done].
  - wp_step. eapply wp_mono; [eapply (bucket_remove_spec (bucket_of f)); [|done]|].
    { by eapply buckets_ext. }
    cbn beta. intros _ f1 (Hb1 & Hf1 & Ht1 & Hp1).
    eapply wp_mono; [eapply bucket_push_spec; [done| |apply bucket_lt|]|].
    + cbn beta. by rewrite decide_True.
    + rewrite Hp1. simpl. by rewrite (wf_len_pos f Hwf).
    + cbn beta. intros _ f2 (Hb2 & Hf2 & Ht2 & Hp2). apply Hdone.
      * eapply buckets_ext; [done| |done..]. intros w. cbn beta. by repeat case_decide.
      * by rewrite Hf2, Hf1.
      * by rewrite Ht2, Ht1.
      * by rewrite Hp2, Hp1.
Qed.
Lemma maxFree_log2 f : maxFree f = if (nonempty f =? 0)%N then 0%Z else Z.of_N (N.log2 (nonempty f)).
Proof.
  unfold maxFree, countl_zero, maxSlots. destruct (N.eqb_spec (nonempty f) 0) as [|Hn]; [done|].
  rewrite N.size_log2 by done. lia.
Qed.

(** [maxFree] is the largest number of free slots (a negative number counts as
    zero, and no worker has more than [maxSlots]). *)
Lemma maxFree_spec f :
  wf f →
  (0 ≤ maxFree f ≤ maxSlots)%Z ∧
  (∀ w v, known f w = Some v → Z.of_N (bucket v) ≤ maxFree f)%Z ∧
  ((0 < maxFree f)%Z → ∃ w v, known f w = Some v ∧ Z.of_N (bucket v) = maxFree f).
Proof.
  intros Hwf. pose proof (bk_mask _ _ (wf_buckets f Hwf)) as Hmask.
  assert (∀ b, N.testbit (nonempty f) b = true ↔ ∃ w v, known f w = Some v ∧ bucket v = b) as Hm.
  { intros b. rewrite Hmask. setoid_rewrite bucket_of_known. setoid_rewrite fmap_Some. naive_solver. }
  rewrite maxFree_log2. destruct (N.eqb_spec (nonempty f) 0) as [Hz|Hn].
  - split_and!; [unfold maxSlots; lia|unfold maxSlots; lia| |lia].
    intros w v Hv. assert (N.testbit (nonempty f) (bucket v) = true) as Hb by (apply Hm; eauto).
    by rewrite Hz, N.bits_0 in Hb.
  - pose proof (N.bit_log2 _ Hn) as Htop. apply Hm in Htop as (w & v & Hv & Hbv).
    pose proof (bucket_lt v). unfold maxSlots.
    split_and!; [lia|lia| |intros _; exists w, v; split; [done|lia]].
    intros w' v' Hv'. assert (N.testbit (nonempty f) (bucket v') = true) as Hb by (apply Hm; eauto).
    destruct (decide (bucket v' ≤ N.log2 (nonempty f))%N); [lia|].
    by rewrite N.bits_above_log2 in Hb by lia.
Qed.

(** The abstract index: [o] is a known worker with most free slots, if any known
    worker has a free slot. *)
Definition is_emptiest (m : N → option Z) (o : option N) : Prop :=
  match o with
  | None => ∀ w v, m w = Some v → (v ≤ 0)%Z
  | Some w => ∃ v, m w = Some v ∧ (0 < v)%Z ∧
      ∀ w' v', m w' = Some v' → (Z.min v' maxSlots ≤ Z.min v maxSlots)%Z
  end.

Lemma emptiest_spec f :
  wf f → wp emptiest (λ o f', f' = f ∧ is_emptiest (known f) o) f.
Proof.
  intros Hwf. destruct (maxFree_spec f Hwf) as (Hrange & Hmax & Hex).
  unfold emptiest. wp_steps. destruct (Z.leb_spec (maxFree f) 0) as [Hz|Hpos].
  { wp_steps. split; [done|]. intros w v Hv. specialize (Hmax w v Hv).
    pose proof (bucket_pos v). lia. }
  destruct (Hex Hpos) as (w & v & Hv & Hbv).
  destruct (bk_in _ _ (wf_buckets f Hwf) w (bucket v)) as (i & l & Hi & Hl & Hw).
  { by rewrite bucket_of_known, Hv. }
  rewrite <- Hbv, N2Z.id. wp_step. eapply wp_at; [done|]. wp_steps. split; [done|].
  destruct l as [|w0 l]; [by rewrite vlookup_nil in Hw|]. simpl.
  destruct (bk_out _ _ (wf_buckets f Hwf) _ 0%N _ w0 Hl) as [Hb0 _]; [done|].
  rewrite bucket_of_known, fmap_Some in Hb0. destruct Hb0 as (v0 & Hv0 & Hb0).
  exists v0. pose proof (bucket_pos v0). split_and!; [done|lia|].
  intros w' v' Hv'. specialize (Hmax w' v' Hv'). unfold bucket, maxSlots in *. lia.
Qed.

Lemma maxFree_pos f : wf f → (0 < maxFree f)%Z ↔ ∃ w v, known f w = Some v ∧ (0 < v)%Z.
Proof.
  intros Hwf. destruct (maxFree_spec f Hwf) as (_ & Hmax & Hex). split.
  - intros Hpos. destruct (Hex Hpos) as (w & v & Hv & Hb). exists w, v. split; [done|].
    apply bucket_pos. lia.
  - intros (w & v & Hv & Hpos). specialize (Hmax w v Hv). apply bucket_pos in Hpos. lia.
Qed.

(** ** The index as its users see it *)

Inductive op :=
  | OpPush (wid : N)
  | OpSet (wid : N) (val : Z).

Definition run_op (o : op) : M t () :=
  match o with OpPush wid => push wid | OpSet wid val => set wid val end.

(** On the map: a push makes a worker known with no free slot, a set changes a
    known worker. *)
Definition apply_op (m : gmap N Z) (o : op) : option (gmap N Z) :=
  match o with
  | OpPush wid =>
      if (wid <? 2 ^ 32 - 1)%N then Some (<[wid := default 0%Z (m !! wid)]> m) else None
  | OpSet wid val =>
      match m !! wid with Some _ => Some (<[wid := val]> m) | None => None end
  end.

Fixpoint apply_ops (m : gmap N Z) (ops : list op) : option (gmap N Z) :=
  match ops with
  | [] => Some m
  | o :: ops => m' ← apply_op m o; apply_ops m' ops
  end.

Lemma free_run_op_spec o f m m' :
  wf f → (∀ w, known f w = m !! w) → apply_op m o = Some m' →
  wp (run_op o) (λ _ f', wf f' ∧ ∀ w, known f' w = m' !! w) f.
Proof.
  intros Hwf Hm Ho. destruct o as [wid|wid val]; simpl in *.
  - destruct (N.ltb_spec wid (2 ^ 32 - 1)) as [Hlt|]; simplify_eq/=.
    eapply wp_mono; [by apply push_spec|]. simpl. intros _ f' [Hwf' Hk]. split; [done|].
    intros w. rewrite Hk, lookup_insert, (get_known _ _ Hwf), Hm.
    destruct (decide (w = wid)); [subst; by rewrite decide_True|by rewrite decide_False, Hm].
  - destruct (m !! wid) as [old|] eqn:Hold; simplify_eq/=.
    eapply wp_mono; [eapply free_set_spec; [done|by rewrite Hm]|]. simpl. intros _ f' [Hwf' Hk].
    split; [done|]. intros w. rewrite Hk, lookup_insert.
    destruct (decide (w = wid)); [subst; by rewrite decide_True|by rewrite decide_False, Hm].
Qed.

(** C7. Refinement of [FreeIndex]: from the empty index, any sequence of [push]
    and of [set] calls on known workers returns normally, the index then
    represents the map of free slots those calls describe ([get] reads it),
    [maxFree] is positive exactly when some worker has a free slot, and
    [emptiest] is a worker with most free slots, or none if there is no free
    slot. *)
Theorem free_index_refines_map (ops : list op) (m : gmap N Z) :
  apply_ops ∅ ops = Some m →
  ∃ f o, forM_ ops run_op empty = (f, Ok tt) ∧
    (∀ w, get w f = default 0%Z (m !! w)) ∧
    ((0 < maxFree f)%Z ↔ ∃ w v, m !! w = Some v ∧ (0 < v)%Z) ∧
    emptiest f = (f, Ok o) ∧ is_emptiest (λ w, m !! w) o.
Proof.
  intros Hops. destruct free_empty_spec as (Hwf & Hempty).
  assert (wp (forM_ ops run_op) (λ _ f, wf f ∧ ∀ w, known f w = m !! w) empty)
    as ([] & f & Hrun & Hwf' & Hk).
  { eapply wp_mono; [apply (wp_forM _ (λ rest f, wf f ∧ ∃ m0,
      (∀ w, known f w = m0 !! w) ∧ apply_ops m0 rest = Some m))|].
    - split; [done|]. exists ∅. split; [|done]. intros w. by rewrite Hempty, lookup_empty.
    - intros o rest f (Hwf1 & m0 & Hk & Happ). simpl in Happ.
      destruct (apply_op m0 o) as [m1|] eqn:Ho; [|done]. simpl in Happ.
      eapply wp_mono; [by eapply free_run_op_spec|]. simpl. naive_solver.
    - simpl. intros _ f (? & m0 & ? & [= ->]). done. }
  destruct (emptiest_spec f Hwf') as (o & f' & Hrun' & -> & Hemp).
  exists f, o. split_and!; [done| | |done|].
  - intros w. by rewrite get_known, Hk.
  - rewrite maxFree_pos by done. by setoid_rewrite Hk.
  - unfold is_emptiest in *. destruct o as [w|]; setoid_rewrite <- Hk; naive_solver.
Qed.

Lemma free_index_refines_map_witness :
  ∃ f, forM_ [OpPush 2; OpPush 0; OpSet 2 5; OpSet 0 7; OpPush 3; OpSet 0 (-1)] run_op empty
       = (f, Ok tt) ∧ emptiest f = (f, Ok (Some 2%N)).
Proof.
  destruct (free_index_refines_map
    [OpPush 2; OpPush 0; OpSet 2 5; OpSet 0 7; OpPush 3; OpSet 0 (-1)]
    (list_to_map [(0%N, (-1)%Z); (2%N, 5%Z); (3%N, 0%Z)]))
    as (f & o & Hrun & _).
  - vm_compute. reflexivity.
  - exists f. split; [exact Hrun|]. vm_compute in Hrun. injection Hrun as <-. reflexivity.
Defined.
End FreeIndex.
