(* ===== verification/Sched.v ===== *)
(** * The scheduler's placement core: data and operations

    [sched::Core] of src/src/daemon/scheduler.hh with its data types.  Each
    member function that changes the core is an operation of the monad [M core]:
    it reads and writes the tables in the order of the source and throws where
    the source throws.  The invariants and theorems are in SchedInv.v and
    SchedDispatch.v.

    [std::unordered_map]s are finite maps.  Their iteration order can show in one
    place only, the choice among systems with equal best key in [dispatch]: there
    the order is an argument, [map_order], which may differ at every iteration of
    the loop, so that the theorems hold for every history of the hash table.
    [double] operations round one by one (no fused multiply-add). *)

From stdpp Require Import sorting.
From S2P Require Import Prelude Double PathKey Heap Free.

Definition noWorker : N := (2 ^ 32 - 1)%N.

Module Config.
Record t := mk { ageWeight : double; faninWeight : double; locLambda : double }.
Definition default : t := mk (double_of_Z 4) (double_of_Z 30000) (double_of_Z 256000000).
End Config.

Module Assign.
Record t := mk { drv : N; worker : N; assignId : N; clients : list N }.
End Assign.

Module Entry.
Record t := mk {
  drvPath : string;
  inputs : list string;   (* PathKeys, for locality only *)
  system : string;
  features : list string; (* required *)
  followers : list N;
  worker : N;
  assignId : N;
  enqMs : double;
  cpHint : double;
  unplaceable : bool;     (* as last told to the followers *)
  avoid : N;              (* gave it back *)
}.
Definition with_system_features sys feats (e : t) : t :=
  mk (drvPath e) (inputs e) sys feats (followers e) (worker e) (assignId e) (enqMs e)
     (cpHint e) (unplaceable e) (avoid e).
Definition with_followers v (e : t) : t :=
  mk (drvPath e) (inputs e) (system e) (features e) v (worker e) (assignId e) (enqMs e)
     (cpHint e) (unplaceable e) (avoid e).
Definition with_worker v (e : t) : t :=
  mk (drvPath e) (inputs e) (system e) (features e) (followers e) v (assignId e) (enqMs e)
     (cpHint e) (unplaceable e) (avoid e).
Definition with_assignId v (e : t) : t :=
  mk (drvPath e) (inputs e) (system e) (features e) (followers e) (worker e) v (enqMs e)
     (cpHint e) (unplaceable e) (avoid e).
Definition with_cpHint v (e : t) : t :=
  mk (drvPath e) (inputs e) (system e) (features e) (followers e) (worker e) (assignId e)
     (enqMs e) v (unplaceable e) (avoid e).
Definition with_unplaceable v (e : t) : t :=
  mk (drvPath e) (inputs e) (system e) (features e) (followers e) (worker e) (assignId e)
     (enqMs e) (cpHint e) v (avoid e).
Definition with_avoid v (e : t) : t :=
  mk (drvPath e) (inputs e) (system e) (features e) (followers e) (worker e) (assignId e)
     (enqMs e) (cpHint e) (unplaceable e) v.
End Entry.

Module Worker.
Record t := mk {
  addr : string;
  systems : list string;
  features : list string;
  maxJobs : Z;
  up : bool;
  draining : bool;
  running : list N;
}.
Definition with_up v (w : t) : t :=
  mk (addr w) (systems w) (features w) (maxJobs w) v (draining w) (running w).
Definition with_draining v (w : t) : t :=
  mk (addr w) (systems w) (features w) (maxJobs w) (up w) v (running w).
Definition with_systems v (w : t) : t :=
  mk (addr w) v (features w) (maxJobs w) (up w) (draining w) (running w).
Definition with_features v (w : t) : t :=
  mk (addr w) (systems w) v (maxJobs w) (up w) (draining w) (running w).
Definition with_maxJobs v (w : t) : t :=
  mk (addr w) (systems w) (features w) v (up w) (draining w) (running w).
Definition with_running v (w : t) : t :=
  mk (addr w) (systems w) (features w) (maxJobs w) (up w) (draining w) v.

(** A worker that says Hello with max_jobs 0 is up but runs nothing. *)
Definition takesWork (w : t) : bool := up w && negb (draining w) && (0 <? maxJobs w)%Z.
End Worker.

Module SystemState.
Record t := mk { queue : IndexedHeap.t; free : FreeIndex.t }.
Definition with_queue q (s : t) : t := mk q (free s).
Definition with_free f (s : t) : t := mk (queue s) f.
Definition empty : t := mk IndexedHeap.empty FreeIndex.empty.
End SystemState.

Record core := mkCore {
  cfg : Config.t;
  drvIds : gmap string N;
  freeIds : list N;
  workerIds : gmap string N;
  entries : list (option Entry.t);
  workers : list Worker.t;
  workersUp_ : N;
  systems : gmap string SystemState.t;
  follows : gmap N (list N);
  lastBuilder : gmap string (N * N);
  lastAssignId : N;
}.

Definition with_drvIds v c := mkCore (cfg c) v (freeIds c) (workerIds c) (entries c) (workers c)
  (workersUp_ c) (systems c) (follows c) (lastBuilder c) (lastAssignId c).
Definition with_freeIds v c := mkCore (cfg c) (drvIds c) v (workerIds c) (entries c) (workers c)
  (workersUp_ c) (systems c) (follows c) (lastBuilder c) (lastAssignId c).
Definition with_workerIds v c := mkCore (cfg c) (drvIds c) (freeIds c) v (entries c) (workers c)
  (workersUp_ c) (systems c) (follows c) (lastBuilder c) (lastAssignId c).
Definition with_entries v c := mkCore (cfg c) (drvIds c) (freeIds c) (workerIds c) v (workers c)
  (workersUp_ c) (systems c) (follows c) (lastBuilder c) (lastAssignId c).
Definition with_workers v c := mkCore (cfg c) (drvIds c) (freeIds c) (workerIds c) (entries c) v
  (workersUp_ c) (systems c) (follows c) (lastBuilder c) (lastAssignId c).
Definition with_workersUp v c := mkCore (cfg c) (drvIds c) (freeIds c) (workerIds c) (entries c)
  (workers c) v (systems c) (follows c) (lastBuilder c) (lastAssignId c).
Definition with_systems v c := mkCore (cfg c) (drvIds c) (freeIds c) (workerIds c) (entries c)
  (workers c) (workersUp_ c) v (follows c) (lastBuilder c) (lastAssignId c).
Definition with_follows v c := mkCore (cfg c) (drvIds c) (freeIds c) (workerIds c) (entries c)
  (workers c) (workersUp_ c) (systems c) v (lastBuilder c) (lastAssignId c).
Definition with_lastBuilder v c := mkCore (cfg c) (drvIds c) (freeIds c) (workerIds c) (entries c)
  (workers c) (workersUp_ c) (systems c) (follows c) v (lastAssignId c).
Definition with_lastAssignId v c := mkCore (cfg c) (drvIds c) (freeIds c) (workerIds c) (entries c)
  (workers c) (workersUp_ c) (systems c) (follows c) (lastBuilder c) v.

(** Bounds on soft state; inputs come from the network. *)
Definition maxUnofferedSystems : N := 16.
Definition maxEntries : N := (2 ^ 22)%N.
Definition maxLastBuilder : N := (2 ^ 18)%N.

(** [Core::Core]; reserving capacity has no effect on the model. *)
Definition Core (cf : Config.t) : core := mkCore cf ∅ [] ∅ [] [] 0 ∅ ∅ ∅ 0.

Abbreviation C := (M core).

(** ** Access to the tables *)

(** The entry of a slot that holds one: [*slot] of an engaged optional. *)
Definition entry_ref (d : N) : C Entry.t :=
  slot ← at_ entries d; expect Undefined slot.

Definition upd_entry (d : N) (f : Entry.t → Entry.t) : C () :=
  e ← entry_ref d; set_at entries with_entries d (Some (f e)).

Definition upd_worker (w : N) (f : Worker.t → Worker.t) : C () :=
  wkr ← at_ workers w; set_at workers with_workers w (f wkr).

(** [sys(name)]: the state of a system, created on first use. *)
Definition sys (name : string) (c : core) : core :=
  match systems c !! name with
  | Some _ => c
  | None => with_systems (<[name := SystemState.empty]> (systems c)) c
  end.

Definition on_system {A} (name : string) (m : M SystemState.t A) : C A :=
  modify (sys name);;
  c ← get;
  st ← expect Undefined (systems c !! name);
  zoom (λ _, st) (λ st' c, with_systems (<[name := st']> (systems c)) c) m.

Definition on_queue {A} (name : string) (m : M IndexedHeap.t A) : C A :=
  on_system name (zoom SystemState.queue SystemState.with_queue m).

Definition on_free {A} (name : string) (m : M FreeIndex.t A) : C A :=
  on_system name (zoom SystemState.free SystemState.with_free m).

(** ** Ids *)

Definition drvId (path : string) : C N :=
  let key := PathKey path in
  c ← get;
  match drvIds c !! key with
  | Some d => mret d
  | None =>
      drv ← match last (freeIds c) with
            | Some d =>
                modify (with_freeIds (take (length (freeIds c) - 1) (freeIds c)));;
                mret d
            | None =>
                if (maxEntries <=? vlen (entries c))%N then
                  throw (NixError "scheduler: derivation table full")
                else
                  modify (with_entries (entries c ++ [None]));;
                  mret (u32 (vlen (entries c)))
            end;
      modify (λ c, with_drvIds (<[key := drv]> (drvIds c)) c);;
      mret drv
  end.

Definition findDrv (path : string) (c : core) : option N := drvIds c !! PathKey path.

Definition workerId (addr : string) : C N :=
  c ← get;
  match workerIds c !! addr with
  | Some w => mret w
  | None =>
      let wid := u32 (vlen (workers c)) in
      modify (with_workers (workers c ++ [Worker.mk addr [] [] 0 false false []]));;
      modify (λ c, with_workerIds (<[addr := wid]> (workerIds c)) c);;
      mret wid
  end.

(** ** Reading *)

Definition queued (c : core) : N :=
  map_fold (λ _ st total, (total + IndexedHeap.size (SystemState.queue st))%N) 0%N (systems c).

Definition offered (system : string) (c : core) : bool :=
  existsb (λ wkr, bool_decide (system ∈ Worker.systems wkr)) (workers c).

Definition admitsSystem (system : string) (c : core) : bool :=
  bool_decide (is_Some (systems c !! system)) ||
  (N.of_nat (length (filter (λ p : string * SystemState.t, offered p.1 c = false)
     (map_to_list (systems c)))) <? maxUnofferedSystems)%N.

Definition offers (wkr : Worker.t) (ent : Entry.t) : bool :=
  bool_decide (Entry.system ent ∈ Worker.systems wkr) &&
  forallb (λ feat, bool_decide (feat ∈ Worker.features wkr)) (Entry.features ent).

(** Some worker that takes work could ever run it. *)
Definition placeable (ent : Entry.t) (c : core) : bool :=
  existsb (λ wkr, Worker.takesWork wkr && offers wkr ent) (workers c).

Definition placeable_drv (d : N) : C bool :=
  slot ← at_ entries d;
  c ← get;
  mret (match slot with Some e => placeable e c | None => false end).

Definition prio (ent : Entry.t) (c : core) : double :=
  let extra :=
    match Entry.followers ent with
    | [] => double_of_Z 0
    | _ => double_of_Z (Z.of_nat (length (Entry.followers ent) - 1))
    end in
  dopp (dsub (dadd (Entry.cpHint ent) (dmul (Config.faninWeight (cfg c)) extra))
             (dmul (Config.ageWeight (cfg c)) (Entry.enqMs ent))).

(** ** Free slots *)

Definition free_val (wkr : Worker.t) : Z :=
  let running := Z.min (Z.of_nat (length (Worker.running wkr))) FreeIndex.maxSlots in
  if Worker.takesWork wkr then (Worker.maxJobs wkr - running)%Z else 0%Z.

Definition refreshFree (wid : N) : C () :=
  wkr ← at_ workers wid;
  forM_ (Worker.systems wkr) (λ name, on_free name (FreeIndex.set wid (free_val wkr))).

(** ** Entries come and go *)

(** Put a derivation into its system's queue with its current priority. *)
Definition enqueue (d : N) : C () :=
  ent ← entry_ref d;
  p ← gets (prio ent);
  on_queue (Entry.system ent) (IndexedHeap.set d p).

(** The entry is finished or abandoned: free the slot and its id for reuse. *)
Definition retire (d : N) : C () :=
  slot ← at_ entries d;
  match slot with
  | None => mret tt
  | Some ent =>
      let name := Entry.system ent in
      c ← get;
      match systems c !! name with
      | None => mret tt
      | Some _ =>
          on_queue name (IndexedHeap.erase d);;
          c ← get;
          st ← expect Undefined (systems c !! name);
          if (IndexedHeap.size (SystemState.queue st) =? 0)%N && negb (offered name c) then
            modify (with_systems (delete name (systems c)))
          else mret tt
      end;;
      modify (λ c, with_drvIds (delete (PathKey (Entry.drvPath ent)) (drvIds c)) c);;
      set_at entries with_entries d None;;
      modify (λ c, with_freeIds (freeIds c ++ [d]) c)
  end.

Record WantInfo := mkWantInfo {
  wi_drvPath : string;
  wi_inputs : list string;
  wi_system : string;
  wi_features : list string;
  wi_cpHintMs : double;
}.

(** The derivation's id and, if it is placed, its worker and assignment. *)
Definition WantResult : Type := N * option (N * N).

(** The second half of [want]: the client follows the derivation, which is
    queued if it is not placed. *)
Definition want_follow (client drv : N) (cpHintMs : double) : C WantResult :=
  ent ← entry_ref drv;
  (if bool_decide (client ∈ Entry.followers ent) then mret tt
   else
     upd_entry drv (Entry.with_followers (Entry.followers ent ++ [client]));;
     modify (λ c, with_follows
       (<[client := default [] (follows c !! client) ++ [drv]]> (follows c)) c));;
  upd_entry drv (λ e, Entry.with_cpHint (dmax (Entry.cpHint e) cpHintMs) e);;
  ent ← entry_ref drv;
  if negb (Entry.worker ent =? noWorker)%N then
    mret (drv, Some (Entry.worker ent, Entry.assignId ent))
  else
    enqueue drv;;
    mret (drv, None).

Definition want (client : N) (info : WantInfo) (nowMs : double) : C WantResult :=
  drv ← drvId (wi_drvPath info);
  slot ← at_ entries drv;
  match slot with
  | None =>
      set_at entries with_entries drv
        (Some (Entry.mk (wi_drvPath info) (PathKey <$> wi_inputs info) (wi_system info)
           (wi_features info) [] noWorker 0 nowMs (double_of_Z 0) false noWorker))
  | Some ent =>
      if bool_decide (Entry.system ent = EmptyString) then
        upd_entry drv (Entry.with_system_features (wi_system info) (wi_features info))
      else mret tt
  end;;
  want_follow client drv (wi_cpHintMs info).

(** The worker to revoke on, if the last follower left a placed derivation. *)
Definition cancel (client drv : N) : C (option N) :=
  c ← get;
  if (vlen (entries c) <=? drv)%N then mret None
  else
    slot ← at_ entries drv;
    match slot with
    | None => mret None
    | Some ent =>
        if negb (bool_decide (client ∈ Entry.followers ent)) then mret None
        else
          let rest := filter (λ x, x ≠ client) (Entry.followers ent) in
          upd_entry drv (Entry.with_followers rest);;
          match rest with
          | _ :: _ =>
              (if (Entry.worker ent =? noWorker)%N then enqueue drv else mret tt);;
              mret None
          | [] =>
              if (Entry.worker ent =? noWorker)%N then retire drv;; mret None
              else mret (Some (Entry.worker ent))
          end
    end.

Definition cancel_path (client : N) (drvPath : string) : C (option N) :=
  c ← get;
  match findDrv drvPath c with
  | None => mret None
  | Some d => cancel client d
  end.

(** The derivations to revoke, with their workers. *)
Definition clientGone (client : N) : C (list (N * N)) :=
  c ← get;
  match follows c !! client with
  | None => mret []
  | Some drvs =>
      modify (with_follows (delete client (follows c)));;
      foldM (λ revokes drv,
        o ← cancel client drv;
        mret (match o with Some wid => revokes ++ [(drv, wid)] | None => revokes end)) [] drvs
  end.

(** Place again, or drop, a derivation whose worker is gone. *)
Definition requeue_or_retire (d : N) : C () :=
  ent ← entry_ref d;
  match Entry.followers ent with
  | [] => retire d
  | _ => enqueue d
  end.

Definition workerGone (wid : N) : C () :=
  wkr ← at_ workers wid;
  (if Worker.up wkr then modify (λ c, with_workersUp (u64 (workersUp_ c + (2 ^ 64 - 1))) c)
   else mret tt);;
  upd_worker wid (Worker.with_up false);;
  refreshFree wid;;
  wkr ← at_ workers wid;
  upd_worker wid (Worker.with_running []);;
  forM_ (Worker.running wkr) (λ drv,
    c ← get;
    if (vlen (entries c) <=? drv)%N then mret tt
    else
      slot ← at_ entries drv;
      match slot with
      | None => mret tt
      | Some ent =>
          if negb (Entry.worker ent =? wid)%N then mret tt
          else
            upd_entry drv (Entry.with_worker noWorker);;
            requeue_or_retire drv
      end).

Record HelloInfo := mkHelloInfo {
  hi_addr : string;
  hi_systems : list string;
  hi_features : list string;
  hi_maxJobs : N;
  hi_running : list (string * N); (* running and expecting, with assignId *)
}.

(** A reported derivation that followers wait for is returned with the worker it
    is taken from ([noWorker] if it was queued); that worker no longer runs it. *)
Definition hello_supersede (wid drv : N) (ent : Entry.t) : C (list (N * N)) :=
  if negb (Entry.worker ent =? noWorker)%N && negb (Entry.worker ent =? wid)%N then
    upd_worker (Entry.worker ent)
      (λ w, Worker.with_running (filter (λ x, x ≠ drv) (Worker.running w)) w);;
    refreshFree (Entry.worker ent);;
    mret [(drv, Entry.worker ent)]
  else if (Entry.worker ent =? noWorker)%N && negb (bool_decide (Entry.followers ent = [])) then
    mret [(drv, noWorker)]
  else mret [].

(** It is on the reporter from now on, and in no queue. *)
Definition hello_place (wid drv : N) (assignId : N) : C () :=
  upd_entry drv (Entry.with_worker wid);;
  upd_entry drv (Entry.with_assignId assignId);;
  ent ← entry_ref drv;
  on_queue (Entry.system ent) (IndexedHeap.erase drv);;
  wkr ← at_ workers wid;
  if bool_decide (drv ∈ Worker.running wkr) then mret tt
  else upd_worker wid (λ w, Worker.with_running (Worker.running w ++ [drv]) w).

(** One reported build of a Hello. *)
Definition hello_running (wid : N) (path : string) (assignId : N) : C (list (N * N)) :=
  drv ← drvId path;
  slot ← at_ entries drv;
  match slot with
  | None => set_at entries with_entries drv
      (Some (Entry.mk path [] EmptyString [] [] noWorker 0 (double_of_Z 0) (double_of_Z 0)
         false noWorker))
  | Some _ => mret tt
  end;;
  ent ← entry_ref drv;
  sup ← hello_supersede wid drv ent;
  hello_place wid drv assignId;;
  mret sup.

(** The worker is up, with what it offers. *)
Definition hello_register (wid : N) (info : HelloInfo) : C () :=
  upd_worker wid (Worker.with_up true);;
  modify (λ c, with_workersUp (u64 (workersUp_ c + 1)) c);;
  upd_worker wid (Worker.with_draining false);;
  upd_worker wid (Worker.with_systems (hi_systems info));;
  forM_ (hi_systems info) (λ name, on_free name (FreeIndex.push wid));;
  upd_worker wid (Worker.with_features (hi_features info));;
  upd_worker wid (Worker.with_maxJobs (Z.min (Z.of_N (hi_maxJobs info)) FreeIndex.maxSlots)).

Definition hello (info : HelloInfo) : C (N * list (N * N)) :=
  (if bool_decide (hi_addr info = EmptyString) then
     throw (NixError "scheduler: Hello without addr") else mret tt);;
  wid ← workerId (hi_addr info);
  wkr ← at_ workers wid;
  (if Worker.up wkr then workerGone wid else mret tt);;
  hello_register wid info;;
  superseded ← foldM (λ sups p,
    s ← hello_running wid p.1 p.2; mret (sups ++ s)) [] (hi_running info);
  refreshFree wid;;
  mret (wid, superseded).

Definition rememberBuilder (path : string) (wid size : N) : C () :=
  let key := PathKey path in
  c ← get;
  match lastBuilder c !! key with
  | Some _ => modify (with_lastBuilder (<[key := (wid, size)]> (lastBuilder c)))
  | None =>
      (if (maxLastBuilder <=? N.of_nat (base.size (lastBuilder c)))%N then
         modify (with_lastBuilder ∅) else mret tt);;
      modify (λ c, with_lastBuilder (<[key := (wid, size)]> (lastBuilder c)) c)
  end.

Definition done (wid : N) (drvPath : string) (outputs : list (string * N)) : C () :=
  at_ workers wid;;
  forM_ outputs (λ o, rememberBuilder o.1 wid o.2);;
  c ← get;
  match findDrv drvPath c with
  | None => mret tt
  | Some d =>
      upd_worker wid (λ w, Worker.with_running (filter (λ x, x ≠ d) (Worker.running w)) w);;
      refreshFree wid;;
      slot ← at_ entries d;
      match slot with
      | Some ent => if (Entry.worker ent =? wid)%N then retire d else mret tt
      | None => mret tt
      end
  end.

(** The worker can't run it after all: place it elsewhere. *)
Definition giveBack (wid : N) (drvPath : string) : C () :=
  c ← get;
  match findDrv drvPath c with
  | None => mret tt
  | Some d =>
      upd_worker wid (λ w, Worker.with_running (filter (λ x, x ≠ d) (Worker.running w)) w);;
      refreshFree wid;;
      slot ← at_ entries d;
      match slot with
      | None => mret tt
      | Some ent =>
          if negb (Entry.worker ent =? wid)%N then mret tt
          else
            upd_entry d (Entry.with_worker noWorker);;
            upd_entry d (Entry.with_avoid wid);;
            requeue_or_retire d
      end
  end.

Definition setDraining (wid : N) (draining : bool) : C () :=
  upd_worker wid (Worker.with_draining draining);;
  refreshFree wid.

(** ** Picking a worker *)

Definition freeOf (wid : N) : C Z :=
  wkr ← at_ workers wid;
  c ← get;
  mret (match Worker.systems wkr with
        | [] => 0%Z
        | name :: _ =>
            match systems c !! name with
            | None => 0%Z
            | Some st => FreeIndex.get wid (SystemState.free st)
            end
        end).

(** [!best || val(wid) > val( *best)] for the scans below. *)
Definition beats (best : option Z) (val : Z) : bool :=
  match best with None => true | Some b => (b <? val)%Z end.

(** Most free among workers offering system and features. *)
Definition emptiestFor (ent : Entry.t) : C (option N) :=
  c ← get;
  match systems c !! Entry.system ent with
  | None => mret None
  | Some st =>
      let fidx := SystemState.free st in
      match Entry.features ent with
      | [] => zoom (λ _, fidx) (λ _ c, c) FreeIndex.emptiest
      | _ =>
          foldM (λ best wid,
            wkr ← at_ workers wid;
            mret (if Worker.up wkr && (0 <? FreeIndex.get wid fidx)%Z && offers wkr ent &&
                     beats ((λ b, FreeIndex.get b fidx) <$> best) (FreeIndex.get wid fidx)
                  then Some wid else best))
            None (range 0 (vlen (workers c)))
      end
  end.

(** The worker it was given back by, if nobody else can run it. *)
Definition avoiding (ent : Entry.t) : C (option N) :=
  c ← get;
  r ← foldM (λ (acc : option N * bool) wid,
        wkr ← at_ workers wid;
        if (wid =? Entry.avoid ent)%N || negb (Worker.takesWork wkr) || negb (offers wkr ent) then
          mret acc
        else
          free ← freeOf wid;
          if negb (0 <? free)%Z then mret (acc.1, true)
          else
            match acc.1 with
            | None => mret (Some wid, true)
            | Some b => bfree ← freeOf b;
                        mret (if (bfree <? free)%Z then Some wid else Some b, true)
            end)
      (None, false) (range 0 (vlen (workers c)));
  if bool_decide (is_Some r.1) || r.2 then mret r.1 else mret (Some (Entry.avoid ent)).

(** [cands]: add the bytes of one more input to its builder's entry. *)
Fixpoint add_cand (wid : N) (bytes : double) (cands : list (N * double)) : list (N * double) :=
  match cands with
  | [] => [(wid, bytes)]
  | (w, b) :: rest =>
      if (w =? wid)%N then (w, dadd b bytes) :: rest else (w, b) :: add_cand wid bytes rest
  end.

(** The skip condition of [pick] for an input's last builder, in the order of
    the source's short-circuit. *)
Definition cand_ok (ent : Entry.t) (wid : N) : C bool :=
  c ← get;
  if (vlen (workers c) <=? wid)%N || (wid =? Entry.avoid ent)%N then mret false
  else
    wkr ← at_ workers wid;
    if negb (Worker.up wkr) then mret false
    else
      free ← freeOf wid;
      mret ((0 <? free)%Z && offers wkr ent).

Definition score (topFree : double) (wid : N) (bytes : double) : C double :=
  free ← freeOf wid;
  c ← get;
  mret (dadd bytes (ddiv (dmul (Config.locLambda (cfg c)) (double_of_Z free)) topFree)).

Definition pick_best (ent : Entry.t) : C (option N) :=
  best ← emptiestFor ent;
  if bool_decide (best = Some (Entry.avoid ent)) then avoiding ent else mret best.

Definition pick_cands (ent : Entry.t) : C (list (N * double)) :=
  foldM (λ cands input,
    c ← get;
    match lastBuilder c !! input with
    | None => mret cands
    | Some (wid, size) =>
        ok ← cand_ok ent wid;
        mret (if ok : bool then add_cand wid (double_of_Z (Z.of_N size)) cands else cands)
    end) [] (Entry.inputs ent).

Definition pick (ent : Entry.t) : C (option N) :=
  best ← pick_best ent;
  match best with
  | None => mret None
  | Some best =>
      bfree ← freeOf best;
      let topFree := dmax (double_of_Z 1) (double_of_Z bfree) in
      cands ← pick_cands ent;
      s0 ← score topFree best (double_of_Z 0);
      r ← foldM (λ (acc : N * double) cand,
            scr ← score topFree cand.1 cand.2;
            mret (if dltb acc.2 scr then (cand.1, scr) else acc))
          (best, s0) cands;
      mret (Some r.1)
  end.

(** ** Dispatch *)

Record Skipped := mkSkipped { sk_system : string; sk_drv : N; sk_key : double }.

(** The order in which a hash table is walked, at each iteration. *)
Record map_order := mkOrder {
  order_of : nat → gmap string SystemState.t → list (string * SystemState.t);
  order_perm : ∀ n m, order_of n m ≡ₚ map_to_list m;
}.

Definition list_order : map_order := mkOrder (λ _, map_to_list) (λ _ m, reflexivity _).

(** The system whose head is the most urgent among those with a free worker. *)
Definition best_system (l : list (string * SystemState.t)) : option (string * double) :=
  foldl (λ best p,
    match IndexedHeap.topKey (SystemState.queue p.2) with
    | Some key =>
        if (0 <? FreeIndex.maxFree (SystemState.free p.2))%Z &&
           match best with None => true | Some b => dltb key b.2 end
        then Some (p.1, key) else best
    | None => best
    end) None l.

Definition dispatchHead (system : string) (out : list Assign.t) (skipped : list Skipped) :
    C (list Assign.t * list Skipped) :=
  modify (sys system);;
  c ← get;
  st ← expect Undefined (systems c !! system);
  let drv := default 0%N (IndexedHeap.top (SystemState.queue st)) in
  on_queue system (IndexedHeap.erase drv);;
  slot ← at_ entries drv;
  match slot with
  | None => mret (out, skipped)
  | Some ent =>
      let idle := bool_decide (Entry.followers ent = []) in
      let queued := (Entry.worker ent =? noWorker)%N in
      if idle || negb queued then
        (if idle && queued then retire drv else mret tt);;
        mret (out, skipped)
      else
        wid ← pick ent;
        match wid with
        | None =>
            p ← gets (prio ent);
            mret (out, skipped ++ [mkSkipped system drv p])
        | Some wid =>
            upd_entry drv (Entry.with_worker wid);;
            modify (λ c, with_lastAssignId (u64 (lastAssignId c + 1)) c);;
            aid ← gets lastAssignId;
            upd_entry drv (Entry.with_assignId aid);;
            upd_worker wid (λ w, Worker.with_running (Worker.running w ++ [drv]) w);;
            refreshFree wid;;
            mret (out ++ [Assign.mk drv wid aid (Entry.followers ent)], skipped)
        end
  end.

(** The [for (;;)] loop; every iteration takes one derivation off a queue. *)
Fixpoint dispatch_loop (ord : map_order) (fuel : nat) (out : list Assign.t)
    (skipped : list Skipped) : C (list Assign.t * list Skipped) :=
  match fuel with
  | O => throw OutOfFuel
  | S fuel =>
      c ← get;
      match best_system (order_of ord fuel (systems c)) with
      | None => mret (out, skipped)
      | Some (name, _) =>
          r ← dispatchHead name out skipped;
          dispatch_loop ord fuel r.1 r.2
      end
  end.

Definition dispatch (ord : map_order) : C (list Assign.t) :=
  c ← get;
  r ← dispatch_loop ord (S (N.to_nat (queued c))) [] [];
  forM_ r.2 (λ skip, on_queue (sk_system skip) (IndexedHeap.set (sk_drv skip) (sk_key skip)));;
  mret r.1.

(** ** What followers are told about placeability *)

Definition string_le (a b : string) : Prop := String.leb a b = true.
#[global] Instance string_le_dec a b : Decision (string_le a b).
Proof. unfold string_le. apply _. Defined.

Definition offeredFeatures (system : string) (c : core) : list string :=
  let feats : gset string := foldl (λ feats wkr,
    if Worker.takesWork wkr && bool_decide (system ∈ Worker.systems wkr)
    then feats ∪ list_to_set (Worker.features wkr) else feats) ∅ (workers c) in
  merge_sort string_le (elements feats).

Definition markUnplaceable (d : N) (unplaceable : bool) : C () :=
  slot ← at_ entries d;
  match slot with
  | None => mret tt
  | Some ent => set_at entries with_entries d (Some (Entry.with_unplaceable unplaceable ent))
  end.

Abbreviation memo := (gmap (string * list string) bool).

Definition placeabilityChanges : C (list N) :=
  c ← get;
  r ← foldM (λ (acc : memo * list N) idx,
        slot ← at_ entries idx;
        match slot with
        | None => mret acc
        | Some ent =>
            if negb (Entry.worker ent =? noWorker)%N || bool_decide (Entry.followers ent = []) then
              mret acc
            else
              let key := (Entry.system ent, Entry.features ent) in
              c ← get;
              let answer := default (placeable ent c) (acc.1 !! key) in
              let byKey := <[key := answer]> acc.1 in
              if Bool.eqb (Entry.unplaceable ent) answer then
                set_at entries with_entries idx
                  (Some (Entry.with_unplaceable (negb answer) ent));;
                mret (byKey, acc.2 ++ [u32 idx])
              else mret (byKey, acc.2)
        end) (∅, []) (range 0 (vlen (entries c)));
  mret r.2.

(** ** Metrics *)

Module Stats.
Record t := mk { queued : N; unplaceable : N; running : N; slots : N; free : N }.
Definition zero : t := mk 0 0 0 0 0.
End Stats.

Definition featureKey (feats : list string) : string :=
  foldl (λ key feat, ((key +:+ (if bool_decide (key = EmptyString) then EmptyString else ","))
                        +:+ feat)%string)
    EmptyString (merge_sort string_le feats).

Abbreviation StatsKey := (string * string)%type.

Definition stats_worker (out : gmap StatsKey Stats.t) (wkr : Worker.t) : gmap StatsKey Stats.t :=
  match Worker.systems wkr with
  | [] => out
  | name :: _ =>
      let key := (name, featureKey (Worker.features wkr)) in
      let sst := default Stats.zero (out !! key) in
      let n := N.of_nat (length (Worker.running wkr)) in
      let running := (Stats.running sst + n)%N in
      if Worker.takesWork wkr then
        <[key := Stats.mk (Stats.queued sst) (Stats.unplaceable sst) running
           (Stats.slots sst + Z.to_N (Worker.maxJobs wkr))
           (Stats.free sst + Z.to_N (Z.max 0 (Worker.maxJobs wkr - Z.of_N n)))]> out
      else
        <[key := Stats.mk (Stats.queued sst) (Stats.unplaceable sst) running
           (Stats.slots sst) (Stats.free sst)]> out
  end.

Definition stats_entry (c : core) (acc : gmap StatsKey Stats.t * gmap StatsKey bool)
    (slot : option Entry.t) : gmap StatsKey Stats.t * gmap StatsKey bool :=
  match slot with
  | None => acc
  | Some ent =>
      if bool_decide (Entry.followers ent = []) || negb (Entry.worker ent =? noWorker)%N then acc
      else
        let key := (Entry.system ent, featureKey (Entry.features ent)) in
        let sst := default Stats.zero (acc.1 !! key) in
        let answer := default (placeable ent c) (acc.2 !! key) in
        (<[key := Stats.mk (Stats.queued sst + 1)
             (Stats.unplaceable sst + (if answer then 0 else 1)) (Stats.running sst)
             (Stats.slots sst) (Stats.free sst)]> acc.1,
         <[key := answer]> acc.2)
  end.

Definition stats (c : core) : gmap StatsKey Stats.t :=
  let by_system : gmap StatsKey Stats.t := map_fold (λ name _ out,
    <[(name, EmptyString) := default Stats.zero (out !! (name, EmptyString))]> out)
    ∅ (systems c) in
  (foldl (stats_entry c) (foldl stats_worker by_system (workers c), ∅) (entries c)).1.
