(* ===== verification/SchedInv.v ===== *)
(** * The scheduler's placement core: invariant

    The tables of [sched::Core] describe one thing several times: an entry says
    where its derivation is, the queue of its system and the running list of its
    worker say it again, and the free-slot index of every system of a worker
    counts the running list.  [Inv] states that they agree.  It has exception
    sets for the places where an operation is half-way: derivations in
    transition ([X]), workers whose free count is stale ([W]), and clients being
    removed ([G]); between operations all three are empty.

    This file has the invariant, the effect of the primitive updates on the
    tables, and the lemmas that re-establish the invariant after them. *)

From S2P Require Import Prelude Double PathKey Heap Free Sched.

(** ** Views of the tables *)

Definition lk (ents : list (option Entry.t)) (d : N) : option Entry.t := mjoin (ents !! d).

Definition qv (m : gmap string SystemState.t) (s : string) : gmap N double :=
  match m !! s with Some st => IndexedHeap.view (SystemState.queue st) | None => ∅ end.

Definition fk (m : gmap string SystemState.t) (s : string) (w : N) : option Z :=
  match m !! s with Some st => FreeIndex.known (SystemState.free st) w | None => None end.

Definition run (wks : list Worker.t) (w : N) : list N :=
  match wks !! w with Some wkr => Worker.running wkr | None => [] end.

(** Positive and finite. *)
Definition pos_finite (x : double) : bool :=
  match x with SpecFloat.S754_finite false _ _ => true | _ => false end.

Definition count_up (wks : list Worker.t) : nat := length (filter (λ w, Worker.up w = true) wks).

(** ** The invariant, by component *)

Definition sys_ok (st : SystemState.t) : Prop :=
  IndexedHeap.wf (SystemState.queue st) ∧
  IndexedHeap.good (IndexedHeap.heap (SystemState.queue st)) ∧
  FreeIndex.wf (SystemState.free st).

Definition SysOk (m : gmap string SystemState.t) : Prop := map_Forall (λ _, sys_ok) m.

(** [drvIds] holds the live entries, [freeIds] the empty slots. *)
Record Tables (ents : list (option Entry.t)) (ids : gmap string N) (frees : list N) : Prop := {
  tab_len : (vlen ents ≤ maxEntries)%N;
  tab_ids : ∀ k d, ids !! k = Some d ↔ ∃ e, lk ents d = Some e ∧ PathKey (Entry.drvPath e) = k;
  tab_nodup : NoDup frees;
  tab_free : ∀ d, d ∈ frees ↔ ents !! d = Some None;
}.

(** A derivation is in the queue of its system exactly if it is unplaced, and
    then someone follows it; it is in the running list of exactly its worker. *)
Definition placed (m : gmap string SystemState.t) (wks : list Worker.t) (d : N) (e : Entry.t) :
    Prop :=
  if decide (Entry.worker e = noWorker)
  then is_Some (qv m (Entry.system e) !! d) ∧ Entry.followers e ≠ []
  else d ∈ run wks (Entry.worker e).

Record Place (X : gset N) (ents : list (option Entry.t)) (m : gmap string SystemState.t)
    (wks : list Worker.t) : Prop := {
  pl_queue : ∀ s d, is_Some (qv m s !! d) →
    ∃ e, lk ents d = Some e ∧ Entry.system e = s ∧ (d ∉ X → Entry.worker e = noWorker);
  pl_run : ∀ w d, d ∈ run wks w → ∃ e, lk ents d = Some e ∧ Entry.worker e = w;
  pl_nodup : ∀ w, NoDup (run wks w);
  pl_placed : ∀ d e, lk ents d = Some e → d ∉ X → placed m wks d e;
}.

(** The key of a queued derivation is its current priority. *)
Definition Keys (X : gset N) (cf : Config.t) (ents : list (option Entry.t))
    (m : gmap string SystemState.t) : Prop :=
  ∀ s d k e, qv m s !! d = Some k → lk ents d = Some e → d ∉ X → k = prio e (Core cf).

(** Each system's index knows the workers that offer it, with their free slots;
    anybody else it knows counts as full. *)
Record FreeOk (W : gset N) (m : gmap string SystemState.t) (wks : list Worker.t) : Prop := {
  fr_known : ∀ w wkr s, wks !! w = Some wkr → s ∈ Worker.systems wkr → is_Some (fk m s w);
  fr_val : ∀ w wkr s, wks !! w = Some wkr → s ∈ Worker.systems wkr → w ∉ W →
    fk m s w = Some (free_val wkr);
  fr_zero : ∀ s w v, fk m s w = Some v →
    v = 0%Z ∨ ∃ wkr, wks !! w = Some wkr ∧ s ∈ Worker.systems wkr;
}.

Definition worker_ok (wkr : Worker.t) : Prop :=
  (0 ≤ Worker.maxJobs wkr ≤ FreeIndex.maxSlots)%Z ∧
  (Worker.up wkr = false → Worker.running wkr = []).

Record WorkersOk (wks : list Worker.t) (wids : gmap string N) (up : N) : Prop := {
  wk_len : (vlen wks ≤ noWorker)%N;
  wk_ids : ∀ a w, wids !! a = Some w ↔ ∃ wkr, wks !! w = Some wkr ∧ Worker.addr wkr = a;
  wk_ok : ∀ w wkr, wks !! w = Some wkr → worker_ok wkr;
  wk_up : up = N.of_nat (count_up wks);
}.

(** Every client finds what it follows; stale ids in [follows] are allowed. *)
Definition FollowsOk (G : gset N) (ents : list (option Entry.t)) (fol : gmap N (list N)) : Prop :=
  ∀ cl d e, cl ∉ G → lk ents d = Some e → cl ∈ Entry.followers e → d ∈ default [] (fol !! cl).

Definition cfg_ok (cf : Config.t) : Prop :=
  pos_finite (Config.faninWeight cf) = true ∧ is_finite (Config.ageWeight cf) = true.

Definition entry_ok (cf : Config.t) (e : Entry.t) : Prop :=
  NoDup (Entry.followers e) ∧
  (Entry.followers e ≠ [] → Entry.system e ≠ EmptyString) ∧
  nonneg (Entry.cpHint e) = true ∧
  is_finite (dmul (Config.ageWeight cf) (Entry.enqMs e)) = true.

Definition EntriesOk (cf : Config.t) (ents : list (option Entry.t)) : Prop :=
  ∀ d e, lk ents d = Some e → entry_ok cf e.

Record Inv (X W G : gset N) (c : core) : Prop := {
  inv_cfg : cfg_ok (cfg c);
  inv_sys : SysOk (systems c);
  inv_tables : Tables (entries c) (drvIds c) (freeIds c);
  inv_entries : EntriesOk (cfg c) (entries c);
  inv_place : Place X (entries c) (systems c) (workers c);
  inv_keys : Keys X (cfg c) (entries c) (systems c);
  inv_free : FreeOk W (systems c) (workers c);
  inv_workers : WorkersOk (workers c) (workerIds c) (workersUp_ c);
  inv_follows : FollowsOk G (entries c) (follows c);
  inv_builder : (N.of_nat (base.size (lastBuilder c)) ≤ maxLastBuilder)%N;
}.

Abbreviation inv := (Inv ∅ ∅ ∅).

(** Name the components of an invariant; those named before get a 0. *)
Ltac inv_fields H :=
  try (rename Icfg into Icfg0, Isys into Isys0, Itab into Itab0, Ient into Ient0, Ipl into Ipl0,
       Ikey into Ikey0, Ifr into Ifr0, Iwk into Iwk0, Ifol into Ifol0, Ilb into Ilb0);
  let H' := fresh "H" in pose proof H as H';
  destruct H' as [Icfg Isys Itab Ient Ipl Ikey Ifr Iwk Ifol Ilb].

(** ** Lookups *)

Section Lookups.
Implicit Types (ents : list (option Entry.t)) (d : N) (wks : list Worker.t) (w : N).

Lemma lk_Some ents d e : lk ents d = Some e ↔ ents !! d = Some (Some e).
Proof. unfold lk. destruct (ents !! d) as [[]|]; simpl; naive_solver. Qed.

Lemma lk_lt ents d e : lk ents d = Some e → (d < vlen ents)%N.
Proof. rewrite lk_Some. apply vlookup_lt_Some. Qed.

Lemma lk_insert ents d d' o :
  (d < vlen ents)%N → lk (<[d := o]> ents) d' = if decide (d' = d) then o else lk ents d'.
Proof.
  intros Hd. unfold lk. case_decide as H; [subst|].
  - by rewrite vlookup_insert_eq.
  - by rewrite vlookup_insert_ne.
Qed.

Lemma lk_snoc ents d : lk (ents ++ [None]) d = lk ents d.
Proof.
  apply option_eq. intros e. rewrite !lk_Some, vlookup_snoc_Some. naive_solver.
Qed.

Lemma run_insert wks w w' wkr :
  (w < vlen wks)%N →
  run (<[w := wkr]> wks) w' = if decide (w' = w) then Worker.running wkr else run wks w'.
Proof.
  intros Hw. unfold run. case_decide as H; [subst|].
  - by rewrite vlookup_insert_eq.
  - by rewrite vlookup_insert_ne.
Qed.

Lemma elem_of_run_lt wks w d : d ∈ run wks w → (w < vlen wks)%N.
Proof.
  unfold run. destruct (wks !! w) eqn:?; [|by intros ?%not_elem_of_nil].
  intros _. by eapply vlookup_lt_Some.
Qed.

Lemma qv_insert (m : gmap string SystemState.t) s s' st :
  qv (<[s := st]> m) s' =
  if decide (s' = s) then IndexedHeap.view (SystemState.queue st) else qv m s'.
Proof. unfold qv. case_decide; [subst; by rewrite lookup_insert_eq|by rewrite lookup_insert_ne]. Qed.

Lemma fk_insert (m : gmap string SystemState.t) s s' st w :
  fk (<[s := st]> m) s' w =
  if decide (s' = s) then FreeIndex.known (SystemState.free st) w else fk m s' w.
Proof. unfold fk. case_decide; [subst; by rewrite lookup_insert_eq|by rewrite lookup_insert_ne]. Qed.
End Lookups.

(** The state a system's name stands for; a missing system is an empty one. *)
Definition sys_get (m : gmap string SystemState.t) (s : string) : SystemState.t :=
  default SystemState.empty (m !! s).

Lemma sys_get_qv m s : IndexedHeap.view (SystemState.queue (sys_get m s)) = qv m s.
Proof.
  unfold sys_get, qv. destruct (m !! s); [done|]. apply IndexedHeap.heap_empty_spec.
Qed.

Lemma sys_get_fk m s w : FreeIndex.known (SystemState.free (sys_get m s)) w = fk m s w.
Proof.
  unfold sys_get, fk. destruct (m !! s); [done|]. apply FreeIndex.free_empty_spec.
Qed.

Lemma sys_get_ok m s : SysOk m → sys_ok (sys_get m s).
Proof.
  intros H. unfold sys_get. destruct (m !! s) as [st|] eqn:Hs; [by apply (H s)|].
  split_and!; [apply IndexedHeap.heap_empty_spec..|apply FreeIndex.free_empty_spec].
Qed.

(** ** Primitive updates *)

Lemma wp_entry_ref d e (Φ : Entry.t → core → Prop) c :
  lk (entries c) d = Some e → Φ e c → wp (entry_ref d) Φ c.
Proof.
  intros H%lk_Some HΦ. unfold entry_ref. apply wp_bind.
  eapply wp_at; [done|]. by apply wp_expect with e.
Qed.

Lemma wp_upd_entry d f e (Φ : () → core → Prop) c :
  lk (entries c) d = Some e →
  Φ tt (with_entries (<[d := Some (f e)]> (entries c)) c) → wp (upd_entry d f) Φ c.
Proof.
  intros H HΦ. unfold upd_entry. apply wp_bind. eapply wp_entry_ref; [done|].
  apply wp_set_at; [by eapply lk_lt|done].
Qed.

Lemma wp_upd_worker w f wkr (Φ : () → core → Prop) c :
  workers c !! w = Some wkr →
  Φ tt (with_workers (<[w := f wkr]> (workers c)) c) → wp (upd_worker w f) Φ c.
Proof.
  intros H HΦ. unfold upd_worker. apply wp_bind. eapply wp_at; [done|].
  apply wp_set_at; [by eapply vlookup_lt_Some|done].
Qed.

Lemma wp_on_system {A} s (op : M SystemState.t A) (Φ : A → core → Prop) c :
  wp op (λ a st, Φ a (with_systems (<[s := st]> (systems c)) c)) (sys_get (systems c) s) →
  wp (on_system s op) Φ c.
Proof.
  intros H. unfold on_system. wp_steps. unfold sys, sys_get in *.
  destruct (systems c !! s) as [st|] eqn:Hs; simpl in *.
  - rewrite Hs. eapply wp_expect; [done|]. by apply wp_zoom.
  - rewrite lookup_insert_eq. eapply wp_expect; [done|]. apply wp_zoom.
    eapply wp_mono; [exact H|]. intros a st HΦ. simpl.
    unfold with_systems in *; simpl. by rewrite insert_insert_eq.
Qed.

(** The systems table after an update that keeps the invariant of each system:
    the queues change by [Q], the free counts by [F]. *)
Definition sys_step (m m' : gmap string SystemState.t)
    (Q : string → gmap N double → gmap N double) (F : string → N → option Z → option Z) : Prop :=
  SysOk m' ∧ (∀ s, qv m' s = Q s (qv m s)) ∧ (∀ s w, fk m' s w = F s w (fk m s w)).

Definition Q_id : string → gmap N double → gmap N double := λ _ q, q.
Definition F_id : string → N → option Z → option Z := λ _ _ o, o.
Definition Q_set (s : string) (d : N) (p : double) : string → gmap N double → gmap N double :=
  λ s' q, if decide (s' = s) then <[d := p]> q else q.
Definition Q_erase (s : string) (d : N) : string → gmap N double → gmap N double :=
  λ s' q, if decide (s' = s) then delete d q else q.

Lemma on_queue_set_spec s d p c :
  SysOk (systems c) → (d < IndexedHeap.npos)%N → is_nan p = false →
  wp (on_queue s (IndexedHeap.set d p)) (λ _ c', ∃ m,
    c' = with_systems m c ∧ sys_step (systems c) m (Q_set s d p) F_id) c.
Proof.
  intros Hsys Hd Hp. destruct (sys_get_ok _ s Hsys) as (Hwf & Hgood & Hfree).
  apply wp_on_system, wp_zoom. eapply wp_mono; [by apply IndexedHeap.heap_set_spec|].
  intros _ q (Hq & Hv & Hg). eexists. split; [done|]. split_and!.
  - apply map_Forall_insert_2; [|done]. split_and!; simpl; auto.
  - intros s'. unfold Q_set. rewrite qv_insert. case_decide; [subst|done].
    simpl. by rewrite Hv, sys_get_qv.
  - intros s' w. unfold F_id. rewrite fk_insert. case_decide; [subst|done].
    simpl. by rewrite sys_get_fk.
Qed.

Lemma on_queue_erase_spec s d c :
  SysOk (systems c) →
  wp (on_queue s (IndexedHeap.erase d)) (λ _ c', ∃ m,
    c' = with_systems m c ∧ is_Some (m !! s) ∧
    sys_step (systems c) m (Q_erase s d) F_id) c.
Proof.
  intros Hsys. destruct (sys_get_ok _ s Hsys) as (Hwf & Hgood & Hfree).
  apply wp_on_system, wp_zoom. eapply wp_mono; [by apply IndexedHeap.erase_spec|].
  intros _ q (Hq & Hv & Hg). eexists. split; [done|]. split; [by rewrite lookup_insert_eq|].
  split_and!.
  - apply map_Forall_insert_2; [|done]. split_and!; simpl; auto.
  - intros s'. unfold Q_erase. rewrite qv_insert. case_decide; [subst|done].
    simpl. by rewrite Hv, sys_get_qv.
  - intros s' w. unfold F_id. rewrite fk_insert. case_decide; [subst|done].
    simpl. by rewrite sys_get_fk.
Qed.

(** Set, or make known, worker [w] in the index of the systems [ss]. *)
Definition F_set (ss : list string) (w : N) (v : Z) : string → N → option Z → option Z :=
  λ s w' o, if decide (w' = w ∧ s ∈ ss) then Some v else o.
Definition F_push (ss : list string) (w : N) : string → N → option Z → option Z :=
  λ s w' o, if decide (w' = w ∧ s ∈ ss) then Some (default 0%Z o) else o.

Lemma on_free_spec s (op : M FreeIndex.t ()) c (F : N → option Z → option Z) :
  SysOk (systems c) →
  (FreeIndex.wf (SystemState.free (sys_get (systems c) s)) →
   wp op (λ _ f, FreeIndex.wf f ∧
     ∀ w, FreeIndex.known f w = F w (fk (systems c) s w)) (SystemState.free (sys_get (systems c) s))) →
  wp (on_free s op) (λ _ c', ∃ m, c' = with_systems m c ∧
    sys_step (systems c) m Q_id (λ s' w o, if decide (s' = s) then F w o else o)) c.
Proof.
  intros Hsys Hop. destruct (sys_get_ok _ s Hsys) as (Hwf & Hgood & Hfree).
  apply wp_on_system, wp_zoom. eapply wp_mono; [by apply Hop|].
  intros _ f (Hf & Hk). eexists. split; [done|]. split_and!.
  - apply map_Forall_insert_2; [|done]. split_and!; simpl; auto.
  - intros s'. unfold Q_id. rewrite qv_insert. case_decide; [subst|done].
    simpl. by rewrite sys_get_qv.
  - intros s' w. rewrite fk_insert. case_decide; [subst|done]. simpl. by rewrite Hk.
Qed.

(** A loop over systems that updates the index of each. *)
Lemma forM_free_spec ss (op : M FreeIndex.t ()) c (F : N → option Z → option Z)
    (pre : option Z → Prop) wid :
  SysOk (systems c) →
  (∀ w o, F w (F w o) = F w o) →
  (∀ o, pre o → pre (F wid o)) →
  (∀ f, FreeIndex.wf f → pre (FreeIndex.known f wid) →
     wp op (λ _ f', FreeIndex.wf f' ∧
       ∀ w, FreeIndex.known f' w = F w (FreeIndex.known f w)) f) →
  (∀ s, s ∈ ss → pre (fk (systems c) s wid)) →
  wp (forM_ ss (λ s, on_free s op)) (λ _ c', ∃ m, c' = with_systems m c ∧
    sys_step (systems c) m Q_id (λ s w o, if decide (s ∈ ss) then F w o else o)) c.
Proof.
  intros Hsys Hidem Hpre Hop Hss.
  set (J := λ rest c', ∃ fin m, ss = fin ++ rest ∧ c' = with_systems m c ∧
    sys_step (systems c) m Q_id (λ s w o, if decide (s ∈ fin) then F w o else o)).
  eapply wp_mono; [apply (wp_forM _ J)|].
  - exists [], (systems c). split_and!; [done|by destruct c|]. split_and!; [done|done|].
    intros s w. rewrite decide_False; [done|]. apply not_elem_of_nil.
  - intros s rest c1 (fin & m & -> & -> & Hm1 & Hm2 & Hm3).
    eapply wp_mono; [apply (on_free_spec _ _ _ F); [done|]|].
    + intros Hwf. simpl. eapply wp_mono; [apply Hop; [done|]|].
      * rewrite sys_get_fk, Hm3. case_decide; [apply Hpre|]; apply Hss; set_solver.
      * simpl. intros _ f [Hf Hk]. split; [done|]. intros w. by rewrite Hk, sys_get_fk.
    + intros _ c2 (m2 & -> & Hs1 & Hs2 & Hs3). exists (fin ++ [s]), m2.
      split; [by rewrite <- app_assoc|]. split; [done|]. split_and!; [done| |].
      * intros s'. rewrite Hs2. simpl. by rewrite Hm2.
      * intros s' w. rewrite Hs3. simpl. rewrite Hm3.
        destruct (decide (s' = s)) as [->|]; repeat case_decide; set_solver.
  - intros _ c' (fin & m & Hfin & -> & Hm). rewrite app_nil_r in Hfin. subst. eauto.
Qed.

Lemma sys_step_ext m m' Q F F' :
  (∀ s w o, F s w o = F' s w o) → sys_step m m' Q F → sys_step m m' Q F'.
Proof. intros HF (? & ? & Hf). split_and!; [done..|]. intros. by rewrite Hf, HF. Qed.

Lemma refreshFree_spec wid wkr c :
  SysOk (systems c) → workers c !! wid = Some wkr →
  (∀ s, s ∈ Worker.systems wkr → is_Some (fk (systems c) s wid)) →
  wp (refreshFree wid) (λ _ c', ∃ m, c' = with_systems m c ∧
    sys_step (systems c) m Q_id (F_set (Worker.systems wkr) wid (free_val wkr))) c.
Proof.
  intros Hsys Hw Hk. unfold refreshFree. apply wp_bind. eapply wp_at; [done|].
  eapply wp_mono; [apply (forM_free_spec _ _ _
    (λ w o, if decide (w = wid) then Some (free_val wkr) else o) is_Some wid); [done|..|done]|].
  - intros. by case_decide.
  - intros. by rewrite decide_True.
  - intros f Hf [old Hold]. by eapply FreeIndex.free_set_spec.
  - intros _ c' (m & -> & Hm). eexists. split; [done|]. eapply sys_step_ext; [|done].
    intros. unfold F_set. repeat case_decide; naive_solver.
Qed.

Lemma push_all_spec wid ss c :
  SysOk (systems c) → (wid < noWorker)%N →
  wp (forM_ ss (λ s, on_free s (FreeIndex.push wid))) (λ _ c', ∃ m, c' = with_systems m c ∧
    sys_step (systems c) m Q_id (F_push ss wid)) c.
Proof.
  intros Hsys Hw.
  eapply wp_mono; [apply (forM_free_spec _ _ _
    (λ w o, if decide (w = wid) then Some (default 0%Z o) else o) (λ _, True) wid); [done|..|done]|].
  - intros. by case_decide.
  - done.
  - intros f Hf _. eapply wp_mono; [by apply FreeIndex.push_spec|].
    intros _ f' [Hf' Hk]. split; [done|]. intros w. rewrite Hk. case_decide; [subst|done].
    by rewrite FreeIndex.get_known.
  - intros _ c' (m & -> & Hm). eexists. split; [done|]. eapply sys_step_ext; [|done].
    intros. unfold F_push. repeat case_decide; naive_solver.
Qed.

(** ** Priorities are numbers *)

Lemma dmul_pos_nonneg x y :
  pos_finite x = true → nonneg y = true → nonneg (dmul x y) = true.
Proof.
  intros Hx Hy. destruct y as [sy|sy| |sy my ey].
  1-3: by destruct x as [| | |[] ? ?]; destruct sy || idtac.
  apply dmul_nonneg; [|done|..]; by destruct x as [| | |[] ? ?].
Qed.

Lemma prio_not_nan e c : cfg_ok (cfg c) → entry_ok (cfg c) e → is_nan (prio e c) = false.
Proof.
  intros [Hf Ha] (_ & _ & Hcp & Henq). unfold prio.
  apply dopp_not_nan, dsub_not_nan; [|done].
  apply nonneg_not_nan, dadd_nonneg; [done|]. apply dmul_pos_nonneg; [done|].
  destruct (Entry.followers e); apply double_of_Z_nonneg; lia.
Qed.

(** ** Re-establishing the invariant *)

Section Preserve.
Implicit Types (ents : list (option Entry.t)) (m : gmap string SystemState.t)
  (wks : list Worker.t) (X W G : gset N) (d w : N).

(** A change around one derivation: the rest of the tables is as before, and [d]
    itself is where its entry says or counts as in transition. *)
Lemma Place_change X X' d ents ents' m m' wks wks' :
  Place X ents m wks →
  (∀ d', d' ≠ d → d' ∈ X → d' ∈ X') →
  (∀ d', d' ≠ d → lk ents' d' = lk ents d') →
  (∀ d' s, d' ≠ d → qv m' s !! d' = qv m s !! d') →
  (∀ d' w, d' ≠ d → d' ∈ run wks' w ↔ d' ∈ run wks w) →
  (∀ w, NoDup (run wks' w)) →
  (∀ s, is_Some (qv m' s !! d) → ∃ e, lk ents' d = Some e ∧ Entry.system e = s ∧
     (d ∉ X' → Entry.worker e = noWorker)) →
  (∀ w, d ∈ run wks' w → ∃ e, lk ents' d = Some e ∧ Entry.worker e = w) →
  (∀ e, lk ents' d = Some e → d ∉ X' → placed m' wks' d e) →
  Place X' ents' m' wks'.
Proof.
  intros [Hq Hr Hn Hp] HX He Hqv Hrun Hnd Hq' Hr' Hp'. split.
  - intros s d' Hs. destruct (decide (d' = d)) as [->|Hne]; [by apply Hq'|].
    rewrite Hqv in Hs by done. destruct (Hq s d' Hs) as (e & ? & ? & ?).
    exists e. rewrite He by done. naive_solver.
  - intros w d' Hw. destruct (decide (d' = d)) as [->|Hne]; [by apply Hr'|].
    rewrite He by done. apply Hr. by apply Hrun.
  - done.
  - intros d' e Hd' HX'. destruct (decide (d' = d)) as [->|Hne]; [by apply Hp'|].
    rewrite He in Hd' by done. assert (d' ∉ X) as HnX by naive_solver.
    specialize (Hp d' e Hd' HnX). unfold placed in *. case_decide.
    + by rewrite Hqv.
    + by apply Hrun.
Qed.

Lemma Keys_change X X' d cf ents ents' m m' :
  Keys X cf ents m →
  (∀ d', d' ≠ d → d' ∈ X → d' ∈ X') →
  (∀ d', d' ≠ d → lk ents' d' = lk ents d') →
  (∀ d' s, d' ≠ d → qv m' s !! d' = qv m s !! d') →
  (∀ s k e, qv m' s !! d = Some k → lk ents' d = Some e → d ∉ X' → k = prio e (Core cf)) →
  Keys X' cf ents' m'.
Proof.
  intros HK HX He Hq Hd s d' k e Hk Hlk HX'. destruct (decide (d' = d)) as [->|Hne]; [by eapply Hd|].
  rewrite Hq in Hk by done. rewrite He in Hlk by done. eapply HK; naive_solver.
Qed.

Lemma Keys_systems X cf ents m m' :
  (∀ s, qv m' s = qv m s) → Keys X cf ents m → Keys X cf ents m'.
Proof. intros Hq HK s d k e. rewrite Hq. apply HK. Qed.

(** The common case where queues and running lists keep everyone else. *)
Lemma Place_systems X ents m m' wks :
  (∀ s, qv m' s = qv m s) → Place X ents m wks → Place X ents m' wks.
Proof.
  intros Hqv [Hq Hr Hn Hp]. split; [|done..|].
  - intros s d. rewrite Hqv. apply Hq.
  - intros d e Hd HX. specialize (Hp d e Hd HX). unfold placed in *. by rewrite Hqv.
Qed.

Lemma Place_workers X ents m wks wks' :
  (∀ w, run wks' w = run wks w) → Place X ents m wks → Place X ents m wks'.
Proof.
  intros Hrun [Hq Hr Hn Hp]. split; [done|..].
  - intros w d. rewrite Hrun. apply Hr.
  - intros w. by rewrite Hrun.
  - intros d e Hd HX. specialize (Hp d e Hd HX). unfold placed in *. by rewrite Hrun.
Qed.

(** An entry changes in what does not say where it is. *)
Lemma Place_entry X ents m wks d e e' :
  lk ents d = Some e → Entry.system e' = Entry.system e → Entry.worker e' = Entry.worker e →
  (Entry.followers e ≠ [] → Entry.followers e' ≠ [] ∨ d ∈ X ∨ Entry.worker e ≠ noWorker) →
  Place X ents m wks → Place X (<[d := Some e']> ents) m wks.
Proof.
  intros Hd Hs Hw Hf HP. pose proof (lk_lt _ _ _ Hd) as Hlt. destruct HP as [Hq Hr Hn Hp].
  eapply (Place_change X X d ents); [done|done|..]; try done.
  - intros d' Hne. by rewrite lk_insert, decide_False.
  - intros s Hsome. destruct (Hq s d Hsome) as (e0 & ? & ? & ?). simplify_eq.
    exists e'. rewrite lk_insert, decide_True by done. naive_solver congruence.
  - intros w Hrun. destruct (Hr w d Hrun) as (e0 & ? & ?). simplify_eq.
    exists e'. by rewrite lk_insert, decide_True.
  - intros e0. rewrite lk_insert, decide_True by done. intros [= <-] HX.
    specialize (Hp d e Hd HX). unfold placed in *. rewrite Hs, Hw.
    case_decide; naive_solver.
Qed.

Lemma Tables_ids_inj ents ids frees d d' e e' :
  Tables ents ids frees → lk ents d = Some e → lk ents d' = Some e' →
  PathKey (Entry.drvPath e) = PathKey (Entry.drvPath e') → d = d'.
Proof.
  intros HT Hd Hd' Hk.
  assert (ids !! PathKey (Entry.drvPath e) = Some d) by (apply (tab_ids _ _ _ HT); eauto).
  assert (ids !! PathKey (Entry.drvPath e) = Some d') by (apply (tab_ids _ _ _ HT); eauto).
  congruence.
Qed.

Lemma Tables_entry ents ids frees d e e' :
  lk ents d = Some e → Entry.drvPath e' = Entry.drvPath e →
  Tables ents ids frees → Tables (<[d := Some e']> ents) ids frees.
Proof.
  intros Hd Hpath [Hl Hi Hn Hf]. pose proof (lk_lt _ _ _ Hd) as Hlt.
  split; [by rewrite vlen_insert| |done|].
  - intros k d'. rewrite Hi, lk_insert by done. case_decide; [subst|done]. naive_solver congruence.
  - intros d'. rewrite Hf. destruct (decide (d' = d)) as [->|].
    + rewrite vlookup_insert_eq by done. apply lk_Some in Hd. naive_solver.
    + by rewrite vlookup_insert_ne.
Qed.

Lemma Tables_retire ents ids frees d e :
  lk ents d = Some e → Tables ents ids frees →
  Tables (<[d := None]> ents) (delete (PathKey (Entry.drvPath e)) ids) (frees ++ [d]).
Proof.
  intros Hd HT. pose proof (lk_lt _ _ _ Hd) as Hlt. pose proof HT as [Hl Hi Hn Hf].
  apply lk_Some in Hd as Hd'. split; [by rewrite vlen_insert|..].
  - intros k d'. rewrite lookup_delete_Some, Hi, lk_insert by done. split.
    + intros (Hk & e' & He' & <-). exists e'. case_decide; [subst|done]. naive_solver.
    + intros (e' & He' & <-). case_decide; [done|]. split; [|by exists e'].
      intros Hk. by pose proof (Tables_ids_inj _ _ _ _ _ _ _ HT Hd He' Hk).
  - apply NoDup_app. split_and!; [done| |apply NoDup_singleton].
    intros x Hx ->%list_elem_of_singleton. apply Hf in Hx. congruence.
  - intros d'. rewrite elem_of_app, list_elem_of_singleton, Hf.
    destruct (decide (d' = d)) as [->|].
    + rewrite vlookup_insert_eq by done. naive_solver.
    + rewrite vlookup_insert_ne by done. naive_solver.
Qed.

(** Put an entry with a new key into an empty slot that is on no list. *)
Lemma Tables_fill ents ids frees d e :
  ents !! d = Some None → d ∉ frees → NoDup frees →
  (vlen ents ≤ maxEntries)%N →
  (∀ k d, ids !! k = Some d ↔ ∃ e, lk ents d = Some e ∧ PathKey (Entry.drvPath e) = k) →
  (∀ d', d' ≠ d → d' ∈ frees ↔ ents !! d' = Some None) →
  ids !! PathKey (Entry.drvPath e) = None →
  Tables (<[d := Some e]> ents) (<[PathKey (Entry.drvPath e) := d]> ids) frees.
Proof.
  intros Hd Hnf Hn Hl Hi Hf Hk. pose proof (vlookup_lt_Some _ _ _ Hd) as Hlt.
  split; [by rewrite vlen_insert| |done|].
  - intros k d'. rewrite lookup_insert_Some, Hi, lk_insert by done. split.
    + intros [[<- <-]|(Hne & e' & He' & <-)]; [exists e; by rewrite decide_True|].
      exists e'. case_decide; [subst|done]. apply lk_Some in He'. congruence.
    + intros (e' & He' & <-). case_decide; [simplify_eq; by left|]. right.
      split; [|by exists e']. intros Heq.
      assert (ids !! PathKey (Entry.drvPath e') = Some d') by (apply Hi; eauto). congruence.
  - intros d'. destruct (decide (d' = d)) as [->|Hne].
    + rewrite vlookup_insert_eq by done. naive_solver.
    + rewrite vlookup_insert_ne by done. by apply Hf.
Qed.
End Preserve.

Section PreserveWorkers.
Implicit Types (ents : list (option Entry.t)) (m : gmap string SystemState.t)
  (wks : list Worker.t) (X W G : gset N) (d w : N).

Lemma offered_spec s c :
  offered s c = true ↔ ∃ w wkr, workers c !! w = Some wkr ∧ s ∈ Worker.systems wkr.
Proof.
  unfold offered. rewrite existsb_exists. split.
  - intros (wkr & Hin & Hs%bool_decide_eq_true).
    apply list_elem_of_In, elem_of_vlookup in Hin as [w Hw]. eauto.
  - intros (w & wkr & Hw & Hs). exists wkr. split; [|by apply bool_decide_eq_true].
    apply list_elem_of_In, elem_of_vlookup. eauto.
Qed.

(** Free counts that stay, or go away with a system nobody offers. *)
Lemma FreeOk_systems W m m' c :
  (∀ s w, fk m' s w = fk m s w ∨ (fk m' s w = None ∧ offered s c = false)) →
  FreeOk W m (workers c) → FreeOk W m' (workers c).
Proof.
  intros Hfk [Hn Hv Hz]. split.
  - intros w wkr s Hw Hs. destruct (Hfk s w) as [->|[_ Hoff]]; [by eapply Hn|].
    assert (offered s c = true) by (apply offered_spec; eauto). congruence.
  - intros w wkr s Hw Hs HW. destruct (Hfk s w) as [->|[_ Hoff]]; [by eapply Hv|].
    assert (offered s c = true) by (apply offered_spec; eauto). congruence.
  - intros s w v Hk. destruct (Hfk s w) as [He|[He _]]; [|congruence].
    rewrite He in Hk. by apply Hz.
Qed.

Lemma FreeOk_same W m m' wks :
  (∀ s w, fk m' s w = fk m s w) → FreeOk W m wks → FreeOk W m' wks.
Proof. intros Hfk [Hn Hv Hz]. split; setoid_rewrite Hfk; auto. Qed.

(** A worker changes, but not in what it offers: its count is stale. *)
Lemma FreeOk_worker W m wks w wkr wkr' :
  wks !! w = Some wkr → Worker.systems wkr' = Worker.systems wkr →
  FreeOk W m wks → FreeOk (W ∪ {[w]}) m (<[w := wkr']> wks).
Proof.
  intros Hw Hs [Hn Hv Hz]. pose proof (vlookup_lt_Some _ _ _ Hw) as Hlt. split.
  - intros w0 wkr0 s Hw0 Hs0. apply vlookup_insert_Some in Hw0 as [(<- & <- & ?)|[? ?]].
    + eapply Hn; [done|]. by rewrite <- Hs.
    + by eapply Hn.
  - intros w0 wkr0 s Hw0 Hs0 HW. apply vlookup_insert_Some in Hw0 as [(? & ? & ?)|[? ?]].
    + set_solver.
    + eapply Hv; set_solver.
  - intros s w0 v Hk. destruct (Hz s w0 v Hk) as [?|(wkr0 & Hw0 & Hs0)]; [by left|right].
    destruct (decide (w = w0)) as [<-|Hne].
    + simplify_eq. exists wkr'. by rewrite vlookup_insert_eq, Hs.
    + exists wkr0. by rewrite vlookup_insert_ne.
Qed.

(** [refreshFree] makes the count exact. *)
Lemma FreeOk_refresh W m m' wks w wkr :
  wks !! w = Some wkr →
  (∀ s w', fk m' s w' = F_set (Worker.systems wkr) w (free_val wkr) s w' (fk m s w')) →
  FreeOk (W ∪ {[w]}) m wks → FreeOk W m' wks.
Proof.
  intros Hw Hfk [Hn Hv Hz]. unfold F_set in Hfk. split.
  - intros w0 wkr0 s Hw0 Hs0. rewrite Hfk. case_decide; [done|by eapply Hn].
  - intros w0 wkr0 s Hw0 Hs0 HW. rewrite Hfk. case_decide; [naive_solver congruence|].
    eapply Hv; [done..|]. destruct (decide (w0 = w)); [naive_solver congruence|set_solver].
  - intros s w0 v. rewrite Hfk. case_decide as Hc; [|apply Hz].
    intros [= <-]. right. destruct Hc as [-> ?]. eauto.
Qed.

Lemma count_up_insert wks w wkr wkr' :
  wks !! w = Some wkr →
  count_up (<[w := wkr']> wks) + (if Worker.up wkr then 1 else 0) =
  count_up wks + (if Worker.up wkr' then 1 else 0).
Proof.
  unfold lookup, vec_lookup, insert, vec_insert. intros Hw.
  rewrite <- (take_drop_middle _ _ _ Hw) at 2.
  rewrite insert_take_drop by (by eapply lookup_lt_Some).
  unfold count_up. rewrite !filter_app, !length_app, !filter_cons.
  repeat case_decide; destruct (Worker.up wkr), (Worker.up wkr'); simpl; done || lia.
Qed.

Lemma WorkersOk_upd wks wids up up' w wkr wkr' :
  wks !! w = Some wkr → Worker.addr wkr' = Worker.addr wkr → worker_ok wkr' →
  (up' + (if Worker.up wkr then 1 else 0) = up + (if Worker.up wkr' then 1 else 0))%N →
  WorkersOk wks wids up → WorkersOk (<[w := wkr']> wks) wids up'.
Proof.
  intros Hw Ha Hok Hup [Hl Hi Ho Hu]. pose proof (vlookup_lt_Some _ _ _ Hw) as Hlt.
  split; [by rewrite vlen_insert|..].
  - intros a w0. rewrite Hi. destruct (decide (w = w0)) as [<-|Hne].
    + rewrite vlookup_insert_eq by done. naive_solver congruence.
    + by rewrite vlookup_insert_ne.
  - intros w0 wkr0 [(-> & <- & _)|[_ ?]]%vlookup_insert_Some; [done|by eapply Ho].
  - pose proof (count_up_insert wks w wkr wkr' Hw).
    destruct (Worker.up wkr), (Worker.up wkr'); lia.
Qed.

Lemma WorkersOk_lt wks wids up w wkr :
  WorkersOk wks wids up → wks !! w = Some wkr → (w < noWorker)%N.
Proof. intros [Hl _ _ _] Hw%vlookup_lt_Some. lia. Qed.

Lemma EntriesOk_insert cf ents d e :
  (d < vlen ents)%N → entry_ok cf e → EntriesOk cf ents → EntriesOk cf (<[d := Some e]> ents).
Proof.
  intros Hd He Hall d' e'. rewrite lk_insert by done. case_decide; [naive_solver|apply Hall].
Qed.

Lemma EntriesOk_delete cf ents d :
  (d < vlen ents)%N → EntriesOk cf ents → EntriesOk cf (<[d := None]> ents).
Proof. intros Hd Hall d' e'. rewrite lk_insert by done. case_decide; [done|apply Hall]. Qed.

Lemma FollowsOk_entry G ents fol d e e' :
  lk ents d = Some e → (∀ cl, cl ∈ Entry.followers e' → cl ∈ Entry.followers e) →
  FollowsOk G ents fol → FollowsOk G (<[d := Some e']> ents) fol.
Proof.
  intros Hd Hsub Hall cl d' e0 HG. rewrite lk_insert by (by eapply lk_lt).
  case_decide; [naive_solver|by apply Hall].
Qed.

Lemma FollowsOk_delete G ents fol d :
  (d < vlen ents)%N → FollowsOk G ents fol → FollowsOk G (<[d := None]> ents) fol.
Proof.
  intros Hd Hall cl d' e0 HG. rewrite lk_insert by done. case_decide; [done|by apply Hall].
Qed.
End PreserveWorkers.

#[export] Hint Resolve lk_lt vlookup_lt_Some EntriesOk_delete EntriesOk_insert
  FollowsOk_delete Tables_retire : sched.

Lemma entry_lt_noWorker X W G c d e :
  Inv X W G c → lk (entries c) d = Some e → (d < noWorker)%N.
Proof.
  intros HI Hd%lk_lt. pose proof (tab_len _ _ _ (inv_tables _ _ _ _ HI)).
  unfold maxEntries, noWorker in *. lia.
Qed.

(** ** Ids come and go *)

(** The core after [retire d], up to the systems table. *)
Definition retired (d : N) (e : Entry.t) (m : gmap string SystemState.t) (c : core) : core :=
  with_freeIds (freeIds c ++ [d])
    (with_entries (<[d := None]> (entries c))
      (with_drvIds (delete (PathKey (Entry.drvPath e)) (drvIds c)) (with_systems m c))).

Lemma retire_spec d e c :
  SysOk (systems c) → lk (entries c) d = Some e →
  wp (retire d) (λ _ c', ∃ m, c' = retired d e m c ∧ SysOk m ∧
    (∀ s, qv m s = Q_erase (Entry.system e) d s (qv (systems c) s)) ∧
    (∀ s w, fk m s w = fk (systems c) s w ∨ (fk m s w = None ∧ offered s c = false))) c.
Proof.
  intros Hsys Hd. apply lk_Some in Hd as Hd'. unfold retire. apply wp_bind.
  eapply wp_at; [done|]. apply wp_bind, wp_get, wp_bind.
  apply wp_mono with (λ _ c', ∃ m, c' = with_systems m c ∧ SysOk m ∧
    (∀ s, qv m s = Q_erase (Entry.system e) d s (qv (systems c) s)) ∧
    (∀ s w, fk m s w = fk (systems c) s w ∨ (fk m s w = None ∧ offered s c = false))).
  2:{ intros [] c' (m & -> & Hm). wp_steps. apply wp_set_at; [by eapply lk_lt|].
      wp_steps. eexists. done. }
  destruct (systems c !! Entry.system e) as [st|] eqn:Hst.
  2:{ wp_steps. exists (systems c). split_and!; [by destruct c|done| |by left].
      intros s. unfold Q_erase. case_decide; [subst|done]. unfold qv. by rewrite Hst, delete_empty. }
  apply wp_bind. eapply wp_mono; [by apply on_queue_erase_spec|].
  intros _ c1 (m1 & -> & [st1 Hst1] & Hok & Hqv & Hfk). wp_steps. simpl.
  destruct (_ =? _)%N eqn:Hsz; simpl.
  2:{ wp_steps. exists m1. split_and!; [done..|]. left. apply Hfk. }
  destruct (offered _ _) eqn:Hoff; simpl.
  { wp_steps. exists m1. split_and!; [done..|]. left. apply Hfk. }
  wp_steps. exists (delete (Entry.system e) m1). split_and!; [done|..].
  - intros s st' [_ Hs]%lookup_delete_Some. by apply (Hok s).
  - intros s. rewrite <- Hqv. unfold qv. destruct (decide (s = Entry.system e)) as [->|Hne].
    + rewrite lookup_delete_eq, Hst1. symmetry. apply N.eqb_eq in Hsz.
      rewrite IndexedHeap.size_view in Hsz by apply (Hok _ _ Hst1).
      apply map_size_empty_inv. lia.
    + by rewrite lookup_delete_ne.
  - intros s w. destruct (decide (s = Entry.system e)) as [->|Hne].
    + right. split; [|done]. unfold fk. by rewrite lookup_delete_eq.
    + left. etrans; [|exact (Hfk s w)]. unfold fk. by rewrite lookup_delete_ne.
Qed.

(** Some slot is left for a new derivation. *)
Definition has_room (c : core) : Prop := (N.of_nat (base.size (drvIds c)) < maxEntries)%N.

(** If every slot holds an entry, there are as many ids as slots. *)
Lemma Tables_full ents ids :
  Tables ents ids [] → (vlen ents ≤ N.of_nat (base.size ids))%N.
Proof.
  intros [Hl Hi _ Hf]. rewrite <- length_map_to_list, <- (length_fmap snd).
  assert (vlen ents = N.of_nat (length (range 0 (vlen ents)))) as ->.
  { unfold range. rewrite length_fmap, length_seq. lia. }
  cut (length (range 0 (vlen ents)) ≤ length (map_to_list ids).*2)%nat; [lia|].
  apply submseteq_length, NoDup_submseteq.
  - unfold range. apply NoDup_fmap; [apply _|apply NoDup_seq].
  - intros d Hd%elem_of_range. destruct (ents !! d) as [[e|]|] eqn:Hd'.
    + apply list_elem_of_fmap. exists (PathKey (Entry.drvPath e), d). split; [done|].
      apply elem_of_map_to_list, Hi. exists e. by rewrite lk_Some.
    + apply Hf in Hd'. by apply not_elem_of_nil in Hd'.
    + apply vlookup_ge in Hd'. lia.
Qed.

(** The two outcomes of [drvId]: the id of a live entry, or an empty slot that
    is ready for an entry with the key of [path]. *)
Definition found_slot (path : string) (d : N) (c c' : core) : Prop :=
  c' = c ∧ ∃ e, lk (entries c) d = Some e ∧ PathKey (Entry.drvPath e) = PathKey path.

Definition fresh_slot (path : string) (d : N) (c c' : core) : Prop :=
  drvIds c !! PathKey path = None ∧ lk (entries c) d = None ∧
  ∃ ents frees, c' = with_drvIds (<[PathKey path := d]> (drvIds c))
                       (with_freeIds frees (with_entries ents c)) ∧
  ents !! d = Some None ∧ (∀ d', lk ents d' = lk (entries c) d') ∧
  ∀ e, PathKey (Entry.drvPath e) = PathKey path →
    Tables (<[d := Some e]> ents) (<[PathKey path := d]> (drvIds c)) frees.

Lemma drvId_spec path c :
  Tables (entries c) (drvIds c) (freeIds c) →
  is_Some (drvIds c !! PathKey path) ∨ has_room c →
  wp (drvId path) (λ d c', found_slot path d c c' ∨ fresh_slot path d c c') c.
Proof.
  intros HT Hroom. pose proof HT as [Hl Hi Hn Hf]. unfold drvId. wp_steps.
  destruct (drvIds c !! PathKey path) as [d|] eqn:Hk.
  { wp_steps. left. split; [done|]. by apply Hi. }
  destruct (last (freeIds c)) as [d|] eqn:Hlast; wp_steps.
  - right. apply last_Some in Hlast as [fs Hfs]. rewrite Hfs in Hn.
    apply NoDup_app in Hn as (Hn & Hnot & _).
    assert (entries c !! d = Some None) as Hd by (apply Hf; rewrite Hfs; set_solver).
    split; [done|]. split; [unfold lk; by rewrite Hd|].
    exists (entries c), fs. split_and!; [|done|done|].
    + rewrite Hfs, length_app, take_app_le by (simpl; lia).
      simpl. by rewrite take_ge by lia.
    + intros e He. rewrite <- He in Hk |- *. apply Tables_fill; [done|set_solver|done|done|done| |done].
      intros d' Hne. rewrite <- Hf, Hfs. set_solver.
  - apply last_None in Hlast. rewrite Hlast in *.
    assert (vlen (entries c) < maxEntries)%N as Hlt.
    { destruct Hroom as [[]|Hroom]; [done|]. pose proof (Tables_full _ _ HT).
      unfold has_room in Hroom. lia. }
    destruct (N.leb_spec maxEntries (vlen (entries c))); [lia|]. wp_steps.
    assert (u32 (vlen (entries c)) = vlen (entries c)) as ->.
    { apply u32_small. unfold maxEntries in Hlt. lia. }
    right. split; [done|]. split.
    { unfold lk. assert (entries c !! vlen (entries c) = None) as ->; [|done].
      by apply vlookup_ge. }
    exists (entries c ++ [None]), []. split_and!.
    + rewrite <- Hlast. by destruct c.
    + apply vlookup_snoc_eq.
    + apply lk_snoc.
    + intros e He. rewrite <- He in Hk |- *. apply Tables_fill; [apply vlookup_snoc_eq|set_solver|constructor|..|done].
      * rewrite vlen_app. unfold vlen at 2. simpl. lia.
      * intros k d. rewrite lk_snoc. apply Hi.
      * intros d' Hne. rewrite vlookup_snoc_Some, <- Hf. naive_solver.
Qed.

(** A full table throws and changes nothing. *)
Lemma drvId_full path c :
  drvIds c !! PathKey path = None → freeIds c = [] → (maxEntries ≤ vlen (entries c))%N →
  drvId path c = (c, Throw (NixError "scheduler: derivation table full")).
Proof.
  intros Hk Hf Hl. unfold drvId, mbind, M_bind, get. rewrite Hk, Hf. simpl.
  destruct (N.leb_spec maxEntries (vlen (entries c))); [done|lia].
Qed.

(** Fill the slot: the new entry is in transition until it is queued or placed. *)
Lemma fresh_slot_inv W G path d c c' e :
  Inv ∅ W G c → fresh_slot path d c c' → PathKey (Entry.drvPath e) = PathKey path →
  Entry.followers e = [] → entry_ok (cfg c) e →
  (d < vlen (entries c'))%N ∧ Inv {[d]} W G (with_entries (<[d := Some e]> (entries c')) c').
Proof.
  intros HI (Hk & Hno & ents & frees & -> & Hd & Hlk & HT) Hpath Hfol He. simpl.
  assert (d < vlen ents)%N as Hlt by (by eapply vlookup_lt_Some).
  split; [done|]. inv_fields HI. split; simpl; try done.
  - by apply HT.
  - apply EntriesOk_insert; [done..|]. intros d' e'. rewrite Hlk. apply Ient.
  - eapply (Place_change ∅ {[d]} d (entries c)); [done|set_solver|..]; try done.
    + intros d' Hne. by rewrite lk_insert, decide_False.
    + apply Ipl.
    + intros s Hs. apply (pl_queue _ _ _ _ Ipl) in Hs as (e' & He' & _). congruence.
    + intros w Hr. apply (pl_run _ _ _ _ Ipl) in Hr as (e' & He' & _). congruence.
    + intros e' _ []. by apply elem_of_singleton.
  - eapply (Keys_change ∅ {[d]} d); [done|set_solver|..]; try done.
    + intros d' Hne. by rewrite lk_insert, decide_False.
    + set_solver.
  - intros cl d' e' HG. rewrite lk_insert by done. case_decide; [|rewrite Hlk; by apply Ifol].
    intros [= <-]. rewrite Hfol. by intros ?%not_elem_of_nil.
Qed.
