(* ===== verification/SchedOps.v ===== *)
(** * The scheduler's placement core: operations keep the invariant

    Every state-changing member of [sched::Core] except [dispatch] (which has
    its own file): it returns (never [std::out_of_range], never undefined
    behaviour) and keeps [Inv], and what it does to the entries and workers. *)

From S2P Require Import Prelude Double PathKey Heap Free Sched SchedInv.

(** Look up an entry in updated tables. *)
Ltac lk_simpl :=
  simpl; rewrite ?lk_insert by (rewrite ?vlen_insert; first [done|by eapply lk_lt]);
  rewrite ?decide_True by done.

(** ** Steps shared by the operations *)

Section Steps.
Implicit Types (X W G : gset N) (c : core) (d w : N).

Lemma Inv_weaken X X' W W' G G' c :
  X ⊆ X' → W ⊆ W' → G ⊆ G' → Inv X W G c → Inv X' W' G' c.
Proof.
  intros HX HW HG HI. inv_fields HI. split; try done.
  - destruct Ipl as [Hq Hr Hn Hp]. split; [|done..|].
    + intros s d Hs. destruct (Hq s d Hs) as (e & ? & ? & ?). exists e. set_solver.
    + intros d e Hd Hd'. apply Hp; set_solver.
  - intros s d k e Hk Hd HX'. eapply Ikey; set_solver.
  - destruct Ifr as [Hk Hv Hz]. split; [done| |done].
    intros w wkr s Hw Hs HW'. eapply Hv; set_solver.
  - intros cl d e Hcl. apply Ifol. set_solver.
Qed.

(** An unplaced derivation is in no running list. *)
Lemma unplaced_not_running X W G c d e w :
  Inv X W G c → lk (entries c) d = Some e → Entry.worker e = noWorker → d ∉ run (workers c) w.
Proof.
  intros HI Hd He Hr. pose proof (elem_of_run_lt _ _ _ Hr) as Hlt.
  destruct (pl_run _ _ _ _ (inv_place _ _ _ _ HI) w d Hr) as (e' & ? & <-). simplify_eq.
  pose proof (wk_len _ _ _ (inv_workers _ _ _ _ HI)). lia.
Qed.

(** The key of [d] stays right if [d] is in transition, not queued, or of the
    same priority. *)
Lemma Keys_entry X c d e e' :
  Place X (entries c) (systems c) (workers c) → Keys X (cfg c) (entries c) (systems c) →
  lk (entries c) d = Some e → (d ∈ X ∨ Entry.worker e ≠ noWorker ∨ prio e' c = prio e c) →
  Keys X (cfg c) (<[d := Some e']> (entries c)) (systems c).
Proof.
  intros HP HK Hd Hor. pose proof (lk_lt _ _ _ Hd) as Hlt.
  eapply (Keys_change X X d); [done|done|..]; try done.
  - intros d' Hne. by rewrite lk_insert, decide_False.
  - intros s k e0 Hk. rewrite lk_insert, decide_True by done. intros [= <-] HX.
    destruct Hor as [?|[Hw|Hp]]; [done| |].
    + assert (is_Some (qv (systems c) s !! d)) as Hq by eauto.
      apply (pl_queue _ _ _ _ HP) in Hq as (e1 & ? & _ & ?). naive_solver.
    + rewrite (HK s d k e Hk Hd HX). symmetry. exact Hp.
Qed.

(** An entry changes in what does not say where it is. *)
Lemma Inv_entry X W G c d e e' :
  Inv X W G c → lk (entries c) d = Some e →
  Entry.drvPath e' = Entry.drvPath e → Entry.system e' = Entry.system e →
  Entry.worker e' = Entry.worker e → entry_ok (cfg c) e' →
  (∀ cl, cl ∈ Entry.followers e' → cl ∈ Entry.followers e) →
  (Entry.followers e ≠ [] → Entry.followers e' ≠ [] ∨ d ∈ X ∨ Entry.worker e ≠ noWorker) →
  (d ∈ X ∨ Entry.worker e ≠ noWorker ∨ prio e' c = prio e c) →
  Inv X W G (with_entries (<[d := Some e']> (entries c)) c).
Proof.
  intros HI Hd Hp Hs Hw He Hsub Hf Hprio. inv_fields HI. split; simpl; try done.
  - by eapply Tables_entry.
  - eauto with sched.
  - by eapply Place_entry.
  - by eapply Keys_entry.
  - by eapply FollowsOk_entry.
Qed.

(** A derivation in transition that runs nowhere gets another worker. *)
Lemma Inv_set_worker X W G c d e wid :
  Inv X W G c → lk (entries c) d = Some e → d ∈ X → (∀ w, d ∉ run (workers c) w) →
  Inv X W G (with_entries (<[d := Some (Entry.with_worker wid e)]> (entries c)) c).
Proof.
  intros HI Hd HX Hr. inv_fields HI. pose proof (lk_lt _ _ _ Hd) as Hlt.
  split; simpl; try done.
  - by eapply Tables_entry.
  - apply EntriesOk_insert; [done| |done]. by apply (Ient d e).
  - eapply (Place_change X X d); [done|done|..]; try done; try apply Ipl.
    + intros d' Hne. by rewrite lk_insert, decide_False.
    + intros s Hs. apply (pl_queue _ _ _ _ Ipl) in Hs as (e' & ? & ? & _). simplify_eq.
      exists (Entry.with_worker wid e). by rewrite lk_insert, decide_True.
    + intros w Hw. by apply Hr in Hw.
  - by eapply Keys_entry; [..|left].
  - by eapply FollowsOk_entry.
Qed.

Lemma retire_inv X W G c d e :
  Inv X W G c → lk (entries c) d = Some e → (∀ w, d ∉ run (workers c) w) →
  wp (retire d) (λ _ c', Inv (X ∖ {[d]}) W G c' ∧ ∃ m, c' = retired d e m c) c.
Proof.
  intros HI Hd Hr. inv_fields HI. pose proof (lk_lt _ _ _ Hd) as Hlt.
  eapply wp_mono; [by apply retire_spec|]. intros _ c' (m & -> & Hm & Hqv & Hfk).
  split; [|by exists m]. unfold retired. split; simpl; try done; eauto with sched.
  - eapply (Place_change X _ d); [done|set_solver|..]; try done; try apply Ipl.
    + intros d' Hne. by rewrite lk_insert, decide_False.
    + intros d' s Hne. rewrite Hqv. unfold Q_erase. case_decide; [|done].
      by rewrite lookup_delete_ne.
    + intros s. rewrite Hqv. unfold Q_erase. case_decide as Hs; [by rewrite lookup_delete_eq; intros []|].
      intros Hsome. apply (pl_queue _ _ _ _ Ipl) in Hsome as (e' & ? & ? & _). congruence.
    + intros w Hw. by apply Hr in Hw.
    + intros e'. by rewrite lk_insert, decide_True.
  - eapply (Keys_change X _ d); [done|set_solver|..].
    + intros d' Hne. by rewrite lk_insert, decide_False.
    + intros d' s Hne. rewrite Hqv. unfold Q_erase. case_decide; [|done].
      by rewrite lookup_delete_ne.
    + intros s k e' _. by rewrite lk_insert, decide_True.
  - by eapply FreeOk_systems.
Qed.

Lemma set_queue_inv X W G c d e :
  Inv X W G c → lk (entries c) d = Some e → Entry.worker e = noWorker →
  Entry.followers e ≠ [] →
  wp (on_queue (Entry.system e) (IndexedHeap.set d (prio e c))) (λ _ c',
    Inv (X ∖ {[d]}) W G c' ∧ ∃ m, c' = with_systems m c) c.
Proof.
  intros HI Hd Hw Hf. inv_fields HI.
  eapply wp_mono; [apply on_queue_set_spec; eauto using entry_lt_noWorker, prio_not_nan|].
  intros _ c' (m & -> & Hm & Hqv & Hfk). split; [|by exists m].
  assert (∀ d' s, d' ≠ d → qv m s !! d' = qv (systems c) s !! d') as Hne.
  { intros d' s Hne. rewrite Hqv. unfold Q_set. case_decide; [|done].
    by rewrite lookup_insert_ne. }
  split; simpl; try done; [| |by eapply FreeOk_same].
  2:{ eapply (Keys_change X _ d); [done|set_solver|done|done|]. intros s k e' Hk He' _. simplify_eq.
      rewrite Hqv in Hk. unfold Q_set in Hk. case_decide as Hs.
      - rewrite lookup_insert_eq in Hk. by simplify_eq.
      - assert (is_Some (qv (systems c) s !! d)) as Hsome by eauto.
        apply (pl_queue _ _ _ _ Ipl) in Hsome as (e'' & ? & ? & _). congruence. }
  eapply (Place_change X _ d); [done|set_solver|..]; try done; try apply Ipl.
  - intros s. rewrite Hqv. unfold Q_set. case_decide as Hs; [subst; eauto|].
    intros Hsome. apply (pl_queue _ _ _ _ Ipl) in Hsome as (e' & ? & ? & _). congruence.
  - intros w Hr. by apply (pl_run _ _ _ _ Ipl).
  - intros e' He' _. simplify_eq. unfold placed. rewrite decide_True by done.
    split; [|done]. rewrite Hqv. unfold Q_set. rewrite decide_True by done.
    by rewrite lookup_insert_eq.
Qed.

Lemma enqueue_inv X W G c d e :
  Inv X W G c → lk (entries c) d = Some e → Entry.worker e = noWorker →
  Entry.followers e ≠ [] →
  wp (enqueue d) (λ _ c', Inv (X ∖ {[d]}) W G c' ∧ ∃ m, c' = with_systems m c) c.
Proof.
  intros HI Hd Hw Hf. unfold enqueue. apply wp_bind. eapply wp_entry_ref; [done|]. wp_steps.
  by apply set_queue_inv.
Qed.

(** Take a derivation out of its queue: it is in transition, in no queue. *)
Lemma erase_queue_inv X W G c d e :
  Inv X W G c → lk (entries c) d = Some e →
  wp (on_queue (Entry.system e) (IndexedHeap.erase d)) (λ _ c', ∃ m, c' = with_systems m c ∧
    Inv (X ∪ {[d]}) W G c' ∧ (∀ s, qv m s !! d = None) ∧
    ∀ d' s, d' ≠ d → qv m s !! d' = qv (systems c) s !! d') c.
Proof.
  intros HI Hd. inv_fields HI. eapply wp_mono; [by apply on_queue_erase_spec|].
  intros _ c' (m & -> & _ & Hm & Hqv & Hfk). exists m. split; [done|].
  assert (∀ s, qv m s !! d = None) as Hno.
  { intros s. rewrite Hqv. unfold Q_erase. case_decide as Hs; [by rewrite lookup_delete_eq|].
    apply eq_None_not_Some. intros Hq.
    apply (pl_queue _ _ _ _ Ipl) in Hq as (e' & ? & ? & _). congruence. }
  assert (∀ d' s, d' ≠ d → qv m s !! d' = qv (systems c) s !! d') as Hne.
  { intros d' s Hne. rewrite Hqv. unfold Q_erase. case_decide; [|done]. by rewrite lookup_delete_ne. }
  split_and!; [|done..]. split; simpl; try done; [| |by eapply FreeOk_same].
  - eapply (Place_change X _ d); [exact Ipl|set_solver|..]; try done; try apply Ipl.
    + intros s. rewrite Hno. by intros [].
    + intros w Hr. by apply (pl_run _ _ _ _ Ipl).
    + set_solver.
  - eapply (Keys_change X _ d); [done|set_solver|done|done|]. intros s k e'. by rewrite Hno.
Qed.

(** Erase a derivation from a worker's running list. *)
Definition unrun (w d : N) (wkr : Worker.t) (c : core) : core :=
  with_workers (<[w := Worker.with_running (filter (λ x, x ≠ d) (Worker.running wkr)) wkr]>
    (workers c)) c.

Lemma elem_of_run_unrun w d wkr c w' d' :
  workers c !! w = Some wkr →
  d' ∈ run (workers (unrun w d wkr c)) w' ↔ d' ∈ run (workers c) w' ∧ (w' = w → d' ≠ d).
Proof.
  intros Hw. unfold unrun. simpl. rewrite run_insert by (by eapply vlookup_lt_Some).
  case_decide as Hw'; [subst|naive_solver]. simpl. rewrite list_elem_of_filter.
  unfold run at 1. rewrite Hw. naive_solver.
Qed.

Lemma Inv_unrun X W G c w wkr d :
  Inv X W G c → workers c !! w = Some wkr →
  Inv (X ∪ {[d]}) (W ∪ {[w]}) G (unrun w d wkr c).
Proof.
  intros HI Hw. inv_fields HI. split; simpl; try done.
  - eapply (Place_change X _ d); [done|set_solver|..]; try done.
    + intros d' w' Hne. rewrite (elem_of_run_unrun w d wkr c w' d' Hw). naive_solver.
    + intros w'. rewrite run_insert by (by eapply vlookup_lt_Some).
      case_decide; [|apply Ipl]. simpl. apply NoDup_filter.
      pose proof (pl_nodup _ _ _ _ Ipl w) as Hn. unfold run in Hn. by rewrite Hw in Hn.
    + intros s Hs. apply (pl_queue _ _ _ _ Ipl) in Hs as (e & ? & ? & _).
      exists e. set_solver.
    + intros w' [Hr _]%(elem_of_run_unrun w d wkr c w' d Hw). by apply Ipl.
    + set_solver.
  - intros s d' k e Hk He HX. eapply Ikey; set_solver.
  - by eapply FreeOk_worker.
  - eapply WorkersOk_upd; [done..| |done|done].
    destruct (wk_ok _ _ _ Iwk _ _ Hw) as [Hj Hup]. split; [done|].
    simpl. intros ->%Hup. done.
Qed.

Lemma refreshFree_inv X W G c w wkr :
  Inv X (W ∪ {[w]}) G c → workers c !! w = Some wkr →
  wp (refreshFree w) (λ _ c', Inv X W G c' ∧ ∃ m, c' = with_systems m c ∧
    (∀ s, qv m s = qv (systems c) s)) c.
Proof.
  intros HI Hw. inv_fields HI.
  eapply wp_mono; [apply refreshFree_spec; [done..|]|].
  { intros s Hs. by eapply fr_known. }
  intros _ c' (m & -> & Hm & Hqv & Hfk). split; [|by exists m].
  split; simpl; try done.
  - by eapply Place_systems.
  - by eapply Keys_systems.
  - by eapply FreeOk_refresh.
Qed.

(** Place again, or drop, a derivation in transition that runs nowhere. *)
Lemma requeue_or_retire_inv X W G c d e :
  Inv X W G c → lk (entries c) d = Some e → Entry.worker e = noWorker →
  wp (requeue_or_retire d) (λ _ c', Inv (X ∖ {[d]}) W G c' ∧
    workers c' = workers c ∧ follows c' = follows c ∧ lastBuilder c' = lastBuilder c ∧
    (∀ d', lk (entries c') d' = if decide (d' = d ∧ Entry.followers e = []) then None
                                else lk (entries c) d')) c.
Proof.
  intros HI Hd Hw. unfold requeue_or_retire. apply wp_bind. eapply wp_entry_ref; [done|].
  destruct (Entry.followers e) as [|cl cls] eqn:Hf.
  - eapply wp_mono; [apply retire_inv; [done..|]|].
    { intros w. by eapply unplaced_not_running. }
    intros _ c' [HI' [m ->]]. split; [done|]. unfold retired. simpl. split_and!; [done..|].
    intros d'. rewrite lk_insert by (by eapply lk_lt). repeat case_decide; naive_solver.
  - eapply wp_mono; [eapply enqueue_inv; [done..|congruence]|].
    intros _ c' [HI' [m ->]]. split; [done|]. simpl. split_and!; [done..|].
    intros d'. rewrite decide_False; naive_solver.
Qed.
End Steps.

(** ** setDraining *)

Lemma Inv_worker X W G c w wkr wkr' :
  Inv X W G c → workers c !! w = Some wkr →
  Worker.addr wkr' = Worker.addr wkr → Worker.systems wkr' = Worker.systems wkr →
  Worker.running wkr' = Worker.running wkr → Worker.up wkr' = Worker.up wkr → worker_ok wkr' →
  Inv X (W ∪ {[w]}) G (with_workers (<[w := wkr']> (workers c)) c).
Proof.
  intros HI Hw Ha Hs Hr Hu Hok. inv_fields HI. split; simpl; try done.
  - eapply Place_workers; [|done]. intros w'. rewrite run_insert by (by eapply vlookup_lt_Some).
    case_decide; [subst|done]. unfold run. by rewrite Hw.
  - by eapply FreeOk_worker.
  - eapply WorkersOk_upd; [done..| |done]. by rewrite Hu.
Qed.

Lemma setDraining_spec wid b wkr c :
  inv c → workers c !! wid = Some wkr →
  wp (setDraining wid b) (λ _ c', inv c' ∧ entries c' = entries c ∧
    workers c' = <[wid := Worker.with_draining b wkr]> (workers c)) c.
Proof.
  intros HI Hw. inv_fields HI. unfold setDraining. apply wp_bind.
  eapply wp_upd_worker; [done|].
  assert (wid < vlen (workers c))%N by (by eapply vlookup_lt_Some).
  eapply wp_mono; [apply (refreshFree_inv ∅ ∅ ∅ _ wid (Worker.with_draining b wkr))|].
  - apply Inv_worker with wkr; try done. exact (wk_ok _ _ _ Iwk wid wkr Hw).
  - simpl. by rewrite vlookup_insert_eq.
  - intros _ c' [HI' (m & -> & _)]. done.
Qed.

(** ** giveBack and done *)

Lemma findDrv_entry X W G c path d :
  Inv X W G c → findDrv path c = Some d →
  ∃ e, lk (entries c) d = Some e ∧ PathKey (Entry.drvPath e) = PathKey path.
Proof. intros HI Hf. inv_fields HI. by apply (tab_ids _ _ _ Itab). Qed.

(** The common start of both: the worker no longer runs it. *)
Lemma unrun_refresh_inv c wid wkr d {A} (k : () → C A) (Φ : A → core → Prop) :
  inv c → workers c !! wid = Some wkr →
  (∀ m, Inv {[d]} ∅ ∅ (with_systems m (unrun wid d wkr c)) →
     (∀ s, qv m s = qv (systems c) s) →
     wp (k tt) Φ (with_systems m (unrun wid d wkr c))) →
  wp (upd_worker wid (λ w, Worker.with_running (filter (λ x, x ≠ d) (Worker.running w)) w);;
      refreshFree wid ≫= k) Φ c.
Proof.
  intros HI Hw Hk. apply wp_bind. eapply wp_upd_worker; [done|]. apply wp_bind.
  assert (wid < vlen (workers c))%N by (by eapply vlookup_lt_Some).
  eapply wp_mono; [eapply (refreshFree_inv {[d]} ∅ ∅ (unrun wid d wkr c))|].
  - rewrite <- (left_id_L ∅ (∪) {[d]}). by apply Inv_unrun.
  - simpl. by rewrite vlookup_insert_eq.
  - intros [] c' [HI' (m & -> & Hqv)]. by apply Hk.
Qed.

(** A derivation whose entry names another worker, or none, stays consistent. *)
Lemma Inv_unrun_other c m wid wkr d e :
  inv c → workers c !! wid = Some wkr → lk (entries c) d = Some e → Entry.worker e ≠ wid →
  (∀ s, qv m s = qv (systems c) s) →
  Inv {[d]} ∅ ∅ (with_systems m (unrun wid d wkr c)) →
  inv (with_systems m (unrun wid d wkr c)).
Proof.
  intros HI Hw Hd Hne Hqv HI'. pose proof (inv_place _ _ _ _ HI) as Ipl0.
  pose proof (inv_keys _ _ _ _ HI) as Ikey0. inv_fields HI'.
  split; try done; [|by eapply Keys_systems]. eapply (Place_change {[d]} ∅ d); [exact Ipl|set_solver|..]; try done.
  - apply Ipl.
  - intros s Hs. simpl in *. rewrite Hqv in Hs.
    apply (pl_queue _ _ _ _ Ipl0) in Hs as (e' & ? & ? & He'). exists e'. split_and!; [done..|].
    intros _. apply He'. set_solver.
  - intros w Hr. by apply Ipl.
  - simpl. intros e' He' _. simplify_eq. pose proof (pl_placed _ _ _ _ Ipl0 d e Hd) as Hp.
    specialize (Hp ltac:(set_solver)). unfold placed in *. case_decide; [by rewrite Hqv|].
    apply (elem_of_run_unrun wid d wkr c _ d Hw). naive_solver.
Qed.

(** After it is taken from its worker, a derivation runs nowhere. *)
Lemma unrun_not_running X W G c m wid wkr d e w :
  Inv X W G c → workers c !! wid = Some wkr → lk (entries c) d = Some e → Entry.worker e = wid →
  d ∉ run (workers (with_systems m (unrun wid d wkr c))) w.
Proof.
  intros HI Hw Hd He [Hr Hne]%(elem_of_run_unrun wid d wkr c w d Hw).
  destruct (pl_run _ _ _ _ (inv_place _ _ _ _ HI) w d Hr) as (e' & ? & ?).
  apply Hne; [congruence|done].
Qed.

(** The worker of [path], if it was [wid], is forgotten; the derivation is
    queued again and prefers other workers, or dropped if nobody follows it. *)
Definition give_back_entry (wid : N) (e : Entry.t) : option Entry.t :=
  if decide (Entry.worker e = wid) then
    if decide (Entry.followers e = []) then None
    else Some (Entry.with_avoid wid (Entry.with_worker noWorker e))
  else Some e.

Lemma giveBack_spec wid path wkr c :
  inv c → workers c !! wid = Some wkr →
  wp (giveBack wid path) (λ _ c', inv c' ∧ follows c' = follows c ∧
    match findDrv path c with
    | None => c' = c
    | Some d =>
        workers c' = workers (unrun wid d wkr c) ∧
        ∀ d', lk (entries c') d' =
          if decide (d' = d) then lk (entries c) d ≫= give_back_entry wid else lk (entries c) d'
    end) c.
Proof.
  intros HI Hw. unfold giveBack. wp_steps. destruct (findDrv path c) as [d|] eqn:Hf;
    [|by wp_steps].
  destruct (findDrv_entry _ _ _ _ _ _ HI Hf) as (e & Hd & _). apply lk_Some in Hd as Hd'.
  pose proof (lk_lt _ _ _ Hd) as Hlt.
  apply unrun_refresh_inv with wkr; [done..|]. intros m HI1 Hqv. apply wp_bind.
  eapply wp_at; [done|]. rewrite Hd. simpl. unfold give_back_entry.
  destruct (N.eqb_spec (Entry.worker e) wid) as [Hwe|Hwe]; simpl.
  2:{ wp_steps. rewrite decide_False by done. split_and!; [by eapply Inv_unrun_other|done..|].
      intros d'. case_decide; by subst. }
  set (c1 := with_systems m (unrun wid d wkr c)) in *.
  apply wp_bind. eapply (wp_upd_entry d _ e); [done|]. apply wp_bind.
  eapply (wp_upd_entry d _ (Entry.with_worker noWorker e)).
  { simpl. by rewrite lk_insert, decide_True. }
  set (e' := Entry.with_avoid wid (Entry.with_worker noWorker e)).
  eapply wp_mono; [eapply (requeue_or_retire_inv {[d]} ∅ ∅ _ d e')|].
  - eapply (Inv_entry _ _ _ _ d (Entry.with_worker noWorker e)); try done.
    + eapply (Inv_set_worker {[d]} ∅ ∅ c1); [done..|set_solver|].
      intros w. by eapply unrun_not_running.
    + simpl. by rewrite lk_insert, decide_True.
    + inv_fields HI. exact (Ient d e Hd).
    + intros. right. left. set_solver.
    + by right; right.
  - by lk_simpl.
  - done.
  - intros _ c' (HI' & Hwk & Hfol & _ & Hlk). rewrite difference_diag_L in HI'.
    split_and!; [done|done|done|]. intros d'. rewrite Hlk. simpl.
    lk_simpl. repeat case_decide; naive_solver.
Qed.

Lemma rememberBuilder_spec path wid size c :
  (N.of_nat (base.size (lastBuilder c)) ≤ maxLastBuilder)%N →
  wp (rememberBuilder path wid size) (λ _ c', ∃ lb, c' = with_lastBuilder lb c ∧
    (N.of_nat (base.size lb) ≤ maxLastBuilder)%N ∧ lb !! PathKey path = Some (wid, size)) c.
Proof.
  intros Hlb. unfold rememberBuilder. wp_steps.
  destruct (lastBuilder c !! PathKey path) as [old|] eqn:Hold.
  { wp_steps. eexists. split_and!; [done| |by rewrite lookup_insert_eq].
    by rewrite map_size_insert_Some. }
  apply wp_bind. destruct (N.leb_spec maxLastBuilder (N.of_nat (base.size (lastBuilder c)))).
  - wp_steps. eexists. split_and!; [done| |by rewrite lookup_insert_eq]. simpl.
    rewrite map_size_insert_None by apply lookup_empty. by rewrite map_size_empty.
  - wp_steps. eexists. split_and!; [done| |by rewrite lookup_insert_eq].
    rewrite map_size_insert_None by done. lia.
Qed.

Lemma Inv_lastBuilder X W G c lb :
  (N.of_nat (base.size lb) ≤ maxLastBuilder)%N → Inv X W G c → Inv X W G (with_lastBuilder lb c).
Proof. intros Hlb HI. inv_fields HI. by split. Qed.

Lemma remember_all_inv wid outputs c :
  inv c →
  wp (forM_ outputs (λ o : string * N, rememberBuilder o.1 wid o.2))
    (λ _ c', inv c' ∧ ∃ lb, c' = with_lastBuilder lb c) c.
Proof.
  intros HI. apply (wp_forM _ (λ _ c', inv c' ∧ ∃ lb, c' = with_lastBuilder lb c)).
  { split; [done|]. exists (lastBuilder c). by destruct c. }
  intros o rest c' [HI' [lb ->]]. eapply wp_mono; [apply rememberBuilder_spec; apply HI'|].
  intros _ c'' (lb' & -> & Hlb & _). split; [|by exists lb'].
  by apply (Inv_lastBuilder _ _ _ _ lb') in HI'.
Qed.

(** A derivation is finished when the worker it is placed on says so. *)
Definition done_entry (wid : N) (e : Entry.t) : option Entry.t :=
  if decide (Entry.worker e = wid) then None else Some e.

Lemma done_spec wid path outputs wkr c :
  inv c → workers c !! wid = Some wkr →
  wp (done wid path outputs) (λ _ c', inv c' ∧ follows c' = follows c ∧
    match findDrv path c with
    | None => workers c' = workers c ∧ entries c' = entries c
    | Some d =>
        workers c' = workers (unrun wid d wkr c) ∧
        ∀ d', lk (entries c') d' =
          if decide (d' = d) then lk (entries c) d ≫= done_entry wid else lk (entries c) d'
    end) c.
Proof.
  intros HI0 Hw. unfold done. apply wp_bind. eapply wp_at; [done|]. apply wp_bind.
  eapply wp_mono; [by apply remember_all_inv|]. intros [] c0 [HI [lb ->]].
  wp_steps. change (findDrv path (with_lastBuilder lb c)) with (findDrv path c).
  destruct (findDrv path c) as [d|] eqn:Hf; [|by wp_steps].
  destruct (findDrv_entry _ _ _ _ _ _ HI0 Hf) as (e & Hd & _). apply lk_Some in Hd as Hd'.
  apply unrun_refresh_inv with wkr; [done..|]. intros m HI1 Hqv. apply wp_bind.
  eapply wp_at; [done|]. rewrite Hd. simpl. unfold done_entry.
  destruct (N.eqb_spec (Entry.worker e) wid) as [Hwe|Hwe]; simpl.
  2:{ wp_steps. rewrite decide_False by done.
      split_and!; [by eapply Inv_unrun_other|done..|]. intros d'. case_decide; by subst. }
  eapply wp_mono; [eapply (retire_inv {[d]} ∅ ∅ _ d e); [done..|]|].
  { intros w. by eapply (unrun_not_running _ _ _ (with_lastBuilder lb c)). }
  intros _ c' [HI' [m' ->]]. rewrite difference_diag_L in HI'.
  unfold retired. split_and!; [done..|]. intros d'. lk_simpl.
  repeat case_decide; naive_solver.
Qed.

(** ** cancel and clientGone *)

(** What is left of an entry when a follower goes away, and the worker to tell
    if it was the last one of a placed derivation. *)
Definition drop_client (cl : N) (e : Entry.t) : option Entry.t :=
  let rest := filter (λ x, x ≠ cl) (Entry.followers e) in
  if decide (cl ∈ Entry.followers e) then
    if decide (rest = [] ∧ Entry.worker e = noWorker) then None
    else Some (Entry.with_followers rest e)
  else Some e.

Definition revoke_of (cl : N) (e : Entry.t) : option N :=
  let rest := filter (λ x, x ≠ cl) (Entry.followers e) in
  if decide (cl ∈ Entry.followers e ∧ rest = [] ∧ Entry.worker e ≠ noWorker)
  then Some (Entry.worker e) else None.

Lemma entry_ok_followers cf e fs :
  entry_ok cf e → NoDup fs → (∀ cl, cl ∈ fs → cl ∈ Entry.followers e) →
  entry_ok cf (Entry.with_followers fs e).
Proof.
  intros (_ & Hs & Hc & Ha) Hn Hsub. split_and!; [done| |done..]. simpl. intros Hne.
  apply Hs. destruct fs as [|cl fs]; [done|]. intros Hf.
  apply (not_elem_of_nil cl). rewrite <- Hf. apply Hsub. set_solver.
Qed.

Lemma drop_followers_inv X G c d e cl fs :
  Inv X ∅ G c → lk (entries c) d = Some e → filter (λ x, x ≠ cl) (Entry.followers e) = fs →
  (d ∈ X ∨ Entry.worker e ≠ noWorker) →
  Inv X ∅ G (with_entries (<[d := Some (Entry.with_followers fs e)]> (entries c)) c).
Proof.
  intros HI Hd <- Hor. inv_fields HI. pose proof (Ient d e Hd) as He.
  eapply Inv_entry; try done.
  - apply entry_ok_followers; [done|apply NoDup_filter, He|].
    intros x. rewrite list_elem_of_filter. naive_solver.
  - simpl. intros x. rewrite list_elem_of_filter. naive_solver.
  - simpl. naive_solver.
  - simpl. naive_solver.
Qed.

Lemma cancel_spec G client d c :
  Inv ∅ ∅ G c →
  wp (cancel client d) (λ r c', Inv ∅ ∅ G c' ∧
    workers c' = workers c ∧ follows c' = follows c ∧
    r = (lk (entries c) d ≫= revoke_of client) ∧
    ∀ d', lk (entries c') d' =
      if decide (d' = d) then lk (entries c) d ≫= drop_client client else lk (entries c) d') c.
Proof.
  intros HI. unfold cancel. wp_steps.
  destruct (entries c !! d) as [[e|]|] eqn:Hd'.
  2,3: assert (lk (entries c) d = None) as Hno by (unfold lk; by rewrite Hd'); rewrite Hno;
    destruct (N.leb_spec (vlen (entries c)) d);
    [|apply wp_bind; (eapply wp_at; [done|]) || (apply vlookup_ge in Hd'; lia)];
    cbn beta iota; wp_steps; (split_and!; [done..|]); intros d'; case_decide; by subst.
  apply lk_Some in Hd' as Hd. pose proof (lk_lt _ _ _ Hd) as Hlt. rewrite Hd. simpl.
  destruct (N.leb_spec (vlen (entries c)) d); [lia|]. apply wp_bind.
  eapply wp_at; [done|]. unfold revoke_of, drop_client.
  destruct (bool_decide_reflect (client ∈ Entry.followers e)) as [Hin|Hin]; simpl.
  2:{ wp_steps. rewrite decide_False by naive_solver. rewrite decide_False by done.
      split_and!; [done..|]. intros d'. case_decide; by subst. }
  rewrite (decide_True (P := client ∈ _)) by done.
  destruct (filter _ _) as [|x rest] eqn:Hrest.
  - apply wp_bind. eapply wp_upd_entry; [done|].
    destruct (N.eqb_spec (Entry.worker e) noWorker) as [Hw|Hw].
    + apply wp_bind. rewrite decide_False by naive_solver. rewrite decide_True by done.
      eapply wp_mono; [eapply (retire_inv {[d]} ∅ G)|].
      * eapply drop_followers_inv; [eapply Inv_weaken; [..|exact HI]; set_solver|done|done|left; set_solver].
      * by lk_simpl.
      * intros w. exact (unplaced_not_running _ _ _ c d e w HI Hd Hw).
      * intros [] c' [HI' [m ->]]. rewrite difference_diag_L in HI'. wp_steps.
        unfold retired. split_and!; [done..|]. intros d'. lk_simpl. repeat case_decide; naive_solver.
    + wp_steps. rewrite decide_True by done. rewrite decide_False by naive_solver.
      split_and!; [eapply drop_followers_inv; eauto|done..|].
      intros d'. lk_simpl. repeat case_decide; naive_solver.
  - apply wp_bind. eapply wp_upd_entry; [done|].
    rewrite decide_False by naive_solver. rewrite decide_False by naive_solver.
    apply wp_bind. destruct (N.eqb_spec (Entry.worker e) noWorker) as [Hw|Hw].
    + eapply wp_mono; [eapply (enqueue_inv {[d]} ∅ G); [|by lk_simpl|done..]|].
      { eapply drop_followers_inv; [eapply Inv_weaken; [..|exact HI]; set_solver|done|done|].
        left. set_solver. }
      intros [] c' [HI' [m ->]]. wp_steps. rewrite difference_diag_L in HI'.
      split_and!; [done..|]. intros d'. lk_simpl. repeat case_decide; naive_solver.
    + wp_steps. split_and!; [eapply drop_followers_inv; eauto|done..|].
      intros d'. lk_simpl. repeat case_decide; naive_solver.
Qed.

Lemma drop_client_not_follower cl e e' :
  drop_client cl e = Some e' → cl ∉ Entry.followers e'.
Proof.
  unfold drop_client. repeat case_decide; intros ?; simplify_eq; [|done]. simpl.
  rewrite list_elem_of_filter. naive_solver.
Qed.

Lemma drop_client_other cl e : cl ∉ Entry.followers e → drop_client cl e = Some e.
Proof. intros. unfold drop_client. by rewrite decide_False. Qed.

Lemma drop_client_idem cl o : ((o ≫= drop_client cl) ≫= drop_client cl) = (o ≫= drop_client cl).
Proof.
  destruct o as [e|]; [|done]. simpl. destruct (drop_client cl e) as [e'|] eqn:He; [|done].
  simpl. by apply drop_client_other, (drop_client_not_follower _ e).
Qed.

Lemma revoke_drop cl e w :
  revoke_of cl e = Some w → ∃ e', drop_client cl e = Some e' ∧ e' ≠ e ∧ revoke_of cl e' = None.
Proof.
  unfold revoke_of. case_decide as Hc; [|done]. intros _. destruct Hc as (Hin & Hr & Hw).
  eexists. unfold drop_client. rewrite decide_True by done. rewrite decide_False by naive_solver.
  split_and!; [done| |].
  - intros He. apply (f_equal Entry.followers) in He. simpl in He. rewrite Hr in He.
    rewrite <- He in Hin. by apply not_elem_of_nil in Hin.
  - rewrite decide_False; [done|]. simpl. intros [Hin' _]. by rewrite Hr in Hin'; apply not_elem_of_nil in Hin'.
Qed.

(** What one round of the loop of [clientGone] keeps: each derivation is as
    before, or without the client; the latter are the ones reported. *)
Definition gone_upto (client : N) (c : core) (rest : list N) (revokes : list (N * N)) (c1 : core) :
    Prop :=
  Inv ∅ ∅ {[client]} c1 ∧ workers c1 = workers c ∧ follows c1 = delete client (follows c) ∧
  NoDup revokes ∧
  (∀ d, lk (entries c1) d = (lk (entries c) d ≫= drop_client client) ∨
        (d ∈ rest ∧ lk (entries c1) d = lk (entries c) d)) ∧
  (∀ d w, (d, w) ∈ revokes ↔ ∃ e, lk (entries c) d = Some e ∧ revoke_of client e = Some w ∧
     lk (entries c1) d = drop_client client e).

Lemma gone_step client c d rest revokes c1 :
  gone_upto client c (d :: rest) revokes c1 →
  wp (cancel client d) (λ o c2, gone_upto client c rest
    (match o with Some wid => revokes ++ [(d, wid)] | None => revokes end) c2) c1.
Proof.
  intros (HI & Hw & Hf & Hnd & Hlk & Hrev). eapply wp_mono; [by apply cancel_spec|].
  intros o c2 (HI2 & Hw2 & Hf2 & -> & Hlk2).
  assert (lk (entries c2) d = (lk (entries c) d ≫= drop_client client)) as Hd2.
  { rewrite Hlk2, decide_True by done. destruct (Hlk d) as [->|[_ ->]]; [|done].
    apply drop_client_idem. }
  assert (∀ d', d' ≠ d → lk (entries c2) d' = lk (entries c1) d') as Hne.
  { intros d' ?. by rewrite Hlk2, decide_False. }
  assert (∀ w, (lk (entries c1) d ≫= revoke_of client) = Some w ↔
    ∃ e, lk (entries c) d = Some e ∧ revoke_of client e = Some w ∧ (d, w) ∉ revokes) as Hr.
  { intros w. setoid_rewrite Hrev. split.
    - intros (e1 & He1 & Hw1)%bind_Some. destruct (Hlk d) as [Heq|[_ Heq]]; rewrite He1 in Heq.
      + symmetry in Heq. apply bind_Some in Heq as (e & _ & Hdrop%drop_client_not_follower).
        unfold revoke_of in Hw1. case_decide; naive_solver.
      + exists e1. split_and!; [done..|]. intros (e & He & Hre & Hdrop). simplify_eq.
        apply revoke_drop in Hre as (e' & ? & ? & ?). congruence.
    - intros (e & He & Hre & Hno). destruct (Hlk d) as [Heq|[_ ->]]; [|by rewrite He].
      destruct Hno. exists e. rewrite Heq, He. done. }
  split_and!; [done|congruence..| | |].
  - destruct (lk (entries c1) d ≫= revoke_of client) as [w|] eqn:Ho; [|done].
    destruct (proj1 (Hr w) eq_refl) as (e & _ & _ & Hno). apply NoDup_app.
    split_and!; [done|set_solver|apply NoDup_singleton].
  - intros d'. destruct (decide (d' = d)) as [->|Hd']; [by left|]. rewrite Hne by done.
    destruct (Hlk d') as [?|[? ?]]; [by left|right]. set_solver.
  - intros d' w. transitivity ((d', w) ∈ revokes ∨ (d' = d ∧ (lk (entries c1) d ≫= revoke_of client) = Some w)).
    { destruct (lk (entries c1) d ≫= revoke_of client) as [w'|]; [|naive_solver].
      rewrite elem_of_app, list_elem_of_singleton. naive_solver. }
    rewrite Hr. destruct (decide (d' = d)) as [->|Hd'].
    + rewrite Hrev, Hd2. split.
      * intros [(e & He & Hre & _)|(_ & e & He & Hre & _)]; exists e; by rewrite He.
      * intros (e & He & Hre & _). rewrite <- Hrev.
        destruct (decide ((d, w) ∈ revokes)); [by left|right]. eauto.
    + rewrite Hrev, Hne by done. naive_solver.
Qed.

(** [clientGone] forgets the client everywhere and reports, once each, exactly
    the placed derivations nobody else follows. *)
Lemma clientGone_spec client c :
  inv c →
  wp (clientGone client) (λ revokes c', inv c' ∧ workers c' = workers c ∧
    follows c' = delete client (follows c) ∧ NoDup revokes ∧
    (∀ d, lk (entries c') d = (lk (entries c) d ≫= drop_client client)) ∧
    (∀ d w, (d, w) ∈ revokes ↔ ∃ e, lk (entries c) d = Some e ∧ revoke_of client e = Some w)) c.
Proof.
  intros HI. inv_fields HI. unfold clientGone. wp_steps.
  assert (∀ d e, lk (entries c) d = Some e → client ∈ Entry.followers e →
    d ∈ default [] (follows c !! client)) as Hfol by (intros d e; apply Ifol; set_solver).
  destruct (follows c !! client) as [drvs|] eqn:Hcl; simpl in Hfol.
  2:{ wp_steps. assert (∀ d e, lk (entries c) d = Some e → client ∉ Entry.followers e) as Hno.
      { intros d e Hd Hin. by apply (Hfol d e) in Hin as ?%not_elem_of_nil. }
      split_and!; [done|done|by rewrite delete_id|constructor|..].
      - intros d. destruct (lk (entries c) d) as [e|] eqn:Hd; [|done]. simpl.
        by rewrite drop_client_other by eauto.
      - intros d w. split; [by intros ?%not_elem_of_nil|]. intros (e & Hd & Hr).
        unfold revoke_of in Hr. case_decide; naive_solver. }
  wp_steps. eapply wp_mono; [apply (wp_foldM _ (gone_upto client c))|].
  - split_and!; [|done|done|constructor| |].
    + eapply (Inv_weaken ∅ ∅ ∅ ∅ ∅ {[client]}) in HI; [|set_solver..]. inv_fields HI.
      split; try done. intros cl d e Hn Hd Hin. simpl.
      rewrite lookup_delete_ne by set_solver. by eapply Ifol.
    + intros d. simpl. destruct (lk (entries c) d) as [e|] eqn:Hd; [|by left]. simpl.
      destruct (decide (client ∈ Entry.followers e)); [right; by eauto|left].
      by rewrite drop_client_other.
    + intros d w. split; [by intros ?%not_elem_of_nil|]. simpl. intros (e & Hd & Hr & Heq).
      apply revoke_drop in Hr as (e' & ? & ? & ?). congruence.
  - intros d rest revokes c1 H1. apply wp_bind. eapply wp_mono; [by apply gone_step|].
    intros o c2 H2. by wp_steps.
  - intros revokes c' (HI' & Hw & Hf & Hnd & Hlk & Hrev).
    assert (∀ d, lk (entries c') d = (lk (entries c) d ≫= drop_client client)) as Hlk'.
    { intros d. destruct (Hlk d) as [?|[?%not_elem_of_nil _]]; done. }
    split_and!; [|done..|].
    + inv_fields HI'. split; try done. intros cl d e _ Hd Hin.
      destruct (decide (cl = client)) as [->|]; [|eapply Ifol; set_solver].
      rewrite Hlk' in Hd. apply bind_Some in Hd as (e0 & _ & He0).
      by apply drop_client_not_follower in He0.
    + intros d w. rewrite Hrev. split; [naive_solver|]. intros (e & Hd & Hr).
      exists e. by rewrite Hlk', Hd.
Qed.

(** ** workerGone *)

(** A worker changes in what its free count does not depend on. *)
Lemma FreeOk_same_val W m wks w wkr wkr' :
  wks !! w = Some wkr → Worker.systems wkr' = Worker.systems wkr → free_val wkr' = free_val wkr →
  FreeOk W m wks → FreeOk W m (<[w := wkr']> wks).
Proof.
  intros Hw Hs Hv HF. pose proof (FreeOk_worker W m wks w wkr wkr' Hw Hs HF) as [Hk' _ Hz'].
  split; [done| |done]. intros w0 wkr0 s Hw0 Hs0 HW.
  apply vlookup_insert_Some in Hw0 as [(<- & <- & _)|[_ Hw0]].
  - rewrite Hv. eapply fr_val; [done..| |done]. by rewrite <- Hs.
  - by eapply fr_val.
Qed.

Lemma count_up_le wks : (count_up wks ≤ length wks)%nat.
Proof. apply length_filter. Qed.

Lemma workersUp_small X W G c : Inv X W G c → (workersUp_ c < 2 ^ 32)%N.
Proof.
  intros HI. inv_fields HI. rewrite (wk_up _ _ _ Iwk).
  pose proof (count_up_le (workers c)). pose proof (wk_len _ _ _ Iwk).
  unfold vlen, noWorker in *. lia.
Qed.

(** The worker as [workerGone] leaves it. *)
Definition gone_worker (wkr : Worker.t) : Worker.t :=
  Worker.with_running [] (Worker.with_up false wkr).

(** The first half of [workerGone]: the worker is down and idle, and what it ran
    is in transition. *)
Lemma worker_down_inv c wid wkr m u :
  inv c → workers c !! wid = Some wkr →
  (u + (if Worker.up wkr then 1 else 0) = workersUp_ c)%N →
  sys_step (systems c) m Q_id (F_set (Worker.systems wkr) wid 0%Z) →
  Inv (list_to_set (Worker.running wkr)) ∅ ∅
    (with_workers (<[wid := gone_worker wkr]> (workers c)) (with_systems m (with_workersUp u c))).
Proof.
  intros HI Hw Hu (Hm & Hqv & Hfk). inv_fields HI.
  pose proof (vlookup_lt_Some _ _ _ Hw) as Hlt.
  assert (∀ w d, d ∈ run (<[wid := gone_worker wkr]> (workers c)) w ↔
    d ∈ run (workers c) w ∧ w ≠ wid) as Hrun.
  { intros w d. rewrite run_insert by done. case_decide; [|naive_solver].
    split; [by intros ?%not_elem_of_nil|naive_solver]. }
  assert (run (workers c) wid = Worker.running wkr) as Hr by (unfold run; by rewrite Hw).
  split; simpl; try done.
  - destruct Ipl as [Hq Hr' Hn Hp]. split.
    + intros s d. rewrite Hqv. intros (e & ? & ? & He)%Hq. exists e. naive_solver set_solver.
    + intros w d [Hd _]%Hrun. by apply Hr'.
    + intros w. rewrite run_insert by done. case_decide; [constructor|apply Hn].
    + intros d e Hd HX. specialize (Hp d e Hd ltac:(set_solver)). unfold placed in *.
      case_decide; [by rewrite Hqv|]. apply Hrun. split; [done|]. intros Heq.
      rewrite Heq, Hr in Hp. by apply HX, elem_of_list_to_set.
  - intros s d k e. rewrite Hqv. intros Hk He _. eapply Ikey; set_solver.
  - unfold gone_worker. rewrite <- (vinsert_insert (workers c) wid _ (Worker.with_up false wkr)).
    eapply (FreeOk_same_val _ _ _ wid (Worker.with_up false wkr)); [|done|done|].
    { by apply vlookup_insert_eq. }
    eapply (FreeOk_refresh ∅ (systems c)); [by apply vlookup_insert_eq|exact Hfk|].
    by eapply FreeOk_worker.
  - eapply WorkersOk_upd; [done|done| | |done]; [|simpl; lia].
    destruct (wk_ok _ _ _ Iwk wid wkr Hw). by split.
Qed.

Definition gone_entry (wid : N) (e : Entry.t) : option Entry.t :=
  if decide (Entry.worker e = wid) then
    if decide (Entry.followers e = []) then None else Some (Entry.with_worker noWorker e)
  else Some e.

Definition requeue_upto (wid : N) (c c1 : core) (rest : list N) (c2 : core) : Prop :=
  Inv (list_to_set rest) ∅ ∅ c2 ∧ NoDup rest ∧ workers c2 = workers c1 ∧ follows c2 = follows c ∧
  ∀ d, lk (entries c2) d =
    if decide (d ∈ rest) then lk (entries c) d else lk (entries c) d ≫= gone_entry wid.

(** What a worker runs is exactly what its entries say. *)
Lemma running_entry c wid wkr d :
  inv c → workers c !! wid = Some wkr →
  d ∈ Worker.running wkr ↔ ∃ e, lk (entries c) d = Some e ∧ Entry.worker e = wid.
Proof.
  intros HI Hw. inv_fields HI. assert (run (workers c) wid = Worker.running wkr) as Hr.
  { unfold run. by rewrite Hw. }
  split; [rewrite <- Hr; apply (pl_run _ _ _ _ Ipl)|].
  intros (e & Hd & He). pose proof (pl_placed _ _ _ _ Ipl d e Hd ltac:(set_solver)) as Hp.
  unfold placed in Hp. rewrite decide_False in Hp.
  - by rewrite He, Hr in Hp.
  - rewrite He. pose proof (WorkersOk_lt _ _ _ _ _ Iwk Hw). lia.
Qed.

Lemma requeue_step wid c c1 wkr d rest c2 :
  inv c → workers c !! wid = Some wkr → d ∈ Worker.running wkr →
  run (workers c1) wid = [] → requeue_upto wid c c1 (d :: rest) c2 →
  wp (upd_entry d (Entry.with_worker noWorker);; requeue_or_retire d)
    (λ _, requeue_upto wid c c1 rest) c2.
Proof.
  intros HI Hw Hd Hidle (HI2 & Hnd & Hwk & Hfol & Hlk).
  apply NoDup_cons in Hnd as [Hno Hnd].
  apply (running_entry _ _ _ _ HI Hw) in Hd as (e & Hd & He).
  assert (lk (entries c2) d = Some e) as Hd2 by (rewrite Hlk, decide_True; [done|set_solver]).
  apply wp_bind. eapply wp_upd_entry; [done|].
  eapply wp_mono; [eapply (requeue_or_retire_inv (list_to_set (d :: rest)) ∅ ∅ _ d)|].
  - apply Inv_set_worker; [done..|set_solver|]. intros w Hr. pose proof Hr as Hr'.
    apply (pl_run _ _ _ _ (inv_place _ _ _ _ HI2)) in Hr as (e' & ? & <-). simplify_eq.
    rewrite Hwk, Hidle in Hr'. by apply not_elem_of_nil in Hr'.
  - by lk_simpl.
  - done.
  - intros _ c3 (HI3 & Hwk3 & Hfol3 & _ & Hlk3). split_and!; [|done|by rewrite Hwk3|by rewrite Hfol3|].
    + eapply Inv_weaken; [..|exact HI3]; [|done..]. set_solver.
    + intros d'. rewrite Hlk3. lk_simpl. rewrite Hlk. unfold gone_entry.
      destruct (decide (d' = d)) as [->|Hne].
      * rewrite (decide_False (P := d ∈ rest)) by done. rewrite Hd. simpl.
        rewrite (decide_True (P := Entry.worker e = wid)) by done. repeat case_decide; naive_solver.
      * rewrite decide_False by naive_solver. repeat case_decide; set_solver.
Qed.

Lemma workerGone_spec wid wkr c :
  inv c → workers c !! wid = Some wkr →
  wp (workerGone wid) (λ _ c', inv c' ∧ follows c' = follows c ∧
    workers c' = <[wid := gone_worker wkr]> (workers c) ∧
    ∀ d, lk (entries c') d = (lk (entries c) d ≫= gone_entry wid)) c.
Proof.
  intros HI Hw. pose proof (vlookup_lt_Some _ _ _ Hw) as Hlt. inv_fields HI.
  set (u := if Worker.up wkr then (workersUp_ c - 1)%N else workersUp_ c).
  assert (u + (if Worker.up wkr then 1 else 0) = workersUp_ c)%N as Hu.
  { subst u. destruct (Worker.up wkr) eqn:Hup; [|lia].
    pose proof (count_up_insert (workers c) wid wkr (Worker.with_up false wkr) Hw) as Hc.
    rewrite Hup in Hc. simpl in Hc. rewrite (wk_up _ _ _ Iwk). lia. }
  unfold workerGone. apply wp_bind. eapply wp_at; [done|]. apply wp_bind.
  apply wp_mono with (λ _ c', c' = with_workersUp u c).
  { subst u. destruct (Worker.up wkr); wp_steps; [|by destruct c]. f_equal.
    pose proof (workersUp_small _ _ _ _ HI). unfold u64.
    replace (workersUp_ c + (2 ^ 64 - 1))%N with (workersUp_ c - 1 + 1 * 2 ^ 64)%N by lia.
    rewrite N.Div0.mod_add. apply N.mod_small. lia. }
  intros [] ? ->. apply wp_bind. eapply (wp_upd_worker wid _ wkr); [done|]. apply wp_bind.
  eapply wp_mono; [eapply (refreshFree_spec wid (Worker.with_up false wkr)); [done|by apply vlookup_insert_eq|]|].
  { intros s Hs. by eapply (fr_known _ _ _ Ifr). }
  intros [] c1 (m & -> & Hm). apply wp_bind. eapply (wp_at _ _ (Worker.with_up false wkr)).
  { by apply vlookup_insert_eq. }
  apply wp_bind. eapply (wp_upd_worker wid _ (Worker.with_up false wkr)).
  { by apply vlookup_insert_eq. }
  pose proof (worker_down_inv c wid wkr m u HI Hw Hu Hm) as HI1.
  set (c1 := with_workers _ (with_systems m (with_workersUp u c))) in HI1.
  assert (with_workers (<[wid := gone_worker wkr]> (<[wid := Worker.with_up false wkr]> (workers c)))
    (with_systems m (with_workers (<[wid := Worker.with_up false wkr]> (workers c))
      (with_workersUp u c))) = c1) as Hc1.
  { subst c1. unfold with_workers. simpl. f_equal. apply vinsert_insert. }
  simpl. unfold gone_worker in Hc1. rewrite Hc1.
  eapply wp_mono; [apply (wp_forM _ (λ rest c2, requeue_upto wid c c1 rest c2 ∧
    ∀ d, d ∈ rest → d ∈ Worker.running wkr))|].
  - split; [|done]. split_and!; [done| |done|done|].
    + pose proof (pl_nodup _ _ _ _ Ipl wid) as Hn. unfold run in Hn. by rewrite Hw in Hn.
    + intros d. case_decide as Hd; [done|]. change (entries c1) with (entries c).
      destruct (lk (entries c) d) as [e|] eqn:He; [|done]. simpl. unfold gone_entry.
      rewrite decide_False; [done|]. intros Hwe. apply Hd.
      apply (running_entry c wid wkr d HI Hw). eauto.
  - intros d rest c2 [H2 Hrest]. pose proof H2 as (HI2 & _ & _ & _ & Hlk).
    assert (d ∈ Worker.running wkr) as Hd by (apply Hrest; set_solver).
    pose proof (proj1 (running_entry c wid wkr d HI Hw) Hd) as (e & He & Hwe).
    assert (lk (entries c2) d = Some e) as Hd2 by (rewrite Hlk, decide_True; [done|set_solver]).
    wp_steps. destruct (N.leb_spec (vlen (entries c2)) d) as [Hge|_].
    { apply lk_lt in Hd2. lia. }
    apply wp_bind. eapply wp_at; [by apply lk_Some|]. cbn beta iota. rewrite Hwe, N.eqb_refl. simpl.
    eapply wp_mono; [eapply requeue_step; [done..| |done]|].
    + subst c1. simpl. rewrite run_insert by done. by rewrite decide_True.
    + intros [] c3 H3. split; [done|set_solver].
  - intros [] c' [(HI' & _ & Hwk & Hf & Hlk) _]. split_and!; [done..|].
    intros d. rewrite Hlk, decide_False; [done|]. apply not_elem_of_nil.
Qed.

(** ** want *)

Definition add_follower (client : N) (e : Entry.t) : Entry.t :=
  if decide (client ∈ Entry.followers e) then e
  else Entry.with_followers (Entry.followers e ++ [client]) e.

Definition follow_entry (client : N) (cp : double) (e : Entry.t) : Entry.t :=
  Entry.with_cpHint (dmax (Entry.cpHint e) cp) (add_follower client e).

Definition assignment (e : Entry.t) : option (N * N) :=
  if decide (Entry.worker e = noWorker) then None else Some (Entry.worker e, Entry.assignId e).

Lemma Inv_follow X c d e client :
  Inv X ∅ ∅ c → lk (entries c) d = Some e → Entry.system e ≠ EmptyString →
  client ∉ Entry.followers e → (d ∈ X ∨ Entry.worker e ≠ noWorker) →
  Inv X ∅ ∅ (with_follows (<[client := default [] (follows c !! client) ++ [d]]> (follows c))
    (with_entries (<[d := Some (Entry.with_followers (Entry.followers e ++ [client]) e)]>
      (entries c)) c)).
Proof.
  intros HI Hd Hs Hno Hor. inv_fields HI. pose proof (lk_lt _ _ _ Hd) as Hlt.
  destruct (Ient d e Hd) as (Hn & _ & Hcp & Ha). split; simpl; try done.
  - by eapply Tables_entry.
  - apply EntriesOk_insert; [done| |done]. split_and!; simpl; [|done..].
    apply NoDup_app. split_and!; [done|set_solver|apply NoDup_singleton].
  - eapply Place_entry; [done..| |done]. left. simpl. by destruct (Entry.followers e).
  - eapply Keys_entry; naive_solver.
  - intros cl d' e' HG. rewrite lk_insert by done. case_decide as Hdd.
    + intros [= <-]. subst d'. simpl. rewrite elem_of_app, list_elem_of_singleton.
      intros [Hin| ->]; [|by rewrite lookup_insert_eq; set_solver].
      pose proof (Ifol cl d e HG Hd Hin) as Hin'. destruct (decide (cl = client)) as [->|].
      * rewrite lookup_insert_eq. set_solver.
      * by rewrite lookup_insert_ne.
    + intros He' Hin. pose proof (Ifol cl d' e' HG He' Hin) as Hin'.
      destruct (decide (cl = client)) as [->|].
      * rewrite lookup_insert_eq. set_solver.
      * by rewrite lookup_insert_ne.
Qed.

Lemma add_follower_keeps client e :
  Entry.drvPath (add_follower client e) = Entry.drvPath e ∧
  Entry.system (add_follower client e) = Entry.system e ∧
  Entry.worker (add_follower client e) = Entry.worker e ∧
  Entry.assignId (add_follower client e) = Entry.assignId e ∧
  Entry.cpHint (add_follower client e) = Entry.cpHint e ∧
  client ∈ Entry.followers (add_follower client e).
Proof. unfold add_follower. case_decide; simpl; set_solver. Qed.

Lemma want_follow_spec X client d cp e c :
  Inv X ∅ ∅ c → X ⊆ {[d]} → lk (entries c) d = Some e → Entry.system e ≠ EmptyString →
  (d ∈ X → Entry.worker e = noWorker) → nonneg cp = true →
  wp (want_follow client d cp) (λ r c', inv c' ∧ workers c' = workers c ∧ drvIds c' = drvIds c ∧
    r = (d, assignment e) ∧
    ∀ d', lk (entries c') d' =
      if decide (d' = d) then Some (follow_entry client cp e) else lk (entries c) d') c.
Proof.
  intros HI0 HX0 Hd Hs HdX Hcp. set (Y := if decide (Entry.worker e = noWorker) then {[d]} else X).
  assert (Inv Y ∅ ∅ c) as HI by (subst Y; case_decide; [by eapply Inv_weaken|done]).
  assert (Y ⊆ {[d]}) as HX by (subst Y; by case_decide).
  assert (d ∈ Y ∨ Entry.worker e ≠ noWorker) as Hor by (subst Y; case_decide; set_solver).
  assert (Entry.worker e ≠ noWorker → Y = ∅) as HYe by (subst Y; case_decide; set_solver).
  clearbody Y. clear X HI0 HX0 HdX. unfold want_follow. apply wp_bind.
  eapply wp_entry_ref; [done|]. apply wp_bind.
  destruct (add_follower_keeps client e) as (Kp & Ks & Kw & Ka & Kc & Kin).
  apply wp_mono with (λ _ c', Inv Y ∅ ∅ c' ∧ workers c' = workers c ∧ drvIds c' = drvIds c ∧
    cfg c' = cfg c ∧
    ∀ d', lk (entries c') d' =
      if decide (d' = d) then Some (add_follower client e) else lk (entries c) d').
  { unfold add_follower. destruct (bool_decide_reflect (client ∈ Entry.followers e)) as [Hin|Hin].
    - wp_steps. rewrite decide_True by done. split_and!; [done..|]. intros d'. case_decide; by subst.
    - apply wp_bind. eapply wp_upd_entry; [done|]. wp_steps. rewrite decide_False by done.
      split_and!; [exact (Inv_follow Y c d e client HI Hd Hs Hin Hor)|done..|]. intros d'. by lk_simpl. }
  intros [] c1 (HI1 & Hw1 & Hi1 & Hc1 & Hlk1).
  assert (lk (entries c1) d = Some (add_follower client e)) as Hd1
    by (rewrite Hlk1; by rewrite decide_True).
  apply wp_bind. eapply wp_upd_entry; [done|]. rewrite Kc. apply wp_bind.
  set (e2 := Entry.with_cpHint _ _). set (c2 := with_entries _ c1).
  assert (lk (entries c2) d = Some e2) as Hd2 by (subst c2; by lk_simpl).
  assert (Inv Y ∅ ∅ c2) as HI2.
  { inv_fields HI1. destruct (Ient d _ Hd1) as (Hn & Hf & Hcpe & Ha). rewrite Kc in Hcpe.
    eapply Inv_entry; try done; [|tauto|rewrite Kw; tauto].
    split_and!; [done..|by apply dmax_nonneg|done]. }
  assert (∀ d', lk (entries c2) d' = if decide (d' = d) then Some e2 else lk (entries c) d') as Hlk2.
  { intros d'. subst c2. lk_simpl. case_decide; [done|]. by rewrite Hlk1, decide_False. }
  eapply wp_entry_ref; [done|]. unfold assignment. subst e2. simpl. rewrite Kw, Ka.
  destruct (N.eqb_spec (Entry.worker e) noWorker) as [Hw|Hw]; simpl.
  - apply wp_bind. rewrite decide_True by done. eapply wp_mono; [eapply enqueue_inv; [done..| |]|].
    + simpl. by rewrite Kw.
    + simpl. intros Hnil. rewrite Hnil in Kin. by apply not_elem_of_nil in Kin.
    + intros [] c3 [HI3 [m ->]]. wp_steps. split_and!; [|done..].
      eapply Inv_weaken; [..|exact HI3]; set_solver.
  - wp_steps. rewrite decide_False by done. split_and!; [|done..].
    by rewrite (HYe Hw) in HI2.
Qed.

(** The entry a Want finds or makes, before the client follows it. *)
Definition want_entry (info : WantInfo) (nowMs : double) (o : option Entry.t) : Entry.t :=
  match o with
  | None => Entry.mk (wi_drvPath info) (PathKey <$> wi_inputs info) (wi_system info)
      (wi_features info) [] noWorker 0 nowMs (double_of_Z 0) false noWorker
  | Some e => if decide (Entry.system e = EmptyString)
              then Entry.with_system_features (wi_system info) (wi_features info) e else e
  end.

(** What the dispatcher guarantees about a Want. *)
Definition want_ok (info : WantInfo) (nowMs : double) (c : core) : Prop :=
  wi_system info ≠ EmptyString ∧ nonneg (wi_cpHintMs info) = true ∧
  is_finite (dmul (Config.ageWeight (cfg c)) nowMs) = true.

(** An entry known only from a Hello is placed, so it may get its system. *)
Lemma Inv_system W G c d e s fs :
  Inv ∅ W G c → lk (entries c) d = Some e → Entry.system e = EmptyString →
  Entry.worker e ≠ noWorker ∧
  Inv ∅ W G (with_entries (<[d := Some (Entry.with_system_features s fs e)]> (entries c)) c).
Proof.
  intros HI Hd Hs. inv_fields HI. pose proof (lk_lt _ _ _ Hd) as Hlt.
  destruct (Ient d e Hd) as (Hn & Hf & Hcp & Ha).
  assert (Entry.followers e = []) as Hnil.
  { destruct (Entry.followers e); [done|]. by destruct Hf. }
  pose proof (pl_placed _ _ _ _ Ipl d e Hd ltac:(set_solver)) as Hp. unfold placed in Hp.
  case_decide as Hw; [by destruct Hp|]. split; [done|]. split; simpl; try done.
  - by eapply Tables_entry.
  - apply EntriesOk_insert; [done| |done]. split_and!; simpl; [done|by rewrite Hnil|done..].
  - eapply (Place_change ∅ ∅ d); [done|done|..]; try done; try apply Ipl.
    + intros d' Hne. by rewrite lk_insert, decide_False.
    + intros s' (e' & ? & ? & He')%(pl_queue _ _ _ _ Ipl). simplify_eq. naive_solver set_solver.
    + intros w (e' & ? & ?)%(pl_run _ _ _ _ Ipl). simplify_eq.
      exists (Entry.with_system_features s fs e). by rewrite lk_insert, decide_True.
    + intros e'. rewrite lk_insert, decide_True by done. intros [= <-] _. unfold placed. simpl.
      by rewrite decide_False.
  - eapply Keys_entry; naive_solver.
  - by eapply FollowsOk_entry.
Qed.

Lemma want_spec client info nowMs c :
  inv c → want_ok info nowMs c →
  is_Some (drvIds c !! PathKey (wi_drvPath info)) ∨ has_room c →
  wp (want client info nowMs) (λ r c', inv c' ∧ workers c' = workers c ∧
    ∃ d e, findDrv (wi_drvPath info) c' = Some d ∧ e = want_entry info nowMs (lk (entries c) d) ∧
      r = (d, assignment e) ∧
      ∀ d', lk (entries c') d' =
        if decide (d' = d) then Some (follow_entry client (wi_cpHintMs info) e)
        else lk (entries c) d') c.
Proof.
  intros HI (Hs & Hcp & Ha) Hroom. inv_fields HI. unfold want. apply wp_bind.
  eapply wp_mono; [by apply drvId_spec|].
  intros d c1 [(-> & e & Hd & Hpath)|Hfresh]; apply wp_bind.
  - eapply wp_at; [by apply lk_Some|]. cbn beta iota. apply wp_bind.
    assert (findDrv (wi_drvPath info) c = Some d) as Hf by (apply (tab_ids _ _ _ Itab); eauto).
    destruct (bool_decide_reflect (Entry.system e = EmptyString)) as [He|He].
    + destruct (Inv_system _ _ _ _ _ (wi_system info) (wi_features info) HI Hd He) as [Hw HI'].
      eapply wp_upd_entry; [done|].
      eapply wp_mono; [eapply (want_follow_spec ∅); [done|set_solver|by lk_simpl|done|set_solver|done]|].
      intros r c' (HI2 & Hwk & Hids & Hr & Hlk). split_and!; [done..|].
      exists d, (want_entry info nowMs (lk (entries c) d)). simpl. rewrite Hd. simpl.
      rewrite decide_True by done. unfold findDrv in *. rewrite Hids. split_and!; [done..|].
      intros d'. rewrite Hlk. lk_simpl. by case_decide.
    + wp_steps. eapply wp_mono; [eapply (want_follow_spec ∅); [done|set_solver|done..|set_solver|done]|].
      intros r c' (HI2 & Hwk & Hids & Hr & Hlk). split_and!; [done..|].
      exists d, (want_entry info nowMs (lk (entries c) d)). simpl. rewrite Hd. simpl.
      rewrite decide_False by done. unfold findDrv in *. by rewrite Hids.
  - destruct (fresh_slot_inv ∅ ∅ _ _ _ _ (want_entry info nowMs None) HI Hfresh) as [Hlt HI'];
      [done|done|split_and!; [constructor|done..]|].
    destruct Hfresh as (Hk & Hno & ents & frees & -> & Hd & Hlk1 & _).
    eapply wp_at; [done|]. cbn beta iota. apply wp_bind, wp_set_at; [done|].
    eapply wp_mono; [eapply (want_follow_spec {[d]} _ d _ (want_entry info nowMs None)); [exact HI'|done| |done|done|done]|].
    { simpl in *. by rewrite lk_insert, decide_True. }
    intros r c' (HI2 & Hwk & Hids & Hr & Hlk). split_and!; [done..|].
    exists d, (want_entry info nowMs None). unfold findDrv. rewrite Hids, Hno. simpl.
    rewrite lookup_insert_eq. split_and!; [done..|]. intros d'. rewrite Hlk. simpl in *.
    rewrite lk_insert by done. case_decide; [done|]. by rewrite Hlk1.
Qed.

(** With the table full, a Want for a new derivation is refused and nothing
    changes. *)
Lemma want_full client info nowMs c :
  drvIds c !! PathKey (wi_drvPath info) = None → freeIds c = [] →
  (maxEntries ≤ vlen (entries c))%N →
  want client info nowMs c = (c, Throw (NixError "scheduler: derivation table full")).
Proof.
  intros Hk Hf Hl. unfold want, mbind, M_bind. by rewrite drvId_full.
Qed.
