(* ===== verification/SchedHello.v ===== *)
(** * The scheduler's placement core: a worker says Hello

    [Core::hello] and [Core::workerId]: the worker is (re)registered, what it
    reports as running is believed, and what that takes away from other workers
    or from the queue is reported to the caller. *)

From S2P Require Import Prelude Double PathKey Heap Free Sched SchedInv SchedOps.

(** ** workerId *)

Definition new_worker (addr : string) : Worker.t := Worker.mk addr [] [] 0 false false [].

Lemma run_snoc wks addr w : run (wks ++ [new_worker addr]) w = run wks w.
Proof.
  unfold run. destruct (wks !! w) as [wkr|] eqn:Hw.
  - by rewrite vlookup_app_l, Hw by (by eapply vlookup_lt_Some).
  - destruct ((wks ++ [new_worker addr]) !! w) as [wkr|] eqn:Hw'; [|done].
    apply vlookup_snoc_Some in Hw' as [?|[_ <-]]; [congruence|done].
Qed.

Lemma Inv_new_worker c addr :
  inv c → workerIds c !! addr = None → (vlen (workers c) < noWorker)%N →
  inv (with_workerIds (<[addr := vlen (workers c)]> (workerIds c))
         (with_workers (workers c ++ [new_worker addr]) c)).
Proof.
  intros HI Hno Hlt. inv_fields HI. split; simpl; try done.
  - eapply Place_workers; [|done]. intros w. apply run_snoc.
  - destruct Ifr as [Hk Hv Hz]. split.
    + intros w wkr s [Hw|[-> <-]]%vlookup_snoc_Some Hs; [by eapply Hk|].
      by apply not_elem_of_nil in Hs.
    + intros w wkr s [Hw|[-> <-]]%vlookup_snoc_Some Hs HW; [by eapply Hv|].
      by apply not_elem_of_nil in Hs.
    + intros s w v [?|(wkr & Hw & Hs)]%Hz; [by left|right]. exists wkr.
      split; [|done]. rewrite vlookup_app_l; [done|by eapply vlookup_lt_Some].
  - destruct Iwk as [Hl Hi Ho Hu]. split.
    + rewrite vlen_app. unfold vlen at 2. simpl. lia.
    + intros a w. rewrite lookup_insert_Some, Hi. setoid_rewrite vlookup_snoc_Some. split.
      * intros [[<- <-]|(_ & wkr & Hw & Ha)]; [exists (new_worker addr)|exists wkr]; auto.
      * intros (wkr & [Hw|[-> <-]] & Ha); [right|by left]. split; [|by exists wkr].
        intros ->. assert (workerIds c !! a = Some w) by (apply Hi; eauto). congruence.
    + intros w wkr [Hw|[_ <-]]%vlookup_snoc_Some; [by eapply Ho|].
      split; [|done]. simpl. unfold FreeIndex.maxSlots. lia.
    + rewrite Hu. unfold count_up. by rewrite filter_app, length_app, Nat.add_0_r.
Qed.

(** The id stands for the address from now on. *)
Lemma workerId_spec addr c :
  inv c → is_Some (workerIds c !! addr) ∨ (vlen (workers c) < noWorker)%N →
  wp (workerId addr) (λ w c', inv c' ∧
    (∃ wkr, workers c' !! w = Some wkr ∧ Worker.addr wkr = addr) ∧
    (∀ w0 wkr, workers c !! w0 = Some wkr → workers c' !! w0 = Some wkr) ∧
    (∀ w0 wkr, workers c' !! w0 = Some wkr →
       workers c !! w0 = Some wkr ∨ (w0 = w ∧ wkr = new_worker addr)) ∧
    entries c' = entries c ∧ follows c' = follows c ∧ drvIds c' = drvIds c) c.
Proof.
  intros HI Hroom. inv_fields HI. unfold workerId. wp_steps.
  destruct (workerIds c !! addr) as [w|] eqn:Ha.
  { wp_steps. split_and!; [done|by apply (wk_ids _ _ _ Iwk)|done|by left|done..]. }
  destruct Hroom as [[]|Hroom]; [done|]. wp_steps.
  rewrite u32_small by (unfold noWorker in *; lia).
  split_and!; [exact (Inv_new_worker c addr HI Ha Hroom)|..]; simpl; [| | |done..].
  - exists (new_worker addr). split; [apply vlookup_snoc_eq|done].
  - intros w0 wkr Hw. rewrite vlookup_app_l; [done|by eapply vlookup_lt_Some].
  - intros w0 wkr [?|[-> <-]]%vlookup_snoc_Some; [by left|by right].
Qed.

(** ** Registering the worker *)

Lemma hello_setup_inv c wid wkr wkr' m :
  inv c → workers c !! wid = Some wkr → Worker.up wkr = false →
  Worker.addr wkr' = Worker.addr wkr → Worker.up wkr' = true → Worker.running wkr' = [] →
  (0 ≤ Worker.maxJobs wkr' ≤ FreeIndex.maxSlots)%Z →
  sys_step (systems c) m Q_id (F_push (Worker.systems wkr') wid) →
  Inv ∅ {[wid]} ∅ (with_systems m (with_workersUp (workersUp_ c + 1)
    (with_workers (<[wid := wkr']> (workers c)) c))).
Proof.
  intros HI Hw Hup Ha Hup' Hr' Hj (Hm & Hqv & Hfk). inv_fields HI.
  pose proof (vlookup_lt_Some _ _ _ Hw) as Hlt.
  destruct (wk_ok _ _ _ Iwk wid wkr Hw) as [_ Hr]. specialize (Hr Hup).
  split; simpl; try done.
  - apply Place_systems with (systems c); [done|]. eapply Place_workers; [|done].
    intros w. rewrite run_insert by done. case_decide; [|done]. subst. unfold run.
    by rewrite Hw, Hr, Hr'.
  - by eapply Keys_systems.
  - destruct Ifr as [Hk Hv Hz]. unfold F_push in Hfk. split.
    + intros w wkr0 s [(<- & <- & _)|[Hne Hw0]]%vlookup_insert_Some Hs; rewrite Hfk.
      * by rewrite decide_True.
      * rewrite decide_False by naive_solver. by eapply Hk.
    + intros w wkr0 s [(<- & <- & _)|[Hne Hw0]]%vlookup_insert_Some Hs HW; [set_solver|].
      rewrite Hfk, decide_False by naive_solver. eapply Hv; set_solver.
    + intros s w v. rewrite Hfk. case_decide as Hc.
      * intros _. right. exists wkr'. destruct Hc as [-> ?]. by rewrite vlookup_insert_eq.
      * intros Hs. destruct (Hz s w v Hs) as [?|(wkr0 & Hw0 & Hs0)]; [by left|].
        destruct (decide (w = wid)) as [->|Hne].
        -- left. simplify_eq. assert (fk (systems c) s wid = Some (free_val wkr)) as Hval.
           { eapply Hv; [done..|set_solver]. }
           unfold free_val, Worker.takesWork in Hval. rewrite Hup in Hval. simpl in Hval. congruence.
        -- right. exists wkr0. by rewrite vlookup_insert_ne.
  - eapply WorkersOk_upd; [done|done|split; [done|congruence]| |done].
    rewrite Hup, Hup'. lia.
Qed.

(** ** One reported build *)

Definition hello_entry (wid aid : N) (path : string) (o : option Entry.t) : Entry.t :=
  Entry.with_assignId aid (Entry.with_worker wid
    (default (Entry.mk path [] EmptyString [] [] noWorker 0 (double_of_Z 0) (double_of_Z 0)
       false noWorker) o)).

(** Who has to be told: followers wait for it, or another worker has it. *)
Definition sup_of (wid d : N) (o : option Entry.t) : list (N * N) :=
  match o with
  | None => []
  | Some e =>
      if decide (Entry.worker e ≠ wid ∧ (Entry.worker e ≠ noWorker ∨ Entry.followers e ≠ []))
      then [(d, Entry.worker e)] else []
  end.

(** The worker is up and registered with what it offers. *)
Definition registered (wid : N) (info : HelloInfo) (c : core) : Prop :=
  ∃ wkr, workers c !! wid = Some wkr ∧ Worker.addr wkr = hi_addr info ∧
    Worker.up wkr = true ∧ Worker.draining wkr = false ∧
    Worker.systems wkr = hi_systems info ∧ Worker.features wkr = hi_features info ∧
    Worker.maxJobs wkr = Z.min (Z.of_N (hi_maxJobs info)) FreeIndex.maxSlots.

(** Add to a running list. *)
Definition addrun (w d : N) (wkr : Worker.t) (c : core) : core :=
  with_workers (<[w := Worker.with_running (Worker.running wkr ++ [d]) wkr]> (workers c)) c.

Lemma elem_of_run_addrun w d wkr c w' d' :
  workers c !! w = Some wkr →
  d' ∈ run (workers (addrun w d wkr c)) w' ↔ d' ∈ run (workers c) w' ∨ (w' = w ∧ d' = d).
Proof.
  intros Hw. unfold addrun. simpl. rewrite run_insert by (by eapply vlookup_lt_Some).
  case_decide as Hw'; [subst|naive_solver]. simpl. rewrite elem_of_app, list_elem_of_singleton.
  unfold run. rewrite Hw. naive_solver.
Qed.

(** A placed derivation that is in no queue starts to run: it is settled. *)
Lemma Inv_addrun X W G c d e w wkr :
  Inv X W G c → lk (entries c) d = Some e → Entry.worker e = w →
  workers c !! w = Some wkr → Worker.up wkr = true → d ∉ Worker.running wkr →
  (∀ s, qv (systems c) s !! d = None) →
  Inv (X ∖ {[d]}) (W ∪ {[w]}) G (addrun w d wkr c).
Proof.
  intros HI Hd He Hw Hup Hno Hq. inv_fields HI. pose proof (vlookup_lt_Some _ _ _ Hw) as Hlt.
  pose proof (WorkersOk_lt _ _ _ _ _ Iwk Hw).
  split; simpl; try done.
  - eapply (Place_change X _ d); [done|set_solver|..]; try done.
    + intros d' w' Hne. rewrite (elem_of_run_addrun w d wkr c w' d' Hw). naive_solver.
    + intros w'. rewrite run_insert by done. case_decide; [|apply Ipl]. simpl.
      apply NoDup_app. split_and!; [|set_solver|apply NoDup_singleton].
      pose proof (pl_nodup _ _ _ _ Ipl w) as Hn. unfold run in Hn. by rewrite Hw in Hn.
    + intros s. rewrite Hq. by intros [].
    + intros w' [Hr|[-> _]]%(elem_of_run_addrun w d wkr c w' d Hw); [by apply Ipl|eauto].
    + intros e' He' _. simplify_eq. unfold placed. rewrite decide_False by lia.
      apply (elem_of_run_addrun _ d wkr c _ d Hw). by right.
  - eapply (Keys_change X _ d); [done|set_solver|done|done|]. intros s k e'. by rewrite Hq.
  - by eapply FreeOk_worker.
  - eapply WorkersOk_upd; [done..| |done|done].
    destruct (wk_ok _ _ _ Iwk _ _ Hw) as [Hj _]. split; [done|simpl; congruence].
Qed.

(** Nothing about the workers changes but what they run. *)
Definition profile (wks : list Worker.t) (w : N) : option Worker.t := Worker.with_running [] <$> wks !! w.

Definition same_but_running (wks wks' : list Worker.t) : Prop := ∀ w, profile wks' w = profile wks w.

Lemma same_but_running_lookup wks wks' w wkr :
  same_but_running wks wks' → wks !! w = Some wkr → ∃ r, wks' !! w = Some (Worker.with_running r wkr).
Proof.
  intros Hs Hw. specialize (Hs w). unfold profile in Hs. rewrite Hw in Hs.
  destruct (wks' !! w) as [wkr'|]; [|done]. exists (Worker.running wkr'). f_equal.
  destruct wkr, wkr'. simpl in *. by injection Hs as -> -> -> -> -> ->.
Qed.

Lemma same_but_running_refl wks : same_but_running wks wks.
Proof. by intros w. Qed.

Lemma profile_insert wks w w' wkr :
  (w < vlen wks)%N →
  profile (<[w := wkr]> wks) w' = if decide (w' = w) then Some (Worker.with_running [] wkr) else profile wks w'.
Proof.
  intros Hw. unfold profile. case_decide as Hc; [subst|].
  - by rewrite vlookup_insert_eq.
  - by rewrite vlookup_insert_ne.
Qed.

Lemma same_but_running_insert wks w wkr r :
  wks !! w = Some wkr → same_but_running wks (<[w := Worker.with_running r wkr]> wks).
Proof.
  intros Hw w'. rewrite profile_insert by (by eapply vlookup_lt_Some). case_decide; [subst|done].
  unfold profile. by rewrite Hw.
Qed.

Lemma same_but_running_trans wks1 wks2 wks3 :
  same_but_running wks1 wks2 → same_but_running wks2 wks3 → same_but_running wks1 wks3.
Proof. intros H12 H23 w. by rewrite H23, H12. Qed.

(** In transition around [d]: it runs only where its entry says. *)
Definition runs_at (wks : list Worker.t) (d : N) (e : Entry.t) (wid : N) : Prop :=
  ∀ w, d ∈ run wks w ↔ w = wid ∧ Entry.worker e = wid.

Lemma hello_supersede_spec wid d e c :
  Inv {[d]} {[wid]} ∅ c → lk (entries c) d = Some e → (wid < noWorker)%N →
  (∀ w, d ∈ run (workers c) w ↔ w = Entry.worker e ∧ Entry.worker e ≠ noWorker) →
  wp (hello_supersede wid d e) (λ sup c', Inv {[d]} {[wid]} ∅ c' ∧
    sup = sup_of wid d (Some e) ∧ runs_at (workers c') d e wid ∧
    same_but_running (workers c) (workers c') ∧
    entries c' = entries c ∧ drvIds c' = drvIds c ∧ follows c' = follows c) c.
Proof.
  intros HI Hd Hwid Hrun. unfold hello_supersede, sup_of, runs_at.
  destruct (N.eqb_spec (Entry.worker e) noWorker) as [Hn|Hn]; simpl.
  { destruct (bool_decide_reflect (Entry.followers e = [])) as [Hf|Hf]; simpl; wp_steps;
      [rewrite decide_False by naive_solver|rewrite decide_True by (split; [lia|by right])];
      (split_and!; [done|by rewrite ?Hn| |apply same_but_running_refl|done..]);
      intros w; rewrite Hrun; intuition lia. }
  destruct (N.eqb_spec (Entry.worker e) wid) as [Hw|Hw]; simpl.
  { wp_steps. rewrite decide_False by naive_solver.
    split_and!; [done|done| |apply same_but_running_refl|done..]. intros w. rewrite Hrun. naive_solver. }
  rewrite decide_True by auto.
  assert (d ∈ run (workers c) (Entry.worker e)) as Hr by (by apply Hrun).
  destruct (workers c !! Entry.worker e) as [wkr|] eqn:Hwkr.
  2:{ unfold run in Hr. rewrite Hwkr in Hr. by apply not_elem_of_nil in Hr. }
  pose proof (vlookup_lt_Some _ _ _ Hwkr) as Hlt.
  apply wp_bind. eapply wp_upd_worker; [done|]. apply wp_bind.
  eapply wp_mono; [eapply (refreshFree_inv {[d]} {[wid]} ∅ (unrun (Entry.worker e) d wkr c))|].
  - eapply Inv_weaken; [..|by apply Inv_unrun]; set_solver.
  - by apply vlookup_insert_eq.
  - intros [] c' [HI' (m & -> & _)]. wp_steps.
    split_and!; [done|done| |by apply same_but_running_insert|done..].
    intros w. simpl. rewrite (elem_of_run_unrun _ d wkr c w d Hwkr), Hrun. naive_solver.
Qed.

(** The derivation is on the worker and settled. *)
Lemma hello_place_spec wid d aid e wkr c :
  Inv {[d]} {[wid]} ∅ c → lk (entries c) d = Some e → workers c !! wid = Some wkr →
  Worker.up wkr = true → runs_at (workers c) d e wid →
  wp (hello_place wid d aid) (λ _ c', Inv ∅ {[wid]} ∅ c' ∧
    same_but_running (workers c) (workers c') ∧ drvIds c' = drvIds c ∧ follows c' = follows c ∧
    ∀ d', lk (entries c') d' = if decide (d' = d)
      then Some (Entry.with_assignId aid (Entry.with_worker wid e)) else lk (entries c) d') c.
Proof.
  intros HI Hd Hw Hup Hrun. unfold hello_place.
  pose proof (lk_lt _ _ _ Hd) as Hlt. pose proof (vlookup_lt_Some _ _ _ Hw) as Hwlt.
  apply wp_bind. eapply wp_upd_entry; [done|].
  set (e1 := Entry.with_worker wid e). set (c1 := with_entries _ c).
  assert (Inv {[d]} {[wid]} ∅ c1) as HI1.
  { destruct (decide (Entry.worker e = wid)) as [He|He].
    - eapply Inv_entry; try done; [exact (inv_entries _ _ _ _ HI d e Hd)|tauto|left; set_solver].
    - apply Inv_set_worker; [done..|set_solver|]. intros w Hr%Hrun. naive_solver. }
  apply wp_bind. eapply (wp_upd_entry d _ e1); [by lk_simpl|].
  set (e2 := Entry.with_assignId aid e1). set (c2 := with_entries _ c1).
  assert (Inv {[d]} {[wid]} ∅ c2) as HI2.
  { eapply (Inv_entry _ _ _ _ d e1); try done; [by lk_simpl| |tauto|left; set_solver].
    exact (inv_entries _ _ _ _ HI d e Hd). }
  assert (∀ d', lk (entries c2) d' = if decide (d' = d) then Some e2 else lk (entries c) d') as Hlk.
  { intros d'. subst c2 c1. lk_simpl. by repeat case_decide. }
  assert (lk (entries c2) d = Some e2) as Hd2 by (by rewrite Hlk, decide_True).
  apply wp_bind. eapply wp_entry_ref; [done|]. apply wp_bind.
  eapply wp_mono; [by apply (erase_queue_inv _ _ _ _ _ e2 HI2)|].
  intros [] c3 (m & -> & HI3 & Hno & _). rewrite union_idemp_L in HI3.
  apply wp_bind. eapply wp_at; [exact Hw|].
  destruct (bool_decide_reflect (d ∈ Worker.running wkr)) as [Hin|Hin].
  - wp_steps. split_and!; [|apply same_but_running_refl|done..]. inv_fields HI3.
    split; try done.
    2:{ eapply (Keys_change {[d]} _ d); [exact Ikey|set_solver|done|done|]. intros s k e'. simpl. by rewrite Hno. }
    eapply (Place_change {[d]} ∅ d); [exact Ipl|set_solver|..]; try done; try apply Ipl.
    + intros s. simpl. rewrite Hno. by intros [].
    + intros w Hr. by apply (pl_run _ _ _ _ Ipl).
    + intros e' He' _. assert (e' = e2) as -> by (change (lk (entries c2) d = Some e') in He'; congruence). unfold placed, e2, e1. simpl.
      pose proof (WorkersOk_lt _ _ _ _ _ Iwk Hw). rewrite decide_False by lia.
      unfold run. by rewrite Hw.
  - eapply wp_upd_worker; [exact Hw|].
    split_and!; [|by apply same_but_running_insert|done..].
    eapply Inv_weaken; [..|eapply (Inv_addrun {[d]} {[wid]} ∅ (with_systems m c2) d e2 wid wkr)];
      [set_solver..|done| | | | | |]; done.
Qed.

Lemma Inv_fresh_default W c path d c1 :
  Inv ∅ W ∅ c → fresh_slot path d c c1 →
  (d < vlen (entries c1))%N ∧
  Inv {[d]} W ∅ (with_entries (<[d := Some (Entry.mk path [] EmptyString [] [] noWorker 0
    (double_of_Z 0) (double_of_Z 0) false noWorker)]> (entries c1)) c1).
Proof.
  intros HI Hf. eapply fresh_slot_inv; [done..|]. split_and!; simpl; [constructor|done|done|].
  destruct (inv_cfg _ _ _ _ HI) as [_ Ha]. by destruct (Config.ageWeight (cfg c)) as [[]| | |[] ? ?].
Qed.

Lemma hello_running_spec wid path aid wkr c :
  Inv ∅ {[wid]} ∅ c → workers c !! wid = Some wkr → Worker.up wkr = true →
  is_Some (drvIds c !! PathKey path) ∨ has_room c →
  wp (hello_running wid path aid) (λ sup c', Inv ∅ {[wid]} ∅ c' ∧
    same_but_running (workers c) (workers c') ∧ follows c' = follows c ∧
    (base.size (drvIds c') ≤ base.size (drvIds c) + 1)%nat ∧
    ∃ d, findDrv path c' = Some d ∧ sup = sup_of wid d (lk (entries c) d) ∧
      ∀ d', lk (entries c') d' = if decide (d' = d)
        then Some (hello_entry wid aid path (lk (entries c) d)) else lk (entries c) d') c.
Proof.
  intros HI Hw Hup Hroom. inv_fields HI. pose proof (WorkersOk_lt _ _ _ _ _ Iwk Hw) as Hwid.
  unfold hello_running. apply wp_bind. eapply wp_mono; [by apply drvId_spec|].
  intros d c0 Hslot. apply wp_bind.
  set (e0 := default (Entry.mk path [] EmptyString [] [] noWorker 0 (double_of_Z 0)
    (double_of_Z 0) false noWorker) (lk (entries c) d)).
  assert (∃ o, entries c0 !! d = Some o) as [o Ho].
  { destruct Hslot as [(-> & e & Hd%lk_Some & _)|(_ & _ & ents & frees & -> & Hd & _)]; eauto. }
  eapply wp_at; [done|]. apply wp_bind.
  apply wp_mono with (λ _ c1, Inv {[d]} {[wid]} ∅ c1 ∧ workers c1 = workers c ∧
    follows c1 = follows c ∧ drvIds c1 !! PathKey path = Some d ∧
    (base.size (drvIds c1) ≤ base.size (drvIds c) + 1)%nat ∧
    sup_of wid d (Some e0) = sup_of wid d (lk (entries c) d) ∧
    (∀ w, d ∈ run (workers c) w ↔ w = Entry.worker e0 ∧ Entry.worker e0 ≠ noWorker) ∧
    ∀ d', lk (entries c1) d' = if decide (d' = d) then Some e0 else lk (entries c) d').
  { destruct Hslot as [(-> & e & Hd & Hpath)|Hfresh].
    - apply lk_Some in Hd as Hd'. simplify_eq. wp_steps. subst e0. rewrite Hd. simpl.
      split_and!; [eapply Inv_weaken; [..|exact HI]; set_solver|done|done| |lia|done| |].
      + apply (tab_ids _ _ _ Itab). eauto.
      + intros w. split.
        * intros Hr. pose proof (elem_of_run_lt _ _ _ Hr). pose proof (wk_len _ _ _ Iwk).
          apply (pl_run _ _ _ _ Ipl) in Hr as (e' & ? & ?). simplify_eq. split; [done|lia].
        * intros [-> Hn]. pose proof (pl_placed _ _ _ _ Ipl d e Hd ltac:(set_solver)) as Hp.
          unfold placed in Hp. by rewrite decide_False in Hp.
      + intros d'. case_decide; by subst.
    - destruct (Inv_fresh_default _ _ _ _ _ HI Hfresh) as [Hlt HI1].
      destruct Hfresh as (Hk & Hno & ents & frees & -> & Hd & Hlk & _). simpl in Ho. simplify_eq.
      apply wp_set_at; [done|]. subst e0. rewrite Hno. simpl.
      split_and!; [exact HI1|done|done|by rewrite lookup_insert_eq| | | |].
      + rewrite map_size_insert_None by done. lia.
      + rewrite decide_False; [done|]. simpl. naive_solver.
      + intros w. split; [|naive_solver]. intros Hr.
        apply (pl_run _ _ _ _ Ipl) in Hr as (e' & ? & _). congruence.
      + intros d'. rewrite lk_insert by done. case_decide; [done|]. apply Hlk. }
  intros [] c1 (HI1 & Hw1 & Hf1 & Hk1 & Hsz1 & Hsup & Hrun & Hlk1).
  assert (lk (entries c1) d = Some e0) as Hd1 by (by rewrite Hlk1, decide_True).
  apply wp_bind. eapply wp_entry_ref; [done|]. apply wp_bind.
  eapply wp_mono; [eapply hello_supersede_spec; [done..|by rewrite Hw1]|].
  intros sup c2 (HI2 & -> & Hrun2 & Hsame2 & He2 & Hk2 & Hf2). apply wp_bind.
  rewrite Hw1 in Hsame2. destruct (same_but_running_lookup _ _ wid wkr Hsame2 Hw) as [r Hwr].
  eapply wp_mono; [eapply (hello_place_spec wid d aid e0); [done|by rewrite He2|done..]|].
  intros [] c3 (HI3 & Hsame3 & Hk3 & Hf3 & Hlk3). wp_steps.
  split_and!; [done|by eapply same_but_running_trans|congruence|congruence|].
  exists d. unfold findDrv. split_and!; [congruence|done|]. intros d'. rewrite Hlk3, He2.
  case_decide; [done|]. by rewrite Hlk1, decide_False.
Qed.

Lemma Tables_size_le ents ids frees ents' ids' frees' :
  Tables ents ids frees → Tables ents' ids' frees' →
  (∀ d, is_Some (lk ents' d) → is_Some (lk ents d)) →
  (base.size ids' ≤ base.size ids)%nat.
Proof.
  intros [_ Hi _ _] [_ Hi' _ _] Hsub.
  rewrite <- !length_map_to_list, <- !(length_fmap snd (map_to_list _)).
  apply submseteq_length, NoDup_submseteq.
  - apply NoDup_fmap_2_strong; [|apply NoDup_map_to_list].
    intros [k1 d1] [k2 d2] H1%elem_of_map_to_list H2%elem_of_map_to_list Heq. simpl in Heq. subst.
    apply Hi' in H1 as (e1 & ? & <-). apply Hi' in H2 as (e2 & ? & <-). congruence.
  - intros d ([k d'] & -> & Hk%elem_of_map_to_list)%list_elem_of_fmap. simpl.
    apply Hi' in Hk as (e' & He' & _). destruct (Hsub d') as [e He]; [eauto|].
    apply list_elem_of_fmap. exists (PathKey (Entry.drvPath e), d'). split; [done|].
    apply elem_of_map_to_list, Hi. eauto.
Qed.

(** ** hello *)

(** What a Hello of [wid] that lists [running] does to the entries, given as before
    ([g]) and after ([g']), with [sups] reported: an entry stays or moves to the
    worker under an assignment it listed, otherwise as it was, and it is reported
    if somebody has to be told. *)
Definition hello_moves (wid : N) (running : list (string * N)) (g g' : N → option Entry.t)
    (sups : list (N * N)) : Prop :=
  (∀ d, g' d = g d ∨ ∃ e', g' d = Some e' ∧ Entry.worker e' = wid ∧
     (∃ p, p ∈ running ∧ PathKey p.1 = PathKey (Entry.drvPath e') ∧ p.2 = Entry.assignId e') ∧
     match g d with
     | None => Entry.followers e' = []
     | Some e => e' = Entry.with_assignId (Entry.assignId e') (Entry.with_worker wid e) ∧
                 sup_of wid d (Some e) ⊆ sups
     end) ∧
  (∀ p, p ∈ sups → ∃ e e', g p.1 = Some e ∧ sup_of wid p.1 (Some e) = [p] ∧
     g' p.1 = Some e' ∧ Entry.worker e' = wid).

(** A reported path is on the worker. *)
Definition reported (wid : N) (c : core) (p : string) : Prop :=
  ∃ d e, findDrv p c = Some d ∧ lk (entries c) d = Some e ∧ Entry.worker e = wid.

Definition hello_upto (wid : N) (info : HelloInfo) (room : nat) (c1 : core) (wks : list Worker.t) (rest : list (string * N))
    (sups : list (N * N)) (c2 : core) : Prop :=
  Inv ∅ {[wid]} ∅ c2 ∧ registered wid info c2 ∧ same_but_running wks (workers c2) ∧ follows c2 = follows c1 ∧
  rest ⊆ hi_running info ∧
  (base.size (drvIds c2) + length rest ≤ room)%nat ∧
  (∀ p, p ∈ hi_running info → p ∈ rest ∨ reported wid c2 p.1) ∧
  hello_moves wid (hi_running info) (lk (entries c1)) (lk (entries c2)) sups.

Lemma sup_of_placed wid d e : Entry.worker e = wid → sup_of wid d (Some e) = [].
Proof. intros He. unfold sup_of. rewrite decide_False; naive_solver. Qed.

Lemma hello_moves_step wid aid path running g g1 g2 sups d :
  hello_moves wid running g g1 sups → (path, aid) ∈ running →
  (∀ e, g1 d = Some e → PathKey (Entry.drvPath e) = PathKey path) →
  (∀ d', g2 d' = if decide (d' = d) then Some (hello_entry wid aid path (g1 d)) else g1 d') →
  hello_moves wid running g g2 (sups ++ sup_of wid d (g1 d)).
Proof.
  intros [Hm Hs] Hin Hkey Hg2. split.
  - intros d'. rewrite Hg2. destruct (decide (d' = d)) as [->|Hne].
    + right. exists (hello_entry wid aid path (g1 d)). split_and!; [done|done| |].
      { exists (path, aid). split_and!; [done| |done]. destruct (g1 d) as [e1|]; [symmetry; by apply (Hkey e1)|done]. }
      destruct (Hm d) as [->|(e1 & -> & Hw1 & _ & He1)].
      * destruct (g d) as [e|]; [|done]. split; [done|set_solver].
      * destruct (g d) as [e|]; [|done]. destruct He1 as [-> ?]. split; [done|set_solver].
    + destruct (Hm d') as [->|(e1 & -> & Hw1 & Hp1 & He1)]; [by left|right]. exists e1.
      split_and!; [done..|]. destruct (g d'); [|done]. destruct He1. split; [done|set_solver].
  - intros p [Hp|Hp]%elem_of_app.
    + destruct (Hs p Hp) as (e & e' & ? & ? & Hg' & Hw'). exists e.
      rewrite Hg2. case_decide as Hc; [|eauto]. eexists. split_and!; [done..|]. done.
    + assert (p.1 = d) as Hpd.
      { destruct (g1 d) as [e|]; simpl in Hp; [|by apply not_elem_of_nil in Hp].
        case_decide; [|by apply not_elem_of_nil in Hp]. by apply list_elem_of_singleton in Hp as ->. }
      rewrite Hg2, decide_True by done. rewrite Hpd. destruct (Hm d) as [Hd|(e1 & Hd & Hw1 & _)].
      * rewrite Hd in Hp |- *. destruct (g d) as [e|]; [|by apply not_elem_of_nil in Hp].
        exists e. eexists. split_and!; [done| |done|done]. simpl in *. case_decide.
        -- by apply list_elem_of_singleton in Hp as ->.
        -- by apply not_elem_of_nil in Hp.
      * rewrite Hd, sup_of_placed in Hp by done. by apply not_elem_of_nil in Hp.
Qed.

Lemma registered_running wid info c c' :
  registered wid info c → same_but_running (workers c) (workers c') → registered wid info c'.
Proof.
  intros (wkr & Hw & Hr) Hs. destruct (same_but_running_lookup _ _ wid wkr Hs Hw) as [r Hw']. by eexists.
Qed.

Lemma hello_step wid info room c1 wks p rest sups c2 :
  (N.of_nat room ≤ maxEntries)%N → hello_upto wid info room c1 wks (p :: rest) sups c2 →
  wp (hello_running wid p.1 p.2) (λ s c3, hello_upto wid info room c1 wks rest (sups ++ s) c3) c2.
Proof.
  intros Hroom (HI & Hreg & Hwks & Hf & Hsub & Hsz & Hrep & Hm). pose proof Hreg as (wkr & Hw & _ & Hup & _).
  simpl in Hsz. eapply wp_mono; [eapply hello_running_spec; [done..|right; unfold has_room; lia]|].
  intros s c3 (HI3 & Hs3 & Hf3 & Hsz3 & d & Hd & -> & Hlk).
  assert (∀ e, lk (entries c2) d = Some e → PathKey (Entry.drvPath e) = PathKey p.1) as Hkey.
  { intros e He. assert (∃ e3, lk (entries c3) d = Some e3 ∧ Entry.drvPath e3 = Entry.drvPath e) as (e3 & He3 & <-).
    { eexists. rewrite Hlk, decide_True, He by done. done. }
    destruct (findDrv_entry _ _ _ _ _ _ HI3 Hd) as (e' & ? & Hk). by simplify_eq. }
  assert (p ∈ hi_running info) as Hp by set_solver.
  split_and!; [done|by eapply registered_running|by eapply same_but_running_trans|congruence|set_solver|lia| |].
  2:{ eapply hello_moves_step; [done| |done|done]. by destruct p. }
  intros q Hq. destruct (Hrep q Hq) as [Hin|(d' & e' & Hd' & He' & Hw')].
  - apply elem_of_cons in Hin as [->|Hin]; [right|by left].
    exists d. eexists. split_and!; [done|by rewrite Hlk, decide_True|done].
  - right. destruct (findDrv_entry _ _ _ _ _ _ HI Hd') as (e & He & Hk).
    assert (e = e') as -> by congruence.
    exists d'. assert (∃ e3, lk (entries c3) d' = Some e3 ∧ Entry.worker e3 = wid ∧
      Entry.drvPath e3 = Entry.drvPath e') as (e3 & He3 & Hw3 & Hp3).
    { rewrite Hlk. case_decide as Hc; [subst d'|by exists e']. eexists. split; [done|].
      by rewrite He. }
    exists e3. split_and!; [|done|done]. unfold findDrv. rewrite <- Hk, <- Hp3.
    apply (tab_ids _ _ _ (inv_tables _ _ _ _ HI3)). eauto.
Qed.

Lemma hello_register_spec wid info wkr c :
  inv c → workers c !! wid = Some wkr → Worker.up wkr = false → Worker.addr wkr = hi_addr info →
  wp (hello_register wid info) (λ _ c', Inv ∅ {[wid]} ∅ c' ∧ registered wid info c' ∧
    (∀ w, w ≠ wid → profile (workers c') w = profile (workers c) w) ∧
    entries c' = entries c ∧ drvIds c' = drvIds c ∧ follows c' = follows c) c.
Proof.
  intros HI Hw Hup Ha. inv_fields HI. pose proof (vlookup_lt_Some _ _ _ Hw) as Hlt.
  assert (∀ x, <[wid := x]> (workers c) !! wid = Some x) as Hlk by (intros; by apply vlookup_insert_eq).
  assert (u64 (workersUp_ c + 1) = workersUp_ c + 1)%N as Hu.
  { pose proof (workersUp_small _ _ _ _ HI). apply N.mod_small. lia. }
  unfold hello_register. apply wp_bind. eapply wp_upd_worker; [done|]. wp_steps. simpl. rewrite Hu.
  eapply wp_upd_worker; [apply Hlk|]. simpl. rewrite vinsert_insert. apply wp_bind.
  eapply wp_upd_worker; [apply Hlk|]. simpl. rewrite vinsert_insert. apply wp_bind.
  eapply wp_mono; [apply push_all_spec; [done|by eapply WorkersOk_lt]|].
  intros [] c1 (m & -> & Hm). apply wp_bind.
  eapply wp_upd_worker; [apply Hlk|]. simpl. rewrite vinsert_insert.
  eapply wp_upd_worker; [apply Hlk|]. simpl. rewrite vinsert_insert.
  set (wkr' := Worker.with_maxJobs _ _).
  split_and!; [|exists wkr'; split; [apply Hlk|done]| |done..].
  2:{ intros w Hne. simpl. rewrite profile_insert by done. by rewrite decide_False. }
  assert (Worker.running wkr = []) by (by apply (wk_ok _ _ _ Iwk wid wkr Hw)).
  eapply (hello_setup_inv c wid wkr wkr' m); try done. simpl. unfold FreeIndex.maxSlots. lia.
Qed.

Definition hello_ok (info : HelloInfo) (c : core) : Prop :=
  hi_addr info ≠ EmptyString ∧
  (is_Some (workerIds c !! hi_addr info) ∨ (vlen (workers c) < noWorker)%N) ∧
  (N.of_nat (base.size (drvIds c) + length (hi_running info)) ≤ maxEntries)%N.

(** Before it registers, the worker is down: what it ran earlier is queued again
    or dropped. *)
Lemma hello_reset_spec wid wkr c :
  inv c → workers c !! wid = Some wkr →
  wp (if Worker.up wkr then workerGone wid else mret tt) (λ _ c', inv c' ∧
    (∃ wkr', workers c' !! wid = Some wkr' ∧ Worker.up wkr' = false ∧
       Worker.addr wkr' = Worker.addr wkr) ∧
    (∀ w, w ≠ wid → profile (workers c') w = profile (workers c) w) ∧
    (base.size (drvIds c') ≤ base.size (drvIds c))%nat ∧
    follows c' = follows c ∧ ∀ d, lk (entries c') d = (lk (entries c) d ≫= gone_entry wid)) c.
Proof.
  intros HI Hw. destruct (Worker.up wkr) eqn:Hup.
  - eapply wp_mono; [by eapply workerGone_spec|].
    intros [] c' (HI' & Hf & Hwk & Hlk). split_and!; [done| | | |done..].
    2:{ intros w Hne. rewrite Hwk, profile_insert by (by eapply vlookup_lt_Some). by rewrite decide_False. }
    + exists (gone_worker wkr). rewrite Hwk, vlookup_insert_eq; [done|by eapply vlookup_lt_Some].
    + eapply Tables_size_le; [apply HI|apply HI'|]. intros d. rewrite Hlk.
      destruct (lk (entries c) d); [eauto|]. by intros [].
  - wp_steps. split_and!; [done|eauto|done|done|done|]. intros d.
    destruct (lk (entries c) d) as [e|] eqn:Hd; [|done]. simpl. unfold gone_entry.
    rewrite decide_False; [done|]. intros He.
    assert (d ∈ Worker.running wkr) as Hr by (apply (running_entry c wid wkr d HI Hw); eauto).
    destruct (wk_ok _ _ _ (inv_workers _ _ _ _ HI) wid wkr Hw) as [_ Hr0].
    rewrite Hr0 in Hr by done. by apply not_elem_of_nil in Hr.
Qed.

Lemma hello_spec info c :
  inv c → hello_ok info c →
  wp (hello info) (λ r c', inv c' ∧ follows c' = follows c ∧ registered r.1 info c' ∧
    (∀ p, p ∈ hi_running info → reported r.1 c' p.1) ∧
    (∀ w, w ≠ r.1 → profile (workers c') w = profile (workers c) w) ∧
    (base.size (drvIds c') ≤ base.size (drvIds c) + length (hi_running info))%nat ∧
    hello_moves r.1 (hi_running info) (λ d, lk (entries c) d ≫= gone_entry r.1) (lk (entries c')) r.2) c.
Proof.
  intros HI (Ha & Hroom & Hsz). unfold hello. apply wp_bind. rewrite bool_decide_eq_false_2 by done.
  wp_steps. eapply wp_mono; [by apply workerId_spec|].
  intros wid c0 (HI0 & (wkr & Hw & Haddr) & Hold & Hnew & He0 & Hf0 & Hk0).
  assert (∀ w, w ≠ wid → profile (workers c0) w = profile (workers c) w) as Hp0.
  { intros w Hne. unfold profile. f_equal. apply option_eq. intros x. split; [|apply Hold].
    intros [?|[? _]]%Hnew; done. }
  apply wp_bind.
  eapply wp_at; [done|]. apply wp_bind. eapply wp_mono; [by apply hello_reset_spec|].
  intros [] c1 (HI1 & (wkr1 & Hw1 & Hup1 & Ha1) & Hp1 & Hsz1 & Hf1 & Hlk1). apply wp_bind.
  eapply wp_mono; [eapply hello_register_spec; [done..|congruence]|].
  intros [] c2 (HI2 & Hreg & Hp2 & He2 & Hk2 & Hf2). apply wp_bind.
  eapply wp_mono; [apply (wp_foldM _ (hello_upto wid info (base.size (drvIds c) + length (hi_running info)) c1 (workers c2)))|].
  - split_and!; [done..| |by left|].
    + rewrite Hk2. rewrite Hk0 in Hsz1. lia.
    + split; [rewrite He2; by left|]. by intros p ?%not_elem_of_nil.
  - intros p rest sups c3 H3. apply wp_bind. eapply wp_mono; [eapply hello_step; [|exact H3]; lia|].
    intros s c4 H4. by wp_steps.
  - intros sups c3 (HI3 & Hreg3 & Hp3 & Hf3 & _ & Hsz3 & Hrep & Hm). pose proof Hreg3 as (wkr3 & Hw3 & _).
    apply wp_bind. eapply wp_mono; [eapply (refreshFree_inv ∅ ∅ ∅ _ wid); [|done]|].
    { by rewrite (left_id_L ∅ (∪)). }
    intros [] c4 [HI4 (m & -> & _)]. wp_steps. simpl. rewrite <- He0.
    split_and!; [done|congruence|done| | |simpl in *; lia|].
    2:{ intros w Hne. simpl. by rewrite Hp3, Hp2, Hp1, Hp0. }
    + intros p Hp. destruct (Hrep p Hp) as [?%not_elem_of_nil|H]; done.
    + destruct Hm as [Hm1 Hm2]. split.
      * intros d. rewrite <- Hlk1. apply Hm1.
      * intros p Hp. rewrite <- Hlk1. by apply Hm2.
Qed.

(** A Hello without an address is refused before anything changes. *)
Lemma hello_no_addr info c :
  hi_addr info = EmptyString →
  hello info c = (c, Throw (NixError "scheduler: Hello without addr")).
Proof. intros Ha. unfold hello. by rewrite Ha. Qed.
