(* ===== verification/SchedPick.v ===== *)
(** * The scheduler's placement core: which worker a derivation goes to

    [Core::freeOf], [emptiestFor], [avoiding] and [pick] of
    src/src/daemon/scheduler.hh only read the core.  Under the invariant they
    return without an exception; [pick] returns a worker that takes work, offers
    the system and features and has a free slot, returns nothing only if there
    is none, and returns the worker that gave the derivation back only if no
    other worker could ever run it. *)

From S2P Require Import Prelude Double PathKey Heap Free Sched SchedInv SchedOps.

(** The worker takes work and offers what the derivation needs ... *)
Definition could_run (e : Entry.t) (wkr : Worker.t) : Prop :=
  Worker.takesWork wkr = true ∧ offers wkr e = true.

(** ... and has a free slot. *)
Definition can_run (e : Entry.t) (wkr : Worker.t) : Prop :=
  could_run e wkr ∧ (Z.of_nat (length (Worker.running wkr)) < Worker.maxJobs wkr)%Z.

(** Nobody can run it now; at most the worker that gave it back has a slot, and
    then it waits for another one. *)
Definition no_place (e : Entry.t) (wks : list Worker.t) : Prop :=
  ∀ w wkr, wks !! w = Some wkr → can_run e wkr →
    w = Entry.avoid e ∧ ∃ w' wkr', w' ≠ Entry.avoid e ∧ wks !! w' = Some wkr' ∧ could_run e wkr'.

(** A worker for it, not the one that gave it back unless nobody else could. *)
Definition good_place (e : Entry.t) (wks : list Worker.t) (w : N) : Prop :=
  (∃ wkr, wks !! w = Some wkr ∧ can_run e wkr) ∧
  (w = Entry.avoid e → ∀ w' wkr', w' ≠ Entry.avoid e → wks !! w' = Some wkr' → ¬ could_run e wkr').

Lemma free_val_pos wkr :
  worker_ok wkr → (0 < free_val wkr)%Z ↔
  Worker.takesWork wkr = true ∧ (Z.of_nat (length (Worker.running wkr)) < Worker.maxJobs wkr)%Z.
Proof.
  intros [[_ Hj] _]. unfold free_val, FreeIndex.maxSlots in *.
  destruct (Worker.takesWork wkr); [|naive_solver lia]. split; [intros; split; [done|]|intros [_ ?]]; lia.
Qed.

Lemma offers_system wkr e : offers wkr e = true → Entry.system e ∈ Worker.systems wkr.
Proof. intros [H _]%andb_true_iff. by apply bool_decide_eq_true in H. Qed.

(** What [freeOf] reads: the count of the first system. *)
Definition free_of (wkr : Worker.t) : Z :=
  match Worker.systems wkr with [] => 0%Z | _ => free_val wkr end.

Lemma free_of_offers wkr e : offers wkr e = true → free_of wkr = free_val wkr.
Proof.
  intros Ho%offers_system. unfold free_of. destruct (Worker.systems wkr); [|done].
  by apply not_elem_of_nil in Ho.
Qed.

Lemma can_run_free e wkr :
  worker_ok wkr → can_run e wkr ↔ offers wkr e = true ∧ (0 < free_of wkr)%Z.
Proof.
  intros Hok. unfold can_run, could_run. split.
  - intros [[Ht Ho] Hl]. split; [done|]. rewrite (free_of_offers _ _ Ho). by apply free_val_pos.
  - intros [Ho Hf]. rewrite (free_of_offers _ _ Ho) in Hf. apply free_val_pos in Hf; naive_solver.
Qed.

Section Pick.
Context (X G : gset N) (c : core) (HI : Inv X ∅ G c).
Implicit Types (e : Entry.t) (w : N) (wkr : Worker.t).

#[local] Lemma worker_at w wkr : workers c !! w = Some wkr → worker_ok wkr.
Proof. apply (wk_ok _ _ _ (inv_workers _ _ _ _ HI)). Qed.

#[local] Lemma worker_in w : w ∈ range 0 (vlen (workers c)) → ∃ wkr, workers c !! w = Some wkr.
Proof. intros Hw%elem_of_range. apply vlookup_lt. lia. Qed.

Lemma freeOf_spec w wkr :
  workers c !! w = Some wkr → wp (freeOf w) (λ v c', c' = c ∧ v = free_of wkr) c.
Proof.
  intros Hw. unfold freeOf. apply wp_bind. eapply wp_at; [done|]. wp_steps. split; [done|].
  unfold free_of. destruct (Worker.systems wkr) as [|s ss] eqn:Hss; [done|].
  assert (fk (systems c) s w = Some (free_val wkr)) as Hfk.
  { eapply fr_val; [apply HI|done|rewrite Hss; set_solver|set_solver]. }
  unfold fk in Hfk. destruct (systems c !! s) as [st|] eqn:Hst; [|done].
  rewrite FreeIndex.get_known by apply (inv_sys _ _ _ _ HI _ _ Hst). by rewrite Hfk.
Qed.

(** The count of a worker in the index of a system; workers that do not offer
    the system count as full. *)
Lemma get_spec s st w wkr :
  systems c !! s = Some st → workers c !! w = Some wkr →
  FreeIndex.get w (SystemState.free st) =
  if decide (s ∈ Worker.systems wkr) then free_val wkr else 0%Z.
Proof.
  intros Hst Hw. rewrite FreeIndex.get_known by apply (inv_sys _ _ _ _ HI _ _ Hst).
  assert (FreeIndex.known (SystemState.free st) w = fk (systems c) s w) as ->
    by (unfold fk; by rewrite Hst).
  case_decide as Hs.
  - erewrite fr_val; [done|apply HI|done|done|set_solver].
  - destruct (fk (systems c) s w) as [v|] eqn:Hk; [|done].
    destruct (fr_zero _ _ _ (inv_free _ _ _ _ HI) _ _ _ Hk) as [->|(wkr' & ? & ?)]; [done|].
    naive_solver.
Qed.

(** The condition of the scan in [emptiestFor]. *)
Lemma scan_cond e st w wkr :
  systems c !! Entry.system e = Some st → workers c !! w = Some wkr →
  Worker.up wkr && (0 <? FreeIndex.get w (SystemState.free st))%Z && offers wkr e = true ↔
  can_run e wkr.
Proof.
  intros Hst Hw. rewrite (get_spec _ _ _ _ Hst Hw), !andb_true_iff, Z.ltb_lt.
  rewrite can_run_free by (by eapply worker_at). split.
  - intros [[Hup Hpos] Ho]. rewrite decide_True in Hpos by (by apply offers_system).
    by rewrite (free_of_offers _ _ Ho).
  - intros [Ho Hpos]. rewrite (free_of_offers _ _ Ho) in Hpos.
    rewrite decide_True by (by apply offers_system). split_and!; [|done..].
    apply free_val_pos in Hpos as [Ht _]; [|by eapply worker_at].
    unfold Worker.takesWork in Ht. by destruct (Worker.up wkr).
Qed.

(** A worker that can run it, or nobody can. *)
Definition finds (e : Entry.t) (o : option N) : Prop :=
  match o with
  | Some w => ∃ wkr, workers c !! w = Some wkr ∧ can_run e wkr
  | None => ∀ w wkr, workers c !! w = Some wkr → ¬ can_run e wkr
  end.

Lemma emptiest_finds e st o :
  systems c !! Entry.system e = Some st → Entry.features e = [] →
  FreeIndex.is_emptiest (FreeIndex.known (SystemState.free st)) o → finds e o.
Proof.
  intros Hst Hfeat Ho.
  assert (∀ w, FreeIndex.known (SystemState.free st) w = fk (systems c) (Entry.system e) w) as Hfk.
  { intros w. unfold fk. by rewrite Hst. }
  assert (∀ wkr, offers wkr e = true ↔ Entry.system e ∈ Worker.systems wkr) as Hoff.
  { intros wkr. unfold offers. rewrite Hfeat. simpl. rewrite andb_true_r. apply bool_decide_eq_true. }
  destruct o as [w|]; simpl in *.
  - destruct Ho as (v & Hv & Hpos & _). rewrite Hfk in Hv.
    destruct (fr_zero _ _ _ (inv_free _ _ _ _ HI) _ _ _ Hv) as [->|(wkr & Hw & Hs)]; [lia|].
    exists wkr. split; [done|]. apply can_run_free; [by eapply worker_at|].
    apply Hoff in Hs as Ho. split; [done|]. rewrite (free_of_offers _ _ Ho).
    rewrite (fr_val _ _ _ (inv_free _ _ _ _ HI) _ _ _ Hw Hs) in Hv by set_solver. by simplify_eq.
  - intros w wkr Hw Hcan. apply can_run_free in Hcan as [Hs Hpos]; [|by eapply worker_at].
    rewrite (free_of_offers _ _ Hs) in Hpos. apply Hoff in Hs.
    assert (free_val wkr ≤ 0)%Z; [|lia]. apply (Ho w). rewrite Hfk.
    eapply fr_val; [apply HI|done|done|set_solver].
Qed.

Lemma emptiestFor_spec e : wp (emptiestFor e) (λ o c', c' = c ∧ finds e o) c.
Proof.
  unfold emptiestFor. wp_steps. destruct (systems c !! Entry.system e) as [st|] eqn:Hst.
  2:{ wp_steps. split; [done|]. intros w wkr Hw [[_ Ho%offers_system] _].
      destruct (fr_known _ _ _ (inv_free _ _ _ _ HI) w wkr _ Hw Ho) as [v Hv].
      unfold fk in Hv. by rewrite Hst in Hv. }
  destruct (inv_sys _ _ _ _ HI _ _ Hst) as (_ & _ & Hwf).
  destruct (Entry.features e) as [|f fs] eqn:Hfeat.
  { apply wp_zoom. eapply wp_mono; [by apply FreeIndex.emptiest_spec|].
    intros o f' [-> Ho]. split; [done|]. by eapply emptiest_finds. }
  set (J := λ (rest : list N) (o : option N) c', c' = c ∧ (∀ w, w ∈ rest → w ∈ range 0 (vlen (workers c))) ∧
    match o with
    | Some w => ∃ wkr, workers c !! w = Some wkr ∧ can_run e wkr
    | None => ∀ w wkr, workers c !! w = Some wkr → w ∉ rest → ¬ can_run e wkr
    end).
  eapply wp_mono; [apply (wp_foldM _ J)|].
  - split_and!; [done..|]. intros w wkr Hw []. apply elem_of_range.
    apply vlookup_lt_Some in Hw. lia.
  - intros w rest o c' (-> & Hin & Ho).
    destruct (worker_in w) as [wkr Hw]; [apply Hin; set_solver|].
    apply wp_bind. eapply wp_at; [done|]. wp_steps. split_and!; [done|set_solver|].
    pose proof (scan_cond e st w wkr Hst Hw) as Hcond.
    destruct (_ && offers wkr e); simpl.
    + assert (can_run e wkr) by (by apply Hcond). destruct o as [b|]; simpl; [destruct (_ <? _)%Z|]; eauto.
    + destruct o as [b|]; [done|]. intros w0 wkr0 Hw0 Hn0 Hcan0.
      destruct (decide (w0 = w)) as [->|]; [|eapply Ho; [done|set_solver|done]].
      simplify_eq. by apply Hcond in Hcan0.
  - intros o c' (-> & _ & Ho). split; [done|]. destruct o; [done|].
    intros w wkr Hw. apply (Ho w wkr Hw). apply not_elem_of_nil.
Qed.

Lemma avoiding_spec e :
  wp (avoiding e) (λ o c', c' = c ∧
    match o with
    | Some w => (w ≠ Entry.avoid e ∧ ∃ wkr, workers c !! w = Some wkr ∧ can_run e wkr) ∨
        (w = Entry.avoid e ∧ ∀ w' wkr', w' ≠ Entry.avoid e → workers c !! w' = Some wkr' →
           ¬ could_run e wkr')
    | None => (∃ w' wkr', w' ≠ Entry.avoid e ∧ workers c !! w' = Some wkr' ∧ could_run e wkr') ∧
        ∀ w' wkr', w' ≠ Entry.avoid e → workers c !! w' = Some wkr' → ¬ can_run e wkr'
    end) c.
Proof.
  unfold avoiding. wp_steps.
  set (J := λ (rest : list N) (r : option N * bool) c', c' = c ∧
    (∀ w, w ∈ rest → w ∈ range 0 (vlen (workers c))) ∧
    match r.1 with
    | Some w => w ≠ Entry.avoid e ∧ ∃ wkr, workers c !! w = Some wkr ∧ can_run e wkr
    | None => ∀ w wkr, w ≠ Entry.avoid e → workers c !! w = Some wkr → w ∉ rest → ¬ can_run e wkr
    end ∧
    if r.2 then ∃ w' wkr', w' ≠ Entry.avoid e ∧ workers c !! w' = Some wkr' ∧ could_run e wkr'
    else ∀ w' wkr', w' ≠ Entry.avoid e → workers c !! w' = Some wkr' → w' ∉ rest → ¬ could_run e wkr').
  eapply wp_mono; [apply (wp_foldM _ J)|].
  - assert (∀ w wkr, workers c !! w = Some wkr → w ∈ range 0 (vlen (workers c))) as Hin.
    { intros w wkr Hw%vlookup_lt_Some. apply elem_of_range. lia. }
    split_and!; simpl; [done|done|..]; intros w wkr _ Hw []; eauto.
  - intros w rest [o b] c' (-> & Hin & Ho & Hb). simpl in Ho, Hb.
    destruct (worker_in w) as [wkr Hw]; [apply Hin; set_solver|].
    apply wp_bind. eapply wp_at; [done|].
    destruct (_ || _) eqn:Hskip.
    + wp_steps. assert (w ≠ Entry.avoid e → ¬ could_run e wkr) as Hno.
      { intros Hne [Ht Hof]. rewrite Ht, Hof in Hskip. simpl in Hskip.
        rewrite !orb_false_r in Hskip. by apply N.eqb_eq in Hskip. }
      split_and!; simpl; [done|set_solver|..].
      * destruct o; [done|]. intros w0 wkr0 Hne Hw0 Hn0 [Hc0 Hl0].
        destruct (decide (w0 = w)) as [->|]; [naive_solver|].
        eapply (Ho w0); [done|done|set_solver|done].
      * destruct b; [done|]. intros w0 wkr0 Hne Hw0 Hn0 Hc0.
        destruct (decide (w0 = w)) as [->|]; [naive_solver|].
        eapply (Hb w0); [done|done|set_solver|done].
    + apply orb_false_iff in Hskip as [[Hne Ht]%orb_false_iff Hof].
      apply N.eqb_neq in Hne. apply negb_false_iff in Ht, Hof.
      assert (∃ w' wkr', w' ≠ Entry.avoid e ∧ workers c !! w' = Some wkr' ∧ could_run e wkr') as Hex.
      { by exists w, wkr. }
      apply wp_bind. eapply wp_mono; [by apply freeOf_spec|]. intros v c' [-> ->].
      pose proof (can_run_free e wkr (worker_at _ _ Hw)) as Hcan.
      destruct (Z.ltb_spec 0 (free_of wkr)) as [Hpos|Hneg]; simpl.
      * assert (can_run e wkr) by (by apply Hcan).
        destruct o as [b0|]; [|wp_steps; split_and!; simpl; eauto; set_solver].
        destruct Ho as (Hb0 & wkr0 & Hw0 & Hc0). apply wp_bind.
        eapply wp_mono; [by apply freeOf_spec|]. intros v c' [-> ->]. wp_steps.
        split_and!; simpl; [done|set_solver| |done]. destruct (_ <? _)%Z; eauto.
      * wp_steps. split_and!; simpl; [done|set_solver| |done]. destruct o; [done|].
        intros w0 wkr0 Hne0 Hw0 Hn0 Hc0.
        destruct (decide (w0 = w)) as [->|]; [|eapply (Ho w0); [done|done|set_solver|done]].
        simplify_eq. apply Hcan in Hc0 as [_ ?]. lia.
  - intros [o b] c' (-> & _ & Ho & Hb). simpl in *.
    destruct o as [w|]; simpl; [wp_steps; by auto|].
    destruct b; simpl; wp_steps; (split; [done|]).
    + split; [done|]. intros w' wkr' Hne Hw'. eapply Ho; [done..|]. apply not_elem_of_nil.
    + right. split; [done|]. intros w' wkr' Hne Hw'. eapply Hb; [done..|]. apply not_elem_of_nil.
Qed.
Lemma pick_best_spec e :
  wp (pick_best e) (λ o c', c' = c ∧
    match o with
    | Some w => good_place e (workers c) w
    | None => no_place e (workers c)
    end) c.
Proof.
  unfold pick_best. apply wp_bind. eapply wp_mono; [apply emptiestFor_spec|].
  intros o c' [-> Ho]. destruct (bool_decide_reflect (o = Some (Entry.avoid e))) as [->|Hne].
  - eapply wp_mono; [apply avoiding_spec|]. intros o' c' [-> Ho']. split; [done|].
    destruct o' as [w|].
    + destruct Ho' as [[Hne Hw]|[-> Hno]]; [by split|]. split; [done|]. by intros _.
    + destruct Ho' as [Hex Hno]. intros w wkr Hw Hcan. split; [|done].
      destruct (decide (w = Entry.avoid e)); [done|]. by destruct (Hno w wkr).
  - wp_steps. split; [done|]. destruct o as [w|].
    + split; [done|]. naive_solver.
    + intros w wkr Hw Hcan. by destruct (Ho w wkr Hw).
Qed.

Lemma cand_ok_spec e w :
  wp (cand_ok e w) (λ b c', c' = c ∧ (b = true → good_place e (workers c) w)) c.
Proof.
  unfold cand_ok. wp_steps. destruct (N.leb_spec (vlen (workers c)) w) as [|Hlt]; simpl; [by wp_steps|].
  destruct (N.eqb_spec w (Entry.avoid e)) as [|Hne]; [by wp_steps|].
  apply vlookup_lt in Hlt as [wkr Hw]. apply wp_bind. eapply wp_at; [done|].
  destruct (Worker.up wkr); simpl; [|by wp_steps]. apply wp_bind.
  eapply wp_mono; [by apply freeOf_spec|]. intros v c' [-> ->]. wp_steps. split; [done|].
  intros [Hpos Ho]%andb_true_iff. apply Z.ltb_lt in Hpos. split; [|done].
  exists wkr. split; [done|]. apply can_run_free; [by eapply worker_at|done].
Qed.

Lemma add_cand_elem w b cands p : p ∈ add_cand w b cands → p.1 = w ∨ ∃ b', (p.1, b') ∈ cands.
Proof.
  induction cands as [|[w' b'] cands IH]; simpl.
  - intros ->%list_elem_of_singleton. by left.
  - case_match; intros [->|Hp]%elem_of_cons; simpl.
    + right. exists b'. set_solver.
    + right. exists p.2. destruct p. set_solver.
    + right. exists b'. set_solver.
    + destruct (IH Hp) as [?|[b0 ?]]; [by left|right]. exists b0. set_solver.
Qed.

Lemma pick_cands_spec e :
  wp (pick_cands e) (λ cands c', c' = c ∧ ∀ p, p ∈ cands → good_place e (workers c) p.1) c.
Proof.
  unfold pick_cands. apply (wp_foldM _ (λ _ cands c', c' = c ∧
    ∀ p : N * double, p ∈ cands → good_place e (workers c) p.1)).
  { split; [done|]. by intros p ?%not_elem_of_nil. }
  intros input rest cands c' [-> Hall]. wp_steps.
  destruct (lastBuilder c !! input) as [[w size]|]; [|by wp_steps]. apply wp_bind.
  eapply wp_mono; [apply cand_ok_spec|]. intros ok c' [-> Hok]. wp_steps. split; [done|].
  destruct ok; [|done]. intros p [->|[b Hp]]%add_cand_elem; [by apply Hok|by apply Hall in Hp].
Qed.

Lemma score_spec e topFree w b :
  good_place e (workers c) w → wp (score topFree w b) (λ _ c', c' = c) c.
Proof.
  intros [(wkr & Hw & _) _]. unfold score. apply wp_bind.
  eapply wp_mono; [by apply freeOf_spec|]. intros v c' [-> _]. by wp_steps.
Qed.

Lemma pick_spec e :
  wp (pick e) (λ o c', c' = c ∧
    match o with
    | Some w => good_place e (workers c) w
    | None => no_place e (workers c)
    end) c.
Proof.
  unfold pick. apply wp_bind. eapply wp_mono; [apply pick_best_spec|].
  intros [best|] c' [-> Hbest]; [|by wp_steps]. pose proof Hbest as [(wkr & Hw & _) _].
  apply wp_bind. eapply wp_mono; [by apply freeOf_spec|]. intros v c' [-> _]. apply wp_bind.
  eapply wp_mono; [apply pick_cands_spec|]. intros cands c' [-> Hcands]. apply wp_bind.
  eapply wp_mono; [by eapply score_spec|]. intros s0 c' ->. apply wp_bind.
  eapply wp_mono; [apply (wp_foldM _ (λ rest acc c', c' = c ∧
    good_place e (workers c) acc.1 ∧ ∀ p, p ∈ rest → good_place e (workers c) p.1))|].
  - done.
  - intros p rest acc c' (-> & Hacc & Hrest). apply wp_bind.
    assert (good_place e (workers c) p.1) as Hp by (apply Hrest, elem_of_cons; by left).
    eapply wp_mono; [by apply (score_spec e)|]. intros scr c' ->. wp_steps.
    split_and!; [done|by destruct (dltb _ _)|].
    intros q Hq. apply Hrest, elem_of_cons. by right.
  - intros acc c' (-> & Hacc & _). by wp_steps.
Qed.
End Pick.
