(* ===== verification/SchedDispatch.v ===== *)
(** * The scheduler's placement core: dispatch

    [Core::dispatch] and [dispatchHead] of src/src/daemon/scheduler.hh.  The loop
    ends (the fuel, one more than the number of queued derivations, is enough
    because every round takes one off a queue), keeps the invariant, places only
    where it may, leaves nothing unplaced that could be placed, and does not
    prefer a less urgent derivation. *)

From S2P Require Import Prelude Double PathKey Heap Free Sched SchedInv SchedOps SchedHello SchedPick.

(** ** The most urgent head *)

(** The system has a queued derivation with key [k] at the head and a worker
    with a free slot. *)
Definition ready (st : SystemState.t) (k : double) : Prop :=
  IndexedHeap.topKey (SystemState.queue st) = Some k ∧
  (0 < FreeIndex.maxFree (SystemState.free st))%Z.

Lemma dltb_trans_false x y z :
  is_nan x = false → is_nan y = false → is_nan z = false →
  dltb x y = true → dltb z y = false → dltb z x = false.
Proof.
  intros Hx Hy Hz Hxy Hzy. apply not_true_is_false. intros Hzx.
  apply dltb_rank in Hxy; [|done..]. apply dltb_rank in Hzx; [|done..].
  assert (dltb z y = true); [|congruence]. apply dltb_rank; [done..|]. by eapply rank_lt_trans.
Qed.

Lemma dltb_lt_le x y z :
  is_nan x = false → is_nan y = false → is_nan z = false →
  dltb x y = true → dltb z y = false → dltb x z = true.
Proof.
  intros Hx Hy Hz Hxy Hzy. apply dltb_rank in Hxy as Hxy'; [|done..]. apply dltb_rank; [done..|].
  destruct (rank_total (rank y) (rank z)) as [?|[<-|Hlt]]; [by eapply rank_lt_trans|done|].
  apply dltb_rank in Hlt; [|done..]. congruence.
Qed.

Lemma dltb_irrefl x : dltb x x = false.
Proof.
  destruct (is_nan x) eqn:Hx; [by destruct x|]. apply not_true_is_false.
  intros H%dltb_rank; [|done..]. by apply rank_lt_irrefl in H.
Qed.

(** The choice among the systems seen so far. *)
Definition best_of (l : list (string * SystemState.t)) (best : option (string * double)) : Prop :=
  match best with
  | None => ∀ p k, p ∈ l → ¬ ready p.2 k
  | Some (s, k) => (∃ st, (s, st) ∈ l ∧ ready st k) ∧
      ∀ p k', p ∈ l → ready p.2 k' → dltb k' k = false
  end.

Lemma best_system_spec l :
  (∀ p k, p ∈ l → ready p.2 k → is_nan k = false) → best_of l (best_system l).
Proof.
  induction l as [|p l IH] using rev_ind; intros Hnan.
  { intros p k ?%not_elem_of_nil. done. }
  assert (best_of l (best_system l)) as Hl by (apply IH; intros q k Hq Hr; eapply (Hnan q); [set_solver|done]).
  unfold best_system in *. rewrite foldl_app. simpl. set (b := foldl _ None l) in *.
  destruct (IndexedHeap.topKey (SystemState.queue p.2)) as [key|] eqn:Hk.
  2:{ assert (∀ k, ¬ ready p.2 k) as Hno by (intros k [? _]; congruence).
      destruct b as [[s k]|]; simpl in *; set_solver. }
  destruct (Z.ltb_spec 0 (FreeIndex.maxFree (SystemState.free p.2))) as [Hf|Hf]; simpl.
  2:{ assert (∀ k, ¬ ready p.2 k) as Hno by (intros k [_ ?]; lia).
      destruct b as [[s k]|]; simpl in *; set_solver. }
  assert (ready p.2 key) as Hr by done.
  assert (∀ k, ready p.2 k → k = key) as Hu by (intros k [? _]; congruence).
  destruct b as [[s k]|]; simpl in *.
  - destruct (dltb key k) eqn:Hlt; simpl.
    + destruct Hl as [(st & Hst & Hrst) Hmin]. split.
      { exists p.2. split; [|done]. destruct p; set_solver. }
      intros q k' [Hq|Hq%list_elem_of_singleton]%elem_of_app Hrq.
      * apply (dltb_trans_false key k); [| | |done|by eapply Hmin].
        -- apply (Hnan p); [set_solver|done].
        -- apply (Hnan (s, st)); [set_solver|done].
        -- apply (Hnan q); [set_solver|done].
      * subst q. rewrite (Hu k' Hrq). apply dltb_irrefl.
    + destruct Hl as [(st & Hst & Hrst) Hmin]. split; [exists st; set_solver|].
      intros q k' [Hq|Hq%list_elem_of_singleton]%elem_of_app Hrq; [by eapply Hmin|].
      subst q. by rewrite (Hu k' Hrq).
  - split; [exists p.2; split; [destruct p; set_solver|done]|].
    intros q k' [Hq|Hq%list_elem_of_singleton]%elem_of_app Hrq; [by destruct (Hl q k' Hq)|].
    subst q. rewrite (Hu k' Hrq). apply dltb_irrefl.
Qed.

Lemma topKey_not_nan h k :
  IndexedHeap.good (IndexedHeap.heap h) → IndexedHeap.topKey h = Some k → is_nan k = false.
Proof.
  unfold IndexedHeap.topKey. intros [Hok _] Hk.
  destruct (IndexedHeap.heap h) as [|x l]; [done|]. simpl in Hk. simplify_eq.
  by apply Forall_cons in Hok as [? _].
Qed.

Lemma item_leb_not_lt k d k' d' :
  is_nan k = false → is_nan k' = false →
  IndexedHeap.item_leb (k, d) (k', d') = true → dltb k' k = false.
Proof.
  intros Hk Hk' Hle. apply not_true_is_false. intros Hlt%dltb_rank; [|done..].
  apply IndexedHeap.item_leb_rank in Hle; [|done..]. simpl in Hle.
  destruct Hle as [Hlt'|[Heq _]].
  - by apply (rank_lt_irrefl (rank k)), (rank_lt_trans _ (rank k')).
  - rewrite Heq in Hlt. by apply rank_lt_irrefl in Hlt.
Qed.

(** ** Queued derivations *)

(** [d], with entry [e], is in the queue of its system. *)
Definition queued_as (c : core) (d : N) (e : Entry.t) : Prop :=
  lk (entries c) d = Some e ∧ qv (systems c) (Entry.system e) !! d = Some (prio e c) ∧
  Entry.worker e = noWorker ∧ Entry.followers e ≠ [].

Lemma queued_entry X W G c s d :
  Inv X W G c → is_Some (qv (systems c) s !! d) → d ∉ X →
  ∃ e, queued_as c d e ∧ Entry.system e = s.
Proof.
  intros HI [k Hk] HX. inv_fields HI. pose proof (mk_is_Some _ _ Hk) as Hs.
  apply (pl_queue _ _ _ _ Ipl) in Hs as (e & Hd & <- & Hw). exists e. split; [|done].
  pose proof (pl_placed _ _ _ _ Ipl d e Hd HX) as Hp. unfold placed in Hp.
  rewrite decide_True in Hp by auto. rewrite (Ikey _ _ _ _ Hk Hd HX) in Hk.
  split_and!; [done|exact Hk|auto|naive_solver].
Qed.

Lemma unplaced_queued X W G c d e :
  Inv X W G c → lk (entries c) d = Some e → Entry.worker e = noWorker → d ∉ X → queued_as c d e.
Proof.
  intros HI Hd Hw HX. inv_fields HI. pose proof (pl_placed _ _ _ _ Ipl d e Hd HX) as Hp.
  unfold placed in Hp. rewrite decide_True in Hp by done. destruct Hp as [[k Hk] Hf].
  rewrite (Ikey _ _ _ _ Hk Hd HX) in Hk. by split_and!.
Qed.

(** A worker that can run a queued derivation makes its system ready, with a
    head at least as urgent. *)
Lemma can_run_ready X G c d e w wkr :
  Inv X ∅ G c → queued_as c d e → workers c !! w = Some wkr → can_run e wkr →
  ∃ st k, systems c !! Entry.system e = Some st ∧ ready st k ∧ dltb (prio e c) k = false.
Proof.
  intros HI (Hd & Hq & Hw & _) Hwk Hcan. inv_fields HI.
  unfold qv in Hq. destruct (systems c !! Entry.system e) as [st|] eqn:Hst; [|done].
  destruct (Isys _ _ Hst) as (Hwf & Hgood & Hfree). exists st.
  pose proof (IndexedHeap.top_is_min _ Hwf Hgood) as Hmin. unfold IndexedHeap.is_min in Hmin.
  destruct (IndexedHeap.topKey (SystemState.queue st)) as [k|] eqn:Hk; simpl in Hmin.
  2:{ rewrite Hmin in Hq. done. }
  destruct (IndexedHeap.topKey_top _ _ Hk) as [d0 Hd0]. rewrite Hd0 in Hmin. simpl in Hmin.
  exists k. destruct Hmin as [_ Hmin]. specialize (Hmin _ _ Hq).
  apply can_run_free in Hcan as [Ho Hpos]; [|by eapply (wk_ok _ _ _ Iwk)].
  rewrite (free_of_offers _ _ Ho) in Hpos. split_and!; [done|split; [done|]|].
  - apply FreeIndex.maxFree_pos; [done|]. exists w, (free_val wkr). split; [|done].
    assert (fk (systems c) (Entry.system e) w = Some (free_val wkr)) as Hf.
    { eapply fr_val; [done|done|by apply offers_system|set_solver]. }
    unfold fk in Hf. by rewrite Hst in Hf.
  - eapply item_leb_not_lt; [by eapply topKey_not_nan| |done].
    apply prio_not_nan; [done|by eapply Ient].
Qed.

(** ** What dispatch keeps *)

(** What [out] gives to worker [w]. *)
Definition given (out : list Assign.t) (w : N) : list N :=
  Assign.drv <$> filter (λ a, Assign.worker a = w) out.

(** The placement [a] of a derivation queued as [e] before. *)
Definition placed_by (c : core) (a : Assign.t) (e : Entry.t) : Prop :=
  Assign.clients a = Entry.followers e ∧
  lk (entries c) (Assign.drv a) =
    Some (Entry.with_assignId (Assign.assignId a) (Entry.with_worker (Assign.worker a) e)) ∧
  ∃ wkr, workers c !! Assign.worker a = Some wkr ∧ could_run e wkr ∧
    (Z.of_nat (length (Worker.running wkr)) ≤ Worker.maxJobs wkr)%Z ∧
    (Assign.worker a = Entry.avoid e → ∀ w' wkr', w' ≠ Entry.avoid e →
       workers c !! w' = Some wkr' → ¬ could_run e wkr').

(** A derivation nobody can run now, out of its queue until the loop ends. *)
Definition skipped_as (c : core) (k : Skipped) (e : Entry.t) : Prop :=
  lk (entries c) (sk_drv k) = Some e ∧ Entry.worker e = noWorker ∧ Entry.followers e ≠ [] ∧
  sk_system k = Entry.system e ∧ sk_key k = prio e c ∧
  no_place e (workers c) ∧ ∀ s, qv (systems c) s !! sk_drv k = None.

Definition skipped_set (sk : list Skipped) : gset N := list_to_set (sk_drv <$> sk).

(** [a] is at least as urgent as what stays unplaced and its worker offers. *)
Definition no_inversion (c0 c : core) (a : Assign.t) : Prop :=
  ∀ d e e0 wkr, lk (entries c0) (Assign.drv a) = Some e0 →
    lk (entries c) d = Some e → Entry.worker e = noWorker →
    workers c0 !! Assign.worker a = Some wkr → offers wkr e = true →
    Assign.worker a ≠ Entry.avoid e → dltb (prio e c) (prio e0 c) = false.

(** The state of the loop, against the core [c0] at its start. *)
Record Dinv (c0 : core) (out : list Assign.t) (sk : list Skipped) (c : core) : Prop := {
  d_inv : Inv (skipped_set sk) ∅ ∅ c;
  d_frame : follows c = follows c0 ∧ drvIds c = drvIds c0 ∧ cfg c = cfg c0;
  d_sk_nodup : NoDup (sk_drv <$> sk);
  d_skipped : ∀ k, k ∈ sk → ∃ e, skipped_as c k e;
  d_workers : ∀ w, workers c !! w =
    (λ wkr, Worker.with_running (Worker.running wkr ++ given out w) wkr) <$> workers c0 !! w;
  d_out_nodup : NoDup (Assign.drv <$> out);
  d_out : ∀ a, a ∈ out → ∃ e, queued_as c0 (Assign.drv a) e ∧ placed_by c a e;
  d_rest : ∀ d, d ∉ Assign.drv <$> out → lk (entries c) d = lk (entries c0) d;
  d_ids : u64 (lastAssignId c) = u64 (lastAssignId c0 + N.of_nat (length out)) ∧
    ∀ i a, out !! (i : nat) = Some a → Assign.assignId a = u64 (lastAssignId c0 + N.of_nat i + 1);
  d_urgent : ∀ a, a ∈ out → no_inversion c0 c a;
}.

(** ** Taking the head off a queue *)

Lemma head_entry X W G c s st k :
  Inv X W G c → systems c !! s = Some st → ready st k →
  (∀ d s', d ∈ X → qv (systems c) s' !! d = None) →
  ∃ d e, IndexedHeap.top (SystemState.queue st) = Some d ∧ queued_as c d e ∧
    Entry.system e = s ∧ prio e c = k ∧ d ∉ X.
Proof.
  intros HI Hst [Hk _] HX. destruct (IndexedHeap.topKey_top _ _ Hk) as [d Hd].
  destruct (inv_sys _ _ _ _ HI _ _ Hst) as (Hwf & _ & _).
  destruct (IndexedHeap.top_lookup _ _ Hwf Hd) as (k' & Hk' & Hv). simplify_eq.
  assert (qv (systems c) s !! d = Some k) as Hq by (unfold qv; by rewrite Hst).
  assert (d ∉ X) as HdX by (intros HdX%(HX _ s); congruence).
  destruct (queued_entry _ _ _ _ s d HI ltac:(eauto) HdX) as (e & He & <-).
  exists d, e. split_and!; [done..| |done]. destruct He as (_ & He & _). congruence.
Qed.

(** Workers change only by running more. *)
Definition more_running (wks wks' : list Worker.t) : Prop :=
  (∀ w wkr', wks' !! w = Some wkr' → ∃ wkr r, wks !! w = Some wkr ∧
     wkr' = Worker.with_running (Worker.running wkr ++ r) wkr) ∧
  (∀ w wkr, wks !! w = Some wkr →
     ∃ r, wks' !! w = Some (Worker.with_running (Worker.running wkr ++ r) wkr)).

Lemma more_running_insert wks w wkr d :
  wks !! w = Some wkr →
  more_running wks (<[w := Worker.with_running (Worker.running wkr ++ [d]) wkr]> wks).
Proof.
  intros Hw. pose proof (vlookup_lt_Some _ _ _ Hw) as Hlt.
  assert (∀ wk, wk = Worker.with_running (Worker.running wk ++ []) wk) as Hid.
  { intros wk. rewrite app_nil_r. by destruct wk. }
  split.
  - intros w' wkr' [(<- & <- & _)|[_ Hw']]%vlookup_insert_Some; eauto.
  - intros w' wkr' Hw'. destruct (decide (w = w')) as [<-|Hne].
    + simplify_eq. exists [d]. by apply vlookup_insert_eq.
    + exists []. by rewrite vlookup_insert_ne, <- Hid.
Qed.

Lemma no_place_more e wks wks' : more_running wks wks' → no_place e wks → no_place e wks'.
Proof.
  intros [Hback Hfwd] Hno w wkr' Hw' [Hcould Hlen].
  destruct (Hback w wkr' Hw') as (wkr & r & Hw & ->). simpl in Hlen. rewrite length_app in Hlen.
  destruct (Hno w wkr Hw) as [-> (w2 & wkr2 & Hne & Hw2 & Hc2)].
  { split; [exact Hcould|lia]. }
  split; [done|]. destruct (Hfwd w2 wkr2 Hw2) as [r2 Hw2']. eexists _, _. done.
Qed.

(** The core after [d] is given to [w]. *)
Definition assigned (d w aid : N) (e : Entry.t) (wkr : Worker.t)
    (m : gmap string SystemState.t) (c : core) : core :=
  with_systems m (with_workers (<[w := Worker.with_running (Worker.running wkr ++ [d]) wkr]> (workers c))
    (with_entries (<[d := Some (Entry.with_assignId aid (Entry.with_worker w e))]> (entries c))
      (with_lastAssignId aid c))).

Lemma Inv_lastAssignId X W G c aid : Inv X W G c → Inv X W G (with_lastAssignId aid c).
Proof. intros HI. inv_fields HI. by split. Qed.

(** The code of [dispatchHead] after a worker is picked. *)
Lemma assign_inv {A} X c d e w wkr (k : N → C A) (Φ : A → core → Prop) :
  Inv (X ∪ {[d]}) ∅ ∅ c → d ∉ X → lk (entries c) d = Some e → Entry.worker e = noWorker →
  workers c !! w = Some wkr → Worker.up wkr = true →
  (∀ s, qv (systems c) s !! d = None) →
  (∀ m, let aid := u64 (lastAssignId c + 1) in
     Inv X ∅ ∅ (assigned d w aid e wkr m c) → (∀ s, qv m s = qv (systems c) s) →
     wp (k aid) Φ (assigned d w aid e wkr m c)) →
  wp (upd_entry d (Entry.with_worker w);;
      modify (λ c, with_lastAssignId (u64 (lastAssignId c + 1)) c);;
      aid ← gets lastAssignId;
      upd_entry d (Entry.with_assignId aid);;
      upd_worker w (λ wkr, Worker.with_running (Worker.running wkr ++ [d]) wkr);;
      refreshFree w;; k aid) Φ c.
Proof.
  intros HI HdX Hd Hw Hwk Hup Hq Hk. pose proof (vlookup_lt_Some _ _ _ Hwk) as Hwlt.
  apply wp_bind. eapply wp_upd_entry; [done|]. wp_steps. simpl.
  set (aid := u64 (lastAssignId c + 1)) in *. set (e1 := Entry.with_worker w e).
  eapply (wp_upd_entry d _ e1); [by lk_simpl|]. apply wp_bind.
  eapply (wp_upd_worker w _ wkr); [done|]. apply wp_bind. simpl. rewrite vinsert_insert.
  set (e2 := Entry.with_assignId aid e1).
  set (c2 := with_entries (<[d := Some e2]> (entries c)) (with_lastAssignId aid c)).
  assert (Inv (X ∪ {[d]}) ∅ ∅ c2) as HI2.
  { set (c1 := with_entries (<[d := Some e1]> (entries c)) (with_lastAssignId aid c)).
    assert (Inv (X ∪ {[d]}) ∅ ∅ c1) as HI1.
    { apply (Inv_set_worker _ _ _ (with_lastAssignId aid c));
        [by apply Inv_lastAssignId|done|set_solver|]. intros w'. exact (unplaced_not_running _ _ _ c d e w' HI Hd Hw). }
    assert (Inv (X ∪ {[d]}) ∅ ∅ (with_entries (<[d := Some e2]> (entries c1)) c1)) as HI1'.
    { eapply (Inv_entry _ _ _ c1 d e1); try done;
        [by subst c1; lk_simpl|exact (inv_entries _ _ _ _ HI d e Hd)|naive_solver|by right; right]. }
    subst c1 c2. unfold with_entries in *. simpl in *. by rewrite vinsert_insert in HI1'. }
  assert (d ∉ Worker.running wkr) as Hnr.
  { pose proof (unplaced_not_running _ _ _ _ _ _ w HI Hd Hw) as Hn. unfold run in Hn. by rewrite Hwk in Hn. }
  eapply wp_mono; [eapply (refreshFree_inv X ∅ ∅ (addrun w d wkr c2) w); [|by apply vlookup_insert_eq]|].
  - eapply Inv_weaken; [..|eapply (Inv_addrun _ _ _ c2 d e2 w wkr); try done; by subst c2; lk_simpl];
      set_solver.
  - intros [] c3 [HI3 (m & -> & Hqv)]. apply Hk; [exact HI3|exact Hqv].
Qed.

(** ** One round *)

Section Round.
Context (c0 c : core) (out : list Assign.t) (sk : list Skipped) (d : N) (e : Entry.t).
Context (H0 : inv c0) (HD : Dinv c0 out sk c).
Context (Hq : queued_as c d e) (HdX : d ∉ skipped_set sk).
Context (m : gmap string SystemState.t).
Context (HI1 : Inv (skipped_set sk ∪ {[d]}) ∅ ∅ (with_systems m c)).
Context (Hno : ∀ s, qv m s !! d = None).
Context (Hother : ∀ d' s, d' ≠ d → qv m s !! d' = qv (systems c) s !! d').

#[local] Lemma skipped_ne k : k ∈ sk → sk_drv k ≠ d.
Proof.
  intros Hk Heq. apply HdX. rewrite <- Heq. apply elem_of_list_to_set, list_elem_of_fmap. eauto.
Qed.

(** A derivation that was placed in this run is not queued. *)
#[local] Lemma out_ne a : a ∈ out → Assign.drv a ≠ d.
Proof.
  intros Ha Heq. destruct (d_out _ _ _ _ HD a Ha) as (e' & _ & _ & Hlk & wkr & Hw & _).
  destruct Hq as (Hd & _ & Hn & _). rewrite Heq, Hd in Hlk. simplify_eq.
  pose proof (WorkersOk_lt _ _ _ _ _ (inv_workers _ _ _ _ HI1) Hw). simpl in Hn. lia.
Qed.

#[local] Lemma queued_before : queued_as c0 d e.
Proof.
  pose proof Hq as (Hd & _ & Hn & _). eapply unplaced_queued; [exact H0| |done|set_solver].
  rewrite <- (d_rest _ _ _ _ HD); [done|].
  intros (a & Heq & Ha)%list_elem_of_fmap. by apply out_ne in Ha.
Qed.

Lemma Dinv_skip :
  no_place e (workers c) →
  Dinv c0 out (sk ++ [mkSkipped (Entry.system e) d (prio e c)]) (with_systems m c).
Proof.
  intros Hnp. destruct Hq as (Hd & _ & Hn & Hf). destruct HD. split; try done.
  - replace (skipped_set _) with (skipped_set sk ∪ {[d]}); [done|].
    unfold skipped_set. rewrite fmap_app, list_to_set_app_L. set_solver.
  - rewrite fmap_app. apply NoDup_app. split_and!; [done| |apply NoDup_singleton].
    intros d' (k & -> & Hk)%list_elem_of_fmap Heq%list_elem_of_singleton.
    by apply skipped_ne in Hk.
  - intros k [Hk| ->%list_elem_of_singleton]%elem_of_app.
    + destruct (d_skipped0 k Hk) as (e' & He'). exists e'. unfold skipped_as in *. simpl.
      split_and!; try apply He'. intros s. rewrite Hother by (by apply skipped_ne). apply He'.
    + exists e. by split_and!.
Qed.
Context (w : N) (wkr : Worker.t) (m' : gmap string SystemState.t).
Context (Hw : workers c !! w = Some wkr) (Hcan : can_run e wkr).
Context (Havoid : w = Entry.avoid e → ∀ w' wkr', w' ≠ Entry.avoid e →
  workers c !! w' = Some wkr' → ¬ could_run e wkr').
Context (Hbest : ∀ s st k, systems c !! s = Some st → ready st k → dltb k (prio e c) = false).
Let aid := u64 (lastAssignId c + 1).
Let c' := assigned d w aid e wkr m' (with_systems m c).
Let a := Assign.mk d w aid (Entry.followers e).
Context (HI' : Inv (skipped_set sk) ∅ ∅ c') (Hqv : ∀ s, qv m' s = qv m s).

#[local] Lemma assigned_lk d' :
  lk (entries c') d' =
  if decide (d' = d) then Some (Entry.with_assignId aid (Entry.with_worker w e))
  else lk (entries c) d'.
Proof. subst c'. simpl. destruct Hq as [Hd _]. by lk_simpl. Qed.

#[local] Lemma assigned_more : more_running (workers c) (workers c').
Proof. by apply more_running_insert. Qed.

(** What was placed before stays placed, within the slots of its worker. *)
#[local] Lemma placed_by_more a0 e0 : Assign.drv a0 ≠ d → placed_by c a0 e0 → placed_by c' a0 e0.
Proof.
  intros Hne (Hcl & Hlk & wkr0 & Hw0 & Hc0 & Hl0 & Hav0). split_and!; [done|by rewrite assigned_lk, decide_False|].
  destruct assigned_more as [Hback _]. subst c'. simpl.
  assert (Assign.worker a0 = Entry.avoid e0 → ∀ w' wkr', w' ≠ Entry.avoid e0 →
    <[w := Worker.with_running (Worker.running wkr ++ [d]) wkr]> (workers c) !! w' = Some wkr' →
    ¬ could_run e0 wkr') as Hav.
  { intros He w' wkr' Hne' Hw'. destruct (Hback w' wkr' Hw') as (wk & r & Hwk & ->).
    exact (Hav0 He w' wk Hne' Hwk). }
  destruct (decide (Assign.worker a0 = w)) as [Heq|Hneq].
  - rewrite Heq in Hw0. assert (wkr0 = wkr) as -> by congruence. rewrite Heq in *.
    eexists. split; [apply vlookup_insert_eq; by eapply vlookup_lt_Some|].
    split_and!; [exact Hc0| |done]. simpl. rewrite length_app. simpl. destruct Hcan. lia.
  - exists wkr0. rewrite vlookup_insert_ne by done. done.
Qed.

#[local] Lemma given_snoc w' : given (out ++ [a]) w' = given out w' ++ if decide (w' = w) then [d] else [].
Proof.
  unfold given. rewrite filter_app, fmap_app. f_equal. rewrite filter_cons, filter_nil.
  subst a. simpl. repeat case_decide; naive_solver.
Qed.

(** What stays unplaced and could have used the slot is not more urgent. *)
#[local] Lemma assign_urgent : no_inversion c0 c' a.
Proof.
  intros d' e' e0 wkr0 He0 He' Hn' Hw0 Ho Hav. simpl in *.
  pose proof queued_before as (Hd0 & _). assert (e0 = e) as -> by congruence.
  rewrite assigned_lk in He'. case_decide as Hd'; [simplify_eq; simpl in *|].
  { pose proof (WorkersOk_lt _ _ _ _ _ (inv_workers _ _ _ _ HI1) Hw). lia. }
  pose proof (d_workers _ _ _ _ HD w) as Hw1. rewrite Hw0, Hw in Hw1. simpl in Hw1.
  assert (offers wkr e' = true) as Ho' by (injection Hw1 as ->; exact Ho).
  assert (can_run e' wkr) as Hcan' by (destruct Hcan as [[? _] ?]; done).
  destruct (decide (d' ∈ skipped_set sk)) as [Hs|Hs].
  - apply elem_of_list_to_set, list_elem_of_fmap in Hs as (k & -> & Hk).
    destruct (d_skipped _ _ _ _ HD k Hk) as (e1 & He1 & _ & _ & _ & _ & Hnp & _).
    assert (e1 = e') as -> by congruence. by destruct (Hnp w wkr Hw Hcan').
  - pose proof (unplaced_queued _ _ _ _ _ _ (d_inv _ _ _ _ HD) He' Hn' Hs) as Hq'.
    destruct (can_run_ready _ _ _ _ _ _ _ (d_inv _ _ _ _ HD) Hq' Hw Hcan') as (st & k & Hst & Hr & Hle).
    pose proof (Hbest _ _ _ Hst Hr) as Hle2. apply not_true_is_false. intros Hlt.
    pose proof (d_inv _ _ _ _ HD) as HI. inv_fields HI.
    assert (is_nan (prio e' c) = false) by (apply prio_not_nan; [done|by eapply Ient]).
    assert (is_nan (prio e c) = false) by (apply prio_not_nan; [done|destruct Hq as [? _]; by eapply Ient]).
    assert (is_nan k = false) by (destruct (Isys _ _ Hst) as (_ & ? & _); by eapply topKey_not_nan, Hr).
    assert (dltb (prio e' c) k = true) by (apply (dltb_lt_le _ (prio e c)); [done..|exact Hlt|exact Hle2]). congruence.
Qed.
Lemma Dinv_assign : Dinv c0 (out ++ [a]) sk c'.
Proof.
  pose proof Hq as (Hd & _ & Hn & Hf). pose proof queued_before as Hq0.
  pose proof (vlookup_lt_Some _ _ _ Hw) as Hlt. split.
  - exact HI'.
  - exact (d_frame _ _ _ _ HD).
  - exact (d_sk_nodup _ _ _ _ HD).
  - intros k Hk. destruct (d_skipped _ _ _ _ HD k Hk) as (e' & H1 & H2 & H3 & H4 & H5 & H6 & H7).
    pose proof (skipped_ne k Hk) as Hne. exists e'. split_and!; [|done..| |].
    + by rewrite assigned_lk, decide_False.
    + eapply no_place_more; [apply assigned_more|done].
    + intros s. unfold c'; simpl. by rewrite Hqv, Hother.
  - intros w'. rewrite given_snoc. unfold c'; simpl.
    pose proof (d_workers _ _ _ _ HD w') as Hw'. case_decide as Hww.
    + subst w'. rewrite vlookup_insert_eq by done. rewrite Hw in Hw'.
      destruct (workers c0 !! w) as [wk0|]; [|done]. simpl in *. injection Hw' as ->. simpl.
      by rewrite app_assoc.
    + by rewrite vlookup_insert_ne, app_nil_r by done.
  - rewrite fmap_app. apply NoDup_app. split_and!; [apply HD| |apply NoDup_singleton].
    intros d' (a0 & -> & Ha0)%list_elem_of_fmap Heq%list_elem_of_singleton. by apply out_ne in Ha0.
  - intros a0 [Ha0| ->%list_elem_of_singleton]%elem_of_app.
    + destruct (d_out _ _ _ _ HD a0 Ha0) as (e0 & Hq1 & Hp1). exists e0. split; [done|].
      by apply placed_by_more; [apply out_ne|].
    + exists e. split; [done|]. split_and!; [done|by rewrite assigned_lk, decide_True|].
      eexists. unfold c'; simpl. split; [by apply vlookup_insert_eq|].
      split_and!; [exact (proj1 Hcan)| |].
      * simpl. rewrite length_app. simpl. destruct Hcan. lia.
      * intros He w' wkr' Hne' Hw'. destruct assigned_more as [Hback _].
        destruct (Hback w' wkr' Hw') as (wk & r & Hwk & ->). exact (Havoid He w' wk Hne' Hwk).
  - intros d' Hd'. rewrite fmap_app, not_elem_of_app in Hd'. destruct Hd' as [Hd1 Hd2].
    rewrite assigned_lk, decide_False by set_solver. by apply (d_rest _ _ _ _ HD).
  - destruct (d_ids _ _ _ _ HD) as [Hl Hi].
    assert (aid = u64 (lastAssignId c0 + N.of_nat (length out) + 1)) as Haid.
    { unfold aid. unfold u64 in *. rewrite <- N.Div0.add_mod_idemp_l, Hl. by rewrite N.Div0.add_mod_idemp_l. }
    split.
    + unfold c'; simpl. unfold u64 at 1. rewrite Haid. unfold u64. rewrite N.Div0.mod_mod.
      rewrite length_app. f_equal. simpl. lia.
    + intros i0 a0 [Ha0|[Hge Ha0]]%lookup_app_Some; [by apply Hi|].
      apply list_lookup_singleton_Some in Ha0 as [? <-]. simpl. rewrite Haid. do 2 f_equal. lia.
  - intros a0 [Ha0| ->%list_elem_of_singleton]%elem_of_app; [|exact assign_urgent].
    intros d' e' e0 wkr0 He0 He' Hn'. rewrite assigned_lk in He'. case_decide; [simplify_eq; simpl in *|].
    { pose proof (WorkersOk_lt _ _ _ _ _ (inv_workers _ _ _ _ HI1) Hw). lia. }
    by apply (d_urgent _ _ _ _ HD a0 Ha0 d').
Qed.
End Round.

(** ** dispatchHead *)

(** Everything that is in a queue. *)
Definition queue_set (m : gmap string SystemState.t) : gset N :=
  map_fold (λ _ st acc, dom (IndexedHeap.view (SystemState.queue st)) ∪ acc) ∅ m.

Lemma elem_of_queue_set m d : d ∈ queue_set m ↔ ∃ s, is_Some (qv m s !! d).
Proof.
  unfold queue_set, qv. apply (map_fold_weak_ind (λ acc m, d ∈ acc ↔ ∃ s,
    is_Some (match m !! s with Some st => IndexedHeap.view (SystemState.queue st) | None => ∅ end !! d))).
  - split; [set_solver|]. intros [s Hs]. rewrite !lookup_empty in Hs. by destruct Hs.
  - intros s st m' acc Hs IH. rewrite elem_of_union, IH, elem_of_dom. split.
    + intros [H|[s' H]]; [exists s; by rewrite lookup_insert_eq|]. exists s'.
      rewrite lookup_insert_ne; [done|]. intros ->. rewrite Hs, lookup_empty in H. by destruct H.
    + intros [s' H]. destruct (decide (s' = s)) as [->|Hne].
      * rewrite lookup_insert_eq in H. by left.
      * rewrite lookup_insert_ne in H by done. right. by exists s'.
Qed.

Lemma queue_set_size c : SysOk (systems c) → (size (queue_set (systems c)) ≤ N.to_nat (queued c))%nat.
Proof.
  unfold queue_set, queued. rewrite !map_fold_foldr.
  intros Hok. assert (∀ p, p ∈ map_to_list (systems c) → sys_ok p.2) as Hall.
  { intros [s st] Hp%elem_of_map_to_list. by apply (Hok s). }
  clear Hok. induction (map_to_list (systems c)) as [|[s st] l IH]; simpl.
  { done. }
  assert (sys_ok st) as (Hwf & _) by (apply (Hall (s, st)); set_solver).
  rewrite IndexedHeap.size_view by done.
  pose proof (size_union_alt (dom (IndexedHeap.view (SystemState.queue st)))
    (foldr (uncurry (λ _ st acc, dom (IndexedHeap.view (SystemState.queue st)) ∪ acc)) ∅ l)) as Hu.
  specialize (IH ltac:(intros; apply Hall; set_solver)).
  rewrite Hu, size_dom.
  assert (size (foldr (uncurry (λ _ st acc, dom (IndexedHeap.view (SystemState.queue st)) ∪ acc)) ∅ l
    ∖ dom (IndexedHeap.view (SystemState.queue st)) : gset N) ≤
    size (foldr (uncurry (λ _ st acc, dom (IndexedHeap.view (SystemState.queue st)) ∪ acc)) ∅ l : gset N)).
  { apply subseteq_size. set_solver. }
  lia.
Qed.

Lemma sys_present s st c : systems c !! s = Some st → sys s c = c.
Proof. intros Hs. unfold sys. by rewrite Hs. Qed.

(** One round keeps the state of the loop and takes one derivation off the
    queues; the branch for a stale entry is never taken. *)
Lemma dispatchHead_spec c0 c out sk s st k :
  inv c0 → Dinv c0 out sk c → systems c !! s = Some st → ready st k →
  (∀ s' st' k', systems c !! s' = Some st' → ready st' k' → dltb k' k = false) →
  wp (dispatchHead s out sk) (λ r c', Dinv c0 r.1 r.2 c' ∧
    queue_set (systems c') ⊂ queue_set (systems c)) c.
Proof.
  intros H0 HD Hst Hr Hbest. pose proof (d_inv _ _ _ _ HD) as HI.
  destruct (head_entry _ _ _ _ s st k HI Hst Hr) as (d & e & Htop & Hq & Hs & Hk & HdX).
  { intros d s' (sk0 & -> & Hin)%elem_of_list_to_set%list_elem_of_fmap.
    by destruct (d_skipped _ _ _ _ HD sk0 Hin) as (? & _ & _ & _ & _ & _ & _ & ?). }
  pose proof Hq as (Hd & Hqd & Hn & Hf). rewrite <- Hk in Hbest. clear k Hr Hk.
  unfold dispatchHead. apply wp_bind, wp_modify. rewrite (sys_present _ _ _ Hst). wp_steps.
  rewrite Htop. simpl. rewrite <- Hs in *. eapply wp_mono; [by apply erase_queue_inv|].
  intros [] c1 (m & -> & HI1 & Hno & Hother).
  assert (∀ m', (∀ s, qv m' s = qv m s) → queue_set m' ⊂ queue_set (systems c)) as Hdec.
  { intros m' Hm'. split.
    - intros d'. rewrite !elem_of_queue_set. intros [s' Hs']. rewrite Hm' in Hs'. exists s'.
      destruct (decide (d' = d)) as [->|Hne]; [by rewrite Hno in Hs'; destruct Hs'|].
      by rewrite <- Hother.
    - intros Hsub. assert (d ∈ queue_set m') as Hin.
      { apply Hsub, elem_of_queue_set. eexists. by rewrite Hqd. }
      apply elem_of_queue_set in Hin as [s' Hs']. rewrite Hm', Hno in Hs'. by destruct Hs'. }
  apply wp_bind. eapply wp_at; [apply lk_Some, Hd|]. cbn beta iota zeta.
  rewrite bool_decide_eq_false_2, Hn, N.eqb_refl by done. simpl.
  apply wp_bind. eapply wp_mono; [by eapply pick_spec|]. intros o c1 [-> Ho].
  destruct o as [w|].
  - destruct Ho as [(wkr & Hw & Hcan) Havoid]. eapply assign_inv; try done.
    { destruct Hcan as [[Ht _] _]. unfold Worker.takesWork in Ht. by destruct (Worker.up wkr). }
    intros m' aid HI' Hqv. wp_steps. split; [|by apply Hdec].
    exact (Dinv_assign c0 c out sk d e H0 HD Hq HdX m HI1 Hno Hother w wkr m' Hw Hcan Havoid Hbest HI' Hqv).
  - wp_steps. split; [|by apply Hdec]. exact (Dinv_skip c0 c out sk d e H0 HD Hq HdX m HI1 Hno Hother Ho).
Qed.

(** ** The loop *)

Lemma order_elem ord n m p : p ∈ order_of ord n m ↔ m !! p.1 = Some p.2.
Proof. rewrite (order_perm ord n m). destruct p. by rewrite elem_of_map_to_list. Qed.

Lemma dispatch_loop_spec ord fuel c0 c out sk :
  inv c0 → Dinv c0 out sk c → (size (queue_set (systems c)) < fuel)%nat →
  wp (dispatch_loop ord fuel out sk) (λ r c', Dinv c0 r.1 r.2 c' ∧
    ∀ s st k, systems c' !! s = Some st → ¬ ready st k) c.
Proof.
  intros H0. revert c out sk. induction fuel as [|fuel IH]; intros c out sk HD Hfuel; [lia|].
  simpl. wp_steps. pose proof (best_system_spec (order_of ord fuel (systems c))) as Hbest.
  assert (∀ p k, p ∈ order_of ord fuel (systems c) → ready p.2 k → is_nan k = false) as Hnan.
  { intros p k Hp%order_elem [Hk _]. eapply topKey_not_nan; [|done].
    by apply (inv_sys _ _ _ _ (d_inv _ _ _ _ HD) _ _ Hp). }
  specialize (Hbest Hnan). destruct (best_system _) as [[s k]|]; simpl in Hbest.
  - destruct Hbest as [(st & Hst%order_elem & Hr) Hmin]. apply wp_bind.
    eapply wp_mono; [eapply dispatchHead_spec; [done|done|exact Hst|exact Hr|]|].
    + intros s' st' k' Hs' Hr'. apply (Hmin (s', st')); [by apply order_elem|done].
    + intros r c' [HD' Hlt]. apply IH; [done|]. apply subset_size in Hlt. lia.
  - wp_steps. split; [done|]. intros s st k Hs Hr. apply (Hbest (s, st) k); [|done].
    by apply order_elem.
Qed.

(** ** The end of dispatch: skipped derivations go back to their queues *)

Definition requeued_upto (c1 : core) (rest : list Skipped) (c : core) : Prop :=
  Inv (skipped_set rest) ∅ ∅ c ∧ ∃ m, c = with_systems m c1.

Lemma requeue_skipped_spec sk c1 :
  Inv (skipped_set sk) ∅ ∅ c1 → NoDup (sk_drv <$> sk) →
  (∀ k, k ∈ sk → ∃ e, skipped_as c1 k e) →
  wp (forM_ sk (λ skip, on_queue (sk_system skip) (IndexedHeap.set (sk_drv skip) (sk_key skip))))
    (λ _ c', inv c' ∧ ∃ m, c' = with_systems m c1) c1.
Proof.
  intros HI Hnd Hsk. eapply wp_mono; [apply (wp_forM _ (λ rest c, requeued_upto c1 rest c ∧
    NoDup (sk_drv <$> rest) ∧ ∀ k, k ∈ rest → k ∈ sk))|].
  - split_and!; [split; [done|exists (systems c1); by destruct c1]|done..].
  - intros k rest c ([HIc [m ->]] & Hnd' & Hin).
    destruct (Hsk k) as (e & Hd & Hn & Hf & Hs & Hk & _); [apply Hin; set_solver|].
    rewrite Hs, Hk. simpl in Hnd'. apply NoDup_cons in Hnd' as [Hno Hnd'].
    eapply wp_mono; [by apply (set_queue_inv _ _ _ _ (sk_drv k) e HIc)|].
    intros _ c' [HI' [m' ->]]. split_and!; [split; [|by exists m']|done|set_solver].
    replace (skipped_set rest) with (skipped_set (k :: rest) ∖ {[sk_drv k]}); [done|].
    unfold skipped_set in *. simpl. set_solver.
  - intros _ c' [[HI' Hm] _]. done.
Qed.

(** Nothing is left that could be placed. *)
Lemma Dinv_done c0 out sk c d e :
  Dinv c0 out sk c → (∀ s st k, systems c !! s = Some st → ¬ ready st k) →
  lk (entries c) d = Some e → Entry.worker e = noWorker → no_place e (workers c).
Proof.
  intros HD Hdone Hd Hn. pose proof (d_inv _ _ _ _ HD) as HI.
  destruct (decide (d ∈ skipped_set sk)) as [Hs|Hs].
  - apply elem_of_list_to_set, list_elem_of_fmap in Hs as (k & -> & Hk).
    destruct (d_skipped _ _ _ _ HD k Hk) as (e1 & He1 & _ & _ & _ & _ & Hnp & _). naive_solver congruence.
  - intros w wkr Hw Hcan. pose proof (unplaced_queued _ _ _ _ _ _ HI Hd Hn Hs) as Hq.
    destruct (can_run_ready _ _ _ _ _ _ _ HI Hq Hw Hcan) as (st & k & Hst & Hr & _).
    by destruct (Hdone _ _ _ Hst Hr).
Qed.

Lemma Dinv_start c : inv c → Dinv c [] [] c.
Proof.
  intros HI. split; try done; try constructor; try by intros ? ?%not_elem_of_nil.
  - intros w. destruct (workers c !! w) as [wkr|]; [|done]. simpl. rewrite app_nil_r. by destruct wkr.
  - by rewrite N.add_0_r.
  - done.
Qed.

Lemma dispatch_spec ord c :
  inv c →
  wp (dispatch ord) (λ out c', inv c' ∧ Dinv c out [] c' ∧
    ∀ d e, lk (entries c') d = Some e → Entry.worker e = noWorker → no_place e (workers c')) c.
Proof.
  intros HI. unfold dispatch. wp_steps.
  eapply wp_mono; [eapply dispatch_loop_spec; [done|by apply Dinv_start|]|].
  { pose proof (queue_set_size c (inv_sys _ _ _ _ HI)). lia. }
  intros [out sk] c1 [HD Hdone]. simpl in *. apply wp_bind.
  eapply wp_mono; [eapply requeue_skipped_spec; apply HD|].
  intros [] c2 [HI2 [m ->]]. wp_steps. split_and!; [done| |].
  - destruct HD. split; try done; [constructor|by intros k ?%not_elem_of_nil].
  - intros d e Hd Hn. exact (Dinv_done c out sk c1 d e HD Hdone Hd Hn).
Qed.
