(* ===== verification/SchedPlace.v ===== *)
(** * The scheduler's placement core: placeability and metrics

    [Core::placeabilityChanges], [markUnplaceable], [offeredFeatures] and
    [stats] of src/src/daemon/scheduler.hh.  The memo tables of both scans give
    the answer [placeable] would give. *)

From stdpp Require Import sorting.
From S2P Require Import Prelude Double PathKey Heap Free Sched SchedInv SchedOps.

(** Wanted and not placed. *)
Definition waiting (e : Entry.t) : bool :=
  (Entry.worker e =? noWorker)%N && negb (bool_decide (Entry.followers e = [])).

Lemma placeable_key e e' c :
  Entry.system e = Entry.system e' → Entry.features e = Entry.features e' →
  placeable e c = placeable e' c.
Proof.
  intros Hs Hf. unfold placeable, offers. by rewrite Hs, Hf.
Qed.

(** ** placeabilityChanges *)

(** The flag says what the followers are told from now on. *)
Definition fix_flag (c : core) (e : Entry.t) : Entry.t :=
  if waiting e then Entry.with_unplaceable (negb (placeable e c)) e else e.

Definition flips (c : core) (d : N) : Prop :=
  ∃ e, lk (entries c) d = Some e ∧ waiting e = true ∧ Entry.unplaceable e = placeable e c.

Definition memo_ok (c : core) (mm : memo) : Prop :=
  ∀ s fs b, mm !! (s, fs) = Some b →
    ∀ e, Entry.system e = s → Entry.features e = fs → placeable e c = b.

Definition changes_upto (c : core) (rest : list N) (acc : memo * list N) (c1 : core) : Prop :=
  (∃ ents, c1 = with_entries ents c ∧ vlen ents = vlen (entries c) ∧
    (∀ d, ents !! d = Some None ↔ entries c !! d = Some None) ∧
    ∀ d, lk ents d = if decide (d ∈ rest) then lk (entries c) d else fix_flag c <$> lk (entries c) d) ∧
  memo_ok c acc.1 ∧ NoDup acc.2 ∧
  ∀ d, d ∈ acc.2 ↔ flips c d ∧ d ∉ rest.

Lemma waiting_skip e :
  negb (Entry.worker e =? noWorker)%N || bool_decide (Entry.followers e = []) = negb (waiting e).
Proof. unfold waiting. by rewrite negb_andb, negb_involutive. Qed.

Lemma with_unplaceable_id e : Entry.with_unplaceable (Entry.unplaceable e) e = e.
Proof. by destruct e. Qed.

Section ChangesStep.
Context (c : core) (d : N) (rest : list N) (acc : memo * list N) (ents : list (option Entry.t)).
Context (Hlen : vlen ents = vlen (entries c)) (Hd : (d < vlen ents)%N) (Hno : d ∉ rest).
Context (Hnone : ∀ d, ents !! d = Some None ↔ entries c !! d = Some None).
Context (Hlk : ∀ d', lk ents d' =
  if decide (d' ∈ d :: rest) then lk (entries c) d' else fix_flag c <$> lk (entries c) d').
Context (Hmemo : memo_ok c acc.1) (Hnd : NoDup acc.2).
Context (Hout : ∀ d', d' ∈ acc.2 ↔ flips c d' ∧ d' ∉ d :: rest).

Lemma lk_here : lk ents d = lk (entries c) d.
Proof using Hlk. rewrite Hlk, decide_True; [done|apply elem_of_cons; by left]. Qed.

(** Nothing to do for [d]. *)
Lemma changes_keep mm :
  (fix_flag c <$> lk (entries c) d) = lk (entries c) d → ¬ flips c d → memo_ok c mm →
  changes_upto c rest (mm, acc.2) (with_entries ents c).
Proof using All.
  intros Hfix Hfl Hmm. split_and!; [exists ents; split_and!; [done..|]|done|done|].
  - intros d'. rewrite Hlk. destruct (decide (d' = d)) as [->|Hne].
    + rewrite decide_True, decide_False by set_solver. done.
    + repeat case_decide; set_solver.
  - intros d'. rewrite Hout. split; [set_solver|]. intros [Hf Hr]. split; [done|].
    intros [->|?]%elem_of_cons; done.
Qed.

(** The flag of [d] flips. *)
Lemma changes_flip mm e :
  lk (entries c) d = Some e → flips c d → memo_ok c mm →
  changes_upto c rest (mm, acc.2 ++ [d])
    (with_entries (<[d := Some (fix_flag c e)]> ents) c).
Proof using All.
  intros He Hfl Hmm. split_and!; [eexists; split_and!; [done|by rewrite vlen_insert|..]|done|..].
  - intros d'. destruct (decide (d = d')) as [<-|Hne].
    + rewrite vlookup_insert_eq by done. rewrite <- Hnone.
      pose proof lk_here as Hl. rewrite He in Hl. apply lk_Some in Hl. naive_solver.
    + by rewrite vlookup_insert_ne.
  - intros d'. rewrite lk_insert by done. destruct (decide (d' = d)) as [->|Hne].
    + rewrite decide_False by done. by rewrite He.
    + rewrite Hlk. repeat case_decide; set_solver.
  - simpl. apply NoDup_app. split_and!; [done| |apply NoDup_singleton].
    intros d' Hd' ->%list_elem_of_singleton. apply Hout in Hd'. set_solver.
  - intros d'. simpl. rewrite elem_of_app, list_elem_of_singleton, Hout.
    destruct (decide (d' = d)) as [->|Hne]; set_solver.
Qed.
End ChangesStep.

Lemma memo_ok_insert c mm e :
  memo_ok c mm →
  let answer := default (placeable e c) (mm !! (Entry.system e, Entry.features e)) in
  answer = placeable e c ∧ memo_ok c (<[(Entry.system e, Entry.features e) := answer]> mm).
Proof.
  intros Hm answer. assert (answer = placeable e c) as Ha.
  { subst answer. destruct (mm !! _) as [b|] eqn:Hb; [|done]. simpl. by rewrite (Hm _ _ _ Hb e). }
  split; [done|]. intros s fs b [[[= <- <-] <-]|[Hne Hb]]%lookup_insert_Some e' Hs Hf.
  - rewrite Ha. by apply placeable_key.
  - by apply (Hm _ _ _ Hb e').
Qed.

(** The scan reports, once each, exactly the waiting derivations whose
    placeability is not what the followers were last told, and then the flags
    are right. *)
Lemma placeabilityChanges_scan c :
  inv c →
  wp placeabilityChanges (λ out c', changes_upto c [] (∅, out) c') c.
Proof.
  intros HI. unfold placeabilityChanges. wp_steps.
  eapply wp_mono; [apply (wp_foldM _ (λ rest acc c1, changes_upto c rest acc c1 ∧
    NoDup rest ∧ ∀ d, d ∈ rest → (d < vlen (entries c))%N))|].
  - assert (∀ d e, lk (entries c) d = Some e → d ∈ range 0 (vlen (entries c))) as Hin.
    { intros d e Hd%lk_lt. apply elem_of_range. lia. }
    split; [split_and!; [exists (entries c); split_and!; [by destruct c|done|done|]| | |]|split].
    + intros d. case_decide as Hr; [done|]. destruct (lk (entries c) d) eqn:Hd; [|done].
      by apply Hin in Hd.
    + intros s fs b Hb. simpl in Hb. by rewrite lookup_empty in Hb.
    + constructor.
    + intros d. split; [by intros ?%not_elem_of_nil|]. intros [(e & He & _) Hr].
      by apply Hin in He.
    + apply NoDup_fmap; [apply _|apply NoDup_seq].
    + intros d Hd%elem_of_range. lia.
  - intros d rest [mm out] c1 ([(ents & -> & Hlen & Hnone & Hlk) (Hmemo & Hnd & Hout)] & Hrest & Hlt).
    apply NoDup_cons in Hrest as [Hno Hrest].
    assert (d < vlen ents)%N as Hd by (rewrite Hlen; apply Hlt; set_solver).
    assert (∀ d, d ∈ rest → (d < vlen (entries c))%N) as Hlt' by (intros; apply Hlt; set_solver).
    pose proof (lk_here c d rest ents Hlk) as Hhere. simpl in Hmemo, Hnd, Hout.
    pose proof (changes_keep c d rest (mm, out) ents Hlen Hd Hno Hnone Hlk Hmemo Hnd Hout) as Hkeep.
    pose proof Hd as [slot Hslot]%vlookup_lt. apply wp_bind. eapply wp_at; [exact Hslot|].
    assert (lk (entries c) d = slot) as Hl by (rewrite <- Hhere; unfold lk; by rewrite Hslot).
    destruct slot as [e|].
    2:{ wp_steps. split_and!; [apply Hkeep; try done|done..].
        - by rewrite Hl.
        - intros (e & He & _). congruence. }
    rewrite waiting_skip. destruct (waiting e) eqn:Hwait; simpl.
    2:{ wp_steps. split_and!; [apply Hkeep; try done|done..].
        - rewrite Hl. simpl. unfold fix_flag. by rewrite Hwait.
        - intros (e' & He' & Hw' & _). congruence. }
    wp_steps. destruct (memo_ok_insert c mm e Hmemo) as [Ha Hmm]. simpl in Ha, Hmm.
    change (placeable e (with_entries ents c)) with (placeable e c).
    set (answer := default _ _) in *.
    destruct (Bool.eqb_spec (Entry.unplaceable e) answer) as [Heq|Heq].
    + apply wp_bind, wp_set_at; [done|]. wp_steps.
      rewrite u32_small.
      2:{ pose proof (tab_len _ _ _ (inv_tables _ _ _ _ HI)). unfold maxEntries in *. lia. }
      split_and!; [|done..].
      pose proof (changes_flip c d rest (mm, out) ents Hlen Hd Hno Hnone Hlk Hmemo Hnd Hout
        (<[(Entry.system e, Entry.features e) := answer]> mm) e Hl) as Hfl.
      unfold fix_flag in Hfl at 1. rewrite Hwait, <- Ha in Hfl. apply Hfl; [|done].
      exists e. by rewrite <- Ha.
    + wp_steps. split_and!; [|done..]. apply Hkeep; try done.
      * rewrite Hl. simpl. unfold fix_flag. rewrite Hwait, <- Ha. f_equal.
        replace (negb answer) with (Entry.unplaceable e); [apply with_unplaceable_id|].
        by destruct (Entry.unplaceable e), answer.
      * intros (e' & He' & _ & Hu). rewrite Hl in He'. simplify_eq. by rewrite <- Ha in Hu.
  - intros acc c1 [H _]. wp_steps. destruct H as (He & _ & Hnd & Hout).
    split_and!; [done| |done|done]. intros s fs b Hb. simpl in Hb. by rewrite lookup_empty in Hb.
Qed.

Lemma prio_unplaceable b e c : prio (Entry.with_unplaceable b e) c = prio e c.
Proof. done. Qed.

Lemma fix_flag_keeps c e :
  Entry.drvPath (fix_flag c e) = Entry.drvPath e ∧ Entry.system (fix_flag c e) = Entry.system e ∧
  Entry.worker (fix_flag c e) = Entry.worker e ∧
  Entry.followers (fix_flag c e) = Entry.followers e ∧
  prio (fix_flag c e) c = prio e c ∧ (entry_ok (cfg c) e → entry_ok (cfg c) (fix_flag c e)).
Proof. unfold fix_flag. by destruct (waiting e). Qed.

Lemma Inv_fix_flag c ents :
  inv c → vlen ents = vlen (entries c) →
  (∀ d, ents !! d = Some None ↔ entries c !! d = Some None) →
  (∀ d, lk ents d = (fix_flag c <$> lk (entries c) d)) →
  inv (with_entries ents c).
Proof.
  intros HI Hlen Hnone Hlk. inv_fields HI.
  assert (∀ d e', lk ents d = Some e' ↔ ∃ e, lk (entries c) d = Some e ∧ e' = fix_flag c e) as Hl.
  { intros d e'. rewrite Hlk, fmap_Some. done. }
  split; simpl; try done.
  - destruct Itab as [H1 H2 H3 H4]. split; [by rewrite Hlen| |done|].
    + intros k d. rewrite H2. setoid_rewrite Hl. split.
      * intros (e & He & <-). exists (fix_flag c e). split; [eauto|]. by rewrite (proj1 (fix_flag_keeps c e)).
      * intros (? & (e & He & ->) & <-). exists e. by rewrite (proj1 (fix_flag_keeps c e)).
    + intros d. by rewrite Hnone.
  - intros d e' (e & He & ->)%Hl. apply fix_flag_keeps. by eapply Ient.
  - destruct Ipl as [H1 H2 H3 H4]. split; [| |done|].
    + intros s d (e & He & Hs & Hw)%H1. destruct (fix_flag_keeps c e) as (_ & Ks & Kw & _).
      exists (fix_flag c e). rewrite Hl, Ks, Kw. eauto.
    + intros w d (e & He & Hw)%H2. destruct (fix_flag_keeps c e) as (_ & _ & Kw & _).
      exists (fix_flag c e). rewrite Hl, Kw. eauto.
    + intros d e' (e & He & ->)%Hl HX. destruct (fix_flag_keeps c e) as (_ & Ks & Kw & Kf & _).
      specialize (H4 d e He HX). unfold placed in *. by rewrite Ks, Kw, Kf.
  - intros s d k e' Hk (e & He & ->)%Hl HX. destruct (fix_flag_keeps c e) as (_ & _ & _ & _ & Kp & _).
    rewrite (Ikey s d k e Hk He HX). symmetry. exact Kp.
  - intros cl d e' HG (e & He & ->)%Hl. destruct (fix_flag_keeps c e) as (_ & _ & _ & Kf & _).
    rewrite Kf. by apply Ifol.
Qed.

Lemma placeabilityChanges_spec c :
  inv c →
  wp placeabilityChanges (λ out c', inv c' ∧ workers c' = workers c ∧
    (∀ d, lk (entries c') d = (fix_flag c <$> lk (entries c) d)) ∧
    NoDup out ∧ ∀ d, d ∈ out ↔ flips c d) c.
Proof.
  intros HI. eapply wp_mono; [by apply placeabilityChanges_scan|].
  intros out c' ((ents & -> & Hlen & Hnone & Hlk) & _ & Hnd & Hout). simpl in *.
  assert (∀ d, lk ents d = (fix_flag c <$> lk (entries c) d)) as Hlk'.
  { intros d. by rewrite Hlk. }
  split_and!; [by apply Inv_fix_flag|done..|]. intros d. rewrite Hout. set_solver.
Qed.

Lemma markUnplaceable_spec d b c :
  inv c → (d < vlen (entries c))%N →
  wp (markUnplaceable d b) (λ _ c', inv c' ∧ workers c' = workers c ∧
    ∀ d', lk (entries c') d' = if decide (d' = d)
      then Entry.with_unplaceable b <$> lk (entries c) d else lk (entries c) d') c.
Proof.
  intros HI Hlt. pose proof Hlt as [slot Hs]%vlookup_lt. unfold markUnplaceable. apply wp_bind.
  eapply wp_at; [done|]. destruct slot as [e|].
  - apply lk_Some in Hs as Hd. apply wp_set_at; [done|]. split_and!; [|done|].
    + eapply Inv_entry; try done; [exact (inv_entries _ _ _ _ HI d e Hd)|tauto|by right; right].
    + intros d'. lk_simpl. by rewrite Hd.
  - wp_steps. split_and!; [done..|]. intros d'. case_decide; [subst|done].
    unfold lk. by rewrite Hs.
Qed.

(** ** stats *)

Definition sumN {A} (g : A → N) (l : list A) : N := foldr (λ x n, (n + g x)%N) 0%N l.

Lemma sumN_snoc {A} (g : A → N) l x : sumN g (l ++ [x]) = (sumN g l + g x)%N.
Proof. unfold sumN. induction l as [|y l IH]; simpl; [lia|]. rewrite IH. lia. Qed.

(** Whether the metric [key] counts an entry of [P]; summed over the entries. *)
Definition counts (P : Entry.t → bool) (key : StatsKey) (o : option Entry.t) : N :=
  match o with
  | Some e => if waiting e && bool_decide ((Entry.system e, featureKey (Entry.features e)) = key) && P e
              then 1 else 0
  | None => 0
  end.
Definition count_waiting (P : Entry.t → bool) (key : StatsKey) (ents : list (option Entry.t)) : N :=
  sumN (counts P key) ents.

(** The sum of [f] over the workers [key] stands for. *)
Definition worker_share (f : Worker.t → N) (key : StatsKey) (w : Worker.t) : N :=
  match Worker.systems w with
  | s :: _ => if bool_decide ((s, featureKey (Worker.features w)) = key) then f w else 0
  | [] => 0
  end.
Definition sum_workers (f : Worker.t → N) (key : StatsKey) (wks : list Worker.t) : N :=
  sumN (worker_share f key) wks.

Definition stat (f : Stats.t → N) (m : gmap StatsKey Stats.t) (key : StatsKey) : N :=
  f (default Stats.zero (m !! key)).

Definition free_slots (w : Worker.t) : N :=
  if Worker.takesWork w
  then Z.to_N (Z.max 0 (Worker.maxJobs w - Z.of_nat (length (Worker.running w)))) else 0.
Definition job_slots (w : Worker.t) : N :=
  if Worker.takesWork w then Z.to_N (Worker.maxJobs w) else 0.

Definition worker_stats (key : StatsKey) (m0 : gmap StatsKey Stats.t) (wks : list Worker.t) : Stats.t :=
  Stats.mk (stat Stats.queued m0 key) (stat Stats.unplaceable m0 key)
    (stat Stats.running m0 key + sum_workers (λ w, N.of_nat (length (Worker.running w))) key wks)
    (stat Stats.slots m0 key + sum_workers job_slots key wks)
    (stat Stats.free m0 key + sum_workers free_slots key wks).

Lemma stats_workers m0 wks key :
  default Stats.zero (foldl stats_worker m0 wks !! key) = worker_stats key m0 wks.
Proof.
  induction wks as [|w wks IH] using rev_ind.
  - unfold worker_stats, stat. simpl. rewrite !N.add_0_r. by destruct (default _ _).
  - rewrite foldl_app. simpl. set (m := foldl _ m0 wks) in *. unfold worker_stats in *.
    unfold sum_workers in *. rewrite !sumN_snoc. unfold stats_worker, worker_share at 2 4 6.
    destruct (Worker.systems w) as [|s ss]; [by rewrite !N.add_0_r|].
    unfold job_slots at 2, free_slots at 2. rewrite nat_N_Z.
    destruct (Worker.takesWork w), (bool_decide_reflect ((s, featureKey (Worker.features w)) = key)) as [<-|Hne];
      rewrite ?lookup_insert_eq, ?lookup_insert_ne by done; simpl; rewrite IH; simpl; f_equal; lia.
Qed.

Definition stats_key (e : Entry.t) : StatsKey := (Entry.system e, featureKey (Entry.features e)).

(** Waiting entries that share a metric are equally placeable. *)
Definition no_collision (c : core) (ents : list (option Entry.t)) : Prop :=
  ∀ e e', Some e ∈ ents → Some e' ∈ ents → waiting e = true → waiting e' = true →
    stats_key e = stats_key e' → placeable e c = placeable e' c.

Definition entry_stats (c : core) (key : StatsKey) (s0 : Stats.t) (ents : list (option Entry.t)) :
    Stats.t :=
  Stats.mk (Stats.queued s0 + count_waiting (λ _, true) key ents)
    (Stats.unplaceable s0 + count_waiting (λ e, negb (placeable e c)) key ents)
    (Stats.running s0) (Stats.slots s0) (Stats.free s0).

Lemma stats_entries c m0 ents :
  no_collision c ents →
  let r := foldl (stats_entry c) (m0, ∅) ents in
  (∀ key, default Stats.zero (r.1 !! key) =
     entry_stats c key (default Stats.zero (m0 !! key)) ents) ∧
  (∀ key b, r.2 !! key = Some b →
     ∃ e, Some e ∈ ents ∧ waiting e = true ∧ stats_key e = key ∧ placeable e c = b).
Proof.
  induction ents as [|o ents IH] using rev_ind; intros Hcol.
  { split; simpl; [|by intros key b; rewrite lookup_empty].
    intros key. unfold entry_stats, count_waiting. simpl. rewrite !N.add_0_r. by destruct (default _ _). }
  destruct IH as [Hm Hmemo]. { intros e e' He He'. apply Hcol; set_solver. }
  rewrite foldl_app. simpl. set (r := foldl _ _ ents) in *. destruct r as [m mm]. simpl in *.
  unfold entry_stats, count_waiting in *. setoid_rewrite sumN_snoc. unfold stats_entry.
  destruct o as [e|]; simpl.
  2:{ split; [intros key; by rewrite Hm, !N.add_0_r|]. intros key b (e & ? & ?)%Hmemo. exists e. set_solver. }
  assert (bool_decide (Entry.followers e = []) || negb (Entry.worker e =? noWorker)%N = negb (waiting e)) as ->.
  { by rewrite <- waiting_skip, orb_comm. }
  destruct (waiting e) eqn:Hw; simpl.
  2:{ split; [intros key; by rewrite Hm, !N.add_0_r|]. intros key b (e' & ? & ?)%Hmemo. exists e'. set_solver. }
  change (Entry.system e, featureKey (Entry.features e)) with (stats_key e).
  assert (default (placeable e c) (mm !! stats_key e) = placeable e c) as ->.
  { destruct (mm !! stats_key e) as [b|] eqn:Hb; [|done]. simpl.
    apply Hmemo in Hb as (e' & He' & Hw' & Hk' & <-). apply Hcol; set_solver. }
  split.
  - intros key. destruct (bool_decide_reflect (stats_key e = key)) as [<-|Hne].
    + rewrite lookup_insert_eq. simpl. rewrite Hm. simpl. f_equal; [lia|]. destruct (placeable e c); simpl; lia.
    + rewrite lookup_insert_ne by done. rewrite Hm. simpl. by rewrite !N.add_0_r.
  - intros key b [[<- <-]|[Hne (e' & ? & ?)%Hmemo]]%lookup_insert_Some; [exists e|exists e']; set_solver.
Qed.

Lemma stats_systems (m : gmap string SystemState.t) key :
  default Stats.zero ((map_fold (λ name _ out,
    <[(name, EmptyString) := default Stats.zero (out !! (name, EmptyString))]> out) ∅ m
    : gmap StatsKey Stats.t) !! key) = Stats.zero.
Proof.
  apply (map_fold_weak_ind (λ (out : gmap StatsKey Stats.t) _,
    default Stats.zero (out !! key) = Stats.zero)); [by rewrite lookup_empty|].
  intros name st m' out _ IH. destruct (decide ((name, EmptyString) = key)) as [<-|Hne].
  - by rewrite lookup_insert_eq.
  - by rewrite lookup_insert_ne.
Qed.

(** The metrics are what the tables say, as long as derivations that share a
    metric label are equally placeable: per system and feature label, the waiting
    derivations, those of them no worker could run, and the running jobs, job
    slots and free slots of the workers. *)
Theorem stats_exact c key :
  no_collision c (entries c) →
  default Stats.zero (stats c !! key) =
  Stats.mk (count_waiting (λ _, true) key (entries c))
    (count_waiting (λ e, negb (placeable e c)) key (entries c))
    (sum_workers (λ w, N.of_nat (length (Worker.running w))) key (workers c))
    (sum_workers job_slots key (workers c)) (sum_workers free_slots key (workers c)).
Proof.
  intros Hcol. unfold stats. set (m0 := map_fold _ _ _).
  rewrite (proj1 (stats_entries c (foldl stats_worker m0 (workers c)) (entries c) Hcol) key).
  rewrite stats_workers. unfold entry_stats, worker_stats, stat. subst m0.
  by rewrite stats_systems.
Qed.
