(* ===== verification/SchedTheorems.v ===== *)
(** * The scheduler's placement core: theorems

    The cores the dispatcher can reach from an empty one by any sequence of the
    public operations of [sched::Core], and what holds of them. *)

From S2P Require Import Prelude Double PathKey Heap Free Sched SchedInv SchedOps.
From S2P Require Import SchedHello SchedPick SchedDispatch SchedPlace.

(** ** Sequences of operations *)

Inductive op :=
  | OpWant (client : N) (info : WantInfo) (nowMs : double)
  | OpCancel (client : N) (drvPath : string)
  | OpClientGone (client : N)
  | OpHello (info : HelloInfo)
  | OpDone (wid : N) (drvPath : string) (outputs : list (string * N))
  | OpGiveBack (wid : N) (drvPath : string)
  | OpSetDraining (wid : N) (draining : bool)
  | OpWorkerGone (wid : N)
  | OpDispatch (ord : map_order)
  | OpPlaceabilityChanges
  | OpMarkUnplaceable (d : N) (unplaceable : bool).

Definition run_op (o : op) : C () :=
  match o with
  | OpWant client info nowMs => want client info nowMs;; mret tt
  | OpCancel client drvPath => cancel_path client drvPath;; mret tt
  | OpClientGone client => clientGone client;; mret tt
  | OpHello info => hello info;; mret tt
  | OpDone wid drvPath outputs => done wid drvPath outputs
  | OpGiveBack wid drvPath => giveBack wid drvPath
  | OpSetDraining wid draining => setDraining wid draining
  | OpWorkerGone wid => workerGone wid
  | OpDispatch ord => dispatch ord;; mret tt
  | OpPlaceabilityChanges => placeabilityChanges;; mret tt
  | OpMarkUnplaceable d unplaceable => markUnplaceable d unplaceable
  end.

(** What the callers guarantee: worker and derivation ids are ids the core gave
    out, a Want names a system and has a priority that is a number, and a Hello
    has an address and fits in the tables. *)
Definition allowed (o : op) (c : core) : Prop :=
  match o with
  | OpWant _ info nowMs => want_ok info nowMs c
  | OpHello info => hello_ok info c
  | OpDone wid _ _ | OpGiveBack wid _ | OpSetDraining wid _ | OpWorkerGone wid =>
      (wid < vlen (workers c))%N
  | OpMarkUnplaceable d _ => (d < vlen (entries c))%N
  | _ => True
  end.

Inductive reachable (cf : Config.t) : core → Prop :=
  | reach_init : cfg_ok cf → reachable cf (Core cf)
  | reach_step c o : reachable cf c → allowed o c → reachable cf (exec (run_op o) c).

Definition table_full : exn := NixError "scheduler: derivation table full".

(** ** The invariant holds of every reachable core *)

Lemma Inv_init cf : cfg_ok cf → inv (Core cf).
Proof.
  intros Hcf. assert (∀ d, lk [] d = None) as Hno by (intros; unfold lk; by rewrite vlookup_nil).
  assert (∀ w, run [] w = []) as Hrun by (intros; unfold run; by rewrite vlookup_nil).
  split; simpl; try done.
  - split; [done| |constructor|].
    + intros k d. rewrite lookup_empty. setoid_rewrite Hno. naive_solver.
    + intros d. rewrite vlookup_nil. split; [by intros ?%not_elem_of_nil|done].
  - split.
    + intros s d. unfold qv. rewrite !lookup_empty. by intros [].
    + intros w d. rewrite Hrun. by intros ?%not_elem_of_nil.
    + intros w. rewrite Hrun. constructor.
    + intros d e. by rewrite Hno.
  - split; [done| |by intros w wkr; rewrite vlookup_nil|done].
    intros a w. rewrite lookup_empty. setoid_rewrite vlookup_nil. naive_solver.
Qed.

(** Every live derivation and every free slot has a slot of its own. *)
Lemma Tables_count ents ids frees :
  Tables ents ids frees → (N.of_nat (base.size ids + length frees) ≤ vlen ents)%N.
Proof.
  intros [Hl Hi Hn Hf]. rewrite <- length_map_to_list, <- (length_fmap snd), <- length_app.
  assert (vlen ents = N.of_nat (length (range 0 (vlen ents)))) as ->.
  { unfold range. rewrite length_fmap, length_seq. lia. }
  cut (length ((map_to_list ids).*2 ++ frees) ≤ length (range 0 (vlen ents)))%nat; [lia|].
  assert (∀ d, d ∈ (map_to_list ids).*2 → ∃ e, lk ents d = Some e) as Hids.
  { intros d ([k d'] & -> & Hk%elem_of_map_to_list)%list_elem_of_fmap.
    apply Hi in Hk as (e & He & _). by exists e. }
  apply submseteq_length, NoDup_submseteq; [apply NoDup_app; split_and!; [| |done]|].
  - apply NoDup_fmap_2_strong; [|apply NoDup_map_to_list].
    intros [k1 d1] [k2 d2] H1%elem_of_map_to_list H2%elem_of_map_to_list Heq. simpl in Heq. subst.
    apply Hi in H1 as (e1 & ? & <-). apply Hi in H2 as (e2 & ? & <-). congruence.
  - intros d (e & He%lk_Some)%Hids Hd%Hf. congruence.
  - intros d [(e & He%lk_lt)%Hids|Hd%Hf%vlookup_lt_Some]%elem_of_app; apply elem_of_range; lia.
Qed.

Lemma op_spec o c :
  inv c → allowed o c →
  wp (run_op o) (λ _, inv) c ∨
  (∃ client info nowMs, o = OpWant client info nowMs ∧ run_op o c = (c, Throw table_full)).
Proof.
  intros HI Ho. destruct o as [cl info now|cl p|cl|info|w p outs|w p|w b|w|ord| |d b]; simpl in *.
  - destruct (decide (is_Some (drvIds c !! PathKey (wi_drvPath info)))) as [Hk|Hk];
      [|destruct (decide (N.of_nat (base.size (drvIds c)) < maxEntries)%N) as [Hr|Hr]].
    1,2: left; apply wp_bind; (eapply wp_mono; [apply want_spec; [done|done|by auto]|]);
      intros r c' [HI' _]; by wp_steps.
    right. exists cl, info, now. split; [done|].
    pose proof (inv_tables _ _ _ _ HI) as HT. pose proof (Tables_count _ _ _ HT).
    pose proof (tab_len _ _ _ HT).
    assert (length (freeIds c) = 0) as Hf%length_zero_iff_nil by lia.
    unfold mbind, M_bind. rewrite want_full; [done| |done|lia]. by apply eq_None_not_Some.
  - left. apply wp_bind. unfold cancel_path. wp_steps. destruct (findDrv p c); [|by wp_steps].
    eapply wp_mono; [by apply cancel_spec|]. intros r c' [HI' _]. by wp_steps.
  - left. apply wp_bind. eapply wp_mono; [by apply clientGone_spec|]. intros r c' [HI' _]. by wp_steps.
  - left. apply wp_bind. eapply wp_mono; [by apply hello_spec|]. intros r c' [HI' _]. by wp_steps.
  - left. apply vlookup_lt in Ho as [wkr Hw]. eapply wp_mono; [by eapply done_spec|]. naive_solver.
  - left. apply vlookup_lt in Ho as [wkr Hw]. eapply wp_mono; [by eapply giveBack_spec|]. naive_solver.
  - left. apply vlookup_lt in Ho as [wkr Hw]. eapply wp_mono; [by eapply setDraining_spec|]. naive_solver.
  - left. apply vlookup_lt in Ho as [wkr Hw]. eapply wp_mono; [by eapply workerGone_spec|]. naive_solver.
  - left. apply wp_bind. eapply wp_mono; [by apply dispatch_spec|]. intros r c' [HI' _]. by wp_steps.
  - left. apply wp_bind. eapply wp_mono; [by apply placeabilityChanges_spec|].
    intros r c' [HI' _]. by wp_steps.
  - left. eapply wp_mono; [by apply markUnplaceable_spec|]. naive_solver.
Qed.

Lemma reachable_inv cf c : reachable cf c → inv c.
Proof.
  induction 1 as [Hcf|c o _ IH Ho]; [by apply Inv_init|].
  destruct (op_spec o c IH Ho) as [(r & _ & HI)%wp_exec|(cl & info & now & -> & Hrun)]; [done|].
  unfold exec. by rewrite Hrun.
Qed.

(** ** A small farm, for the examples *)

Definition play (ops : list op) (c : core) : core := foldl (λ c o, exec (run_op o) c) c ops.

Fixpoint all_allowed (ops : list op) (c : core) : Prop :=
  match ops with
  | [] => True
  | o :: ops => allowed o c ∧ all_allowed ops (exec (run_op o) c)
  end.

Lemma play_reachable cf ops c : reachable cf c → all_allowed ops c → reachable cf (play ops c).
Proof.
  revert c. induction ops as [|o ops IH]; intros c Hc Ho; [done|]. destruct Ho as [Ho Hops].
  simpl. apply IH; [by constructor|done].
Qed.

Definition demo_want (path : string) (feats : list string) (cp : Z) : WantInfo :=
  mkWantInfo path [] "x86_64-linux" feats (double_of_Z cp).

(** Two workers; derivation a has two followers, b needs the first worker, and
    nobody offers what c needs. *)
Definition demo_ops : list op :=
  [OpHello (mkHelloInfo "w1" ["x86_64-linux"; "i686-linux"] ["kvm"] 1 []);
   OpHello (mkHelloInfo "w2" ["x86_64-linux"] [] 2 []);
   OpWant 1 (demo_want "a" [] 5) (double_of_Z 100);
   OpWant 2 (demo_want "a" [] 5) (double_of_Z 110);
   OpWant 2 (demo_want "b" ["kvm"] 900) (double_of_Z 120);
   OpWant 3 (demo_want "c" ["big"] 7) (double_of_Z 130)].

Definition demo : core := play demo_ops (Core Config.default).

(** The same after one dispatch. *)
Definition demo_busy : core := exec (run_op (OpDispatch list_order)) demo.

Lemma demo_reachable : reachable Config.default demo.
Proof.
  apply play_reachable; [by constructor|].
  repeat (split; [vm_compute; repeat split; try done; by right|]). done.
Qed.

Lemma demo_busy_reachable : reachable Config.default demo_busy.
Proof. apply reach_step; [apply demo_reachable|done]. Qed.

(** ** Safety of every reachable core *)

(** From any reachable core every allowed operation returns, with no
    [std::out_of_range], undefined behaviour or endless loop, and leads to a
    reachable core again; the one exception is a Want for a new derivation when
    the derivation table is full, which throws and changes nothing. *)
Theorem core_total cf c o :
  reachable cf c → allowed o c →
  (∃ c', run_op o c = (c', Ok tt) ∧ reachable cf c') ∨
  (∃ client info nowMs, o = OpWant client info nowMs ∧ run_op o c = (c, Throw table_full)).
Proof.
  intros Hc Ho. pose proof (reach_step cf c o Hc Ho) as Hstep. unfold exec in Hstep.
  destruct (op_spec o c (reachable_inv cf c Hc) Ho) as [([] & c' & Hrun & _)|H]; [left|by right].
  exists c'. by rewrite Hrun in Hstep.
Qed.

Lemma core_total_witness :
  (run_op (OpWorkerGone 0) demo_busy).2 = Ok tt ∧
  ((∃ c', run_op (OpWorkerGone 0) demo_busy = (c', Ok tt) ∧ reachable Config.default c') ∨
   (∃ client info nowMs, OpWorkerGone 0 = OpWant client info nowMs ∧
      run_op (OpWorkerGone 0) demo_busy = (demo_busy, Throw table_full))).
Proof.
  split; [vm_compute; reflexivity|].
  apply core_total; [apply demo_busy_reachable|vm_compute; reflexivity].
Defined.

(** A derivation is in the queue of a system. *)
Definition in_queue (c : core) (s : string) (d : N) : Prop :=
  ∃ st, systems c !! s = Some st ∧ IndexedHeap.contains d (SystemState.queue st) = true.

Lemma in_queue_qv X W G c s d : Inv X W G c → in_queue c s d ↔ is_Some (qv (systems c) s !! d).
Proof.
  intros HI. unfold in_queue, qv. split.
  - intros (st & Hst & Hd). rewrite Hst. apply IndexedHeap.contains_view; [|done].
    by apply (inv_sys _ _ _ _ HI _ _ Hst).
  - destruct (systems c !! s) as [st|] eqn:Hst; [|by intros []]. intros Hd. exists st. split; [done|].
    apply IndexedHeap.contains_view; [|done]. by apply (inv_sys _ _ _ _ HI _ _ Hst).
Qed.

(** C3. Every live derivation is in exactly one place: unplaced ones, which
    somebody follows, in the queue of their system and of no other; placed ones
    once in the running list of their worker, of no other worker, and in no
    queue.  Queues and running lists hold nothing else. *)
Theorem placed_exactly_once cf c :
  reachable cf c →
  (∀ d e, lk (entries c) d = Some e → Entry.worker e = noWorker →
     Entry.followers e ≠ [] ∧ ∀ s, in_queue c s d ↔ s = Entry.system e) ∧
  (∀ d e, lk (entries c) d = Some e → Entry.worker e ≠ noWorker → ∀ s, ¬ in_queue c s d) ∧
  (∀ d s, in_queue c s d → ∃ e, lk (entries c) d = Some e) ∧
  (∀ w wkr, workers c !! w = Some wkr → NoDup (Worker.running wkr) ∧
     ∀ d, d ∈ Worker.running wkr ↔ ∃ e, lk (entries c) d = Some e ∧ Entry.worker e = w) ∧
  (∀ d e, lk (entries c) d = Some e → Entry.worker e ≠ noWorker →
     ∃ wkr, workers c !! Entry.worker e = Some wkr ∧ d ∈ Worker.running wkr).
Proof.
  intros HI%reachable_inv. inv_fields HI.
  assert (∀ d, d ∉ (∅ : gset N)) as Hemp by set_solver.
  split_and!.
  - intros d e Hd Hw. pose proof (pl_placed _ _ _ _ Ipl d e Hd (Hemp d)) as Hp.
    unfold placed in Hp. rewrite decide_True in Hp by done. destruct Hp as [Hq Hf].
    split; [done|]. intros s. rewrite (in_queue_qv _ _ _ c _ _ HI). split; [|by intros ->].
    intros (e' & ? & <- & _)%(pl_queue _ _ _ _ Ipl). congruence.
  - intros d e Hd Hw s. rewrite (in_queue_qv _ _ _ c _ _ HI).
    intros (e' & ? & _ & Hn)%(pl_queue _ _ _ _ Ipl). naive_solver.
  - intros d s. rewrite (in_queue_qv _ _ _ c _ _ HI).
    intros (e' & ? & _)%(pl_queue _ _ _ _ Ipl). eauto.
  - intros w wkr Hw. split; [|intros d; by apply running_entry].
    pose proof (pl_nodup _ _ _ _ Ipl w) as Hn. unfold run in Hn. by rewrite Hw in Hn.
  - intros d e Hd Hw. pose proof (pl_placed _ _ _ _ Ipl d e Hd (Hemp d)) as Hp.
    unfold placed in Hp. rewrite decide_False in Hp by done. unfold run in Hp.
    destruct (workers c !! Entry.worker e) as [wkr|]; [by exists wkr|by apply not_elem_of_nil in Hp].
Qed.

Lemma placed_exactly_once_witness :
  ∃ wkr, workers demo_busy !! 0%N = Some wkr ∧ NoDup (Worker.running wkr) ∧ 1%N ∈ Worker.running wkr ∧
  ∃ e, lk (entries demo_busy) 1 = Some e ∧ Entry.worker e = 0%N.
Proof.
  destruct (placed_exactly_once Config.default demo_busy demo_busy_reachable) as (_ & _ & _ & H & _).
  destruct (workers demo_busy !! 0%N) as [wkr|] eqn:Hw; [|vm_compute in Hw; discriminate].
  destruct (H 0%N wkr Hw) as [Hn Hd]. exists wkr.
  assert (1%N ∈ Worker.running wkr) as H1.
  { vm_compute in Hw. injection Hw as <-. apply list_elem_of_singleton. reflexivity. }
  split_and!; [reflexivity|exact Hn|exact H1|]. apply Hd. exact H1.
Defined.

(** The free-slot index of every system counts exactly: a worker that offers
    the system has its job limit minus what it runs if it takes work and zero
    otherwise, and whoever does not offer it has zero, so no stale entry can
    attract a derivation. *)
Theorem free_counts_exact cf c s st w :
  reachable cf c → systems c !! s = Some st →
  FreeIndex.get w (SystemState.free st) =
    match workers c !! w with
    | Some wkr => if decide (s ∈ Worker.systems wkr) then free_val wkr else 0%Z
    | None => 0%Z
    end.
Proof.
  intros HI%reachable_inv Hst. destruct (workers c !! w) as [wkr|] eqn:Hw; [by eapply get_spec|].
  rewrite FreeIndex.get_known by apply (inv_sys _ _ _ _ HI _ _ Hst).
  assert (FreeIndex.known (SystemState.free st) w = fk (systems c) s w) as ->
    by (unfold fk; by rewrite Hst).
  destruct (fk (systems c) s w) as [v|] eqn:Hk; [|done].
  destruct (fr_zero _ _ _ (inv_free _ _ _ _ HI) _ _ _ Hk) as [->|(wkr & ? & _)]; [done|congruence].
Qed.

Lemma free_counts_exact_witness :
  ∃ st, systems demo_busy !! "x86_64-linux" = Some st ∧ FreeIndex.get 1 (SystemState.free st) = 1%Z.
Proof.
  destruct (systems demo_busy !! "x86_64-linux") as [st|] eqn:Hst; [|vm_compute in Hst; discriminate].
  exists st. split; [reflexivity|].
  rewrite (free_counts_exact Config.default demo_busy "x86_64-linux" st 1 demo_busy_reachable Hst).
  vm_compute. reflexivity.
Defined.

(** The head of every queue is most urgent by current priorities: no
    derivation queued for the system has a smaller priority value than the head,
    whatever Wants and cancels changed the priorities since it was queued. *)
Theorem queue_head_most_urgent cf c s st d e d' e' :
  reachable cf c → systems c !! s = Some st →
  IndexedHeap.top (SystemState.queue st) = Some d → lk (entries c) d = Some e →
  in_queue c s d' → lk (entries c) d' = Some e' →
  dltb (prio e' c) (prio e c) = false ∧ is_nan (prio e c) = false.
Proof.
  intros HI%reachable_inv Hst Htop Hd Hq Hd'. inv_fields HI.
  destruct (Isys _ _ Hst) as (Hwf & Hgood & _).
  destruct (IndexedHeap.top_lookup _ _ Hwf Htop) as (k & Hk & Hv).
  assert (qv (systems c) s !! d = Some k) as Hqd by (unfold qv; by rewrite Hst).
  apply (in_queue_qv _ _ _ _ _ _ HI) in Hq as [k' Hk'].
  pose proof (Ikey s d k e Hqd Hd ltac:(set_solver)) as ->.
  pose proof (Ikey s d' k' e' Hk' Hd' ltac:(set_solver)) as ->.
  assert (is_nan (prio e c) = false) as Hn by (by apply prio_not_nan; [|eapply Ient]).
  split; [|done]. eapply (item_leb_not_lt _ d _ d'); [done|by apply prio_not_nan; [|eapply Ient]|].
  pose proof (IndexedHeap.top_is_min _ Hwf Hgood) as Hmin. rewrite Hk, Htop in Hmin. simpl in Hmin.
  destruct Hmin as [_ Hmin]. apply Hmin. unfold qv in Hk'. by rewrite Hst in Hk'.
Qed.

Lemma queue_head_most_urgent_witness :
  ∃ e e', lk (entries demo) 0 = Some e ∧ lk (entries demo) 2 = Some e' ∧
    dltb (prio e' demo) (prio e demo) = false ∧ is_nan (prio e demo) = false.
Proof.
  destruct (systems demo !! "x86_64-linux") as [st|] eqn:Hst; [|vm_compute in Hst; discriminate].
  destruct (lk (entries demo) 0) as [e|] eqn:He; [|vm_compute in He; discriminate].
  destruct (lk (entries demo) 2) as [e'|] eqn:He'; [|vm_compute in He'; discriminate].
  exists e, e'. split_and!; [reflexivity|reflexivity|..];
    apply (queue_head_most_urgent Config.default demo "x86_64-linux" st 0 e 2 e' demo_reachable Hst);
    try assumption; first [exists st; split; [exact Hst|] | idtac];
    vm_compute in Hst; injection Hst as <-; vm_compute; reflexivity.
Defined.

(** ** Dispatch *)

(** C2. [dispatch] ends, and each assignment it returns is one it may make: the
    derivation was queued and is now on that worker under that assignment id,
    the clients are its followers, the worker takes work, offers the system and
    the features, runs no more jobs than its limit, and is not the one that gave
    the derivation back unless no other worker could run it.  No derivation is
    assigned twice, everything else stays as it was, the running lists grow by
    exactly the assignments, and the assignment ids count up from the last one. *)
Theorem dispatch_sound cf ord c :
  reachable cf c →
  wp (dispatch ord) (λ out c',
    NoDup (Assign.drv <$> out) ∧
    (∀ a, a ∈ out → ∃ e, queued_as c (Assign.drv a) e ∧ placed_by c' a e) ∧
    (∀ d, d ∉ Assign.drv <$> out → lk (entries c') d = lk (entries c) d) ∧
    (∀ w, workers c' !! w =
       (λ wkr, Worker.with_running (Worker.running wkr ++ given out w) wkr) <$> workers c !! w) ∧
    (∀ i a, out !! (i : nat) = Some a →
       Assign.assignId a = u64 (lastAssignId c + N.of_nat i + 1))) c.
Proof.
  intros HI%reachable_inv. eapply wp_mono; [by apply dispatch_spec|].
  intros out c' (_ & HD & _). destruct HD as [_ _ _ _ Hw Hnd Hout Hrest [_ Hids] _]. by split_and!.
Qed.

Lemma dispatch_sound_witness :
  (dispatch list_order demo).2 = Ok [Assign.mk 0 1 1 [1%N; 2%N]; Assign.mk 1 0 2 [2%N]] ∧
  ∃ e, queued_as demo 1 e ∧ placed_by (exec (dispatch list_order) demo) (Assign.mk 1 0 2 [2%N]) e.
Proof.
  destruct (dispatch_sound Config.default list_order demo demo_reachable)
    as (out & c' & Hrun & _ & Hout & _).
  assert ((dispatch list_order demo).2 = Ok [Assign.mk 0 1 1 [1%N; 2%N]; Assign.mk 1 0 2 [2%N]]) as Hr
    by (vm_compute; reflexivity).
  split; [exact Hr|]. unfold exec. rewrite Hrun in Hr |- *. simpl in *. injection Hr as ->.
  apply (Hout (Assign.mk 1 0 2 [2%N])). right. left.
Defined.

(** C1. [dispatch] leaves nothing unplaced that could be placed: for a derivation
    that is still queued afterwards, no worker that takes work and offers what it
    needs has a free slot, except the worker that gave it back while another
    worker could run it later. *)
Theorem dispatch_complete cf ord c :
  reachable cf c →
  wp (dispatch ord) (λ _ c', ∀ d e w wkr,
    lk (entries c') d = Some e → Entry.worker e = noWorker →
    workers c' !! w = Some wkr → Worker.takesWork wkr = true → offers wkr e = true →
    (Z.of_nat (length (Worker.running wkr)) < Worker.maxJobs wkr)%Z →
    w = Entry.avoid e ∧ ∃ w' wkr', w' ≠ w ∧ workers c' !! w' = Some wkr' ∧
      Worker.takesWork wkr' = true ∧ offers wkr' e = true) c.
Proof.
  intros HI%reachable_inv. eapply wp_mono; [by apply dispatch_spec|].
  intros out c' (_ & _ & Hnp) d e w wkr Hd Hn Hw Ht Ho Hl.
  destruct (Hnp d e Hd Hn w wkr Hw) as [-> (w' & wkr' & Hne & Hw' & Ht' & Ho')]; [done|].
  split; [done|]. by exists w', wkr'.
Qed.

Lemma dispatch_complete_witness :
  ∃ e wkr, lk (entries demo_busy) 2 = Some e ∧ Entry.worker e = noWorker ∧
    workers demo_busy !! 1%N = Some wkr ∧ Worker.takesWork wkr = true ∧
    (length (Worker.running wkr) = 1%nat ∧ Worker.maxJobs wkr = 2%Z) ∧ offers wkr e ≠ true.
Proof.
  destruct (dispatch_complete Config.default list_order demo demo_reachable)
    as (out & c' & Hrun & Hdone).
  assert (demo_busy = c') as Hbusy.
  { unfold demo_busy, exec, run_op, mbind, M_bind. rewrite Hrun. reflexivity. }
  destruct (lk (entries demo_busy) 2) as [e|] eqn:He; [|vm_compute in He; discriminate].
  destruct (workers demo_busy !! 1%N) as [wkr|] eqn:Hw; [|vm_compute in Hw; discriminate].
  assert (Entry.worker e = noWorker ∧ Entry.avoid e = noWorker) as [Hn Ha]
    by (vm_compute in He; injection He as <-; split; reflexivity).
  assert (Worker.takesWork wkr = true ∧ length (Worker.running wkr) = 1%nat ∧ Worker.maxJobs wkr = 2%Z)
    as (Ht & Hl & Hj) by (vm_compute in Hw; injection Hw as <-; repeat split; reflexivity).
  exists e, wkr. split_and!; try assumption; try reflexivity. intros Ho.
  rewrite Hbusy in He, Hw.
  destruct (Hdone 2%N e 1%N wkr He Hn Hw Ht Ho) as [H1 _]; [rewrite Hl, Hj; reflexivity|].
  rewrite Ha in H1. vm_compute in H1. discriminate.
Defined.

(** C5. [dispatch] does not prefer the less urgent: if a derivation stays
    unplaced although a worker that got another one offers what it needs (and is
    not the worker that gave it back), then its priority value is not smaller
    than that of the derivation the worker got. *)
Theorem dispatch_no_inversion cf ord c :
  reachable cf c →
  wp (dispatch ord) (λ out c', ∀ a d e e0 wkr,
    a ∈ out → lk (entries c) (Assign.drv a) = Some e0 →
    workers c !! Assign.worker a = Some wkr → offers wkr e = true →
    lk (entries c') d = Some e → Entry.worker e = noWorker → Assign.worker a ≠ Entry.avoid e →
    dltb (prio e c) (prio e0 c) = false) c.
Proof.
  intros HI%reachable_inv. eapply wp_mono; [by apply dispatch_spec|].
  intros out c' (_ & HD & _) a d e e0 wkr Ha He0 Hw Ho He Hn Hav.
  pose proof (d_urgent _ _ _ _ HD a Ha d e e0 wkr He0 He Hn Hw Ho Hav) as Hlt.
  destruct (d_frame _ _ _ _ HD) as (_ & _ & Hcfg). unfold prio in *. by rewrite Hcfg in Hlt.
Qed.

(** Two derivations for one slot. *)
Definition demo_race : core :=
  play [OpHello (mkHelloInfo "w" ["s"] [] 1 []);
        OpWant 1 (mkWantInfo "slow" [] "s" [] (double_of_Z 9)) (double_of_Z 0);
        OpWant 1 (mkWantInfo "quick" [] "s" [] (double_of_Z 8)) (double_of_Z 0)]
    (Core Config.default).

Lemma demo_race_reachable : reachable Config.default demo_race.
Proof.
  apply play_reachable; [by constructor|].
  repeat (split; [vm_compute; repeat split; try done; by right|]). done.
Qed.

Lemma dispatch_no_inversion_witness :
  ∃ e0 e, lk (entries demo_race) 0 = Some e0 ∧
    lk (entries (exec (dispatch list_order) demo_race)) 1 = Some e ∧
    dltb (prio e demo_race) (prio e0 demo_race) = false.
Proof.
  destruct (dispatch_no_inversion Config.default list_order demo_race demo_race_reachable)
    as (out & c' & Hrun & Hno).
  assert ((dispatch list_order demo_race).2 = Ok [Assign.mk 0 0 1 [1%N]]) as Hr
    by (vm_compute; reflexivity).
  destruct (lk (entries demo_race) 0) as [e0|] eqn:He0; [|vm_compute in He0; discriminate].
  destruct (lk (entries (exec (dispatch list_order) demo_race)) 1) as [e|] eqn:He;
    [|vm_compute in He; discriminate].
  destruct (workers demo_race !! 0%N) as [wkr|] eqn:Hw; [|vm_compute in Hw; discriminate].
  exists e0, e. split_and!; [reflexivity..|].
  assert (Entry.worker e = noWorker ∧ Entry.avoid e = noWorker ∧ offers wkr e = true) as (Hn & Ha & Ho).
  { vm_compute in He, Hw. injection He as <-. injection Hw as <-. repeat split; reflexivity. }
  unfold exec in He. rewrite Hrun in Hr, He. simpl in Hr, He. injection Hr as ->.
  apply (Hno (Assign.mk 0 0 1 [1%N]) 1%N e e0 wkr); simpl; try assumption; [left|].
  rewrite Ha. vm_compute. discriminate.
Defined.

(** ** Clients *)

(** [want] returns the derivation's id and, if it is placed, its worker and
    assignment.  The entry is the one the path had (with its system filled in if
    only a worker's Hello knew it) or a new one; the client follows it, once, and
    the critical-path hint is the larger of both; nothing else changes. *)
Theorem want_follows cf client info nowMs c :
  reachable cf c → want_ok info nowMs c →
  is_Some (findDrv (wi_drvPath info) c) ∨ has_room c →
  wp (want client info nowMs) (λ r c',
    ∃ d e, findDrv (wi_drvPath info) c' = Some d ∧
      e = want_entry info nowMs (lk (entries c) d) ∧ r = (d, assignment e) ∧
      lk (entries c') d = Some (follow_entry client (wi_cpHintMs info) e) ∧
      client ∈ Entry.followers (follow_entry client (wi_cpHintMs info) e) ∧
      NoDup (Entry.followers (follow_entry client (wi_cpHintMs info) e)) ∧
      (∀ d', d' ≠ d → lk (entries c') d' = lk (entries c) d') ∧ workers c' = workers c) c.
Proof.
  intros HI%reachable_inv Hok Hroom. eapply wp_mono; [by apply want_spec|].
  intros r c' (HI' & Hw & d & e & Hf & He & Hr & Hlk). exists d, e.
  assert (lk (entries c') d = Some (follow_entry client (wi_cpHintMs info) e)) as Hd
    by (by rewrite Hlk, decide_True).
  split_and!; [done..| | | |done].
  - apply (add_follower_keeps client e).
  - by apply (inv_entries _ _ _ _ HI' d _ Hd).
  - intros d' Hne. by rewrite Hlk, decide_False.
Qed.

Lemma want_follows_witness :
  wp (want 9 (demo_want "b" ["kvm"] 2) (double_of_Z 200)) (λ r c',
    ∃ d e, r = (d, assignment e) ∧ 9%N ∈ Entry.followers (follow_entry 9 (double_of_Z 2) e) ∧
      lk (entries c') d = Some (follow_entry 9 (double_of_Z 2) e)) demo_busy.
Proof.
  eapply wp_mono.
  - apply (want_follows Config.default 9 (demo_want "b" ["kvm"] 2) (double_of_Z 200) demo_busy).
    + apply demo_busy_reachable.
    + vm_compute. repeat split; discriminate || reflexivity.
    + left. vm_compute. eexists. reflexivity.
  - intros r c' (d & e & _ & _ & Hr & Hd & Hin & _). exists d, e. split_and!; assumption.
Defined.

(** [cancel] takes the client off the derivation and nothing else: an
    unplaced derivation nobody follows any more is dropped, and the worker to
    revoke on is returned exactly if the last follower left a placed one. *)
Theorem cancel_unfollows cf client path c :
  reachable cf c →
  wp (cancel_path client path) (λ r c', workers c' = workers c ∧
    match findDrv path c with
    | None => r = None ∧ c' = c
    | Some d => r = (lk (entries c) d ≫= revoke_of client) ∧
        lk (entries c') d = (lk (entries c) d ≫= drop_client client) ∧
        ∀ d', d' ≠ d → lk (entries c') d' = lk (entries c) d'
    end) c.
Proof.
  intros HI%reachable_inv. unfold cancel_path. wp_steps.
  destruct (findDrv path c) as [d|]; [|by wp_steps].
  eapply wp_mono; [by apply cancel_spec|]. intros r c' (_ & Hw & _ & Hr & Hlk).
  split_and!; [done|done|by rewrite Hlk, decide_True|]. intros d' Hne. by rewrite Hlk, decide_False.
Qed.

Lemma cancel_unfollows_witness :
  (cancel_path 2 "b" demo_busy).2 = Ok (Some 0%N) ∧
  wp (cancel_path 2 "b") (λ r _, r = Some 0%N) demo_busy.
Proof.
  split; [vm_compute; reflexivity|].
  eapply wp_mono; [apply (cancel_unfollows Config.default 2 "b" demo_busy demo_busy_reachable)|].
  intros r c' (_ & H). assert (findDrv "b" demo_busy = Some 1%N) as Hf by (vm_compute; reflexivity).
  rewrite Hf in H. destruct H as [-> _]. vm_compute. reflexivity.
Defined.

(** After [clientGone] no derivation is followed by the client, unplaced
    derivations only it followed are gone, and the revokes are, once each,
    exactly the placed derivations it alone followed, with their workers. *)
Theorem clientGone_exact cf client c :
  reachable cf c →
  wp (clientGone client) (λ revokes c', workers c' = workers c ∧ NoDup revokes ∧
    (∀ d, lk (entries c') d = (lk (entries c) d ≫= drop_client client)) ∧
    (∀ d e, lk (entries c') d = Some e → client ∉ Entry.followers e) ∧
    (∀ d w, (d, w) ∈ revokes ↔ ∃ e, lk (entries c) d = Some e ∧
       Entry.followers e = [client] ∧ Entry.worker e = w ∧ w ≠ noWorker)) c.
Proof.
  intros HI%reachable_inv. eapply wp_mono; [by apply clientGone_spec|].
  intros revokes c' (_ & Hw & _ & Hnd & Hlk & Hrev). split_and!; [done..| |].
  - intros d e Hd. rewrite Hlk in Hd. apply bind_Some in Hd as (e0 & _ & He0).
    by eapply drop_client_not_follower.
  - intros d w. rewrite Hrev. apply exist_proper. intros e. split.
    + intros [Hd Hr]. unfold revoke_of in Hr. case_decide as Hc; [|done]. simplify_eq.
      destruct Hc as (Hin & Hnil & Hw'). split_and!; [done| |done|done].
      destruct (inv_entries _ _ _ _ HI d e Hd) as [Hn _].
      destruct (Entry.followers e) as [|x [|y l]].
      * by apply not_elem_of_nil in Hin.
      * by apply list_elem_of_singleton in Hin as ->.
      * exfalso. rewrite !filter_cons in Hnil. repeat case_decide; simplify_eq.
        apply NoDup_cons in Hn as [Hn _]. set_solver.
    + intros (Hd & Hf & <- & Hw'). split; [done|]. unfold revoke_of. rewrite Hf, decide_True; [done|].
      rewrite filter_cons_False, filter_nil by naive_solver. split_and!; [set_solver|done..].
Qed.

Lemma clientGone_exact_witness :
  (clientGone 2 demo_busy).2 = Ok [(1%N, 0%N)] ∧
  wp (clientGone 2) (λ revokes _, (1%N, 0%N) ∈ revokes) demo_busy.
Proof.
  split; [vm_compute; reflexivity|].
  eapply wp_mono; [apply (clientGone_exact Config.default 2 demo_busy demo_busy_reachable)|].
  intros revokes c' (_ & _ & _ & _ & H). apply H.
  destruct (lk (entries demo_busy) 1) as [e|] eqn:He; [|vm_compute in He; discriminate].
  exists e. vm_compute in He. injection He as <-. repeat split; discriminate || reflexivity.
Defined.

(** ** Workers *)

(** When a worker is gone it is down and runs nothing; what it ran goes back
    to the queue if somebody follows it and is forgotten otherwise; all other
    derivations and workers stay as they are. *)
Theorem workerGone_requeues cf wid wkr c :
  reachable cf c → workers c !! wid = Some wkr →
  wp (workerGone wid) (λ _ c',
    workers c' = <[wid := gone_worker wkr]> (workers c) ∧
    ∀ d, lk (entries c') d = (lk (entries c) d ≫= gone_entry wid) ∧
      ∀ e, lk (entries c') d = Some e → Entry.worker e ≠ wid) c.
Proof.
  intros HI%reachable_inv Hw. eapply wp_mono; [by eapply workerGone_spec|].
  intros _ c' (_ & _ & Hwk & Hlk). split; [done|]. intros d. split; [done|].
  intros e Hd. rewrite Hlk in Hd. apply bind_Some in Hd as (e0 & _ & He0).
  pose proof (WorkersOk_lt _ _ _ _ _ (inv_workers _ _ _ _ HI) Hw).
  unfold gone_entry in He0. repeat case_decide; simplify_eq; simpl; [lia|done].
Qed.

Lemma workerGone_requeues_witness :
  ∃ wkr, workers demo_busy !! 0%N = Some wkr ∧
  wp (workerGone 0) (λ _ c', workers c' = <[0%N := gone_worker wkr]> (workers demo_busy)) demo_busy.
Proof.
  destruct (workers demo_busy !! 0%N) as [wkr|] eqn:Hw; [|vm_compute in Hw; discriminate].
  exists wkr. split; [reflexivity|]. eapply wp_mono;
    [apply (workerGone_requeues Config.default 0 wkr demo_busy demo_busy_reachable Hw)|].
  intros _ c' [H _]. exact H.
Defined.

(** C6. [hello] registers the worker with what it offers and believes what it
    reports: every reported path is placed on it afterwards.  Whatever moved to
    it is there under an assignment it reported and otherwise as it was, and the
    caller learns, with the worker it was on
    before, of exactly those that followers wait for or another worker had;
    nothing else moves.  What the worker ran in an earlier session and does not
    report again is queued again or dropped. *)
Theorem hello_reconciles cf info c :
  reachable cf c → hello_ok info c →
  wp (hello info) (λ r c', let '(wid, superseded) := r in
    registered wid info c' ∧ (∀ p, p ∈ hi_running info → reported wid c' p.1) ∧
    hello_moves wid (hi_running info) (λ d, lk (entries c) d ≫= gone_entry wid) (lk (entries c')) superseded) c.
Proof.
  intros HI%reachable_inv Hok. eapply wp_mono; [by apply hello_spec|].
  intros [wid sups] c' (_ & _ & Hreg & Hrep & _ & _ & Hm). done.
Qed.

(** The first worker reports the derivation the second one has. *)
Definition demo_hello : HelloInfo :=
  mkHelloInfo "w1" ["x86_64-linux"; "i686-linux"] ["kvm"] 1 [("a", 7%N)].

Lemma hello_reconciles_witness :
  (hello demo_hello demo_busy).2 = Ok (0%N, [(0%N, 1%N)]) ∧
  wp (hello demo_hello) (λ r c', reported r.1 c' "a") demo_busy.
Proof.
  split; [vm_compute; reflexivity|]. eapply wp_mono.
  - apply (hello_reconciles Config.default demo_hello demo_busy demo_busy_reachable).
    vm_compute. repeat split; try discriminate. left. eexists. reflexivity.
  - intros [wid sups] c' (_ & H & _). apply (H ("a", 7%N)). left.
Defined.

(** [done] ends a derivation only if the worker that says so is the one it is
    placed on: a late Done from another worker leaves it where it is.  Either way
    the sender no longer runs it, and all other derivations stay. *)
Theorem done_only_by_owner cf wid path outputs wkr c :
  reachable cf c → workers c !! wid = Some wkr →
  wp (done wid path outputs) (λ _ c',
    match findDrv path c with
    | None => workers c' = workers c ∧ entries c' = entries c
    | Some d =>
        workers c' = workers (unrun wid d wkr c) ∧
        (∀ e, lk (entries c) d = Some e → Entry.worker e = wid → lk (entries c') d = None) ∧
        (∀ e, lk (entries c) d = Some e → Entry.worker e ≠ wid → lk (entries c') d = Some e) ∧
        ∀ d', d' ≠ d → lk (entries c') d' = lk (entries c) d'
    end) c.
Proof.
  intros HI%reachable_inv Hw. eapply wp_mono; [by eapply done_spec|].
  intros _ c' (_ & _ & H). destruct (findDrv path c) as [d|]; [|done]. destruct H as [Hwk Hlk].
  split_and!; [done|..].
  - intros e Hd He. rewrite Hlk, decide_True, Hd by done. simpl. unfold done_entry. by rewrite decide_True.
  - intros e Hd He. rewrite Hlk, decide_True, Hd by done. simpl. unfold done_entry. by rewrite decide_False.
  - intros d' Hne. by rewrite Hlk, decide_False.
Qed.

Lemma done_only_by_owner_witness :
  ∃ wkr, workers demo_busy !! 1%N = Some wkr ∧
  wp (done 1 "b" []) (λ _ c', lk (entries c') 1 = lk (entries demo_busy) 1) demo_busy.
Proof.
  destruct (workers demo_busy !! 1%N) as [wkr|] eqn:Hw; [|vm_compute in Hw; discriminate].
  destruct (lk (entries demo_busy) 1) as [e|] eqn:He; [|vm_compute in He; discriminate].
  assert (Entry.worker e ≠ 1%N) as Hne by (vm_compute in He; injection He as <-; discriminate).
  assert (findDrv "b" demo_busy = Some 1%N) as Hf by (vm_compute; reflexivity).
  exists wkr. split; [reflexivity|]. eapply wp_mono;
    [apply (done_only_by_owner Config.default 1 "b" [] wkr demo_busy demo_busy_reachable Hw)|].
  intros [] c' H. rewrite Hf in H. destruct H as (_ & _ & H & _). exact (H e He Hne).
Defined.

(** A worker that gives a derivation back no longer runs it; if it was placed
    there it is queued again, to avoid that worker, or forgotten if nobody
    follows it; a derivation placed elsewhere is not touched. *)
Theorem giveBack_avoids cf wid path wkr c :
  reachable cf c → workers c !! wid = Some wkr →
  wp (giveBack wid path) (λ _ c',
    match findDrv path c with
    | None => c' = c
    | Some d =>
        workers c' = workers (unrun wid d wkr c) ∧
        lk (entries c') d = (lk (entries c) d ≫= give_back_entry wid) ∧
        ∀ d', d' ≠ d → lk (entries c') d' = lk (entries c) d'
    end) c.
Proof.
  intros HI%reachable_inv Hw. eapply wp_mono; [by eapply giveBack_spec|].
  intros _ c' (_ & _ & H). destruct (findDrv path c) as [d|]; [|done]. destruct H as [Hwk Hlk].
  split_and!; [done|by rewrite Hlk, decide_True|]. intros d' Hne. by rewrite Hlk, decide_False.
Qed.

Lemma giveBack_avoids_witness :
  ∃ wkr, workers demo_busy !! 1%N = Some wkr ∧
  wp (giveBack 1 "a") (λ _ c', ∃ e, lk (entries c') 0 = Some e ∧ Entry.avoid e = 1%N ∧
    Entry.worker e = noWorker) demo_busy.
Proof.
  destruct (workers demo_busy !! 1%N) as [wkr|] eqn:Hw; [|vm_compute in Hw; discriminate].
  exists wkr. split; [reflexivity|]. eapply wp_mono;
    [apply (giveBack_avoids Config.default 1 "a" wkr demo_busy demo_busy_reachable Hw)|].
  intros [] c' H. assert (findDrv "a" demo_busy = Some 0%N) as Hf by (vm_compute; reflexivity).
  rewrite Hf in H. destruct H as (_ & -> & _). vm_compute. eexists. repeat split; reflexivity.
Defined.

(** ** What followers and operators are told *)

(** [placeabilityChanges] returns, once each, exactly the waiting derivations
    for which "some worker could ever run it" is not what their followers were
    last told, and records the new answer, so that a second call returns
    nothing; the memo table never changes an answer. *)
Theorem placeability_changes_exact cf c :
  reachable cf c →
  wp placeabilityChanges (λ out c', NoDup out ∧
    (∀ d, d ∈ out ↔ ∃ e, lk (entries c) d = Some e ∧ waiting e = true ∧
       Entry.unplaceable e = placeable e c) ∧
    (∀ d e, lk (entries c') d = Some e → waiting e = true →
       Entry.unplaceable e = negb (placeable e c')) ∧
    workers c' = workers c) c.
Proof.
  intros HI%reachable_inv. eapply wp_mono; [by apply placeabilityChanges_spec|].
  intros out c' (_ & Hw & Hlk & Hnd & Hout). split_and!; [done..| |done].
  intros d e Hd Hwait. rewrite Hlk in Hd. apply fmap_Some in Hd as (e0 & _ & ->).
  unfold fix_flag in *. destruct (waiting e0) eqn:H0; [|congruence]. simpl. f_equal.
  unfold placeable. by rewrite Hw.
Qed.

Lemma placeability_changes_exact_witness :
  placeabilityChanges demo = (exec placeabilityChanges demo, Ok [2%N]) ∧
  wp placeabilityChanges (λ out _, 2%N ∈ out) demo.
Proof.
  split; [vm_compute; reflexivity|].
  destruct (lk (entries demo) 2) as [e|] eqn:He; [|vm_compute in He; discriminate].
  eapply wp_mono; [apply (placeability_changes_exact Config.default demo demo_reachable)|].
  intros out c' (_ & H & _). apply H. exists e. vm_compute in He. injection He as <-. repeat split; vm_compute; reflexivity.
Defined.

Lemma stats_exact_witness :
  no_collision demo_busy (entries demo_busy) ∧
  default Stats.zero (stats demo_busy !! ("x86_64-linux"%string, "kvm"%string)) = Stats.mk 0 0 1 1 0.
Proof.
  assert (no_collision demo_busy (entries demo_busy)) as H.
  { assert (∀ e, Some e ∈ entries demo_busy → waiting e = true → placeable e demo_busy = false) as Hp.
    { intros e He Hw. vm_compute in He.
      repeat (apply elem_of_cons in He as [He|He]; [injection He as ->; revert Hw; vm_compute; congruence|]).
      apply not_elem_of_nil in He. destruct He. }
    intros e e' He He' Hw Hw' _. rewrite (Hp e He Hw), (Hp e' He' Hw'). reflexivity. }
  split; [exact H|]. rewrite (stats_exact demo_busy _ H). vm_compute. reflexivity.
Defined.

(** Soft state stays bounded whatever the network sends: at most 2^22
    derivations and 2^18 remembered output builders, at most one id per live
    derivation, and no worker counts more than 63 jobs. *)
Theorem soft_state_bounded cf c :
  reachable cf c →
  (vlen (entries c) ≤ maxEntries)%N ∧
  (N.of_nat (base.size (drvIds c) + length (freeIds c)) ≤ vlen (entries c))%N ∧
  (N.of_nat (base.size (lastBuilder c)) ≤ maxLastBuilder)%N ∧
  (∀ w wkr, workers c !! w = Some wkr → (0 ≤ Worker.maxJobs wkr ≤ FreeIndex.maxSlots)%Z).
Proof.
  intros HI%reachable_inv. inv_fields HI. split_and!; [apply Itab|by apply Tables_count|done|].
  intros w wkr Hw. by apply (wk_ok _ _ _ Iwk w).
Qed.

Lemma soft_state_bounded_witness : (vlen (entries demo_busy) ≤ maxEntries)%N.
Proof. exact (proj1 (soft_state_bounded Config.default demo_busy demo_busy_reachable)). Defined.

(** ** Corner cases

    Behaviours of the code that its comments do not mention. *)

Definition demo_comma : core :=
  play [OpHello (mkHelloInfo "w" ["s"] ["a"; "b"] 1 []);
        OpWant 1 (mkWantInfo "p" [] "s" ["a"; "b"] (double_of_Z 1)) (double_of_Z 0);
        OpWant 1 (mkWantInfo "q" [] "s" ["a,b"] (double_of_Z 1)) (double_of_Z 0)]
    (Core Config.default).

(** Feature lists that differ only in where a comma stands share a metric
    label, and with it the memo of [stats]: of two waiting derivations, one of
    which no worker can run, none is counted as unplaceable. *)
Example stats_label_collision :
  default Stats.zero (stats demo_comma !! ("s"%string, "a,b"%string)) = Stats.mk 2 0 0 1 1 ∧
  (placeable_drv 0 demo_comma).2 = Ok true ∧ (placeable_drv 1 demo_comma).2 = Ok false.
Proof. split_and!; vm_compute; reflexivity. Qed.

Definition system_names : list string :=
  ["a"; "b"; "c"; "d"; "e"; "f"; "g"; "h"; "i"; "j"; "k"; "l"; "m"; "n"; "o"; "p"; "q"].

Definition demo_rename : core :=
  play ((λ s, OpHello (mkHelloInfo "w" [s] [] 1 [])) <$> system_names) (Core Config.default).

(** A worker that stops offering a system leaves the empty state of the
    system behind, because only [retire] removes one.  After sixteen such changes
    a Want for a system nobody offers is refused although nothing is queued. *)
Example empty_systems_count :
  queued demo_rename = 0%N ∧ entries demo_rename = [] ∧ admitsSystem "new" demo_rename = false.
Proof. split_and!; vm_compute; reflexivity. Qed.

(** A build known only from a Hello makes a state for the system with the empty
    name, which stays when a Want names the real system and the build is done. *)
Definition demo_unnamed : core :=
  play [OpHello (mkHelloInfo "w" ["s"] [] 1 [("p", 1%N)]);
        OpWant 1 (mkWantInfo "p" [] "s" [] (double_of_Z 1)) (double_of_Z 0);
        OpDone 0 "p" []]
    (Core Config.default).

Example unnamed_system_stays :
  queued demo_unnamed = 0%N ∧ bool_decide (is_Some (systems demo_unnamed !! EmptyString)) = true ∧
  offered EmptyString demo_unnamed = false.
Proof. split_and!; vm_compute; reflexivity. Qed.
