(* ===== verification/SchedFrame.v ===== *)
(** * What every operation of the placement core leaves alone

    The configuration stays and slots of the entry table are never taken away,
    whether an operation returns or throws. *)

From S2P Require Import Prelude Double PathKey Heap Free Sched.

Definition grows (c c' : core) : Prop := cfg c' = cfg c ∧ (vlen (entries c) ≤ vlen (entries c'))%N.

#[export] Instance grows_preorder : PreOrder grows.
Proof.
  split; [by split|]. intros c1 c2 c3 [? ?] [? ?]. split; [congruence|lia].
Qed.

Lemma keeps_at {A} (v : core → list A) i : keeps grows (at_ v i).
Proof. intros c. unfold exec, at_. by destruct (v c !! i). Qed.

Lemma keeps_set_workers i x : keeps grows (set_at workers with_workers i x).
Proof. intros c. unfold exec, set_at. by destruct (workers c !! i). Qed.

Lemma keeps_set_entries i x : keeps grows (set_at entries with_entries i x).
Proof.
  intros c. unfold exec, set_at. destruct (entries c !! i); [|done]. split; [done|]. simpl. by rewrite vlen_insert.
Qed.

Lemma keeps_zoom {T A} (view : core → T) put (m : M T A) : (∀ t c, grows c (put t c)) → keeps grows (zoom view put m).
Proof. intros Hp c. unfold exec, zoom. destruct (m (view c)). apply Hp. Qed.

Lemma keeps_on_system {A} name (m : M SystemState.t A) : keeps grows (on_system name m).
Proof.
  unfold on_system. apply keeps_bind; [apply _| |intros []].
  { apply keeps_modify. intros c. unfold sys. by destruct (systems c !! name). }
  apply keeps_bind; [apply _|apply keeps_get, _|]. intros c. apply keeps_bind; [apply _|apply keeps_expect, _|].
  intros st. by apply keeps_zoom.
Qed.

Lemma keeps_drvId path : keeps grows (drvId path).
Proof.
  intros c. unfold drvId, exec, mbind, M_bind, get. simpl. destruct (drvIds c !! PathKey path); [done|].
  destruct (last (freeIds c)); [done|]. destruct (_ <=? _)%N; [done|]. split; [done|]. simpl. rewrite vlen_app. lia.
Qed.

Ltac keeps_grows :=
  repeat match goal with
  | |- keeps _ (_ ≫= _) => apply keeps_bind; [apply _| |intros ?]
  | |- keeps _ (mret _) => apply keeps_ret, _
  | |- keeps _ (throw _) => apply keeps_throw, _
  | |- keeps _ get => apply keeps_get, _
  | |- keeps _ (gets _) => apply keeps_gets, _
  | |- keeps _ (expect _ _) => apply keeps_expect, _
  | |- keeps _ (at_ _ _) => apply keeps_at
  | |- keeps _ (set_at workers _ _ _) => apply keeps_set_workers
  | |- keeps _ (set_at entries _ _ _) => apply keeps_set_entries
  | |- keeps _ (on_system _ _) => apply keeps_on_system
  | |- keeps _ (on_queue _ _) => apply keeps_on_system
  | |- keeps _ (on_free _ _) => apply keeps_on_system
  | |- keeps _ (drvId _) => apply keeps_drvId
  | |- keeps _ (forM_ _ _) => apply keeps_forM; [apply _|intros ?]
  | |- keeps _ (foldM _ _ _) => apply keeps_foldM; [apply _|intros ? ?]
  | |- keeps _ (zoom _ _ _) => apply keeps_zoom; intros ? ?; done
  | |- keeps _ (modify _) => apply keeps_modify; intros ?; first [done|unfold sys; by destruct (_ !! _)]
  | H : keeps _ ?m |- keeps _ ?m => exact H
  | H : ∀ x, keeps _ _ |- keeps _ _ => apply H
  | H : ∀ x y, keeps _ _ |- keeps _ _ => apply H
  | H : ∀ x y z, keeps _ _ |- keeps _ _ => apply H
  | |- keeps _ (if ?b then _ else _) => destruct b
  | |- keeps _ (match ?o with _ => _ end) => destruct o
  | |- keeps _ (let '(_, _) := ?p in _) => destruct p
  end.

Lemma keeps_upd_entry d f : keeps grows (upd_entry d f).
Proof. unfold upd_entry, entry_ref. keeps_grows. Qed.
Lemma keeps_upd_worker w f : keeps grows (upd_worker w f).
Proof. unfold upd_worker. keeps_grows. Qed.
Lemma keeps_enqueue d : keeps grows (enqueue d).
Proof. unfold enqueue, entry_ref. keeps_grows. Qed.
Lemma keeps_retire d : keeps grows (retire d).
Proof. unfold retire. keeps_grows. Qed.
Lemma keeps_refreshFree w : keeps grows (refreshFree w).
Proof. unfold refreshFree. keeps_grows. Qed.

Ltac keeps_op :=
  repeat first [apply keeps_upd_entry | apply keeps_upd_worker | apply keeps_enqueue | apply keeps_retire
               | apply keeps_refreshFree | progress keeps_grows].

Lemma keeps_want client info now : keeps grows (want client info now).
Proof. unfold want, want_follow, entry_ref. keeps_op. Qed.
Lemma keeps_cancel client d : keeps grows (cancel client d).
Proof. unfold cancel. keeps_op. Qed.
Lemma keeps_cancel_path client path : keeps grows (cancel_path client path).
Proof. pose proof keeps_cancel. unfold cancel_path. keeps_op. Qed.
Lemma keeps_clientGone client : keeps grows (clientGone client).
Proof. pose proof keeps_cancel. unfold clientGone. keeps_op. Qed.
Lemma keeps_workerGone w : keeps grows (workerGone w).
Proof. unfold workerGone, requeue_or_retire, entry_ref. keeps_op. Qed.
Lemma keeps_workerId addr : keeps grows (workerId addr).
Proof. unfold workerId. keeps_op. Qed.
Lemma keeps_hello info : keeps grows (hello info).
Proof.
  pose proof keeps_workerGone. pose proof keeps_workerId.
  unfold hello, hello_register, hello_running, hello_supersede, hello_place, entry_ref. keeps_op.
Qed.
Lemma keeps_done w path outs : keeps grows (done w path outs).
Proof. unfold done, rememberBuilder. keeps_op. Qed.
Lemma keeps_giveBack w path : keeps grows (giveBack w path).
Proof. unfold giveBack, requeue_or_retire, entry_ref. keeps_op. Qed.
Lemma keeps_setDraining w b : keeps grows (setDraining w b).
Proof. unfold setDraining. keeps_op. Qed.
Lemma keeps_freeOf w : keeps grows (freeOf w).
Proof. unfold freeOf. keeps_op. Qed.
Lemma keeps_pick ent : keeps grows (pick ent).
Proof.
  pose proof keeps_freeOf. unfold pick, pick_best, pick_cands, emptiestFor, avoiding, cand_ok, score. keeps_op.
Qed.
Lemma keeps_dispatch ord : keeps grows (dispatch ord).
Proof.
  pose proof keeps_pick. assert (∀ name out sk, keeps grows (dispatchHead name out sk)) as Hh.
  { intros. unfold dispatchHead. keeps_op. }
  assert (∀ fuel out sk, keeps grows (dispatch_loop ord fuel out sk)) as Hl.
  { induction fuel as [|fuel IH]; intros out sk; simpl; keeps_op. }
  unfold dispatch. keeps_op.
Qed.
Lemma keeps_placeabilityChanges : keeps grows placeabilityChanges.
Proof. unfold placeabilityChanges. keeps_op. Qed.
Lemma keeps_markUnplaceable d b : keeps grows (markUnplaceable d b).
Proof. unfold markUnplaceable. keeps_op. Qed.
