(* ===== verification/Exec.v ===== *)
(** * The client's build run: the executor's state machine

    [exec::Executor] of src/src/client/executor.hh.  Every member function that
    changes the executor is an operation of the monad [M executor]; a job id out
    of range throws as [std::vector::at] does.  Unsigned counters wrap at their
    width; ExecInv.v shows that they never do.

    The work list of [settle] is a stack, with its top first.  Its loop has fuel
    [settle_fuel], enough for every job to be visited twice: once for a result
    and once for the cancellation of the whole run.

    [std::partial_sort] does not say in which order it leaves elements that
    compare equal.  It is an argument, a [sorter], of [takeWants], with the laws
    the standard gives it.  A time point of [steady_clock] is an integer. *)

From stdpp Require Import sorting pretty.
From S2P Require Import Prelude Double.

Module Placement.
Record t := mk { addr : string; assignId : N; system : string }.
End Placement.

Inductive Outcome :=
  | built | cached | dependencyFailed | lost | unplaceable | gaveUp | cancelled.

#[export] Instance Outcome_eq_dec : EqDecision Outcome.
Proof. solve_decision. Defined.

Module Done.
Record t := mk { outcome : Outcome; succeeded : bool; message : string }.
End Done.

Inductive JobState :=
  | Blocked (waiting : N)      (* inputs not done *)
  | Wantable
  | Wanted (unplaceableSince : option Z) (reason : string)
  | Assigned (at_ : Placement.t)
  | Running (at_ : Placement.t) (redirect : option Placement.t)
  | Done (d : Done.t).

Module Cfg.
Record t := mk { threads : N; rescheduleRetries : N; keepGoing : bool }.
End Cfg.

Definition defaultRescheduleRetries : N := 8.

Module Job.
Record t := mk {
  state : JobState;
  prio : double;
  dependants : list N;
  failedInput : option N;
  bounced : N;
  followed : bool;   (* we sent a Want and no Cancel since *)
}.
Definition with_state v j :=
  mk v (prio j) (dependants j) (failedInput j) (bounced j) (followed j).
Definition with_dependants v j :=
  mk (state j) (prio j) v (failedInput j) (bounced j) (followed j).
Definition with_failedInput v j :=
  mk (state j) (prio j) (dependants j) v (bounced j) (followed j).
Definition with_bounced v j :=
  mk (state j) (prio j) (dependants j) (failedInput j) v (followed j).
Definition with_followed v j :=
  mk (state j) (prio j) (dependants j) (failedInput j) (bounced j) v.
End Job.

Record executor := mkExecutor {
  cfg : Cfg.t;
  jobs : list Job.t;
  wantable : list N;
  rewant : list N;
  cancels : list N;
  ready : list N;
  remaining : N;
  active : N;       (* Wanted, Assigned or Running *)
  progressed : N;
  stream : bool;
  abandoned : bool;
  stopping : bool;
}.

Definition with_jobs v e := mkExecutor (cfg e) v (wantable e) (rewant e) (cancels e) (ready e)
  (remaining e) (active e) (progressed e) (stream e) (abandoned e) (stopping e).
Definition with_wantable v e := mkExecutor (cfg e) (jobs e) v (rewant e) (cancels e) (ready e)
  (remaining e) (active e) (progressed e) (stream e) (abandoned e) (stopping e).
Definition with_rewant v e := mkExecutor (cfg e) (jobs e) (wantable e) v (cancels e) (ready e)
  (remaining e) (active e) (progressed e) (stream e) (abandoned e) (stopping e).
Definition with_cancels v e := mkExecutor (cfg e) (jobs e) (wantable e) (rewant e) v (ready e)
  (remaining e) (active e) (progressed e) (stream e) (abandoned e) (stopping e).
Definition with_ready v e := mkExecutor (cfg e) (jobs e) (wantable e) (rewant e) (cancels e) v
  (remaining e) (active e) (progressed e) (stream e) (abandoned e) (stopping e).
Definition with_remaining v e := mkExecutor (cfg e) (jobs e) (wantable e) (rewant e) (cancels e)
  (ready e) v (active e) (progressed e) (stream e) (abandoned e) (stopping e).
Definition with_active v e := mkExecutor (cfg e) (jobs e) (wantable e) (rewant e) (cancels e)
  (ready e) (remaining e) v (progressed e) (stream e) (abandoned e) (stopping e).
Definition with_progressed v e := mkExecutor (cfg e) (jobs e) (wantable e) (rewant e) (cancels e)
  (ready e) (remaining e) (active e) v (stream e) (abandoned e) (stopping e).
Definition with_stream v e := mkExecutor (cfg e) (jobs e) (wantable e) (rewant e) (cancels e)
  (ready e) (remaining e) (active e) (progressed e) v (abandoned e) (stopping e).
Definition with_abandoned v e := mkExecutor (cfg e) (jobs e) (wantable e) (rewant e) (cancels e)
  (ready e) (remaining e) (active e) (progressed e) (stream e) v (stopping e).
Definition with_stopping v e := mkExecutor (cfg e) (jobs e) (wantable e) (rewant e) (cancels e)
  (ready e) (remaining e) (active e) (progressed e) (stream e) (abandoned e) v.

Definition Executor (c : Cfg.t) : executor :=
  mkExecutor c [] [] [] [] [] 0 0 0 false false false.

(** ** State tests *)

Definition isActive (s : JobState) : bool :=
  match s with Wanted _ _ | Assigned _ | Running _ _ => true | _ => false end.

Definition is_done (s : JobState) : bool := match s with Done _ => true | _ => false end.
Definition is_wantable (s : JobState) : bool := match s with Wantable => true | _ => false end.
Definition is_running (s : JobState) : bool := match s with Running _ _ => true | _ => false end.

(** ** Jobs of the vector *)

Definition job_at (jid : N) : M executor Job.t := at_ jobs jid.
Definition set_job (jid : N) (j : Job.t) : M executor () := set_at jobs with_jobs jid j.
Definition upd_job (jid : N) (f : Job.t → Job.t) : M executor () :=
  j ← job_at jid; set_job jid (f j).

Definition bool_N (b : bool) : N := if b then 1 else 0.

(** [Executor::to] *)
Definition to (jid : N) (next : JobState) : M executor () :=
  j ← job_at jid;
  modify (λ e, with_active (sub64 (active e) (bool_N (isActive (Job.state j)))) e);;
  modify (λ e, with_active (u64 (active e + bool_N (isActive next))) e);;
  set_job jid (Job.with_state next j).

Definition lostDone : Done.t := Done.mk lost false "scheduler connection lost".
Definition cancelledDone : Done.t := Done.mk cancelled false "cancelled: another build failed".

(** Every job we stop following is cancelled, whatever its state or outcome. *)
Definition unfollow (jid : N) : M executor () :=
  j ← job_at jid;
  set_job jid (Job.with_followed false j);;
  if Job.followed j then modify (λ e, with_cancels (cancels e ++ [jid]) e) else mret tt.

Definition push_wantable (jid : N) : M executor () :=
  modify (λ e, with_wantable (wantable e ++ [jid]) e).

Definition unblock (jid : N) : M executor (option Done.t) :=
  j ← job_at jid;
  match Job.failedInput j with
  | Some _ => mret (Some (Done.mk dependencyFailed false "dependency failed"))
  | None =>
      stop ← gets stopping;
      if stop : bool then mret (Some cancelledDone)
      else
        gone ← gets abandoned;
        if gone : bool then mret (Some lostDone)
        else to jid Wantable;; push_wantable jid;; mret None
  end.

Definition Work : Type := list (N * Done.t).

(** One dependant of a job that ended. *)
Definition releaseDependant (jid : N) (failed : bool) (work : Work) (dep : N) : M executor Work :=
  dnt ← job_at dep;
  match Job.state dnt with
  | Blocked waiting =>
      (if failed && negb (bool_decide (is_Some (Job.failedInput dnt)))
       then upd_job dep (Job.with_failedInput (Some jid)) else mret tt);;
      let waiting' := sub64 waiting 1 in
      upd_job dep (Job.with_state (Blocked waiting'));;
      if (waiting' =? 0)%N then
        next ← unblock dep;
        mret (match next with Some d => (dep, d) :: work | None => work end)
      else mret work
  | _ => mret work
  end.

Definition releaseDependants (jid : N) (failed : bool) (work : Work) : M executor Work :=
  j ← job_at jid;
  foldM (releaseDependant jid failed) work (Job.dependants j).

Definition stopAll (work : Work) : M executor Work :=
  modify (with_stopping true);;
  n ← gets (λ e, vlen (jobs e));
  foldM (λ w other,
    j ← job_at other;
    mret (match Job.state j with
          | Running _ _ | Done _ => w
          | _ => (other, cancelledDone) :: w
          end)) work (range 0 n).

(** One iteration of the loop of [settle], on the work popped from the stack. *)
Definition settle_step (jid : N) (result : Done.t) (work : Work) : M executor Work :=
  job ← job_at jid;
  if is_done (Job.state job) then mret work
  else
    unfollow jid;;
    let failed := negb (Done.succeeded result) in
    to jid (Done result);;
    modify (λ e, with_remaining (sub64 (remaining e) 1) e);;
    modify (λ e, with_progressed (u64 (progressed e + 1)) e);;
    work' ← releaseDependants jid failed work;
    e ← get;
    if failed && negb (Cfg.keepGoing (cfg e)) && negb (stopping e) then stopAll work'
    else mret work'.

Fixpoint settle_loop (fuel : nat) (work : Work) : M executor () :=
  match work with
  | [] => mret tt
  | (jid, result) :: work' =>
      match fuel with
      | O => throw OutOfFuel
      | S fuel' => settle_step jid result work' ≫= settle_loop fuel'
      end
  end.

Definition settle_fuel (e : executor) : nat := 2 * length (jobs e) + 1.

(** Iterative: a failure can cascade through a deep graph. *)
Definition settle (first : N) (done : Done.t) : M executor () :=
  fuel ← gets settle_fuel; settle_loop fuel [(first, done)].

Definition release (jid : N) : M executor () :=
  done ← unblock jid;
  match done with Some d => settle jid d | None => mret tt end.

(** ** Building the graph *)

(** Inputs must be added first. *)
Definition add_input (jid : N) (waiting : N) (input : N) : M executor N :=
  j ← job_at input;
  match Job.state j with
  | Done d =>
      (if Done.succeeded d then mret tt
       else upd_job jid (Job.with_failedInput (Some input)));;
      mret waiting
  | _ =>
      upd_job input (λ j, Job.with_dependants (Job.dependants j ++ [jid]) j);;
      mret (u64 (waiting + 1))
  end.

Definition add (prio : double) (inputs : list N) : M executor N :=
  jid ← gets (λ e, u32 (vlen (jobs e)));
  modify (λ e, with_jobs (jobs e ++ [Job.mk (Blocked 0) prio [] None 0 false]) e);;
  modify (λ e, with_remaining (u64 (remaining e + 1)) e);;
  waiting ← foldM (add_input jid) 0%N inputs;
  upd_job jid (Job.with_state (Blocked waiting));;
  (if (waiting =? 0)%N then release jid else mret tt);;
  mret jid.

Definition blockOn (jid input : N) : M executor () :=
  job ← job_at jid;
  if is_running (Job.state job) then
    inp ← job_at input;
    match Job.state inp with
    | Done d =>
        (if Done.succeeded d then mret tt
         else upd_job jid (Job.with_failedInput (Some input)));;
        to jid (Blocked 0);;
        release jid
    | _ =>
        upd_job input (λ j, Job.with_dependants (Job.dependants j ++ [jid]) j);;
        unfollow jid;;
        to jid (Blocked 1)
    end
  else mret tt.

Definition at_job (jid : N) : M executor JobState := j ← job_at jid; mret (Job.state j).
Definition failedInput (jid : N) : M executor (option N) := j ← job_at jid; mret (Job.failedInput j).
Definition remainingJobs (e : executor) : N := remaining e.
Definition progress (e : executor) : N := progressed e.

(** ** The scheduler stream *)

(** Placed jobs are Wanted again too, so the scheduler keeps their builds. *)
Definition connected_job (jid : N) : M executor () :=
  job ← job_at jid;
  match Job.state job with
  | Wanted _ _ => to jid Wantable;; push_wantable jid
  | Assigned _ | Running _ _ => modify (λ e, with_rewant (rewant e ++ [jid]) e)
  | _ => mret tt
  end.

Definition connected : M executor () :=
  modify (with_stream true);;
  n ← gets (λ e, vlen (jobs e));
  forM_ (range 0 n) connected_job.

(** The scheduler drops a client's follows when its stream ends. *)
Definition disconnected : M executor () :=
  modify (with_stream false);;
  modify (λ e, with_jobs (Job.with_followed false <$> jobs e) e).

(** [std::partial_sort(v.begin(), v.begin() + middle, v.end(), cmp)]. *)
Record sorter := mkSorter {
  partial_sort : (N → N → bool) → nat → list N → list N;
  partial_sort_perm : ∀ cmp middle l, partial_sort cmp middle l ≡ₚ l;
  partial_sort_sorted : ∀ cmp middle l,
    (∀ x y, x ∈ l → y ∈ l → cmp x y = true → cmp y x = false) →
    (∀ x y z, x ∈ l → y ∈ l → z ∈ l → cmp x y = false → cmp y z = false → cmp x z = false) →
    ∀ x y, x ∈ take middle (partial_sort cmp middle l) →
           y ∈ drop middle (partial_sort cmp middle l) → cmp y x = false;
}.

(** [wantable] without the jobs that are no longer Wantable. *)
Definition still_wantable (e : executor) (jid : N) : bool :=
  match jobs e !! jid with Some j => is_wantable (Job.state j) | None => false end.

Definition more_urgent (e : executor) (lhs rhs : N) : bool :=
  match jobs e !! lhs, jobs e !! rhs with
  | Some l, Some r => dltb (Job.prio r) (Job.prio l)
  | _, _ => false
  end.

Definition want_job (jid : N) : M executor () :=
  to jid (Wanted None "");;
  upd_job jid (Job.with_followed true).

(** Capped at the build threads, so the scheduler holds no slot we can't use. *)
Definition takeWants (srt : sorter) : M executor (list N) :=
  str ← gets stream;
  if str : bool then
    out ← gets rewant;
    modify (with_rewant []);;
    forM_ out (λ jid, upd_job jid (Job.with_followed true));;
    w ← gets wantable;
    forM_ w (λ jid, job_at jid;; mret tt);;
    modify (λ e, with_wantable (filter (λ jid, still_wantable e jid = true) (wantable e)) e);;
    e ← get;
    let room := N.min (vlen (wantable e))
                      (if (active e <? Cfg.threads (cfg e))%N then (Cfg.threads (cfg e) - active e)%N
                       else 0%N) in
    let sorted := partial_sort srt (more_urgent e) (N.to_nat room) (wantable e) in
    modify (with_wantable sorted);;
    forM_ (take (N.to_nat room) sorted) want_job;;
    modify (λ e, with_wantable (drop (N.to_nat room) (wantable e)) e);;
    mret (out ++ take (N.to_nat room) sorted)
  else mret [].

(** A write failed: these go out again after the next connect. *)
Definition unsent (ids : list N) : M executor () :=
  forM_ ids (λ jid,
    upd_job jid (Job.with_followed false);;
    j ← job_at jid;
    match Job.state j with
    | Wanted _ _ => to jid Wantable;; push_wantable jid
    | _ => mret tt
    end).

Definition takeCancels : M executor (list N) :=
  out ← gets cancels; modify (with_cancels []);; mret out.

Definition push_ready (jid : N) : M executor () := modify (λ e, with_ready (ready e ++ [jid]) e).

Definition onAssigned (jid : N) (placement : Placement.t) : M executor () :=
  job ← job_at jid;
  if decide (Placement.addr placement = "") then mret tt
  else match Job.state job with
  | Running at_ _ =>
      if decide (Placement.addr placement = Placement.addr at_) then mret tt
      else set_job jid (Job.with_state (Running at_ (Some placement)) job)
  | Assigned _ => set_job jid (Job.with_state (Assigned placement) job)
  | Wanted _ _ =>
      modify (λ e, with_progressed (u64 (progressed e + 1)) e);;
      to jid (Assigned placement);;
      push_ready jid
  | _ => mret tt
  end.

Definition onCached (jid : N) : M executor () :=
  job ← job_at jid;
  match Job.state job with
  | Wanted _ _ => settle jid (Done.mk cached true "")
  | _ => mret tt
  end.

Definition onUnplaceable (jid : N) (reason : string) (now : Z) : M executor bool :=
  job ← job_at jid;
  match Job.state job with
  | Wanted since _ =>
      set_job jid (Job.with_state (Wanted (Some (default now since)) reason) job);;
      mret (negb (bool_decide (is_Some since)))
  | _ => mret false
  end.

Definition onPlaceable (jid : N) : M executor () :=
  job ← job_at jid;
  match Job.state job with
  | Wanted _ reason => set_job jid (Job.with_state (Wanted None reason) job)
  | _ => mret tt
  end.

(** Fails what stayed unplaceable past [grace].  When to call again. *)
Definition reap_job (now grace : Z) (wake : Z) (jid : N) : M executor Z :=
  job ← job_at jid;
  match Job.state job with
  | Wanted (Some since) reason =>
      if (now <? since + grace)%Z then mret (Z.min wake (since + grace))
      else settle jid (Done.mk unplaceable false reason);; mret wake
  | _ => mret wake
  end.

Definition reap (now grace : Z) : M executor Z :=
  n ← gets (λ e, vlen (jobs e));
  foldM (reap_job now grace) (now + grace)%Z (range 0 n).

(** ** The build threads *)

(** The queue gets shorter at every iteration. *)
Fixpoint next_loop (q : list N) : M executor (option (N * Placement.t)) :=
  match q with
  | [] => mret None
  | jid :: q' =>
      modify (with_ready q');;
      job ← job_at jid;
      match Job.state job with
      | Assigned placement =>
          to jid (Running placement None);; mret (Some (jid, placement))
      | _ => next_loop q'
      end
  end.

Definition next : M executor (option (N * Placement.t)) := gets ready ≫= next_loop.

Definition hasReady (e : executor) : bool := negb (bool_decide (ready e = [])).

Definition finished (jid : N) (succeeded : bool) : M executor () :=
  job ← job_at jid;
  if is_running (Job.state job) then settle jid (Done.mk built succeeded "") else mret tt.

Definition gave_up_message (bounced : N) : string :=
  "gave up after " +:+ pretty bounced +:+ " reschedules".

Definition bounced (jid : N) : M executor () :=
  job ← job_at jid;
  match Job.state job with
  | Running _ (Some placement) => to jid (Assigned placement);; push_ready jid
  | Running _ None =>
      let b := u32 (Job.bounced job + 1) in
      set_job jid (Job.with_bounced b job);;
      e ← get;
      if (Cfg.rescheduleRetries (cfg e) <? b)%N
      then settle jid (Done.mk gaveUp false (gave_up_message b))
      else to jid (Blocked 0);; release jid
  | _ => mret tt
  end.

(** No scheduler any more.  Placed jobs still build; everything else, now or
    released later, fails as lost. *)
Definition abandon_job (jid : N) : M executor () :=
  job ← job_at jid;
  match Job.state job with
  | Wantable | Wanted _ _ => settle jid lostDone
  | _ => mret tt
  end.

Definition abandon : M executor () :=
  modify (with_abandoned true);;
  n ← gets (λ e, vlen (jobs e));
  forM_ (range 0 n) abandon_job.
