(* ===== verification/ExecInv.v ===== *)
(** * The executor's invariant

    What holds of an [executor] between any two of its operations, and the parts
    of it that a running [settle] relaxes. *)

From S2P Require Import Prelude Double Exec.

(** ** Sums over the jobs *)

Definition wsum (f : Job.t → nat) (js : list Job.t) : nat := foldr (λ j n, f j + n) 0 js.

Lemma wsum_insert f js (i : N) a b :
  js !! i = Some a → wsum f (<[i := b]> js) + f a = wsum f js + f b.
Proof.
  unfold lookup, vec_lookup, insert, vec_insert, wsum. generalize (N.to_nat i). clear i.
  induction js as [|c js IH]; intros [|n] Hn; simplify_eq/=; [lia|].
  specialize (IH n Hn). lia.
Qed.

Lemma wsum_insert_same f js (i : N) a b :
  js !! i = Some a → f a = f b → wsum f (<[i := b]> js) = wsum f js.
Proof. intros H1 H2. pose proof (wsum_insert f js i a b H1). lia. Qed.

Lemma wsum_snoc f js a : wsum f (js ++ [a]) = wsum f js + f a.
Proof. unfold wsum. induction js; simpl; lia. Qed.

Lemma wsum_le f js (i : N) a : js !! i = Some a → f a ≤ wsum f js.
Proof.
  unfold lookup, vec_lookup, wsum. generalize (N.to_nat i). clear i.
  induction js as [|c js IH]; intros [|n] Hn; simplify_eq/=; [lia|].
  specialize (IH n Hn). lia.
Qed.

Lemma wsum_pos f js : 0 < wsum f js → ∃ (i : N) a, js !! i = Some a ∧ 0 < f a.
Proof.
  unfold wsum. induction js as [|c js IH]; simpl; [lia|]. intros H.
  destruct (decide (0 < f c)) as [Hc|Hc].
  - by exists 0%N, c.
  - destruct IH as (i & a & Hi & Ha); [lia|]. exists (N.succ i), a. split; [|done].
    unfold lookup, vec_lookup in *. by rewrite N2Nat.inj_succ.
Qed.

Lemma wsum_bound f js n : (∀ a, f a ≤ n) → wsum f js ≤ n * length js.
Proof. intros H. unfold wsum. induction js as [|a js IH]; simpl; [lia|]. specialize (H a). lia. Qed.

Lemma wsum_ext f g js : (∀ a, f a = g a) → wsum f js = wsum g js.
Proof. intros H. unfold wsum. induction js; simpl; auto. Qed.

Lemma wsum_fmap f h js : wsum f (h <$> js) = wsum (λ a, f (h a)) js.
Proof. unfold wsum. induction js; simpl; auto. Qed.

(** How often an id is in a list. *)
Definition count (d : N) (l : list N) : nat := length (filter (d =.) l).

Lemma count_nil d : count d [] = 0.
Proof. done. Qed.

Lemma count_cons d x l : count d (x :: l) = (if decide (d = x) then 1 else 0) + count d l.
Proof. unfold count. rewrite filter_cons. by case_decide. Qed.

Lemma count_app d l k : count d (l ++ k) = count d l + count d k.
Proof. unfold count. by rewrite filter_app, length_app. Qed.

Lemma count_pos d l : 0 < count d l ↔ d ∈ l.
Proof.
  induction l as [|x l IH]; [rewrite count_nil; split; [lia|by intros ?%elem_of_nil]|].
  rewrite count_cons, elem_of_cons. case_decide; naive_solver lia.
Qed.

(** ** What a job adds to the counters *)

Definition undone (j : Job.t) : nat := if is_done (Job.state j) then 0 else 1.
Definition act (j : Job.t) : nat := if isActive (Job.state j) then 1 else 0.
(** The edges from a job that is not done to [d]. *)
Definition edges (d : N) (j : Job.t) : nat :=
  if is_done (Job.state j) then 0 else count d (Job.dependants j).
(** How many inputs of [d] are not done, with multiplicity. *)
Definition indeg (js : list Job.t) (d : N) : nat := wsum (edges d) js.

Definition failed (s : JobState) : bool :=
  match s with Done d => negb (Done.succeeded d) | _ => false end.
Definition is_assigned (s : JobState) : bool := match s with Assigned _ => true | _ => false end.
(** Waiting for the scheduler. *)
Definition unplaced (s : JobState) : bool :=
  match s with Wantable | Wanted _ _ => true | _ => false end.

(** ** The parts of the invariant *)

Definition blk_ok (n : nat) (s : JobState) (inwork : Prop) : Prop :=
  match s with
  | Blocked w => w = N.of_nat n ∧ (w < 2 ^ 64)%N ∧ (w = 0%N → inwork)
  | Done _ => True
  | _ => n = 0
  end.

(** A blocked job counts its inputs that are not done; [rest] are the dependants
    that a job which just ended has not told yet. *)
Definition Blk (X rest : list N) (js : list Job.t) : Prop :=
  ∀ (d : N) job, js !! d = Some job →
    blk_ok (indeg js d + count d rest) (Job.state job) (d ∈ X).

(** A list that holds every job in the states [P], once. *)
Definition Listed (P : JobState → bool) (l : list N) (js : list Job.t) : Prop :=
  NoDup l ∧
  (∀ (j : N) job, js !! j = Some job → P (Job.state job) = true → j ∈ l) ∧
  (∀ j : N, j ∈ l → ∃ job, js !! j = Some job ∧
     (P (Job.state job) = true ∨ is_done (Job.state job) = true)).

Definition fol_ok (j : N) (job : Job.t) (str : bool) (F : gset N) (pending : list N) : Prop :=
  (Job.followed job = true →
     str = true ∧ match Job.state job with Done _ => False | Blocked w => w = 0%N | _ => True end) ∧
  (str = true → (Job.followed job = true ↔ j ∈ F ∧ j ∉ pending)).

(** [F] is what the scheduler takes us to follow on the current stream once it has
    read everything written to it. *)
Definition Fol (str : bool) (F : gset N) (pending : list N) (js : list Job.t) : Prop :=
  (∀ (j : N) job, js !! j = Some job → fol_ok j job str F pending) ∧
  (∀ j : N, j ∈ F ∨ j ∈ pending → (j < vlen js)%N).

Definition dep_ok (told : Prop) (jj job : Job.t) : Prop :=
  (is_done (Job.state jj) = false → is_done (Job.state job) = true → failed (Job.state job) = true) ∧
  (failed (Job.state jj) = true →
     told ∧ (is_done (Job.state job) = true → failed (Job.state job) = true) ∨
     is_Some (Job.failedInput job) ∨ failed (Job.state job) = true).

(** Failures reach the dependants. *)
Definition Fail (cur : N) (rest : list N) (js : list Job.t) : Prop :=
  (∀ (d : N) job, js !! d = Some job → ∀ j, Job.failedInput job = Some j →
     (∃ jj, js !! j = Some jj ∧ failed (Job.state jj) = true) ∧
     match Job.state job with Blocked _ => True | s => failed s = true end) ∧
  (∀ (j : N) jj d, js !! j = Some jj → d ∈ Job.dependants jj →
     ∃ job, js !! d = Some job ∧ dep_ok (j = cur ∧ d ∈ rest) jj job).

(** Why a job ended as it did. *)
Definition just (c : Cfg.t) (gone stop : bool) (job : Job.t) (d : Done.t) : Prop :=
  match Done.outcome d with
  | built => True
  | cached => Done.succeeded d = true
  | dependencyFailed => Done.succeeded d = false ∧ is_Some (Job.failedInput job)
  | lost => Done.succeeded d = false ∧ gone = true
  | unplaceable => Done.succeeded d = false
  | gaveUp => Done.succeeded d = false ∧ (Cfg.rescheduleRetries c < Job.bounced job)%N
  | cancelled => Done.succeeded d = false ∧ stop = true
  end.

Definition Just (c : Cfg.t) (gone stop : bool) (js : list Job.t) : Prop :=
  ∀ (j : N) job d, js !! j = Some job → Job.state job = Done d → just c gone stop job d.

(** After the first failure without keep-going, and without a scheduler, nothing
    waits to be placed. *)
Definition Quiet (flag : bool) (X : list N) (js : list Job.t) : Prop :=
  flag = true → ∀ (j : N) job, js !! j = Some job → unplaced (Job.state job) = true → j ∈ X.

Record Inv (X Y : list N) (cur : N) (rest : list N) (F : gset N) (e : executor) : Prop := mkInv {
  i_len : (vlen (jobs e) < 2 ^ 32)%N;
  i_prio : ∀ (j : N) job, jobs e !! j = Some job → is_nan (Job.prio job) = false;
  i_rewant : rewant e = [];
  i_remaining : remaining e = N.of_nat (wsum undone (jobs e));
  i_active : active e = N.of_nat (wsum act (jobs e));
  i_threads : (active e ≤ Cfg.threads (cfg e))%N;
  i_blk : Blk X rest (jobs e);
  i_wantable : Listed is_wantable (wantable e) (jobs e);
  i_ready : Listed is_assigned (ready e) (jobs e);
  i_fol : Fol (stream e) F (cancels e) (jobs e);
  i_fail : Fail cur rest (jobs e);
  i_just : Just (cfg e) (abandoned e) (stopping e) (jobs e);
  i_stop : Quiet (stopping e) X (jobs e);
  i_gone : Quiet (abandoned e) (X ++ Y) (jobs e);
  i_reason : stopping e = true → Cfg.keepGoing (cfg e) = false ∧
    ∃ (j : N) job, jobs e !! j = Some job ∧ failed (Job.state job) = true;
  i_work : ∀ j : N, j ∈ X → (j < vlen (jobs e))%N;
}.

Definition inv (F : gset N) (e : executor) : Prop := Inv [] [] 0 [] F e.

(** ** Replacing one job *)

Lemma failed_done s : failed s = true → is_done s = true.
Proof. by destruct s. Qed.

Lemma undone_not_failed s : is_done s = false → failed s = false.
Proof. by destruct s. Qed.

Section Replace.
Context (js : list Job.t) (i : N) (a b : Job.t) (Hi : js !! i = Some a).
#[local] Abbreviation js' := (<[i := b]> js).

Lemma lookup_replace (j : N) job :
  js' !! j = Some job ↔ (j = i ∧ job = b) ∨ (j ≠ i ∧ js !! j = Some job).
Proof using Hi.
  rewrite vlookup_insert_Some. pose proof (vlookup_lt_Some _ _ _ Hi). naive_solver.
Qed.

Lemma indeg_replace d : indeg js' d + edges d a = indeg js d + edges d b.
Proof using Hi. by apply wsum_insert. Qed.

Lemma Blk_replace X X' rest rest' :
  (∀ d, edges d a = edges d b) →
  (∀ d, d ≠ i → d ∈ X → d ∈ X') → (∀ d, d ≠ i → count d rest' = count d rest) →
  blk_ok (indeg js i + count i rest') (Job.state b) (i ∈ X') →
  Blk X rest js → Blk X' rest' js'.
Proof using Hi.
  intros He HX Hrest Hb H d job Hl. pose proof (indeg_replace d) as Hdeg. rewrite He in Hdeg.
  assert (indeg js' d = indeg js d) as -> by lia.
  apply lookup_replace in Hl as [[-> ->]|[Hd Hl]]; [done|].
  specialize (H d job Hl). rewrite Hrest by done. unfold blk_ok in *. destruct (Job.state job); naive_solver.
Qed.

(** A job ends: its edges move to [rest]. *)
Lemma Blk_done X X' :
  is_done (Job.state a) = false → is_done (Job.state b) = true →
  (∀ d, d ≠ i → d ∈ X → d ∈ X') →
  Blk X [] js → Blk X' (Job.dependants a) js'.
Proof using Hi.
  intros Ha Hb HX H d job [[-> ->]|[Hd Hl]]%lookup_replace.
  - unfold blk_ok. by destruct (Job.state b).
  - pose proof (indeg_replace d) as Hdeg. unfold edges in Hdeg. rewrite Ha, Hb in Hdeg.
    specialize (H d job Hl). rewrite count_nil in H.
    replace (indeg js' d + count d (Job.dependants a)) with (indeg js d + 0) by lia.
    unfold blk_ok in *. destruct (Job.state job); naive_solver.
Qed.

Lemma Listed_replace P l l' :
  NoDup l' → (∀ j, j ≠ i → j ∈ l' ↔ j ∈ l) →
  (P (Job.state b) = true → i ∈ l') →
  (i ∈ l' → P (Job.state b) = true ∨ is_done (Job.state b) = true) →
  Listed P l js → Listed P l' js'.
Proof using Hi.
  intros Hnd Hl H1 H2 (_ & Hin & Hout). split; [done|]. split.
  - intros j job [[-> ->]|[Hj Hjob]]%lookup_replace HP; [by auto|].
    apply Hl; [done|]. eauto.
  - intros j Hj. destruct (decide (j = i)) as [->|Hne].
    + exists b. split; [apply lookup_replace; by left|auto].
    + destruct (Hout j) as (job & Hjob & HP); [by apply Hl|].
      exists job. split; [apply lookup_replace; by right|done].
Qed.

Lemma Listed_same P l :
  (P (Job.state b) = true → P (Job.state a) = true) →
  (P (Job.state a) = true → P (Job.state b) = true ∨ is_done (Job.state b) = true) →
  (is_done (Job.state a) = true → is_done (Job.state b) = true) →
  Listed P l js → Listed P l js'.
Proof using Hi.
  intros Hba Hab Hd H. pose proof H as (Hnd & Hin & Hout).
  apply (Listed_replace P l l); [done..| | |done].
  - intros HP. by apply (Hin i a); auto.
  - intros (job & Hjob & HP)%Hout. naive_solver.
Qed.

Lemma Listed_push P l :
  P (Job.state a) = false → is_done (Job.state a) = false → P (Job.state b) = true →
  Listed P l js → Listed P (l ++ [i]) js'.
Proof using Hi.
  intros Ha Hd Hb H. pose proof H as (Hnd & Hin & Hout).
  assert (i ∉ l) as Hil.
  { intros (job & ? & [?|?])%Hout; simplify_eq; congruence. }
  apply (Listed_replace P l); [| | | |done].
  - apply NoDup_app. split_and!; [done| |apply NoDup_singleton].
    by intros x Hx ->%list_elem_of_singleton.
  - intros j Hj. rewrite elem_of_app, list_elem_of_singleton. naive_solver.
  - intros _. apply elem_of_app. right. by apply list_elem_of_singleton.
  - by left.
Qed.

Lemma Fol_replace str F pending :
  fol_ok i b str F pending → Fol str F pending js → Fol str F pending js'.
Proof using Hi.
  intros Hb [H1 H2]. split.
  - intros j job [[-> ->]|[Hj Hjob]]%lookup_replace; auto.
  - by rewrite vlen_insert.
Qed.

(** Following ends: a Cancel is due. *)
Lemma Fol_unfollow str F pending pending' :
  Job.followed b = false →
  pending' = (if Job.followed a then pending ++ [i] else pending) →
  Fol str F pending js → Fol str F pending' js'.
Proof using Hi.
  intros Hb -> [H1 H2]. split.
  2:{ rewrite vlen_insert. intros j Hj. destruct (Job.followed a); [|auto].
      rewrite elem_of_app, list_elem_of_singleton in Hj.
      destruct Hj as [?|[?| ->]]; [by auto..|]. by eapply vlookup_lt_Some. }
  intros j job [[-> ->]|[Hj Hjob]]%lookup_replace.
  - destruct (H1 i a Hi) as [Ha1 Ha2]. split; [by rewrite Hb|]. intros Hs.
    rewrite Hb. specialize (Ha2 Hs). destruct (Job.followed a); [|done].
    rewrite elem_of_app, list_elem_of_singleton. naive_solver.
  - specialize (H1 j job Hjob). unfold fol_ok in *. destruct (Job.followed a); [|done].
    rewrite elem_of_app, list_elem_of_singleton. naive_solver.
Qed.

Lemma Fail_replace cur rest :
  is_done (Job.state a) = false → is_done (Job.state b) = false →
  Job.dependants b = Job.dependants a →
  (is_Some (Job.failedInput a) → is_Some (Job.failedInput b)) →
  (∀ j, Job.failedInput b = Some j →
     (∃ jj, js !! j = Some jj ∧ failed (Job.state jj) = true) ∧
     match Job.state b with Blocked _ => True | _ => False end) →
  Fail cur rest js → Fail cur rest js'.
Proof using Hi.
  intros Ha Hb Hdep Hsome Hfi [H1 H2].
  pose proof (undone_not_failed _ Ha) as Hfa. pose proof (undone_not_failed _ Hb) as Hfb.
  assert (∀ j, (∃ jj, js !! j = Some jj ∧ failed (Job.state jj) = true) →
               ∃ jj, js' !! j = Some jj ∧ failed (Job.state jj) = true) as Hkeep.
  { intros j (jj & Hjj & Hf). exists jj. split; [|done]. apply lookup_replace. right.
    split; [|done]. intros ->. simplify_eq. congruence. }
  split.
  - intros d job [[-> ->]|[Hd Hjob]]%lookup_replace j Hj.
    + destruct (Hfi j Hj) as [? ?]. split; [auto|]. by destruct (Job.state b).
    + destruct (H1 d job Hjob j Hj). auto.
  - assert (∀ told jj, dep_ok told jj a → dep_ok told jj b) as Hb'.
    { unfold dep_ok. intros ??. rewrite Ha, Hb, Hfa, Hfb. naive_solver. }
    intros j jj d Hj Hd.
    assert (∃ jj0, js !! j = Some jj0 ∧ d ∈ Job.dependants jj0 ∧
      ∀ told job, dep_ok told jj0 job → dep_ok told jj job) as (jj0 & Hj0 & Hd0 & Hjj).
    { apply lookup_replace in Hj as [[-> ->]|[? ?]]; [|by eauto].
      exists a. rewrite <- Hdep. split_and!; [done..|]. unfold dep_ok. intros ??.
      rewrite Ha, Hb, Hfa, Hfb. naive_solver. }
    destruct (H2 j jj0 d Hj0 Hd0) as (job & Hjob & Hok).
    destruct (decide (d = i)) as [->|Hne].
    + exists b. split; [apply lookup_replace; by left|]. simplify_eq. eauto.
    + exists job. split; [apply lookup_replace; by right|]. eauto.
Qed.

(** A job ends: its dependants are still to be told. *)
Lemma Fail_done cur :
  is_done (Job.state a) = false → is_done (Job.state b) = true →
  Job.dependants b = Job.dependants a → Job.failedInput b = Job.failedInput a →
  failed (Job.state b) = true ∨
    (Job.failedInput a = None ∧
     ∀ (j : N) jj, js !! j = Some jj → is_done (Job.state jj) = false → i ∉ Job.dependants jj) →
  Fail cur [] js → Fail i (Job.dependants a) js'.
Proof using Hi.
  intros Ha Hb Hdep Hfi Hok [H1 H2]. pose proof (undone_not_failed _ Ha) as Hfa.
  assert (∀ j, (∃ jj, js !! j = Some jj ∧ failed (Job.state jj) = true) →
               ∃ jj, js' !! j = Some jj ∧ failed (Job.state jj) = true) as Hkeep.
  { intros j (jj & Hjj & Hf). exists jj. split; [|done]. apply lookup_replace. right.
    split; [|done]. intros ->. simplify_eq. congruence. }
  split.
  - intros d job [[-> ->]|[Hd Hjob]]%lookup_replace j Hj.
    + rewrite Hfi in Hj. destruct (H1 i a Hi j Hj). split; [auto|].
      destruct Hok as [Hf|[? _]]; [by destruct (Job.state b)|congruence].
    + destruct (H1 d job Hjob j Hj). auto.
  - intros j jj d [[-> ->]|[Hj Hjj]]%lookup_replace Hd.
    + rewrite Hdep in Hd. destruct (H2 i a d Hi Hd) as (job & Hjob & Hok1 & _).
      destruct (decide (d = i)) as [->|Hne].
      * exists b. split; [apply lookup_replace; by left|]. split; [congruence|]. auto.
      * exists job. split; [apply lookup_replace; by right|]. split; [congruence|]. auto.
    + destruct (H2 j jj d Hjj Hd) as (job & Hjob & Hok1 & Hok2).
      destruct (decide (d = i)) as [->|Hne].
      * exists b. split; [apply lookup_replace; by left|]. simplify_eq. split.
        -- intros Hu _. destruct Hok as [|[_ Hok]]; [done|]. by destruct (Hok j jj Hjj Hu).
        -- intros Hf. rewrite Hfi. destruct (Hok2 Hf) as [[[_ Hnil] _]|[?|Hx]];
             [by apply elem_of_nil in Hnil|by auto|by rewrite Hfa in Hx].
      * exists job. split; [apply lookup_replace; by right|]. split; [done|].
        intros Hf. destruct (Hok2 Hf) as [[[_ Hnil] _]|?]; [by apply elem_of_nil in Hnil|auto].
Qed.

Lemma Just_replace c gone stop :
  (∀ d, Job.state b = Done d → just c gone stop b d) →
  Just c gone stop js → Just c gone stop js'.
Proof using Hi.
  intros Hb H j job d [[-> ->]|[Hj Hjob]]%lookup_replace; [by auto|]. exact (H j job d Hjob).
Qed.

Lemma Quiet_replace flag X X' :
  (∀ j, j ≠ i → j ∈ X → j ∈ X') →
  (flag = true → unplaced (Job.state b) = true → i ∈ X') →
  Quiet flag X js → Quiet flag X' js'.
Proof using Hi.
  intros HX Hb H Hf j job [[-> ->]|[Hj Hjob]]%lookup_replace Hu; [by auto|].
  apply HX; [done|]. by eapply H.
Qed.
End Replace.

(** The first dependant in [rest] has been told. *)
Lemma Fail_told cur dep rest js cj :
  js !! cur = Some cj →
  (∀ job, js !! dep = Some job → failed (Job.state cj) = true →
     is_Some (Job.failedInput job) ∨ failed (Job.state job) = true) →
  Fail cur (dep :: rest) js → Fail cur rest js.
Proof.
  intros Hc Hdep [H1 H2]. split; [done|]. intros j jj d Hj Hd.
  destruct (H2 j jj d Hj Hd) as (job & Hjob & Hok1 & Hok2). exists job. split; [done|].
  split; [done|]. intros Hf. destruct (Hok2 Hf) as [[[-> Hin] Hdn]|?]; [|by auto].
  apply elem_of_cons in Hin as [->|?]; [|by auto]. simplify_eq. right. eauto.
Qed.

Lemma Fail_cur cur cur' js : Fail cur [] js → Fail cur' [] js.
Proof.
  intros [H1 H2]. split; [done|]. intros j jj d Hj Hd.
  destruct (H2 j jj d Hj Hd) as (job & ? & Hok1 & Hok2). exists job. split; [done|].
  split; [done|]. intros Hf. destruct (Hok2 Hf) as [[[_ Hnil] _]|?]; [by apply elem_of_nil in Hnil|auto].
Qed.

Lemma indeg_zero js d (j : N) jj :
  indeg js d = 0 → js !! j = Some jj → is_done (Job.state jj) = false → d ∉ Job.dependants jj.
Proof.
  intros H0 Hj Hu Hd%count_pos. pose proof (wsum_le (edges d) js j jj Hj) as Hle.
  unfold indeg in H0. unfold edges in Hle at 1. rewrite Hu in Hle. lia.
Qed.

(** ** One job moves to another state *)

(** The fields that no move of a job touches. *)
Definition frame (e e' : executor) : Prop :=
  cfg e' = cfg e ∧ rewant e' = rewant e ∧ remaining e' = remaining e ∧ stream e' = stream e ∧
  abandoned e' = abandoned e ∧ stopping e' = stopping e.

Lemma Inv_moveF X Y X' Y' cur rest rest' F F' e e' i a b :
  Inv X Y cur rest F e → jobs e !! i = Some a → jobs e' = <[i := b]> (jobs e) → frame e e' →
  is_done (Job.state a) = false → is_done (Job.state b) = false →
  Job.prio b = Job.prio a → Job.dependants b = Job.dependants a →
  active e' = (active e - N.of_nat (act a) + N.of_nat (act b))%N →
  (act b ≤ act a ∨ (active e' ≤ Cfg.threads (cfg e))%N) →
  (∀ d, d ≠ i → count d rest' = count d rest) →
  blk_ok (indeg (jobs e) i + count i rest') (Job.state b) (i ∈ X') →
  Listed is_wantable (wantable e') (jobs e') → Listed is_assigned (ready e') (jobs e') →
  Fol (stream e) F' (cancels e') (jobs e') → Fail cur rest' (jobs e') →
  (unplaced (Job.state b) = true → stopping e = true → i ∈ X') →
  (unplaced (Job.state b) = true → abandoned e = true → i ∈ X' ++ Y') →
  (∀ j, j ≠ i → j ∈ X → j ∈ X') → (∀ j, j ≠ i → j ∈ Y → j ∈ Y') →
  (∀ j : N, j ∈ X' → (j < vlen (jobs e))%N) →
  Inv X' Y' cur rest' F' e'.
Proof.
  intros HI Hi Hjs (Hcfg & Hrw & Hrem & Hstr & Hab & Hst) Ha Hb Hprio Hdep Hact Hthr Hrest Hblk
    Hwl Hrl Hfol Hfail Hq1 Hq2 HX HY HX'.
  pose proof (wsum_insert act (jobs e) i a b Hi) as Hwa.
  pose proof (wsum_le act (jobs e) i a Hi) as Hle.
  destruct HI. split; rewrite ?Hjs, ?Hcfg, ?Hrw, ?Hrem, ?Hstr, ?Hab, ?Hst, ?vlen_insert in *; try done.
  - intros j job [[-> ->]|[_ ?]]%(lookup_replace _ _ a b Hi); [rewrite Hprio|]; eauto.
  - rewrite i_remaining0. f_equal. symmetry. apply (wsum_insert_same _ _ _ a); [done|].
    unfold undone. by rewrite Ha, Hb.
  - lia.
  - lia.
  - apply (Blk_replace _ _ a b Hi X _ rest); [|done..].
    intros d. unfold edges. by rewrite Ha, Hb, Hdep.
  - apply (Just_replace _ _ a b Hi); [|done]. intros d Hd. by rewrite Hd in Hb.
  - by apply (Quiet_replace _ _ a b Hi _ X); auto.
  - apply (Quiet_replace _ _ a b Hi _ (X ++ Y)); [|by auto|done].
    intros j Hj. rewrite !elem_of_app. naive_solver.
  - intros [? (j & job & Hj & Hf)]%i_reason0. split; [done|]. exists j, job. split; [|done].
    apply (lookup_replace _ _ a b Hi). right. split; [|done]. intros ->. simplify_eq.
    apply failed_done in Hf. congruence.
Qed.

Lemma Inv_move_rest X Y X' Y' cur rest rest' F e e' i a b :
  Inv X Y cur rest F e → jobs e !! i = Some a → jobs e' = <[i := b]> (jobs e) → frame e e' →
  is_done (Job.state a) = false → is_done (Job.state b) = false →
  Job.prio b = Job.prio a → Job.dependants b = Job.dependants a →
  active e' = (active e - N.of_nat (act a) + N.of_nat (act b))%N →
  (act b ≤ act a ∨ (active e' ≤ Cfg.threads (cfg e))%N) →
  (∀ d, d ≠ i → count d rest' = count d rest) →
  blk_ok (indeg (jobs e) i + count i rest') (Job.state b) (i ∈ X') →
  Listed is_wantable (wantable e') (jobs e') → Listed is_assigned (ready e') (jobs e') →
  Fol (stream e) F (cancels e') (jobs e') → Fail cur rest' (jobs e') →
  (unplaced (Job.state b) = true → stopping e = true → i ∈ X') →
  (unplaced (Job.state b) = true → abandoned e = true → i ∈ X' ++ Y') →
  (∀ j, j ≠ i → j ∈ X → j ∈ X') → (∀ j, j ≠ i → j ∈ Y → j ∈ Y') →
  (∀ j : N, j ∈ X' → (j < vlen (jobs e))%N) →
  Inv X' Y' cur rest' F e'.
Proof. apply Inv_moveF. Qed.

Lemma Inv_move X Y X' Y' cur rest F e e' i a b :
  Inv X Y cur rest F e → jobs e !! i = Some a → jobs e' = <[i := b]> (jobs e) → frame e e' →
  is_done (Job.state a) = false → is_done (Job.state b) = false →
  Job.prio b = Job.prio a → Job.dependants b = Job.dependants a →
  active e' = (active e - N.of_nat (act a) + N.of_nat (act b))%N →
  (act b ≤ act a ∨ (active e' ≤ Cfg.threads (cfg e))%N) →
  blk_ok (indeg (jobs e) i + count i rest) (Job.state b) (i ∈ X') →
  Listed is_wantable (wantable e') (jobs e') → Listed is_assigned (ready e') (jobs e') →
  Fol (stream e) F (cancels e') (jobs e') →
  (is_Some (Job.failedInput a) → is_Some (Job.failedInput b)) →
  (∀ j, Job.failedInput b = Some j →
     (∃ jj, jobs e !! j = Some jj ∧ failed (Job.state jj) = true) ∧
     match Job.state b with Blocked _ => True | _ => False end) →
  (unplaced (Job.state b) = true → stopping e = true → i ∈ X') →
  (unplaced (Job.state b) = true → abandoned e = true → i ∈ X' ++ Y') →
  (∀ j, j ≠ i → j ∈ X → j ∈ X') → (∀ j, j ≠ i → j ∈ Y → j ∈ Y') →
  (∀ j : N, j ∈ X' → (j < vlen (jobs e))%N) →
  Inv X' Y' cur rest F e'.
Proof.
  intros HI Hi Hjs. intros. apply (Inv_move_rest X Y X' Y' cur rest rest F e e' i a b); try done.
  rewrite Hjs. apply (Fail_replace _ _ a b Hi); [done..|apply HI].
Qed.

(** A dependant that is done needs not be told. *)
Lemma Inv_skip X Y cur cj dep dnt rest F e :
  Inv X Y cur (dep :: rest) F e → jobs e !! cur = Some cj → dep ∈ Job.dependants cj →
  jobs e !! dep = Some dnt → is_done (Job.state dnt) = true → Inv X Y cur rest F e.
Proof.
  intros HI Hc Hd Hdnt Hdone. destruct HI. split; try done.
  - intros d job Hj. specialize (i_blk0 d job Hj). rewrite count_cons in i_blk0.
    case_decide; [|done]. subst. simplify_eq. by destruct (Job.state dnt).
  - apply (Fail_told cur dep rest _ cj); [done| |done]. intros job Hj Hf. simplify_eq.
    destruct i_fail0 as [_ H2]. destruct (H2 cur cj dep Hc Hd) as (job' & ? & _ & Hok).
    simplify_eq. destruct (Hok Hf) as [[_ ?]|?]; auto.
Qed.

(** [Executor::to], when the counter is right. *)
Definition cnt_ok (e : executor) : Prop :=
  (vlen (jobs e) < 2 ^ 32)%N ∧ active e = N.of_nat (wsum act (jobs e)).

Definition moved (jid : N) (next : JobState) (j : Job.t) (e : executor) : executor :=
  with_jobs (<[jid := Job.with_state next j]> (jobs e))
    (with_active (active e - bool_N (isActive (Job.state j)) + bool_N (isActive next)) e).

Lemma wp_to jid next j (Φ : () → executor → Prop) e :
  cnt_ok e → jobs e !! jid = Some j → Φ tt (moved jid next j e) → wp (to jid next) Φ e.
Proof.
  intros [Hlen Hact] Hj HΦ. unfold to. wp_step. apply (wp_at jobs jid j); [done|]. wp_steps.
  apply wp_set_at; [by eapply vlookup_lt_Some|].
  pose proof (wsum_le act (jobs e) jid j Hj) as Hle. unfold act in Hle at 1.
  pose proof (wsum_bound act (jobs e) 1) as Hb.
  assert (wsum act (jobs e) ≤ 1 * length (jobs e)).
  { apply Hb. intros a. unfold act. destruct (isActive (Job.state a)); lia. }
  unfold vlen, bool_N in *. simpl.
  rewrite sub64_small, u64_small; [exact HΦ|..];
    destruct (isActive (Job.state j)), (isActive next); lia.
Qed.

Lemma Inv_cnt X Y cur rest F e : Inv X Y cur rest F e → cnt_ok e.
Proof. intros []. done. Qed.

(** * What the executor's operations leave alone

    The edges of the graph change only in [add] and [blockOn]. *)

(** ** The edges stay *)

Definition deps_same (e e' : executor) : Prop :=
  vlen (jobs e') = vlen (jobs e) ∧
  ∀ (j : N) job, jobs e !! j = Some job →
    ∃ job', jobs e' !! j = Some job' ∧ Job.dependants job' = Job.dependants job.

#[export] Instance deps_same_preorder : PreOrder deps_same.
Proof.
  split.
  - intros e. split; [done|]. intros j job Hj. by exists job.
  - intros e1 e2 e3 [Hv1 H1] [Hv2 H2]. split; [congruence|]. intros j job Hj.
    destruct (H1 j job Hj) as (job2 & Hj2 & E2). destruct (H2 j job2 Hj2) as (job3 & Hj3 & E3).
    exists job3. split; [done|congruence].
Qed.

Lemma deps_same_set e e' jid a b :
  jobs e !! jid = Some a → jobs e' = <[jid := b]> (jobs e) → Job.dependants b = Job.dependants a →
  deps_same e e'.
Proof.
  intros Hj Hjs Hd. split; [by rewrite Hjs, vlen_insert|]. intros j job Hjob. rewrite Hjs.
  destruct (decide (j = jid)) as [->|Hne].
  - simplify_eq. exists b. split; [|done]. apply (lookup_replace _ _ _ _ Hj). by left.
  - exists job. split; [|done]. apply (lookup_replace _ _ _ _ Hj). by right.
Qed.

Lemma deps_same_jobs e e' : jobs e' = jobs e → deps_same e e'.
Proof. intros E. split; [by rewrite E|]. intros j job Hj. exists job. by rewrite E. Qed.

(** Reading a job and writing it back with the same edges. *)
Lemma keeps_upd_job jid f :
  (∀ j, Job.dependants (f j) = Job.dependants j) → keeps deps_same (upd_job jid f).
Proof.
  intros Hf e. unfold exec, upd_job, job_at, set_job, at_, set_at, mbind, M_bind.
  destruct (jobs e !! jid) as [j|] eqn:Hj; simpl; [|reflexivity]. rewrite Hj. simpl.
  by apply (deps_same_set _ _ jid j (f j)).
Qed.

Lemma keeps_job_at {A} jid (k : Job.t → M executor A) :
  (∀ e j, jobs e !! jid = Some j → deps_same e (exec (k j) e)) → keeps deps_same (job_at jid ≫= k).
Proof.
  intros Hk e. unfold exec, job_at, at_, mbind, M_bind.
  destruct (jobs e !! jid) as [j|] eqn:Hj; simpl; [|reflexivity]. by apply Hk.
Qed.

Lemma exec_set_job jid b e : exec (set_job jid b) e = with_jobs (<[jid := b]> (jobs e)) e ∨ exec (set_job jid b) e = e.
Proof. unfold exec, set_job, set_at. destruct (jobs e !! jid); auto. Qed.

Lemma keeps_set_job e jid a b :
  jobs e !! jid = Some a → Job.dependants b = Job.dependants a → deps_same e (exec (set_job jid b) e).
Proof.
  intros Hj Hd. destruct (exec_set_job jid b e) as [E|E]; rewrite E; [|reflexivity].
  by apply (deps_same_set _ _ jid a b).
Qed.

Lemma keeps_to jid next : keeps deps_same (to jid next).
Proof.
  apply keeps_job_at. intros e j Hj.
  change (deps_same e (exec (set_job jid (Job.with_state next j))
    (with_active (u64 (active (with_active (sub64 (active e) (bool_N (isActive (Job.state j)))) e)
       + bool_N (isActive next))) (with_active (sub64 (active e) (bool_N (isActive (Job.state j)))) e)))).
  etrans; [|by apply (keeps_set_job _ jid j)]. by apply deps_same_jobs.
Qed.

Create HintDb keeps discriminated.
#[export] Hint Resolve keeps_to : keeps.

Ltac keeps_step :=
  first
  [ by eauto with keeps
  | apply keeps_upd_job; reflexivity
  | apply keeps_bind; [apply _| |intros ?]
  | apply keeps_ret; apply _ | apply keeps_throw; apply _ | apply keeps_get; apply _
  | apply keeps_gets; apply _ | apply keeps_expect; apply _
  | apply keeps_modify; intros ?; apply deps_same_jobs; reflexivity
  | apply keeps_forM; [apply _|intros ?] | apply keeps_foldM; [apply _|intros ? ?]
  | case_match ].
Ltac keeps := repeat keeps_step.

Lemma keeps_read jid : keeps deps_same (job_at jid).
Proof. intros e. unfold exec, job_at, at_. destruct (jobs e !! jid); reflexivity. Qed.
#[export] Hint Resolve keeps_read : keeps.

Lemma keeps_unfollow jid : keeps deps_same (unfollow jid).
Proof.
  apply keeps_job_at. intros e j Hj. unfold exec, mbind, M_bind, set_job, set_at. rewrite Hj. simpl.
  destruct (Job.followed j); simpl; by apply (deps_same_set _ _ jid j (Job.with_followed false j)).
Qed.
#[export] Hint Resolve keeps_unfollow : keeps.

Lemma keeps_unblock jid : keeps deps_same (unblock jid).
Proof. unfold unblock, push_wantable. keeps. Qed.
#[export] Hint Resolve keeps_unblock : keeps.

Lemma keeps_releaseDependants jid fail work : keeps deps_same (releaseDependants jid fail work).
Proof. unfold releaseDependants, releaseDependant. keeps. Qed.
#[export] Hint Resolve keeps_releaseDependants : keeps.

Lemma keeps_stopAll work : keeps deps_same (stopAll work).
Proof. unfold stopAll. keeps. Qed.
#[export] Hint Resolve keeps_stopAll : keeps.

Lemma keeps_settle_loop fuel work : keeps deps_same (settle_loop fuel work).
Proof.
  revert work. induction fuel as [|fuel IH]; intros [|[jid d] work]; simpl; unfold settle_step; keeps.
Qed.

Lemma keeps_settle jid d : keeps deps_same (settle jid d).
Proof. unfold settle. apply keeps_bind; [apply _|apply keeps_gets; apply _|]. intros. apply keeps_settle_loop. Qed.
#[export] Hint Resolve keeps_settle : keeps.

Lemma keeps_release jid : keeps deps_same (release jid).
Proof. unfold release. keeps. Qed.
#[export] Hint Resolve keeps_release : keeps.
