(* ===== verification/ExecSettle.v ===== *)
(** * Settling a job

    [Executor::settle] ends a job and everything that follows from it: dependants
    are released or fail in turn, and without keep-going the whole run is
    cancelled.  The loop terminates, keeps the invariant of ExecInv.v, and changes
    the other jobs only as [evolve] says. *)

From S2P Require Import Prelude Double Exec ExecInv.

(** ** How settling one job changes another *)

(** Ended without having been built. *)
Definition unbuilt (d : Done.t) : bool := negb (Done.succeeded d) && negb (bool_decide (Done.outcome d = built)).
Definition doomed (s : JobState) : bool := match s with Done d => unbuilt d | _ => false end.

Lemma doomed_failed s : doomed s = true → failed s = true.
Proof. destruct s; [done..|]. simpl. by intros [? _]%andb_prop. Qed.

Lemma unbuilt_failed d : unbuilt d = true → Done.succeeded d = false.
Proof. intros [?%negb_true_iff _]%andb_prop. done. Qed.

Definition evolve (stop : bool) (j j' : Job.t) : Prop :=
  Job.prio j' = Job.prio j ∧ Job.dependants j' = Job.dependants j ∧ Job.bounced j' = Job.bounced j ∧
  match Job.state j with
  | Done d => Job.state j' = Done d
  | Running at_ redirect => Job.state j' = Running at_ redirect
  | Blocked w =>
      (∃ w', Job.state j' = Blocked w' ∧ (w' ≤ w)%N) ∨ Job.state j' = Wantable ∨
      doomed (Job.state j') = true
  | s => Job.state j' = s ∨ (stop = true ∧ Job.state j' = Done cancelledDone)
  end.

Lemma evolve_refl stop j : evolve stop j j.
Proof. unfold evolve. destruct (Job.state j) eqn:E; rewrite ?E; naive_solver lia. Qed.

Lemma evolve_mono stop stop' j j' :
  (stop = true → stop' = true) → evolve stop j j' → evolve stop' j j'.
Proof. unfold evolve. destruct (Job.state j); naive_solver. Qed.

Lemma evolve_trans stop j1 j2 j3 : evolve stop j1 j2 → evolve stop j2 j3 → evolve stop j1 j3.
Proof.
  unfold evolve. intros (-> & -> & -> & H1) (-> & -> & -> & H2). split_and!; [done..|].
  destruct (Job.state j1).
  - destruct H1 as [(w' & E & ?)|[E|E]].
    + rewrite E in H2. destruct H2 as [(w'' & ? & ?)|?]; [left; exists w''; split; [done|lia]|by right].
    + rewrite E in H2. destruct H2 as [?|[_ ->]]; [by auto|]. by right; right.
    + destruct (Job.state j2); try done. rewrite H2. by right; right.
  - destruct H1 as [E|[? E]]; rewrite E in H2; [done|by right].
  - destruct H1 as [E|[? E]]; rewrite E in H2; [done|by right].
  - destruct H1 as [E|[? E]]; rewrite E in H2; [done|by right].
  - by rewrite H1 in H2.
  - by rewrite H1 in H2.
Qed.

(** What settling the jobs [P] leaves of an executor. *)
Record Evolves (P : N → Prop) (e e' : executor) : Prop := mkEvolves {
  ev_len : vlen (jobs e') = vlen (jobs e);
  ev_cfg : cfg e' = cfg e;
  ev_stream : stream e' = stream e;
  ev_abandoned : abandoned e' = abandoned e;
  ev_stopping : stopping e = true → stopping e' = true;
  ev_jobs : ∀ (j : N) job, jobs e !! j = Some job → ¬ P j →
    ∃ job', jobs e' !! j = Some job' ∧ evolve (stopping e') job job';
}.

Lemma Evolves_refl P e : Evolves P e e.
Proof. split; try done. intros j job Hj _. exists job. split; [done|apply evolve_refl]. Qed.

Lemma Evolves_trans (P Q R : N → Prop) e1 e2 e3 :
  (∀ j, P j → R j) → (∀ j, Q j → R j) → Evolves P e1 e2 → Evolves Q e2 e3 → Evolves R e1 e3.
Proof.
  intros HP HQ [] []. split; [congruence..|auto|].
  intros j job Hj HR. destruct (ev_jobs0 j job Hj) as (job2 & Hj2 & Hev2); [naive_solver|].
  destruct (ev_jobs1 j job2 Hj2) as (job3 & Hj3 & Hev3); [naive_solver|].
  exists job3. split; [done|]. eapply evolve_trans; [|done]. by eapply evolve_mono.
Qed.

Lemma Evolves_nobody P e1 e2 e3 : Evolves P e1 e2 → Evolves (λ _, False) e2 e3 → Evolves P e1 e3.
Proof. by apply Evolves_trans. Qed.

(** Replacing one job. *)
Lemma Evolves_one (P : N → Prop) e e' i a b :
  jobs e !! i = Some a → jobs e' = <[i := b]> (jobs e) → cfg e' = cfg e → stream e' = stream e →
  abandoned e' = abandoned e → (stopping e = true → stopping e' = true) →
  (P i ∨ evolve (stopping e') a b) → Evolves P e e'.
Proof.
  intros Hi Hjs ???? Hab. split; try done; [by rewrite Hjs, vlen_insert|].
  intros j job Hj HP. rewrite Hjs. destruct (decide (j = i)) as [->|Hne].
  - simplify_eq. exists b. split; [apply (lookup_replace _ _ _ _ Hi); by left|]. naive_solver.
  - exists job. split; [apply (lookup_replace _ _ _ _ Hi); by right|apply evolve_refl].
Qed.

Abbreviation nobody := (λ _ : N, False).

(** ** The work that is left *)

(** An entry of the work list that is not the first one: a job that a failed input
    or the end of the run has doomed. *)
Definition item_ok (e : executor) (item : N * Done.t) : Prop :=
  unbuilt (snd item) = true ∧
  ∃ job, jobs e !! fst item = Some job ∧
    just (cfg e) (abandoned e) (stopping e) job (snd item) ∧
    match Job.state job with
    | Done _ => True
    | Blocked w => w = 0%N ∨ stopping e = true
    | Running _ _ => False
    | _ => stopping e = true ∧ snd item = cancelledDone
    end.

Definition WorkOk (e : executor) (work : Work) : Prop := Forall (item_ok e) work.

(** The iterations left: the entries, the blocked jobs that can still become
    entries, and all jobs once if the run can still be cancelled. *)
Definition bpos (j : Job.t) : nat :=
  match Job.state j with Blocked w => if (w =? 0)%N then 0 else 1 | _ => 0 end.

Lemma bpos_le j : bpos j ≤ 1.
Proof. unfold bpos. destruct (Job.state j) as [w| | | | |]; try lia. destruct (w =? 0)%N; lia. Qed.

Definition can_stop (e : executor) : nat :=
  if Cfg.keepGoing (cfg e) || stopping e then 0 else length (jobs e).
Definition measure (e : executor) (work : Work) : nat :=
  length work + wsum bpos (jobs e) + can_stop e.

Lemma just_mono c gone stop job job' d :
  (is_Some (Job.failedInput job) → is_Some (Job.failedInput job')) →
  Job.bounced job' = Job.bounced job →
  just c gone stop job d → just c gone stop job' d.
Proof. unfold just. intros ? ->. destruct (Done.outcome d); naive_solver. Qed.

(** An entry stays doomed when another job, or this one while it is blocked,
    changes. *)
Lemma item_ok_replace e e' i a b item :
  jobs e !! i = Some a → jobs e' = <[i := b]> (jobs e) → cfg e' = cfg e →
  abandoned e' = abandoned e → stopping e' = stopping e →
  (is_Some (Job.failedInput a) → is_Some (Job.failedInput b)) →
  Job.bounced b = Job.bounced a →
  (fst item = i →
    match Job.state b with
    | Done _ => True
    | Blocked w => w = 0%N ∨ stopping e = true
    | _ => False
    end) →
  item_ok e item → item_ok e' item.
Proof.
  intros Hi Hjs Hcfg Hab Hst Hfi Hbn Hb [Hs (job & Hj & Hjust & Hstate)]. split; [done|].
  rewrite Hjs, Hcfg, Hab, Hst. destruct (decide (fst item = i)) as [Heq|Hne].
  - rewrite Heq in Hj. simplify_eq. exists b. split_and!.
    + apply (lookup_replace _ _ _ _ Hi). by left.
    + by eapply just_mono.
    + specialize (Hb eq_refl). by destruct (Job.state b).
  - exists job. split_and!; [|done..]. apply (lookup_replace _ _ _ _ Hi). by right.
Qed.

(** ** Unblocking *)

Lemma with_jobs_id e i a : jobs e !! i = Some a → with_jobs (<[i := a]> (jobs e)) e = e.
Proof.
  intros Hi. destruct e. unfold with_jobs. simpl in *. f_equal. unfold insert, vec_insert.
  by apply list_insert_id.
Qed.

Lemma wp_job_at jid job (Φ : Job.t → executor → Prop) e :
  jobs e !! jid = Some job → Φ job e → wp (job_at jid) Φ e.
Proof. apply wp_at. Qed.

Lemma wp_set_job jid a b (Φ : () → executor → Prop) e :
  jobs e !! jid = Some a → Φ tt (with_jobs (<[jid := b]> (jobs e)) e) → wp (set_job jid b) Φ e.
Proof. intros H. apply wp_set_at. by eapply vlookup_lt_Some. Qed.

Lemma wp_upd_job jid a f (Φ : () → executor → Prop) e :
  jobs e !! jid = Some a → Φ tt (with_jobs (<[jid := f a]> (jobs e)) e) → wp (upd_job jid f) Φ e.
Proof. intros H HΦ. unfold upd_job. wp_step. by eapply wp_job_at, wp_set_job. Qed.

(** A job in the invariant, and what follows for it. *)
Lemma Inv_job X Y cur rest F e i a :
  Inv X Y cur rest F e → jobs e !! i = Some a →
  fol_ok i a (stream e) F (cancels e) ∧
  blk_ok (indeg (jobs e) i + count i rest) (Job.state a) (i ∈ X) ∧
  (∀ j, Job.failedInput a = Some j →
     (∃ jj, jobs e !! j = Some jj ∧ failed (Job.state jj) = true) ∧
     match Job.state a with Blocked _ => True | s => failed s = true end).
Proof.
  intros HI Hi. destruct (i_fol _ _ _ _ _ _ HI) as [Hfol _]. destruct (i_fail _ _ _ _ _ _ HI) as [Hfail _].
  split_and!; [by apply Hfol|by apply (i_blk _ _ _ _ _ _ HI)|by eapply Hfail].
Qed.

Definition to_wantable (jid : N) (job : Job.t) (e : executor) : executor :=
  with_wantable (wantable e ++ [jid]) (moved jid Wantable job e).

Lemma to_wantable_inv X X' Y cur rest F e jid job :
  Inv X Y cur rest F e → jobs e !! jid = Some job →
  match Job.state job with Blocked w => w = 0%N | Wanted _ _ => True | _ => False end →
  Job.failedInput job = None →
  (stopping e = true → jid ∈ X') → (abandoned e = true → jid ∈ X' ++ Y) →
  (∀ j, j ≠ jid → j ∈ X → j ∈ X') → (∀ j : N, j ∈ X' → (j < vlen (jobs e))%N) →
  Inv X' Y cur rest F (to_wantable jid job e).
Proof.
  intros HI Hj Hs Hfi Hst Hab HX HX'. destruct (Inv_job _ _ _ _ _ _ _ _ HI Hj) as (Hfol & Hblk & _).
  set (b := Job.with_state Wantable job).
  apply (Inv_move X Y X' Y cur rest F e _ jid job b); try done.
  - by destruct (Job.state job).
  - unfold act. simpl. by destruct (Job.state job).
  - left. unfold act. simpl. lia.
  - simpl. unfold blk_ok in Hblk. destruct (Job.state job); try done. lia.
  - apply (Listed_push _ _ job b Hj); [by destruct (Job.state job)..|done|apply HI].
  - apply (Listed_same _ _ job b Hj); [by destruct (Job.state job)..|apply HI].
  - apply (Fol_replace _ _ job b Hj); [|apply HI].
    unfold fol_ok, b in *. simpl. destruct (Job.state job); naive_solver.
  - unfold b. simpl. by rewrite Hfi.
Qed.

(** Either the job is doomed and nothing changed, or it is Wantable. *)
Lemma unblock_spec X Y cur rest F e jid job :
  Inv X Y cur rest F e → jobs e !! jid = Some job → Job.state job = Blocked 0 →
  wp (unblock jid) (λ r e',
    match r with
    | Some d => e' = e ∧ unbuilt d = true ∧
        just (cfg e) (abandoned e) (stopping e) job d
    | None => stopping e = false ∧ abandoned e = false ∧ Job.failedInput job = None ∧
        e' = to_wantable jid job e
    end) e.
Proof.
  intros HI Hj Hs. unfold unblock. wp_step. eapply wp_job_at; [done|].
  destruct (Job.failedInput job) as [j|] eqn:Hfi.
  { apply wp_ret. unfold just. simpl. rewrite Hfi. eauto. }
  wp_steps. destruct (stopping e) eqn:Hst; [by apply wp_ret|].
  wp_steps. destruct (abandoned e) eqn:Hab; [by apply wp_ret|].
  wp_steps. eapply wp_to; [by eapply Inv_cnt|done|]. unfold push_wantable. wp_steps. done.
Qed.

(** ** Telling the dependants *)

(** The state of a dependant after the decrement. *)
Definition told (cur : N) (fail : bool) (w : N) (dnt : Job.t) : Job.t :=
  let a := if fail && negb (bool_decide (is_Some (Job.failedInput dnt)))
           then Job.with_failedInput (Some cur) dnt else dnt in
  Job.with_state (Blocked (w - 1)) a.

Lemma told_fields cur fail w dnt :
  Job.prio (told cur fail w dnt) = Job.prio dnt ∧
  Job.dependants (told cur fail w dnt) = Job.dependants dnt ∧
  Job.bounced (told cur fail w dnt) = Job.bounced dnt ∧
  Job.followed (told cur fail w dnt) = Job.followed dnt ∧
  Job.state (told cur fail w dnt) = Blocked (w - 1) ∧
  (is_Some (Job.failedInput dnt) → is_Some (Job.failedInput (told cur fail w dnt))) ∧
  (fail = true → is_Some (Job.failedInput (told cur fail w dnt))) ∧
  (∀ j, Job.failedInput (told cur fail w dnt) = Some j →
     Job.failedInput dnt = Some j ∨ (fail = true ∧ j = cur)).
Proof.
  unfold told. destruct fail; simpl; [case_bool_decide; simpl|]; naive_solver.
Qed.

Section Release.
Context (Y : list N) (F : gset N) (cur : N) (cj : Job.t).

Lemma told_inv X dep dnt w rest b e :
  b = told cur (failed (Job.state cj)) w dnt →
  Inv X Y cur (dep :: rest) F e → jobs e !! cur = Some cj → is_done (Job.state cj) = true →
  jobs e !! dep = Some dnt → Job.state dnt = Blocked w →
  (0 < w < 2 ^ 64)%N ∧
  Inv (dep :: X) Y cur rest F (with_jobs (<[dep := b]> (jobs e)) e) ∧
  (w ≠ 1%N → Inv X Y cur rest F (with_jobs (<[dep := b]> (jobs e)) e)).
Proof.
  intros Hb HI Hc Hcd Hd Hs.
  pose proof (told_fields cur (failed (Job.state cj)) w dnt) as Hf.
  rewrite <- Hb in Hf. destruct Hf as (Hprio & Hdeps & Hbn & Hfl & Hst & Hfi1 & Hfi2 & Hfi3).
  destruct (Inv_job _ _ _ _ _ _ _ _ HI Hd) as (Hfol & Hblk & Hfi).
  rewrite Hs in Hblk. simpl in Hblk. rewrite count_cons, decide_True in Hblk by done.
  destruct Hblk as (Hw & Hw64 & _).
  assert (∀ X', (∀ j : N, j ∈ X → j ∈ X') → (∀ j : N, j ∈ X' → (j < vlen (jobs e))%N) →
    ((w - 1)%N = 0%N → dep ∈ X') →
    Inv X' Y cur rest F (with_jobs (<[dep := b]> (jobs e)) e)) as Hgen.
  { intros X' HX HX' H0.
    apply (Inv_move_rest X Y X' Y cur (dep :: rest) rest F e _ dep dnt b); try done.
    - by rewrite Hs.
    - by rewrite Hst.
    - unfold act. rewrite Hs, Hst. simpl. lia.
    - left. unfold act. by rewrite Hs, Hst.
    - intros d Hne. by rewrite count_cons, decide_False.
    - rewrite Hst. simpl. split_and!; [lia..|done].
    - apply (Listed_same _ _ dnt b Hd); rewrite ?Hst, ?Hs; [done..|apply HI].
    - apply (Listed_same _ _ dnt b Hd); rewrite ?Hst, ?Hs; [done..|apply HI].
    - apply (Fol_replace _ _ dnt b Hd); [|apply HI].
      unfold fol_ok in *. rewrite Hfl, Hst. rewrite Hs in Hfol. naive_solver lia.
    - assert (cur ≠ dep) as Hne by (intros ->; simplify_eq; by rewrite Hs in Hcd).
      apply (Fail_told cur dep rest _ cj).
      + by apply (lookup_replace _ _ _ _ Hd); auto.
      + intros job [[_ ->]|[? _]]%(lookup_replace _ _ _ _ Hd) Hf; [by auto|done].
      + apply (Fail_replace _ _ dnt b Hd); rewrite ?Hst, ?Hs; try done; [|apply HI].
        intros j [Hj|[Hf ->]]%Hfi3; [by destruct (Hfi j Hj)|]. eauto.
    - by rewrite Hst.
    - by rewrite Hst.
    - auto. }
  pose proof (i_work _ _ _ _ _ _ HI) as Hwk. pose proof (vlookup_lt_Some _ _ _ Hd) as Hlt.
  split; [lia|]. split.
  - apply Hgen; [by right|..]; [|by left]. intros j [->|?]%elem_of_cons; auto.
  - intros Hw1. apply Hgen; [done..|lia].
Qed.

Lemma releaseDependant_decr dep dnt w work (Φ : Work → executor → Prop) e :
  jobs e !! dep = Some dnt → Job.state dnt = Blocked w → (0 < w < 2 ^ 64)%N →
  let b := told cur (failed (Job.state cj)) w dnt in
  let e1 := with_jobs (<[dep := b]> (jobs e)) e in
  (w ≠ 1%N → Φ work e1) →
  (w = 1%N → wp (unblock dep) (λ r,
     Φ (match r with Some d => (dep, d) :: work | None => work end)) e1) →
  wp (releaseDependant cur (failed (Job.state cj)) work dep) Φ e.
Proof.
  intros Hd Hs Hw b e1 H1 H2. unfold releaseDependant. wp_step. eapply wp_job_at; [done|].
  rewrite Hs. rewrite sub64_small by lia. wp_step.
  assert (∀ Ψ : () → executor → Prop,
    (∀ a, a = (if failed (Job.state cj) && negb (bool_decide (is_Some (Job.failedInput dnt)))
               then Job.with_failedInput (Some cur) dnt else dnt) →
      Ψ tt (with_jobs (<[dep := a]> (jobs e)) e)) →
    wp (if failed (Job.state cj) && negb (bool_decide (is_Some (Job.failedInput dnt)))
        then upd_job dep (Job.with_failedInput (Some cur)) else mret tt) Ψ e) as Hstep.
  { intros Ψ HΨ. destruct (_ && _); [eapply wp_upd_job; [done|]; by apply HΨ|].
    apply wp_ret. specialize (HΨ dnt eq_refl). by rewrite with_jobs_id in HΨ. }
  apply Hstep. intros a Ha. wp_step. eapply wp_upd_job.
  { simpl. apply vlookup_insert_eq. by eapply vlookup_lt_Some. }
  simpl. rewrite vinsert_insert.
  replace (with_jobs _ _) with e1 by (unfold e1, b, told; by subst a).
  destruct (N.eqb_spec (w - 1) 0) as [E|E].
  - wp_step. eapply wp_mono; [apply H2; lia|]. intros r e' Hr. by apply wp_ret.
  - apply wp_ret, H1. lia.
Qed.

(** What is kept while the dependants of [cur] are told. *)
Record Rel (rest : list N) (work : Work) (e0 : executor) (work' : Work) (e : executor) : Prop := mkRel {
  rel_inv : Inv (work'.*1) Y cur rest F e;
  rel_cur : jobs e !! cur = Some cj;
  rel_work : WorkOk e work';
  rel_ev : Evolves nobody e0 e;
  rel_stop : stopping e = stopping e0;
  rel_measure : length work' + wsum bpos (jobs e) ≤ length work + wsum bpos (jobs e0);
}.

(** Entries for [dep] are older than its last input. *)
Lemma item_ok_told dep dnt w b e item :
  jobs e !! dep = Some dnt → Job.state dnt = Blocked w → (0 < w)%N →
  b = told cur (failed (Job.state cj)) w dnt → item_ok e item →
  item_ok (with_jobs (<[dep := b]> (jobs e)) e) item ∧ (fst item = dep → stopping e = true).
Proof.
  intros Hd Hs Hw Hb Hit.
  pose proof (told_fields cur (failed (Job.state cj)) w dnt) as Hf.
  rewrite <- Hb in Hf. destruct Hf as (_ & _ & Hbn & _ & Hst & Hfi1 & _).
  assert (fst item = dep → stopping e = true) as Hstop.
  { intros Heq. destruct Hit as (_ & job & Hj & _ & Hm). rewrite Heq in Hj. simplify_eq.
    rewrite Hs in Hm. naive_solver lia. }
  split; [|done]. apply (item_ok_replace e _ dep dnt b); try done. rewrite Hst. auto.
Qed.

Lemma evolve_told dep dnt w b e e1 :
  jobs e !! dep = Some dnt → Job.state dnt = Blocked w →
  b = told cur (failed (Job.state cj)) w dnt → e1 = with_jobs (<[dep := b]> (jobs e)) e →
  Evolves nobody e e1.
Proof.
  intros Hd Hs Hb ->. pose proof (told_fields cur (failed (Job.state cj)) w dnt) as Hf.
  rewrite <- Hb in Hf. destruct Hf as (? & ? & ? & _ & Hst & _).
  eapply Evolves_one; [done..|]. right. unfold evolve. rewrite Hs, Hst. split_and!; [done..|].
  left. exists (w - 1)%N. split; [done|lia].
Qed.

Lemma released_wantable dep b rest work e0 work0 e :
  Inv (dep :: work.*1) Y cur rest F e → WorkOk e work → jobs e !! dep = Some b →
  Job.state b = Blocked 0 → Job.failedInput b = None → stopping e = false → abandoned e = false →
  Forall (λ it, fst it ≠ dep) work →
  Evolves nobody e0 e → stopping e = stopping e0 →
  length work + wsum bpos (jobs e) ≤ length work0 + wsum bpos (jobs e0) →
  jobs e !! cur = Some cj → cur ≠ dep →
  Rel rest work0 e0 work (to_wantable dep b e).
Proof.
  intros HI HW Hb Hs Hfi Hst Hab Hne Hev Hst0 Hm Hc Hcne. split; [| | | |done|].
  - apply (to_wantable_inv (dep :: work.*1)); try done; rewrite ?Hs; try done; try congruence.
    + intros j Hj [?|?]%elem_of_cons; done.
    + intros j Hj. apply (i_work _ _ _ _ _ _ HI). apply elem_of_cons. by right.
  - apply (lookup_replace _ _ _ _ Hb). by right.
  - unfold WorkOk in *. rewrite Forall_forall in HW, Hne |- *. intros it Hit.
    apply (item_ok_replace e _ dep b (Job.with_state Wantable b)); auto.
    intros Heq. by destruct (Hne it Hit).
  - eapply Evolves_nobody; [done|].
    apply (Evolves_one _ e _ dep b (Job.with_state Wantable b)); try done. right. unfold evolve.
    rewrite Hs. split_and!; [done..|]. by right; left.
  - simpl. pose proof (wsum_insert bpos (jobs e) dep b (Job.with_state Wantable b) Hb) as Hwb.
    unfold bpos in Hwb at 2 4. rewrite Hs in Hwb. simpl in Hwb. lia.
Qed.

Lemma releaseDependant_spec dep rest work e0 work0 e :
  Rel (dep :: rest) work0 e0 work e → is_done (Job.state cj) = true →
  dep ∈ Job.dependants cj →
  wp (releaseDependant cur (failed (Job.state cj)) work dep) (Rel rest work0 e0) e.
Proof.
  intros [HI Hc HW Hev Hstop Hm] Hcd Hdep.
  destruct (i_fail _ _ _ _ _ _ HI) as [_ Hf2]. destruct (Hf2 cur cj dep Hc Hdep) as (dnt & Hd & _).
  destruct (Inv_job _ _ _ _ _ _ _ _ HI Hd) as (_ & Hblk & _).
  rewrite count_cons, decide_True in Hblk by done.
  destruct (Job.state dnt) as [w| | | | |d] eqn:Hs; simpl in Hblk; try lia.
  - remember (told cur (failed (Job.state cj)) w dnt) as b eqn:Hb.
    assert (Job.state b = Blocked (w - 1)) as Hbs by (subst b; apply told_fields).
    destruct (told_inv (work.*1) dep dnt w rest b e) as (Hw & HI1 & HI2); try done.
    assert (HW1 : Forall (λ it, item_ok (with_jobs (<[dep := b]> (jobs e)) e) it ∧
      (fst it = dep → stopping e = true)) work).
    { eapply Forall_impl; [done|]. intros it Hit. eapply item_ok_told; try done. lia. }
    apply Forall_and in HW1 as [HW1 HW2].
    pose proof (evolve_told dep dnt w b e _ Hd Hs Hb eq_refl) as Hev1.
    pose proof (wsum_insert bpos (jobs e) dep dnt b Hd) as Hwb.
    assert (cur ≠ dep) as Hcne by (intros ->; simplify_eq; by rewrite Hs in Hcd).
    assert (jobs (with_jobs (<[dep := b]> (jobs e)) e) !! cur = Some cj) as Hc1
      by (apply (lookup_replace _ _ _ _ Hd); by right).
    assert (bpos dnt = 1) as Hb1 by (unfold bpos; rewrite Hs; destruct (N.eqb_spec w 0); lia).
    apply (releaseDependant_decr dep dnt w); try done; rewrite <- Hb.
    + intros Hw1. split; [by apply HI2|done|done|by eapply Evolves_nobody|done|].
      simpl. pose proof (bpos_le b). lia.
    + intros ->. assert (bpos b = 0) as Hb0 by (unfold bpos; by rewrite Hbs).
      assert (jobs (with_jobs (<[dep := b]> (jobs e)) e) !! dep = Some b) as Hb'
        by (apply vlookup_insert_eq; by eapply vlookup_lt_Some).
      eapply wp_mono; [by apply (unblock_spec _ _ _ _ _ _ _ b HI1)|].
      intros [d|] e'; [intros (-> & Hsu & Hj)|intros (Hst & Hab & Hfi & ->)].
      * split; [done|done| |by eapply Evolves_nobody|done|simpl; lia].
        constructor; [|done]. split; [done|]. exists b. split_and!; [done..|].
        simpl. rewrite Hbs. by left.
      * apply released_wantable; try done; [|by eapply Evolves_nobody|simpl; lia].
        eapply Forall_impl; [done|]. simpl. intros it Hit Heq. specialize (Hit Heq). simpl in Hst. congruence.
  - apply wp_mono with (Φ := λ w' e', w' = work ∧ e' = e).
    + unfold releaseDependant. wp_step. eapply wp_job_at; [done|]. rewrite Hs. by apply wp_ret.
    + intros w' e' [-> ->]. split; try done. eapply Inv_skip; try done. by rewrite Hs.
Qed.

Lemma releaseDependants_spec work e :
  Inv (work.*1) Y cur (Job.dependants cj) F e → WorkOk e work →
  jobs e !! cur = Some cj → is_done (Job.state cj) = true →
  wp (releaseDependants cur (failed (Job.state cj)) work) (Rel [] work e) e.
Proof.
  intros HI HW Hc Hcd. unfold releaseDependants. wp_step. eapply wp_job_at; [done|].
  eapply wp_mono; [apply (wp_foldM _ (λ rest w e',
    (∀ d, d ∈ rest → d ∈ Job.dependants cj) ∧ Rel rest work e w e'))|].
  - split; [done|]. split; try done; apply Evolves_refl.
  - intros dep rest w e' [Hin HR]. eapply wp_mono.
    + apply (releaseDependant_spec dep rest); [done..|]. apply Hin. by left.
    + intros w' e'' HR'. split; [|done]. intros d Hd. apply Hin. by right.
  - by intros w e' [_ ?].
Qed.
End Release.

(** ** Ending one job *)

Definition unfollowed (jid : N) (job : Job.t) (e : executor) : executor :=
  with_cancels (if Job.followed job then cancels e ++ [jid] else cancels e)
    (with_jobs (<[jid := Job.with_followed false job]> (jobs e)) e).

Lemma wp_unfollow jid job (Φ : () → executor → Prop) e :
  jobs e !! jid = Some job → Φ tt (unfollowed jid job e) → wp (unfollow jid) Φ e.
Proof.
  intros Hj HΦ. unfold unfollow. wp_step. eapply wp_job_at; [done|]. wp_step.
  eapply wp_set_job; [done|]. unfold unfollowed in HΦ.
  destruct (Job.followed job); wp_steps; by destruct e.
Qed.

Lemma unfollowed_inv X Y cur rest F e jid job :
  Inv X Y cur rest F e → jobs e !! jid = Some job → is_done (Job.state job) = false →
  Inv X Y cur rest F (unfollowed jid job e).
Proof.
  intros HI Hj Hd. destruct (Inv_job _ _ _ _ _ _ _ _ HI Hj) as (Hfol & Hblk & Hfi).
  apply (Inv_move X Y X Y cur rest F e _ jid job (Job.with_followed false job)); try done.
  - unfold act. simpl. pose proof (wsum_le act (jobs e) jid job Hj) as Hle.
    rewrite (i_active _ _ _ _ _ _ HI). unfold act in Hle at 1. simpl. lia.
  - by left.
  - apply (Listed_same _ _ job _ Hj); [by auto..|apply HI].
  - apply (Listed_same _ _ job _ Hj); [by auto..|apply HI].
  - apply (Fol_unfollow _ _ job _ Hj _ _ (cancels e)); [done..|apply HI].
  - simpl. intros j Hf. destruct (Hfi j Hf) as [? Hm]. split; [done|].
    by destruct (Job.state job).
  - intros Hu Hs. by apply (i_stop _ _ _ _ _ _ HI Hs jid job).
  - intros Hu Hs. by apply (i_gone _ _ _ _ _ _ HI Hs jid job).
  - apply HI.
Qed.

Definition ended (jid : N) (d : Done.t) (job : Job.t) (e : executor) : executor :=
  with_progressed (u64 (progressed e + 1))
    (with_remaining (remaining e - 1) (moved jid (Done d) job e)).

Lemma ended_counts js (i : N) a d :
  js !! i = Some a → is_done (Job.state a) = false →
  let js' := <[i := Job.with_state (Done d) a]> js in
  wsum undone js' + 1 = wsum undone js ∧
  wsum act js' + N.to_nat (bool_N (isActive (Job.state a))) = wsum act js.
Proof.
  intros Hi Ha js'. unfold js'.
  pose proof (wsum_insert undone js i a (Job.with_state (Done d) a) Hi) as Hu.
  pose proof (wsum_insert act js i a (Job.with_state (Done d) a) Hi) as Hc.
  assert (undone a = 1) as E1 by (unfold undone; by rewrite Ha).
  assert (undone (Job.with_state (Done d) a) = 0) as E2 by done.
  assert (act (Job.with_state (Done d) a) = 0) as E3 by done.
  assert (act a = N.to_nat (bool_N (isActive (Job.state a)))) as E4
    by (unfold act; by destruct (isActive (Job.state a))).
  lia.
Qed.

Lemma ended_inv X X' Y cur F e i a d :
  Inv X Y cur [] F e → jobs e !! i = Some a → is_done (Job.state a) = false →
  Job.followed a = false → just (cfg e) (abandoned e) (stopping e) a d →
  (Done.succeeded d = true → isActive (Job.state a) = true) →
  (∀ j, j ≠ i → j ∈ X → j ∈ X') → (∀ j : N, j ∈ X' → (j < vlen (jobs e))%N) →
  Inv X' Y i (Job.dependants a) F (ended i d a e).
Proof.
  intros HI Hi Ha Hfa Hjust Hsucc HX HX'.
  destruct (Inv_job _ _ _ _ _ _ _ _ HI Hi) as (Hfol & Hblk & Hfi).
  set (b := Job.with_state (Done d) a).
  pose proof (ended_counts (jobs e) i a d Hi Ha) as [Hwu Hwa]. fold b in Hwu, Hwa.
  destruct HI as [Hlen Hprio Hrw Hrem Hact Hthr HBlk Hwl Hrl HFol HFail HJust Hstop Hgone Hreason Hwk].
  assert (∀ flag l l', (∀ j, j ≠ i → j ∈ l → j ∈ l') → Quiet flag l (jobs e) →
    Quiet flag l' (<[i := b]> (jobs e))) as Hquiet.
  { intros flag l l' Hll. by apply (Quiet_replace _ _ a b Hi). }
  split; simpl; rewrite ?vlen_insert; try done.
  - intros j job [[-> ->]|[_ Hj]]%(lookup_replace _ _ a b Hi);
      [exact (Hprio i a Hi)|exact (Hprio j job Hj)].
  - fold b. lia.
  - fold b. lia.
  - lia.
  - by apply (Blk_done _ _ a b Hi X).
  - apply (Listed_same _ _ a b Hi); [done|by right|done|done].
  - apply (Listed_same _ _ a b Hi); [done|by right|done|done].
  - apply (Fol_replace _ _ a b Hi); [|done]. unfold fol_ok in *. simpl. rewrite Hfa in *. naive_solver.
  - apply (Fail_done _ _ a b Hi cur); try done. unfold b. simpl.
    destruct (Done.succeeded d) eqn:Hs; [right|by left]. specialize (Hsucc eq_refl). split.
    + destruct (Job.failedInput a) as [j|] eqn:Hf; [|done].
      destruct (Hfi j eq_refl) as [_ Hm]. by destruct (Job.state a).
    + intros j jj Hj Hu. apply (indeg_zero (jobs e) i j); try done.
      destruct (Job.state a); simpl in *; try done; lia.
  - apply (Just_replace _ _ a b Hi); [|done]. unfold b. simpl. intros d' [= <-]. done.
  - by eapply Hquiet.
  - eapply Hquiet; [|done]. intros j Hj. rewrite !elem_of_app. naive_solver.
  - intros [? (j & job & Hj & Hf)]%Hreason. split; [done|]. exists j, job. split; [|done].
    apply (lookup_replace _ _ a b Hi). right. split; [|done]. intros ->. simplify_eq.
    apply failed_done in Hf. congruence.
Qed.

(** ** Cancelling the run *)

Lemma stopping_inv X X' Y F e :
  Inv X Y 0 [] F e → Cfg.keepGoing (cfg e) = false →
  (∃ (j : N) job, jobs e !! j = Some job ∧ failed (Job.state job) = true) →
  (∀ j, j ∈ X → j ∈ X') → (∀ j : N, j ∈ X' → (j < vlen (jobs e))%N) →
  (∀ (j : N) job, jobs e !! j = Some job → unplaced (Job.state job) = true → j ∈ X') →
  Inv X' Y 0 [] F (with_stopping true e).
Proof.
  intros HI Hk Hf HX HX' Hall.
  destruct HI as [Hlen Hprio Hrw Hrem Hact Hthr HBlk Hwl Hrl HFol HFail HJust Hstop Hgone Hreason Hwk].
  split; try done.
  - intros d job Hd. specialize (HBlk d job Hd). unfold blk_ok in *.
    destruct (Job.state job); naive_solver.
  - intros j job d Hj Hd. specialize (HJust j job d Hj Hd). unfold just in *.
    destruct (Done.outcome d); naive_solver.
  - intros _ j job Hj. by apply Hall.
  - intros Hab j job Hj Hu. specialize (Hgone Hab j job Hj Hu).
    rewrite elem_of_app in *. naive_solver.
Qed.

(** What the loop of [stopAll] keeps, with the jobs [rest] to visit. *)
Record Stop (e : executor) (work : Work) (rest : list N) (w : Work) : Prop := mkStop {
  stop_work : WorkOk (with_stopping true e) w;
  stop_sub : ∀ j, j ∈ work.*1 → j ∈ w.*1;
  stop_all : ∀ (j : N) job, jobs e !! j = Some job → unplaced (Job.state job) = true →
    j ∈ w.*1 ∨ j ∈ rest;
  stop_lt : ∀ j : N, j ∈ rest → (j < vlen (jobs e))%N;
  stop_len : length w + length rest ≤ length work + length (jobs e);
}.

Lemma Stop_skip e work other rest w job :
  jobs e !! other = Some job → unplaced (Job.state job) = false →
  Stop e work (other :: rest) w → Stop e work rest w.
Proof.
  intros Hj Hu []. split; try done.
  - intros j job' Hj' Hu'. destruct (stop_all0 j job' Hj' Hu') as [?|[->|?]%elem_of_cons]; auto.
    simplify_eq. congruence.
  - intros j Hr. apply stop_lt0. by right.
  - simpl in *. lia.
Qed.

Lemma Stop_push e work other rest w job :
  jobs e !! other = Some job →
  is_running (Job.state job) = false → is_done (Job.state job) = false →
  Stop e work (other :: rest) w → Stop e work rest ((other, cancelledDone) :: w).
Proof.
  intros Hj Hr Hd []. split; try done.
  - constructor; [|done]. split; [done|]. exists job. split_and!; [done..|]. simpl.
    destruct (Job.state job); naive_solver.
  - intros j Hw. right. auto.
  - intros j job' Hj' Hu'. rewrite fmap_cons, elem_of_cons. simpl.
    destruct (stop_all0 j job' Hj' Hu') as [?|[->|?]%elem_of_cons]; auto.
  - intros j Hr'. apply stop_lt0. by right.
  - simpl in *. lia.
Qed.

Lemma stopAll_loop e work :
  WorkOk e work →
  wp (stopAll work) (λ w e', e' = with_stopping true e ∧ Stop e work [] w) e.
Proof.
  intros HW. unfold stopAll. wp_steps.
  apply (wp_foldM _ (λ rest w e', e' = with_stopping true e ∧ Stop e work rest w)).
  - split; [done|]. split; try done.
    + eapply Forall_impl; [exact HW|]. intros it (Hs & job & Hj & Hjust & Hm). split; [done|].
      exists job. split_and!; [done| |]; simpl.
      * unfold just in *. destruct (Done.outcome (snd it)); naive_solver.
      * destruct (Job.state job); naive_solver.
    + intros j job Hj _. right. apply elem_of_range. simpl.
      pose proof (vlookup_lt_Some _ _ _ Hj). lia.
    + intros j Hj%elem_of_range. simpl in Hj. lia.
    + unfold range. simpl. rewrite length_fmap, length_seq. unfold vlen. lia.
  - intros other rest w e' [-> HS].
    destruct (proj2 (vlookup_lt (jobs e) other)) as [job Hj]; [apply HS; by left|].
    wp_step. eapply wp_job_at; [done|]. apply wp_ret. split; [done|].
    destruct (Job.state job) eqn:Hs;
      first [eapply Stop_push|eapply Stop_skip]; try done; by rewrite Hs.
Qed.

Lemma stopAll_spec Y F e work :
  Inv (work.*1) Y 0 [] F e → WorkOk e work → Cfg.keepGoing (cfg e) = false →
  (∃ (j : N) job, jobs e !! j = Some job ∧ failed (Job.state job) = true) →
  wp (stopAll work) (λ work' e', e' = with_stopping true e ∧ Inv (work'.*1) Y 0 [] F e' ∧
    WorkOk e' work' ∧ length work' ≤ length work + length (jobs e)) e.
Proof.
  intros HI HW Hk Hf. eapply wp_mono; [by apply stopAll_loop|].
  intros w e' (-> & [HW' Hsub Hall _ Hlen]). split_and!; [done| |done|simpl in Hlen; lia].
  apply (stopping_inv (work.*1)); try done.
  - intros j (it & -> & Hit)%list_elem_of_fmap. unfold WorkOk in HW'. rewrite Forall_forall in HW'.
    destruct (HW' it Hit) as (_ & job & Hj & _). by eapply vlookup_lt_Some.
  - intros j job Hj Hu. destruct (Hall j job Hj Hu) as [?|H0]; [done|by apply elem_of_nil in H0].
Qed.

(** ** One iteration *)

(** States that need no entry in the work list. *)
Definition settled (s : JobState) : bool :=
  match s with Done _ => true | Blocked w => negb (w =? 0)%N | _ => false end.

Lemma Inv_settled X X' Y cur cur' F e :
  Inv X Y cur [] F e → (∀ j : N, j ∈ X' → (j < vlen (jobs e))%N) →
  (∀ (j : N) job, jobs e !! j = Some job → j ∈ X → j ∈ X' ∨ settled (Job.state job) = true) →
  Inv X' Y cur' [] F e.
Proof.
  intros HI HX' HX.
  destruct HI as [Hlen Hprio Hrw Hrem Hact Hthr HBlk Hwl Hrl HFol HFail HJust Hstop Hgone Hreason Hwk].
  split; try done.
  - intros d job Hd. specialize (HBlk d job Hd). specialize (HX d job Hd).
    unfold blk_ok in *. destruct (Job.state job) as [w| | | | |]; try done.
    destruct HBlk as (? & ? & H0). split_and!; [done..|]. intros ->. destruct (HX (H0 eq_refl)); done.
  - by apply (Fail_cur cur).
  - intros Hf j job Hj Hu. specialize (Hstop Hf j job Hj Hu).
    destruct (HX j job Hj Hstop); [done|]. by destruct (Job.state job).
  - intros Hf j job Hj Hu. specialize (Hgone Hf j job Hj Hu).
    rewrite elem_of_app in *. destruct Hgone as [Hg|?]; [|by right].
    destruct (HX j job Hj Hg); [by left|]. by destruct (Job.state job).
Qed.

Lemma Inv_relax X X' Y cur cur' F e :
  Inv X Y cur [] F e → (∀ j : N, j ∈ X' → (j < vlen (jobs e))%N) →
  (∀ (j : N) job, jobs e !! j = Some job → j ∈ X → j ∈ X' ∨ is_done (Job.state job) = true) →
  Inv X' Y cur' [] F e.
Proof.
  intros HI HX' HX. apply (Inv_settled X X' Y cur); [done..|]. intros j job Hj Hin.
  destruct (HX j job Hj Hin) as [?|Hd]; [by left|right]. by destruct (Job.state job).
Qed.

(** The job [jid] ended with [result] and keeps the rest of its record. *)
Definition ended_as (jid : N) (s : JobState) (job : Job.t) (e : executor) : Prop :=
  ∃ job', jobs e !! jid = Some job' ∧ Job.state job' = s ∧ Job.prio job' = Job.prio job ∧
    Job.dependants job' = Job.dependants job ∧ Job.bounced job' = Job.bounced job.

Record Step (Y : list N) (F : gset N) (jid : N) (s : JobState) (job : Job.t) (e : executor) (work : Work)
    (work' : Work) (e' : executor) : Prop := mkStep {
  step_inv : Inv (work'.*1) Y 0 [] F e';
  step_work : WorkOk e' work';
  step_ev : Evolves (eq jid) e e';
  step_job : ended_as jid s job e';
  step_measure : measure e' work' ≤ measure e work;
}.

Lemma wp_ended {A} jid d job (k : M executor A) (Φ : A → executor → Prop) X Y cur rest F e :
  Inv X Y cur rest F e → jobs e !! jid = Some job → is_done (Job.state job) = false →
  wp k Φ (ended jid d job e) →
  wp (to jid (Done d);; modify (λ e, with_remaining (sub64 (remaining e) 1) e);;
      modify (λ e, with_progressed (u64 (progressed e + 1)) e);; k) Φ e.
Proof.
  intros HI Hj Hd HΦ. wp_step. eapply wp_to; [by eapply Inv_cnt|done|]. wp_steps.
  replace (sub64 (remaining (moved jid (Done d) job e)) 1) with (remaining e - 1)%N; [done|].
  simpl. symmetry. apply sub64_small. rewrite (i_remaining _ _ _ _ _ _ HI).
  pose proof (wsum_le undone (jobs e) jid job Hj) as Hle. unfold undone in Hle at 1. rewrite Hd in Hle.
  pose proof (wsum_bound undone (jobs e) 1) as Hb. pose proof (i_len _ _ _ _ _ _ HI) as Hlen.
  assert (wsum undone (jobs e) ≤ 1 * length (jobs e)).
  { apply Hb. intros a. unfold undone. destruct (is_done (Job.state a)); lia. }
  unfold vlen in Hlen. lia.
Qed.

(** The entries that wait stay valid while one job ends. *)
Lemma ended_work jid d job e work :
  jobs e !! jid = Some job → WorkOk e work → WorkOk (ended jid d (Job.with_followed false job) (unfollowed jid job e)) work.
Proof.
  intros Hj HW. eapply Forall_impl; [exact HW|]. intros it Hit.
  apply (item_ok_replace e _ jid job (Job.with_state (Done d) (Job.with_followed false job)) it); try done.
  simpl. by rewrite vinsert_insert.
Qed.

Lemma ended_evolves jid d job e :
  jobs e !! jid = Some job →
  Evolves (eq jid) e (ended jid d (Job.with_followed false job) (unfollowed jid job e)).
Proof.
  intros Hj. apply (Evolves_one _ e _ jid job (Job.with_state (Done d) (Job.with_followed false job)));
    try done; [simpl; by rewrite vinsert_insert|by left].
Qed.

Lemma ended_measure jid d job e :
  jobs e !! jid = Some job →
  wsum bpos (jobs (ended jid d (Job.with_followed false job) (unfollowed jid job e))) ≤ wsum bpos (jobs e).
Proof.
  intros Hj. simpl. rewrite vinsert_insert.
  pose proof (wsum_insert bpos (jobs e) jid job (Job.with_state (Done d) (Job.with_followed false job)) Hj) as H.
  assert (bpos (Job.with_state (Done d) (Job.with_followed false job)) = 0) as E by done. lia.
Qed.

(** After the dependants are told: go on, or cancel the run. *)
Lemma settle_step_end Y F jid result job cj work e e3 work' e' :
  Rel Y F jid cj [] work e3 work' e' →
  cj = Job.with_state (Done result) (Job.with_followed false job) →
  Evolves (eq jid) e e3 → stopping e3 = stopping e → cfg e3 = cfg e → vlen (jobs e3) = vlen (jobs e) →
  wsum bpos (jobs e3) ≤ wsum bpos (jobs e) →
  wp (e ← get;
      if negb (Done.succeeded result) && negb (Cfg.keepGoing (cfg e)) && negb (stopping e)
      then stopAll work' else mret work')
     (Step Y F jid (Done result) job e work) e'.
Proof.
  intros [HI Hc HW Hev Hst Hm] -> Hev0 Hst0 Hcfg Hlen Hm0. wp_steps.
  assert (Inv (work'.*1) Y 0 [] F e') as HI0.
  { apply (Inv_relax (work'.*1) _ _ jid); [done|apply HI|by left]. }
  assert (Evolves (eq jid) e e') as Hev' by by eapply Evolves_nobody.
  assert (length (jobs e') = length (jobs e)) as Hlen'.
  { pose proof (ev_len _ _ _ Hev'). unfold vlen in *. lia. }
  assert (∀ e'', jobs e'' = jobs e' → ended_as jid (Done result) job e'') as Hend.
  { intros e'' Hjs. eexists. rewrite Hjs. split; [done|]. done. }
  assert (measure e' work' ≤ measure e work) as Hmeas.
  { unfold measure, can_stop. rewrite Hlen', (ev_cfg _ _ _ Hev'), Hst, Hst0. lia. }
  destruct (negb _ && negb _ && negb _) eqn:Hcond; [|by apply wp_ret; split; auto].
  apply andb_prop in Hcond as [[Hs Hk]%andb_prop Hns].
  eapply wp_mono; [apply (stopAll_spec Y F); try done|].
  - by apply negb_true_iff.
  - by eexists jid, _.
  - intros w'' e'' (-> & HI'' & HW'' & Hl). split; try done; [|by apply Hend|].
    + eapply Evolves_nobody; [done|]. split; try done.
      intros j job' Hj' _. exists job'. split; [done|apply evolve_refl].
    + unfold measure, can_stop in *. apply negb_true_iff in Hk, Hns. simpl.
      rewrite Hk, Hns in Hmeas. rewrite Hk. simpl in *. lia.
Qed.

Lemma settle_step_spec Y F jid result job work e cur :
  Inv (jid :: work.*1) Y cur [] F e → WorkOk e work → jobs e !! jid = Some job →
  (is_done (Job.state job) = false →
     just (cfg e) (abandoned e) (stopping e) job result ∧
     (Done.succeeded result = true → isActive (Job.state job) = true)) →
  wp (settle_step jid result work)
     (Step Y F jid (if is_done (Job.state job) then Job.state job else Done result) job e work) e.
Proof.
  intros HI HW Hj Hok. unfold settle_step. wp_step. eapply wp_job_at; [done|].
  assert (∀ j : N, j ∈ work.*1 → (j < vlen (jobs e))%N) as Hlt.
  { intros j Hw. apply (i_work _ _ _ _ _ _ HI). by right. }
  destruct (is_done (Job.state job)) eqn:Hd.
  { apply wp_ret. split; [|done|apply Evolves_refl|by exists job|lia].
    apply (Inv_relax (jid :: work.*1) _ _ cur); [done..|].
    intros j job' Hj' [->|?]%elem_of_cons; [right|by left]. by simplify_eq. }
  destruct (Hok eq_refl) as [Hjust Hsucc]. wp_step. eapply wp_unfollow; [done|].
  pose proof (unfollowed_inv _ _ _ _ _ _ _ _ HI Hj Hd) as HI1.
  assert (jobs (unfollowed jid job e) !! jid = Some (Job.with_followed false job)) as Hj1
    by (apply vlookup_insert_eq; by eapply vlookup_lt_Some).
  eapply wp_ended; [done..|].
  set (e3 := ended jid result (Job.with_followed false job) (unfollowed jid job e)).
  assert (Inv (work.*1) Y jid (Job.dependants job) F e3) as HI3.
  { apply (ended_inv (jid :: work.*1) (work.*1) Y cur F _ jid (Job.with_followed false job)); try done.
    - intros j Hne [?|?]%elem_of_cons; done.
    - simpl. by rewrite vlen_insert. }
  pose (cj := Job.with_state (Done result) (Job.with_followed false job)).
  assert (jobs e3 !! jid = Some cj) as Hj3.
  { apply vlookup_insert_eq. by eapply vlookup_lt_Some. }
  wp_step. eapply wp_mono;
    [by apply (releaseDependants_spec Y F jid cj work e3); [|apply ended_work|..]|].
  intros work' e' [HI' Hc' HW' Hev' Hst' Hm']. cbn beta.
  apply (settle_step_end Y F jid result job cj work e e3); try done.
  - by apply ended_evolves.
  - simpl. by rewrite !vlen_insert.
  - by apply ended_measure.
Qed.

(** ** The loop *)

Lemma item_evolve e e' jid result job :
  item_ok e (jid, result) → jobs e !! jid = Some job → (stopping e = true → stopping e' = true) →
  ended_as jid (if is_done (Job.state job) then Job.state job else Done result) job e' →
  ∃ job', jobs e' !! jid = Some job' ∧ evolve (stopping e') job job'.
Proof.
  intros (Hs & job0 & Hj0 & _ & Hm) Hj Hst (job' & Hj' & Hstate & Hp & Hd & Hb).
  simpl in *. rewrite Hj in Hj0. injection Hj0 as <-.
  exists job'. split; [done|]. unfold evolve. rewrite Hstate.
  split_and!; [done..|]. destruct (Job.state job); simpl in *; try done.
  - right. right. by rewrite Hs.
  - right. destruct Hm as [? ->]. auto.
  - right. destruct Hm as [? ->]. auto.
  - right. destruct Hm as [? ->]. auto.
Qed.

Lemma settle_loop_spec Y F fuel work e :
  Inv (work.*1) Y 0 [] F e → WorkOk e work → measure e work ≤ fuel →
  wp (settle_loop fuel work) (λ _ e', Inv [] Y 0 [] F e' ∧ Evolves nobody e e') e.
Proof.
  revert work e. induction fuel as [|fuel IH]; intros [|[jid result] work] e HI HW Hm.
  - apply wp_ret. split; [done|apply Evolves_refl].
  - unfold measure in Hm. simpl in Hm. lia.
  - apply wp_ret. split; [done|apply Evolves_refl].
  - apply Forall_cons in HW as [Hit HW]. simpl. wp_step.
    assert (∃ job, jobs e !! jid = Some job) as [job Hj] by (destruct Hit as (_ & job & ? & _); eauto).
    eapply wp_mono; [apply (settle_step_spec Y F jid result job work e 0); try done|].
    { intros Hd. destruct Hit as (Hs & job0 & Hj0 & Hjust & _).
      simpl in *. rewrite Hj in Hj0. injection Hj0 as <-. split; [done|].
      apply unbuilt_failed in Hs. by rewrite Hs. }
    intros work' e' [HI' HW' Hev' Hjob' Hm']. eapply wp_mono; [apply IH; try done|].
    { unfold measure in *. simpl in Hm. lia. }
    intros _ e'' [HI'' Hev'']. split; [done|]. eapply Evolves_nobody; [|done].
    destruct Hev'. split; try done. intros j job' Hj' _. destruct (decide (jid = j)) as [<-|Hne].
    + simplify_eq. by eapply item_evolve.
    + by apply ev_jobs0.
Qed.

(** [Executor::settle]: the job ends as told, unless it had ended, and what follows
    from it happens to the others. *)
Lemma settle_spec Y F jid d job e cur :
  Inv [jid] Y cur [] F e → jobs e !! jid = Some job →
  (is_done (Job.state job) = false →
     just (cfg e) (abandoned e) (stopping e) job d ∧
     (Done.succeeded d = true → isActive (Job.state job) = true)) →
  wp (settle jid d) (λ _ e', Inv [] Y 0 [] F e' ∧ Evolves (eq jid) e e' ∧
    ended_as jid (if is_done (Job.state job) then Job.state job else Done d) job e') e.
Proof.
  intros HI Hj Hok. unfold settle. wp_steps. unfold settle_fuel.
  replace (2 * length (jobs e) + 1) with (S (2 * length (jobs e))) by lia. simpl settle_loop. wp_step.
  eapply wp_mono; [apply (settle_step_spec Y F jid d job [] e cur); [done|constructor|done|done]|].
  intros work e' [HI' HW' Hev' Hjob' Hm']. eapply wp_mono; [apply settle_loop_spec; try done|].
  - etrans; [done|]. unfold measure, can_stop. pose proof (wsum_bound bpos (jobs e) 1 bpos_le).
    destruct (_ || _); simpl; lia.
  - intros _ e'' [HI'' Hev'']. split_and!; [done|by eapply Evolves_nobody|].
    destruct Hjob' as (job' & Hj' & Hs' & Hp' & Hd' & Hb').
    destruct (ev_jobs _ _ _ Hev'' jid job' Hj') as (job'' & Hj'' & Hp & Hd & Hb & Hs); [by intros []|].
    exists job''. split_and!; try congruence.
    rewrite Hs' in Hs. destruct (Job.state job) eqn:E; simpl in *; congruence.
Qed.

(** [Executor::release] of a job that waits for nothing. *)
Lemma release_spec Y F jid job e cur :
  Inv [jid] Y cur [] F e → jobs e !! jid = Some job → Job.state job = Blocked 0 →
  wp (release jid) (λ _ e', Inv [] Y 0 [] F e' ∧ Evolves nobody e e') e.
Proof.
  intros HI Hj Hs. unfold release. wp_step.
  eapply wp_mono; [by apply (unblock_spec _ _ _ _ _ _ _ job HI)|].
  intros [d|] e'; [intros (-> & Hsu & Hjust)|intros (Hst & Hab & Hfi & ->)].
  - eapply wp_mono; [apply (settle_spec Y F jid d job e cur); try done|].
    { intros _. split; [done|]. by rewrite (unbuilt_failed _ Hsu). }
    intros _ e' (HI' & Hev & Hend). split; [done|]. destruct Hev. split; try done.
    intros j job' Hj' _. destruct (decide (jid = j)) as [<-|Hne]; [|by apply ev_jobs0].
    simplify_eq. destruct Hend as (job1 & Hj1 & Hs1 & ? & ? & ?). exists job1. split; [done|].
    unfold evolve. rewrite Hs in *. simpl in Hs1. rewrite Hs1. split_and!; [done..|].
    right. right. simpl. by rewrite Hsu.
  - apply wp_ret. split.
    + apply (Inv_relax [] [] _ cur); [|by intros j ?%elem_of_nil|by left].
      apply (to_wantable_inv [jid] []); rewrite ?Hs, ?Hst, ?Hab; try done.
      * by intros j Hne ->%list_elem_of_singleton.
      * by intros j ?%elem_of_nil.
    + apply (Evolves_one _ e _ jid job (Job.with_state Wantable job)); try done.
      right. unfold evolve. rewrite Hs. split_and!; [done..|]. by right; left.
Qed.
