(* ===== verification/ExecOps.v ===== *)
(** * The executor's operations

    Every operation of Exec.v returns, keeps the invariant of ExecInv.v and does
    to its job what the source says. *)

From stdpp Require Import sorting.
From S2P Require Import Prelude Double Exec ExecInv ExecSettle.

(** ** Moves between states *)

(** A job that is Wanted, Assigned or Running moves to another of these. *)
Lemma active_inv X Y cur rest F e e' i a s :
  Inv X Y cur rest F e → jobs e !! i = Some a → isActive (Job.state a) = true → isActive s = true →
  (unplaced s = true → unplaced (Job.state a) = true) →
  jobs e' = <[i := Job.with_state s a]> (jobs e) → frame e e' →
  active e' = active e → wantable e' = wantable e → cancels e' = cancels e →
  Listed is_assigned (ready e') (jobs e') →
  Inv X Y cur rest F e'.
Proof.
  intros HI Hi Ha Hs Hu Hjs Hfr Hact Hwl Hcn Hrl.
  destruct (Inv_job _ _ _ _ _ _ _ _ HI Hi) as (Hfol & Hblk & Hfi).
  pose proof (wsum_le act (jobs e) i a Hi) as Hle.
  assert (act a = 1) as E1 by (unfold act; by rewrite Ha).
  assert (act (Job.with_state s a) = 1) as E2 by (unfold act; simpl; by rewrite Hs).
  rewrite E1 in Hle. pose proof (i_active _ _ _ _ _ _ HI) as Hcnt.
  apply (Inv_move X Y X Y cur rest F e e' i a (Job.with_state s a)); try done.
  - by destruct (Job.state a).
  - simpl. by destruct s.
  - lia.
  - lia.
  - simpl. destruct s, (Job.state a); done.
  - rewrite Hwl, Hjs. apply (Listed_same _ _ a _ Hi); simpl; [..|apply HI];
      by destruct s, (Job.state a).
  - rewrite Hcn, Hjs. apply (Fol_replace _ _ a _ Hi); [|apply HI].
    unfold fol_ok in *. simpl. destruct s, (Job.state a); naive_solver.
  - simpl. intros j Hj. destruct (Hfi j Hj) as [_ Hm]. by destruct (Job.state a).
  - intros Hu' Hst. apply (i_stop _ _ _ _ _ _ HI Hst i a Hi). auto.
  - intros Hu' Hst. apply (i_gone _ _ _ _ _ _ HI Hst i a Hi). auto.
  - apply HI.
Qed.

Lemma moved_active e i a s :
  cnt_ok e → jobs e !! i = Some a → isActive (Job.state a) = true → isActive s = true →
  active (moved i s a e) = active e.
Proof.
  intros [_ Hact] Hi Ha Hs. simpl. rewrite Ha, Hs. simpl.
  pose proof (wsum_le act (jobs e) i a Hi) as Hle.
  assert (act a = 1) as E1 by (unfold act; by rewrite Ha). lia.
Qed.

(** The same state with other details. *)
Definition same_kind (s s' : JobState) : Prop :=
  match s, s' with
  | Wanted _ _, Wanted _ _ | Assigned _, Assigned _ | Running _ _, Running _ _ => True
  | _, _ => False
  end.

Lemma same_kind_inv X Y cur rest F e i a s :
  Inv X Y cur rest F e → jobs e !! i = Some a → same_kind (Job.state a) s →
  Inv X Y cur rest F (with_jobs (<[i := Job.with_state s a]> (jobs e)) e).
Proof.
  intros HI Hi Hk. apply (active_inv X Y cur rest F e _ i a s); try done;
    try (by destruct (Job.state a), s).
  apply (Listed_same _ _ a _ Hi); simpl; [..|apply HI];
    destruct s, (Job.state a); naive_solver.
Qed.

(** To Assigned, and into the queue of the build threads. *)
Lemma to_assigned_inv X Y cur rest F e i a p :
  Inv X Y cur rest F e → jobs e !! i = Some a →
  match Job.state a with Wanted _ _ | Running _ _ => True | _ => False end →
  Inv X Y cur rest F (with_ready (ready e ++ [i]) (moved i (Assigned p) a e)).
Proof.
  intros HI Hi Hk. apply (active_inv X Y cur rest F e _ i a (Assigned p)); try done;
    try (by destruct (Job.state a)).
  - apply moved_active; [by eapply Inv_cnt|done| |done]. by destruct (Job.state a).
  - apply (Listed_push _ _ a _ Hi); [by destruct (Job.state a)..|done|apply HI].
Qed.

(** From Assigned, taken from the front of the queue. *)
Lemma to_running_inv X Y cur rest F e i a p q :
  Inv X Y cur rest F e → jobs e !! i = Some a → Job.state a = Assigned p → ready e = i :: q →
  Inv X Y cur rest F (with_ready q (moved i (Running p None) a e)).
Proof.
  intros HI Hi Hs Hq. apply (active_inv X Y cur rest F e _ i a (Running p None)); rewrite ?Hs; try done.
  - apply moved_active; [by eapply Inv_cnt|done| |done]. by rewrite Hs.
  - pose proof (i_ready _ _ _ _ _ _ HI) as HL. rewrite Hq in HL. pose proof HL as (Hnd & _).
    apply NoDup_cons in Hnd as [Hni Hnd].
    apply (Listed_replace _ _ a _ Hi _ (i :: q)); simpl; try done.
    intros j Hne. rewrite elem_of_cons. naive_solver.
Qed.

(** Running to Blocked with nothing to wait for: about to be released. *)
Lemma to_blocked_inv Y F e i a fi e' :
  Inv [] Y 0 [] F e → jobs e !! i = Some a → is_running (Job.state a) = true →
  (∀ j, fi = Some j → ∃ jj, jobs e !! j = Some jj ∧ failed (Job.state jj) = true) →
  jobs e' = <[i := Job.with_state (Blocked 0) (Job.with_failedInput fi a)]> (jobs e) → frame e e' →
  active e' = (active e - 1)%N → wantable e' = wantable e → cancels e' = cancels e → ready e' = ready e →
  Inv [i] Y 0 [] F e'.
Proof.
  intros HI Hi Ha Hfi' Hjs Hfr Hact Hwl Hcn Hrl.
  destruct (Inv_job _ _ _ _ _ _ _ _ HI Hi) as (Hfol & Hblk & Hfi).
  destruct (Job.state a) eqn:Hs; try done.
  apply (Inv_move [] Y [i] Y 0 [] F e e' i a (Job.with_state (Blocked 0) (Job.with_failedInput fi a)));
    rewrite ?Hs; try done.
  - unfold act. rewrite Hs. simpl. lia.
  - left. unfold act. rewrite Hs. simpl. lia.
  - simpl in *. split_and!; [lia|done|]. intros _. by left.
  - rewrite Hwl, Hjs. apply (Listed_same _ _ a _ Hi); simpl; rewrite ?Hs; [done..|apply HI].
  - rewrite Hrl, Hjs. apply (Listed_same _ _ a _ Hi); simpl; rewrite ?Hs; [done..|apply HI].
  - rewrite Hcn, Hjs. apply (Fol_replace _ _ a _ Hi); [|apply HI].
    unfold fol_ok in *. simpl. rewrite Hs in Hfol. naive_solver.
  - intros [j Hj]. destruct (Hfi j Hj) as [_ Hm]. done.
  - simpl. auto.
  - by intros j Hne ?%elem_of_nil.
  - intros j ->%list_elem_of_singleton. by eapply vlookup_lt_Some.
Qed.

(** ** What no operation but [finished] does

    A result is final, and only [finished] ends a job as built. *)

Definition calm_state (s s' : JobState) : Prop :=
  match s with Done d => s' = Done d | _ => ∀ d, s' = Done d → Done.outcome d ≠ built end.

Definition state_is (e : executor) (jid : N) (s : JobState) : Prop :=
  ∃ job, jobs e !! jid = Some job ∧ Job.state job = s.

Definition calm (e e' : executor) : Prop :=
  ∀ (j : N) s, state_is e j s → ∃ s', state_is e' j s' ∧ calm_state s s'.

Lemma calm_state_refl s : calm_state s s.
Proof. by destruct s. Qed.

Lemma calm_refl e : calm e e.
Proof. intros j s Hs. exists s. split; [done|apply calm_state_refl]. Qed.

Lemma calm_trans e1 e2 e3 : calm e1 e2 → calm e2 e3 → calm e1 e3.
Proof.
  intros H1 H2 j s Hs. destruct (H1 j s Hs) as (s2 & Hs2 & Hc2). destruct (H2 j s2 Hs2) as (s3 & Hs3 & Hc3).
  exists s3. split; [done|]. unfold calm_state in *. destruct s, s2; naive_solver.
Qed.

Lemma evolve_calm stop j j' : evolve stop j j' → calm_state (Job.state j) (Job.state j').
Proof.
  intros (_ & _ & _ & H). unfold calm_state. destruct (Job.state j); [..|done]; intros d Hd; rewrite Hd in H.
  - destruct H as [(w' & ? & _)|[?|[_ Hb]%andb_prop]]; try done.
    apply negb_true_iff in Hb. by apply bool_decide_eq_false in Hb.
  - destruct H as [?|[_ [= ->]]]; done.
  - destruct H as [?|[_ [= ->]]]; done.
  - destruct H as [?|[_ [= ->]]]; done.
  - done.
Qed.

Lemma Evolves_calm (P : N → Prop) e e' :
  (∀ j, Decision (P j)) → Evolves P e e' →
  (∀ j s, P j → state_is e j s → ∃ s', state_is e' j s' ∧ calm_state s s') → calm e e'.
Proof.
  intros Hdec Hev HP j s Hs. destruct (decide (P j)) as [Hj|Hj]; [by apply HP|].
  destruct Hs as (job & Hjob & <-). destruct (ev_jobs _ _ _ Hev j job Hjob Hj) as (job' & Hj' & He).
  exists (Job.state job'). split; [by exists job'|]. by eapply evolve_calm.
Qed.

(** An operation on one job. *)
Lemma Evolves_calm_one e e' jid job s' :
  Evolves (eq jid) e e' → jobs e !! jid = Some job → state_is e' jid s' →
  calm_state (Job.state job) s' → calm e e'.
Proof.
  intros Hev Hj Hs' Hc. apply (Evolves_calm (eq jid)); [apply _|done|].
  intros j s <- (job' & ? & <-). simplify_eq. by exists s'.
Qed.

Lemma Evolves_calm_nobody e e' : Evolves nobody e e' → calm e e'.
Proof. intros Hev. apply (Evolves_calm nobody); [intros ?; right; tauto|done|done]. Qed.

(** Calm steps, and which jobs a thread builds: those of before, but for [b]. *)
Definition leaves (b : option N) (e e' : executor) : Prop :=
  ∀ (j : N) s, state_is e j s → ∃ s', state_is e' j s' ∧ calm_state s s' ∧
    is_running s' = (if decide (Some j = b) then false else is_running s).

Abbreviation still := (leaves None).

Lemma leaves_calm b e e' : leaves b e e' → calm e e'.
Proof. intros H j s Hs. destruct (H j s Hs) as (s' & ? & ? & _). by exists s'. Qed.

Lemma still_refl e : still e e.
Proof. intros j s Hs. exists s. split; [done|]. split; [apply calm_state_refl|by case_decide]. Qed.

Lemma calm_state_trans s1 s2 s3 : calm_state s1 s2 → calm_state s2 s3 → calm_state s1 s3.
Proof. unfold calm_state. destruct s1, s2; naive_solver. Qed.

Lemma leaves_trans b e1 e2 e3 : leaves b e1 e2 → still e2 e3 → leaves b e1 e3.
Proof.
  intros H1 H2 j s Hs. destruct (H1 j s Hs) as (s2 & Hs2 & Hc2 & Hr2).
  destruct (H2 j s2 Hs2) as (s3 & Hs3 & Hc3 & Hr3). exists s3. split; [done|].
  split; [by eapply calm_state_trans|]. by rewrite Hr3, decide_False, Hr2.
Qed.

Lemma leaves_still_trans b e1 e2 e3 : still e1 e2 → leaves b e2 e3 → leaves b e1 e3.
Proof.
  intros H1 H2 j s Hs. destruct (H1 j s Hs) as (s2 & Hs2 & Hc2 & Hr2).
  destruct (H2 j s2 Hs2) as (s3 & Hs3 & Hc3 & Hr3). exists s3. split; [done|].
  split; [by eapply calm_state_trans|]. rewrite Hr3. case_decide; [done|]. by rewrite Hr2, decide_False.
Qed.

Lemma still_trans e1 e2 e3 : still e1 e2 → still e2 e3 → still e1 e3.
Proof. apply leaves_trans. Qed.

Lemma evolve_running stop j j' :
  evolve stop j j' → is_running (Job.state j') = is_running (Job.state j).
Proof.
  intros (_ & _ & _ & H). destruct (Job.state j).
  - destruct H as [(? & -> & _)|[->|H]]; [done..|]. by destruct (Job.state j').
  - by destruct H as [->|[_ ->]].
  - by destruct H as [->|[_ ->]].
  - by destruct H as [->|[_ ->]].
  - by rewrite H.
  - by rewrite H.
Qed.

Lemma Evolves_leaves e e' jid job s' b :
  Evolves (eq jid) e e' → jobs e !! jid = Some job → state_is e' jid s' →
  calm_state (Job.state job) s' → b = None ∨ b = Some jid →
  is_running s' = (if decide (Some jid = b) then false else is_running (Job.state job)) → leaves b e e'.
Proof.
  intros Hev Hj Hs' Hc Hb Hr j s (job' & Hj' & <-). destruct (decide (jid = j)) as [<-|Hne].
  - simplify_eq. by exists s'.
  - destruct (ev_jobs _ _ _ Hev j job' Hj' Hne) as (job2 & Hj2 & He). exists (Job.state job2).
    split; [by exists job2|]. split; [by eapply evolve_calm|]. rewrite decide_False by naive_solver.
    by eapply evolve_running.
Qed.

Lemma Evolves_still e e' jid job s' :
  Evolves (eq jid) e e' → jobs e !! jid = Some job → state_is e' jid s' →
  calm_state (Job.state job) s' → is_running s' = is_running (Job.state job) → still e e'.
Proof. intros. eapply Evolves_leaves; [done..|by left|by rewrite decide_False]. Qed.

Lemma Evolves_still_nobody e e' : Evolves nobody e e' → still e e'.
Proof.
  intros Hev j s (job & Hj & <-). destruct (ev_jobs _ _ _ Hev j job Hj) as (job' & Hj' & He); [tauto|].
  exists (Job.state job'). split; [by exists job'|]. split; [by eapply evolve_calm|].
  rewrite decide_False by done. by eapply evolve_running.
Qed.

Lemma state_is_det e jid s s' : state_is e jid s → state_is e jid s' → s = s'.
Proof. intros (j & ? & <-) (j' & ? & <-). by simplify_eq. Qed.

(** ** Messages of the scheduler *)

Lemma wp_to_inv jid next j X Y cur rest F (Φ : () → executor → Prop) e :
  Inv X Y cur rest F e → jobs e !! jid = Some j → Φ tt (moved jid next j e) → wp (to jid next) Φ e.
Proof. intros HI. by apply wp_to, (Inv_cnt X Y cur rest F). Qed.

Lemma Inv_progressed X Y cur rest F e v :
  Inv X Y cur rest F e → Inv X Y cur rest F (with_progressed v e).
Proof. by intros []. Qed.

(** Only the job [jid] changes. *)
Lemma Evolves_only e e' jid a b :
  jobs e !! jid = Some a → jobs e' = <[jid := b]> (jobs e) → frame e e' → Evolves (eq jid) e e'.
Proof.
  intros Hj Hjs (? & ? & ? & ? & ? & Hst). apply (Evolves_one _ e e' jid a b); try done; [|by left].
  by rewrite Hst.
Qed.

(** What a placement does to a job. *)
Definition assigned_state (p : Placement.t) (s : JobState) : JobState :=
  if decide (Placement.addr p = "") then s
  else match s with
  | Running q r => if decide (Placement.addr p = Placement.addr q) then s else Running q (Some p)
  | Assigned _ | Wanted _ _ => Assigned p
  | _ => s
  end.

Lemma state_is_insert e jid a b :
  jobs e !! jid = Some a → ∀ e', jobs e' = <[jid := b]> (jobs e) → state_is e' jid (Job.state b).
Proof.
  intros Hj e' Hjs. exists b. split; [|done]. rewrite Hjs. apply vlookup_insert_eq.
  by eapply vlookup_lt_Some.
Qed.

Lemma onAssigned_spec Y F e jid job p :
  Inv [] Y 0 [] F e → jobs e !! jid = Some job →
  wp (onAssigned jid p) (λ _ e', Inv [] Y 0 [] F e' ∧ Evolves (eq jid) e e' ∧
    state_is e' jid (assigned_state p (Job.state job))) e.
Proof.
  intros HI Hj. unfold onAssigned, assigned_state. wp_step. eapply wp_job_at; [done|].
  assert (state_is e jid (Job.state job)) as Hst by by exists job.
  assert (∀ s, same_kind (Job.state job) s →
    wp (set_job jid (Job.with_state s job)) (λ _ e', Inv [] Y 0 [] F e' ∧ Evolves (eq jid) e e' ∧
      state_is e' jid s) e) as Hset.
  { intros s Hk. eapply wp_set_job; [done|]. split_and!.
    - by apply same_kind_inv.
    - by eapply Evolves_only.
    - by eapply (state_is_insert e jid job (Job.with_state s job)). }
  pose proof (Evolves_refl (eq jid) e) as Hrefl.
  case_decide as Ha; [by apply wp_ret|]. destruct (Job.state job) eqn:Hs; try (by apply wp_ret).
  - unfold push_ready. wp_steps. eapply wp_to_inv; [by apply Inv_progressed|done|]. wp_steps.
    split_and!.
    + apply (Inv_progressed _ _ _ _ _ _ (u64 (progressed e + 1))) in HI.
      apply (to_assigned_inv _ _ _ _ _ _ jid job p HI Hj). by rewrite Hs.
    + by eapply Evolves_only.
    + by eapply (state_is_insert e jid job (Job.with_state (Assigned p) job)).
  - apply Hset. done.
  - case_decide; [by apply wp_ret|]. by apply Hset.
Qed.

Lemma onCached_spec Y F e jid job :
  Inv [] Y 0 [] F e → jobs e !! jid = Some job →
  wp (onCached jid) (λ _ e', Inv [] Y 0 [] F e' ∧ Evolves (eq jid) e e' ∧
    state_is e' jid (match Job.state job with
                     | Wanted _ _ => Done (Done.mk cached true "") | s => s end)) e.
Proof.
  intros HI Hj. unfold onCached. wp_step. eapply wp_job_at; [done|].
  assert (state_is e jid (Job.state job)) as Hst by by exists job.
  pose proof (Evolves_refl (eq jid) e) as Hrefl.
  destruct (Job.state job) eqn:Hs; try (by apply wp_ret).
  eapply wp_mono; [apply (settle_spec Y F jid _ job e 0)|].
  - apply (Inv_relax [] _ _ 0); [done| |by intros ??? ?%elem_of_nil].
    intros j ->%list_elem_of_singleton. by eapply vlookup_lt_Some.
  - done.
  - by rewrite Hs.
  - rewrite Hs. intros _ e' (? & ? & job' & ? & ? & _). split_and!; [done..|]. by exists job'.
Qed.

Lemma onUnplaceable_spec Y F e jid job reason now :
  Inv [] Y 0 [] F e → jobs e !! jid = Some job →
  wp (onUnplaceable jid reason now) (λ first e', Inv [] Y 0 [] F e' ∧ Evolves (eq jid) e e' ∧
    match Job.state job with
    | Wanted since _ => state_is e' jid (Wanted (Some (default now since)) reason) ∧
        first = negb (bool_decide (is_Some since))
    | _ => e' = e ∧ first = false
    end) e.
Proof.
  intros HI Hj. unfold onUnplaceable. wp_step. eapply wp_job_at; [done|].
  pose proof (Evolves_refl (eq jid) e) as Hrefl.
  destruct (Job.state job) as [| |since r| | |] eqn:Hs; try (by apply wp_ret).
  wp_step. eapply wp_set_job; [done|]. wp_steps. split_and!; [| | |done].
  - apply same_kind_inv; [done..|]. by rewrite Hs.
  - by eapply Evolves_only.
  - by eapply (state_is_insert e jid job (Job.with_state (Wanted _ _) job)).
Qed.

Lemma onPlaceable_spec Y F e jid job :
  Inv [] Y 0 [] F e → jobs e !! jid = Some job →
  wp (onPlaceable jid) (λ _ e', Inv [] Y 0 [] F e' ∧ Evolves (eq jid) e e' ∧
    state_is e' jid (match Job.state job with Wanted _ r => Wanted None r | s => s end)) e.
Proof.
  intros HI Hj. unfold onPlaceable. wp_step. eapply wp_job_at; [done|].
  assert (state_is e jid (Job.state job)) as Hst by by exists job.
  pose proof (Evolves_refl (eq jid) e) as Hrefl.
  destruct (Job.state job) as [| |since r| | |] eqn:Hs; try (by apply wp_ret).
  eapply wp_set_job; [done|]. split_and!.
  - apply same_kind_inv; [done..|]. by rewrite Hs.
  - by eapply Evolves_only.
  - by eapply (state_is_insert e jid job (Job.with_state (Wanted _ _) job)).
Qed.

(** ** The build threads *)

Lemma inv_one Y F e jid job :
  Inv [] Y 0 [] F e → jobs e !! jid = Some job → Inv [jid] Y 0 [] F e.
Proof.
  intros HI Hj. apply (Inv_relax [] _ _ 0); [done| |by intros ??? ?%elem_of_nil].
  intros j ->%list_elem_of_singleton. by eapply vlookup_lt_Some.
Qed.

Lemma finished_spec Y F e jid job ok :
  Inv [] Y 0 [] F e → jobs e !! jid = Some job →
  wp (finished jid ok) (λ _ e', Inv [] Y 0 [] F e' ∧ Evolves (eq jid) e e' ∧
    state_is e' jid (if is_running (Job.state job) then Done (Done.mk built ok "")
                     else Job.state job)) e.
Proof.
  intros HI Hj. unfold finished. wp_step. eapply wp_job_at; [done|].
  destruct (is_running (Job.state job)) eqn:Hr.
  - assert (is_done (Job.state job) = false) as Hd by by destruct (Job.state job).
    eapply wp_mono; [apply (settle_spec Y F jid _ job e 0); [by eapply inv_one|done|]|].
    + intros _. split; [done|]. intros _. by destruct (Job.state job).
    + rewrite Hd. intros _ e' (? & ? & job' & ? & ? & _). split_and!; [done..|]. by exists job'.
  - apply wp_ret. split_and!; [done|apply Evolves_refl|by exists job].
Qed.

(** The job at the front of the queue that is still Assigned. *)
Lemma next_loop_spec Y F q e :
  Inv [] Y 0 [] F e → ready e = q →
  wp (next_loop q) (λ r e', Inv [] Y 0 [] F e' ∧
    match r with
    | Some (jid, p) => Evolves (eq jid) e e' ∧
        state_is e jid (Assigned p) ∧ state_is e' jid (Running p None) ∧
        ∃ job, jobs e !! jid = Some job ∧ jobs e' = <[jid := Job.with_state (Running p None) job]> (jobs e)
    | None => Evolves nobody e e' ∧ jobs e' = jobs e ∧ ready e' = [] ∧
        ∀ (j : N) job, jobs e !! j = Some job → is_assigned (Job.state job) = false
    end) e.
Proof.
  revert e. induction q as [|jid q IH]; intros e HI Hq.
  - apply wp_ret. split_and!; [done|apply Evolves_refl|done..|]. intros j job Hj.
    destruct (is_assigned _) eqn:Ha; [|done]. destruct (i_ready _ _ _ _ _ _ HI) as (_ & Hin & _).
    specialize (Hin j job Hj Ha). rewrite Hq in Hin. by apply elem_of_nil in Hin.
  - destruct (i_ready _ _ _ _ _ _ HI) as (Hnd & Hin & Hout). rewrite Hq in Hnd, Hin, Hout.
    destruct (Hout jid) as (job & Hj & Hs); [by left|].
    simpl. wp_steps. eapply wp_job_at; [done|].
    destruct (Job.state job) as [| | |p| |d] eqn:Es; simpl in Hs; try (by destruct Hs).
    + wp_steps. eapply wp_to; [by eapply Inv_cnt in HI|done|]. wp_steps. split_and!.
      * by apply (to_running_inv _ _ _ _ _ _ jid job p q HI).
      * by eapply Evolves_only.
      * by exists job.
      * by eapply (state_is_insert e jid job (Job.with_state (Running p None) job)).
      * by exists job.
    + assert (Inv [] Y 0 [] F (with_ready q e)) as HI'.
      { destruct HI. split; try done. simpl. split_and!; [by apply NoDup_cons in Hnd as []|..].
        - intros j job' Hj' Ha. destruct (elem_of_cons q j jid) as [Hc _].
          destruct (Hc (Hin j job' Hj' Ha)) as [->|?]; [|done]. simplify_eq. by rewrite Es in Ha.
        - intros j Hjq. apply Hout. by right. }
      eapply wp_mono; [by apply IH|]. intros [[j p]|] e' [HI'' H]; split; [done| |done|].
      * destruct H as (Hev & ? & ? & ?). split_and!; [|done..].
        apply (Evolves_trans nobody (eq j) _ _ (with_ready q e)); [done..| |done].
        split; try done. intros i a Hi _. exists a. split; [done|apply evolve_refl].
      * destruct H as (Hev & ? & ? & ?). split_and!; [|done..].
        apply (Evolves_nobody _ _ (with_ready q e)); [|done].
        split; try done. intros i a Hi _. exists a. split; [done|apply evolve_refl].
Qed.

Lemma Inv_bounced X Y cur rest F e i a v :
  Inv X Y cur rest F e → jobs e !! i = Some a → is_done (Job.state a) = false →
  Inv X Y cur rest F (with_jobs (<[i := Job.with_bounced v a]> (jobs e)) e).
Proof.
  intros HI Hi Ha. destruct (Inv_job _ _ _ _ _ _ _ _ HI Hi) as (Hfol & Hblk & Hfi).
  apply (Inv_move X Y X Y cur rest F e _ i a (Job.with_bounced v a)); try done.
  - simpl. pose proof (wsum_le act (jobs e) i a Hi). pose proof (i_active _ _ _ _ _ _ HI).
    assert (act (Job.with_bounced v a) = act a) as -> by done. lia.
  - by left.
  - apply (Listed_same _ _ a _ Hi); simpl; auto; apply HI.
  - apply (Listed_same _ _ a _ Hi); simpl; auto; apply HI.
  - apply (Fol_replace _ _ a _ Hi); [done|apply HI].
  - simpl. intros j Hj. destruct (Hfi j Hj) as [? Hm]. split; [done|]. by destruct (Job.state a).
  - intros Hu Hst. by apply (i_stop _ _ _ _ _ _ HI Hst i a Hi).
  - intros Hu Hst. by apply (i_gone _ _ _ _ _ _ HI Hst i a Hi).
  - apply HI.
Qed.

(** Back to the scheduler, unless the run is over for the job. *)
Definition released_as (e : executor) (jid : N) : Prop :=
  ∃ s, state_is e jid s ∧ (s = Wantable ∨ doomed s = true).

Lemma released_from Y F e jid job e' :
  Inv [] Y 0 [] F e' → Evolves nobody e e' → jobs e !! jid = Some job → Job.state job = Blocked 0 →
  released_as e' jid.
Proof.
  intros HI Hev Hj Hs. destruct (ev_jobs _ _ _ Hev jid job Hj) as (job' & Hj' & _ & _ & _ & Hst); [by intros []|].
  rewrite Hs in Hst. exists (Job.state job'). split; [by exists job'|].
  destruct Hst as [(w & Hw & Hle)|Hst]; [|done]. exfalso.
  destruct (Inv_job _ _ _ _ _ _ _ _ HI Hj') as (_ & Hblk & _). rewrite Hw in Hblk.
  destruct Hblk as (_ & _ & H0). by destruct (elem_of_nil jid) as [H _]; apply H, H0; lia.
Qed.

Lemma bounced_spec Y F e jid job :
  Inv [] Y 0 [] F e → jobs e !! jid = Some job →
  wp (bounced jid) (λ _ e', Inv [] Y 0 [] F e' ∧ Evolves (eq jid) e e' ∧
    match Job.state job with
    | Running _ (Some p) => state_is e' jid (Assigned p)
    | Running _ None =>
        let b := u32 (Job.bounced job + 1) in
        if (Cfg.rescheduleRetries (cfg e) <? b)%N
        then state_is e' jid (Done (Done.mk gaveUp false (gave_up_message b)))
        else released_as e' jid
    | _ => e' = e
    end) e.
Proof.
  intros HI Hj. unfold bounced. wp_step. eapply wp_job_at; [done|].
  pose proof (Evolves_refl (eq jid) e) as Hrefl.
  destruct (Job.state job) as [| | | |q [p|]|] eqn:Hs; try (by apply wp_ret).
  - unfold push_ready. wp_steps. eapply wp_to_inv; [done..|]. wp_steps. split_and!.
    + apply (to_assigned_inv [] Y 0 [] F e jid job p HI Hj). by rewrite Hs.
    + by eapply Evolves_only.
    + by eapply (state_is_insert e jid job (Job.with_state (Assigned p) job)).
  - set (b := u32 (Job.bounced job + 1)). set (job1 := Job.with_bounced b job).
    set (e1 := with_jobs (<[jid := job1]> (jobs e)) e).
    wp_step. eapply wp_set_job; [done|]. fold e1. wp_steps.
    assert (jobs e1 !! jid = Some job1) as Hj1 by (apply vlookup_insert_eq; by eapply vlookup_lt_Some).
    assert (Inv [] Y 0 [] F e1) as HI1 by (apply Inv_bounced; [done..|by rewrite Hs]).
    assert (Evolves (eq jid) e e1) as Hev1 by by eapply Evolves_only.
    simpl. destruct (N.ltb_spec (Cfg.rescheduleRetries (cfg e)) b) as [Hgt|Hle].
    + eapply wp_mono; [apply (settle_spec Y F jid _ job1 e1 0); [by eapply inv_one|done|done]|].
      simpl. rewrite Hs. simpl. intros _ e' (? & Hev & job' & ? & ? & _).
      split_and!; [done|by eapply (Evolves_trans (eq jid) (eq jid))|]. by exists job'.
    + wp_step. eapply wp_to_inv; [done..|]. set (e2 := moved jid (Blocked 0) job1 e1).
      assert (Inv [jid] Y 0 [] F e2) as HI2.
      { eapply (to_blocked_inv Y F e1 jid job1 (Job.failedInput job)); try done; simpl; [by rewrite Hs| |].
        - intros j Hf. by destruct (Inv_job _ _ _ _ _ _ _ _ HI Hj) as (_ & _ & Hfi);
            destruct (Hfi j Hf) as [_ Hm]; rewrite Hs in Hm.
        - rewrite Hs. simpl. lia. }
      assert (jobs e2 !! jid = Some (Job.with_state (Blocked 0) job1)) as Hj2
        by (apply vlookup_insert_eq; by eapply vlookup_lt_Some).
      eapply wp_mono; [by apply (release_spec Y F jid (Job.with_state (Blocked 0) job1) e2 0)|]. intros _ e' [HI' Hev'].
      split_and!; [done| |by eapply released_from].
      eapply Evolves_nobody; [|done]. eapply (Evolves_trans (eq jid) (eq jid)); [done..|].
      by eapply Evolves_only.
Qed.
