(* ===== verification/ExecGraph.v ===== *)
(** * Growing the executor's graph

    [Executor::add] and [Executor::blockOn]: new jobs and new edges. *)

From S2P Require Import Prelude Double Exec ExecInv ExecSettle ExecOps.

(** ** A new edge

    An edge to [d] that [d] already counts is first an entry of [rest] and then an
    edge of the graph. *)

Definition with_edge (d : N) (a : Job.t) : Job.t := Job.with_dependants (Job.dependants a ++ [d]) a.

Lemma Fail_edge cur rest js (i d : N) a job :
  js !! i = Some a → is_done (Job.state a) = false → js !! d = Some job → is_done (Job.state job) = false →
  Fail cur rest js → Fail cur rest (<[i := with_edge d a]> js).
Proof.
  intros Hi Ha Hd Hu [H1 H2].
  assert (∀ (j : N) jj, js !! j = Some jj → ∃ jj', <[i := with_edge d a]> js !! j = Some jj' ∧
    Job.state jj' = Job.state jj ∧ Job.failedInput jj' = Job.failedInput jj) as Hfw.
  { intros j jj Hj. destruct (decide (j = i)) as [->|Hne].
    - exists (with_edge d a). simplify_eq. split; [|done]. apply (lookup_replace _ _ _ _ Hi). by left.
    - exists jj. split; [|done]. apply (lookup_replace _ _ _ _ Hi). by right. }
  split.
  - intros x job' Hx j Hj.
    assert (∃ job0, js !! x = Some job0 ∧ Job.failedInput job0 = Some j ∧ Job.state job0 = Job.state job')
      as (job0 & Hx0 & Hj0 & Hs0).
    { apply (lookup_replace _ _ _ _ Hi) in Hx as [[-> ->]|[_ ?]]; [by exists a|by exists job']. }
    destruct (H1 x job0 Hx0 j Hj0) as [(jj & Hjj & Hf) Hm]. rewrite Hs0 in Hm. split; [|done].
    destruct (Hfw j jj Hjj) as (jj' & ? & E & _). exists jj'. by rewrite E.
  - intros j jj x Hj Hx.
    assert (∀ jj0 y, js !! j = Some jj0 → y ∈ Job.dependants jj0 → Job.state jj0 = Job.state jj →
      ∃ job, <[i := with_edge d a]> js !! y = Some job ∧ dep_ok (j = cur ∧ y ∈ rest) jj job) as Hold.
    { intros jj0 y Hj0 Hy E. destruct (H2 j jj0 y Hj0 Hy) as (job0 & Hy0 & Hok).
      destruct (Hfw y job0 Hy0) as (job1 & Hy1 & E1 & E2). exists job1. split; [done|].
      unfold dep_ok in *. by rewrite <- E, E1, E2. }
    apply (lookup_replace _ _ _ _ Hi) in Hj as [[-> ->]|[_ Hj]]; [|by eapply Hold].
    simpl in Hx. apply elem_of_app in Hx as [Hx|Hx]; [by apply (Hold a)|].
    apply list_elem_of_singleton in Hx as ->. destruct (Hfw d job Hd) as (job1 & Hd1 & E1 & E2).
    exists job1. split; [done|]. unfold dep_ok. rewrite E1. simpl. split; [congruence|].
    intros Hf. apply failed_done in Hf. congruence.
Qed.

Lemma edges_with_edge d x a :
  is_done (Job.state a) = false → edges x (with_edge d a) = edges x a + count x [d].
Proof. intros Ha. unfold edges. simpl. rewrite Ha. apply count_app. Qed.

Lemma Inv_edge X Y cur d rest F e i a job :
  Inv X Y cur (d :: rest) F e → Fail cur rest (jobs e) →
  jobs e !! i = Some a → is_done (Job.state a) = false →
  jobs e !! d = Some job → is_done (Job.state job) = false →
  Inv X Y cur rest F (with_jobs (<[i := with_edge d a]> (jobs e)) e).
Proof.
  intros HI Hfail Hi Ha Hd Hu.
  destruct HI as [Hlen Hprio Hrw Hrem Hact Hthr HBlk Hwl Hrl HFol HFail HJust Hstop Hgone Hreason Hwk].
  split; simpl; rewrite ?vlen_insert; try done.
  - intros j job' [[-> ->]|[_ Hj]]%(lookup_replace _ _ _ _ Hi); [exact (Hprio i a Hi)|exact (Hprio j job' Hj)].
  - rewrite Hrem. f_equal. symmetry. by eapply wsum_insert_same.
  - rewrite Hact. f_equal. symmetry. by eapply wsum_insert_same.
  - intros x job' Hx.
    assert (indeg (<[i := with_edge d a]> (jobs e)) x + count x rest
            = indeg (jobs e) x + count x (d :: rest)) as ->.
    { pose proof (indeg_replace (jobs e) i a (with_edge d a) Hi x) as Hdeg.
      rewrite edges_with_edge in Hdeg by done.
      change (d :: rest) with ([d] ++ rest). rewrite count_app. lia. }
    apply (lookup_replace _ _ _ _ Hi) in Hx as [[-> ->]|[_ Hx]]; [exact (HBlk i a Hi)|exact (HBlk x job' Hx)].
  - apply (Listed_same _ _ a _ Hi); simpl; auto.
  - apply (Listed_same _ _ a _ Hi); simpl; auto.
  - apply (Fol_replace _ _ a _ Hi); [|done]. destruct HFol as [HFol _]. exact (HFol i a Hi).
  - by eapply Fail_edge.
  - apply (Just_replace _ _ a _ Hi); [|done]. simpl. intros d' Hd'. by rewrite Hd' in Ha.
  - apply (Quiet_replace _ _ a _ Hi _ X); [done| |done]. simpl. intros Hf Hun. by apply (Hstop Hf i a Hi).
  - apply (Quiet_replace _ _ a _ Hi _ (X ++ Y)); [done| |done]. simpl. intros Hf Hun. by apply (Hgone Hf i a Hi).
  - intros [? (j & job' & Hj & Hf)]%Hreason. split; [done|]. exists j, job'. split; [|done].
    apply (lookup_replace _ _ _ _ Hi). right. split; [|done]. intros ->. simplify_eq.
    apply failed_done in Hf. congruence.
Qed.

(** ** [Executor::blockOn] *)

(** Blocked on a job that is not done. *)
Definition blocked_on (jid input : N) (job : Job.t) (e : executor) : executor :=
  let eA := moved jid (Blocked 1) (Job.with_followed false job) (unfollowed jid job e) in
  match jobs eA !! input with
  | Some inp => with_jobs (<[input := with_edge jid inp]> (jobs eA)) eA
  | None => eA
  end.

Lemma blocked_inv Y F e jid job :
  Inv [] Y 0 [] F e → jobs e !! jid = Some job → is_running (Job.state job) = true →
  let eA := moved jid (Blocked 1) (Job.with_followed false job) (unfollowed jid job e) in
  Inv [] Y (vlen (jobs e)) [jid] F eA ∧ Fail (vlen (jobs e)) [] (jobs eA) ∧
  jobs eA = <[jid := Job.with_state (Blocked 1) (Job.with_followed false job)]> (jobs e).
Proof.
  intros HI Hj Hr eA. destruct (Job.state job) eqn:Hs; try done.
  assert (Inv [] Y (vlen (jobs e)) [] F (unfollowed jid job e)) as HI1.
  { apply (Inv_relax [] [] _ 0); [|by intros ? ?%elem_of_nil|by left].
    apply unfollowed_inv; [done..|by rewrite Hs]. }
  set (a := Job.with_followed false job). set (b := Job.with_state (Blocked 1) a).
  assert (jobs (unfollowed jid job e) !! jid = Some a) as Ha
    by (apply vlookup_insert_eq; by eapply vlookup_lt_Some).
  destruct (Inv_job _ _ _ _ _ _ _ _ HI1 Ha) as (Hfol & Hblk & Hfi).
  assert (jobs eA = <[jid := b]> (jobs (unfollowed jid job e))) as Hjs by done.
  assert (Fail (vlen (jobs e)) [] (jobs eA)) as Hfail.
  { rewrite Hjs. apply (Fail_replace _ _ a b Ha); simpl; rewrite ?Hs; try done; [|apply HI1].
    intros j Hf. by destruct (Hfi j Hf) as [_ Hm]; simpl in Hm; rewrite Hs in Hm. }
  split_and!; [|done|by rewrite Hjs; simpl; rewrite vinsert_insert].
  apply (Inv_move_rest [] Y [] Y (vlen (jobs e)) [] [jid] F (unfollowed jid job e) eA jid a b);
    simpl; rewrite ?Hs; try done.
  - unfold act. simpl. rewrite Hs. simpl. lia.
  - left. unfold act. simpl. rewrite Hs. simpl. lia.
  - intros d Hne. rewrite count_cons, decide_False by done. done.
  - simpl in Hblk. rewrite Hs in Hblk. rewrite count_cons, decide_True by done.
    unfold blk_ok in Hblk. rewrite count_nil in *. split_and!; [lia|done|done].
  - apply (Listed_same _ _ a b Ha); simpl; rewrite ?Hs; [done..|apply HI1].
  - apply (Listed_same _ _ a b Ha); simpl; rewrite ?Hs; [done..|apply HI1].
  - apply (Fol_replace _ _ a b Ha); [|apply HI1]. unfold fol_ok in *. naive_solver.
  - destruct Hfail as [H1 H2]. split; [done|]. intros j jj d Hjj Hd.
    destruct (H2 j jj d Hjj Hd) as (job' & ? & Hok1 & Hok2). exists job'. split; [done|].
    split; [done|]. intros Hf. destruct (Hok2 Hf) as [[[_ Hn] _]|?]; [by apply elem_of_nil in Hn|auto].
  - by intros ? ?%elem_of_nil.
Qed.

Lemma blocked_on_inv Y F e jid input job inp :
  Inv [] Y 0 [] F e → jobs e !! jid = Some job → is_running (Job.state job) = true →
  jobs e !! input = Some inp → is_done (Job.state inp) = false →
  Inv [] Y 0 [] F (blocked_on jid input job e).
Proof.
  intros HI Hj Hr Hin Hd. unfold blocked_on.
  destruct (blocked_inv Y F e jid job HI Hj Hr) as (HIA & HfA & HjsA). cbv zeta in *.
  set (eA := moved jid (Blocked 1) (Job.with_followed false job) (unfollowed jid job e)) in *.
  set (b := Job.with_state (Blocked 1) (Job.with_followed false job)) in *.
  assert (jobs eA !! jid = Some b) as Hjb by (rewrite HjsA; apply (lookup_replace _ _ _ _ Hj); by left).
  assert (∃ inp', jobs eA !! input = Some inp' ∧ is_done (Job.state inp') = false) as (inp' & Hin' & Hd').
  { destruct (decide (input = jid)) as [->|Hne]; [by exists b|]. exists inp. split; [|done].
    rewrite HjsA. apply (lookup_replace _ _ _ _ Hj). by right. }
  rewrite Hin'. apply (Inv_relax [] [] _ (vlen (jobs e))); [|by intros ? ?%elem_of_nil|by left].
  by apply (Inv_edge [] Y _ jid [] F eA input inp' b).
Qed.

Lemma wp_blocked_on jid input job inp (Φ : () → executor → Prop) e :
  cnt_ok e → jobs e !! jid = Some job → jobs e !! input = Some inp →
  Φ tt (blocked_on jid input job e) →
  wp (upd_job input (λ j, Job.with_dependants (Job.dependants j ++ [jid]) j);;
      unfollow jid;; to jid (Blocked 1)) Φ e.
Proof.
  intros [Hlen Hact] Hj Hin HΦ. wp_step. eapply wp_upd_job; [done|]. fold (with_edge jid inp).
  set (e1 := with_jobs (<[input := with_edge jid inp]> (jobs e)) e).
  assert (∃ job1, jobs e1 !! jid = Some job1 ∧ Job.state job1 = Job.state job ∧
    Job.followed job1 = Job.followed job ∧
    jobs (moved jid (Blocked 1) (Job.with_followed false job1) (unfollowed jid job1 e1))
      = jobs (blocked_on jid input job e)) as (job1 & Hj1 & Hs1 & Hf1 & Hjs).
  { unfold blocked_on. simpl. rewrite vinsert_insert. destruct (decide (input = jid)) as [->|Hne].
    - assert (inp = job) as -> by congruence. exists (with_edge jid job). split_and!; try done.
      + apply (lookup_replace _ _ _ _ Hin). by left.
      + rewrite vlookup_insert_eq by by eapply vlookup_lt_Some. simpl. by rewrite !vinsert_insert.
    - exists job. split_and!; try done.
      + apply (lookup_replace _ _ _ _ Hin). by right.
      + rewrite vlookup_insert_ne, Hin by done. simpl. rewrite !vinsert_insert.
        by apply vinsert_commute. }
  assert (wsum act (jobs e1) = wsum act (jobs e)) as Hw by by eapply wsum_insert_same.
  wp_step. eapply wp_unfollow; [done|]. eapply wp_to.
  - split; simpl; rewrite ?vlen_insert; [done|].
    rewrite (wsum_insert_same act _ jid job1); [by rewrite Hact, <- Hw|done|]. unfold act. done.
  - apply vlookup_insert_eq. by eapply vlookup_lt_Some.
  - eassert (moved _ _ _ _ = _) as ->; [|exact HΦ].
    assert (∃ inp', jobs (moved jid (Blocked 1) (Job.with_followed false job) (unfollowed jid job e)) !! input
      = Some inp') as [inp' Hin'].
    { apply vlookup_lt. simpl. rewrite !vlen_insert. by eapply vlookup_lt_Some. }
    unfold blocked_on in *. rewrite Hin' in *. simpl in *.
    unfold moved, unfollowed, with_jobs, with_active, with_cancels in *. simpl in *.
    by rewrite Hjs, Hs1, Hf1.
Qed.

Lemma blockOn_spec Y F e jid input job inp :
  Inv [] Y 0 [] F e → jobs e !! jid = Some job → jobs e !! input = Some inp →
  wp (blockOn jid input) (λ _ e', Inv [] Y 0 [] F e' ∧
    if is_running (Job.state job) then
      if is_done (Job.state inp) then Evolves (eq jid) e e' ∧ released_as e' jid ∧ deps_same e e'
      else e' = blocked_on jid input job e
    else e' = e) e.
Proof.
  intros HI Hj Hin. unfold blockOn. wp_step. eapply wp_job_at; [done|].
  destruct (is_running (Job.state job)) eqn:Hr; [|by apply wp_ret].
  wp_step. eapply wp_job_at; [done|].
  destruct (is_done (Job.state inp)) eqn:Hd.
  2:{ destruct (Job.state inp) eqn:Hs; try done;
        (eapply wp_blocked_on; [by eapply Inv_cnt|done..|]; split; [|done];
         eapply blocked_on_inv; try done; by rewrite Hs). }
  destruct (Job.state inp) as [| | | | |d] eqn:Hs; try done.
  set (fi := if Done.succeeded d then Job.failedInput job else Some input).
  set (job1 := Job.with_failedInput fi job). set (e1 := with_jobs (<[jid := job1]> (jobs e)) e).
  assert (∀ Φ : () → executor → Prop, Φ tt e1 →
    wp (if Done.succeeded d then mret tt else upd_job jid (Job.with_failedInput (Some input))) Φ e) as Hfi.
  { intros Φ HΦ. unfold e1, job1, fi in HΦ. destruct (Done.succeeded d); [|by eapply wp_upd_job].
    apply wp_ret. by replace (Job.with_failedInput (Job.failedInput job) job) with job in HΦ
      by (by destruct job); rewrite with_jobs_id in HΦ. }
  wp_step. apply Hfi. wp_step.
  assert (jobs e1 !! jid = Some job1) as Hj1 by (apply vlookup_insert_eq; by eapply vlookup_lt_Some).
  eapply wp_to; [|done|].
  { destruct (Inv_cnt _ _ _ _ _ _ HI). split; simpl; rewrite ?vlen_insert; [done|].
    by rewrite (wsum_insert_same act _ jid job). }
  set (e2 := moved jid (Blocked 0) job1 e1).
  assert (jobs e2 = <[jid := Job.with_state (Blocked 0) job1]> (jobs e)) as Hjs
    by (simpl; by rewrite vinsert_insert).
  assert (jobs e2 !! jid = Some (Job.with_state (Blocked 0) job1)) as Hj2
    by (apply vlookup_insert_eq; by eapply vlookup_lt_Some).
  assert (Inv [jid] Y 0 [] F e2) as HI2.
  { apply (to_blocked_inv Y F e jid job fi); try done.
    - intros j Hf. unfold fi in Hf. destruct (Done.succeeded d) eqn:Hsu.
      + by destruct (Inv_job _ _ _ _ _ _ _ _ HI Hj) as (_ & _ & H); apply H.
      + simplify_eq. exists inp. split; [done|]. rewrite Hs. simpl. by rewrite Hsu.
    - simpl. destruct (Job.state job); try done. simpl. lia. }
  pose proof (release_spec Y F jid (Job.with_state (Blocked 0) job1) e2 0 HI2 Hj2 eq_refl) as Hrel.
  eapply wp_mono; [exact (wp_keeps _ _ _ _ (keeps_release jid) Hrel)|].
  intros _ e' [[HI' Hev'] Hd']. split_and!; [done| |by eapply released_from|].
  - eapply Evolves_nobody; [|done]. by eapply Evolves_only.
  - etrans; [|done]. by apply (deps_same_set e e2 jid job _ Hj Hjs).
Qed.

(** ** [Executor::add] *)

Definition new_job (prio : double) : Job.t := Job.mk (Blocked 0) prio [] None 0 false.

Definition pushed (prio : double) (e : executor) : executor :=
  with_remaining (remaining e + 1) (with_jobs (jobs e ++ [new_job prio]) e).

(** The jobs of the graph are the old ones and the new one, which nobody waits for. *)
Lemma lookup_pushed prio e (j : N) job :
  jobs (pushed prio e) !! j = Some job ↔
  jobs e !! j = Some job ∨ (j = vlen (jobs e) ∧ job = new_job prio).
Proof. simpl. rewrite vlookup_snoc_Some. naive_solver. Qed.

Lemma indeg_pushed prio e X Y cur F d :
  Inv X Y cur [] F e →
  indeg (jobs (pushed prio e)) d = indeg (jobs e) d ∧
  ((vlen (jobs e) ≤ d)%N → indeg (jobs e) d = 0).
Proof.
  intros HI. split.
  - unfold indeg. simpl. rewrite wsum_snoc. unfold edges at 2. simpl. rewrite count_nil. lia.
  - intros Hd. destruct (decide (0 < indeg (jobs e) d)) as [Hpos|]; [exfalso|lia].
    apply wsum_pos in Hpos as (j & jj & Hj & He). unfold edges in He.
    destruct (is_done (Job.state jj)); [lia|]. apply count_pos in He.
    destruct (i_fail _ _ _ _ _ _ HI) as [_ H2]. destruct (H2 j jj d Hj He) as (job & Hjob & _).
    apply vlookup_lt_Some in Hjob. lia.
Qed.

Lemma Listed_pushed P l prio e :
  P (Blocked 0) = false → Listed P l (jobs e) → Listed P l (jobs (pushed prio e)).
Proof.
  intros HP (Hnd & Hin & Hout). split_and!; [done|..].
  - intros j job [Hj|[-> ->]]%lookup_pushed Hp; [by eauto|]. simpl in Hp. congruence.
  - intros j Hj. destruct (Hout j Hj) as (job & Hjob & ?). exists job. split; [|done].
    apply lookup_pushed. by left.
Qed.

Lemma Fail_pushed prio e : Fail 0 [] (jobs e) → Fail 0 [] (jobs (pushed prio e)).
Proof.
  intros [H1 H2]. split.
  - intros d job [Hd|[-> ->]]%lookup_pushed j Hj; [|done].
    destruct (H1 d job Hd j Hj) as [(jj & Hjj & ?) ?]. split; [|done]. exists jj.
    split; [|done]. apply lookup_pushed. by left.
  - intros j jj d [Hj|[-> ->]]%lookup_pushed Hd; [|by apply elem_of_nil in Hd].
    destruct (H2 j jj d Hj Hd) as (job & Hjob & ?). exists job. split; [|done].
    apply lookup_pushed. by left.
Qed.

Lemma pushed_inv Y F e prio :
  Inv [] Y 0 [] F e → (vlen (jobs e) + 1 < 2 ^ 32)%N → is_nan prio = false →
  Inv [vlen (jobs e)] Y 0 [] F (pushed prio e).
Proof.
  intros HI Hlen' Hnan. pose proof (λ d, indeg_pushed prio e _ _ _ _ d HI) as Hdeg.
  assert (vlen (jobs (pushed prio e)) = vlen (jobs e) + 1)%N as Hv by (simpl; by rewrite vlen_app).
  destruct HI as [Hlen Hprio Hrw Hrem Hact Hthr HBlk Hwl Hrl [HFol HF] HFail HJust Hstop Hgone Hreason Hwk].
  split; rewrite ?Hv; try done.
  - intros j job [Hj|[-> ->]]%lookup_pushed; [by eapply Hprio|done].
  - simpl. rewrite Hrem, wsum_snoc. unfold undone at 3. simpl. lia.
  - simpl. rewrite Hact, wsum_snoc. unfold act at 3. simpl. lia.
  - intros d job Hd. rewrite (proj1 (Hdeg d)). apply lookup_pushed in Hd as [Hd|[-> ->]].
    + specialize (HBlk d job Hd). unfold blk_ok in *. destruct (Job.state job); try done.
      destruct HBlk as (? & ? & Hn). split_and!; [done..|]. by intros ?%Hn%elem_of_nil.
    + simpl. rewrite (proj2 (Hdeg _)) by lia. split_and!; [done..|]. intros _. by left.
  - by apply Listed_pushed.
  - by apply Listed_pushed.
  - split; rewrite ?Hv.
    + intros j job [Hj|[-> ->]]%lookup_pushed; [by apply HFol|]. split; [done|]. simpl. intros _.
      split; [done|]. intros [Hin _]. assert (vlen (jobs e) < vlen (jobs e))%N by auto. lia.
    + intros j Hin. apply HF in Hin. lia.
  - by apply Fail_pushed.
  - intros j job d [Hj|[-> ->]]%lookup_pushed Hd; [by eapply HJust|done].
  - intros Hf j job [Hj|[-> ->]]%lookup_pushed Hu; [|done].
    apply (Hstop Hf j job Hj) in Hu. by apply elem_of_nil in Hu.
  - intros Hf j job [Hj|[-> ->]]%lookup_pushed Hu; [|done]. right. by apply (Hgone Hf j job Hj) in Hu.
  - intros [? (j & job & Hj & ?)]%Hreason. split; [done|]. exists j, job. split; [|done].
    apply lookup_pushed. by left.
  - intros j ->%list_elem_of_singleton. lia.
Qed.

(** The new job as it will be once its inputs are counted. *)
Definition waiting_for (jid w : N) (jn : Job.t) (e : executor) : executor :=
  with_jobs (<[jid := Job.with_state (Blocked w) jn]> (jobs e)) e.

(** One more input that is not done. *)
Lemma waiting_edge Y F e jid jn w input inp :
  Inv [jid] Y 0 [] F (waiting_for jid w jn e) → jobs e !! jid = Some jn → (w + 1 < 2 ^ 64)%N →
  Job.followed jn = false → jobs e !! input = Some inp → is_done (Job.state inp) = false → input ≠ jid →
  Inv [jid] Y 0 [] F
    (waiting_for jid (w + 1) jn (with_jobs (<[input := with_edge jid inp]> (jobs e)) e)).
Proof.
  intros HI Hj Hw Hfl Hin Hd Hne. set (e1 := waiting_for jid w jn e) in *.
  set (a := Job.with_state (Blocked w) jn). set (b := Job.with_state (Blocked (w + 1)) jn).
  set (cur := vlen (jobs e)).
  assert (jobs e1 !! jid = Some a) as Ha by (apply vlookup_insert_eq; by eapply vlookup_lt_Some).
  assert (Inv [jid] Y cur [] F e1) as HI1 by (apply (Inv_relax [jid] [jid] _ 0); [done|apply HI|by left]).
  destruct (Inv_job _ _ _ _ _ _ _ _ HI1 Ha) as (Hfol & Hblk & Hfi).
  set (e2 := waiting_for jid (w + 1) jn e).
  assert (jobs e2 = <[jid := b]> (jobs e1)) as Hjs by (simpl; by rewrite vinsert_insert).
  assert (Fail cur [] (jobs e2)) as Hfail.
  { rewrite Hjs. apply (Fail_replace _ _ a b Ha); try done. apply HI1. }
  assert (Inv [jid] Y cur [jid] F e2) as HI2.
  { apply (Inv_move_rest [jid] Y [jid] Y cur [] [jid] F e1 e2 jid a b); try done.
    - unfold act. simpl. lia.
    - by left.
    - intros d Hne'. by rewrite count_cons, decide_False.
    - rewrite count_cons, decide_True, count_nil by done. rewrite count_nil in Hblk.
      destruct Hblk as (Hw1 & _). split_and!; [lia|lia|by left].
    - rewrite Hjs. apply (Listed_same _ _ a b Ha); [done..|apply HI1].
    - rewrite Hjs. apply (Listed_same _ _ a b Ha); [done..|apply HI1].
    - rewrite Hjs. apply (Fol_replace _ _ a b Ha); [|apply HI1].
      unfold fol_ok in *. simpl in *. rewrite Hfl in *. naive_solver.
    - destruct Hfail as [H1 H2]. split; [done|]. intros j jj d Hjj Hdd.
      destruct (H2 j jj d Hjj Hdd) as (job' & ? & Hok1 & Hok2). exists job'. split; [done|].
      split; [done|]. intros Hf. destruct (Hok2 Hf) as [[[_ Hn] _]|?]; [by apply elem_of_nil in Hn|auto].
    - apply HI1. }
  apply (Inv_relax [jid] [jid] _ cur); [| |by left].
  2:{ intros j Hin'. pose proof (i_work _ _ _ _ _ _ HI2 j Hin') as Hlt. simpl in *.
      by rewrite !vlen_insert in *. }
  assert (jobs e2 !! input = Some inp) as Hin2 by by (simpl; rewrite vlookup_insert_ne).
  assert (jobs e2 !! jid = Some b) as Hb2 by (apply vlookup_insert_eq; by eapply vlookup_lt_Some).
  pose proof (Inv_edge [jid] Y cur jid [] F e2 input inp b HI2 Hfail Hin2 Hd Hb2 eq_refl) as HI3.
  unfold waiting_for, with_jobs in *. simpl in *. by rewrite vinsert_commute in HI3.
Qed.

(** One more input that failed. *)
Lemma waiting_failed Y F e jid jn w input inp :
  Inv [jid] Y 0 [] F (waiting_for jid w jn e) → jobs e !! jid = Some jn →
  jobs e !! input = Some inp → failed (Job.state inp) = true → input ≠ jid →
  let jn' := Job.with_failedInput (Some input) jn in
  Inv [jid] Y 0 [] F (waiting_for jid w jn' (with_jobs (<[jid := jn']> (jobs e)) e)).
Proof.
  intros HI Hj Hin Hf Hne jn'. set (e1 := waiting_for jid w jn e) in *.
  set (a := Job.with_state (Blocked w) jn). set (b := Job.with_state (Blocked w) jn').
  set (e2 := waiting_for jid w jn' (with_jobs (<[jid := jn']> (jobs e)) e)).
  assert (jobs e1 !! jid = Some a) as Ha by (apply vlookup_insert_eq; by eapply vlookup_lt_Some).
  destruct (Inv_job _ _ _ _ _ _ _ _ HI Ha) as (Hfol & Hblk & Hfi).
  assert (jobs e2 = <[jid := b]> (jobs e1)) as Hjs by (simpl; by rewrite !vinsert_insert).
  apply (Inv_move [jid] Y [jid] Y 0 [] F e1 e2 jid a b); try done.
  - unfold act. simpl. lia.
  - by left.
  - rewrite Hjs. apply (Listed_same _ _ a b Ha); [done..|apply HI].
  - rewrite Hjs. apply (Listed_same _ _ a b Ha); [done..|apply HI].
  - rewrite Hjs. apply (Fol_replace _ _ a b Ha); [done|apply HI].
  - intros j [= <-]. split; [|done]. exists inp. split; [|done]. simpl. by rewrite vlookup_insert_ne.
  - apply HI.
Qed.

(** Inputs of a new job that are not done. *)
Definition not_done (e : executor) (i : N) : bool :=
  match jobs e !! i with Some j => negb (is_done (Job.state j)) | None => false end.
Definition has_failed (e : executor) (i : N) : bool :=
  match jobs e !! i with Some j => failed (Job.state j) | None => false end.

(** What the loop of [add] keeps, with the inputs [rest] to visit. *)
Record Adding (Y : list N) (F : gset N) (e0 : executor) (prio : double) (inputs rest : list N) (w : N)
    (e : executor) : Prop := mkAdding {
  add_frame : frame (pushed prio e0) e;
  add_len : vlen (jobs e) = (vlen (jobs e0) + 1)%N;
  add_new : ∃ jn, jobs e !! vlen (jobs e0) = Some jn ∧ Job.followed jn = false ∧
    Job.dependants jn = [] ∧
    Inv [vlen (jobs e0)] Y 0 [] F (waiting_for (vlen (jobs e0)) w jn e) ∧
    (existsb (has_failed e0) inputs = true →
       is_Some (Job.failedInput jn) ∨ existsb (has_failed e0) rest = true);
  add_old : ∀ (j : N) job, jobs e0 !! j = Some job →
    ∃ job', jobs e !! j = Some job' ∧ Job.state job' = Job.state job ∧
      ∀ x, x ∈ Job.dependants job' → x ∈ Job.dependants job ∨ (x = vlen (jobs e0) ∧ j ∈ inputs);
  add_sub : ∀ i, i ∈ rest → i ∈ inputs;
  add_count : (w + vlen (filter (λ i, not_done e0 i = true) rest))%N
    = vlen (filter (λ i, not_done e0 i = true) inputs);
}.

Lemma add_input_spec Y F e0 prio inputs input rest w e :
  Adding Y F e0 prio inputs (input :: rest) w e → (input < vlen (jobs e0))%N → (vlen inputs < 2 ^ 64)%N →
  wp (add_input (vlen (jobs e0)) w input) (Adding Y F e0 prio inputs rest) e.
Proof.
  intros [Hfr Hlen (jn & Hj & Hfl & Hdn & HI & Hfail) Hold Hsub Hcount] Hlt Hmax. set (jid := vlen (jobs e0)) in *.
  destruct (proj2 (vlookup_lt (jobs e0) input) Hlt) as [inp0 Hin0].
  destruct (Hold input inp0 Hin0) as (inp & Hin & Hs & Hdeps). assert (input ≠ jid) as Hne by (unfold jid; lia).
  assert (not_done e0 input = negb (is_done (Job.state inp))) as Hnd by (unfold not_done; by rewrite Hin0, Hs).
  assert (has_failed e0 input = failed (Job.state inp)) as Hhf by (unfold has_failed; by rewrite Hin0, Hs).
  rewrite filter_cons, Hnd in Hcount. simpl in Hfail. rewrite Hhf in Hfail.
  unfold add_input. wp_step. eapply wp_job_at; [done|].
  assert (is_done (Job.state inp) = false → wp (
    upd_job input (λ j, Job.with_dependants (Job.dependants j ++ [jid]) j);; mret (u64 (w + 1)))
    (Adding Y F e0 prio inputs rest) e) as Hedge.
  { intros Hd. rewrite Hd in Hcount. simpl in Hcount.
    assert (failed (Job.state inp) = false) as Hnf by by destruct (Job.state inp).
    rewrite Hnf in Hfail. simpl in Hfail.
    pose proof (length_filter (λ i, not_done e0 i = true) inputs) as Hle.
    unfold vlen in Hcount, Hmax. simpl in Hcount.
    wp_step. eapply wp_upd_job; [done|]. fold (with_edge jid inp). wp_steps.
    rewrite u64_small by lia. split; simpl; rewrite ?vlen_insert; try done.
    - exists jn. rewrite vlookup_insert_ne by done. split_and!; try done.
      apply waiting_edge; try done. lia.
    - intros j job Hj0. destruct (Hold j job Hj0) as (job' & Hj' & E & Hdj).
      destruct (decide (j = input)) as [->|Hne'].
      + assert (job' = inp) as -> by congruence.
        exists (with_edge jid inp). split; [apply (lookup_replace _ _ _ _ Hin); by left|]. split; [done|].
        simpl. intros x [?| ->%list_elem_of_singleton]%elem_of_app; [by auto|]. right. split; [done|].
        apply Hsub. by left.
      + exists job'. split; [|done]. apply (lookup_replace _ _ _ _ Hin). by right.
    - intros i Hi. apply Hsub. by right.
    - unfold vlen. simpl. lia. }
  destruct (Job.state inp) as [| | | | |d] eqn:Hsi; try by apply Hedge.
  simpl in Hcount, Hfail. destruct (Done.succeeded d) eqn:Hsu; simpl in Hfail.
  - wp_steps. split; try done; [by exists jn|]. intros i Hi. apply Hsub. by right.
  - wp_step. eapply wp_upd_job; [done|]. wp_steps. split; simpl; rewrite ?vlen_insert; try done.
    + eexists. split; [apply (lookup_replace _ _ _ _ Hj); by left|]. split_and!; try done; [|by left].
      eapply waiting_failed; try done. by rewrite Hsi; simpl; rewrite Hsu.
    + intros j job Hj0. destruct (Hold j job Hj0) as (job' & Hj' & E & Hdj). exists job'. split; [|done].
      apply (lookup_replace _ _ _ _ Hj). right. split; [|done]. apply vlookup_lt_Some in Hj0.
      unfold jid. lia.
    + intros i Hi. apply Hsub. by right.
Qed.

Lemma add_spec Y F e prio inputs :
  Inv [] Y 0 [] F e → is_nan prio = false → (vlen (jobs e) + 1 < 2 ^ 32)%N →
  Forall (λ i, i < vlen (jobs e))%N inputs → (vlen inputs < 2 ^ 64)%N →
  wp (add prio inputs) (λ jid e', jid = vlen (jobs e) ∧ Inv [] Y 0 [] F e' ∧
    vlen (jobs e') = (vlen (jobs e) + 1)%N ∧ cfg e' = cfg e ∧ stream e' = stream e ∧
    abandoned e' = abandoned e ∧ still e e' ∧
    (∀ j s, state_is e j s → is_done s || is_running s = true → state_is e' j s) ∧
    (∀ (y : N) jy' x, jobs e' !! y = Some jy' → x ∈ Job.dependants jy' →
       (∃ jy, jobs e !! y = Some jy ∧ x ∈ Job.dependants jy) ∨ (x = jid ∧ y ∈ inputs)) ∧
    let n := vlen (filter (λ i, not_done e i = true) inputs) in
    if (n =? 0)%N then released_as e' jid else state_is e' jid (Blocked n)) e.
Proof.
  intros HI Hnan Hlen Hins Hmax. unfold add. wp_steps.
  rewrite (u32_small (vlen (jobs e))) by lia.
  replace (u64 (remaining _ + 1)) with (remaining e + 1)%N.
  2:{ symmetry. apply u64_small. simpl. rewrite (i_remaining _ _ _ _ _ _ HI).
      pose proof (wsum_bound undone (jobs e) 1) as Hb. unfold vlen in Hlen.
      assert (wsum undone (jobs e) ≤ 1 * length (jobs e)); [|lia].
      apply Hb. intros a. unfold undone. destruct (is_done (Job.state a)); lia. }
  fold (new_job prio). change (with_remaining _ _) with (pushed prio e).
  eapply wp_mono; [apply (wp_foldM _ (λ rest w e',
    Forall (λ i, i < vlen (jobs e))%N rest ∧ Adding Y F e prio inputs rest w e'))|].
  - split; [done|]. split; try done.
    + simpl. by rewrite vlen_app.
    + exists (new_job prio). split_and!; [by apply lookup_pushed; right|done|done| |by right].
      unfold waiting_for. rewrite with_jobs_id; [by apply pushed_inv|].
      by apply lookup_pushed; right.
    + intros j job Hj. exists job. split; [apply lookup_pushed; by left|]. by split; [|left].
  - intros input rest w e' [[Hlt Hlts]%Forall_cons HA].
    eapply wp_mono; [by apply (add_input_spec Y F e prio inputs input rest)|]. done.
  - intros w e' [_ [(Hcfg & _ & _ & Hstr & Hab & _) Hlen' (jn & Hj & Hfl & Hdn & HIw & Hfail) Hold _ Hcount]].
    cbv zeta. change (filter _ []) with (@nil N) in Hcount. unfold vlen in Hcount at 1. simpl in Hcount.
    rewrite <- Hcount, N.add_0_r. wp_step. eapply wp_upd_job; [done|].
    set (jid := vlen (jobs e)) in *. set (b := Job.with_state (Blocked w) jn).
    change (with_jobs _ _) with (waiting_for jid w jn e').
    assert (jobs (waiting_for jid w jn e') !! jid = Some b) as Hb
      by (apply vlookup_insert_eq; by eapply vlookup_lt_Some).
    assert (∀ j s, state_is e j s → state_is (waiting_for jid w jn e') j s) as Hstates.
    { intros j s (job & Hjob & Hs). destruct (Hold j job Hjob) as (job' & Hj' & E & _).
      exists job'. rewrite E. split; [|done]. apply (lookup_replace _ _ _ _ Hj). right.
      split; [|done]. apply vlookup_lt_Some in Hjob. unfold jid. lia. }
    assert (∀ (y : N) jy' x, jobs (waiting_for jid w jn e') !! y = Some jy' → x ∈ Job.dependants jy' →
      (∃ jy, jobs e !! y = Some jy ∧ x ∈ Job.dependants jy) ∨ (x = jid ∧ y ∈ inputs)) as Hdeps.
    { intros y jy' x Hy Hx. apply (lookup_replace _ _ _ _ Hj) in Hy as [[-> ->]|[Hne Hy]].
      { simpl in Hx. rewrite Hdn in Hx. by apply elem_of_nil in Hx. }
      assert (∃ jy, jobs e !! y = Some jy) as [jy Hjy].
      { apply vlookup_lt. apply vlookup_lt_Some in Hy. unfold jid in Hne. lia. }
      destruct (Hold y jy Hjy) as (job' & ? & _ & Hd). simplify_eq. destruct (Hd x Hx); eauto. }
    destruct (N.eqb_spec w 0) as [->|Hw].
    + wp_step. eapply wp_mono;
        [apply wp_keeps; [apply keeps_release|by apply (release_spec Y F jid b _ 0)]|].
      intros _ e'' [[HI'' Hev] Hds]. wp_steps. split_and!; try done.
      * rewrite (ev_len _ _ _ Hev). simpl. by rewrite vlen_insert.
      * rewrite (ev_cfg _ _ _ Hev). done.
      * rewrite (ev_stream _ _ _ Hev). done.
      * rewrite (ev_abandoned _ _ _ Hev). done.
      * intros j s Hs%Hstates. by apply (Evolves_still_nobody _ _ Hev).
      * intros j s (job & Hjob & <-)%Hstates Hdr.
        destruct (ev_jobs _ _ _ Hev j job Hjob) as (job' & Hj' & _ & _ & _ & Hs); [by intros []|].
        exists job'. split; [done|]. by destruct (Job.state job).
      * intros y jy' x Hy Hx. destruct Hds as [Hv Hds].
        assert (∃ jy, jobs (waiting_for jid 0 jn e') !! y = Some jy) as [jy Hjy].
        { apply vlookup_lt. rewrite <- Hv. by eapply vlookup_lt_Some. }
        destruct (Hds y jy Hjy) as (jy2 & ? & E). simplify_eq. rewrite E in Hx. by apply (Hdeps y jy).
      * by eapply released_from.
    + wp_steps. split_and!; try done.
      * apply (Inv_settled [jid] [] _ 0); [done|by intros ? ?%elem_of_nil|].
        intros j job Hjob ->%list_elem_of_singleton. right. simplify_eq. simpl.
        by destruct (N.eqb_spec w 0).
      * simpl. by rewrite vlen_insert.
      * intros j s Hs. exists s. split; [by apply Hstates|]. split; [apply calm_state_refl|by case_decide].
      * intros j s Hs _. by apply Hstates.
      * by exists b.
Qed.
