(* ===== verification/ExecStream.v ===== *)
(** * The executor and the scheduler stream

    Connecting, taking the Wants and Cancels to send, losing the stream, and the
    operations that visit every job. *)

From S2P Require Import Prelude Double Exec ExecInv ExecSettle ExecOps ExecGraph.

(** ** Losing the stream *)

Lemma lookup_unfollowed (js : list Job.t) (j : N) job :
  (Job.with_followed false <$> js) !! j = Some job ↔
  ∃ job0, js !! j = Some job0 ∧ job = Job.with_followed false job0.
Proof.
  unfold lookup, vec_lookup. rewrite list_lookup_fmap, fmap_Some. done.
Qed.

Lemma disconnected_inv X Y cur rest F F' e :
  Inv X Y cur rest F e → (∀ j : N, j ∈ F' → (j < vlen (jobs e))%N) →
  Inv X Y cur rest F' (with_jobs (Job.with_followed false <$> jobs e) (with_stream false e)).
Proof.
  intros HI HF'.
  destruct HI as [Hlen Hprio Hrw Hrem Hact Hthr HBlk Hwl Hrl HFol HFail HJust Hstop Hgone Hreason Hwk].
  assert (∀ f : Job.t → nat, (∀ a, f (Job.with_followed false a) = f a) →
    wsum f (Job.with_followed false <$> jobs e) = wsum f (jobs e)) as Hsum.
  { intros f Hf. rewrite wsum_fmap. by apply wsum_ext. }
  assert (vlen (Job.with_followed false <$> jobs e) = vlen (jobs e)) as Hv
    by (unfold vlen; by rewrite length_fmap).
  assert (∀ P l, Listed P l (jobs e) → Listed P l (Job.with_followed false <$> jobs e)) as HL.
  { intros P l (Hnd & Hin & Hout). split_and!; [done|..].
    - intros j job (job0 & Hj & ->)%lookup_unfollowed HP. by apply (Hin j job0).
    - intros j (job & Hj & HP)%Hout. eexists. rewrite lookup_unfollowed. split; [by eexists|done]. }
  split; simpl; rewrite ?Hv, ?Hsum; auto.
  - intros j job (job0 & Hj & ->)%lookup_unfollowed. by apply (Hprio j job0).
  - intros d job (job0 & Hj & ->)%lookup_unfollowed. unfold indeg. rewrite Hsum by done.
    by apply (HBlk d job0).
  - destruct HFol as [_ HF]. split.
    + intros j job (job0 & Hj & ->)%lookup_unfollowed. done.
    + rewrite Hv. intros j [?|?]; auto.
  - destruct HFail as [H1 H2]. split.
    + intros d job (job0 & Hd & ->)%lookup_unfollowed j Hj.
      destruct (H1 d job0 Hd j Hj) as [(jj & Hjj & Hf) Hm]. split; [|done]. eexists.
      rewrite lookup_unfollowed. split; [by eexists|done].
    + intros j jj d (jj0 & Hj & ->)%lookup_unfollowed Hd.
      destruct (H2 j jj0 d Hj Hd) as (job & Hjob & Hok). eexists.
      rewrite lookup_unfollowed. split; [by eexists|done].
  - intros j job d (job0 & Hj & ->)%lookup_unfollowed Hd. by apply (HJust j job0).
  - intros Hf j job (job0 & Hj & ->)%lookup_unfollowed. by apply (Hstop Hf j job0).
  - intros Hf j job (job0 & Hj & ->)%lookup_unfollowed. by apply (Hgone Hf j job0).
  - intros [? (j & job & Hj & Hf)]%Hreason. split; [done|]. eexists j, _.
    rewrite lookup_unfollowed. split; [by eexists|done].
Qed.

Lemma disconnected_spec Y F e :
  Inv [] Y 0 [] F e →
  wp disconnected (λ _ e', Inv [] Y 0 [] ∅ e' ∧ stream e' = false ∧ vlen (jobs e') = vlen (jobs e) ∧ cfg e' = cfg e ∧
    (∀ j s, state_is e j s ↔ state_is e' j s) ∧ cancels e' = cancels e ∧ wantable e' = wantable e) e.
Proof.
  intros HI. unfold disconnected. wp_steps. split_and!; try done.
  - apply (disconnected_inv [] Y 0 [] F ∅ e HI). set_solver.
  - simpl. unfold vlen. by rewrite length_fmap.
  - intros j s. split.
    + intros (job & Hj & Hs). exists (Job.with_followed false job). split; [|done].
      apply lookup_unfollowed. by eexists.
    + intros (job & (job0 & Hj & ->)%lookup_unfollowed & Hs). by exists job0.
Qed.

(** Without a stream nobody is followed, and it does not matter what a scheduler
    was told before. *)
Lemma unstreamed_inv X Y cur rest F F' e :
  Inv X Y cur rest F e → stream e = false → (∀ j : N, j ∈ F' → (j < vlen (jobs e))%N) →
  Inv X Y cur rest F' e.
Proof.
  intros HI Hs HF'. destruct (i_fol _ _ _ _ _ _ HI) as [H1 H2]. destruct HI. split; try done. split; [|naive_solver].
  intros j job Hj. destruct (H1 j job Hj) as [Hf _]. split; [done|]. by rewrite Hs.
Qed.

Lemma unstreamed_unfollowed X Y cur rest F e (j : N) job :
  Inv X Y cur rest F e → stream e = false → jobs e !! j = Some job → Job.followed job = false.
Proof.
  intros HI Hs Hj. destruct (Inv_job _ _ _ _ _ _ _ _ HI Hj) as ([Hf _] & _).
  destruct (Job.followed job); [|done]. destruct (Hf eq_refl). congruence.
Qed.

(** ** Wants that were not sent *)

Definition frame0 (e e' : executor) : Prop :=
  vlen (jobs e') = vlen (jobs e) ∧ cfg e' = cfg e ∧ stream e' = stream e.

Lemma frame0_refl e : frame0 e e.
Proof. done. Qed.

Lemma frame0_trans e1 e2 e3 : frame0 e1 e2 → frame0 e2 e3 → frame0 e1 e3.
Proof. unfold frame0. intros (? & ? & ?) (? & ? & ?). split_and!; congruence. Qed.

Lemma Evolves_frame0 P e e' : Evolves P e e' → frame0 e e'.
Proof. by intros []. Qed.

(** A job that waits for the scheduler means the run goes on. *)
Lemma unplaced_open F e (j : N) job :
  Inv [] [] 0 [] F e → jobs e !! j = Some job → unplaced (Job.state job) = true →
  stopping e = false ∧ abandoned e = false.
Proof.
  intros HI Hj Hu. split.
  - destruct (stopping e) eqn:Hs; [|done].
    destruct (proj1 (elem_of_nil j) (i_stop _ _ _ _ _ _ HI Hs j job Hj Hu)).
  - destruct (abandoned e) eqn:Hs; [|done].
    destruct (proj1 (elem_of_nil j) (i_gone _ _ _ _ _ _ HI Hs j job Hj Hu)).
Qed.

Lemma wanted_again_inv F e jid job since r :
  Inv [] [] 0 [] F e → jobs e !! jid = Some job → Job.state job = Wanted since r →
  Inv [] [] 0 [] F (to_wantable jid job e).
Proof.
  intros HI Hj Hs. destruct (unplaced_open F e jid job HI Hj) as [Hst Hab]; [by rewrite Hs|].
  apply (to_wantable_inv [] [] [] 0 [] F e jid job); rewrite ?Hs, ?Hst, ?Hab; try done.
  - destruct (Job.failedInput job) as [j|] eqn:Hf; [|done].
    destruct (Inv_job _ _ _ _ _ _ _ _ HI Hj) as (_ & _ & Hfi).
    destruct (Hfi j Hf) as [_ Hm]. by rewrite Hs in Hm.
  - by intros ? ?%elem_of_nil.
Qed.

(** The same state, or back from Wanted to Wantable. *)
Definition back (s s' : JobState) : Prop := s' = s ∨ (∃ t r, s = Wanted t r) ∧ s' = Wantable.

Definition backs (e e' : executor) : Prop :=
  ∀ (j : N) s, state_is e j s → ∃ s', state_is e' j s' ∧ back s s'.

Lemma backs_refl e : backs e e.
Proof. intros j s Hs. exists s. split; [done|]. by left. Qed.

Lemma backs_trans e1 e2 e3 : backs e1 e2 → backs e2 e3 → backs e1 e3.
Proof.
  intros H1 H2 j s Hs. destruct (H1 j s Hs) as (s2 & Hs2 & Hb2). destruct (H2 j s2 Hs2) as (s3 & Hs3 & Hb3).
  exists s3. split; [done|]. unfold back in *. naive_solver.
Qed.

Lemma backs_still e e' : backs e e' → still e e'.
Proof.
  intros H j s Hs. destruct (H j s Hs) as (s' & Hs' & [->|[(t & r & ->) ->]]).
  - exists s. split; [done|]. split; [apply calm_state_refl|by case_decide].
  - exists Wantable. split; [done|]. split; [by intros ? [=]|by case_decide].
Qed.

Lemma backs_one e jid job since r :
  jobs e !! jid = Some job → Job.state job = Wanted since r → backs e (to_wantable jid job e).
Proof.
  intros Hj Hs j s (job' & Hj' & <-). destruct (decide (j = jid)) as [->|Hne].
  - simplify_eq. exists Wantable. split; [|right; eauto].
    by eapply (state_is_insert e jid job (Job.with_state Wantable job)).
  - exists (Job.state job'). split; [|by left]. exists job'. split; [|done].
    apply (lookup_replace _ _ _ _ Hj). by right.
Qed.

Lemma unsent_spec F ids e :
  Inv [] [] 0 [] F e → stream e = false → Forall (λ j, j < vlen (jobs e))%N ids →
  wp (unsent ids) (λ _ e', Inv [] [] 0 [] F e' ∧ frame0 e e' ∧ cancels e' = cancels e ∧ backs e e') e.
Proof.
  intros HI Hst Hids. unfold unsent.
  eapply wp_mono; [apply (wp_forM _ (λ rest e', Forall (λ j, j < vlen (jobs e))%N rest ∧
    Inv [] [] 0 [] F e' ∧ frame0 e e' ∧ cancels e' = cancels e ∧ backs e e'))|].
  - split_and!; try done. apply backs_refl.
  - intros jid rest e' ([Hlt Hrest]%Forall_cons & HI' & Hfr & Hc & Hb).
    pose proof Hfr as (Hlen & Hcfg & Hstr). rewrite Hst in Hstr. rewrite <- Hlen in Hlt.
    destruct (proj2 (vlookup_lt (jobs e') jid) Hlt) as [job Hj].
    assert (Job.with_followed false job = job) as Hid.
    { pose proof (unstreamed_unfollowed _ _ _ _ _ _ _ _ HI' Hstr Hj) as Hf.
      destruct job. simpl in *. by subst. }
    wp_step. eapply wp_upd_job; [done|]. rewrite Hid, with_jobs_id by done.
    wp_step. eapply wp_job_at; [done|]. destruct (Job.state job) eqn:Hs; try (by apply wp_ret).
    unfold push_wantable. wp_steps. eapply wp_to_inv; [done..|]. wp_steps.
    change (with_wantable _ _) with (to_wantable jid job e').
    split_and!; [done|by eapply wanted_again_inv| |done|].
    + eapply frame0_trans; [done|]. split_and!; [|done|done]. simpl. by rewrite vlen_insert.
    + eapply backs_trans; [done|]. by eapply backs_one.
  - by intros _ e' (_ & ? & ? & ? & ?).
Qed.

(** ** Connecting *)

(** Between [connected] and [takeWants], placed jobs are in [rewant]. *)
Definition placed (s : JobState) : bool :=
  match s with Assigned _ | Running _ _ => true | _ => false end.

Definition Conn (F : gset N) (e : executor) : Prop :=
  Inv [] [] 0 [] F (with_rewant [] e) ∧
  Forall (λ j, ∃ job, jobs e !! j = Some job ∧ placed (Job.state job) = true) (rewant e).

Lemma Conn_inv F e : Conn F e → rewant e = [] → Inv [] [] 0 [] F e.
Proof.
  intros [HI _] Hr. destruct e. simpl in *. by subst.
Qed.

Lemma connected_stream_inv F e :
  Inv [] [] 0 [] F e → stream e = false → Inv [] [] 0 [] ∅ (with_stream true e).
Proof.
  intros HI Hs. pose proof (λ j job, unstreamed_unfollowed _ _ _ _ _ _ j job HI Hs) as Hf.
  destruct (i_fol _ _ _ _ _ _ HI) as [_ H2]. destruct HI. split; try done. split.
  - intros j job Hj. unfold fol_ok. rewrite (Hf j job Hj). split; [done|]. set_solver.
  - intros j [?|?]; [set_solver|]. apply H2. by right.
Qed.

(** A job visited by [connected] is not active any more or is to be wanted again. *)
Definition rewanted (jid : N) (e e' : executor) : Prop :=
  (∀ j, j ∈ rewant e → j ∈ rewant e') ∧
  ∀ (j : N) job', jobs e' !! j = Some job' → isActive (Job.state job') = true →
    (j ≠ jid ∧ ∃ job, jobs e !! j = Some job ∧ isActive (Job.state job) = true) ∨ j ∈ rewant e'.

Lemma connected_job_spec F e jid job :
  Conn F e → jobs e !! jid = Some job →
  wp (connected_job jid) (λ _ e', Conn F e' ∧ frame0 e e' ∧ backs e e' ∧ cancels e' = cancels e ∧
    rewanted jid e e') e.
Proof.
  intros [HI Hrw] Hj. unfold connected_job. wp_step. eapply wp_job_at; [done|].
  pose proof (backs_refl e) as Hb. pose proof (frame0_refl e) as Hfr.
  assert (isActive (Job.state job) = false → rewanted jid e e) as Hidle.
  { intros Hi. split; [done|]. intros j job' Hj' Ha. left.
    destruct (decide (j = jid)) as [->|]; [|by split; [|exists job']]. simplify_eq. congruence. }
  assert (placed (Job.state job) = true → wp (modify (λ e, with_rewant (rewant e ++ [jid]) e))
    (λ _ e', Conn F e' ∧ frame0 e e' ∧ backs e e' ∧ cancels e' = cancels e ∧ rewanted jid e e') e) as Hpl.
  { intros Hp. wp_steps. split_and!; try done.
    - split; [done|]. simpl. apply Forall_app. split; [done|]. apply Forall_singleton. by exists job.
    - split; simpl; [intros j Hin; apply elem_of_app; by left|]. intros j job' Hj' Ha.
      destruct (decide (j = jid)) as [->|]; [right|by left; eauto]. apply elem_of_app. right. by left. }
  destruct (Job.state job) eqn:Hs; try (by apply Hpl); try (by apply wp_ret; split_and!; [done..|apply Hidle]).
  unfold push_wantable. wp_steps. eapply wp_to; [by apply (Inv_cnt _ _ _ _ _ _ HI)|done|]. wp_steps.
  change (with_wantable _ _) with (to_wantable jid job e). split_and!; [|split_and!| |done|].
  - split; [exact (wanted_again_inv F (with_rewant [] e) jid job _ _ HI Hj Hs)|].
    eapply Forall_impl; [exact Hrw|]. intros j (job' & Hj' & Hp). exists job'. split; [|done].
    apply (lookup_replace _ _ _ _ Hj). right. split; [|done]. intros ->. simplify_eq. by rewrite Hs in Hp.
  - simpl. by rewrite vlen_insert.
  - done.
  - done.
  - by eapply backs_one.
  - split; [done|]. intros j job' Hj' Ha.
    apply (lookup_replace _ _ _ _ Hj) in Hj' as [[-> ->]|[Hne Hj']]; [done|by eauto].
Qed.

Lemma connected_spec F e :
  Inv [] [] 0 [] F e → stream e = false →
  wp connected (λ _ e', Conn ∅ e' ∧ stream e' = true ∧ vlen (jobs e') = vlen (jobs e) ∧
    cfg e' = cfg e ∧ backs e e' ∧ cancels e' = cancels e ∧
    ∀ (j : N) job, jobs e' !! j = Some job → isActive (Job.state job) = true → j ∈ rewant e') e.
Proof.
  intros HI Hst. unfold connected. wp_steps.
  eapply wp_mono; [apply (wp_forM _ (λ rest e', Forall (λ j, j < vlen (jobs e))%N rest ∧
    Conn ∅ e' ∧ frame0 (with_stream true e) e' ∧ backs e e' ∧ cancels e' = cancels e ∧
    ∀ (j : N) job, jobs e' !! j = Some job → isActive (Job.state job) = true → j ∈ rewant e' ∨ j ∈ rest))|].
  - split_and!; try done.
    + apply Forall_forall. intros j Hj%elem_of_range. simpl in Hj. lia.
    + split; [|by simpl; rewrite (i_rewant _ _ _ _ _ _ HI); constructor].
      pose proof (connected_stream_inv F e HI Hst) as HI'. pose proof (i_rewant _ _ _ _ _ _ HI) as Hr.
      destruct e. simpl in *. by subst.
    + exact (backs_refl e).
    + intros j job Hj _. right. apply elem_of_range. apply vlookup_lt_Some in Hj. simpl in *. lia.
  - intros jid rest e' ([Hlt Hrest]%Forall_cons & HC & Hfr & Hb & Hcn & Hrw).
    pose proof Hfr as (Hlen & _). simpl in Hlen. rewrite <- Hlen in Hlt.
    destruct (proj2 (vlookup_lt (jobs e') jid) Hlt) as [job Hj].
    eapply wp_mono; [by apply (connected_job_spec ∅ e' jid job)|].
    intros _ e'' (HC' & Hfr' & Hb' & Hcn' & Hgrow & Hact).
    split_and!; [done..| | |congruence|]; [by eapply frame0_trans|by eapply backs_trans|].
    intros j job' Hj' Ha. destruct (Hact j job' Hj' Ha) as [(Hne & job0 & Hj0 & Ha0)|?]; [|by left].
    destruct (Hrw j job0 Hj0 Ha0) as [?|[->|?]%elem_of_cons]; [by left; auto|done|by right].
  - intros _ e' (_ & HC & (? & ? & ?) & Hb & Hcn & Hrw). split_and!; try done.
    intros j job Hj Ha. destruct (Hrw j job Hj Ha) as [?|?%elem_of_nil]; done.
Qed.

(** ** Taking what is to be sent *)

Lemma takeCancels_spec F e :
  Conn F e →
  wp takeCancels (λ out e', out = cancels e ∧ Conn (F ∖ list_to_set out) e' ∧
    e' = with_cancels [] e) e.
Proof.
  intros [HI Hr]. unfold takeCancels. wp_steps. split_and!; [done| |done]. split; [|done].
  destruct (i_fol _ _ _ _ _ _ HI) as [H1 H2]. destruct HI. split; try done. split.
  - intros j job Hj. destruct (H1 j job Hj) as [Ha Hb]. split; [done|]. intros Hs.
    specialize (Hb Hs). rewrite elem_of_difference, elem_of_list_to_set. simpl in *.
    rewrite elem_of_nil. naive_solver.
  - intros j [[Hj _]%elem_of_difference|Hj]; [apply H2; by left|by apply elem_of_nil in Hj].
Qed.

Definition followed_by (jid : N) (a : Job.t) (e : executor) : executor :=
  with_jobs (<[jid := Job.with_followed true a]> (jobs e)) e.

Lemma followed_by_inv F e jid a :
  Inv [] [] 0 [] F e → jobs e !! jid = Some a → stream e = true → cancels e = [] →
  isActive (Job.state a) = true → Inv [] [] 0 [] ({[jid]} ∪ F) (followed_by jid a e).
Proof.
  intros HI Hj Hs Hc Ha. destruct (Inv_job _ _ _ _ _ _ _ _ HI Hj) as (Hfol & Hblk & Hfi).
  destruct (i_fol _ _ _ _ _ _ HI) as [H1 H2].
  set (b := Job.with_followed true a).
  apply (Inv_moveF [] [] [] [] 0 [] [] F _ e _ jid a b); try done.
  - by destruct (Job.state a).
  - simpl. by destruct (Job.state a).
  - simpl. pose proof (wsum_le act (jobs e) jid a Hj). pose proof (i_active _ _ _ _ _ _ HI).
    assert (act b = act a) as -> by done. lia.
  - by left.
  - apply (Listed_same _ _ a b Hj); simpl; auto; apply HI.
  - apply (Listed_same _ _ a b Hj); simpl; auto; apply HI.
  - simpl. rewrite Hs, Hc. split.
    + intros j job [[-> ->]|[Hne Hjob]]%(lookup_replace _ _ _ _ Hj).
      * split; simpl; [by destruct (Job.state a)|]. set_solver.
      * specialize (H1 j job Hjob). rewrite Hs, Hc in H1. unfold fol_ok in *. set_solver.
    + rewrite vlen_insert. intros j [[->%elem_of_singleton|?]%elem_of_union|Hn];
        [by eapply vlookup_lt_Some|apply H2; by left|by apply elem_of_nil in Hn].
  - apply (Fail_replace _ _ a b Hj); simpl; try done; try (by destruct (Job.state a)); [|apply HI].
    intros j Hf. destruct (Hfi j Hf) as [? Hm]. by destruct (Job.state a).
  - intros Hu Hst. by apply (i_stop _ _ _ _ _ _ HI Hst jid a Hj).
  - intros Hu Hst. by apply (i_gone _ _ _ _ _ _ HI Hst jid a Hj).
  - by intros ? ?%elem_of_nil.
Qed.

(** Wantable to Wanted, taken from the front of the list. *)
Lemma wanted_inv F e jid job l :
  Inv [] [] 0 [] F (with_wantable (jid :: l) e) → jobs e !! jid = Some job → Job.state job = Wantable →
  (active e < Cfg.threads (cfg e))%N →
  Inv [] [] 0 [] F (with_wantable l (moved jid (Wanted None "") job e)).
Proof.
  intros HI Hj Hs Hlt. set (e1 := with_wantable (jid :: l) e) in *.
  destruct (Inv_job _ _ _ _ _ _ jid job HI Hj) as (Hfol & Hblk & Hfi).
  set (b := Job.with_state (Wanted None "") job).
  destruct (unplaced_open F e1 jid job HI Hj) as [Hst Hab]; [by rewrite Hs|].
  assert (act job = 0) as Ha by (unfold act; by rewrite Hs). assert (act b = 1) as Hb by done.
  apply (Inv_move [] [] [] [] 0 [] F e1 _ jid job b); rewrite ?Hs, ?Hst, ?Hab; try done.
  - rewrite Ha, Hb. simpl. rewrite Hs. simpl. lia.
  - right. simpl. rewrite Hs. simpl. lia.
  - rewrite Hs in Hblk. done.
  - pose proof (i_wantable _ _ _ _ _ _ HI) as HL. pose proof HL as (Hnd & _). simpl in HL, Hnd.
    apply NoDup_cons in Hnd as [Hni Hnd]. apply (Listed_replace _ _ job b Hj _ (jid :: l)); simpl; try done.
    intros j Hne. rewrite elem_of_cons. naive_solver.
  - apply (Listed_same _ _ job b Hj); simpl; rewrite ?Hs; [done..|apply HI].
  - apply (Fol_replace _ _ job b Hj); [|apply HI]. unfold fol_ok in *. rewrite Hs in Hfol. naive_solver.
  - simpl. intros j Hf. destruct (Hfi j Hf) as [_ Hm]. by rewrite Hs in Hm.
  - by intros ? ?%elem_of_nil.
Qed.

Lemma want_job_spec F e jid job l :
  Inv [] [] 0 [] F (with_wantable (jid :: l) e) → jobs e !! jid = Some job → Job.state job = Wantable →
  (active e < Cfg.threads (cfg e))%N → stream e = true → cancels e = [] →
  let e' := followed_by jid (Job.with_state (Wanted None "") job) (moved jid (Wanted None "") job e) in
  Inv [] [] 0 [] ({[jid]} ∪ F) (with_wantable l e') ∧ active e' = (active e + 1)%N ∧
  wp (want_job jid) (λ _ e'', e'' = e') e.
Proof.
  intros HI Hj Hs Hlt Hstr Hc e'.
  assert (jobs (moved jid (Wanted None "") job e) !! jid = Some (Job.with_state (Wanted None "") job)) as Hj'
    by (apply vlookup_insert_eq; by eapply vlookup_lt_Some).
  pose proof (wanted_inv F e jid job l HI Hj Hs Hlt) as HI'. split_and!.
  - exact (followed_by_inv F _ jid (Job.with_state (Wanted None "") job) HI' Hj' Hstr Hc eq_refl).
  - simpl. rewrite Hs. simpl. lia.
  - unfold want_job. wp_step. eapply wp_to; [by destruct (Inv_cnt _ _ _ _ _ _ HI)|done|].
    eapply wp_upd_job; [done|]. done.
Qed.

(** The jobs [chosen] become Wanted; nothing else changes. *)
Definition wants (chosen : list N) (e e' : executor) : Prop :=
  ∀ (j : N) job, jobs e !! j = Some job → ∃ job', jobs e' !! j = Some job' ∧
    Job.prio job' = Job.prio job ∧
    Job.state job' = (if decide (j ∈ chosen) then Wanted None "" else Job.state job).

Lemma wants_still chosen e e' :
  (∀ j, j ∈ chosen → state_is e j Wantable) → wants chosen e e' → still e e'.
Proof.
  intros Hch Hw j s (job & Hj & <-). destruct (Hw j job Hj) as (job' & Hj' & _ & Hs').
  exists (Job.state job'). split; [by exists job'|]. rewrite Hs', (decide_False (P := Some j = None)) by done.
  case_decide as Hin; [|by split; [apply calm_state_refl|]].
  destruct (Hch j Hin) as (job0 & ? & Hs0). simplify_eq. rewrite Hs0. split; [by intros ? [=]|done].
Qed.

Lemma wants_cons jid chosen job e e1 e' :
  jobs e !! jid = Some job → jobs e1 = <[jid := Job.with_followed true (Job.with_state (Wanted None "") job)]> (jobs e) →
  wants chosen e1 e' → wants (jid :: chosen) e e'.
Proof.
  intros Hj Hjs Hw j job' Hj'. destruct (decide (j = jid)) as [->|Hne].
  - simplify_eq. destruct (Hw jid (Job.with_followed true (Job.with_state (Wanted None "") job)))
      as (job2 & Hj2 & Hp2 & Hs2).
    { rewrite Hjs. apply (lookup_replace _ _ _ _ Hj). by left. }
    exists job2. split; [done|]. split; [done|]. rewrite Hs2, (decide_True _ _ (list_elem_of_here _ _)).
    by case_decide.
  - destruct (Hw j job') as (job2 & Hj2 & Hp2 & Hs2).
    { rewrite Hjs. apply (lookup_replace _ _ _ _ Hj). by right. }
    exists job2. split; [done|]. split; [done|]. rewrite Hs2.
    destruct (decide (j ∈ chosen)), (decide (j ∈ jid :: chosen)) as [Hin|Hin]; try done.
    + exfalso. apply Hin. by right.
    + apply elem_of_cons in Hin. naive_solver.
Qed.

Lemma want_jobs_spec F e chosen tl :
  Inv [] [] 0 [] F (with_wantable (chosen ++ tl) e) → stream e = true → cancels e = [] →
  Forall (λ j, state_is e j Wantable) chosen → (active e + vlen chosen ≤ Cfg.threads (cfg e))%N →
  wp (forM_ chosen want_job) (λ _ e', Inv [] [] 0 [] (list_to_set chosen ∪ F) (with_wantable tl e') ∧
    active e' = (active e + vlen chosen)%N ∧ frame0 e e' ∧ wantable e' = wantable e ∧
    cancels e' = [] ∧ wants chosen e e') e.
Proof.
  revert F e. induction chosen as [|jid chosen IH]; intros F e HI Hstr Hc Hw Hlt.
  - apply wp_ret. unfold vlen. simpl. replace (∅ ∪ F) with F by set_solver.
    split_and!; try done; [lia|]. intros j job Hj. exists job. split; [done|]. split; [done|].
    by rewrite decide_False by (by intros ?%elem_of_nil).
  - apply Forall_cons in Hw as [(job & Hj & Hs) Hw].
    assert (vlen (jid :: chosen) = 1 + vlen chosen)%N as Hv by (unfold vlen; simpl; lia).
    destruct (want_job_spec F e jid job (chosen ++ tl)) as (HI' & Hact & Hwp); try done; [lia|].
    simpl forM_. wp_step. eapply wp_mono; [exact Hwp|]. intros _ e' ->.
    set (e1 := followed_by _ _ _) in *.
    assert (jobs e1 = <[jid := Job.with_followed true (Job.with_state (Wanted None "") job)]> (jobs e)) as Hjs
      by (simpl; by rewrite vinsert_insert).
    pose proof (i_wantable _ _ _ _ _ _ HI) as (Hnd & _). simpl in Hnd. apply NoDup_cons in Hnd as [Hni _].
    eapply wp_mono; [apply (IH ({[jid]} ∪ F) e1); try done|].
    + apply Forall_forall. intros j Hjc. rewrite Forall_forall in Hw.
      destruct (Hw j Hjc) as (job' & Hj' & Hs'). exists job'. split; [|done]. rewrite Hjs.
      apply (lookup_replace _ _ _ _ Hj). right. split; [|done]. intros ->. apply Hni, elem_of_app. by left.
    + rewrite Hact. simpl. lia.
    + intros _ e' (HI'' & Hact' & Hfr & Hwl & Hc' & Hws). split_and!; try done.
      * replace (list_to_set (jid :: chosen) ∪ F) with (list_to_set chosen ∪ ({[jid]} ∪ F)) by set_solver.
        done.
      * rewrite Hact', Hact. lia.
      * eapply frame0_trans; [|done]. split_and!; [|done..]. by rewrite Hjs, vlen_insert.
      * by eapply wants_cons.
Qed.

(** Placed jobs are Wanted again. *)
Lemma rewant_spec F e out :
  Inv [] [] 0 [] F e → stream e = true → cancels e = [] →
  Forall (λ j, ∃ job, jobs e !! j = Some job ∧ placed (Job.state job) = true) out →
  wp (forM_ out (λ jid, upd_job jid (Job.with_followed true))) (λ _ e',
    Inv [] [] 0 [] (list_to_set out ∪ F) e' ∧ frame0 e e' ∧ cancels e' = [] ∧
    active e' = active e ∧ wantable e' = wantable e ∧ wants [] e e') e.
Proof.
  revert F e. induction out as [|jid out IH]; intros F e HI Hstr Hc Hout.
  - apply wp_ret. replace (list_to_set [] ∪ F) with F by set_solver. split_and!; try done.
    intros j job Hj. by exists job.
  - apply Forall_cons in Hout as [(job & Hj & Hp) Hout]. simpl forM_. wp_step.
    eapply wp_upd_job; [done|]. set (e1 := with_jobs _ _).
    assert (∀ (j : N) a, jobs e !! j = Some a → ∃ a', jobs e1 !! j = Some a' ∧
      Job.prio a' = Job.prio a ∧ Job.state a' = Job.state a) as Hsame.
    { intros j a Ha. destruct (decide (j = jid)) as [->|Hne].
      - simplify_eq. eexists. split; [apply (lookup_replace _ _ _ _ Hj); by left|done].
      - exists a. split; [apply (lookup_replace _ _ _ _ Hj); by right|done]. }
    eapply wp_mono; [apply (IH ({[jid]} ∪ F) e1); try done|].
    + apply (followed_by_inv F e jid job HI); try done. by destruct (Job.state job).
    + eapply Forall_impl; [exact Hout|]. intros j (a & Ha & Hpa).
      destruct (Hsame j a Ha) as (a' & ? & _ & E). exists a'. by rewrite E.
    + intros _ e' (HI' & Hfr & Hc' & Ha' & Hw' & Hws). split_and!; try done.
      * replace (list_to_set (jid :: out) ∪ F) with (list_to_set out ∪ ({[jid]} ∪ F)) by set_solver. done.
      * eapply frame0_trans; [|done]. split_and!; [|done..]. simpl. by rewrite vlen_insert.
      * intros j a Ha. destruct (Hsame j a Ha) as (a1 & Ha1 & Hp1 & Hs1).
        destruct (Hws j a1 Ha1) as (a2 & Ha2 & Hp2 & Hs2). exists a2. rewrite Hp2, Hp1, <- Hs1. done.
Qed.

(** ** [Executor::takeWants] *)

Lemma Inv_wantable F e l :
  Inv [] [] 0 [] F e → Listed is_wantable l (jobs e) → Inv [] [] 0 [] F (with_wantable l e).
Proof. intros [] HL. by split. Qed.

Lemma still_wantable_is e j : still_wantable e j = true ↔ state_is e j Wantable.
Proof.
  unfold still_wantable, state_is. destruct (jobs e !! j) as [job|] eqn:Hj; [|naive_solver].
  split.
  - intros Hw. exists job. split; [done|]. by destruct (Job.state job).
  - intros (job' & ? & Hs). simplify_eq. by rewrite Hs.
Qed.

Lemma Listed_filter e l :
  Listed is_wantable l (jobs e) →
  Listed is_wantable (filter (λ jid, still_wantable e jid = true) l) (jobs e) ∧
  (∀ j, j ∈ filter (λ jid, still_wantable e jid = true) l ↔ state_is e j Wantable).
Proof.
  intros (Hnd & Hin & Hout).
  assert (∀ j, j ∈ filter (λ jid, still_wantable e jid = true) l ↔ state_is e j Wantable) as Hiff.
  { intros j. rewrite list_elem_of_filter, still_wantable_is. split; [by intros []|].
    intros Hs. split; [done|]. destruct Hs as (job & Hj & Hs). apply (Hin j job Hj). by rewrite Hs. }
  split; [|done]. split_and!; [by apply NoDup_filter|..].
  - intros j job Hj Hw. apply Hiff. exists job. split; [done|]. by destruct (Job.state job).
  - intros j (job & Hj & Hs)%Hiff. exists job. split; [done|]. left. by rewrite Hs.
Qed.

Lemma Listed_perm P l l' js : l ≡ₚ l' → Listed P l js → Listed P l' js.
Proof.
  intros Hp (Hnd & Hin & Hout). split_and!; [by rewrite <- Hp|..].
  - intros j job Hj HP. rewrite <- Hp. eauto.
  - intros j Hj. rewrite <- Hp in Hj. eauto.
Qed.

Lemma wp_visit (l : list N) (Φ : () → executor → Prop) e :
  Forall (λ j, is_Some (jobs e !! j)) l → Φ tt e → wp (forM_ l (λ jid, job_at jid;; mret tt)) Φ e.
Proof.
  intros Hl HΦ. eapply wp_mono; [apply (wp_forM _ (λ rest e', e' = e ∧ Forall (λ j, is_Some (jobs e !! j)) rest))|].
  - done.
  - intros j rest e' (-> & [[job Hj] Hrest]%Forall_cons). wp_step. eapply wp_job_at; [done|]. by wp_steps.
  - by intros [] e' [-> _].
Qed.

(** The comparison sorts the jobs of the list. *)
Lemma more_urgent_order X Y cur rest F e (l : list N) :
  Inv X Y cur rest F e → (∀ j, j ∈ l → ∃ job, jobs e !! j = Some job) →
  (∀ x y, x ∈ l → y ∈ l → more_urgent e x y = true → more_urgent e y x = false) ∧
  (∀ x y z, x ∈ l → y ∈ l → z ∈ l →
     more_urgent e x y = false → more_urgent e y z = false → more_urgent e x z = false).
Proof.
  intros HI Hl. pose proof (i_prio _ _ _ _ _ _ HI) as Hnan. unfold more_urgent. split.
  - intros x y (jx & Hx)%Hl (jy & Hy)%Hl. rewrite Hx, Hy. apply dltb_asym; eauto.
  - intros x y z (jx & Hx)%Hl (jy & Hy)%Hl (jz & Hz)%Hl. rewrite Hx, Hy, Hz. intros H1 H2.
    apply (dltb_false_trans _ (Job.prio jy)); eauto.
Qed.

(** Which Wantable jobs are taken: the most urgent, up to the build threads. *)
Record Chosen (F : gset N) (e : executor) (chosen : list N) (e' : executor) : Prop := mkChosen {
  ch_inv : Inv [] [] 0 [] (list_to_set chosen ∪ F) e';
  ch_frame : frame0 e e';
  ch_cancels : cancels e' = [];
  ch_nodup : NoDup chosen;
  ch_wantable : ∀ j, j ∈ chosen → state_is e j Wantable;
  ch_wants : wants chosen e e';
  ch_active : active e' = (active e + vlen chosen)%N;
  ch_urgent : ∀ (c u : N) jc ju, c ∈ chosen → u ∉ chosen →
    jobs e !! c = Some jc → jobs e !! u = Some ju → Job.state ju = Wantable →
    dltb (Job.prio jc) (Job.prio ju) = false;
  ch_all : active e' = Cfg.threads (cfg e) ∨ ∀ j, state_is e j Wantable → j ∈ chosen;
}.

(** The part of [takeWants] after the placed jobs. *)
Lemma takeWants_rest srt F out e :
  Inv [] [] 0 [] F e → stream e = true → cancels e = [] →
  wp (w ← gets wantable;
      forM_ w (λ jid, job_at jid;; mret tt);;
      modify (λ e, with_wantable (filter (λ jid, still_wantable e jid = true) (wantable e)) e);;
      e ← get;
      let room := N.min (vlen (wantable e))
                        (if (active e <? Cfg.threads (cfg e))%N then (Cfg.threads (cfg e) - active e)%N
                         else 0%N) in
      let sorted := partial_sort srt (more_urgent e) (N.to_nat room) (wantable e) in
      modify (with_wantable sorted);;
      forM_ (take (N.to_nat room) sorted) want_job;;
      modify (λ e, with_wantable (drop (N.to_nat room) (wantable e)) e);;
      mret (out ++ take (N.to_nat room) sorted))
     (λ r e', ∃ chosen, r = out ++ chosen ∧ Chosen F e chosen e') e.
Proof.
  intros HI Hstr Hc. pose proof (i_wantable _ _ _ _ _ _ HI) as HL.
  wp_steps. apply wp_visit.
  { apply Forall_forall. intros j Hj. destruct HL as (_ & _ & Hout). destruct (Hout j Hj) as (job & -> & _). by eexists. }
  wp_steps. set (l := filter _ _). set (e2 := with_wantable l e).
  destruct (Listed_filter e (wantable e) HL) as [HL2 Hiff]. fold l in HL2, Hiff.
  change (wantable e2) with l. change (active e2) with (active e). change (cfg e2) with (cfg e).
  cbv zeta. set (room := N.min _ _). set (sorted := partial_sort _ _ _ _).
  assert (sorted ≡ₚ l) as Hperm by apply partial_sort_perm.
  assert (Inv [] [] 0 [] F (with_wantable sorted e2)) as HI3.
  { apply (Inv_wantable F e sorted HI). by eapply Listed_perm. }
  wp_steps. set (chosen := take (N.to_nat room) sorted). set (tl := drop (N.to_nat room) sorted).
  assert (chosen ++ tl = sorted) as Hct by apply take_drop.
  assert (vlen chosen = room) as Hroom.
  { unfold vlen, chosen. rewrite length_take, (Permutation_length Hperm).
    unfold room, vlen. lia. }
  assert (∀ j, j ∈ sorted ↔ state_is e j Wantable) as Hin by (intros j; by rewrite Hperm).
  pose proof (i_threads _ _ _ _ _ _ HI) as Hthr.
  assert (active e + vlen chosen ≤ Cfg.threads (cfg e))%N as Hle.
  { rewrite Hroom. unfold room. destruct (N.ltb_spec (active e) (Cfg.threads (cfg e))); lia. }
  eapply wp_mono; [apply (want_jobs_spec F (with_wantable sorted e2) chosen tl); try done|].
  - by rewrite Hct.
  - apply Forall_forall. intros j Hj. apply Hin. rewrite <- Hct. apply elem_of_app. by left.
  - intros _ e' (HI' & Hact & Hfr & Hwl & Hc' & Hw). wp_steps. simpl in Hwl.
    exists chosen. split; [done|]. split; try done.
    + by rewrite Hwl.
    + pose proof (i_wantable _ _ _ _ _ _ HI3) as (Hnd & _). simpl in Hnd. rewrite <- Hct in Hnd.
      by apply NoDup_app in Hnd as [? _].
    + intros j Hj. apply Hin. rewrite <- Hct. apply elem_of_app. by left.
    + intros c u jc ju Hcin Hu Hjc Hju Hsu.
      destruct (more_urgent_order _ _ _ _ _ e2 l (Inv_wantable F e l HI HL2)) as [Ho1 Ho2].
      { intros j (job & ? & _)%Hiff. by exists job. }
      assert (u ∈ tl) as Htl.
      { assert (u ∈ sorted) as Hus by (apply Hin; by exists ju). rewrite <- Hct in Hus.
        apply elem_of_app in Hus. naive_solver. }
      pose proof (partial_sort_sorted srt (more_urgent e2) (N.to_nat room) l Ho1 Ho2 c u Hcin Htl) as Hsort.
      unfold more_urgent in Hsort. simpl in Hsort. by rewrite Hju, Hjc in Hsort.
    + destruct (decide (room = vlen l)) as [Hall|Hpart].
      * right. intros j Hj%Hin. rewrite <- Hct in Hj. apply elem_of_app in Hj as [?|Hj]; [done|].
        unfold tl in Hj. rewrite drop_ge in Hj; [by apply elem_of_nil in Hj|].
        rewrite (Permutation_length Hperm), Hall. unfold vlen. lia.
      * left. simpl. rewrite Hact, Hroom. simpl. unfold room in *.
        destruct (N.ltb_spec (active e) (Cfg.threads (cfg e))); lia.
Qed.

(** What [takeWants] returns: every placed job after a connect, and the chosen ones. *)
Lemma takeWants_spec srt F e :
  Conn F e → cancels e = [] → (stream e = false → rewant e = []) →
  wp (takeWants srt) (λ out e',
    if stream e then ∃ e1 chosen, out = rewant e ++ chosen ∧ wants [] e e1 ∧ active e1 = active e ∧
      frame0 e e1 ∧ Chosen (list_to_set (rewant e) ∪ F) e1 chosen e'
    else out = [] ∧ e' = e) e.
Proof.
  intros [HI Hrw] Hc Hr. unfold takeWants. wp_steps. destruct (stream e) eqn:Hs; [|by apply wp_ret].
  wp_steps. eapply wp_mono; [by apply (rewant_spec F (with_rewant [] e) (rewant e))|].
  intros _ e1 (HI1 & Hfr & Hc1 & Ha1 & Hw1 & Hws).
  eapply wp_mono; [apply (takeWants_rest srt (list_to_set (rewant e) ∪ F) (rewant e) e1 HI1); [|done]|].
  - destruct Hfr as (_ & _ & ->). done.
  - intros out e' (chosen & -> & HC). by exists e1, chosen.
Qed.

(** ** Visiting every job *)

Lemma evolve_wanted stop j j' since r :
  evolve stop j j' → Job.state j' = Wanted since r → Job.state j = Wanted since r.
Proof.
  intros (_ & _ & _ & H) Hs. rewrite Hs in H. destruct (Job.state j); naive_solver.
Qed.

(** No overdue job is left among those visited, and the executor is to be called
    again before the next one is due. *)
Definition reaped (now grace wake : Z) (rest : list N) (e : executor) : Prop :=
  (wake ≤ now + grace)%Z ∧
  ∀ (j : N) since r, state_is e j (Wanted (Some since) r) → j ∉ rest →
    (now < since + grace ∧ wake ≤ since + grace)%Z.

Lemma reap_job_spec F now grace wake jid rest e :
  Inv [] [] 0 [] F e → (jid < vlen (jobs e))%N → reaped now grace wake (jid :: rest) e →
  wp (reap_job now grace wake jid) (λ wake' e', Inv [] [] 0 [] F e' ∧ frame0 e e' ∧
    reaped now grace wake' rest e' ∧ still e e') e.
Proof.
  intros HI Hlt [Hwake Hre]. destruct (proj2 (vlookup_lt (jobs e) jid) Hlt) as [job Hj].
  assert (∀ wake', (wake' ≤ wake)%Z → (∀ since r, Job.state job = Wanted (Some since) r →
    now < since + grace ∧ wake' ≤ since + grace)%Z → reaped now grace wake' rest e) as Hskip.
  { intros wake' Hw Hjid. split; [lia|]. intros j since r Hs Hin.
    destruct (decide (j = jid)) as [->|Hne].
    - destruct Hs as (job' & ? & ?). simplify_eq. by eapply Hjid.
    - destruct (Hre j since r Hs); [|lia]. rewrite elem_of_cons. naive_solver. }
  pose proof (still_refl e) as Hstill.
  unfold reap_job. wp_step. eapply wp_job_at; [done|].
  destruct (Job.state job) as [| |[since|] r| | |] eqn:Hs;
    try (apply wp_ret; split_and!; [done..| |done]; apply Hskip; [lia|congruence]).
  destruct (Z.ltb_spec now (since + grace)).
  { apply wp_ret. split_and!; [done..| |done]. apply Hskip; [lia|]. intros ?? [= <- <-]. lia. }
  wp_step. eapply wp_mono; [apply (settle_spec [] F jid _ job e 0); [by eapply inv_one|done|done]|].
  rewrite Hs. simpl. intros _ e' (HI' & Hev & job' & Hj' & Hs' & _). wp_steps.
  split_and!; [done|by eapply Evolves_frame0| |].
  - split; [done|]. intros j since' r' (jb & Hjb & Hsb) Hin. destruct (decide (j = jid)) as [->|Hne].
    { simplify_eq. congruence. }
    assert (∃ jb0, jobs e !! j = Some jb0) as [jb0 Hjb0].
    { apply vlookup_lt. rewrite <- (ev_len _ _ _ Hev). by eapply vlookup_lt_Some. }
    destruct (ev_jobs _ _ _ Hev j jb0 Hjb0) as (jb1 & ? & Hevj); [naive_solver|]. simplify_eq.
    apply (Hre j since' r'); [|rewrite elem_of_cons; naive_solver].
    exists jb0. split; [done|]. by eapply evolve_wanted.
  - apply (Evolves_still e e' jid job (Job.state job') Hev Hj); [by exists job'| |by rewrite Hs, Hs'].
    rewrite Hs, Hs'. by intros ? [= <-].
Qed.

Lemma reap_spec F now grace e :
  Inv [] [] 0 [] F e →
  wp (reap now grace) (λ wake e', Inv [] [] 0 [] F e' ∧ frame0 e e' ∧ still e e' ∧
    reaped now grace wake [] e') e.
Proof.
  intros HI. unfold reap. wp_steps.
  eapply wp_mono; [apply (wp_foldM _ (λ rest wake e', Forall (λ j, j < vlen (jobs e))%N rest ∧
    Inv [] [] 0 [] F e' ∧ frame0 e e' ∧ still e e' ∧ reaped now grace wake rest e'))|].
  - split_and!; try done.
    + apply Forall_forall. intros j Hj%elem_of_range. lia.
    + apply still_refl.
    + split; [lia|]. intros j since r (job & Hj & _) Hin. exfalso. apply Hin, elem_of_range.
      apply vlookup_lt_Some in Hj. lia.
  - intros jid rest wake e' ([Hlt Hrest]%Forall_cons & HI' & Hfr & Hcm & Hre).
    eapply wp_mono; [apply (reap_job_spec F now grace wake jid rest e'); try done|].
    + destruct Hfr as (-> & _). done.
    + intros wake' e'' (? & ? & ? & ?). split_and!; try done; [by eapply frame0_trans|by eapply still_trans].
  - by intros wake e' (_ & ? & ? & ? & ?).
Qed.

(** [Executor::abandon]: what waits for the scheduler ends, what is placed goes on. *)
Lemma Inv_visited F e j job Y :
  Inv [] (j :: Y) 0 [] F e → jobs e !! j = Some job → unplaced (Job.state job) = false →
  Inv [] Y 0 [] F e.
Proof.
  intros HI Hj Hu. pose proof (i_gone _ _ _ _ _ _ HI) as Hg. destruct HI. split; try done.
  intros Hab i job' Hi Hu'. specialize (Hg Hab i job' Hi Hu'). simpl in *.
  apply elem_of_cons in Hg as [->|?]; [|done]. simplify_eq. congruence.
Qed.

Lemma abandon_job_spec F jid Y e :
  Inv [] (jid :: Y) 0 [] F e → abandoned e = true → (jid < vlen (jobs e))%N →
  wp (abandon_job jid) (λ _ e', Inv [] Y 0 [] F e' ∧ frame0 e e' ∧ abandoned e' = true ∧ still e e' ∧
    ∀ j s, state_is e j s → is_done s || is_running s = true → state_is e' j s) e.
Proof.
  intros HI Hab Hlt. destruct (proj2 (vlookup_lt (jobs e) jid) Hlt) as [job Hj].
  unfold abandon_job. wp_step. eapply wp_job_at; [done|].
  assert (unplaced (Job.state job) = true → wp (settle jid lostDone) (λ _ e',
    Inv [] Y 0 [] F e' ∧ frame0 e e' ∧ abandoned e' = true ∧ still e e' ∧
    ∀ j s, state_is e j s → is_done s || is_running s = true → state_is e' j s) e) as Hset.
  { intros Hu. assert (is_done (Job.state job) = false) as Hd by by destruct (Job.state job).
    eapply wp_mono; [apply (settle_spec (jid :: Y) F jid _ job e 0); [by eapply inv_one|done|done]|].
    rewrite Hd. intros _ e' (HI' & Hev & job' & Hj' & Hs' & _). split_and!.
    - apply (Inv_visited F e' jid job'); [done..|]. by rewrite Hs'.
    - by eapply Evolves_frame0.
    - by rewrite (ev_abandoned _ _ _ Hev).
    - apply (Evolves_still e e' jid job (Job.state job') Hev Hj); [by exists job'| |]; rewrite Hs';
        destruct (Job.state job); try done; by intros ? [= <-].
    - intros j s (jb & Hjb & <-) Hdr. destruct (decide (j = jid)) as [->|Hne].
      { simplify_eq. by destruct (Job.state job). }
      destruct (ev_jobs _ _ _ Hev j jb Hjb) as (jb1 & ? & _ & _ & _ & Hm); [naive_solver|].
      exists jb1. split; [done|]. by destruct (Job.state jb). }
  assert (unplaced (Job.state job) = false → Inv [] Y 0 [] F e) by (intros Hu; by eapply Inv_visited).
  destruct (Job.state job); first [by apply Hset|apply wp_ret; split_and!; auto; [apply frame0_refl|apply still_refl]].
Qed.

Lemma abandon_spec F e :
  Inv [] [] 0 [] F e →
  wp abandon (λ _ e', Inv [] [] 0 [] F e' ∧ frame0 e e' ∧ abandoned e' = true ∧ still e e' ∧
    ∀ j s, state_is e j s → is_done s || is_running s = true → state_is e' j s) e.
Proof.
  intros HI. unfold abandon. wp_steps. simpl.
  eapply wp_mono; [apply (wp_forM _ (λ rest e', Forall (λ j, j < vlen (jobs e))%N rest ∧
    Inv [] rest 0 [] F e' ∧ frame0 e e' ∧ abandoned e' = true ∧ still e e' ∧
    ∀ j s, state_is e j s → is_done s || is_running s = true → state_is e' j s))|].
  - split_and!; try done.
    + apply Forall_forall. intros j Hj%elem_of_range. lia.
    + destruct HI. split; try done.
      * intros j job d Hj Hd. specialize (i_just j job d Hj Hd). unfold just in *.
        destruct (Done.outcome d); naive_solver.
      * intros _ j job Hj _. simpl. apply elem_of_range. apply vlookup_lt_Some in Hj. simpl in Hj. lia.
    + exact (still_refl e).
  - intros jid rest e' ([Hlt Hrest]%Forall_cons & HI' & Hfr & Hab & Hcm & Hk).
    eapply wp_mono; [apply (abandon_job_spec F jid rest e'); try done|].
    + destruct Hfr as (-> & _). done.
    + intros _ e'' (? & ? & ? & ? & Hk'). split_and!; try done; [by eapply frame0_trans|by eapply still_trans|].
      eauto.
  - by intros _ e' (_ & ? & ? & ? & ? & ?).
Qed.

(** * Who waits for whom

    The edges of the graph never change except in [add] and [blockOn], and without
    cycles some job can always make progress. *)

(** ** The edges stay *)

Lemma keeps_onAssigned jid p : keeps deps_same (onAssigned jid p).
Proof.
  apply keeps_job_at. intros e j Hj. case_decide; [reflexivity|].
  destruct (Job.state j); try reflexivity; [|by apply (keeps_set_job e jid j)|].
  - match goal with |- deps_same ?e1 (exec ?m ?e1) => assert (keeps deps_same m) as H'; [|apply H'] end.
    unfold push_ready. keeps.
  - case_decide; [reflexivity|]. by apply (keeps_set_job e jid j).
Qed.

Lemma keeps_onCached jid : keeps deps_same (onCached jid).
Proof. unfold onCached. keeps. Qed.

Lemma keeps_onUnplaceable jid reason now : keeps deps_same (onUnplaceable jid reason now).
Proof.
  apply keeps_job_at. intros e j Hj. destruct (Job.state j); try reflexivity.
  unfold exec, mbind, M_bind, set_job, set_at. rewrite Hj. simpl.
  by eapply (deps_same_set _ _ jid j (Job.with_state _ j)).
Qed.

Lemma keeps_onPlaceable jid : keeps deps_same (onPlaceable jid).
Proof.
  apply keeps_job_at. intros e j Hj. destruct (Job.state j); try reflexivity.
  by apply (keeps_set_job e jid j).
Qed.

Lemma keeps_finished jid ok : keeps deps_same (finished jid ok).
Proof. unfold finished. keeps. Qed.

Lemma keeps_bounced jid : keeps deps_same (bounced jid).
Proof.
  apply keeps_job_at. intros e j Hj. destruct (Job.state j) as [| | | |q [p|]|]; try reflexivity.
  - match goal with |- deps_same ?e1 (exec ?m ?e1) => assert (keeps deps_same m) as H'; [|apply H'] end.
    unfold push_ready. keeps.
  - cbv zeta. unfold exec, mbind at 1, M_bind at 1, set_job, set_at. rewrite Hj. simpl.
    etrans; [by apply (deps_same_set e (with_jobs (<[jid := Job.with_bounced (u32 (Job.bounced j + 1)) j]> (jobs e)) e)
      jid j (Job.with_bounced (u32 (Job.bounced j + 1)) j))|].
    match goal with |- deps_same ?e1 (?m ?e1).1 => assert (keeps deps_same m) as H' by keeps; apply H' end.
Qed.

Lemma keeps_reap now grace : keeps deps_same (reap now grace).
Proof. unfold reap, reap_job. keeps. Qed.

Lemma keeps_abandon : keeps deps_same abandon.
Proof. unfold abandon, abandon_job. keeps. Qed.

Lemma keeps_next_loop q : keeps deps_same (next_loop q).
Proof. induction q; simpl; keeps. Qed.

Lemma keeps_next : keeps deps_same next.
Proof. unfold next. apply keeps_bind; [apply _|apply keeps_gets; apply _|]. intros. apply keeps_next_loop. Qed.

Lemma keeps_connected : keeps deps_same connected.
Proof. unfold connected, connected_job, push_wantable. keeps. Qed.

Lemma keeps_disconnected : keeps deps_same disconnected.
Proof.
  intros e. unfold exec, disconnected, mbind, M_bind, modify. simpl. split.
  - unfold vlen. simpl. by rewrite length_fmap.
  - intros j job Hj. exists (Job.with_followed false job). split; [|done]. simpl.
    apply lookup_unfollowed. by eexists.
Qed.

Lemma keeps_unsent ids : keeps deps_same (unsent ids).
Proof. unfold unsent, push_wantable. keeps. Qed.

Lemma keeps_takeCancels : keeps deps_same takeCancels.
Proof. unfold takeCancels. keeps. Qed.

Lemma keeps_takeWants srt : keeps deps_same (takeWants srt).
Proof. unfold takeWants, want_job. keeps. Qed.

(** ** Waiting *)

(** [x] waits for [y] to end. *)
Definition waits (e : executor) (x y : N) : Prop :=
  ∃ jj, jobs e !! y = Some jj ∧ is_done (Job.state jj) = false ∧ x ∈ Job.dependants jj.

Definition acyclic (e : executor) : Prop := ∀ x, Acc (λ y x, waits e x y) x.

(** A rank of the jobs that goes down along every edge. *)
Lemma ranked_acyclic e (rk : N → option nat) :
  (∀ (y x : N) jy, jobs e !! y = Some jy → x ∈ Job.dependants jy →
     ∃ ry rx, rk y = Some ry ∧ rk x = Some rx ∧ ry < rx) → acyclic e.
Proof.
  intros Hr. assert (∀ n x, (∀ r, rk x = Some r → r < n) → Acc (λ y x, waits e x y) x) as H.
  { induction n as [|n IH]; intros x Hx; constructor; intros y (jy & Hy & _ & Hin);
      destruct (Hr y x jy Hy Hin) as (ry & rx & Ey & Ex & Hlt); specialize (Hx rx Ex); [lia|].
    apply IH. intros r Er. simplify_eq. lia. }
  intros x. apply (H (S (default 0 (rk x)))). intros r ->. simpl. lia.
Qed.

(** Without a cycle some job that is not done is not blocked either. *)
Lemma not_all_blocked F e :
  Inv [] [] 0 [] F e → acyclic e → remaining e ≠ 0%N →
  ∃ j s, state_is e j s ∧ (s = Wantable ∨ isActive s = true).
Proof.
  intros HI Ha Hrem. rewrite (i_remaining _ _ _ _ _ _ HI) in Hrem.
  destruct (wsum_pos undone (jobs e)) as (x & job & Hx & Hu); [lia|].
  assert (is_done (Job.state job) = false) as Hd by (unfold undone in Hu; destruct (is_done _); [lia|done]).
  clear Hu Hrem. specialize (Ha x). induction Ha as [x _ IH] in job, Hx, Hd |- *.
  destruct (Job.state job) as [w| | | | |] eqn:Hs; try done.
  2-5: exists x, (Job.state job); (split; [by exists job|]); rewrite Hs; auto.
  pose proof (i_blk _ _ _ _ _ _ HI x job Hx) as Hb. rewrite Hs in Hb. destruct Hb as (Hw & _ & H0).
  rewrite count_nil in Hw. destruct (decide (0 < indeg (jobs e) x)) as [Hpos|Hz].
  - apply wsum_pos in Hpos as (y & jj & Hy & He). unfold edges in He.
    destruct (is_done (Job.state jj)) eqn:Hdj; [lia|]. apply count_pos in He.
    by eapply (IH y); [exists jj|..].
  - destruct (proj1 (elem_of_nil x)). apply H0. lia.
Qed.

(** ** The new edges *)

Definition depends (e : executor) (x y : N) : Prop :=
  ∃ jy, jobs e !! y = Some jy ∧ x ∈ Job.dependants jy.

Lemma depends_same e e' x y : deps_same e e' → depends e' x y → depends e x y.
Proof.
  intros [Hv Hd] (jy' & Hy' & Hin). assert (∃ jy, jobs e !! y = Some jy) as [jy Hy].
  { apply vlookup_lt. rewrite <- Hv. by eapply vlookup_lt_Some. }
  destruct (Hd y jy Hy) as (jy2 & ? & E). simplify_eq. exists jy. by rewrite <- E.
Qed.

Lemma blocked_on_depends jid input job e x y :
  jobs e !! jid = Some job →
  depends (blocked_on jid input job e) x y → depends e x y ∨ (x = jid ∧ y = input).
Proof.
  intros Hj. unfold blocked_on.
  set (eA := moved jid (Blocked 1) (Job.with_followed false job) (unfollowed jid job e)).
  set (b := Job.with_state (Blocked 1) (Job.with_followed false job)).
  assert (jobs eA = <[jid := b]> (jobs e)) as HjsA by (simpl; by rewrite vinsert_insert).
  assert (∀ x y, depends eA x y → depends e x y) as HA.
  { intros x' y' (jj & Hjj & Hin). rewrite HjsA in Hjj.
    apply (lookup_replace _ _ _ _ Hj) in Hjj as [[-> ->]|[_ ?]]; [by exists job|by exists jj]. }
  destruct (jobs eA !! input) as [inp|] eqn:Hin; [|by auto].
  intros (jj & Hjj & Hx). simpl in Hjj. rewrite vinsert_insert in Hjj.
  change (<[jid := _]> (jobs e)) with (<[jid := b]> (jobs e)) in Hjj. rewrite <- HjsA in Hjj.
  apply (lookup_replace _ _ _ _ Hin) in Hjj as [[-> ->]|[_ ?]]; [|left; apply HA; by exists jj].
  simpl in Hx. apply elem_of_app in Hx as [Hx|Hx]; [left; apply HA; by exists inp|right].
  by apply list_elem_of_singleton in Hx.
Qed.
