(* ===== verification/ExecFollow.v ===== *)
(** * Active jobs are followed

    While a stream is up every Wanted, Assigned or Running job is one that the
    scheduler was told about, but for the jobs in [rewant], which the next
    [takeWants] sends.  The operations keep this; [connected] establishes it. *)

From S2P Require Import Prelude Double Exec ExecInv.

Definition ActFol (e : executor) : Prop :=
  stream e = true → ∀ (j : N) job, jobs e !! j = Some job → isActive (Job.state job) = true →
    Job.followed job = true ∨ j ∈ rewant e.

Definition follow_step (e e' : executor) : Prop := ActFol e → ActFol e'.

#[export] Instance follow_step_preorder : PreOrder follow_step.
Proof. split; unfold follow_step; [by intros e|]. intros e1 e2 e3. auto. Qed.

Create HintDb follows discriminated.

(** ** Single jobs *)

(** A job that was not active does not become active, or is followed. *)
Definition follow_ok (a b : Job.t) : Prop :=
  isActive (Job.state b) = true →
  Job.followed b = true ∨ (isActive (Job.state a) = true ∧ Job.followed b = Job.followed a).

Lemma follow_set e e' jid a b :
  jobs e !! jid = Some a → jobs e' = <[jid := b]> (jobs e) → stream e' = stream e → rewant e' = rewant e →
  follow_ok a b → follow_step e e'.
Proof.
  intros Hj Hjs Hs Hr Hok HA Hstr j job Hjob Hact. rewrite Hs in Hstr. rewrite Hr. rewrite Hjs in Hjob.
  apply (lookup_replace _ _ _ _ Hj) in Hjob as [[-> ->]|[_ Hjob]]; [|by eapply HA].
  destruct (Hok Hact) as [?|[Ha E]]; [by left|]. rewrite E. by eapply HA.
Qed.

Lemma follow_jobs e e' : jobs e' = jobs e → stream e' = stream e → rewant e' = rewant e → follow_step e e'.
Proof. unfold follow_step, ActFol. by intros -> -> ->. Qed.

Lemma follow_upd_job jid f : (∀ j, follow_ok j (f j)) → keeps follow_step (upd_job jid f).
Proof.
  intros Hf e. unfold exec, upd_job, job_at, set_job, at_, set_at, mbind, M_bind.
  destruct (jobs e !! jid) as [j|] eqn:Hj; simpl; [|reflexivity]. rewrite Hj. simpl.
  by apply (follow_set _ _ jid j (f j)).
Qed.

Lemma follow_job_at {A} jid (k : Job.t → M executor A) :
  (∀ e j, jobs e !! jid = Some j → follow_step e (exec (k j) e)) → keeps follow_step (job_at jid ≫= k).
Proof.
  intros Hk e. unfold exec, job_at, at_, mbind, M_bind.
  destruct (jobs e !! jid) as [j|] eqn:Hj; simpl; [|reflexivity]. by apply Hk.
Qed.

Lemma follow_set_job e jid a b :
  jobs e !! jid = Some a → follow_ok a b → follow_step e (exec (set_job jid b) e).
Proof.
  intros Hj Hok. destruct (exec_set_job jid b e) as [E|E]; rewrite E; [|reflexivity].
  by apply (follow_set _ _ jid a b).
Qed.

(** What [to] leaves. *)
Lemma exec_to jid next a e :
  jobs e !! jid = Some a →
  ∃ n, to jid next e = (with_active n (with_jobs (<[jid := Job.with_state next a]> (jobs e)) e), Ok tt).
Proof.
  intros Hj. unfold to, job_at, at_, set_job, set_at, mbind, M_bind, modify. rewrite Hj. simpl. rewrite Hj.
  eexists. reflexivity.
Qed.

Lemma follow_to_at e jid next a :
  jobs e !! jid = Some a → isActive next = false ∨ isActive (Job.state a) = true →
  follow_step e (exec (to jid next) e).
Proof.
  intros Hj Hn. destruct (exec_to jid next a e Hj) as [n E]. unfold exec. rewrite E.
  apply (follow_set _ _ jid a (Job.with_state next a)); try done. intros H. simpl in *. right.
  destruct Hn; [congruence|done].
Qed.

Lemma follow_to jid next : isActive next = false → keeps follow_step (to jid next).
Proof.
  intros Hn e. destruct (jobs e !! jid) as [a|] eqn:Hj; [by apply (follow_to_at e jid next a); auto|].
  unfold exec, to, job_at, at_, mbind, M_bind. rewrite Hj. reflexivity.
Qed.
#[export] Hint Extern 1 (keeps follow_step (to _ _)) => apply follow_to; reflexivity : follows.

(** A continuation after steps that are known to succeed. *)
Lemma exec_then {A B} (m : M executor A) (k : A → M executor B) e e1 a :
  m e = (e1, Ok a) → exec (m ≫= k) e = exec (k a) e1.
Proof. intros E. unfold exec, mbind, M_bind. by rewrite E. Qed.

Lemma exec_unfollow jid a e :
  jobs e !! jid = Some a →
  ∃ cs, unfollow jid e = (with_cancels cs (with_jobs (<[jid := Job.with_followed false a]> (jobs e)) e), Ok tt).
Proof.
  intros Hj. unfold unfollow, job_at, at_, set_job, set_at, mbind, M_bind. rewrite Hj. simpl. rewrite Hj.
  destruct (Job.followed a); [by eexists|]. exists (cancels e). by destruct e.
Qed.

(** A job is unfollowed when it stops being active. *)
Lemma follow_unfollow_to {B} jid next (k : () → M executor B) :
  isActive next = false → keeps follow_step (k tt) →
  keeps follow_step (unfollow jid ≫= λ _, to jid next ≫= k).
Proof.
  intros Hn Hk e. destruct (jobs e !! jid) as [a|] eqn:Hj.
  2:{ unfold exec, unfollow, job_at, at_, mbind, M_bind. rewrite Hj. reflexivity. }
  destruct (exec_unfollow jid a e Hj) as [cs E]. rewrite (exec_then _ _ _ _ _ E).
  set (e1 := with_cancels cs _). assert (jobs e1 !! jid = Some (Job.with_followed false a)) as Hj1
    by (apply vlookup_insert_eq; by eapply vlookup_lt_Some).
  destruct (exec_to jid next _ e1 Hj1) as [n E1]. rewrite (exec_then _ _ _ _ _ E1).
  etrans; [|apply Hk]. eapply (follow_set e _ jid a); [done|..]; try done.
  - simpl. by rewrite vinsert_insert.
  - intros H. simpl in H. congruence.
Qed.

Lemma follow_unfollow_end jid next :
  isActive next = false → keeps follow_step (unfollow jid ≫= λ _, to jid next).
Proof.
  intros Hn e. replace (exec (unfollow jid ≫= λ _, to jid next) e)
    with (exec (unfollow jid ≫= λ _, to jid next ≫= mret) e).
  - apply follow_unfollow_to; [done|apply keeps_ret; apply _].
  - unfold exec, mbind, M_bind. destruct (unfollow jid e) as [e1 [[]|]]; [|done].
    by destruct (to jid next e1) as [e2 [[]|]].
Qed.

Ltac follows_step :=
  first
  [ by eauto with follows
  | apply follow_unfollow_to; [reflexivity|]
  | apply follow_unfollow_end; reflexivity
  | apply follow_upd_job; by (intros [[]]; intros ?; simpl in *; auto)
  | apply keeps_bind; [apply _| |intros ?]
  | apply keeps_ret; apply _ | apply keeps_throw; apply _ | apply keeps_get; apply _
  | apply keeps_gets; apply _ | apply keeps_expect; apply _
  | apply keeps_modify; intros ?; apply follow_jobs; reflexivity
  | apply keeps_forM; [apply _|intros ?] | apply keeps_foldM; [apply _|intros ? ?]
  | case_match ].
Ltac follows := repeat follows_step.

Lemma follow_read jid : keeps follow_step (job_at jid).
Proof. intros e. unfold exec, job_at, at_. destruct (jobs e !! jid); reflexivity. Qed.
#[export] Hint Resolve follow_read : follows.

(** ** Ending jobs *)

Lemma follow_unblock jid : keeps follow_step (unblock jid).
Proof. unfold unblock, push_wantable. follows. Qed.
#[export] Hint Resolve follow_unblock : follows.

Lemma follow_releaseDependants jid fail work : keeps follow_step (releaseDependants jid fail work).
Proof. unfold releaseDependants, releaseDependant. follows. Qed.
#[export] Hint Resolve follow_releaseDependants : follows.

Lemma follow_stopAll work : keeps follow_step (stopAll work).
Proof. unfold stopAll. follows. Qed.
#[export] Hint Resolve follow_stopAll : follows.

Lemma follow_settle_step jid d work : keeps follow_step (settle_step jid d work).
Proof. unfold settle_step. cbv zeta. follows. Qed.
#[export] Hint Resolve follow_settle_step : follows.

Lemma follow_settle_loop fuel work : keeps follow_step (settle_loop fuel work).
Proof.
  revert work. induction fuel as [|fuel IH]; intros [|[jid d] work]; simpl; follows.
Qed.

Lemma follow_settle jid d : keeps follow_step (settle jid d).
Proof.
  unfold settle. apply keeps_bind; [apply _|apply keeps_gets; apply _|]. intros. apply follow_settle_loop.
Qed.
#[export] Hint Resolve follow_settle : follows.

Lemma follow_release jid : keeps follow_step (release jid).
Proof. unfold release. follows. Qed.
#[export] Hint Resolve follow_release : follows.

(** ** The other operations *)

Lemma follow_pushed e prio :
  follow_step e (with_jobs (jobs e ++ [Job.mk (Blocked 0) prio [] None 0 false]) e).
Proof.
  intros HA Hs j job Hj Hact. simpl in Hj. apply vlookup_snoc_Some in Hj as [Hj|[_ <-]]; [by eapply HA|done].
Qed.

Lemma follow_add prio inputs : keeps follow_step (add prio inputs).
Proof.
  unfold add, add_input. apply keeps_bind; [apply _|apply keeps_gets; apply _|]. intros jid.
  apply keeps_bind; [apply _|apply keeps_modify; intros e; apply follow_pushed|]. intros _. follows.
Qed.

Lemma follow_blockOn jid input : keeps follow_step (blockOn jid input).
Proof. unfold blockOn. follows. Qed.

Lemma follow_onAssigned jid p : keeps follow_step (onAssigned jid p).
Proof.
  apply follow_job_at. intros e j Hj. case_decide; [reflexivity|].
  destruct (Job.state j) eqn:Hs; try reflexivity.
  - unfold exec, mbind, M_bind, modify. simpl. set (e1 := with_progressed _ e).
    destruct (exec_to jid (Assigned p) j e1 Hj) as [n E]. rewrite E. simpl.
    apply (follow_set e _ jid j (Job.with_state (Assigned p) j)); try done. intros _. right. by rewrite Hs.
  - apply (follow_set_job e jid j); [done|]. intros _. right. by rewrite Hs.
  - case_decide; [reflexivity|]. apply (follow_set_job e jid j); [done|]. intros _. right. by rewrite Hs.
Qed.

Lemma follow_onCached jid : keeps follow_step (onCached jid).
Proof. unfold onCached. follows. Qed.

Lemma follow_onUnplaceable jid reason now : keeps follow_step (onUnplaceable jid reason now).
Proof.
  apply follow_job_at. intros e j Hj. destruct (Job.state j) eqn:Hs; try reflexivity.
  unfold exec, mbind, M_bind, set_job, set_at. rewrite Hj. simpl.
  eapply (follow_set _ _ jid j (Job.with_state _ j)); try done. intros _. right. by rewrite Hs.
Qed.

Lemma follow_onPlaceable jid : keeps follow_step (onPlaceable jid).
Proof.
  apply follow_job_at. intros e j Hj. destruct (Job.state j) eqn:Hs; try reflexivity.
  apply (follow_set_job e jid j); [done|]. intros _. right. by rewrite Hs.
Qed.

Lemma follow_reap now grace : keeps follow_step (reap now grace).
Proof. unfold reap, reap_job. follows. Qed.

Lemma follow_abandon : keeps follow_step abandon.
Proof. unfold abandon, abandon_job. follows. Qed.

Lemma follow_next_loop q : keeps follow_step (next_loop q).
Proof.
  induction q as [|jid q IH]; simpl; [apply keeps_ret; apply _|].
  apply keeps_bind; [apply _|apply keeps_modify; intros e; by apply follow_jobs|]. intros _.
  apply follow_job_at. intros e j Hj. destruct (Job.state j) eqn:Hs; try apply IH.
  destruct (exec_to jid (Running at_ None) j e Hj) as [n E]. rewrite (exec_then _ _ _ _ _ E).
  apply (follow_set e _ jid j (Job.with_state (Running at_ None) j)); try done. intros _. right. by rewrite Hs.
Qed.

Lemma follow_next : keeps follow_step next.
Proof. unfold next. apply keeps_bind; [apply _|apply keeps_gets; apply _|]. intros. apply follow_next_loop. Qed.

Lemma follow_finished jid ok : keeps follow_step (finished jid ok).
Proof. unfold finished. follows. Qed.

Lemma follow_bounced jid : keeps follow_step (bounced jid).
Proof.
  apply follow_job_at. intros e j Hj. destruct (Job.state j) as [| | | |q [p|]|] eqn:Hs; try reflexivity.
  - destruct (exec_to jid (Assigned p) j e Hj) as [n E]. rewrite (exec_then _ _ _ _ _ E).
    apply (follow_set e _ jid j (Job.with_state (Assigned p) j)); try done. intros _. right. by rewrite Hs.
  - cbv zeta. unfold exec, mbind at 1, M_bind at 1, set_job, set_at. rewrite Hj. simpl.
    etrans; [apply (follow_set e (with_jobs (<[jid := Job.with_bounced (u32 (Job.bounced j + 1)) j]> (jobs e)) e)
      jid j (Job.with_bounced (u32 (Job.bounced j + 1)) j)); try done; intros _; right; by rewrite Hs|].
    match goal with |- follow_step ?e1 (?m ?e1).1 => assert (keeps follow_step m) as H' by follows; apply H' end.
Qed.

Lemma follow_disconnected : keeps follow_step disconnected.
Proof. intros e _ Hs. done. Qed.

Lemma follow_takeCancels : keeps follow_step takeCancels.
Proof. unfold takeCancels. follows. Qed.
