(* ===== verification/ClientRun.v ===== *)
(** * The client's run: the executor, the Schedule stream and the build threads

    [GrpcStore::Run] of src/src/client/build.cc.  Every section of code that runs
    under the run's mutex is one operation of the monad [M (run R)], so that the
    interleavings of the threads are the sequences of these operations.

    [R] is nix's [BuildResult].  A job is what [Run] reads of [GrpcStore::Job]: the
    parts of the derivation that a Want carries are lists of strings.  The
    transport is an argument: [ok k] tells whether the [k]-th [Write] of a flush
    succeeds, [size] is the encoded size of the Want for a job.  What was written
    to the current stream is kept in [wire], without batch boundaries. *)

From stdpp Require Import pretty.
From S2P Require Import Prelude Double Exec.

(** ** Jobs and messages *)

Module RJob.
Record t (R : Type) := mk {
  drvPath : string;
  outKeys : list (option string);  (* hash part of each output with a known path *)
  drvInputs : list string;
  features : list string;
  platform : string;
  mode : N;
  inputs : list string;            (* the jobs among its inputs *)
  cpHintMs : N;
  farmInputs : gmap string string; (* output left to the farm -> its derivation *)
  cacheLost : bool;
  result : option R;
}.
Arguments mk {R}.
Arguments drvPath {R}. Arguments outKeys {R}. Arguments drvInputs {R}. Arguments features {R}.
Arguments platform {R}. Arguments mode {R}. Arguments inputs {R}. Arguments cpHintMs {R}.
Arguments farmInputs {R}. Arguments cacheLost {R}. Arguments result {R}.
Definition with_result {R} (v : option R) (j : t R) : t R :=
  mk (drvPath j) (outKeys j) (drvInputs j) (features j) (platform j) (mode j) (inputs j)
     (cpHintMs j) (farmInputs j) (cacheLost j) v.
Definition recovered {R} (hint : N) (j : t R) : t R :=
  mk (drvPath j) (outKeys j) (drvInputs j) (features j) (platform j) (mode j) (inputs j)
     hint (farmInputs j) true (result j).
End RJob.

Module Want.
Record t := mk {
  drv_path : string; out_keys : list string; inputs : list string; required_features : list string;
  cp_hint_ms : N; build_mode : N; system : string;
}.
End Want.

Inductive ClientMsg :=
  | MWant (w : Want.t)
  | MCancel (drv_path : string).

Inductive SchedMsg :=
  | SAssigned (drv_path worker_addr : string) (assign_id : N) (worker_system : string)
  | SCached (drv_path : string)
  | SUnplaceable (drv_path reason : string)
  | SPlaceable (drv_path : string)
  | SOther.

Inductive Attempt (R : Type) :=
  | Built (r : R)
  | Bounced
  | MissingInput (path : string).
Arguments Built {R}. Arguments Bounced {R}. Arguments MissingInput {R}.

Inductive FailureStatus := DependencyFailed | MiscFailure.

(** ** The run *)

Record run (R : Type) := mkRun {
  exe : executor;
  byId : list (RJob.t R);
  byName : gmap string N;
  recovered : gset (N * string);
  closed : bool;           (* WritesDone sent *)
  stream_ : bool;          (* stream != nullptr *)
  wire : list ClientMsg;   (* written to the current stream *)
}.
Arguments mkRun {R}. Arguments exe {R}. Arguments byId {R}. Arguments byName {R}.
Arguments recovered {R}. Arguments closed {R}. Arguments stream_ {R}. Arguments wire {R}.

Section Setters.
Context {R : Type}.
Definition with_exe v (r : run R) : run R := mkRun v (byId r) (byName r) (recovered r) (closed r) (stream_ r) (wire r).
Definition with_byId v (r : run R) : run R := mkRun (exe r) v (byName r) (recovered r) (closed r) (stream_ r) (wire r).
Definition with_byName v (r : run R) : run R := mkRun (exe r) (byId r) v (recovered r) (closed r) (stream_ r) (wire r).
Definition with_recovered v (r : run R) : run R := mkRun (exe r) (byId r) (byName r) v (closed r) (stream_ r) (wire r).
Definition with_closed v (r : run R) : run R := mkRun (exe r) (byId r) (byName r) (recovered r) v (stream_ r) (wire r).
Definition with_stream_ v (r : run R) : run R := mkRun (exe r) (byId r) (byName r) (recovered r) (closed r) v (wire r).
Definition with_wire v (r : run R) : run R := mkRun (exe r) (byId r) (byName r) (recovered r) (closed r) (stream_ r) v.
End Setters.

Definition maxBatchBytes : N := (4 * 2 ^ 20)%N.

Module Run.
Section Run.
Context {R : Type}.

Definition on_exe {A} (m : M executor A) : M (run R) A := zoom exe with_exe m.
Definition job_of (jid : N) : M (run R) (RJob.t R) := at_ byId jid.

(** [Run::fillWant] *)
Definition fillWant (job : RJob.t R) : Want.t :=
  Want.mk (RJob.drvPath job)
    (if RJob.cacheLost job then []
     else (λ part, part +:+ ".narinfo") <$> omap id (RJob.outKeys job))
    (RJob.drvInputs job) (RJob.features job) (RJob.cpHintMs job) (RJob.mode job) (RJob.platform job).

(** The local variables of [flushLocked]. *)
Record batch_ := mkBatch { msgs : list ClientMsg; bytes : N; sent : list N; writes : nat }.

Definition write (ok : nat → bool) (b : batch_) : M (run R) batch_ :=
  str ← gets stream_;
  (if str && negb (bool_decide (msgs b = [])) then
     if ok (writes b) then modify (λ r, with_wire (wire r ++ msgs b) r)
     else modify (with_stream_ false);; on_exe disconnected
   else mret tt);;
  str' ← gets stream_;
  (if str' : bool then mret tt else on_exe (unsent (sent b)));;
  mret (mkBatch [] 0 [] (if str && negb (bool_decide (msgs b = [])) then S (writes b) else writes b)).

Definition add_want (ok : nat → bool) (size : N → N) (b : batch_) (jid : N) : M (run R) batch_ :=
  job ← job_of jid;
  let b' := mkBatch (msgs b ++ [MWant (fillWant job)]) (u64 (bytes b + size jid)) (sent b ++ [jid]) (writes b) in
  if (maxBatchBytes <=? bytes b')%N then write ok b' else mret b'.

Definition add_cancel (b : batch_) (jid : N) : M (run R) batch_ :=
  job ← job_of jid;
  mret (mkBatch (msgs b ++ [MCancel (RJob.drvPath job)]) (bytes b) (sent b) (writes b)).

(** [Run::flushLocked] *)
Definition flushLocked (srt : sorter) (ok : nat → bool) (size : N → N) : M (run R) () :=
  cancels ← on_exe takeCancels;
  wants ← on_exe (takeWants srt);
  b ← foldM add_cancel (mkBatch [] 0 [] 0) cancels;
  b ← foldM (add_want ok size) b wants;
  write ok b;;
  r ← get;
  if (remainingJobs (exe r) =? 0)%N && stream_ r && negb (closed r)
  then modify (with_closed true) else mret tt.

(** [Run::addLocked] *)
Definition addLocked (job : RJob.t R) (inputs : list N) : M (run R) N :=
  jid ← on_exe (add (double_of_Z (Z.of_N (RJob.cpHintMs job))) inputs);
  modify (λ r, with_byId (byId r ++ [job]) r);;
  modify (λ r, match byName r !! RJob.drvPath job with
               | Some _ => r   (* emplace *)
               | None => with_byName (<[RJob.drvPath job := jid]> (byName r)) r
               end);;
  mret jid.

(** The constructor adds the inputs of a job before the job.  [fuel] bounds the
    depth of the recursion; a graph without cycles needs one level per job. *)
Fixpoint add_job (fuel : nat) (jobs : gmap string (RJob.t R)) (path : string) : M (run R) N :=
  match fuel with
  | O => throw OutOfFuel
  | S fuel' =>
      r ← get;
      match byName r !! path with
      | Some jid => mret jid
      | None =>
          job ← expect Undefined (jobs !! path);
          inputs ← foldM (λ acc input, jid ← add_job fuel' jobs input; mret (acc ++ [jid])) [] (RJob.inputs job);
          addLocked job inputs
      end
  end.

Definition init (c : Cfg.t) : run R := mkRun (Executor c) [] ∅ ∅ false false [].

(** [Run::Run]; [order] are the keys of [jobs] in the order of the map. *)
Definition Run_ (jobs : gmap string (RJob.t R)) (order : list string) : M (run R) () :=
  forM_ order (λ path, add_job (S (size jobs)) jobs path;; mret tt).

(** [Run::next], once the condition it waits for holds. *)
Definition next : M (run R) (option (N * RJob.t R * Placement.t)) :=
  got ← on_exe Exec.next;
  match got with
  | Some (jid, placement) => job ← job_of jid; mret (Some (jid, job, placement))
  | None => mret None
  end.

(** [Run::work]: what a build thread does with the result of an attempt. *)
Definition work_done (succeeded : R → bool) (srt : sorter) (ok : nat → bool) (size : N → N)
    (jid : N) (res : Attempt R) : M (run R) () :=
  match res with
  | Built result =>
      job ← job_of jid;
      set_at byId with_byId jid (RJob.with_result (Some result) job);;
      on_exe (finished jid (succeeded result))
  | Bounced => on_exe (bounced jid)
  | MissingInput _ => mret tt
  end;;
  flushLocked srt ok size.

(** [Run::recover], first section: a missing input is recovered once per job. *)
Definition recover_once (jid : N) (path : string) : M (run R) () :=
  r ← get;
  if decide ((jid, path) ∈ recovered r)
  then throw (NixError ("input '" +:+ path +:+ "' is missing on the farm"))
  else modify (λ r, with_recovered ({[(jid, path)]} ∪ recovered r) r).

(** [Run::recover], second section: the producer [drvPath] of the input becomes a
    job, made by [farmJob], and the build waits for it. *)
Definition recover_job (farmJob : string → RJob.t R) (jid : N) (drvPath : string) : M (run R) () :=
  r ← get;
  (match byName r !! drvPath with
   | Some _ => mret tt
   | None =>
       waiting ← job_of jid;
       addLocked (RJob.recovered (u64 (RJob.cpHintMs waiting + 1)) (farmJob drvPath)) [];; mret tt
   end);;
  r ← get;
  input ← expect OutOfRange (byName r !! drvPath);
  on_exe (blockOn jid input).

(** [Run::drvOf] *)
Definition drvOf (m : SchedMsg) : string :=
  match m with
  | SAssigned p _ _ _ | SCached p | SUnplaceable p _ | SPlaceable p => p
  | SOther => ""
  end.

(** [Run::onMsgLocked]: a scheduler decision; ignores anything stale or unknown. *)
Definition onMsgLocked (now : Z) (m : SchedMsg) : M (run R) () :=
  r ← get;
  match byName r !! drvOf m with
  | None => mret tt
  | Some jid =>
      match m with
      | SAssigned _ addr assignId system => on_exe (onAssigned jid (Placement.mk addr assignId system))
      | SCached _ => on_exe (onCached jid)
      | SUnplaceable _ reason => on_exe (onUnplaceable jid reason now);; mret tt
      | SPlaceable _ => on_exe (onPlaceable jid)
      | SOther => mret tt
      end
  end.

Definition onMsgs (srt : sorter) (ok : nat → bool) (size : N → N) (now : Z) (ms : list SchedMsg) : M (run R) () :=
  forM_ ms (onMsgLocked now);; flushLocked srt ok size.

(** [Run::reapUnplaceable], one iteration. *)
Definition reapUnplaceable (srt : sorter) (ok : nat → bool) (size : N → N) (now grace : Z) : M (run R) Z :=
  wake ← on_exe (reap now grace); flushLocked srt ok size;; mret wake.

Definition attach (srt : sorter) (ok : nat → bool) (size : N → N) : M (run R) () :=
  modify (λ r, with_wire [] (with_stream_ true r));;
  modify (with_closed false);;
  on_exe connected;;
  flushLocked srt ok size.

Definition detach : M (run R) N :=
  modify (with_stream_ false);;
  on_exe disconnected;;
  gets (λ r, remainingJobs (exe r)).

Definition abandon (srt : sorter) (ok : nat → bool) (size : N → N) : M (run R) () :=
  on_exe Exec.abandon;; flushLocked srt ok size.

(** [Run::collectResults]; [cachedResult] and [failedResult] build nix's results. *)
Definition collect_job (cachedResult : RJob.t R → R) (failedResult : FailureStatus → string → R)
    (interrupted : bool) (jid : N) : M (run R) () :=
  job ← job_of jid;
  s ← on_exe (at_job jid);
  match RJob.result job, s with
  | None, Done d =>
      res ← match Done.outcome d with
            | cached => mret (cachedResult job)
            | dependencyFailed =>
                input ← on_exe (failedInput jid);
                name ← match input with
                       | Some i => j ← job_of i; mret (RJob.drvPath j)
                       | None => mret "?"
                       end;
                mret (failedResult DependencyFailed ("dependency '" +:+ name +:+ "' failed"))
            | _ => mret (failedResult MiscFailure (if interrupted then "interrupted" else Done.message d))
            end;
      set_at byId with_byId jid (RJob.with_result (Some res) job)
  | _, _ => mret tt
  end.

Definition collectResults cachedResult failedResult (interrupted : bool) : M (run R) () :=
  n ← gets (λ r, vlen (byId r));
  forM_ (range 0 n) (collect_job cachedResult failedResult interrupted).
End Run.
End Run.
