(* ===== verification/ClientRunInv.v ===== *)
(** * The run's invariant

    The executor's invariant, tied to the stream: what the scheduler takes us to
    follow, from the messages written, is what the executor follows. *)

From S2P Require Import Prelude Double Exec ExecInv ExecSettle ExecOps ExecGraph ExecStream ExecFollow ClientRun.

(** ** What one executor operation leaves *)

(** The run of a job [b] may end, and the edges [E] may be new. *)
Record Calm (b : option N) (E : N → N → Prop) (F : gset N) (e e' : executor) : Prop := mkCalm {
  calm_inv : Inv [] [] 0 [] F e';
  calm_frame : frame0 e e';
  calm_leaves : leaves b e e';
  calm_deps : ∀ x y, depends e' x y → depends e x y ∨ E x y;
  calm_act : follow_step e e';
}.

Definition no_edge (x y : N) : Prop := False.

Lemma Calm_refl F e : Inv [] [] 0 [] F e → Calm None no_edge F e e.
Proof. intros HI. split; [done|apply frame0_refl|apply still_refl|by left|done]. Qed.

Lemma Calm_trans E F e1 e2 e3 : Calm None E F e1 e2 → Calm None E F e2 e3 → Calm None E F e1 e3.
Proof.
  intros [_ Hf1 Hl1 Hd1 Ha1] [HI Hf2 Hl2 Hd2 Ha2].
  split; [done|by eapply frame0_trans|by eapply still_trans| |by etrans].
  intros x y [Hd|?]%Hd2; [by apply Hd1|by right].
Qed.

(** An operation on one job that adds no edge. *)
Lemma wp_calm {A} (m : M executor A) b F e (Φ : A → executor → Prop) :
  keeps deps_same m → keeps follow_step m →
  wp m (λ a e', Inv [] [] 0 [] F e' ∧ frame0 e e' ∧ leaves b e e' ∧ Φ a e') e →
  wp m (λ a e', Calm b no_edge F e e' ∧ Φ a e') e.
Proof.
  intros Hk Hk' Hm. eapply wp_mono; [by apply (wp_keeps _ _ _ _ Hk' (wp_keeps _ _ _ _ Hk Hm))|].
  intros a e' [[(HI & Hf & Hl & HΦ) Hd] Ha]. split; [|done]. split; [done..| |done].
  intros x y H. left. by eapply depends_same.
Qed.

Lemma wp_still_one {A} (m : M executor A) F e jid job (s' : JobState) :
  keeps deps_same m → keeps follow_step m → jobs e !! jid = Some job →
  calm_state (Job.state job) s' → is_running s' = is_running (Job.state job) →
  wp m (λ _ e', Inv [] [] 0 [] F e' ∧ Evolves (eq jid) e e' ∧ state_is e' jid s') e →
  wp m (λ _, Calm None no_edge F e) e.
Proof.
  intros Hk Hk' Hj Hc Hr Hm. eapply wp_mono; [apply (wp_calm m None F e (λ _ _, True) Hk Hk')|by intros ?? [? _]].
  eapply wp_mono; [exact Hm|]. intros a e' (HI & Hev & Hs). split_and!; [done|by eapply Evolves_frame0| |done].
  by eapply Evolves_still.
Qed.

Section ExeOps.
Context (F : gset N) (e : executor) (jid : N) (job : Job.t).
Context (HI : Inv [] [] 0 [] F e) (Hj : jobs e !! jid = Some job).

Lemma onAssigned_calm p : wp (onAssigned jid p) (λ _, Calm None no_edge F e) e.
Proof using HI Hj.
  eapply wp_still_one; [apply keeps_onAssigned|apply follow_onAssigned|done|..|by apply (onAssigned_spec [] F e jid job)];
    unfold assigned_state; case_decide; try done; try apply calm_state_refl;
    destruct (Job.state job); try done; try (by intros ? [=]); case_decide; try done; by intros ? [=].
Qed.

Lemma onCached_calm : wp (onCached jid) (λ _, Calm None no_edge F e) e.
Proof using HI Hj.
  eapply wp_still_one; [apply keeps_onCached|apply follow_onCached|done|..|by apply (onCached_spec [] F e jid job)];
    destruct (Job.state job); try done; by intros ? [= <-].
Qed.

Lemma onUnplaceable_calm reason now : wp (onUnplaceable jid reason now) (λ _, Calm None no_edge F e) e.
Proof using HI Hj.
  destruct (Job.state job) as [| |since r| | |] eqn:Es.
  3: eapply (wp_still_one _ F e jid job (Wanted (Some (default now since)) reason));
       [apply keeps_onUnplaceable|apply follow_onUnplaceable|done|by rewrite Es; intros ? [=]|by rewrite Es|].
  3: eapply wp_mono; [by apply (onUnplaceable_spec [] F e jid job)|]; rewrite Es; by intros b e' (? & ? & ? & _).
  all: eapply wp_mono; [by apply (onUnplaceable_spec [] F e jid job)|]; rewrite Es;
    intros b e' (_ & _ & -> & _); by apply Calm_refl.
Qed.

Lemma onPlaceable_calm : wp (onPlaceable jid) (λ _, Calm None no_edge F e) e.
Proof using HI Hj.
  eapply wp_still_one; [apply keeps_onPlaceable|apply follow_onPlaceable|done|..|by apply (onPlaceable_spec [] F e jid job)];
    destruct (Job.state job); try done; by intros ? [=].
Qed.

(** A released job waits again, or ended without a build. *)
Lemma released_calm (job' : Job.t) s :
  is_done (Job.state job') = false → s = Wantable ∨ doomed s = true →
  calm_state (Job.state job') s ∧ is_running s = false.
Proof.
  intros Hd Hs. assert (∀ d, s = Done d → Done.outcome d ≠ built) as Hb.
  { intros d ->. destruct Hs as [?|Hs]; [done|]. simpl in Hs. unfold unbuilt in Hs.
    by apply andb_prop in Hs as [_ Hs%negb_true_iff%bool_decide_eq_false]. }
  split; [by destruct (Job.state job')|]. destruct Hs as [->|Hs]; [done|by destruct s].
Qed.

Lemma bounced_calm :
  is_running (Job.state job) = true → wp (bounced jid) (λ _, Calm (Some jid) no_edge F e) e.
Proof using HI Hj.
  intros Hrun. eapply wp_mono; [apply (wp_calm _ (Some jid) F e (λ _ _, True) (keeps_bounced jid) (follow_bounced jid))|by intros ?? [? _]].
  eapply wp_mono; [by apply (bounced_spec [] F e jid job)|]. intros _ e' (HI' & Hev & Hs).
  split_and!; [done|by eapply Evolves_frame0| |done].
  assert (∀ s', state_is e' jid s' → calm_state (Job.state job) s' → is_running s' = false →
    leaves (Some jid) e e') as Hone.
  { intros s' Hs' Hc Hr. eapply Evolves_leaves; [done..|by right|by rewrite decide_True]. }
  destruct (Job.state job) as [| | | |q [p|]|] eqn:E; try done.
  - by eapply Hone; [done|intros ? [=]|].
  - cbv zeta in Hs. destruct (_ <? _)%N.
    + by eapply Hone; [done|intros ? [= <-]|].
    + destruct Hs as (s & Hs & Hd). destruct (released_calm job s) as [Hc Hr]; [by rewrite E|done|].
      rewrite E in Hc. by eapply Hone.
Qed.

(** The job waits for [input], which is not done. *)
Lemma blocked_on_leaves input inp :
  is_running (Job.state job) = true → jobs e !! input = Some inp →
  leaves (Some jid) e (blocked_on jid input job e) ∧ frame0 e (blocked_on jid input job e).
Proof using Hj.
  intros Hrun Hin. unfold blocked_on.
  set (eA := moved jid (Blocked 1) (Job.with_followed false job) (unfollowed jid job e)).
  set (b := Job.with_state (Blocked 1) (Job.with_followed false job)).
  assert (jobs eA = <[jid := b]> (jobs e)) as HjsA by (simpl; by rewrite vinsert_insert).
  assert (∃ inp', jobs eA !! input = Some inp') as [inp' Hin'].
  { apply vlookup_lt. rewrite HjsA, vlen_insert. by eapply vlookup_lt_Some. }
  rewrite Hin'. split; [|split_and!; [|done..]; simpl; by rewrite !vlen_insert].
  apply (leaves_trans _ e eA).
  - intros j s (jb & Hjb & <-). destruct (decide (j = jid)) as [->|Hne].
    + exists (Blocked 1). split; [exists b; split; [|done]; rewrite HjsA; apply (lookup_replace _ _ _ _ Hj); by left|].
      simplify_eq. rewrite decide_True by done. split; [|done]. by destruct (Job.state job).
    + exists (Job.state jb). split; [exists jb; split; [|done]; rewrite HjsA; apply (lookup_replace _ _ _ _ Hj); by right|].
      rewrite decide_False by naive_solver. split; [apply calm_state_refl|done].
  - intros j s (jb & Hjb & <-). exists (Job.state jb).
    split; [|split; [apply calm_state_refl|by case_decide]]. destruct (decide (j = input)) as [->|Hne].
    + simplify_eq. exists (with_edge jid inp'). split; [|done]. apply (lookup_replace _ _ _ _ Hin'). by left.
    + exists jb. split; [|done]. apply (lookup_replace _ _ _ _ Hin'). by right.
Qed.
End ExeOps.

Lemma blockOn_calm F e jid input job inp :
  Inv [] [] 0 [] F e → jobs e !! jid = Some job → is_running (Job.state job) = true →
  jobs e !! input = Some inp →
  wp (blockOn jid input) (λ _, Calm (Some jid) (λ x y, x = jid ∧ y = input) F e) e.
Proof.
  intros HI Hj Hr Hin.
  eapply wp_mono; [exact (wp_keeps _ _ _ _ (follow_blockOn jid input) (blockOn_spec [] F e jid input job inp HI Hj Hin))|].
  intros _ e' [[HI' Hs] Hact]. rewrite Hr in Hs. destruct (is_done (Job.state inp)) eqn:Hd.
  - destruct Hs as (Hev & (s & Hs & Hds) & Hdeps).
    destruct (released_calm job s) as [Hc Hnr]; [by destruct (Job.state job)|done|].
    split; [done|by eapply Evolves_frame0| | |done].
    + eapply Evolves_leaves; [done..|by right|by rewrite decide_True].
    + intros x y H. left. by eapply depends_same.
  - subst e'. destruct (blocked_on_leaves e jid job Hj input inp Hr Hin) as [Hl Hf].
    split; [done..| |done]. intros x y. by apply blocked_on_depends.
Qed.

(** ** What the scheduler takes us to follow *)

(** A Want makes the client a follower of the derivation, a Cancel ends that. *)
Definition msg_step (F : gset string) (m : ClientMsg) : gset string :=
  match m with
  | MWant w => {[Want.drv_path w]} ∪ F
  | MCancel p => F ∖ {[p]}
  end.

Definition follows_after (ms : list ClientMsg) : gset string := foldl msg_step ∅ ms.

Definition mpath (m : ClientMsg) : string :=
  match m with MWant w => Want.drv_path w | MCancel p => p end.

Lemma follows_after_path ms p : p ∈ follows_after ms → ∃ m, m ∈ ms ∧ mpath m = p.
Proof.
  unfold follows_after. induction ms as [|m ms IH] using rev_ind; [set_solver|]. rewrite foldl_app. simpl.
  intros H. assert (p = mpath m ∨ p ∈ foldl msg_step ∅ ms) as [->|Hin] by (destruct m; set_solver).
  - exists m. split; [|done]. apply elem_of_app. right. by left.
  - destruct (IH Hin) as (m' & ? & ?). exists m'. split; [|done]. apply elem_of_app. by left.
Qed.

Section Wire.
Context {R : Type}.
Implicit Types (ids : list (RJob.t R)) (ms : list ClientMsg).

(** The same as ids of jobs. *)
Definition Fids ids ms : gset N :=
  list_to_set (filter (λ j : N, match ids !! j with
    | Some job => bool_decide (RJob.drvPath job ∈ follows_after ms) | None => false end = true)
    (range 0 (vlen ids))).

Lemma elem_of_Fids ids ms j :
  j ∈ Fids ids ms ↔ ∃ job, ids !! j = Some job ∧ RJob.drvPath job ∈ follows_after ms.
Proof.
  unfold Fids. rewrite elem_of_list_to_set, list_elem_of_filter, elem_of_range. split.
  - intros [H _]. destruct (ids !! j) as [job|] eqn:Hj; [|done]. apply bool_decide_eq_true in H. by exists job.
  - intros (job & Hj & Hin). rewrite Hj. split; [by apply bool_decide_eq_true|]. apply vlookup_lt_Some in Hj. lia.
Qed.

(** No two jobs share a derivation. *)
Definition distinct ids : Prop :=
  ∀ (i j : N) a b, ids !! i = Some a → ids !! j = Some b → RJob.drvPath a = RJob.drvPath b → i = j.

Lemma Fids_want ids ms (j : N) job w :
  distinct ids → ids !! j = Some job → Want.drv_path w = RJob.drvPath job →
  Fids ids (ms ++ [MWant w]) = {[j]} ∪ Fids ids ms.
Proof.
  intros Hd Hj Hw. apply set_eq. intros i. rewrite elem_of_union, elem_of_singleton, !elem_of_Fids.
  unfold follows_after. rewrite foldl_app. simpl. rewrite Hw. split.
  - intros (a & Ha & [Heq%elem_of_singleton|?]%elem_of_union); [left; by eapply Hd|right; eauto].
  - intros [->|(a & Ha & ?)]; [exists job|exists a]; set_solver.
Qed.

Lemma Fids_cancel ids ms (j : N) job :
  distinct ids → ids !! j = Some job →
  Fids ids (ms ++ [MCancel (RJob.drvPath job)]) = Fids ids ms ∖ {[j]}.
Proof.
  intros Hd Hj. apply set_eq. intros i. rewrite elem_of_difference, elem_of_singleton, !elem_of_Fids.
  unfold follows_after. rewrite foldl_app. simpl. split.
  - intros (a & Ha & [? Hne]%elem_of_difference). split; [by eauto|]. intros ->. simplify_eq. set_solver.
  - intros [(a & Ha & ?) Hne]. exists a. split; [done|]. apply elem_of_difference. split; [done|].
    rewrite elem_of_singleton. intros Heq. apply Hne. by eapply Hd.
Qed.

(** The messages for lists of jobs. *)
Definition want_msgs ids (l : list N) : list ClientMsg :=
  omap (λ j : N, MWant ∘ Run.fillWant <$> ids !! j) l.
Definition cancel_msgs ids (l : list N) : list ClientMsg :=
  omap (λ j : N, MCancel ∘ RJob.drvPath <$> ids !! j) l.

Lemma Fids_wants ids ms l :
  distinct ids → Forall (λ j, j < vlen ids)%N l →
  Fids ids (ms ++ want_msgs ids l) = list_to_set l ∪ Fids ids ms.
Proof.
  intros Hd. revert ms. induction l as [|j l IH]; intros ms Hl.
  - simpl. rewrite app_nil_r. set_solver.
  - apply Forall_cons in Hl as [[job Hj]%vlookup_lt Hl]. unfold want_msgs. simpl. rewrite Hj. simpl.
    change (ms ++ MWant (Run.fillWant job) :: ?k) with (ms ++ [MWant (Run.fillWant job)] ++ k).
    rewrite (app_assoc ms). fold (want_msgs ids l). rewrite IH by done.
    rewrite (Fids_want _ _ j job) by done. set_solver.
Qed.

Lemma Fids_cancels ids ms l :
  distinct ids → Forall (λ j, j < vlen ids)%N l →
  Fids ids (ms ++ cancel_msgs ids l) = Fids ids ms ∖ list_to_set l.
Proof.
  intros Hd. revert ms. induction l as [|j l IH]; intros ms Hl.
  - simpl. rewrite app_nil_r. set_solver.
  - apply Forall_cons in Hl as [[job Hj]%vlookup_lt Hl]. unfold cancel_msgs. simpl. rewrite Hj. simpl.
    change (ms ++ MCancel (RJob.drvPath job) :: ?k) with (ms ++ [MCancel (RJob.drvPath job)] ++ k).
    rewrite (app_assoc ms). fold (cancel_msgs ids l). rewrite IH by done.
    rewrite (Fids_cancel _ _ j job) by done. set_solver.
Qed.
End Wire.

(** ** The invariant *)

Lemma remaining_zero X Y cur rest F e :
  Inv X Y cur rest F e → remaining e = 0%N ↔ ∀ j s, state_is e j s → is_done s = true.
Proof.
  intros HI. rewrite (i_remaining _ _ _ _ _ _ HI). split.
  - intros H0 j s (job & Hj & <-). pose proof (wsum_le undone (jobs e) j job Hj) as Hle.
    unfold undone in Hle at 1. destruct (is_done (Job.state job)); [done|lia].
  - intros Hall. destruct (decide (0 < wsum undone (jobs e))) as [Hpos|]; [exfalso|lia].
    apply wsum_pos in Hpos as (j & job & Hj & Hu). unfold undone in Hu.
    rewrite (Hall j (Job.state job)) in Hu; [lia|by exists job].
Qed.

(** The reverse direction of [calm], when no job was added. *)
Lemma calm_back e e' j s' :
  calm e e' → vlen (jobs e') = vlen (jobs e) → state_is e' j s' → ∃ s, state_is e j s ∧ calm_state s s'.
Proof.
  intros Hc Hv Hs'. pose proof Hs' as (job' & Hj' & _). apply vlookup_lt_Some in Hj' as Hlt.
  rewrite Hv in Hlt. apply vlookup_lt in Hlt as [job Hj].
  destruct (Hc j (Job.state job)) as (s'' & Hs'' & Hcs); [by exists job|].
  rewrite (state_is_det _ _ _ _ Hs' Hs''). exists (Job.state job). split; [by exists job|done].
Qed.

Definition zero_done (e : executor) : Prop :=
  remaining e = 0%N → ∀ j s, state_is e j s → is_done s = true.

Lemma calm_remaining F' e e' :
  zero_done e → Inv [] [] 0 [] F' e' → calm e e' → vlen (jobs e') = vlen (jobs e) →
  remaining e = 0%N → remaining e' = 0%N.
Proof.
  intros HI HI' Hc Hv H0. apply (remaining_zero _ _ _ _ _ _ HI'). intros j s' Hs'.
  destruct (calm_back e e' j s' Hc Hv Hs') as (s & Hs & Hcs).
  pose proof (HI H0 j s Hs) as Hd.
  destruct s; try done. simpl in Hcs. by subst.
Qed.

Section RunInv.
Context {R : Type} (succeeded : R → bool) (rank : string → nat).

(** [y] is deeper in the graph of derivations than [x]. *)
Definition below (r : run R) (x y : N) : Prop :=
  ∃ a b, byId r !! x = Some a ∧ byId r !! y = Some b ∧ rank (RJob.drvPath b) < rank (RJob.drvPath a).

(** What a run keeps apart from the stream. *)
Record Static (r : run R) : Prop := mkStatic {
  st_len : vlen (byId r) = vlen (jobs (exe r));
  st_names : ∀ p (j : N), byName r !! p = Some j ↔ ∃ job, byId r !! j = Some job ∧ RJob.drvPath job = p;
  st_closed : closed r = true → remaining (exe r) = 0%N;
  st_built : ∀ (j : N) d, state_is (exe r) j (Done d) → Done.outcome d = built →
    ∃ job res, byId r !! j = Some job ∧ RJob.result job = Some res ∧ succeeded res = Done.succeeded d;
  st_edges : ∀ x y, depends (exe r) x y → below r x y;
  st_farm : ∀ (j : N) job p d, byId r !! j = Some job → RJob.farmInputs job !! p = Some d →
    rank d < rank (RJob.drvPath job);
}.

(** Only derivations of jobs are named on the stream. *)
Definition known (r : run R) (m : ClientMsg) : Prop := is_Some (byName r !! mpath m).

Record RInv (r : run R) : Prop := mkRInv {
  r_inv : Inv [] [] 0 [] (Fids (byId r) (wire r)) (exe r);
  r_stream : stream (exe r) = stream_ r;
  r_act : ActFol (exe r);
  r_wire : Forall (known r) (wire r);
  r_static : Static r;
}.

Lemma Static_distinct r : Static r → distinct (byId r).
Proof.
  intros Hst i j a b Ha Hb Heq.
  assert (byName r !! RJob.drvPath a = Some i) as Hi by (apply (st_names _ Hst); by exists a).
  assert (byName r !! RJob.drvPath a = Some j) as Hj by (apply (st_names _ Hst); by exists b).
  by simplify_eq.
Qed.

Lemma RInv_acyclic r : RInv r → acyclic (exe r).
Proof.
  intros [_ _ _ _ Hst]. apply (ranked_acyclic _ (λ j : N, rank ∘ RJob.drvPath <$> byId r !! j)).
  intros y x jy Hy Hin. destruct (st_edges _ Hst x y) as (a & b & -> & -> & Hlt); [by exists jy|].
  simpl. eauto.
Qed.

(** A run whose executor moved calmly. *)
Lemma Static_calm r r' F' :
  Static r → byId r' = byId r → byName r' = byName r → closed r' = closed r →
  zero_done (exe r) → Inv [] [] 0 [] F' (exe r') →
  vlen (jobs (exe r')) = vlen (jobs (exe r)) → calm (exe r) (exe r') →
  (∀ x y, depends (exe r') x y → depends (exe r) x y ∨ below r x y) → Static r'.
Proof.
  intros [Hlen Hn Hcl Hb He Hf] E1 E2 E3 HI HI' Hv Hc Hd. split.
  - by rewrite E1, Hv.
  - by rewrite E1, E2.
  - rewrite E3. intros H0%Hcl. exact (calm_remaining F' _ _ HI HI' Hc Hv H0).
  - rewrite E1. intros j d Hd' Ho. destruct (calm_back _ _ _ _ Hc Hv Hd') as (s & Hs & Hcs).
    unfold calm_state in Hcs. destruct s as [| | | | |d']; try (by destruct (Hcs d eq_refl Ho)).
    injection Hcs as ->. by apply Hb.
  - unfold below. rewrite E1. intros x y [?%He|?]%Hd; done.
  - by rewrite E1.
Qed.

Lemma RInv_calm b E r e' :
  RInv r → Calm b E (Fids (byId r) (wire r)) (exe r) e' → (∀ x y, E x y → below r x y) →
  RInv (with_exe e' r).
Proof.
  intros [HI Hs Ha Hw Hst] [HI' (Hv & Hcfg & Hstr) Hc Hd Hact] HE.
  split; [done|simpl; rewrite Hstr; exact Hs|by apply Hact|done|].
  apply (Static_calm r _ (Fids (byId r) (wire r))); try done.
  - intros H0. by apply (remaining_zero _ _ _ _ _ _ HI).
  - by eapply leaves_calm.
  - intros x y [?|?]%Hd; auto.
Qed.
End RunInv.
