(* ===== verification/ClientFlush.v ===== *)
(** * Flushing the run

    [Run::flushLocked] sends the Cancels and Wants in batches; a failed write ends
    the stream for the executor.  Afterwards the scheduler's view and the
    executor's agree again. *)

From S2P Require Import Prelude Double Exec ExecInv ExecSettle ExecOps ExecGraph ExecStream ExecFollow ClientRun.
From S2P Require Import ClientRunInv.

Section Flush.
Context {R : Type} (succeeded : R → bool) (rank : string → nat).
Implicit Types r : run R.

(** The fields a flush does not touch. *)
Definition same_static r0 r : Prop :=
  byId r = byId r0 ∧ byName r = byName r0 ∧ recovered r = recovered r0 ∧ closed r = closed r0.

(** No Wantable job is held back while a build thread has nothing to do. *)
Definition busy (e : executor) : Prop :=
  active e = Cfg.threads (cfg e) ∨ ∀ j, ¬ state_is e j Wantable.

(** Within a flush: [b] is the batch being filled, [rest] the Wants to come. *)
Record Flushing r0 (rest : list N) (b : Run.batch_) r : Prop := mkFlushing {
  fl_static : same_static r0 r;
  fl_stream : stream (exe r) = stream_ r;
  fl_len : vlen (jobs (exe r)) = vlen (jobs (exe r0));
  fl_cfg : cfg (exe r) = cfg (exe r0);
  fl_still : still (exe r0) (exe r);
  fl_deps : deps_same (exe r0) (exe r);
  fl_act : ActFol (exe r);
  fl_known : Forall (known r0) (wire r ++ Run.msgs b);
  fl_cancels : cancels (exe r) = [];
  fl_busy : stream_ r = true → busy (exe r);
  fl_rest : Forall (λ j, j < vlen (byId r0))%N rest;
  fl_sent : Forall (λ j, j < vlen (byId r0))%N (Run.sent b);
  fl_inv : Inv [] [] 0 []
    (Fids (byId r0) (if stream_ r then wire r ++ Run.msgs b ++ want_msgs (byId r0) rest else wire r)) (exe r);
}.

(** A stream that ended: anything will do as the scheduler's view. *)
Lemma Fids_lt ids ms (j : N) : j ∈ Fids (R:=R) ids ms → (j < vlen ids)%N.
Proof. intros (job & Hj & _)%elem_of_Fids. by eapply vlookup_lt_Some. Qed.

Lemma unstreamed_any F ids ms e :
  Inv [] [] 0 [] F e → stream e = false → vlen ids = vlen (jobs e) → Inv [] [] 0 [] (Fids (R:=R) ids ms) e.
Proof.
  intros HI Hs Hv. apply (unstreamed_inv _ _ _ _ F); [done..|]. intros j Hj%Fids_lt. by rewrite <- Hv.
Qed.

Definition empty_batch (n : nat) : Run.batch_ := Run.mkBatch [] 0 [] n.

Lemma known_prefix r (l k : list ClientMsg) : Forall (known r) (l ++ k) → Forall (known r) (l ++ []).
Proof. rewrite app_nil_r. by intros [? _]%Forall_app. Qed.

Lemma known_job r (j : N) job :
  Static succeeded rank r → byId r !! j = Some job → is_Some (byName r !! RJob.drvPath job).
Proof. intros Hst Hj. exists j. apply (st_names _ _ _ Hst). by exists job. Qed.

Lemma known_cancels r l : Static succeeded rank r → Forall (known r) (cancel_msgs (byId r) l).
Proof.
  intros Hst. apply Forall_forall. intros m (j & _ & Hm)%list_elem_of_omap.
  destruct (byId r !! j) as [job|] eqn:Hj; [|done]. simplify_eq/=. by eapply known_job.
Qed.

(** The second half of [write]: without a stream what was not sent is wanted again. *)
Lemma write_unsent r0 rest b r n :
  vlen (byId r0) = vlen (jobs (exe r0)) →
  Flushing r0 rest b r → (stream_ r = true → Run.msgs b = []) →
  wp (str' ← gets stream_;
      (if str' : bool then mret tt else Run.on_exe (unsent (Run.sent b)));;
      mret (empty_batch n)) (λ b' r', Flushing r0 rest b' r' ∧ b' = empty_batch n) r.
Proof.
  intros Hv0 [Hst Hstr Hlen Hcfg Hstill Hdeps Hact Hkn Hcn Hbusy Hrest Hsent HI] Hmsgs. wp_steps.
  pose proof Hst as (E1 & E2 & E3 & E4). destruct (stream_ r) eqn:Hs.
  - wp_steps. split; [|done]. rewrite (Hmsgs eq_refl) in HI.
    split; try done; try (by rewrite Hs). by eapply known_prefix.
  - unfold Run.on_exe. apply wp_zoom.
    assert (Forall (λ j, j < vlen (jobs (exe r)))%N (Run.sent b)) as Hsent'.
    { eapply Forall_impl; [exact Hsent|]. intros j Hj. simpl in Hj. by rewrite Hlen, <- Hv0. }
    eapply wp_mono; [exact (wp_keeps _ _ _ _ (keeps_unsent _) (unsent_spec _ _ (exe r) HI Hstr Hsent'))|].
    intros _ e' [(HI' & (Hl' & Hc' & Hs') & Hcn' & Hb) Hd']. wp_steps. split; [|done].
    split; simpl; try done; try congruence; try (by rewrite Hs); [|by etrans|by eapply known_prefix].
    eapply still_trans; [done|]. by apply backs_still.
Qed.

Lemma write_spec ok r0 rest b r :
  vlen (byId r0) = vlen (jobs (exe r0)) → Flushing r0 rest b r →
  wp (Run.write ok b) (λ b' r', Flushing r0 rest b' r' ∧ ∃ n, b' = empty_batch n) r.
Proof.
  intros Hv0 HF. pose proof HF as [Hst Hstr Hlen Hcfg Hstill Hdeps Hact Hkn Hcn Hbusy Hrest Hsent HI].
  pose proof Hst as (E1 & E2 & E3 & E4).
  unfold Run.write. wp_steps. set (n := if stream_ r && negb (bool_decide (Run.msgs b = [])) then S (Run.writes b) else Run.writes b).
  assert (∀ r', Flushing r0 rest b r' → (stream_ r' = true → Run.msgs b = []) →
    wp (str' ← gets stream_;
      (if str' : bool then mret tt else Run.on_exe (unsent (Run.sent b)));;
      mret (empty_batch n)) (λ b' r', Flushing r0 rest b' r' ∧ ∃ n, b' = empty_batch n) r') as Hrest'.
  { intros r' HF' Hm. eapply wp_mono; [by apply (write_unsent r0 rest b r' n)|].
    intros b' r'' [? ->]. split; [done|]. by exists n. }
  destruct (stream_ r) eqn:Hs; simpl; [|wp_step; apply Hrest'; [done|by rewrite Hs]].
  destruct (bool_decide (Run.msgs b = [])) eqn:Hm; simpl.
  { apply bool_decide_eq_true in Hm. wp_step. by apply Hrest'. }
  destruct (ok (Run.writes b)).
  - wp_steps. simpl. rewrite Hs. wp_steps. split; [|by exists n].
    rewrite app_assoc in HI. split; try done; simpl; rewrite ?app_nil_r; try done; by rewrite Hs.
  - wp_steps. unfold Run.on_exe at 1. apply wp_zoom. simpl.
    eapply wp_mono; [exact (wp_keeps _ _ _ _ keeps_disconnected (disconnected_spec _ _ _ HI))|].
    intros _ e' [(HI' & Hs' & Hl' & Hc' & Hstates & Hcn' & _) Hd']. apply Hrest'; [|done].
    split; simpl; try done; try congruence.
    + eapply still_trans; [done|]. intros j s Hj. exists s. split; [by apply Hstates|].
      split; [apply calm_state_refl|by case_decide].
    + by etrans.
    + eapply unstreamed_any; [exact HI'|done|congruence].
Qed.

(** One more Want in the batch. *)
Lemma add_want_spec ok size r0 jid rest b r :
  Static succeeded rank r0 → Flushing r0 (jid :: rest) b r →
  wp (Run.add_want ok size b jid) (Flushing r0 rest) r.
Proof.
  intros Hst0 [Hst Hstr Hlen Hcfg Hstill Hdeps Hact Hkn Hcn Hbusy Hrest Hsent HI]. pose proof Hst as (E1 & _).
  apply Forall_cons in Hrest as [Hjid Hrest]. pose proof Hjid as [job Hj]%vlookup_lt.
  unfold Run.add_want, Run.job_of. wp_step. eapply wp_at; [by rewrite E1|].
  set (b' := Run.mkBatch _ _ _ _).
  assert (Flushing r0 rest b' r) as HF.
  { split; try done.
    - simpl. rewrite app_assoc. apply Forall_app. split; [done|]. apply Forall_singleton. by eapply known_job.
    - apply Forall_app. split; [done|]. by apply Forall_singleton.
    - simpl. unfold want_msgs in HI. simpl in HI. rewrite Hj in HI. simpl in HI.
      destruct (stream_ r); [|done]. by rewrite <- app_assoc. }
  destruct (_ <=? _)%N; [|by apply wp_ret].
  eapply wp_mono; [by apply write_spec, HF; apply Hst0|]. by intros b'' r'' [? _].
Qed.

Lemma add_cancel_spec r0 (l : list N) r :
  byId r = byId r0 → Forall (λ j, j < vlen (byId r0))%N l →
  wp (foldM Run.add_cancel (empty_batch 0) l) (λ b r',
    r' = r ∧ b = Run.mkBatch (cancel_msgs (byId r0) l) 0 [] 0) r.
Proof.
  intros E Hl. eapply wp_mono; [apply (wp_foldM _ (λ rest b r', r' = r ∧
    Forall (λ j, j < vlen (byId r0))%N rest ∧ Run.bytes b = 0%N ∧ Run.sent b = [] ∧ Run.writes b = 0 ∧
    Run.msgs b ++ cancel_msgs (byId r0) rest = cancel_msgs (byId r0) l))|].
  - done.
  - intros jid rest b r' (-> & [[job Hj]%vlookup_lt Hrest]%Forall_cons & Hb & Hs & Hw & Hm).
    unfold Run.add_cancel, Run.job_of. wp_step. eapply wp_at; [by rewrite E|]. wp_steps.
    split_and!; try done. simpl. rewrite <- Hm. unfold cancel_msgs. simpl. rewrite Hj. simpl.
    by rewrite <- app_assoc.
  - intros [ms by_ se wr] r' (-> & _ & Hb & Hs & Hw & Hm). simpl in *. rewrite app_nil_r in Hm. by subst.
Qed.

(** Before a flush: right after a connect placed jobs are still to be wanted. *)
Record Pre r : Prop := mkPre {
  p_conn : Conn (Fids (byId r) (wire r)) (exe r);
  p_stream : stream (exe r) = stream_ r;
  p_act : ActFol (exe r);
  p_wire : Forall (known r) (wire r);
  p_rewant : stream_ r = false → rewant (exe r) = [];
  p_static : Static succeeded rank r;
}.

Lemma RInv_Pre r : RInv succeeded rank r → Pre r.
Proof.
  intros [HI Hs Ha Hw Hst]. pose proof (i_rewant _ _ _ _ _ _ HI) as Hr. split; try done.
  split; [|rewrite Hr; constructor]. destruct (exe r). simpl in *. by subst.
Qed.

(** Every active job is followed once [takeWants] has been called. *)
Lemma wants_back chosen e e' (j : N) job' :
  wants chosen e e' → vlen (jobs e') = vlen (jobs e) → jobs e' !! j = Some job' →
  ∃ job, jobs e !! j = Some job ∧
    Job.state job' = (if decide (j ∈ chosen) then Wanted None "" else Job.state job).
Proof.
  intros Hw Hv Hj'. assert (∃ job, jobs e !! j = Some job) as [job Hj].
  { apply vlookup_lt. rewrite <- Hv. by eapply vlookup_lt_Some. }
  exists job. split; [done|]. destruct (Hw j job Hj) as (job2 & ? & _ & Hs). by simplify_eq.
Qed.

Lemma taken_actfol F e e1 chosen e' :
  Conn F e → ActFol e → stream e = true → wants [] (with_cancels [] e) e1 → frame0 (with_cancels [] e) e1 →
  Chosen (list_to_set (rewant e) ∪ (F ∖ list_to_set (cancels e))) e1 chosen e' → ActFol e'.
Proof.
  intros [HI _] Hact Hs Hw1 (Hv1 & _ & Hs1) [HI' (Hv' & _ & Hs') Hc' _ _ Hw' _ _ _] Hstr j job' Hj' Ha. left.
  destruct (i_fol _ _ _ _ _ _ HI') as [Hf' _]. destruct (Hf' j job' Hj') as [_ Hf].
  apply (Hf Hstr). rewrite Hc'. split; [|by intros ?%elem_of_nil].
  destruct (wants_back _ _ _ _ _ Hw' Hv' Hj') as (job1 & Hj1 & E1). case_decide as Hin; [set_solver|].
  destruct (wants_back _ _ _ _ _ Hw1 Hv1 Hj1) as (job & Hj & E). simpl in Hj.
  rewrite decide_False in E by apply not_elem_of_nil. rewrite E1, E in Ha.
  destruct (Hact Hs j job Hj Ha) as [Hfol|?]; [|set_solver].
  destruct (i_fol _ _ _ _ _ _ HI) as [Hf0 _]. destruct (Hf0 j job Hj) as [_ Hf1].
  apply (Hf1 Hs) in Hfol as [? ?]. simpl in *. set_solver.
Qed.

(** What the executor hands to a flush. *)
Lemma flush_take {A} srt r (k : list N → list N → M (run R) A) (Ψ : A → run R → Prop) :
  Pre r →
  (∀ cs ws e', (∀ j, j ∈ cs → j < vlen (byId r))%N → (∀ j, j ∈ ws → j < vlen (byId r))%N →
     still (exe r) e' → deps_same (exe r) e' → ActFol e' → frame0 (exe r) e' → cancels e' = [] → (stream_ r = true → busy e') →
     Inv [] [] 0 [] (if stream_ r then list_to_set ws ∪ (Fids (byId r) (wire r) ∖ list_to_set cs)
                     else Fids (byId r) (wire r)) e' → wp (k cs ws) Ψ (with_exe e' r)) →
  wp (cs ← Run.on_exe takeCancels; ws ← Run.on_exe (takeWants srt); k cs ws) Ψ r.
Proof.
  intros [HC Hstr Hact _ Hrw [Hlen Hn Hcl Hb _ _]] HΦ. wp_step. unfold Run.on_exe at 1. apply wp_zoom.
  eapply wp_mono; [by apply takeCancels_spec|].
  intros cs e1 (Hcs & HC1 & ->). wp_step. unfold Run.on_exe. apply wp_zoom.
  destruct (i_fol _ _ _ _ _ _ (proj1 HC)) as [_ Hpend]. simpl in Hpend.
  assert (stream (with_cancels [] (exe r)) = false → rewant (with_cancels [] (exe r)) = []) as Hrw1
    by (simpl; by rewrite Hstr).
  eapply wp_mono; [exact (wp_keeps _ _ _ _ (keeps_takeWants srt) (takeWants_spec srt _ _ HC1 eq_refl Hrw1))|].
  simpl. rewrite Hstr. intros ws e' [Hpost Hdeps]. change (with_exe e' (with_exe _ r)) with (with_exe e' r).
  assert (∀ j, j ∈ cs → j < vlen (byId r))%N as Hcs' by (intros j Hj; rewrite Hlen; subst cs; auto).
  destruct (stream_ r) eqn:Hs.
  - destruct Hpost as (e2 & chosen & -> & Hw & Ha & Hfr & Hchosen).
    assert (ActFol e') as Hact' by (subst cs; exact (taken_actfol _ (exe r) e2 chosen e' HC Hact Hstr Hw Hfr Hchosen)).
    destruct Hchosen as [HI2 Hfr2 Hc2 _ Hch Hw2 _ _ Hall].
    apply HΦ; try done.
    + intros j [Hj|Hj]%elem_of_app.
      * destruct HC as [_ HR]. rewrite Forall_forall in HR. destruct (HR j Hj) as (job & Hjob & _).
        rewrite Hlen. by eapply vlookup_lt_Some.
      * destruct (Hch j Hj) as (job & Hjob & _). apply vlookup_lt_Some in Hjob.
        destruct Hfr as (Hv & _). simpl in Hv. rewrite Hlen, <- Hv. done.
    + eapply still_trans; [apply (wants_still [] (exe r) e2)|by eapply wants_still]; [|done].
      by intros j ?%elem_of_nil.
    + eapply frame0_trans; [|done]. destruct Hfr as (? & ? & ?). by split_and!.
    + intros _. destruct Hall as [Hall|Hall]; [left; by destruct Hfr2 as (_ & -> & _)|right].
      intros j (job & Hjob & Hjs). assert (∃ job2, jobs e2 !! j = Some job2) as [job2 Hj2].
      { apply vlookup_lt. destruct Hfr2 as (<- & _). by eapply vlookup_lt_Some. }
      destruct (Hw2 j job2 Hj2) as (job' & ? & _ & Hst'). simplify_eq. rewrite Hjs in Hst'.
      case_decide as Hin; [done|]. apply Hin, Hall. by exists job2.
    + rewrite list_to_set_app_L. by replace (list_to_set (rewant (exe r)) ∪ list_to_set chosen ∪ _) with
        (list_to_set chosen ∪ (list_to_set (rewant (exe r)) ∪ Fids (byId r) (wire r) ∖ list_to_set cs)) by set_solver.
  - destruct Hpost as [-> ->]. apply HΦ; try done; [by intros j ?%elem_of_nil|exact (still_refl (exe r))|].
    eapply unstreamed_any; [by apply Conn_inv; [|simpl; auto]|done|done].
Qed.

(** What a flush leaves. *)
Record Flushed r r' : Prop := mkFlushed {
  fd_inv : RInv succeeded rank r';
  fd_cancels : cancels (exe r') = [];
  fd_busy : stream_ r' = true → busy (exe r');
  fd_ids : byId r' = byId r;
  fd_names : byName r' = byName r;
  fd_recovered : recovered r' = recovered r;
  fd_still : still (exe r) (exe r');
  fd_deps : deps_same (exe r) (exe r');
  fd_len : vlen (jobs (exe r')) = vlen (jobs (exe r));
  fd_cfg : cfg (exe r') = cfg (exe r);
  fd_zero : remaining (exe r) = 0%N → remaining (exe r') = 0%N;
}.

Lemma flushLocked_spec srt ok size r :
  Pre r → wp (Run.flushLocked srt ok size) (λ _, Flushed r) r.
Proof.
  intros HP. unfold Run.flushLocked. apply (flush_take srt r); [done|].
  intros cs ws e' Hcs Hws Hstill Hdeps Hact (Hlen & Hcfg & Hstr) Hcn Hbusy HI.
  pose proof HP as [_ Hs _ Hwire _ Hst]. pose proof (Static_distinct _ _ _ Hst) as Hdist.
  wp_step. eapply wp_mono; [apply (add_cancel_spec r cs); [done|]|].
  { apply Forall_forall. intros j Hj. by apply Hcs. }
  intros b r' [-> ->]. wp_step.
  eapply wp_mono; [apply (wp_foldM _ (λ rest b r', Flushing r rest b r'))|].
  - split; simpl; try done; [congruence| | |].
    + apply Forall_app. split; [done|]. by apply known_cancels.
    + apply Forall_forall. intros j Hj. by apply Hws.
    + destruct (stream_ r); [|done].
      rewrite app_assoc, Fids_wants, Fids_cancels; try done; apply Forall_forall; intros j Hj; auto.
  - intros jid rest b r' HF. by eapply add_want_spec.
  - intros b r' HF. wp_step. eapply wp_mono; [apply (write_spec ok r [] b r'); [apply Hst|done]|].
    intros b' r'' [[(E1 & E2 & E3 & E4) Hstr' Hlen' Hcfg' Hstill' Hdeps' Hact' Hkn' Hcn' Hbusy' _ _ HI'] [n ->]]. wp_steps.
    simpl in HI'. rewrite app_nil_r in HI'.
    assert (Inv [] [] 0 [] (Fids (byId r'') (wire r'')) (exe r'')) as HI''
      by (rewrite E1; by destruct (stream_ r'')).
    assert (RInv succeeded rank r'') as HR.
    { split; [done..| |]. { simpl in Hkn'. rewrite app_nil_r in Hkn'. unfold known. by rewrite E2. }
      destruct HP as [[HC _] _ _ _ _ _].
      apply (Static_calm succeeded rank r r'' (Fids (byId r'') (wire r''))); try done.
      - intros H0. by apply (remaining_zero _ _ _ _ _ _ HC).
      - by eapply leaves_calm.
      - intros x y H. left. by eapply depends_same. }
    assert (remaining (exe r) = 0%N → remaining (exe r'') = 0%N) as Hzero.
    { destruct HP as [[HC _] _ _ _ _ _].
      apply (calm_remaining (Fids (byId r'') (wire r''))); [|done|by eapply leaves_calm|done].
      intros H0. by apply (remaining_zero _ _ _ _ _ _ HC). }
    destruct ((_ =? 0)%N && _ && _) eqn:Hcl; [|by apply wp_ret]. wp_steps. split; try done.
    destruct HR as [? ? ? ? [? ? _ ? ? ?]]. split; [done..|]. split; try done. intros _. simpl.
    apply andb_prop in Hcl as [[H0%N.eqb_eq _]%andb_prop _]. exact H0.
Qed.
End Flush.
