(* ===== verification/ClientOps.v ===== *)
(** * The sections of the run

    Every section of [GrpcStore::Run] that holds the mutex keeps the run's
    invariant, returns, and leaves the builds of the other threads alone. *)

From S2P Require Import Prelude Double Exec ExecInv ExecSettle ExecOps ExecGraph ExecStream.
From S2P Require Import ExecFollow ClientRun ClientRunInv ClientFlush.

Section Ops.
Context {R : Type} (succeeded : R → bool) (rank : string → nat).
Implicit Types r : run R.

Abbreviation RInv := (ClientRunInv.RInv succeeded rank).

(** A build thread builds the job. *)
Definition runs r (j : N) : Prop := ∃ s, state_is (exe r) j s ∧ is_running s = true.

(** A job has the result [o] of before, or that of its build, which ended. *)
Definition result_from r' (j : N) (o : option R) (a' : RJob.t R) : Prop :=
  RJob.result a' = o ∨
  ∃ v, RJob.result a' = Some v ∧ state_is (exe r') j (Done (Done.mk built (succeeded v) "")).

(** What one section does: the build of [b] may end. *)
Record Sec (b : option N) r r' : Prop := mkSec {
  sec_inv : RInv r';
  sec_runs : ∀ j, runs r' j ↔ runs r j ∧ Some j ≠ b;
  sec_done : ∀ (j : N) d, state_is (exe r) j (Done d) → state_is (exe r') j (Done d);
  sec_jobs : ∀ (j : N) a, byId r !! j = Some a → ∃ a', byId r' !! j = Some a' ∧
    RJob.drvPath a' = RJob.drvPath a ∧ RJob.farmInputs a' = RJob.farmInputs a;
  sec_results : ∀ (j : N) a', byId r' !! j = Some a' → result_from r' j (byId r !! j ≫= RJob.result) a';
  sec_cfg : cfg (exe r') = cfg (exe r);
  sec_zero : remaining (exe r) = 0%N → remaining (exe r') = 0%N;
}.

(** What a flush leaves: nothing that could be sent is held back. *)
Definition flushed r : Prop := cancels (exe r) = [] ∧ (stream_ r = true → busy (exe r)).

Lemma same_results r r' : byId r' = byId r →
  ∀ (j : N) a', byId r' !! j = Some a' → result_from r' j (byId r !! j ≫= RJob.result) a'.
Proof. intros <- j a' ->. by left. Qed.

Lemma Sec_refl r : RInv r → Sec None r r.
Proof.
  intros HR. split; try done; [intros j; split; [by intros|by intros [? _]]|..|by apply same_results].
  intros j a Ha. by exists a.
Qed.

Lemma Sec_then b1 b2 r r1 r2 : Sec b1 r r1 → Sec b2 r1 r2 →
  (∀ (j : N) a, byId r !! j = Some a → ∃ a', byId r2 !! j = Some a' ∧
    RJob.drvPath a' = RJob.drvPath a ∧ RJob.farmInputs a' = RJob.farmInputs a) ∧
  (∀ (j : N) a', byId r2 !! j = Some a' → result_from r2 j (byId r !! j ≫= RJob.result) a').
Proof.
  intros H1 H2. split.
  - intros j a Ha. destruct (sec_jobs _ _ _ H1 j a Ha) as (a1 & Ha1 & <- & <-). by apply (sec_jobs _ _ _ H2).
  - intros j a2 Ha2. destruct (sec_results _ _ _ H2 j a2 Ha2) as [E|?]; [|by right]. unfold result_from. rewrite E.
    destruct (byId r1 !! j) as [a1|] eqn:Ha1; simpl.
    + destruct (sec_results _ _ _ H1 j a1 Ha1) as [?|(v & ? & Hd)]; [by left|right]. exists v.
      split; [done|]. by apply (sec_done _ _ _ H2).
    + left. destruct (byId r !! j) as [a|] eqn:Ha; [|done].
      destruct (sec_jobs _ _ _ H1 j a Ha) as (? & ? & _). congruence.
Qed.

Lemma Sec_trans b r r1 r2 : Sec b r r1 → Sec None r1 r2 → Sec b r r2.
Proof.
  intros H1 H2. destruct (Sec_then _ _ _ _ _ H1 H2) as [Hj Hres].
  destruct H1 as [_ Hr1 Hd1 _ _ Hc1 Hz1], H2 as [HI Hr2 Hd2 _ _ Hc2 Hz2]. split; [done|..|done|done|congruence|by auto].
  - intros j. rewrite Hr2, Hr1. naive_solver.
  - intros j d H. by apply Hd2, Hd1.
Qed.

Lemma Sec_trans_r b r r1 r2 : Sec None r r1 → Sec b r1 r2 → Sec b r r2.
Proof.
  intros H1 H2. destruct (Sec_then _ _ _ _ _ H1 H2) as [Hj Hres].
  destruct H1 as [_ Hr1 Hd1 _ _ Hc1 Hz1], H2 as [HI Hr2 Hd2 _ _ Hc2 Hz2]. split; [done|..|done|done|congruence|by auto].
  - intros j. rewrite Hr2, Hr1. naive_solver.
  - intros j d H. by apply Hd2, Hd1.
Qed.

(** ** From the executor to the run *)

Lemma leaves_runs b r r' :
  leaves b (exe r) (exe r') → vlen (jobs (exe r')) = vlen (jobs (exe r)) →
  ∀ j, runs r' j ↔ runs r j ∧ Some j ≠ b.
Proof.
  intros Hl Hv j. split.
  - intros (s' & Hs' & Hr'). pose proof Hs' as (job' & Hj' & _). apply vlookup_lt_Some in Hj'.
    rewrite Hv in Hj'. apply vlookup_lt in Hj' as [job Hj].
    destruct (Hl j (Job.state job)) as (s2 & Hs2 & _ & Hr2); [by exists job|].
    rewrite (state_is_det _ _ _ _ Hs' Hs2) in Hr'. rewrite Hr' in Hr2. case_decide; [done|].
    split; [|done]. exists (Job.state job). split; [by exists job|done].
  - intros [(s & Hs & Hr) Hne]. destruct (Hl j s Hs) as (s' & Hs' & _ & Hr'). exists s'. split; [done|].
    rewrite Hr'. by rewrite decide_False.
Qed.

Lemma leaves_done b e e' (j : N) d : leaves b e e' → state_is e j (Done d) → state_is e' j (Done d).
Proof. intros Hl Hd. destruct (Hl j _ Hd) as (s' & Hs' & Hc & _). simpl in Hc. by subst. Qed.

Lemma calm_sec b E r e' :
  RInv r → Calm b E (Fids (byId r) (wire r)) (exe r) e' → (∀ x y, E x y → below rank r x y) →
  Sec b r (with_exe e' r).
Proof.
  intros HR HC HE. pose proof HC as [HI (Hv & Hcfg & Hstr) Hl _ _].
  assert (zero_done (exe r)) as Hz by (intros H0; by apply (remaining_zero _ _ _ _ _ _ (r_inv _ _ _ HR))).
  split; [..|by apply (calm_remaining _ _ _ Hz HI (leaves_calm _ _ _ Hl) Hv)].
  - by eapply RInv_calm.
  - by apply leaves_runs.
  - intros j d. by eapply leaves_done.
  - intros j a Ha. by exists a.
  - by apply same_results.
  - done.
Qed.

Lemma wp_on_calm {A} (m : M executor A) b E r :
  RInv r → wp m (λ _, Calm b E (Fids (byId r) (wire r)) (exe r)) (exe r) →
  (∀ x y, E x y → below rank r x y) → wp (Run.on_exe m) (λ _, Sec b r) r.
Proof.
  intros HR Hm HE. unfold Run.on_exe. apply wp_zoom. eapply wp_mono; [exact Hm|].
  intros a e' HC. by apply (calm_sec b E r).
Qed.

Lemma no_edge_below r x y : no_edge x y → below rank r x y.
Proof. done. Qed.

Lemma flush_sec r r' : Flushed succeeded rank r r' → Sec None r r' ∧ flushed r'.
Proof.
  intros [HI Hcn Hb E1 E2 E3 Hl _ Hv Hcfg Hz]. split; [|done]. split; [..|done].
  - done.
  - by apply leaves_runs.
  - intros j d. by eapply leaves_done.
  - rewrite E1. intros j a Ha. by exists a.
  - by apply same_results.
  - done.
Qed.

(** The sections end with a flush. *)
Lemma wp_flush b srt ok size r r1 :
  Sec b r r1 → wp (Run.flushLocked srt ok size) (λ _ r', Sec b r r' ∧ flushed r') r1.
Proof.
  intros HS. eapply wp_mono; [apply (flushLocked_spec succeeded rank); by apply RInv_Pre, HS|].
  intros _ r' [H1 H2]%flush_sec. split; [by eapply Sec_trans|done].
Qed.

Lemma job_known r (j : N) a :
  RInv r → byId r !! j = Some a → ∃ job, jobs (exe r) !! j = Some job.
Proof.
  intros [_ _ _ _ Hst] Ha. apply vlookup_lt. rewrite <- (st_len _ _ _ Hst). by eapply vlookup_lt_Some.
Qed.

Lemma runs_job r j :
  RInv r → runs r j → ∃ a job, byId r !! j = Some a ∧ jobs (exe r) !! j = Some job ∧
    is_running (Job.state job) = true.
Proof.
  intros [_ _ _ _ Hst] (s & (job & Hj & <-) & Hr). assert (∃ a, byId r !! j = Some a) as [a Ha].
  { apply vlookup_lt. rewrite (st_len _ _ _ Hst). by eapply vlookup_lt_Some. }
  by exists a, job.
Qed.

Lemma name_known r p (j : N) :
  RInv r → byName r !! p = Some j →
  ∃ a job, byId r !! j = Some a ∧ RJob.drvPath a = p ∧ jobs (exe r) !! j = Some job.
Proof.
  intros HR Hp. apply (st_names _ _ _ (r_static _ _ _ HR)) in Hp as (a & Ha & Hpa).
  destruct (job_known r j a HR Ha) as [job Hj]. by exists a, job.
Qed.

(** ** Messages, time and the stream *)

Lemma onMsgLocked_spec now m r : RInv r → wp (Run.onMsgLocked now m) (λ _, Sec None r) r.
Proof.
  intros HR. unfold Run.onMsgLocked. wp_steps.
  destruct (byName r !! Run.drvOf m) as [jid|] eqn:Hn; [|apply wp_ret; by apply Sec_refl].
  destruct (name_known r _ jid HR Hn) as (a & job & Ha & Hp & Hj). pose proof (r_inv _ _ _ HR) as HI.
  destruct m; [..|apply wp_ret; by apply Sec_refl].
  - eapply wp_on_calm; [done|by eapply onAssigned_calm|apply no_edge_below].
  - eapply wp_on_calm; [done|by eapply onCached_calm|apply no_edge_below].
  - wp_step. eapply wp_mono; [eapply wp_on_calm; [done|by eapply onUnplaceable_calm|apply no_edge_below]|].
    intros ? r' HS. by apply wp_ret.
  - eapply wp_on_calm; [done|by eapply onPlaceable_calm|apply no_edge_below].
Qed.

Lemma onMsgs_spec srt ok size now ms r :
  RInv r → wp (Run.onMsgs srt ok size now ms) (λ _ r', Sec None r r' ∧ flushed r') r.
Proof.
  intros HR. unfold Run.onMsgs. wp_step.
  eapply wp_mono; [apply (wp_forM _ (λ _ r', Sec None r r')); [by apply Sec_refl|]|].
  - intros m ms' r' HS. eapply wp_mono; [apply (onMsgLocked_spec now m r'); apply HS|]. intros ? r'' HS'. by eapply Sec_trans.
  - intros ? r' HS. by apply wp_flush.
Qed.

Lemma reapUnplaceable_spec srt ok size now grace r :
  RInv r → wp (Run.reapUnplaceable srt ok size now grace) (λ wake r', Sec None r r' ∧ flushed r' ∧
    (wake ≤ now + grace)%Z) r.
Proof.
  intros HR. unfold Run.reapUnplaceable. wp_step. unfold Run.on_exe. apply wp_zoom.
  pose proof (reap_spec _ now grace (exe r) (r_inv _ _ _ HR)) as Hreap.
  eapply wp_mono; [apply (wp_calm _ None (Fids (byId r) (wire r)) (exe r) (λ wake e', reaped now grace wake [] e')
    (keeps_reap now grace) (follow_reap now grace)); exact Hreap|].
  intros wake e' [HC [Hw _]]. wp_step. eapply wp_mono; [apply wp_flush; by eapply (calm_sec _ no_edge)|].
  intros _ r' [HS Hf]. by apply wp_ret.
Qed.

Lemma abandon_section srt ok size r :
  RInv r → wp (Run.abandon srt ok size) (λ _ r', Sec None r r' ∧ flushed r') r.
Proof.
  intros HR. unfold Run.abandon. wp_step. unfold Run.on_exe. apply wp_zoom.
  pose proof (abandon_spec _ (exe r) (r_inv _ _ _ HR)) as Hab.
  eapply wp_mono; [apply (wp_calm _ None (Fids (byId r) (wire r)) (exe r) (λ _ _, True) keeps_abandon follow_abandon)|].
  - eapply wp_mono; [exact Hab|]. intros _ e' (? & ? & ? & ? & _). by split_and!.
  - intros _ e' [HC _]. apply wp_flush. by eapply (calm_sec _ no_edge).
Qed.

Lemma Fids_nil (ids : list (RJob.t R)) : Fids ids [] = ∅.
Proof. apply set_eq. intros j. rewrite elem_of_Fids. unfold follows_after. simpl. set_solver. Qed.

Lemma detach_spec r : RInv r → wp Run.detach (λ n r', Sec None r r' ∧ stream_ r' = false ∧
  n = remaining (exe r')) r.
Proof.
  intros HR. pose proof HR as [HI Hs Ha Hw Hst]. unfold Run.detach. wp_steps. unfold Run.on_exe. apply wp_zoom. simpl.
  eapply wp_mono; [exact (wp_keeps _ _ _ _ keeps_disconnected (disconnected_spec _ _ _ HI))|].
  intros _ e' [(HI' & Hs' & Hv & Hcfg & Hstates & Hcn & _) Hd]. wp_steps. split; [|done].
  assert (still (exe r) e') as Hl.
  { intros j s Hj. exists s. split; [by apply Hstates|]. split; [apply calm_state_refl|by case_decide]. }
  assert (Inv [] [] 0 [] (Fids (byId r) (wire r)) e') as HI2.
  { eapply unstreamed_any; [done..|]. by rewrite Hv, (st_len _ _ _ Hst). }
  assert (zero_done (exe r)) as Hz by (intros H0; by apply (remaining_zero _ _ _ _ _ _ HI)).
  split; simpl; [|by apply leaves_runs| |intros j a Ha'; by exists a|by intros j a' ->; left|done|
    by apply (calm_remaining _ _ _ Hz HI2 (leaves_calm _ _ _ Hl) Hv)].
  - split; simpl; try done; [by intros ?; congruence|].
    apply (Static_calm succeeded rank r _ (Fids (byId r) (wire r))); try done.
    + by eapply leaves_calm.
    + intros x y H. left. by eapply depends_same.
  - intros j d. by apply (leaves_done None).
Qed.

Lemma attach_spec srt ok size r :
  RInv r → stream_ r = false → wp (Run.attach srt ok size) (λ _ r', Sec None r r' ∧ flushed r') r.
Proof.
  intros HR Hoff. pose proof HR as [HI Hs Ha Hw Hst]. rewrite Hoff in Hs.
  unfold Run.attach. wp_steps. unfold Run.on_exe. apply wp_zoom. simpl.
  eapply wp_mono; [exact (wp_keeps _ _ _ _ keeps_connected (connected_spec _ _ HI Hs))|].
  intros _ e' [([HC HRw] & Hs' & Hv & Hcfg & Hb & Hcn & Hact) Hd].
  set (r1 := with_exe e' _). assert (still (exe r) e') as Hl by by apply backs_still.
  assert (Pre succeeded rank r1) as HP.
  { split; simpl; try done.
    - by rewrite Fids_nil.
    - intros _ j job Hj Hja. right. by eapply Hact.
    - destruct Hst as [Hlen Hn _ Hbu He Hf]. split; simpl; try done.
      + by rewrite Hv.
      + intros j d Hd' Ho. destruct (calm_back _ _ _ _ (leaves_calm _ _ _ Hl) Hv Hd') as (s & Hsj & Hcs).
        unfold calm_state in Hcs. destruct s as [| | | | |d']; try (by destruct (Hcs d eq_refl Ho)).
        injection Hcs as ->. by apply Hbu.
      + intros x y H. apply He. by eapply depends_same. }
  eapply wp_mono; [by apply (flushLocked_spec succeeded rank)|].
  intros ? r' HF. destruct (flush_sec r1 r' HF) as [[HI' Hr' Hd' Hj' Hres' Hc' Hz'] Hfl]. split; [|done].
  assert (zero_done (exe r)) as Hz by (intros H0; by apply (remaining_zero _ _ _ _ _ _ HI)).
  split; [done|..].
  - intros j. rewrite Hr'. assert (runs r1 j ↔ runs r j) as ->; [|done].
    rewrite (leaves_runs None r r1); [|done..]. naive_solver.
  - intros j d H. apply Hd'. by apply (leaves_done None (exe r)).
  - intros j b Hb'. by apply (Hj' j b).
  - exact Hres'.
  - by rewrite Hc'.
  - intros H0. apply Hz'. apply (remaining_zero _ _ _ _ _ _ HC). simpl. intros j s' Hsj.
    destruct (calm_back _ _ _ _ (leaves_calm _ _ _ Hl) Hv Hsj) as (s & Hs0 & Hcs).
    pose proof (Hz H0 j s Hs0). destruct s; try done. simpl in Hcs. by subst.
Qed.

(** ** The build threads *)

(** [next] hands out a job that nobody builds, and only one that is placed. *)
Lemma Evolves_runs (r r' : run R) jid s' :
  Evolves (eq jid) (exe r) (exe r') → state_is (exe r') jid s' →
  ∀ j, runs r' j ↔ if decide (j = jid) then is_running s' = true else runs r j.
Proof.
  intros Hev Hs' j. destruct (decide (j = jid)) as [->|Hne].
  - split; [|intros ?; by exists s']. intros (s & Hs & Hr). by rewrite (state_is_det _ _ _ _ Hs' Hs).
  - assert (∀ job, jobs (exe r) !! j = Some job → ∃ job', jobs (exe r') !! j = Some job' ∧
      is_running (Job.state job') = is_running (Job.state job)) as H.
    { intros job Hj. destruct (ev_jobs _ _ _ Hev j job Hj) as (job' & Hj' & He); [by intros ->|].
      exists job'. split; [done|by eapply evolve_running]. }
    split.
    + intros (s & (job' & Hj' & <-) & Hr). assert (∃ job, jobs (exe r) !! j = Some job) as [job Hj].
      { apply vlookup_lt. rewrite <- (ev_len _ _ _ Hev). by eapply vlookup_lt_Some. }
      destruct (H job Hj) as (job2 & ? & E). simplify_eq. exists (Job.state job). split; [by exists job|congruence].
    + intros (s & (job & Hj & <-) & Hr). destruct (H job Hj) as (job' & Hj' & E).
      exists (Job.state job'). split; [by exists job'|congruence].
Qed.

Lemma Evolves_done e e' jid (j : N) d :
  Evolves (eq jid) e e' → j ≠ jid → state_is e j (Done d) → state_is e' j (Done d).
Proof.
  intros Hev Hne (job & Hj & Hs). destruct (ev_jobs _ _ _ Hev j job Hj) as (job' & Hj' & _ & _ & _ & H); [by intros ->|].
  rewrite Hs in H. by exists job'.
Qed.

(** The invariant after an operation of one job. *)
Lemma RInv_evolves r e' jid job s' :
  RInv r → Inv [] [] 0 [] (Fids (byId r) (wire r)) e' → Evolves (eq jid) (exe r) e' →
  deps_same (exe r) e' → follow_step (exe r) e' →
  jobs (exe r) !! jid = Some job → state_is e' jid s' → calm_state (Job.state job) s' →
  RInv (with_exe e' r).
Proof.
  intros [HI Hs Ha Hw Hst] HI' Hev Hd Hact Hj Hs' Hc. pose proof Hev as [Hv _ Hstr _ _ _].
  split; simpl; [done|congruence|by apply Hact|done|].
  apply (Static_calm succeeded rank r _ (Fids (byId r) (wire r))); try done.
  - intros H0. by apply (remaining_zero _ _ _ _ _ _ HI).
  - by eapply Evolves_calm_one.
  - intros x y H. left. by eapply depends_same.
Qed.

Lemma busy_step F F' e e' :
  Inv [] [] 0 [] F e → Inv [] [] 0 [] F' e' → cfg e' = cfg e → wsum act (jobs e') = wsum act (jobs e) →
  (∀ j, state_is e' j Wantable → state_is e j Wantable) → busy e → busy e'.
Proof.
  intros HI HI' Hcfg Hact Hw [Hb|Hb]; [left|right; intros j Hj; by destruct (Hb j); apply Hw].
  rewrite Hcfg, (i_active _ _ _ _ _ _ HI'), Hact, <- Hb. symmetry. apply HI.
Qed.

Lemma next_spec r :
  RInv r →
  wp Run.next (λ got r', byId r' = byId r ∧ cfg (exe r') = cfg (exe r) ∧ stream_ r' = stream_ r ∧
    (busy (exe r) → busy (exe r')) ∧ (remaining (exe r) = 0%N → remaining (exe r') = 0%N) ∧
    match got with
    | Some (jid, a, p) => RInv r' ∧ byId r !! jid = Some a ∧
        state_is (exe r) jid (Assigned p) ∧ state_is (exe r') jid (Running p None) ∧
        (∀ j, runs r' j ↔ runs r j ∨ j = jid) ∧
        ∀ (j : N) d, state_is (exe r) j (Done d) → state_is (exe r') j (Done d)
    | None => Sec None r r' ∧ jobs (exe r') = jobs (exe r) ∧
        ∀ j p, ¬ state_is (exe r) j (Assigned p)
    end) r.
Proof.
  intros HR. pose proof HR as [HI Hs Ha Hw Hst]. unfold Run.next. wp_step. unfold Run.on_exe. apply wp_zoom.
  assert (wp Exec.next (λ got e', Inv [] [] 0 [] (Fids (byId r) (wire r)) e' ∧
    match got with
    | Some (jid, p) => Evolves (eq jid) (exe r) e' ∧
        state_is (exe r) jid (Assigned p) ∧ state_is e' jid (Running p None) ∧
        ∃ job, jobs (exe r) !! jid = Some job ∧
          jobs e' = <[jid := Job.with_state (Running p None) job]> (jobs (exe r))
    | None => Evolves nobody (exe r) e' ∧ jobs e' = jobs (exe r) ∧ ready e' = [] ∧
        ∀ (j : N) job, jobs (exe r) !! j = Some job → is_assigned (Job.state job) = false
    end) (exe r)) as Hnext by (unfold Exec.next; wp_steps; by apply next_loop_spec).
  eapply wp_mono; [exact (wp_keeps _ _ _ _ follow_next (wp_keeps _ _ _ _ keeps_next Hnext))|].
  intros [[jid p]|] e' [[[HI' Hpost] Hd] Hact].
  - destruct Hpost as (Hev & Has & Hru & job & Hj & Ejobs).
    assert (Job.state job = Assigned p) as Hjs by (destruct Has as (job' & ? & ?); by simplify_eq).
    assert (∃ a, byId r !! jid = Some a) as [a Hja].
    { apply vlookup_lt. rewrite (st_len _ _ _ Hst). by eapply vlookup_lt_Some. }
    wp_step. unfold Run.job_of. eapply wp_at; [done|]. wp_steps.
    split; [done|]. split; [by apply (ev_cfg _ _ _ Hev)|]. split; [done|].
    split; [apply (busy_step _ _ _ _ HI HI' (ev_cfg _ _ _ Hev))|].
    { rewrite Ejobs, (wsum_insert_same act _ jid job); [done..|]. unfold act. by rewrite Hjs. }
    { intros j (job' & Hj' & Hjs'). rewrite Ejobs in Hj'.
      apply (lookup_replace _ _ _ _ Hj) in Hj' as [[-> ->]|[_ ?]]; [done|by exists job']. }
    split; [|split_and!; try done].
    { intros H0. pose proof (proj1 (remaining_zero _ _ _ _ _ _ HI) H0 jid _ Has). done. }
    + eapply RInv_evolves; try done. rewrite Hjs. by intros ? [=].
    + intros j. rewrite (Evolves_runs r (with_exe e' r) jid (Running p None)); [|done..].
      case_decide; naive_solver.
    + intros j d Hjd. apply (Evolves_done (exe r) e' jid); [done| |done]. intros ->.
      by pose proof (state_is_det _ _ _ _ Has Hjd).
  - destruct Hpost as (Hev & Ejobs & _ & Hnone). apply wp_ret. split; [done|].
    split; [by apply (ev_cfg _ _ _ Hev)|]. split; [done|].
    split; [apply (busy_step _ _ _ _ HI HI' (ev_cfg _ _ _ Hev)); [by rewrite Ejobs|]|].
    { intros j (job' & Hj' & Hjs'). rewrite Ejobs in Hj'. by exists job'. }
    split; [simpl; rewrite (i_remaining _ _ _ _ _ _ HI), (i_remaining _ _ _ _ _ _ HI'), Ejobs; done|].
    split_and!; [|done|].
    + eapply (calm_sec None no_edge); [done| |done]. split; try done.
      * by eapply Evolves_frame0.
      * by apply Evolves_still_nobody.
      * intros x y H. left. by eapply depends_same.
    + intros j p (job & Hj & Hjs). specialize (Hnone j job Hj). by rewrite Hjs in Hnone.
Qed.

(** A build that ended: the thread's result is the job's. *)
Lemma Static_result r (jid : N) a res :
  Static succeeded rank r → byId r !! jid = Some a → runs r jid →
  Static succeeded rank (with_byId (<[jid := RJob.with_result (Some res) a]> (byId r)) r).
Proof.
  intros [Hlen Hn Hcl Hb He Hf] Ha Hrun. set (a' := RJob.with_result (Some res) a).
  assert (∀ (j : N) b, <[jid := a']> (byId r) !! j = Some b → ∃ b0, byId r !! j = Some b0 ∧
    RJob.drvPath b = RJob.drvPath b0 ∧ RJob.farmInputs b = RJob.farmInputs b0 ∧ (j ≠ jid → b = b0)) as Hback.
  { intros j b Hb'. apply (vlookup_insert_Some _ jid j) in Hb' as [(<- & <- & _)|[Hne Hb']];
      [exists a|exists b]; by split_and!. }
  assert (∀ (j : N) b, byId r !! j = Some b → ∃ b', <[jid := a']> (byId r) !! j = Some b' ∧
    RJob.drvPath b' = RJob.drvPath b ∧ (j ≠ jid → b' = b)) as Hfwd.
  { intros j b Hb'. destruct (decide (jid = j)) as [->|Hne].
    - simplify_eq. exists a'. split; [|done]. apply vlookup_insert_eq. by eapply vlookup_lt_Some.
    - exists b. split; [by rewrite vlookup_insert_ne|done]. }
  split; simpl.
  - by rewrite vlen_insert.
  - intros p j. rewrite Hn. split.
    + intros (b & Hb' & <-). destruct (Hfwd j b Hb') as (b' & ? & ? & _). by exists b'.
    + intros (b & Hb' & <-). destruct (Hback j b Hb') as (b0 & ? & ? & _). by exists b0.
  - done.
  - intros j d Hd Ho. destruct (Hb j d Hd Ho) as (b & rs & Hb' & Hrs & Hok).
    destruct (Hfwd j b Hb') as (b' & Hb2 & _ & Heq). exists b', rs. split; [done|]. rewrite Heq; [done|].
    intros ->. destruct Hrun as (s & Hs & Hr). by rewrite (state_is_det _ _ _ _ Hs Hd) in Hr.
  - intros x y Hxy. destruct (He x y Hxy) as (b & c & Hb' & Hc' & Hlt).
    destruct (Hfwd x b Hb') as (b' & ? & Eb & _). destruct (Hfwd y c Hc') as (c' & ? & Ec & _).
    exists b', c'. by rewrite Eb, Ec.
  - intros j b p d Hb' Hp. destruct (Hback j b Hb') as (b0 & Hb0 & E1 & E2 & _). rewrite E1.
    apply (Hf j b0 p d Hb0). by rewrite <- E2.
Qed.

Lemma Fids_paths (ids ids' : list (RJob.t R)) ms :
  (∀ (j : N) p, (∃ a, ids' !! j = Some a ∧ RJob.drvPath a = p) ↔ (∃ a, ids !! j = Some a ∧ RJob.drvPath a = p)) →
  Fids ids' ms = Fids ids ms.
Proof.
  intros H. apply set_eq. intros j. rewrite !elem_of_Fids. split.
  - intros (a & Ha & Hin). destruct (proj1 (H j (RJob.drvPath a))) as (b & ? & E); [by exists a|].
    exists b. by rewrite E.
  - intros (a & Ha & Hin). destruct (proj2 (H j (RJob.drvPath a))) as (b & ? & E); [by exists a|].
    exists b. by rewrite E.
Qed.

Lemma runs_open r jid : RInv r → runs r jid → closed r = false ∧ remaining (exe r) ≠ 0%N.
Proof.
  intros [HI _ _ _ Hst] (s & Hs & Hr). assert (remaining (exe r) ≠ 0%N) as Hne.
  { intros H0. pose proof (proj1 (remaining_zero _ _ _ _ _ _ HI) H0 jid s Hs). by destruct s. }
  split; [|done]. destruct (closed r) eqn:Hc; [|done]. by destruct Hne; apply (st_closed _ _ _ Hst).
Qed.

Lemma Static_finished r e' (jid : N) a res F' :
  Static succeeded rank r → closed r = false →
  byId r !! jid = Some a → RJob.result a = Some res →
  Inv [] [] 0 [] F' e' → Evolves (eq jid) (exe r) e' → deps_same (exe r) e' →
  state_is e' jid (Done (Done.mk built (succeeded res) "")) → Static succeeded rank (with_exe e' r).
Proof.
  intros [Hlen Hn Hcl Hb He Hf] Hop Ha Hres HI' Hev Hd Hs'. pose proof (ev_len _ _ _ Hev) as Hv. split; simpl.
  - congruence.
  - done.
  - by rewrite Hop.
  - intros j d Hjd Ho. destruct (decide (j = jid)) as [->|Hne].
    + pose proof (state_is_det _ _ _ _ Hjd Hs') as [= ->]. by exists a, res.
    + apply Hb; [|done]. destruct Hjd as (job' & Hj' & Hjs'). assert (∃ job, jobs (exe r) !! j = Some job) as [job Hj].
      { apply vlookup_lt. rewrite <- Hv. by eapply vlookup_lt_Some. }
      destruct (ev_jobs _ _ _ Hev j job Hj) as (job2 & ? & Hevj); [by intros ->|]. simplify_eq.
      pose proof (evolve_calm _ _ _ Hevj) as Hc. rewrite Hjs' in Hc. unfold calm_state in Hc.
      destruct (Job.state job) eqn:E; try (by destruct (Hc d eq_refl Ho)). injection Hc as ->. by exists job.
  - intros x y H. apply He. by eapply depends_same.
  - done.
Qed.

Lemma built_spec r jid res :
  RInv r → runs r jid →
  wp (job ← Run.job_of jid;
      set_at byId with_byId jid (RJob.with_result (Some res) job);;
      Run.on_exe (finished jid (succeeded res)))
    (λ _ r', Sec (Some jid) r r' ∧ state_is (exe r') jid (Done (Done.mk built (succeeded res) ""))) r.
Proof.
  intros HR Hrun. destruct (runs_job r jid HR Hrun) as (a & job & Ha & Hj & Hjr).
  destruct (runs_open r jid HR Hrun) as [Hop _]. pose proof HR as [HI Hs Hact Hw Hst].
  unfold Run.job_of. wp_step. eapply wp_at; [done|]. wp_step. eapply wp_set_at; [by eapply vlookup_lt_Some|].
  set (a' := RJob.with_result (Some res) a). set (r1 := with_byId (<[jid := a']> (byId r)) r).
  pose proof (Static_result r jid a res Hst Ha Hrun) as Hst1. change (Static succeeded rank r1) in Hst1.
  assert (byId r1 !! jid = Some a') as Ha1 by (apply vlookup_insert_eq; by eapply vlookup_lt_Some).
  assert (Fids (byId r1) (wire r) = Fids (byId r) (wire r)) as HF.
  { apply Fids_paths. intros j p. rewrite <- (st_names _ _ _ Hst1), <- (st_names _ _ _ Hst). done. }
  unfold Run.on_exe. apply wp_zoom. change (exe r1) with (exe r).
  pose proof (finished_spec [] _ _ jid job (succeeded res) HI Hj) as Hfin.
  eapply wp_mono; [exact (wp_keeps _ _ _ _ (follow_finished _ _) (wp_keeps _ _ _ _ (keeps_finished _ _) Hfin))|].
  rewrite Hjr. intros ? e' [[(HI' & Hev & Hs') Hd] Hfol]. split; [|done]. split; simpl.
  - split; simpl; [unfold r1 in HF; simpl in HF; by rewrite HF|by rewrite (ev_stream _ _ _ Hev)|by apply Hfol|done|].
    by eapply (Static_finished r1 e' jid a').
  - intros j. rewrite (Evolves_runs r (with_exe e' r1) jid (Done (Done.mk built (succeeded res) ""))); [|done..].
    case_decide; naive_solver.
  - intros j d Hjd. apply (Evolves_done (exe r) e' jid); [done| |done]. intros ->.
    destruct Hjd as (job0 & ? & Hs0). simplify_eq. by rewrite Hs0 in Hjr.
  - intros j b Hb. destruct (decide (jid = j)) as [<-|Hne].
    + simplify_eq. by exists a'.
    + exists b. split; [by rewrite vlookup_insert_ne|done].
  - intros j b Hb. apply (vlookup_insert_Some _ jid j) in Hb as [(<- & <- & _)|[Hne Hb]].
    + right. by exists res.
    + left. by rewrite Hb.
  - by apply (ev_cfg _ _ _ Hev).
  - intros H0. by destruct (runs_open r jid HR Hrun).
Qed.

Definition ended_by (res : Attempt R) (jid : N) : option N :=
  match res with MissingInput _ => None | _ => Some jid end.

Lemma work_done_spec srt ok size jid res r :
  RInv r → (ended_by res jid = Some jid → runs r jid) →
  wp (Run.work_done succeeded srt ok size jid res) (λ _ r', Sec (ended_by res jid) r r' ∧ flushed r' ∧
    ∀ v, res = Built v → state_is (exe r') jid (Done (Done.mk built (succeeded v) ""))) r.
Proof.
  intros HR Hrun. unfold Run.work_done. destruct res as [v| |p]; simpl in *.
  - wp_step. eapply wp_mono; [by apply built_spec; auto|]. intros ? r1 [HS Hd]. simpl in HS.
    eapply wp_mono; [by apply (flushLocked_spec succeeded rank), RInv_Pre, HS|].
    intros ? r' HF. destruct (flush_sec r1 r' HF) as [HS' Hfl]. split; [by eapply Sec_trans|].
    split; [done|]. intros v' [= <-]. by apply HS'.
  - specialize (Hrun eq_refl). destruct (runs_job r jid HR Hrun) as (a & job & Ha & Hj & Hjr).
    wp_step. eapply wp_mono; [eapply (wp_on_calm _ (Some jid) no_edge); [done| |done];
      eapply bounced_calm; [apply HR|done..]|].
    intros ? r1 HS. eapply wp_mono; [exact (wp_flush (Some jid) srt ok size r r1 HS)|]. intros ? r' [? ?]. by split_and!.
  - wp_steps. eapply wp_mono; [exact (wp_flush None srt ok size r r (Sec_refl r HR))|]. intros ? r' [? ?]. by split_and!.
Qed.
End Ops.
