(* ===== verification/ClientGraph.v ===== *)
(** * Jobs added to the run

    [Run::addLocked], the constructor, which adds the inputs of a job before the
    job, and [Run::recover], which adds the producer of an input the farm lost. *)

From S2P Require Import Prelude Double Exec ExecInv ExecSettle ExecOps ExecGraph ExecStream.
From S2P Require Import ExecFollow ClientRun ClientRunInv ClientFlush ClientOps.

(** ** The edges of the graph

    The edges a run was made with are never lost, whatever its operations do. *)

Definition edges_kept (e e' : executor) : Prop := ∀ x y, depends e x y → depends e' x y.
#[export] Instance edges_kept_preorder : PreOrder edges_kept.
Proof. split; [by intros e x y|]. intros e1 e2 e3 H1 H2 x y ?. by apply H2, H1. Qed.

Lemma deps_same_kept e e' : deps_same e e' → edges_kept e e'.
Proof. intros [_ Hd] x y (jy & Hy & Hin). destruct (Hd y jy Hy) as (jy' & ? & E). exists jy'. by rewrite E. Qed.
Lemma keeps_edges {A} (m : M executor A) : keeps deps_same m → keeps edges_kept m.
Proof. intros Hm e. apply deps_same_kept, Hm. Qed.

Lemma edges_upd input f :
  (∀ j, Job.dependants j ⊆ Job.dependants (f j)) → keeps edges_kept (upd_job input f).
Proof.
  intros Hf e x y (jy & Hy & Hin). unfold exec, upd_job, job_at, set_job, at_, set_at, mbind, M_bind.
  destruct (jobs e !! input) as [j|] eqn:Hj; simpl; [|by exists jy]. rewrite Hj. simpl.
  unfold depends. simpl. setoid_rewrite (lookup_replace _ _ _ _ Hj). destruct (decide (y = input)) as [->|Hne].
  - simplify_eq. exists (f jy). split; [by left|by apply Hf].
  - exists jy. split; [by right|done].
Qed.
Lemma edges_append input jid : keeps edges_kept (upd_job input (λ j, Job.with_dependants (Job.dependants j ++ [jid]) j)).
Proof. apply edges_upd. intros j x Hx. apply elem_of_app. by left. Qed.

Ltac edges_step :=
  first
  [ apply keeps_edges; by eauto with keeps
  | apply edges_append
  | apply edges_upd; by intros ? ? ?
  | apply keeps_bind; [apply _| |intros ?]
  | apply keeps_ret; apply _ | apply keeps_gets; apply _
  | apply keeps_modify; intros ?; apply deps_same_kept, deps_same_jobs; reflexivity
  | apply keeps_foldM; [apply _|intros ? ?]
  | case_match ].

Lemma edges_add_input jid w input : keeps edges_kept (add_input jid w input).
Proof. unfold add_input. repeat edges_step. Qed.
Lemma edges_add prio inputs : keeps edges_kept (add prio inputs).
Proof.
  unfold add. edges_step; [edges_step|]. edges_step; [|repeat first [apply edges_add_input|edges_step]].
  apply keeps_modify. intros e x y (jy & Hy & Hin). exists jy. split; [|done]. simpl. apply vlookup_snoc_Some. by left.
Qed.
Lemma edges_blockOn jid input : keeps edges_kept (blockOn jid input).
Proof. unfold blockOn. repeat edges_step. Qed.

(** Before anything ran, no job is done, and none is going to be. *)
Record fresh (e : executor) : Prop := mkFresh {
  fr_jobs : ∀ (j : N) job, jobs e !! j = Some job → is_done (Job.state job) = false ∧ Job.failedInput job = None;
  fr_stopping : stopping e = false;
  fr_abandoned : abandoned e = false;
}.

Lemma fresh_set e jid job b :
  fresh e → jobs e !! jid = Some job → is_done (Job.state b) = false → Job.failedInput b = None →
  fresh (with_jobs (<[jid := b]> (jobs e)) e).
Proof.
  intros [Hj Hs Ha] Hjob Hd Hf. split; simpl; [|done|done]. intros i a [[_ ->]|[_ Hi]]%(lookup_replace _ _ _ _ Hjob); [by split|by eapply Hj].
Qed.

Lemma fresh_release jid job e :
  fresh e → jobs e !! jid = Some job → wp (release jid) (λ _ e', fresh e') e.
Proof.
  intros He Hj. pose proof He as [Hjs Hs Ha]. destruct (Hjs _ _ Hj) as [_ Hf]. unfold release, unblock. wp_step. wp_step.
  unfold job_at at 1. eapply wp_at; [done|]. rewrite Hf. wp_steps. rewrite Hs. wp_steps. rewrite Ha. wp_steps.
  unfold to. wp_step. unfold job_at. eapply wp_at; [done|]. wp_steps. eapply wp_set_job; [done|]. unfold push_wantable. wp_steps.
  destruct (fresh_set e jid job (Job.with_state Wantable job)) as [F1 F2 F3]; try done.
Qed.

(** A job that is added to a fresh executor waits for each of its inputs. *)
Lemma add_fresh prio inputs e :
  fresh e → (vlen (jobs e) + 1 < 2 ^ 32)%N → Forall (λ i, i < vlen (jobs e))%N inputs →
  wp (add prio inputs) (λ jid e', fresh e' ∧ ∀ i, i ∈ inputs → depends e' jid i) e.
Proof.
  intros He Hlen Hins. unfold add. wp_steps. rewrite u32_small by lia. set (jid := vlen (jobs e)). set (e1 := with_remaining _ _).
  assert (fresh e1) as He1.
  { destruct He as [Hj Hs Ha]. split; simpl; [|done|done]. intros j job [?|[_ <-]]%vlookup_snoc_Some; [by eapply Hj|done]. }
  eapply wp_mono; [apply (wp_foldM _ (λ rest _ e', fresh e' ∧ (vlen (jobs e) + 1)%N = vlen (jobs e') ∧ Forall (λ i, i < jid)%N rest ∧
    ∀ i, i ∈ inputs → i ∈ rest ∨ depends e' jid i))|].
  - split_and!; [done|unfold e1; simpl; by rewrite vlen_app|done|by auto].
  - intros i rest w e2 (He2 & Hv & [Hi Hrest]%Forall_cons & Hall). unfold add_input. wp_step. unfold job_at.
    assert (∃ job, jobs e2 !! i = Some job) as [job Hj] by (apply vlookup_lt; unfold jid in *; lia).
    eapply wp_at; [done|]. destruct (fr_jobs _ He2 _ _ Hj) as [Hd Hf].
    assert (wp (upd_job i (λ j, Job.with_dependants (Job.dependants j ++ [jid]) j);; mret (u64 (w + 1)))
      (λ _ e', fresh e' ∧ (vlen (jobs e) + 1)%N = vlen (jobs e') ∧ Forall (λ i, i < jid)%N rest ∧
        ∀ i, i ∈ inputs → i ∈ rest ∨ depends e' jid i) e2) as Hgo; [|by destruct (Job.state job)].
    wp_step. eapply wp_mono; [eapply (wp_keeps _ _ (λ _ e', e' = _)); [apply edges_append|by eapply wp_upd_job]|].
    intros ? e3 [-> Hkept]. wp_steps. split_and!; [by apply (fresh_set e2 i job)|simpl; by rewrite vlen_insert|done|].
    intros k Hk. destruct (Hall k Hk) as [[->|?]%elem_of_cons|Hdep]; [right|by left|right; by apply Hkept].
    eexists. split; [by apply (lookup_replace _ _ _ _ Hj); left|]. simpl. apply elem_of_app. right. by left.
  - intros w e2 (He2 & Hv & _ & Hall). assert (∀ i, i ∈ inputs → depends e2 jid i) as Hdeps.
    { intros i Hi. destruct (Hall i Hi) as [?%elem_of_nil|?]; done. }
    assert (∃ job, jobs e2 !! jid = Some job) as [job Hj] by (apply vlookup_lt; unfold jid in *; lia).
    wp_step. eapply wp_mono; [eapply (wp_keeps _ _ (λ _ e', e' = _)); [by apply keeps_upd_job|by eapply wp_upd_job]|].
    intros ? e3 [-> Hsame]. assert (fresh (with_jobs (<[jid := Job.with_state (Blocked w) job]> (jobs e2)) e2)) as He3.
    { apply (fresh_set e2 jid job); [done|done|done|]. apply (fr_jobs _ He2 _ _ Hj). }
    wp_step. apply wp_mono with (λ _ e', fresh e' ∧ deps_same e2 e').
    2:{ intros ? e4 [He4 Hs]. wp_steps. split; [done|]. intros i Hi. apply (deps_same_kept _ _ Hs), Hdeps, Hi. }
    destruct (w =? 0)%N; [|by wp_steps]. eapply wp_mono; [eapply (wp_keeps _ _ (λ _ e', fresh e')); [apply keeps_release|]|].
    { by apply (fresh_release jid (Job.with_state (Blocked w) job)); [|apply (lookup_replace _ _ _ _ Hj); left]. }
    intros ? e4 [? ?]. split; [done|]. by etrans.
Qed.

Section Graph.
Context {R : Type} (succeeded : R → bool) (rank : string → nat).
Implicit Types r : run R.

Abbreviation RInv := (ClientRunInv.RInv succeeded rank).
Abbreviation Sec := (ClientOps.Sec succeeded rank).

(** ** One more job *)

Lemma Fids_snoc (ids : list (RJob.t R)) job ms :
  RJob.drvPath job ∉ follows_after ms → Fids (ids ++ [job]) ms = Fids ids ms.
Proof.
  intros Hn. apply set_eq. intros j. rewrite !elem_of_Fids. split.
  - intros (a & [Ha|[_ <-]]%vlookup_snoc_Some & Hin); [by exists a|done].
  - intros (a & Ha & Hin). exists a. split; [|done]. apply vlookup_snoc_Some. by left.
Qed.

(** What the run needs of a job. *)
Definition job_ok (job : RJob.t R) : Prop :=
  ∀ p d, RJob.farmInputs job !! p = Some d → rank d < rank (RJob.drvPath job).

Lemma Static_added r e' job inputs F' :
  RInv r → closed r = false → byName r !! RJob.drvPath job = None → job_ok job →
  Forall (λ i : N, ∃ a, byId r !! i = Some a ∧ rank (RJob.drvPath a) < rank (RJob.drvPath job)) inputs →
  Inv [] [] 0 [] F' e' → vlen (jobs e') = (vlen (jobs (exe r)) + 1)%N → still (exe r) e' →
  (∀ s, state_is e' (vlen (jobs (exe r))) s → ∀ d, s = Done d → Done.outcome d ≠ built) →
  (∀ (y : N) jy' x, jobs e' !! y = Some jy' → x ∈ Job.dependants jy' →
     depends (exe r) x y ∨ (x = vlen (jobs (exe r)) ∧ y ∈ inputs)) →
  Static succeeded rank (mkRun e' (byId r ++ [job]) (<[RJob.drvPath job := vlen (byId r)]> (byName r))
    (recovered r) false (stream_ r) (wire r)).
Proof.
  intros [HI _ _ _ [Hlen Hn Hcl Hb He Hf]] Hop Hnew Hok Hins HI' Hv Hst Hnb Hd. split; simpl.
  - rewrite vlen_app, Hv, Hlen. done.
  - intros p j. split.
    + intros [[<- <-]|[Hne Hp]]%lookup_insert_Some.
      * exists job. split; [|done]. apply vlookup_snoc_Some. by right.
      * apply Hn in Hp as (a & Ha & <-). exists a. split; [|done]. apply vlookup_snoc_Some. by left.
    + intros (a & [Ha|[-> <-]]%vlookup_snoc_Some & <-); [|by rewrite lookup_insert_eq].
      rewrite lookup_insert_ne; [apply Hn; by exists a|]. intros E. rewrite E in Hnew.
      assert (byName r !! RJob.drvPath a = Some j); [apply Hn; by exists a|congruence].
  - done.
  - intros j d Hjd Ho. destruct (decide (j = vlen (jobs (exe r)))) as [->|Hne]; [by destruct (Hnb _ Hjd d eq_refl)|].
    pose proof Hjd as (job' & Hj' & _). apply vlookup_lt_Some in Hj'.
    assert (∃ jb, jobs (exe r) !! j = Some jb) as [jb Hjb] by (apply vlookup_lt; lia).
    destruct (Hst j (Job.state jb)) as (s' & Hs' & Hc & _); [by exists jb|].
    rewrite <- (state_is_det _ _ _ _ Hjd Hs') in Hc. unfold calm_state in Hc.
    destruct (Job.state jb) eqn:E; try (by destruct (Hc d eq_refl Ho)). injection Hc as ->.
    destruct (Hb j d0) as (a & res & Ha & ?); [by exists jb|done|]. exists a, res.
    split; [|done]. apply vlookup_snoc_Some. by left.
  - intros x y (jy' & Hy' & Hin). destruct (Hd y jy' x Hy' Hin) as [(a & b & Ha & Hb' & Hlt)%He|[-> Hy]].
    + exists a, b. split_and!; [..|done]; apply vlookup_snoc_Some; by left.
    + rewrite Forall_forall in Hins. destruct (Hins y Hy) as (b & Hb' & Hlt). exists job, b.
      split_and!; [..|done]; apply vlookup_snoc_Some; [right|by left]. by rewrite Hlen.
  - intros j a p d [Ha|[_ <-]]%vlookup_snoc_Some; [by apply (Hf j)|apply Hok].
Qed.

Lemma addLocked_spec job inputs r :
  RInv r → closed r = false → byName r !! RJob.drvPath job = None → job_ok job → RJob.result job = None →
  Forall (λ i : N, ∃ a, byId r !! i = Some a ∧ rank (RJob.drvPath a) < rank (RJob.drvPath job)) inputs →
  (vlen (byId r) + 1 < 2 ^ 32)%N → (vlen inputs < 2 ^ 64)%N →
  wp (Run.addLocked job inputs) (λ jid r', RInv r' ∧ (∀ j, runs r' j → runs r j) ∧
    (remaining (exe r) ≠ 0%N → Sec None r r') ∧ jid = vlen (byId r) ∧
    byId r' = byId r ++ [job] ∧ byName r' = <[RJob.drvPath job := jid]> (byName r) ∧
    closed r' = false ∧ stream_ r' = stream_ r ∧ cfg (exe r') = cfg (exe r)) r.
Proof.
  intros HR Hop Hnew Hok Hres Hins Hmax Hmax'. pose proof HR as [HI Hs Ha Hw Hst].
  pose proof (st_len _ _ _ Hst) as Hlen. unfold Run.addLocked. wp_step. unfold Run.on_exe. apply wp_zoom.
  assert (is_nan (double_of_Z (Z.of_N (RJob.cpHintMs job))) = false) as Hnan
    by (apply nonneg_not_nan, double_of_Z_nonneg; lia).
  assert (Forall (λ i, i < vlen (jobs (exe r)))%N inputs) as Hlt.
  { eapply Forall_impl; [exact Hins|]. intros i (a & Hi & _). rewrite <- Hlen. by eapply vlookup_lt_Some. }
  rewrite Hlen in Hmax.
  pose proof (add_spec [] _ _ _ inputs HI Hnan Hmax Hlt Hmax') as Hadd.
  eapply wp_mono; [exact (wp_keeps _ _ _ _ (follow_add _ inputs) Hadd)|].
  intros jid e' [(-> & HI' & Hv & Hcfg & Hstr & _ & Hstill & Hkeep & Hdeps & Hnew') Hfol]. wp_steps. simpl.
  rewrite Hnew. set (r' := with_byName _ _).
  assert (∀ s, state_is e' (vlen (jobs (exe r))) s → is_running s = false ∧ ∀ d, s = Done d → Done.outcome d ≠ built) as Hidle.
  { intros s Hs'. cbv zeta in Hnew'. destruct (_ =? 0)%N.
    - destruct Hnew' as (s2 & Hs2 & Hd2). rewrite (state_is_det _ _ _ _ Hs' Hs2).
      destruct (released_calm (new_job (double_of_Z (Z.of_N (RJob.cpHintMs job)))) s2) as [Hc Hr]; done.
    - rewrite (state_is_det _ _ _ _ Hs' Hnew'). by split. }
  assert (Static succeeded rank r') as Hst'.
  { unfold r', with_byName, with_byId, with_exe. simpl. rewrite Hop, <- Hlen.
    eapply (Static_added r e' job inputs); try done. intros s H. by apply Hidle. }
  assert (RJob.drvPath job ∉ follows_after (wire r)) as Hnot.
  { intros (m & Hm & Hp)%follows_after_path. rewrite Forall_forall in Hw. destruct (Hw m Hm) as [j Hj].
    rewrite Hp in Hj. congruence. }
  assert (RInv r') as HR'.
  { split; simpl; [|congruence|by apply Hfol| |done].
    + by rewrite Fids_snoc.
    + eapply Forall_impl; [exact Hw|]. intros m [j Hj]. exists j. simpl. apply lookup_insert_Some. right.
      split; [|done]. intros E. rewrite E in Hnew. congruence. }
  assert (∀ j, runs r' j ↔ runs r j) as Hruns.
  { intros j. split.
    + intros (s & Hsj & Hr). destruct (decide (j = vlen (jobs (exe r)))) as [->|Hne].
      { destruct (Hidle s Hsj). congruence. }
      pose proof Hsj as (job' & Hj' & _). apply vlookup_lt_Some in Hj'. simpl in Hj'.
      assert (∃ jb, jobs (exe r) !! j = Some jb) as [jb Hjb] by (apply vlookup_lt; lia).
      destruct (Hstill j (Job.state jb)) as (s2 & Hs2 & _ & Hr2); [by exists jb|].
      rewrite decide_False in Hr2 by done. exists (Job.state jb). split; [by exists jb|].
      rewrite <- Hr2, <- (state_is_det _ _ _ _ Hsj Hs2). done.
    + intros (s & Hsj & Hr). destruct (Hstill j s Hsj) as (s2 & Hs2 & _ & Hr2). exists s2.
      split; [done|]. by rewrite Hr2, decide_False. }
  split; [done|]. split; [intros j; by apply Hruns|]. split; [|split_and!; simpl; try done; by rewrite ?Hlen].
  intros H0. split; simpl; [done|..|done|done].
  - intros j. rewrite Hruns. naive_solver.
  - intros j d. by apply (leaves_done None).
  - intros j a Ha'. exists a. split; [|done]. apply vlookup_snoc_Some. by left.
  - intros j a' Ha'. left. apply vlookup_snoc_Some in Ha' as [->|[-> <-]]; [done|].
    by rewrite (proj2 (vlookup_ge (byId r) (vlen (byId r))) (N.le_refl _)), Hres.
Qed.

(** ** [Run::recover] *)

Lemma recover_job_spec farmJob jid path a r :
  RInv r → runs r jid → byId r !! jid = Some a → rank path < rank (RJob.drvPath a) →
  RJob.drvPath (farmJob path) = path → job_ok (farmJob path) → RJob.result (farmJob path) = None → (vlen (byId r) + 1 < 2 ^ 32)%N →
  wp (Run.recover_job farmJob jid path) (λ _, Sec (Some jid) r) r.
Proof.
  intros HR Hrun Ha Hlow Hpath Hok Hres Hmax. destruct (runs_open succeeded rank r jid HR Hrun) as [Hop Hrem].
  unfold Run.recover_job. wp_steps.
  set (Q := λ (_ : ()) r1, Sec None r r1 ∧ ∃ input : N, byName r1 !! path = Some input).
  assert (wp (match byName r !! path with
    | Some _ => mret tt
    | None => waiting ← Run.job_of jid;
        Run.addLocked (RJob.recovered (u64 (RJob.cpHintMs waiting + 1)) (farmJob path)) [];; mret tt
    end) Q r) as Hadd.
  { destruct (byName r !! path) as [i|] eqn:Hn.
    - apply wp_ret. split; [by apply Sec_refl|by exists i].
    - wp_step. unfold Run.job_of. eapply wp_at; [done|]. wp_step.
      eapply wp_mono; [apply addLocked_spec; simpl; try done; by rewrite Hpath|].
      intros i r1 (_ & _ & HS & -> & _ & En & _). wp_steps. split; [by apply HS|]. exists (vlen (byId r)).
      rewrite En. simpl. rewrite Hpath. apply lookup_insert_eq. }
  eapply wp_mono; [exact Hadd|]. intros ? r1 [HS [input Hin]]. wp_steps. pose proof (sec_inv _ _ _ _ _ HS) as HR1.
  destruct (name_known succeeded rank r1 path input HR1 Hin) as (b & inp & Hb & Hpb & Hinp).
  assert (runs r1 jid) as Hrun1 by (by apply (sec_runs _ _ _ _ _ HS)).
  destruct (runs_job succeeded rank r1 jid HR1 Hrun1) as (a1 & job & Ha1 & Hj & Hjr).
  destruct (sec_jobs _ _ _ _ _ HS jid a Ha) as (a2 & ? & Ea & _). simplify_eq.
  eapply wp_mono; [eapply (wp_on_calm succeeded rank _ (Some jid)); [done|by eapply blockOn_calm; [apply HR1|..]|]|].
  - intros x y [-> ->]. exists a1, b. split_and!; [done..|]. by rewrite Ea.
  - intros ? r2 HS2. by eapply Sec_trans_r.
Qed.

(** ** The constructor *)

Section Load.
Context (jobs : gmap string (RJob.t R)).

(** The graph of jobs, as [loadJobs] makes it: inputs are jobs and lie deeper. *)
Record graph_ok : Prop := mkGraphOk {
  go_path : ∀ p job, jobs !! p = Some job → RJob.drvPath job = p;
  go_inputs : ∀ p job i, jobs !! p = Some job → i ∈ RJob.inputs job → is_Some (jobs !! i) ∧ rank i < rank p;
  go_farm : ∀ p job, jobs !! p = Some job → job_ok job;
  go_many : ∀ p job, jobs !! p = Some job → (vlen (RJob.inputs job) < 2 ^ 64)%N;
  go_result : ∀ p job, jobs !! p = Some job → RJob.result job = None;
  go_size : (N.of_nat (size jobs) < 2 ^ 32)%N;
}.

Context (Hg : graph_ok).

(** How many jobs lie deeper: a bound for the recursion. *)
Definition deeper (p : string) : nat := size (filter (λ q, rank q < rank p) (dom jobs)).

Lemma deeper_input p i : is_Some (jobs !! i) → rank i < rank p → deeper i < deeper p.
Proof.
  intros Hi Hlt. unfold deeper. apply subset_size. split.
  - intros q. rewrite !elem_of_filter. intros [? ?]. split; [lia|done].
  - intros Hsub. assert (i ∈ filter (λ q, rank q < rank p) (dom jobs)) as Hin.
    { apply elem_of_filter. split; [done|by apply elem_of_dom]. }
    apply Hsub, elem_of_filter in Hin as [? _]. lia.
Qed.

Lemma deeper_lt p : is_Some (jobs !! p) → deeper p < size jobs.
Proof.
  intros Hp. unfold deeper. rewrite <- size_dom. apply subset_size. split.
  - intros q. rewrite elem_of_filter. by intros [_ ?].
  - intros Hsub. assert (p ∈ dom jobs) as Hin by by apply elem_of_dom.
    apply Hsub, elem_of_filter in Hin as [? _]. lia.
Qed.

(** The jobs of the graph that the run knows wait for the inputs the graph gives them. *)
Definition wired r : Prop := ∀ p job i x, jobs !! p = Some job → i ∈ RJob.inputs job → byName r !! p = Some x →
  ∃ y, byName r !! i = Some y ∧ depends (exe r) x y.

Record Loading r : Prop := mkLoading {
  ld_inv : RInv r;
  ld_closed : closed r = false;
  ld_stream : stream_ r = false;
  ld_names : ∀ p j, byName r !! p = Some j → is_Some (jobs !! p);
  ld_idle : ∀ j, ¬ runs r j;
  ld_results : ∀ (j : N) a, byId r !! j = Some a → RJob.result a = None;
  ld_fresh : fresh (exe r);
  ld_wired : wired r;
}.

Definition grows r r' : Prop :=
  cfg (exe r') = cfg (exe r) ∧ ∀ p (j : N), byName r !! p = Some j → byName r' !! p = Some j.

(** What [add] brings in lies at or below the job. *)
Definition adds p r r' : Prop :=
  grows r r' ∧ ∀ q (j : N), byName r' !! q = Some j → byName r !! q = Some j ∨ rank q ≤ rank p.

(** A name per job. *)
Lemma names_size r : Static succeeded rank r → vlen (byId r) = N.of_nat (size (byName r)).
Proof.
  intros Hst. pose proof (Static_distinct _ _ _ Hst) as Hdist.
  assert (dom (byName r) = list_to_set (RJob.drvPath <$> byId r)) as Hdom.
  { apply set_eq. intros p. rewrite elem_of_dom, elem_of_list_to_set, list_elem_of_fmap. split.
    - intros [j (a & Ha & <-)%(st_names _ _ _ Hst)]. exists a. split; [done|]. apply elem_of_vlookup. by exists j.
    - intros (a & -> & Ha). apply elem_of_vlookup in Ha as [j Hj]. exists j. apply (st_names _ _ _ Hst). by exists a. }
  rewrite <- size_dom, Hdom, size_list_to_set; [unfold vlen; by rewrite length_fmap|].
  apply NoDup_alt. intros i j p Hi Hj. rewrite list_lookup_fmap in Hi, Hj.
  destruct (byId r !! i) as [a|] eqn:Ea; [|done]. destruct (byId r !! j) as [b|] eqn:Eb; [|done].
  simplify_eq/=. enough (N.of_nat i = N.of_nat j) by lia.
  apply (Hdist _ _ a b); [by rewrite vlookup_nat..|done].
Qed.

(** The run has no more jobs than the graph. *)
Lemma loaded_room r p :
  Loading r → is_Some (jobs !! p) → byName r !! p = None → (vlen (byId r) + 1 < 2 ^ 32)%N.
Proof.
  intros [HR _ _ Hn _ _ _ _] Hp Hnew. pose proof (r_static _ _ _ HR) as Hst.
  assert (size (dom (byName r)) < size (dom jobs)) as Hlt.
  { apply subset_size. split.
    - intros q [j Hq]%elem_of_dom. apply elem_of_dom. by eapply Hn.
    - intros Hsub. assert (p ∈ dom (byName r)) as [j Hj]%elem_of_dom by (by apply Hsub, elem_of_dom). congruence. }
  rewrite !size_dom in Hlt. rewrite (names_size r Hst). pose proof (go_size Hg). lia.
Qed.

Lemma grows_refl r : grows r r.
Proof. by split. Qed.
Lemma grows_trans r1 r2 r3 : grows r1 r2 → grows r2 r3 → grows r1 r3.
Proof. intros [E1 H1] [E2 H2]. split; [congruence|]. intros p j H. by apply H2, H1. Qed.

Lemma addLocked_fresh r job ids :
  fresh (exe r) → (vlen (Exec.jobs (exe r)) + 1 < 2 ^ 32)%N → Forall (λ i, i < vlen (Exec.jobs (exe r)))%N ids →
  wp (Run.addLocked job ids) (λ jid r', (fresh (exe r') ∧ ∀ i, i ∈ ids → depends (exe r') jid i) ∧ edges_kept (exe r) (exe r')) r.
Proof.
  intros Hf Hl Hids. unfold Run.addLocked. wp_step. unfold Run.on_exe. apply wp_zoom.
  eapply wp_mono; [exact (wp_keeps _ _ _ _ (edges_add _ ids) (add_fresh _ ids (exe r) Hf Hl Hids))|].
  intros jid e' H. wp_steps. simpl. by destruct (byName r !! RJob.drvPath job).
Qed.

Lemma add_one r p job ids :
  Loading r → jobs !! p = Some job → byName r !! p = None →
  Forall2 (λ (i : N) q, byName r !! q = Some i) ids (RJob.inputs job) →
  wp (Run.addLocked job ids) (λ jid r', Loading r' ∧ adds p r r' ∧ byName r' !! p = Some jid) r.
Proof.
  intros HL Hp Hnew Hids. pose proof HL as [HR Hcl Hstr Hn Hidle Hres Hfr Hwired]. pose proof (go_path Hg p job Hp) as Epath.
  assert (vlen ids = vlen (RJob.inputs job)) as Hvl by (unfold vlen; by rewrite (Forall2_length _ _ _ Hids)).
  pose proof (st_len _ _ _ (r_static _ _ _ HR)) as Hlen.
  assert (vlen (byId r) + 1 < 2 ^ 32)%N as Hroom by (apply (loaded_room r p); [done|by exists job|done]).
  eapply wp_mono; [apply wp_and; [apply addLocked_spec; try done|apply addLocked_fresh; [done|by rewrite <-Hlen|]]|].
  - by rewrite Epath.
  - by eapply (go_farm Hg).
  - by eapply (go_result Hg).
  - apply Forall_forall. intros i Hi. apply list_elem_of_lookup in Hi as [k Hk].
    destruct (Forall2_lookup_l _ _ _ _ _ Hids Hk) as (q & Hq & Hqi).
    apply (st_names _ _ _ (r_static _ _ _ HR)) in Hqi as (a & Ha & <-). exists a. split; [done|].
    rewrite Epath. apply (go_inputs Hg p job); [done|]. by eapply list_elem_of_lookup_2.
  - rewrite Hvl. by eapply (go_many Hg).
  - apply Forall_forall. intros i [k Hk]%list_elem_of_lookup. destruct (Forall2_lookup_l _ _ _ _ _ Hids Hk) as (q & _ & Hqi).
    apply (st_names _ _ _ (r_static _ _ _ HR)) in Hqi as (a & Ha & _). rewrite <-Hlen. by eapply vlookup_lt_Some.
  - intros jid r' [(HR' & Hrn & _ & -> & Eid & En & Ecl & Estr & Ecfg) [[Hfr' Hnew'] Hkept]]. rewrite Epath in En.
    assert (adds p r r') as Hgr.
    { split; [split; [done|]|]; intros q j; rewrite En; [|by intros [[-> _]|[_ ?]]%lookup_insert_Some; auto].
      intros Hq. apply lookup_insert_Some. right. split; [congruence|done]. }
    split_and!; [|done|by rewrite En, lookup_insert_eq].
    split; [done|done|congruence|..].
    + intros q j. rewrite En. intros [[<- _]|[_ Hq]]%lookup_insert_Some; [by exists job|by eapply Hn].
    + intros j Hj. by destruct (Hidle j); apply Hrn.
    + rewrite Eid. intros j a [Ha|[_ <-]]%vlookup_snoc_Some; [by eapply Hres|by eapply (go_result Hg)].
    + done.
    + intros q job' i x Hq Hi. rewrite En. intros [[<- <-]|[_ Hx]]%lookup_insert_Some.
      * assert (job' = job) as -> by congruence. apply list_elem_of_lookup in Hi as [k Hk].
        destruct (Forall2_lookup_r _ _ _ _ _ Hids Hk) as (y & Hy & Hyi). exists y. split; [rewrite <-En; by apply (proj2 (proj1 Hgr))|].
        apply Hnew'. by eapply list_elem_of_lookup_2.
      * destruct (Hwired q job' i x Hq Hi Hx) as (y & Hy & Hd). exists y. split; [rewrite <-En; by apply (proj2 (proj1 Hgr))|by apply Hkept].
Qed.

Lemma add_job_spec fuel p r :
  Loading r → is_Some (jobs !! p) → deeper p < fuel →
  wp (Run.add_job fuel jobs p) (λ jid r', Loading r' ∧ adds p r r' ∧ byName r' !! p = Some jid) r.
Proof.
  revert p r. induction fuel as [|fuel IH]; [lia|]. intros p r HL [job Hp] Hfuel. simpl. wp_steps.
  destruct (byName r !! p) as [jid|] eqn:Hn.
  { apply wp_ret. split_and!; [done| |done]. split; [apply grows_refl|by auto]. }
  rewrite Hp. wp_step. eapply wp_expect; [done|]. wp_step.
  eapply wp_mono; [apply (wp_foldM _ (λ rest acc r', Loading r' ∧ adds p r r' ∧ byName r' !! p = None ∧
    ∃ done_, RJob.inputs job = done_ ++ rest ∧ Forall2 (λ (i : N) q, byName r' !! q = Some i) acc done_))|].
  - split_and!; [done|split; [apply grows_refl|by auto]|done|]. by exists [].
  - intros i rest acc r1 (HL1 & [Hg1 Ha1] & Hn1 & done_ & Ei & Hacc).
    assert (is_Some (jobs !! i) ∧ rank i < rank p) as [Hi Hlt].
    { apply (go_inputs Hg p job); [done|]. rewrite Ei. apply elem_of_app. right. by left. }
    pose proof (deeper_input p i Hi Hlt). wp_step.
    eapply wp_mono; [apply (IH i r1 HL1 Hi); lia|]. intros jid r2 (HL2 & [Hg2 Ha2] & Hn2). wp_steps.
    split_and!; [done|split; [by eapply grows_trans|]| |].
    + intros q j [Hq|Hq]%Ha2; [by apply Ha1|right; lia].
    + destruct (byName r2 !! p) as [j|] eqn:E; [|done]. destruct (Ha2 p j E); [congruence|lia].
    + exists (done_ ++ [i]). split; [by rewrite <- app_assoc|]. apply Forall2_app; [|by constructor].
      eapply Forall2_impl; [exact Hacc|]. intros k q. apply (proj2 Hg2).
  - intros ids r1 (HL1 & [Hg1 Ha1] & Hn1 & done_ & Ei & Hacc). rewrite app_nil_r in Ei. subst done_.
    eapply wp_mono; [by apply (add_one r1 p job ids)|]. intros jid r2 (HL2 & [Hg2 Ha2] & Hn2).
    split_and!; [done| |done]. split; [by eapply grows_trans|].
    intros q j [Hq|Hq]%Ha2; [by apply Ha1|by right].
Qed.

Lemma Run_spec order r :
  Loading r → Forall (λ p, is_Some (jobs !! p)) order →
  wp (Run.Run_ jobs order) (λ _ r', Loading r' ∧ grows r r' ∧ ∀ p, p ∈ order → is_Some (byName r' !! p)) r.
Proof.
  intros HL Ho. unfold Run.Run_.
  eapply wp_mono; [apply (wp_forM _ (λ rest r', Loading r' ∧ grows r r' ∧ Forall (λ p, is_Some (jobs !! p)) rest ∧
    ∀ p, p ∈ order → p ∈ rest ∨ is_Some (byName r' !! p)))|].
  - split_and!; [done|apply grows_refl|done|by auto].
  - intros p rest r1 (HL1 & Hg1 & [Hp Hrest]%Forall_cons & Hall). pose proof (deeper_lt p Hp). wp_step.
    eapply wp_mono; [apply (add_job_spec (S (size jobs)) p r1 HL1 Hp); lia|].
    intros jid r2 (HL2 & [Hg2 _] & Hn2). wp_steps. split_and!; [done|by eapply grows_trans|done|].
    intros q Hq. destruct (Hall q Hq) as [[->|?]%elem_of_cons|[j Hj]]; [right; by exists jid|by left|right].
    exists j. by apply (proj2 Hg2).
  - intros ? r' (HL' & Hg' & _ & Hall). split_and!; [done..|]. intros p Hp.
    destruct (Hall p Hp) as [?%elem_of_nil|?]; done.
Qed.

Lemma empty_inv c : Inv [] [] 0 [] ∅ (Executor c).
Proof.
  assert (∀ (j : N) job, ([] : list Job.t) !! j = Some job → False) as Hno
    by (intros j job; by rewrite vlookup_nil).
  split; simpl; try done; try (by intros ?? []%Hno); try lia.
  - split_and!; [constructor|by intros ?? []%Hno|by intros ? ?%elem_of_nil].
  - split_and!; [constructor|by intros ?? []%Hno|by intros ? ?%elem_of_nil].
  - split; [by intros ?? []%Hno|]. intros j [Hj|Hj]; [set_solver|by apply elem_of_nil in Hj].
  - by intros ? ?%elem_of_nil.
Qed.

Lemma init_loading c : Loading (Run.init c).
Proof.
  assert (∀ j s, ¬ state_is (Executor c) j s) as Hno.
  { intros j s (job & Hj & _). simpl in Hj. by rewrite vlookup_nil in Hj. }
  split; try done; [|intros j (s & Hs & _); by destruct (Hno _ _ Hs)].
  split; simpl; try done.
  - rewrite Fids_nil. apply empty_inv.
  - split; simpl; try done.
    + intros p j. split; [done|]. intros (a & Ha & _). by rewrite vlookup_nil in Ha.
    + intros j d Hd. by destruct (Hno _ _ Hd).
    + intros x y (jy & Hy & _). simpl in Hy. by rewrite vlookup_nil in Hy.
Qed.
End Load.
End Graph.
