(* ===== verification/ClientSystem.v ===== *)
(** * The client's threads

    The build threads of [GrpcStore::runJobs] run [Run::work]; the thread of
    [scheduleUntilDone] attaches and detaches streams and feeds the messages of
    the scheduler; the reaper runs [Run::reapUnplaceable]; [abandon] ends the run.
    The mutex makes the sections of the threads atomic, so the run is a system of
    steps, one per section.  What happens between two sections of a build thread
    (the build itself, an upload) changes nothing of the run; its outcome is part
    of the step.  A build thread is between two sections in one of the phases
    below. *)

From S2P Require Import Prelude Double Exec ExecInv ExecSettle ExecOps ExecGraph ExecStream.
From S2P Require Import ExecFollow ClientRun ClientRunInv ClientFlush ClientOps ClientGraph.

Inductive phase (R : Type) :=
  | Idle                                   (* waits in [next] *)
  | Working (jid : N)                      (* [buildAssigned] *)
  | Recovering (jid : N) (path : string)   (* [recover], after its first section *)
  | Reporting (jid : N) (res : Attempt R)  (* has a result for the last section of [work] *)
  | Left.                                  (* [next] returned nothing *)
Arguments Idle {R}. Arguments Working {R}. Arguments Recovering {R}.
Arguments Reporting {R}. Arguments Left {R}.

(** What a build thread meets outside the mutex. *)
Inductive occurrence (R : Type) :=
  | Goes                       (* nothing of note *)
  | Attempted (res : Attempt R) (* [buildAssigned] returned *)
  | Raised (msg : string).     (* an exception reached [work] *)
Arguments Goes {R}. Arguments Attempted {R}. Arguments Raised {R}.

Inductive event (R : Type) :=
  | Thread (t : nat) (o : occurrence R)
  | Msgs (now : Z) (ms : list SchedMsg)
  | Reap (now grace : Z)
  | Attach
  | Detach
  | Abandon.
Arguments Thread {R}. Arguments Msgs {R}. Arguments Reap {R}. Arguments Attach {R}.
Arguments Detach {R}. Arguments Abandon {R}.

Record system (R : Type) := mkSystem { rn : run R; pool : list (phase R) }.
Arguments mkSystem {R}. Arguments rn {R}. Arguments pool {R}.

Module Threads.
Section Threads.
Context {R : Type} (succeeded : R → bool) (failedResult : string → R) (farmJob : string → RJob.t R).
Context (srt : sorter) (size : N → N).

Definition failed_attempt (msg : string) : Attempt R := Built (failedResult msg).

(** [Run::next]: a thread waits until there is work or the run is over. *)
Definition take_job : M (run R) (phase R) :=
  got ← Run.next;
  match got with
  | Some (jid, _, _) => mret (Working jid)
  | None => n ← gets (λ r, remainingJobs (exe r)); mret (if (n =? 0)%N then Left else Idle)
  end.

(** [Run::recover], first section; the error is caught by [work]. *)
Definition begin_recover (jid : N) (path : string) : M (run R) (phase R) := λ r,
  match Run.recover_once jid path r with
  | (r', Ok _) => (r', Ok (Recovering jid path))
  | (r', Throw (NixError msg)) => (r', Ok (Reporting jid (failed_attempt msg)))
  | (r', Throw e) => (r', Throw e)
  end.

(** [Run::recover], the rest: without a producer the input is uploaded again. *)
Definition do_recover (jid : N) (path : string) : M (run R) (phase R) :=
  job ← Run.job_of jid;
  match RJob.farmInputs job !! path with
  | None => mret (Reporting jid Bounced)
  | Some producer => Run.recover_job farmJob jid producer;; mret (Reporting jid (MissingInput path))
  end.

(** One section of [Run::work]; [None] when the thread has none to run. *)
Definition work_section (ok : nat → bool) (o : occurrence R) (p : phase R) : option (M (run R) (phase R)) :=
  match p, o with
  | Idle, Goes => Some take_job
  | Working jid, Attempted (MissingInput path) => Some (begin_recover jid path)
  | Working jid, Attempted res => Some (mret (Reporting jid res))
  | Working jid, Raised msg | Recovering jid _, Raised msg => Some (mret (Reporting jid (failed_attempt msg)))
  | Recovering jid path, Goes => Some (do_recover jid path)
  | Reporting jid res, Goes => Some (Run.work_done succeeded srt ok size jid res;; mret Idle)
  | _, _ => None
  end.

(** The section an event runs, with the threads' phases after it.  A stream is
    attached only after the one before it is detached. *)
Definition section_of (ok : nat → bool) (ev : event R) (s : system R) : option (M (run R) (list (phase R))) :=
  match ev with
  | Thread t o =>
      match pool s !! t with
      | Some p => (λ m, p' ← m; mret (<[t := p']> (pool s))) <$> work_section ok o p
      | None => None
      end
  | Msgs now ms => Some (Run.onMsgs srt ok size now ms;; mret (pool s))
  | Reap now grace => Some (Run.reapUnplaceable srt ok size now grace;; mret (pool s))
  | Attach => if stream_ (rn s) then None else Some (Run.attach srt ok size;; mret (pool s))
  | Detach => Some (Run.detach;; mret (pool s))
  | Abandon => Some (Run.abandon srt ok size;; mret (pool s))
  end.

(** [threads] build threads and a run made from the graph [jobs]. *)
Inductive reachable (jobs : gmap string (RJob.t R)) (c : Cfg.t) : system R → Prop :=
  | reach_start order r :
      (∀ p, is_Some (jobs !! p) ↔ p ∈ order) →
      Run.Run_ jobs order (Run.init c) = (r, Ok tt) →
      reachable jobs c (mkSystem r (replicate (N.to_nat (Cfg.threads c)) Idle))
  | reach_step s ok ev m r' pool' :
      reachable jobs c s → (vlen (byId (rn s)) + 1 < 2 ^ 32)%N →
      section_of ok ev s = Some m → m (rn s) = (r', Ok pool') →
      reachable jobs c (mkSystem r' pool').

End Threads.
End Threads.

(** ** The threads' invariant *)

(** The job whose build a thread has to report. *)
Definition holds {R} (p : phase R) : option N :=
  match p with
  | Working jid | Recovering jid _ => Some jid
  | Reporting jid res => ended_by res jid
  | Idle | Left => None
  end.

(** A thread that still has to flush what [recover] did. *)
Definition owes_flush {R} (p : phase R) : bool :=
  match p with Reporting _ (MissingInput _) => true | _ => false end.

(** ** Names and edges stay *)

Definition graph_kept {R} (r r' : run R) : Prop := byName r ⊆ byName r' ∧ edges_kept (exe r) (exe r').
#[export] Instance graph_kept_preorder {R} : PreOrder (@graph_kept R).
Proof. split; [by split|]. intros r1 r2 r3 [? ?] [? ?]. split; by etrans. Qed.

Section GraphKept.
Context {R : Type} (succeeded : R → bool) (failedResult : string → R) (farmJob : string → RJob.t R).
Context (srt : sorter) (size : N → N) (ok : nat → bool).
Abbreviation stays := (keeps (@graph_kept R)).

Lemma stays_on_exe {A} (m : M executor A) : keeps edges_kept m → stays (Run.on_exe m).
Proof. intros Hm r. unfold exec, Run.on_exe, zoom. specialize (Hm (exe r)). unfold exec in Hm. by destruct (m (exe r)). Qed.
Lemma stays_same {A} (m : M executor A) : keeps deps_same m → stays (Run.on_exe m).
Proof. intros Hm. by apply stays_on_exe, keeps_edges. Qed.
Lemma stays_job_of jid : stays (Run.job_of jid).
Proof. intros r. unfold exec, Run.job_of, at_. by destruct (byId r !! jid). Qed.
Lemma stays_set_job jid job : stays (set_at byId with_byId jid job).
Proof. intros r. unfold exec, set_at. by destruct (byId r !! jid). Qed.

Ltac stays_step :=
  first
  [ apply stays_job_of | apply stays_set_job
  | apply stays_same; first [apply keeps_takeCancels | apply keeps_takeWants | apply keeps_disconnected | apply keeps_unsent
    | apply keeps_next | apply keeps_finished | apply keeps_bounced | apply keeps_onAssigned | apply keeps_onCached
    | apply keeps_onUnplaceable | apply keeps_onPlaceable | apply keeps_reap | apply keeps_connected | apply keeps_abandon]
  | apply stays_on_exe, edges_blockOn
  | apply keeps_bind; [apply _| |intros ?]
  | apply keeps_ret; apply _ | apply keeps_throw; apply _ | apply keeps_get; apply _
  | apply keeps_gets; apply _ | apply keeps_expect; apply _
  | apply keeps_modify; by intros ?
  | apply keeps_forM; [apply _|intros ?] | apply keeps_foldM; [apply _|intros ? ?]
  | case_match ].

Lemma stays_flush : stays (Run.flushLocked srt ok size).
Proof. unfold Run.flushLocked, Run.add_cancel, Run.add_want, Run.write. repeat stays_step. Qed.

Lemma stays_addLocked job inputs : stays (Run.addLocked job inputs).
Proof.
  unfold Run.addLocked. stays_step; [apply stays_on_exe, edges_add|]. stays_step; [stays_step|]. stays_step; [|stays_step].
  apply keeps_modify. intros r. destruct (byName r !! RJob.drvPath job) eqn:Hn; [done|]. split; [|done]. by apply insert_subseteq.
Qed.

Lemma stays_work o p m : Threads.work_section succeeded failedResult farmJob srt size ok o p = Some m → stays m.
Proof.
  unfold Threads.work_section. intros H.
  repeat case_match; simplify_eq; try (repeat stays_step; fail).
  all: unfold Threads.take_job, Run.next, Threads.begin_recover, Run.recover_once, Threads.do_recover, Run.recover_job, Run.work_done.
  all: repeat first [apply stays_flush | apply stays_addLocked | stays_step].
  intros r. unfold exec, mbind, M_bind, get. by case_decide.
Qed.

Lemma section_stays ev s m : Threads.section_of succeeded failedResult farmJob srt size ok ev s = Some m → stays m.
Proof.
  unfold Threads.section_of. intros H. destruct ev; repeat case_match; simplify_eq.
  - apply fmap_Some in H as (m' & Hm & ->). apply keeps_bind; [apply _|by eapply stays_work|]. intros. stays_step.
  - unfold Run.onMsgs, Run.onMsgLocked. repeat first [apply stays_flush | stays_step].
  - unfold Run.reapUnplaceable. repeat first [apply stays_flush | stays_step].
  - unfold Run.attach. repeat first [apply stays_flush | stays_step].
  - unfold Run.detach. repeat first [apply stays_flush | stays_step].
  - unfold Run.abandon. repeat first [apply stays_flush | stays_step].
Qed.
End GraphKept.

Section System.
Context {R : Type} (succeeded : R → bool) (failedResult : string → R) (farmJob : string → RJob.t R).
Context (srt : sorter) (size : N → N) (rank : string → nat).
Context (farm_path : ∀ p, RJob.drvPath (farmJob p) = p) (farm_ok : ∀ p, job_ok rank (farmJob p)).
Context (farm_result : ∀ p, RJob.result (farmJob p) = None).
Implicit Types (s : system R) (r : run R) (ps : list (phase R)).

Abbreviation RInv := (ClientRunInv.RInv succeeded rank).
Abbreviation Sec := (ClientOps.Sec succeeded rank).
Abbreviation section_of := (Threads.section_of succeeded failedResult farmJob srt size).
Abbreviation work_section := (Threads.work_section succeeded failedResult farmJob srt size).

(** Which thread holds which job. *)
Definition held ps (j : N) : Prop := ∃ (t : nat) p, ps !! t = Some p ∧ holds p = Some j.

Definition exclusive ps : Prop :=
  ∀ (t u : nat) p q j, ps !! t = Some p → ps !! u = Some q → holds p = Some j → holds q = Some j → t = u.

Record SInv (c : Cfg.t) s : Prop := mkSInv {
  s_run : RInv (rn s);
  s_held : ∀ j, runs (rn s) j ↔ held (pool s) j;
  s_excl : exclusive (pool s);
  s_flush : (stream_ (rn s) = true → busy (exe (rn s))) ∨
    ∃ (t : nat) p, pool s !! t = Some p ∧ owes_flush p = true;
  s_left : ∀ t : nat, pool s !! t = Some Left → remaining (exe (rn s)) = 0%N;
  s_len : length (pool s) = N.to_nat (Cfg.threads c);
  s_cfg : cfg (exe (rn s)) = c;
}.

(** A thread goes from phase [p] to [p']. *)
Lemma held_step ps (t : nat) p p' j :
  ps !! t = Some p → exclusive ps →
  held (<[t := p']> ps) j ↔ holds p' = Some j ∨ (held ps j ∧ holds p ≠ Some j).
Proof.
  intros Ht Hex. pose proof (lookup_lt_Some _ _ _ Ht) as Hlt. split.
  - intros (u & q & Hu & Hq). destruct (decide (t = u)) as [<-|Hne].
    + rewrite list_lookup_insert_eq in Hu by done. simplify_eq. by left.
    + rewrite list_lookup_insert_ne in Hu by done. right. split; [by exists u, q|].
      intros Hp. by apply Hne, (Hex t u p q j).
  - intros [Hp|[(u & q & Hu & Hq) Hne]].
    + exists t, p'. split; [|done]. by apply list_lookup_insert_eq.
    + exists u, q. split; [|done]. rewrite list_lookup_insert_ne; [done|]. intros <-. simplify_eq.
Qed.

Lemma exclusive_step ps (t : nat) p p' :
  ps !! t = Some p → exclusive ps →
  (∀ j, holds p' = Some j → holds p = Some j ∨ ¬ held ps j) → exclusive (<[t := p']> ps).
Proof.
  intros Ht Hex Hp' u v q q' j Hu Hv Hq Hq'. pose proof (lookup_lt_Some _ _ _ Ht) as Hlt.
  assert (∀ w x, <[t := p']> ps !! w = Some x → holds x = Some j → (w = t ∧ x = p') ∨ (w ≠ t ∧ ps !! w = Some x)) as Hcase.
  { intros w x Hw Hx. destruct (decide (t = w)) as [<-|Hne].
    - rewrite list_lookup_insert_eq in Hw by done. simplify_eq. by left.
    - rewrite list_lookup_insert_ne in Hw by done. by right. }
  assert (∀ w x, w ≠ t → ps !! w = Some x → holds x = Some j → holds p' = Some j → False) as Hno.
  { intros w x Hne Hw Hx Hj. destruct (Hp' j Hj) as [Hp|Hn].
    - by apply Hne, (Hex w t x p j).
    - apply Hn. by exists w, x. }
  destruct (Hcase u q Hu Hq) as [[-> ->]|[Hnu Hu']], (Hcase v q' Hv Hq') as [[-> ->]|[Hnv Hv']];
    [done|by destruct (Hno v q')|by destruct (Hno u q)|by apply (Hex u v q q' j)].
Qed.

(** The invariant after a section that ended the build of [b] (if any) and moved
    thread [t] from [p] to [p']. *)
Lemma SInv_thread c s (t : nat) p p' r' b :
  SInv c s → pool s !! t = Some p → Sec b (rn s) r' →
  (∀ j, b = Some j → holds p = Some j) →
  (∀ j, holds p' = Some j → holds p = Some j ∧ b ≠ Some j) →
  (∀ j, holds p = Some j → b ≠ Some j → holds p' = Some j) →
  p' ≠ Left → flushed r' ∨ owes_flush p' = true →
  SInv c (mkSystem r' (<[t := p']> (pool s))).
Proof.
  intros [HR Hh Hex Hfl Hleft Hlen Hcfg] Ht HS Hb Hp' Hp Hnl Hf. pose proof (lookup_lt_Some _ _ _ Ht) as Hlt.
  split; simpl.
  - apply HS.
  - intros j. rewrite (held_step _ t p p' j Ht Hex), (sec_runs _ _ _ _ _ HS), Hh. split.
    + intros [Hj Hne]. destruct (decide (holds p = Some j)) as [E|E]; [left; by apply Hp|by right].
    + intros [[E Hn]%Hp'|[Hj E]]; [split; [by exists t, p|]|split; [done|]]; intros <-; auto.
  - apply (exclusive_step _ t p p' Ht Hex). intros j [? _]%Hp'. by left.
  - destruct Hf as [[_ Hf]|Hf]; [by left|right]. exists t, p'. split; [|done]. by apply list_lookup_insert_eq.
  - intros u Hu. apply (sec_zero _ _ _ _ _ HS). destruct (decide (t = u)) as [<-|Hne].
    + rewrite list_lookup_insert_eq in Hu by done. congruence.
    + rewrite list_lookup_insert_ne in Hu by done. by apply (Hleft u).
  - by rewrite length_insert.
  - by rewrite (sec_cfg _ _ _ _ _ HS).
Qed.

Lemma SInv_env c s r' : SInv c s → Sec None (rn s) r' → flushed r' → SInv c (mkSystem r' (pool s)).
Proof.
  intros [HR Hh Hex Hfl Hleft Hlen Hcfg] HS [_ Hf]. split; simpl; try done.
  - apply HS.
  - intros j. rewrite (sec_runs _ _ _ _ _ HS), <- Hh. naive_solver.
  - by left.
  - intros u Hu. by apply (sec_zero _ _ _ _ _ HS), (Hleft u).
  - by rewrite (sec_cfg _ _ _ _ _ HS).
Qed.

(** A thread that goes on with its job, without touching the executor. *)
Lemma SInv_same c s (t : nat) p p' r' :
  SInv c s → pool s !! t = Some p → RInv r' → exe r' = exe (rn s) → stream_ r' = stream_ (rn s) →
  holds p' = holds p → owes_flush p = false → p' ≠ Left →
  SInv c (mkSystem r' (<[t := p']> (pool s))).
Proof.
  intros [HR Hh Hex Hfl Hleft Hlen Hcfg] Ht HR' Ee Es Hp Ho Hnl. pose proof (lookup_lt_Some _ _ _ Ht) as Hlt.
  split; simpl; rewrite ?Ee, ?Es; try done.
  - intros j. rewrite (held_step _ t p p' j Ht Hex), Hp, <- Hh. unfold runs. rewrite Ee.
    destruct (decide (holds p = Some j)) as [E|E]; [|naive_solver].
    split; [by left|]. intros _. apply Hh. by exists t, p.
  - apply (exclusive_step _ t p p' Ht Hex). intros j. rewrite Hp. by left.
  - destruct Hfl as [?|(u & q & Hu & Hq)]; [by left|right]. exists u, q. split; [|done].
    rewrite list_lookup_insert_ne; [done|]. intros <-. congruence.
  - intros u Hu. destruct (decide (t = u)) as [<-|Hne].
    + rewrite list_lookup_insert_eq in Hu by done. congruence.
    + rewrite list_lookup_insert_ne in Hu by done. by apply (Hleft u).
  - by rewrite length_insert.
Qed.

(** ** The sections keep it *)

(** What no section undoes: jobs stay, and what ended stays ended. *)
Record Later r r' : Prop := mkLater {
  lt_done : ∀ (j : N) d, state_is (exe r) j (Done d) → state_is (exe r') j (Done d);
  lt_jobs : ∀ (j : N) a, byId r !! j = Some a → ∃ a', byId r' !! j = Some a' ∧ RJob.drvPath a' = RJob.drvPath a;
  lt_results : ∀ (j : N) a', byId r' !! j = Some a' →
    result_from succeeded r' j (byId r !! j ≫= RJob.result) a';
}.

Lemma sec_later b r r' : Sec b r r' → Later r r'.
Proof.
  intros [_ _ Hd Hj Hr _ _]. split; [done| |done]. intros j a Ha. destruct (Hj j a Ha) as (a' & ? & ? & _). by exists a'.
Qed.

Lemma same_later r r' : exe r' = exe r → byId r' = byId r → Later r r'.
Proof.
  intros E1 E2. split; [by rewrite E1| |by apply same_results]. rewrite E2. intros j a Ha. by exists a.
Qed.

Lemma RInv_recovered r v : RInv r → RInv (with_recovered v r).
Proof.
  intros [HI Hs Ha Hw []]. by split.
Qed.

Lemma take_job_step c s (t : nat) :
  SInv c s → pool s !! t = Some Idle →
  wp (Threads.take_job (R := R)) (λ p' r', SInv c (mkSystem r' (<[t := p']> (pool s))) ∧ Later (rn s) r') (rn s).
Proof.
  intros HS Ht. pose proof HS as [HR Hh Hex Hfl Hleft Hlen Hcfg]. pose proof (lookup_lt_Some _ _ _ Ht) as Hlt.
  assert (∀ p', holds p' = None ∨ owes_flush p' = false → ∀ r', stream_ r' = stream_ (rn s) →
    (busy (exe (rn s)) → busy (exe r')) →
    (stream_ r' = true → busy (exe r')) ∨ ∃ (u : nat) q, <[t := p']> (pool s) !! u = Some q ∧ owes_flush q = true) as Hflush.
  { intros p' _ r' Es Hb. destruct Hfl as [Hf|(u & q & Hu & Hq)]; [left; rewrite Es; by auto|right].
    exists u, q. split; [|done]. rewrite list_lookup_insert_ne; [done|]. intros <-. by simplify_eq. }
  unfold Threads.take_job. wp_step. eapply wp_mono; [by apply (next_spec succeeded rank)|].
  intros [[[jid a] p]|] r' (Eid & Ecfg & Es & Hb & Hz & Hpost).
  - destruct Hpost as (HR' & Ha & Has & Hru & Hruns & Hdone). wp_steps.
    split; [|split; [done|rewrite Eid; intros j b Hb'; by exists b|by apply same_results]]. split; simpl; try done.
    + intros j. rewrite Hruns, (held_step _ t Idle _ j Ht Hex), Hh. simpl. naive_solver.
    + apply (exclusive_step _ t Idle); [done..|]. intros j [= <-]. right. intros Hj%Hh.
      destruct Hj as (s0 & Hs0 & Hr0). by rewrite (state_is_det _ _ _ _ Hs0 Has) in Hr0.
    + apply Hflush; auto.
    + intros u Hu. apply Hz. destruct (decide (t = u)) as [<-|Hne].
      * rewrite list_lookup_insert_eq in Hu by done. congruence.
      * rewrite list_lookup_insert_ne in Hu by done. by apply (Hleft u).
    + by rewrite length_insert.
    + congruence.
  - destruct Hpost as (HSec & Ejobs & Hnone). wp_steps. split; [|by eapply sec_later].
    assert (∀ p' : phase R, holds p' = None → owes_flush p' = false →
      (p' = Left → remaining (exe r') = 0%N) → SInv c (mkSystem r' (<[t := p']> (pool s)))) as Hgo.
    { intros p' Hn Ho Hl. split; simpl; try done.
      - apply HSec.
      - intros j. rewrite (sec_runs _ _ _ _ _ HSec), (held_step _ t Idle _ j Ht Hex), Hh, Hn. simpl. naive_solver.
      - apply (exclusive_step _ t Idle); [done..|]. by rewrite Hn.
      - apply Hflush; auto.
      - intros u Hu. destruct (decide (t = u)) as [<-|Hne].
        + rewrite list_lookup_insert_eq in Hu by done. simplify_eq. by apply Hl.
        + rewrite list_lookup_insert_ne in Hu by done. apply Hz. by apply (Hleft u).
      - by rewrite length_insert.
      - congruence. }
    unfold remainingJobs. destruct (N.eqb_spec (remaining (exe r')) 0); by apply Hgo.
Qed.

Lemma work_section_step c s (t : nat) ok o p m :
  SInv c s → pool s !! t = Some p → (vlen (byId (rn s)) + 1 < 2 ^ 32)%N →
  work_section ok o p = Some m → wp m (λ p' r', SInv c (mkSystem r' (<[t := p']> (pool s))) ∧ Later (rn s) r') (rn s).
Proof using farm_ok farm_path farm_result.
  intros HS Ht Hroom Hm. pose proof (s_run _ _ HS) as HR.
  assert (∀ jid, holds p = Some jid → runs (rn s) jid) as Hheld by (intros jid Hj; apply (s_held _ _ HS); by exists t, p).
  destruct p as [|jid|jid path|jid res|], o as [|att|msg]; try done; simpl in Hm.
  - injection Hm as <-. by apply take_job_step.
  - destruct att as [v| |path]; injection Hm as <-.
    + apply wp_ret. split; [by apply (SInv_same c s t (Working jid))|by apply same_later].
    + apply wp_ret. split; [by apply (SInv_same c s t (Working jid))|by apply same_later].
    + unfold Threads.begin_recover, Run.recover_once, wp, mbind, M_bind, get. case_decide; simpl.
      * eexists _, _. split; [done|]. split; [by apply (SInv_same c s t (Working jid))|by apply same_later].
      * eexists _, _. split; [done|]. split; [|by apply same_later].
        apply (SInv_same c s t (Working jid)); try done. by apply RInv_recovered.
  - injection Hm as <-. apply wp_ret. split; [by apply (SInv_same c s t (Working jid))|by apply same_later].
  - injection Hm as <-. specialize (Hheld jid eq_refl).
    destruct (runs_job succeeded rank _ jid HR Hheld) as (a & job & Ha & Hj & Hjr).
    unfold Threads.do_recover, Run.job_of. wp_step. eapply wp_at; [done|].
    destruct (RJob.farmInputs a !! path) as [producer|] eqn:Hp.
    + wp_step. eapply wp_mono; [eapply (recover_job_spec succeeded rank farmJob jid producer a); try done|].
      * by apply (st_farm _ _ _ (r_static _ _ _ HR) jid a path).
      * intros ? r' HSec. wp_steps. split; [|exact (sec_later (Some jid) _ _ HSec)].
        apply (SInv_thread c s t (Recovering jid path) _ _ (Some jid)); simpl; auto; try done; congruence.
    + apply wp_ret. split; [by apply (SInv_same c s t (Recovering jid path))|by apply same_later].
  - injection Hm as <-. apply wp_ret. split; [by apply (SInv_same c s t (Recovering jid path))|by apply same_later].
  - injection Hm as <-. wp_step. eapply wp_mono; [apply (work_done_spec succeeded rank); [done|]|].
    + intros E. by apply Hheld.
    + intros ? r' (HSec & Hf & _). wp_steps. split; [|by eapply sec_later].
      apply (SInv_thread c s t (Reporting jid res) _ _ (ended_by res jid)); try done; by auto.
Qed.

(** Every section returns and keeps the invariant. *)
Lemma section_step c s ok ev m :
  SInv c s → (vlen (byId (rn s)) + 1 < 2 ^ 32)%N → section_of ok ev s = Some m →
  wp m (λ pool' r', SInv c (mkSystem r' pool') ∧ Later (rn s) r') (rn s).
Proof using farm_ok farm_path farm_result.
  intros HS Hroom Hm. pose proof (s_run _ _ HS) as HR. destruct ev; simpl in Hm.
  - destruct (pool s !! t) as [p|] eqn:Ht; [|done]. apply fmap_Some in Hm as (m' & Hm & ->).
    wp_step. eapply wp_mono; [by eapply work_section_step|]. intros p' r' H. by wp_steps.
  - injection Hm as <-. wp_step. eapply wp_mono; [by apply (onMsgs_spec succeeded rank)|].
    intros ? r' [? ?]. wp_steps. split; [by apply SInv_env|by eapply sec_later].
  - injection Hm as <-. wp_step. eapply wp_mono; [by apply (reapUnplaceable_spec succeeded rank)|].
    intros ? r' (? & ? & _). wp_steps. split; [by apply SInv_env|by eapply sec_later].
  - destruct (stream_ (rn s)) eqn:Hstr; [done|]. injection Hm as <-. wp_step.
    eapply wp_mono; [by apply (attach_spec succeeded rank)|]. intros ? r' [? ?]. wp_steps. split; [by apply SInv_env|by eapply sec_later].
  - injection Hm as <-. wp_step. eapply wp_mono; [by apply (detach_spec succeeded rank)|].
    intros ? r' (HSec & Hoff & _). wp_steps. split; [|by eapply sec_later].
    destruct HS as [_ Hh Hex Hfl Hleft Hlen Hcfg]. split; simpl; try done.
    + apply HSec.
    + intros j. rewrite (sec_runs _ _ _ _ _ HSec), <- Hh. naive_solver.
    + left. by rewrite Hoff.
    + intros u Hu. by apply (sec_zero _ _ _ _ _ HSec), (Hleft u).
    + by rewrite (sec_cfg _ _ _ _ _ HSec).
  - injection Hm as <-. wp_step. eapply wp_mono; [by apply (abandon_section succeeded rank)|].
    intros ? r' [? ?]. wp_steps. split; [by apply SInv_env|by eapply sec_later].
Qed.

(** ** Reachable systems *)

Context (jobs : gmap string (RJob.t R)) (c : Cfg.t) (Hgraph : graph_ok rank jobs).

Abbreviation reachable := (Threads.reachable succeeded failedResult farmJob srt size jobs c).

Lemma system_inv s : reachable s → SInv c s.
Proof using farm_ok farm_path farm_result Hgraph.
  induction 1 as [order r Horder Hrun|s ok ev m r' pool' _ IH Hroom Hm Hres].
  - assert (Forall (λ p, is_Some (jobs !! p)) order) as Hord by (apply Forall_forall; intros p Hp; by apply Horder).
    destruct (Run_spec succeeded rank jobs Hgraph order (Run.init c) (init_loading succeeded rank jobs Hgraph c) Hord)
      as (a & r' & Hr & [HR Hcl Hstr Hn Hidle _ _ _] & [Ecfg _] & _).
    rewrite Hrun in Hr. injection Hr as <- _.
    assert (∀ (t : nat) p, replicate (N.to_nat (Cfg.threads c)) Idle !! t = Some p → p = @Idle R) as Hall
      by (intros t p [? _]%lookup_replicate; done).
    split; simpl; try done.
    + intros j. split; [by intros ?%Hidle|]. intros (t & p & Ht & Hp). by rewrite (Hall t p Ht) in Hp.
    + intros t u p q j Ht Hu Hp. by rewrite (Hall t p Ht) in Hp.
    + left. by rewrite Hstr.
    + intros t Ht. by apply Hall in Ht.
    + by rewrite length_replicate.
  - destruct (section_step c s ok ev m IH Hroom Hm) as (a & r2 & Hm' & HS & _). rewrite Hres in Hm'.
    by injection Hm' as <- <-.
Qed.

(** ** What the run guarantees *)

(** C29. The client's run never fails: its constructor returns for every graph of
    jobs without cycles, with every job known by its name, and whatever the order in
    which the threads, the scheduler's messages and the failures of the transport
    interleave, every section of code that runs under the run's mutex returns; no
    vector is indexed out of range and no loop goes on for ever. *)
Theorem client_total :
  (∀ order, (∀ p, is_Some (jobs !! p) ↔ p ∈ order) →
     ∃ r, Run.Run_ jobs order (Run.init c) = (r, Ok tt) ∧
       ∀ p, is_Some (jobs !! p) → ∃ j a, byName r !! p = Some j ∧ byId r !! j = Some a ∧ RJob.drvPath a = p) ∧
  (∀ s ok ev m, reachable s → (vlen (byId (rn s)) + 1 < 2 ^ 32)%N → section_of ok ev s = Some m →
     ∃ r' pool', m (rn s) = (r', Ok pool')).
Proof using farm_ok farm_path farm_result Hgraph.
  split.
  - intros order Horder.
    assert (Forall (λ p, is_Some (jobs !! p)) order) as Hord by (apply Forall_forall; intros p Hp; by apply Horder).
    destruct (Run_spec succeeded rank jobs Hgraph order (Run.init c) (init_loading succeeded rank jobs Hgraph c) Hord)
      as ([] & r & Hr & [HR _ _ _ _ _] & _ & Hall). exists r. split; [done|]. intros p Hp%Horder.
    destruct (Hall p Hp) as [j Hj]. exists j. destruct (name_known succeeded rank r p j HR Hj) as (a & _ & ? & ? & _).
    by exists a.
  - intros s ok ev m Hs Hroom Hm. destruct (section_step c s ok ev m (system_inv s Hs) Hroom Hm) as (p & r & E & _).
    by exists r, p.
Qed.

(** A thread that has something to do. *)
Definition at_work (p : phase R) : Prop := p ≠ Idle ∧ p ≠ Left.

(** A placed job occupies a thread, or waits for an idle one. *)
Lemma placed_thread s (j : N) st :
  SInv c s → remaining (exe (rn s)) ≠ 0%N → (0 < Cfg.threads c)%N →
  state_is (exe (rn s)) j st → placed st = true →
  (∃ (t : nat) p, pool s !! t = Some p ∧ at_work p) ∨
  (∃ t : nat, pool s !! t = Some Idle ∧ j ∈ ready (exe (rn s))).
Proof.
  intros HS Hrem Hthr Hj Hp. destruct st; try done.
  - destruct (pool s) as [|p ps] eqn:Hpool.
    { pose proof (s_len _ _ HS) as Hlen. rewrite Hpool in Hlen. simpl in Hlen. lia. }
    assert (pool s !! 0 = Some p) as H0 by by rewrite Hpool. rewrite <- Hpool.
    destruct p as [|jid|jid path|jid res|]; [right|left; by exists 0, (Working jid)|
      left; by exists 0, (Recovering jid path)|left; by exists 0, (Reporting jid res)|].
    + exists 0. split; [done|]. destruct Hj as (job & Hj & Hs).
      destruct (i_ready _ _ _ _ _ _ (r_inv _ _ _ (s_run _ _ HS))) as (_ & Hin & _).
      apply (Hin j job Hj). by rewrite Hs.
    + by destruct Hrem; apply (s_left _ _ HS 0).
  - left. assert (runs (rn s) j) as Hr by (eexists; split; [exact Hj|done]).
    apply (s_held _ _ HS) in Hr as (t & p & Ht & Hh). exists t, p. split; [done|]. split; by intros ->.
Qed.

(** C30. The client never gets stuck: as long as a stream is up and not every job is
    done, a build thread has something to do, or an idle thread will find a placed
    job, or the scheduler was told about a job and owes it a decision. *)
Theorem client_never_stuck s :
  reachable s → (0 < Cfg.threads c)%N → stream_ (rn s) = true → remaining (exe (rn s)) ≠ 0%N →
  (∃ (t : nat) p, pool s !! t = Some p ∧ at_work p) ∨
  (∃ (t : nat) j, pool s !! t = Some Idle ∧ j ∈ ready (exe (rn s))) ∨
  (∃ (j : N) since why a, state_is (exe (rn s)) j (Wanted since why) ∧ byId (rn s) !! j = Some a ∧
     RJob.drvPath a ∈ follows_after (wire (rn s))).
Proof using farm_ok farm_path farm_result Hgraph.
  intros HS%system_inv Hthr Hup Hrem. pose proof (s_run _ _ HS) as HR. pose proof HR as [HI Hstr Hact _ _].
  assert (∀ j st, state_is (exe (rn s)) j st → isActive st = true →
    (∃ (t : nat) p, pool s !! t = Some p ∧ at_work p) ∨
    (∃ (t : nat) j, pool s !! t = Some Idle ∧ j ∈ ready (exe (rn s))) ∨
    (∃ (j : N) since why a, state_is (exe (rn s)) j (Wanted since why) ∧ byId (rn s) !! j = Some a ∧
       RJob.drvPath a ∈ follows_after (wire (rn s)))) as Hactive.
  { intros j st Hj Ha. destruct (placed st) eqn:Hp.
    { destruct (placed_thread s j st HS Hrem Hthr Hj Hp) as [?|(t & ? & ?)]; [by left|right; left; by exists t, j]. }
    right. right. destruct st as [| |since why| | |]; try done. destruct Hj as (job & Hj & Hst).
    assert (j ∈ Fids (byId (rn s)) (wire (rn s))) as Hin.
    { destruct (i_fol _ _ _ _ _ _ HI) as [Hf _]. destruct (Hf j job Hj) as [_ Hf']. rewrite Hstr in Hf'.
      apply (Hf' Hup). destruct (Hact ltac:(congruence) j job Hj) as [?|Hrw]; [by rewrite Hst|done|].
      rewrite (i_rewant _ _ _ _ _ _ HI) in Hrw. by apply elem_of_nil in Hrw. }
    apply elem_of_Fids in Hin as (a & Ha' & Hin). exists j, since, why, a. split_and!; try done. by exists job. }
  destruct (not_all_blocked _ _ HI (RInv_acyclic _ _ _ HR) Hrem) as (j & st & Hj & [->|Ha]); [|by eapply Hactive].
  destruct (s_flush _ _ HS) as [[Hb|Hb]%(λ H, H Hup)|(t & p & Ht & Hp)].
  - assert (0 < wsum act (Exec.jobs (exe (rn s)))) as (i & job & Hi & Hact')%wsum_pos.
    { pose proof (i_active _ _ _ _ _ _ HI). rewrite (s_cfg _ _ HS) in Hb. lia. }
    apply (Hactive i (Job.state job)); [by exists job|]. unfold act in Hact'. destruct (isActive _); [done|lia].
  - by destruct (Hb j).
  - left. exists t, p. split; [done|]. by destruct p.
Qed.

(** Exactly one build thread builds each Running job and no thread builds any
    other; the counter of active jobs is exact and never exceeds the number of
    build threads, and the counter of remaining jobs is exact. *)
Theorem one_thread_per_build s :
  reachable s →
  (∀ j, runs (rn s) j ↔ exists! t : nat, ∃ p, pool s !! t = Some p ∧ holds p = Some j) ∧
  active (exe (rn s)) = N.of_nat (length (filter (λ job, isActive (Job.state job) = true) (Exec.jobs (exe (rn s))))) ∧
  (active (exe (rn s)) ≤ Cfg.threads c)%N ∧
  remaining (exe (rn s)) = N.of_nat (length (filter (λ job, is_done (Job.state job) = false) (Exec.jobs (exe (rn s))))).
Proof using farm_ok farm_path farm_result Hgraph.
  intros HS%system_inv. pose proof (r_inv _ _ _ (s_run _ _ HS)) as HI.
  assert (∀ (f : Job.t → nat) (P : Job.t → Prop) `{!∀ x, Decision (P x)} js,
    (∀ x, f x = if decide (P x) then 1 else 0) → wsum f js = length (filter P js)) as Hsum.
  { intros f P ? js Hf. induction js as [|x js IH]; [done|]. rewrite filter_cons.
    change (wsum f (x :: js)) with (f x + wsum f js). rewrite IH, Hf. by case_decide. }
  split_and!.
  - intros j. rewrite (s_held _ _ HS). split.
    + intros (t & p & Ht & Hp). exists t. split; [by exists p|]. intros u (q & Hu & Hq).
      by apply (s_excl _ _ HS t u p q j).
    + intros (t & (p & Ht & Hp) & _). by exists t, p.
  - rewrite (i_active _ _ _ _ _ _ HI). f_equal. apply Hsum. intros x. unfold act.
    case_decide as E; [by rewrite E|]. by destruct (isActive _).
  - pose proof (i_threads _ _ _ _ _ _ HI) as Ht. by rewrite (s_cfg _ _ HS) in Ht.
  - rewrite (i_remaining _ _ _ _ _ _ HI). f_equal. apply Hsum. intros x. unfold undone.
    case_decide as E; [by rewrite E|]. by destruct (is_done _).
Qed.

(** The states a job reaches only when its inputs are there. *)
Definition inputs_needed (st : JobState) : bool :=
  match st with Blocked _ => false | Done d => Done.succeeded d | _ => true end.

(** What [y] being an input of [x] means for their states. *)
Definition comes_first (e : executor) (y x : N) : Prop := ∀ st, state_is e x st →
  (inputs_needed st = true → ∃ d, state_is e y (Done d) ∧ Done.succeeded d = true) ∧
  (∀ d, state_is e y (Done d) → Done.succeeded d = false → failed st = true ∨ ∃ n, st = Blocked n).

Lemma depends_first s x y : reachable s → depends (exe (rn s)) x y → comes_first (exe (rn s)) y x.
Proof using farm_ok farm_path farm_result Hgraph.
  intros HS%system_inv (jy & Hy & Hin) st (jx & Hx & <-). pose proof (r_inv _ _ _ (s_run _ _ HS)) as HI.
  destruct (i_fail _ _ _ _ _ _ HI) as [Hfi Hdep]. destruct (Hdep y jy x Hy Hin) as (jx' & ? & H1 & H2). simplify_eq.
  assert (failed (Job.state jy) = true → failed (Job.state jx) = true ∨ ∃ n, Job.state jx = Blocked n) as Hfail.
  { intros Hf. destruct (H2 Hf) as [[[_ ?%elem_of_nil] _]|[[i Hi]|?]]; [done| |by left].
    destruct (Hfi x jx Hx i Hi) as [_ Hm]. destruct (Job.state jx); eauto; by left. }
  split.
  - intros Hneed. assert (is_done (Job.state jy) = true) as Hd.
    { destruct (is_done (Job.state jy)) eqn:Hd; [done|exfalso].
      pose proof (i_blk _ _ _ _ _ _ HI x jx Hx) as Hb.
      assert (0 < indeg (Exec.jobs (exe (rn s))) x) as Hpos.
      { pose proof (wsum_le (edges x) _ y jy Hy) as Hle. unfold edges in Hle at 1. rewrite Hd in Hle.
        apply count_pos in Hin. unfold indeg. lia. }
      destruct (Job.state jx) eqn:Ex; simpl in Hb; try lia; try done.
      specialize (H1 eq_refl eq_refl). simpl in *. by rewrite Hneed in H1. }
    destruct (Job.state jy) as [| | | | |d] eqn:Ey; try done. exists d. split; [by exists jy|].
    destruct (Done.succeeded d) eqn:Hsd; [done|]. destruct Hfail as [Hf|[n Hn]]; [simpl; by rewrite Hsd| |by rewrite Hn in Hneed].
    destruct (Job.state jx); try done. simpl in *. by rewrite Hneed in Hf.
  - intros d (jy' & ? & Ed) Hsd. simplify_eq. apply Hfail. rewrite Ed. simpl. by rewrite Hsd.
Qed.

(** The run was made with the graph's edges, and keeps them. *)
Lemma graph_wired s : reachable s → wired jobs (rn s) ∧ ∀ p, is_Some (jobs !! p) → is_Some (byName (rn s) !! p).
Proof using Hgraph.
  induction 1 as [order r Horder Hrun|s ok ev m r' pool' _ IH Hroom Hm Hres].
  - assert (Forall (λ p, is_Some (jobs !! p)) order) as Hord by (apply Forall_forall; intros p Hp; by apply Horder).
    destruct (Run_spec succeeded rank jobs Hgraph order (Run.init c) (init_loading succeeded rank jobs Hgraph c) Hord)
      as (a & r' & Hr & HL & _ & Hnames). rewrite Hrun in Hr. injection Hr as <- _. split; [apply HL|].
    intros p Hp. by apply Hnames, Horder.
  - destruct (section_stays succeeded failedResult farmJob srt size ok ev s m Hm (rn s)) as [Hn He].
    unfold exec in Hn, He. rewrite Hres in Hn, He. simpl in *. destruct IH as [Hw Hall]. split.
    + intros p job i x Hp Hi Hx. destruct (Hall p) as [x' Hx']; [by exists job|]. pose proof (lookup_weaken _ _ _ _ Hx' Hn). simplify_eq.
      destruct (Hw p job i x Hp Hi Hx') as (y & Hy & Hd). exists y. split; [by eapply lookup_weaken|by apply He].
    + intros p [x Hx]%Hall. exists x. by eapply lookup_weaken.
Qed.

(** C31. Inputs come first.  The graph the run was made with says which derivations a job has as inputs.  At any time
    the job and each of these inputs are jobs of the run; a job that is offered to the scheduler, placed, being
    built or built has inputs that all succeeded, so no job is ever placed on top of
    a missing or failed input; and a job with a failed input ends as failed or is
    still blocked.  The same holds of an input that a job was made to wait for later, when the farm had lost it. *)
Theorem inputs_first s : reachable s →
  (∀ p job i, jobs !! p = Some job → i ∈ RJob.inputs job →
     ∃ x y, byName (rn s) !! p = Some x ∧ byName (rn s) !! i = Some y ∧ comes_first (exe (rn s)) y x) ∧
  ∀ x y, depends (exe (rn s)) x y → comes_first (exe (rn s)) y x.
Proof using farm_ok farm_path farm_result Hgraph.
  intros Hr. split; [|intros x y; by apply depends_first]. intros p job i Hp Hi. destruct (graph_wired s Hr) as [Hw Hall].
  destruct (Hall p) as [x Hx]; [by exists job|]. destruct (Hw p job i x Hp Hi Hx) as (y & Hy & Hd).
  exists x, y. split_and!; [done|done|]. by apply depends_first.
Qed.
End System.
