(* ===== verification/ClientResults.v ===== *)
(** * What the run tells nix and the scheduler

    Why a job ended as it did, what [collectResults] makes of it, which jobs the
    scheduler believes we want, and how an abandoned run drains. *)

From S2P Require Import Prelude Double Exec ExecInv ExecSettle ExecOps ExecGraph ExecStream.
From S2P Require Import ExecFollow ClientRun ClientRunInv ClientFlush ClientOps ClientGraph ClientSystem.

Section Results.
Context {R : Type} (succeeded : R → bool) (failedR : string → R) (farmJob : string → RJob.t R).
Context (srt : sorter) (size : N → N) (rank : string → nat).
Context (farm_path : ∀ p, RJob.drvPath (farmJob p) = p) (farm_ok : ∀ p, job_ok rank (farmJob p)).
Context (farm_result : ∀ p, RJob.result (farmJob p) = None).
Context (jobs : gmap string (RJob.t R)) (c : Cfg.t) (Hgraph : graph_ok rank jobs).
Implicit Types (s : system R) (r : run R).

Abbreviation reachable := (Threads.reachable succeeded failedR farmJob srt size jobs c).
Abbreviation inv_of := (system_inv succeeded failedR farmJob srt size rank farm_path farm_ok farm_result jobs c Hgraph).

(** ** Results *)

(** A job has a result exactly when a thread built it. *)
Definition results_built s : Prop :=
  ∀ (j : N) a v, byId (rn s) !! j = Some a → RJob.result a = Some v →
    state_is (exe (rn s)) j (Done (Done.mk built (succeeded v) "")).

Lemma reachable_results s : reachable s → results_built s.
Proof using farm_ok farm_path farm_result Hgraph.
  induction 1 as [order r Horder Hrun|s ok ev m r' pool' Hs IH Hroom Hm Hres].
  - assert (Forall (λ p, is_Some (jobs !! p)) order) as Hord by (apply Forall_forall; intros p Hp; by apply Horder).
    destruct (Run_spec succeeded rank jobs Hgraph order (Run.init c) (init_loading succeeded rank jobs Hgraph c) Hord)
      as (a & r' & Hr & HL & _). rewrite Hrun in Hr. injection Hr as <- _.
    intros j a' v Ha Hv. simpl in Ha. rewrite (ld_results _ _ _ _ HL j a' Ha) in Hv. done.
  - destruct (section_step succeeded failedR farmJob srt size rank farm_path farm_ok farm_result c s ok ev m
      (inv_of s Hs) Hroom Hm) as (p & r2 & Hm' & _ & HL). rewrite Hres in Hm'. injection Hm' as <- <-.
    intros j a' v Ha Hv. simpl in *. destruct (lt_results _ _ _ HL j a' Ha) as [E|(v' & Ev & Hd)].
    + rewrite Hv in E. symmetry in E. apply bind_Some in E as (a & Ha0 & E). apply (lt_done _ _ _ HL). by apply (IH j a).
    + by simplify_eq.
Qed.

(** Why a job ended as it did. *)
Definition justified r (j : N) (d : Done.t) : Prop :=
  match Done.outcome d with
  | built => ∃ a v, byId r !! j = Some a ∧ RJob.result a = Some v ∧ succeeded v = Done.succeeded d
  | cached => Done.succeeded d = true
  | dependencyFailed => Done.succeeded d = false ∧ ∃ job i di, Exec.jobs (exe r) !! j = Some job ∧
      Job.failedInput job = Some i ∧ state_is (exe r) i (Done di) ∧ Done.succeeded di = false
  | lost => Done.succeeded d = false ∧ abandoned (exe r) = true
  | unplaceable => Done.succeeded d = false
  | gaveUp => Done.succeeded d = false ∧ ∃ job, Exec.jobs (exe r) !! j = Some job ∧
      (Cfg.rescheduleRetries c < Job.bounced job)%N
  | cancelled => Done.succeeded d = false ∧ Cfg.keepGoing c = false ∧
      ∃ i di, state_is (exe r) i (Done di) ∧ Done.succeeded di = false
  end.

Lemma failed_state st : failed st = true → ∃ d, st = Done d ∧ Done.succeeded d = false.
Proof. destruct st as [| | | | |d]; try done. simpl. intros ?%negb_true_iff. by exists d. Qed.

(** Every job that ended has a reason that holds of the run: a build that a
    thread reported with that result, an answer from the cache, an input that failed,
    a run that was abandoned, more reschedules than allowed, or, without keep-going,
    the failure of another job.  Nothing succeeds without a build or a cache hit. *)
Theorem outcomes_justified s j d :
  reachable s → state_is (exe (rn s)) j (Done d) →
  justified (rn s) j d ∧ (Done.succeeded d = true → Done.outcome d = built ∨ Done.outcome d = cached).
Proof using farm_ok farm_path farm_result Hgraph.
  intros HS%inv_of Hd. pose proof (s_run _ _ _ _ HS) as HR. pose proof (r_inv _ _ _ HR) as HI.
  pose proof Hd as (job & Hj & Hst). pose proof (i_just _ _ _ _ _ _ HI j job d Hj Hst) as Hjust.
  unfold justified, just in *. rewrite (s_cfg _ _ _ _ HS) in Hjust.
  destruct (Done.outcome d) eqn:Ho; (split; [|intros Hs; first [by left|by right|exfalso; congruence|exfalso; destruct Hjust; congruence]]).
  - destruct (st_built _ _ _ (r_static _ _ _ HR) j d Hd Ho) as (a & v & ? & ? & ?). by exists a, v.
  - done.
  - destruct Hjust as [? [i Hi]]. split; [done|].
    destruct (i_fail _ _ _ _ _ _ HI) as [Hfi _]. destruct (Hfi j job Hj i Hi) as [(ji & Hji & Hf) _].
    destruct (failed_state _ Hf) as (di & Edi & ?). exists job, i, di. split_and!; try done. by exists ji.
  - done.
  - done.
  - destruct Hjust as [? ?]. split; [done|]. by exists job.
  - destruct Hjust as [? Hstop]. split; [done|].
    destruct (i_reason _ _ _ _ _ _ HI Hstop) as [Hk (i & ji & Hji & Hf)]. rewrite (s_cfg _ _ _ _ HS) in Hk.
    destruct (failed_state _ Hf) as (di & Edi & ?). split; [done|]. exists i, di. split; [|done]. by exists ji.
Qed.

(** What [collectResults] reports for a job without a result. *)
Definition reported (cachedResult : RJob.t R → R) (failedResult : FailureStatus → string → R)
    (interrupted : bool) r (job : Job.t) (a : RJob.t R) (d : Done.t) : R :=
  match Done.outcome d with
  | cached => cachedResult a
  | dependencyFailed => failedResult DependencyFailed ("dependency '" +:+
      match Job.failedInput job ≫= λ i : N, byId r !! i with Some b => RJob.drvPath b | None => "?" end +:+ "' failed")
  | _ => failedResult MiscFailure (if interrupted then "interrupted" else Done.message d)
  end.

Section Collect.
Context (cachedResult : RJob.t R → R) (failedResult : FailureStatus → string → R) (interrupted : bool).

(** The jobs before [n] have their results; the names of all are as before. *)
Definition collected r0 (rest : list N) r : Prop :=
  exe r = exe r0 ∧ vlen (byId r) = vlen (byId r0) ∧
  ∀ (j : N) a, byId r0 !! j = Some a → ∃ a', byId r !! j = Some a' ∧ RJob.drvPath a' = RJob.drvPath a ∧
    (j ∈ rest → a' = a) ∧
    (j ∉ rest → ∃ job d, Exec.jobs (exe r0) !! j = Some job ∧ Job.state job = Done d ∧
       RJob.result a' = Some (default (reported cachedResult failedResult interrupted r0 job a d) (RJob.result a))).

Lemma collect_set r0 r (j : N) rest a v :
  collected r0 (j :: rest) r → j ∉ rest → byId r0 !! j = Some a → byId r !! j = Some a →
  (∃ job d, Exec.jobs (exe r0) !! j = Some job ∧ Job.state job = Done d ∧
     v = default (reported cachedResult failedResult interrupted r0 job a d) (RJob.result a)) →
  collected r0 rest (with_byId (<[j := RJob.with_result (Some v) a]> (byId r)) r).
Proof.
  intros (Ee & Ev & Hall) Hnin Ha Ha' (job & d & Hj & Hs & ->). split_and!; [done|simpl; by rewrite vlen_insert|].
  intros i b Hb. simpl. destruct (decide (j = i)) as [<-|Hne].
  - simplify_eq. eexists. split; [apply vlookup_insert_eq; by eapply vlookup_lt_Some|]. split_and!; try done.
    intros _. by exists job, d.
  - destruct (Hall i b Hb) as (b' & Hb' & Ep & Hin & Hout). exists b'. rewrite vlookup_insert_ne by done.
    split_and!; try done; [intros Hi; apply Hin; by right|].
    intros Hi. apply Hout. intros [?|?]%elem_of_cons; congruence.
Qed.

Lemma collect_skip r0 r (j : N) rest a v :
  collected r0 (j :: rest) r → j ∉ rest → byId r0 !! j = Some a → byId r !! j = Some a → RJob.result a = Some v →
  (∃ job d, Exec.jobs (exe r0) !! j = Some job ∧ Job.state job = Done d) → collected r0 rest r.
Proof.
  intros (Ee & Ev & Hall) Hnin Ha Ha' Hv (job & d & Hj & Hs). split_and!; [done..|].
  intros i b Hb. destruct (decide (j = i)) as [<-|Hne].
  - simplify_eq. exists a. split_and!; try done. intros _. exists job, d. by rewrite Hv.
  - destruct (Hall i b Hb) as (b' & Hb' & Ep & Hin & Hout). exists b'.
    split_and!; try done; [intros Hi; apply Hin; by right|].
    intros Hi. apply Hout. intros [?|?]%elem_of_cons; congruence.
Qed.

(** The name of the input that failed. *)
Lemma failed_name {B} r0 r (j : N) rest job (k : string → M (run R) B) (Φ : B → run R → Prop) :
  ClientRunInv.RInv succeeded rank r0 → collected r0 rest r → Exec.jobs (exe r0) !! j = Some job →
  is_Some (Job.failedInput job) →
  wp (k (match Job.failedInput job ≫= λ i : N, byId r0 !! i with Some b => RJob.drvPath b | None => "?" end)) Φ r →
  wp (input ← Run.on_exe (failedInput j);
      name ← match input with
             | Some i => b ← Run.job_of i; mret (RJob.drvPath b)
             | None => mret "?"
             end;
      k name) Φ r.
Proof.
  intros HR (Ee & Ev & Hall) Hj [i Hi] HΦ. rewrite Hi in HΦ. simpl in HΦ.
  destruct (i_fail _ _ _ _ _ _ (r_inv _ _ _ HR)) as [Hfi _]. destruct (Hfi j job Hj i Hi) as [(ji & Hji & _) _].
  assert (∃ b, byId r0 !! i = Some b) as [b Hb].
  { apply vlookup_lt. rewrite (st_len _ _ _ (r_static _ _ _ HR)). by eapply vlookup_lt_Some. }
  destruct (Hall i b Hb) as (b' & Hb' & Ep & _). wp_step. unfold Run.on_exe. apply wp_zoom.
  unfold failedInput. wp_step. eapply wp_job_at; [by rewrite Ee|]. wp_steps. rewrite Hi.
  replace (with_exe (exe r) r) with r by by destruct r. wp_step. unfold Run.job_of. eapply wp_at; [exact Hb'|]. wp_steps. by rewrite Hb, <- Ep in HΦ.
Qed.

Lemma collect_job_spec r0 r (j : N) rest :
  ClientRunInv.RInv succeeded rank r0 → remaining (exe r0) = 0%N → collected r0 (j :: rest) r → j ∉ rest →
  (j < vlen (byId r0))%N →
  wp (Run.collect_job cachedResult failedResult interrupted j) (λ _, collected r0 rest) r.
Proof.
  intros HR Hzero HC Hnin Hlt. pose proof HC as (Ee & Ev & Hall).
  apply vlookup_lt in Hlt as [a Ha]. destruct (Hall j a Ha) as (a' & Ha' & _ & Hin & _).
  rewrite (Hin ltac:(by left)) in Ha'. clear Hin.
  destruct (job_known succeeded rank r0 j a HR Ha) as [job Hj].
  assert (∃ d, Job.state job = Done d) as [d Hs].
  { assert (is_done (Job.state job) = true) as Hd.
    { apply (proj1 (remaining_zero _ _ _ _ _ _ (r_inv _ _ _ HR)) Hzero j). by exists job. }
    destruct (Job.state job); try done. by eexists. }
  unfold Run.collect_job, Run.job_of at 1. wp_step. eapply wp_at; [exact Ha'|]. wp_step.
  unfold Run.on_exe at 1. apply wp_zoom. unfold at_job. wp_step. eapply wp_job_at; [by rewrite Ee|]. wp_steps.
  replace (with_exe (exe r) r) with r by by destruct r. rewrite Hs.
  destruct (RJob.result a) as [v|] eqn:Hv; [apply wp_ret; eapply collect_skip; try done; by exists job, d|].
  assert (∀ v, v = reported cachedResult failedResult interrupted r0 job a d →
    wp (set_at byId with_byId j (RJob.with_result (Some v) a)) (λ _, collected r0 rest) r) as Hset.
  { intros v Ev'. apply wp_set_at; [by eapply vlookup_lt_Some|]. apply collect_set; try done.
    exists job, d. rewrite Hv. by split_and!. }
  unfold reported in Hset. pose proof (i_just _ _ _ _ _ _ (r_inv _ _ _ HR) j job d Hj Hs) as Hjust. unfold just in Hjust.
  wp_step. destruct (Done.outcome d) eqn:Ho; try (apply wp_ret; by apply Hset).
  destruct Hjust as [_ Hfi].
  eapply (failed_name r0 r j (j :: rest) job); try done. apply wp_ret. by apply Hset.
Qed.

Lemma collectResults_spec r0 :
  ClientRunInv.RInv succeeded rank r0 → remaining (exe r0) = 0%N →
  wp (Run.collectResults cachedResult failedResult interrupted) (λ _, collected r0 []) r0.
Proof.
  intros HR Hzero. unfold Run.collectResults. wp_steps.
  eapply wp_mono; [apply (wp_forM _ (λ rest r, NoDup rest ∧ Forall (λ j, j < vlen (byId r0))%N rest ∧
    collected r0 rest r))|].
  - split_and!.
    + apply NoDup_fmap_2; [apply _|apply NoDup_seq].
    + apply Forall_forall. intros j Hj%elem_of_range. lia.
    + split_and!; [done..|]. intros j a Ha. exists a. split_and!; try done. intros Hn. exfalso. apply Hn, elem_of_range.
      apply vlookup_lt_Some in Ha. lia.
  - intros j rest r ([Hn Hnd]%NoDup_cons & [Hlt Hrest]%Forall_cons & HC).
    eapply wp_mono; [by apply (collect_job_spec r0 r j rest)|]. intros ? r' ?. by split_and!.
  - by intros ? r (_ & _ & ?).
Qed.

(** The job [a] of the run became [a'], with a result that tells how it ended. *)
Definition tells_outcome s (j : N) (a a' : RJob.t R) : Prop :=
  RJob.drvPath a' = RJob.drvPath a ∧
  ∃ v d, RJob.result a' = Some v ∧ state_is (exe (rn s)) j (Done d) ∧ succeeded v = Done.succeeded d ∧
    (Done.outcome d = built → RJob.result a = Some v).

Lemma collected_result s (j : N) a job d :
  SInv succeeded rank c s → results_built s →
  (∀ b, succeeded (cachedResult b) = true) → (∀ st msg, succeeded (failedResult st msg) = false) →
  byId (rn s) !! j = Some a → Exec.jobs (exe (rn s)) !! j = Some job → Job.state job = Done d →
  succeeded (default (reported cachedResult failedResult interrupted (rn s) job a d) (RJob.result a)) = Done.succeeded d ∧
  (Done.outcome d = built → is_Some (RJob.result a)).
Proof.
  intros HS Hres Hcached Hfailed Ha Hj Hst. pose proof (s_run _ _ _ _ HS) as HR.
  assert (state_is (exe (rn s)) j (Done d)) as Hd by by exists job.
  destruct (RJob.result a) as [v|] eqn:Hv; simpl.
  - split; [|done]. pose proof (state_is_det _ _ _ _ Hd (Hres j a v Ha Hv)) as [= ->]. done.
  - assert (Done.outcome d ≠ built) as Hnb.
    { intros Ho. destruct (st_built _ _ _ (r_static _ _ _ HR) j d Hd Ho) as (b & v & ? & ? & _). congruence. }
    split; [|done]. pose proof (i_just _ _ _ _ _ _ (r_inv _ _ _ HR) j job d Hj Hst) as Hjust.
    unfold reported, just in *. destruct (Done.outcome d); rewrite ?Hcached, ?Hfailed; try done;
      symmetry; by first [apply Hjust|exact Hjust].
Qed.

(** When the last job is done, [collectResults] returns and gives every job of
    the run a result that says success exactly when the job succeeded; the result of
    a job that was built is the one its build thread reported. *)
Theorem results_collected s :
  reachable s → remaining (exe (rn s)) = 0%N →
  (∀ b, succeeded (cachedResult b) = true) → (∀ st msg, succeeded (failedResult st msg) = false) →
  ∃ r', Run.collectResults cachedResult failedResult interrupted (rn s) = (r', Ok tt) ∧
    ∀ (j : N) a, byId (rn s) !! j = Some a → ∃ a', byId r' !! j = Some a' ∧ tells_outcome s j a a'.
Proof using farm_ok farm_path farm_result Hgraph.
  intros Hs Hzero Hcached Hfailed. pose proof (inv_of s Hs) as HS.
  destruct (collectResults_spec (rn s) (s_run _ _ _ _ HS) Hzero) as ([] & r' & Hr & _ & _ & Hall).
  exists r'. split; [done|]. intros j a Ha. destruct (Hall j a Ha) as (a' & Ha' & Ep & _ & Hres).
  destruct Hres as (job & d & Hj & Hst & Hv); [by apply not_elem_of_nil|].
  destruct (collected_result s j a job d HS (reachable_results s Hs) Hcached Hfailed Ha Hj Hst) as [Hok Hb].
  exists a'. split; [done|]. split; [done|]. eexists _, d. split_and!; [done|by exists job|done|].
  intros Ho. by destruct (Hb Ho) as [v ->].
Qed.
End Collect.

(** ** What the scheduler is told *)

(** After reading what was written to the stream. *)
Definition scheduler_follows r (p : string) : Prop := p ∈ follows_after (wire r).

(** The scheduler's view is right: while a stream is up and no Cancel waits to be
    sent, what the messages written to the stream make the scheduler follow are jobs
    of this run that are not done and wait for no input, among them every job that is
    Wanted, Assigned or Running. *)
Theorem scheduler_view s :
  reachable s → stream_ (rn s) = true → cancels (exe (rn s)) = [] →
  (∀ (j : N) a st, byId (rn s) !! j = Some a → state_is (exe (rn s)) j st → isActive st = true →
     scheduler_follows (rn s) (RJob.drvPath a)) ∧
  (∀ p, scheduler_follows (rn s) p → ∃ (j : N) a st, byId (rn s) !! j = Some a ∧
     RJob.drvPath a = p ∧ state_is (exe (rn s)) j st ∧ (isActive st = true ∨ st = Wantable)).
Proof using farm_ok farm_path farm_result Hgraph.
  intros HS%inv_of Hup Hcn. pose proof (s_run _ _ _ _ HS) as HR. pose proof HR as [HI Hstr Hact Hw Hst].
  destruct (i_fol _ _ _ _ _ _ HI) as [Hfol _]. rewrite Hcn, Hstr, Hup in Hfol. split.
  - intros j a st Ha (job & Hj & <-) Hac.
    destruct (Hact ltac:(congruence) j job Hj Hac) as [Hf|Hrw].
    + destruct (Hfol j job Hj) as [_ Hf']. apply (Hf' eq_refl) in Hf as [Hin _].
      apply elem_of_Fids in Hin as (a' & ? & ?). by simplify_eq.
    + rewrite (i_rewant _ _ _ _ _ _ HI) in Hrw. by apply elem_of_nil in Hrw.
  - intros p Hp. destruct (follows_after_path _ _ Hp) as (m & Hm & Em). rewrite Forall_forall in Hw.
    destruct (Hw m Hm) as [j Hj]. rewrite Em in Hj.
    destruct (name_known succeeded rank (rn s) p j HR Hj) as (a & job & Ha & Ep & Hjob).
    exists j, a, (Job.state job). split_and!; [done..|by exists job|].
    destruct (Hfol j job Hjob) as [Hf1 Hf2]. assert (Job.followed job = true) as Hf.
    { apply (Hf2 eq_refl). split; [|by apply not_elem_of_nil]. apply elem_of_Fids. exists a. by rewrite Ep. }
    destruct (Hf1 Hf) as [_ Hm']. destruct (Job.state job) eqn:E; auto; try done.
    pose proof (i_blk _ _ _ _ _ _ HI j job Hjob) as Hb. rewrite E in Hb. destruct Hb as (_ & _ & Hb).
    by destruct (proj1 (elem_of_nil j) (Hb Hm')).
Qed.

(** A thread has something to do, or will find something. *)
Definition goes_on s : Prop :=
  (∃ (t : nat) p, pool s !! t = Some p ∧ at_work p) ∨
  (∃ (t : nat) j, pool s !! t = Some Idle ∧ j ∈ ready (exe (rn s))).

(** An abandoned run drains: without a scheduler nothing waits to be placed any
    more, so as long as a job is not done a build thread has something to do or an
    idle thread will find a placed job; joining the threads comes to an end. *)
Theorem abandoned_drains s :
  reachable s → (0 < Cfg.threads c)%N → abandoned (exe (rn s)) = true → remaining (exe (rn s)) ≠ 0%N →
  (∀ j st, state_is (exe (rn s)) j st → unplaced st = false) ∧
  goes_on s.
Proof using farm_ok farm_path farm_result Hgraph.
  intros HS%inv_of Hthr Hgone Hrem. pose proof (s_run _ _ _ _ HS) as HR. pose proof (r_inv _ _ _ HR) as HI.
  assert (∀ j st, state_is (exe (rn s)) j st → unplaced st = false) as Hno.
  { intros j st (job & Hj & <-). destruct (unplaced _) eqn:Hu; [|done].
    by destruct (proj1 (elem_of_nil j) (i_gone _ _ _ _ _ _ HI Hgone j job Hj Hu)). }
  split; [done|].
  destruct (not_all_blocked _ _ HI (RInv_acyclic _ _ _ HR) Hrem) as (j & st & Hj & [->|Ha]).
  { by specialize (Hno j _ Hj). }
  destruct (placed_thread succeeded rank c s j st HS Hrem Hthr Hj) as [?|(t & ? & ?)];
    [|by left|right; by exists t, j].
  specialize (Hno j st Hj). by destruct st.
Qed.
End Results.
