(* ===== verification/ClientDemo.v ===== *)
(** * A small run

    Two derivations, the second built from the first, with a concrete
    [partial_sort]: the hypotheses of the theorems on the client's run hold of it. *)

From stdpp Require Import sorting.
From S2P Require Import Prelude Double Exec ExecInv ExecSettle ExecOps ExecGraph ExecStream.
From S2P Require Import ExecFollow ClientRun ClientRunInv ClientFlush ClientOps ClientGraph ClientSystem ClientResults.

(** ** Sorting *)

Fixpoint sort_insert (cmp : N → N → bool) (x : N) (l : list N) : list N :=
  match l with
  | [] => [x]
  | y :: l' => if cmp x y then x :: l else y :: sort_insert cmp x l'
  end.
Definition sort_all (cmp : N → N → bool) (l : list N) : list N := foldr (sort_insert cmp) [] l.

Lemma sort_insert_perm cmp x l : sort_insert cmp x l ≡ₚ x :: l.
Proof.
  induction l as [|y l IH]; simpl; [done|]. destruct (cmp x y); [done|]. rewrite IH. apply Permutation_swap.
Qed.

Lemma sort_all_perm cmp l : sort_all cmp l ≡ₚ l.
Proof. induction l as [|x l IH]; simpl; [done|]. by rewrite sort_insert_perm, IH. Qed.

Lemma sort_insert_sorted cmp x l :
  (∀ a b, a ∈ x :: l → b ∈ x :: l → cmp a b = true → cmp b a = false) →
  (∀ a b d, a ∈ x :: l → b ∈ x :: l → d ∈ x :: l → cmp a b = false → cmp b d = false → cmp a d = false) →
  StronglySorted (λ a b, cmp b a = false) l → StronglySorted (λ a b, cmp b a = false) (sort_insert cmp x l).
Proof.
  induction l as [|y l IH]; intros Has Htr Hs; simpl; [by repeat constructor|].
  apply StronglySorted_inv in Hs as [Hs Hy]. rewrite Forall_forall in Hy. destruct (cmp x y) eqn:E.
  - constructor; [by constructor; [|apply Forall_forall]|]. apply Forall_forall. intros z [->|Hz]%elem_of_cons.
    + apply Has; [set_solver..|done].
    + apply (Htr z y x); [set_solver..|by apply Hy|]. apply Has; [set_solver..|done].
  - constructor; [apply IH; [|(intros a b d Ha Hb Hd; apply Htr; set_solver)|done]; intros a b Ha Hb; apply Has; set_solver|].
    apply Forall_forall. intros z. rewrite (sort_insert_perm cmp x l). intros [->|Hz]%elem_of_cons; [done|by apply Hy].
Qed.

Lemma sort_all_sorted cmp l :
  (∀ a b, a ∈ l → b ∈ l → cmp a b = true → cmp b a = false) →
  (∀ a b d, a ∈ l → b ∈ l → d ∈ l → cmp a b = false → cmp b d = false → cmp a d = false) →
  StronglySorted (λ a b, cmp b a = false) (sort_all cmp l).
Proof.
  induction l as [|x l IH]; intros Has Htr; simpl; [constructor|]. apply sort_insert_sorted.
  - intros a b. rewrite !elem_of_cons, !(sort_all_perm cmp l), <- !elem_of_cons. apply Has.
  - intros a b d. rewrite !elem_of_cons, !(sort_all_perm cmp l), <- !elem_of_cons. apply Htr.
  - apply IH; [intros a b Ha Hb; apply Has; by right|intros a b d Ha Hb Hd; apply Htr; by right].
Qed.

Lemma sort_all_split cmp (middle : nat) l :
  (∀ x y, x ∈ l → y ∈ l → cmp x y = true → cmp y x = false) →
  (∀ x y z, x ∈ l → y ∈ l → z ∈ l → cmp x y = false → cmp y z = false → cmp x z = false) →
  ∀ x y, x ∈ take middle (sort_all cmp l) → y ∈ drop middle (sort_all cmp l) → cmp y x = false.
Proof.
  intros Has Htr x y Hx Hy. pose proof (sort_all_sorted cmp l Has Htr) as Hs.
  rewrite <- (take_drop middle (sort_all cmp l)) in Hs. by eapply StronglySorted_app_1_elem_of in Hs.
Qed.

Definition demo_sorter : sorter :=
  mkSorter (λ cmp _ l, sort_all cmp l) (λ cmp _ l, sort_all_perm cmp l) sort_all_split.

(** ** The run *)

Definition plain_job (p : string) (ins : list string) (farm : gmap string string) : RJob.t bool :=
  RJob.mk p [Some "h"] [] [] "x86_64-linux" 0 ins 1000 farm false None.

Definition demo_farm (p : string) : RJob.t bool := plain_job p [] ∅.

Definition demo_jobs : gmap string (RJob.t bool) :=
  {[ "a.drv" := plain_job "a.drv" [] ∅; "app.drv" := plain_job "app.drv" ["a.drv"] ∅ ]}.

Definition demo_cfg : Cfg.t := Cfg.mk 2 8 true.

Abbreviation demo_reachable :=
  (Threads.reachable (λ b : bool, b) (λ _, false) demo_farm demo_sorter (λ _, 100%N) demo_jobs demo_cfg).
Abbreviation demo_section :=
  (Threads.section_of (λ b : bool, b) (λ _, false) demo_farm demo_sorter (λ _, 100%N)).

Lemma demo_farm_ok p : job_ok String.length (demo_farm p).
Proof. intros q d Hq. simpl in Hq. by rewrite lookup_empty in Hq. Qed.

Lemma demo_job_cases p job :
  demo_jobs !! p = Some job →
  (p = "a.drv" ∧ job = plain_job "a.drv" [] ∅) ∨ (p = "app.drv" ∧ job = plain_job "app.drv" ["a.drv"] ∅).
Proof.
  unfold demo_jobs. intros [[<- <-]|[_ H]]%lookup_insert_Some; [by left|].
  apply lookup_singleton_Some in H as [<- <-]. by right.
Qed.

Lemma demo_graph : graph_ok String.length demo_jobs.
Proof.
  split.
  - by intros p job [[-> ->]|[-> ->]]%demo_job_cases.
  - intros p job i [[-> ->]|[-> ->]]%demo_job_cases Hi; simpl in Hi; [by apply elem_of_nil in Hi|].
    apply list_elem_of_singleton in Hi as ->. split; [by eexists|]. simpl. lia.
  - intros p job [[-> ->]|[-> ->]]%demo_job_cases q d Hq; simpl in Hq; by rewrite lookup_empty in Hq.
  - by intros p job [[-> ->]|[-> ->]]%demo_job_cases.
  - by intros p job [[-> ->]|[-> ->]]%demo_job_cases.
  - done.
Qed.

(** Running events. *)
Fixpoint play (evs : list (event bool)) (s : system bool) : option (system bool) :=
  match evs with
  | [] => Some s
  | ev :: evs' =>
      match demo_section (λ _, true) ev s with
      | Some m =>
          match m (rn s) with
          | (r', Ok pool') =>
              if (vlen (byId (rn s)) + 1 <? 2 ^ 32)%N then play evs' (mkSystem r' pool') else None
          | _ => None
          end
      | None => None
      end
  end.

Lemma play_demo evs s s' : demo_reachable s → play evs s = Some s' → demo_reachable s'.
Proof.
  revert s. induction evs as [|ev evs IH]; intros s Hs Hp; simpl in Hp; [by simplify_eq|].
  destruct (demo_section _ ev s) as [m|] eqn:Hm; [|done].
  destruct (m (rn s)) as [r' [pool'|]] eqn:Hr; [|done].
  destruct (N.ltb_spec (vlen (byId (rn s)) + 1) (2 ^ 32)); [|done].
  eapply IH; [|exact Hp]. by eapply Threads.reach_step.
Qed.

Definition demo_order : list string := ["a.drv"; "app.drv"].

Definition demo_start : system bool :=
  mkSystem (exec (Run.Run_ demo_jobs demo_order) (Run.init demo_cfg)) [Idle; Idle].

Lemma demo_order_ok p : is_Some (demo_jobs !! p) ↔ p ∈ demo_order.
Proof.
  split.
  - intros [job [[-> _]|[-> _]]%demo_job_cases]; unfold demo_order; set_solver.
  - unfold demo_order. rewrite !elem_of_cons, elem_of_nil. intros [->|[->|[]]]; by eexists.
Qed.

Lemma demo_start_reachable : demo_reachable demo_start.
Proof.
  exact (Threads.reach_start _ _ _ _ _ demo_jobs demo_cfg demo_order
    (exec (Run.Run_ demo_jobs demo_order) (Run.init demo_cfg)) demo_order_ok ltac:(vm_compute; reflexivity)).
Qed.

Definition played (evs : list (event bool)) : system bool := default demo_start (play evs demo_start).

Lemma played_reachable evs : is_Some (play evs demo_start) → demo_reachable (played evs).
Proof.
  intros [s Hs]. unfold played. rewrite Hs. simpl. eapply play_demo; [apply demo_start_reachable|done].
Qed.

(** The scheduler was asked for the first derivation. *)
Definition asked : list (event bool) := [Attach].
(** It was placed, a thread built it. *)
Definition building : list (event bool) :=
  asked ++ [Msgs 0 [SAssigned "a.drv" "worker" 1 "x86_64-linux"]; Thread 0 Goes].
Definition built_one : list (event bool) := building ++ [Thread 0 (Attempted (Built true)); Thread 0 Goes].
(** The second came from the cache. *)
Definition all_done : list (event bool) := built_one ++ [Msgs 1 [SCached "app.drv"]].
Definition left_alone : list (event bool) := building ++ [Abandon].

Lemma demo_asked : demo_reachable (played asked).
Proof. apply played_reachable. vm_compute. by eexists. Qed.
Lemma demo_building : demo_reachable (played building).
Proof. apply played_reachable. vm_compute. by eexists. Qed.
Lemma demo_built : demo_reachable (played built_one).
Proof. apply played_reachable. vm_compute. by eexists. Qed.
Lemma demo_all_done : demo_reachable (played all_done).
Proof. apply played_reachable. vm_compute. by eexists. Qed.
Lemma demo_left : demo_reachable (played left_alone).
Proof. apply played_reachable. vm_compute. by eexists. Qed.

(** ** The theorems at this run *)

Abbreviation at_demo P := (P bool (λ b : bool, b) (λ _ : string, false) demo_farm demo_sorter (λ _ : N, 100%N)
  String.length (λ _, eq_refl) demo_farm_ok (λ _, eq_refl) demo_jobs demo_cfg demo_graph).

Lemma client_total_witness :
  (∃ r, Run.Run_ demo_jobs demo_order (Run.init demo_cfg) = (r, Ok tt)) ∧
  ∃ r' pool', Run.attach demo_sorter (λ _, true) (λ _, 100%N) (rn demo_start) = (r', Ok pool').
Proof.
  destruct (at_demo (@client_total)) as [H1 H2]. split.
  - destruct (H1 demo_order demo_order_ok) as (r & Hr & _). by exists r.
  - destruct (H2 demo_start (λ _, true) Attach _ demo_start_reachable eq_refl eq_refl) as (r' & p & Hm).
    unfold mbind, M_bind in Hm. destruct (Run.attach _ _ _ _) as [r [[]|]]; [by exists r, tt|done].
Defined.

Lemma client_never_stuck_witness :
  (∃ (t : nat) p, pool (played asked) !! t = Some p ∧ at_work p) ∨
  (∃ (t : nat) j, pool (played asked) !! t = Some Idle ∧ j ∈ ready (exe (rn (played asked)))) ∨
  (∃ (j : N) since why a, state_is (exe (rn (played asked))) j (Wanted since why) ∧
     byId (rn (played asked)) !! j = Some a ∧ RJob.drvPath a ∈ follows_after (wire (rn (played asked)))).
Proof.
  apply (at_demo (@client_never_stuck) (played asked) demo_asked); [done|by vm_compute|by vm_compute].
Defined.

Lemma one_thread_per_build_witness :
  runs (rn (played building)) 0 ↔
  exists! t : nat, ∃ p, pool (played building) !! t = Some p ∧ holds p = Some 0%N.
Proof. apply (at_demo (@one_thread_per_build) (played building) demo_building). Defined.

Lemma inputs_first_witness :
  ∃ x y d, byName (rn (played built_one)) !! "app.drv" = Some x ∧ byName (rn (played built_one)) !! "a.drv" = Some y ∧
    state_is (exe (rn (played built_one))) y (Done d) ∧ Done.succeeded d = true.
Proof.
  destruct (at_demo (@inputs_first) (played built_one) demo_built) as [Hgraph _].
  destruct (Hgraph "app.drv" (plain_job "app.drv" ["a.drv"] ∅) "a.drv") as (x & y & Hx & Hy & Hfirst); [reflexivity|apply list_elem_of_here|].
  assert (byName (rn (played built_one)) !! "app.drv" = Some 1%N) as Hx1 by (vm_compute; reflexivity).
  assert (∃ st, state_is (exe (rn (played built_one))) 1 st ∧ inputs_needed st = true) as (st & Hst & Hn).
  { vm_compute. eexists. split; [eexists; split; reflexivity|reflexivity]. }
  assert (1%N = x) as <- by (apply (inj Some); exact (eq_trans (eq_sym Hx1) Hx)).
  destruct (proj1 (Hfirst st Hst) Hn) as (d & Hd & Hs). exists 1%N, y, d. exact (conj Hx1 (conj Hy (conj Hd Hs))).
Defined.

Lemma outcomes_justified_witness :
  justified (λ b : bool, b) demo_cfg (rn (played all_done)) 1 (Done.mk cached true "").
Proof.
  apply (at_demo (@outcomes_justified) (played all_done) 1%N (Done.mk cached true "") demo_all_done).
  vm_compute. eexists. split; reflexivity.
Defined.

Lemma results_collected_witness :
  ∃ r', Run.collectResults (λ _, true) (λ _ _, false) false (rn (played all_done)) = (r', Ok tt) ∧
    ∃ a', byId r' !! 1%N = Some a' ∧ RJob.result a' = Some true.
Proof.
  destruct (at_demo (@results_collected) (λ _, true) (λ _ _, false) false (played all_done) demo_all_done)
    as (r' & Hr & Hall); [by vm_compute|done|done|].
  exists r'. split; [done|].
  assert (∃ a, byId (rn (played all_done)) !! 1%N = Some a) as [a Ha] by (vm_compute; by eexists).
  destruct (Hall 1%N a Ha) as (a' & Ha' & _ & v & d & Hv & Hd & Hs & _). exists a'. split; [done|]. rewrite Hv.
  assert (state_is (exe (rn (played all_done))) 1 (Done (Done.mk cached true ""))) as Hd'.
  { vm_compute. eexists. split; reflexivity. }
  pose proof (state_is_det _ _ _ _ Hd Hd') as [= ->]. simpl in Hs. by subst.
Defined.

Lemma scheduler_view_witness : scheduler_follows (rn (played building)) "a.drv".
Proof.
  destruct (at_demo (@scheduler_view) (played building) demo_building) as [H _]; [by vm_compute|by vm_compute|].
  assert (∃ a, byId (rn (played building)) !! 0%N = Some a ∧ RJob.drvPath a = "a.drv") as (a & Ha & <-)
    by (vm_compute; eexists; split; reflexivity).
  assert (∃ st, state_is (exe (rn (played building))) 0 st ∧ isActive st = true) as (st & Hst & Hac).
  { vm_compute. eexists. split; [eexists; split; reflexivity|reflexivity]. }
  exact (H 0%N a st Ha Hst Hac).
Defined.

Lemma abandoned_drains_witness : goes_on (played left_alone).
Proof. apply (at_demo (@abandoned_drains) (played left_alone) demo_left); [done|by vm_compute|by vm_compute]. Defined.
