(* ===== verification/TopDown.v ===== *)
(** * Which nodes a store lacks

    src/src/top-down.hh: [nextBatch], [TopDownWalk] and [BuildWalk].  A [std::set]
    is a [gset] and a [std::map] a [gmap]; their order of iteration is the one of
    stdpp, on which no result depends.  The callbacks of the templates are
    arguments: [keys], [children] and [uses] are functions of a node, [query] and
    [fetch] answer with a set of keys.

    Loops over the graph have fuel; TopDownWalks.v and TopDownBuild.v show how much
    is enough for a finite graph.  [children_of] is total where [used.at] throws: the
    walk only asks for nodes of [used], as [Deciding] says.  [nextBatch] grows its batch at every iteration of its loop, so
    one more than the budget is always enough for it. *)

From S2P Require Import Prelude.

(** ** [nextBatch] *)

Definition topDownBudget : nat := 64.

Section NextBatch.
Context {Node : Type} `{Countable Node} (children : Node → list Node).

(** The unqueried nodes of a level. *)
Fixpoint take_level (level batch : list Node) (queried : gset Node) : list Node * gset Node :=
  match level with
  | [] => (batch, queried)
  | node :: level' =>
      if decide (node ∈ queried) then take_level level' batch queried
      else take_level level' (batch ++ [node]) ({[node]} ∪ queried)
  end.

(** The unqueried children of the nodes of a level. *)
Definition below_of (queried : gset Node) (current : list Node) : gset Node :=
  list_to_set (filter (λ child, child ∉ queried) (current ≫= children)).

Fixpoint batch_loop (fuel : nat) (budget : nat) (batch current : list Node) (queried : gset Node)
    : option (list Node * gset Node) :=
  if decide (length batch < budget) then
    match fuel with
    | O => None
    | S fuel' =>
        let below := below_of queried current in
        if decide (below = ∅ ∨ budget < length batch + size below) then Some (batch, queried)
        else batch_loop fuel' budget (batch ++ elements below) (elements below) (below ∪ queried)
    end
  else Some (batch, queried).

Definition nextBatch (level : list Node) (queried : gset Node) (budget : nat) : option (list Node * gset Node) :=
  let '(batch, queried) := take_level level [] queried in
  batch_loop (S budget) budget batch level queried.
End NextBatch.

(** ** [TopDownWalk] *)

Module TopDownWalk.
Section TopDownWalk.
Context {Node Key : Type} `{Countable Node} `{Countable Key}.
Context (keys : Node → list Key) (children : Node → list Node) (query : gset Key → gset Key) (budget : nat).

Record t := mk { valid : gset Key; queried : gset Node; seen : gset Node; missing : gset Node }.

Definition queryBatch (batch : list Node) (w : t) : t :=
  let wanted : gset Key := list_to_set (batch ≫= keys) in
  if decide (wanted = ∅) then w
  else mk (valid w ∪ query wanted) (queried w) (seen w) (missing w).

Definition isHeld (w : t) (node : Node) : bool :=
  bool_decide (keys node ≠ []) && forallb (λ key, bool_decide (key ∈ valid w)) (keys node).

(** [erase_if] of the nodes that were seen. *)
Fixpoint unseen (level : list Node) (w : t) : list Node * t :=
  match level with
  | [] => ([], w)
  | node :: level' =>
      if decide (node ∈ seen w) then unseen level' w
      else let '(rest, w') := unseen level' (mk (valid w) (queried w) ({[node]} ∪ seen w) (missing w)) in
           (node :: rest, w')
  end.

(** One node of a level. *)
Definition visit (acc : list Node * t) (node : Node) : list Node * t :=
  let '(next, w) := acc in
  if isHeld w node then acc
  else (next ++ children node, mk (valid w) (queried w) (seen w) ({[node]} ∪ missing w)).

Fixpoint run (fuel : nat) (level : list Node) (w : t) : option (gset Node) :=
  match fuel with
  | O => None
  | S fuel' =>
      let '(level, w) := unseen level w in
      match level with
      | [] => Some (missing w)
      | _ =>
          '(batch, q) ← nextBatch children level (queried w) budget;
          let w := queryBatch batch (mk (valid w) q (seen w) (missing w)) in
          let '(next, w) := foldl visit ([], w) level in
          run fuel' next w
      end
  end.
End TopDownWalk.
End TopDownWalk.

Definition missingTopDown {Node Key} `{Countable Node} `{Countable Key} (fuel : nat) (roots : list Node)
    (keys : Node → list Key) (children : Node → list Node) (query : gset Key → gset Key) (budget : nat)
    : option (gset Node) :=
  TopDownWalk.run keys children query budget fuel roots (TopDownWalk.mk ∅ ∅ ∅ ∅).

(** ** [BuildWalk] *)

(** [for (auto & [key, v] : m) acc[key] = f(v, acc[key])]. *)
Definition upd_each {K V W} `{Countable K} (f : V → option W → W) (m : gmap K V) (acc : gmap K W) : gmap K W :=
  foldl (λ acc kv, <[kv.1 := f kv.2 (acc !! kv.1)]> acc) acc (map_to_list m).

Module BuildWalk.
Section BuildWalk.
Context {Node Key : Type} `{Countable Node} `{Countable Key}.
Context (uses : Node → gmap Node (list Key)) (query fetch : gset Key → gset Key) (budget : nat).

Record t := mk {
  rebuilt : gset Node;
  used : gmap Node (gmap Node (list Key));
  users : gmap Node N;
  needs : gmap Node (gset Key);
  anyNeeds : gmap Node (gset Key);
  level : list Node;
  valid : gset Key;
  queried : gset Node;
  missing : gset Node;
}.
Definition with_level v w := mk (rebuilt w) (used w) (users w) (needs w) (anyNeeds w) v (valid w) (queried w) (missing w).
Definition with_users v w := mk (rebuilt w) (used w) v (needs w) (anyNeeds w) (level w) (valid w) (queried w) (missing w).
Definition with_needs v w := mk (rebuilt w) (used w) (users w) v (anyNeeds w) (level w) (valid w) (queried w) (missing w).
Definition with_valid v w := mk (rebuilt w) (used w) (users w) (needs w) (anyNeeds w) (level w) v (queried w) (missing w).
Definition with_queried v w := mk (rebuilt w) (used w) (users w) (needs w) (anyNeeds w) (level w) (valid w) v (missing w).
Definition with_missing v w := mk (rebuilt w) (used w) (users w) (needs w) (anyNeeds w) (level w) (valid w) (queried w) v.

(** More keys of a node. *)
Definition more_keys (ks : list Key) (o : option (gset Key)) : gset Key := default ∅ o ∪ list_to_set ks.
Definition one_more (o : option N) : N := u64 (default 0%N o + 1).

Definition isHeld (node : Node) : M t bool :=
  w ← get;
  keys ← expect OutOfRange (needs w !! node);
  mret (negb (bool_decide (node ∈ rebuilt w)) && negb (bool_decide (keys = ∅)) && bool_decide (keys ⊆ valid w)).

(** The nodes a node of the graph depends on. *)
Definition children_of (w : t) (node : Node) : list Node :=
  match used w !! node with Some m => (map_to_list m).*1 | None => [] end.

Definition queryAhead (needed : list Node) : M t () :=
  w ← get;
  '(batch, q) ← expect OutOfFuel (nextBatch (children_of w) needed (queried w) budget);
  modify (with_queried q);;
  let keys : gset Key := union_list ((λ node, default ∅ (anyNeeds w !! node)) <$> batch) in
  if decide (keys = ∅) then mret tt else modify (λ w, with_valid (valid w ∪ query keys) w).

Definition fetchLacking (needed : list Node) : M t () :=
  lacking ← foldM (λ acc node,
    w ← get;
    if decide (node ∈ rebuilt w) then mret acc
    else keys ← expect OutOfRange (needs w !! node); mret (acc ∪ (keys ∖ valid w))) ∅ needed;
  if decide (lacking = ∅) then mret tt else modify (λ w, with_valid (valid w ∪ fetch lacking) w).

(** A user of [child] was decided. *)
Definition one_user_less (next : list Node) (child : Node) : M t (list Node) :=
  w ← get;
  n ← expect OutOfRange (users w !! child);
  modify (with_users (<[child := sub64 n 1]> (users w)));;
  mret (if (sub64 n 1 =? 0)%N then next ++ [child] else next).

Definition decide_node (next : list Node) (node : Node) : M t (list Node) :=
  w ← get;
  lacks ← (if decide (is_Some (needs w !! node)) then held ← isHeld node; mret (negb held) else mret false);
  m ← expect OutOfRange (used w !! node);
  (if lacks : bool then
     modify (λ w, with_missing ({[node]} ∪ missing w) w);;
     modify (λ w, with_needs (upd_each more_keys m (needs w)) w)
   else mret tt);;
  foldM one_user_less next (map_to_list m).*1.

(** [BuildWalk::decide] *)
Definition decide_level : M t (list Node) := w ← get; foldM decide_node [] (level w).

(** The constructor: the graph below the roots. *)
Fixpoint explore (fuel : nat) (todo : list Node) (w : t) : option t :=
  match todo with
  | [] => Some w
  | node :: todo' =>
      match fuel with
      | O => None
      | S fuel' =>
          if decide (is_Some (used w !! node)) then explore fuel' todo' w
          else
            let m := uses node in
            explore fuel' (rev (map_to_list m).*1 ++ todo')
              (mk (rebuilt w) (<[node := m]> (used w)) (upd_each (λ _, one_more) m (users w)) (needs w)
                 (upd_each more_keys m (anyNeeds w)) (level w) (valid w) (queried w) (missing w))
      end
  end.

Definition root_keys (rebuildRoots : bool) (wanted : list Key) : gset Key :=
  if rebuildRoots then ∅ else list_to_set wanted.

Definition initial (roots : gmap Node (list Key)) (rebuildRoots : bool) : t :=
  mk (if rebuildRoots then dom roots else ∅) ∅ ∅
     (root_keys rebuildRoots <$> roots) (root_keys rebuildRoots <$> roots) [] ∅ ∅ ∅.

Definition BuildWalk_ (fuel : nat) (roots : gmap Node (list Key)) (rebuildRoots : bool) : option t :=
  w ← explore fuel (rev (map_to_list roots).*1) (initial roots rebuildRoots);
  Some (with_level (filter (λ root, users w !! root = None) (map_to_list roots).*1) w).

Definition run_level : M t () :=
  w ← get;
  let needed := filter (λ node, is_Some (needs w !! node)) (level w) in
  queryAhead needed;;
  fetchLacking needed;;
  next ← decide_level;
  modify (with_level next).

Fixpoint run (fuel : nat) : M t (gset Node) :=
  w ← get;
  match level w with
  | [] => mret (missing w)
  | _ => match fuel with
         | O => throw OutOfFuel
         | S fuel' => run_level;; run fuel'
         end
  end.
End BuildWalk.
End BuildWalk.

Definition missingForBuild {Node Key} `{Countable Node} `{Countable Key} (fuel : nat)
    (roots : gmap Node (list Key)) (rebuildRoots : bool) (uses : Node → gmap Node (list Key))
    (query fetch : gset Key → gset Key) (budget : nat) : option (gset Node) :=
  w ← BuildWalk.BuildWalk_ uses fuel roots rebuildRoots;
  match BuildWalk.run query fetch budget fuel w with
  | (_, Ok missing) => Some missing
  | _ => None
  end.
