(* ===== verification/TopDownWalks.v ===== *)
(** * The walks find exactly what the store lacks *)

From S2P Require Import Prelude TopDown.

#[local] Set Warnings "-level-tolerance".

(** ** Batches *)

Section Batch.
Context {Node : Type} `{Countable Node} (children : Node → list Node).

Lemma take_level_spec level batch queried :
  let '(b, q) := take_level level batch queried in
  (∀ n : Node, n ∈ q ↔ n ∈ queried ∨ n ∈ level) ∧
  (∀ n, n ∈ q → n ∈ queried ∨ n ∈ b) ∧ (∀ n, n ∈ b → n ∈ batch ∨ n ∈ level) ∧ (∀ n, n ∈ batch → n ∈ b) ∧
  length b ≥ length batch.
Proof.
  revert batch queried. induction level as [|x level IH]; intros batch queried; simpl; [set_solver by lia|].
  case_decide as Hx.
  - specialize (IH batch queried). destruct (take_level level batch queried) as [b q].
    destruct IH as (H1 & H2 & H3 & H4 & H5). split_and!; [|done|..]; [|set_solver..|done].
    intros n. rewrite H1. set_solver.
  - specialize (IH (batch ++ [x]) ({[x]} ∪ queried)). destruct (take_level _ _ _) as [b q].
    destruct IH as (H1 & H2 & H3 & H4 & H5). rewrite length_app in H5. split_and!; [..|lia].
    + intros n. rewrite H1. set_solver.
    + intros n [Hn|Hn]%H2; [|by right]. set_solver.
    + intros n [Hn|Hn]%H3; set_solver.
    + intros n Hn. apply H4. set_solver.
Qed.

Lemma elem_of_below_of queried current (n : Node) :
  n ∈ below_of children queried current ↔ (n ∉ queried ∧ ∃ m, m ∈ current ∧ n ∈ children m).
Proof. unfold below_of. rewrite elem_of_list_to_set, list_elem_of_filter, list_elem_of_bind. set_solver. Qed.

(** [U]: a set of nodes closed under [children]. *)
Definition closed_under (U : gset Node) : Prop := ∀ n m, n ∈ U → m ∈ children n → m ∈ U.

Lemma batch_loop_spec U fuel budget batch current queried :
  closed_under U → budget < fuel + length batch →
  (∀ n, n ∈ current → n ∈ U) → (∀ n, n ∈ batch → n ∈ U) →
  ∃ b q, batch_loop children fuel budget batch current queried = Some (b, q) ∧
    (∀ n, n ∈ queried → n ∈ q) ∧ (∀ n, n ∈ q → n ∈ queried ∨ n ∈ b) ∧
    (∀ n, n ∈ batch → n ∈ b) ∧ (∀ n, n ∈ b → n ∈ U).
Proof.
  intros HU. revert batch current queried. induction fuel as [|fuel IH]; intros batch current queried Hf Hc Hb;
    simpl; (case_decide as Hlt; [|by exists batch, queried; split_and!; auto]); [lia|].
  case_decide as Hstop; [by exists batch, queried; split_and!; auto|].
  assert (below_of children queried current ≠ ∅) as Hne by naive_solver.
  assert (∀ n, n ∈ below_of children queried current → n ∈ U) as Hbel.
  { intros n (_ & m & Hm & Hn)%elem_of_below_of. by eapply HU; [apply Hc|]. }
  assert (size (below_of children queried current) ≠ 0) as Hsz by (by intros ?%size_empty_inv%leibniz_equiv).
  destruct (IH (batch ++ elements (below_of children queried current)) (elements (below_of children queried current))
    (below_of children queried current ∪ queried)) as (b & q & -> & H1 & H2 & H3 & H4).
  - rewrite length_app. unfold size, set_size in Hsz. simpl in Hsz. lia.
  - intros n Hn%elem_of_elements. by apply Hbel.
  - intros n [Hn|Hn%elem_of_elements]%elem_of_app; [by apply Hb|by apply Hbel].
  - exists b, q. split_and!; [done|..|done].
    + intros n Hn. apply H1. set_solver.
    + intros n [[Hn|Hn]%elem_of_union|Hn]%H2; [|by left|by right]. right. apply H3. set_solver.
    + intros n Hn. apply H3. set_solver.
Qed.

Lemma nextBatch_spec U level queried budget :
  closed_under U → (∀ n, n ∈ level → n ∈ U) →
  ∃ b q, nextBatch children level queried budget = Some (b, q) ∧
    (∀ n, n ∈ queried → n ∈ q) ∧ (∀ n, n ∈ level → n ∈ q) ∧ (∀ n, n ∈ q → n ∈ queried ∨ n ∈ b) ∧
    (∀ n, n ∈ b → n ∈ U).
Proof.
  intros HU Hl. unfold nextBatch. pose proof (take_level_spec level [] queried) as Ht.
  destruct (take_level level [] queried) as [b0 q0]. destruct Ht as (H1 & H2 & H3 & _ & _).
  destruct (batch_loop_spec U (S budget) budget b0 level q0 HU) as (b & q & -> & G1 & G2 & G3 & G4); [lia|done|..].
  - intros n [?%elem_of_nil|?]%H3; [done|auto].
  - exists b, q. split_and!; [done|..|done].
    + intros n Hn. apply G1, H1. by left.
    + intros n Hn. apply G1, H1. by right.
    + intros n [[?|?]%H2|?]%G2; auto.
Qed.
End Batch.

(** ** [TopDownWalk] *)

Section Walk.
Context {Node Key : Type} `{Countable Node} `{Countable Key}.
Context (keys : Node → list Key) (children : Node → list Node) (query : gset Key → gset Key) (budget : nat).
Context (held : gset Key) (query_ok : ∀ ks k, k ∈ query ks ↔ k ∈ ks ∧ k ∈ held).
Context (roots : list Node) (U : gset Node) (HU : closed_under children U) (Hroots : ∀ n, n ∈ roots → n ∈ U).
Implicit Types w : @TopDownWalk.t Node Key _ _ _ _.

(** A node that the store does not hold. *)
Definition lacks (n : Node) : Prop := keys n = [] ∨ ¬ Forall (.∈ held) (keys n).

(** The nodes to ask for: the roots, and what is below a node that is lacking. *)
Inductive reached : Node → Prop :=
  | reached_root n : n ∈ roots → reached n
  | reached_child m n : reached m → lacks m → n ∈ children m → reached n.

Record Answers w : Prop := mkAnswers {
  an_sound : ∀ k, k ∈ TopDownWalk.valid w → k ∈ held;
  an_complete : ∀ n k, n ∈ TopDownWalk.queried w → k ∈ keys n → k ∈ held → k ∈ TopDownWalk.valid w;
}.

Record Walked (level : list Node) w : Prop := mkWalked {
  wk_answers : Answers w;
  wk_seen : ∀ n, n ∈ TopDownWalk.seen w → reached n ∧ n ∈ U;
  wk_level : ∀ n, n ∈ level → reached n ∧ n ∈ U;
  wk_missing : ∀ n, n ∈ TopDownWalk.missing w ↔ n ∈ TopDownWalk.seen w ∧ lacks n;
  wk_roots : ∀ n, n ∈ roots → n ∈ TopDownWalk.seen w ∨ n ∈ level;
  wk_below : ∀ m n, m ∈ TopDownWalk.missing w → n ∈ children m → n ∈ TopDownWalk.seen w ∨ n ∈ level;
}.

Lemma isHeld_spec w n :
  Answers w → n ∈ TopDownWalk.queried w → TopDownWalk.isHeld keys w n = false ↔ lacks n.
Proof.
  intros [Hs Hc] Hq. unfold TopDownWalk.isHeld, lacks.
  assert (forallb (λ key, bool_decide (key ∈ TopDownWalk.valid w)) (keys n) = bool_decide (Forall (.∈ held) (keys n))) as ->.
  { apply eq_true_iff_eq. rewrite forallb_forall, bool_decide_eq_true, Forall_forall. split.
    - intros Hall k Hk. apply Hs. apply list_elem_of_In in Hk. by apply Hall, bool_decide_eq_true in Hk.
    - intros Hall k Hk%list_elem_of_In. apply bool_decide_eq_true. apply (Hc n); auto. }
  rewrite andb_false_iff, !bool_decide_eq_false. destruct (decide (keys n = [])); naive_solver.
Qed.

Lemma unseen_spec level w :
  let '(l, w') := TopDownWalk.unseen level w in
  (∀ n, n ∈ l ↔ n ∈ level ∧ n ∉ TopDownWalk.seen w) ∧
  (∀ n, n ∈ TopDownWalk.seen w' ↔ n ∈ TopDownWalk.seen w ∨ n ∈ level) ∧
  TopDownWalk.valid w' = TopDownWalk.valid w ∧ TopDownWalk.queried w' = TopDownWalk.queried w ∧
  TopDownWalk.missing w' = TopDownWalk.missing w.
Proof.
  revert w. induction level as [|x level IH]; intros w; simpl; [set_solver|]. case_decide as Hx.
  - specialize (IH w). destruct (TopDownWalk.unseen level w) as [l w']. destruct IH as (H1 & H2 & ?).
    split; [intros n; rewrite H1; set_solver|]. split; [intros n; rewrite H2; set_solver|done].
  - specialize (IH (TopDownWalk.mk (TopDownWalk.valid w) (TopDownWalk.queried w) ({[x]} ∪ TopDownWalk.seen w) (TopDownWalk.missing w))).
    destruct (TopDownWalk.unseen level _) as [l w']. destruct IH as (H1 & H2 & ?). simpl in *.
    split; [|split; [intros n; rewrite H2; set_solver|done]].
    intros n. rewrite elem_of_cons, H1. destruct (decide (n = x)) as [->|]; set_solver.
Qed.

Lemma queryBatch_spec batch w q :
  Answers w → (∀ n, n ∈ q → n ∈ TopDownWalk.queried w ∨ n ∈ batch) →
  Answers (TopDownWalk.queryBatch keys query batch
    (TopDownWalk.mk (TopDownWalk.valid w) q (TopDownWalk.seen w) (TopDownWalk.missing w))).
Proof.
  intros [Hs Hc] Hq. unfold TopDownWalk.queryBatch. simpl.
  assert (∀ n k, n ∈ batch → k ∈ keys n → k ∈ (list_to_set (batch ≫= keys) : gset Key)) as Hin.
  { intros n k Hn Hk. apply elem_of_list_to_set, list_elem_of_bind. by exists n. }
  case_decide as Hempty; split; simpl.
  - done.
  - intros n k [Hn|Hn]%Hq Hk Hh; [by apply (Hc n)|]. pose proof (Hin n k Hn Hk). set_solver.
  - intros k [?|[_ ?]%query_ok]%elem_of_union; auto.
  - intros n k [Hn|Hn]%Hq Hk Hh; apply elem_of_union; [left; by apply (Hc n)|right].
    apply query_ok. split; [by apply (Hin n)|done].
Qed.

Lemma visit_spec level next w :
  Answers w → (∀ n, n ∈ level → n ∈ TopDownWalk.queried w) →
  let '(next', w') := foldl (TopDownWalk.visit keys children) (next, w) level in
  Answers w' ∧ TopDownWalk.seen w' = TopDownWalk.seen w ∧
  (∀ n, n ∈ TopDownWalk.missing w' ↔ n ∈ TopDownWalk.missing w ∨ n ∈ level ∧ lacks n) ∧
  (∀ n, n ∈ next' ↔ n ∈ next ∨ ∃ m, m ∈ level ∧ lacks m ∧ n ∈ children m).
Proof.
  revert next w. induction level as [|x level IH]; intros next w HA Hq; [simpl; set_solver|]. cbn [foldl].
  pose proof (isHeld_spec w x HA (Hq x (list_elem_of_here _ _))) as Hx. unfold TopDownWalk.visit at 2.
  destruct (TopDownWalk.isHeld keys w x).
  - assert (¬ lacks x) as Hnl by (rewrite <- Hx; done). specialize (IH next w HA). destruct (foldl _ _ _) as [next' w'].
    destruct IH as (? & ? & H1 & H2); [set_solver|]. split_and!; [done..| |].
    + intros n. rewrite H1. set_solver.
    + intros n. rewrite H2. set_solver.
  - assert (lacks x) as Hl by (by apply Hx).
    specialize (IH (next ++ children x) (TopDownWalk.mk (TopDownWalk.valid w) (TopDownWalk.queried w)
      (TopDownWalk.seen w) ({[x]} ∪ TopDownWalk.missing w))). destruct (foldl _ _ _) as [next' w'].
    destruct IH as (? & ? & H1 & H2); [by destruct HA; split|set_solver|]. simpl in *. split_and!; [done..| |].
    + intros n. rewrite H1. set_solver.
    + intros n. rewrite H2. set_solver.
Qed.

Lemma run_spec fuel level w :
  Walked level w → size (U ∖ TopDownWalk.seen w) < fuel →
  ∃ S, TopDownWalk.run keys children query budget fuel level w = Some S ∧ ∀ n, n ∈ S ↔ reached n ∧ lacks n.
Proof.
  revert level w. induction fuel as [|fuel IH]; intros level w HW Hf; [lia|]. simpl.
  pose proof (unseen_spec level w) as Hu. destruct (TopDownWalk.unseen level w) as [l w1].
  destruct Hu as (Hl & Hseen & Ev & Eq & Em). pose proof HW as [HA Hs Hlev Hm Hr Hb].
  assert (Answers w1) as HA1 by (destruct HA; split; by rewrite ?Ev, ?Eq).
  destruct l as [|x l].
  - exists (TopDownWalk.missing w1). split; [done|]. intros n. rewrite Em, Hm. split; [naive_solver|].
    assert (∀ n, n ∈ level → n ∈ TopDownWalk.seen w) as Hall.
    { intros m Hin. destruct (decide (m ∈ TopDownWalk.seen w)) as [|Hn]; [done|].
      by destruct (proj1 (elem_of_nil m) (proj2 (Hl m) (conj Hin Hn))). }
    intros [Hreach Hlack]. split; [|done]. induction Hreach as [n Hn|m n Hreach IHm Hlm Hn].
    + destruct (Hr n Hn); auto.
    + destruct (Hb m n) as [?|?]; [|done|auto|auto]. apply Hm. split; [by apply IHm|done].
  - set (lv := x :: l) in *.
    assert (∀ n, n ∈ lv → reached n ∧ n ∈ U) as HlvU by (intros n Hn; apply Hlev; by apply Hl).
    destruct (nextBatch_spec children U lv (TopDownWalk.queried w1) budget HU) as (b & q & -> & _ & Hq2 & Hq3 & _);
      [by intros n [_ ?]%HlvU|]. cbn [mbind option_bind].
    pose proof (queryBatch_spec b w1 q HA1 Hq3) as HA2. set (w2 := TopDownWalk.queryBatch _ _ _ _) in *.
    assert (TopDownWalk.seen w2 = TopDownWalk.seen w1 ∧ TopDownWalk.missing w2 = TopDownWalk.missing w1 ∧
      TopDownWalk.queried w2 = q) as (Es2 & Em2 & Eq2) by (unfold w2, TopDownWalk.queryBatch; by case_decide).
    pose proof (visit_spec lv [] w2 HA2) as Hv. destruct (foldl _ ([], w2) lv) as [next w3].
    destruct Hv as (HA3 & Es3 & Hm3 & Hn3); [by rewrite Eq2|]. rewrite Em2, Em in Hm3. rewrite Es2 in Es3.
    apply IH.
    + split.
      * done.
      * intros n. rewrite Es3, Hseen. intros [?|?]; auto.
      * intros n Hn. apply Hn3 in Hn as [?%elem_of_nil|(m & Hm' & Hlm & Hc)]; [done|].
        destruct (HlvU m Hm'). split; [by eapply reached_child|by eapply HU].
      * intros n. rewrite Hm3, Es3, Hseen, Hm, Hl. split; [naive_solver|].
        intros [[?|?] ?]; [by left|]. destruct (decide (n ∈ TopDownWalk.seen w)); [by left|by right].
      * intros n Hn. left. rewrite Es3, Hseen. by apply Hr.
      * intros m n Hm' Hc. rewrite Es3, Hseen. apply Hm3 in Hm' as [Hm'|[Hm' Hlm]].
        -- left. by eapply Hb.
        -- right. apply Hn3. right. by exists m.
    + assert (size (U ∖ TopDownWalk.seen w3) < size (U ∖ TopDownWalk.seen w)); [|lia].
      apply subset_size. split.
      * intros n. rewrite !elem_of_difference, Es3, Hseen. naive_solver.
      * intros Hsub. destruct (proj1 (Hl x)) as [Hx Hnx]; [by left|].
        assert (x ∈ U ∖ TopDownWalk.seen w3) as [_ Hnx3]%elem_of_difference.
        { apply Hsub, elem_of_difference. split; [by apply Hlev|done]. }
        apply Hnx3. rewrite Es3, Hseen. by right.
Qed.

Lemma missingTopDown_spec fuel :
  size U < fuel →
  ∃ S, missingTopDown fuel roots keys children query budget = Some S ∧ ∀ n, n ∈ S ↔ reached n ∧ lacks n.
Proof.
  intros Hf. apply run_spec.
  - split; simpl; [by split|set_solver| |set_solver..].
    intros n Hn. split; [by apply reached_root|by apply Hroots].
  - simpl. assert (size (U ∖ ∅) ≤ size U); [|lia]. apply subseteq_size. set_solver.
Qed.

(** The whole closure of the roots. *)
Definition below (n : Node) : Prop := ∃ r, r ∈ roots ∧ rtc (λ m c, c ∈ children m) r n.

Lemma reached_below :
  (∀ m c, ¬ lacks m → c ∈ children m → ¬ lacks c) →
  ∀ n, reached n ∧ lacks n ↔ below n ∧ lacks n.
Proof.
  intros Hheld. assert (∀ n, lacks n ∨ ¬ lacks n) as Hdec.
  { intros n. unfold lacks. destruct (decide (keys n = [])), (decide (Forall (.∈ held) (keys n))); naive_solver. }
  intros n. split; intros [Hn Hl]; (split; [|done]).
  - clear Hl. induction Hn as [n Hn|m n Hm IH Hl Hc]; [by exists n|].
    destruct IH as (r & ? & ?). exists r. split; [done|]. by eapply rtc_r.
  - destruct Hn as (r & Hr & Hrtc). revert n Hrtc Hl. apply (rtc_ind_r (λ n, lacks n → reached n)).
    + intros _. by apply reached_root.
    + intros m c _ Hc IH Hl. destruct (Hdec m) as [Hm|Hm]; [by eapply reached_child; [apply IH|..]|].
      by destruct (Hheld m c Hm Hc).
Qed.

(** C34. Asking level by level finds what asking for the whole closure of the roots
    would find: when the store holds what lies below everything it holds, the walk
    ends and returns exactly the lacking nodes of the closure. *)
Theorem missingTopDown_closure fuel :
  size U < fuel → (∀ m c, ¬ lacks m → c ∈ children m → ¬ lacks c) →
  ∃ S, missingTopDown fuel roots keys children query budget = Some S ∧ ∀ n, n ∈ S ↔ below n ∧ lacks n.
Proof.
  intros Hf Hheld. destruct (missingTopDown_spec fuel Hf) as (S & HS & Hn). exists S. split; [done|].
  intros n. rewrite Hn. by apply reached_below.
Qed.
End Walk.

(** * The graph below the requested nodes

    What the constructor of [BuildWalk] (src/src/top-down.hh) collects: the nodes
    below the roots, what each of them uses and how many nodes use it. *)

(** ** [upd_each] *)

Section UpdEach.
Context {K V W : Type} `{Countable K} (f : V → option W → W).

Lemma upd_list_lookup (l : list (K * V)) (acc : gmap K W) k :
  NoDup l.*1 →
  foldl (λ acc kv, <[kv.1 := f kv.2 (acc !! kv.1)]> acc) acc l !! k =
  match (list_to_map l : gmap K V) !! k with Some v => Some (f v (acc !! k)) | None => acc !! k end.
Proof.
  revert acc. induction l as [|[k' v] l IH]; intros acc; cbn [fmap list_fmap foldl fst snd list_to_map foldr].
  { intros _. by rewrite lookup_empty. }
  intros [Hn Hd]%NoDup_cons. rewrite IH by done. destruct (decide (k = k')) as [->|Hne].
  - rewrite not_elem_of_list_to_map_1 by done. simpl. by rewrite !lookup_insert_eq.
  - simpl. by rewrite !lookup_insert_ne by done.
Qed.

Lemma upd_each_lookup (m : gmap K V) (acc : gmap K W) k :
  upd_each f m acc !! k = match m !! k with Some v => Some (f v (acc !! k)) | None => acc !! k end.
Proof. unfold upd_each. rewrite upd_list_lookup by apply NoDup_fst_map_to_list. by rewrite list_to_map_to_list. Qed.
End UpdEach.

(** ** The nodes that use a node *)

Section Explore.
Context {Node Key : Type} `{Countable Node} `{Countable Key}.
Context (uses : Node → gmap Node (list Key)).
Implicit Types w : @BuildWalk.t Node Key _ _ _ _.

(** The nodes of [X] that use [c]. *)
Definition users_in (X : gset Node) (c : Node) : gset Node := filter (λ m, is_Some (uses m !! c)) X.

Lemma elem_of_users_in X c m : m ∈ users_in X c ↔ m ∈ X ∧ is_Some (uses m !! c).
Proof. unfold users_in. rewrite elem_of_filter. naive_solver. Qed.

Lemma users_in_add X c m :
  m ∉ X → size (users_in ({[m]} ∪ X) c) = (if decide (is_Some (uses m !! c)) then 1 else 0) + size (users_in X c).
Proof.
  intros Hm. destruct (decide _) as [Hs|Hs].
  - assert (users_in ({[m]} ∪ X) c = {[m]} ∪ users_in X c) as ->.
    { apply set_eq. intros n. rewrite elem_of_union, !elem_of_users_in, elem_of_union, elem_of_singleton. naive_solver. }
    rewrite size_union, size_singleton; [done|]. apply disjoint_singleton_l. rewrite elem_of_users_in. naive_solver.
  - simpl. f_equal. apply set_eq. intros n. rewrite !elem_of_users_in, elem_of_union, elem_of_singleton. naive_solver.
Qed.

Lemma users_in_le X Y c : X ⊆ Y → size (users_in X c) ≤ size Y.
Proof. intros HX. apply subseteq_size. intros m. rewrite elem_of_users_in. naive_solver. Qed.

(** The number of dependencies of a set of nodes. *)
Definition weight (X : gset Node) : nat := sum_list ((λ n, size (uses n)) <$> elements X).

Lemma weight_remove n X : n ∈ X → weight X = size (uses n) + weight (X ∖ {[n]}).
Proof.
  intros Hn. unfold weight. rewrite (union_difference_singleton_L n X Hn) at 1.
  rewrite elements_union_singleton by set_solver. done.
Qed.

Lemma weight_mono X Y : X ⊆ Y → weight X ≤ weight Y.
Proof.
  revert Y. induction X as [|n X Hn IH] using set_ind_L; intros Y HXY; [unfold weight; rewrite elements_empty; simpl; lia|].
  rewrite (weight_remove n ({[n]} ∪ X)), (weight_remove n Y) by set_solver.
  assert (X ⊆ Y ∖ {[n]}) as Hsub by set_solver. apply IH in Hsub.
  replace (({[n]} ∪ X) ∖ {[n]}) with X by set_solver. lia.
Qed.

Context (roots : gmap Node (list Key)) (rebuildRoots : bool) (U : gset Node).
Context (U_roots : dom roots ⊆ U) (U_closed : ∀ n c, n ∈ U → is_Some (uses n !! c) → c ∈ U).
Context (U_small : (N.of_nat (size U) < 2 ^ 64)%N).

(** How many undecided users the walk counts for a node. *)
Definition counts (X : gset Node) (c : Node) : option N :=
  if decide (users_in X c = ∅) then None else Some (N.of_nat (size (users_in X c))).

Record Explored (todo : list Node) w : Prop := mkExplored {
  ex_rebuilt : BuildWalk.rebuilt w = (if rebuildRoots then dom roots else ∅);
  ex_used : ∀ n m, BuildWalk.used w !! n = Some m → m = uses n;
  ex_inU : dom (BuildWalk.used w) ⊆ U;
  ex_todoU : ∀ n, n ∈ todo → n ∈ U;
  ex_users : ∀ c, BuildWalk.users w !! c = counts (dom (BuildWalk.used w)) c;
  ex_needs : BuildWalk.needs w = BuildWalk.root_keys rebuildRoots <$> roots;
  ex_fresh : BuildWalk.valid w = ∅ ∧ BuildWalk.queried w = ∅ ∧ BuildWalk.missing w = ∅;
  ex_roots : ∀ n, n ∈ dom roots → n ∈ dom (BuildWalk.used w) ∨ n ∈ todo;
  ex_below : ∀ n c, n ∈ dom (BuildWalk.used w) → is_Some (uses n !! c) → c ∈ dom (BuildWalk.used w) ∨ c ∈ todo;
  ex_why : ∀ n, n ∈ dom (BuildWalk.used w) ∨ n ∈ todo →
    n ∈ dom roots ∨ users_in (dom (BuildWalk.used w)) n ≠ ∅;
}.

Lemma counts_add X m c :
  m ∉ X → {[m]} ∪ X ⊆ U →
  counts ({[m]} ∪ X) c = match uses m !! c with Some _ => Some (BuildWalk.one_more (counts X c)) | None => counts X c end.
Proof.
  intros Hm HX. pose proof (users_in_add X c m Hm) as Hs. pose proof (users_in_le _ _ c HX) as Hle.
  assert (∀ Y, users_in Y c = ∅ ↔ size (users_in Y c) = 0) as Hz.
  { intros Y. split; [intros ->; apply size_empty|]. intros ?%size_empty_iff. by apply leibniz_equiv. }
  unfold counts. destruct (uses m !! c) as [v|] eqn:E.
  - rewrite decide_True in Hs by (by eexists). rewrite decide_False by (rewrite Hz; lia). f_equal.
    unfold BuildWalk.one_more. case_decide as H0'; simpl.
    + apply Hz in H0'. rewrite Hs, H0', u64_small; [done|reflexivity].
    + rewrite Hs. rewrite u64_small; lia.
  - rewrite decide_False in Hs by (intros [? ?]; congruence). simpl in Hs.
    rewrite Hs. case_decide as H1; case_decide as H2; rewrite Hz in H1, H2; [done|lia|lia|done].
Qed.

Lemma explore_step node todo w :
  Explored (node :: todo) w → BuildWalk.used w !! node = None →
  Explored (rev (map_to_list (uses node)).*1 ++ todo)
    (BuildWalk.mk (BuildWalk.rebuilt w) (<[node := uses node]> (BuildWalk.used w))
       (upd_each (λ _, BuildWalk.one_more) (uses node) (BuildWalk.users w)) (BuildWalk.needs w)
       (upd_each BuildWalk.more_keys (uses node) (BuildWalk.anyNeeds w)) (BuildWalk.level w) (BuildWalk.valid w)
       (BuildWalk.queried w) (BuildWalk.missing w)).
Proof.
  intros [Hreb Hused HinU HtodoU Husers Hneeds Hfresh Hroots Hbelow Hwhy] Hnew.
  assert (node ∈ U) as HnU by (apply HtodoU; set_solver).
  assert (node ∉ dom (BuildWalk.used w)) as Hnd by (by apply not_elem_of_dom).
  assert (∀ c, c ∈ rev (map_to_list (uses node)).*1 ↔ is_Some (uses node !! c)) as Hrev.
  { intros c. rewrite <- Permutation_rev, list_elem_of_fmap. split.
    - intros ([? v] & -> & ?%elem_of_map_to_list). by exists v.
    - intros [v Hv]. exists (c, v). by rewrite elem_of_map_to_list. }
  split; simpl; [done|..|done|done| | |].
  - intros n m. rewrite lookup_insert_Some. naive_solver.
  - rewrite dom_insert_L. set_solver.
  - intros n [Hn%Hrev|Hn]%elem_of_app; [by eapply U_closed|]. apply HtodoU. set_solver.
  - intros c. rewrite upd_each_lookup, dom_insert_L, counts_add by set_solver. by rewrite Husers.
  - intros n Hn. rewrite dom_insert_L. destruct (Hroots n Hn); set_solver.
  - intros n c. rewrite dom_insert_L, elem_of_app, Hrev. intros [->%elem_of_singleton|Hn]%elem_of_union Hc; [by auto|].
    destruct (Hbelow n c Hn Hc); set_solver.
  - intros n. rewrite dom_insert_L, elem_of_app, Hrev. intros Hn.
    destruct (decide (is_Some (uses node !! n))) as [Hs|Hs].
    + right. intros He. apply (not_elem_of_empty (C:=gset Node) node). rewrite <- He, elem_of_users_in. set_solver.
    + destruct (Hwhy n) as [?|Hne]; [set_solver|by left|]. right. intros He. apply Hne.
      apply elem_of_equiv_empty_L. intros m. rewrite elem_of_users_in. intros [Hm Hmn].
      apply (not_elem_of_empty (C:=gset Node) m). rewrite <- He, elem_of_users_in. set_solver.
Qed.

Lemma explore_spec fuel todo w :
  Explored todo w → length todo + weight (U ∖ dom (BuildWalk.used w)) ≤ fuel →
  ∃ w', BuildWalk.explore uses fuel todo w = Some w' ∧ Explored [] w'.
Proof.
  revert todo w. induction fuel as [|fuel IH]; intros [|node todo] w HE Hf; simpl in *; [by exists w|lia|by exists w|].
  case_decide as Hs.
  - apply IH; [|lia]. destruct HE. apply elem_of_dom in Hs. split; [done..| |done|done|done| | |].
    + set_solver.
    + set_solver.
    + set_solver.
    + set_solver.
  - apply IH; [apply explore_step; [done|by apply eq_None_not_Some]|]. simpl. rewrite dom_insert_L, length_app, length_rev, length_fmap.
    assert (node ∈ U ∖ dom (BuildWalk.used w)) as Hin.
    { apply elem_of_difference. split; [apply (ex_todoU _ _ HE); set_solver|by rewrite elem_of_dom]. }
    rewrite (weight_remove node) in Hf by done.
    replace (U ∖ ({[node]} ∪ dom (BuildWalk.used w))) with (U ∖ dom (BuildWalk.used w) ∖ {[node]}) by set_solver.
    rewrite length_map_to_list. lia.
Qed.

(** The constructor: the nodes below the roots, and those among the roots that no
    node uses as the first level. *)
Lemma BuildWalk_spec fuel :
  size roots + weight U ≤ fuel →
  ∃ w, BuildWalk.BuildWalk_ uses fuel roots rebuildRoots = Some w ∧ Explored [] w ∧
    BuildWalk.level w = filter (λ root, BuildWalk.users w !! root = None) (map_to_list roots).*1.
Proof.
  intros Hf. assert (∀ n, n ∈ rev (map_to_list roots).*1 ↔ n ∈ dom roots) as Hrev.
  { intros n. rewrite <- Permutation_rev, list_elem_of_fmap, elem_of_dom. split.
    - intros ([? v] & -> & ?%elem_of_map_to_list). by exists v.
    - intros [v Hv]. exists (n, v). by rewrite elem_of_map_to_list. }
  destruct (explore_spec fuel (rev (map_to_list roots).*1) (BuildWalk.initial roots rebuildRoots))
    as (w & Hw & HE).
  - split; simpl; [done|set_solver|set_solver| | |done|done|set_solver..].
    + intros n Hn%Hrev. set_solver.
    + intros c. rewrite dom_empty_L, lookup_empty. unfold counts. case_decide as Hd; [done|].
      destruct Hd. apply elem_of_equiv_empty_L. intros m. rewrite elem_of_users_in. set_solver.
  - rewrite length_rev, length_fmap, length_map_to_list. simpl. rewrite dom_empty_L, difference_empty_L. done.
  - exists (BuildWalk.with_level (filter (λ root, BuildWalk.users w !! root = None) (map_to_list roots).*1) w).
    split; [|split; [by destruct HE; split|done]]. unfold BuildWalk.BuildWalk_. by rewrite Hw.
Qed.
End Explore.
