(* ===== verification/TopDownBuild.v ===== *)
(** * What has to be built

    [BuildWalk::run] (src/src/top-down.hh) decides every node below the requested
    ones, users first, and finds the one plan that nix would follow. *)

From S2P Require Import Prelude TopDown TopDownWalks.

#[local] Set Warnings "-level-tolerance".

Section Plan.
Context {Node Key : Type} `{Countable Node} `{Countable Key}.
Context (roots : gmap Node (list Key)) (rebuildRoots : bool) (uses : Node → gmap Node (list Key)) (avail : gset Key).

(** A node is needed if it was requested, or if a node that gets built uses it. *)
Definition needed (S : gset Node) (n : Node) : Prop :=
  is_Some (roots !! n) ∨ ∃ m, m ∈ S ∧ is_Some (uses m !! n).

(** The keys that are asked of it. *)
Definition asked (S : gset Node) (n : Node) (k : Key) : Prop :=
  (rebuildRoots = false ∧ ∃ ks, roots !! n = Some ks ∧ k ∈ ks) ∨ ∃ m ks, m ∈ S ∧ uses m !! n = Some ks ∧ k ∈ ks.

(** It is built when it is needed and the store can't provide all of what is asked. *)
Definition must_build (S : gset Node) (n : Node) : Prop :=
  needed S n ∧ ((rebuildRoots = true ∧ is_Some (roots !! n)) ∨ (∀ k, ¬ asked S n k) ∨ ∃ k, asked S n k ∧ k ∉ avail).

Definition plan (S : gset Node) : Prop := ∀ n, n ∈ S ↔ must_build S n.

(** What is asked of a node depends on the decision for its users only. *)
Lemma must_build_local S S' n :
  (∀ m, is_Some (uses m !! n) → m ∈ S ↔ m ∈ S') → must_build S n ↔ must_build S' n.
Proof.
  intros Hm. assert (needed S n ↔ needed S' n) as Hn.
  { unfold needed. split; (intros [?|(m & ? & ?)]; [by left|right; exists m; split; [by apply Hm|done]]). }
  assert (∀ k, asked S n k ↔ asked S' n k) as Ha.
  { intros k. unfold asked.
    split; (intros [?|(m & ks & ? & ? & ?)]; [by left|right; exists m, ks; split_and!; [by apply Hm|done..]]). }
  unfold must_build. rewrite Hn. by setoid_rewrite Ha.
Qed.

Lemma highest (rank : Node → nat) (X : gset Node) :
  X ≠ ∅ → ∃ n, n ∈ X ∧ ∀ m, m ∈ X → rank m ≤ rank n.
Proof.
  intros HX. pose (R := λ m n, rank n < rank m). assert (Transitive R) by (intros a b c; unfold R; lia).
  assert (∀ x y, Decision (R x y)) by (intros; unfold R; apply _).
  destruct (minimal_exists_elem_of_L R X) as (n & Hn & Hmin); [done|].
  exists n. split; [done|]. intros m Hm. specialize (Hmin m Hm). unfold R in Hmin. lia.
Qed.

Lemma plan_unique (rank : Node → nat) S S' :
  (∀ n c, is_Some (uses n !! c) → rank c < rank n) → plan S → plan S' → S = S'.
Proof.
  intros Hrank HS HS'. apply dec_stable. intros Hne. set (X := (S ∖ S') ∪ (S' ∖ S)).
  assert (∀ n, n ∉ X → n ∈ S ↔ n ∈ S') as HX.
  { intros n. unfold X. rewrite elem_of_union, !elem_of_difference. destruct (decide (n ∈ S)), (decide (n ∈ S')); naive_solver. }
  destruct (highest rank X) as (n & Hn & Hmax).
  { intros He. apply Hne, set_eq. intros n. apply HX. rewrite He. apply not_elem_of_empty. }
  assert (n ∈ S ↔ n ∈ S'); [|set_solver]. rewrite (HS n), (HS' n). apply must_build_local. intros m Hm%Hrank.
  apply HX. intros Hin%Hmax. lia.
Qed.
End Plan.

Section Run.
Context {Node Key : Type} `{Countable Node} `{Countable Key}.
Context (roots : gmap Node (list Key)) (rebuildRoots : bool) (uses : Node → gmap Node (list Key)).
Context (query fetch : gset Key → gset Key) (budget : nat) (avail : gset Key).
Context (query_ok : ∀ ks k, k ∈ query ks → k ∈ avail) (fetch_ok : ∀ ks k, k ∈ fetch ks → k ∈ avail).
Context (fetch_all : ∀ ks k, k ∈ ks → k ∈ avail → k ∈ fetch ks).
Context (P : gset Node) (P_roots : dom roots ⊆ P) (P_small : (N.of_nat (size P) < 2 ^ 64)%N).
Context (P_closed : ∀ n c, n ∈ P → is_Some (uses n !! c) → c ∈ P).
Implicit Types w : @BuildWalk.t Node Key _ _ _ _.

Abbreviation must := (must_build roots rebuildRoots uses avail).
Abbreviation need := (needed roots uses).
Abbreviation ask := (asked roots rebuildRoots uses).
Abbreviation pending D n := (users_in uses (P ∖ D) n).

Lemma not_pending D n m : pending D n = ∅ → m ∈ P → m ∉ D → is_Some (uses m !! n) → False.
Proof. intros He Hm HD Hs. apply (not_elem_of_empty (C:=gset Node) m). rewrite <- He, elem_of_users_in. set_solver. Qed.

(** The nodes of [D] are decided, those of [level] are next. *)
Record Deciding (D : gset Node) (level : list Node) w : Prop := mkDeciding {
  de_rebuilt : BuildWalk.rebuilt w = (if rebuildRoots then dom roots else ∅);
  de_used : ∀ n, n ∈ P → BuildWalk.used w !! n = Some (uses n);
  de_D : D ⊆ P;
  de_users : ∀ c, users_in uses P c ≠ ∅ → BuildWalk.users w !! c = Some (N.of_nat (size (pending D c)));
  de_nodup : NoDup level;
  de_level : ∀ n, n ∈ level ↔ n ∈ P ∧ n ∉ D ∧ pending D n = ∅;
  de_before : ∀ n, n ∈ D → pending D n = ∅;
  de_missing : ∀ n, n ∈ BuildWalk.missing w ↔ n ∈ D ∧ must (BuildWalk.missing w) n;
  de_needs : ∀ n, is_Some (BuildWalk.needs w !! n) ↔ need (BuildWalk.missing w) n;
  de_keys : ∀ n k, k ∈ default ∅ (BuildWalk.needs w !! n) ↔ ask (BuildWalk.missing w) n k;
  de_valid : BuildWalk.valid w ⊆ avail;
}.

(** Everything asked of the nodes of [l] that can be fetched is there. *)
Definition fetched (l : list Node) w : Prop :=
  ∀ n ks k, n ∈ l → n ∉ BuildWalk.rebuilt w → BuildWalk.needs w !! n = Some ks → k ∈ ks → k ∈ avail →
  k ∈ BuildWalk.valid w.

Lemma BuildWalk_isHeld_spec D level w n ks Φ :
  Deciding D level w → fetched [n] w → BuildWalk.needs w !! n = Some ks →
  (∀ b, negb b = true ↔ must (BuildWalk.missing w) n → Φ b w) → wp (BuildWalk.isHeld n) Φ w.
Proof.
  intros HD Hf Hn HΦ. unfold BuildWalk.isHeld. wp_steps. apply HΦ.
  pose proof (de_keys _ _ _ HD n) as Hk. rewrite Hn in Hk. simpl in Hk. unfold must_build.
  rewrite <- (de_needs _ _ _ HD). setoid_rewrite <- Hk.
  assert (n ∈ BuildWalk.rebuilt w ↔ rebuildRoots = true ∧ is_Some (roots !! n)) as Hreb.
  { rewrite (de_rebuilt _ _ _ HD), <- elem_of_dom. destruct rebuildRoots; set_solver. }
  rewrite <- Hreb. rewrite negb_true_iff, !andb_false_iff, !negb_false_iff, !bool_decide_eq_true, bool_decide_eq_false.
  split.
  - intros [[Hr| ->]|Hv]; (split; [by eexists|]); [by left|by right; left; set_solver|].
    destruct (decide (n ∈ BuildWalk.rebuilt w)) as [|Hnr]; [by left|]. right; right.
    destruct (decide (ks ∖ avail = ∅)) as [He|[k Hk']%set_choose_L]; [|exists k; set_solver].
    destruct Hv. intros k Hin. apply (Hf n ks k); set_solver.
  - intros [_ [?|[?|(k & ? & ?)]]]; [by left; left|left; right; set_solver|right].
    pose proof (de_valid _ _ _ HD). set_solver.
Qed.

Lemma pending_decided D x c :
  x ∈ P → x ∉ D →
  size (pending D c) = (if decide (is_Some (uses x !! c)) then 1 else 0) + size (pending ({[x]} ∪ D) c).
Proof.
  intros Hx HD. rewrite <- users_in_add by set_solver. do 2 f_equal. apply set_eq. intros n.
  rewrite elem_of_union, !elem_of_difference, elem_of_union, elem_of_singleton.
  destruct (decide (n = x)) as [->|]; naive_solver.
Qed.

Lemma pending_small D c : (N.of_nat (size (pending D c)) < 2 ^ 64)%N.
Proof. assert (P ∖ D ⊆ P) as Hle by set_solver. pose proof (users_in_le uses _ _ c Hle). lia. Qed.

Lemma pending_empty D c : pending D c = ∅ ↔ size (pending D c) = 0.
Proof. split; [intros ->; apply size_empty|]. intros ?%size_empty_iff. by apply leibniz_equiv. Qed.

Lemma map_keys_elem (m : gmap Node (list Key)) c : c ∈ (map_to_list m).*1 ↔ is_Some (m !! c).
Proof.
  rewrite list_elem_of_fmap. split.
  - intros ([? v] & -> & ?%elem_of_map_to_list). by exists v.
  - intros [v Hv]. exists (c, v). by rewrite elem_of_map_to_list.
Qed.

(** The counts while the users of [x] are counted down: [cs] is still to do. *)
Record Counting (D : gset Node) (x : Node) (next cs next' : list Node) (us : gmap Node N) : Prop := mkCounting {
  co_nodup : NoDup cs;
  co_cs : ∀ c, c ∈ cs → is_Some (uses x !! c);
  co_us : ∀ c, users_in uses P c ≠ ∅ →
    us !! c = Some (N.of_nat (size (pending (if decide (c ∈ cs) then D else {[x]} ∪ D) c)));
  co_nodup' : NoDup next';
  co_next' : ∀ n, n ∈ next' ↔ n ∈ next ∨ is_Some (uses x !! n) ∧ n ∉ cs ∧ pending ({[x]} ∪ D) n = ∅;
}.

Section Count.
Context (D : gset Node) (x : Node) (Hx : x ∈ P) (HD : x ∉ D).
Context (next : list Node) (Hnd : NoDup next) (Hnext : ∀ n, n ∈ next → ¬ is_Some (uses x !! n)).

Lemma Counting_start us :
  (∀ c, users_in uses P c ≠ ∅ → us !! c = Some (N.of_nat (size (pending D c)))) →
  Counting D x next (map_to_list (uses x)).*1 next us.
Proof.
  intros Hus. split; [apply NoDup_fst_map_to_list|by intros c ?%map_keys_elem| |done|].
  - intros c Hc. rewrite (Hus c Hc). case_decide as Hin; [done|]. rewrite map_keys_elem in Hin.
    pose proof (pending_decided D x c Hx HD) as Hp. rewrite decide_False in Hp by done. by rewrite Hp.
  - intros n. rewrite map_keys_elem. naive_solver.
Qed.

Lemma one_user_less_spec c cs next' us w :
  Counting D x next (c :: cs) next' us → BuildWalk.users w = us →
  wp (BuildWalk.one_user_less next' c)
    (λ next'' w', ∃ us', w' = BuildWalk.with_users us' w ∧ Counting D x next cs next'' us') w.
Proof.
  intros [[Hnc Hcs]%NoDup_cons Hin Husc Hnd' Hn'] Ew. unfold BuildWalk.one_user_less.
  assert (is_Some (uses x !! c)) as Hc by (apply Hin; set_solver).
  assert (users_in uses P c ≠ ∅) as Hne.
  { intros He. apply (not_elem_of_empty (C:=gset Node) x). rewrite <- He. by apply elem_of_users_in. }
  pose proof (Husc c Hne) as Hval. rewrite decide_True in Hval by set_solver.
  pose proof (pending_decided D x c Hx HD) as Hp. rewrite decide_True in Hp by done.
  pose proof (pending_small D c). rewrite Hp in Hval. wp_steps.
  eapply wp_expect; [by rewrite Ew|]. wp_steps. rewrite sub64_small by lia.
  replace (N.of_nat (1 + size (pending ({[x]} ∪ D) c)) - 1)%N
    with (N.of_nat (size (pending ({[x]} ∪ D) c))) by lia.
  eexists. split; [done|]. split; [done|set_solver|..].
  - intros d Hd. rewrite Ew. destruct (decide (d = c)) as [->|Hdc].
    + rewrite lookup_insert_eq, decide_False; done.
    + rewrite lookup_insert_ne, (Husc d Hd) by done.
      destruct (decide (d ∈ cs)); [by rewrite decide_True by set_solver|by rewrite decide_False by set_solver].
  - assert (c ∉ next') as Hcn by (rewrite Hn'; set_solver).
    destruct (_ =? 0)%N; [apply NoDup_app; split_and!; [done|set_solver|apply NoDup_singleton]|done].
  - assert (pending ({[x]} ∪ D) c = ∅ ↔ (N.of_nat (size (pending ({[x]} ∪ D) c)) =? 0)%N = true) as Hz
      by (rewrite pending_empty, N.eqb_eq; lia).
    intros n. destruct (_ =? 0)%N; rewrite ?elem_of_app, ?list_elem_of_singleton, Hn', ?not_elem_of_cons;
      destruct (decide (n = c)) as [->|]; naive_solver.
Qed.

Lemma users_less_spec w :
  (∀ c, users_in uses P c ≠ ∅ → BuildWalk.users w !! c = Some (N.of_nat (size (pending D c)))) →
  wp (foldM BuildWalk.one_user_less next (map_to_list (uses x)).*1)
    (λ next' w', ∃ us, w' = BuildWalk.with_users us w ∧ Counting D x next [] next' us) w.
Proof.
  intros Hus. apply (wp_foldM _ (λ cs next' w', ∃ us, w' = BuildWalk.with_users us w ∧ Counting D x next cs next' us)).
  - exists (BuildWalk.users w). split; [by destruct w|by apply Counting_start].
  - intros c cs next' w' (us & -> & HC). eapply wp_mono; [by eapply one_user_less_spec|].
    intros next'' w'' (us' & -> & HC'). by exists us'.
Qed.
End Count.

(** What is recorded of a node that is built. *)
Definition record_node (x : Node) (b : bool) w : BuildWalk.t :=
  if b then BuildWalk.with_needs (upd_each BuildWalk.more_keys (uses x) (BuildWalk.needs w))
              (BuildWalk.with_missing ({[x]} ∪ BuildWalk.missing w) w)
  else w.

Lemma needed_add S x n : need ({[x]} ∪ S) n ↔ need S n ∨ is_Some (uses x !! n).
Proof.
  unfold needed. split.
  - intros [?|(m & [->%elem_of_singleton|?]%elem_of_union & ?)]; [by auto|by auto|]. left; right. by exists m.
  - intros [[?|(m & ? & ?)]|?]; [by left|right; exists m|right; exists x]; (split; [set_solver|done]).
Qed.

Lemma asked_add S x n k : ask ({[x]} ∪ S) n k ↔ ask S n k ∨ ∃ ks, uses x !! n = Some ks ∧ k ∈ ks.
Proof.
  unfold asked. split.
  - intros [?|(m & ks & [->%elem_of_singleton|?]%elem_of_union & ? & ?)]; [by auto|right; by exists ks|].
    left; right. by exists m, ks.
  - intros [[?|(m & ks & ? & ? & ?)]|(ks & ? & ?)]; [by left|right; exists m, ks|right; exists x, ks];
      (split_and!; [set_solver|done|done]).
Qed.

Lemma record_needs D level x b w :
  Deciding D level w →
  (∀ n, is_Some (BuildWalk.needs (record_node x b w) !! n) ↔ need (BuildWalk.missing (record_node x b w)) n) ∧
  (∀ n k, k ∈ default ∅ (BuildWalk.needs (record_node x b w) !! n) ↔ ask (BuildWalk.missing (record_node x b w)) n k).
Proof.
  intros HD. pose proof (de_needs _ _ _ HD) as Hn. pose proof (de_keys _ _ _ HD) as Hk.
  destruct b; [simpl|done]. split; intros n; [rewrite needed_add|intros k; rewrite asked_add];
    rewrite upd_each_lookup.
  - rewrite <- Hn. destruct (uses x !! n); naive_solver.
  - rewrite <- Hk. destruct (uses x !! n) as [ks|].
    + simpl. unfold BuildWalk.more_keys. rewrite elem_of_union, elem_of_list_to_set. naive_solver.
    + naive_solver.
Qed.

Lemma record_missing D level x b w :
  Deciding D level w → x ∈ level → (b = true ↔ must (BuildWalk.missing w) x) →
  ∀ n, n ∈ BuildWalk.missing (record_node x b w) ↔ n ∈ {[x]} ∪ D ∧ must (BuildWalk.missing (record_node x b w)) n.
Proof.
  intros HD Hx Hb n. apply (de_level _ _ _ HD) in Hx as (HxP & HxD & Hxp).
  assert (n ∈ {[x]} ∪ D → must (BuildWalk.missing (record_node x b w)) n ↔ must (BuildWalk.missing w) n) as Hm.
  { intros Hn. destruct b; [|done]. apply must_build_local. intros m Hmn. simpl.
    assert (m ≠ x) as Hne; [|set_solver]. intros ->.
    apply elem_of_union in Hn as [->%elem_of_singleton|Hn]; [by eapply not_pending|].
    eapply not_pending; [by apply (de_before _ _ _ HD)|..]; done. }
  assert (n ∈ BuildWalk.missing (record_node x b w) ↔ n ∈ BuildWalk.missing w ∨ n = x ∧ b = true) as ->
    by (destruct b; simpl; set_solver).
  rewrite (de_missing _ _ _ HD n). rewrite elem_of_union, elem_of_singleton in Hm |- *. split.
  - intros [[HnD Hmu]|[-> Hb'%Hb]]; (split; [by auto|]); by apply Hm; [auto|].
  - intros [[->|HnD] Hmu%Hm]; [right; split; [done|by apply Hb]|by auto|by left|by auto].
Qed.

Lemma level_decided D x rest next next' us w :
  Deciding D (x :: rest ++ next) w → Counting D x next [] next' us →
  NoDup (rest ++ next') ∧
  (∀ n, n ∈ rest ++ next' ↔ n ∈ P ∧ n ∉ {[x]} ∪ D ∧ pending ({[x]} ∪ D) n = ∅) ∧
  (∀ n, n ∈ {[x]} ∪ D → pending ({[x]} ∪ D) n = ∅).
Proof.
  intros HD HC. pose proof (de_level _ _ _ HD) as Hl. pose proof (de_nodup _ _ _ HD) as [Hxl Hnd]%NoDup_cons.
  destruct (proj1 (Hl x)) as (HxP & HxD & Hxp); [set_solver|].
  assert (∀ n, is_Some (uses x !! n) → n ∉ x :: rest ++ next) as Hchild.
  { intros n Hs (_ & _ & Hp)%Hl. by eapply not_pending. }
  assert (∀ n, pending D n = ∅ → pending ({[x]} ∪ D) n = ∅) as Hmono.
  { intros n. rewrite !pending_empty. rewrite (pending_decided D x n HxP HxD). lia. }
  split; [|split].
  - apply NoDup_app. apply NoDup_app in Hnd as (? & Hdis & ?). split_and!; [done| |by destruct HC].
    intros n Hn [Hin|(Hs & _)]%(co_next' _ _ _ _ _ _ HC); [by eapply Hdis|]. apply (Hchild n Hs). set_solver.
  - intros n. rewrite elem_of_app, (co_next' _ _ _ _ _ _ HC).
    assert (n ∈ rest ∨ n ∈ next ↔ n ≠ x ∧ n ∈ P ∧ n ∉ D ∧ pending D n = ∅) as Hrest.
    { rewrite <- (Hl n). set_solver. }
    split.
    + intros Hn. destruct (decide (n ∈ rest ∨ n ∈ next)) as [Hin|Hnin].
      * apply Hrest in Hin as (? & ? & ? & ?). split_and!; [done|set_solver|by apply Hmono].
      * destruct Hn as [?|[?|(Hs & _ & Hp)]]; [naive_solver..|]. split_and!; [by eapply P_closed| |done].
        intros [->%elem_of_singleton|Hin]%elem_of_union; [exact (not_pending D x x Hxp HxP HxD Hs)|].
        exact (not_pending D n x (de_before _ _ _ HD n Hin) HxP HxD Hs).
    + intros (HP' & Hn & Hp). destruct (decide (is_Some (uses x !! n))) as [|Hns]; [set_solver|].
      destruct (proj2 Hrest) as [?|?]; [|by left|by right; left].
      split_and!; [set_solver|done|set_solver|]. apply pending_empty. rewrite (pending_decided D x n HxP HxD), decide_False by done.
      apply pending_empty in Hp. lia.
  - intros n [->%elem_of_singleton|Hn]%elem_of_union; apply Hmono; [done|by apply (de_before _ _ _ HD)].
Qed.

Lemma Deciding_step D x rest next next' us b w :
  Deciding D (x :: rest ++ next) w → Counting D x next [] next' us → (b = true ↔ must (BuildWalk.missing w) x) →
  Deciding ({[x]} ∪ D) (rest ++ next') (BuildWalk.with_users us (record_node x b w)).
Proof.
  intros HD HC Hb. destruct (level_decided _ _ _ _ _ _ _ HD HC) as (Hnd & Hl & Hbef).
  assert (x ∈ x :: rest ++ next) as Hx by set_solver. destruct (proj1 (de_level _ _ _ HD x) Hx) as (HxP & _).
  destruct (record_needs _ _ x b w HD) as [Hn Hk]. pose proof (record_missing _ _ x b w HD Hx Hb) as Hm.
  destruct HD. split; simpl; [by destruct b|by destruct b| | |done|done|done|done|done|done|by destruct b].
  - set_solver.
  - intros c Hc. rewrite (co_us _ _ _ _ _ _ HC c Hc). by rewrite decide_False by apply not_elem_of_nil.
Qed.

Lemma fetched_record x b rest w :
  fetched rest w → (∀ n, n ∈ rest → ¬ is_Some (uses x !! n)) → fetched rest (record_node x b w).
Proof.
  intros Hf Hn. destruct b; [|done]. intros n ks k Hin Hr Hks Hk Ha. simpl in *. apply (Hf n ks k); [done|done| |done|done].
  rewrite upd_each_lookup in Hks. destruct (uses x !! n) as [v|] eqn:E; [|done]. destruct (Hn n Hin). by eexists.
Qed.

(** One node of a level is decided. *)
Lemma decide_node_spec D x rest next w :
  Deciding D (x :: rest ++ next) w → fetched (x :: rest) w →
  wp (BuildWalk.decide_node next x)
    (λ next' w', Deciding ({[x]} ∪ D) (rest ++ next') w' ∧ fetched rest w' ∧ BuildWalk.level w' = BuildWalk.level w) w.
Proof.
  intros HD Hf. destruct (proj1 (de_level _ _ _ HD x)) as (HxP & HxD & Hxp); [set_solver|].
  assert (∀ n, is_Some (uses x !! n) → n ∉ x :: rest ++ next) as Hchild.
  { intros n Hs (_ & _ & Hp)%(de_level _ _ _ HD). by eapply not_pending. }
  unfold BuildWalk.decide_node. wp_steps.
  eapply (wp_mono _ (λ b w', w' = w ∧ (b = true ↔ must (BuildWalk.missing w) x))).
  { case_decide as Hs.
    - destruct Hs as [ks Hks]. wp_steps. eapply (BuildWalk_isHeld_spec _ _ _ _ _ _ HD); [|done|].
      + intros n ks' k ->%list_elem_of_singleton. apply Hf. set_solver.
      + intros b Hb. wp_steps. done.
    - wp_steps. split; [done|]. split; [done|]. intros [Hnd _]. by apply (de_needs _ _ _ HD) in Hnd. }
  intros b ? [-> Hb]. wp_steps. eapply wp_expect; [by apply (de_used _ _ _ HD)|].
  apply wp_bind. eapply (wp_mono _ (λ _ w', w' = record_node x b w)); [by destruct b; wp_steps|].
  intros ? ? ->. eapply wp_mono.
  - apply (users_less_spec D x HxP HxD next); [| |by intros c Hc; destruct b; apply (de_users _ _ _ HD)].
    + pose proof (de_nodup _ _ _ HD) as [_ (_ & _ & ?)%NoDup_app]%NoDup_cons. done.
    + intros n Hn Hs. apply (Hchild n Hs). set_solver.
  - intros next' ? (us & -> & HC). split; [by eapply Deciding_step|]. split; [|by destruct b].
    assert (fetched rest (record_node x b w)) as Hfr; [|exact Hfr]. apply fetched_record.
    + intros n ks k Hn. apply Hf. set_solver.
    + intros n Hn Hs. apply (Hchild n Hs). set_solver.
Qed.

(** A whole level is decided: each node of it moves to the decided ones. *)
Lemma decide_level_spec D w :
  Deciding D (BuildWalk.level w) w → fetched (BuildWalk.level w) w →
  wp BuildWalk.decide_level
    (λ next w', ∃ D', Deciding D' next w' ∧ size (P ∖ D') + length (BuildWalk.level w) = size (P ∖ D)) w.
Proof.
  intros HD Hf. unfold BuildWalk.decide_level. wp_steps. eapply wp_mono.
  - apply (wp_foldM _ (λ rest next w', ∃ D', Deciding D' (rest ++ next) w' ∧ fetched rest w' ∧
      size (P ∖ D') + length (BuildWalk.level w) = size (P ∖ D) + length rest)).
    + exists D. rewrite app_nil_r. split_and!; [done|done|lia].
    + intros x rest next w' (D' & HD' & Hf' & Hsz). eapply wp_mono; [by apply decide_node_spec|].
      intros next' w'' (HD'' & Hf'' & _). exists ({[x]} ∪ D'). split_and!; [done|done|].
      destruct (proj1 (de_level _ _ _ HD' x)) as (HxP & HxD & _); [set_solver|].
      assert (size (P ∖ D') = S (size (P ∖ ({[x]} ∪ D')))) as Hs; [|simpl in Hsz; lia].
      replace (P ∖ D') with ({[x]} ∪ P ∖ ({[x]} ∪ D')); [rewrite size_union, size_singleton; set_solver|].
      apply set_eq. intros n. rewrite elem_of_union, !elem_of_difference, elem_of_union, elem_of_singleton.
      destruct (decide (n = x)) as [->|]; tauto.
  - intros next w' (D' & HD' & _ & Hsz). exists D'. split; [done|simpl in Hsz; lia].
Qed.

(** Queries only add keys that are available. *)
Lemma queryAhead_spec D level w (needed : list Node) (Φ : () → BuildWalk.t → Prop) :
  Deciding D level w → (∀ n, n ∈ needed → n ∈ P) →
  (∀ w', Deciding D level w' → BuildWalk.level w' = BuildWalk.level w → BuildWalk.needs w' = BuildWalk.needs w → Φ tt w') →
  wp (BuildWalk.queryAhead query budget needed) Φ w.
Proof.
  intros HD Hn HΦ. unfold BuildWalk.queryAhead. wp_steps.
  destruct (nextBatch_spec (BuildWalk.children_of w) P needed (BuildWalk.queried w) budget) as (b & q & Hb & _).
  { intros n m Hin. unfold BuildWalk.children_of. rewrite (de_used _ _ _ HD n Hin), map_keys_elem. by apply P_closed. }
  { done. }
  eapply wp_expect; [exact Hb|]. cbv iota beta. wp_steps.
  assert (∀ v, v ⊆ avail → Deciding D level (BuildWalk.with_valid v (BuildWalk.with_queried q w))) as HD'.
  { intros v Hv. destruct HD. by split. }
  case_decide; wp_steps; (apply HΦ; [|done|done]).
  - by apply (HD' (BuildWalk.valid w)), (de_valid _ _ _ HD).
  - apply HD'. intros k [Hk|Hk]%elem_of_union; [by apply (de_valid _ _ _ HD)|by eapply query_ok].
Qed.

Lemma fetchLacking_spec D level w (needed : list Node) (Φ : () → BuildWalk.t → Prop) :
  Deciding D level w → (∀ n, n ∈ needed → is_Some (BuildWalk.needs w !! n)) →
  (∀ w', Deciding D level w' → fetched needed w' → BuildWalk.level w' = BuildWalk.level w →
     BuildWalk.needs w' = BuildWalk.needs w → Φ tt w') →
  wp (BuildWalk.fetchLacking fetch needed) Φ w.
Proof.
  intros HD Hn HΦ. unfold BuildWalk.fetchLacking. wp_steps. eapply wp_mono.
  - apply (wp_foldM _ (λ rest acc w', w' = w ∧ (∀ n, n ∈ rest → n ∈ needed) ∧
      ∀ n ks k, n ∈ needed → n ∈ rest ∨ n ∈ BuildWalk.rebuilt w ∨ (BuildWalk.needs w !! n = Some ks → k ∈ ks →
        k ∈ BuildWalk.valid w ∨ k ∈ acc))); [by split_and!; auto|].
    intros n rest acc ? (-> & Hsub & Hacc). wp_steps. case_decide as Hr; wp_steps.
    + split_and!; [done|set_solver|]. intros m ks k Hm.
      destruct (Hacc m ks k Hm) as [[->|?]%elem_of_cons|[?|?]]; [by auto..|by auto].
    + destruct (Hn n) as [ks Hks]; [set_solver|]. eapply wp_expect; [exact Hks|]. wp_steps.
      split_and!; [done|set_solver|]. intros m ks' k Hm.
      destruct (Hacc m ks' k Hm) as [[->|?]%elem_of_cons|[?|Hv]]; [|by auto|by auto|].
      * right; right. intros ? Hk. simplify_eq. destruct (decide (k ∈ BuildWalk.valid w)); [by left|right; set_solver].
      * right; right. intros H1 H2. destruct (Hv H1 H2); [by left|right; set_solver].
  - intros acc ? (-> & _ & Hacc).
    assert (∀ v, v ⊆ avail → Deciding D level (BuildWalk.with_valid v w)) as HD' by (intros v Hv; destruct HD; by split).
    case_decide as He; wp_steps; (apply HΦ; [| |done|done]).
    + done.
    + intros n ks k Hin Hr Hks Hk Ha. destruct (Hacc n ks k Hin) as [?%elem_of_nil|[?|Hv]]; [done|done|].
      destruct (Hv Hks Hk); set_solver.
    + apply HD'. intros k [Hk|Hk]%elem_of_union; [by apply (de_valid _ _ _ HD)|by eapply fetch_ok].
    + intros n ks k Hin Hr Hks Hk Ha. simpl in *. destruct (Hacc n ks k Hin) as [?%elem_of_nil|[?|Hv]]; [done|done|].
      apply elem_of_union. destruct (Hv Hks Hk); [by left|right; by apply fetch_all].
Qed.

Lemma run_level_spec D w :
  Deciding D (BuildWalk.level w) w →
  wp (BuildWalk.run_level query fetch budget)
    (λ _ w', ∃ D', Deciding D' (BuildWalk.level w') w' ∧
       size (P ∖ D') + length (BuildWalk.level w) = size (P ∖ D)) w.
Proof.
  intros HD. unfold BuildWalk.run_level. wp_steps.
  apply (queryAhead_spec D (BuildWalk.level w)); [done|..].
  { intros n [_ Hn]%list_elem_of_filter. by apply (de_level _ _ _ HD) in Hn as (? & _). }
  intros w1 HD1 El1 En1. wp_steps. apply (fetchLacking_spec D (BuildWalk.level w)); [done|..].
  { intros n [Hs _]%list_elem_of_filter. by rewrite En1. }
  intros w2 HD2 Hf El2 En2. wp_steps.
  assert (BuildWalk.level w2 = BuildWalk.level w) as El by congruence. rewrite <- El in HD2. eapply wp_mono.
  - apply (decide_level_spec D w2 HD2). intros n ks k Hn Hr Hks Hk Ha. apply (Hf n ks k); [|done..].
    apply list_elem_of_filter. rewrite <- El, <- En1, <- En2. split; [by eexists|done].
  - intros next w3 (D' & HD' & Hsz). wp_steps. exists D'. split; [by destruct HD'; split|]. simpl. by rewrite <- El.
Qed.

Context (rank : Node → nat) (ranked : ∀ n c, is_Some (uses n !! c) → rank c < rank n).

(** The walk ends with every node decided, since some node without undecided users
    is left otherwise. *)
Lemma all_decided D w : Deciding D [] w → plan roots rebuildRoots uses avail (BuildWalk.missing w).
Proof.
  intros HD. assert (P ∖ D = ∅) as He.
  { apply dec_stable. intros (n & [HP HnD]%elem_of_difference & Hmax)%(highest rank).
    assert (n ∈ []) as ?%elem_of_nil; [|done]. apply (de_level _ _ _ HD). split_and!; [done..|].
    apply elem_of_equiv_empty_L. intros m [Hm Hs%ranked]%elem_of_users_in. specialize (Hmax m Hm). lia. }
  intros n. rewrite (de_missing _ _ _ HD n) at 1. split; [by intros [_ ?]|]. intros Hm. split; [|done].
  assert (n ∈ P); [|set_solver]. destruct Hm as [[Hr|(m & Hm & Hs)] _]; [by apply P_roots, elem_of_dom|].
  apply (de_missing _ _ _ HD) in Hm as [HmD _]. eapply P_closed; [by apply (de_D _ _ _ HD)|done].
Qed.

Lemma BuildWalk_run_spec fuel D w :
  Deciding D (BuildWalk.level w) w → size (P ∖ D) ≤ fuel →
  wp (BuildWalk.run query fetch budget fuel) (λ S w', plan roots rebuildRoots uses avail S) w.
Proof.
  revert D w. induction fuel as [|fuel IH]; intros D w HD Hf; cbn [BuildWalk.run]; apply wp_bind, wp_get;
    (destruct (BuildWalk.level w) as [|x l] eqn:El; [by apply wp_ret, (all_decided D)|]).
  - destruct (proj1 (de_level _ _ _ HD x)) as (HxP & HxD & _); [by left|].
    assert (P ∖ D = ∅) as He by (apply leibniz_equiv, size_empty_iff; lia). set_solver.
  - apply wp_bind. rewrite <- El in HD. eapply wp_mono; [by apply (run_level_spec D)|].
    intros ? w' (D' & HD' & Hsz). apply (IH D'); [done|]. rewrite El in Hsz. simpl in Hsz. lia.
Qed.
End Run.

(** Only what the nodes of a plan use matters. *)
Lemma plan_ext {Node Key} `{Countable Node} `{Countable Key} (roots : gmap Node (list Key)) rebuildRoots
    (uses uses' : Node → gmap Node (list Key)) (avail : gset Key) S :
  (∀ m, m ∈ S → uses m = uses' m) → plan roots rebuildRoots uses avail S → plan roots rebuildRoots uses' avail S.
Proof.
  intros Hu HS n. rewrite (HS n). assert (needed roots uses S n ↔ needed roots uses' S n) as Hn.
  { unfold needed. split; (intros [?|(m & Hm & ?)]; [by left|right; exists m; split; [done|]]); [rewrite <- (Hu m Hm)|rewrite (Hu m Hm)]; done. }
  assert (∀ k, asked roots rebuildRoots uses S n k ↔ asked roots rebuildRoots uses' S n k) as Ha.
  { intros k. unfold asked. split; (intros [?|(m & ks & Hm & ? & ?)]; [by left|right; exists m, ks; split_and!; [done| |done]]);
      [rewrite <- (Hu m Hm)|rewrite (Hu m Hm)]; done. }
  unfold must_build. rewrite Hn. by setoid_rewrite Ha.
Qed.

(** ** [missingForBuild] *)

Section Missing.
Context {Node Key : Type} `{Countable Node} `{Countable Key}.
Context (roots : gmap Node (list Key)) (rebuildRoots : bool) (uses : Node → gmap Node (list Key)) (avail : gset Key).

Lemma Explored_Deciding U w :
  Explored uses roots rebuildRoots U [] w →
  BuildWalk.level w = filter (λ root, BuildWalk.users w !! root = None) (map_to_list roots).*1 →
  Deciding roots rebuildRoots uses avail (dom (BuildWalk.used w)) ∅ (BuildWalk.level w) w.
Proof.
  intros [Hreb Hused HinU _ Husers Hneeds (Hv & _ & Hmi) Hroots Hbelow Hwhy] Hlev.
  assert (∀ n, n ∈ dom roots → n ∈ dom (BuildWalk.used w)) as Hr by (intros n Hn; destruct (Hroots n Hn); set_solver).
  split; rewrite ?Hv, ?Hmi, ?difference_empty_L; [done|..].
  - intros n [m Hm]%elem_of_dom. by rewrite Hm, (Hused n m Hm).
  - set_solver.
  - intros c Hc. rewrite Husers. unfold counts. by rewrite decide_False.
  - rewrite Hlev. apply NoDup_filter, NoDup_fst_map_to_list.
  - intros n. rewrite Hlev, list_elem_of_filter, map_keys_elem, Husers. unfold counts.
    rewrite <- elem_of_dom. split.
    + intros [Hc Hn]. case_decide; [|done]. split_and!; [auto|set_solver|done].
    + intros (Hn & _ & He). rewrite decide_True by done. split; [done|]. destruct (Hwhy n); auto. done.
  - set_solver.
  - set_solver.
  - intros n. rewrite Hneeds, lookup_fmap, fmap_is_Some. unfold needed. set_solver.
  - intros n k. rewrite Hneeds, lookup_fmap. unfold asked, BuildWalk.root_keys.
    destruct (roots !! n) as [ks|]; simpl; [destruct rebuildRoots|]; set_solver.
  - set_solver.
Qed.

Lemma missingForBuild_spec (query fetch : gset Key → gset Key) budget (U : gset Node) (rank : Node → nat) fuel :
  (∀ ks k, k ∈ query ks → k ∈ avail) →
  (∀ ks k, k ∈ fetch ks ↔ k ∈ ks ∧ k ∈ avail) →
  dom roots ⊆ U → (∀ n c, n ∈ U → is_Some (uses n !! c) → c ∈ U) →
  (∀ n c, is_Some (uses n !! c) → rank c < rank n) →
  (N.of_nat (size U) < 2 ^ 64)%N → size roots + weight uses U + size U ≤ fuel →
  ∃ S, missingForBuild fuel roots rebuildRoots uses query fetch budget = Some S ∧
    plan roots rebuildRoots uses avail S ∧ ∀ S', plan roots rebuildRoots uses avail S' → S' = S.
Proof.
  intros Hq Hf HUr HUc Hrank Hsmall Hfuel.
  destruct (BuildWalk_spec uses roots rebuildRoots U HUr HUc Hsmall fuel) as (w & Ew & HE & Hlev); [lia|].
  unfold missingForBuild. rewrite Ew. cbn [mbind option_bind].
  pose proof (subseteq_size _ _ (ex_inU _ _ _ _ _ _ HE)) as Hle.
  destruct (BuildWalk_run_spec roots rebuildRoots uses query fetch budget avail Hq) with
    (P := dom (BuildWalk.used w)) (rank := rank) (fuel := fuel) (D := ∅ : gset Node) (w := w) as (S & w' & HR & HS).
  - intros ks k [_ ?]%Hf. done.
  - intros ks k ? ?. by apply Hf.
  - intros n Hn. destruct (ex_roots _ _ _ _ _ _ HE n Hn); set_solver.
  - lia.
  - intros n c Hn Hc. destruct (ex_below _ _ _ _ _ _ HE n c Hn Hc); set_solver.
  - done.
  - by eapply Explored_Deciding.
  - rewrite difference_empty_L. lia.
  - rewrite HR. exists S. split_and!; [done|done|]. intros S' HS'. by eapply plan_unique.
Qed.

(** C32. [missingForBuild] always answers on a finite acyclic graph, and its answer is
    the plan nix would follow: a node is built exactly when it was requested or a
    built node uses it, and the store can neither show nor substitute everything
    that is asked of it (or the roots are rebuilt, or nothing is asked).  No other set
    of nodes is such a plan.  The queries ahead of need have no influence. *)
Theorem missingForBuild_plan (query fetch : gset Key → gset Key) budget (U : gset Node) (rank : Node → nat) fuel :
  (∀ ks k, k ∈ query ks → k ∈ avail) →
  (∀ ks k, k ∈ fetch ks ↔ k ∈ ks ∧ k ∈ avail) →
  dom roots ⊆ U → (∀ n c, n ∈ U → is_Some (uses n !! c) → c ∈ U) →
  (∀ n c, is_Some (uses n !! c) → rank c < rank n) →
  (N.of_nat (size U) < 2 ^ 64)%N → size roots + weight uses U + size U ≤ fuel →
  ∃ S, missingForBuild fuel roots rebuildRoots uses query fetch budget = Some S ∧
    plan roots rebuildRoots uses avail S ∧ ∀ S', plan roots rebuildRoots uses avail S' → S' = S.
Proof. apply missingForBuild_spec. Qed.
End Missing.
