(* ===== verification/TopDownDemo.v ===== *)
(** * Walks over small graphs

    The theorems of TopDownWalks.v and TopDownBuild.v at concrete graphs. *)

From S2P Require Import Prelude TopDown TopDownWalks TopDownBuild.

(** A chain 0 -> 1 -> 2 -> 3 of nodes that are their own keys; the store holds 2 and 3. *)
Definition chain_children (n : nat) : list nat := if decide (n < 3) then [S n] else [].
Definition chain_held : gset nat := {[2; 3]}.
Definition chain_nodes : gset nat := {[0; 1; 2; 3]}.

Lemma chain_closed : closed_under chain_children chain_nodes.
Proof.
  intros n m Hn. unfold chain_children. case_decide; [|by intros ?%elem_of_nil].
  intros ->%list_elem_of_singleton. unfold chain_nodes in *. set_solver by lia.
Qed.

Lemma missingTopDown_witness :
  missingTopDown 5 [0] (λ n, [n]) chain_children (λ ks, ks ∩ chain_held) topDownBudget = Some {[0; 1]} ∧
  ∃ S, missingTopDown 5 [0] (λ n, [n]) chain_children (λ ks, ks ∩ chain_held) topDownBudget = Some S ∧
    ∀ n, n ∈ S ↔ below chain_children [0] n ∧ lacks (λ n, [n]) chain_held n.
Proof.
  split; [by vm_compute|].
  apply (missingTopDown_closure (λ n, [n]) chain_children (λ ks, ks ∩ chain_held) topDownBudget chain_held
    (λ ks k, elem_of_intersection ks chain_held k) [0] chain_nodes chain_closed).
  - intros n ->%list_elem_of_singleton. unfold chain_nodes. set_solver.
  - by vm_compute; lia.
  - unfold lacks, chain_children, chain_held. intros m c Hm Hc Hl. case_decide; [|by apply elem_of_nil in Hc].
    apply list_elem_of_singleton in Hc as ->. apply Hm. right. rewrite Forall_singleton.
    destruct Hl as [Hl|Hl]; [done|]. rewrite Forall_singleton in Hl. set_solver by lia.
Defined.

(** Node 0 was requested and uses 1 and 2, 1 uses 3 and 2 uses 3.  The store can
    provide the key of 1 and can't provide those of 0, 2 and 3: 1 is not built. *)
Definition diamond_uses (n : nat) : gmap nat (list nat) :=
  match n with
  | 0 => {[ 1 := [11]; 2 := [12] ]}
  | 1 => {[ 3 := [13] ]}
  | 2 => {[ 3 := [14] ]}
  | _ => ∅
  end.
Definition diamond_roots : gmap nat (list nat) := {[ 0 := [10] ]}.
Definition diamond_avail : gset nat := {[ 11; 13 ]}.
Definition diamond_nodes : gset nat := {[ 0; 1; 2; 3 ]}.

Lemma missingForBuild_witness :
  missingForBuild 20 diamond_roots false diamond_uses (λ ks, ks ∩ {[11]}) (λ ks, ks ∩ diamond_avail) 64
    = Some {[0; 2; 3]} ∧
  ∃ S, missingForBuild 20 diamond_roots false diamond_uses (λ ks, ks ∩ {[11]}) (λ ks, ks ∩ diamond_avail) 64
      = Some S ∧
    plan diamond_roots false diamond_uses diamond_avail S ∧
    ∀ S', plan diamond_roots false diamond_uses diamond_avail S' → S' = S.
Proof.
  split; [by vm_compute|].
  assert (∀ n c, is_Some (diamond_uses n !! c) → n < 3 ∧ n < c ∧ c ≤ 3) as Hu.
  { intros n c [v Hv]. destruct n as [|[|[|n]]]; simpl in Hv; [..|done];
      rewrite ?lookup_insert_Some, ?lookup_singleton_Some in Hv; naive_solver lia. }
  apply (missingForBuild_plan diamond_roots false diamond_uses diamond_avail _ _ 64 diamond_nodes (λ n, 3 - n) 20).
  - intros ks k. unfold diamond_avail. set_solver.
  - intros ks k. apply elem_of_intersection.
  - unfold diamond_roots, diamond_nodes. rewrite dom_singleton. set_solver.
  - intros n c _ (? & ? & ?)%Hu. unfold diamond_nodes. set_solver by lia.
  - intros n c (? & ? & ?)%Hu. lia.
  - by vm_compute.
  - by vm_compute; lia.
Defined.
