(* ===== verification/LoadJobs.v ===== *)
(** * From a request to the jobs of a run

    src/src/client/build.cc: [wantedOutputs], [basicForFarm], [missingInputDrvs],
    [farmJob] and [loadJobs], with [toBasicDrv], [forInputDrvs] and
    [forInputOutputs] of src/src/nix-compat.hh.

    A store path is a string.  A derivation has what these functions read of it:
    its inputs in one of the two forms nix has had, its outputs with the paths that
    are known before the build, its platform and required features.  The eval store
    is two functions, [readDerivation] and [outputMap]
    (queryStaticPartialDerivationOutputMap), that give a value or throw.  What the
    server answers to a QueryValidPaths without and with substitution are the
    arguments [query] and [fetch].  The two outer loops recurse along input
    derivations and have fuel: LoadJobsProof.v shows that the height of the
    derivation graph is enough. *)

From S2P Require Import Prelude TopDown Exec ClientRun.

(** ** Derivations and requests *)

Inductive SingleDerivedPath :=
  | SOpaque (path : string)
  | SBuilt (drvPath : SingleDerivedPath) (output : string).

Fixpoint getBaseStorePath (p : SingleDerivedPath) : string :=
  match p with SOpaque path => path | SBuilt drvPath _ => getBaseStorePath drvPath end.

Module InputNode.
Record t := mk { value : list string; childMap : list string }.
End InputNode.

(** [NIX_COMPAT_TEMPLATED_DRV], and the map of older versions. *)
Inductive Inputs :=
  | Templated (inputs : list SingleDerivedPath)
  | Mapped (inputSrcs : list string) (inputDrvs : list (string * InputNode.t)).

Module Derivation.
Record t := mk {
  inputs : Inputs;
  outputs : list (string * option string);  (* name, static path *)
  platform : string;
  features : list string;                   (* requiredSystemFeatures *)
}.
End Derivation.

Inductive DerivedPath :=
  | DOpaque (path : string)
  | DBuilt (drvPath : SingleDerivedPath) (outputs : string → bool).

Inductive BuildMode := bmNormal | bmRepair | bmCheck.
Definition mode_code (m : BuildMode) : N := match m with bmNormal => 0 | bmRepair => 1 | bmCheck => 2 end.

(** [forInputDrvs] and [forInputOutputs]: the visited arguments, in order. *)
Definition forInputDrvs (drv : Derivation.t) : list string :=
  match Derivation.inputs drv with
  | Templated l => omap (λ input, match input with SBuilt d _ => Some (getBaseStorePath d) | SOpaque _ => None end) l
  | Mapped _ m => m.*1
  end.

Definition forInputOutputs (drv : Derivation.t) : list (string * string) :=
  match Derivation.inputs drv with
  | Templated l => omap (λ input, match input with SBuilt (SOpaque dep) output => Some (dep, output) | _ => None end) l
  | Mapped _ m => m ≫= λ '(d, node), (λ output, (d, output)) <$> InputNode.value node
  end.

(** A job with the dependants [loadJobs] adds. *)
Module LJob.
Record t (R : Type) := mk { job : RJob.t R; dependants : list string }.
Arguments mk {R}. Arguments job {R}. Arguments dependants {R}.
End LJob.

(** [drvs] and [outputs] of [missingInputDrvs] *)
Module Collected.
Record t := mk { drvs : gmap string Derivation.t; outputs : gmap string (gmap string (option string)) }.
End Collected.

Section LoadJobs.
Context {R : Type}.
Context (readDerivation : string → result Derivation.t) (outputMap : string → result (gmap string (option string))).
Context (hashPart printStorePath : string → string) (to_string : DerivedPath → string).

Definition of_result {S A} (r : result A) : M S A := λ s, (s, r).

(** [nixcompat::toBasicDrv]: the input paths of the basic derivation; [None] if an
    input is dynamic. *)
Definition toBasicDrv {S} (outputOf : string → string → M S string) (drv : Derivation.t)
    : M S (option (gset string)) :=
  '(srcs, dynamic) ← (match Derivation.inputs drv with
    | Templated l =>
        foldM (λ '(srcs, dynamic) input,
          match input with
          | SOpaque path => mret ({[path]} ∪ srcs, dynamic)
          | SBuilt (SOpaque dep) output => p ← outputOf dep output; mret ({[p]} ∪ srcs, dynamic)
          | SBuilt (SBuilt _ _) _ => mret (srcs, true)
          end) (∅, false) l
    | Mapped inputSrcs m =>
        foldM (λ '(srcs, dynamic) '(dep, node),
          if decide (InputNode.childMap node ≠ []) then mret (srcs, true)
          else srcs ← foldM (λ srcs output, p ← outputOf dep output; mret ({[p]} ∪ srcs)) srcs (InputNode.value node);
               mret (srcs, dynamic)) (list_to_set inputSrcs, false) m
    end);
  mret (if dynamic : bool then None else Some srcs).

(** The lambda of [basicForFarm]. *)
Definition outputOf {S} (drvPath dep output : string) : M S string :=
  m ← of_result (outputMap dep);
  match m !! output with
  | Some (Some path) => mret path
  | _ => throw (NixError ("'" +:+ printStorePath drvPath +:+ "': input '" +:+ printStorePath dep +:+ "!" +:+ output
                          +:+ "' has no statically known path (floating content-addressed?)"))
  end.

(** [GrpcStore::basicForFarm]: the input paths; throws for anything dynamic or
    content-addressed. *)
Definition not_static (drvPath : string) : exn :=
  NixError ("'" +:+ printStorePath drvPath +:+ "': needs statically known input and output paths "
            +:+ "(no floating content-addressed or dynamic derivations)").

Definition basicForFarm {S} (drvPath : string) (full : Derivation.t) : M S (gset string) :=
  basic ← toBasicDrv (outputOf drvPath) full;
  match basic with
  | None => throw (not_static drvPath)
  | Some srcs =>
      if decide (Exists (λ out : string * option string, out.2 = None) (Derivation.outputs full)) then throw (not_static drvPath)
      else mret srcs
  end.

(** [std::map::emplace]: what is there stays. *)
Definition emplace {K V} `{Countable K} (k : K) (v : V) (m : gmap K V) : gmap K V :=
  match m !! k with Some _ => m | None => <[k := v]> m end.

Definition farm_input {S} (isJob : string → bool) (farmInputs : gmap string string) (input : string)
    : M S (gmap string string) :=
  if isJob input then mret farmInputs
  else m ← of_result (outputMap input);
       mret (foldl (λ acc kv, match kv.2 with Some path => emplace path input acc | None => acc end)
               farmInputs (map_to_list m)).

(** [GrpcStore::farmJob] *)
Definition farmJob {S} (drvPath : string) (full : Derivation.t) (isJob : string → bool) : M S (RJob.t R) :=
  srcs ← basicForFarm drvPath full;
  farmInputs ← foldM (farm_input isJob) ∅ (forInputDrvs full);
  mret (RJob.mk drvPath ((λ out : string * option string, hashPart <$> out.2) <$> Derivation.outputs full) (elements srcs)
    (Derivation.features full) (Derivation.platform full) (mode_code bmNormal) [] 0 farmInputs false None).

(** ** What is missing *)

(** [wantedOutputs] *)
Definition wantedOutputs {S} (drvPath : SingleDerivedPath) (outputs : string → bool) : M S (gmap string string) :=
  m ← of_result (outputMap (getBaseStorePath drvPath));
  mret (map_imap (λ name path, if outputs name then path else None) m).

(** [collect] of [missingInputDrvs] *)
Fixpoint collect (fuel : nat) (drvPath : string) : M Collected.t () :=
  c ← get;
  if decide (is_Some (Collected.drvs c !! drvPath)) then mret tt
  else match fuel with
  | O => throw OutOfFuel
  | S fuel' =>
      m ← of_result (outputMap drvPath);
      modify (λ c, Collected.mk (Collected.drvs c) (emplace drvPath m (Collected.outputs c)));;
      full ← of_result (readDerivation drvPath);
      modify (λ c, Collected.mk (<[drvPath := full]> (Collected.drvs c)) (Collected.outputs c));;
      forM_ (forInputDrvs full) (collect fuel')
  end.

(** One request: the outputs that are wanted of it, and its derivations. *)
Definition collect_request (fuel : nat) (tops : gmap string (list string)) (req : DerivedPath)
    : M Collected.t (gmap string (list string)) :=
  match req with
  | DBuilt drvPath outputs =>
      let base := getBaseStorePath drvPath in
      w ← wantedOutputs drvPath outputs;
      collect fuel base;;
      mret (<[base := default [] (tops !! base) ++ (map_to_list w).*2]> tops)
  | DOpaque _ => mret tops
  end.

(** The [uses] callback: each input derivation with the outputs used of it; [None]
    where [at] throws. *)
Definition add_use (c : Collected.t) (used : option (gmap string (list string))) (use : string * string)
    : option (gmap string (list string)) :=
  used ← used;
  m ← Collected.outputs c !! use.1;
  Some (<[use.1 := default [] (used !! use.1) ++ match m !! use.2 with Some (Some path) => [path] | _ => [] end]> used).

Definition uses_of (c : Collected.t) (drvPath : string) : option (gmap string (list string)) :=
  full ← Collected.drvs c !! drvPath;
  foldl (add_use c) (Some ∅) (forInputOutputs full).

(** [GrpcStore::missingInputDrvs] *)
Definition missingInputDrvs {S} (fuel : nat) (query fetch : gset string → gset string) (reqs : list DerivedPath)
    (buildMode : BuildMode) : M S (gset string) := λ s,
  match foldM (collect_request fuel) ∅ reqs (Collected.mk ∅ ∅) with
  | (_, Throw e) => (s, Throw e)
  | (c, Ok tops) =>
      match missingForBuild fuel tops (match buildMode with bmNormal => false | _ => true end)
              (λ drvPath, default ∅ (uses_of c drvPath)) query fetch topDownBudget with
      | Some missing => (s, Ok missing)
      | None => (s, Throw OutOfFuel)
      end
  end.

(** ** The jobs *)

Abbreviation jobs_t := (gmap string (LJob.t R)).

Definition on_job (drvPath : string) (f : LJob.t R → LJob.t R) : M jobs_t () :=
  modify (alter f drvPath).
Definition with_mode (mode : BuildMode) (j : LJob.t R) : LJob.t R :=
  let r := LJob.job j in
  LJob.mk (RJob.mk (RJob.drvPath r) (RJob.outKeys r) (RJob.drvInputs r) (RJob.features r) (RJob.platform r)
    (mode_code mode) (RJob.inputs r) (RJob.cpHintMs r) (RJob.farmInputs r) (RJob.cacheLost r) (RJob.result r))
    (LJob.dependants j).
Definition with_cpHintMs (hint : N) (j : LJob.t R) : LJob.t R :=
  let r := LJob.job j in
  LJob.mk (RJob.mk (RJob.drvPath r) (RJob.outKeys r) (RJob.drvInputs r) (RJob.features r) (RJob.platform r)
    (RJob.mode r) (RJob.inputs r) hint (RJob.farmInputs r) (RJob.cacheLost r) (RJob.result r))
    (LJob.dependants j).
Definition push_dependant (dep : string) (j : LJob.t R) : LJob.t R := LJob.mk (LJob.job j) (LJob.dependants j ++ [dep]).
Definition push_input (input : string) (j : LJob.t R) : LJob.t R :=
  let r := LJob.job j in
  LJob.mk (RJob.mk (RJob.drvPath r) (RJob.outKeys r) (RJob.drvInputs r) (RJob.features r) (RJob.platform r)
    (RJob.mode r) (RJob.inputs r ++ [input]) (RJob.cpHintMs r) (RJob.farmInputs r) (RJob.cacheLost r) (RJob.result r))
    (LJob.dependants j).

(** [load] of [loadJobs]; the reference it returns is the job of that path. *)
Fixpoint load (fuel : nat) (missing : gset string) (buildMode : BuildMode) (drvPath : string) : M jobs_t () :=
  jobs ← get;
  if decide (is_Some (jobs !! drvPath)) then mret tt
  else match fuel with
  | O => throw OutOfFuel
  | S fuel' =>
      let isJob := λ input, bool_decide (input ∈ missing) in
      full ← of_result (readDerivation drvPath);
      job ← farmJob drvPath full isJob;
      modify <[drvPath := LJob.mk job []]>;;
      on_job drvPath (with_mode (match buildMode with bmRepair => bmRepair | _ => bmNormal end));;
      forM_ (forInputDrvs full) (λ input,
        if isJob input then
          load fuel' missing buildMode input;;
          on_job input (push_dependant drvPath);;
          on_job drvPath (push_input input)
        else mret tt)
  end.

Definition load_request (fuel : nat) (missing : gset string) (buildMode : BuildMode) (req : DerivedPath) : M jobs_t () :=
  match req with
  | DBuilt (SOpaque path) _ =>
      if decide (path ∈ missing) then load fuel missing buildMode path;; on_job path (with_mode buildMode)
      else mret tt
  | DBuilt (SBuilt _ _) _ => throw (NixError ("'" +:+ to_string req +:+ "': dynamic derivations are not supported"))
  | DOpaque _ => mret tt
  end.

Definition perDrvMs : N := 1000.

(** [height]: the longest chain of dependants above a job. *)
Fixpoint height (fuel : nat) (drvPath : string) : M jobs_t N :=
  jobs ← get;
  j ← expect OutOfRange (jobs !! drvPath);
  if negb (RJob.cpHintMs (LJob.job j) =? 0)%N then mret (RJob.cpHintMs (LJob.job j))
  else match fuel with
  | O => throw OutOfFuel
  | S fuel' =>
      above ← foldM (λ above dep, h ← height fuel' dep; mret (N.max above h)) 0%N (LJob.dependants j);
      let hint := u64 (above + perDrvMs) in
      on_job drvPath (with_cpHintMs hint);;
      mret hint
  end.

(** [GrpcStore::loadJobs] *)
Definition loadJobs (fuel : nat) (query fetch : gset string → gset string) (reqs : list DerivedPath)
    (buildMode : BuildMode) : M jobs_t () :=
  missing ← missingInputDrvs fuel query fetch reqs buildMode;
  forM_ reqs (load_request fuel missing buildMode);;
  jobs ← get;
  forM_ (map_to_list jobs).*1 (λ path, height fuel path;; mret tt).

(** ** The results of a request *)

Definition opaque_paths (reqs : list DerivedPath) : gset string :=
  list_to_set (omap (λ req, match req with DOpaque p => Some p | DBuilt _ _ => None end) reqs).

(** What nix's [BuildResult] offers: an empty one, AlreadyValid without and with the
    outputs of a derivation, a failure. *)
Record BuildResults := mkBuildResults {
  no_result : R;
  setAlreadyValid : R;
  alreadyValid : string → gmap string string → R;
  failed : FailureStatus → string → R;
}.

Definition request_result {S} (br : BuildResults) (jobs : gmap string (RJob.t R)) (validOpaque : gset string)
    (req : DerivedPath) : M S R :=
  match req with
  | DBuilt d outputs =>
      match jobs !! getBaseStorePath d with
      | None => w ← wantedOutputs d outputs; mret (alreadyValid br (getBaseStorePath d) w)
      | Some job => mret (default (no_result br) (RJob.result job))
      end
  | DOpaque path =>
      mret (if decide (path ∈ validOpaque) then setAlreadyValid br
            else failed br MiscFailure ("path '" +:+ to_string req +:+ "' does not exist and cannot be substituted"))
  end.

(** [GrpcStore::dispatchBuild] once the eval store is chosen.  [runJobs] takes the
    jobs and leaves them with their results. *)
Definition dispatchBuild {S} (br : BuildResults) (runJobs : gmap string (RJob.t R) → M S (gmap string (RJob.t R)))
    (fuel : nat) (query fetch : gset string → gset string) (reqs : list DerivedPath) (buildMode : BuildMode)
    : M S (list R) :=
  jobs ← (λ s, match loadJobs fuel query fetch reqs buildMode ∅ with
               | (jobs, Ok _) => (s, Ok jobs)
               | (_, Throw e) => (s, Throw e)
               end);
  jobs ← runJobs (LJob.job <$> jobs);
  let opaque := opaque_paths reqs in
  let validOpaque := if decide (opaque = ∅) then ∅ else fetch opaque in
  foldM (λ results req, res ← request_result br jobs validOpaque req; mret (results ++ [res])) [] reqs.
End LoadJobs.
