(* ===== verification/LoadJobsFarm.v ===== *)
(** * The job of a derivation

    What [farmJob] (src/src/client/build.cc) makes of a derivation with statically
    known paths, and what [missingInputDrvs] collects. *)

From S2P Require Import Prelude Exec ClientRun TopDown TopDownWalks TopDownBuild LoadJobs.

#[local] Set Warnings "-level-tolerance".

(** ** Eval stores in which nothing throws *)

Section Farm.
Context {R : Type}.
Context (readDerivation : string → result Derivation.t) (outputMap : string → result (gmap string (option string))).
Context (hashPart printStorePath : string → string).

Definition drv (p : string) : Derivation.t :=
  match readDerivation p with Ok d => d | Throw _ => Derivation.mk (Templated []) [] "" [] end.
Definition outs (p : string) : gmap string (option string) :=
  match outputMap p with Ok m => m | Throw _ => ∅ end.

(** The paths a derivation names itself. *)
Definition sources (d : Derivation.t) : list string :=
  match Derivation.inputs d with
  | Templated l => omap (λ input, match input with SOpaque p => Some p | _ => None end) l
  | Mapped srcs _ => srcs
  end.

(** No dynamic inputs, and every path is known before the build. *)
Record static (d : Derivation.t) : Prop := mkStatic {
  st_inputs : match Derivation.inputs d with
    | Templated l => ∀ d' o o', SBuilt (SBuilt d' o) o' ∉ l
    | Mapped _ m => ∀ n, n ∈ m → InputNode.childMap n.2 = []
    end;
  st_outputs : ∀ out, out ∈ Derivation.outputs d → out.2 ≠ None;
  st_used : ∀ i o, (i, o) ∈ forInputOutputs d → ∃ p, outs i !! o = Some (Some p);
}.

(** [U]: derivations the eval store has, with their inputs; [rank] bounds the depth. *)
Record eval_ok (U : gset string) (rank : string → nat) : Prop := mkEvalOk {
  ev_drv : ∀ p, p ∈ U → readDerivation p = Ok (drv p);
  ev_outs : ∀ p, p ∈ U → outputMap p = Ok (outs p);
  ev_static : ∀ p, p ∈ U → static (drv p);
  ev_inputs : ∀ p i, p ∈ U → i ∈ forInputDrvs (drv p) → i ∈ U ∧ rank i < rank p;
}.

Lemma wp_of_result {S A} (r : result A) a (Φ : A → S → Prop) s : r = Ok a → Φ a s → wp (of_result r) Φ s.
Proof. intros -> HΦ. by exists a, s. Qed.

Lemma used_is_input d i o : (i, o) ∈ forInputOutputs d → i ∈ forInputDrvs d.
Proof.
  unfold forInputOutputs, forInputDrvs. destruct (Derivation.inputs d) as [l|srcs m].
  - rewrite !list_elem_of_omap. intros (x & Hx & Hs). exists x. split; [done|].
    destruct x as [|[|]]; by simplify_eq/=.
  - rewrite list_elem_of_bind, list_elem_of_fmap. intros ([d' node] & (o' & [= -> ->] & _)%list_elem_of_fmap & Hm).
    by exists (d', node).
Qed.

Context (U : gset string) (rank : string → nat) (Hev : eval_ok U rank).

(** The input paths of the derivation that is sent to a worker. *)
Definition is_input_path (p x : string) : Prop :=
  x ∈ sources (drv p) ∨ ∃ i o, (i, o) ∈ forInputOutputs (drv p) ∧ outs i !! o = Some (Some x).

Lemma outputOf_spec {S} p q i o path (Φ : string → S → Prop) s :
  p ∈ U → i ∈ forInputDrvs (drv p) → outs i !! o = Some (Some path) → Φ path s →
  wp (outputOf outputMap printStorePath q i o) Φ s.
Proof.
  intros Hp Hi Ho HΦ. unfold outputOf. wp_steps. destruct (ev_inputs _ _ Hev p i Hp Hi) as [HiU _].
  eapply wp_of_result; [by apply (ev_outs _ _ Hev)|]. rewrite Ho. wp_steps. done.
Qed.

Lemma toBasic_templated {S} p q l (Φ : gset string * bool → S → Prop) s :
  p ∈ U → Derivation.inputs (drv p) = Templated l →
  (∀ srcs, (∀ x, x ∈ srcs ↔ is_input_path p x) → Φ (srcs, false) s) →
  wp (foldM (λ '(srcs, dynamic) input,
    match input with
    | SOpaque path => mret ({[path]} ∪ srcs, dynamic)
    | SBuilt (SOpaque dep) output =>
        p ← outputOf outputMap printStorePath q dep output; mret ({[p]} ∪ srcs, dynamic)
    | SBuilt (SBuilt _ _) _ => mret (srcs, true)
    end) (∅, false) l) Φ s.
Proof.
  intros Hp El HΦ. destruct (ev_static _ _ Hev p Hp) as [Hin _ Hused]. rewrite El in Hin.
  assert (∀ i o, (i, o) ∈ forInputOutputs (drv p) ↔ SBuilt (SOpaque i) o ∈ l) as Huse.
  { intros i o. unfold forInputOutputs. rewrite El, list_elem_of_omap. split; [|intros; by eexists].
    intros ([|[|]] & ? & ?); by simplify_eq. }
  assert (∀ x, x ∈ sources (drv p) ↔ SOpaque x ∈ l) as Hsrc.
  { intros x. unfold sources. rewrite El, list_elem_of_omap. split; [|intros; by eexists].
    intros ([|[|]] & ? & ?); by simplify_eq. }
  eapply wp_mono; [apply (wp_foldM_prefix _ (λ done acc s', s' = s ∧ acc.2 = false ∧ ∀ x, x ∈ acc.1 ↔
    SOpaque x ∈ done ∨ ∃ i o, SBuilt (SOpaque i) o ∈ done ∧ outs i !! o = Some (Some x)))|].
  - split_and!; [done|done|]. intros x. set_solver.
  - intros done x rest [srcs dyn] s' El' (-> & Hd & Hs). simpl in Hd, Hs. subst dyn.
    assert (x ∈ l) as Hx by (rewrite El'; set_solver). destruct x as [path|[dep|d' o'] o]; wp_steps.
    + split_and!; [done|done|]. intros x. simpl. rewrite elem_of_union, Hs. clear; set_solver.
    + apply Huse in Hx. destruct (Hused dep o Hx) as [path Hpath].
      eapply (outputOf_spec p); [done|by eapply used_is_input|exact Hpath|].
      wp_steps. split_and!; [done|done|]. intros x. simpl. rewrite elem_of_union, Hs. clear -Hpath; set_solver.
    + by destruct (Hin d' o' o).
  - intros [srcs dyn] ? (-> & Hd & Hs). simpl in Hd, Hs. subst dyn. apply HΦ. intros x. unfold is_input_path.
    rewrite Hs, Hsrc. by setoid_rewrite Huse.
Qed.

Lemma toBasic_mapped {S} p q srcs0 m (Φ : gset string * bool → S → Prop) s :
  p ∈ U → Derivation.inputs (drv p) = Mapped srcs0 m →
  (∀ srcs, (∀ x, x ∈ srcs ↔ is_input_path p x) → Φ (srcs, false) s) →
  wp (foldM (λ '(srcs, dynamic) '(dep, node),
    if decide (InputNode.childMap node ≠ []) then mret (srcs, true)
    else srcs ← foldM (λ srcs output, p ← outputOf outputMap printStorePath q dep output; mret ({[p]} ∪ srcs))
                  srcs (InputNode.value node);
         mret (srcs, dynamic)) (list_to_set srcs0, false) m) Φ s.
Proof.
  intros Hp El HΦ. destruct (ev_static _ _ Hev p Hp) as [Hin _ Hused]. rewrite El in Hin.
  assert (∀ i o, (i, o) ∈ forInputOutputs (drv p) ↔ ∃ node, (i, node) ∈ m ∧ o ∈ InputNode.value node) as Huse.
  { intros i o. unfold forInputOutputs. rewrite El, list_elem_of_bind. split.
    - intros ([d' node] & (o' & [= -> ->] & ?)%list_elem_of_fmap & ?). by exists node.
    - intros (node & ? & ?). exists (i, node). split; [|done]. apply list_elem_of_fmap. by exists o. }
  eapply wp_mono; [apply (wp_foldM_prefix _ (λ done acc s', s' = s ∧ acc.2 = false ∧ ∀ x, x ∈ acc.1 ↔
    x ∈ srcs0 ∨ ∃ i o, (∃ node, (i, node) ∈ done ∧ o ∈ InputNode.value node) ∧ outs i !! o = Some (Some x)))|].
  - split_and!; [done|done|]. intros x. simpl. rewrite elem_of_list_to_set. set_solver.
  - intros done [dep node] rest [srcs dyn] s' El' (-> & Hd & Hs). simpl in Hd, Hs. subst dyn.
    assert ((dep, node) ∈ m) as Hx by (rewrite El'; set_solver). pose proof (Hin _ Hx) as Hch. simpl in Hch.
    rewrite decide_False by (rewrite Hch; tauto).
    wp_steps. eapply wp_mono; [apply (wp_foldM_prefix _ (λ outs' srcs' s', s' = s ∧ ∀ x, x ∈ srcs' ↔
      x ∈ srcs ∨ ∃ o, o ∈ outs' ∧ outs dep !! o = Some (Some x)))|].
    + split; [done|]. intros x. set_solver.
    + intros outs' o orest srcs' ? Eo (-> & Hs'). assert ((dep, o) ∈ forInputOutputs (drv p)) as Hu.
      { apply Huse. exists node. split; [done|]. rewrite Eo. set_solver. }
      destruct (Hused dep o Hu) as [path Hpath]. wp_steps.
      eapply (outputOf_spec p); [done|by eapply used_is_input|exact Hpath|]. wp_steps.
      split; [done|]. intros x. rewrite elem_of_union, Hs'. clear -Hpath; set_solver.
    + intros srcs' ? (-> & Hs'). wp_steps. split_and!; [done|done|]. intros x. simpl. rewrite Hs', Hs. clear; set_solver.
  - intros [srcs dyn] ? (-> & Hd & Hs). simpl in Hd, Hs. subst dyn. apply HΦ. intros x. unfold is_input_path, sources.
    rewrite Hs, El. by setoid_rewrite Huse.
Qed.

Lemma basicForFarm_spec {S} p q (Φ : gset string → S → Prop) s :
  p ∈ U → (∀ srcs, (∀ x, x ∈ srcs ↔ is_input_path p x) → Φ srcs s) →
  wp (basicForFarm outputMap printStorePath q (drv p)) Φ s.
Proof.
  intros Hp HΦ. unfold basicForFarm, toBasicDrv. wp_steps.
  assert (∀ srcs, (∀ x, x ∈ srcs ↔ is_input_path p x) →
    wp (match Some srcs with
        | None => throw (not_static printStorePath q)
        | Some srcs => if decide (Exists (λ out : string * option string, out.2 = None) (Derivation.outputs (drv p)))
                       then throw (not_static printStorePath q) else mret srcs
        end) Φ s) as Hdone.
  { intros srcs Hs. rewrite decide_False; [by wp_steps; apply HΦ|].
    rewrite Exists_exists. intros (out & Hout & Hn). by apply (st_outputs _ (ev_static _ _ Hev p Hp) out). }
  destruct (Derivation.inputs (drv p)) as [l|srcs0 m] eqn:El.
  - eapply toBasic_templated; [done..|]. intros srcs Hs. wp_steps. by apply Hdone.
  - eapply toBasic_mapped; [done..|]. intros srcs Hs. wp_steps. by apply Hdone.
Qed.

(** ** [farmJob] *)

Definition is_output (i path : string) : Prop := ∃ o, outs i !! o = Some (Some path).

(** A job of the farm as [farmJob] makes it, before it is linked to other jobs. *)
Record farmed (missing : gset string) (p : string) (j : RJob.t R) : Prop := mkFarmed {
  fd_path : RJob.drvPath j = p;
  fd_keys : RJob.outKeys j = (λ out : string * option string, hashPart <$> out.2) <$> Derivation.outputs (drv p);
  fd_drvInputs : ∀ x, x ∈ RJob.drvInputs j ↔ is_input_path p x;
  fd_features : RJob.features j = Derivation.features (drv p);
  fd_platform : RJob.platform j = Derivation.platform (drv p);
  fd_farm : ∀ path i, RJob.farmInputs j !! path = Some i →
    i ∈ forInputDrvs (drv p) ∧ i ∉ missing ∧ is_output i path;
  fd_farm_all : ∀ path i, i ∈ forInputDrvs (drv p) → i ∉ missing → is_output i path →
    is_Some (RJob.farmInputs j !! path);
  fd_lost : RJob.cacheLost j = false;
  fd_result : RJob.result j = None;
}.

Lemma emplace_Some {K V} `{Countable K} (k k' : K) (v v' : V) (m : gmap K V) :
  emplace k v m !! k' = Some v' ↔ m !! k' = Some v' ∨ m !! k' = None ∧ k = k' ∧ v = v'.
Proof.
  unfold emplace. destruct (m !! k) eqn:E.
  - split; [by left|]. intros [?|(? & -> & _)]; [done|congruence].
  - rewrite lookup_insert_Some. split.
    + intros [[-> ->]|[? ?]]; [by right|by left].
    + intros [?|(? & -> & ->)]; [right; split; [congruence|done]|by left].
Qed.

Lemma emplace_all (input : string) l (acc : gmap string string) path i :
  foldl (λ acc (kv : string * option string), match kv.2 with Some path => emplace path input acc | None => acc end) acc l
    !! path = Some i ↔
  acc !! path = Some i ∨ acc !! path = None ∧ i = input ∧ ∃ o, (o, Some path) ∈ l.
Proof.
  revert acc. induction l as [|[o x] l IH]; intros acc; simpl; [set_solver|]. rewrite IH. destruct x as [q|].
  - assert (emplace q input acc !! path = None ↔ acc !! path = None ∧ q ≠ path) as ->.
    { unfold emplace. destruct (acc !! q) eqn:E; [|rewrite lookup_insert_None]; naive_solver. }
    rewrite emplace_Some. setoid_rewrite elem_of_cons. destruct (decide (q = path)) as [->|]; naive_solver.
  - setoid_rewrite elem_of_cons. naive_solver.
Qed.

Lemma farmJob_spec {S} p missing (Φ : RJob.t R → S → Prop) s :
  p ∈ U →
  (∀ j, farmed missing p j → RJob.inputs j = [] → RJob.cpHintMs j = 0%N → Φ j s) →
  wp (farmJob outputMap hashPart printStorePath p (drv p) (λ input, bool_decide (input ∈ missing))) Φ s.
Proof.
  intros Hp HΦ. unfold farmJob. wp_steps. apply (basicForFarm_spec p); [done|]. intros srcs Hs. wp_steps.
  eapply wp_mono; [apply (wp_foldM_prefix _ (λ done fi s', s' = s ∧
    (∀ path i, fi !! path = Some i → i ∈ done ∧ i ∉ missing ∧ is_output i path) ∧
    (∀ path i, i ∈ done → i ∉ missing → is_output i path → is_Some (fi !! path))))|].
  - split_and!; [done|set_solver|set_solver].
  - intros done i rest fi s' El (-> & Hf & Hall). unfold farm_input. case_bool_decide as Hm; wp_steps.
    + split_and!; [done|set_solver|]. intros path i' [?| ->%list_elem_of_singleton]%elem_of_app; [by eapply Hall|done].
    + eapply wp_of_result; [apply (ev_outs _ _ Hev), (ev_inputs _ _ Hev p i Hp); rewrite El; set_solver|].
      wp_steps. split_and!; [done|..].
      * intros path i'. rewrite emplace_all. intros [?%Hf|(_ & -> & o & Ho%elem_of_map_to_list)]; [set_solver|].
        split_and!; [set_solver|done|by exists o].
      * intros path i' Hin Hnm Hout. destruct (fi !! path) as [v|] eqn:E.
        -- exists v. apply emplace_all. by left.
        -- exists i. apply emplace_all. right. split_and!; [done..|].
           apply elem_of_app in Hin as [Hin| ->%list_elem_of_singleton].
           ++ destruct (Hall path i' Hin Hnm Hout). congruence.
           ++ destruct Hout as [o Ho]. exists o. by apply elem_of_map_to_list.
  - intros fi ? (-> & Hf & Hall). wp_steps. apply HΦ; [|done|done]. split; simpl; [done|done| |done|done|done|done|done|done].
    intros x. by rewrite elem_of_elements, Hs.
Qed.

(** ** [missingInputDrvs] *)

Abbreviation got c := (dom (Collected.drvs c)).

Record CInv (c : Collected.t) : Prop := mkCInv {
  ci_U : got c ⊆ U;
  ci_drvs : ∀ p d, Collected.drvs c !! p = Some d → d = drv p;
  ci_outs : ∀ p m, Collected.outputs c !! p = Some m ↔ p ∈ got c ∧ m = outs p;
}.

(** More was collected, and the new derivations with all of their inputs. *)
Record CMore (c c' : Collected.t) : Prop := mkCMore {
  cm_inv : CInv c';
  cm_sub : got c ⊆ got c';
  cm_closed : ∀ q i, q ∈ got c' → q ∉ got c → i ∈ forInputDrvs (drv q) → i ∈ got c';
}.

Lemma CMore_trans c1 c2 c3 : CMore c1 c2 → CMore c2 c3 → CMore c1 c3.
Proof.
  intros [_ Hs1 Hc1] [Hi Hs2 Hc2]. split; [done|set_solver|]. intros q i Hq Hn Hi'.
  destruct (decide (q ∈ got c2)); [apply Hs2; eauto|eauto].
Qed.

Lemma collect_spec fuel p c :
  CInv c → p ∈ U → rank p < fuel →
  wp (collect readDerivation outputMap fuel p) (λ _ c', CMore c c' ∧ p ∈ got c') c.
Proof.
  revert p c. induction fuel as [|fuel IH]; intros p c HC Hp Hf; [lia|]. cbn [collect]. wp_steps.
  case_decide as Hs; wp_steps. { split; [|by apply elem_of_dom]. split; [done|done|set_solver]. }
  eapply wp_of_result; [by apply (ev_outs _ _ Hev)|]. wp_steps.
  eapply wp_of_result; [by apply (ev_drv _ _ Hev)|]. wp_steps. simpl.
  set (c1 := Collected.mk _ _). assert (p ∉ got c) as Hpn by (by rewrite elem_of_dom).
  assert (got c1 = {[p]} ∪ got c) as Eg by (simpl; by rewrite dom_insert_L).
  assert (CInv c1) as HC1.
  { destruct HC as [HU Hd Ho]. split.
    - rewrite Eg. set_solver.
    - intros q d. simpl. rewrite lookup_insert_Some. naive_solver.
    - intros q m. rewrite Eg. simpl. rewrite emplace_Some, Ho. destruct (decide (q = p)) as [->|].
      + assert (Collected.outputs c !! p = None); [|set_solver].
        apply eq_None_not_Some. intros [m' [? _]%Ho]. done.
      + set_solver. }
  eapply wp_mono; [apply (wp_forM_prefix _ (λ done c', CMore c1 c' ∧ ∀ i, i ∈ done → i ∈ got c'))|].
  - split; [split; [done|done|set_solver]|set_solver].
  - intros done i rest c' El [HM Hdone]. destruct (ev_inputs _ _ Hev p i Hp) as [HiU Hlt]; [rewrite El; set_solver|].
    eapply wp_mono; [apply IH; [by destruct HM|done|lia]|]. intros ? c'' [HM' Hi].
    split; [by eapply CMore_trans|]. intros i' [Hin| ->%list_elem_of_singleton]%elem_of_app; [|done].
    apply (cm_sub _ _ HM'). auto.
  - intros ? c' [[Hi Hsub Hcl] Hdone]. rewrite Eg in *. split; [split; [done|set_solver|]|set_solver].
    intros q i Hq Hn Hin. destruct (decide (q = p)) as [->|]; [auto|]. eapply Hcl; [done|set_solver|done].
Qed.

(** What the requests ask for. *)
Definition wanted (drvPath : SingleDerivedPath) (outputs : string → bool) : gmap string string :=
  map_imap (λ name path, if outputs name then path else None) (outs (getBaseStorePath drvPath)).
Definition add_top (tops : gmap string (list string)) (req : DerivedPath) : gmap string (list string) :=
  match req with
  | DBuilt d outputs =>
      <[getBaseStorePath d := default [] (tops !! getBaseStorePath d) ++ (map_to_list (wanted d outputs)).*2]> tops
  | DOpaque _ => tops
  end.
Definition tops_of (reqs : list DerivedPath) : gmap string (list string) := foldl add_top ∅ reqs.

Definition requests (req : DerivedPath) (p : string) : Prop :=
  match req with DBuilt d _ => getBaseStorePath d = p | DOpaque _ => False end.

Lemma elem_of_tops reqs p : p ∈ dom (tops_of reqs) ↔ ∃ req, req ∈ reqs ∧ requests req p.
Proof.
  clear Hev hashPart printStorePath readDerivation U rank. unfold tops_of. induction reqs as [|req reqs IH] using rev_ind; [set_solver|]. rewrite foldl_snoc.
  assert (p ∈ dom (add_top (foldl add_top ∅ reqs) req) ↔ requests req p ∨ p ∈ dom (foldl add_top ∅ reqs)) as ->.
  { destruct req as [|d outputs]; simpl; [tauto|]. rewrite dom_insert_L, elem_of_union, elem_of_singleton. naive_solver. }
  rewrite IH. setoid_rewrite elem_of_app. setoid_rewrite list_elem_of_singleton. naive_solver.
Qed.

Lemma collect_all_spec fuel reqs :
  (∀ req p, req ∈ reqs → requests req p → p ∈ U) → (∀ p, p ∈ U → rank p < fuel) →
  wp (foldM (collect_request readDerivation outputMap fuel) ∅ reqs)
    (λ tops c, tops = tops_of reqs ∧ CInv c ∧ dom tops ⊆ got c ∧
       ∀ q i, q ∈ got c → i ∈ forInputDrvs (drv q) → i ∈ got c) (Collected.mk ∅ ∅).
Proof.
  intros Hreq Hf. eapply wp_mono; [apply (wp_foldM_prefix _ (λ done tops c, tops = tops_of done ∧
    CMore (Collected.mk ∅ ∅) c ∧ dom tops ⊆ got c))|].
  - split_and!; [done| |set_solver]. split; [|done|set_solver]. split; set_solver.
  - intros done req rest tops c El (-> & HM & Htop). unfold tops_of at 2. unfold collect_request.
    destruct req as [|d outputs]; wp_steps; rewrite foldl_snoc; [done|].
    assert (getBaseStorePath d ∈ U) as HdU by (eapply (Hreq (DBuilt d outputs)); [rewrite El; set_solver|done]).
    unfold wantedOutputs. wp_steps. eapply wp_of_result; [by apply (ev_outs _ _ Hev)|]. wp_steps.
    eapply wp_mono; [apply collect_spec; [by destruct HM|done|by apply Hf]|]. intros ? c' [HM' Hd]. wp_steps.
    split_and!; [done|by eapply CMore_trans|]. rewrite dom_insert_L. destruct HM'. set_solver.
  - intros tops c (-> & [HC _ Hcl] & Htop). split_and!; [done..|]. intros q i Hq. apply Hcl; [done|set_solver].
Qed.

(** What a derivation uses: each input with the paths of the outputs used of it. *)
Definition use_path (use : string * string) : list string :=
  match outs use.1 !! use.2 with Some (Some path) => [path] | _ => [] end.
Definition add_use_ref (used : gmap string (list string)) (use : string * string) : gmap string (list string) :=
  <[use.1 := default [] (used !! use.1) ++ use_path use]> used.
Definition uses_ref (p : string) : gmap string (list string) := foldl add_use_ref ∅ (forInputOutputs (drv p)).

Lemma uses_of_ref c p :
  CInv c → p ∈ got c → (∀ i, i ∈ forInputDrvs (drv p) → i ∈ got c) → uses_of c p = Some (uses_ref p).
Proof.
  intros HC [d Hd]%elem_of_dom Hin. unfold uses_of, uses_ref. rewrite Hd. cbn [mbind option_bind].
  rewrite (ci_drvs _ HC p d Hd). pose proof (used_is_input (drv p)) as Hui.
  assert (∀ i o, (i, o) ∈ forInputOutputs (drv p) → i ∈ got c) as Hall by eauto. clear Hui Hin Hd.
  induction (forInputOutputs (drv p)) as [|[i o] l IH] using rev_ind; [done|].
  rewrite !foldl_snoc, IH by (intros i' o' ?; apply (Hall i' o'); set_solver). unfold add_use. cbn [mbind option_bind fst snd].
  rewrite (proj2 (ci_outs _ HC i (outs i))) by (split; [apply (Hall i o); set_solver|done]). done.
Qed.

Lemma uses_ref_input p i : is_Some (uses_ref p !! i) → i ∈ forInputDrvs (drv p).
Proof.
  clear Hev hashPart printStorePath U rank. unfold uses_ref. pose proof (used_is_input (drv p)) as Hui. revert Hui.
  induction (forInputOutputs (drv p)) as [|[i' o] l IH] using rev_ind; [simpl; intros _ [v Hv]; by rewrite lookup_empty in Hv|].
  intros Hui. rewrite foldl_snoc. unfold add_use_ref at 1. simpl. rewrite lookup_insert_is_Some. intros [->|[_ Hs]].
  - apply (Hui i o). set_solver.
  - apply IH; [|done]. intros i'' o' ?. apply (Hui i'' o'). set_solver.
Qed.

Definition rebuilds (buildMode : BuildMode) : bool := match buildMode with bmNormal => false | _ => true end.

Lemma missingInputDrvs_spec {S} fuel query fetch (avail : gset string) reqs buildMode (s : S) :
  (∀ ks k, k ∈ query ks → k ∈ avail) → (∀ ks k, k ∈ fetch ks ↔ k ∈ ks ∧ k ∈ avail) →
  (∀ req p, req ∈ reqs → requests req p → p ∈ U) → (∀ p, p ∈ U → rank p < fuel) →
  (N.of_nat (size U) < 2 ^ 64)%N → 2 * size U + weight uses_ref U ≤ fuel →
  ∃ missing, missingInputDrvs readDerivation outputMap fuel query fetch reqs buildMode s = (s, Ok missing) ∧
    plan (tops_of reqs) (rebuilds buildMode) uses_ref avail missing ∧ missing ⊆ U.
Proof.
  intros Hq Hf Hreq Hrank Hsmall Hfuel.
  destruct (collect_all_spec fuel reqs Hreq Hrank) as (tops & c & Ec & -> & HC & Htop & Hcl).
  pose (uses := λ p, default ∅ (uses_of c p)).
  assert (∀ p, p ∈ got c → uses p = uses_ref p) as Hu.
  { intros p Hp. unfold uses. by rewrite uses_of_ref by eauto. }
  assert (∀ p i, is_Some (uses p !! i) → p ∈ got c) as Hdef.
  { intros p i. unfold uses, uses_of. destruct (Collected.drvs c !! p) eqn:E; [|by intros [? ?]]. by intros _; apply elem_of_dom. }
  assert (weight uses (got c) = weight uses_ref (got c)) as Hw.
  { unfold weight. f_equal. apply list_fmap_ext. intros n p Hp. rewrite Hu; [done|].
    apply elem_of_elements, list_elem_of_lookup. by exists n. }
  pose proof (weight_mono uses_ref _ _ (ci_U _ HC)). pose proof (subseteq_size _ _ (ci_U _ HC)).
  pose proof (subseteq_size _ _ Htop) as Hts. rewrite size_dom in Hts.
  destruct (missingForBuild_spec (tops_of reqs) (rebuilds buildMode) uses avail query fetch topDownBudget (got c) rank fuel
    Hq Hf Htop) as (missing & Em & Hplan & _).
  - intros p i Hp Hs. apply (Hcl p i Hp), uses_ref_input. by rewrite <- Hu.
  - intros p i Hs. pose proof (Hdef p i Hs) as Hp. rewrite Hu in Hs by done.
    by apply (ev_inputs _ _ Hev p i (ci_U _ HC _ Hp)), uses_ref_input.
  - lia.
  - lia.
  - assert (missing ⊆ got c) as Hsub.
    { intros n [[Hr|(m & Hm & Hs)] _]%Hplan; [by apply Htop, elem_of_dom|].
      pose proof (Hdef m n Hs) as Hmg. apply (Hcl m n Hmg), uses_ref_input. by rewrite <- Hu. }
    exists missing. split_and!.
    + unfold missingInputDrvs. rewrite Ec. fold uses. unfold rebuilds in Em. by rewrite Em.
    + eapply plan_ext; [|exact Hplan]. auto.
    + etrans; [done|apply (ci_U _ HC)].
Qed.
End Farm.

(** * The critical-path hints

    [height] of [loadJobs] (src/src/client/build.cc) gives every job one second more
    than the highest of its dependants. *)

Section Hints.
Context {R : Type} (J : gmap string (LJob.t R)) (rank : string → nat) (B : nat).
Context (J_deps : ∀ p j q, J !! p = Some j → q ∈ LJob.dependants j → q ∈ dom J ∧ rank p < rank q).
Context (J_rank : ∀ p, p ∈ dom J → rank p < B) (B_small : (perDrvMs * N.of_nat B < 2 ^ 64)%N).
Implicit Types h : gmap string N.

(** The jobs with hints; 0 is a hint that is not known yet. *)
Definition hint_of h (p : string) : N := default 0%N (h !! p).
Definition hinted h : gmap string (LJob.t R) := map_imap (λ p j, Some (with_cpHintMs (hint_of h p) j)) J.

Definition max_of (l : list N) : N := foldl N.max 0%N l.

Definition above h (l : list string) : N := max_of (hint_of h <$> l).

Record Hints h : Prop := mkHints {
  hi_eq : ∀ p j, J !! p = Some j → hint_of h p ≠ 0%N →
    hint_of h p = (above h (LJob.dependants j) + perDrvMs)%N ∧
    ∀ q, q ∈ LJob.dependants j → hint_of h q ≠ 0%N;
  hi_bound : ∀ p, (hint_of h p ≤ perDrvMs * N.of_nat (B - rank p))%N;
}.

Definition extends h h' : Prop := ∀ p, hint_of h p ≠ 0%N → hint_of h' p = hint_of h p.

Lemma extends_trans h1 h2 h3 : extends h1 h2 → extends h2 h3 → extends h1 h3.
Proof. intros H1 H2 p Hp. rewrite H2; [by apply H1|]. by rewrite H1. Qed.

Lemma hinted_lookup h p : hinted h !! p = with_cpHintMs (hint_of h p) <$> J !! p.
Proof. unfold hinted. rewrite map_lookup_imap. by destruct (J !! p). Qed.

Lemma hinted_set h p v : alter (with_cpHintMs v) p (hinted h) = hinted (<[p := v]> h).
Proof.
  apply map_eq. intros q. rewrite hinted_lookup. unfold hint_of. destruct (decide (p = q)) as [->|].
  - rewrite lookup_alter_eq, lookup_insert_eq, hinted_lookup. by destruct (J !! q).
  - by rewrite lookup_alter_ne, lookup_insert_ne, hinted_lookup.
Qed.

Lemma above_snoc h l q : above h (l ++ [q]) = N.max (above h l) (hint_of h q).
Proof. unfold above, max_of. by rewrite fmap_app, foldl_app. Qed.

Lemma above_extends h h' l : extends h h' → (∀ q, q ∈ l → hint_of h q ≠ 0%N) → above h' l = above h l.
Proof.
  intros He Hl. unfold above. f_equal. apply list_fmap_ext. intros i q Hq. apply He, Hl, list_elem_of_lookup. by exists i.
Qed.

Lemma above_bound h l n : (∀ q, q ∈ l → (hint_of h q ≤ n)%N) → (above h l ≤ n)%N.
Proof.
  intros Hl. induction l as [|q l IH] using rev_ind; [unfold above, max_of; simpl; lia|].
  rewrite above_snoc.
  assert (hint_of h q ≤ n)%N by (apply Hl; set_solver). assert (above h l ≤ n)%N; [|lia]. apply IH. set_solver.
Qed.

Lemma Hints_set h p j :
  Hints h → J !! p = Some j → (∀ q, q ∈ LJob.dependants j → hint_of h q ≠ 0%N) →
  let v := (above h (LJob.dependants j) + perDrvMs)%N in
  u64 v = v ∧ v ≠ 0%N ∧ Hints (<[p := v]> h) ∧ extends h (<[p := v]> h).
Proof.
  intros HH Hj Hd v. assert (v ≠ 0%N) as Hv0 by (unfold v, perDrvMs; lia).
  assert (v ≤ perDrvMs * N.of_nat (B - rank p))%N as Hvb.
  { assert (above h (LJob.dependants j) ≤ perDrvMs * N.of_nat (B - rank p - 1))%N as Ha.
    { apply above_bound. intros q Hq. destruct (J_deps p j q Hj Hq). etrans; [apply (hi_bound _ HH)|]. unfold perDrvMs. lia. }
    assert (rank p < B) by (apply J_rank, elem_of_dom; by eexists). unfold v, perDrvMs in *. lia. }
  assert (∀ q, hint_of (<[p := v]> h) q = if decide (q = p) then v else hint_of h q) as Hset.
  { intros q. unfold hint_of. case_decide as Hq; [by rewrite Hq, lookup_insert_eq|by rewrite lookup_insert_ne]. }
  assert (extends h (<[p := v]> h)) as Hext.
  { intros q Hq. rewrite Hset. case_decide as Hqp; [|done]. subst q. symmetry. by apply (hi_eq _ HH p j). }
  split_and!; [|done| |done].
  - apply u64_small. assert (B - rank p ≤ B) by lia. unfold perDrvMs in *. lia.
  - split.
    + intros q jq Hq. rewrite Hset. case_decide as Hqp; [subst q; intros _; simplify_eq|intros Hne].
      * split; [unfold v; f_equal; symmetry; by apply above_extends|]. intros q Hin. rewrite Hset. case_decide; auto.
      * destruct (hi_eq _ HH q jq Hq Hne) as [E Hn]. split; [rewrite E; f_equal; symmetry; by apply above_extends|].
        intros r Hr. rewrite Hset. case_decide; auto.
    + intros q. rewrite Hset. case_decide; [by subst|apply (hi_bound _ HH)].
Qed.

Lemma height_spec fuel p h :
  Hints h → p ∈ dom J → B ≤ fuel + rank p →
  wp (height fuel p) (λ v s, ∃ h', s = hinted h' ∧ Hints h' ∧ extends h h' ∧ v = hint_of h' p ∧ v ≠ 0%N) (hinted h).
Proof.
  revert p h. induction fuel as [|fuel IH]; intros p h HH Hp Hf; [pose proof (J_rank p Hp); lia|].
  pose proof Hp as [j Hj]%elem_of_dom. cbn [height]. wp_steps.
  eapply wp_expect; [by rewrite hinted_lookup, Hj|]. simpl. destruct (N.eqb_spec (hint_of h p) 0) as [E0|E0]; simpl.
  2:{ wp_steps. exists h. split_and!; [done|done|intros ?; done|done|done]. }
  wp_steps. eapply wp_mono; [apply (wp_foldM_prefix _ (λ done a s, ∃ h', s = hinted h' ∧ Hints h' ∧ extends h h' ∧
    a = above h' done ∧ ∀ q, q ∈ done → hint_of h' q ≠ 0%N))|].
  - exists h. split_and!; [done|done|by intros ?|done|set_solver].
  - intros done q rest a s El (h' & -> & HH' & Hext & -> & Hd). wp_steps.
    destruct (J_deps p j q Hj) as [Hq Hlt]; [rewrite El; set_solver|].
    eapply wp_mono; [apply (IH q h' HH' Hq); lia|]. intros v s (h'' & -> & HH'' & Hext' & -> & Hv). wp_steps.
    exists h''. split_and!; [done|done|by eapply extends_trans|rewrite above_snoc; f_equal; symmetry; by apply above_extends|].
    intros r [Hr| ->%list_elem_of_singleton]%elem_of_app; [|done]. rewrite Hext'; auto.
  - intros a s (h' & -> & HH' & Hext & -> & Hd). destruct (Hints_set h' p j HH' Hj Hd) as (Eu & Hv & HH'' & Hext').
    unfold on_job. wp_steps. rewrite Eu, hinted_set. eexists. split_and!; [done|done|by eapply extends_trans| |done].
    unfold hint_of. by rewrite lookup_insert_eq.
Qed.

Lemma heights_spec fuel :
  B ≤ fuel → (∀ p j, J !! p = Some j → RJob.cpHintMs (LJob.job j) = 0%N) →
  wp (forM_ (map_to_list J).*1 (λ path, height fuel path;; mret tt))
    (λ _ s, ∃ h, s = hinted h ∧ Hints h ∧ ∀ p, p ∈ dom J → hint_of h p ≠ 0%N) J.
Proof.
  intros Hf H0. assert (J = hinted ∅) as EJ.
  { apply map_eq. intros p. rewrite hinted_lookup. destruct (J !! p) as [[r deps]|] eqn:E; [|done]. simpl.
    pose proof (H0 _ _ E) as E0. simpl in E0. unfold with_cpHintMs, hint_of. simpl. rewrite <- E0. by destruct r. }
  rewrite EJ at 2. eapply wp_mono; [apply (wp_forM_prefix _ (λ done s, ∃ h, s = hinted h ∧ Hints h ∧
    ∀ p, p ∈ done → hint_of h p ≠ 0%N))|].
  - exists ∅. split_and!; [done| |set_solver]. split; [done|]. intros p. unfold hint_of. rewrite lookup_empty. apply N.le_0_l.
  - intros done p rest s El (h & -> & HH & Hd). wp_steps.
    assert (p ∈ dom J) as Hp.
    { assert (p ∈ (map_to_list J).*1) as ([q j] & -> & Hj%elem_of_map_to_list)%list_elem_of_fmap by (rewrite El; set_solver).
      apply elem_of_dom. by eexists. }
    eapply wp_mono; [apply (height_spec fuel p h HH Hp); lia|]. intros v s (h' & -> & HH' & Hext & -> & Hv). wp_steps.
    exists h'. split_and!; [done|done|]. intros q [Hq| ->%list_elem_of_singleton]%elem_of_app; [rewrite Hext; auto|done].
  - intros ? s (h & -> & HH & Hall). exists h. split_and!; [done|done|]. intros p [j Hj]%elem_of_dom. apply Hall.
    apply list_elem_of_fmap. exists (p, j). by rewrite elem_of_map_to_list.
Qed.
End Hints.
