(* ===== verification/LoadJobsProof.v ===== *)
(** * [loadJobs] loads the plan

    The jobs that [loadJobs] (src/src/client/build.cc) makes are the derivations of
    the plan of TopDownBuild.v, linked both ways along their inputs, each with the
    critical-path hint of the chains of dependants above it. *)

From S2P Require Import Prelude Exec ClientRun ClientRunInv ClientGraph TopDown TopDownWalks TopDownBuild.
From S2P Require Import LoadJobs LoadJobsFarm.

Section Load.
Context {R : Type}.
Context (readDerivation : string → result Derivation.t) (outputMap : string → result (gmap string (option string))).
Context (hashPart printStorePath : string → string).
Context (U : gset string) (rank : string → nat) (Hev : eval_ok readDerivation outputMap U rank).
Context (missing : gset string) (missing_U : missing ⊆ U) (buildMode : BuildMode).
Implicit Types J : gmap string (LJob.t R).

Abbreviation drv p := (drv readDerivation p).
Abbreviation inputs_of j := (RJob.inputs (LJob.job j)).
Abbreviation load' fuel p := (load readDerivation outputMap hashPart printStorePath fuel missing buildMode p).

Definition inner_mode : BuildMode := match buildMode with bmRepair => bmRepair | _ => bmNormal end.

(** The inputs that are jobs. *)
Definition job_inputs (p : string) : list string := filter (λ i, i ∈ missing) (forInputDrvs (drv p)).

Record LInv J : Prop := mkLInv {
  li_in : dom J ⊆ missing;
  li_job : ∀ p j, J !! p = Some j → farmed readDerivation outputMap hashPart missing p (LJob.job j);
  li_inputs : ∀ p j i, J !! p = Some j → i ∈ inputs_of j → i ∈ dom J ∧ i ∈ job_inputs p;
  li_deps : ∀ p j q, J !! p = Some j → q ∈ LJob.dependants j ↔ ∃ jq, J !! q = Some jq ∧ p ∈ inputs_of jq;
}.

(** The jobs of [J] stay as they are up to their dependants, and the new ones other than
    [x] are complete. *)
Record LMore (x : option string) J J' : Prop := mkLMore {
  lm_inv : LInv J';
  lm_hint : ∀ p j, J' !! p = Some j → p ∉ dom J → RJob.cpHintMs (LJob.job j) = 0%N;
  lm_old : ∀ p j, J !! p = Some j → ∃ j', J' !! p = Some j' ∧ LJob.job j' = LJob.job j;
  lm_new : ∀ p j', J' !! p = Some j' → p ∉ dom J → Some p ≠ x →
    inputs_of j' = job_inputs p ∧ RJob.mode (LJob.job j') = mode_code inner_mode;
}.

Lemma LMore_refl x J : LInv J → LMore x J J.
Proof. intros HJ. split; [done| |naive_solver|]; intros p j ? []; by apply elem_of_dom. Qed.

Lemma LMore_dom x J J' : LMore x J J' → dom J ⊆ dom J'.
Proof. intros HM p [j Hj]%elem_of_dom. destruct (lm_old _ _ _ HM p j Hj) as (j' & ? & _). by apply elem_of_dom. Qed.

Lemma LMore_trans x J1 J2 J3 : LMore x J1 J2 → LMore None J2 J3 → LMore x J1 J3.
Proof.
  intros HM1 HM2. split.
  - by destruct HM2.
  - intros p j Hp Hn. destruct (decide (p ∈ dom J2)) as [[j2 H2]%elem_of_dom|]; [|by apply (lm_hint _ _ _ HM2 p j)].
    destruct (lm_old _ _ _ HM2 p j2 H2) as (j' & ? & E). simplify_eq. rewrite E. by apply (lm_hint _ _ _ HM1 p j2).
  - intros p j Hj. destruct (lm_old _ _ _ HM1 p j Hj) as (j2 & H2 & <-). by apply (lm_old _ _ _ HM2).
  - intros p j Hp Hn Hx. destruct (decide (p ∈ dom J2)) as [[j2 H2]%elem_of_dom|]; [|by apply (lm_new _ _ _ HM2)].
    destruct (lm_old _ _ _ HM2 p j2 H2) as (j' & ? & E). simplify_eq. rewrite E. by apply (lm_new _ _ _ HM1 p j2).
Qed.

(** ** A new job and its links *)

Lemma LInv_insert J p job :
  LInv J → p ∉ dom J → p ∈ missing → farmed readDerivation outputMap hashPart missing p job → RJob.inputs job = [] →
  LInv (<[p := LJob.mk job []]> J).
Proof.
  intros [Hin Hjob Hinp Hdep] Hn Hm Hf Hi. split.
  - rewrite dom_insert_L. set_solver.
  - intros q j. rewrite lookup_insert_Some. intros [[<- <-]|[_ ?]]; auto.
  - intros q j i. rewrite lookup_insert_Some, dom_insert_L. intros [[<- <-]|[_ Hj]]; simpl.
    + rewrite Hi. set_solver.
    + intros Hii. destruct (Hinp q j i Hj Hii). split; [set_solver|done].
  - intros q j r. rewrite lookup_insert_Some. setoid_rewrite lookup_insert_Some. intros [[<- <-]|[Hne Hj]]; simpl.
    + split; [set_solver|]. intros (jr & [[_ <-]|[_ Hr]] & Hpr); [simpl in Hpr; rewrite Hi in Hpr; set_solver|].
      destruct (Hinp r jr p Hr Hpr). set_solver.
    + rewrite (Hdep q j r Hj). split; [intros (jr & Hr & Hq)|intros (jr & [[_ <-]|[_ Hr]] & Hq)].
      * exists jr. split; [right; split; [|done]|done]. intros ->. destruct Hn. by apply elem_of_dom.
      * simpl in Hq. rewrite Hi in Hq. set_solver.
      * by exists jr.
Qed.

Definition link (p i : string) J : gmap string (LJob.t R) := alter (push_input i) p (alter (push_dependant p) i J).

Lemma link_lookup p i J q j :
  i ≠ p → link p i J !! q = Some j ↔ ∃ j0, J !! q = Some j0 ∧
    inputs_of j = (if decide (q = p) then inputs_of j0 ++ [i] else inputs_of j0) ∧
    LJob.dependants j = (if decide (q = i) then LJob.dependants j0 ++ [p] else LJob.dependants j0) ∧
    j = (if decide (q = p) then push_input i j0 else if decide (q = i) then push_dependant p j0 else j0).
Proof.
  intros Hne. unfold link. destruct (decide (q = p)) as [->|]; [|destruct (decide (q = i)) as [->|]].
  - destruct (decide (p = i)); [by subst|]. rewrite lookup_alter_eq, lookup_alter_ne, fmap_Some by done. naive_solver.
  - rewrite lookup_alter_ne, lookup_alter_eq, fmap_Some by done. naive_solver.
  - rewrite !lookup_alter_ne by done. naive_solver.
Qed.

Lemma LInv_link p i J :
  LInv J → i ≠ p → i ∈ dom J → p ∈ dom J → i ∈ job_inputs p → LInv (link p i J).
Proof.
  intros [Hin Hjob Hinp Hdep] Hne Hi Hp Hip.
  assert (dom (link p i J) = dom J) as Ed by (unfold link; by rewrite !dom_alter_L). split.
  - by rewrite Ed.
  - intros q j (j0 & H0 & _ & _ & ->)%link_lookup; [|done]. pose proof (Hjob q j0 H0) as [].
    destruct (decide (q = p)); [by split|]. destruct (decide (q = i)); by split.
  - intros q j r (j0 & H0 & -> & _)%link_lookup; [|done]. rewrite Ed. case_decide as Hq; [|by apply Hinp].
    subst q. intros [Hr| ->%list_elem_of_singleton]%elem_of_app; [by eapply Hinp|done].
  - intros q j r (j0 & H0 & _ & -> & _)%link_lookup; [|done]. specialize (Hdep q j0 r H0).
    assert ((∃ jr, link p i J !! r = Some jr ∧ q ∈ inputs_of jr) ↔
      (∃ jr, J !! r = Some jr ∧ q ∈ inputs_of jr) ∨ r = p ∧ q = i) as ->.
    { split.
      - intros (jr & (jr0 & Hr & -> & _)%link_lookup & Hq); [|done]. case_decide as Hrp; [|by left; exists jr0].
        apply elem_of_app in Hq as [Hq| ->%list_elem_of_singleton]; [left; by exists jr0|by right].
      - assert (∀ jr0, J !! r = Some jr0 → ∃ jr, link p i J !! r = Some jr ∧
          inputs_of jr = (if decide (r = p) then inputs_of jr0 ++ [i] else inputs_of jr0)) as Hex.
        { intros jr0 Hr. assert (is_Some (link p i J !! r)) as [jr Hjr] by (apply elem_of_dom; rewrite Ed; by apply elem_of_dom).
          exists jr. split; [done|]. apply link_lookup in Hjr as (? & ? & ? & _); [by simplify_eq|done]. }
        intros [(jr0 & Hr & Hq)|[-> ->]].
        + destruct (Hex jr0 Hr) as (jr & ? & E). exists jr. split; [done|]. rewrite E. case_decide; set_solver.
        + apply elem_of_dom in Hp as [jp Hjp]. destruct (Hex jp Hjp) as (jr & ? & E). exists jr. split; [done|].
          rewrite E, decide_True by done. set_solver. }
    rewrite <- Hdep. case_decide as Hq; [rewrite elem_of_app, list_elem_of_singleton|]; naive_solver.
Qed.

(** ** [load] *)

Lemma load_input_spec fuel p i J :
  (∀ J, LInv J → wp (load' fuel i) (λ _ J', LMore None J J' ∧ i ∈ dom J') J) →
  LInv J → i ≠ p → p ∈ dom J → i ∈ job_inputs p →
  wp (load' fuel i;; on_job i (push_dependant p);; on_job p (push_input i))
    (λ _ J', ∃ J1, LMore None J J1 ∧ J' = link p i J1 ∧ LInv J' ∧ i ∈ dom J1) J.
Proof.
  intros Hl HJ Hne Hp Hi. wp_steps. eapply wp_mono; [by apply Hl|]. intros ? J1 [HM HiJ]. unfold on_job. wp_steps.
  exists J1. split_and!; [done|done| |done]. pose proof (LMore_dom _ _ _ HM). apply LInv_link; [by destruct HM|done|done|set_solver|done].
Qed.

Lemma link_other p i J q j : i ≠ p → q ≠ p → link p i J !! q = Some j → ∃ j0, J !! q = Some j0 ∧ LJob.job j = LJob.job j0.
Proof.
  intros Hne Hq (j0 & H0 & _ & _ & ->)%link_lookup; [|done]. exists j0. split; [done|].
  rewrite decide_False by done. by case_decide.
Qed.

Lemma link_keeps p i J q j0 : i ≠ p → q ≠ p → J !! q = Some j0 → ∃ j, link p i J !! q = Some j ∧ LJob.job j = LJob.job j0.
Proof.
  intros Hne Hq H0. assert (is_Some (link p i J !! q)) as [j Hj].
  { apply elem_of_dom. unfold link. rewrite !dom_alter_L. by apply elem_of_dom. }
  exists j. split; [done|]. destruct (link_other _ _ _ _ _ Hne Hq Hj) as (? & ? & ?). by simplify_eq.
Qed.

Lemma LMore_link p i J J1 :
  LMore (Some p) J J1 → p ∉ dom J → i ≠ p → LInv (link p i J1) → LMore (Some p) J (link p i J1).
Proof.
  intros HM Hp Hne HJ. split; [done|..].
  - intros q j (j0 & H0 & _ & _ & ->)%link_lookup Hq; [|done]. pose proof (lm_hint _ _ _ HM q j0 H0 Hq).
    destruct (decide (q = p)); [done|]. by destruct (decide (q = i)).
  - intros q j Hj. destruct (lm_old _ _ _ HM q j Hj) as (j1 & H1 & <-). apply link_keeps; [done| |done].
    intros ->. destruct Hp. by apply elem_of_dom.
  - intros q j Hj Hq Hx. destruct (link_other p i J1 q j) as (j0 & H0 & E); [done|congruence|done|].
    rewrite E. by apply (lm_new _ _ _ HM q j0).
Qed.

Lemma start_job J p job :
  LInv J → p ∉ dom J → p ∈ missing → farmed readDerivation outputMap hashPart missing p job →
  RJob.inputs job = [] → RJob.cpHintMs job = 0%N →
  let J1 := alter (with_mode inner_mode) p (<[p := LJob.mk job []]> J) in
  LMore (Some p) J J1 ∧
  ∃ j, J1 !! p = Some j ∧ inputs_of j = [] ∧ RJob.mode (LJob.job j) = mode_code inner_mode.
Proof.
  intros HJ Hp Hm Hf Hi Hh. cbv zeta. rewrite alter_insert_eq. set (j := with_mode inner_mode _).
  assert (LInv (<[p := j]> J)) as HI by (apply LInv_insert; [done..|by destruct Hf; split|done]).
  split; [split; [done|..]|].
  - intros q j'. rewrite lookup_insert_Some. intros [[<- <-]|[_ Hj]] Hq; [done|]. destruct Hq. by apply elem_of_dom.
  - intros q j' Hj. exists j'. rewrite lookup_insert_ne; [done|]. intros ->. destruct Hp. by apply elem_of_dom.
  - intros q j'. rewrite lookup_insert_Some. intros [[<- <-]|[_ Hj]] Hq; [done|]. destruct Hq. by apply elem_of_dom.
  - exists j. by rewrite lookup_insert_eq.
Qed.

Lemma load_spec fuel p J :
  LInv J → p ∈ missing → rank p < fuel → wp (load' fuel p) (λ _ J', LMore None J J' ∧ p ∈ dom J') J.
Proof.
  revert p J. induction fuel as [|fuel IH]; intros p J HJ Hm Hf; [lia|]. cbn [load]. wp_steps.
  case_decide as Hs; wp_steps; [split; [by apply LMore_refl|by apply elem_of_dom]|].
  assert (p ∈ U) as HpU by set_solver. assert (p ∉ dom J) as Hp by (by rewrite elem_of_dom).
  eapply wp_of_result; [by apply (ev_drv _ _ _ _ Hev)|]. wp_steps.
  eapply (farmJob_spec _ _ _ _ _ _ Hev p missing); [done|]. intros job Hf' Hi Hh. wp_steps. unfold on_job. wp_steps.
  destruct (start_job J p job HJ Hp Hm Hf' Hi Hh) as (HM1 & Hj1).
  eapply wp_mono; [apply (wp_forM_prefix _ (λ done J', LMore (Some p) J J' ∧ ∃ j, J' !! p = Some j ∧
    inputs_of j = filter (λ i, i ∈ missing) done ∧ RJob.mode (LJob.job j) = mode_code inner_mode)); [done|]|].
  - intros done i rest J' El (HM & j & Hj & Hin & Hmode). rewrite filter_app, filter_cons, filter_nil.
    case_bool_decide as Him; [rewrite decide_True by done|rewrite decide_False, app_nil_r by done; wp_steps; split; [done|by exists j]].
    destruct (ev_inputs _ _ _ _ Hev p i HpU) as [HiU Hlt]; [rewrite El; set_solver|].
    assert (i ≠ p) as Hne by (intros ->; lia).
    eapply wp_mono; [apply load_input_spec; [|by destruct HM|done|by apply elem_of_dom|]|].
    + intros J2 HJ2. apply IH; [done|done|lia].
    + apply list_elem_of_filter. split; [done|]. rewrite El. set_solver.
    + intros ? ? (J1 & HM' & -> & HI & _). split; [apply LMore_link; [by eapply LMore_trans|done..]|].
      destruct (lm_old _ _ _ HM' p j Hj) as (j1 & H1 & E1). exists (push_input i j1).
      unfold link. rewrite lookup_alter_eq, lookup_alter_ne, H1 by done. simpl. rewrite E1. split_and!; [done|by rewrite Hin|done].
  - intros ? J' (HM & j & Hj & Hin & Hmode). split; [|by apply elem_of_dom; eexists].
    destruct HM as [HI Hhint Hold Hnew]. split; [done|done|done|]. intros q j' Hq Hqn _.
    destruct (decide (q = p)) as [->|]; [by simplify_eq|]. apply Hnew; [done|done|congruence].
Qed.

(** ** The requests *)

Definition requested (reqs : list DerivedPath) (p : string) : Prop := ∃ req, req ∈ reqs ∧ requests req p.

(** No request is for the output of a derivation that has to be built first. *)
Definition static_request (req : DerivedPath) : Prop :=
  match req with DBuilt (SBuilt _ _) _ => False | _ => True end.

Record Requested (reqs : list DerivedPath) J : Prop := mkRequested {
  rq_inv : LInv J;
  rq_full : ∀ p j, J !! p = Some j → inputs_of j = job_inputs p ∧ RJob.cpHintMs (LJob.job j) = 0%N;
  rq_mode : ∀ p j, J !! p = Some j →
    (requested reqs p → RJob.mode (LJob.job j) = mode_code buildMode) ∧
    (¬ requested reqs p → RJob.mode (LJob.job j) = mode_code inner_mode);
  rq_all : ∀ p, requested reqs p → p ∈ missing → p ∈ dom J;
}.

Lemma requested_snoc reqs req p : requested (reqs ++ [req]) p ↔ requested reqs p ∨ requests req p.
Proof. unfold requested. setoid_rewrite elem_of_app. setoid_rewrite list_elem_of_singleton. naive_solver. Qed.

Lemma Requested_other reqs req J :
  Requested reqs J → (∀ p, requests req p → p ∉ missing) → Requested (reqs ++ [req]) J.
Proof.
  intros [HI Hfull Hmode Hall] Hn. split; [done|done|..].
  - intros p j Hj. rewrite requested_snoc. destruct (Hmode p j Hj) as [H1 H2]. split; [|naive_solver].
    intros [?|Hr]; [auto|]. destruct (Hn p Hr). apply (li_in _ HI), elem_of_dom. by eexists.
  - intros p. rewrite requested_snoc. intros [?|Hr] ?; [auto|naive_solver].
Qed.

Lemma LInv_mode J p m : LInv J → LInv (alter (with_mode m) p J).
Proof.
  intros [Hin Hjob Hinp Hdep]. assert (dom (alter (with_mode m) p J) = dom J) as Ed by by rewrite dom_alter_L.
  assert (∀ q j, alter (with_mode m) p J !! q = Some j → ∃ j0, J !! q = Some j0 ∧ inputs_of j = inputs_of j0 ∧
    LJob.dependants j = LJob.dependants j0 ∧ (j = j0 ∨ j = with_mode m j0)) as Hl.
  { intros q j. rewrite lookup_alter_Some. intros [(-> & j0 & ? & ->)|[_ ?]]; eauto 10. }
  split; [by rewrite Ed|..].
  - intros q j (j0 & H0 & _ & _ & [-> | ->])%Hl; [auto|]. pose proof (Hjob q j0 H0) as []. by split.
  - intros q j i (j0 & H0 & -> & _)%Hl. rewrite Ed. eauto.
  - intros q j r (j0 & H0 & _ & -> & _)%Hl. rewrite (Hdep q j0 r H0). split.
    + intros (jr & Hr & Hq). assert (is_Some (alter (with_mode m) p J !! r)) as [jr' Hr'].
      { apply elem_of_dom. rewrite Ed. by apply elem_of_dom. }
      exists jr'. split; [done|]. apply Hl in Hr' as (? & ? & -> & _). by simplify_eq.
    + intros (jr & (jr0 & Hr & E & _)%Hl & Hq). exists jr0. by rewrite <- E.
Qed.

Context (to_string : DerivedPath → string).

Lemma load_request_spec fuel reqs req J :
  Requested reqs J → static_request req → (∀ p, p ∈ missing → rank p < fuel) →
  wp (load_request readDerivation outputMap hashPart printStorePath to_string fuel missing buildMode req)
    (λ _ J', Requested (reqs ++ [req]) J') J.
Proof.
  intros HR Hst Hf. destruct req as [path|[path|d o] outputs]; simpl; [wp_steps; by apply Requested_other| |done].
  case_decide as Hm; wp_steps; [|apply Requested_other; [done|by intros p <-]].
  eapply wp_mono; [apply load_spec; [by destruct HR|done|auto]|]. intros ? J1 [HM Hp]. unfold on_job. wp_steps.
  assert (∀ p j, alter (with_mode buildMode) path J1 !! p = Some j → ∃ j1, J1 !! p = Some j1 ∧
    j = (if decide (p = path) then with_mode buildMode j1 else j1)) as Hl.
  { intros p j. rewrite lookup_alter_Some. destruct (decide (p = path)) as [->|]; naive_solver. }
  assert (∀ p j1, J1 !! p = Some j1 → inputs_of j1 = job_inputs p ∧ RJob.cpHintMs (LJob.job j1) = 0%N ∧
    (p ≠ path → (requested reqs p → RJob.mode (LJob.job j1) = mode_code buildMode) ∧
                (¬ requested reqs p → RJob.mode (LJob.job j1) = mode_code inner_mode))) as HJ1.
  { intros p j1 H1. destruct (decide (p ∈ dom J)) as [[j Hj]%elem_of_dom|Hn].
    - destruct (lm_old _ _ _ HM p j Hj) as (? & ? & E). simplify_eq. rewrite E.
      destruct (rq_full _ _ HR p j Hj). pose proof (rq_mode _ _ HR p j Hj). auto.
    - destruct (lm_new _ _ _ HM p j1 H1 Hn) as [E1 E2]; [done|]. split_and!; [done|by apply (lm_hint _ _ _ HM p)|].
      intros _. split; [|done]. intros Hr. destruct Hn. apply (rq_all _ _ HR p Hr). apply (li_in _ (lm_inv _ _ _ HM)), elem_of_dom. by eexists. }
  split.
  - apply LInv_mode. by destruct HM.
  - intros p j (j1 & H1 & ->)%Hl. destruct (HJ1 p j1 H1) as (? & ? & _). by case_decide.
  - intros p j (j1 & H1 & ->)%Hl. destruct (HJ1 p j1 H1) as (_ & _ & Hm'). rewrite requested_snoc. simpl.
    case_decide as Hpp; [split; [done|]; subst; tauto|]. destruct (Hm' Hpp). split; [|tauto]. intros [?| ->]; [auto|done].
  - intros p. rewrite requested_snoc, dom_alter_L. pose proof (LMore_dom _ _ _ HM).
    intros [Hr| <-] Hpm; [|done]. pose proof (rq_all _ _ HR p Hr Hpm). set_solver.
Qed.

Lemma load_requests_spec fuel reqs :
  Forall static_request reqs → (∀ p, p ∈ missing → rank p < fuel) →
  wp (forM_ reqs (load_request readDerivation outputMap hashPart printStorePath to_string fuel missing buildMode))
    (λ _ J, Requested reqs J) (∅ : gmap string (LJob.t R)).
Proof.
  intros Hst Hf. apply (wp_forM_prefix _ (λ done J, Requested done J)).
  - split; [split|..]; [set_solver..| |unfold requested; set_solver]. intros p j. by rewrite lookup_empty.
  - intros done req rest J El HR. apply load_request_spec; [done| |done].
    rewrite Forall_forall in Hst. apply Hst. rewrite El. set_solver.
Qed.

Lemma Requested_deps reqs J p j q :
  Requested reqs J → J !! p = Some j → q ∈ LJob.dependants j → q ∈ dom J ∧ rank p < rank q.
Proof.
  intros HR Hj Hq. apply (li_deps _ (rq_inv _ _ HR) p j q Hj) in Hq as (jq & Hjq & Hp).
  assert (q ∈ dom J) as Hqd by (apply elem_of_dom; by eexists). split; [done|].
  destruct (li_inputs _ (rq_inv _ _ HR) q jq p Hjq Hp) as [_ [_ Hin]%list_elem_of_filter].
  apply (ev_inputs _ _ _ _ Hev q p); [|done]. pose proof (li_in _ (rq_inv _ _ HR)). set_solver.
Qed.

(** Every derivation of a plan is reached from the requests. *)
Lemma Requested_all avail reqs J :
  Requested reqs J → plan (tops_of outputMap reqs) (rebuilds buildMode) (uses_ref readDerivation outputMap) avail missing →
  dom J = missing.
Proof.
  intros HR Hplan. pose proof (li_in _ (rq_inv _ _ HR)) as Hin. apply set_eq. intros n. split; [set_solver|]. intros Hn.
  apply dec_stable. intros Hnot. destruct (highest rank (missing ∖ dom J)) as (m & Hm & Hmax); [set_solver|].
  apply elem_of_difference in Hm as [Hm Hmn]. apply Hmn. apply Hplan in Hm as Hneed.
  destruct Hneed as [[Hr%elem_of_dom%elem_of_tops|(u & Hu & Hs%uses_ref_input)] _]; [by apply (rq_all _ _ HR)|].
  assert (rank m < rank u) by (apply (ev_inputs _ _ _ _ Hev u m); [set_solver|done]).
  assert (u ∈ dom J) as [ju Hju]%elem_of_dom.
  { apply dec_stable. intros Hun. specialize (Hmax u). assert (u ∈ missing ∖ dom J) as ?%Hmax by set_solver. lia. }
  apply (li_inputs _ (rq_inv _ _ HR) u ju); [done|]. destruct (rq_full _ _ HR u ju Hju) as [-> _].
  apply list_elem_of_filter. done.
Qed.
End Load.

(** ** [loadJobs] *)

Section Main.
Context {R : Type}.
Context (readDerivation : string → result Derivation.t) (outputMap : string → result (gmap string (option string))).
Context (hashPart printStorePath : string → string) (to_string : DerivedPath → string).
Context (reqs : list DerivedPath) (buildMode : BuildMode).

(** A job among [jobs]: what it builds and its place in the graph. *)
Record loaded (jobs : gmap string (LJob.t R)) (p : string) (j : LJob.t R) : Prop := mkLoaded {
  lo_farmed : farmed readDerivation outputMap hashPart (dom jobs) p (LJob.job j);
  lo_inputs : RJob.inputs (LJob.job j) = filter (λ i, i ∈ dom jobs) (forInputDrvs (drv readDerivation p));
  lo_dependants : ∀ q, q ∈ LJob.dependants j ↔ ∃ jq, jobs !! q = Some jq ∧ p ∈ RJob.inputs (LJob.job jq);
  lo_hint : RJob.cpHintMs (LJob.job j) =
    (max_of ((λ q, default 0 ((λ jq, RJob.cpHintMs (LJob.job jq)) <$> jobs !! q)) <$> LJob.dependants j) + perDrvMs)%N;
  lo_requested : requested reqs p → RJob.mode (LJob.job j) = mode_code buildMode;
  lo_inner : ¬ requested reqs p → RJob.mode (LJob.job j) = mode_code (inner_mode buildMode);
}.

Lemma dom_hinted (J : gmap string (LJob.t R)) h : dom (hinted J h) = dom J.
Proof. apply set_eq. intros p. by rewrite !elem_of_dom, hinted_lookup, fmap_is_Some. Qed.

Lemma loaded_hinted rank B h (J : gmap string (LJob.t R)) p j :
  Requested readDerivation outputMap hashPart (dom J) buildMode reqs J → Hints J rank B h →
  (∀ p, p ∈ dom J → hint_of h p ≠ 0%N) → hinted J h !! p = Some j → loaded (hinted J h) p j.
Proof.
  intros HR HH Hall. rewrite hinted_lookup, fmap_Some. intros (j0 & H0 & ->).
  destruct (rq_full _ _ _ _ _ _ _ HR p j0 H0) as [Hi _]. destruct (rq_mode _ _ _ _ _ _ _ HR p j0 H0) as [Hm1 Hm2].
  pose proof (rq_inv _ _ _ _ _ _ _ HR) as HI. split; rewrite ?dom_hinted; [|done| | |done|done].
  - pose proof (li_job _ _ _ _ _ HI p j0 H0) as []. by split.
  - intros q. simpl. rewrite (li_deps _ _ _ _ _ HI p j0 q H0). setoid_rewrite hinted_lookup.
    setoid_rewrite fmap_Some. split; [intros (jq & ? & ?); by eexists; eauto|]. intros (? & (jq & ? & ->) & ?). by exists jq.
  - simpl. destruct (hi_eq _ _ _ _ HH p j0 H0) as [-> _]; [apply Hall, elem_of_dom; by eexists|].
    unfold above. do 2 f_equal. apply list_fmap_ext. intros i q Hq. rewrite hinted_lookup.
    assert (q ∈ LJob.dependants j0) as (jq & -> & _)%(li_deps _ _ _ _ _ HI p j0 q H0)
      by (apply list_elem_of_lookup; by exists i). done.
Qed.

Lemma loaded_graph U rank (jobs : gmap string (LJob.t R)) :
  eval_ok readDerivation outputMap U rank → dom jobs ⊆ U →
  (∀ p, p ∈ U → (N.of_nat (length (forInputDrvs (drv readDerivation p))) < 2 ^ 64)%N) →
  (N.of_nat (size U) < 2 ^ 32)%N → (∀ p j, jobs !! p = Some j → loaded jobs p j) →
  graph_ok rank (LJob.job <$> jobs).
Proof.
  intros Hev HU Hmany Hsmall Hl.
  assert (∀ p job, (LJob.job <$> jobs) !! p = Some job → ∃ j, job = LJob.job j ∧ loaded jobs p j ∧ p ∈ U) as Hlk.
  { intros p job. rewrite lookup_fmap, fmap_Some. intros (j & Hj & ->). exists j. split_and!; [done|auto|].
    apply HU, elem_of_dom. by eexists. }
  split.
  - intros p job (j & -> & [Hf] & _)%Hlk. by destruct Hf.
  - intros p job i (j & -> & [Hf Hi] & HpU)%Hlk. rewrite Hi, list_elem_of_filter, lookup_fmap, fmap_is_Some, elem_of_dom.
    intros [? Hin]. split; [done|]. by apply (ev_inputs _ _ _ _ Hev p i).
  - intros p job (j & -> & [Hf] & HpU)%Hlk. intros path d Hd. destruct Hf as [Hpath _ _ _ _ Hfarm _ _ _].
    rewrite Hpath. destruct (Hfarm path d Hd) as (Hin & _ & _). by apply (ev_inputs _ _ _ _ Hev p d).
  - intros p job (j & -> & [_ Hi] & HpU)%Hlk. unfold vlen. rewrite Hi.
    pose proof (Hmany p HpU). pose proof (length_filter (λ i, i ∈ dom jobs) (forInputDrvs (drv readDerivation p))). lia.
  - intros p job (j & -> & [Hf] & _)%Hlk. by destruct Hf.
  - rewrite map_size_fmap, <- size_dom. pose proof (subseteq_size _ _ HU). lia.
Qed.

Lemma bind_Ok {S A B'} (m : M S A) (f : A → M S B') s s' a : m s = (s', Ok a) → (m ≫= f) s = f a s'.
Proof. intros E. unfold mbind, M_bind. by rewrite E. Qed.

Lemma loadJobs_spec (U : gset string) (rank : string → nat) B fuel query fetch avail :
  eval_ok readDerivation outputMap U rank →
  (∀ ks k, k ∈ query ks → k ∈ avail) → (∀ ks k, k ∈ fetch ks ↔ k ∈ ks ∧ k ∈ avail) →
  Forall static_request reqs → (∀ p, requested reqs p → p ∈ U) →
  (∀ p, p ∈ U → rank p < B ∧ (N.of_nat (length (forInputDrvs (drv readDerivation p))) < 2 ^ 64)%N) →
  (perDrvMs * N.of_nat B < 2 ^ 64)%N → (N.of_nat (size U) < 2 ^ 32)%N →
  B ≤ fuel → 2 * size U + weight (uses_ref readDerivation outputMap) U ≤ fuel →
  ∃ jobs : gmap string (LJob.t R),
    loadJobs readDerivation outputMap hashPart printStorePath to_string fuel query fetch reqs buildMode ∅ = (jobs, Ok tt) ∧
    plan (tops_of outputMap reqs) (rebuilds buildMode) (uses_ref readDerivation outputMap) avail (dom jobs) ∧
    (∀ p j, jobs !! p = Some j → loaded jobs p j) ∧
    graph_ok rank (LJob.job <$> jobs).
Proof.
  intros Hev Hq Hf Hst Hreq HU HB Hsmall HBf Hfuel.
  destruct (missingInputDrvs_spec readDerivation outputMap hashPart printStorePath U rank Hev fuel query fetch avail reqs buildMode
    (∅ : gmap string (LJob.t R))) as (missing & Em & Hplan & HmU); [done|done| | |lia|done|].
  { intros req p ? ?. apply Hreq. by exists req. }
  { intros p [? _]%HU. lia. }
  destruct (load_requests_spec (R := R) readDerivation outputMap hashPart printStorePath U rank Hev missing HmU buildMode to_string
    fuel reqs Hst) as ([] & J & EJ & HR); [intros p Hp%HmU; destruct (HU p Hp); lia|].
  pose proof (Requested_all _ _ _ printStorePath U rank Hev missing HmU buildMode avail reqs J HR Hplan) as <-.
  destruct (heights_spec J rank B) with (fuel := fuel) as ([] & jobs & Ej & h & -> & HH & Hall).
  - intros p j q. by eapply Requested_deps.
  - intros p Hp%HmU. by apply HU.
  - done.
  - done.
  - intros p j Hj. by apply (rq_full _ _ _ _ _ _ _ HR p j Hj).
  - assert (∀ p j, hinted J h !! p = Some j → loaded (hinted J h) p j) as Hl by (intros p j; by eapply loaded_hinted).
    exists (hinted J h). split_and!; [|by rewrite dom_hinted|done|].
    + unfold loadJobs. rewrite (bind_Ok _ _ _ _ _ Em), (bind_Ok _ _ _ _ _ EJ). exact Ej.
    + eapply loaded_graph; [done|by rewrite dom_hinted| |done|done]. intros p Hp. by apply HU.
Qed.

(** C33. For a request whose derivations the eval store has, with statically known
    paths, [loadJobs] returns, and its jobs are exactly the derivations nix would
    build.  Each carries the paths its derivation uses, has the jobs among its inputs
    as inputs and the jobs that use it as dependants, leaves the outputs of its other
    inputs to the farm, is hinted one second above the highest job that waits for it,
    and has the mode that was asked for: --repair reaches the inputs, --check does
    not.  The graph is one a client run can start from. *)
Theorem loadJobs_plan (U : gset string) (rank : string → nat) B fuel query fetch avail :
  eval_ok readDerivation outputMap U rank →
  (∀ ks k, k ∈ query ks → k ∈ avail) → (∀ ks k, k ∈ fetch ks ↔ k ∈ ks ∧ k ∈ avail) →
  Forall static_request reqs → (∀ p, requested reqs p → p ∈ U) →
  (∀ p, p ∈ U → rank p < B ∧ (N.of_nat (length (forInputDrvs (drv readDerivation p))) < 2 ^ 64)%N) →
  (perDrvMs * N.of_nat B < 2 ^ 64)%N → (N.of_nat (size U) < 2 ^ 32)%N →
  B ≤ fuel → 2 * size U + weight (uses_ref readDerivation outputMap) U ≤ fuel →
  ∃ jobs : gmap string (LJob.t R),
    loadJobs readDerivation outputMap hashPart printStorePath to_string fuel query fetch reqs buildMode ∅ = (jobs, Ok tt) ∧
    plan (tops_of outputMap reqs) (rebuilds buildMode) (uses_ref readDerivation outputMap) avail (dom jobs) ∧
    (∀ p j, jobs !! p = Some j → loaded jobs p j) ∧
    graph_ok rank (LJob.job <$> jobs).
Proof. apply loadJobs_spec. Qed.

(** ** The results *)

Lemma tops_wanted d outputs :
  DBuilt d outputs ∈ reqs →
  ∃ ks, tops_of outputMap reqs !! getBaseStorePath d = Some ks ∧
    ∀ name path, wanted outputMap d outputs !! name = Some path → path ∈ ks.
Proof.
  unfold tops_of. induction reqs as [|req l IH] using rev_ind; [by intros ?%elem_of_nil|]. rewrite foldl_snoc.
  intros [Hin|Heq%list_elem_of_singleton]%elem_of_app.
  - destruct (IH Hin) as (ks & Hks & Hall). destruct req as [p|d' o']; [by exists ks|]. simpl.
    destruct (decide (getBaseStorePath d' = getBaseStorePath d)) as [->|].
    + rewrite lookup_insert_eq, Hks. eexists. split; [done|]. intros name path Hp. apply elem_of_app. left. eauto.
    + rewrite lookup_insert_ne by done. by exists ks.
  - subst req. simpl. rewrite lookup_insert_eq. eexists. split; [done|]. intros name path Hp. apply elem_of_app. right.
    apply list_elem_of_fmap. exists (name, path). by rewrite elem_of_map_to_list.
Qed.

(** What the answer to a request says. *)
Definition answers (br : BuildResults (R := R)) (avail : gset string) (jobs : gmap string (RJob.t R)) (req : DerivedPath) (r : R)
    : Prop :=
  match req with
  | DBuilt d outputs =>
      match jobs !! getBaseStorePath d with
      | Some job => Some r = RJob.result job
      | None =>
          let w := wanted outputMap d outputs in
          r = alreadyValid br (getBaseStorePath d) w ∧ ∀ name path, w !! name = Some path → path ∈ avail
      end
  | DOpaque path => r = (if decide (path ∈ avail) then setAlreadyValid br
      else failed br MiscFailure ("path '" +:+ to_string req +:+ "' does not exist and cannot be substituted"))
  end.

Lemma request_result_spec {S} (br : BuildResults) (s : S) avail fetch (jobs : gmap string (RJob.t R)) missing req :
  (∀ ks k, k ∈ fetch ks ↔ k ∈ ks ∧ k ∈ avail) →
  plan (tops_of outputMap reqs) (rebuilds buildMode) (uses_ref readDerivation outputMap) avail missing →
  missing ⊆ dom jobs → (∀ p job, jobs !! p = Some job → is_Some (RJob.result job)) →
  (∀ p, requested reqs p → outputMap p = Ok (outs outputMap p)) → req ∈ reqs →
  wp (request_result outputMap to_string br jobs
        (if decide (opaque_paths reqs = ∅) then ∅ else fetch (opaque_paths reqs)) req)
    (λ r s', s' = s ∧ answers br avail jobs req r) s.
Proof.
  intros Hf Hplan Hdom Hres Houts Hin. unfold request_result, answers. destruct req as [path|d outputs].
  - apply wp_ret. split; [done|]. assert (path ∈ opaque_paths reqs) as Hop.
    { apply elem_of_list_to_set, list_elem_of_omap. by exists (DOpaque path). }
    destruct (decide (opaque_paths reqs = ∅)) as [He|_]; [set_solver|].
    destruct (decide (path ∈ avail)); [by rewrite decide_True by by apply Hf|].
    rewrite decide_False; [done|]. rewrite Hf. naive_solver.
  - destruct (jobs !! getBaseStorePath d) as [job|] eqn:Ej.
    { apply wp_ret. split; [done|]. destruct (Hres _ _ Ej) as [r ->]. done. }
    unfold wantedOutputs. wp_steps. eapply wp_of_result; [apply Houts; by exists (DBuilt d outputs)|]. wp_steps.
    split_and!; [done|done|]. intros name path Hp. apply dec_stable. intros Hna.
    destruct (tops_wanted d outputs Hin) as (ks & Hks & Hall).
    assert (getBaseStorePath d ∈ missing) as Hin0; [|apply Hdom, elem_of_dom in Hin0 as [? ?]; congruence].
    apply Hplan. split; [left; by eexists|].
    destruct (rebuilds buildMode) eqn:Er; [left; split; [done|by eexists]|].
    right; right. exists path. split; [|done]. left. split; [done|]. exists ks. eauto.
Qed.

(** [dispatchBuild] answers every request, in order: with the result of its job if
    there is one, and otherwise with AlreadyValid, which is only said of outputs that
    the farm holds or has substituted.  A plain path is valid or fails. *)
Theorem requests_answered {S} (br : BuildResults) runJobs (s : S)
    (U : gset string) (rank : string → nat) B fuel query fetch avail :
  eval_ok readDerivation outputMap U rank →
  (∀ ks k, k ∈ query ks → k ∈ avail) → (∀ ks k, k ∈ fetch ks ↔ k ∈ ks ∧ k ∈ avail) →
  Forall static_request reqs → (∀ p, requested reqs p → p ∈ U) →
  (∀ p, p ∈ U → rank p < B ∧ (N.of_nat (length (forInputDrvs (drv readDerivation p))) < 2 ^ 64)%N) →
  (perDrvMs * N.of_nat B < 2 ^ 64)%N → (N.of_nat (size U) < 2 ^ 32)%N →
  B ≤ fuel → 2 * size U + weight (uses_ref readDerivation outputMap) U ≤ fuel →
  (∀ jobs s, ∃ jobs' s', runJobs jobs s = (s', Ok jobs') ∧ dom jobs ⊆ dom jobs' ∧
     ∀ p job, jobs' !! p = Some job → is_Some (RJob.result job)) →
  ∃ jobs s' results,
    dispatchBuild readDerivation outputMap hashPart printStorePath to_string br runJobs fuel query fetch reqs buildMode s
      = (s', Ok results) ∧
    Forall2 (answers br avail jobs) reqs results.
Proof.
  intros Hev Hq Hf Hst Hreq HU HB Hsmall HBf Hfuel Hrun.
  destruct (loadJobs_spec U rank B fuel query fetch avail Hev Hq Hf Hst Hreq HU HB Hsmall HBf Hfuel)
    as (jobs0 & E0 & Hplan & _ & _).
  destruct (Hrun (LJob.job <$> jobs0) s) as (jobs & s1 & E1 & Hdom & Hres). exists jobs, s1.
  rewrite dom_fmap_L in Hdom.
  assert (wp (dispatchBuild readDerivation outputMap hashPart printStorePath to_string br runJobs fuel query fetch
    reqs buildMode) (λ results s', s' = s1 ∧ Forall2 (answers br avail jobs) reqs results) s) as Hwp.
  2:{ destruct Hwp as (results & ? & E & -> & HF). by exists results. }
  unfold dispatchBuild. apply wp_bind. exists jobs0, s. rewrite E0. split; [done|].
  apply wp_bind. exists jobs, s1. split; [done|].
  apply (wp_foldM_prefix _ (λ done results s', s' = s1 ∧ Forall2 (answers br avail jobs) done results)); [done|].
  intros done req rest results ? El [-> HF]. apply wp_bind.
  eapply (wp_mono _ (λ r s', s' = s1 ∧ answers br avail jobs req r)).
  2:{ intros r ? [-> Hr]. apply wp_ret. split; [done|]. by apply Forall2_app; [|constructor]. }
  eapply request_result_spec; [done|exact Hplan|done|done| |rewrite El; set_solver].
  intros p Hp. by apply (ev_outs _ _ _ _ Hev), Hreq.
Qed.
End Main.
