(* ===== verification/LoadJobsDemo.v ===== *)
(** * A request for one derivation with two inputs

    [loadJobs_plan] at a concrete eval store: app uses lib and tool, the farm has
    the output of tool only. *)

From S2P Require Import Prelude Exec ClientRun ClientGraph TopDown TopDownWalks TopDownBuild.
From S2P Require Import LoadJobs LoadJobsFarm LoadJobsProof.

Open Scope string_scope.

Definition app_drv : Derivation.t := Derivation.mk
  (Templated [SOpaque "src"; SBuilt (SOpaque "lib.drv") "out"; SBuilt (SOpaque "tool.drv") "out"])
  [("out", Some "app")] "x86_64-linux" [].
Definition lib_drv : Derivation.t := Derivation.mk
  (Mapped ["libsrc"] [("tool.drv", InputNode.mk ["out"] [])]) [("out", Some "lib"); ("dev", Some "lib-dev")]
  "x86_64-linux" ["kvm"].
Definition tool_drv : Derivation.t := Derivation.mk (Templated []) [("out", Some "tool")] "x86_64-linux" [].

Definition demo_read (p : string) : result Derivation.t :=
  if decide (p = "app.drv") then Ok app_drv else if decide (p = "lib.drv") then Ok lib_drv
  else if decide (p = "tool.drv") then Ok tool_drv else Throw (NixError "no such derivation").
Definition demo_outs (p : string) : result (gmap string (option string)) :=
  match demo_read p with
  | Ok d => Ok (list_to_map (Derivation.outputs d))
  | Throw e => Throw e
  end.
Definition demo_drvs : gset string := {[ "app.drv"; "lib.drv"; "tool.drv" ]}.
Definition demo_rank (p : string) : nat :=
  if decide (p = "app.drv") then 2 else if decide (p = "lib.drv") then 1 else 0.
Definition demo_reqs : list DerivedPath := [DBuilt (SOpaque "app.drv") (λ _, true); DOpaque "src"].
Definition demo_avail : gset string := {[ "tool"; "src" ]}.
Definition demo_load : gmap string (LJob.t ()) * result () :=
  loadJobs demo_read demo_outs id id (λ _, "request") 20 (λ ks, ks ∩ {["src"]}) (λ ks, ks ∩ demo_avail)
    demo_reqs bmRepair ∅.

Lemma elem_of_demo_drvs p : p ∈ demo_drvs → p = "app.drv" ∨ p = "lib.drv" ∨ p = "tool.drv".
Proof. unfold demo_drvs. set_solver. Qed.

Lemma static_app : static demo_outs app_drv.
Proof.
  split; simpl.
  - set_solver.
  - intros out ->%list_elem_of_singleton. done.
  - change (forInputOutputs app_drv) with [("lib.drv", "out"); ("tool.drv", "out")]. intros i o. rewrite !elem_of_cons.
    intros [[= -> ->]|[[= -> ->]|?%elem_of_nil]]; [by eexists..|done].
Qed.

Lemma static_lib : static demo_outs lib_drv.
Proof.
  split; simpl.
  - intros n ->%list_elem_of_singleton. done.
  - intros out. rewrite !elem_of_cons. intros [->|[->|?%elem_of_nil]]; done.
  - change (forInputOutputs lib_drv) with [("tool.drv", "out")]. intros i o [= -> ->]%list_elem_of_singleton. by eexists.
Qed.

Lemma static_tool : static demo_outs tool_drv.
Proof.
  split; simpl; [set_solver| |].
  - intros out ->%list_elem_of_singleton. done.
  - change (forInputOutputs tool_drv) with (@nil (string * string)). set_solver.
Qed.

Lemma demo_eval_ok : eval_ok demo_read demo_outs demo_drvs demo_rank.
Proof.
  split; intros p; [by intros [->|[->| ->]]%elem_of_demo_drvs..| |].
  - intros [->|[->| ->]]%elem_of_demo_drvs; [apply static_app|apply static_lib|apply static_tool].
  - intros i [->|[->| ->]]%elem_of_demo_drvs.
    + change (forInputDrvs _) with ["lib.drv"; "tool.drv"]. rewrite !elem_of_cons.
      intros [->|[->|?%elem_of_nil]]; [..|done]; (split; [unfold demo_drvs; set_solver|by vm_compute; lia]).
    + change (forInputDrvs _) with ["tool.drv"]. intros ->%list_elem_of_singleton.
      split; [unfold demo_drvs; set_solver|by vm_compute; lia].
    + change (forInputDrvs _) with (@nil string). by intros ?%elem_of_nil.
Qed.

Lemma loadJobs_witness :
  (λ j, (RJob.inputs (LJob.job j), LJob.dependants j, RJob.cpHintMs (LJob.job j), RJob.mode (LJob.job j))) <$> demo_load.1 =
    {[ "app.drv" := (["lib.drv"], [], 1000%N, 1%N); "lib.drv" := ([], ["app.drv"], 2000%N, 1%N) ]} ∧
  ∃ jobs, demo_load = (jobs, Ok tt) ∧
    plan (tops_of demo_outs demo_reqs) true (uses_ref demo_read demo_outs) demo_avail (dom jobs) ∧
    (∀ p j, jobs !! p = Some j → loaded demo_read demo_outs id demo_reqs bmRepair jobs p j) ∧
    graph_ok demo_rank (LJob.job <$> jobs).
Proof.
  split; [by vm_compute|].
  apply (loadJobs_plan demo_read demo_outs id id (λ _, "request") demo_reqs bmRepair demo_drvs demo_rank 3 20
    (λ ks, ks ∩ {["src"]}) (λ ks, ks ∩ demo_avail) demo_avail demo_eval_ok).
  - unfold demo_avail. set_solver.
  - intros ks k. apply elem_of_intersection.
  - repeat constructor.
  - intros p (req & Hin & Hp). unfold demo_reqs in Hin. rewrite !elem_of_cons in Hin.
    destruct Hin as [->|[->|?%elem_of_nil]]; [|done..]. simpl in Hp. subst p. unfold demo_drvs. set_solver.
  - intros p [->|[->| ->]]%elem_of_demo_drvs; (split; [by vm_compute; lia|by vm_compute]).
  - by vm_compute.
  - by vm_compute.
  - lia.
  - by vm_compute; lia.
Defined.

(** The same request answered; every job builds. *)
Definition demo_results : BuildResults (R := string) :=
  mkBuildResults "" "valid" (λ p _, "valid " +:+ p) (λ _ msg, msg).
Definition demo_runJobs (jobs : gmap string (RJob.t string)) : M () (gmap string (RJob.t string)) :=
  mret (RJob.with_result (Some "built") <$> jobs).
Definition demo_answer (reqs : list DerivedPath) : () * result (list string) :=
  dispatchBuild demo_read demo_outs id id (λ _, "request") demo_results demo_runJobs 20 (λ ks, ks ∩ {["src"]})
    (λ ks, ks ∩ demo_avail) reqs bmNormal tt.
Definition demo_asks : list DerivedPath := demo_reqs ++ [DBuilt (SOpaque "tool.drv") (λ _, true); DOpaque "lib"].

Lemma requests_answered_witness :
  demo_answer demo_asks =
    (tt, Ok ["built"; "valid"; "valid tool.drv"; "path 'request' does not exist and cannot be substituted"]) ∧
  ∃ jobs s' results, demo_answer demo_asks = (s', Ok results) ∧
    Forall2 (answers demo_outs (λ _, "request") demo_results demo_avail jobs) demo_asks results.
Proof.
  split; [by vm_compute|].
  apply (requests_answered demo_read demo_outs id id (λ _, "request") demo_asks bmNormal demo_results demo_runJobs tt
    demo_drvs demo_rank 3 20 (λ ks, ks ∩ {["src"]}) (λ ks, ks ∩ demo_avail) demo_avail demo_eval_ok).
  - unfold demo_avail. set_solver.
  - intros ks k. apply elem_of_intersection.
  - repeat constructor.
  - intros p (req & Hin & Hp). unfold demo_asks, demo_reqs in Hin. rewrite elem_of_app, !elem_of_cons in Hin.
    destruct Hin as [[->|[->|?%elem_of_nil]]|[->|[->|?%elem_of_nil]]]; [|done|done| |done|done]; simpl in Hp; subst p;
      unfold demo_drvs; set_solver.
  - intros p [->|[->| ->]]%elem_of_demo_drvs; (split; [by vm_compute; lia|by vm_compute]).
  - by vm_compute.
  - by vm_compute.
  - lia.
  - by vm_compute; lia.
  - intros jobs []. eexists _, tt. split; [done|]. rewrite dom_fmap_L. split; [done|].
    intros p job. rewrite lookup_fmap, fmap_Some. intros (j & _ & ->). by eexists.
Defined.
