(* ===== verification/Xfcc.v ===== *)
(** * The client identity a proxy forwards

    src/src/daemon/xfcc.hh: the parser of the x-forwarded-client-cert header and
    the patterns of trusted proxies.  A string is the list of its bytes.  A
    [Cursor] is what is left of its input; its operations return the rest.  Loops
    that take at least one byte per round have the length of the input as fuel,
    which [subjectCommonName_total] shows to be enough. *)

From Stdlib Require Import Ascii.
From S2P Require Import Prelude.

Abbreviation bytes := (list ascii).
Definition str (s : string) : bytes := String.list_ascii_of_string s.

Definition NUL : ascii := ascii_of_N 0.
Definition quote : ascii := ascii_of_N 34.
Definition backslash : ascii := ascii_of_N 92.
Definition comma : ascii := ascii_of_N 44.
Definition semicolon : ascii := ascii_of_N 59.
Definition equals : ascii := ascii_of_N 61.
Definition slash : ascii := ascii_of_N 47.

Definition header : bytes := str "x-forwarded-client-cert".
Definition maxHeaderBytes : N := 16384.
Definition maxCommonNameBytes : N := 256.

Module Cursor.
Definition peek (rest : bytes) : ascii := match rest with [] => NUL | chr :: _ => chr end.
Definition take (rest : bytes) : ascii * bytes := match rest with [] => (NUL, []) | chr :: rest => (chr, rest) end.

(** [until]: up to any byte of [stops], [None] if there is none. *)
Fixpoint until (stops rest : bytes) : option (bytes * bytes) :=
  match rest with
  | [] => None
  | chr :: rest' =>
      if decide (chr ∈ stops) then Some ([], rest)
      else '(out, rest'') ← until stops rest'; Some (chr :: out, rest'')
  end.
End Cursor.

(** The loop of [readPairValue] inside quotes. *)
Fixpoint read_quoted (out rest : bytes) : option (bytes * bytes) :=
  match rest with
  | [] => None
  | chr :: rest =>
      if decide (chr = quote) then Some (out, rest)
      else if decide (chr = backslash) then
        match rest with
        | [] => None
        | chr' :: rest => read_quoted (out ++ [chr; chr']) rest
        end
      else read_quoted (out ++ [chr]) rest
  end.

Definition readPairValue (cur : bytes) : option (bytes * bytes) :=
  if decide (Cursor.peek cur = quote) then read_quoted [] (Cursor.take cur).2
  else match Cursor.until [semicolon; comma] cur with
       | Some (plain, rest) => Some (plain, rest)
       | None => Some (cur, [])
       end.

(** One attribute of a DN, unescaped. *)
Fixpoint read_attr (sep : ascii) (attr rest : bytes) : bytes * bytes :=
  match rest with
  | [] => (attr, [])
  | chr :: rest' =>
      if decide (chr = sep) then (attr, rest)
      else if decide (chr = backslash) then
        match rest' with
        | [] => read_attr sep (attr ++ [chr]) rest'
        | chr' :: rest'' => read_attr sep (attr ++ [chr']) rest''
        end
      else read_attr sep (attr ++ [chr]) rest'
  end.

Definition starts_with (view prefix : bytes) : bool := bool_decide (take (length prefix) view = prefix).
Definition is_cn (attr : bytes) : bool := starts_with attr (str "CN=") || starts_with attr (str "cn=").

(** Outer [None]: out of fuel. *)
Fixpoint dn_loop (fuel : nat) (sep : ascii) (cur : bytes) : option (option bytes) :=
  match cur with
  | [] => Some None
  | _ =>
      match fuel with
      | O => None
      | S fuel =>
          let '(attr, cur) := read_attr sep [] cur in
          let cur := (Cursor.take cur).2 in
          if is_cn attr then Some (Some (drop 3 attr)) else dn_loop fuel sep cur
      end
  end.

Definition commonNameOfDn (name : bytes) : option (option bytes) :=
  let sep := if decide (Cursor.peek name = slash) then slash else comma in
  let cur := if decide (sep = slash) then (Cursor.take name).2 else name in
  dn_loop (length cur) sep cur.

Definition saneCommonName (name : bytes) : bool :=
  negb (bool_decide (name = [])) && (N.of_nat (length name) <=? maxCommonNameBytes)%N
  && forallb (λ chr, (32 <=? N_of_ascii chr)%N && negb (N_of_ascii chr =? 127)%N) name.

Fixpoint subject_loop (fuel : nat) (cur : bytes) : option (option bytes) :=
  match cur with
  | [] => Some None
  | _ =>
      match fuel with
      | O => None
      | S fuel =>
          match Cursor.until [equals] cur with
          | None => Some None
          | Some (key, cur) =>
              match readPairValue (Cursor.take cur).2 with
              | None => Some None
              | Some (val, cur) =>
                  if decide (key = str "Subject") then
                    name ← commonNameOfDn val;
                    Some (match name with
                          | Some name => if saneCommonName name then Some name else None
                          | None => None
                          end)
                  else if decide (Cursor.peek cur ≠ semicolon) then Some None
                  else subject_loop fuel (Cursor.take cur).2
              end
          end
      end
  end.

Definition subjectCommonName (value : bytes) : option (option bytes) :=
  if bool_decide (value = []) || (maxHeaderBytes <? N.of_nat (length value))%N then Some None
  else subject_loop (length value) value.

(** The values of the header in a call; [None] unless there is exactly one. *)
Definition forwardedCommonName (values : list bytes) : option (option bytes) :=
  match values with
  | [value] => subjectCommonName value
  | _ => Some None
  end.

(** ** [TrustedProxies] *)

(** What a C string function sees: the bytes before the first NUL. *)
Fixpoint c_str (s : bytes) : bytes :=
  match s with
  | [] => []
  | chr :: s => if decide (chr = NUL) then [] else chr :: c_str s
  end.

Module TrustedProxies.
Section TrustedProxies.
Context (fnmatch : bytes → bytes → bool).

Definition t : Type := list bytes.
Definition add (pattern : bytes) (patterns : t) : option t :=
  if decide (pattern = []) then None else Some (patterns ++ [pattern]).
Definition matches (patterns : t) (peerCommonName : option bytes) : bool :=
  match peerCommonName with
  | None => false
  | Some name => saneCommonName name && existsb (λ pattern, fnmatch (c_str pattern) (c_str name)) patterns
  end.
End TrustedProxies.
End TrustedProxies.
