(* ===== verification/XfccTheorems.v ===== *)
(** * What the header parser returns

    The parser answers exactly what the syntax of the header says, for any bytes. *)

From Stdlib Require Import Ascii.
From S2P Require Import Prelude Xfcc.

#[local] Set Warnings "-level-tolerance".

(** ** Termination *)

Lemma read_attr_length sep attr rest attr' rest' :
  read_attr sep attr rest = (attr', rest') → length rest' ≤ length rest ∧ (rest' = [] ∨ ∃ r, rest' = sep :: r).
Proof.
  revert attr. assert (∀ n attr rest, length rest ≤ n → read_attr sep attr rest = (attr', rest') →
    length rest' ≤ length rest ∧ (rest' = [] ∨ ∃ r, rest' = sep :: r)) as H; [|intros; by eapply H].
  clear rest. intros n. induction n as [|n IH]; intros attr [|c rest] Hn; simpl in *; try lia; intros E; simplify_eq; [by auto..|].
  case_decide; [simplify_eq; split; [done|right; by eexists]|]. case_decide.
  - destruct rest as [|d rest]; [simplify_eq/=; split; [lia|by left]|]. simpl in *. apply IH in E; [|lia]. split; [lia|by destruct E].
  - apply IH in E; [|lia]. split; [lia|by destruct E].
Qed.

Lemma dn_loop_total fuel sep cur : length cur ≤ fuel → is_Some (dn_loop fuel sep cur).
Proof.
  revert cur. induction fuel as [|fuel IH]; intros [|c cur] Hf; cbn [dn_loop]; [by eexists|simpl in Hf; lia|by eexists|].
  destruct (read_attr sep [] (c :: cur)) as [attr cur'] eqn:E. destruct (is_cn attr); [by eexists|]. apply IH.
  apply read_attr_length in E as [Hl [->|[r ->]]]; simpl in *; lia.
Qed.

Lemma commonNameOfDn_total name : is_Some (commonNameOfDn name).
Proof. by apply dn_loop_total. Qed.

Lemma until_length stops rest out rest' :
  Cursor.until stops rest = Some (out, rest') → length rest = length out + length rest' ∧ rest' ≠ [].
Proof.
  revert out. induction rest as [|c rest IH]; intros out; simpl; [done|]. case_decide; [by intros [= <- <-]|].
  destruct (Cursor.until stops rest) as [[out' rest'']|]; [|done]. intros [= <- <-].
  destruct (IH out' eq_refl). simpl. split; [lia|done].
Qed.

Lemma read_quoted_length out rest out' rest' : read_quoted out rest = Some (out', rest') → length rest' < length rest.
Proof.
  revert out. assert (∀ n out rest, length rest ≤ n → read_quoted out rest = Some (out', rest') → length rest' < length rest)
    as H; [|intros; by eapply H].
  clear rest. intros n. induction n as [|n IH]; intros out [|c rest] Hn; cbn [read_quoted]; [done|simpl in Hn; lia|done|].
  simpl in Hn. case_decide; [intros [= <- <-]; simpl; lia|]. case_decide.
  - destruct rest as [|d rest]; [done|]. simpl in *. intros E%IH; lia.
  - intros E%IH; simpl; lia.
Qed.

Lemma readPairValue_length cur val rest : readPairValue cur = Some (val, rest) → length rest ≤ length cur.
Proof.
  unfold readPairValue. case_decide.
  - intros E%read_quoted_length. destruct cur; simpl in *; lia.
  - destruct (Cursor.until _ cur) as [[plain r]|] eqn:E; intros [= <- <-]; [|simpl; lia].
    apply until_length in E as [? _]. lia.
Qed.

Lemma subject_loop_total fuel cur : length cur ≤ fuel → is_Some (subject_loop fuel cur).
Proof.
  revert cur. induction fuel as [|fuel IH]; intros [|c cur] Hf; cbn [subject_loop]; [by eexists|simpl in Hf; lia|by eexists|].
  destruct (Cursor.until [equals] (c :: cur)) as [[key cur1]|] eqn:E1; [|by eexists].
  destruct (readPairValue (Cursor.take cur1).2) as [[val cur2]|] eqn:E2; [|by eexists].
  case_decide; [destruct (commonNameOfDn_total val) as [? ->]; by eexists|]. case_decide; [by eexists|]. apply IH.
  apply until_length in E1 as [Hl1 Hne]. apply readPairValue_length in E2. destruct cur1; [done|].
  destruct cur2; simpl in *; lia.
Qed.

Lemma subjectCommonName_total value : is_Some (subjectCommonName value).
Proof. unfold subjectCommonName. destruct (_ || _); [by eexists|]. by apply subject_loop_total. Qed.

(** ** The syntax of a header

    Every text is some sequence of bytes and of backslashes with the byte after them; the syntax is the text with its
    structure, and says what every byte of a header counts for. *)

Inductive token := Bare (c : ascii) | Escaped (c : ascii).
Definition token_text (t : token) : bytes := match t with Bare c => [c] | Escaped c => [backslash; c] end.
Definition token_byte (t : token) : ascii := match t with Bare c => c | Escaped c => c end.
Definition text (ts : list token) : bytes := ts ≫= token_text.

(** A byte that is not escaped is neither the delimiter nor a backslash. *)
Definition bare_of (delim : ascii) (t : token) : Prop := match t with Bare c => c ≠ delim ∧ c ≠ backslash | Escaped _ => True end.

(** The value of a pair, and what is read of it: escapes within quotes are kept. *)
Inductive value := Plain (v : bytes) | Quoted (ts : list token).
Definition value_text (v : value) : bytes := match v with Plain v => v | Quoted ts => quote :: text ts ++ [quote] end.
Definition value_read (v : value) : bytes := match v with Plain v => v | Quoted ts => text ts end.

(** [after]: what follows the value. *)
Definition value_ok (v : value) (after : bytes) : Prop :=
  match v with
  | Plain v => semicolon ∉ v ∧ comma ∉ v ∧ Cursor.peek v ≠ quote ∧ (after = [] ∨ Cursor.peek after ∈ [semicolon; comma])
  | Quoted ts => Forall (bare_of quote) ts
  end.

(** The pairs of the first element up to its Subject, the Subject, and the rest, in which anything may be. *)
Record syntax := mkSyntax { before : list (bytes * value); subject : value; after : bytes }.
Fixpoint pairs_text (pairs : list (bytes * value)) (rest : bytes) : bytes :=
  match pairs with
  | [] => rest
  | (key, v) :: pairs => key ++ equals :: value_text v ++ semicolon :: pairs_text pairs rest
  end.
Definition syntax_text (h : syntax) : bytes := pairs_text (before h) (str "Subject" ++ equals :: value_text (subject h) ++ after h).
Definition pair_ok (p : bytes * value) : Prop := equals ∉ p.1 ∧ p.1 ≠ str "Subject" ∧ value_ok p.2 [semicolon].
Definition syntax_ok (h : syntax) : Prop := Forall pair_ok (before h) ∧ value_ok (subject h) (after h).

(** A distinguished name, up to the first attribute that is a CN: attributes between separators, and what follows that one.  A
    backslash at the very end counts for itself. *)
Definition common_name (attr name : bytes) : Prop := attr = str "CN=" ++ name ∨ attr = str "cn=" ++ name.
Definition attr_bytes (ts : list token) : bytes := token_byte <$> ts.
Definition attr_ok (sep : ascii) (ts : list token) (after : bytes) : Prop :=
  Forall (bare_of sep) ts ∧ (after = [] ∨ ∃ r, after = sep :: r) ∨
  after = [] ∧ ∃ ts', ts = ts' ++ [Bare backslash] ∧ Forall (bare_of sep) ts'.
Definition attrs_text (sep : ascii) (attrs : list (list token)) : bytes := attrs ≫= λ ts, text ts ++ [sep].

Definition cn_of_attrs (sep : ascii) (dn name : bytes) : Prop :=
  ∃ attrs ts after, dn = attrs_text sep attrs ++ text ts ++ after ∧
    Forall (λ ts, Forall (bare_of sep) ts ∧ ∀ v, ¬ common_name (attr_bytes ts) v) attrs ∧
    attr_ok sep ts after ∧ common_name (attr_bytes ts) name.
(** Between commas, or with a slash before each. *)
Definition cn_of (dn name : bytes) : Prop :=
  Cursor.peek dn ≠ slash ∧ cn_of_attrs comma dn name ∨ ∃ dn', dn = slash :: dn' ∧ cn_of_attrs slash dn' name.

(** No control characters. *)
Definition printable (c : ascii) : Prop := (32 ≤ N_of_ascii c)%N ∧ N_of_ascii c ≠ 127%N.

(** ** Attributes *)

Lemma text_cons t ts : text (t :: ts) = token_text t ++ text ts.
Proof. done. Qed.
Lemma text_app ts us : text (ts ++ us) = text ts ++ text us.
Proof. apply bind_app. Qed.

Lemma read_attr_text sep attr ts rest :
  sep ≠ backslash → Forall (bare_of sep) ts → read_attr sep attr (text ts ++ rest) = read_attr sep (attr ++ attr_bytes ts) rest.
Proof.
  intros Hs Hts. revert attr. induction Hts as [|t ts Ht _ IH]; intros attr; [by rewrite app_nil_r|]. rewrite text_cons, <- app_assoc.
  assert (attr ++ attr_bytes (t :: ts) = (attr ++ [token_byte t]) ++ attr_bytes ts) as -> by (by rewrite <- app_assoc).
  destruct t as [c|c]; cbn [token_text app read_attr].
  - destruct Ht. rewrite !decide_False by done. apply IH.
  - rewrite decide_False, decide_True by done. apply IH.
Qed.

Lemma read_attr_ok sep ts after :
  sep ≠ backslash → attr_ok sep ts after → read_attr sep [] (text ts ++ after) = (attr_bytes ts, after).
Proof.
  intros Hs [[Hts Ha]|[-> (ts' & -> & Hts)]].
  - rewrite read_attr_text by done. destruct Ha as [->|[r ->]]; cbn [app read_attr]; [done|by rewrite decide_True].
  - rewrite app_nil_r, text_app, read_attr_text by done. cbn [text mbind list_bind token_text app read_attr].
    rewrite decide_False, decide_True by done. unfold attr_bytes. by rewrite fmap_app.
Qed.

(** Every text begins with an attribute. *)
Lemma read_attr_parse sep attr rest attr' rest' :
  sep ≠ backslash → read_attr sep attr rest = (attr', rest') →
  ∃ ts, attr' = attr ++ attr_bytes ts ∧ rest = text ts ++ rest' ∧ attr_ok sep ts rest'.
Proof.
  intros Hs. revert attr. assert (∀ n attr rest, length rest ≤ n → read_attr sep attr rest = (attr', rest') →
    ∃ ts, attr' = attr ++ attr_bytes ts ∧ rest = text ts ++ rest' ∧ attr_ok sep ts rest') as H; [|intros; by eapply H].
  assert (∀ t ts, bare_of sep t → attr_ok sep ts rest' → attr_ok sep (t :: ts) rest') as Hcons.
  { intros t ts Ht [[Hts Ha]|[-> (ts' & -> & Hts)]]; [left|right]; (split; [by try constructor|]); [done|]. exists (t :: ts'). split; [done|by constructor]. }
  clear rest. intros n. induction n as [|n IH]; intros attr [|c rest] Hn; simpl in *; try lia; intros E.
  1,2: simplify_eq; exists []; rewrite app_nil_r; (split_and!; [done..|]); left; by repeat constructor.
  case_decide as Hc; [simplify_eq; exists []; rewrite app_nil_r; split_and!; [done..|]; left; split; [constructor|right; by eexists]|].
  case_decide as Hb.
  - subst c. destruct rest as [|d rest]; simpl in E.
    + simplify_eq. exists [Bare backslash]. split_and!; [done..|]. right. split; [done|]. by exists [].
    + simpl in Hn. destruct (IH _ rest ltac:(lia) E) as (ts & -> & -> & Hok). exists (Escaped d :: ts). split_and!; [by rewrite <- app_assoc|done|by apply Hcons].
  - destruct (IH _ rest ltac:(lia) E) as (ts & -> & -> & Hok). exists (Bare c :: ts). split_and!; [by rewrite <- app_assoc|done|by apply Hcons].
Qed.

Lemma take_prefix (l p : bytes) : take (length p) l = p ↔ l = p ++ drop (length p) l.
Proof. split; [intros H; rewrite <- H at 1; by rewrite take_drop|]. intros H. rewrite H. by rewrite take_app_length. Qed.
Lemma is_cn_spec attr : is_cn attr = true ↔ common_name attr (drop 3 attr).
Proof. unfold is_cn, starts_with, common_name. by rewrite orb_true_iff, !bool_decide_eq_true, !take_prefix. Qed.
Lemma common_name_drop attr name : common_name attr name → name = drop 3 attr ∧ is_cn attr = true.
Proof. intros H. assert (name = drop 3 attr) as -> by (by destruct H as [-> | ->]). split; [done|by apply is_cn_spec]. Qed.

Lemma dn_loop_sound fuel sep cur name :
  sep ≠ backslash → dn_loop fuel sep cur = Some (Some name) → cn_of_attrs sep cur name.
Proof.
  intros Hs. revert cur. induction fuel as [|fuel IH]; intros [|c cur]; cbn [dn_loop]; try done.
  destruct (read_attr sep [] (c :: cur)) as [attr rest] eqn:E. apply read_attr_parse in E as (ts & -> & -> & Hok); [|done]. cbn [app].
  destruct (is_cn (attr_bytes ts)) eqn:Ecn.
  - intros [= <-]. exists [], ts, rest. split_and!; [done|done|done|by apply is_cn_spec].
  - intros Hrec%IH. destruct Hok as [[Hts [->|[r ->]]]|[-> _]]; [|simpl in Hrec|].
    1,3: destruct Hrec as (attrs & us & after & Ht & _ & _ & Hcn); simpl in Ht; symmetry in Ht; apply app_nil in Ht as [_ [Hus _]%app_nil];
      destruct us as [|[] us]; [|done..]; by destruct Hcn.
    destruct Hrec as (attrs & us & after & -> & Ha & Hus & Hcn). exists (ts :: attrs), us, after. split_and!; [|constructor|done..].
    + unfold attrs_text. simpl. by rewrite <- !app_assoc.
    + split; [done|]. intros v Hv%common_name_drop. destruct Hv. congruence.
    + done.
Qed.

Lemma dn_loop_complete fuel sep attrs ts after name :
  sep ≠ backslash → length (attrs_text sep attrs ++ text ts ++ after) ≤ fuel →
  Forall (λ ts, Forall (bare_of sep) ts ∧ ∀ v, ¬ common_name (attr_bytes ts) v) attrs → attr_ok sep ts after →
  common_name (attr_bytes ts) name → dn_loop fuel sep (attrs_text sep attrs ++ text ts ++ after) = Some (Some name).
Proof.
  intros Hs Hf Ha Hts [-> Hcn]%common_name_drop. revert fuel Hf. induction Ha as [|us attrs [Hus Hno] _ IH]; intros fuel Hf.
  - cbn [attrs_text mbind list_bind app] in *. assert (∃ c l, text ts ++ after = c :: l) as (c & l & E).
    { destruct ts as [|[] ts]; [done|by eexists _, _..]. }
    destruct fuel as [|fuel]; [rewrite E in Hf; simpl in Hf; lia|]. rewrite E. cbn [dn_loop]. rewrite <- E, read_attr_ok by done. by rewrite Hcn.
  - assert (attrs_text sep (us :: attrs) ++ text ts ++ after = text us ++ sep :: attrs_text sep attrs ++ text ts ++ after) as E.
    { unfold attrs_text. simpl. by rewrite <- !app_assoc. }
    rewrite E in *. assert (∃ c l, text us ++ sep :: attrs_text sep attrs ++ text ts ++ after = c :: l) as (c & l & E').
    { destruct us as [|[] us]; by eexists _, _. }
    destruct fuel as [|fuel]; [rewrite E' in Hf; simpl in Hf; lia|]. rewrite E'. cbn [dn_loop]. rewrite <- E'.
    rewrite read_attr_ok; [|done|left; split; [done|right; by eexists]]. destruct (is_cn (attr_bytes us)) eqn:Ecn; [by apply is_cn_spec in Ecn; edestruct Hno|].
    cbn [Cursor.take snd]. apply IH. rewrite length_app in Hf. simpl in Hf. lia.
Qed.

Lemma commonNameOfDn_exact dn name : commonNameOfDn dn = Some (Some name) ↔ cn_of dn name.
Proof.
  unfold commonNameOfDn, cn_of. destruct (decide (Cursor.peek dn = slash)) as [Hp|Hp].
  - destruct dn as [|c dn]; [done|]. simpl in Hp. subst c. rewrite decide_True by done. cbn [Cursor.take snd]. split.
    + intros H%dn_loop_sound; [|done]. right. by exists dn.
    + intros [[? _]|(dn' & [= <-] & attrs & ts & after & -> & ? & ? & ?)]; [done|]. by apply dn_loop_complete.
  - rewrite decide_False by done. split.
    + intros H%dn_loop_sound; [|done]. by left.
    + intros [[_ (attrs & ts & after & -> & ? & ? & ?)]|(dn' & -> & _)]; [|done]. by apply dn_loop_complete.
Qed.

Lemma saneCommonName_exact name :
  saneCommonName name = true ↔ name ≠ [] ∧ (N.of_nat (length name) ≤ maxCommonNameBytes)%N ∧ Forall printable name.
Proof.
  unfold saneCommonName. rewrite !andb_true_iff, negb_true_iff, bool_decide_eq_false, N.leb_le, forallb_forall, Forall_forall.
  setoid_rewrite <- list_elem_of_In. unfold printable. setoid_rewrite andb_true_iff. setoid_rewrite N.leb_le.
  setoid_rewrite negb_true_iff. setoid_rewrite N.eqb_neq. tauto.
Qed.

(** ** Pairs *)

Lemma read_quoted_text ts out rest : Forall (bare_of quote) ts → read_quoted out (text ts ++ quote :: rest) = Some (out ++ text ts, rest).
Proof.
  intros Hts. revert out. induction Hts as [|t ts Ht _ IH]; intros out.
  - cbn [text mbind list_bind app read_quoted]. rewrite decide_True by done. by rewrite app_nil_r.
  - rewrite text_cons, <- app_assoc. destruct t as [c|c]; cbn [token_text app read_quoted].
    + destruct Ht. rewrite !decide_False by done. rewrite IH. by rewrite <- app_assoc.
    + rewrite decide_False, decide_True by done. rewrite IH. by rewrite <- app_assoc.
Qed.

Lemma read_quoted_parse out rest out' rest' :
  read_quoted out rest = Some (out', rest') → ∃ ts, Forall (bare_of quote) ts ∧ out' = out ++ text ts ∧ rest = text ts ++ quote :: rest'.
Proof.
  revert out. assert (∀ n out rest, length rest ≤ n → read_quoted out rest = Some (out', rest') →
    ∃ ts, Forall (bare_of quote) ts ∧ out' = out ++ text ts ∧ rest = text ts ++ quote :: rest') as H; [|intros; by eapply H].
  clear rest. intros n. induction n as [|n IH]; intros out [|c rest] Hn; cbn [read_quoted]; [done|simpl in Hn; lia|done|]. simpl in Hn.
  case_decide as Hq; [intros [= <- <-]; exists []; subst c; by rewrite app_nil_r|]. case_decide as Hb.
  - subst c. destruct rest as [|d rest]; [done|]. simpl in Hn. intros (ts & Hts & -> & ->)%IH; [|lia]. exists (Escaped d :: ts).
    split_and!; [by constructor|by rewrite <- app_assoc|done].
  - intros (ts & Hts & -> & ->)%IH; [|lia]. exists (Bare c :: ts). split_and!; [by constructor|by rewrite <- app_assoc|done].
Qed.

Lemma until_exact stops rest out rest' :
  Cursor.until stops rest = Some (out, rest') ↔ rest = out ++ rest' ∧ (∀ c, c ∈ out → c ∉ stops) ∧ ∃ c r, rest' = c :: r ∧ c ∈ stops.
Proof.
  revert out. induction rest as [|c rest IH]; intros out; cbn [Cursor.until].
  - split; [done|]. intros (H & _ & c & r & -> & _). by destruct out.
  - case_decide as Hc.
    + split; [intros [= <- <-]; split_and!; [done|set_solver|by eexists _, _]|]. intros (H & Hno & d & r & -> & Hd).
      destruct out as [|x out]; [by simplify_eq/=|]. injection H as -> _. destruct (Hno x); [by left|done].
    + destruct (Cursor.until stops rest) as [[out' rest'']|] eqn:E; cbn [mbind option_bind].
      * split.
        -- intros [= <- <-]. destruct (proj1 (IH out') eq_refl) as (-> & Hno & Hr). split_and!; [done| |done]. set_solver.
        -- intros (H & Hno & Hr). destruct out as [|x out]; simplify_eq/=; [naive_solver|].
           enough (Some (out', rest'') = Some (out, rest')) by (by simplify_eq). apply IH. split_and!; [done|set_solver|done].
      * split; [done|]. intros (H & Hno & Hr). destruct out as [|x out]; simplify_eq/=; [naive_solver|].
        enough (None = Some (out, rest')) by done. apply IH. split_and!; [done|set_solver|done].
Qed.

Lemma until_none stops rest : Cursor.until stops rest = None → ∀ c, c ∈ rest → c ∉ stops.
Proof.
  induction rest as [|c rest IH]; cbn [Cursor.until]; [by intros _ c ?%elem_of_nil|]. case_decide; [done|].
  destruct (Cursor.until stops rest) as [[]|]; [done|]. intros _ d [->|Hd]%elem_of_cons; [done|by apply IH].
Qed.

Lemma readPairValue_text v after : value_ok v after → readPairValue (value_text v ++ after) = Some (value_read v, after).
Proof.
  destruct v as [v|ts]; unfold readPairValue; cbn [value_text value_read value_ok].
  - intros (Hs & Hc & Hq & Ha). rewrite decide_False.
    2:{ destruct v as [|c v]; [|done]. destruct Ha as [->|Ha]; [done|]. destruct after as [|c after]; [done|]. simpl in *. set_solver. }
    destruct Ha as [->|Ha].
    + rewrite app_nil_r. destruct (Cursor.until _ v) as [[out rest]|] eqn:E; [|done]. apply until_exact in E as (-> & _ & c & r & -> & Hin). set_solver.
    + destruct after as [|c after]; [exfalso; vm_compute in Ha; set_solver|]. rewrite (proj2 (until_exact _ _ v (c :: after))); [done|].
      split_and!; [done|set_solver|by eexists _, _].
  - intros Hts. cbn [app Cursor.peek Cursor.take snd]. rewrite decide_True, <- app_assoc by done. by apply (read_quoted_text ts []).
Qed.

Lemma readPairValue_parse cur val rest :
  readPairValue cur = Some (val, rest) → ∃ v, cur = value_text v ++ rest ∧ val = value_read v ∧ value_ok v rest.
Proof.
  unfold readPairValue. case_decide as Hq.
  - destruct cur as [|c cur]; [done|]. simpl in Hq. subst c. cbn [Cursor.take snd]. intros (ts & Hts & -> & ->)%read_quoted_parse.
    exists (Quoted ts). split_and!; [simpl; by rewrite <- app_assoc|done..].
  - destruct (Cursor.until _ cur) as [[plain r]|] eqn:E; intros [= <- <-].
    + apply until_exact in E as (-> & Hno & c & r' & -> & Hin). exists (Plain plain). split_and!; [done|done|]. cbn [value_ok].
      split_and!; [set_solver|set_solver| |by right]. by destruct plain.
    + exists (Plain cur). rewrite app_nil_r. split_and!; [done|done|]. cbn [value_ok]. split_and!; [| |done|by left].
      all: intros Hin; apply (until_none _ _ E _ Hin); set_solver.
Qed.

(** ** Headers *)

Lemma subject_loop_step fuel key rest :
  equals ∉ key →
  subject_loop (S fuel) (key ++ equals :: rest) =
  match readPairValue rest with
  | None => Some None
  | Some (val, cur) =>
      if decide (key = str "Subject") then
        name ← commonNameOfDn val;
        Some (match name with Some name => if saneCommonName name then Some name else None | None => None end)
      else if decide (Cursor.peek cur ≠ semicolon) then Some None
      else subject_loop fuel (Cursor.take cur).2
  end.
Proof.
  intros Hk. assert (∃ c s, key ++ equals :: rest = c :: s) as (c & s & E) by (destruct key; by eexists _, _).
  rewrite E. cbn [subject_loop]. rewrite <- E, (proj2 (until_exact [equals] _ key (equals :: rest))); [done|].
  split_and!; [done|set_solver|]. eexists _, _. split; [done|by left].
Qed.

(** What a text says, from any point where a pair begins. *)
Definition names (cur name : bytes) : Prop :=
  ∃ h, cur = syntax_text h ∧ syntax_ok h ∧ cn_of (value_read (subject h)) name ∧
    name ≠ [] ∧ (N.of_nat (length name) ≤ maxCommonNameBytes)%N ∧ Forall printable name.

Lemma subject_loop_sound fuel cur name : subject_loop fuel cur = Some (Some name) → names cur name.
Proof.
  revert cur. induction fuel as [|fuel IH]; intros cur; [by destruct cur|]. intros H.
  assert (∃ key rest, cur = key ++ equals :: rest ∧ equals ∉ key) as (key & rest & -> & Hk).
  { destruct cur as [|c cur]; [done|]. cbn [subject_loop] in H. destruct (Cursor.until _ _) as [[key rest]|] eqn:E; [|done].
    apply until_exact in E as (-> & Hno & d & r & -> & ->%list_elem_of_singleton). exists key, r. split; [done|]. intros Hin. apply (Hno _ Hin). by left. }
  rewrite subject_loop_step in H by done. destruct (readPairValue rest) as [[val cur]|] eqn:Ev; [|done].
  apply readPairValue_parse in Ev as (v & -> & -> & Hv). case_decide as Hs.
  - subst key. destruct (commonNameOfDn (value_read v)) as [[n|]|] eqn:Ec; [|done..]. cbn [mbind option_bind] in H.
    destruct (saneCommonName n) eqn:En; [|done]. simplify_eq. apply commonNameOfDn_exact in Ec. apply saneCommonName_exact in En.
    destruct En as (? & ? & ?). exists (mkSyntax [] v cur). split_and!; [done|split; [constructor|done]|done..].
  - case_decide as Hp; [done|]. destruct cur as [|c cur]; [done|]. simpl in Hp. subst c. cbn [Cursor.take snd] in H.
    apply IH in H as (h & -> & [Hb Hsj] & Hcn & Hne & Hlen & Hpr). exists (mkSyntax ((key, v) :: before h) (subject h) (after h)).
    split_and!; [done|split; [|done]|done..]. constructor; [|done]. split_and!; [done..|]. simpl.
    destruct v; [|done]. simpl in *. split_and!; try apply Hv. right. by left.
Qed.

Lemma subject_loop_complete fuel cur name : length cur ≤ fuel → names cur name → subject_loop fuel cur = Some (Some name).
Proof.
  intros Hf (h & -> & [Hb Hs] & Hcn & Hsane%saneCommonName_exact). apply commonNameOfDn_exact in Hcn. unfold syntax_text in *.
  revert fuel Hf. induction Hb as [|[key v] pairs (Hk & Hns & Hv) _ IH]; intros fuel Hf; cbn [pairs_text] in *.
  - destruct fuel as [|fuel]; [rewrite length_app in Hf; simpl in Hf; lia|]. rewrite subject_loop_step by (vm_compute; set_solver).
    rewrite readPairValue_text, decide_True, Hcn by done. cbn [mbind option_bind]. by rewrite Hsane.
  - destruct fuel as [|fuel]; [rewrite length_app in Hf; simpl in Hf; lia|]. simpl in Hk, Hns, Hv. rewrite subject_loop_step by done.
    rewrite readPairValue_text; [|destruct v; [simpl in *; split_and!; try apply Hv; right; by left|done]].
    rewrite decide_False by done. cbn [Cursor.peek Cursor.take snd]. rewrite decide_False by tauto. apply IH.
    do 2 (rewrite length_app in Hf; cbn [length] in Hf). lia.
Qed.

(** C37. What identity a proxy's header forwards.  Whatever bytes the header holds, the parser answers, and it answers a name exactly
    if the header was sent once, is of a size that is accepted, and reads as pairs, the first Subject among which, still in the
    first element, is a distinguished name whose first CN attribute is that name, not empty, not too long and
    without control characters.  So nothing that is inside quotes, escaped, inside another attribute or of a later element can pass for a name.
    A backslash takes the byte after it as it is: the pairs of hex digits of RFC 4514 are not decoded. *)
Theorem forwarded_name_exact values name :
  is_Some (forwardedCommonName values) ∧
  (forwardedCommonName values = Some (Some name) ↔
   ∃ value, values = [value] ∧ (N.of_nat (length value) ≤ maxHeaderBytes)%N ∧ names value name).
Proof.
  assert (∀ value, subjectCommonName value = Some (Some name) ↔ (N.of_nat (length value) ≤ maxHeaderBytes)%N ∧ names value name) as Hval.
  { intros value. unfold subjectCommonName. case_bool_decide as He; simpl.
    { split; [done|]. intros [_ (h & Ht & _)]. subst value. unfold syntax_text in Ht. destruct (before h) as [|[[] ?] ?]; done. }
    destruct (N.ltb_spec maxHeaderBytes (N.of_nat (length value))); [split; [done|lia]|]. split.
    - intros Hn%subject_loop_sound. done.
    - intros [_ Hn]. by apply subject_loop_complete. }
  destruct values as [|value [|value' values]]; cbn [forwardedCommonName].
  - split; [by eexists|]. split; [done|]. by intros (? & ? & _).
  - split; [apply subjectCommonName_total|]. rewrite Hval. split; [intros; by exists value|]. by intros (? & [= <-] & ?).
  - split; [by eexists|]. split; [done|]. by intros (? & ? & _).
Qed.

(** The client certificate of someone who puts a CN into the organisation, after other pairs; and a hex pair. *)
Definition q : bytes := [quote].
Lemma evil_organisation :
  forwardedCommonName [str "Hash=0f;URI=" ++ q ++ str "a;b" ++ q ++ str ";Subject=" ++ q ++ str "O=x\,CN=admin\" ++ q ++ str ";Subject=\" ++ q ++
    str "CN=admin,CN=ci-1" ++ q ++ str ";By=proxy"] = Some (Some (str "ci-1")).
Proof. by vm_compute. Qed.
Lemma hex_pair_kept : forwardedCommonName [str "Subject=" ++ q ++ str "CN=J\C3\B6rg" ++ q] = Some (Some (str "JC3B6rg")).
Proof. by vm_compute. Qed.
