(* ===== verification/Acl.v ===== *)
(** * Roles and access rules

    src/src/daemon/acl.hh.  [fnmatch] is the C function on the bytes before the
    first NUL of its arguments. *)

From Stdlib Require Import Ascii.
From S2P Require Import Prelude Xfcc.

Inductive Role := readOnly | write | trusted.
#[export] Instance Role_eq_dec : EqDecision Role.
Proof. solve_decision. Defined.

(** The order of the enumeration. *)
Definition role_code (r : Role) : N := match r with readOnly => 0 | write => 1 | trusted => 2 end.
Definition role_le (a b : Role) : bool := (role_code a <=? role_code b)%N.
Definition role_min (a b : Role) : Role := if role_le a b then a else b.
Definition role_max (a b : Role) : Role := if role_le a b then b else a.

Definition roleNames : list (bytes * Role) :=
  [(str "read-only", readOnly); (str "write", write); (str "trusted", trusted)].

Definition roleName (role : Role) : bytes :=
  match list_find (λ p : bytes * Role, p.2 = role) roleNames with
  | Some (_, (name, _)) => name
  | None => str "unknown"
  end.

Definition parseRole (name : bytes) : option Role :=
  match list_find (λ p : bytes * Role, name = p.1) roleNames with
  | Some (_, (_, role)) => Some role
  | None => None
  end.

(** [rfind]: the bytes before and after the last [c]. *)
Fixpoint rfind_split (c : ascii) (s : bytes) : option (bytes * bytes) :=
  match s with
  | [] => None
  | d :: s =>
      match rfind_split c s with
      | Some (before, after) => Some (d :: before, after)
      | None => if decide (d = c) then Some ([], s) else None
      end
  end.

Module Acl.
Record t := mk { rules : list (bytes * Role); anonRole : option Role; identityRequired : bool; clientsTrusted : bool }.
Definition empty : t := mk [] None false false.

Definition capped (acl : t) (role : Role) : Role := if clientsTrusted acl then role else role_min role write.
Definition active (acl : t) : bool := negb (bool_decide (rules acl = [])).

(** [addRule]; [None] where it throws. *)
Definition addRule (spec : bytes) (acl : t) : option t :=
  match rfind_split equals spec with
  | None | Some ([], _) => None
  | Some (pattern, name) =>
      role ← parseRole name;
      Some (mk (rules acl ++ [(pattern, role)]) (anonRole acl) (identityRequired acl) (clientsTrusted acl))
  end.
Definition allowAnonymous (role : Role) (acl : t) : t := mk (rules acl) (Some role) (identityRequired acl) (clientsTrusted acl).
Definition requireIdentity (acl : t) : t := mk (rules acl) (anonRole acl) true (clientsTrusted acl).
Definition trustClients (acl : t) : t := mk (rules acl) (anonRole acl) (identityRequired acl) true.

Definition roleFor (fnmatch : bytes → bytes → bool) (acl : t) (commonName : option bytes) : option Role :=
  match commonName with
  | None =>
      match anonRole acl with
      | Some role => Some role
      | None => if identityRequired acl || active acl then None else Some (capped acl trusted)
      end
  | Some name =>
      if negb (active acl) then Some (capped acl trusted)
      else if decide (NUL ∈ name) then None
      else match list_find (λ rule : bytes * Role, fnmatch (c_str rule.1) (c_str name) = true) (rules acl) with
           | Some (_, (_, role)) => Some role
           | None => None
           end
  end.
End Acl.

(** ** Rules as they are written *)

Lemma rfind_split_app c s t : c ∉ t → rfind_split c (s ++ c :: t) = Some (s, t).
Proof.
  intros Ht. assert (rfind_split c t = None) as Hn.
  { clear s. induction t as [|d t IH]; [done|]. simpl. rewrite IH by set_solver. rewrite decide_False; set_solver. }
  induction s as [|d s IH]; simpl; [by rewrite Hn, decide_True|]. by rewrite IH.
Qed.

(** A rule on the command line is read back as written: the pattern is all that
    stands before the last '=', so it may contain '=' itself, and the role is the one
    named after it. *)
Theorem acl_rule_roundtrip pattern role acl :
  pattern ≠ [] →
  Acl.addRule (pattern ++ equals :: roleName role) acl =
    Some (Acl.mk (Acl.rules acl ++ [(pattern, role)]) (Acl.anonRole acl) (Acl.identityRequired acl) (Acl.clientsTrusted acl)).
Proof.
  intros Hp. unfold Acl.addRule. rewrite rfind_split_app by (destruct role; vm_compute; set_solver).
  destruct pattern; [done|]. by destruct role.
Qed.

Lemma acl_rule_witness : Acl.addRule (str "CN=ci-*=write") Acl.empty = Some (Acl.mk [(str "CN=ci-*", write)] None false false).
Proof. by apply (acl_rule_roundtrip (str "CN=ci-*") write Acl.empty). Defined.
