(* ===== verification/Oidc.v ===== *)
(** * Bearer tokens

    src/src/daemon/oidc.hh.  A JSON value is a tree; an object is the list of its
    members.  What the libraries do is an argument: [decode] (jwt::decode),
    [jwt_verify] (jwt-cpp's check of signature, issuer, audience and times with a
    key), [dump] (the text of a JSON value), the functions that turn the
    components of a key into a PEM, [http] (a GET with the provider's CA and token
    whose answer is parsed as JSON), [items] (the members of a JSON value), and
    [readFile] and [chomp] of nix.  [verify] takes the provider's fresh keys as an
    argument, which [fetchKeys] gives.  Times of the steady clock are milliseconds. *)

From Stdlib Require Import Ascii.
From S2P Require Import Prelude Xfcc Acl.

#[local] Set Warnings "-register-all".

Inductive Json :=
  | JNull
  | JBool (b : bool)
  | JNumber (digits : bytes)
  | JString (s : bytes)
  | JArray (l : list Json)
  | JObject (members : list (bytes * Json)).

Definition is_object (j : Json) : bool := match j with JObject _ => true | _ => false end.
(** [find] of an object's member. *)
Definition find (j : Json) (key : bytes) : option Json :=
  match j with
  | JObject members => (λ p, p.2.2) <$> list_find (λ m : bytes * Json, m.1 = key) members
  | _ => None
  end.
(** [value(key, default)] for a string: throws on another type. *)
Definition string_or (j : Json) (key default : bytes) : option bytes :=
  match j with
  | JObject _ =>
      match find j key with
      | None => Some default
      | Some (JString s) => Some s
      | Some _ => None
      end
  | _ => None
  end.

Module Rule.
Record t := mk { boundClaims : list (bytes * list bytes); role : Role }.
End Rule.

Module Provider.
Record t := mk {
  name : bytes; issuer : bytes; jwksUrl : bytes; audience : bytes; caFile : bytes; bearerTokenFile : bytes;
  rules : list Rule.t;
}.
End Provider.

Module Identity.
Record t := mk { subject : bytes; role : option Role }.
End Identity.

Definition maxTokenBytes : N := (16 * 1024)%N.

(** What the program reads of a decoded token. *)
Module Decoded.
Record t := mk {
  algorithm : option bytes; key_id : option bytes; issuer : option bytes; has_expires_at : bool; payload : Json;
}.
End Decoded.

Module Jwk.
Record t := mk { kid : bytes; kty : bytes; crv : bytes; pem : bytes }.
End Jwk.

(** ** Claims and rules *)

Section Claims.
Context (fnmatch : bytes → bytes → bool) (dump : Json → bytes).

Definition globAny (patterns values : list bytes) : bool :=
  existsb (λ val, negb (bool_decide (NUL ∈ val)) && existsb (λ pat, fnmatch (c_str pat) (c_str val)) patterns) values.

Definition dot : ascii := ascii_of_N 46.

(** The lengths to try: the whole name, then up to each dot from the end. *)
Definition cuts (name : bytes) : list nat :=
  length name :: rev (filter (λ i, name !! i = Some dot) (seq 0 (length name))).

(** Outer [None]: out of fuel. *)
Fixpoint lookupClaim (fuel : nat) (cur : Json) (name : bytes) : option (option Json) :=
  if negb (is_object cur) || bool_decide (name = []) then Some None
  else match fuel with
  | O => None
  | S fuel =>
      match list_find (λ d, is_Some (find cur (take d name))) (cuts name) with
      | None => Some None
      | Some (_, d) =>
          match find cur (take d name) with
          | None => Some None
          | Some cur => if decide (d = length name) then Some (Some cur) else lookupClaim fuel cur (drop (d + 1) name)
          end
      end
  end.

Definition claimStrings (value : Json) : list bytes :=
  match value with
  | JString s => [s]
  | JArray l => omap (λ item, match item with JString s => Some s | _ => None end) l
  | _ => [dump value]
  end.

Definition ruleMatches (rule : Rule.t) (claims : Json) : bool :=
  forallb (λ bound : bytes * list bytes,
    match lookupClaim (length bound.1) claims bound.1 with
    | Some (Some value) => globAny bound.2 (claimStrings value)
    | _ => false
    end) (Rule.boundClaims rule).

Definition roleFor (provider : Provider.t) (claims : Json) : option Role :=
  foldl (λ role rule,
    if ruleMatches rule claims then
      Some (match role with Some r => role_max r (Rule.role rule) | None => Rule.role rule end)
    else role) None (Provider.rules provider).
End Claims.

(** ** The configuration *)

(** [scopeRole] and the role of a rule's scopes; [None] where it throws. *)
Definition scopeRole (scope : bytes) : option Role :=
  if decide (scope = str "read") then Some readOnly
  else if decide (scope = str "write") then Some write
  else if decide (scope = str "admin") then Some trusted
  else None.

Definition scopes_role (scopes : list bytes) : option Role :=
  match scopes with
  | [] => None
  | _ => foldl (λ acc scope, role ← acc; r ← scopeRole scope; Some (role_max role r)) (Some readOnly) scopes
  end.

(** [get<std::vector<std::string>>] and the map of bound claims; [None]: they throw. *)
Definition strings_of (j : Json) : option (list bytes) :=
  match j with
  | JArray l => mapM (λ item, match item with JString s => Some s | _ => None end) l
  | _ => None
  end.
Definition claims_of (j : Json) : option (list (bytes * list bytes)) :=
  match j with
  | JObject members => mapM (λ m : bytes * Json, l ← strings_of m.2; Some (m.1, l)) members
  | _ => None
  end.
Definition value_or {A} (get : Json → option A) (j : Json) (key : bytes) (default : A) : option A :=
  match j with
  | JObject _ => match find j key with None => Some default | Some v => get v end
  | _ => None
  end.
Definition contains (j : Json) (key : bytes) : bool := bool_decide (is_Some (find j key)).

(** [boundClaims[key] = patterns] *)
Definition set_claim (key : bytes) (patterns : list bytes) (claims : list (bytes * list bytes)) : list (bytes * list bytes) :=
  (key, patterns) :: filter (λ c, c.1 ≠ key) claims.

Definition ruleFrom (json : Json) : option Rule.t :=
  claims ← value_or claims_of json (str "bound_claims") [];
  sub ← value_or strings_of json (str "bound_subject") [];
  let claims := if decide (sub = []) then claims else set_claim (str "sub") sub claims in
  scopes ← value_or strings_of json (str "scopes") [str "write"];
  role ← scopes_role scopes;
  Some (Rule.mk claims role).

Definition parseToken (decode : bytes → option Decoded.t) (token : bytes) : option Decoded.t :=
  if bool_decide (token = []) || (maxTokenBytes <? N.of_nat (length token))%N then None else decode token.

Section Config.
Context (decode : bytes → option Decoded.t) (readFile : bytes → option bytes) (chomp : bytes → bytes).
Context (items : Json → list (bytes * Json)).

Definition issuerFromTokenFile (path : bytes) : option bytes :=
  text ← readFile path;
  parsed ← parseToken decode (chomp text);
  Decoded.issuer parsed.

Definition https (url : bytes) : bool := starts_with url (str "https://").

Definition rules_from (prov : Json) : option (list Rule.t) :=
  match find prov (str "rules") with
  | None => rule ← ruleFrom prov; Some [rule]
  | Some rules =>
      if contains prov (str "bound_claims") || contains prov (str "bound_subject") || contains prov (str "scopes") then None
      else mapM (λ rule, if contains rule (str "scopes") then ruleFrom rule else None) (items rules).*2
  end.

Definition providerFrom (name : bytes) (prov : Json) (allowInsecure : bool) : option Provider.t :=
  issuer ← string_or prov (str "issuer") [];
  jwksUrl ← string_or prov (str "jwks_url") [];
  audience ← (match find prov (str "audience") with Some (JString s) => Some s | _ => None end);
  caFile ← string_or prov (str "ca_file") [];
  bearerTokenFile ← string_or prov (str "bearer_token_file") [];
  issuer ← (if decide (issuer = [] ∧ bearerTokenFile ≠ []) then issuerFromTokenFile bearerTokenFile else Some issuer);
  if decide (issuer = [] ∨ audience = []) then None
  else if negb allowInsecure && existsb (λ url, negb (bool_decide (url = [])) && negb (https url)) [issuer; jwksUrl] then None
  else rules ← rules_from prov;
       Some (Provider.mk name issuer jwksUrl audience caFile bearerTokenFile rules).

(** [loadConfig] of the parsed file; [None]: it throws. *)
Definition loadConfig (json : Json) : option (bool * list Provider.t) :=
  allowInsecure ← value_or (λ v, match v with JBool b => Some b | _ => None end) json (str "allow_insecure") false;
  provs ← find json (str "providers");
  providers ← foldl (λ acc np,
    providers ← acc;
    provider ← providerFrom np.1 np.2 allowInsecure;
    if existsb (λ other, bool_decide (Provider.issuer other = Provider.issuer provider)) providers then None
    else Some (providers ++ [provider])) (Some []) (items provs);
  if decide (providers = []) then None else Some (allowInsecure, providers).
End Config.

Section Keys.
Context (rsa_pem : bytes → bytes → option bytes) (ec_pem : bytes → bytes → bytes → option bytes).
Context (ed25519Pem : bytes → option bytes).

Definition at_string (j : Json) (key : bytes) : option bytes :=
  match find j key with Some (JString s) => Some s | _ => None end.

Definition parseJwk (json : Json) : option Jwk.t :=
  if negb (is_object json) then None
  else
    use ← string_or json (str "use") (str "sig");
    if decide (use ≠ str "sig") then None
    else
      kid ← string_or json (str "kid") [];
      kty ← string_or json (str "kty") [];
      crv ← string_or json (str "crv") [];
      pem ← (if decide (kty = str "RSA") then n ← at_string json (str "n"); e ← at_string json (str "e"); rsa_pem n e
             else if decide (kty = str "EC") then
               x ← at_string json (str "x"); y ← at_string json (str "y"); ec_pem crv x y
             else if decide (kty = str "OKP" ∧ crv = str "Ed25519") then x ← at_string json (str "x"); ed25519Pem x
             else Some []);
      if decide (pem = []) then None else Some (Jwk.mk kid kty crv pem).

Context (http : Provider.t → bytes → option Json) (items : Json → list (bytes * Json)) (allowInsecure : bool).

(** [Verifier::get]: [http] performs the request and parses the answer. *)
Definition get (provider : Provider.t) (url : bytes) : option Json :=
  if negb (https url) && negb allowInsecure then None else http provider url.

(** [while (issuer.ends_with('/')) issuer.pop_back()], on the reversed text. *)
Fixpoint pop_slashes (rissuer : bytes) : bytes :=
  match rissuer with
  | c :: rest => if decide (c = ascii_of_N 47) then pop_slashes rest else rissuer
  | [] => []
  end.

Definition keys_url (provider : Provider.t) : option bytes :=
  if decide (Provider.jwksUrl provider = []) then
    conf ← get provider (rev (pop_slashes (rev (Provider.issuer provider))) ++ str "/.well-known/openid-configuration");
    at_string conf (str "jwks_uri")
  else Some (Provider.jwksUrl provider).

(** [Verifier::fetchKeys]; [None]: it throws. *)
Definition fetchKeys (provider : Provider.t) : option (list Jwk.t) :=
  url ← keys_url provider;
  answer ← get provider url;
  keys ← find answer (str "keys");
  let fresh := omap (parseJwk ∘ snd) (items keys) in
  if decide (fresh = []) then None else Some fresh.
End Keys.

(** [allowKey]: whether a key may be used for the algorithm a token names. *)
Definition allowKey (alg : bytes) (key : Jwk.t) : bool :=
  let rsa := bool_decide (Jwk.kty key = str "RSA") in
  let ecc := λ crv, bool_decide (Jwk.kty key = str "EC") && bool_decide (Jwk.crv key = crv) in
  let named := λ a, bool_decide (alg = str a) in
  (named "RS256" && rsa) || (named "RS384" && rsa) || (named "RS512" && rsa)
  || (named "PS256" && rsa) || (named "PS384" && rsa) || (named "PS512" && rsa)
  || (named "ES256" && ecc (str "P-256")) || (named "ES384" && ecc (str "P-384")) || (named "ES512" && ecc (str "P-521"))
  || (named "EdDSA" && bool_decide (Jwk.kty key = str "OKP")).

Definition clockSkewSecs : N := 60.
Definition refetchAfterMs : Z := 60 * 60 * 1000.

(** [Verifier::fetchDue] *)
Definition fetchDue (fetched attempted : option Z) (now : Z) (haveKey : bool) (refetchOnMissMs : Z) : bool :=
  if (match attempted with Some a => (now - a <=? refetchOnMissMs)%Z | None => false end) then false
  else match fetched with
       | None => true
       | Some f => negb haveKey || (refetchAfterMs <? now - f)%Z
       end.

Module KeySet.
Record t := mk { keys : list Jwk.t; fetched : option Z; attempted : option Z }.
Definition empty : t := mk [] None None.
End KeySet.

(** ** [Verifier] *)

Section Verifier.
Context (decode : bytes → option Decoded.t).
Context (jwt_verify : bytes → bytes → bytes → bytes → N → Z → Decoded.t → bool).
Context (fnmatch : bytes → bytes → bool) (dump : Json → bytes).
Context (fetchKeys : Provider.t → option (list Jwk.t)) (refetchOnMissMs : Z).

(** [pick] of [candidates]: the keys the token's algorithm and key id allow. *)
Definition pick (alg kid : bytes) (keys : list Jwk.t) : list Jwk.t :=
  filter (λ key, (kid = [] ∨ Jwk.kid key = kid) ∧ allowKey alg key = true) keys.

(** [candidates]; [mono] and [mono'] are the two readings of the steady clock.
    [None]: it throws. *)
Definition candidates (provider : Provider.t) (token : Decoded.t) (mono mono' : Z) (set : KeySet.t)
    : KeySet.t * option (list Jwk.t) :=
  let alg := default [] (Decoded.algorithm token) in
  let kid := default [] (Decoded.key_id token) in
  let res := pick alg kid (KeySet.keys set) in
  let '(set, res) :=
    if fetchDue (KeySet.fetched set) (KeySet.attempted set) mono (negb (bool_decide (res = []))) refetchOnMissMs then
      let set := match fetchKeys provider with
                 | Some keys => KeySet.mk keys (Some mono) (KeySet.attempted set)
                 | None => set
                 end in
      let set := KeySet.mk (KeySet.keys set) (KeySet.fetched set) (Some mono') in
      (set, pick alg kid (KeySet.keys set))
    else (set, res) in
  (set, if decide (res = []) then None else Some res).

Fixpoint find_provider (iss : bytes) (providers : list Provider.t) (idx : nat) : option (nat * Provider.t) :=
  match providers with
  | [] => None
  | provider :: providers =>
      if decide (Provider.issuer provider ≠ iss) then find_provider iss providers (S idx) else Some (idx, provider)
  end.

(** [Verifier::doVerify] with the catch-alls of [verify]. *)
Definition verify (providers : list Provider.t) (token : bytes) (now mono mono' : Z) (keys : list KeySet.t)
    : list KeySet.t * option Identity.t :=
  match parseToken decode token with
  | None => (keys, None)
  | Some parsed =>
      match find_provider (default [] (Decoded.issuer parsed)) providers 0 with
      | None => (keys, None)
      | Some (idx, provider) =>
          if negb (Decoded.has_expires_at parsed) then (keys, None)
          else match keys !! idx with
          | None => (keys, None)
          | Some set =>
              let '(set, cands) := candidates provider parsed mono mono' set in
              let keys := <[idx := set]> keys in
              (keys,
                cands ← cands;
                let alg := default [] (Decoded.algorithm parsed) in
                if existsb (λ key : Jwk.t, jwt_verify alg (Jwk.pem key) (Provider.issuer provider)
                              (Provider.audience provider) clockSkewSecs now parsed) cands then
                  sub ← string_or (Decoded.payload parsed) (str "sub") [];
                  if decide (sub = [] ∨ NUL ∈ sub) then None
                  else Some (Identity.mk (str "oidc:" ++ Provider.name provider ++ str ":" ++ sub)
                               (roleFor fnmatch dump provider (Decoded.payload parsed)))
                else None)
          end
      end
  end.
End Verifier.

(** [bearerToken]: from the first authorization header. *)
Definition bearerToken (headers : list bytes) : option bytes :=
  match headers with
  | [] => None
  | value :: _ =>
      let prefix := str "Bearer " in
      if negb (starts_with value prefix) || bool_decide (length value = length prefix) then None
      else Some (drop (length prefix) value)
  end.
