(* ===== verification/OidcTheorems.v ===== *)
(** * What a bearer token proves *)

From Stdlib Require Import Ascii.
From stdpp Require Import sorting.
From S2P Require Import Prelude Xfcc Acl Oidc.

#[local] Set Warnings "-level-tolerance".

(** ** Claims *)

(** Where a claim's name ends, or where one could read it as a key and the name of a claim below. *)
Definition key_of (name key : bytes) : Prop := name = key ∨ ∃ rest, name = key ++ dot :: rest.

(** What a dotted name stands for: the member with that name; or, below the member with the longest key that the name begins
    with, what the rest of the name stands for there. *)
Inductive claim_at : Json → bytes → Json → Prop :=
  | claim_here j name v : name ≠ [] → find j name = Some v → claim_at j name v
  | claim_below j key rest j' v :
      find j key = Some j' → (∀ longer, key_of (key ++ dot :: rest) longer → length key < length longer → find j longer = None) →
      claim_at j' rest v → claim_at j (key ++ dot :: rest) v.

Lemma cuts_spec name d : d ∈ cuts name → d = length name ∨ name !! d = Some dot.
Proof.
  unfold cuts. rewrite elem_of_cons. intros [?|Hd]; [by left|right].
  rewrite <- Permutation_rev, list_elem_of_filter in Hd. by destruct Hd.
Qed.

Lemma lookupClaim_total fuel cur name : length name ≤ fuel → is_Some (lookupClaim fuel cur name).
Proof.
  revert cur name. induction fuel as [|fuel IH]; intros cur name Hf; cbn [lookupClaim].
  - destruct name; [|simpl in Hf; lia]. rewrite bool_decide_true, orb_true_r by done. by eexists.
  - destruct (negb (is_object cur) || bool_decide (name = [])) eqn:En; [by eexists|].
    apply orb_false_iff in En as [_ Hn%bool_decide_eq_false].
    destruct (list_find _ _) as [[i d]|]; [|by eexists]. destruct (find cur (take d name)); [|by eexists].
    case_decide; [by eexists|]. apply IH. rewrite length_drop. destruct name; [done|]. simpl in *. lia.
Qed.

Lemma key_of_take name d : d ∈ cuts name → key_of name (take d name) ∧ d <= length name.
Proof.
  intros [->|Hd]%cuts_spec; [split; [left; by rewrite take_ge|done]|]. split; [right|by eapply Nat.lt_le_incl, lookup_lt_Some].
  exists (drop (S d) name). symmetry. by apply take_drop_middle.
Qed.

Lemma find_object j key v : find j key = Some v → is_object j = true.
Proof. by destruct j. Qed.

Lemma take_key_of name key : key_of name key → length key ∈ cuts name ∧ take (length key) name = key.
Proof.
  intros [->|[rest ->]]; [split; [by left|by apply take_ge]|]. split; [|by apply take_app_length].
  right. rewrite <- Permutation_rev. apply list_elem_of_filter. split; [by apply list_lookup_middle|]. apply elem_of_seq. rewrite length_app. simpl. lia.
Qed.

(** The cuts are tried from the longest. *)
Lemma cuts_sorted name : StronglySorted gt (cuts name).
Proof.
  unfold cuts. assert (∀ n, StronglySorted gt (rev (filter (λ i, name !! i = Some dot) (seq 0 n))) ∧
    Forall (λ i, i < n) (rev (filter (λ i, name !! i = Some dot) (seq 0 n)))) as Hs.
  { intros n. induction n as [|n [IH1 IH2]]; [by repeat constructor|]. rewrite seq_S, filter_app, rev_app_distr. simpl.
    assert (Forall (λ i, i < S n) (rev (filter (λ i, name !! i = Some dot) (seq 0 n)))) as IH3 by (eapply Forall_impl; [done|]; simpl; lia).
    rewrite filter_cons, filter_nil. case_decide; simpl; [|done]. split; constructor; (done || lia). }
  destruct (Hs (length name)). by constructor.
Qed.

Lemma cuts_longest j name i d :
  list_find (λ d, is_Some (find j (take d name))) (cuts name) = Some (i, d) →
  ∀ longer, key_of name longer → d < length longer → find j longer = None.
Proof.
  intros (Hi & _ & Hfirst)%list_find_Some longer [Hin Htake]%take_key_of Hlt. apply list_elem_of_lookup in Hin as [k Hk].
  destruct (decide (k < i)) as [Hki|Hki].
  - specialize (Hfirst k _ Hk Hki). rewrite Htake in Hfirst. by apply eq_None_not_Some.
  - exfalso. destruct (decide (k = i)) as [->|]; [simplify_eq; lia|].
    assert (Forall (gt d) (drop (S i) (cuts name))) as Hall.
    { pose proof (cuts_sorted name) as Hs. rewrite <- (take_drop_middle _ _ _ Hi) in Hs. apply StronglySorted_app in Hs as (_ & _ & Hs). by inversion Hs. }
    rewrite Forall_forall in Hall. enough (length longer ∈ drop (S i) (cuts name)) as Hin by (specialize (Hall _ Hin); lia).
    apply list_elem_of_lookup. exists (k - S i). rewrite lookup_drop. by replace (S i + (k - S i)) with k by lia.
Qed.

Lemma lookupClaim_sound fuel cur name v : lookupClaim fuel cur name = Some (Some v) → claim_at cur name v.
Proof.
  revert cur name. induction fuel as [|fuel IH]; intros cur name; cbn [lookupClaim]; [by destruct (_ || _)|].
  destruct (_ || _) eqn:En; [done|]. apply orb_false_iff in En as [_ Hne%bool_decide_eq_false].
  destruct (list_find _ _) as [[i d]|] eqn:El; [|done]. pose proof (cuts_longest _ _ _ _ El) as Hlong.
  apply list_find_Some in El as (Hi & _ & _). destruct (find cur (take d name)) as [cur'|] eqn:Ef; [|done].
  assert (d ∈ cuts name) as Hd by (apply list_elem_of_lookup; by exists i). case_decide as Hlen.
  - intros [= <-]. subst d. rewrite take_ge in Ef by done. by apply claim_here.
  - apply cuts_spec in Hd as [?|Hdot]; [done|]. intros Hv%IH. pose proof (take_drop_middle _ _ _ Hdot) as Hname.
    rewrite Nat.add_1_r in Hv. rewrite <- Hname. apply (claim_below _ _ _ cur'); [done| |done].
    rewrite Hname. intros longer Hk Hl. apply Hlong; [done|]. rewrite length_take in Hl. apply lookup_lt_Some in Hdot. lia.
Qed.

Lemma lookupClaim_complete cur name v : claim_at cur name v → ∀ fuel, length name <= fuel → lookupClaim fuel cur name = Some (Some v).
Proof.
  induction 1 as [j name v Hne Hf|j key rest j' v Hf Hlong Hc IH]; intros fuel Hle.
  - destruct fuel as [|fuel]; [destruct name; [done|simpl in Hle; lia]|]. cbn [lookupClaim].
    rewrite (find_object _ _ _ Hf), bool_decide_eq_false_2 by done. cbn [negb orb]. unfold cuts. simpl.
    rewrite decide_True by (rewrite take_ge by done; by eexists). rewrite take_ge, Hf by done. by rewrite decide_True.
  - assert (length rest < fuel) as Hr by (rewrite length_app in Hle; simpl in Hle; lia). destruct fuel as [|fuel]; [lia|]. cbn [lookupClaim].
    rewrite (find_object _ _ _ Hf), bool_decide_eq_false_2 by (by intros [_ ?]%app_nil). cbn [negb orb].
    assert (key_of (key ++ dot :: rest) key) as Hk by (right; by exists rest). destruct (take_key_of _ _ Hk) as [Hin Htake].
    destruct (list_find _ _) as [[i d]|] eqn:El.
    2:{ eapply list_find_None in El. rewrite Forall_forall in El. destruct (El _ Hin). rewrite Htake. by eexists. }
    assert (d = length key) as ->.
    { pose proof (cuts_longest _ _ _ _ El _ Hk) as Hd. apply list_find_Some in El as (Hi & [x Hx] & _).
      assert (d ∈ cuts (key ++ dot :: rest)) as [Hkd Hdl]%key_of_take by (apply list_elem_of_lookup; by exists i).
      specialize (Hlong _ Hkd). rewrite Hx, length_take in Hlong. rewrite Hf in Hd.
      destruct (decide (length key < d)) as [H1|]; [by specialize (Hlong ltac:(lia))|]. destruct (decide (d < length key)) as [H2|]; [by specialize (Hd H2)|]. lia. }
    rewrite Htake, Hf, decide_False by (rewrite length_app; simpl; lia).
    replace (drop (length key + 1) (key ++ dot :: rest)) with rest; [apply IH; lia|].
    change (dot :: rest) with ([dot] ++ rest). rewrite (assoc_L app). symmetry. apply drop_app_length'. rewrite length_app. simpl. lia.
Qed.

(** ** Rules *)

Section Rules.
Context (fnmatch : bytes → bytes → bool) (dump : Json → bytes).

(** A rule holds of the claims: each bound claim is found at its dotted name and one of
    its strings, without NUL, matches one of the patterns. *)
Definition rule_holds (rule : Rule.t) (claims : Json) : Prop :=
  ∀ name patterns, (name, patterns) ∈ Rule.boundClaims rule →
  ∃ v val pat, claim_at claims name v ∧
    val ∈ claimStrings dump v ∧ NUL ∉ val ∧ pat ∈ patterns ∧ fnmatch (c_str pat) (c_str val) = true.

Lemma globAny_exact patterns values :
  globAny fnmatch patterns values = true ↔ ∃ val pat, val ∈ values ∧ NUL ∉ val ∧ pat ∈ patterns ∧ fnmatch (c_str pat) (c_str val) = true.
Proof.
  unfold globAny. rewrite existsb_exists. setoid_rewrite andb_true_iff. setoid_rewrite negb_true_iff. setoid_rewrite bool_decide_eq_false.
  setoid_rewrite existsb_exists. setoid_rewrite <- list_elem_of_In. naive_solver.
Qed.

Lemma ruleMatches_holds rule claims : ruleMatches fnmatch dump rule claims = true ↔ rule_holds rule claims.
Proof.
  unfold ruleMatches, rule_holds. rewrite forallb_forall. setoid_rewrite <- list_elem_of_In. split.
  - intros Hall name patterns Hin. specialize (Hall _ Hin). simpl in Hall. destruct (lookupClaim _ claims name) as [[v|]|] eqn:El; [|done..].
    apply lookupClaim_sound in El. apply globAny_exact in Hall as (val & pat & ?). by exists v, val, pat.
  - intros Hall [name patterns] Hin. destruct (Hall _ _ Hin) as (v & val & pat & Hc & ?). simpl.
    rewrite (lookupClaim_complete _ _ _ Hc) by done. apply globAny_exact. by exists val, pat.
Qed.

(** The highest role of the rules that hold; none if none does. *)
Definition highest_role (provider : Provider.t) (claims : Json) (role : option Role) : Prop :=
  match role with
  | Some role => (∃ rule, rule ∈ Provider.rules provider ∧ rule_holds rule claims ∧ Rule.role rule = role) ∧
      ∀ rule, rule ∈ Provider.rules provider → rule_holds rule claims → role_le (Rule.role rule) role = true
  | None => ∀ rule, rule ∈ Provider.rules provider → ¬ rule_holds rule claims
  end.

Lemma roleFor_highest provider claims : highest_role provider claims (roleFor fnmatch dump provider claims).
Proof.
  unfold roleFor, highest_role. induction (Provider.rules provider) as [|rule rules IH] using rev_ind; [by intros ? ?%elem_of_nil|].
  rewrite foldl_snoc. destruct (foldl _ None rules) as [r|]; destruct (ruleMatches fnmatch dump rule claims) eqn:Em.
  - apply ruleMatches_holds in Em. destruct IH as [(rl & Hin & Hm & Hr) Hall]. split.
    + unfold role_max. destruct (role_le r (Rule.role rule)); [exists rule|exists rl]; set_solver.
    + intros rl' [Hin'| ->%list_elem_of_singleton]%elem_of_app Hm'; [|by destruct r, (Rule.role rule)].
      pose proof (Hall rl' Hin' Hm') as Hle. by destruct (Rule.role rl'), r, (Rule.role rule).
  - destruct IH as [H1 H2]. split; [set_solver|]. intros rl' [?| ->%list_elem_of_singleton]%elem_of_app Hm'%ruleMatches_holds; [|congruence].
    by apply H2, ruleMatches_holds.
  - apply ruleMatches_holds in Em. split; [exists rule; set_solver|].
    intros rl' [Hin'| ->%list_elem_of_singleton]%elem_of_app Hm'; [by destruct (IH rl' Hin')|by destruct (Rule.role rule)].
  - intros rl' [?| ->%list_elem_of_singleton]%elem_of_app Hm'; [by destruct (IH rl')|]. apply ruleMatches_holds in Hm'. congruence.
Qed.
End Rules.

(** ** Keys *)

(** The key type and curve an algorithm needs: public-key signatures only. *)
Definition alg_key (alg : string) : option (string * option string) :=
  match alg with
  | "RS256" | "RS384" | "RS512" | "PS256" | "PS384" | "PS512" => Some ("RSA", None)
  | "ES256" => Some ("EC", Some "P-256")
  | "ES384" => Some ("EC", Some "P-384")
  | "ES512" => Some ("EC", Some "P-521")
  | "EdDSA" => Some ("OKP", None)
  | _ => None
  end%string.

Definition fits (alg : bytes) (key : Jwk.t) : Prop :=
  ∃ a kty crv, alg = str a ∧ alg_key a = Some (kty, crv) ∧ Jwk.kty key = str kty ∧
    ∀ c, crv = Some c → Jwk.crv key = str c.

Lemma allowKey_fits alg key : allowKey alg key = true → fits alg key.
Proof.
  unfold allowKey, fits. rewrite !orb_true_iff, !andb_true_iff, !bool_decide_eq_true. intros H.
  destruct_or! H; destruct_and! H; (eexists _, _, _; split_and!; [eassumption|reflexivity|eassumption|]);
    intros c Hc; by simplify_eq.
Qed.

Section Verify.
Context (decode : bytes → option Decoded.t).
Context (jwt_verify : bytes → bytes → bytes → bytes → N → Z → Decoded.t → bool).
Context (fnmatch : bytes → bytes → bool) (dump : Json → bytes).
Context (fetchKeys : Provider.t → option (list Jwk.t)) (refetchOnMissMs : Z).

Lemma candidates_spec provider token mono mono' set set' cands key :
  candidates fetchKeys refetchOnMissMs provider token mono mono' set = (set', Some cands) → key ∈ cands →
  fits (default [] (Decoded.algorithm token)) key ∧
  (∀ kid, Decoded.key_id token = Some kid → kid ≠ [] → Jwk.kid key = kid) ∧
  (key ∈ KeySet.keys set ∨ ∃ ks, fetchKeys provider = Some ks ∧ key ∈ ks).
Proof.
  unfold candidates. set (alg := default [] (Decoded.algorithm token)). set (kid := default [] (Decoded.key_id token)).
  assert (∀ ks, key ∈ pick alg kid ks → (fits alg key ∧ (∀ kid, Decoded.key_id token = Some kid → kid ≠ [] → Jwk.kid key = kid)) ∧
    key ∈ ks) as Hp.
  { intros ks [[Hk Ha] Hin]%list_elem_of_filter. split; [split; [by apply allowKey_fits|]|done].
    intros k Ek Hne. unfold kid in Hk. rewrite Ek in Hk. simpl in Hk. by destruct Hk. }
  destruct (fetchDue _ _ _ _ _); case_decide; intros [= <- <-] Hin; apply Hp in Hin as [[??] Hin]; split_and!; try done.
  - destruct (fetchKeys provider) as [ks|]; simpl in Hin; [right; by exists ks|by left].
  - by left.
Qed.

Lemma find_provider_spec iss providers idx i p :
  find_provider iss providers idx = Some (i, p) → ∃ k, i = idx + k ∧ providers !! k = Some p ∧ Provider.issuer p = iss.
Proof.
  revert idx. induction providers as [|q providers IH]; intros idx; simpl; [done|]. case_decide as Hq.
  - intros (k & -> & Hk & Hi)%IH. exists (S k). split_and!; [lia|done|done].
  - intros [= <- <-]. exists 0. split_and!; [lia|done|]. first [done|by apply dec_stable].
Qed.

(** C36. An identity is only given for a token that names a configured provider as its
    issuer, has an expiry, and verifies against a key of that provider's own key set
    that fits the token's algorithm and key id, so never for an unsigned or
    symmetrically signed token.  The identity is the provider's name and the token's
    subject, and its role the highest among the rules that hold of the claims, or none if none does; a rule
    holds if every claim it binds is found, by the longest keys its dotted name begins with, and has a value without NUL that
    matches one of the patterns. *)
Theorem token_identity providers token now mono mono' keys keys' who :
  verify decode jwt_verify fnmatch dump fetchKeys refetchOnMissMs providers token now mono mono' keys = (keys', Some who) →
  ∃ parsed (idx : nat) provider set key sub,
    parseToken decode token = Some parsed ∧ providers !! idx = Some provider ∧ keys !! idx = Some set ∧
    default [] (Decoded.issuer parsed) = Provider.issuer provider ∧ Decoded.has_expires_at parsed = true ∧
    (key ∈ KeySet.keys set ∨ ∃ ks, fetchKeys provider = Some ks ∧ key ∈ ks) ∧
    fits (default [] (Decoded.algorithm parsed)) key ∧
    (∀ kid, Decoded.key_id parsed = Some kid → kid ≠ [] → Jwk.kid key = kid) ∧
    jwt_verify (default [] (Decoded.algorithm parsed)) (Jwk.pem key) (Provider.issuer provider) (Provider.audience provider)
      clockSkewSecs now parsed = true ∧
    string_or (Decoded.payload parsed) (str "sub") [] = Some sub ∧ sub ≠ [] ∧ NUL ∉ sub ∧
    Identity.subject who = str "oidc:" ++ Provider.name provider ++ str ":" ++ sub ∧
    highest_role fnmatch dump provider (Decoded.payload parsed) (Identity.role who).
Proof.
  unfold verify. destruct (parseToken decode token) as [parsed|] eqn:Ep; [|done].
  destruct (find_provider _ _ _) as [[idx provider]|] eqn:Ef; [|done].
  apply find_provider_spec in Ef as (k & -> & Hk & Hi). destruct (Decoded.has_expires_at parsed) eqn:Ex; [|done].
  simpl. destruct (keys !! k) as [set|] eqn:Es; [|done].
  destruct (candidates fetchKeys refetchOnMissMs provider parsed mono mono' set) as [set' [cands|]] eqn:Ec; [|done].
  intros [= _ Hres]. cbn [mbind option_bind] in Hres. destruct (existsb _ cands) eqn:Ee; [|done].
  destruct (string_or _ _ _) as [sub|] eqn:Esub; [|done]. cbn [mbind option_bind] in Hres.
  case_decide as Hs; [done|]. injection Hres as <-. apply existsb_exists in Ee as (key & Hin%list_elem_of_In & Hv).
  destruct (candidates_spec _ _ _ _ _ _ _ _ Ec Hin) as (Hfit & Hkid & Hsrc).
  exists parsed, k, provider, set, key, sub. split_and!; try done; [by intros ->; apply Hs; left|by intros ?; apply Hs; right|].
  apply roleFor_highest.
Qed.
End Verify.

(** ** The configuration *)

Section Config.
Context (decode : bytes → option Decoded.t) (readFile : bytes → option bytes) (chomp : bytes → bytes).
Context (items : Json → list (bytes * Json)).

(** The addresses of a provider's keys are https, unless that was waived. *)
Definition provider_ok (allowInsecure : bool) (p : Provider.t) : Prop :=
  Provider.issuer p ≠ [] ∧ Provider.audience p ≠ [] ∧
  (allowInsecure = false → https (Provider.issuer p) = true ∧ (Provider.jwksUrl p = [] ∨ https (Provider.jwksUrl p) = true)).

Definition config_ok (cfg : bool * list Provider.t) : Prop :=
  cfg.2 ≠ [] ∧ Forall (provider_ok cfg.1) cfg.2 ∧ NoDup (Provider.issuer <$> cfg.2).

Lemma providerFrom_ok name prov ins p :
  providerFrom decode readFile chomp items name prov ins = Some p → provider_ok ins p.
Proof.
  unfold providerFrom. intros H. repeat (apply bind_Some in H as (? & _ & H)).
  case_decide as He; [done|]. destruct (negb ins && _) eqn:Eu; [done|]. apply bind_Some in H as (rules & _ & [= <-]).
  split_and!; simpl; [intros ?; apply He; by left|intros ?; apply He; by right|]. intros ->. simpl in Eu. rewrite orb_false_r in Eu.
  apply orb_false_iff in Eu as [E1 E2]. rewrite bool_decide_false in E1 by (intros ?; apply He; by left).
  split; [by apply negb_false_iff|]. apply andb_false_iff in E2 as [E2|E2]; apply negb_false_iff in E2.
  - left. by apply bool_decide_eq_true in E2.
  - by right.
Qed.

(** C38. A configuration that loads has providers, each with an issuer and an audience
    and, unless insecure ones were allowed, with https addresses only, and no two
    share an issuer: the issuer of a token names the one provider it is checked
    against. *)
Theorem loadConfig_ok json cfg : loadConfig decode readFile chomp items json = Some cfg → config_ok cfg.
Proof.
  unfold loadConfig. intros (ins & _ & (provs & _ & (providers & Hf & H)%bind_Some)%bind_Some)%bind_Some.
  case_decide as Hne; [done|]. injection H as <-. cut (Forall (provider_ok ins) providers ∧ NoDup (Provider.issuer <$> providers)).
  { intros [??]. done. }
  clear json Hne. revert providers Hf. induction (items provs) as [|np nps IH] using rev_ind; intros providers.
  - intros [= <-]. split; [done|]. apply NoDup_nil_2.
  - rewrite foldl_snoc. intros (ps & Hps & (p & Hp & H)%bind_Some)%bind_Some. destruct (existsb _ ps) eqn:Ee; [done|].
    injection H as <-. destruct (IH ps Hps) as [Hok Hnd]. split.
    + apply Forall_app. split; [done|]. apply Forall_singleton. by eapply providerFrom_ok.
    + rewrite fmap_app. apply NoDup_app. split_and!; [done| |apply NoDup_singleton].
      intros iss (q & Eq & Hq)%list_elem_of_fmap Ep%list_elem_of_singleton. apply not_true_iff_false in Ee. apply Ee.
      apply existsb_exists. exists q. split; [by apply list_elem_of_In|]. apply bool_decide_eq_true. congruence.
Qed.
End Config.

(** A token of a CI provider, with a glob rule on a nested claim. *)
Definition ci_provider : Provider.t :=
  Provider.mk (str "ci") (str "https://ci") [] (str "nix") [] []
    [Rule.mk [(str "sub", [str "repo:*"])] readOnly; Rule.mk [(str "job.ref", [str "main"])] write].
Definition ci_token : Decoded.t :=
  Decoded.mk (Some (str "ES256")) (Some (str "k1")) (Some (str "https://ci")) true
    (JObject [(str "sub", JString (str "repo:a")); (str "job", JObject [(str "ref", JArray [JString (str "main")])])]).
Definition ci_key : Jwk.t := Jwk.mk (str "k1") (str "EC") (str "P-256") (str "pem").
Definition ci_fnmatch (pat val : bytes) : bool := bool_decide (pat = val) || bool_decide (pat = str "repo:*").
Definition ci_verify (alg pem issuer audience : bytes) (leeway : N) (now : Z) (token : Decoded.t) : bool :=
  bool_decide (pem = str "pem").

Lemma token_identity_witness :
  verify (λ _, Some ci_token) ci_verify ci_fnmatch (λ _, []) (λ _, Some [ci_key]) 30000 [ci_provider] (str "a.b.c") 0 5 6
    [KeySet.empty] =
    ([KeySet.mk [ci_key] (Some 5%Z) (Some 6%Z)], Some (Identity.mk (str "oidc:ci:repo:a") (Some write))) ∧
  ∃ parsed (idx : nat) provider set key sub,
    parseToken (λ _, Some ci_token) (str "a.b.c") = Some parsed ∧ [ci_provider] !! idx = Some provider ∧
    [KeySet.empty] !! idx = Some set ∧
    default [] (Decoded.issuer parsed) = Provider.issuer provider ∧ Decoded.has_expires_at parsed = true ∧
    (key ∈ KeySet.keys set ∨ ∃ ks, Some [ci_key] = Some ks ∧ key ∈ ks) ∧
    fits (default [] (Decoded.algorithm parsed)) key ∧
    (∀ kid, Decoded.key_id parsed = Some kid → kid ≠ [] → Jwk.kid key = kid) ∧
    ci_verify (default [] (Decoded.algorithm parsed)) (Jwk.pem key) (Provider.issuer provider) (Provider.audience provider)
      clockSkewSecs 0 parsed = true ∧
    string_or (Decoded.payload parsed) (str "sub") [] = Some sub ∧ sub ≠ [] ∧ NUL ∉ sub ∧
    str "oidc:ci:repo:a" = str "oidc:" ++ Provider.name provider ++ str ":" ++ sub ∧
    highest_role ci_fnmatch (λ _, []) provider (Decoded.payload parsed) (Some write).
Proof.
  split; [by vm_compute|].
  apply (token_identity (λ _, Some ci_token) ci_verify ci_fnmatch (λ _, []) (λ _, Some [ci_key]) 30000 [ci_provider]
    (str "a.b.c") 0 5 6 [KeySet.empty] [KeySet.mk [ci_key] (Some 5%Z) (Some 6%Z)]
    (Identity.mk (str "oidc:ci:repo:a") (Some write))).
  by vm_compute.
Defined.

(** A configuration with two providers, one with rules. *)
Definition ci_config : Json :=
  JObject [(str "providers", JObject
    [(str "ci", JObject [(str "issuer", JString (str "https://ci")); (str "audience", JString (str "nix"));
       (str "rules", JArray [JObject [(str "bound_subject", JArray [JString (str "repo:*")]);
                                      (str "scopes", JArray [JString (str "read"); JString (str "write")])]])]);
     (str "me", JObject [(str "bearer_token_file", JString (str "f")); (str "audience", JString (str "nix"))])])].
Definition me_token : Decoded.t := Decoded.mk None None (Some (str "https://me")) true JNull.
Definition json_items (j : Json) : list (bytes * Json) :=
  match j with JObject l => l | JArray l => ([],.) <$> l | _ => [] end.
Definition ci_providers : list Provider.t :=
  [Provider.mk (str "ci") (str "https://ci") [] (str "nix") [] [] [Rule.mk [(str "sub", [str "repo:*"])] write];
   Provider.mk (str "me") (str "https://me") [] (str "nix") [] (str "f") [Rule.mk [] write]].

Lemma loadConfig_witness :
  loadConfig (λ _, Some me_token) Some id json_items ci_config = Some (false, ci_providers) ∧
  config_ok (false, ci_providers).
Proof.
  split; [by vm_compute|].
  apply (loadConfig_ok (λ _, Some me_token) Some id json_items ci_config). by vm_compute.
Defined.
