(* ===== verification/Auth.v ===== *)
(** * Who is calling, and what they may call

    src/src/daemon/auth.hh and auth.cc, and [clientCommonName] of src/src/logfmt.hh.
    A call has the peer's certificate, if any, and the two headers that identify
    a caller. *)

From Stdlib Require Import Ascii.
From S2P Require Import Prelude Xfcc XfccTheorems Acl Oidc.

#[local] Set Warnings "-level-tolerance".

Module Call.
Record t := mk {
  hasCert : bool;                (* the TLS peer presented a certificate *)
  commonNames : list bytes;      (* its x509 CN property *)
  forwarded : list bytes;        (* values of x-forwarded-client-cert *)
  authorization : list bytes;    (* values of authorization *)
}.
End Call.

Definition clientCommonName (c : Call.t) : option bytes :=
  if Call.hasCert c then Some (match Call.commonNames c with [] => [] | cn :: _ => cn end) else None.

Inductive Kind := anonymous | named | badToken.

Module Caller.
Record t := mk { name : bytes; role : option Role; kind : Kind }.
End Caller.

Inductive StatusCode := OK | PERMISSION_DENIED | UNAUTHENTICATED.
Definition Status : Type := StatusCode * bytes.

Module Auth.
Record t := mk { acl : Acl.t; proxies : TrustedProxies.t; oidc : option (list Provider.t) }.

Section Auth.
Context (decode : bytes → option Decoded.t).
Context (jwt_verify : bytes → bytes → bytes → bytes → N → Z → Decoded.t → bool).
Context (fnmatch : bytes → bytes → bool) (dump : Json → bytes).
Context (fetchKeys : Provider.t → option (list Jwk.t)) (refetchOnMissMs : Z).

(** [forwardedCommonName] always ends. *)
Definition forwarded (c : Call.t) : option bytes := default None (forwardedCommonName (Call.forwarded c)).

(** Whose certificate the call is made with. *)
Definition client_cert (a : t) (c : Call.t) : option bytes :=
  let cert := clientCommonName c in
  if TrustedProxies.matches fnmatch (proxies a) cert then forwarded c else cert.

Definition by_cert (a : t) (cert : option bytes) : Caller.t :=
  Caller.mk (default (str "-") cert) (Acl.roleFor fnmatch (acl a) cert)
    (match cert with Some _ => named | None => anonymous end).

(** [Auth::identify]; the state is the signing keys of the verifier. *)
Definition identify (a : t) (c : Call.t) (now mono mono' : Z) (keys : list KeySet.t) : list KeySet.t * Caller.t :=
  let cert := client_cert a c in
  let certKnown := match cert with Some _ => Acl.roleFor fnmatch (acl a) cert | None => None end in
  match certKnown, oidc a with
  | None, Some providers =>
      match bearerToken (Call.authorization c) with
      | Some token =>
          let '(keys, res) := verify decode jwt_verify fnmatch dump fetchKeys refetchOnMissMs providers token now mono mono' keys in
          (keys, match res with
                 | None => Caller.mk (str "-") None badToken
                 | Some who => Caller.mk (Identity.subject who) (Identity.role who) named
                 end)
      | None => (keys, by_cert a cert)
      end
  | _, _ => (keys, by_cert a cert)
  end.

Definition identifyDirect (a : t) (c : Call.t) : Caller.t := by_cert a (clientCommonName c).
End Auth.

(** [Auth::authorize] *)
Definition authorize (caller : Caller.t) (method : bytes) (minRole : Role) : Status :=
  match Caller.role caller with
  | Some role =>
      if role_le minRole role then (OK, [])
      else (PERMISSION_DENIED, str "role '" ++ roleName role ++ str "' may not call " ++ method)
  | None =>
      match Caller.kind caller with
      | anonymous => (UNAUTHENTICATED, str "server requires a TLS client certificate or bearer token")
      | badToken => (UNAUTHENTICATED, str "bearer token rejected")
      | named => (PERMISSION_DENIED, str "no access rule matches '" ++ Caller.name caller ++ str "'")
      end
  end.

Definition bmRepair_wire : N := 1.

Definition authorize_mode (caller : Caller.t) (method : bytes) (minRole : Role) (buildMode : N) : Status :=
  let status := authorize caller method minRole in
  match status.1 with
  | OK => if (buildMode =? bmRepair_wire)%N then authorize caller (method ++ str "(repair)") trusted else status
  | _ => status
  end.
End Auth.

(** ** Entitlement *)

Section Entitled.
Context (decode : bytes → option Decoded.t).
Context (jwt_verify : bytes → bytes → bytes → bytes → N → Z → Decoded.t → bool).
Context (fnmatch : bytes → bytes → bool) (dump : Json → bytes).
Context (fetchKeys : Provider.t → option (list Jwk.t)) (refetchOnMissMs : Z).
Context (a : Auth.t) (c : Call.t) (now mono mono' : Z) (keys : list KeySet.t).

Abbreviation identify' := (Auth.identify decode jwt_verify fnmatch dump fetchKeys refetchOnMissMs a c now mono mono' keys).
Abbreviation verify' providers token :=
  (verify decode jwt_verify fnmatch dump fetchKeys refetchOnMissMs providers token now mono mono' keys).

(** The certificate speaks for its own CN, except that of a trusted proxy, which speaks
    for the client it names. *)
Inductive speaks_for : option bytes → Prop :=
  | own : TrustedProxies.matches fnmatch (Auth.proxies a) (clientCommonName c) = false → speaks_for (clientCommonName c)
  | forwarded_by name : TrustedProxies.matches fnmatch (Auth.proxies a) (clientCommonName c) = true →
      forwardedCommonName (Call.forwarded c) = Some name → speaks_for name.

(** The first rule whose pattern matches. *)
Definition first_rule (name : bytes) (role : Role) : Prop :=
  ∃ i pat, Acl.rules (Auth.acl a) !! i = Some (pat, role) ∧ fnmatch (c_str pat) (c_str name) = true ∧ NUL ∉ name ∧
    ∀ j pat' role', j < i → Acl.rules (Auth.acl a) !! j = Some (pat', role') → fnmatch (c_str pat') (c_str name) = false.

(** Who has no rule of their own. *)
Definition no_rule (cert : option bytes) : Prop :=
  ∀ name, cert = Some name → Acl.rules (Auth.acl a) ≠ [] ∧ ∀ role, ¬ first_rule name role.

(** The role everyone gets when there are no rules. *)
Definition open_role : Role := if Acl.clientsTrusted (Auth.acl a) then trusted else write.

Definition has_token (token : bytes) : Prop := is_Some (Auth.oidc a) ∧ bearerToken (Call.authorization c) = Some token.

Inductive entitled : Role → Prop :=
  | by_rule name role : speaks_for (Some name) → first_rule name role → entitled role
  | by_default name : speaks_for (Some name) → Acl.rules (Auth.acl a) = [] → entitled open_role
  | by_token cert token providers who role :
      speaks_for cert → no_rule cert → Auth.oidc a = Some providers → has_token token →
      (verify' providers token).2 = Some who → Identity.role who = Some role → entitled role
  | as_anonymous role :
      speaks_for None → (∀ token, ¬ has_token token) → Acl.anonRole (Auth.acl a) = Some role → entitled role
  | unguarded :
      speaks_for None → (∀ token, ¬ has_token token) → Acl.anonRole (Auth.acl a) = None →
      Acl.identityRequired (Auth.acl a) = false → Acl.rules (Auth.acl a) = [] → entitled open_role.

Lemma roleFor_named name role :
  Acl.roleFor fnmatch (Auth.acl a) (Some name) = Some role ↔
  (Acl.rules (Auth.acl a) = [] ∧ role = open_role) ∨ first_rule name role.
Proof.
  unfold Acl.roleFor, Acl.active, first_rule. destruct (decide (Acl.rules (Auth.acl a) = [])) as [E|E].
  - rewrite bool_decide_true by done. simpl. unfold Acl.capped, open_role. rewrite E.
    split; [intros [= <-]; left; by destruct (Acl.clientsTrusted _)|].
    intros [[_ ->]|(i & pat & Hi & _)]; [by destruct (Acl.clientsTrusted _)|done].
  - rewrite bool_decide_false by done. simpl. case_decide as HN; [naive_solver|].
    split.
    + destruct (list_find _ _) as [[i [pat r]]|] eqn:Ef; [|done]. intros [= ->].
      apply list_find_Some in Ef as (Hi & Hm & Hb). right. exists i, pat. split_and!; [done..|].
      intros j pat' role' Hj Hl. apply not_true_is_false. exact (Hb j _ Hl Hj).
    + intros [[? _]|(i & pat & Hi & Hm & _ & Hb)]; [done|].
      rewrite (proj2 (list_find_Some _ _ i (pat, role))); [done|]. split_and!; [done..|].
      intros j [pat' role'] Hl Hj. simpl. by rewrite (Hb j pat' role' Hj Hl).
Qed.

Lemma no_rule_iff cert :
  no_rule cert ↔ match cert with Some _ => Acl.roleFor fnmatch (Auth.acl a) cert = None | None => True end.
Proof.
  unfold no_rule. destruct cert as [name|]; [|naive_solver]. pose proof (roleFor_named name) as Hr. split.
  - intros Hn. destruct (Hn name eq_refl) as [Hne Hno]. apply eq_None_not_Some. intros [role [[? _]|?]%Hr]; [done|]. by eapply Hno.
  - intros E name' [= <-]. rewrite E in Hr. split.
    + intros E'. by pose proof (proj2 (Hr open_role) (or_introl (conj E' eq_refl))).
    + intros role Hf. by pose proof (proj2 (Hr role) (or_intror Hf)).
Qed.

Lemma speaks_for_iff cert : speaks_for cert ↔ cert = Auth.client_cert fnmatch a c.
Proof.
  unfold Auth.client_cert, Auth.forwarded. split.
  - intros [->|name -> ->]; done.
  - intros ->. destruct (TrustedProxies.matches _ _ _) eqn:E; [|by apply own].
    apply forwarded_by; [done|]. unfold forwardedCommonName.
    destruct (Call.forwarded c) as [|v [|]]; [done| |done]. by destruct (subjectCommonName_total v) as [? ->].
Qed.

Lemma anonymous_role role :
  Acl.roleFor fnmatch (Auth.acl a) None = Some role ↔
  Acl.anonRole (Auth.acl a) = Some role ∨
  Acl.anonRole (Auth.acl a) = None ∧ Acl.identityRequired (Auth.acl a) = false ∧ Acl.rules (Auth.acl a) = [] ∧ role = open_role.
Proof.
  unfold Acl.roleFor, Acl.active, Acl.capped, open_role. destruct (Acl.anonRole _); [naive_solver|].
  destruct (Acl.identityRequired _); simpl; [naive_solver|].
  destruct (decide (Acl.rules (Auth.acl a) = [])); [rewrite bool_decide_true by done|rewrite bool_decide_false by done]; simpl;
    destruct (Acl.clientsTrusted _); naive_solver.
Qed.

(** A certificate's role, when no token decides. *)
Lemma entitled_by_cert role :
  (Auth.oidc a = None ∨ bearerToken (Call.authorization c) = None ∨ ¬ no_rule (Auth.client_cert fnmatch a c)) →
  Caller.role (Auth.by_cert fnmatch a (Auth.client_cert fnmatch a c)) = Some role ↔ entitled role.
Proof.
  intros Hno. simpl. destruct (Auth.client_cert fnmatch a c) as [name|] eqn:Ec.
  - rewrite roleFor_named. split.
    + intros [[? ->]|?]; [eapply by_default|eapply by_rule]; try done; by apply speaks_for_iff.
    + intros [name' r Hs%speaks_for_iff Hf|name' Hs%speaks_for_iff Hf|cert token ps who r Hs%speaks_for_iff Hn Ho [_ Ht] _ _
        |r Hs%speaks_for_iff _ _|Hs%speaks_for_iff _ _ _ _]; rewrite Ec in Hs; simplify_eq; [by right|by left|].
      destruct Hno as [?|[?|Hno]]; [congruence..|by destruct Hno].
  - rewrite anonymous_role. assert (∀ token, ¬ has_token token) as Hnt.
    { intros token [[ps Ho] Ht]. destruct Hno as [?|[?|Hno]]; [congruence..|]. destruct Hno. by intros name. }
    split.
    + intros [?|(? & ? & ? & ->)]; [by apply as_anonymous; [apply speaks_for_iff|..]|].
      by apply unguarded; [apply speaks_for_iff|..].
    + intros [name' r Hs%speaks_for_iff Hf|name' Hs%speaks_for_iff Hf|cert token ps who r Hs%speaks_for_iff Hn Ho Ht _ _
        |r Hs%speaks_for_iff _ Hr|Hs%speaks_for_iff _ ? ? ?]; rewrite Ec in Hs; simplify_eq; [|by left|by right].
      by destruct (Hnt token).
Qed.

Lemma identify_entitled role : Caller.role identify'.2 = Some role ↔ entitled role.
Proof.
  unfold Auth.identify. set (cert := Auth.client_cert fnmatch a c).
  pose proof (no_rule_iff cert) as Hnr. set (known := match cert with Some _ => _ | None => None end).
  assert (known = None ↔ no_rule cert) as Hk by (rewrite Hnr; unfold known; by destruct cert).
  destruct known as [r|]; [apply entitled_by_cert; right; right; intros ?%Hk; done|].
  destruct (Auth.oidc a) as [providers|] eqn:Eo; [|apply entitled_by_cert; by left].
  destruct (bearerToken _) as [token|] eqn:Et; [|apply entitled_by_cert; by right; left].
  destruct (verify' providers token) as [keys' res] eqn:Ev. simpl.
  assert (has_token token) as Ht by (split; [rewrite Eo; by eexists|done]). split.
  - destruct res as [who|]; [|done]. intros Hr.
    eapply (by_token cert token providers who); [by apply speaks_for_iff|by apply Hk|done|done|by rewrite Ev|done].
  - intros [name' r Hs%speaks_for_iff Hf|name' Hs%speaks_for_iff Hf|cert' token' ps who r Hs%speaks_for_iff Hn Ho [_ Ht'] Hv Hr
      |r Hs%speaks_for_iff Hno Hr|Hs%speaks_for_iff Hno ? ? ?]; fold cert in Hs; simplify_eq.
    + destruct (proj1 Hk eq_refl name') as [_ Hn]; [done|]. by destruct (Hn r).
    + destruct (proj1 Hk eq_refl name') as [Hn _]; done.
    + rewrite Ev in Hv. simpl in Hv. by simplify_eq.
    + by destruct (Hno token).
    + by destruct (Hno token).
Qed.

(** C35. A call is let through exactly if its caller is entitled to a role that is at
    least the method's, and to [trusted] for a repair.  A forwarded certificate only
    counts from a trusted proxy, the first matching rule decides, a token is only
    asked for when no rule knows the certificate, a rejected token is no way in even
    where anonymous calls are allowed, and without --trust-clients nobody is trusted
    but by an explicit rule, token or anonymous role. *)
Theorem access_control method minRole buildMode :
  (Auth.authorize_mode identify'.2 method minRole buildMode).1 = OK ↔
  ∃ role, entitled role ∧ role_le minRole role = true ∧ (buildMode = Auth.bmRepair_wire → role = trusted).
Proof.
  unfold Auth.authorize_mode, Auth.authorize. setoid_rewrite <- identify_entitled.
  destruct (Caller.role identify'.2) as [role|].
  - destruct (role_le minRole role) eqn:El; simpl; [|split; [done|intros (r & [= <-] & Hl & _); congruence]].
    destruct (N.eqb_spec buildMode Auth.bmRepair_wire) as [->|Hne].
    + destruct (role_le trusted role) eqn:Et; simpl.
      * split; [|done]. intros _. exists role. split_and!; [done..|]. intros _. by destruct role.
      * split; [done|]. intros (role' & [= <-] & _ & Hr). by rewrite (Hr eq_refl) in Et.
    + split; [|done]. intros _. exists role. done.
  - split; [by destruct (Caller.kind _)|]. intros (r & ? & _). done.
Qed.
End Entitled.
