(* ===== verification/Reactor.v ===== *)
(** * The streams of the scheduler

    src/src/daemon/sched-reactor.hh: the queue a peer's messages wait in and the
    reactor that writes them out.  Every operation below is what one thread does
    under the queue's mutex; the threads that take part are the Dispatcher's, which
    send and, once it is unlocked, run the [writeNext] a send has queued, and those
    of gRPC, which report reads, writes and the end.  [writeNext], [finish] and a
    failed write look again, under the mutex, whether the stream is over
    ([maybeDone]): between the two sections anything can happen, so the model
    counts the threads that are there.

    What gRPC does is in [enabled]: it reports a write only while one is
    outstanding, and calls [OnDone] only after [Finish], when no write is
    outstanding and its own callbacks have returned. *)

From S2P Require Import Prelude.

Module SendQueue.
Section SendQueue.
Context {Msg : Type}.

Definition limit : N := (2 ^ 16)%N.
Definition maxBatch : N := 1024.

Record t := mk { queue : list Msg; writing : bool; closed : bool }.

Fixpoint fill_loop (room : nat) (out queue : list Msg) : list Msg * list Msg :=
  match room, queue with
  | S room, msg :: queue => fill_loop room (out ++ [msg]) queue
  | _, _ => (out, queue)
  end.

(** [fill]: the next batch and what is left. *)
Definition fill (q : t) : list Msg * t :=
  let '(out, rest) := fill_loop (N.to_nat maxBatch) [] (queue q) in
  (out, mk rest (writing q) (closed q)).
End SendQueue.
Arguments t : clear implicits.
End SendQueue.

Module Reactor.

(** Who looks whether the stream is over: a callback of gRPC, or a thread that
    runs what a send has queued. *)
Inductive origin := OfGrpc | OfKick.
#[export] Instance origin_eq_dec : EqDecision origin.
Proof. solve_decision. Defined.

Section Reactor.
Context {Msg : Type}.

Record t := mk {
  sendq : SendQueue.t Msg;
  readsDone : bool;
  finished : bool;
  written : list (list Msg); (* the batches given to StartWrite *)
  inflight : bool;           (* a StartWrite is outstanding *)
  kicked : bool;             (* a writeNext is queued with the Dispatcher *)
  grpcChecks : nat;          (* threads about to call maybeDone *)
  kickChecks : nat;
  cancelled : bool;          (* TryCancel was called *)
  finishes : nat;            (* calls of Finish *)
  deleted : bool;
}.
Definition fresh : t := mk (SendQueue.mk [] false false) false false [] false false 0 0 false 0 false.

Definition queue (r : t) : list Msg := SendQueue.queue (sendq r).
Definition writing (r : t) : bool := SendQueue.writing (sendq r).
Definition closed (r : t) : bool := SendQueue.closed (sendq r).

Definition with_sendq q (r : t) : t := mk q (readsDone r) (finished r) (written r) (inflight r) (kicked r)
  (grpcChecks r) (kickChecks r) (cancelled r) (finishes r) (deleted r).
Definition with_writing v (r : t) : t := with_sendq (SendQueue.mk (queue r) v (closed r)) r.
Definition with_closed (r : t) : t := with_sendq (SendQueue.mk (queue r) (writing r) true) r.
Definition with_readsDone (r : t) : t := mk (sendq r) true (finished r) (written r) (inflight r) (kicked r)
  (grpcChecks r) (kickChecks r) (cancelled r) (finishes r) (deleted r).
Definition with_inflight v (r : t) : t := mk (sendq r) (readsDone r) (finished r) (written r) v (kicked r)
  (grpcChecks r) (kickChecks r) (cancelled r) (finishes r) (deleted r).
Definition with_kicked v (r : t) : t := mk (sendq r) (readsDone r) (finished r) (written r) (inflight r) v
  (grpcChecks r) (kickChecks r) (cancelled r) (finishes r) (deleted r).
Definition with_cancelled (r : t) : t := mk (sendq r) (readsDone r) (finished r) (written r) (inflight r) (kicked r)
  (grpcChecks r) (kickChecks r) true (finishes r) (deleted r).
Definition with_checks g k (r : t) : t := mk (sendq r) (readsDone r) (finished r) (written r) (inflight r) (kicked r)
  g k (cancelled r) (finishes r) (deleted r).
Definition start_write batch (r : t) : t := mk (sendq r) (readsDone r) (finished r) (written r ++ [batch]) true (kicked r)
  (grpcChecks r) (kickChecks r) (cancelled r) (finishes r) (deleted r).
Definition call_finish (r : t) : t := mk (sendq r) (readsDone r) true (written r) (inflight r) (kicked r)
  (grpcChecks r) (kickChecks r) (cancelled r) (S (finishes r)) (deleted r).
Definition delete (r : t) : t := mk (sendq r) (readsDone r) (finished r) (written r) (inflight r) (kicked r)
  (grpcChecks r) (kickChecks r) (cancelled r) (finishes r) true.

Definition add_check (o : origin) (r : t) : t :=
  match o with
  | OfGrpc => with_checks (S (grpcChecks r)) (kickChecks r) r
  | OfKick => with_checks (grpcChecks r) (S (kickChecks r)) r
  end.
Definition end_check (o : origin) (r : t) : t :=
  match o with
  | OfGrpc => with_checks (pred (grpcChecks r)) (kickChecks r) r
  | OfKick => with_checks (grpcChecks r) (pred (kickChecks r)) r
  end.
Definition checks (o : origin) (r : t) : nat := match o with OfGrpc => grpcChecks r | OfKick => kickChecks r end.

(** [this] is used. *)
Definition alive : M t () := r ← get; if deleted r then throw Undefined else mret tt.

(** The closure of [sender]; the queue outlives the reactor. *)
Definition send (msg : Msg) : M t bool :=
  r ← get;
  if closed r || (SendQueue.limit <=? N.of_nat (length (queue r)))%N then
    (if closed r then mret tt else modify with_closed;; alive;; modify with_cancelled);;
    mret false
  else
    modify (with_sendq (SendQueue.mk (queue r ++ [msg]) (writing r) (closed r)));;
    (if writing r then mret tt else alive;; modify (with_writing true);; modify (with_kicked true));;
    mret true.

(** [writeNext], up to the call of [maybeDone]. *)
Definition writeNext (o : origin) : M t () :=
  alive;;
  r ← get;
  if closed r then modify (with_writing false);; modify (add_check o)
  else
    let '(out, q) := SendQueue.fill (sendq r) in
    modify (with_sendq q);;
    match out with
    | [] => modify (with_writing false);; modify (add_check o)
    | _ => modify (start_write out)
    end.

Definition maybeDone (o : origin) : M t () :=
  alive;;
  modify (end_check o);;
  r ← get;
  if readsDone r && negb (writing r) && negb (finished r) then modify call_finish else mret tt.

Definition OnWriteDone (isOk : bool) : M t () :=
  alive;;
  modify (with_inflight false);;
  if isOk then writeNext OfGrpc
  else modify with_closed;; modify (with_writing false);; modify with_cancelled;; modify (add_check OfGrpc).

Definition OnCancel : M t () := alive;; modify with_closed.

(** [finish], after [gone()]. *)
Definition finish : M t () := alive;; modify with_closed;; modify with_readsDone;; modify (add_check OfGrpc).

Definition OnDone : M t () := alive;; modify delete.

(** ** Steps *)

Inductive event :=
  | Send (msg : Msg)
  | Kick
  | WriteDone (isOk : bool)
  | Cancel
  | Finish
  | Check (o : origin)
  | Done.

Definition run_event (e : event) : M t () :=
  match e with
  | Send msg => send msg;; mret tt
  | Kick => modify (with_kicked false);; writeNext OfKick
  | WriteDone isOk => OnWriteDone isOk
  | Cancel => OnCancel
  | Finish => finish
  | Check o => maybeDone o
  | Done => OnDone
  end.

Definition enabled (e : event) (r : t) : Prop :=
  match e with
  | Send _ => True
  | Kick => kicked r = true
  | WriteDone _ => inflight r = true
  | Cancel => deleted r = false
  | Finish => readsDone r = false ∧ deleted r = false
  | Check o => checks o r ≠ 0
  | Done => finished r = true ∧ inflight r = false ∧ grpcChecks r = 0 ∧ deleted r = false
  end.

Inductive reachable : t → Prop :=
  | reach_fresh : reachable fresh
  | reach_event r e : reachable r → enabled e r → reachable (exec (run_event e) r).

(** Everything the queue has accepted, in order. *)
Definition accepted (r : t) : list Msg := concat (written r) ++ queue r.

(** What is in an event for the messages. *)
Definition takes (e : event) (r : t) : list Msg :=
  match e with
  | Send msg => if closed r || (SendQueue.limit <=? N.of_nat (length (queue r)))%N then [] else [msg]
  | _ => []
  end.
End Reactor.
Arguments t : clear implicits.
Arguments event : clear implicits.

(** ** What holds between steps *)

Section Healthy.
Context {Msg : Type}.
Implicit Types r : t Msg.

(** [writing] says exactly that a write is outstanding or about to be started, so a
    message in an open queue is on its way; batches are as large as they may be;
    [Finish] is called once, when nothing is outstanding, and somebody is about to
    call it when the time has come. *)
Record healthy r : Prop := {
  h_writing : writing r = inflight r || kicked r;
  h_one_writer : inflight r = true → kicked r = false;
  h_no_lost_wakeup : closed r = false → queue r ≠ [] → writing r = true;
  h_bounded : (N.of_nat (length (queue r)) ≤ SendQueue.limit)%N;
  h_batches : Forall (λ b, b ≠ [] ∧ (N.of_nat (length b) ≤ SendQueue.maxBatch)%N) (written r);
  h_reads : readsDone r = true → closed r = true;
  h_finished : finished r = true → readsDone r = true ∧ writing r = false;
  h_finish_once : finishes r = if finished r then 1 else 0;
  h_finish_due : readsDone r = true → writing r = false → finished r = false → grpcChecks r + kickChecks r ≠ 0;
  h_deleted : deleted r = true → finished r = true ∧ grpcChecks r = 0;
}.

Lemma fill_loop_spec room (out q : list Msg) :
  SendQueue.fill_loop room out q = (out ++ take room q, drop room q).
Proof.
  revert out q. induction room as [|room IH]; intros out [|msg q]; simpl; rewrite ?app_nil_r; [done..|].
  rewrite IH. f_equal. by rewrite <- app_assoc.
Qed.

Lemma wp_alive (Φ : () → t Msg → Prop) r : deleted r = false → Φ tt r → wp alive Φ r.
Proof. intros Hd HΦ. unfold alive. wp_steps. rewrite Hd. by wp_steps. Qed.

Lemma wp_writeNext o r (Φ : () → t Msg → Prop) :
  deleted r = false →
  (closed r = true ∨ queue r = [] → Φ tt (add_check o (with_writing false r))) →
  (∀ batch rest, closed r = false → queue r = batch ++ rest → batch ≠ [] →
     (N.of_nat (length batch) ≤ SendQueue.maxBatch)%N →
     Φ tt (start_write batch (with_sendq (SendQueue.mk rest (writing r) false) r))) →
  wp (writeNext o) Φ r.
Proof.
  intros Hd Hnone Hsome. unfold writeNext. apply wp_bind, wp_alive; [done|]. wp_steps.
  destruct (closed r) eqn:Hc; [wp_steps; apply Hnone; by left|].
  unfold SendQueue.fill. rewrite fill_loop_spec, app_nil_l. fold (queue r). fold (writing r). fold (closed r).
  wp_steps. destruct (take (N.to_nat SendQueue.maxBatch) (queue r)) as [|m b] eqn:Et.
  - assert (queue r = []) as Hq by (by destruct (queue r)). wp_steps.
    replace (with_writing false _) with (with_writing false r); [apply Hnone; by right|].
    unfold with_writing, with_sendq, queue, closed in *. destruct r as [[q w c] ? ? ? ? ? ? ? ? ? ?]. simpl in *.
    by rewrite Hq.
  - wp_steps. rewrite <- Et, Hc. apply Hsome; [done|by rewrite take_drop|by rewrite Et|].
    rewrite length_take. unfold SendQueue.maxBatch. lia.
Qed.

(** Each clause by itself, from the clauses before. *)
Ltac clauses :=
  constructor; unfold with_writing, with_closed, writing, queue, closed in *; simpl in *; intros;
  first [done | by auto | intuition (done || congruence) | rewrite ?length_app in *; simpl in *; lia | idtac].

Ltac crush_healthy :=
  match goal with H : healthy ?r |- _ => destruct H; destruct r as [[] ? ? ? ? ? ? ? ? ? ?] end;
  cbn [writing queue closed sendq SendQueue.writing SendQueue.queue SendQueue.closed with_writing with_closed with_sendq
       with_kicked with_inflight with_readsDone with_cancelled with_checks add_check end_check start_write call_finish
       delete readsDone finished written inflight kicked grpcChecks kickChecks cancelled finishes deleted] in *.

Lemma healthy_fresh : healthy fresh.
Proof. by split. Qed.

Lemma accepted_with_sendq r w c q : accepted (with_sendq (SendQueue.mk q w c) r) = concat (written r) ++ q.
Proof. done. Qed.

Definition stepped e r r' : Prop := healthy r' ∧ accepted r' = accepted r ++ takes e r ∧ (closed r = true → closed r' = true).

Lemma send_spec msg r :
  healthy r →
  wp (send msg) (λ ok r', stepped (Send msg) r r' ∧
    if ok : bool then takes (Send msg) r = [msg] else closed r' = true ∧ takes (Send msg) r = []) r.
Proof.
  intros HH. unfold send, stepped, takes, accepted. wp_steps.
  assert (closed r = false → deleted r = false) as Hdel.
  { intros Hc. destruct HH. destruct (deleted r); [|done]. destruct h_deleted0 as [? _]; [done|].
    destruct h_finished0; [done|]. rewrite h_reads0 in Hc; done. }
  destruct (closed r) eqn:Hc; simpl; [wp_steps; rewrite app_nil_r; done|].
  specialize (Hdel eq_refl). destruct (N.leb_spec SendQueue.limit (N.of_nat (length (queue r)))) as [Hl|Hl]; simpl.
  - wp_steps. apply wp_alive; [done|]. wp_steps. rewrite app_nil_r. split_and!; [|done..]. crush_healthy.
    clauses.
  - wp_steps. destruct (writing r) eqn:Hw; wp_steps.
    + split_and!; [|unfold with_writing, queue; simpl; by rewrite app_assoc|done..]. crush_healthy. subst. clauses.
    + apply wp_alive; [done|]. wp_steps. split_and!; [|unfold with_writing, queue; simpl; by rewrite app_assoc|done..]. crush_healthy. subst.
      apply orb_false_iff in Hw as [-> ->].
      clauses.
Qed.

Lemma writeNext_spec o r e :
  healthy (with_kicked (bool_decide (o = OfKick)) (with_inflight (bool_decide (o = OfGrpc)) r)) →
  kicked r = false → inflight r = false → takes e r = [] →
  wp (writeNext o) (λ _ r', stepped e r r') r.
Proof.
  intros HH Hk Hi Ht. assert (writing r = true) as Hw by (destruct HH as [Hw _]; destruct r; by destruct o).
  apply wp_writeNext.
  - destruct HH as [_ _ _ _ _ _ Hf _ _ Hd]. destruct (deleted r) eqn:Ed; [|done].
    destruct (Hd Ed) as [[_ Hf']%Hf _]. change (writing r = false) in Hf'. congruence.
  - intros Hcl. unfold stepped, accepted. rewrite Ht, app_nil_r. split_and!; [|by destruct o|by destruct o].
    destruct r as [[q w c] ? ? ? ? ? ? ? ? ? ?]. destruct HH. simpl in *. subst.
    destruct o; clauses.
  - intros batch rest Hc Hq Hne Hl. unfold stepped, accepted. rewrite Ht, app_nil_r. split_and!; [| |congruence].
    + destruct r as [[q w c] ? ? ? ? ? ? ? ? ? ?]. destruct HH. simpl in *. unfold queue in Hq. simpl in Hq. subst.
      destruct o; clauses. all: apply Forall_app; split; [done|by apply Forall_singleton].
    + simpl. rewrite concat_app, Hq. simpl. by rewrite app_nil_r, <- app_assoc.
Qed.

(** Only the look of a kick's thread is not kept from a reactor that is gone. *)
Lemma event_spec e r :
  healthy r → enabled e r → (e = Check OfKick → deleted r = false) → wp (run_event e) (λ _, stepped e r) r.
Proof.
  intros HH He Hk. destruct e as [msg| |isOk| | |o|]; simpl in *.
  - apply wp_bind. eapply wp_mono; [by apply send_spec|]. intros ok r' [? _]. by wp_steps.
  - wp_steps. eapply wp_mono; [apply (writeNext_spec OfKick _ Kick); [|done| |done]|by intros ? ? ?].
    + destruct HH as [? H1 ? ? ? ? ? ? ? ?]. destruct r as [? ? ? ? i k ? ? ? ? ?]. simpl in *. subst k.
      destruct i; [by specialize (H1 eq_refl)|done].
    + destruct HH as [? H1 ? ? ? ? ? ? ? ?]. destruct r as [? ? ? ? i k ? ? ? ? ?]. simpl in *. subst k.
      destruct i; [by specialize (H1 eq_refl)|done].
  - assert (deleted r = false) as Hd.
    { destruct HH as [Hw ? ? ? ? ? Hf ? ? Hd]. destruct (deleted r); [|done]. destruct Hd as [Hfin _]; [done|].
      destruct (Hf Hfin) as [_ Hf']. rewrite Hw, He in Hf'. done. }
    unfold OnWriteDone. apply wp_bind, wp_alive; [done|]. wp_steps. destruct isOk.
    + eapply wp_mono; [apply (writeNext_spec OfGrpc _ (WriteDone true)); [|by apply HH|done|done]|by intros ? ? ?].
      pose proof (h_one_writer _ HH He) as Hk'. destruct r as [? ? ? ? i k ? ? ? ? ?]. simpl in *. by subst.
    + pose proof (h_one_writer _ HH He) as Hk'. wp_steps. unfold stepped, accepted. simpl. rewrite app_nil_r.
      split_and!; [|done..]. crush_healthy. subst. clauses.
  - unfold OnCancel. apply wp_bind, wp_alive; [done|]. wp_steps. unfold stepped, accepted. simpl. rewrite app_nil_r.
    split_and!; [|done..]. crush_healthy. subst. clauses.
  - destruct He as [Hr Hd]. unfold finish. apply wp_bind, wp_alive; [done|]. wp_steps. unfold stepped, accepted. simpl.
    rewrite app_nil_r. split_and!; [|done..]. crush_healthy. subst. clauses.
  - assert (deleted r = false) as Hd.
    { destruct o; [|by apply Hk]. destruct (deleted r) eqn:E; [|done]. by destruct (h_deleted _ HH E). }
    unfold maybeDone. apply wp_bind, wp_alive; [done|]. wp_steps. unfold stepped, accepted.
    destruct (readsDone _ && _ && _) eqn:Ef; wp_steps; simpl; rewrite app_nil_r; (split_and!; [|by destruct o|by destruct o]);
      destruct o; crush_healthy; subst.
    1,2: apply andb_true_iff in Ef as [[-> Ef]%andb_true_iff ->%negb_true_iff]; apply negb_true_iff in Ef; clauses.
    all: apply andb_false_iff in Ef as [[->|Ef%negb_false_iff]%andb_false_iff|Ef%negb_false_iff]; clauses.
  - destruct He as (Hf & Hi & Hg & Hd). unfold OnDone. apply wp_bind, wp_alive; [done|]. wp_steps.
    unfold stepped, accepted. simpl. rewrite app_nil_r. split_and!; [|done..]. crush_healthy. subst. clauses.
Qed.

(** Only [finish] ends the reads. *)
#[local] Instance same_reads : PreOrder (λ r r', readsDone r' = readsDone r).
Proof. split; [by intros r|]. intros r1 r2 r3 H1 H2. congruence. Qed.

Lemma event_reads e : e ≠ Finish → keeps (λ r r', readsDone r' = readsDone r) (run_event e).
Proof.
  intros He. destruct e as [msg| |[]| | |o|]; try done; simpl;
    unfold send, OnWriteDone, OnCancel, maybeDone, OnDone, writeNext, alive, SendQueue.fill;
    repeat first
      [ apply keeps_bind; [apply _| |intros ?] | apply keeps_get; apply _ | apply keeps_ret; apply _ | apply keeps_throw; apply _
      | apply keeps_modify; intros ?; by destruct o | apply keeps_modify; done | case_match ].
Qed.

Lemma send_reads msg : keeps (λ r r', readsDone r' = readsDone r) (send msg).
Proof.
  intros r. pose proof (event_reads (Send msg) ltac:(done) r) as H. unfold exec in *. simpl in H.
  unfold mbind, M_bind in H. by destruct (send msg r) as [r' []].
Qed.

Lemma reachable_healthy r : reachable r → healthy r.
Proof.
  induction 1 as [|r e _ IH He]; [apply healthy_fresh|].
  destruct (decide (deleted r = true)) as [Hd|Hd%not_true_is_false].
  - destruct e as [| | | | |[]|]; try (destruct (wp_exec _ _ _ (event_spec _ r IH He ltac:(done))) as (? & _ & ? & _); done).
    replace (exec _ r) with r; [done|]. unfold exec, run_event, maybeDone, alive, mbind, M_bind, get. by rewrite Hd.
  - by destruct (wp_exec _ _ _ (event_spec _ r IH He ltac:(done))) as (? & _ & ? & _).
Qed.

(** A step leaves the batches as they are, or starts one write: on a queue that is open, so of a stream that is neither
    finished nor deleted, with no other write under way but one that is just done. *)
Definition writes (e : event Msg) (r r' : t Msg) : Prop :=
  written r' = written r ∨
  closed r = false ∧ finished r = false ∧ deleted r = false ∧ (inflight r = true → e = WriteDone true) ∧
  inflight r' = true ∧ ∃ batch, written r' = written r ++ [batch].

#[local] Instance same_written : PreOrder (λ r r', written r' = written r).
Proof. split; [by intros r|]. intros r1 r2 r3 H1 H2. congruence. Qed.

Lemma other_writes (e : event Msg) : e ≠ Kick → e ≠ WriteDone true → keeps (λ r r', written r' = written r) (run_event e).
Proof.
  intros H1 H2. destruct e as [msg| |[]| | |o|]; try done; simpl; unfold send, OnWriteDone, OnCancel, finish, maybeDone, OnDone, alive;
    repeat first
      [ apply keeps_bind; [apply _| |intros ?] | apply keeps_get; apply _ | apply keeps_ret; apply _ | apply keeps_throw; apply _
      | apply keeps_modify; intros ?; by destruct o | apply keeps_modify; done | case_match ].
Qed.

Lemma writeNext_writes o r0 r e :
  deleted r = false → written r = written r0 → closed r = closed r0 → deleted r0 = false → (closed r0 = false → finished r0 = false) →
  (inflight r0 = true → e = WriteDone true) → wp (writeNext o) (λ _, writes e r0) r.
Proof.
  intros Hd Hw Hc Hd0 Hf Hi. apply wp_writeNext; [done|..].
  - intros _. left. by destruct o.
  - intros batch rest Hcl _ _ _. right. rewrite Hcl in Hc. split_and!; [done|by apply Hf|done..|]. exists batch. simpl. by rewrite Hw.
Qed.

Lemma event_writes e r :
  healthy r → enabled e r → (e = Check OfKick → deleted r = false) → writes e r (exec (run_event e) r).
Proof.
  intros HH He Hk. assert (closed r = false → finished r = false) as Hf.
  { intros Hc. destruct (finished r) eqn:Ef; [|done]. destruct (h_finished _ HH Ef) as [Hr _]. by rewrite (h_reads _ HH Hr) in Hc. }
  assert (writing r = true → deleted r = false) as Hd.
  { intros Hw. destruct (deleted r) eqn:Ed; [|done]. destruct (h_deleted _ HH Ed) as [Ef _]. destruct (h_finished _ HH Ef). congruence. }
  rewrite (h_writing _ HH) in Hd.
  destruct e as [msg| |[]| | |o|]; try (left; by apply other_writes).
  - simpl in He. rewrite He, orb_true_r in Hd. specialize (Hd eq_refl).
    destruct (wp_exec (run_event Kick) (λ _, writes Kick r) r) as (? & _ & ?); [|done]. simpl. wp_steps. apply writeNext_writes; try done.
    intros Hi. by rewrite (h_one_writer _ HH Hi) in He.
  - simpl in He. rewrite He in Hd. specialize (Hd eq_refl).
    destruct (wp_exec (run_event (WriteDone true)) (λ _, writes (WriteDone true) r) r) as (? & _ & ?); [|done].
    simpl. unfold OnWriteDone. apply wp_bind, wp_alive; [done|]. wp_steps. by apply writeNext_writes.
Qed.

(** C39. A stream hands the peer exactly what its queue accepted, in order and in
    batches of at most 1024, however sends, writes, cancellations and the end of
    the reads interleave: at every point the batches written so far and the queue
    together are the accepted messages.  An open queue with messages has a write
    under way or about to start, one at most; a full one is closed and stays so;
    a write is only started on a queue that is open, when no other is under way;
    and the stream is finished at most once, with no write under way or to come.  No step
    uses a reactor that is gone, but for one: a thread that was to start a write, found the
    queue closed and looks whether it is to finish the stream, when another has. *)
Theorem stream_delivery r e :
  reachable r → enabled e r → (e = Check OfKick → deleted r = false) →
  healthy r ∧ ∃ r', run_event e r = (r', Ok tt) ∧ reachable r' ∧ accepted r' = accepted r ++ takes e r ∧
    (closed r = true → closed r' = true) ∧ writes e r r'.
Proof.
  intros Hr He Hk. pose proof (reachable_healthy r Hr) as HH. split; [done|].
  destruct (event_spec e r HH He Hk) as ([] & r' & Hrun & _ & Ha & Hc). exists r'.
  pose proof (reach_event r e Hr He) as Hr'. pose proof (event_writes e r HH He Hk) as Hw. unfold exec in Hr', Hw. rewrite Hrun in Hr', Hw. done.
Qed.
End Healthy.

Definition play {Msg} (es : list (event Msg)) (r : t Msg) : t Msg := foldl (λ r e, exec (run_event e) r) r es.

Fixpoint all_enabled {Msg} (es : list (event Msg)) (r : t Msg) : Prop :=
  match es with
  | [] => True
  | e :: es => enabled e r ∧ all_enabled es (exec (run_event e) r)
  end.

Lemma stream_play {Msg} (es : list (event Msg)) r : reachable r → all_enabled es r → reachable (play es r).
Proof.
  revert r. induction es as [|e es IH]; intros r Hr He; [done|]. destruct He. apply IH; [by constructor|done].
Qed.

(** A message arrives while the first is being written. *)
Definition demo_stream : t nat := play [Send 7; Kick; Send 8] fresh.

Lemma demo_stream_reachable : reachable demo_stream.
Proof. apply stream_play; [constructor|]. by vm_compute. Qed.

Lemma stream_delivery_witness :
  (written demo_stream, queue demo_stream) = ([[7]], [8]) ∧
  healthy demo_stream ∧ ∃ r', run_event (WriteDone true) demo_stream = (r', Ok tt) ∧ reachable r' ∧
    accepted r' = accepted demo_stream ++ takes (WriteDone true) demo_stream ∧
    (closed demo_stream = true → closed r' = true) ∧ writes (WriteDone true) demo_stream r'.
Proof. split; [done|]. by apply (stream_delivery demo_stream (WriteDone true) demo_stream_reachable). Defined.

(** The end of the reads closes the queue before a queued [writeNext] has run. *)
Definition demo_freed : t nat := play [Send 7; Finish; Kick; Check OfGrpc; Done] fresh.

(** A stream can be deleted under the thread that writes to it: when the reads end
    between a send and the [writeNext] it has queued, that finds the queue closed,
    clears [writing] and is about to call [maybeDone], but the other thread can be
    first to see that nothing is being written, and finish and delete the
    reactor.  That [writing] is set only keeps the reactor until [writeNext] has
    begun. *)
Theorem freed_in_use : reachable demo_freed ∧ enabled (Check OfKick) demo_freed ∧
  run_event (Check OfKick) demo_freed = (demo_freed, Throw Undefined).
Proof. split_and!; [|done|done]. apply stream_play; [constructor|]. by vm_compute. Qed.
End Reactor.
