(* ===== verification/Dispatcher.v ===== *)
(** * The dispatcher: data and operations

    src/src/daemon/dispatcher.hh and dispatcher.cc: one mutex around the placement
    core, the connected clients and the workers' sessions, and the messages they
    are sent.  Each operation is what one thread does while it holds the mutex.

    A client or session is named by a number.  [objs] holds the [Client] objects,
    which live on as long as somebody refers to them, [clients] those that are
    connected; a session's [Worker] object is a part of its stream's reactor and
    gone with it, so that [workers], which the source keeps pointers in, can name
    a session that [sessions] no longer holds: using it is undefined behaviour.
    A send is [Reactor.send] of the peer's stream.

    [clock] gives the readings of the steady clock in the order they are taken and
    [ord] the order of the core's hash table at a dispatch.  Counters and log lines
    are left out; [series] are the per-system gauges the metrics export. *)

From S2P Require Import Prelude Double PathKey Heap Free Sched Reactor.

(** ** Messages *)

Module Want.
Record t := mk {
  drv_path : string; out_keys : list string; inputs : list string; cp_hint_ms : N; build_mode : N;
  required_features : list string; system : string;
}.
End Want.

Inductive ClientMsg :=
  | MWant (want : Want.t)
  | MCancel (drv_path : string)
  | MNothing.

Inductive SchedMsg :=
  | Assigned (drv_path worker_addr : string) (assign_id : N) (worker_system : string)
  | Cached (drv_path : string)
  | Unplaceable (drv_path reason : string)
  | Restarting
  | Placeable (drv_path : string)
  | NoMsg.

Inductive Outcome := BUILT | FAILED | CANCELLED | NO_SHOW | GIVEN_BACK.

Inductive WorkerMsg :=
  | MHello (addr : string) (systems features : list string) (max_jobs : N) (running : list (string * N))
  | MDone (drv_path : string) (outcome : Outcome) (outputs : list (string * N))
  | MLoad (draining : bool)
  | MNone.

Inductive SchedCmd :=
  | Expect (drv_path : string) (assign_id : N)
  | Revoke (drv_path : string)
  | RestartingCmd.

(** ** State *)

Module Client.
Record t := mk { stream : Reactor.t SchedMsg; gone : bool }.
Definition with_stream r (c : t) : t := mk r (gone c).
End Client.

Module Session.
Record t := mk { stream : Reactor.t SchedCmd; id : option N; detached : bool (* [gone()] has returned *) }.
Definition with_stream r (s : t) : t := mk r (id s) (detached s).
Definition with_id i (s : t) : t := mk (stream s) i (detached s).
Definition with_detached (s : t) : t := mk (stream s) (id s) true.
End Session.

Module Orphan.
Record t := mk { drv : N; assignId : N; dueMs : double }.
End Orphan.

(** What [afterUnlock] queues, but for the writes of streams. *)
Inductive action :=
  | Wake (watcher : N)
  | Abort (session : N).
#[export] Instance action_eq_dec : EqDecision action.
Proof. solve_decision. Defined.

Abbreviation Membership := (gmap string (list (string * bool))).

Record dispatcher := mkDisp {
  core_ : core;
  objs : gmap N Client.t;
  clients : gset N;
  sessions : gmap N Session.t;
  sess : gmap N N;          (* [workers]: the live session of each worker *)
  lettingGo : bool;
  orphans : list Orphan.t;
  statsAtMs : option double;
  statsPending : bool;
  series : gmap StatsKey Stats.t;
  nextClient : N;
  watchers : gset N;
  nextWatcher : N;
  published : Membership;
  deferred : list action;
  lookupQueue : list (N * list ClientMsg);
  reads : nat;              (* readings of the clock so far *)
}.

Definition with_core v s := mkDisp v (objs s) (clients s) (sessions s) (sess s) (lettingGo s) (orphans s) (statsAtMs s)
  (statsPending s) (series s) (nextClient s) (watchers s) (nextWatcher s) (published s) (deferred s) (lookupQueue s) (reads s).
Definition with_objs v s := mkDisp (core_ s) v (clients s) (sessions s) (sess s) (lettingGo s) (orphans s) (statsAtMs s)
  (statsPending s) (series s) (nextClient s) (watchers s) (nextWatcher s) (published s) (deferred s) (lookupQueue s) (reads s).
Definition with_clients v s := mkDisp (core_ s) (objs s) v (sessions s) (sess s) (lettingGo s) (orphans s) (statsAtMs s)
  (statsPending s) (series s) (nextClient s) (watchers s) (nextWatcher s) (published s) (deferred s) (lookupQueue s) (reads s).
Definition with_sessions v s := mkDisp (core_ s) (objs s) (clients s) v (sess s) (lettingGo s) (orphans s) (statsAtMs s)
  (statsPending s) (series s) (nextClient s) (watchers s) (nextWatcher s) (published s) (deferred s) (lookupQueue s) (reads s).
Definition with_sess v s := mkDisp (core_ s) (objs s) (clients s) (sessions s) v (lettingGo s) (orphans s) (statsAtMs s)
  (statsPending s) (series s) (nextClient s) (watchers s) (nextWatcher s) (published s) (deferred s) (lookupQueue s) (reads s).
Definition with_lettingGo v s := mkDisp (core_ s) (objs s) (clients s) (sessions s) (sess s) v (orphans s) (statsAtMs s)
  (statsPending s) (series s) (nextClient s) (watchers s) (nextWatcher s) (published s) (deferred s) (lookupQueue s) (reads s).
Definition with_orphans v s := mkDisp (core_ s) (objs s) (clients s) (sessions s) (sess s) (lettingGo s) v (statsAtMs s)
  (statsPending s) (series s) (nextClient s) (watchers s) (nextWatcher s) (published s) (deferred s) (lookupQueue s) (reads s).
Definition with_stats at_ pend ser s := mkDisp (core_ s) (objs s) (clients s) (sessions s) (sess s) (lettingGo s) (orphans s) at_
  pend ser (nextClient s) (watchers s) (nextWatcher s) (published s) (deferred s) (lookupQueue s) (reads s).
Definition with_nextClient v s := mkDisp (core_ s) (objs s) (clients s) (sessions s) (sess s) (lettingGo s) (orphans s) (statsAtMs s)
  (statsPending s) (series s) v (watchers s) (nextWatcher s) (published s) (deferred s) (lookupQueue s) (reads s).
Definition with_watchers v n s := mkDisp (core_ s) (objs s) (clients s) (sessions s) (sess s) (lettingGo s) (orphans s) (statsAtMs s)
  (statsPending s) (series s) (nextClient s) v n (published s) (deferred s) (lookupQueue s) (reads s).
Definition with_published v s := mkDisp (core_ s) (objs s) (clients s) (sessions s) (sess s) (lettingGo s) (orphans s) (statsAtMs s)
  (statsPending s) (series s) (nextClient s) (watchers s) (nextWatcher s) v (deferred s) (lookupQueue s) (reads s).
Definition with_deferred v s := mkDisp (core_ s) (objs s) (clients s) (sessions s) (sess s) (lettingGo s) (orphans s) (statsAtMs s)
  (statsPending s) (series s) (nextClient s) (watchers s) (nextWatcher s) (published s) v (lookupQueue s) (reads s).
Definition with_lookupQueue v s := mkDisp (core_ s) (objs s) (clients s) (sessions s) (sess s) (lettingGo s) (orphans s) (statsAtMs s)
  (statsPending s) (series s) (nextClient s) (watchers s) (nextWatcher s) (published s) (deferred s) v (reads s).
Definition with_reads v s := mkDisp (core_ s) (objs s) (clients s) (sessions s) (sess s) (lettingGo s) (orphans s) (statsAtMs s)
  (statsPending s) (series s) (nextClient s) (watchers s) (nextWatcher s) (published s) (deferred s) (lookupQueue s) v.

Abbreviation D := (M dispatcher).

Definition maxSystemLen : nat := 64.
Definition statsEveryMs : double := double_of_Z 1000.
Definition orphanGraceMs : double := double_of_Z 10000.
Definition chunk : nat := 256.

(** An operation of the core. *)
Definition on_core {A} (m : C A) : D A := zoom core_ with_core m.

(** [core.entry(drv)] and [core.worker(wid)] *)
Definition entry_of (d : N) : D (option Entry.t) := on_core (at_ entries d).
Definition worker_of (w : N) : D Worker.t := on_core (at_ workers w).

Definition afterUnlock (a : action) : D () := modify (λ s, with_deferred (deferred s ++ [a]) s).

(** [send] of a client and of a session. *)
Definition client_send (cid : N) (msg : SchedMsg) : D bool :=
  s ← get;
  obj ← expect Undefined (objs s !! cid);
  zoom (λ _, Client.stream obj) (λ r s, with_objs (<[cid := Client.with_stream r obj]> (objs s)) s) (Reactor.send msg).

Definition session_send (sid : N) (cmd : SchedCmd) : D bool :=
  s ← get;
  ses ← expect Undefined (sessions s !! sid);
  zoom (λ _, Session.stream ses) (λ r s, with_sessions (<[sid := Session.with_stream r ses]> (sessions s)) s) (Reactor.send cmd).

Section Dispatcher.
Context (clock : nat → double) (ord : nat → map_order) (defaultSystem : string).

Definition nowMs : D double :=
  s ← get;
  modify (with_reads (S (reads s)));;
  mret (clock (reads s)).

(** ** Membership *)

Definition wakeWatchersLocked : D () :=
  s ← get;
  forM_ (elements (watchers s)) (λ watcher, afterUnlock (Wake watcher)).

(** [( *next)[system].push_back(...)] for the systems of one worker. *)
Definition add_member (next : Membership) (wkr : Worker.t) : Membership :=
  if negb (Worker.up wkr) then next
  else foldl (λ next system,
    <[system := default [] (next !! system) ++ [(Worker.addr wkr, negb (Worker.takesWork wkr))]]> next)
    next (Worker.systems wkr).

Definition membershipChangedLocked : D () :=
  s ← get;
  modify (with_published (foldl add_member ∅ (workers (core_ s))));;
  wakeWatchersLocked.

Definition watchMembership : D N :=
  s ← get;
  modify (with_watchers ({[nextWatcher s]} ∪ watchers s) (u64 (nextWatcher s + 1)));;
  mret (nextWatcher s).
Definition unwatchMembership (watcher : N) : D () :=
  modify (λ s, with_watchers (watchers s ∖ {[watcher]}) (nextWatcher s) s).

(** ** Metrics *)

Definition exportStats (force : bool) : D () :=
  now ← nowMs;
  s ← get;
  if negb force && match statsAtMs s with Some at_ => dltb (dsub now at_) statsEveryMs | None => false end then
    modify (with_stats (statsAtMs s) true (series s))
  else
    let live := stats (core_ s) in
    (* every live key is set, and what is left of the previous ones removed *)
    let set_ := map_fold (λ key sst ser, <[key := sst]> ser) (series s) live in
    let previous := filter (λ key, live !! key = None) (elements (dom (series s))) in
    modify (with_stats (Some now) false (foldl (λ ser key, delete key ser) set_ previous)).

(** ** Messages to followers and workers *)

Definition sendToFollowers (d : N) (msg : SchedMsg) : D () :=
  ent ← entry_of d;
  match ent with
  | None => mret tt
  | Some ent =>
      forM_ (Entry.followers ent) (λ cid,
        s ← get;
        if decide (cid ∈ clients s) then client_send cid msg;; mret tt else mret tt)
  end.

Definition assignedMsg (d : N) : D SchedMsg :=
  ent ← entry_of d;
  match ent with
  | None => mret NoMsg
  | Some ent =>
      if (Entry.worker ent =? noWorker)%N then mret NoMsg
      else
        wkr ← worker_of (Entry.worker ent);
        mret (Assigned (Entry.drvPath ent) (Worker.addr wkr) (Entry.assignId ent) (default EmptyString (head (Worker.systems wkr))))
  end.

Definition concatComma (l : list string) : string := String.concat "," l.

Definition unplaceableMsg (ent : Entry.t) (c : core) : SchedMsg :=
  Unplaceable (Entry.drvPath ent)
    ("no connected, non-draining worker for system '" +:+ Entry.system ent +:+ "' offers features {" +:+
     concatComma (Entry.features ent) +:+ "}, the workers offer {" +:+
     concatComma (offeredFeatures (Entry.system ent) c) +:+ "}").

Definition revokeOn (wid : N) (drvPath : string) : D () :=
  s ← get;
  match sess s !! wid with
  | Some sid => session_send sid (Revoke drvPath);; mret tt
  | None => mret tt
  end.

Definition placeabilityChangedLocked : D () :=
  changed ← on_core placeabilityChanges;
  forM_ changed (λ d,
    ent ← entry_of d;
    match ent with
    | None => mret tt
    | Some ent =>
        c ← gets core_;
        sendToFollowers d (if Entry.unplaceable ent then unplaceableMsg ent c else Placeable (Entry.drvPath ent))
    end).

(** The worker's stream died: requeue what it has. *)
Definition expect_undeliverable (wid : N) : D () :=
  on_core (workerGone wid);;
  membershipChangedLocked;;
  modify (λ s, with_sess (delete wid (sess s)) s);;
  placeabilityChangedLocked.

(** Whether the Expect of an assignment reached the worker's session. *)
Definition send_expect (asg : Assign.t) (drvPath : string) : D bool :=
  s ← get;
  match sess s !! Assign.worker asg with
  | None => mret false
  | Some sid => session_send sid (Expect drvPath (Assign.assignId asg))
  end.

Definition deliver (asg : Assign.t) : D () :=
  ent ← entry_of (Assign.drv asg);
  match ent with
  | None => mret tt
  | Some ent =>
      worker_of (Assign.worker asg);;
      ok ← send_expect asg (Entry.drvPath ent);
      if negb ok then expect_undeliverable (Assign.worker asg)
      else
        msg ← assignedMsg (Assign.drv asg);
        sendToFollowers (Assign.drv asg) msg;;
        nowMs;; mret tt
  end.

Definition dispatchLocked : D () :=
  s ← get;
  out ← on_core (dispatch (ord (reads s)));
  forM_ out deliver;;
  exportStats false.

Definition supersede (d loser : N) : D () :=
  ent ← entry_of d;
  match ent with
  | None => mret tt
  | Some ent =>
      msg ← assignedMsg d;
      sendToFollowers d msg;;
      if (loser =? noWorker)%N then mret tt
      else
        revokeOn loser (Entry.drvPath ent);;
        worker_of (Entry.worker ent);;
        worker_of loser;; mret tt
  end.

Definition revokeOrphan (now : double) (orphan : Orphan.t) : D bool :=
  if dltb now (Orphan.dueMs orphan) then mret false
  else
    ent ← entry_of (Orphan.drv orphan);
    match ent with
    | Some ent =>
        if (Entry.assignId ent =? Orphan.assignId orphan)%N && negb (Entry.worker ent =? noWorker)%N &&
           bool_decide (Entry.followers ent = [])
        then revokeOn (Entry.worker ent) (Entry.drvPath ent) else mret tt
    | None => mret tt
    end;;
    mret true.

Definition revokeOrphans : D () :=
  now ← nowMs;
  s ← get;
  kept ← foldM (λ kept orphan, due ← revokeOrphan now orphan; mret (if due : bool then kept else kept ++ [orphan]))
           [] (orphans s);
  modify (with_orphans kept).

(** One round of [statsLoop]. *)
Definition stats_round : D () :=
  revokeOrphans;;
  s ← get;
  if statsPending s then exportStats true else mret tt.

(** ** Clients *)

Definition connectClient : D N :=
  s ← get;
  let cid := nextClient s in
  modify (with_nextClient (u64 (cid + 1)));;
  modify (λ s, with_objs (<[cid := Client.mk Reactor.fresh false]> (objs s)) s);;
  modify (λ s, with_clients ({[cid]} ∪ clients s) s);;
  mret cid.

Definition serving : D () := modify (with_lettingGo false).

Definition restarting : D () :=
  modify (with_lettingGo true);;
  wakeWatchersLocked;;
  s ← get;
  forM_ (elements (clients s)) (λ cid, client_send cid Restarting;; mret tt);;
  forM_ (map_to_list (sess s)) (λ ws, session_send ws.2 RestartingCmd;; mret tt).

Definition systemFor (system : string) : string :=
  if bool_decide (system = EmptyString) || bool_decide (system = "builtin") then defaultSystem else system.

Definition wantsLookup (want : Want.t) : bool :=
  (Want.build_mode want =? 0)%N && negb (bool_decide (Want.out_keys want = []))
  && negb (bool_decide (Want.drv_path want = EmptyString)).

Definition msg_wantsLookup (msg : ClientMsg) : bool := match msg with MWant want => wantsLookup want | _ => false end.

(** [lookup]; [present] is what the shared cache answers for the keys, [None] if it
    can't say or there is no cache. *)
Definition lookup_keys (msgs : list ClientMsg) : list string :=
  flat_map (λ msg, match msg with MWant want => if wantsLookup want then Want.out_keys want else [] | _ => [] end) msgs.
Definition lookup (present : list string → option (gset string)) (msgs : list ClientMsg) : list bool :=
  match lookup_keys msgs with
  | [] => (λ _, false) <$> msgs
  | keys =>
      match present keys with
      | None => (λ _, false) <$> msgs
      | Some have =>
          (λ msg, match msg with
                  | MWant want => wantsLookup want && forallb (λ key, bool_decide (key ∈ have)) (Want.out_keys want)
                  | _ => false
                  end) <$> msgs
      end
  end.

Definition onWant (cid : N) (want : Want.t) (cached : bool) : D () :=
  let refuse reason := client_send cid (Unplaceable (Want.drv_path want) reason);; mret tt in
  if bool_decide (Want.drv_path want = EmptyString) then mret tt
  else
    s ← get;
    if lettingGo s then client_send cid Restarting;; mret tt
    else if cached then client_send cid (Cached (Want.drv_path want));; mret tt
    else if maxSystemLen <? String.length (Want.system want) then refuse ("bad system '" +:+ Want.system want +:+ "'")
    else
      let system := systemFor (Want.system want) in
      if negb (admitsSystem system (core_ s)) then
        refuse ("too many systems no worker offers, not keeping '" +:+ system +:+ "'")
      else
        now ← nowMs;
        res ← on_core (Sched.want cid (mkWantInfo (Want.drv_path want) (Want.inputs want) system
                 (Want.required_features want) (double_of_Z (Z.of_N (Want.cp_hint_ms want)))) now);
        let '(drv, assigned) := res in
        match assigned with
        | Some _ => msg ← assignedMsg drv; client_send cid msg;; mret tt
        | None =>
            dispatchLocked;;
            ent ← entry_of drv;
            match ent with
            | None => mret tt
            | Some ent =>
                if negb (Entry.worker ent =? noWorker)%N then mret tt
                else
                  placeable ← on_core (placeable_drv drv);
                  if placeable : bool then mret tt
                  else
                    on_core (markUnplaceable drv true);;
                    c ← gets core_;
                    client_send cid (unplaceableMsg ent c);;
                    exportStats false
            end
        end.

Definition onCancel (cid : N) (drv_path : string) : D () :=
  wid ← on_core (cancel_path cid drv_path);
  match wid with
  | Some wid => revokeOn wid drv_path
  | None => mret tt
  end.

(** One message of a batch, with whether its outputs are cached. *)
Definition onClientMsg (cid : N) (m : ClientMsg * bool) : D () :=
  match m.1 with
  | MWant want => onWant cid want m.2
  | MCancel drv_path => onCancel cid drv_path
  | MNothing => mret tt
  end.

(** What [applyClientMsgs] does in one hold of the mutex. *)
Definition apply_chunk (cid : N) (msgs : list (ClientMsg * bool)) : D () :=
  s ← get;
  obj ← expect Undefined (objs s !! cid);
  if Client.gone obj then mret tt else forM_ msgs (onClientMsg cid).

(** The chunks of a batch; [fuel] is at least its length. *)
Fixpoint chunks {A} (fuel : nat) (msgs : list A) : list (list A) :=
  match fuel, msgs with
  | S fuel, _ :: _ => take chunk msgs :: chunks fuel (drop chunk msgs)
  | _, _ => []
  end.

(** [clientMsgs]: the batch is left to the lookup threads, or its chunks are applied
    next. *)
Definition clientMsgs (present : option (list string → option (gset string))) (lookupThreads : N) (cid : N)
    (msgs : list ClientMsg) : D (list (list (ClientMsg * bool))) :=
  let needs := match present with Some _ => existsb msg_wantsLookup msgs | None => false end in
  if needs && negb (lookupThreads =? 0)%N then
    modify (λ s, with_lookupQueue (lookupQueue s ++ [(cid, msgs)]) s);;
    mret []
  else mret (chunks (length msgs) (zip msgs (lookup (default (λ _, None) present) msgs))).

(** A lookup thread takes a batch. *)
Definition take_lookup (present : list string → option (gset string)) : D (option (N * list (list (ClientMsg * bool)))) :=
  s ← get;
  match lookupQueue s with
  | [] => mret None
  | (cid, msgs) :: rest =>
      modify (with_lookupQueue rest);;
      mret (Some (cid, chunks (length msgs) (zip msgs (lookup present msgs))))
  end.

Definition clientGone (cid : N) : D () :=
  s ← get;
  obj ← expect Undefined (objs s !! cid);
  modify (with_objs (<[cid := Client.mk (Client.stream obj) true]> (objs s)));;
  modify (λ s, with_clients (clients s ∖ {[cid]}) s);;
  revokes ← on_core (Sched.clientGone cid);
  forM_ revokes (λ dw,
    ent ← entry_of dw.1;
    match ent with
    | None => mret tt
    | Some ent =>
        now ← nowMs;
        modify (λ s, with_orphans (orphans s ++ [Orphan.mk dw.1 (Entry.assignId ent) (dadd now orphanGraceMs)]) s)
    end);;
  exportStats false.

(** ** Workers *)

Definition newSession (sid : N) : D () :=
  modify (λ s, with_sessions (<[sid := Session.mk Reactor.fresh None false]> (sessions s)) s).

Definition upd_session (sid : N) (f : Session.t → Session.t) : D () :=
  s ← get;
  ses ← expect Undefined (sessions s !! sid);
  modify (with_sessions (<[sid := f ses]> (sessions s))).

(** An older session of the worker must not take the new one down. *)
Definition replace_session (sid wid : N) : D () :=
  s ← get;
  match sess s !! wid with
  | Some old =>
      if decide (old = sid) then mret tt
      else upd_session old (Session.with_id None);; afterUnlock (Abort old)
  | None => mret tt
  end.

Definition onHello (sid : N) (addr : string) (systems features : list string) (max_jobs : N) (running : list (string * N)) :
    D () :=
  (if bool_decide (systems = []) then throw (NixError ("worker " +:+ addr +:+ " offers no system")) else mret tt);;
  forM_ systems (λ name,
    if maxSystemLen <? String.length name then throw (NixError ("WorkerSession: bad system '" +:+ name +:+ "'")) else mret tt);;
  wid ← on_core (workerId addr);
  replace_session sid wid;;
  res ← on_core (hello (mkHelloInfo addr (systemFor <$> systems) features max_jobs running));
  let '(wid, superseded) := res in
  upd_session sid (Session.with_id (Some wid));;
  modify (λ s, with_sess (<[wid := sid]> (sess s)) s);;
  membershipChangedLocked;;
  forM_ superseded (λ sup, supersede sup.1 sup.2);;
  placeabilityChangedLocked.

Definition onDone (wid : N) (drv_path : string) (outcome : Outcome) (outputs : list (string * N)) : D () :=
  match outcome with
  | GIVEN_BACK | NO_SHOW => on_core (giveBack wid drv_path);; placeabilityChangedLocked
  | BUILT => on_core (done wid drv_path outputs)
  | _ => on_core (done wid drv_path [])
  end.

Definition workerMsgLocked (sid : N) (msg : WorkerMsg) : D () :=
  s ← get;
  ses ← expect Undefined (sessions s !! sid);
  match msg with
  | MHello addr systems features max_jobs running => onHello sid addr systems features max_jobs running
  | _ =>
      match Session.id ses with
      | None => throw (NixError "WorkerSession: first message must be Hello")
      | Some wid =>
          match msg with
          | MDone drv_path outcome outputs => onDone wid drv_path outcome outputs
          | MLoad draining =>
              on_core (setDraining wid draining);;
              membershipChangedLocked;;
              placeabilityChangedLocked
          | _ => mret tt
          end
      end
  end.

Definition is_hello (msg : WorkerMsg) : bool := match msg with MHello _ _ _ _ _ => true | _ => false end.

Definition workerMsgs (sid : N) (msgs : list WorkerMsg) : D () :=
  match msgs with
  | [] => mret tt
  | first :: _ =>
      s ← get;
      ses ← expect Undefined (sessions s !! sid);
      (match Session.id ses with
       | None => if is_hello first then mret tt else throw (NixError "WorkerSession: first message must be Hello")
       | Some _ => mret tt
       end);;
      forM_ msgs (workerMsgLocked sid);;
      dispatchLocked;;
      exportStats false
  end.

Definition workerGone (sid : N) : D () :=
  s ← get;
  ses ← expect Undefined (sessions s !! sid);
  match Session.id ses with
  | None => mret tt
  | Some wid =>
      worker_of wid;;
      on_core (Sched.workerGone wid);;
      modify (λ s, with_sess (delete wid (sess s)) s);;
      membershipChangedLocked;;
      dispatchLocked;;
      placeabilityChangedLocked;;
      exportStats false;;
      upd_session sid (Session.with_id None)
  end.

(** The [catch] of [lookupLoop]: end the stream of a client whose batch failed. *)
Definition lookup_failed (cid : N) : D () :=
  s ← get;
  obj ← expect Undefined (objs s !! cid);
  if Client.gone obj then mret tt
  else modify (with_objs (<[cid := Client.with_stream (Reactor.with_cancelled (Client.stream obj)) obj]> (objs s))).

(** What [~Lock] runs once the mutex is released: a watcher, or the end of a replaced
    session's stream. *)
Definition run_action (a : action) : D () :=
  match a with
  | Wake _ => mret tt
  | Abort sid => upd_session sid (λ ses, Session.with_stream (Reactor.with_cancelled (Session.stream ses)) ses)
  end.

(** A step of a stream; the last one deletes the session with its reactor. *)
Definition client_event (cid : N) (ev : Reactor.event SchedMsg) : D () :=
  s ← get;
  obj ← expect Undefined (objs s !! cid);
  zoom (λ _, Client.stream obj) (λ r s, with_objs (<[cid := Client.with_stream r obj]> (objs s)) s) (Reactor.run_event ev).

Definition session_event (sid : N) (ev : Reactor.event SchedCmd) : D () :=
  s ← get;
  ses ← expect Undefined (sessions s !! sid);
  zoom (λ _, Session.stream ses) (λ r s, with_sessions (<[sid := Session.with_stream r ses]> (sessions s)) s)
    (Reactor.run_event ev);;
  match ev with
  | Reactor.Done => modify (λ s, with_sessions (delete sid (sessions s)) s)
  | _ => mret tt
  end.
End Dispatcher.

(** ** The daemon's threads

    Batches of client messages are applied chunk by chunk, by the thread that read
    them or by one of the lookup threads.  [acting] are the actions whose locks have
    been released, and [heard] what each session has reported to be running so far,
    which the program does not keep. *)

Module Batch.
Record t := mk { client : N; pooled : bool; todo : list (list (ClientMsg * bool)) }.
End Batch.

Record system := mkSystem {
  disp : dispatcher;
  batches : list Batch.t;
  acting : list action;
  heard : gmap N (list (string * N));
}.
Definition with_disp v s := mkSystem v (batches s) (acting s) (heard s).
Definition with_batches v s := mkSystem (disp s) v (acting s) (heard s).
Definition with_acting v s := mkSystem (disp s) (batches s) v (heard s).
Definition with_heard v s := mkSystem (disp s) (batches s) (acting s) v.

Definition initial (cf : Config.t) : system :=
  mkSystem (mkDisp (Core cf) ∅ ∅ ∅ ∅ false [] None false ∅ 1 ∅ 1 ∅ [] [] 0) [] [] ∅.

(** A hold of the mutex; what it defers is left to run, also if it throws. *)
Definition locked {A} (m : D A) : M system A := λ s,
  let '(d, r) := m (disp s) in
  (mkSystem (with_deferred [] d) (batches s) (acting s ++ deferred d) (heard s), r).

Inductive section :=
  | SConnect
  | SClientBatch (cid : N) (msgs : list ClientMsg) (answer : list string → option (gset string))
  | SLookup (answer : list string → option (gset string))
  | SChunk (i : nat)
  | SClientGone (cid : N)
  | SClientStream (cid : N) (ev : Reactor.event SchedMsg)
  | SNewSession (sid : N)
  | SWorkerBatch (sid : N) (msgs : list WorkerMsg)
  | SWorkerGone (sid : N)
  | SSessionStream (sid : N) (ev : Reactor.event SchedCmd)
  | SStats
  | SServing
  | SRestarting
  | SWatch
  | SUnwatch (watcher : N)
  | SAction (i : nat).

(** The builds a message reports. *)
Definition reports (msg : WorkerMsg) : list (string * N) := match msg with MHello _ _ _ _ running => running | _ => [] end.

Section System.
Context (clock : nat → double) (ord : nat → map_order) (defaultSystem : string) (hasCache : bool) (lookupThreads : N).

(** The next chunk of a batch; a batch that throws is given up. *)
Definition run_chunk (i : nat) (b : Batch.t) : M system () :=
  match Batch.todo b with
  | [] => mret tt
  | c :: todo => λ s,
      match locked (apply_chunk clock ord defaultSystem (Batch.client b) c) s with
      | (s, Ok _) => (with_batches (<[i := Batch.mk (Batch.client b) (Batch.pooled b) todo]> (batches s)) s, Ok tt)
      | (s, Throw e) =>
          let s := with_batches (<[i := Batch.mk (Batch.client b) (Batch.pooled b) []]> (batches s)) s in
          if Batch.pooled b then
            match e with
            | Undefined | OutOfFuel => (s, Throw e)
            | _ => locked (lookup_failed (Batch.client b)) s
            end
          else (s, Throw e)
      end
  end.

Definition run_section (sec : section) : M system () :=
  match sec with
  | SConnect => locked connectClient;; mret tt
  | SClientBatch cid msgs answer =>
      cs ← locked (clientMsgs (if hasCache then Some answer else None) lookupThreads cid msgs);
      modify (λ s, with_batches (batches s ++ [Batch.mk cid false cs]) s)
  | SLookup answer =>
      job ← locked (take_lookup answer);
      match job with
      | Some (cid, cs) => modify (λ s, with_batches (batches s ++ [Batch.mk cid true cs]) s)
      | None => mret tt
      end
  | SChunk i => s ← get; match batches s !! i with Some b => run_chunk i b | None => mret tt end
  | SClientGone cid => locked (clientGone clock cid)
  | SClientStream cid ev => locked (client_event cid ev)
  | SNewSession sid => modify (λ s, with_heard (<[sid := []]> (heard s)) s);; locked (newSession sid)
  | SWorkerBatch sid msgs =>
      modify (λ s, with_heard (<[sid := default [] (heard s !! sid) ++ flat_map reports msgs]> (heard s)) s);;
      locked (workerMsgs clock ord defaultSystem sid msgs)
  | SWorkerGone sid => locked (workerGone clock ord sid);; locked (upd_session sid Session.with_detached)
  | SSessionStream sid ev => locked (session_event sid ev)
  | SStats => locked (stats_round clock)
  | SServing => locked serving
  | SRestarting => locked restarting
  | SWatch => locked watchMembership;; mret tt
  | SUnwatch watcher => locked (unwatchMembership watcher)
  | SAction i =>
      s ← get;
      match acting s !! i with
      | Some a => modify (with_acting (delete i (acting s)));; locked (run_action a)
      | None => mret tt
      end
  end.
End System.
