(* ===== verification/DispatcherInv.v ===== *)
(** * The dispatcher's invariant

    What holds between two holds of the mutex, and, with exceptions, during one. *)

From S2P Require Import Prelude Double PathKey Heap Free Sched SchedInv SchedOps SchedHello SchedDispatch SchedPlace.
From S2P Require Import SchedFrame Reactor Dispatcher.

(** ** What a client was told *)

Definition said (p : string) (acc : option (string * N * string)) (m : SchedMsg) : option (string * N * string) :=
  match m with
  | Assigned p' addr aid system => if decide (p' = p) then Some (addr, aid, system) else acc
  | _ => acc
  end.

(** The last assignment of a derivation among the messages. *)
Definition last_assigned (p : string) (log : list SchedMsg) : option (string * N * string) := foldl (said p) None log.

(** What a client believes: that no worker can run it, or that one had it, unless it
    was told since that one can. *)
Definition hears (p : string) (acc : bool) (m : SchedMsg) : bool :=
  match m with
  | Unplaceable p' _ | Assigned p' _ _ _ => if decide (p' = p) then true else acc
  | Placeable p' => if decide (p' = p) then false else acc
  | _ => acc
  end.
Definition warned (p : string) (log : list SchedMsg) : Prop := foldl (hears p) false log = true.
Definition warns (p : string) (m : SchedMsg) : Prop :=
  match m with Unplaceable p' _ | Assigned p' _ _ _ => p' = p | _ => False end.
Definition retracts (p : string) (m : SchedMsg) : Prop := match m with Placeable p' => p' = p | _ => False end.

(** What a client's stream has accepted, while it is open. *)
Definition open_log (o : gmap N Client.t) (cid : N) : option (list SchedMsg) :=
  match o !! cid with
  | Some obj => if Reactor.closed (Client.stream obj) then None else Some (Reactor.accepted (Client.stream obj))
  | None => None
  end.

(** Where an entry is placed, as a client is told. *)
Definition place_of (c : core) (e : Entry.t) : option (string * N * string) :=
  (λ wkr, (Worker.addr wkr, Entry.assignId e, default EmptyString (head (Worker.systems wkr)))) <$> workers c !! Entry.worker e.

Definition assigned_of (c : core) (e : Entry.t) : SchedMsg :=
  match place_of c e with
  | Some (addr, aid, system) => Assigned (Entry.drvPath e) addr aid system
  | None => NoMsg
  end.

(** The worker's session reported the build, or was sent an Expect for it. *)
Definition knows (hd : gmap N (list (string * N))) (s : dispatcher) (e : Entry.t) : Prop :=
  ∃ sid ses, sess s !! Entry.worker e = Some sid ∧ sessions s !! sid = Some ses ∧
    (Expect (Entry.drvPath e) (Entry.assignId e) ∈ Reactor.accepted (Session.stream ses) ∨
     ∃ p, p ∈ default [] (hd !! sid) ∧ PathKey p.1 = PathKey (Entry.drvPath e) ∧ p.2 = Entry.assignId e).

(** Whose session it is, and whether its stream is over. *)
Definition session_ids (s : dispatcher) (sid : N) : option (option N * bool) :=
  (λ ses, (Session.id ses, Session.detached ses)) <$> sessions s !! sid.

Definition members (wks : list Worker.t) : Membership := foldl add_member ∅ wks.

Section Invariant.
Context (cf : Config.t) (hd : gmap N (list (string * N))).

(** [X]: followers not yet told of a placement; [K]: placements the worker does not
    know of yet; [F]: entries whose flag may be wrong; [G]: followers not yet told of
    a flag; [P]: the published membership is current. *)
Record DI (X : N → N → Prop) (K F : N → Prop) (G : N → N → Prop) (P : bool) (s : dispatcher) : Prop := {
  di_core : inv (core_ s);
  di_cfg : cfg (core_ s) = cf;
  di_followers : ∀ d e cid, lk (entries (core_ s)) d = Some e → cid ∈ Entry.followers e → cid ∈ clients s;
  di_clients : ∀ cid, cid ∈ clients s ↔ Client.gone <$> objs s !! cid = Some false;
  di_objs : ∀ cid obj, objs s !! cid = Some obj → Reactor.healthy (Client.stream obj) ∧ (cid < nextClient s)%N;
  di_sessions : ∀ sid ses, sessions s !! sid = Some ses → Reactor.healthy (Session.stream ses) ∧
    ∀ w, Session.id ses = Some w → (w < vlen (workers (core_ s)))%N;
  di_sess : ∀ w sid, sess s !! w = Some sid →
    ∃ ses, sessions s !! sid = Some ses ∧ Session.id ses = Some w ∧ Session.detached ses = false;
  di_up : ∀ w wkr, workers (core_ s) !! w = Some wkr → (Worker.up wkr = true ↔ is_Some (sess s !! w));
  di_told : ∀ d e cid log, lk (entries (core_ s)) d = Some e → Entry.worker e ≠ noWorker →
    cid ∈ Entry.followers e → ¬ X d cid → open_log (objs s) cid = Some log →
    last_assigned (Entry.drvPath e) log = place_of (core_ s) e;
  di_known : ∀ d e, lk (entries (core_ s)) d = Some e → Entry.worker e ≠ noWorker → ¬ K d → knows hd s e;
  di_flags : ∀ d e, lk (entries (core_ s)) d = Some e → Entry.worker e = noWorker → ¬ F d →
    Entry.unplaceable e = negb (placeable e (core_ s));
  di_warned : ∀ d e cid log, lk (entries (core_ s)) d = Some e → Entry.unplaceable e = true →
    cid ∈ Entry.followers e → ¬ G d cid → open_log (objs s) cid = Some log → warned (Entry.drvPath e) log;
  di_orphans : Forall (λ o, (Orphan.drv o < vlen (entries (core_ s)))%N) (orphans s);
  di_pub : P = true → published s = members (workers (core_ s));
  di_reads : ∀ sid ses, sessions s !! sid = Some ses → Reactor.readsDone (Session.stream ses) = true → Session.detached ses = true;
  di_addr : ∀ w wkr, workers (core_ s) !! w = Some wkr → Worker.up wkr = true → Worker.addr wkr ≠ EmptyString;
}.

(** The exceptions may be widened. *)
Lemma DI_weaken (X X' : N → N → Prop) (K K' F F' : N → Prop) (G G' : N → N → Prop) (P P' : bool) s :
  (∀ d cid, X d cid → X' d cid) → (∀ d, K d → K' d) → (∀ d, F d → F' d) → (∀ d cid, G d cid → G' d cid) →
  (P' = true → P = true) → DI X K F G P s → DI X' K' F' G' P' s.
Proof.
  intros HX HK HF HG HP []. split; try done; eauto.
Qed.

(** The invariant is about these components only. *)
Lemma DI_ext X K F G P s s' :
  core_ s' = core_ s → objs s' = objs s → clients s' = clients s → sessions s' = sessions s → sess s' = sess s →
  orphans s' = orphans s → nextClient s' = nextClient s → published s' = published s →
  DI X K F G P s → DI X K F G P s'.
Proof.
  destruct s, s'. simpl. intros -> -> -> -> -> -> -> -> []. split; done.
Qed.

(** A placed entry is on a worker that is up. *)
Lemma placed_worker c d e :
  inv c → lk (entries c) d = Some e → Entry.worker e ≠ noWorker →
  ∃ wkr, workers c !! Entry.worker e = Some wkr ∧ Worker.up wkr = true.
Proof.
  intros HI Hd Hw. pose proof (pl_placed _ _ _ _ (inv_place _ _ _ _ HI) d e Hd ltac:(set_solver)) as Hp.
  unfold placed in Hp. rewrite decide_False in Hp by done. unfold run in Hp.
  destruct (workers c !! Entry.worker e) as [wkr|] eqn:E; [|by apply not_elem_of_nil in Hp]. exists wkr. split; [done|].
  destruct (wk_ok _ _ _ (inv_workers _ _ _ _ HI) _ _ E) as [_ Hr]. destruct (Worker.up wkr); [done|].
  rewrite Hr in Hp by done. by apply not_elem_of_nil in Hp.
Qed.

(** Different entries have different paths. *)
Lemma path_inj c d d' e e' :
  inv c → lk (entries c) d = Some e → lk (entries c) d' = Some e' → Entry.drvPath e = Entry.drvPath e' → d = d'.
Proof.
  intros HI Hd Hd' Hp. pose proof (inv_tables _ _ _ _ HI) as HT.
  assert (drvIds c !! PathKey (Entry.drvPath e) = Some d) by (apply (tab_ids _ _ _ HT); eauto).
  assert (drvIds c !! PathKey (Entry.drvPath e) = Some d') by (apply (tab_ids _ _ _ HT); rewrite Hp; eauto). congruence.
Qed.

(** ** Sending to clients *)

(** [msg] went to the clients [fs]. *)
Definition sent (fs : list N) (msg : SchedMsg) (o o' : gmap N Client.t) : Prop :=
  (∀ cid, Client.gone <$> o' !! cid = Client.gone <$> o !! cid) ∧
  (∀ cid obj, o' !! cid = Some obj → Reactor.healthy (Client.stream obj)) ∧
  ∀ cid log', open_log o' cid = Some log' →
    ∃ log, open_log o cid = Some log ∧ log' = if decide (cid ∈ fs) then log ++ [msg] else log.

Lemma sent_nil msg (o : gmap N Client.t) : (∀ cid obj, o !! cid = Some obj → Reactor.healthy (Client.stream obj)) → sent [] msg o o.
Proof. intros H. split_and!; [done..|]. intros cid log Hl. exists log. split; [done|]. by rewrite decide_False by apply not_elem_of_nil. Qed.

Lemma sent_snoc fs cid msg o o1 o2 : cid ∉ fs → sent fs msg o o1 → sent [cid] msg o1 o2 → sent (fs ++ [cid]) msg o o2.
Proof.
  intros Hn (Hg1 & Hh1 & Hl1) (Hg2 & Hh2 & Hl2). split_and!; [intros; by rewrite Hg2|done|].
  intros c log2 (log1 & (log & Hlog & ->)%Hl1 & ->)%Hl2. exists log. split; [done|].
  destruct (decide (c ∈ [cid])) as [->%list_elem_of_singleton|Hc].
  - by rewrite (decide_False (P := cid ∈ fs)), decide_True by set_solver.
  - destruct (decide (c ∈ fs)); [rewrite decide_True|rewrite decide_False]; set_solver.
Qed.

Lemma send_cases {Msg} (msg : Msg) (r : Reactor.t Msg) :
  Reactor.healthy r →
  wp (Reactor.send msg) (λ ok r', Reactor.healthy r' ∧ Reactor.readsDone r' = Reactor.readsDone r ∧
    (Reactor.closed r = true → Reactor.closed r' = true) ∧
    if ok : bool then Reactor.accepted r' = Reactor.accepted r ++ [msg]
    else Reactor.closed r' = true ∧ Reactor.accepted r' = Reactor.accepted r) r.
Proof.
  intros HH. eapply wp_mono; [eapply wp_keeps; [apply Reactor.send_reads|apply (Reactor.send_spec msg r HH)]|].
  intros [] r' [[(Hh & Ha & Hc) Ht] Hr]; [rewrite Ht in Ha|destruct Ht as [? Ht]; rewrite Ht, app_nil_r in Ha]; done.
Qed.

Lemma client_send_spec cid msg obj s :
  objs s !! cid = Some obj → (∀ cid obj, objs s !! cid = Some obj → Reactor.healthy (Client.stream obj)) →
  wp (client_send cid msg) (λ _ s', ∃ o', s' = with_objs o' s ∧ sent [cid] msg (objs s) o') s.
Proof.
  intros Ho Hall. unfold client_send. wp_steps.
  eapply wp_mono; [apply send_cases; by eapply Hall|]. intros ok r (Hh & _ & Hc & Hok). eexists. split; [done|].
  split_and!.
  - intros c. destruct (decide (c = cid)) as [->|Hne]; [by rewrite lookup_insert_eq, Ho|by rewrite lookup_insert_ne].
  - intros c obj' [[<- <-]|[_ ?]]%lookup_insert_Some; [done|by eapply Hall].
  - intros c log'. unfold open_log. destruct (decide (c = cid)) as [->|Hne].
    + rewrite lookup_insert_eq, Ho. simpl. destruct (Reactor.closed r) eqn:Er; [done|]. intros [= <-].
      destruct (Reactor.closed (Client.stream obj)); [by specialize (Hc eq_refl)|]. eexists. split; [done|].
      rewrite decide_True by set_solver. destruct ok; [done|]. by destruct Hok.
    + rewrite lookup_insert_ne by done. intros Hl. exists log'. split; [done|]. by rewrite decide_False by set_solver.
Qed.

Lemma last_assigned_snoc p log m : last_assigned p (log ++ [m]) = said p (last_assigned p log) m.
Proof. unfold last_assigned. by rewrite foldl_snoc. Qed.

Definition assigns (p : string) (m : SchedMsg) : Prop := match m with Assigned p' _ _ _ => p' = p | _ => False end.

Lemma said_other p acc m : ¬ assigns p m → said p acc m = acc.
Proof. destruct m; simpl; try done. intros H. by rewrite decide_False. Qed.

Lemma warned_snoc p log m : warns p m → warned p (log ++ [m]).
Proof. unfold warned. rewrite foldl_snoc. destruct m; simpl; try done; intros ->; by rewrite decide_True. Qed.

Lemma warned_other p log m : ¬ retracts p m → warned p log → warned p (log ++ [m]).
Proof.
  unfold warned. rewrite foldl_snoc. intros Hn ->. destruct m; simpl in *; try done; case_decide; done.
Qed.

Lemma said_assigned c d e acc :
  inv c → lk (entries c) d = Some e → Entry.worker e ≠ noWorker →
  said (Entry.drvPath e) acc (assigned_of c e) = place_of c e ∧ warns (Entry.drvPath e) (assigned_of c e).
Proof.
  intros HI Hd Hw. destruct (placed_worker c d e HI Hd Hw) as (wkr & Hwk & _). unfold assigned_of, place_of.
  rewrite Hwk. simpl. by rewrite decide_True.
Qed.

Lemma DI_sent (X X' : N → N → Prop) K F (G G' : N → N → Prop) P s fs msg o' :
  DI X K F G P s → sent fs msg (objs s) o' →
  (∀ d e cid, lk (entries (core_ s)) d = Some e → Entry.worker e ≠ noWorker → cid ∈ Entry.followers e → ¬ X' d cid →
     (cid ∈ fs ∧ msg = assigned_of (core_ s) e) ∨ (¬ X d cid ∧ (cid ∈ fs → ¬ assigns (Entry.drvPath e) msg))) →
  (∀ d e cid, lk (entries (core_ s)) d = Some e → Entry.unplaceable e = true → cid ∈ Entry.followers e → ¬ G' d cid →
     (¬ G d cid ∧ (cid ∈ fs → ¬ retracts (Entry.drvPath e) msg)) ∨ (cid ∈ fs ∧ warns (Entry.drvPath e) msg)) →
  DI X' K F G' P (with_objs o' s).
Proof.
  intros HD (Hgone & Hh & Hlog) HX HG. destruct HD as [Hc Hcf Hfo Hcl Hob Hse Hss Hup Ht Hk Hf Hw Hor Hp].
  split; simpl; try done.
  - intros cid. by rewrite Hgone.
  - intros cid obj Ho. split; [by eapply Hh|]. specialize (Hgone cid). rewrite Ho in Hgone.
    destruct (objs s !! cid) as [obj0|] eqn:E; [|done]. by apply (Hob cid obj0).
  - intros d e cid log' Hd Hn Hin HnX (log & Hl & ->)%Hlog.
    destruct (HX d e cid Hd Hn Hin HnX) as [[Hfs ->]|[HnX' Hna]].
    + rewrite decide_True, last_assigned_snoc by done. by apply (said_assigned _ d).
    + case_decide; [|by eapply Ht]. rewrite last_assigned_snoc, said_other by auto. by eapply Ht.
  - intros d e cid log' Hd Hu Hin HnG (log & Hl & ->)%Hlog.
    destruct (HG d e cid Hd Hu Hin HnG) as [[HnG' Hnr]|[Hfs Hwn]].
    + case_decide; [|by eapply Hw]. apply warned_other; [by auto|by eapply Hw].
    + rewrite decide_True by done. by apply warned_snoc.
Qed.

(** A message that moves nothing. *)
Definition neutral (m : SchedMsg) : Prop := match m with Assigned _ _ _ _ | Placeable _ => False | _ => True end.

Lemma DI_sent_other X K F G P s fs msg o' :
  DI X K F G P s → sent fs msg (objs s) o' → neutral msg → DI X K F G P (with_objs o' s).
Proof.
  intros HD Hs Hn. eapply DI_sent; [done|done|..].
  - intros d e cid _ _ _ HX. right. split; [done|]. intros _. destruct msg; try done; by intros [].
  - intros d e cid _ _ _ HG. left. split; [done|]. intros _. destruct msg; try done; by intros [].
Qed.

(** The assignment of an entry. *)
Lemma DI_sent_assigned X K F G P s fs d e o' :
  DI X K F G P s → lk (entries (core_ s)) d = Some e → Entry.worker e ≠ noWorker →
  sent fs (assigned_of (core_ s) e) (objs s) o' →
  DI (λ d' cid, X d' cid ∧ ¬ (d' = d ∧ cid ∈ fs)) K F (λ d' cid, G d' cid ∧ ¬ (d' = d ∧ cid ∈ fs)) P (with_objs o' s).
Proof.
  intros HD Hd Hw Hs. pose proof (di_core _ _ _ _ _ _ HD) as HI. eapply DI_sent; [done|done|..].
  - intros d' e' cid Hd' Hw' Hin HX. destruct (decide (cid ∈ fs)) as [Hfs|Hfs]; [|right; split; [|done]; intros ?; apply HX; naive_solver].
    destruct (decide (d' = d)) as [->|Hne]; [left; split; [done|]; by simplify_eq|].
    right. split; [intros ?; apply HX; naive_solver|]. intros _ Ha. apply Hne. eapply path_inj; [done..|].
    unfold assigns, assigned_of in Ha. destruct (place_of _ e) as [[[]]|]; naive_solver.
  - intros d' e' cid Hd' Hu Hin HG. destruct (decide (d' = d ∧ cid ∈ fs)) as [[-> ?]|Hno].
    + right. simplify_eq. split; [done|]. by eapply (proj2 (said_assigned _ d e None HI Hd Hw)).
    + left. split; [intros ?; apply HG; by split|]. intros _. unfold assigned_of. destruct (place_of _ e) as [[[]]|]; by intros [].
Qed.

(** ** Reading the core *)

Lemma with_core_id s : with_core (core_ s) s = s.
Proof. by destruct s. Qed.

Lemma wp_on_core {A} (m : C A) (Φ : A → dispatcher → Prop) s :
  wp m (λ a c, Φ a (with_core c s)) (core_ s) → wp (on_core m) Φ s.
Proof. apply wp_zoom. Qed.

Lemma wp_entry_of d (Φ : option Entry.t → dispatcher → Prop) s :
  (d < vlen (entries (core_ s)))%N → Φ (lk (entries (core_ s)) d) s → wp (entry_of d) Φ s.
Proof.
  intros [o Ho]%vlookup_lt HΦ. apply wp_on_core. eapply wp_at; [done|]. rewrite with_core_id.
  unfold lk in HΦ. rewrite Ho in HΦ. by destruct o.
Qed.

Lemma wp_worker_of w wkr (Φ : Worker.t → dispatcher → Prop) s :
  workers (core_ s) !! w = Some wkr → Φ wkr s → wp (worker_of w) Φ s.
Proof. intros Hw HΦ. apply wp_on_core. eapply wp_at; [done|]. by rewrite with_core_id. Qed.

Lemma wp_assignedMsg d e (Φ : SchedMsg → dispatcher → Prop) s :
  inv (core_ s) → lk (entries (core_ s)) d = Some e → Entry.worker e ≠ noWorker → Φ (assigned_of (core_ s) e) s →
  wp (assignedMsg d) Φ s.
Proof.
  intros HI Hd Hw HΦ. unfold assignedMsg. apply wp_bind, wp_entry_of; [by eapply lk_lt|]. rewrite Hd.
  rewrite (proj2 (N.eqb_neq _ _)) by done. apply wp_bind.
  destruct (placed_worker _ d e HI Hd Hw) as (wkr & Hwk & _). eapply wp_worker_of; [done|]. wp_steps.
  unfold assigned_of, place_of in HΦ. by rewrite Hwk in HΦ.
Qed.

Lemma sendToFollowers_spec X K F G P d e msg s :
  DI X K F G P s → lk (entries (core_ s)) d = Some e →
  wp (sendToFollowers d msg) (λ _ s', ∃ o', s' = with_objs o' s ∧ sent (Entry.followers e) msg (objs s) o') s.
Proof.
  intros HD Hd. unfold sendToFollowers. apply wp_bind, wp_entry_of; [by eapply lk_lt|]. rewrite Hd.
  destruct (inv_entries _ _ _ _ (di_core _ _ _ _ _ _ HD) d e Hd) as (Hnd & _).
  apply (wp_forM_prefix _ (λ fs s', ∃ o', s' = with_objs o' s ∧ sent fs msg (objs s) o')).
  - exists (objs s). split; [by destruct s|]. apply sent_nil. intros cid obj Ho. by apply (di_objs _ _ _ _ _ _ HD cid obj).
  - intros fs cid rest s' Hfs (o1 & -> & Hs1). wp_steps. cbn [clients with_objs].
    assert (cid ∈ clients s) as Hcl by (apply (di_followers _ _ _ _ _ _ HD d e cid Hd); rewrite Hfs; set_solver).
    rewrite decide_True by done. wp_steps. apply (di_clients _ _ _ _ _ _ HD) in Hcl.
    destruct Hs1 as (Hg1 & Hh1 & Hl1). destruct (o1 !! cid) as [obj|] eqn:Eo.
    2:{ specialize (Hg1 cid). rewrite Eo, Hcl in Hg1. done. }
    eapply wp_mono; [by apply (client_send_spec cid msg obj)|]. intros ok s' (o2 & -> & Hs2). wp_steps.
    exists o2. split; [done|]. apply sent_snoc with o1; [|done|done].
    rewrite Hfs in Hnd. apply NoDup_app in Hnd as (_ & Hno & _). intros Hin. apply (Hno cid Hin). set_solver.
Qed.

(** ** Sending to workers *)

Lemma session_send_spec sid cmd ses s :
  sessions s !! sid = Some ses → Reactor.healthy (Session.stream ses) →
  wp (session_send sid cmd) (λ ok s', ∃ r, s' = with_sessions (<[sid := Session.with_stream r ses]> (sessions s)) s ∧
    Reactor.healthy r ∧ Reactor.readsDone r = Reactor.readsDone (Session.stream ses) ∧
    (Reactor.closed (Session.stream ses) = true → Reactor.closed r = true) ∧
    if ok : bool then Reactor.accepted r = Reactor.accepted (Session.stream ses) ++ [cmd]
    else Reactor.closed r = true ∧ Reactor.accepted r = Reactor.accepted (Session.stream ses)) s.
Proof.
  intros Hs HH. unfold session_send. wp_steps. eapply wp_mono; [by apply send_cases|]. intros ok r H. by exists r.
Qed.

(** A session's stream moves on: it only ever accepts more. *)
Lemma DI_session (X : N → N → Prop) (K K' F : N → Prop) G P s sid ses r :
  DI X K F G P s → sessions s !! sid = Some ses → Reactor.healthy r →
  (Reactor.readsDone r = Reactor.readsDone (Session.stream ses) ∨ Session.detached ses = true) →
  (∀ cmd, cmd ∈ Reactor.accepted (Session.stream ses) → cmd ∈ Reactor.accepted r) →
  (∀ d e, lk (entries (core_ s)) d = Some e → Entry.worker e ≠ noWorker → ¬ K' d → ¬ K d ∨
     (sess s !! Entry.worker e = Some sid ∧ Expect (Entry.drvPath e) (Entry.assignId e) ∈ Reactor.accepted r)) →
  DI X K' F G P (with_sessions (<[sid := Session.with_stream r ses]> (sessions s)) s).
Proof.
  intros [Hc Hcf Hfo Hcl Hob Hse Hss Hup Ht Hk Hf Hw Hor Hp Hrd] Hs Hr Hrr Hacc HK. split; simpl; try done.
  - intros sid' ses' [[<- <-]|[_ ?]]%lookup_insert_Some; [|by apply (Hse sid')]. split; [done|]. simpl. by apply (Hse sid).
  - intros w sid' (ses' & Hs' & ? & ?)%Hss. destruct (decide (sid' = sid)) as [->|Hne].
    + simplify_eq. eexists. by rewrite lookup_insert_eq.
    + exists ses'. by rewrite lookup_insert_ne.
  - intros d e Hd Hn HnK. unfold knows. simpl. destruct (HK d e Hd Hn HnK) as [HnK'|[Hss' Hin]].
    + destruct (Hk d e Hd Hn HnK') as (sid' & ses' & Hw' & Hs' & Hor').
      destruct (decide (sid' = sid)) as [->|Hne].
      * simplify_eq. eexists _, _. rewrite lookup_insert_eq. split_and!; [done..|].
        destruct Hor' as [?|?]; [left; by apply Hacc|by right].
      * exists sid', ses'. by rewrite lookup_insert_ne.
    + eexists _, _. split_and!; [done|by rewrite lookup_insert_eq|by left].
  - intros sid' ses' [[<- <-]|[_ ?]]%lookup_insert_Some; [|by apply (Hrd sid')]. simpl. destruct Hrr as [->|?]; [by apply (Hrd sid)|done].
Qed.

Lemma revokeOn_spec X K F G P wid path s :
  DI X K F G P s →
  wp (revokeOn wid path) (λ _ s', DI X K F G P s' ∧ ∃ m, s' = with_sessions m s ∧ ∀ sid, session_ids s' sid = session_ids s sid) s.
Proof.
  intros HD. unfold revokeOn. wp_steps. destruct (sess s !! wid) as [sid|] eqn:E.
  2:{ wp_steps. split; [done|]. exists (sessions s). by destruct s. }
  destruct (di_sess _ _ _ _ _ _ HD wid sid E) as (ses & Hs & _).
  destruct (di_sessions _ _ _ _ _ _ HD sid ses Hs) as [HH _]. apply wp_bind.
  eapply wp_mono; [by apply session_send_spec|]. intros ok s' (r & -> & Hr & Hrd & _ & Hok). wp_steps. split.
  - apply (DI_session X K K); [done..|by left| |by left]. destruct ok; [rewrite Hok; set_solver|destruct Hok as [_ ->]; done].
  - eexists. split; [done|]. intros sid'. unfold session_ids. simpl. destruct (decide (sid' = sid)) as [->|Hne].
    + by rewrite lookup_insert_eq, Hs.
    + by rewrite lookup_insert_ne.
Qed.
End Invariant.
