(* ===== verification/DispatcherOps.v ===== *)
(** * The dispatcher's helpers keep the invariant *)

From S2P Require Import Prelude Double PathKey Heap Free Sched SchedInv SchedOps SchedHello SchedDispatch SchedPlace.
From S2P Require Import SchedFrame Reactor Dispatcher DispatcherInv.

(** ** Operations that may refuse

    [wpe m Φ E s]: [m] returns and [Φ] holds, or it throws a [nix::Error] and [E]
    holds; nothing else happens. *)
Definition wpe {S A} (m : M S A) (Φ : A → S → Prop) (E : S → Prop) (s : S) : Prop :=
  match m s with
  | (s', Ok a) => Φ a s'
  | (s', Throw (NixError _)) => E s'
  | _ => False
  end.

Section Wpe.
Context {S : Type}.
Implicit Types (s : S) (E : S → Prop).

Lemma wpe_wp {A} (m : M S A) (Φ : A → S → Prop) E s : wp m Φ s → wpe m Φ E s.
Proof. intros (a & s' & Hm & H). unfold wpe. by rewrite Hm. Qed.
Lemma wpe_ret {A} (a : A) (Φ : A → S → Prop) E s : Φ a s → wpe (mret a) Φ E s.
Proof. done. Qed.
Lemma wpe_throw {A} msg (Φ : A → S → Prop) E s : E s → wpe (throw (NixError msg)) Φ E s.
Proof. done. Qed.
Lemma wpe_mono {A} (m : M S A) (Φ Ψ : A → S → Prop) E E' s :
  wpe m Φ E s → (∀ a s', Φ a s' → Ψ a s') → (∀ s', E s' → E' s') → wpe m Ψ E' s.
Proof. unfold wpe. destruct (m s) as [s' [a|[| | |]]]; auto. Qed.
Lemma wpe_bind {A B} (m : M S A) (k : A → M S B) (Φ : B → S → Prop) E s :
  wpe m (λ a, wpe (k a) Φ E) E s → wpe (m ≫= k) Φ E s.
Proof. unfold wpe, mbind, M_bind. by destruct (m s) as [s' [a|[| | |]]]. Qed.
Lemma wpe_forM {A} (f : A → M S ()) (I : S → Prop) E l s :
  I s → (∀ x s', x ∈ l → I s' → wpe (f x) (λ _, I) E s') → wpe (forM_ l f) (λ _, I) E s.
Proof.
  revert s. induction l as [|x l IH]; intros s HI Hf; simpl; [done|]. apply wpe_bind.
  eapply wpe_mono; [apply Hf; [left|done]| |done]. intros [] s' HI'. apply IH; [done|]. intros y s'' Hy. apply Hf. by right.
Qed.
Lemma wpe_forM_rest {A} (f : A → M S ()) (I : list A → S → Prop) E l s :
  I l s → (∀ x rest s', I (x :: rest) s' → wpe (f x) (λ _, I rest) E s') → wpe (forM_ l f) (λ _, I []) E s.
Proof.
  revert s. induction l as [|x l IH]; intros s HI Hf; simpl; [done|]. apply wpe_bind.
  eapply wpe_mono; [by apply Hf| |done]. intros [] s' HI'. by apply IH.
Qed.
End Wpe.

(** ** Workers that change little *)

(** A worker stays the one it is, up or down, with its systems. *)
Definition identity (wkr : Worker.t) : string * list string * bool := (Worker.addr wkr, Worker.systems wkr, Worker.up wkr).
Definition ids_same (wks wks' : list Worker.t) : Prop := ∀ w, identity <$> wks' !! w = identity <$> wks !! w.

Lemma identity_running r wkr : identity (Worker.with_running r wkr) = identity wkr.
Proof. done. Qed.

Lemma same_but_running_ids wks wks' : same_but_running wks wks' → ids_same wks wks'.
Proof.
  intros H w. specialize (H w). unfold profile in H.
  destruct (wks' !! w) as [x|], (wks !! w) as [y|]; try done. simpl in *. injection H as E1 E2 _ _ E5 _.
  unfold identity. by rewrite E1, E2, E5.
Qed.

Lemma ids_same_insert wks w wkr wkr' : wks !! w = Some wkr → identity wkr' = identity wkr → ids_same wks (<[w := wkr']> wks).
Proof.
  intros Hw He w'. destruct (decide (w = w')) as [<-|Hne].
  - rewrite vlookup_insert_eq, Hw by (by eapply vlookup_lt_Some). simpl. by rewrite He.
  - by rewrite vlookup_insert_ne.
Qed.

Lemma same_but_running_fmap wks wks' :
  same_but_running wks wks' → Worker.with_running [] <$> wks' = Worker.with_running [] <$> wks.
Proof.
  intros H. apply list_eq. intros i. rewrite !list_lookup_fmap. specialize (H (N.of_nat i)). unfold profile in H.
  by rewrite !vlookup_nat in H.
Qed.

Lemma members_same wks wks' : same_but_running wks wks' → members wks' = members wks.
Proof.
  intros H%same_but_running_fmap. unfold members. assert (∀ l acc, foldl add_member acc l =
    foldl add_member acc (Worker.with_running [] <$> l)) as Hf.
  { induction l as [|x l IH]; intros acc; [done|]. simpl. rewrite IH. f_equal. }
  by rewrite (Hf wks'), (Hf wks), H.
Qed.

Lemma placeable_same c c' e e' :
  same_but_running (workers c) (workers c') → Entry.system e' = Entry.system e → Entry.features e' = Entry.features e →
  placeable e' c' = placeable e c.
Proof.
  intros H%same_but_running_fmap Hs Hf. unfold placeable. assert (∀ l, existsb (λ wkr, Worker.takesWork wkr && offers wkr e') l =
    existsb (λ wkr, Worker.takesWork wkr && offers wkr e) (Worker.with_running [] <$> l)) as Hl.
  { induction l as [|x l IH]; [done|]. rewrite fmap_cons. cbn [existsb]. rewrite IH. unfold offers. by rewrite Hs, Hf. }
  rewrite Hl, H. clear. induction (workers c) as [|x l IH]; [done|]. rewrite fmap_cons. cbn [existsb]. by rewrite IH.
Qed.

Lemma place_of_same c c' e e' :
  ids_same (workers c) (workers c') → Entry.worker e = Entry.worker e' → Entry.assignId e = Entry.assignId e' →
  place_of c' e' = place_of c e.
Proof.
  intros H Hw Ha. unfold place_of. rewrite Hw, Ha. specialize (H (Entry.worker e')).
  destruct (workers c' !! _) as [x|], (workers c !! _) as [y|]; try done. simpl in *. injection H as -> -> _. done.
Qed.

Lemma ids_same_len wks wks' : ids_same wks wks' → vlen wks' = vlen wks.
Proof.
  intros H. assert (∀ w, is_Some (wks' !! w) ↔ is_Some (wks !! w)) as Hs.
  { intros w. specialize (H w). destruct (wks' !! w), (wks !! w); naive_solver. }
  setoid_rewrite vlookup_lt in Hs. pose proof (Hs (vlen wks)). pose proof (Hs (vlen wks')). lia.
Qed.

Section Ops.
Context (cf : Config.t) (hd : gmap N (list (string * N))).
Abbreviation DI := (DI cf hd).
Implicit Types (X G : N → N → Prop) (K F : N → Prop) (P : bool).

(** ** Steps of the core *)

(** A placed entry was there before, with the follower up to date, and the worker
    knows it, but for the exceptions. *)
Lemma DI_core X K F G P s c' X' K' F' G' P' :
  DI X K F G P s → inv c' → grows (core_ s) c' → ids_same (workers (core_ s)) (workers c') →
  (∀ d e' cid, lk (entries c') d = Some e' → cid ∈ Entry.followers e' → cid ∈ clients s) →
  (∀ d e', lk (entries c') d = Some e' → Entry.worker e' ≠ noWorker →
     (∃ e, lk (entries (core_ s)) d = Some e ∧ Entry.worker e = Entry.worker e' ∧ Entry.drvPath e = Entry.drvPath e' ∧
        Entry.assignId e = Entry.assignId e' ∧ (K d → K' d) ∧
        ∀ cid, cid ∈ Entry.followers e' → ¬ X' d cid → cid ∈ Entry.followers e ∧ ¬ X d cid) ∨
     (K' d ∧ ∀ cid, cid ∈ Entry.followers e' → X' d cid)) →
  (∀ d e', lk (entries c') d = Some e' → Entry.worker e' = noWorker → ¬ F' d →
     Entry.unplaceable e' = negb (placeable e' c')) →
  (∀ d e' cid, lk (entries c') d = Some e' → Entry.unplaceable e' = true → cid ∈ Entry.followers e' → ¬ G' d cid →
     ∃ e, lk (entries (core_ s)) d = Some e ∧ Entry.unplaceable e = true ∧ Entry.drvPath e = Entry.drvPath e' ∧
       cid ∈ Entry.followers e ∧ ¬ G d cid) →
  (P' = true → P = true ∧ members (workers c') = members (workers (core_ s))) →
  DI X' K' F' G' P' (with_core c' s).
Proof.
  intros [Hc Hcf Hfo Hcl Hob Hse Hss Hup Ht Hk Hf Hw Hor Hp Hrd Had] HI [Hg1 Hg2] Hids Hfo' Hpl Hfl Hwn HP.
  split; simpl; try done.
  - congruence.
  - intros sid ses Hs. destruct (Hse sid ses Hs) as [? Hlt]. split; [done|]. rewrite (ids_same_len _ _ Hids). done.
  - intros w wkr' Hw'. specialize (Hids w). rewrite Hw' in Hids. destruct (workers (core_ s) !! w) as [wkr|] eqn:Ew; [|done].
    injection Hids as _ _ Eup. rewrite Eup. by apply Hup.
  - intros d e' cid log Hd Hn Hin HnX Hl. destruct (Hpl d e' Hd Hn) as [(e & He & Ew & Ep & Ea & _ & Hcid)|[_ HX]].
    + destruct (Hcid cid Hin HnX) as [Hin' HnX']. rewrite <- Ep, (place_of_same _ _ e e' Hids Ew Ea).
      eapply Ht; [done| |done..]. by rewrite Ew.
    + by destruct HnX; apply HX.
  - intros d e' Hd Hn HnK. destruct (Hpl d e' Hd Hn) as [(e & He & Ew & Ep & Ea & HK & _)|[HK _]]; [|done].
    destruct (Hk d e He) as (sid & ses & Hs1 & Hs2 & Hs3); [by rewrite Ew|by intros ?%HK|]. exists sid, ses. simpl.
    by rewrite <- Ew, <- Ep, <- Ea.
  - intros d e' cid log Hd Hu Hin HnG Hl. destruct (Hwn d e' cid Hd Hu Hin HnG) as (e & He & Eu & Ep & Hin' & HnG').
    rewrite <- Ep. by eapply Hw.
  - eapply Forall_impl; [exact Hor|]. intros o Ho. simpl in Ho. lia.
  - intros HP'. destruct (HP HP') as [HPt ->]. by apply Hp.
  - intros w wkr' Hw' Hu. specialize (Hids w). rewrite Hw' in Hids. destruct (workers (core_ s) !! w) as [wkr|] eqn:Ew; [|done].
    injection Hids as Ea _ Eup. rewrite Ea. apply (Had w wkr Ew). congruence.
Qed.

(** A worker goes down, and its session with it. *)
Lemma DI_worker_gone X K F G P s c' w wkr :
  DI X K F G P s → inv c' → grows (core_ s) c' → workers (core_ s) !! w = Some wkr →
  workers c' = <[w := gone_worker wkr]> (workers (core_ s)) →
  (∀ d, lk (entries c') d = (lk (entries (core_ s)) d ≫= gone_entry w)) →
  DI X K (λ _, True) G false (with_sess (delete w (sess s)) (with_core c' s)).
Proof.
  intros [Hc Hcf Hfo Hcl Hob Hse Hss Hup Ht Hk Hf Hw Hor Hp Hrd Had] HI [Hg1 Hg2] Hwk Hwks Hlk.
  assert (∀ d e', lk (entries c') d = Some e' → ∃ e, lk (entries (core_ s)) d = Some e ∧
    Entry.drvPath e' = Entry.drvPath e ∧ Entry.followers e' = Entry.followers e ∧ Entry.unplaceable e' = Entry.unplaceable e ∧
    (Entry.worker e' ≠ noWorker → e' = e ∧ Entry.worker e ≠ w)) as Hback.
  { intros d e'. rewrite Hlk. intros (e & He & Hg)%bind_Some. exists e. split; [done|]. unfold gone_entry in Hg.
    repeat case_decide; simplify_eq; done. }
  assert (∀ w', w' ≠ w → workers c' !! w' = workers (core_ s) !! w') as Hother.
  { intros w' Hne. by rewrite Hwks, vlookup_insert_ne. }
  split; simpl; try done.
  - congruence.
  - intros d e' cid (e & He & _ & -> & _)%Hback. by eapply Hfo.
  - intros sid ses Hs. destruct (Hse sid ses Hs) as [? Hlt]. split; [done|]. by rewrite Hwks, vlen_insert.
  - intros w' sid [_ ?]%lookup_delete_Some. by apply Hss.
  - intros w' wkr'. destruct (decide (w' = w)) as [->|Hne].
    + rewrite Hwks, vlookup_insert_eq by (by eapply vlookup_lt_Some). intros [= <-]. rewrite lookup_delete_eq.
      split; [done|by intros []].
    + rewrite Hother, lookup_delete_ne by done. apply Hup.
  - intros d e' cid log (e & He & _ & _ & _ & Hpl)%Hback Hn. destruct (Hpl Hn) as [-> Hne]. intros Hin HX Hl.
    rewrite (Ht d e cid log) by done. unfold place_of. simpl. by rewrite Hother.
  - intros d e' (e & He & _ & _ & _ & Hpl)%Hback Hn HK. destruct (Hpl Hn) as [-> Hne].
    destruct (Hk d e He Hn HK) as (sid & ses & Hs1 & Hs2). exists sid, ses. simpl. by rewrite lookup_delete_ne.
  - intros d e' cid log (e & He & -> & -> & -> & _)%Hback. by eapply Hw.
  - eapply Forall_impl; [exact Hor|]. intros o Ho. simpl in Ho. lia.
  - intros w' wkr'. destruct (decide (w' = w)) as [->|Hne]; [|rewrite Hother by done; apply Had].
    rewrite Hwks, vlookup_insert_eq by (by eapply vlookup_lt_Some). by intros [= <-].
Qed.

(** ** What only the bookkeeping sees *)

(** The dispatcher's tables are the same. *)
Definition tables (s s' : dispatcher) : Prop :=
  core_ s' = core_ s ∧ objs s' = objs s ∧ clients s' = clients s ∧ sessions s' = sessions s ∧ sess s' = sess s ∧
  orphans s' = orphans s ∧ nextClient s' = nextClient s ∧ lookupQueue s' = lookupQueue s.

#[global] Instance tables_preorder : PreOrder tables.
Proof. split; [by intros s|]. intros s1 s2 s3. unfold tables. naive_solver congruence. Qed.

Lemma DI_tables X K F G P s s' : tables s s' → published s' = published s → DI X K F G P s → DI X K F G P s'.
Proof. intros (? & ? & ? & ? & ? & ? & ? & ?) Hp HD. by eapply DI_ext. Qed.

Lemma DI_published X K F G P s s' :
  tables s s' → published s' = members (workers (core_ s')) → DI X K F G P s → DI X K F G true s'.
Proof.
  intros (E1 & E2 & E3 & E4 & E5 & E6 & E7 & E8) Hp HD. destruct s, s'. simpl in *. subst. destruct HD. by split.
Qed.

Lemma nowMs_spec clock s : wp (nowMs clock) (λ t s', t = clock (reads s) ∧ tables s s' ∧ published s' = published s) s.
Proof. unfold nowMs. wp_steps. done. Qed.

Lemma exportStats_spec clock force s : wp (exportStats clock force) (λ _ s', tables s s' ∧ published s' = published s) s.
Proof.
  unfold exportStats. apply wp_bind. eapply wp_mono; [apply nowMs_spec|]. intros t s1 (_ & Ht & Hp). wp_steps.
  destruct (_ && _); wp_steps; simpl; (split; [|done]); (etrans; [exact Ht|]); done.
Qed.

Lemma wakeWatchersLocked_spec s : wp wakeWatchersLocked (λ _ s', tables s s' ∧ published s' = published s) s.
Proof.
  unfold wakeWatchersLocked, afterUnlock. wp_steps.
  apply (wp_forM _ (λ _ s', tables s s' ∧ published s' = published s)); [done|].
  intros w l s' [Ht Hp]. wp_steps. simpl. split; [|done]. etrans; [exact Ht|]. done.
Qed.

Lemma membershipChangedLocked_spec s :
  wp membershipChangedLocked (λ _ s', tables s s' ∧ published s' = members (workers (core_ s))) s.
Proof.
  unfold membershipChangedLocked. wp_steps. eapply wp_mono; [apply wakeWatchersLocked_spec|]. intros _ s' [Ht Hp]. done.
Qed.

(** An operation of the core, with its specification. *)
Lemma on_core_spec {A} (m : C A) (Φ : A → core → Prop) (Ψ : A → dispatcher → Prop) s :
  keeps grows m → wp m Φ (core_ s) → (∀ a c', Φ a c' → grows (core_ s) c' → Ψ a (with_core c' s)) → wp (on_core m) Ψ s.
Proof.
  intros Hk Hm HΨ. apply wp_on_core. eapply wp_mono; [by eapply wp_keeps|]. intros a c' [? ?]. by apply HΨ.
Qed.

(** ** Placeability *)

Lemma fix_flag_same c e :
  Entry.followers (fix_flag c e) = Entry.followers e ∧ Entry.worker (fix_flag c e) = Entry.worker e ∧
  Entry.drvPath (fix_flag c e) = Entry.drvPath e ∧ Entry.assignId (fix_flag c e) = Entry.assignId e.
Proof. unfold fix_flag. by destruct (waiting e). Qed.

(** The flags are right, but not all followers know. *)
Lemma DI_fix_flags X K F G P s (changed : list N) c1 :
  DI X K F G P s → inv c1 → grows (core_ s) c1 → workers c1 = workers (core_ s) →
  (∀ d, lk (entries c1) d = (fix_flag (core_ s) <$> lk (entries (core_ s)) d)) → (∀ d, d ∈ changed ↔ flips (core_ s) d) →
  DI X K (λ _, False) (λ d cid, G d cid ∨ d ∈ changed) P (with_core c1 s).
Proof.
  intros HD HI1 Hgr Hwk Hlk Hch. pose proof (di_core _ _ _ _ _ _ _ _ HD) as HI.
  pose proof (fix_flag_same (core_ s)) as Hfix. eapply DI_core; [exact HD|done|done|..].
  - rewrite Hwk. by intros w.
  - intros d e' cid. rewrite Hlk. intros (e & He & ->)%fmap_Some. destruct (Hfix e) as (-> & _).
    by eapply (di_followers _ _ _ _ _ _ _ _ HD).
  - intros d e'. rewrite Hlk. intros (e & He & ->)%fmap_Some Hn. destruct (Hfix e) as (Ef & Ew & Ep & Ea). left.
    exists e. rewrite Ef, Ew, Ep, Ea. naive_solver.
  - intros d e'. rewrite Hlk. intros (e & He & ->)%fmap_Some Hn _. destruct (Hfix e) as (_ & Ew & _). rewrite Ew in Hn.
    pose proof (pl_placed _ _ _ _ (inv_place _ _ _ _ HI) d e He ltac:(set_solver)) as Hp. unfold placed in Hp.
    rewrite decide_True in Hp by done. destruct Hp as [_ Hf].
    assert (waiting e = true) as Hwt by (unfold waiting; rewrite Hn, bool_decide_false by done; by rewrite N.eqb_refl).
    unfold fix_flag. rewrite Hwt. simpl. f_equal. symmetry. apply placeable_same; [|done..]. rewrite Hwk. by intros w.
  - intros d e' cid. rewrite Hlk. intros (e & He & ->)%fmap_Some Hu Hin HnG. destruct (Hfix e) as (Ef & _ & Ep & _).
    rewrite Ef in Hin. exists e. rewrite Ep. split_and!; [done| |done|done|naive_solver].
    destruct (Entry.unplaceable e) eqn:Eu; [done|]. destruct HnG. right. apply Hch. exists e. split; [done|].
    unfold fix_flag in Hu. destruct (waiting e); [|congruence]. split; [done|]. simpl in Hu.
    rewrite Eu. by destruct (placeable e (core_ s)).
  - intros ->. split; [done|]. by rewrite Hwk.
Qed.

Lemma placeabilityChangedLocked_spec X K F G P s :
  DI X K F G P s →
  wp placeabilityChangedLocked (λ _ s', DI X K (λ _, False) G P s' ∧ ∃ c1 o, s' = with_objs o (with_core c1 s) ∧
    (∀ d, lk (entries c1) d = (fix_flag (core_ s) <$> lk (entries (core_ s)) d)) ∧
    workers c1 = workers (core_ s) ∧ grows (core_ s) c1 ∧
    ∀ cid, Client.gone <$> o !! cid = Client.gone <$> objs s !! cid) s.
Proof.
  intros HD. unfold placeabilityChangedLocked. apply wp_bind.
  eapply on_core_spec; [apply keeps_placeabilityChanges|by apply placeabilityChanges_spec; eapply di_core|].
  intros changed c1 (HI1 & Hwk & Hlk & Hnd & Hch) Hgr. pose proof (DI_fix_flags _ _ _ _ _ _ _ _ HD HI1 Hgr Hwk Hlk Hch) as HD1.
  eapply wp_mono; [apply (wp_forM_prefix _ (λ vis s', DI X K (λ _, False) (λ d cid, G d cid ∨ (d ∈ changed ∧ d ∉ vis)) P s' ∧
    ∃ o, s' = with_objs o (with_core c1 s) ∧ ∀ cid, Client.gone <$> o !! cid = Client.gone <$> objs s !! cid))|].
  - split; [|by exists (objs s)]. eapply DI_weaken; [..|exact HD1]; try done. intros d cid [?|?]; [by left|right]. set_solver.
  - intros vis d rest s1 Eq (HD2 & o1 & -> & Hg1).
    assert (d ∈ changed) as Hd by (rewrite Eq; set_solver). apply Hch in Hd as (e & He & Hwt & Hfl).
    assert (lk (entries c1) d = Some (fix_flag (core_ s) e)) as Hd1 by (by rewrite Hlk, He).
    apply wp_bind, wp_entry_of; [by eapply lk_lt|]. cbn [core_ with_objs with_core]. rewrite Hd1. wp_steps.
    eapply wp_mono; [by eapply sendToFollowers_spec|]. intros [] s2 (o' & -> & Hs).
    split; [|exists o'; split; [done|]; intros cid; destruct Hs as [Hg _]; by rewrite Hg].
    eapply DI_sent; [exact HD2|exact Hs|..].
    + intros d' e' cid _ _ _ HX. right. split; [done|]. intros _ Ha. by destruct (Entry.unplaceable (fix_flag (core_ s) e)).
    + intros d' e' cid Hd' Hu Hin HG. destruct (decide (d' = d)) as [->|Hne].
      2:{ left. split; [set_solver|]. intros _ Hr. apply Hne. eapply path_inj; [exact HI1|exact Hd'|exact Hd1|].
          destruct (Entry.unplaceable (fix_flag (core_ s) e)); [done|]. symmetry. exact Hr. }
      right. simpl in Hd'. simplify_eq. split; [done|]. rewrite Hu. done.
  - intros [] s1 (HD2 & o & -> & Hg). split; [|by exists c1, o].
    eapply DI_weaken; [..|exact HD2]; try done. naive_solver.
Qed.

(** ** Dispatch *)

(** What no step of a dispatch changes: who is connected, whose sessions they are, and
    no slot or worker goes away. *)
Record calm (s s' : dispatcher) : Prop := {
  calm_clients : clients s' = clients s;
  calm_gone : ∀ cid, Client.gone <$> objs s' !! cid = Client.gone <$> objs s !! cid;
  calm_ids : ∀ sid, session_ids s' sid = session_ids s sid;
  calm_sess : sess s' ⊆ sess s;
  calm_grows : grows (core_ s) (core_ s');
  calm_addr : ∀ w, Worker.addr <$> workers (core_ s') !! w = Worker.addr <$> workers (core_ s) !! w;
  calm_misc : orphans s' = orphans s ∧ nextClient s' = nextClient s ∧ lookupQueue s' = lookupQueue s;
}.

#[global] Instance calm_preorder : PreOrder calm.
Proof.
  split.
  - intros s. by split.
  - intros s1 s2 s3 [] []. split; try congruence; try (by etrans).
    + naive_solver congruence.
Qed.

Lemma calm_tables s s' : tables s s' → calm s s'.
Proof.
  intros (E1 & E2 & E3 & E4 & E5 & E6 & E7 & E8). destruct s, s'. simpl in *. subst. by split.
Qed.

Lemma calm_objs fs msg o s : sent fs msg (objs s) o → calm s (with_objs o s).
Proof. intros (Hg & _). by split. Qed.

(** What every section of a thread keeps, but for the start of a session. *)
Record frame (s s' : dispatcher) : Prop := {
  fr_objs : ∀ cid, is_Some (objs s !! cid) → is_Some (objs s' !! cid);
  fr_sessions : ∀ sid, is_Some (sessions s' !! sid) → is_Some (sessions s !! sid);
  fr_lookups : lookupQueue s' = lookupQueue s;
}.
#[global] Instance frame_preorder : PreOrder frame.
Proof. split; [by intros s|]. intros s1 s2 s3 [] []. split; [naive_solver..|congruence]. Qed.

Lemma calm_frame s s' : calm s s' → frame s s'.
Proof.
  intros [_ Hg Hid _ _ _ (_ & _ & Hl)]. split; [| |done].
  - intros cid [obj Ho]. specialize (Hg cid). rewrite Ho in Hg. by destruct (objs s' !! cid).
  - intros sid [ses Hs]. specialize (Hid sid). unfold session_ids in Hid. rewrite Hs in Hid. by destruct (sessions s !! sid).
Qed.

(** Exceptions matter only where there is a placement, a follower or a wrong flag. *)
Lemma DI_adjust X X' K K' F F' G G' P s :
  DI X K F G P s →
  (∀ d e, lk (entries (core_ s)) d = Some e → Entry.worker e ≠ noWorker →
     (∀ cid, cid ∈ Entry.followers e → X d cid → X' d cid) ∧ (K d → K' d)) →
  (∀ d e, lk (entries (core_ s)) d = Some e → Entry.worker e = noWorker → F d →
     F' d ∨ Entry.unplaceable e = negb (placeable e (core_ s))) →
  (∀ d e cid, lk (entries (core_ s)) d = Some e → Entry.unplaceable e = true → cid ∈ Entry.followers e → G d cid → G' d cid) →
  DI X' K' F' G' P s.
Proof.
  intros [] H HF HG. split; try done.
  - intros d e cid log Hd Hn Hin HX. eapply di_told; try done. intros ?. apply HX. by eapply H.
  - intros d e Hd Hn HK. eapply di_known; try done. intros ?. apply HK. by eapply H.
  - intros d e Hd Hn HnF. apply dec_stable. intros Hne. apply Hne. eapply di_flags; try done. intros HFd.
    by destruct (HF d e Hd Hn HFd).
  - intros d e cid log Hd Hu Hin HnG. eapply di_warned; try done. intros ?. apply HnG. by eapply HG.
Qed.
End Ops.
