(* ===== verification/DispatcherDispatch.v ===== *)
(** * A dispatch delivers what it places *)

From S2P Require Import Prelude Double PathKey Heap Free Sched SchedInv SchedOps SchedHello SchedDispatch SchedPlace.
From S2P Require Import SchedFrame Reactor Dispatcher DispatcherInv DispatcherOps.

Lemma NoDup_fmap_eq {A B} (f : A → B) l a b : NoDup (f <$> l) → a ∈ l → b ∈ l → f a = f b → a = b.
Proof.
  intros Hnd [i Hi]%list_elem_of_lookup [j Hj]%list_elem_of_lookup Hf.
  assert (i = j) as ->; [|congruence]. eapply (NoDup_lookup (f <$> l)); [done|by rewrite list_lookup_fmap, Hi|].
  by rewrite list_lookup_fmap, Hj, Hf.
Qed.

Section Dispatch.
Context (cf : Config.t) (hd : gmap N (list (string * N))) (clock : nat → double) (ord : nat → map_order).
Abbreviation DI := (DI cf hd).
Implicit Types (X G : N → N → Prop) (K F : N → Prop) (P : bool).

(** What becomes of an entry when a worker goes down. *)
Definition survives (w : N) (e e' : Entry.t) : Prop :=
  Entry.drvPath e' = Entry.drvPath e ∧ Entry.followers e' = Entry.followers e ∧ Entry.assignId e' = Entry.assignId e ∧
  (Entry.worker e = w ∧ Entry.worker e' = noWorker ∨ Entry.worker e ≠ w ∧ Entry.worker e' = Entry.worker e).

Lemma expect_undeliverable_spec X K F G P w wkr s :
  DI X K F G P s → workers (core_ s) !! w = Some wkr →
  wp (expect_undeliverable w) (λ _ s', DI X K (λ _, False) G true s' ∧ calm s s' ∧ sess s' = delete w (sess s) ∧
    (∀ d e', lk (entries (core_ s')) d = Some e' → ∃ e, lk (entries (core_ s)) d = Some e ∧ survives w e e') ∧
    (∀ d e, lk (entries (core_ s)) d = Some e → Entry.followers e ≠ [] → is_Some (lk (entries (core_ s')) d))) s.
Proof.
  intros HD Hw. pose proof (di_core _ _ _ _ _ _ _ _ HD) as HI. unfold expect_undeliverable. apply wp_bind.
  eapply on_core_spec; [apply keeps_workerGone|by eapply workerGone_spec|]. intros [] c1 (HI1 & _ & Hwk & Hlk) Hgr.
  apply wp_bind. eapply wp_mono; [apply membershipChangedLocked_spec|]. intros [] s1 [Ht1 Hp1]. wp_steps.
  pose proof (DI_worker_gone _ _ _ _ _ _ _ _ _ _ _ HD HI1 Hgr Hw Hwk Hlk) as HD1.
  assert (tables (with_sess (delete w (sess s)) (with_core c1 s)) (with_sess (delete w (sess s1)) s1)) as Ht2.
  { destruct Ht1 as (E1 & E2 & E3 & E4 & E5 & E6 & E7 & E8). destruct s, s1. simpl in *. by subst. }
  apply (DI_published _ _ _ _ _ _ _ _ _ Ht2) in HD1; [|destruct Ht1 as [E1 _]; simpl in *; by rewrite Hp1, E1].
  eapply wp_mono; [by eapply placeabilityChangedLocked_spec|].
  intros [] s2 (HD2 & c2 & o & -> & Hlk2 & Hwk2 & Hgr2 & Hgone).
  destruct Ht2 as (E1 & E2 & E3 & E4 & E5 & E6 & E7 & E8). simpl in *. rewrite E1 in *.
  pose proof (fix_flag_same c1) as Hfix. split_and!; [done| |exact E5| |].
  - split; simpl; try done.
    + intros cid. by rewrite Hgone, E2.
    + intros sid. unfold session_ids. simpl. by rewrite E4.
    + rewrite E5. apply delete_subseteq.
    + by etrans.
    + intros w'. rewrite Hwk2, Hwk. destruct (decide (w' = w)) as [->|Hne].
      * by rewrite vlookup_insert_eq, Hw by (by eapply vlookup_lt_Some).
      * by rewrite vlookup_insert_ne.
  - intros d e'. rewrite Hlk2, Hlk. intros (e1 & (e & He & Hg)%bind_Some & ->)%fmap_Some. exists e. split; [done|].
    destruct (Hfix e1) as (Ef & Ew & Ep & Ea). unfold survives. rewrite Ef, Ew, Ep, Ea. unfold gone_entry in Hg.
    repeat case_decide; simplify_eq; simpl; naive_solver.
  - intros d e He Hne. rewrite Hlk2, Hlk, He. simpl. unfold gone_entry. rewrite (decide_False (P := Entry.followers e = [])) by done.
    case_decide; simpl; by eexists.
Qed.

(** An assignment that is still to be delivered: made, or undone because the worker's
    session failed meanwhile. *)
Definition due (s : dispatcher) (a : Assign.t) : Prop :=
  ∃ e wkr, lk (entries (core_ s)) (Assign.drv a) = Some e ∧ workers (core_ s) !! Assign.worker a = Some wkr ∧
    Entry.followers e ≠ [] ∧
    (Entry.worker e = Assign.worker a ∧ Entry.worker e ≠ noWorker ∧ Entry.assignId e = Assign.assignId a ∨
     Entry.worker e = noWorker ∧ sess s !! Assign.worker a = None).

(** The state of the loop over the assignments, against the state [s0] at its start:
    [rest] are not delivered yet, the followers of [told] are told. *)
Record delivering F G (s0 : dispatcher) (out rest : list Assign.t) (told : list N) (s : dispatcher) : Prop := {
  dv_inv : DI (λ d _, d ∈ Assign.drv <$> rest) (λ d, d ∈ Assign.drv <$> rest) F (λ d cid, G d cid ∧ d ∉ told) true s;
  dv_nodup : NoDup (Assign.drv <$> rest);
  dv_calm : calm s0 s;
  dv_due : ∀ a, a ∈ rest → due s a;
  dv_told : ∀ d e, d ∈ Assign.drv <$> out → d ∉ Assign.drv <$> rest → lk (entries (core_ s)) d = Some e →
    Entry.worker e = noWorker ∨ d ∈ told;
  dv_flags : (∀ d e, lk (entries (core_ s)) d = Some e → ∃ e0, lk (entries (core_ s0)) d = Some e0 ∧
      Entry.unplaceable e = Entry.unplaceable e0 ∧ Entry.followers e = Entry.followers e0) ∨
    (∀ d e, lk (entries (core_ s)) d = Some e → Entry.worker e = noWorker → Entry.unplaceable e = negb (placeable e (core_ s)));
  dv_rest : ∀ d e, d ∉ Assign.drv <$> out → lk (entries (core_ s)) d = Some e → Entry.worker e ≠ noWorker →
    ∃ e0, lk (entries (core_ s0)) d = Some e0 ∧ Entry.worker e0 = Entry.worker e;
}.

Lemma undeliverable_step F G s0 out a rest told s :
  delivering F G s0 out (a :: rest) told s →
  (∀ e, lk (entries (core_ s)) (Assign.drv a) = Some e → Entry.worker e = Assign.worker a ∨ Entry.worker e = noWorker) →
  wp (expect_undeliverable (Assign.worker a)) (λ _ s', delivering F G s0 out rest told s') s.
Proof.
  intros [HD Hnd Hcalm Hdue Htold _ Hrest] Ha. destruct (Hdue a) as (e & wkr & He & Hw & Hf & Hpl); [left|].
  rewrite fmap_cons in Hnd. apply NoDup_cons in Hnd as [Hna Hnd].
  eapply wp_mono; [by eapply expect_undeliverable_spec|]. intros [] s' (HD' & Hcalm' & Hsess' & Hback & Hkeep).
  assert (∀ d e', lk (entries (core_ s')) d = Some e' → Entry.worker e' ≠ noWorker →
    ∃ e, lk (entries (core_ s)) d = Some e ∧ Entry.worker e = Entry.worker e' ∧ Entry.worker e ≠ Assign.worker a) as Hplaced.
  { intros d e' (e1 & He1 & _ & _ & _ & [[_ ?]|[? ?]])%Hback Hn; [done|]. by exists e1. }
  split; [|done|by etrans|..].
  - eapply DI_adjust; [exact HD'| |by left|by auto]. intros d e' Hd Hn.
    destruct (Hplaced d e' Hd Hn) as (e1 & He1 & Ew & Hne). assert (d ≠ Assign.drv a).
    { intros ->. destruct (Ha e1 He1) as [?|E0]; [done|]. by rewrite Ew in E0. }
    split; [intros cid _|]; rewrite fmap_cons, elem_of_cons; naive_solver.
  - intros b Hb. destruct (Hdue b) as (e1 & wkr1 & He1 & Hw1 & Hf1 & Hpl1); [by right|].
    destruct (Hkeep _ e1 He1 Hf1) as [e' He']. destruct (Hback _ e' He') as (e2 & He2 & Hp & Hfo & Hai & Hcase). simplify_eq.
    assert (is_Some (workers (core_ s') !! Assign.worker b)) as [wkr' Hw'].
    { pose proof (calm_addr _ _ Hcalm' (Assign.worker b)) as Hc. rewrite Hw1 in Hc.
      destruct (workers (core_ s') !! Assign.worker b); [by eexists|done]. }
    exists e', wkr'. split_and!; [done|done|by rewrite Hfo|]. rewrite Hsess'. destruct Hcase as [[Hc1 Hc2]|[Hc1 Hc2]].
    + right. split; [done|]. destruct Hpl1 as [[Hp1 _]|[_ Hp1]]; [|rewrite lookup_delete_None; by right].
      rewrite lookup_delete_None. left. congruence.
    + rewrite Hc2, Hai. destruct Hpl1 as [?|[? ?]]; [by left|right]. split; [done|]. rewrite lookup_delete_None. by right.
  - intros d e' Hin Hnot Hd. destruct (decide (Entry.worker e' = noWorker)); [by left|right].
    destruct (Hplaced d e' Hd) as (e1 & He1 & Ew & Hne); [done|]. destruct (decide (d = Assign.drv a)) as [->|Hda].
    + destruct (Ha e1 He1); [done|congruence].
    + destruct (Htold d e1 Hin) as [?|?]; [rewrite fmap_cons, elem_of_cons; naive_solver|done|congruence|done].
  - right. intros d e' Hd Hn. eapply (di_flags _ _ _ _ _ _ _ _ HD' d e'); [done|done|by intros []].
  - intros d e' Hin Hd Hn. destruct (Hplaced d e' Hd Hn) as (e1 & He1 & Ew & _).
    destruct (Hrest d e1 Hin He1) as (e0 & ? & ?); [congruence|]. exists e0. split; [done|congruence].
Qed.

Lemma deliver_step F G s0 out a rest told s :
  delivering F G s0 out (a :: rest) told s →
  wp (deliver clock a) (λ _ s', ∃ told', delivering F G s0 out rest told' s') s.
Proof.
  intros HJ. pose proof HJ as [HD Hnd Hcalm Hdue Htold Hflags Hrest]. destruct (Hdue a) as (e & wkr & He & Hw & Hf & Hpl); [left|].
  rewrite fmap_cons in Hnd. apply NoDup_cons in Hnd as [Hna Hnd].
  unfold deliver. apply wp_bind, wp_entry_of; [by eapply lk_lt|]. rewrite He. apply wp_bind. eapply wp_worker_of; [done|].
  assert (∀ e0, lk (entries (core_ s)) (Assign.drv a) = Some e0 → Entry.worker e0 = Assign.worker a ∨ Entry.worker e0 = noWorker)
    as Hor by (intros e0 ?; simplify_eq; naive_solver).
  apply wp_bind. unfold send_expect. wp_steps. destruct (sess s !! Assign.worker a) as [sid|] eqn:Es.
  2:{ wp_steps. eapply wp_mono; [by eapply undeliverable_step|]. intros [] s' ?. by exists told. }
  destruct Hpl as [(Ew & Hn & Ea)|[_ ?]]; [|congruence].
  destruct (di_sess _ _ _ _ _ _ _ _ HD _ _ Es) as (ses & Hs & Hid & Hdet).
  destruct (di_sessions _ _ _ _ _ _ _ _ HD _ _ Hs) as [HH _].
  eapply wp_mono; [by apply session_send_spec|]. intros ok s1 (r & -> & Hr & Hrd & _ & Hok).
  assert (∀ cmd, cmd ∈ Reactor.accepted (Session.stream ses) → cmd ∈ Reactor.accepted r) as Hacc.
  { intros cmd. destruct ok; [rewrite Hok; set_solver|by destruct Hok as [_ ->]]. }
  set (s1 := with_sessions _ s). assert (calm s s1) as Hc1.
  { split; try done. intros sid'. unfold session_ids. simpl. destruct (decide (sid' = sid)) as [->|Hne].
    - by rewrite lookup_insert_eq, Hs.
    - by rewrite lookup_insert_ne. }
  destruct ok; cbn [negb].
  2:{ eapply wp_mono; [eapply (undeliverable_step F G s0 out a rest told); [|exact Hor]|intros [] s' ?; by exists told].
      split; try done; [|rewrite fmap_cons; by apply NoDup_cons|by etrans].
      eapply DI_session; [exact HD|done|done|by left|done|]. by left. }
  set (K' := λ d, d ∈ Assign.drv <$> rest).
  assert (DI (λ d _, d ∈ Assign.drv <$> a :: rest) K' F (λ d cid, G d cid ∧ d ∉ told) true s1) as HD1.
  { eapply DI_session; [exact HD|done|done|by left|done|]. intros d e' Hd' Hn' HK. destruct (decide (d = Assign.drv a)) as [->|Hda].
    - right. simplify_eq. rewrite Ew, Hok, Ea. split; [done|set_solver].
    - left. rewrite fmap_cons, elem_of_cons. naive_solver. }
  apply wp_bind. eapply wp_assignedMsg; [by eapply di_core|done|done|]. apply wp_bind.
  eapply wp_mono; [by eapply sendToFollowers_spec|]. intros [] s2 (o & -> & Hsent).
  pose proof (DI_sent_assigned _ _ _ _ _ _ _ _ _ _ _ _ HD1 He Hn Hsent) as HD2.
  apply wp_bind. eapply wp_mono; [apply nowMs_spec|]. intros t s3 (_ & Ht3 & Hp3). wp_steps.
  exists (Assign.drv a :: told). apply calm_objs in Hsent as Hc2. pose proof (calm_tables _ _ Ht3) as Hc3.
  eapply DI_tables in HD2; [|exact Ht3|exact Hp3].
  destruct Ht3 as (E1 & E2 & E3 & E4 & E5 & E6 & E7 & E8). split; [|done|etrans; [exact Hcalm|etrans; [exact Hc1|by etrans]]|..].
  - eapply DI_adjust; [exact HD2| |by left|].
    + intros d e' Hd' _. rewrite E1 in Hd'. split; [|done]. intros cid Hin [Hd Hno].
      rewrite fmap_cons, elem_of_cons in Hd. destruct Hd as [->|?]; [|done]. simpl in Hd'. destruct Hno. by simplify_eq.
    + intros d e' cid Hd' _ Hin [[HG Ht] Hno]. rewrite E1 in Hd'. split; [done|]. rewrite elem_of_cons. intros [->|?]; [|done].
      simpl in Hd'. destruct Hno. by simplify_eq.
  - intros b Hb. destruct (Hdue b) as (e1 & wkr1 & H1); [by right|]. exists e1, wkr1. by rewrite E1, E5.
  - intros d e' Hin Hnot. rewrite E1. intros Hd. destruct (decide (d = Assign.drv a)) as [->|Hda]; [right; left|].
    destruct (Htold d e' Hin) as [?|?]; [rewrite fmap_cons, elem_of_cons; naive_solver|done|by left|right; by right].
  - by rewrite E1.
  - intros d e'. rewrite E1. apply Hrest.
Qed.

(** Nothing of what the core has placed is delivered yet. *)
Lemma dispatch_delivering F G s out c1 :
  DI (λ _ _, False) (λ _, False) F G true s → inv c1 → Dinv (core_ s) out [] c1 → grows (core_ s) c1 →
  delivering F G s out out [] (with_core c1 s).
Proof.
  intros HD HI1 [_ _ _ _ Hwk Hnd Hout Hrest _ _] Hgr.
  assert (same_but_running (workers (core_ s)) (workers c1)) as Hsame.
  { intros w. unfold profile. rewrite Hwk. by destruct (workers (core_ s) !! w). }
  assert (∀ d, d ∈ Assign.drv <$> out → ∃ a e, a ∈ out ∧ d = Assign.drv a ∧ lk (entries (core_ s)) d = Some e ∧
    Entry.followers e ≠ [] ∧ lk (entries c1) d = Some (Entry.with_assignId (Assign.assignId a) (Entry.with_worker (Assign.worker a) e)) ∧
    is_Some (workers c1 !! Assign.worker a) ∧ Assign.worker a ≠ noWorker) as Hin.
  { intros d (a & -> & Ha)%list_elem_of_fmap. destruct (Hout a Ha) as (e & (He & _ & _ & Hf) & (_ & Hp & wkr & Hw & _)).
    exists a, e. split_and!; [done..|by eexists|]. pose proof (WorkersOk_lt _ _ _ _ _ (inv_workers _ _ _ _ HI1) Hw). lia. }
  assert (∀ d e', lk (entries c1) d = Some e' → ∃ e, lk (entries (core_ s)) d = Some e ∧ Entry.drvPath e = Entry.drvPath e' ∧
    Entry.followers e = Entry.followers e' ∧ Entry.unplaceable e = Entry.unplaceable e' ∧
    (d ∉ Assign.drv <$> out → e = e') ∧ (d ∈ Assign.drv <$> out → Entry.worker e' ≠ noWorker)) as Hback.
  { intros d e' Hd. destruct (decide (d ∈ Assign.drv <$> out)) as [Hd'|Hd'].
    - destruct (Hin d Hd') as (a & e & _ & -> & He & _ & He' & _ & Hn). simplify_eq. exists e. naive_solver.
    - exists e'. rewrite <- Hrest by done. naive_solver. }
  split; [|done| |..].
  - eapply DI_core; [exact HD|done|done|by apply same_but_running_ids|..].
    + intros d e' cid (e & He & _ & <- & _)%Hback. by eapply (di_followers _ _ _ _ _ _ _ _ HD).
    + intros d e' Hd Hn. destruct (decide (d ∈ Assign.drv <$> out)) as [Hd'|Hd']; [right; naive_solver|left].
      destruct (Hback d e' Hd) as (e & He & _ & _ & _ & Heq & _). rewrite Heq in He by done. exists e'. naive_solver.
    + intros d e' Hd Hn HF. destruct (Hback d e' Hd) as (e & He & _ & _ & _ & Heq & Hpl).
      destruct (decide (d ∈ Assign.drv <$> out)) as [Hd'|Hd']; [by apply Hpl in Hd'|]. rewrite Heq in He by done.
      rewrite (di_flags _ _ _ _ _ _ _ _ HD d e') by done. f_equal. symmetry. by apply placeable_same.
    + intros d e' cid (e & He & <- & <- & <- & _)%Hback Hu Hc HG. exists e. split_and!; [done..|]. intros ?. apply HG. set_solver.
    + intros _. split; [done|by apply members_same].
  - split; simpl; try done. intros w. specialize (Hsame w). unfold profile in Hsame.
    destruct (workers c1 !! w), (workers (core_ s) !! w); try done. simpl in *. by injection Hsame as ->.
  - intros a Ha. destruct (Hin (Assign.drv a)) as (b & e & Hb & Eab & He & Hf & He' & [wkr Hw] & Hn); [apply list_elem_of_fmap; eauto|].
    assert (a = b) as -> by (by eapply (NoDup_fmap_eq Assign.drv out)).
    eexists _, wkr. split_and!; [done|done|done|]. left. simpl. done.
  - intros d e' H1 H2. done.
  - left. intros d e' (e & He & _ & Hf & Hu & _)%Hback. by exists e.
  - intros d e' Hd Hd' Hn. simpl in Hd'. rewrite Hrest in Hd' by done. by exists e'.
Qed.

Lemma dispatchLocked_spec F G s :
  DI (λ _ _, False) (λ _, False) F G true s →
  wp (dispatchLocked clock ord) (λ _ s', ∃ told : list N,
    DI (λ _ _, False) (λ _, False) F (λ d cid, G d cid ∧ d ∉ told) true s' ∧ calm s s' ∧
    ((∀ d e', lk (entries (core_ s')) d = Some e' → ∃ e, lk (entries (core_ s)) d = Some e ∧
        Entry.unplaceable e' = Entry.unplaceable e ∧ Entry.followers e' = Entry.followers e) ∨
     (∀ d e', lk (entries (core_ s')) d = Some e' → Entry.worker e' = noWorker →
        Entry.unplaceable e' = negb (placeable e' (core_ s')))) ∧
    ∀ d e e', lk (entries (core_ s)) d = Some e → Entry.worker e = noWorker →
      lk (entries (core_ s')) d = Some e' → Entry.worker e' ≠ noWorker → d ∈ told) s.
Proof.
  intros HD. pose proof (di_core _ _ _ _ _ _ _ _ HD) as HI. unfold dispatchLocked. wp_steps.
  eapply on_core_spec; [apply keeps_dispatch|by apply dispatch_spec|]. intros out c1 (HI1 & HDi & _) Hgr.
  pose proof (dispatch_delivering F G s out c1 HD HI1 HDi Hgr) as HJ.
  apply wp_bind. eapply wp_mono; [apply (wp_forM _ (λ rest s', ∃ told, delivering F G s out rest told s'))|].
  - by exists [].
  - intros a rest s' [told HJ']. by eapply deliver_step.
  - intros [] s1 [told [HD1 _ Hc1 _ Ht1 Hf1 Hr1]]. eapply wp_mono; [apply exportStats_spec|]. intros [] s2 [Ht2 Hp2].
    exists told. split_and!; [| |destruct Ht2 as [E1 _]; by rewrite E1|].
    + eapply DI_tables; [exact Ht2|exact Hp2|]. eapply DI_weaken; [..|exact HD1]; try done; set_solver.
    + etrans; [exact Hc1|by apply calm_tables].
    + destruct Ht2 as [E1 _]. rewrite E1. intros d e e' Hd Hn Hd' Hn'.
      destruct (decide (d ∈ Assign.drv <$> out)) as [Hin|Hin].
      * destruct (Ht1 d e' Hin) as [?|?]; [set_solver|done|done|done].
      * destruct (Hr1 d e' Hin Hd' Hn') as (e0 & ? & ?). simplify_eq. congruence.
Qed.
End Dispatch.
