(* ===== verification/DispatcherClients.v ===== *)
(** * What clients do keeps the dispatcher's invariant *)

From S2P Require Import Prelude Double PathKey Heap Free Sched SchedInv SchedOps SchedHello SchedDispatch SchedPlace SchedTheorems.
From S2P Require Import SchedFrame Reactor Dispatcher DispatcherInv DispatcherOps DispatcherDispatch.

(** A Want can be entered, or the table is full. *)
Lemma want_cases c p :
  inv c → (is_Some (drvIds c !! PathKey p) ∨ has_room c) ∨
  ∀ client info now, wi_drvPath info = p → want client info now c = (c, Throw table_full).
Proof.
  intros HI. destruct (decide (is_Some (drvIds c !! PathKey p))) as [Hk|Hk]; [left; by left|].
  destruct (decide (N.of_nat (base.size (drvIds c)) < maxEntries)%N) as [Hr|Hr]; [left; by right|right].
  intros client info now <-. pose proof (inv_tables _ _ _ _ HI) as HT. pose proof (Tables_count _ _ _ HT).
  pose proof (tab_len _ _ _ HT). assert (length (freeIds c) = 0) as Hf%length_zero_iff_nil by lia.
  apply want_full; [by apply eq_None_not_Some|done|lia].
Qed.

Section Clients.
Context (cf : Config.t) (hd : gmap N (list (string * N))) (clock : nat → double) (ord : nat → map_order).
Context (defaultSystem : string).
Abbreviation DI := (DI cf hd).
Abbreviation settled := (DI (λ _ _, False) (λ _, False) (λ _, False) (λ _ _, False) true).
Implicit Types (X G : N → N → Prop) (K F : N → Prop) (P : bool).

Lemma client_obj X K F G P s cid : DI X K F G P s → cid ∈ clients s → ∃ obj, objs s !! cid = Some obj.
Proof.
  intros HD Hin%(di_clients _ _ _ _ _ _ _ _ HD). destruct (objs s !! cid) as [obj|]; [by exists obj|done].
Qed.

Lemma reply_spec X K F G P cid msg s :
  DI X K F G P s → cid ∈ clients s → wp (client_send cid msg) (λ _ s', ∃ o', s' = with_objs o' s ∧ sent [cid] msg (objs s) o') s.
Proof.
  intros HD Hin. destruct (client_obj _ _ _ _ _ _ _ HD Hin) as [obj Ho]. eapply client_send_spec; [done|].
  intros c o Hc. by apply (di_objs _ _ _ _ _ _ _ _ HD c o).
Qed.

(** An answer that assigns nothing. *)
Lemma answer_spec cid msg s :
  settled s → cid ∈ clients s → neutral msg → wp (client_send cid msg;; mret tt) (λ _ s', settled s' ∧ calm s s') s.
Proof.
  intros HD Hin Hn. apply wp_bind. eapply wp_mono; [by eapply reply_spec|]. intros ok s' (o & -> & Hs). wp_steps.
  split; [by eapply DI_sent_other|by eapply calm_objs].
Qed.

(** ** Cancel and disconnect *)

Lemma grows_calm c1 s : grows (core_ s) c1 → workers c1 = workers (core_ s) → calm s (with_core c1 s).
Proof. intros Hg Hw. split; try done. intros w. simpl. by rewrite Hw. Qed.

Lemma drop_client_kept cid e e' :
  drop_client cid e = Some e' → Entry.followers e' ⊆ Entry.followers e ∧ Entry.worker e' = Entry.worker e ∧
  Entry.drvPath e' = Entry.drvPath e ∧ Entry.assignId e' = Entry.assignId e ∧ Entry.unplaceable e' = Entry.unplaceable e ∧
  Entry.system e' = Entry.system e ∧ Entry.features e' = Entry.features e.
Proof.
  unfold drop_client. repeat case_decide; intros ?; simplify_eq/=; split_and!; try done.
  intros c' [_ ?]%list_elem_of_filter. done.
Qed.

(** The client lets go of some derivations. *)
Lemma DI_drop cid s c1 :
  settled s → inv c1 → grows (core_ s) c1 → workers c1 = workers (core_ s) →
  (∀ d, lk (entries c1) d = lk (entries (core_ s)) d ∨ lk (entries c1) d = (lk (entries (core_ s)) d ≫= drop_client cid)) →
  settled (with_core c1 s).
Proof.
  intros HD HI1 Hgr Hwk Hlk.
  assert (∀ d e', lk (entries c1) d = Some e' → ∃ e, lk (entries (core_ s)) d = Some e ∧
    Entry.followers e' ⊆ Entry.followers e ∧ Entry.worker e' = Entry.worker e ∧ Entry.drvPath e' = Entry.drvPath e ∧
    Entry.assignId e' = Entry.assignId e ∧ Entry.unplaceable e' = Entry.unplaceable e ∧
    Entry.system e' = Entry.system e ∧ Entry.features e' = Entry.features e) as Hback.
  { intros d e' Hd. destruct (Hlk d) as [E|E]; rewrite E in Hd; [by exists e'|].
    apply bind_Some in Hd as (e & He & Hdrop%drop_client_kept). by exists e. }
  assert (same_but_running (workers (core_ s)) (workers c1)) as Hrun by (rewrite Hwk; by intros w).
  eapply DI_core; [exact HD|done|done|by apply same_but_running_ids|..].
  - intros d e' c' (e & He & Hf & _)%Hback Hin. eapply (di_followers _ _ _ _ _ _ _ _ HD); [done|by apply Hf].
  - intros d e' (e & He & Hf & Ew & Ep & Ea & _)%Hback Hn. left. exists e. split_and!; [done..|].
    intros c' Hin _. split; [by apply Hf|by intros []].
  - intros d e' (e & He & _ & Ew & _ & _ & Eu & Es & Ef)%Hback Hn _. rewrite Ew in Hn.
    rewrite Eu, (di_flags _ _ _ _ _ _ _ _ HD d e) by (done || by intros []). f_equal. symmetry. by apply placeable_same.
  - intros d e' c' (e & He & Hf & _ & Ep & _ & Eu & _)%Hback Hu Hin _. exists e. rewrite <- Eu.
    split_and!; [done..|by apply Hf|by intros []].
  - intros _. split; [done|by apply members_same].
Qed.

Lemma revoke_calm s m : (∀ sid, session_ids (with_sessions m s) sid = session_ids s sid) → calm s (with_sessions m s).
Proof. intros H. by split. Qed.

Lemma onCancel_spec cid path s : settled s → wp (onCancel cid path) (λ _ s', settled s' ∧ calm s s') s.
Proof.
  intros HD. pose proof (di_core _ _ _ _ _ _ _ _ HD) as HI. unfold onCancel. apply wp_bind.
  eapply (on_core_spec _ (λ _ c1, inv c1 ∧ workers c1 = workers (core_ s) ∧
    ∀ d, lk (entries c1) d = lk (entries (core_ s)) d ∨ lk (entries c1) d = (lk (entries (core_ s)) d ≫= drop_client cid)));
    [apply keeps_cancel_path| |].
  - unfold cancel_path. wp_steps. destruct (findDrv path (core_ s)) as [d|]; [|wp_steps; split_and!; by auto].
    eapply wp_mono; [by apply cancel_spec|]. intros r c1 (HI1 & Hwk & _ & _ & Hlk). split_and!; [done..|].
    intros d'. rewrite Hlk. case_decide; [subst; by right|by left].
  - intros r c1 (HI1 & Hwk & Hlk) Hgr. pose proof (DI_drop cid s c1 HD HI1 Hgr Hwk Hlk) as HD1.
    pose proof (grows_calm c1 s Hgr Hwk) as Hcalm. destruct r as [wid|]; [|by wp_steps].
    eapply wp_mono; [by apply revokeOn_spec|]. intros [] s' (HD' & m & -> & Hm). split; [done|].
    etrans; [exact Hcalm|by apply revoke_calm].
Qed.

(** ** Want *)

Context (clock_ok : ∀ n, is_finite (dmul (Config.ageWeight cf) (clock n)) = true) (default_ok : defaultSystem ≠ EmptyString).

Lemma systemFor_ok system : systemFor defaultSystem system ≠ EmptyString.
Proof. unfold systemFor. repeat case_bool_decide; simpl; done. Qed.

(** The client follows the derivation, but has not been told anything yet. *)
Lemma DI_want cid info now d e c1 s :
  settled s → cid ∈ clients s → inv c1 → grows (core_ s) c1 → workers c1 = workers (core_ s) →
  e = want_entry info now (lk (entries (core_ s)) d) →
  (∀ d', lk (entries c1) d' = if decide (d' = d) then Some (follow_entry cid (wi_cpHintMs info) e) else lk (entries (core_ s)) d') →
  DI (λ d' c', d' = d ∧ c' = cid) (λ _, False) (λ d', d' = d ∧ lk (entries (core_ s)) d = None) (λ d' c', d' = d ∧ c' = cid) true
    (with_core c1 s).
Proof.
  intros HD Hcl HI1 Hgr Hwk -> Hlk. set (fe := follow_entry _ _ _) in Hlk.
  assert (∀ d' e', lk (entries c1) d' = Some e' → d' ≠ d → lk (entries (core_ s)) d' = Some e') as Hother.
  { intros d' e'. rewrite Hlk. by case_decide. }
  assert (∀ e', lk (entries c1) d = Some e' → e' = fe) as Hself by (intros e'; rewrite Hlk, decide_True by done; by intros [= <-]).
  assert (∀ c', c' ∈ Entry.followers fe → c' = cid ∨ ∃ e0, lk (entries (core_ s)) d = Some e0 ∧ c' ∈ Entry.followers e0) as Hfo.
  { intros c'. subst fe. unfold follow_entry, add_follower, want_entry. simpl.
    destruct (lk (entries (core_ s)) d) as [e0|]; simpl; [|set_solver].
    repeat case_decide; simpl; rewrite ?elem_of_app, ?list_elem_of_singleton; naive_solver. }
  assert (∀ e0, lk (entries (core_ s)) d = Some e0 → Entry.drvPath fe = Entry.drvPath e0 ∧ Entry.worker fe = Entry.worker e0 ∧
    Entry.assignId fe = Entry.assignId e0 ∧ Entry.unplaceable fe = Entry.unplaceable e0 ∧
    (Entry.system e0 ≠ EmptyString → Entry.system fe = Entry.system e0 ∧ Entry.features fe = Entry.features e0)) as Hsame.
  { intros e0 He0. subst fe. rewrite He0. unfold follow_entry, add_follower, want_entry. repeat case_decide; simpl; naive_solver. }
  assert (same_but_running (workers (core_ s)) (workers c1)) as Hrun by (rewrite Hwk; by intros w).
  eapply DI_core; [exact HD|done|done|by apply same_but_running_ids|..].
  - intros d' e' c' Hd' Hin. destruct (decide (d' = d)) as [->|Hne].
    + rewrite (Hself e' Hd') in Hin. destruct (Hfo c' Hin) as [->|(e0 & He0 & ?)]; [done|].
      by eapply (di_followers _ _ _ _ _ _ _ _ HD).
    + eapply (di_followers _ _ _ _ _ _ _ _ HD); [by apply Hother|done].
  - intros d' e' Hd' Hn. left. destruct (decide (d' = d)) as [->|Hne].
    + rewrite (Hself e' Hd') in *. destruct (lk (entries (core_ s)) d) as [e0|] eqn:He0; [|by destruct Hn; subst fe].
      destruct (Hsame e0 eq_refl) as (Ep & Ew & Ea & _). exists e0. split_and!; [done..|].
      intros c' Hin HX. split; [|by intros []]. destruct (Hfo c' Hin) as [->|(e1 & ? & ?)]; naive_solver.
    + exists e'. split_and!; [by apply Hother|done..|]. intros c' Hin _. by split; [|intros []].
  - intros d' e' Hd' Hn HF. destruct (decide (d' = d)) as [->|Hne].
    + rewrite (Hself e' Hd') in *. destruct (lk (entries (core_ s)) d) as [e0|] eqn:He0; [|by destruct HF].
      destruct (Hsame e0 eq_refl) as (_ & Ew & _ & Eu & Hsys). rewrite Ew in Hn.
      pose proof (di_core _ _ _ _ _ _ _ _ HD) as HI.
      pose proof (pl_placed _ _ _ _ (inv_place _ _ _ _ HI) d e0 He0 ltac:(set_solver)) as Hp. unfold placed in Hp.
      rewrite decide_True in Hp by done. destruct Hp as [_ Hfe].
      destruct (inv_entries _ _ _ _ HI d e0 He0) as (_ & Hs & _). destruct Hsys as [Es Ef]; [by apply Hs|].
      rewrite Eu, (di_flags _ _ _ _ _ _ _ _ HD d e0) by (done || by intros []). f_equal. symmetry. by apply placeable_same.
    + rewrite (di_flags _ _ _ _ _ _ _ _ HD d' e') by (by apply Hother || done || by intros []). f_equal. symmetry.
      by apply placeable_same.
  - intros d' e' c' Hd' Hu Hin HG. destruct (decide (d' = d)) as [->|Hne].
    + rewrite (Hself e' Hd') in *. destruct (Hfo c' Hin) as [->|(e0 & He0 & ?)]; [naive_solver|].
      destruct (Hsame e0 He0) as (Ep & _ & _ & Eu & _). exists e0. rewrite <- Eu, <- Ep. split_and!; [done..|by intros []].
    + exists e'. split_and!; [by apply Hother|done..|by intros []].
  - intros _. split; [done|by apply members_same].
Qed.

(** The flag of a waiting entry is set; its followers but [cid] know. *)
Lemma DI_mark_unplaceable cid d ent F s c1 :
  DI (λ _ _, False) (λ _, False) F (λ d' c', d' = d ∧ c' = cid) true s → inv c1 → grows (core_ s) c1 →
  workers c1 = workers (core_ s) →
  (∀ d', lk (entries c1) d' = if decide (d' = d) then Entry.with_unplaceable true <$> lk (entries (core_ s)) d
                              else lk (entries (core_ s)) d') →
  (∀ d', F d' → d' = d) → lk (entries (core_ s)) d = Some ent → Entry.worker ent = noWorker → placeable ent (core_ s) = false →
  (F d → Entry.unplaceable ent = true ∨ Entry.unplaceable ent = false ∧ ∀ c', c' ∈ Entry.followers ent → c' = cid) →
  DI (λ _ _, False) (λ _, False) (λ _, False) (λ d' c', d' = d ∧ c' = cid) true (with_core c1 s).
Proof.
  intros HD HI1 Hgr Hwk Hlk HF Hd Hn Hpl Hflag.
  assert (same_but_running (workers (core_ s)) (workers c1)) as Hrun by (rewrite Hwk; by intros w).
  assert (∀ d' e', lk (entries c1) d' = Some e' → d' = d ∧ e' = Entry.with_unplaceable true ent ∨
    d' ≠ d ∧ lk (entries (core_ s)) d' = Some e') as Hback.
  { intros d' e'. rewrite Hlk. case_decide as E; [left|by right]. subst. rewrite Hd in *. by simplify_eq/=. }
  eapply DI_core; [exact HD|done|done|by apply same_but_running_ids|..].
  - intros d' e' c' [[-> ->]|[_ ?]]%Hback Hin; (eapply (di_followers _ _ _ _ _ _ _ _ HD); [eassumption|exact Hin]).
  - intros d' e' [[-> ->]|[_ ?]]%Hback Hn'; [done|]. left. exists e'. split_and!; [done..|]. by intros c' ? ?.
  - intros d' e' [[-> ->]|[Hne Hd']]%Hback Hn' _; simpl.
    + by rewrite (placeable_same (core_ s) c1 ent), Hpl.
    + rewrite (di_flags _ _ _ _ _ _ _ _ HD d' e') by (done || by intros ?%HF). f_equal. symmetry. by apply placeable_same.
  - intros d' e' c' [[-> ->]|[Hne Hd']]%Hback Hu Hin HG; [|exists e'; by split_and!].
    exists ent. split_and!; [done| |done|done|done]. simpl in Hin. apply dec_stable. intros Hno.
    assert (¬ F d) as HnF. { intros HFd. destruct (Hflag HFd) as [?|[_ Hall]]; [done|]. apply HG. split; [done|by apply Hall]. }
    apply Hno. by rewrite (di_flags _ _ _ _ _ _ _ _ HD d ent), Hpl.
  - intros _. split; [done|by apply members_same].
Qed.

(** The end of [onWant] for a derivation that no worker has. *)
Lemma want_waiting_spec cid d ent F s0 s :
  DI (λ _ _, False) (λ _, False) F (λ d' c', d' = d ∧ c' = cid) true s → cid ∈ clients s → calm s0 s →
  (∀ d', F d' → d' = d) → lk (entries (core_ s)) d = Some ent → Entry.worker ent = noWorker →
  (F d → Entry.unplaceable ent = negb (placeable ent (core_ s)) ∨
         Entry.unplaceable ent = false ∧ ∀ c', c' ∈ Entry.followers ent → c' = cid) →
  wp (placeable ← on_core (placeable_drv d);
      if placeable : bool then mret tt
      else on_core (markUnplaceable d true);; c ← gets core_; client_send cid (unplaceableMsg ent c);; exportStats clock false)
    (λ _ s', settled s' ∧ calm s0 s') s.
Proof.
  intros HD Hcl Hcalm HF Hd Hn Hflag. pose proof (di_core _ _ _ _ _ _ _ _ HD) as HI.
  apply wp_bind, wp_on_core. unfold placeable_drv. apply wp_bind. eapply wp_at; [by apply lk_Some|]. wp_steps.
  rewrite with_core_id. destruct (placeable ent (core_ s)) eqn:Epl.
  - wp_steps. split; [|done]. assert (¬ F d ∨ F d → Entry.unplaceable ent = false) as Hfalse.
    { intros [HnF|HFd]; [by rewrite (di_flags _ _ _ _ _ _ _ _ HD d ent), Epl|].
      by destruct (Hflag HFd) as [->|[? _]]. }
    eapply DI_adjust; [exact HD|done|..].
    + intros d' e' Hd' Hn' HFd. pose proof (HF d' HFd) as ->. simplify_eq. right. rewrite Epl. by apply Hfalse; right.
    + intros d' e' c' Hd' Hu Hin [-> ->]. simplify_eq. apply (dec_stable (P := False)). intros _.
      assert (¬ F d) as HnF by (intros HFd; rewrite Hfalse in Hu by (by right); done). by rewrite Hfalse in Hu by (by left).
  - apply wp_bind. eapply on_core_spec; [apply keeps_markUnplaceable|apply markUnplaceable_spec; [done|by eapply lk_lt]|].
    intros [] c1 (HI1 & Hwk & Hlk) Hgr. wp_steps.
    assert (same_but_running (workers (core_ s)) (workers c1)) as Hrun by (rewrite Hwk; by intros w).
    assert (DI (λ _ _, False) (λ _, False) (λ _, False) (λ d' c', d' = d ∧ c' = cid) true (with_core c1 s)) as HD1.
    { eapply DI_mark_unplaceable; done. }
    eapply wp_mono; [by eapply reply_spec|]. intros ok s1 (o & -> & Hs).
    eapply wp_mono; [apply exportStats_spec|]. intros [] s2 [Ht Hp]. split.
    + eapply DI_tables; [exact Ht|exact Hp|]. eapply DI_sent; [exact HD1|exact Hs|..].
      * intros d' e' c' _ _ _ HX. right. split; [done|]. by intros _ [].
      * intros d' e' c' Hd' Hu Hin _. destruct (decide (d' = d ∧ c' = cid)) as [[-> ->]|]; [right|left; split; [done|by intros _ []]].
        split; [set_solver|]. simpl in Hd'. rewrite Hlk, decide_True, Hd in Hd' by done. by injection Hd' as <-.
    + etrans; [exact Hcalm|]. etrans; [|by apply calm_tables]. etrans; [|by eapply calm_objs]. split; try done.
      intros w. simpl. by rewrite Hwk.
Qed.

(** A client that now follows a placed derivation is told where it is. *)
Lemma want_assigned_spec cid d e F s0 s :
  DI (λ d' c', d' = d ∧ c' = cid) (λ _, False) F (λ d' c', d' = d ∧ c' = cid) true s → cid ∈ clients s → calm s0 s →
  (∀ d', F d' → d' = d) → lk (entries (core_ s)) d = Some e → Entry.worker e ≠ noWorker →
  wp (msg ← assignedMsg d; client_send cid msg;; mret tt) (λ _ s', settled s' ∧ calm s0 s') s.
Proof.
  intros HD Hcl Hcalm HF Hd Hn. apply wp_bind. eapply wp_assignedMsg; [by eapply di_core|done..|].
  apply wp_bind. eapply wp_mono; [by eapply reply_spec|]. intros ok s' (o & -> & Hs). wp_steps. split.
  - eapply DI_adjust; [by eapply DI_sent_assigned|..].
    + intros d' e' _ _. split; [|done]. intros c' _ [[-> ->] Hno]. apply Hno. split; [done|by apply list_elem_of_singleton].
    + intros d' e' Hd' Hn' ->%HF. simpl in Hd'. congruence.
    + intros d' e' c' _ _ _ [[-> ->] Hno]. apply Hno. split; [done|by apply list_elem_of_singleton].
  - etrans; [exact Hcalm|by eapply calm_objs].
Qed.

(** A client that now follows a waiting derivation: it may be placed at once. *)
Lemma want_queued_spec cid d e F s0 s :
  DI (λ _ _, False) (λ _, False) F (λ d' c', d' = d ∧ c' = cid) true s → cid ∈ clients s → calm s0 s →
  (∀ d', F d' → d' = d ∧ Entry.unplaceable e = false ∧ Entry.followers e = [cid]) →
  lk (entries (core_ s)) d = Some e → Entry.worker e = noWorker →
  wp (dispatchLocked clock ord;;
      ent ← entry_of d;
      match ent with
      | None => mret tt
      | Some ent =>
          if negb (Entry.worker ent =? noWorker)%N then mret tt
          else
            placeable ← on_core (placeable_drv d);
            if placeable : bool then mret tt
            else on_core (markUnplaceable d true);; c ← gets core_; client_send cid (unplaceableMsg ent c);; exportStats clock false
      end) (λ _ s', settled s' ∧ calm s0 s') s.
Proof.
  intros HD Hcl Hcalm HF Hd Hn. apply wp_bind. eapply wp_mono; [by apply dispatchLocked_spec|].
  intros [] s' (told & HD' & Hcalm' & Hflag & Htold). pose proof (calm_grows _ _ Hcalm') as [_ Hlen]. pose proof (lk_lt _ _ _ Hd).
  apply wp_bind, wp_entry_of; [lia|]. destruct (lk (entries (core_ s')) d) as [ent|] eqn:Hd'.
  2:{ wp_steps. split; [|by etrans]. eapply DI_adjust; [exact HD'|done|..].
      - intros d' e' Hde _ [-> _]%HF. congruence.
      - intros d' e' c' Hde _ _ [[-> _] _]. congruence. }
  destruct (N.eqb_spec (Entry.worker ent) noWorker) as [Ew|Ew]; simpl.
  - eapply want_waiting_spec; [|by rewrite (calm_clients _ _ Hcalm')|by etrans| |exact Hd'|done|].
    + eapply DI_weaken; [..|exact HD']; try done. by intros d' c' [[-> ->] _].
    + intros d' [-> _]%HF. done.
    + intros [_ [Eu Ef]]%HF. destruct Hflag as [Hsame|Hex]; [right|left; by apply (Hex d)].
      destruct (Hsame d ent Hd') as (e0 & He0 & Eu' & Ef'). simplify_eq. rewrite Eu', Ef', Ef. split; [done|].
      by intros c' ->%list_elem_of_singleton.
  - wp_steps. split; [|by etrans]. eapply DI_adjust; [exact HD'|done|..].
    + intros d' e' Hde Hn' [-> _]%HF. congruence.
    + intros d' e' c' Hde _ _ [[-> _] Hno]. apply Hno. by eapply (Htold d e ent).
Qed.

#[local] Ltac answers := apply wpe_wp, answer_spec; done.

(** A Want: refused, answered from the cache, or entered. *)
Lemma onWant_spec cid want cached s :
  settled s → cid ∈ clients s →
  wpe (onWant clock ord defaultSystem cid want cached) (λ _ s', settled s' ∧ calm s s') (λ s', settled s' ∧ calm s s') s.
Proof.
  intros HD Hcl. unfold onWant. case_bool_decide; [by apply wpe_ret|]. apply wpe_bind, wpe_wp. wp_steps.
  destruct (lettingGo s); [answers|]. destruct cached; [answers|].
  destruct (maxSystemLen <? _); [answers|].
  destruct (admitsSystem _ _); simpl; [|answers].
  apply wpe_bind, wpe_wp. eapply wp_mono; [apply nowMs_spec|]. intros now s1 (-> & Ht & Hp).
  pose proof (DI_tables _ _ _ _ _ _ _ _ _ Ht Hp HD) as HD1. pose proof (di_core _ _ _ _ _ _ _ _ HD1) as HI.
  assert (calm s s1) as Hcalm1 by (by apply calm_tables). rewrite <- (calm_clients _ _ Hcalm1) in Hcl.
  set (info := mkWantInfo _ _ _ _ _). destruct (want_cases (core_ s1) (wi_drvPath info) HI) as [Hroom|Hfull].
  2:{ unfold wpe, on_core, mbind, M_bind, zoom. rewrite (Hfull cid info _ eq_refl). simpl. by rewrite with_core_id. }
  apply wpe_wp, wp_bind. eapply on_core_spec; [apply keeps_want|apply want_spec; [done| |exact Hroom]|].
  { split_and!; [apply systemFor_ok|apply double_of_Z_nonneg; simpl; lia|].
    rewrite (di_cfg _ _ _ _ _ _ _ _ HD1). apply clock_ok. }
  intros r c1 (HI1 & Hwk & d & e & _ & He & -> & Hlk) Hgr.
  pose proof (DI_want _ _ _ _ _ _ _ HD1 Hcl HI1 Hgr Hwk He Hlk) as HD2.
  assert (calm s (with_core c1 s1)) as Hcalm2 by (etrans; [exact Hcalm1|by apply grows_calm]).
  specialize (Hlk d). rewrite decide_True in Hlk by done. unfold assignment.
  destruct (decide (Entry.worker e = noWorker)) as [Ew|Ew]; cbn beta iota.
  - eapply (want_queued_spec _ _ _ (λ d', d' = d ∧ lk (entries (core_ s1)) d = None)); [|exact Hcl|exact Hcalm2| |exact Hlk|].
    + eapply DI_adjust; [exact HD2| |by left|done]. intros d' e' Hd' Hn. split; [|done]. intros c' _ [-> ->].
      simpl in Hd'. rewrite Hlk in Hd'. injection Hd' as <-. apply Hn. unfold follow_entry, add_follower. by case_decide.
    + intros d' [-> Hno]. by rewrite He, Hno.
    + unfold follow_entry, add_follower. by case_decide.
  - eapply want_assigned_spec; [exact HD2|exact Hcl|exact Hcalm2|by intros d' [-> _]|exact Hlk|].
    unfold follow_entry, add_follower. by case_decide.
Qed.

(** One hold of the mutex for a batch: all of it, or up to the message that threw. *)
Lemma apply_chunk_spec cid msgs obj s :
  settled s → objs s !! cid = Some obj →
  wpe (apply_chunk clock ord defaultSystem cid msgs) (λ _ s', settled s' ∧ calm s s') (λ s', settled s' ∧ calm s s') s.
Proof.
  intros HD Ho. unfold apply_chunk. apply wpe_bind, wpe_wp. wp_steps. apply wpe_bind, wpe_wp. wp_steps.
  destruct (Client.gone obj) eqn:Eg; [by apply wpe_ret|].
  assert (cid ∈ clients s) as Hcl by (apply (di_clients _ _ _ _ _ _ _ _ HD); by rewrite Ho; simpl; rewrite Eg).
  apply (wpe_forM _ (λ s', settled s' ∧ calm s s')); [done|]. intros [[want|path|] cached] s' _ [HD' Hcalm]; unfold onClientMsg; simpl.
  - eapply wpe_mono; [apply onWant_spec; [done|by rewrite (calm_clients _ _ Hcalm)]|..].
    + intros [] s'' [? ?]. split; [done|by etrans].
    + intros s'' [? ?]. split; [done|by etrans].
  - apply wpe_wp. eapply wp_mono; [by apply onCancel_spec|]. intros [] s'' [? ?]. split; [done|by etrans].
  - by apply wpe_ret.
Qed.
End Clients.
