(* ===== verification/DispatcherConn.v ===== *)
(** * Connections and streams keep the dispatcher's invariant

    Clients that connect and disconnect, the statistics thread, a restart, and the
    steps of the streams. *)

From S2P Require Import Prelude Double PathKey Heap Free Sched SchedInv SchedOps SchedHello SchedDispatch SchedPlace SchedTheorems.
From S2P Require Import SchedFrame Reactor Dispatcher DispatcherInv DispatcherOps DispatcherDispatch DispatcherClients.

Section Conn.
Context (cf : Config.t) (hd : gmap N (list (string * N))) (clock : nat → double).
Abbreviation DI := (DI cf hd).
Abbreviation settled := (DI (λ _ _, False) (λ _, False) (λ _, False) (λ _ _, False) true).

(** ** Connecting *)

Lemma DI_connect s :
  settled s → (nextClient s + 1 < 2 ^ 64)%N →
  settled (with_clients ({[nextClient s]} ∪ clients s) (with_objs (<[nextClient s := Client.mk Reactor.fresh false]> (objs s))
    (with_nextClient (u64 (nextClient s + 1)) s))).
Proof.
  intros [Hc Hcf Hfo Hcl Hob Hse Hss Hup Ht Hk Hf Hw Hor Hp Hrd] Hlt.
  assert (objs s !! nextClient s = None) as Hnew.
  { destruct (objs s !! nextClient s) as [obj|] eqn:E; [|done]. destruct (Hob _ _ E). lia. }
  assert (nextClient s ∉ clients s) as Hno by (intros Hin%Hcl; by rewrite Hnew in Hin).
  assert (u64 (nextClient s + 1) = nextClient s + 1)%N as Hu by (unfold u64; by rewrite N.mod_small).
  assert (∀ d e cid, lk (entries (core_ s)) d = Some e → cid ∈ Entry.followers e →
    open_log (<[nextClient s := Client.mk Reactor.fresh false]> (objs s)) cid = open_log (objs s) cid) as Hlog.
  { intros d e cid Hd Hin. unfold open_log. rewrite lookup_insert_ne; [done|]. intros <-. apply Hno. by eapply Hfo. }
  split; simpl; try done.
  - intros d e cid Hd Hin. apply elem_of_union_r. by eapply Hfo.
  - intros cid. rewrite elem_of_union, elem_of_singleton. destruct (decide (cid = nextClient s)) as [->|Hne].
    + rewrite lookup_insert_eq. naive_solver.
    + rewrite lookup_insert_ne by done. rewrite Hcl. naive_solver.
  - intros cid obj [[<- <-]|[_ [? ?]%Hob]]%lookup_insert_Some; rewrite Hu; split; [apply Reactor.healthy_fresh|lia|done|lia].
  - intros d e cid log Hd Hn Hin HX. rewrite (Hlog d e) by done. by eapply Ht.
  - intros d e cid log Hd Hn Hin HX. rewrite (Hlog d e) by done. by eapply Hw.
Qed.

Lemma connectClient_spec s :
  settled s → (nextClient s + 1 < 2 ^ 64)%N →
  wp connectClient (λ cid s', settled s' ∧ cid = nextClient s ∧ clients s' = {[cid]} ∪ clients s ∧
    (∀ c, is_Some (objs s !! c) → is_Some (objs s' !! c)) ∧ lookupQueue s' = lookupQueue s ∧ sessions s' = sessions s) s.
Proof.
  intros HD Hlt. unfold connectClient. wp_steps. split_and!; [exact (DI_connect s HD Hlt)|done..| |done|done].
  intros c Hc. simpl. destruct (decide (c = nextClient s)) as [->|Hne]; [by rewrite lookup_insert_eq|by rewrite lookup_insert_ne].
Qed.

(** ** Disconnecting *)

Lemma DI_disconnect cid obj s :
  settled s → objs s !! cid = Some obj → (∀ d e, lk (entries (core_ s)) d = Some e → cid ∉ Entry.followers e) →
  settled (with_clients (clients s ∖ {[cid]}) (with_objs (<[cid := Client.mk (Client.stream obj) true]> (objs s)) s)).
Proof.
  intros [Hc Hcf Hfo Hcl Hob Hse Hss Hup Ht Hk Hf Hw Hor Hp Hrd] Ho Hno.
  assert (∀ c, open_log (<[cid := Client.mk (Client.stream obj) true]> (objs s)) c = open_log (objs s) c) as Hlog.
  { intros c. unfold open_log. destruct (decide (c = cid)) as [->|Hne]; [by rewrite lookup_insert_eq, Ho|by rewrite lookup_insert_ne]. }
  split; simpl; try done.
  - intros d e c Hd Hin. apply elem_of_difference. split; [by eapply Hfo|]. intros ->%elem_of_singleton. by eapply Hno.
  - intros c. rewrite elem_of_difference, elem_of_singleton, Hcl. destruct (decide (c = cid)) as [->|Hne].
    + rewrite lookup_insert_eq. naive_solver.
    + rewrite lookup_insert_ne by done. naive_solver.
  - intros c o [[<- <-]|[_ ?]]%lookup_insert_Some; [by apply (Hob cid obj)|by apply Hob].
  - intros d e c log. rewrite Hlog. apply Ht.
  - intros d e c log. rewrite Hlog. apply Hw.
Qed.

Lemma DI_orphans l s :
  settled s → Forall (λ o, (Orphan.drv o < vlen (entries (core_ s)))%N) l → settled (with_orphans l s).
Proof. intros [] Hl. by split. Qed.

(** What a disconnect leaves of the tables. *)
Record left_behind (cid : N) (s s' : dispatcher) : Prop := {
  lb_clients : clients s' = clients s ∖ {[cid]};
  lb_objs : ∀ c, is_Some (objs s' !! c) ↔ is_Some (objs s !! c);
  lb_sessions : sessions s' = sessions s;
  lb_lookups : lookupQueue s' = lookupQueue s;
}.

Lemma clientGone_inv_spec cid obj s :
  settled s → objs s !! cid = Some obj → wp (clientGone clock cid) (λ _ s', settled s' ∧ left_behind cid s s') s.
Proof.
  intros HD Ho. pose proof (di_core _ _ _ _ _ _ _ _ HD) as HI. unfold clientGone. wp_steps.
  set (s0 := with_clients _ _). eapply on_core_spec; [apply keeps_clientGone|by apply clientGone_spec|].
  intros revokes c1 (HI1 & Hwk & _ & _ & Hlk & Hrev) Hgr. change (core_ s0) with (core_ s) in *.
  assert (settled (with_core c1 s0)) as HD1.
  { apply (DI_disconnect cid obj (with_core c1 s)); [|done|].
    - eapply DI_drop; [exact HD|exact HI1|exact Hgr|exact Hwk|]. intros d. right. apply Hlk.
    - simpl. intros d e. rewrite Hlk. intros (e0 & _ & He0)%bind_Some. by eapply drop_client_not_follower. }
  assert (left_behind cid s (with_core c1 s0)) as HL.
  { split; try done. intros c. simpl. destruct (decide (c = cid)) as [->|Hne].
    - rewrite lookup_insert_eq, Ho. naive_solver.
    - by rewrite lookup_insert_ne. }
  apply wp_bind. eapply wp_mono; [apply (wp_forM _ (λ rest s', rest ⊆ revokes ∧ settled s' ∧ left_behind cid s s' ∧ core_ s' = c1))|].
  - split; [done|]. done.
  - intros [d w] rest s' (Hsub & HD' & HL' & Hc). assert (d < vlen (entries c1))%N as Hd.
    { destruct (proj1 (Hrev d w)) as (e & He & _); [apply Hsub; left|]. apply lk_lt in He. destruct Hgr. lia. }
    assert (rest ⊆ revokes) as Hsub' by (intros x ?; apply Hsub; by right).
    apply wp_bind, wp_entry_of; [by rewrite Hc|]. destruct (lk _ _); [|by wp_steps]. apply wp_bind.
    eapply wp_mono; [apply nowMs_spec|]. intros now s1 (_ & Ht & Hp). wp_steps. pose proof (DI_tables _ _ _ _ _ _ _ _ _ Ht Hp HD') as HD1'.
    destruct Ht as (E1 & E2 & E3 & E4 & E5 & E6 & E7 & E8). split_and!; [done| | |simpl; congruence].
    + apply DI_orphans; [done|]. apply Forall_app. split; [by eapply di_orphans|]. apply Forall_singleton. simpl. by rewrite E1, Hc.
    + destruct HL'. split; simpl; rewrite ?E2, ?E3, ?E4, ?E8; done.
  - intros [] s' (_ & HD' & HL' & _). eapply wp_mono; [apply exportStats_spec|]. intros [] s2 [Ht Hp].
    split; [by eapply DI_tables|]. destruct Ht as (E1 & E2 & E3 & E4 & E5 & E6 & E7 & E8). destruct HL'.
    split; rewrite ?E2, ?E3, ?E4, ?E8; done.
Qed.

(** ** The statistics thread *)

Lemma DI_reads X K F G P s n : DI X K F G P s → DI X K F G P (with_reads n s).
Proof. by apply DI_ext. Qed.

Lemma revokeOrphan_spec now o s :
  settled s → (Orphan.drv o < vlen (entries (core_ s)))%N →
  wp (revokeOrphan now o) (λ _ s', settled s' ∧ calm s s' ∧ core_ s' = core_ s) s.
Proof.
  intros HD Ho. unfold revokeOrphan. destruct (dltb now (Orphan.dueMs o)); [by wp_steps|].
  apply wp_bind, wp_entry_of; [done|]. apply wp_bind.
  destruct (lk (entries (core_ s)) (Orphan.drv o)) as [e|]; [|by wp_steps]. destruct (_ && _ && _); [|by wp_steps].
  eapply wp_mono; [by apply revokeOn_spec|]. intros [] s' (HD' & m & -> & Hm). wp_steps. split_and!; [done|by apply revoke_calm|done].
Qed.

Lemma revokeOrphans_spec s :
  settled s → wp (revokeOrphans clock) (λ _ s', settled s' ∧ clients s' = clients s ∧
    (∀ cid, Client.gone <$> objs s' !! cid = Client.gone <$> objs s !! cid) ∧ (∀ sid, session_ids s' sid = session_ids s sid) ∧
    lookupQueue s' = lookupQueue s) s.
Proof.
  intros HD. unfold revokeOrphans. apply wp_bind. eapply wp_mono; [apply nowMs_spec|]. intros now s1 (_ & Ht & Hp). wp_steps.
  pose proof (DI_tables _ _ _ _ _ _ _ _ _ Ht Hp HD) as HD1. pose proof (calm_tables _ _ Ht) as Hcalm1.
  eapply wp_mono; [apply (wp_foldM _ (λ rest kept s', settled s' ∧ calm s s' ∧ core_ s' = core_ s1 ∧ rest ⊆ orphans s1 ∧
    Forall (λ o, (Orphan.drv o < vlen (entries (core_ s1)))%N) kept))|].
  - split_and!; done || by constructor.
  - intros o rest kept s' (HD' & Hcalm & Hc & Hsub & Hk). pose proof (di_orphans _ _ _ _ _ _ _ _ HD1) as Hor.
    rewrite Forall_forall in Hor. assert (Orphan.drv o < vlen (entries (core_ s1)))%N as Ho by (apply Hor, Hsub; left).
    apply wp_bind. eapply wp_mono; [apply revokeOrphan_spec; [done|by rewrite Hc]|]. intros due s2 (HD2 & Hcalm2 & Hc2). wp_steps.
    split_and!; [done|by etrans|congruence|intros x ?; apply Hsub; by right|]. destruct due; [done|].
    apply Forall_app. split; [done|by apply Forall_singleton].
  - intros kept s' (HD' & Hcalm & Hc & _ & Hk). wp_steps. split; [apply DI_orphans; [done|by rewrite Hc]|].
    destruct Hcalm as [Hcl Hg Hid _ _ _ (_ & _ & Hl)]. done.
Qed.

Lemma stats_round_spec s :
  settled s → wp (stats_round clock) (λ _ s', settled s' ∧ clients s' = clients s ∧
    (∀ cid, Client.gone <$> objs s' !! cid = Client.gone <$> objs s !! cid) ∧ (∀ sid, session_ids s' sid = session_ids s sid) ∧
    lookupQueue s' = lookupQueue s) s.
Proof.
  intros HD. unfold stats_round. apply wp_bind. eapply wp_mono; [by apply revokeOrphans_spec|].
  intros [] s1 (HD1 & Hcl & Hg & Hid & Hl). wp_steps. destruct (statsPending s1); [|by wp_steps].
  eapply wp_mono; [apply exportStats_spec|]. intros [] s2 [Ht Hp]. split; [by eapply DI_tables|].
  destruct Ht as (E1 & E2 & E3 & E4 & E5 & E6 & E7 & E8). unfold session_ids in *. rewrite E2, E3, E4, E8. done.
Qed.

(** ** A restart *)

Lemma restarting_spec s : settled s → wp restarting (λ _ s', settled s' ∧ calm s s') s.
Proof.
  intros HD. unfold restarting. apply wp_bind, wp_modify, wp_bind. eapply wp_mono; [apply wakeWatchersLocked_spec|]. intros [] s1 [Ht Hp]. wp_steps.
  assert (settled s1 ∧ calm s s1) as [HD1 Hcalm1].
  { split; [by eapply DI_tables; [exact Ht|exact Hp|]; eapply DI_ext; [..|exact HD]|]. etrans; [|by apply calm_tables]. by split. }
  eapply wp_mono; [apply (wp_forM _ (λ rest s', settled s' ∧ calm s s' ∧ list_to_set rest ⊆ clients s1 ∧ sess s' = sess s1))|].
  - split_and!; [done..| |done]. by rewrite list_to_set_elements_L.
  - intros cid rest s' (HD' & Hcalm & Hsub & Hse). assert (cid ∈ clients s').
    { rewrite (calm_clients _ _ Hcalm), <- (calm_clients _ _ Hcalm1). apply Hsub. set_solver. }
    apply wp_bind. eapply wp_mono; [by eapply reply_spec|]. intros ok s2 (o & -> & Hs). wp_steps.
    split_and!; [by eapply DI_sent_other; [done|exact Hs|]|etrans; [exact Hcalm|by eapply calm_objs]|set_solver|done].
  - intros [] s2 (HD2 & Hcalm2 & _ & Hse).
    eapply wp_mono; [apply (wp_forM _ (λ (rest : list (N * N)) s', settled s' ∧ calm s s' ∧
      (∀ ws : N * N, ws ∈ rest → sess s' !! ws.1 = Some ws.2)))|by intros [] s' (? & ? & _)].
    + split_and!; [done..|]. intros [w sid] Hin%elem_of_map_to_list. simpl. by rewrite Hse.
    + intros [w sid] rest s' (HD' & Hcalm & Hin). simpl.
      destruct (di_sess _ _ _ _ _ _ _ _ HD' w sid (Hin (w, sid) ltac:(left))) as (ses & Hs & Hid & Hdet).
      destruct (di_sessions _ _ _ _ _ _ _ _ HD' sid ses Hs) as [HH _]. apply wp_bind.
      eapply wp_mono; [by apply session_send_spec|]. intros ok s3 (r & -> & Hr & Hrd & _ & Hok). wp_steps. split_and!.
      * eapply DI_session; [exact HD'|done|done|by left| |by left].
        destruct ok; [rewrite Hok; set_solver|destruct Hok as [_ ->]; done].
      * etrans; [exact Hcalm|]. apply revoke_calm. intros sid'. unfold session_ids. simpl.
        destruct (decide (sid' = sid)) as [->|Hne]; [by rewrite lookup_insert_eq, Hs|by rewrite lookup_insert_ne].
      * intros ws ?. simpl. apply Hin. by right.
Qed.

(** ** Streams *)

Definition not_send {Msg} (ev : Reactor.event Msg) : Prop := match ev with Reactor.Send _ => False | _ => True end.

Lemma stream_event_spec {Msg} (ev : Reactor.event Msg) r :
  Reactor.healthy r → Reactor.enabled ev r → (ev = Reactor.Check Reactor.OfKick → Reactor.deleted r = false) → not_send ev →
  wp (Reactor.run_event ev) (λ _ r', Reactor.healthy r' ∧ Reactor.accepted r' = Reactor.accepted r ∧
    (Reactor.closed r = true → Reactor.closed r' = true) ∧
    (ev ≠ Reactor.Finish → Reactor.readsDone r' = Reactor.readsDone r)) r.
Proof.
  intros HH He Hk Hs. assert (Reactor.takes ev r = []) as Htk by (by destruct ev).
  destruct (Reactor.event_spec ev r HH He Hk) as (a & r' & Hrun & HH' & Ha & Hc). exists a, r'.
  rewrite Htk, app_nil_r in Ha. split_and!; [done..|]. intros Hne. pose proof (Reactor.event_reads ev Hne r) as Hr.
  unfold exec in Hr. by rewrite Hrun in Hr.
Qed.

(** A client's stream moves on without a message. *)
Lemma DI_client X K F G P s cid obj r :
  DI X K F G P s → objs s !! cid = Some obj → Reactor.healthy r →
  Reactor.accepted r = Reactor.accepted (Client.stream obj) →
  (Reactor.closed (Client.stream obj) = true → Reactor.closed r = true) →
  DI X K F G P (with_objs (<[cid := Client.with_stream r obj]> (objs s)) s).
Proof.
  intros [Hc Hcf Hfo Hcl Hob Hse Hss Hup Ht Hk Hf Hw Hor Hp Hrd] Ho Hr Ha Hcs.
  assert (∀ c log, open_log (<[cid := Client.with_stream r obj]> (objs s)) c = Some log → open_log (objs s) c = Some log) as Hlog.
  { intros c log. unfold open_log. destruct (decide (c = cid)) as [->|Hne]; [|by rewrite lookup_insert_ne].
    rewrite lookup_insert_eq, Ho. simpl. rewrite Ha. destruct (Reactor.closed (Client.stream obj)); [by rewrite Hcs|].
    by destruct (Reactor.closed r). }
  split; simpl; try done.
  - intros c. rewrite Hcl. destruct (decide (c = cid)) as [->|Hne]; [by rewrite lookup_insert_eq, Ho|by rewrite lookup_insert_ne].
  - intros c o [[<- <-]|[_ ?]]%lookup_insert_Some; [|by apply Hob]. split; [done|by apply (Hob cid obj)].
  - intros d e c log Hd Hn Hin HX Hl%Hlog. by eapply Ht.
  - intros d e c log Hd Hn Hin HX Hl%Hlog. by eapply Hw.
Qed.

Lemma client_event_spec cid obj ev s :
  settled s → objs s !! cid = Some obj → Reactor.enabled ev (Client.stream obj) →
  (ev = Reactor.Check Reactor.OfKick → Reactor.deleted (Client.stream obj) = false) → not_send ev →
  wp (client_event cid ev) (λ _ s', settled s' ∧ calm s s') s.
Proof.
  intros HD Ho He Hk Hs. destruct (di_objs _ _ _ _ _ _ _ _ HD cid obj Ho) as [HH _]. unfold client_event. wp_steps.
  eapply wp_mono; [by apply stream_event_spec|]. intros [] r (HH' & Ha & Hc & _). split; [by apply DI_client|]. split; try done.
  intros c. simpl. destruct (decide (c = cid)) as [->|Hne]; [by rewrite lookup_insert_eq, Ho|by rewrite lookup_insert_ne].
Qed.

Lemma lookup_failed_spec cid obj s : settled s → objs s !! cid = Some obj → wp (lookup_failed cid) (λ _ s', settled s' ∧ calm s s') s.
Proof.
  intros HD Ho. destruct (di_objs _ _ _ _ _ _ _ _ HD cid obj Ho) as [HH _]. unfold lookup_failed. wp_steps.
  destruct (Client.gone obj); wp_steps; [done|]. split; [apply DI_client; [done..| |done|done]; by destruct HH|]. split; try done.
  intros c. simpl. destruct (decide (c = cid)) as [->|Hne]; [by rewrite lookup_insert_eq, Ho|by rewrite lookup_insert_ne].
Qed.

(** ** Sessions *)

Lemma DI_new_session sid s :
  settled s → sessions s !! sid = None → settled (with_sessions (<[sid := Session.mk Reactor.fresh None false]> (sessions s)) s).
Proof.
  intros [Hc Hcf Hfo Hcl Hob Hse Hss Hup Ht Hk Hf Hw Hor Hp Hrd] Hno. split; simpl; try done.
  - intros sid' ses [[<- <-]|[_ ?]]%lookup_insert_Some; [|by apply (Hse sid')]. split; [apply Reactor.healthy_fresh|done].
  - intros w sid' (ses & Hs & ?)%Hss. exists ses. rewrite lookup_insert_ne; [done|]. intros <-. congruence.
  - intros d e Hd Hn HK. destruct (Hk d e Hd Hn HK) as (sid' & ses & Hw' & Hs & ?). exists sid', ses. simpl.
    rewrite lookup_insert_ne; [done|]. intros <-. congruence.
  - intros sid' ses [[<- <-]|[_ ?]]%lookup_insert_Some; [done|by apply (Hrd sid')].
Qed.

(** A session no worker has. *)
Lemma DI_idle_session sid ses (o : option Session.t) s :
  settled s → sessions s !! sid = Some ses → (∀ w, sess s !! w ≠ Some sid) →
  (∀ ses', o = Some ses' → Reactor.healthy (Session.stream ses') ∧ (∀ w, Session.id ses' = Some w → Session.id ses = Some w) ∧
     (Reactor.readsDone (Session.stream ses') = true → Session.detached ses' = true)) →
  settled (with_sessions (partial_alter (λ _, o) sid (sessions s)) s).
Proof.
  intros [Hc Hcf Hfo Hcl Hob Hse Hss Hup Ht Hk Hf Hw Hor Hp Hrd] Hs Hidle Ho.
  assert (∀ sid', sid' ≠ sid → partial_alter (λ _, o) sid (sessions s) !! sid' = sessions s !! sid') as Hne.
  { intros. by rewrite lookup_partial_alter_ne. }
  split; simpl; try done.
  - intros sid' ses' Hs'. destruct (decide (sid' = sid)) as [->|?]; [|rewrite Hne in Hs' by done; by apply (Hse sid')].
    rewrite lookup_partial_alter_eq in Hs'. destruct (Ho ses' Hs') as (? & Hid & _). split; [done|]. intros w Hw'.
    apply (Hse sid ses Hs). by apply Hid.
  - intros w sid' Hw'. destruct (Hss w sid' Hw') as (ses' & ? & ?). exists ses'. rewrite Hne; [done|].
    intros ->. by apply (Hidle w).
  - intros d e Hd Hn HK. destruct (Hk d e Hd Hn HK) as (sid' & ses' & Hw' & ? & ?). exists sid', ses'. simpl.
    rewrite Hne; [done|]. intros ->. by apply (Hidle _ Hw').
  - intros sid' ses' Hs'. destruct (decide (sid' = sid)) as [->|?]; [|rewrite Hne in Hs' by done; by apply (Hrd sid')].
    rewrite lookup_partial_alter_eq in Hs'. by apply (Ho ses' Hs').
Qed.
End Conn.
