(* ===== verification/DispatcherWorkers.v ===== *)
(** * What workers do keeps the dispatcher's invariant *)

From S2P Require Import Prelude Double PathKey Heap Free Sched SchedInv SchedOps SchedHello SchedDispatch SchedPlace SchedTheorems.
From S2P Require Import SchedFrame Reactor Dispatcher DispatcherInv DispatcherOps DispatcherDispatch DispatcherClients DispatcherConn.

(** ** A worker that has not said Hello yet *)

Definition adds_worker (addr : string) (c c' : core) : Prop :=
  workers c' = workers c ∨ workers c' = workers c ++ [new_worker addr].

Lemma workerId_adds addr : keeps (adds_worker addr) (workerId addr).
Proof.
  intros c. unfold exec, workerId, mbind, M_bind, get. simpl. destruct (workerIds c !! addr); [by left|by right].
Qed.

Lemma placeable_adds addr c c' e : adds_worker addr c c' → placeable e c' = placeable e c.
Proof.
  intros [H|H]; unfold placeable; rewrite H; [done|]. rewrite existsb_app. simpl. by rewrite !orb_false_r.
Qed.

Lemma members_adds addr c c' : adds_worker addr c c' → members (workers c') = members (workers c).
Proof. intros [->| ->]; [done|]. unfold members. by rewrite foldl_snoc. Qed.

Section Workers.
Context (cf : Config.t) (hd : gmap N (list (string * N))) (clock : nat → double) (ord : nat → map_order) (defaultSystem : string).
Abbreviation DI := (DI cf hd).
Abbreviation settled := (DI (λ _ _, False) (λ _, False) (λ _, False) (λ _ _, False) true).

Lemma DI_new_worker addr s c1 :
  settled s → inv c1 → grows (core_ s) c1 → adds_worker addr (core_ s) c1 → entries c1 = entries (core_ s) →
  settled (with_core c1 s).
Proof.
  intros [Hc Hcf Hfo Hcl Hob Hse Hss Hup Ht Hk Hf Hw Hor Hp Hrd Had] HI1 [Hg1 Hg2] Hadd He.
  assert (∀ w wkr, workers (core_ s) !! w = Some wkr → workers c1 !! w = Some wkr) as Hold.
  { intros w wkr Hwk. destruct Hadd as [->| ->]; [done|]. rewrite vlookup_app_l; [done|by eapply vlookup_lt_Some]. }
  assert (vlen (workers (core_ s)) ≤ vlen (workers c1))%N as Hlen.
  { destruct Hadd as [->| ->]; [done|]. rewrite vlen_app. lia. }
  split; simpl; rewrite ?He; try done.
  - congruence.
  - intros sid ses Hs. destruct (Hse sid ses Hs) as [? Hlt]. split; [done|]. intros w Hid. specialize (Hlt w Hid). lia.
  - intros w wkr Hwk. destruct Hadd as [E|E]; rewrite E in Hwk; [by apply Hup|].
    apply vlookup_snoc_Some in Hwk as [Hwk|[-> <-]]; [by apply Hup|]. split; [done|]. intros [sid (ses & Hs & Hid & _)%Hss].
    destruct (Hse sid ses Hs) as [_ Hlt]. specialize (Hlt _ Hid). lia.
  - intros d e cid log Hd Hn Hin HX Hl. rewrite (Ht d e cid log) by done. unfold place_of.
    destruct (placed_worker _ d e Hc Hd Hn) as (wkr & Hwk & _). by rewrite Hwk, (Hold _ _ Hwk).
  - intros d e Hd Hn HF. rewrite (Hf d e Hd Hn HF). f_equal. symmetry. by eapply placeable_adds.
  - intros HP. rewrite (members_adds addr (core_ s)) by done. by apply Hp.
  - intros w wkr Hwk. destruct Hadd as [E|E]; rewrite E in Hwk; [by apply (Had w)|].
    apply vlookup_snoc_Some in Hwk as [Hwk|[-> <-]]; [by apply (Had w)|done].
Qed.

(** ** Hello *)

(** The older session of the worker is let go of, the new one gets the worker. *)
Definition handed (sid wid : N) (ss : gmap N N) (m m' : gmap N Session.t) : Prop :=
  (∃ ses, m !! sid = Some ses ∧ m' !! sid = Some (Session.with_id (Some wid) ses)) ∧
  ∀ sid', sid' ≠ sid → m' !! sid' = m !! sid' ∨
    (ss !! wid = Some sid' ∧ m' !! sid' = Session.with_id None <$> m !! sid').

Lemma handed_idle sid wid ss m m' sid' ses :
  handed sid wid ss m m' → sid' ≠ sid → ss !! wid ≠ Some sid' → m !! sid' = Some ses → m' !! sid' = Some ses.
Proof. intros [_ H] Hne Hw Hs. destruct (H sid' Hne) as [->|[? _]]; done. Qed.

(** Every session of the new table is one of the old, with its stream. *)
Lemma handed_back sid wid ss m m' sid' ses' :
  handed sid wid ss m m' → m' !! sid' = Some ses' →
  ∃ ses, m !! sid' = Some ses ∧ Session.stream ses' = Session.stream ses ∧ Session.detached ses' = Session.detached ses ∧
    (sid' = sid ∧ Session.id ses' = Some wid ∨ sid' ≠ sid ∧ ∀ w, Session.id ses' = Some w → Session.id ses = Some w).
Proof.
  intros [(ses & Hs & Hsid) Hrest] Hs'. destruct (decide (sid' = sid)) as [->|Hne].
  - rewrite Hsid in Hs'. injection Hs' as <-. exists ses. split_and!; [done..|by left].
  - destruct (Hrest sid' Hne) as [E|[_ E]]; rewrite E in Hs'; [exists ses'; split_and!; [done..|by right]|].
    apply fmap_Some in Hs' as (ses1 & ? & ->). exists ses1. split_and!; [done..|by right].
Qed.

Lemma profile_len (wks wks' : list Worker.t) wid wkr :
  wks' !! wid = Some wkr → (∀ w, w ≠ wid → profile wks' w = profile wks w) → ∀ w, (w < vlen wks)%N → (w < vlen wks')%N.
Proof.
  intros Hwk Hprof w [wkr0 Hw0]%vlookup_lt. destruct (decide (w = wid)) as [->|Hne]; [by eapply vlookup_lt_Some|].
  specialize (Hprof w Hne). unfold profile in Hprof. rewrite Hw0 in Hprof.
  destruct (wks' !! w) eqn:E; [by eapply vlookup_lt_Some|done].
Qed.

(** Where an entry comes from: it is as it was, but for a place on the worker, or the
    worker reported it; then its followers are still to be told. *)
Lemma hello_back wid running (sups : list (N * N)) (g g' : N → option Entry.t) d e' :
  wid ≠ noWorker → hello_moves wid running (λ d, g d ≫= gone_entry wid) g' sups → g' d = Some e' →
  (Entry.followers e' = [] ∨ ∃ e, g d = Some e ∧ Entry.drvPath e = Entry.drvPath e' ∧
     Entry.followers e = Entry.followers e' ∧ Entry.unplaceable e = Entry.unplaceable e') ∧
  (Entry.worker e' ≠ noWorker → (g d = Some e' ∧ Entry.worker e' ≠ wid) ∨
     (Entry.worker e' = wid ∧ (∃ p, p ∈ running ∧ PathKey p.1 = PathKey (Entry.drvPath e') ∧ p.2 = Entry.assignId e') ∧
      ∀ cid, cid ∈ Entry.followers e' → d ∈ sups.*1)).
Proof.
  intros Hn [Hm _] Hd.
  assert (∀ e1, (g d ≫= gone_entry wid) = Some e1 → ∃ e, g d = Some e ∧ Entry.drvPath e = Entry.drvPath e1 ∧
    Entry.followers e = Entry.followers e1 ∧ Entry.unplaceable e = Entry.unplaceable e1 ∧ Entry.worker e1 ≠ wid ∧
    (Entry.worker e1 ≠ noWorker → e = e1)) as Hgone.
  { intros e1 (e & He & Hg)%bind_Some. exists e. unfold gone_entry in Hg. repeat case_decide; simplify_eq/=; by split_and!. }
  destruct (Hm d) as [E|(e1 & E & Ew & Hp & Hg)]; rewrite Hd in E.
  - symmetry in E. destruct (Hgone e' E) as (e & He & ? & ? & ? & Hne & Hsame). split; [right; by exists e|].
    intros Hn'. left. split; [|done]. by rewrite <- (Hsame Hn').
  - injection E as <-. destruct (g d ≫= gone_entry wid) as [e1|] eqn:E1.
    + destruct (Hgone e1 eq_refl) as (e & He & ? & ? & ? & Hne & _). destruct Hg as [E' Hsup]. rewrite E' in *. simpl in *.
      split; [right; by exists e|]. intros _. right. split_and!; [done|done|]. intros cid Hin.
      apply list_elem_of_fmap. exists (d, Entry.worker e1). split; [done|]. apply Hsup. unfold sup_of.
      rewrite decide_True; [by left|]. split; [done|]. right. intros E0. rewrite E0 in Hin. by apply not_elem_of_nil in Hin.
    + split; [by left|]. intros _. right. split_and!; [done|done|]. intros cid Hin. rewrite Hg in Hin. by apply not_elem_of_nil in Hin.
Qed.

(** The worker has registered: what it reported is known, but nobody was told. *)
Lemma DI_hello sid wid ses wkr running (sups : list (N * N)) c2 m' s :
  settled s → sessions s !! sid = Some ses → Session.detached ses = false → (∀ w, Session.id ses = Some w → w = wid) →
  running ⊆ default [] (hd !! sid) → inv c2 → grows (core_ s) c2 → workers c2 !! wid = Some wkr → Worker.up wkr = true →
  Worker.addr wkr ≠ EmptyString →
  (∀ w, w ≠ wid → profile (workers c2) w = profile (workers (core_ s)) w) →
  hello_moves wid running (λ d, lk (entries (core_ s)) d ≫= gone_entry wid) (lk (entries c2)) sups →
  handed sid wid (sess s) (sessions s) m' →
  DI (λ d _, d ∈ sups.*1) (λ _, False) (λ _, True) (λ _ _, False) false
    (with_sess (<[wid := sid]> (sess s)) (with_sessions m' (with_core c2 s))).
Proof.
  intros [Hc Hcf Hfo Hcl Hob Hse Hss Hup Ht Hk Hf Hw Hor Hp Hrd Had] Hs Hdet Hid Hrun HI2 [Hg1 Hg2] Hwk Hwup Hna Hprof Hm Hh.
  assert (wid ≠ noWorker) as Hwn by (pose proof (WorkersOk_lt _ _ _ _ _ (inv_workers _ _ _ _ HI2) Hwk); lia).
  pose proof (λ d e', hello_back wid running sups (lk (entries (core_ s))) (lk (entries c2)) d e' Hwn Hm) as Hback.
  assert (∀ w sid', w ≠ wid → sess s !! w = Some sid' → sid' ≠ sid ∧ ∃ ses', sessions s !! sid' = Some ses' ∧
    m' !! sid' = Some ses' ∧ Session.id ses' = Some w ∧ Session.detached ses' = false) as Hothers.
  { intros w sid' Hne Hw'. destruct (Hss w sid' Hw') as (ses' & Hs' & Hid' & Hdet').
    assert (sid' ≠ sid) as Hsid by (intros ->; simplify_eq; by apply Hne, Hid).
    split; [done|]. exists ses'. split_and!; [done| |done|done]. eapply handed_idle; [done|done| |done]. intros Hww.
    destruct (Hss wid sid' Hww) as (ses2 & ? & ? & _). simplify_eq. }
  pose proof (profile_len _ _ _ _ Hwk Hprof) as Hlen. pose proof (λ sid' ses', handed_back _ _ _ _ _ sid' ses' Hh) as Hm'.
  destruct Hh as [(ses0 & Hs0 & Hsid) _]. rewrite Hs in Hs0. injection Hs0 as <-.
  split; simpl; try done.
  - congruence.
  - intros d e' cid Hd Hin. destruct (proj1 (Hback d e' Hd)) as [E|(e & He & _ & Ef & _)].
    + rewrite E in Hin. by apply not_elem_of_nil in Hin.
    + eapply Hfo; [exact He|by rewrite Ef].
  - intros sid' ses' (ses1 & Hs1 & -> & _ & Hor')%Hm'. destruct (Hse sid' ses1 Hs1) as [? Hlt]. split; [done|].
    intros w Hid'. destruct Hor' as [[_ E]|[_ Hor']]; [|apply Hlen, Hlt; by apply Hor'].
    rewrite E in Hid'. injection Hid' as <-. by eapply vlookup_lt_Some.
  - intros w sid' [[<- <-]|[Hne Hw']]%lookup_insert_Some; [by eexists|]. destruct (Hothers w sid') as (_ & ses' & _ & ?); [done..|]. by exists ses'.
  - intros w wkr0 Hw0. destruct (decide (w = wid)) as [->|Hne].
    + rewrite lookup_insert_eq. simplify_eq. split; [by eexists|done].
    + rewrite lookup_insert_ne by done. specialize (Hprof w Hne). unfold profile in Hprof. rewrite Hw0 in Hprof.
      destruct (workers (core_ s) !! w) as [wkr1|] eqn:E; [|done]. injection Hprof as _ _ _ _ -> _. by apply Hup.
  - intros d e' cid log Hd Hn Hin HX Hl. destruct (proj2 (Hback d e' Hd) Hn) as [[He Hne]|(_ & _ & Hsup)]; [|by destruct HX; eapply Hsup].
    rewrite (Ht d e' cid log) by (done || by intros []). unfold place_of. simpl. specialize (Hprof _ Hne). unfold profile in Hprof.
    destruct (workers c2 !! Entry.worker e') as [x|], (workers (core_ s) !! Entry.worker e') as [y|]; try done.
    simpl in *. by injection Hprof as -> -> _ _ _ _.
  - intros d e' Hd Hn _. destruct (proj2 (Hback d e' Hd) Hn) as [[He Hne]|(Ew & (p & Hp1 & Hp2 & Hp3) & _)].
    + destruct (Hk d e' He Hn) as (sid' & ses' & Hw' & Hs' & Hkn); [by intros []|].
      destruct (Hothers _ _ Hne Hw') as (Hsne & ses1 & ? & Hs1 & _). simplify_eq. exists sid', ses'. simpl.
      rewrite lookup_insert_ne by done. done.
    + exists sid. eexists. simpl. rewrite Ew, lookup_insert_eq. split_and!; [done..|]. right. exists p. split_and!; [by apply Hrun|done..].
  - intros d e' cid log Hd Hu Hin _ Hl. destruct (proj1 (Hback d e' Hd)) as [E|(e & He & Ep & Ef & Eu)].
    + rewrite E in Hin. by apply not_elem_of_nil in Hin.
    + rewrite <- Ep. eapply Hw; [exact He|by rewrite Eu|by rewrite Ef|by intros []|done].
  - eapply Forall_impl; [exact Hor|]. intros o Ho. simpl in Ho. lia.
  - intros sid' ses' (ses1 & Hs1 & -> & -> & _)%Hm'. by apply (Hrd sid').
  - intros w wkr0 Hw0 Hu. destruct (decide (w = wid)) as [->|Hne]; [by simplify_eq|]. specialize (Hprof w Hne). unfold profile in Hprof.
    rewrite Hw0 in Hprof. destruct (workers (core_ s) !! w) as [wkr1|] eqn:E; [|done]. injection Hprof as -> _ _ _ Eu _.
    apply (Had w wkr1 E). congruence.
Qed.

(** The followers of a superseded build learn its new place, and the loser loses it. *)
Lemma supersede_spec F G P d loser rest e wkr s :
  DI (λ d' _, d' ∈ d :: rest) (λ _, False) F G P s → lk (entries (core_ s)) d = Some e → Entry.worker e ≠ noWorker →
  (loser ≠ noWorker → workers (core_ s) !! loser = Some wkr) →
  wp (supersede d loser) (λ _ s', DI (λ d' _, d' ∈ rest) (λ _, False) F G P s' ∧ calm s s' ∧ core_ s' = core_ s) s.
Proof.
  intros HD Hd Hn Hl. pose proof (di_core _ _ _ _ _ _ _ _ HD) as HI. unfold supersede. apply wp_bind, wp_entry_of; [by eapply lk_lt|].
  rewrite Hd. apply wp_bind. eapply wp_assignedMsg; [done..|]. apply wp_bind. eapply wp_mono; [by eapply sendToFollowers_spec|].
  intros [] s1 (o & -> & Hs). assert (DI (λ d' _, d' ∈ rest) (λ _, False) F G P (with_objs o s)) as HD1.
  { eapply DI_adjust; [by eapply DI_sent_assigned|..].
    - intros d' e' Hd' Hn'. split; [|done]. intros cid Hin [[->|?]%elem_of_cons Hno]; [|done]. simpl in Hd'. simplify_eq. by destruct Hno.
    - by left.
    - by intros d' e' cid _ _ _ [? _]. }
  pose proof (calm_objs _ _ _ _ Hs) as Hcalm. destruct (N.eqb_spec loser noWorker) as [?|Hne]; [by wp_steps|].
  apply wp_bind. eapply wp_mono; [by apply revokeOn_spec|]. intros [] s2 (HD2 & m & -> & Hm).
  destruct (placed_worker _ d e HI Hd Hn) as (wkr' & Hw' & _). apply wp_bind. eapply wp_worker_of; [exact Hw'|].
  apply wp_bind. eapply wp_worker_of; [by apply Hl|]. wp_steps. split_and!; [done| |done].
  etrans; [exact Hcalm|by apply revoke_calm].
Qed.

(** [placeabilityChangedLocked] drops nothing. *)
Lemma placeability_calm X K F G P s :
  DI X K F G P s →
  wp placeabilityChangedLocked (λ _ s', DI X K (λ _, False) G P s' ∧ calm s s' ∧
    (base.size (drvIds (core_ s')) ≤ base.size (drvIds (core_ s)))%nat) s.
Proof.
  intros HD. eapply wp_mono; [by eapply placeabilityChangedLocked_spec|]. intros [] s' (HD' & c1 & o & -> & Hlk & Hwk & Hgr & Hg).
  split_and!; [done| |].
  - split; try done. intros w. simpl. by rewrite Hwk.
  - eapply Tables_size_le; [apply (di_core _ _ _ _ _ _ _ _ HD)|apply (di_core _ _ _ _ _ _ _ _ HD')|]. simpl. intros d.
    rewrite Hlk. by destruct (lk (entries (core_ s)) d).
Qed.

(** The end of [onHello]. *)
Lemma hello_tell_spec (sups : list (N * N)) s :
  DI (λ d _, d ∈ sups.*1) (λ _, False) (λ _, True) (λ _ _, False) false s →
  (∀ p, p ∈ sups → ∃ e, lk (entries (core_ s)) p.1 = Some e ∧ Entry.worker e ≠ noWorker ∧
     (p.2 ≠ noWorker → is_Some (workers (core_ s) !! p.2))) →
  wp (membershipChangedLocked;; forM_ sups (λ sup, supersede sup.1 sup.2);; placeabilityChangedLocked)
    (λ _ s', settled s' ∧ calm s s' ∧ (base.size (drvIds (core_ s')) ≤ base.size (drvIds (core_ s)))%nat) s.
Proof.
  intros HD Hsup. apply wp_bind. eapply wp_mono; [apply membershipChangedLocked_spec|]. intros [] s1 [Ht Hp].
  assert (core_ s1 = core_ s) as Ec by apply Ht.
  assert (DI (λ d _, d ∈ sups.*1) (λ _, False) (λ _, True) (λ _ _, False) true s1) as HD1.
  { eapply DI_published; [exact Ht|by rewrite Ec|exact HD]. }
  apply wp_bind. eapply wp_mono; [apply (wp_forM _ (λ (rest : list (N * N)) s', rest ⊆ sups ∧
    DI (λ d _, d ∈ rest.*1) (λ _, False) (λ _, True) (λ _ _, False) true s' ∧ calm s s' ∧ core_ s' = core_ s))|].
  - split_and!; [done|done|by apply calm_tables|done].
  - intros [d loser] rest s' (Hsub & HD' & Hcalm & Hc). destruct (Hsup (d, loser)) as (e & He & Hn & Hl); [apply Hsub; left|].
    simpl in *. assert (∃ wkr, loser ≠ noWorker → workers (core_ s') !! loser = Some wkr) as [wkr Hwkr].
    { rewrite Hc. destruct (decide (loser = noWorker)) as [->|Hne]; [by exists (new_worker EmptyString)|].
      destruct (Hl Hne) as [wkr Hw]. by exists wkr. }
    eapply wp_mono; [eapply supersede_spec; [exact HD'|by rewrite Hc|done|exact Hwkr]|].
    intros [] s2 (HD2 & Hcalm2 & Hc2). split_and!; [intros x ?; apply Hsub; by right|done|by etrans|congruence].
  - intros [] s2 (_ & HD2 & Hcalm2 & Hc2). eapply wp_mono; [by eapply placeability_calm|].
    intros [] s3 (HD3 & Hcalm3 & Hsz). split_and!; [|by etrans|by rewrite <- Hc2].
    eapply DI_weaken; [..|exact HD3]; try done. by intros d cid ?%not_elem_of_nil.
Qed.

(** The session is open and has only ever spoken for this address. *)
Definition speaks (sid : N) (addr : string) (s : dispatcher) : Prop :=
  ∃ ses, sessions s !! sid = Some ses ∧ Session.detached ses = false ∧
    ∀ w, Session.id ses = Some w → Worker.addr <$> workers (core_ s) !! w = Some addr.

(** There is room for the address. *)
Definition can_register (addr : string) (c : core) : Prop :=
  (∃ w, Worker.addr <$> workers c !! w = Some addr) ∨ (vlen (workers c) < noWorker)%N.

Lemma speaks_calm sid addr s s' : calm s s' → speaks sid addr s → speaks sid addr s'.
Proof.
  intros Hcalm (ses & Hs & Hdet & Hid). pose proof (calm_ids _ _ Hcalm sid) as Hi. unfold session_ids in Hi. rewrite Hs in Hi.
  destruct (sessions s' !! sid) as [ses'|] eqn:E; [|done]. injection Hi as Ei Ed. exists ses'. split_and!; [done|congruence|].
  intros w Hw. rewrite (calm_addr _ _ Hcalm). apply Hid. congruence.
Qed.

Lemma can_register_calm addr s s' : calm s s' → can_register addr (core_ s) → can_register addr (core_ s').
Proof.
  intros Hcalm. pose proof (calm_addr _ _ Hcalm) as Ha. assert (vlen (workers (core_ s')) = vlen (workers (core_ s))) as Hl.
  { assert (∀ w, is_Some (workers (core_ s') !! w) ↔ is_Some (workers (core_ s) !! w)) as Hs.
    { intros w. specialize (Ha w). destruct (workers (core_ s') !! w), (workers (core_ s) !! w); naive_solver. }
    setoid_rewrite vlookup_lt in Hs. pose proof (Hs (vlen (workers (core_ s)))). pose proof (Hs (vlen (workers (core_ s')))). lia. }
  intros [[w Hw]|?]; [left; exists w; by rewrite Ha|right; by rewrite Hl].
Qed.

(** An older session is forgotten. *)
Lemma replace_session_spec sid wid s :
  settled s →
  wp (replace_session sid wid) (λ _ s', ∃ m dfr, s' = with_deferred dfr (with_sessions m s) ∧ m !! sid = sessions s !! sid ∧
    (sess s !! wid = None → m = sessions s) ∧
    ∀ sid', sid' ≠ sid → m !! sid' = sessions s !! sid' ∨
      (sess s !! wid = Some sid' ∧ m !! sid' = Session.with_id None <$> sessions s !! sid')) s.
Proof.
  intros HD. unfold replace_session. wp_steps.
  destruct (sess s !! wid) as [old|] eqn:E.
  2:{ wp_steps. exists (sessions s), (deferred s). split_and!; [by destruct s|done|done|]. by left. }
  destruct (decide (old = sid)) as [->|Hne].
  { wp_steps. exists (sessions s), (deferred s). split_and!; [by destruct s|done|done|]. by left. }
  destruct (di_sess _ _ _ _ _ _ _ _ HD wid old E) as (ses & Hs & _). unfold upd_session, afterUnlock. wp_steps.
  eexists _, _. split_and!; [done|by rewrite lookup_insert_ne|done|]. intros sid' Hsid. destruct (decide (sid' = old)) as [->|?].
  - right. by rewrite lookup_insert_eq, Hs.
  - left. by rewrite lookup_insert_ne.
Qed.

(** The worker the core registers is the one the address stands for. *)
Lemma hello_wid info c c' wid r wkr :
  inv c' → workers c !! wid = Some wkr → Worker.addr wkr = hi_addr info → registered r info c' →
  (∀ w, w ≠ r → profile (workers c') w = profile (workers c) w) → r = wid.
Proof.
  intros HI Hw Ha (wkr' & Hw' & Ha' & _) Hp. destruct (decide (r = wid)) as [|Hne]; [done|].
  specialize (Hp wid ltac:(done)). unfold profile in Hp. rewrite Hw in Hp.
  destruct (workers c' !! wid) as [x|] eqn:E; [|done]. injection Hp as Ex _ _ _ _ _.
  pose proof (proj2 (wk_ids _ _ _ (inv_workers _ _ _ _ HI) (hi_addr info) r) (ex_intro _ wkr' (conj Hw' Ha'))).
  pose proof (proj2 (wk_ids _ _ _ (inv_workers _ _ _ _ HI) (hi_addr info) wid) (ex_intro _ x (conj E (eq_trans Ex Ha)))).
  congruence.
Qed.

(** What a message of a session leaves behind; [n] bounds the new entries. *)
Record heard_ok (sid : N) (addr : string) (n : nat) (s s' : dispatcher) : Prop := {
  ho_settled : settled s';
  ho_frame : frame s s';
  ho_speaks : speaks sid addr s';
  ho_register : can_register addr (core_ s');
  ho_size : (base.size (drvIds (core_ s')) ≤ base.size (drvIds (core_ s)) + n)%nat;
}.

(** A worker registers. *)
Lemma hello_enter_spec sid wid info ses wkr s :
  settled s → sessions s !! sid = Some ses → Session.detached ses = false → (∀ w, Session.id ses = Some w → w = wid) →
  workers (core_ s) !! wid = Some wkr → Worker.addr wkr = hi_addr info → hi_addr info ≠ EmptyString →
  hi_running info ⊆ default [] (hd !! sid) → (N.of_nat (base.size (drvIds (core_ s)) + length (hi_running info)) ≤ maxEntries)%N →
  wp (replace_session sid wid;;
      res ← on_core (hello info);
      let '(wid, superseded) := res in
      upd_session sid (Session.with_id (Some wid));;
      modify (λ s, with_sess (<[wid := sid]> (sess s)) s);;
      membershipChangedLocked;;
      forM_ superseded (λ sup, supersede sup.1 sup.2);;
      placeabilityChangedLocked)
    (λ _ s', heard_ok sid (hi_addr info) (length (hi_running info)) s s') s.
Proof.
  intros HD Hs Hdet Hid Hw Ha Hne Hrun Hsz. pose proof (di_core _ _ _ _ _ _ _ _ HD) as HI. apply wp_bind.
  eapply wp_mono; [by apply replace_session_spec|]. intros [] s1 (m & dfr & -> & Hm1 & _ & Hm2). apply wp_bind.
  eapply on_core_spec; [apply keeps_hello|apply hello_spec; [done|]|].
  { split_and!; [done| |done]. left. exists wid. apply (wk_ids _ _ _ (inv_workers _ _ _ _ HI)). by exists wkr. }
  cbn [core_ with_deferred with_sessions]. intros [r sups] c2 (HI2 & _ & Hreg & _ & Hprof & Hsz2 & Hmv) Hgr. cbn [fst snd] in *.
  pose proof (hello_wid info (core_ s) c2 wid r wkr HI2 Hw Ha Hreg Hprof) as ->. destruct Hreg as (wkr2 & Hw2 & Ha2 & Hup2 & _).
  rewrite Hs in Hm1. apply wp_bind. unfold upd_session. apply wp_bind, wp_get, wp_bind. eapply wp_expect; [exact Hm1|].
  apply wp_modify, wp_bind, wp_modify. set (s2 := with_sess _ _).
  set (m2 := <[sid := Session.with_id (Some wid) ses]> m) in *.
  assert (handed sid wid (sess s) (sessions s) m2) as Hh.
  { split; [exists ses; split; [done|apply lookup_insert_eq]|]. intros sid' Hsid. subst m2. rewrite lookup_insert_ne by done. by apply Hm2. }
  assert (DI (λ d _, d ∈ sups.*1) (λ _, False) (λ _, True) (λ _ _, False) false s2) as HD2.
  { eapply DI_ext; [..|eapply (DI_hello sid wid ses wkr2 (hi_running info) sups c2 m2 s); try done]; try done. by rewrite Ha2. }
  assert (speaks sid (hi_addr info) s2) as Hsp.
  { eexists. split_and!; [apply lookup_insert_eq|done|]. intros w [= <-]. simpl. by rewrite Hw2, <- Ha2. }
  assert (can_register (hi_addr info) c2) as Hcan by (left; exists wid; by rewrite Hw2, <- Ha2).
  eapply wp_mono; [apply hello_tell_spec; [exact HD2|]|].
  - intros [d loser] Hp. destruct Hmv as [_ Hmv]. destruct (Hmv _ Hp) as (e & e' & He & Hsup & He' & Hwe). exists e'. split_and!; [done| |].
    + rewrite Hwe. pose proof (WorkersOk_lt _ _ _ _ _ (inv_workers _ _ _ _ HI2) Hw2). lia.
    + intros Hpn. simpl in Hsup. case_decide as Hd; [|done]. injection Hsup as <-. destruct Hd as [Hew _]. simpl in He, Hpn |- *.
      apply bind_Some in He as (e0 & He0 & Hg). unfold gone_entry in Hg. repeat case_decide; [done|by simplify_eq/=|]. injection Hg as <-.
      destruct (placed_worker _ _ e0 HI He0 Hpn) as (x & Hx & _). specialize (Hprof _ Hew). unfold profile in Hprof.
      rewrite Hx in Hprof. by destruct (workers c2 !! Entry.worker e0).
  - intros [] s3 (HD3 & Hcalm & Hsz3). split; [done| |by eapply speaks_calm|exact (can_register_calm _ _ _ Hcalm Hcan)|simpl in *; lia].
    etrans; [|by apply calm_frame]. split; [done| |done]. simpl. intros sid' [ses' Hs'].
    destruct (handed_back _ _ _ _ _ _ _ Hh Hs') as (ses1 & ? & _). by eexists.
Qed.

Lemma onHello_spec sid addr systems features max_jobs running s :
  settled s → speaks sid addr s → can_register addr (core_ s) → running ⊆ default [] (hd !! sid) →
  (N.of_nat (base.size (drvIds (core_ s)) + length running) ≤ maxEntries)%N →
  wpe (onHello defaultSystem sid addr systems features max_jobs running)
    (λ _ s', heard_ok sid addr (length running) s s') (λ s', settled s' ∧ frame s s') s.
Proof.
  intros HD (ses & Hs & Hdet & Hid) Hcan Hrun Hsz. pose proof (di_core _ _ _ _ _ _ _ _ HD) as HI. unfold onHello. apply wpe_bind.
  case_bool_decide; [by apply wpe_throw|]. apply wpe_ret, wpe_bind.
  eapply wpe_mono; [apply (wpe_forM _ (λ s', s' = s) (λ s', s' = s)); [done|]| |by intros s' ->].
  { intros name s' _ ->. destruct (maxSystemLen <? _); [by apply wpe_throw|by apply wpe_ret]. }
  intros [] s' ->. apply wpe_bind, wpe_wp. eapply on_core_spec; [apply keeps_workerId|eapply wp_keeps; [apply workerId_adds|apply workerId_spec; [done|]]|].
  { destruct Hcan as [[w (wkr & Hw & Ha)%fmap_Some]|?]; [left|by right]. exists w. apply (wk_ids _ _ _ (inv_workers _ _ _ _ HI)). by exists wkr. }
  intros wid c1 [(HI1 & (wkr & Hw & Ha) & Hold & _ & He & _ & Hk) Hadd] Hgr.
  pose proof (DI_new_worker addr s c1 HD HI1 Hgr Hadd He) as HD1. set (info := mkHelloInfo _ _ _ _ _).
  assert (frame s (with_core c1 s)) as Hfr by done. destruct (decide (addr = EmptyString)) as [->|Hne].
  - assert (sess s !! wid = None) as Hnone.
    { apply eq_None_not_Some. intros [sid' Hw']. destruct (di_up _ _ _ _ _ _ _ _ HD1 wid wkr Hw) as [_ Hup].
      by apply (di_addr _ _ _ _ _ _ _ _ HD1 wid wkr Hw (Hup ltac:(eexists; exact Hw'))). }
    apply wpe_bind, wpe_wp. eapply wp_mono; [by apply replace_session_spec|]. intros [] s2 (m & dfr & -> & _ & Hm & _).
    rewrite (Hm Hnone). unfold wpe, on_core, mbind, M_bind, zoom. rewrite hello_no_addr by done.
    split; [|done]. by eapply DI_ext; [..|exact HD1].
  - apply wpe_wp. eapply wp_mono.
    + eapply (hello_enter_spec sid wid info ses wkr); [exact HD1|done..| |exact Hw|done|done|done|simpl; by rewrite Hk].
      intros w Hw'. specialize (Hid w Hw'). apply fmap_Some in Hid as (wkr' & Hw2 & Ha2). simpl in *. apply Hold in Hw2.
      pose proof (proj2 (wk_ids _ _ _ (inv_workers _ _ _ _ HI1) addr w) (ex_intro _ wkr' (conj Hw2 (eq_sym Ha2)))).
      pose proof (proj2 (wk_ids _ _ _ (inv_workers _ _ _ _ HI1) addr wid) (ex_intro _ wkr (conj Hw Ha))). congruence.
    + intros [] s' [? ? ? ? Hsz']. split; [done|by etrans|done|done|]. simpl in *. by rewrite <- Hk.
Qed.

(** ** Done and Load *)

(** Entries leave their worker. *)
Lemma DI_released F' s c1 :
  settled s → inv c1 → grows (core_ s) c1 → same_but_running (workers (core_ s)) (workers c1) →
  (∀ d e', lk (entries c1) d = Some e' → lk (entries (core_ s)) d = Some e' ∨
     F' d ∧ Entry.worker e' = noWorker ∧ ∃ e, lk (entries (core_ s)) d = Some e ∧ Entry.drvPath e = Entry.drvPath e' ∧
       Entry.followers e = Entry.followers e' ∧ Entry.unplaceable e = Entry.unplaceable e') →
  DI (λ _ _, False) (λ _, False) F' (λ _ _, False) true (with_core c1 s).
Proof.
  intros HD HI1 Hgr Hrun Hback. eapply DI_core; [exact HD|done|done|by apply same_but_running_ids|..].
  - intros d e' cid [?|(_ & _ & e & He & _ & <- & _)]%Hback Hin; by eapply (di_followers _ _ _ _ _ _ _ _ HD).
  - intros d e' [Hd|(_ & ? & _)]%Hback Hn; [|done]. left. exists e'. split_and!; [done..|]. intros cid ? _. split; [done|by intros []].
  - intros d e' [Hd|(HF & _)]%Hback Hn HnF; [|done]. rewrite (di_flags _ _ _ _ _ _ _ _ HD d e') by (done || by intros []).
    f_equal. symmetry. by apply placeable_same.
  - intros d e' cid [Hd|(_ & _ & e & He & Ep & Ef & Eu)]%Hback Hu Hin _.
    + exists e'. split_and!; [done..|by intros []].
    + exists e. rewrite Ep, Ef, Eu. split_and!; [done..|by intros []].
  - intros _. split; [done|by apply members_same].
Qed.

Lemma calm_core c1 s : grows (core_ s) c1 → ids_same (workers (core_ s)) (workers c1) → calm s (with_core c1 s).
Proof.
  intros Hg Hids. split; try done. intros w. specialize (Hids w). simpl.
  destruct (workers c1 !! w), (workers (core_ s) !! w); try done. simpl in *. by injection Hids as ->.
Qed.

Lemma unrun_same w d wkr c c' :
  workers c !! w = Some wkr → workers c' = workers (unrun w d wkr c) → same_but_running (workers c) (workers c').
Proof.
  intros Hw ->. intros w'. simpl. rewrite profile_insert by (by eapply vlookup_lt_Some). case_decide; [|done]. subst.
  unfold profile. by rewrite Hw.
Qed.
End Workers.
