(* ===== verification/DispatcherSessions.v ===== *)
(** * The sessions of workers keep the dispatcher's invariant *)

From S2P Require Import Prelude Double PathKey Heap Free Sched SchedInv SchedOps SchedHello SchedDispatch SchedPlace SchedTheorems.
From S2P Require Import SchedFrame Reactor Dispatcher DispatcherInv DispatcherOps DispatcherDispatch DispatcherClients DispatcherConn.
From S2P Require Import DispatcherWorkers.

Section Sessions.
Context (cf : Config.t) (hd : gmap N (list (string * N))) (clock : nat → double) (ord : nat → map_order) (defaultSystem : string).
Abbreviation DI := (DI cf hd).
Abbreviation settled := (DI (λ _ _, False) (λ _, False) (λ _, False) (λ _ _, False) true).

(** What a message that is no Hello leaves behind. *)
Definition quiet (s s' : dispatcher) : Prop :=
  settled s' ∧ calm s s' ∧ (base.size (drvIds (core_ s')) ≤ base.size (drvIds (core_ s)))%nat.

Lemma fewer_entries s s' :
  settled s → settled s' → (∀ d, is_Some (lk (entries (core_ s')) d) → is_Some (lk (entries (core_ s)) d)) →
  (base.size (drvIds (core_ s')) ≤ base.size (drvIds (core_ s)))%nat.
Proof.
  intros HD HD' H. eapply Tables_size_le; [apply (di_core _ _ _ _ _ _ _ _ HD)|apply (di_core _ _ _ _ _ _ _ _ HD')|done].
Qed.

Lemma done_quiet wid path outs wkr s :
  settled s → workers (core_ s) !! wid = Some wkr → wp (on_core (done wid path outs)) (λ _ s', quiet s s') s.
Proof.
  intros HD Hw. pose proof (di_core _ _ _ _ _ _ _ _ HD) as HI.
  eapply on_core_spec; [apply keeps_done|by eapply done_spec|]. intros [] c1 (HI1 & _ & Hfind) Hgr.
  assert (same_but_running (workers (core_ s)) (workers c1) ∧
    ∀ d e', lk (entries c1) d = Some e' → lk (entries (core_ s)) d = Some e') as [Hrun Hback].
  { destruct (findDrv path (core_ s)) as [d|]; destruct Hfind as [Hwk He].
    - split; [by eapply unrun_same|]. intros d' e'. rewrite He. case_decide; [subst|done].
      intros (e & ? & Hd)%bind_Some. unfold done_entry in Hd. case_decide; by simplify_eq.
    - split; [rewrite Hwk; by intros w|]. by rewrite He. }
  assert (settled (with_core c1 s)) as HD1 by (apply DI_released; auto).
  split_and!; [done|apply calm_core; [done|by apply same_but_running_ids]|]. apply fewer_entries; [done..|].
  intros d [e' He']. exists e'. by apply Hback.
Qed.

Lemma given_back_quiet wid path wkr s :
  settled s → workers (core_ s) !! wid = Some wkr →
  wp (on_core (giveBack wid path);; placeabilityChangedLocked) (λ _ s', quiet s s') s.
Proof.
  intros HD Hw. pose proof (di_core _ _ _ _ _ _ _ _ HD) as HI. apply wp_bind.
  eapply on_core_spec; [apply keeps_giveBack|by eapply giveBack_spec|]. intros [] c1 (HI1 & _ & Hfind) Hgr.
  assert (same_but_running (workers (core_ s)) (workers c1) ∧
    ∀ d e', lk (entries c1) d = Some e' → lk (entries (core_ s)) d = Some e' ∨
     True ∧ Entry.worker e' = noWorker ∧ ∃ e, lk (entries (core_ s)) d = Some e ∧ Entry.drvPath e = Entry.drvPath e' ∧
       Entry.followers e = Entry.followers e' ∧ Entry.unplaceable e = Entry.unplaceable e') as [Hrun Hback].
  { destruct (findDrv path (core_ s)) as [d|]; [destruct Hfind as [Hwk He]|subst c1].
    - split; [by eapply unrun_same|]. intros d' e'. rewrite He. case_decide; [subst|by left].
      intros (e & ? & Hd)%bind_Some. unfold give_back_entry in Hd. repeat case_decide; simplify_eq/=; [right|by left].
      split_and!; [done..|by exists e].
    - split; [by intros w|by left]. }
  pose proof (DI_released _ _ (λ _, True) s c1 HD HI1 Hgr Hrun Hback) as HD1.
  eapply wp_mono; [by eapply placeability_calm|]. intros [] s' (HD' & Hcalm & Hsz). split_and!; [done| |].
  - etrans; [apply calm_core; [done|by apply same_but_running_ids]|exact Hcalm].
  - etrans; [exact Hsz|]. eapply Tables_size_le; [apply HI|apply HI1|]. intros d [e' [He'|(_ & _ & e & ? & _)]%Hback]; by eexists.
Qed.

Lemma onDone_spec wid path outcome outs wkr s :
  settled s → workers (core_ s) !! wid = Some wkr → wp (onDone wid path outcome outs) (λ _ s', quiet s s') s.
Proof.
  intros HD Hw. unfold onDone. destruct outcome; [by eapply done_quiet|by eapply done_quiet|by eapply done_quiet|..];
    by eapply given_back_quiet.
Qed.

(** A worker starts or stops to drain. *)
Lemma load_quiet wid b wkr s :
  settled s → workers (core_ s) !! wid = Some wkr →
  wp (on_core (setDraining wid b);; membershipChangedLocked;; placeabilityChangedLocked) (λ _ s', quiet s s') s.
Proof.
  intros HD Hw. pose proof (di_core _ _ _ _ _ _ _ _ HD) as HI. apply wp_bind.
  eapply on_core_spec; [apply keeps_setDraining|by eapply setDraining_spec|]. intros [] c1 (HI1 & He & Hwk) Hgr.
  assert (ids_same (workers (core_ s)) (workers c1)) as Hids by (rewrite Hwk; by eapply ids_same_insert).
  assert (DI (λ _ _, False) (λ _, False) (λ _, True) (λ _ _, False) false (with_core c1 s)) as HD1.
  { eapply DI_core; [exact HD|done|done|done|..]; rewrite ?He; try done.
    - by apply (di_followers _ _ _ _ _ _ _ _ HD).
    - intros d e' Hd Hn. left. exists e'. split_and!; [done..|]. by intros cid ? ?.
    - intros d e' cid Hd Hu Hin _. exists e'. split_and!; [done..|by intros []]. }
  apply wp_bind. eapply wp_mono; [apply membershipChangedLocked_spec|]. intros [] s1 [Ht Hp].
  assert (core_ s1 = c1) as Ec by apply Ht. pose proof (calm_tables _ _ Ht) as Hcalm1.
  apply (DI_published _ _ _ _ _ _ _ _ _ Ht) in HD1; [|by rewrite Ec].
  eapply wp_mono; [by eapply placeability_calm|]. intros [] s' (HD' & Hcalm & Hsz). split_and!; [done| |].
  - etrans; [by apply calm_core|]. by etrans.
  - etrans; [exact Hsz|]. rewrite Ec. eapply Tables_size_le; [apply HI|apply HI1|]. by rewrite He.
Qed.

Lemma heard_quiet sid addr n s s' :
  speaks sid addr s → can_register addr (core_ s) → quiet s s' → heard_ok cf hd sid addr n s s'.
Proof.
  intros Hsp Hcan (HD & Hcalm & Hsz). split; [done|by apply calm_frame|by eapply speaks_calm|by eapply can_register_calm|lia].
Qed.

(** A Hello is for this address. *)
Definition names (addr : string) (msg : WorkerMsg) : Prop := match msg with MHello a _ _ _ _ => a = addr | _ => True end.

Lemma workerMsgLocked_spec sid addr msg s :
  settled s → speaks sid addr s → can_register addr (core_ s) → names addr msg → reports msg ⊆ default [] (hd !! sid) →
  (N.of_nat (base.size (drvIds (core_ s)) + length (reports msg)) ≤ maxEntries)%N →
  wpe (workerMsgLocked defaultSystem sid msg) (λ _ s', heard_ok cf hd sid addr (length (reports msg)) s s')
    (λ s', settled s' ∧ frame s s') s.
Proof.
  intros HD Hsp Hcan Hna Hrep Hsz. pose proof Hsp as (ses & Hs & Hdet & Hid). unfold workerMsgLocked.
  apply wpe_bind, wpe_wp. wp_steps. apply wpe_bind, wpe_wp. wp_steps.
  destruct msg as [a systems features jobs running|path outcome outs|b|]; simpl in *.
  1:{ subst a. by apply onHello_spec. }
  all: destruct (Session.id ses) as [wid|] eqn:Ei; [|by apply wpe_throw].
  all: destruct (proj1 (fmap_Some _ _ _) (Hid wid eq_refl)) as (wkr & Hw & _); apply wpe_wp.
  - eapply wp_mono; [by eapply onDone_spec|]. intros [] s' ?. by apply heard_quiet.
  - eapply wp_mono; [by eapply load_quiet|]. intros [] s' ?. by apply heard_quiet.
  - wp_steps. by apply heard_quiet.
Qed.

(** The end of a batch. *)
Lemma dispatch_settled s : settled s → wp (dispatchLocked clock ord) (λ _ s', settled s' ∧ calm s s') s.
Proof.
  intros HD. eapply wp_mono; [by eapply dispatchLocked_spec|]. intros [] s' (told & HD' & Hcalm & _). split; [|done].
  eapply DI_weaken; [..|exact HD']; try done. by intros d cid [? _].
Qed.

Lemma workerMsgs_spec sid addr msgs s :
  settled s → speaks sid addr s → can_register addr (core_ s) → Forall (names addr) msgs →
  flat_map reports msgs ⊆ default [] (hd !! sid) →
  (N.of_nat (base.size (drvIds (core_ s)) + length (flat_map reports msgs)) ≤ maxEntries)%N →
  wpe (workerMsgs clock ord defaultSystem sid msgs) (λ _ s', settled s' ∧ frame s s') (λ s', settled s' ∧ frame s s') s.
Proof.
  intros HD Hsp Hcan Hna Hrep Hsz. unfold workerMsgs. destruct msgs as [|first msgs]; [by apply wpe_ret|].
  set (l := first :: msgs) in *. pose proof Hsp as (ses & Hs & Hdet & Hid).
  apply wpe_bind, wpe_wp. wp_steps. apply wpe_bind, wpe_wp. wp_steps. apply wpe_bind.
  assert (∀ Φ, Φ tt s → wpe (match Session.id ses with
    | None => if is_hello first then mret tt else throw (NixError "WorkerSession: first message must be Hello")
    | Some _ => mret tt end) Φ (λ s', settled s' ∧ frame s s') s) as Hfirst.
  { intros Φ HΦ. destruct (Session.id ses); [done|]. by destruct (is_hello first). }
  apply Hfirst, wpe_bind. eapply wpe_mono; [apply (wpe_forM_rest _ (λ rest s', settled s' ∧ frame s s' ∧ speaks sid addr s' ∧
    can_register addr (core_ s') ∧ Forall (names addr) rest ∧ flat_map reports rest ⊆ default [] (hd !! sid) ∧
    (N.of_nat (base.size (drvIds (core_ s')) + length (flat_map reports rest)) ≤ maxEntries)%N) (λ s', settled s' ∧ frame s s')); [by split_and!|]| |done].
  - intros msg rest s' (HD' & Hfr & Hsp' & Hcan' & [Hn Hna']%Forall_cons & Hrep' & Hsz'). simpl in *. rewrite length_app in Hsz'.
    eapply wpe_mono; [eapply (workerMsgLocked_spec sid addr msg); [done..|set_solver|lia]|..].
    + intros [] s2 [? ? ? ? Hsz2]. split_and!; [done|by etrans|done|done|done|set_solver|lia].
    + intros s2 [? ?]. split; [done|by etrans].
  - intros [] s1 (HD1 & Hfr1 & _). apply wpe_wp, wp_bind. eapply wp_mono; [by apply dispatch_settled|].
    intros [] s2 [HD2 Hcalm2]. eapply wp_mono; [apply exportStats_spec|]. intros [] s3 [Ht Hp]. split; [by eapply DI_tables|].
    etrans; [exact Hfr1|]. etrans; [by apply calm_frame|]. by apply calm_frame, calm_tables.
Qed.

(** ** The end of a session *)

Lemma frame_session sid ses o s :
  sessions s !! sid = Some ses → frame s (with_sessions (partial_alter (λ _, o) sid (sessions s)) s).
Proof.
  intros Hs. split; [done| |done]. intros sid'. simpl. destruct (decide (sid' = sid)) as [->|Hne]; [by rewrite Hs|].
  by rewrite lookup_partial_alter_ne.
Qed.

(** No worker has the session. *)
Definition idle (sid : N) (s : dispatcher) : Prop := is_Some (sessions s !! sid) ∧ ∀ w, sess s !! w ≠ Some sid.

Lemma upd_idle_spec sid f s :
  settled s → idle sid s →
  (∀ ses, Session.stream (f ses) = Session.stream ses ∧ (∀ w, Session.id (f ses) = Some w → Session.id ses = Some w) ∧
     (Session.detached ses = true → Session.detached (f ses) = true)) →
  wp (upd_session sid f) (λ _ s', settled s' ∧ frame s s' ∧ idle sid s') s.
Proof.
  intros HD [[ses Hs] Hidle] Hf. unfold upd_session. wp_steps. destruct (Hf ses) as (Es & Hid & Hd). split_and!.
  - apply (DI_idle_session _ _ sid ses (Some (f ses))); [done..|]. intros ses' [= <-]. rewrite Es.
    split_and!; [by apply (di_sessions _ _ _ _ _ _ _ _ HD sid)|done|]. intros Hr.
    by apply Hd, (di_reads _ _ _ _ _ _ _ _ HD sid).
  - by eapply (frame_session sid ses (Some (f ses))).
  - split; [|done]. simpl. rewrite lookup_insert_eq. by eexists.
Qed.

(** The worker is taken down and its work placed elsewhere. *)
Lemma gone_dispatched_spec wid wkr (k : D ()) (Φ : () → dispatcher → Prop) s :
  settled s → workers (core_ s) !! wid = Some wkr →
  (∀ s', settled s' → calm s s' → sess s' ⊆ delete wid (sess s) → wp k Φ s') →
  wp (on_core (Sched.workerGone wid);;
      modify (λ s, with_sess (delete wid (sess s)) s);;
      membershipChangedLocked;; dispatchLocked clock ord;; placeabilityChangedLocked;; exportStats clock false;; k) Φ s.
Proof.
  intros HD Hw Hk. pose proof (di_core _ _ _ _ _ _ _ _ HD) as HI. apply wp_bind.
  eapply on_core_spec; [apply keeps_workerGone|by eapply workerGone_spec|]. intros [] c1 (HI1 & _ & Hwk & Hlk) Hgr.
  apply wp_bind, wp_modify. pose proof (DI_worker_gone _ _ _ _ _ _ _ _ _ _ _ HD HI1 Hgr Hw Hwk Hlk) as HD1.
  set (s0 := with_sess _ _). change (DI (λ _ _, False) (λ _, False) (λ _, True) (λ _ _, False) false s0) in HD1.
  assert (calm s s0) as Hcalm0.
  { split; simpl; try done; [apply delete_subseteq|]. intros w. rewrite Hwk. destruct (decide (w = wid)) as [->|Hne].
    - by rewrite vlookup_insert_eq, Hw by (by eapply vlookup_lt_Some).
    - by rewrite vlookup_insert_ne. }
  apply wp_bind. eapply wp_mono; [apply membershipChangedLocked_spec|]. intros [] s1 [Ht Hp].
  assert (core_ s1 = core_ s0) as Ec by apply Ht. apply (DI_published _ _ _ _ _ _ _ _ _ Ht) in HD1; [|by rewrite Ec].
  apply wp_bind. eapply wp_mono; [by eapply dispatchLocked_spec|]. intros [] s2 (told & HD2 & Hcalm2 & _).
  apply wp_bind. eapply wp_mono; [by eapply placeability_calm|]. intros [] s3 (HD3 & Hcalm3 & _).
  apply wp_bind. eapply wp_mono; [apply exportStats_spec|]. intros [] s4 [Ht4 Hp4].
  assert (calm s0 s4) as Hcalm4.
  { etrans; [by apply calm_tables|]. etrans; [exact Hcalm2|]. etrans; [exact Hcalm3|]. by apply calm_tables. }
  apply Hk; [|by etrans|apply (calm_sess _ _ Hcalm4)]. eapply DI_tables; [exact Ht4|exact Hp4|].
  eapply DI_weaken; [..|exact HD3]; try done. by intros d cid [? _].
Qed.

Lemma workerGone_inv_spec sid ses s :
  settled s → sessions s !! sid = Some ses →
  wp (workerGone clock ord sid) (λ _ s', settled s' ∧ frame s s' ∧ idle sid s') s.
Proof.
  intros HD Hs. unfold workerGone. wp_steps. assert (∀ w, sess s !! w = Some sid → Session.id ses = Some w) as Hown.
  { intros w (ses' & Hs' & Hid & _)%(di_sess _ _ _ _ _ _ _ _ HD). by simplify_eq. }
  destruct (Session.id ses) as [wid|] eqn:Ei.
  2:{ wp_steps. split; [done|]. split; [done|]. split; [by eexists|]. by intros w Hw%Hown. }
  destruct (di_sessions _ _ _ _ _ _ _ _ HD sid ses Hs) as [_ Hlt]. destruct (proj2 (vlookup_lt _ _) (Hlt wid Ei)) as [wkr Hw].
  apply wp_bind. eapply wp_worker_of; [exact Hw|].
  eapply gone_dispatched_spec; [exact HD|exact Hw|]. intros s' HD' Hcalm Hsub.
  eapply wp_mono; [eapply (upd_idle_spec sid); [exact HD'| |done]|].
  - split.
    + pose proof (calm_ids _ _ Hcalm sid) as Hi. unfold session_ids in Hi. rewrite Hs in Hi. by destruct (sessions s' !! sid).
    + intros w Hw'. pose proof (lookup_weaken _ _ _ _ Hw' Hsub) as [Hne Hw2]%lookup_delete_Some. apply Hown in Hw2. congruence.
  - intros [] s2 (HD2 & Hfr2 & Hidle). split_and!; [done|etrans; [by apply calm_frame|done]|done].
Qed.

(** ** Its stream *)

Lemma frame_stream sid ses r s :
  sessions s !! sid = Some ses → frame s (with_sessions (<[sid := Session.with_stream r ses]> (sessions s)) s).
Proof. apply (frame_session sid ses (Some (Session.with_stream r ses))). Qed.

Lemma session_event_spec sid ses ev s :
  settled s → sessions s !! sid = Some ses → Reactor.enabled ev (Session.stream ses) →
  (ev = Reactor.Check Reactor.OfKick → Reactor.deleted (Session.stream ses) = false) → not_send ev →
  (ev = Reactor.Finish → Session.detached ses = true) →
  wp (session_event sid ev) (λ _ s', settled s' ∧ frame s s') s.
Proof.
  intros HD Hs He Hk Hns Hfin. destruct (di_sessions _ _ _ _ _ _ _ _ HD sid ses Hs) as [HH _]. unfold session_event.
  apply wp_bind, wp_get, wp_bind. eapply wp_expect; [done|]. apply wp_bind, wp_zoom.
  eapply wp_mono; [by apply stream_event_spec|]. intros [] r (HH' & Ha & Hc & Hr).
  assert (settled (with_sessions (<[sid := Session.with_stream r ses]> (sessions s)) s)) as HD1.
  { eapply DI_session; [exact HD|done|done| |by rewrite Ha|by left].
    destruct ev; try (left; by apply Hr). right. by apply Hfin. }
  pose proof (frame_stream sid ses r s Hs) as Hfr. destruct ev; wp_steps; try done.
  destruct He as (Hf & _). destruct (Reactor.h_finished _ HH Hf) as [Hrd _]. pose proof (di_reads _ _ _ _ _ _ _ _ HD sid ses Hs Hrd) as Hdet.
  split.
  - apply (DI_idle_session _ _ sid (Session.with_stream r ses) None); [done|apply lookup_insert_eq| |done].
    intros w (ses' & Hs' & _ & Hdet')%(di_sess _ _ _ _ _ _ _ _ HD). simplify_eq. congruence.
  - etrans; [exact Hfr|]. eapply (frame_session sid _ None). apply lookup_insert_eq.
Qed.

(** The end of a replaced session's stream is asked for. *)
Lemma run_action_spec a s :
  settled s → (∀ sid, a = Abort sid → is_Some (sessions s !! sid)) → wp (run_action a) (λ _ s', settled s' ∧ frame s s') s.
Proof.
  intros HD Ha. destruct a as [w|sid]; simpl; [by wp_steps|]. destruct (Ha sid eq_refl) as [ses Hs].
  destruct (di_sessions _ _ _ _ _ _ _ _ HD sid ses Hs) as [HH _]. unfold upd_session. wp_steps. split; [|by apply frame_stream].
  eapply DI_session; [exact HD|done| |by left|done|by left]. by destruct HH.
Qed.
End Sessions.
