(* ===== verification/DispatcherSystem.v ===== *)
(** * The daemon's threads keep the dispatcher's invariant

    Every section of a thread, in any interleaving, from any reachable state. *)

From S2P Require Import Prelude Double PathKey Heap Free Sched SchedInv SchedOps SchedHello SchedDispatch SchedPlace SchedTheorems.
From S2P Require Import SchedFrame Reactor Dispatcher DispatcherInv DispatcherOps DispatcherDispatch DispatcherClients DispatcherConn.
From S2P Require Import DispatcherWorkers DispatcherSessions.

(** ** What the threads and gRPC may do

    A client or session is used while its object exists; a stream moves as
    [Reactor.enabled] says, sends apart, which only the dispatcher does; a session is
    finished after [workerGone] has returned, as [finish] calls it first, and says
    nothing any more then.  Two threads go on to use a session or a client's reactor which they no longer hold: the
    look of a kick's thread, also after its reactor is deleted, and a deferred abort. *)
Definition stream_possible {Msg} (ev : Reactor.event Msg) (r : Reactor.t Msg) : Prop := Reactor.enabled ev r ∧ not_send ev.

Definition possible (sec : section) (s : system) : Prop :=
  match sec with
  | SConnect => (nextClient (disp s) + 1 < 2 ^ 64)%N
  | SClientBatch cid _ _ | SClientGone cid => is_Some (objs (disp s) !! cid)
  | SClientStream cid ev => ∃ obj, objs (disp s) !! cid = Some obj ∧ stream_possible ev (Client.stream obj)
  | SNewSession sid => heard s !! sid = None
  | SWorkerBatch sid _ => ∃ ses, sessions (disp s) !! sid = Some ses ∧ Session.detached ses = false
  | SWorkerGone sid => is_Some (sessions (disp s) !! sid)
  | SSessionStream sid ev =>
      match sessions (disp s) !! sid with
      | Some ses => stream_possible ev (Session.stream ses) ∧ (ev = Reactor.Finish → Session.detached ses = true)
      | None => is_Some (heard s !! sid) ∧ ev = Reactor.Check Reactor.OfKick
      end
  | _ => True
  end.

(** The two uses of an object that is gone (sched-reactor.hh, [writeNext] on the kick's thread; dispatcher.cc, [onHello]). *)
Definition raced (sec : section) (s : system) : Prop :=
  match sec with
  | SClientStream cid ev => ev = Reactor.Check Reactor.OfKick ∧
      ∃ obj, objs (disp s) !! cid = Some obj ∧ Reactor.deleted (Client.stream obj) = true
  | SSessionStream sid ev => ev = Reactor.Check Reactor.OfKick ∧
      ∀ ses, sessions (disp s) !! sid = Some ses → Reactor.deleted (Session.stream ses) = true
  | SAction i => ∃ sid, acting s !! i = Some (Abort sid) ∧ sessions (disp s) !! sid = None
  | _ => False
  end.

(** What the dispatcher takes for granted of a worker: its session speaks for one address, and the tables have room for the
    address and for what it reports to run. *)
Definition orderly (sec : section) (s : system) : Prop :=
  match sec with
  | SWorkerBatch sid msgs => ∃ addr, Forall (names addr) msgs ∧ can_register addr (core_ (disp s)) ∧
      (∀ ses w, sessions (disp s) !! sid = Some ses → Session.id ses = Some w → Worker.addr <$> workers (core_ (disp s)) !! w = Some addr) ∧
      (N.of_nat (base.size (drvIds (core_ (disp s))) + length (flat_map reports msgs)) ≤ maxEntries)%N
  | _ => True
  end.

Definition allowed (sec : section) (s : system) : Prop := possible sec s ∧ orderly sec s ∧ ¬ raced sec s.

Abbreviation settled_for cf hd := (DI cf hd (λ _ _, False) (λ _, False) (λ _, False) (λ _ _, False) true).

(** The two sections that may refuse what they were given: a batch of a worker, and a
    chunk that the reading thread itself applies. *)
Definition may_refuse (sec : section) (s : system) : Prop :=
  match sec with
  | SWorkerBatch _ _ => True
  | SChunk i => ∃ b, batches s !! i = Some b ∧ Batch.pooled b = false
  | _ => False
  end.

(** ** Between the sections *)
Record SI (cf : Config.t) (s : system) : Prop := {
  si_settled : settled_for cf (heard s) (disp s);
  si_batches : ∀ b, b ∈ batches s → is_Some (objs (disp s) !! Batch.client b);
  si_lookups : ∀ j, j ∈ lookupQueue (disp s) → is_Some (objs (disp s) !! j.1);
  si_heard : ∀ sid, is_Some (sessions (disp s) !! sid) → is_Some (heard s !! sid);
}.

(** What a worker has said stays said. *)
Lemma DI_heard cf hd hd' X K F G P s :
  (∀ sid, default [] (hd !! sid) ⊆ default [] (hd' !! sid)) → DI cf hd X K F G P s → DI cf hd' X K F G P s.
Proof.
  intros Hsub HD. destruct HD. split; try done. intros d e Hd Hn HK.
  destruct (di_known d e Hd Hn HK) as (sid & ses & ? & ? & [?|(p & Hp & ?)]); exists sid, ses; split_and!; try done; [by left|right].
  exists p. split; [by apply Hsub|done].
Qed.

(** The state after a hold of the mutex. *)
Definition after (d : dispatcher) (s : system) : system :=
  mkSystem (with_deferred [] d) (batches s) (acting s ++ deferred d) (heard s).

Lemma wpe_locked {A} (m : D A) (Φ : A → system → Prop) E s :
  wpe m (λ a d, Φ a (after d s)) (λ d, E (after d s)) (disp s) → wpe (locked m) Φ E s.
Proof. unfold wpe, locked. by destruct (m (disp s)) as [d [a|[| | |]]]. Qed.

Lemma SI_after cf d s : SI cf s → settled_for cf (heard s) d → frame (disp s) d → SI cf (after d s).
Proof.
  intros [HD Hb Hl Hh] HD' [Fo Fs Fl]. split; simpl.
  - by eapply DI_ext; [..|exact HD'].
  - intros b Hin. by apply Fo, Hb.
  - rewrite Fl. intros j Hin. by apply Fo, Hl.
  - intros sid Hs. by apply Hh, Fs.
Qed.

Lemma SI_batches cf bs s : SI cf s → (∀ b, b ∈ bs → is_Some (objs (disp s) !! Batch.client b)) → SI cf (with_batches bs s).
Proof. intros [] Hbs. by split. Qed.

(** A section that is one hold of the mutex and does not throw. *)
Lemma locked_spec {A} cf (m : D A) (Φ : A → system → Prop) E s :
  SI cf s → wp m (λ a d, settled_for cf (heard s) d ∧ frame (disp s) d ∧ (SI cf (after d s) → Φ a (after d s))) (disp s) →
  wpe (locked m) Φ E s.
Proof.
  intros HS Hm. apply wpe_locked, wpe_wp. eapply wp_mono; [exact Hm|]. intros a d (HD & Hfr & HΦ). apply HΦ. by apply SI_after.
Qed.

Lemma locked_unit_spec cf (m : D ()) E s :
  SI cf s → wp m (λ _ d, settled_for cf (heard s) d ∧ frame (disp s) d) (disp s) → wpe (locked m) (λ _, SI cf) E s.
Proof. intros HS Hm. apply (locked_spec cf); [done|]. eapply wp_mono; [exact Hm|]. by intros a d [? ?]. Qed.

(** ** Membership *)

(** What a worker adds to a system's members. *)
Definition member_of (system : string) (wkr : Worker.t) : list (string * bool) :=
  if Worker.up wkr then (λ _, (Worker.addr wkr, negb (Worker.takesWork wkr))) <$> filter (λ name, name = system) (Worker.systems wkr) else [].

Lemma add_member_lookup next wkr system :
  default [] (add_member next wkr !! system) = default [] (next !! system) ++ member_of system wkr.
Proof.
  unfold add_member, member_of. destruct (Worker.up wkr); simpl; [|by rewrite app_nil_r].
  generalize (Worker.systems wkr). intros l. revert next. induction l as [|name l IH]; intros next; [by rewrite app_nil_r|].
  simpl. rewrite IH, filter_cons. case_decide as E; [subst name|by rewrite lookup_insert_ne].
  rewrite lookup_insert_eq. simpl. by rewrite <- app_assoc.
Qed.

Lemma members_lookup wks system : default [] (members wks !! system) = flat_map (member_of system) wks.
Proof.
  unfold members. assert (∀ next, default [] (foldl add_member next wks !! system) =
    default [] (next !! system) ++ flat_map (member_of system) wks) as H; [|by rewrite H].
  induction wks as [|wkr wks IH]; intros next; simpl; [by rewrite app_nil_r|].
  by rewrite IH, add_member_lookup, <- app_assoc.
Qed.

Section System.
Context (cf : Config.t) (clock : nat → double) (ord : nat → map_order) (defaultSystem : string) (hasCache : bool) (lookupThreads : N).
Context (clock_ok : ∀ n, is_finite (dmul (Config.ageWeight cf) (clock n)) = true) (default_ok : defaultSystem ≠ EmptyString).
Abbreviation run_section := (run_section clock ord defaultSystem hasCache lookupThreads).

Lemma SI_initial : inv (Core cf) → SI cf (initial cf).
Proof.
  intros HI. split.
  - by split.
  - intros b Hb. by apply not_elem_of_nil in Hb.
  - intros j Hj. by apply not_elem_of_nil in Hj.
  - simpl. intros sid. rewrite lookup_empty. by intros [].
Qed.

(** A batch: left to the lookup threads, or cut into chunks. *)
Lemma client_batch_spec cid msgs answer E s :
  SI cf s → is_Some (objs (disp s) !! cid) → wpe (run_section (SClientBatch cid msgs answer)) (λ _, SI cf) E s.
Proof.
  intros HS Hcid. simpl. apply wpe_bind.
  assert (∀ d cs, objs d = objs (disp s) → settled_for cf (heard s) d → sessions d = sessions (disp s) →
    (∀ j, j ∈ lookupQueue d → is_Some (objs d !! j.1)) → SI cf (with_batches (batches s ++ [Batch.mk cid false cs]) (after d s))) as Hdone.
  { intros d cs Eo HD Es Hl. destruct HS as [_ Hb _ Hh]. split; simpl; [by eapply DI_ext; [..|exact HD]| |done|by rewrite Es].
    rewrite Eo. intros b [?| ->%list_elem_of_singleton]%elem_of_app; [by apply Hb|done]. }
  apply wpe_locked. unfold clientMsgs. destruct (_ && _).
  - apply wpe_wp. wp_steps. apply wpe_wp. wp_steps. apply (Hdone (with_lookupQueue _ (disp s))); [done| |done|].
    + eapply DI_ext; [..|apply HS]; done.
    + simpl. intros j [?| ->%list_elem_of_singleton]%elem_of_app; [by apply (si_lookups _ _ HS)|done].
  - apply wpe_wp. wp_steps. apply wpe_wp. wp_steps. apply Hdone; [done|apply HS|done|apply HS].
Qed.

Lemma lookup_spec answer E s : SI cf s → wpe (run_section (SLookup answer)) (λ _, SI cf) E s.
Proof.
  intros HS. simpl. apply wpe_bind, wpe_locked. unfold take_lookup. apply wpe_wp. wp_steps.
  destruct (lookupQueue (disp s)) as [|[cid msgs] rest] eqn:El; wp_steps; apply wpe_wp; wp_steps.
  - by apply SI_after; [|apply HS|].
  - destruct HS as [HD Hb Hl Hh]. rewrite El in Hl. split; simpl; [by eapply DI_ext; [..|exact HD]| | |done].
    + intros b [?| ->%list_elem_of_singleton]%elem_of_app; [by apply Hb|]. apply (Hl (cid, msgs)). by left.
    + intros j Hj. apply Hl. by right.
Qed.

(** A chunk; a batch that throws ends its client's stream, the daemon goes on. *)
Lemma chunk_spec i s :
  SI cf s → wpe (run_section (SChunk i)) (λ _, SI cf) (λ s', SI cf s' ∧ may_refuse (SChunk i) s) s.
Proof.
  intros HS. simpl. apply wpe_bind, wpe_wp. wp_steps. destruct (batches s !! i) as [b|] eqn:Eb; [|by apply wpe_ret].
  unfold run_chunk. destruct (Batch.todo b) as [|c todo]; [by apply wpe_ret|].
  destruct (si_batches _ _ HS b) as [obj Ho]; [by eapply list_elem_of_lookup_2|].
  pose proof (apply_chunk_spec _ _ clock ord defaultSystem clock_ok default_ok (Batch.client b) c obj (disp s) (si_settled _ _ HS) Ho) as Hrun.
  assert (∀ d todo', settled_for cf (heard s) d → calm (disp s) d →
    SI cf (with_batches (<[i := Batch.mk (Batch.client b) (Batch.pooled b) todo']> (batches (after d s))) (after d s))) as Hnext.
  { intros d todo' HD Hcalm. apply SI_batches; [apply SI_after; [done..|by apply calm_frame]|].
    intros b' [j [(_ & <- & _)|[_ Hj]]%list_lookup_insert_Some]%list_elem_of_lookup; apply (fr_objs _ _ (calm_frame _ _ Hcalm)).
    - by eexists.
    - apply (si_batches _ _ HS). by eapply list_elem_of_lookup_2. }
  unfold wpe, locked in *. destruct (apply_chunk _ _ _ _ _ (disp s)) as [d [[]|[|msg| |]]]; try done; destruct Hrun as [HD Hcalm].
  - by apply Hnext.
  - destruct (Batch.pooled b) eqn:Ep; [|split; [by apply Hnext|by exists b]].
    destruct (objs d !! Batch.client b) as [obj'|] eqn:Ho'.
    2:{ pose proof (calm_gone _ _ Hcalm (Batch.client b)) as Hg. by rewrite Ho, Ho' in Hg. }
    fold (after d s). set (s1 := with_batches _ _). assert (SI cf s1) as HS1 by (by apply Hnext).
    pose proof (locked_unit_spec cf (lookup_failed (Batch.client b))
      (λ s', SI cf s' ∧ ∃ b0, Some b = Some b0 ∧ Batch.pooled b0 = false) s1 HS1) as Hl. apply Hl.
    eapply wp_mono; [eapply lookup_failed_spec; [apply (si_settled _ _ HS1)|exact Ho']|].
    intros [] d' [? ?]. split; [done|by apply calm_frame].
Qed.

(** A new session has said nothing yet. *)
Lemma new_session_spec sid E s : SI cf s → heard s !! sid = None → wpe (run_section (SNewSession sid)) (λ _, SI cf) E s.
Proof.
  intros HS Hnew. simpl. apply wpe_bind, wpe_wp. wp_steps. apply wpe_locked, wpe_wp. unfold newSession. wp_steps.
  destruct HS as [HD Hb Hl Hh]. assert (sessions (disp s) !! sid = None) as Hno.
  { apply eq_None_not_Some. intros Hs%Hh. rewrite Hnew in Hs. by destruct Hs. }
  assert (settled_for cf (<[sid := []]> (heard s)) (disp s)) as HD1.
  { eapply DI_heard; [|exact HD]. intros sid'. destruct (decide (sid' = sid)) as [->|?]; [|by rewrite lookup_insert_ne]. rewrite Hnew. simpl. by intros x ?%not_elem_of_nil. }
  split; simpl; [by eapply DI_ext; [..|apply (DI_new_session _ _ sid _ HD1 Hno)]|done|done|].
  intros sid'. destruct (decide (sid' = sid)) as [->|Hne]; [by rewrite !lookup_insert_eq|]. rewrite !lookup_insert_ne by done. apply Hh.
Qed.

Lemma worker_batch_spec sid msgs s :
  SI cf s → allowed (SWorkerBatch sid msgs) s → wpe (run_section (SWorkerBatch sid msgs)) (λ _, SI cf) (SI cf) s.
Proof.
  intros HS ((ses & Hses & Hdet) & (addr & Hna & Hcan & Hid & Hsz) & _). simpl.
  assert (speaks sid addr (disp s)) as Hsp by (exists ses; split_and!; [done|done|]; intros w; by apply Hid).
  apply wpe_bind, wpe_wp. wp_steps. apply wpe_locked.
  set (hd' := <[sid := default [] (heard s !! sid) ++ flat_map reports msgs]> (heard s)).
  assert (SI cf (with_heard hd' s)) as HS1.
  { destruct HS as [HD Hb Hl Hh]. split; simpl; [|done|done|].
    - eapply DI_heard; [|exact HD]. intros sid'. subst hd'. destruct (decide (sid' = sid)) as [->|?]; [rewrite lookup_insert_eq|by rewrite lookup_insert_ne].
      simpl. set_solver.
    - intros sid' Hs. subst hd'. destruct (decide (sid' = sid)) as [->|?]; [rewrite lookup_insert_eq; by eexists|].
      rewrite lookup_insert_ne by done. by apply Hh. }
  eapply wpe_mono; [eapply (workerMsgs_spec cf hd'); [apply (si_settled _ _ HS1)|exact Hsp|exact Hcan|exact Hna| |exact Hsz]|..].
  - subst hd'. rewrite lookup_insert_eq. simpl. set_solver.
  - intros [] d [? ?]. by apply (SI_after cf d (with_heard hd' s)).
  - intros d [? ?]. by apply (SI_after cf d (with_heard hd' s)).
Qed.

Lemma worker_gone_spec sid E s :
  SI cf s → is_Some (sessions (disp s) !! sid) → wpe (run_section (SWorkerGone sid)) (λ _, SI cf) E s.
Proof.
  intros HS [ses Hs]. simpl. apply wpe_bind, (locked_spec cf); [done|].
  eapply wp_mono; [eapply workerGone_inv_spec; [apply (si_settled _ _ HS)|exact Hs]|]. intros [] d (HD & Hfr & Hidle).
  split_and!; [done|done|]. intros HS1. apply locked_unit_spec; [done|].
  eapply wp_mono; [eapply upd_idle_spec; [apply (si_settled _ _ HS1)|exact Hidle|done]|]. by intros [] d' (? & ? & _).
Qed.

(** Every section keeps the invariant, also one that refuses with an error. *)
Lemma section_spec sec s :
  SI cf s → allowed sec s → wpe (run_section sec) (λ _, SI cf) (λ s', SI cf s' ∧ may_refuse sec s) s.
Proof.
  intros HS Hallowed. pose proof (si_settled _ _ HS) as HD. pose proof Hallowed as (Hal & _ & Hrace).
  destruct sec as [|cid msgs answer|answer|i|cid|cid ev|sid|sid msgs|sid|sid ev| | | | |w|i]; simpl in Hal.
  - simpl. apply wpe_bind, (locked_spec cf); [done|]. eapply wp_mono; [by apply connectClient_spec|].
    intros cid d (HD' & _ & _ & Ho & El & Es). split_and!; [done|split; [done|by rewrite Es|done]|]. intros ?. by apply wpe_ret.
  - by apply client_batch_spec.
  - by apply lookup_spec.
  - by apply chunk_spec.
  - simpl. apply locked_unit_spec; [done|]. destruct Hal as [obj Ho]. eapply wp_mono; [by eapply clientGone_inv_spec|].
    intros [] d [? [_ Ho' Es El]]. split; [done|]. split; [intros c ?; by apply Ho'|by rewrite Es|done].
  - destruct Hal as (obj & Ho & He & Hn).
    assert (ev = Reactor.Check Reactor.OfKick → Reactor.deleted (Client.stream obj) = false) as Hk.
    { intros Hev. apply not_true_is_false. intros Hd. apply Hrace. split; [done|by exists obj]. }
    simpl. apply locked_unit_spec; [done|]. eapply wp_mono; [by eapply client_event_spec|].
    intros [] d [? ?]. split; [done|by apply calm_frame].
  - by apply new_session_spec.
  - eapply wpe_mono; [by apply worker_batch_spec|done|]. by intros s' ?.
  - by apply worker_gone_spec.
  - destruct (sessions (disp s) !! sid) as [ses|] eqn:Hs; [|by destruct Hrace; split; [apply Hal|]; intros ?; rewrite Hs].
    destruct Hal as [[He Hn] Hf].
    assert (ev = Reactor.Check Reactor.OfKick → Reactor.deleted (Session.stream ses) = false) as Hk.
    { intros Hev. apply not_true_is_false. intros Hd. apply Hrace. split; [done|]. intros ses'. rewrite Hs. by intros [= <-]. }
    simpl. apply locked_unit_spec; [done|]. by eapply session_event_spec.
  - simpl. apply locked_unit_spec; [done|]. eapply wp_mono; [by apply stats_round_spec|]. intros [] d (? & Hcl & Hg & Hid & El).
    split; [done|]. split; [| |done].
    + intros c [obj Ho]. specialize (Hg c). rewrite Ho in Hg. by destruct (objs d !! c).
    + intros sid [ses Hs]. specialize (Hid sid). unfold session_ids in Hid. rewrite Hs in Hid. by destruct (sessions (disp s) !! sid).
  - simpl. apply locked_unit_spec; [done|]. unfold serving. wp_steps. split; [by eapply DI_ext; [..|exact HD]|done].
  - simpl. apply locked_unit_spec; [done|]. eapply wp_mono; [by apply restarting_spec|]. intros [] d [? ?]. split; [done|by apply calm_frame].
  - simpl. apply wpe_bind, (locked_spec cf); [done|]. unfold watchMembership. wp_steps.
    split_and!; [by eapply DI_ext; [..|exact HD]|done|]. intros ?. by apply wpe_ret.
  - simpl. apply locked_unit_spec; [done|]. unfold unwatchMembership. wp_steps. split; [by eapply DI_ext; [..|exact HD]|done].
  - simpl. apply wpe_bind, wpe_wp. wp_steps. destruct (acting s !! i) as [a|] eqn:Ea; [|by apply wpe_ret].
    apply wpe_bind, wpe_wp. wp_steps. assert (SI cf (with_acting (delete i (acting s)) s)) as HS1 by (destruct HS; by split).
    apply locked_unit_spec; [done|]. apply run_action_spec; [apply (si_settled _ _ HS1)|]. intros sid ->.
    destruct (sessions (disp s) !! sid) eqn:Hs; [by eexists|]. destruct Hrace. by exists sid.
Qed.

(** The object is gone. *)
Lemma raced_undefined sec s : raced sec s → ∃ s', run_section sec s = (s', Throw Undefined).
Proof.
  destruct sec as [| | | | |cid ev| | | |sid ev| | | | | |i]; try done; simpl; unfold locked.
  - intros (-> & obj & Ho & Hd). unfold client_event, mbind, M_bind, get, expect, zoom. rewrite Ho. simpl.
    unfold Reactor.maybeDone, Reactor.alive, mbind, M_bind, get. rewrite Hd. by eexists.
  - intros [-> Hd]. unfold session_event, mbind, M_bind, get, expect, zoom. destruct (sessions (disp s) !! sid) as [ses|]; simpl; [|by eexists].
    unfold Reactor.maybeDone, Reactor.alive, mbind, M_bind, get. rewrite (Hd ses) by done. by eexists.
  - intros (sid & Ha & Hs). unfold mbind, M_bind, get, modify. rewrite Ha. simpl. unfold upd_session, mbind, M_bind, get, expect.
    simpl. rewrite Hs. by eexists.
Qed.

(** ** Reachable states *)

Inductive reached : system → Prop :=
  | reached_initial : cfg_ok cf → reached (initial cf)
  | reached_section s sec : reached s → allowed sec s → reached (exec (run_section sec) s).

Lemma reached_SI s : reached s → SI cf s.
Proof.
  induction 1 as [Hcf|s sec _ HS Hal]; [by apply SI_initial, Inv_init|].
  pose proof (section_spec sec s HS Hal) as Hs. unfold wpe in Hs. unfold exec.
  destruct (run_section sec s) as [s' [[]|[| | |]]]; naive_solver.
Qed.

(** C8. What the daemon's threads can make of the dispatcher.  From every state they can bring it to, any section that
    any of them may run next, with whatever messages, cache
    answers, stream events and clock readings it meets, returns and leads to such a state, with these exceptions.  Two
    uses of an object that may be gone are not prevented, and are undefined if it is: the look of a kick's thread at its
    reactor, and the abort of a replaced session after the mutex is released.  Of a worker's batch it is assumed that
    its session speaks for one address and that the tables have room for it.  Only a worker's batch and a chunk applied by the reading thread
    can be refused, with an error its stream is closed with; the state is one the
    others can go on with all the same. *)
Theorem dispatcher_total sec s :
  reached s → possible sec s → orderly sec s →
  (¬ raced sec s → ∃ s', reached s' ∧
     (run_section sec s = (s', Ok tt) ∨ may_refuse sec s ∧ ∃ msg, run_section sec s = (s', Throw (NixError msg)))) ∧
  (raced sec s → ∃ s', run_section sec s = (s', Throw Undefined)).
Proof.
  intros Hr Hp Ho. split; [|apply raced_undefined]. intros Hn. assert (allowed sec s) as Hal by done.
  pose proof (section_spec sec s (reached_SI s Hr) Hal) as Hs. unfold wpe in Hs.
  pose proof (reached_section s sec Hr Hal) as Hr'. unfold exec in Hr'.
  destruct (run_section sec s) as [s' [[]|[|msg| |]]]; try done; exists s'; split; try done; [by left|right].
  destruct Hs as [_ ?]. split; [done|by exists msg].
Qed.

(** A client that is connected, with its stream. *)
Definition connected (s : system) (cid : N) (r : Reactor.t SchedMsg) : Prop :=
  cid ∈ clients (disp s) ∧ objs (disp s) !! cid = Some (Client.mk r false).

Lemma follower_connected d e cid s :
  SI cf s → lk (entries (core_ (disp s))) d = Some e → cid ∈ Entry.followers e → ∃ r, connected s cid r.
Proof.
  intros HS Hd Hin. pose proof (si_settled _ _ HS) as HD. pose proof (di_followers _ _ _ _ _ _ _ _ HD d e cid Hd Hin) as Hcl.
  pose proof (proj1 (di_clients _ _ _ _ _ _ _ _ HD cid) Hcl) as ([r g] & Ho & Hg)%fmap_Some. simpl in Hg. subst g. by exists r.
Qed.

(** C9. Between two holds of the mutex everybody agrees on a placed derivation.  Its
    worker is up and has a session, which has been sent the Expect of this
    assignment or has itself reported the build under it; every follower is a
    connected client, and unless its stream is closed the last Assigned it was sent for the
    derivation names exactly that worker's address, assignment and native system. *)
Theorem placement_agreed d e s :
  reached s → lk (entries (core_ (disp s))) d = Some e → Entry.worker e ≠ noWorker →
  knows (heard s) (disp s) e ∧
  ∃ wkr, workers (core_ (disp s)) !! Entry.worker e = Some wkr ∧ Worker.up wkr = true ∧
  ∀ cid, cid ∈ Entry.followers e → ∃ r, connected s cid r ∧ (Reactor.closed r = false →
    last_assigned (Entry.drvPath e) (Reactor.accepted r) =
      Some (Worker.addr wkr, Entry.assignId e, default EmptyString (head (Worker.systems wkr)))).
Proof.
  intros HS%reached_SI Hd Hn. pose proof (si_settled _ _ HS) as HD. pose proof (di_core _ _ _ _ _ _ _ _ HD) as HI.
  split; [by eapply (di_known _ _ _ _ _ _ _ _ HD); [done..|intros []]|].
  destruct (placed_worker _ d e HI Hd Hn) as (wkr & Hw & Hup). exists wkr. split_and!; [done..|]. intros cid Hin.
  destruct (follower_connected d e cid s HS Hd Hin) as [r Hr]. exists r. split; [done|]. intros Hc. destruct Hr as [_ Ho].
  rewrite (di_told _ _ _ _ _ _ _ _ HD d e cid (Reactor.accepted r) Hd Hn Hin); [by unfold place_of; rewrite Hw|by intros []|].
  unfold open_log. rewrite Ho. simpl. by rewrite Hc.
Qed.

(** Nobody waits for a worker in the dark.  A derivation without a worker has
    connected followers, and if no connected, willing worker offers its system and
    features, then each of them, unless its stream is closed, was told so: it was
    sent Unplaceable, or that a worker had it, and no Placeable since. *)
Theorem waiting_warned d e s :
  reached s → lk (entries (core_ (disp s))) d = Some e → Entry.worker e = noWorker →
  Entry.followers e ≠ [] ∧
  ∀ cid, cid ∈ Entry.followers e → ∃ r, connected s cid r ∧
    (placeable e (core_ (disp s)) = false → Reactor.closed r = false → warned (Entry.drvPath e) (Reactor.accepted r)).
Proof.
  intros HS%reached_SI Hd Hn. pose proof (si_settled _ _ HS) as HD. pose proof (di_core _ _ _ _ _ _ _ _ HD) as HI.
  pose proof (pl_placed _ _ _ _ (inv_place _ _ _ _ HI) d e Hd ltac:(set_solver)) as Hp. unfold placed in Hp.
  rewrite decide_True in Hp by done. destruct Hp as [_ Hf]. split; [done|]. intros cid Hin.
  destruct (follower_connected d e cid s HS Hd Hin) as [r Hr]. exists r. split; [done|]. intros Hpl Hc. destruct Hr as [_ Ho].
  eapply (di_warned _ _ _ _ _ _ _ _ HD d e cid); [done| |done|by intros []|].
  - by rewrite (di_flags _ _ _ _ _ _ _ _ HD d e), Hpl by (done || by intros []).
  - unfold open_log. rewrite Ho. simpl. by rewrite Hc.
Qed.

(** What the dispatcher publishes to the balancer is current whenever the mutex is
    free: for each system exactly the workers that are up and name it, in the order of their
    ids, each marked as draining unless it takes work; and the workers that are up
    are exactly those with a session, each of which belongs to that worker alone. *)
Theorem membership_current s :
  reached s →
  (∀ system, default [] (published (disp s) !! system) = flat_map (member_of system) (workers (core_ (disp s)))) ∧
  (∀ w wkr, workers (core_ (disp s)) !! w = Some wkr → (Worker.up wkr = true ↔ is_Some (sess (disp s) !! w))) ∧
  ∀ w sid, sess (disp s) !! w = Some sid → ∃ ses, sessions (disp s) !! sid = Some ses ∧ Session.id ses = Some w.
Proof.
  intros HS%reached_SI. pose proof (si_settled _ _ HS) as HD. split_and!.
  - intros system. by rewrite (di_pub _ _ _ _ _ _ _ _ HD), members_lookup.
  - apply (di_up _ _ _ _ _ _ _ _ HD).
  - intros w sid (ses & ? & ? & _)%(di_sess _ _ _ _ _ _ _ _ HD). by exists ses.
Qed.
End System.
