(* ===== verification/DispatcherDemo.v ===== *)
(** * Runs of the dispatcher

    Concrete interleavings: the inputs at which the theorems are applied, and runs that
    show what the code does where its comments say otherwise. *)

From S2P Require Import Prelude Double PathKey Heap Free Sched SchedInv SchedOps SchedTheorems.
From S2P Require Import Reactor Dispatcher DispatcherInv DispatcherConn DispatcherWorkers DispatcherSessions DispatcherSystem.

Definition demo_clock (n : nat) : double := double_of_Z 5.
Definition demo_ord (n : nat) : map_order := list_order.
Definition demo_answer (keys : list string) : option (gset string) := Some ∅.

(** A daemon with a shared cache; [threads] look batches up. *)
Definition run_demo (threads : N) (sec : section) : M system () :=
  run_section demo_clock demo_ord "x86_64-linux" true threads sec.
Definition play_sections (threads : N) (secs : list section) (s : system) : system :=
  foldl (λ s sec, exec (run_demo threads sec) s) s secs.
Definition demo_start : system := initial Config.default.

Abbreviation demo_reached threads := (reached Config.default demo_clock demo_ord "x86_64-linux" true threads).

Fixpoint sections_allowed (threads : N) (secs : list section) (s : system) : Prop :=
  match secs with
  | [] => True
  | sec :: secs => allowed sec s ∧ sections_allowed threads secs (exec (run_demo threads sec) s)
  end.

Lemma play_reached threads secs s :
  demo_reached threads s → sections_allowed threads secs s → demo_reached threads (play_sections threads secs s).
Proof.
  revert s. induction secs as [|sec secs IH]; intros s Hs Ha; [done|]. destruct Ha. apply IH; [by apply reached_section|done].
Qed.

Lemma demo_start_reached threads : demo_reached threads demo_start.
Proof. constructor. by vm_compute. Qed.

Definition demo_msg (path : string) : ClientMsg := MWant (Want.mk path ["out.narinfo"] [] 7 0 [] "x86_64-linux").
Definition demo_hello (addr : string) : WorkerMsg := MHello addr ["x86_64-linux"] [] 2 [].

(** A session speaks for the address: as it has said nothing yet, or as its worker says. *)
Ltac orderly_hello addr :=
  exists addr; split; [by repeat constructor|]; split; [right; by vm_compute|]; split; [|by vm_compute];
  let E := fresh in intros ? ? E; vm_compute in E; injection E as <-; vm_compute; first [discriminate | intros [= <-]; reflexivity].
Ltac possible_next :=
  lazymatch goal with
  | |- possible (SWorkerBatch _ _) _ => eexists; split; [vm_compute; reflexivity|reflexivity]
  | |- possible SConnect _ => by vm_compute
  | |- possible (SNewSession _) _ => by vm_compute
  | |- possible (SClientBatch _ _ _) _ => by vm_compute; eexists
  | |- possible (SWorkerGone _) _ => by vm_compute; eexists
  | |- possible (SSessionStream _ _) _ => by vm_compute
  | |- possible _ _ => exact I
  end.
Ltac allowed_next :=
  lazymatch goal with
  | |- allowed (SWorkerBatch _ [demo_hello ?addr]) _ => split; [possible_next|split; [orderly_hello addr|by intros []]]
  | |- allowed _ _ => split; [possible_next|split; [exact I|first [by intros [] | by intros [? _]]]]
  end.
Ltac run_reached :=
  apply play_reached; [apply demo_start_reached|]; cbn [sections_allowed]; repeat (split; [allowed_next|]); exact I.

(** A worker says Hello, then a client wants a derivation. *)
Definition demo_run : list section :=
  [SConnect; SNewSession 10; SWorkerBatch 10 [demo_hello "w"]; SClientBatch 1 [demo_msg "a"] demo_answer].
Definition demo_wanted : system := play_sections 0 demo_run demo_start.

Lemma demo_wanted_reached : demo_reached 0 demo_wanted.
Proof. unfold demo_wanted, demo_run. run_reached. Qed.

(** It is placed. *)
Definition demo_placed : system := exec (run_demo 0 (SChunk 0)) demo_wanted.

Lemma demo_placed_reached : demo_reached 0 demo_placed.
Proof. apply (reached_section _ _ _ _ _ _ demo_wanted (SChunk 0)); [apply demo_wanted_reached|]. split; [exact I|]. split; [exact I|by intros []]. Qed.

(** The same without a worker. *)
Definition demo_lonely : system := play_sections 0 [SConnect; SClientBatch 1 [demo_msg "a"] demo_answer; SChunk 0] demo_start.

Lemma demo_lonely_reached : demo_reached 0 demo_lonely.
Proof. unfold demo_lonely. run_reached. Qed.

Lemma demo_clock_ok n : is_finite (dmul (Config.ageWeight Config.default) (demo_clock n)) = true.
Proof. done. Qed.

(** ** The theorems at these runs *)

Lemma dispatcher_total_witness :
  ¬ raced (SChunk 0) demo_wanted ∧ ∃ s', demo_reached 0 s' ∧ (run_demo 0 (SChunk 0) demo_wanted = (s', Ok tt) ∨
    may_refuse (SChunk 0) demo_wanted ∧ ∃ msg, run_demo 0 (SChunk 0) demo_wanted = (s', Throw (NixError msg))).
Proof.
  split; [by intros []|].
  apply (dispatcher_total Config.default demo_clock demo_ord "x86_64-linux" true 0 demo_clock_ok ltac:(discriminate) (SChunk 0)).
  - apply demo_wanted_reached.
  - exact I.
  - exact I.
  - by intros [].
Defined.

Lemma placement_agreed_witness :
  ∃ e, lk (entries (core_ (disp demo_placed))) 0 = Some e ∧ Entry.drvPath e = "a" ∧ knows (heard demo_placed) (disp demo_placed) e ∧
  ∃ wkr, workers (core_ (disp demo_placed)) !! Entry.worker e = Some wkr ∧ Worker.up wkr = true ∧
  ∀ cid, cid ∈ Entry.followers e → ∃ r, connected demo_placed cid r ∧ (Reactor.closed r = false →
    last_assigned (Entry.drvPath e) (Reactor.accepted r) =
      Some (Worker.addr wkr, Entry.assignId e, default EmptyString (head (Worker.systems wkr)))).
Proof.
  eexists. split; [vm_compute; reflexivity|]. split; [reflexivity|].
  eapply (placement_agreed Config.default demo_clock demo_ord "x86_64-linux" true 0 demo_clock_ok ltac:(discriminate) 0).
  - apply demo_placed_reached.
  - vm_compute. reflexivity.
  - vm_compute. discriminate.
Defined.

Lemma waiting_warned_witness :
  ∃ e, lk (entries (core_ (disp demo_lonely))) 0 = Some e ∧ placeable e (core_ (disp demo_lonely)) = false ∧ Entry.followers e ≠ [] ∧
  ∀ cid, cid ∈ Entry.followers e → ∃ r, connected demo_lonely cid r ∧
    (placeable e (core_ (disp demo_lonely)) = false → Reactor.closed r = false → warned (Entry.drvPath e) (Reactor.accepted r)).
Proof.
  eexists. split; [vm_compute; reflexivity|]. split; [vm_compute; reflexivity|].
  eapply (waiting_warned Config.default demo_clock demo_ord "x86_64-linux" true 0 demo_clock_ok ltac:(discriminate) 0).
  - apply demo_lonely_reached.
  - vm_compute. reflexivity.
  - reflexivity.
Defined.

Lemma membership_current_witness :
  published (disp demo_placed) !! "x86_64-linux" = Some [("w", false)] ∧
  (∀ system, default [] (published (disp demo_placed) !! system) = flat_map (member_of system) (workers (core_ (disp demo_placed)))) ∧
  (∀ w wkr, workers (core_ (disp demo_placed)) !! w = Some wkr → (Worker.up wkr = true ↔ is_Some (sess (disp demo_placed) !! w))) ∧
  ∀ w sid, sess (disp demo_placed) !! w = Some sid → ∃ ses, sessions (disp demo_placed) !! sid = Some ses ∧ Session.id ses = Some w.
Proof.
  split; [vm_compute; reflexivity|].
  apply (membership_current Config.default demo_clock demo_ord "x86_64-linux" true 0 demo_clock_ok ltac:(discriminate)).
  apply demo_placed_reached.
Defined.

(** ** An older session takes the new one down *)

(** The first session can not be sent to any more, which a dispatch finds out; the
    worker connects again and gets the derivation. *)
Definition demo_reconnected : system := play_sections 0
  [SConnect; SNewSession 10; SWorkerBatch 10 [demo_hello "w"]; SSessionStream 10 Reactor.Cancel;
   SClientBatch 1 [demo_msg "a"] demo_answer; SChunk 0; SNewSession 11; SWorkerBatch 11 [demo_hello "w"]] demo_start.
Definition demo_taken_down : system := exec (run_demo 0 (SWorkerGone 10)) demo_reconnected.

(** Where the first derivation is, and whether its worker is up. *)
Definition where_a (s : system) : option N := Entry.worker <$> lk (entries (core_ (disp s))) 0.
Definition worker_up (s : system) : option bool := Worker.up <$> workers (core_ (disp s)) !! 0%N.
Definition session_open (sid : N) (s : system) : option (bool * option N * bool) :=
  (λ ses, (Reactor.closed (Session.stream ses), Session.id ses, Session.detached ses)) <$> sessions (disp s) !! sid.

Lemma demo_reconnected_reached : demo_reached 0 demo_reconnected.
Proof. unfold demo_reconnected. run_reached. Qed.

(** A session whose stream a dispatch found closed takes its worker down when it
    ends, although the worker has connected again: the worker is up on session 11 and
    has the derivation; when session 10 is gone the worker is down and the derivation
    has no worker, while session 11 is open and still stands for it.  Such a session is
    taken out of the table of live sessions, but it keeps the worker's id, which only a
    Hello that finds it in the table resets. *)
Theorem stale_session_ends_worker :
  demo_reached 0 demo_reconnected ∧ allowed (SWorkerGone 10) demo_reconnected ∧
  (worker_up demo_reconnected, where_a demo_reconnected, session_open 11 demo_reconnected) =
    (Some true, Some 0%N, Some (false, Some 0%N, false)) ∧
  (worker_up demo_taken_down, where_a demo_taken_down, session_open 11 demo_taken_down) =
    (Some false, Some noWorker, Some (false, Some 0%N, false)).
Proof.
  split; [apply demo_reconnected_reached|]. split; [allowed_next|]. split; vm_compute; reflexivity.
Qed.

(** ** A Cancel overtakes its Want *)

(** The Want waits for a lookup thread, the Cancel needs no lookup. *)
Definition demo_overtaken : system := play_sections 1
  [SConnect; SClientBatch 1 [demo_msg "a"] demo_answer; SClientBatch 1 [MCancel "a"] demo_answer;
   SChunk 1; SLookup demo_answer; SChunk 2] demo_start.

(** The batches of one client are not applied in the order they were read: a Want
    that has to be looked up in the cache goes through the lookup threads, while a later batch
    with its Cancel is applied at once.  The Cancel finds nothing, and then the client
    follows a derivation it has cancelled. *)
Theorem cancel_overtakes_want :
  demo_reached 1 demo_overtaken ∧
  Entry.followers <$> lk (entries (core_ (disp demo_overtaken))) 0 = Some [1%N] ∧
  batches demo_overtaken = [Batch.mk 1 false []; Batch.mk 1 false []; Batch.mk 1 true []] ∧
  lookupQueue (disp demo_overtaken) = [].
Proof. split; [unfold demo_overtaken; run_reached|]. split; [|split]; vm_compute; reflexivity. Qed.

(** ** Sessions that are used when they are gone *)

Definition ends (sid : N) : list section :=
  [SWorkerGone sid; SSessionStream sid Reactor.Finish; SSessionStream sid (Reactor.Check Reactor.OfGrpc); SSessionStream sid Reactor.Done].

(** A session that says Hello for two addresses leaves the first one's pointer behind
    when it ends, and the next dispatch uses it. *)
Theorem two_addresses_dangle :
  (run_demo 0 (SChunk 0) (play_sections 0
    ([SConnect; SNewSession 10; SWorkerBatch 10 [demo_hello "v"; demo_hello "w"]] ++ ends 10 ++ [SClientBatch 1 [demo_msg "a"] demo_answer])
    demo_start)).2 = Throw Undefined.
Proof. vm_compute. reflexivity. Qed.

(** A replaced session can be over before the thread that replaced it asks for its
    end. *)
Definition demo_replaced : system := play_sections 0
  ([SNewSession 10; SWorkerBatch 10 [demo_hello "w"]; SNewSession 11; SWorkerBatch 11 [demo_hello "w"]] ++ ends 10) demo_start.

Theorem abort_after_end : demo_reached 0 demo_replaced ∧ acting demo_replaced = [Abort 10] ∧ raced (SAction 0) demo_replaced ∧
  (run_demo 0 (SAction 0) demo_replaced).2 = Throw Undefined.
Proof.
  split; [unfold demo_replaced, ends; cbn [app]; run_reached|]. split; [vm_compute; reflexivity|].
  split; [exists 10%N; split; vm_compute; reflexivity|vm_compute; reflexivity].
Qed.
