(* ===== verification/Builder.v ===== *)
(** * The worker: the table of expected builds and the BuildDerivation handler

    src/src/daemon/coordinator.hh and coordinator.cc ([Builder]) and the part of
    src/src/daemon/main.cc that builds ([build], [attach], [attached],
    [buildExpected], [guarded]).

    A thread is at a [point]; [section] runs it up to the next one.  What lies between
    two points is what the thread does in one hold of the table's mutex, of a [Shared]'s
    mutex, or with one atomic.  [expected] names the [Shared] objects, which callers keep
    alive, by their position in [shareds]: a new entry of the table makes a new one, so
    that the number also names the lease.  A message goes to the session [sendFn] leads
    to, whose stream takes it while [live]; [sent] has them in order.  A thread that is
    about to report a lease carries its number, for the account of the leases only.

    The answers of the nix store and of gRPC, the readings of the clock and the order of the
    hash table are in the [input] of a section. *)

From S2P Require Import Prelude Double Sched Reactor Dispatcher.

(** ** Messages *)

Inductive Reason :=
  | REASON_UNSPECIFIED | DRAINING | PUBLISH_UNAVAILABLE | INPUT_UNAVAILABLE | UNREACHABLE | TRANSIENT_FAILURE.

(** The fields of [WorkerMsg] as a worker sets them; the scheduler ignores some of them. *)
Inductive Report :=
  | RHello (addr : string) (systems features : list string) (max_jobs : N) (running : list (string * N))
  | RDone (drv_path : string) (assign_id : N) (outcome : Outcome) (reason : Reason) (outputs : list (string * N))
  | RLoad (draining : bool).

Definition to_scheduler (r : Report) : WorkerMsg :=
  match r with
  | RHello addr systems features max_jobs running => MHello addr systems features max_jobs running
  | RDone drv_path _ outcome _ outputs => MDone drv_path outcome outputs
  | RLoad draining => MLoad draining
  end.

(** ** State *)

Abbreviation settings_t := (N * N * N)%type.

Module Shared.
Record t := mk {
  revoked : bool;
  attached : N;
  finished : bool;
  resultWire : string;
  settings : settings_t;
  drv : string;   (* whose lease it is, which the program need not keep *)
}.
Definition fresh drv : t := mk false 0 false EmptyString (0, 0, 0)%N drv.
Definition with_revoked (s : t) : t := mk true (attached s) (finished s) (resultWire s) (settings s) (drv s).
Definition with_attached n (s : t) : t := mk (revoked s) n (finished s) (resultWire s) (settings s) (drv s).
Definition with_finished (s : t) : t := mk (revoked s) (attached s) true (resultWire s) (settings s) (drv s).
Definition with_result w (s : t) : t := mk (revoked s) (attached s) true w (settings s) (drv s).
Definition with_settings v (s : t) : t := mk (revoked s) (attached s) (finished s) (resultWire s) v (drv s).
End Shared.

Module Expected.
Record t := mk {
  assignId : N;
  since : Z;   (* of the steady clock, in ns *)
  claimed : bool;
  running : bool;
  shared : nat;
}.
Definition with_claimed (e : t) : t := mk (assignId e) (since e) true (running e) (shared e).
Definition with_running (e : t) : t := mk (assignId e) (since e) true true (shared e).
Definition with_assign aid now (e : t) : t := mk aid now (claimed e) (running e) (shared e).
End Expected.

Record builder := mkBuilder {
  expected : gmap string Expected.t;
  shareds : list Shared.t;
  draining_ : bool;
  sendFn : option nat;
  live : bool;
  sent : list (nat * Report);
}.
Definition with_expected v b := mkBuilder v (shareds b) (draining_ b) (sendFn b) (live b) (sent b).
Definition with_shareds v b := mkBuilder (expected b) v (draining_ b) (sendFn b) (live b) (sent b).
Definition with_draining v b := mkBuilder (expected b) (shareds b) v (sendFn b) (live b) (sent b).
Definition with_session v l b := mkBuilder (expected b) (shareds b) (draining_ b) v l (sent b).
Definition with_sent v b := mkBuilder (expected b) (shareds b) (draining_ b) (sendFn b) (live b) v.

Abbreviation B := (M builder).

(** The options the worker is announced with. *)
Record WorkerOptions := mkOptions {
  advertise : string; thisSystem : string; extraPlatforms : list string; extraSystems : list string;
  systemFeatures : list string; maxJobs : N;
}.

Definition expectTimeout : Z := (60 * 1000000000)%Z.

(** [*shared] *)
Definition upd_shared (sid : nat) (f : Shared.t → Shared.t) : B () :=
  b ← get;
  obj ← expect Undefined (shareds b !! sid);
  modify (with_shareds (<[sid := f obj]> (shareds b))).
Definition get_shared (sid : nat) : B Shared.t := b ← get; expect Undefined (shareds b !! sid).

(** ** Operations of [Builder] *)

Definition setSend (session : option nat) : B () := modify (with_session session true).

Definition send (msg : Report) : B bool :=
  b ← get;
  match sendFn b with
  | Some session =>
      if live b then modify (with_sent (sent b ++ [(session, msg)]));; mret true else mret false
  | None => mret false
  end.

Definition sendDone (drv : string) (aid : N) (outcome : Outcome) (outputs : list (string * N)) (reason : Reason) : B bool :=
  send (RDone drv aid outcome reason outputs).

(** [onExpect] once it has seen that the worker is not draining. *)
Definition expect_put (drv : string) (aid : N) (now : Z) : B () :=
  b ← get;
  match expected b !! drv with
  | Some ent =>
      if Expected.claimed ent then mret tt
      else modify (with_expected (<[drv := Expected.with_assign aid now ent]> (expected b)))
  | None =>
      modify (with_shareds (shareds b ++ [Shared.fresh drv]));;
      modify (with_expected (<[drv := Expected.mk aid now false false (length (shareds b))]> (expected b)))
  end.

Definition claim (drv : string) : B () :=
  b ← get;
  match expected b !! drv with
  | Some ent => modify (with_expected (<[drv := Expected.with_claimed ent]> (expected b)))
  | None => mret tt
  end.

Definition holding (b : builder) : nat := size (expected b).

(** [onRevoke] under the lock: the lease to report as cancelled. *)
Definition revoke_take (drv : string) : B (option (N * nat)) :=
  b ← get;
  match expected b !! drv with
  | None => mret None
  | Some ent =>
      if Expected.running ent then upd_shared (Expected.shared ent) Shared.with_revoked;; mret None
      else
        modify (with_expected (delete drv (expected b)));;
        mret (Some (Expected.assignId ent, Expected.shared ent))
  end.

Record Admission := mkAdmission { adm_shared : nat; adm_assignId : N; adm_attach : bool }.

Definition admits (drv : string) : B (option Admission) :=
  b ← get;
  match expected b !! drv with
  | None => mret None
  | Some ent =>
      modify (with_expected (<[drv := Expected.with_running ent]> (expected b)));;
      mret (Some (mkAdmission (Expected.shared ent) (Expected.assignId ent) (Expected.running ent)))
  end.

(** [finished] under the table's lock. *)
Definition finish_take (drv : string) : B (option (N * nat)) :=
  b ← get;
  match expected b !! drv with
  | Some ent =>
      modify (with_expected (delete drv (expected b)));;
      mret (Some (Expected.assignId ent, Expected.shared ent))
  | None => mret None
  end.

Definition takeUnclaimed (order : list (string * Expected.t)) (pred : Expected.t → bool) : B (list (string * N * nat)) :=
  foldM (λ taken de,
    if negb (Expected.claimed de.2) && pred de.2 then
      modify (λ b, with_expected (delete de.1 (expected b)) b);;
      mret (taken ++ [(de.1, Expected.assignId de.2, Expected.shared de.2)])
    else mret taken) [] order.

Definition hello (opts : WorkerOptions) (order : list (string * Expected.t)) : Report :=
  RHello (advertise opts) (thisSystem opts :: extraPlatforms opts ++ extraSystems opts) (systemFeatures opts)
    (maxJobs opts) ((λ de, (de.1, Expected.assignId de.2)) <$> order).

(** ** The handler of BuildDerivation *)

Inductive Code := FAILED_PRECONDITION | UNIMPLEMENTED | NOT_FOUND | UNAVAILABLE | ABORTED | INTERNAL.

(** What is thrown; all but the last are [nix::Error]s. *)
Inductive Raised :=
  | CancelledWait (msg : string)
  | Unavailable (msg : string)
  | Error (msg : string)
  | Exception (msg : string).
Definition what (r : Raised) : string :=
  match r with CancelledWait msg | Unavailable msg | Error msg | Exception msg => msg end.
Definition nix_error (r : Raised) : bool := match r with Exception _ => false | _ => true end.

Module Call.
Record t := mk {
  drv : string; settings : settings_t; sandboxed : bool;
  static : bool;               (* the paths of all outputs are known *)
  lacks : option string;       (* [missingFeature] *)
}.
End Call.

(** A [nix::BuildResult]. *)
Record BuildRes := mkRes { succeeded : bool; transient : bool; failureMsg : option string }.

Definition kCancelBuilds : N := 2.
Definition superseded_msg : string := "superseded, another worker was already building this".

Definition giveBackReason (code : Code) : option Reason :=
  match code with
  | FAILED_PRECONDITION => Some INPUT_UNAVAILABLE
  | UNAVAILABLE => Some TRANSIENT_FAILURE
  | _ => None
  end.

Section Handler.
Context {BuildDone : Type} (serialize : BuildDone → string) (parse : string → option BuildDone).
Context (opts : WorkerOptions) (workerName : string).

Inductive Reply :=
  | Replied (done : BuildDone)
  | Refused (code : Code) (msg : string).

(** What the store, the nix-daemon and the cache answer to [buildExpected], in its order. *)
Record BuildEnv := mkEnv {
  e_roots : option Raised;
  e_gather : option Raised;
  e_outRoots : option Raised;
  e_stored : BuildRes + Raised;
  e_outputs : list (string * N) * option Raised;
  e_publish : option Raised;
  e_encode : BuildDone + Raised;
}.

(** How [buildExpected] ended, and what it left in [outcome] and [outputs]. *)
Record Attempt := mkAttempt {
  a_outcome : Outcome;
  a_outputs : list (string * N);
  a_end : BuildDone + (Code * string) + Raised;
}.

(** [NixRemoteService::publish] *)
Definition publish (answer : option Raised) : option Raised :=
  match answer with
  | None => None
  | Some (CancelledWait msg) => Some (CancelledWait msg)
  | Some (Exception msg) => Some (Exception msg)
  | Some r => Some (Unavailable ("publish failed: " +:+ what r))
  end.

Definition gatherInputs (answer : option Raised) : option ((Code * string) + Raised) :=
  match answer with
  | None => None
  | Some r =>
      if nix_error r then Some (inl (FAILED_PRECONDITION, workerName +:+ ": input not substitutable: " +:+ what r))
      else Some (inr r)
  end.

(** [cancelled] is read at most once on every path. *)
Definition buildExpected (sandboxed cancelled : bool) (e : BuildEnv) : Attempt :=
  let failed outputs r := mkAttempt FAILED outputs (inr r) in
  let encode outcome outputs :=
    mkAttempt outcome outputs (match e_encode e with inl done => inl (inl done) | inr r => inr r end) in
  match e_roots e with
  | Some r => failed [] r
  | None =>
  match gatherInputs (e_gather e) with
  | Some (inl status) => mkAttempt FAILED [] (inl (inr status))
  | Some (inr r) => failed [] r
  | None =>
  match e_outRoots e with
  | Some r => failed [] r
  | None =>
  match e_stored e with
  | inr r => failed [] (if nix_error r && cancelled then CancelledWait "build interrupted" else r)
  | inl res =>
      if negb (succeeded res) && cancelled then failed [] (CancelledWait "build interrupted")
      else if succeeded res then
        match (e_outputs e).2 with
        | Some r => failed (e_outputs e).1 r
        | None =>
            match publish (e_publish e) with
            | Some r => failed (e_outputs e).1 r
            | None => encode BUILT (e_outputs e).1
            end
        end
      else if transient res && sandboxed then
        mkAttempt FAILED [] (inl (inr (UNAVAILABLE, default "transient failure" (failureMsg res))))
      else encode FAILED []
  end
  end
  end
  end.

(** What [build] reports for an attempt: outcome, reason, and the result for those who
    are attached. *)
Definition report_of (a : Attempt) : Outcome * Reason * string :=
  match a_end a with
  | inl (inl done) => (a_outcome a, REASON_UNSPECIFIED, serialize done)
  | inl (inr (code, _)) =>
      match giveBackReason code with
      | Some why => (GIVEN_BACK, why, EmptyString)
      | None => (FAILED, REASON_UNSPECIFIED, EmptyString)
      end
  | inr (CancelledWait _) => (CANCELLED, REASON_UNSPECIFIED, EmptyString)
  | inr (Unavailable _) => (GIVEN_BACK, PUBLISH_UNAVAILABLE, EmptyString)
  | inr _ => (a_outcome a, REASON_UNSPECIFIED, EmptyString)
  end.

(** [guarded], for what [build] throws; [gone] is whether [localDaemonGone]. *)
Definition guarded (stop : N) (gone : bool) (r : Raised) : Reply :=
  match r with
  | CancelledWait msg | Unavailable msg => Refused UNAVAILABLE msg
  | Error msg | Exception msg =>
      if negb (stop =? 0)%N then Refused UNAVAILABLE ("worker shutting down: " +:+ msg)
      else if gone then Refused UNAVAILABLE ("local nix-daemon connection lost: " +:+ msg)
      else Refused INTERNAL msg
  end.

(** [BuildDerivation] puts its name before the message of a status. *)
Definition refuse (code : Code) (msg : string) : Reply := Refused code (workerName +:+ ": " +:+ msg).

(** The owner's answer to its caller. *)
Definition owner_reply (stop : N) (gone revoked : bool) (a : Attempt) : Reply :=
  match a_end a with
  | inl (inl done) => Replied done
  | inl (inr (code, msg)) => refuse code msg
  | inr (CancelledWait msg) => if revoked then refuse ABORTED superseded_msg else guarded stop gone (CancelledWait msg)
  | inr r => guarded stop gone r
  end.

(** ** Threads *)

Inductive point :=
  (* the scheduler's messages *)
  | PExpect (drv : string) (aid : N)
  | PExpectPut (drv : string) (aid : N)
  | PRevoke (drv : string)
  (* the serve loop *)
  | PTick
  | PTickTake (now : Z) (draining : bool)
  | PSetDraining (draining : bool)
  | PLoad (draining : bool)
  | PDrainTake
  (* the session *)
  | PConnect (session : nat)
  | PGreet
  | PHello (msg : Report)
  | PGreeted
  | PGreetLoad
  (* reports; the numbers are the leases *)
  | PGiveBack (drvs : list (string * N * option nat)) (reason : Reason)
  | PRevoked (drv : string) (aid : N) (lease : nat)
  (* BuildDerivation *)
  | PEnter (c : Call.t)
  | PClaim (c : Call.t)
  | PValid (c : Call.t)
  | PAdmit (c : Call.t)
  | PAttach (c : Call.t) (sid : nat)
  | PFollow (c : Call.t) (sid : nat)
  | PFollowed (c : Call.t) (sid : nat) (completed : bool)
  | PAttached (c : Call.t) (sid : nat) (completed : bool)
  | POwn (c : Call.t) (sid : nat) (aid : N)
  | PRelay (c : Call.t) (sid : nat) (aid : N)
  | PBuild (c : Call.t) (sid : nat) (aid : N)
  | PFinish (c : Call.t) (sid : nat) (aid : N) (a : Attempt)
  | PShare (c : Call.t) (sid : nat) (found : N * nat) (a : Attempt)
  | PDone (c : Call.t) (sid : nat) (aid : N) (lease : option nat) (a : Attempt)
  | PAnswer (c : Call.t) (sid : nat) (a : Attempt)
  | PRelayEnd (c : Call.t) (sid : nat) (revoked : bool) (a : Attempt)
  | PReturned (c : Call.t) (r : Reply).

(** What a section is told. *)
(** The derivation is valid or was substituted; it could not be substituted, with its path as it is printed; the store raised something else. *)
Inductive validity := DrvValid | DrvMissing (printed : string) | DrvRaises (r : Raised).

Record input := mkInput {
  i_now : Z;
  i_order : gmap string Expected.t → list (string * Expected.t);
  i_order_perm : ∀ m, i_order m ≡ₚ map_to_list m;
  i_valid : validity;    (* what the store says of the derivation *)
  i_drained : bool;      (* the log has been replayed *)
  i_cancelled : bool;    (* [context.IsCancelled()] *)
  i_stop : N;            (* [stopSignal] *)
  i_gone : bool;         (* [localDaemonGone] *)
  i_relay : bool;        (* the relay's thread could be started *)
  i_build : BuildEnv;
}.

(** [attached], once [attach] has returned. *)
Definition attached_reply (i : input) (c : Call.t) (sh : Shared.t) (completed : bool) : Reply :=
  if Shared.revoked sh then refuse ABORTED superseded_msg
  else if negb completed then guarded (i_stop i) (i_gone i) (CancelledWait "gave up waiting for the running build")
  else if bool_decide (Shared.resultWire sh = EmptyString) then
    refuse UNAVAILABLE "the build this call attached to did not finish, retry"
  else if bool_decide (Shared.settings sh ≠ Call.settings c) then
    refuse UNAVAILABLE "the build this call attached to ran with other mode or limits, retry"
  else match parse (Shared.resultWire sh) with
       | Some done => Replied done
       | None => refuse INTERNAL "corrupt shared result"
       end.

(** ** The sections *)

(** [onExpect] until it has looked whether the worker is draining. *)
Definition onExpect (drv : string) (aid : N) : B (list point) :=
  if bool_decide (drv = EmptyString) then mret []
  else
    b ← get;
    if draining_ b then mret [PGiveBack [(drv, aid, None)] DRAINING] else mret [PExpectPut drv aid].

Definition onRevoke (drv : string) : B (list point) :=
  taken ← revoke_take drv;
  mret (match taken with Some (aid, lease) => [PRevoked drv aid lease] | None => [] end).

(** One round of [giveBack]. *)
Definition giveBack (drvs : list (string * N * option nat)) (reason : Reason) : B (list point) :=
  match drvs with
  | [] => mret []
  | (drv, aid, _) :: drvs =>
      sendDone drv aid GIVEN_BACK [] reason;;
      mret [PGiveBack drvs reason]
  end.

(** [tick], when it has read the clock and the flag. *)
Definition tick_take (i : input) (now : Z) (draining : bool) : B (list point) :=
  b ← get;
  taken ← takeUnclaimed (i_order i (expected b)) (λ ent, draining || (expectTimeout <? now - Expected.since ent)%Z);
  mret [PGiveBack ((λ t, (t.1, Some t.2)) <$> taken) (if draining then DRAINING else UNREACHABLE)].

(** [setDraining]: the flag, and later the unclaimed leases. *)
Definition setDraining (draining : bool) : B (list point) :=
  b ← get;
  modify (with_draining draining);;
  mret (if bool_decide (draining_ b = draining) then [] else [PLoad draining]).
Definition drain_take (i : input) : B (list point) :=
  b ← get;
  taken ← takeUnclaimed (i_order i (expected b)) (λ _, true);
  mret [PGiveBack ((λ t, (t.1, Some t.2)) <$> taken) DRAINING].

(** [greet], when it has made the Hello. *)
Definition greet (msg : Report) : B (list point) :=
  ok ← send msg; mret (if ok : bool then [PGreeted] else []).

(** [attach]: the count, a round of [followSpill], and the count again. *)
Definition attach (c : Call.t) (sid : nat) : B (list point) :=
  sh ← get_shared sid;
  upd_shared sid (Shared.with_attached (u32 (Shared.attached sh + 1)));;
  mret [PFollow c sid].
Definition attach_follow (i : input) (c : Call.t) (sid : nat) : B (list point) :=
  sh ← get_shared sid;
  mret (if Shared.finished sh && i_drained i then [PFollowed c sid true]
        else if i_cancelled i || (kCancelBuilds <=? i_stop i)%N then [PFollowed c sid false]
        else [PFollow c sid]).
Definition attach_end (c : Call.t) (sid : nat) (completed : bool) : B (list point) :=
  sh ← get_shared sid;
  upd_shared sid (Shared.with_attached (u32 (Shared.attached sh + (2 ^ 32 - 1))));;
  mret [PAttached c sid completed].

Definition section (i : input) (p : point) : B (list point) :=
  match p with
  | PExpect drv aid => onExpect drv aid
  | PExpectPut drv aid => expect_put drv aid (i_now i);; mret []
  | PRevoke drv => onRevoke drv
  | PRevoked drv aid _ => sendDone drv aid CANCELLED [] REASON_UNSPECIFIED;; mret []

  | PTick => b ← get; mret [PTickTake (i_now i) (draining_ b)]
  | PTickTake now draining => tick_take i now draining
  | PSetDraining draining => setDraining draining
  | PLoad draining => send (RLoad draining);; mret (if draining : bool then [PDrainTake] else [])
  | PDrainTake => drain_take i

  | PConnect session => setSend (Some session);; mret [PGreet]
  | PGreet => b ← get; mret [PHello (hello opts (i_order i (expected b)))]
  | PHello msg => greet msg
  | PGreeted => b ← get; mret (if draining_ b then [PGreetLoad] else [])
  | PGreetLoad => send (RLoad true);; mret []

  | PGiveBack drvs reason => giveBack drvs reason

  | PEnter c =>
      mret (if negb (Call.static c) then [PReturned c (refuse UNIMPLEMENTED "builds need statically known output paths")]
            else match Call.lacks c with
                 | Some feature => [PReturned c (refuse FAILED_PRECONDITION ("lacks system feature '" +:+ feature +:+ "'"))]
                 | None => [PClaim c]
                 end)
  | PClaim c => claim (Call.drv c);; mret [PValid c]
  | PValid c =>
      mret match i_valid i with
           | DrvValid => [PAdmit c]
           | DrvMissing printed => [PReturned c (refuse NOT_FOUND ("missing: " +:+ printed))]
           | DrvRaises r => [PReturned c (guarded (i_stop i) (i_gone i) r)]
           end
  | PAdmit c =>
      adm ← admits (Call.drv c);
      mret (match adm with
            | None => [PReturned c (refuse FAILED_PRECONDITION ("not scheduled here: " +:+ Call.drv c))]
            | Some adm =>
                if adm_attach adm then [PAttach c (adm_shared adm)] else [POwn c (adm_shared adm) (adm_assignId adm)]
            end)
  | PAttach c sid => attach c sid
  | PFollow c sid => attach_follow i c sid
  | PFollowed c sid completed => attach_end c sid completed
  | PAttached c sid completed =>
      sh ← get_shared sid;
      mret [PReturned c (attached_reply i c sh completed)]

  | POwn c sid aid => upd_shared sid (Shared.with_settings (Call.settings c));; mret [PRelay c sid aid]
  | PRelay c sid aid =>
      mret (if i_relay i then [PBuild c sid aid]
            else [PReturned c (guarded (i_stop i) (i_gone i) (Exception "Resource temporarily unavailable"))])
  | PBuild c sid aid =>
      sh ← get_shared sid;
      let cancelled := (i_cancelled i && (Shared.attached sh =? 0)%N) || Shared.revoked sh || (kCancelBuilds <=? i_stop i)%N in
      mret [PFinish c sid aid (buildExpected (Call.sandboxed c) cancelled (i_build i))]
  | PFinish c sid aid a =>
      found ← finish_take (Call.drv c);
      mret (match found with Some found => [PShare c sid found a] | None => [PDone c sid 0 None a] end)
  | PShare c sid (aid, shared) a =>
      let '(_, _, wire) := report_of a in
      upd_shared shared (Shared.with_result wire);;
      mret [PDone c sid aid (Some shared) a]
  | PDone c sid aid _ a =>
      let '(outcome, reason, _) := report_of a in
      sendDone (Call.drv c) aid outcome (a_outputs a) reason;;
      mret [PAnswer c sid a]
  | PAnswer c sid a => sh ← get_shared sid; mret [PRelayEnd c sid (Shared.revoked sh) a]
  | PRelayEnd c sid revoked a =>
      upd_shared sid Shared.with_finished;;
      mret [PReturned c (owner_reply (i_stop i) (i_gone i) revoked a)]
  | PReturned _ _ => mret []
  end.

(** ** The worker

    [lost] are the leases whose owner could not start its relay, [results] what the
    owners' builds returned, [reported] the leases a Done was sent for or tried to be,
    and [view] what the scheduler makes of the messages of the current session. *)

Inductive View :=
  | Silent                        (* nothing heard yet *)
  | Rejected                      (* the first message was not a Hello *)
  | Knows (drvs : gset string).   (* what it takes this worker to have *)

Definition tell (v : View) (msg : Report) : View :=
  match v, msg with
  | Silent, RHello _ _ _ _ running | Knows _, RHello _ _ _ _ running => Knows (list_to_set running.*1)
  | Silent, _ | Rejected, _ => Rejected
  | Knows drvs, RDone drv _ _ _ _ => Knows (drvs ∖ {[drv]})
  | Knows drvs, RLoad _ => Knows drvs
  end.

Record worker := mkWorker {
  bld : builder;
  threads : list point;
  lost : list nat;
  results : gmap nat (settings_t * BuildDone);
  reported : list nat;
  view : View;
}.

Definition no_session : builder := mkBuilder ∅ [] false None false [].
Definition fresh_worker : worker := mkWorker no_session [] [] ∅ [] Silent.

(** The lease a section reports. *)
Definition paid (p : point) : list nat :=
  match p with
  | PGiveBack ((_, _, lease) :: _) _ => option_list lease
  | PRevoked _ _ lease => [lease]
  | PDone _ _ _ lease _ => option_list lease
  | _ => []
  end.

Definition loses (i : input) (p : point) : list nat :=
  match p with PRelay _ sid _ => if i_relay i then [] else [sid] | _ => [] end.

Definition result_of (next : list point) (res : gmap nat (settings_t * BuildDone)) : gmap nat (settings_t * BuildDone) :=
  match next with
  | [PFinish c sid _ a] =>
      match a_end a with inl (inl done) => <[sid := (Call.settings c, done)]> res | _ => res end
  | _ => res
  end.

Definition view_after (p : point) (b b' : builder) (v : View) : View :=
  foldl tell (match p with PConnect _ => Silent | _ => v end) (drop (length (sent b)) (sent b')).*2.

Inductive event :=
  | Spawn (p : point)
  | Run (k : nat) (i : input)
  | Broken.

Definition run_thread (k : nat) (i : input) : M worker () := λ w,
  match threads w !! k with
  | None => (w, Ok tt)
  | Some p =>
      match section i p (bld w) with
      | (b, Ok next) =>
          (mkWorker b (next ++ delete k (threads w)) (lost w ++ loses i p)
             (match p with PBuild _ _ _ => result_of next (results w) | _ => results w end)
             (reported w ++ paid p) (view_after p (bld w) b (view w)), Ok tt)
      | (b, Throw e) => (mkWorker b (delete k (threads w)) (lost w) (results w) (reported w) (view w), Throw e)
      end
  end.

Definition spawned (p : point) (v : View) : View :=
  match p, v with PExpect drv _, Knows drvs => Knows ({[drv]} ∪ drvs) | _, _ => v end.

Definition run_event (ev : event) : M worker () :=
  match ev with
  | Spawn p => modify (λ w, mkWorker (bld w) (p :: threads w) (lost w) (results w) (reported w) (spawned p (view w)))
  | Run k i => run_thread k i
  | Broken => modify (λ w, mkWorker (with_session (sendFn (bld w)) false (bld w)) (threads w) (lost w) (results w)
                (reported w) (view w))
  end.

(** The session thread is one thread, and the scheduler sends nothing before a Hello. *)
Definition greeting (p : point) : bool :=
  match p with PConnect _ | PGreet | PHello _ | PGreeted | PGreetLoad => true | _ => false end.

Definition may_spawn (p : point) (w : worker) : bool :=
  match p with
  | PExpect drv _ => negb (bool_decide (drv = EmptyString)) && match view w with Knows _ => true | _ => false end
  | PConnect _ => negb (existsb greeting (threads w))
  | PRevoke _ | PTick | PSetDraining _ | PEnter _ => true
  | _ => false
  end.

Definition enabled (ev : event) (w : worker) : Prop :=
  match ev with Spawn p => may_spawn p w = true | _ => True end.

Inductive reachable : worker → Prop :=
  | reach_fresh : reachable fresh_worker
  | reach_event w ev : reachable w → enabled ev w → reachable (exec (run_event ev) w).
End Handler.
Arguments point : clear implicits.
Arguments input : clear implicits.
Arguments worker : clear implicits.
Arguments event : clear implicits.

(** Opens the operations a section consists of. *)
Tactic Notation "open_section" := cbv beta delta [onExpect onRevoke giveBack tick_take setDraining drain_take greet attach attach_follow attach_end].
Tactic Notation "open_section" "in" hyp(H) := cbv beta delta [onExpect onRevoke giveBack tick_take setDraining drain_take greet attach attach_follow attach_end] in H.

(** * A worker in the scheduler's own process

    src/src/daemon/coordinator.cc, [Coordinator]: with no scheduler to dial, the dispatcher's
    commands are calls of the builder, made while the dispatcher's mutex is held, and the
    builder's messages are calls of the dispatcher, which take that mutex.  It is not
    recursive: a thread that holds it and locks it again never goes on, which is [Undefined].

    The dispatcher's operations put their commands into the stream of a session.  The worker's session [sid] has none: what a hold of the
    mutex has queued for it are the calls of [send], in their order.  They change nothing of the dispatcher
    and their answer is always true, so that they are made at the end of the hold here. *)

Record node := mkNode { nd_disp : dispatcher; nd_bld : builder; nd_held : bool (* by this thread *) }.

Section Loopback.
Context (clock : nat → double) (ord : nat → map_order) (defaultSystem : string) (sid : N) (now : Z).

Definition lock_dispatcher : M node () :=
  s ← get;
  if nd_held s then throw Undefined else modify (λ s, mkNode (nd_disp s) (nd_bld s) true).
Definition unlock_dispatcher : M node () := modify (λ s, mkNode (nd_disp s) (nd_bld s) false).

Definition on_disp {A} (m : D A) : M node A := zoom nd_disp (λ d s, mkNode d (nd_bld s) (nd_held s)) m.
Definition on_bld {A} (m : B A) : M node A := zoom nd_bld (λ b s, mkNode (nd_disp s) b (nd_held s)) m.

(** [Builder::onExpect], all of it in one thread; [sends] is the builder's [send]. *)
Definition loop_onExpect (sends : Report → M node bool) (drv : string) (aid : N) : M node () :=
  if bool_decide (drv = EmptyString) then mret tt
  else
    s ← get;
    if draining_ (nd_bld s) then sends (RDone drv aid GIVEN_BACK DRAINING []);; mret tt
    else on_bld (expect_put drv aid now).

(** The [send] of the dispatcher's [Worker]; a Revoke is left to a thread of its own. *)
Definition loop_cmd (sends : Report → M node bool) (cmd : SchedCmd) : M node () :=
  match cmd with
  | Expect drv aid => loop_onExpect sends drv aid
  | Revoke _ | RestartingCmd => mret tt
  end.

(** The commands for the worker, which are taken off its session. *)
Definition queued_cmds (d : dispatcher) : list SchedCmd := from_option (λ ses, Reactor.accepted (Session.stream ses)) [] (sessions d !! sid).
Definition take_cmds (d : dispatcher) : dispatcher := with_sessions (alter (Session.with_stream Reactor.fresh) sid (sessions d)) d.

(** A hold of the dispatcher's mutex. *)
Definition hold {A} (sends : Report → M node bool) (m : D A) : M node A :=
  lock_dispatcher;;
  s ← get;
  match m (nd_disp s) with
  | (d, Throw e) => modify (λ s, mkNode d (nd_bld s) false);; throw e
  | (d, Ok a) =>
      modify (λ s, mkNode (take_cmds d) (nd_bld s) (nd_held s));;
      forM_ (queued_cmds d) (loop_cmd sends);;
      unlock_dispatcher;;
      mret a
  end.

(** The builder's [SendFn].  The one it calls in turn gets no further than the lock, so that a [depth] of two is enough. *)
Fixpoint loop_send (depth : nat) (msg : Report) : M node bool :=
  match depth with
  | 0 => throw OutOfFuel
  | S depth => hold (loop_send depth) (workerMsgs clock ord defaultSystem sid [to_scheduler msg]);; mret true
  end.

Lemma hold_eq {A} sends (m : D A) d b :
  hold sends m (mkNode d b false) =
    match m d with
    | (d', Throw e) => (mkNode d' b false, Throw e)
    | (d', Ok a) =>
        match forM_ (queued_cmds d') (loop_cmd sends) (mkNode (take_cmds d') b true) with
        | (s, Ok _) => (mkNode (nd_disp s) (nd_bld s) false, Ok a)
        | (s, Throw e) => (s, Throw e)
        end
    end.
Proof.
  unfold hold, lock_dispatcher, unlock_dispatcher, mbind, M_bind, get, modify. cbn [nd_held nd_disp nd_bld].
  destruct (m d) as [d' [a|e]]; [|done]. cbn [nd_held nd_disp nd_bld]. by destruct (forM_ _ _ _) as [s [[]|]].
Qed.

(** A command that the worker gives back at once. *)
Definition bounces (cmd : SchedCmd) : bool := match cmd with Expect drv _ => negb (bool_decide (drv = EmptyString)) | _ => false end.

Lemma held_send depth msg s : nd_held s = true → loop_send (S depth) msg s = (s, Throw Undefined).
Proof. intros Hh. cbn [loop_send]. unfold hold, lock_dispatcher, mbind, M_bind, get. by rewrite Hh. Qed.

Lemma loop_onExpect_eq sends drv aid s : drv ≠ EmptyString →
  loop_onExpect sends drv aid s =
    if draining_ (nd_bld s) then (sends (RDone drv aid GIVEN_BACK DRAINING []);; mret tt) s else on_bld (expect_put drv aid now) s.
Proof. intros Hd. unfold loop_onExpect. rewrite bool_decide_false by done. unfold mbind at 1, M_bind at 1, get. by destruct (draining_ (nd_bld s)). Qed.

Lemma expect_put_ok drv aid b : ∃ b', expect_put drv aid now b = (b', Ok tt) ∧ draining_ b' = draining_ b.
Proof.
  unfold expect_put, mbind, M_bind, get. destruct (expected b !! drv) as [ent|]; [destruct (Expected.claimed ent)|]; by eexists.
Qed.

(** While the mutex is held a command is done, or the worker drains and sends. *)
Lemma loop_cmd_held depth cmd d b :
  (draining_ b && bounces cmd = true → loop_cmd (loop_send (S depth)) cmd (mkNode d b true) = (mkNode d b true, Throw Undefined)) ∧
  (draining_ b && bounces cmd = false → ∃ b', loop_cmd (loop_send (S depth)) cmd (mkNode d b true) = (mkNode d b' true, Ok tt) ∧
     draining_ b' = draining_ b).
Proof.
  destruct cmd as [drv aid|drv|]; cbn [loop_cmd bounces]; rewrite ?andb_false_r; [|by split; [|exists b]..].
  destruct (decide (drv = EmptyString)) as [->|Hd].
  { rewrite bool_decide_true by done. rewrite andb_false_r. by split; [|exists b]. }
  rewrite (bool_decide_false (drv = EmptyString)), andb_true_r, loop_onExpect_eq by done. cbn [nd_bld].
  destruct (draining_ b) eqn:Hdr; (split; [|done]) || (split; [done|]); intros _.
  - unfold mbind, M_bind. by rewrite held_send.
  - destruct (expect_put_ok drv aid b) as (b' & Hput & Hb). exists b'. unfold on_bld, zoom. simpl. rewrite Hput. by split; [|congruence].
Qed.

Lemma loop_cmds_held depth cmds d b :
  (draining_ b && existsb bounces cmds = true → (forM_ cmds (loop_cmd (loop_send (S depth))) (mkNode d b true)).2 = Throw Undefined) ∧
  (draining_ b && existsb bounces cmds = false → ∃ b', forM_ cmds (loop_cmd (loop_send (S depth))) (mkNode d b true) = (mkNode d b' true, Ok tt)).
Proof.
  revert b. induction cmds as [|cmd cmds IH]; intros b; cbn [existsb forM_].
  { rewrite andb_false_r. by split; [|exists b]. }
  destruct (loop_cmd_held depth cmd d b) as [Hstop Hgo]. unfold mbind, M_bind. destruct (draining_ b && bounces cmd) eqn:Hc.
  - rewrite Hstop by done. apply andb_prop in Hc as [-> ->]. done.
  - destruct (Hgo eq_refl) as (b' & -> & Hb). specialize (IH b'). rewrite Hb in IH.
    destruct (draining_ b); [|done]. simpl in Hc. by rewrite Hc.
Qed.
End Loopback.
