(* ===== verification/BuilderInv.v ===== *)
(** * The worker: the account of its leases

    The invariant of the worker of Builder.v and that every section of a thread keeps it:
    every lease is in the table, in the hands of one thread, or reported; every running
    entry has one owner; what attached callers read is what the owner wrote. *)

From S2P Require Import Prelude Dispatcher Builder.

Section Inv.
Context {BuildDone : Type} (serialize : BuildDone → string) (parse : string → option BuildDone).
Context (opts : WorkerOptions) (workerName : string).
Implicit Types (b : builder) (p : point BuildDone) (ths : list (point BuildDone)) (res : gmap nat (settings_t * BuildDone)).

(** The leases of the table, all and those that are being built. *)
Definition leases_of (m : gmap string Expected.t) : list nat := Expected.shared <$> (map_to_list m).*2.
Definition running_of (m : gmap string Expected.t) : list nat :=
  (map_to_list m).*2 ≫= λ e, if Expected.running e then [Expected.shared e] else [].

(** The leases a thread has yet to report, and the one it builds. *)
Definition owed p : list nat :=
  match p with
  | PGiveBack drvs _ => drvs ≫= λ d, option_list d.2
  | PRevoked _ _ lease => [lease]
  | PShare _ _ found _ => [found.2]
  | PDone _ _ _ lease _ => option_list lease
  | _ => []
  end.
Definition owner p : list nat :=
  match p with POwn _ sid _ | PRelay _ sid _ | PBuild _ sid _ | PFinish _ sid _ _ => [sid] | _ => [] end.

(** The entry of a build that runs. *)
Definition building b (c : Call.t) (sid : nat) (aid : N) : Prop :=
  ∃ e, expected b !! Call.drv c = Some e ∧ Expected.shared e = sid ∧ Expected.assignId e = aid ∧ Expected.running e = true.

(** The lease [sid] is of the call's derivation, and [P] holds of its shared part. *)
Definition shares b (c : Call.t) (sid : nat) (P : Shared.t → Prop) : Prop :=
  ∃ sh, shareds b !! sid = Some sh ∧ Shared.drv sh = Call.drv c ∧ P sh.

Definition returned res (c : Call.t) (sid : nat) (a : Attempt) : Prop :=
  ∀ done, a_end a = inl (inl done) → res !! sid = Some (Call.settings c, done).

Definition point_ok b res p : Prop :=
  match p with
  | PAttach c sid | PFollow c sid => shares b c sid (λ _, True)
  | PFollowed c sid completed | PAttached c sid completed => shares b c sid (λ sh, completed = true → Shared.finished sh = true)
  | POwn c sid aid => building b c sid aid ∧ res !! sid = None
  | PRelay c sid aid | PBuild c sid aid =>
      building b c sid aid ∧ res !! sid = None ∧ shares b c sid (λ sh, Shared.settings sh = Call.settings c)
  | PFinish c sid aid a => building b c sid aid ∧ returned res c sid a
  | PShare c sid found a => found.2 = sid ∧ shares b c sid (λ _, True) ∧ returned res c sid a
  | PDone c sid _ lease a => lease = Some sid ∧ shares b c sid (λ sh, Shared.finished sh = true) ∧ returned res c sid a
  | PAnswer c sid a | PRelayEnd c sid _ a => shares b c sid (λ sh, Shared.finished sh = true) ∧ returned res c sid a
  | PReturned c (Replied done) => ∃ sid, shares b c sid (λ _, True) ∧ res !! sid = Some (Call.settings c, done)
  | _ => True
  end.

(** A result that is shared is the one the build returned. *)
Definition shared_ok res (sid : nat) (sh : Shared.t) : Prop :=
  (∀ st done, res !! sid = Some (st, done) → Shared.settings sh = st) ∧
  (Shared.resultWire sh ≠ EmptyString →
     ∃ done, res !! sid = Some (Shared.settings sh, done) ∧ Shared.resultWire sh = serialize done).

Record inv b ths (lost : list nat) res (reported : list nat) : Prop := {
  iv_account : leases_of (expected b) ++ (ths ≫= owed) ++ reported ≡ₚ seq 0 (length (shareds b));
  iv_owners : (ths ≫= owner) ++ lost ≡ₚ running_of (expected b);
  iv_claimed : ∀ d e, expected b !! d = Some e → Expected.running e = true → Expected.claimed e = true;
  iv_entry : ∀ d e, expected b !! d = Some e →
    ∃ sh, shareds b !! Expected.shared e = Some sh ∧ Shared.drv sh = d ∧
      (Expected.running e = false → res !! Expected.shared e = None);
  iv_points : Forall (point_ok b res) ths;
  iv_shared : ∀ sid sh, shareds b !! sid = Some sh → shared_ok res sid sh;
  iv_results : ∀ sid r, res !! sid = Some r → sid < length (shareds b);
}.

(** ** The table *)

Lemma leases_delete m d e : m !! d = Some e → leases_of m ≡ₚ Expected.shared e :: leases_of (delete d m).
Proof. intros H. unfold leases_of. by rewrite <- (map_to_list_delete m d e H). Qed.
Lemma running_delete m d e :
  m !! d = Some e → running_of m ≡ₚ (if Expected.running e then [Expected.shared e] else []) ++ running_of (delete d m).
Proof. intros H. unfold running_of. by rewrite <- (map_to_list_delete m d e H). Qed.
Lemma leases_insert m d e : m !! d = None → leases_of (<[d := e]> m) ≡ₚ Expected.shared e :: leases_of m.
Proof. intros H. unfold leases_of. by rewrite map_to_list_insert. Qed.
Lemma running_insert m d e :
  m !! d = None → running_of (<[d := e]> m) ≡ₚ (if Expected.running e then [Expected.shared e] else []) ++ running_of m.
Proof. intros H. unfold running_of. by rewrite map_to_list_insert. Qed.

Lemma leases_upd m d e e' :
  m !! d = Some e → Expected.shared e' = Expected.shared e → leases_of (<[d := e']> m) ≡ₚ leases_of m.
Proof.
  intros H Hs. rewrite (leases_delete m d e) by done.
  rewrite <- insert_delete_eq, leases_insert by apply lookup_delete_eq. by rewrite Hs.
Qed.
Lemma running_upd m d e e' :
  m !! d = Some e → Expected.shared e' = Expected.shared e → Expected.running e' = Expected.running e →
  running_of (<[d := e']> m) ≡ₚ running_of m.
Proof.
  intros H Hs Hr. rewrite (running_delete m d e) by done.
  rewrite <- insert_delete_eq, running_insert by apply lookup_delete_eq. by rewrite Hs, Hr.
Qed.

Lemma elem_of_leases m s : s ∈ leases_of m ↔ ∃ d e, m !! d = Some e ∧ Expected.shared e = s.
Proof.
  unfold leases_of. rewrite list_elem_of_fmap. setoid_rewrite list_elem_of_fmap. split.
  - intros (e & -> & [d e'] & -> & H). exists d, e'. split; [by apply elem_of_map_to_list|done].
  - intros (d & e & H & <-). exists e. split; [done|]. exists (d, e). split; [done|by apply elem_of_map_to_list].
Qed.
Lemma elem_of_running m s :
  s ∈ running_of m ↔ ∃ d e, m !! d = Some e ∧ Expected.running e = true ∧ Expected.shared e = s.
Proof.
  unfold running_of. rewrite list_elem_of_bind. setoid_rewrite list_elem_of_fmap. split.
  - intros (e & Hs & [d e'] & -> & H). simpl in *. apply elem_of_map_to_list in H. exists d, e'.
    destruct (Expected.running e') eqn:Hr; [|by apply not_elem_of_nil in Hs]. apply list_elem_of_singleton in Hs. done.
  - intros (d & e & H & Hr & <-). exists e. rewrite Hr. split; [by left|].
    exists (d, e). split; [done|by apply elem_of_map_to_list].
Qed.

Lemma NoDup_running m : NoDup (leases_of m) → NoDup (running_of m).
Proof.
  unfold leases_of, running_of. induction (map_to_list m).*2 as [|e l IH]; csimpl; intros Hd; [constructor|].
  apply NoDup_cons in Hd as [Hn Hd]. destruct (Expected.running e); simpl; [|by apply IH].
  apply NoDup_cons. split; [|by apply IH]. intros Hin. apply Hn.
  apply list_elem_of_bind in Hin as (e' & Hs & He'). destruct (Expected.running e'); [|by apply not_elem_of_nil in Hs].
  apply list_elem_of_singleton in Hs as ->. by apply list_elem_of_fmap_2.
Qed.

(** ** What a section leaves alone

    [X] is the lease the section's thread builds, if any. *)
Record frame b res b' res' (X : list nat) : Prop := {
  fr_shared : ∀ sid sh, shareds b !! sid = Some sh → ∃ sh', shareds b' !! sid = Some sh' ∧ Shared.drv sh' = Shared.drv sh ∧
    (Shared.finished sh = true → Shared.finished sh' = true) ∧ (sid ∉ X → Shared.settings sh' = Shared.settings sh);
  fr_results : ∀ sid r, res !! sid = Some r → res' !! sid = Some r;
  fr_quiet : ∀ sid, sid ∉ X → res' !! sid = res !! sid;
  fr_running : ∀ d e, expected b !! d = Some e → Expected.running e = true → Expected.shared e ∉ X →
    ∃ e', expected b' !! d = Some e' ∧ Expected.shared e' = Expected.shared e ∧
      Expected.assignId e' = Expected.assignId e ∧ Expected.running e' = true;
}.

Lemma frame_same b b' res X : expected b' = expected b → shareds b' = shareds b → frame b res b' res X.
Proof. intros He Hs. constructor; intros; rewrite ?He, ?Hs; eauto 10. Qed.

Lemma shares_frame b res b' res' X c sid (P Q : Shared.t → Prop) :
  frame b res b' res' X → shares b c sid P →
  (∀ sh sh', P sh → (Shared.finished sh = true → Shared.finished sh' = true) →
     (sid ∉ X → Shared.settings sh' = Shared.settings sh) → Q sh') →
  shares b' c sid Q.
Proof.
  intros Hf (sh & Hsh & Hd & HP) HPQ. destruct (fr_shared _ _ _ _ _ Hf sid sh Hsh) as (sh' & Hsh' & Hd' & Hfin & Hset).
  exists sh'. split; [done|]. split; [congruence|eauto].
Qed.

Lemma building_frame b res b' res' X c sid aid :
  frame b res b' res' X → sid ∉ X → building b c sid aid → building b' c sid aid.
Proof.
  intros Hf HX (e & He & <- & <- & Hr).
  destruct (fr_running _ _ _ _ _ Hf _ e He Hr HX) as (e' & He' & Hs & Ha & Hr'). by exists e'.
Qed.

Lemma returned_frame b res b' res' X c sid a : frame b res b' res' X → returned res c sid a → returned res' c sid a.
Proof. intros Hf H done Hd. by apply (fr_results _ _ _ _ _ Hf), H. Qed.

Lemma point_ok_frame b res b' res' X p :
  frame b res b' res' X → (∀ s, s ∈ owner p → s ∉ X) → point_ok b res p → point_ok b' res' p.
Proof.
  intros Hf HX Hok.
  assert (∀ c sid P, shares b c sid P → shares b' c sid (λ _, True)) as Hweak
    by (intros c sid P Hs; by eapply shares_frame).
  assert (∀ c sid, shares b c sid (λ sh, Shared.finished sh = true) → shares b' c sid (λ sh, Shared.finished sh = true))
    as Hfin by (intros c sid Hs; eapply shares_frame; [done..|]; auto).
  destruct p; simpl in *; try done; eauto.
  1-2: eapply shares_frame; [done..|]; simpl; eauto.
  - destruct Hok as [Hb Hr]. assert (sid ∉ X) by (apply HX; by left). split; [by eapply building_frame|].
    by rewrite (fr_quiet _ _ _ _ _ Hf).
  - destruct Hok as (Hb & Hr & Hs). assert (sid ∉ X) by (apply HX; by left). split; [by eapply building_frame|].
    rewrite (fr_quiet _ _ _ _ _ Hf) by done. split; [done|]. eapply shares_frame; [done..|]. simpl. intros ?? <-. auto.
  - destruct Hok as (Hb & Hr & Hs). assert (sid ∉ X) by (apply HX; by left). split; [by eapply building_frame|].
    rewrite (fr_quiet _ _ _ _ _ Hf) by done. split; [done|]. eapply shares_frame; [done..|]. simpl. intros ?? <-. auto.
  - destruct Hok as [Hb Hr]. assert (sid ∉ X) by (apply HX; by left).
    split; [by eapply building_frame|by eapply returned_frame].
  - destruct Hok as (? & ? & ?). split; [done|]. split; [eauto|by eapply returned_frame].
  - destruct Hok as (? & ? & ?). split; [done|]. split; [eauto|by eapply returned_frame].
  - destruct Hok as (? & ?). split; [eauto|by eapply returned_frame].
  - destruct Hok as (? & ?). split; [eauto|by eapply returned_frame].
  - destruct r; [|done]. destruct Hok as (sid & Hs & Hr). exists sid. split; [eauto|].
    by apply (fr_results _ _ _ _ _ Hf).
Qed.

(** ** Threads *)

Lemma inv_perm b ths ths' lost res rep : ths ≡ₚ ths' → inv b ths lost res rep → inv b ths' lost res rep.
Proof.
  intros Hp []. constructor; try done.
  - by rewrite <- Hp.
  - by rewrite <- Hp.
  - by rewrite <- Hp.
Qed.

Lemma inv_leases_nodup b ths lost res rep : inv b ths lost res rep → NoDup (leases_of (expected b)).
Proof.
  intros Hi. pose proof (NoDup_seq 0 (length (shareds b))) as Hn. rewrite <- (iv_account _ _ _ _ _ Hi) in Hn.
  by apply NoDup_app in Hn as [? _].
Qed.

Lemma inv_owners_nodup b ths lost res rep : inv b ths lost res rep → NoDup ((ths ≫= owner) ++ lost).
Proof.
  intros Hi. rewrite (iv_owners _ _ _ _ _ Hi). eapply NoDup_running, inv_leases_nodup, Hi.
Qed.

Lemma inv_owner_unique b p rest lost res rep s q :
  inv b (p :: rest) lost res rep → s ∈ owner p → q ∈ rest → s ∉ owner q.
Proof.
  intros Hi Hs Hq Hs'. pose proof (inv_owners_nodup _ _ _ _ _ Hi) as Hn. csimpl in Hn.
  rewrite <- app_assoc in Hn. apply NoDup_app in Hn as (_ & Hn & _). apply (Hn s Hs).
  apply elem_of_app. left. apply list_elem_of_bind. by exists q.
Qed.

(** A section: the thread [p] goes on at the points [next]. *)
Lemma inv_step b p rest lost res rep b' next lost' res' rep' X :
  inv b (p :: rest) lost res rep →
  frame b res b' res' X → X ⊆ owner p →
  (∃ n, length (shareds b') = length (shareds b) + n ∧
     leases_of (expected b') ++ (next ≫= owed) ++ rep' ≡ₚ leases_of (expected b) ++ owed p ++ seq (length (shareds b)) n) →
  owner p ++ running_of (expected b') ≡ₚ (next ≫= owner) ++ lost' ++ running_of (expected b) →
  (∀ d e, expected b' !! d = Some e → Expected.running e = true → Expected.claimed e = true) →
  (∀ d e, expected b' !! d = Some e → ∃ sh, shareds b' !! Expected.shared e = Some sh ∧ Shared.drv sh = d ∧
     (Expected.running e = false → res' !! Expected.shared e = None)) →
  Forall (point_ok b' res') next →
  (∀ sid sh, shareds b' !! sid = Some sh → shared_ok res' sid sh) →
  (∀ sid r, res' !! sid = Some r → sid < length (shareds b')) →
  inv b' (next ++ rest) (lost ++ lost') res' (rep ++ rep').
Proof.
  intros Hi Hf HX (n & Hlen & Hacc) Hown Hcl Hent Hnext Hsh Hres. constructor; try done.
  - rewrite Hlen, seq_app, Nat.add_0_l, <- (iv_account _ _ _ _ _ Hi). csimpl. rewrite bind_app.
    transitivity ((leases_of (expected b') ++ (next ≫= owed) ++ rep') ++ (rest ≫= owed) ++ rep); [solve_Permutation|].
    rewrite Hacc. solve_Permutation.
  - apply (Permutation_app_inv_l (owner p)). rewrite Hown, <- (iv_owners _ _ _ _ _ Hi). csimpl. rewrite bind_app.
    solve_Permutation.
  - apply Forall_app. split; [done|]. apply Forall_forall. intros q Hq. eapply point_ok_frame; [done| |].
    + intros s Hs HsX. eapply inv_owner_unique; [exact Hi| |exact Hq|exact Hs]. by apply HX.
    + pose proof (iv_points _ _ _ _ _ Hi) as Hp. apply Forall_cons in Hp as [_ Hp]. rewrite Forall_forall in Hp. auto.
Qed.

(** A section that leaves the table and the shared parts alone. *)
Lemma inv_pass b p rest lost res rep b' next lost' rep' :
  inv b (p :: rest) lost res rep → expected b' = expected b → shareds b' = shareds b →
  (next ≫= owed) ++ rep' ≡ₚ owed p → owner p ≡ₚ (next ≫= owner) ++ lost' →
  (point_ok b res p → Forall (point_ok b res) next) →
  inv b' (next ++ rest) (lost ++ lost') res (rep ++ rep').
Proof.
  intros Hi He Hs Hacc Hown Hok. pose proof (iv_points _ _ _ _ _ Hi) as Hp. apply Forall_cons in Hp as [Hp _].
  assert (frame b res b' res []) as Hf by by apply frame_same.
  eapply inv_step; [exact Hi|exact Hf|apply list_subseteq_nil|..]; rewrite ?He, ?Hs; try apply Hi.
  - exists 0. split; [lia|]. simpl. rewrite app_nil_r, <- Hacc. done.
  - rewrite Hown. solve_Permutation.
  - eapply Forall_impl; [by apply Hok|]. intros q Hq. eapply point_ok_frame; [exact Hf| |done].
    intros ? _. apply not_elem_of_nil.
Qed.
End Inv.
