(* ===== verification/BuilderSections.v ===== *)
(** * The worker: every section keeps the account *)

From S2P Require Import Prelude Dispatcher Builder BuilderInv.

(** ** Operations *)

Lemma wp_send msg b (Φ : bool → builder → Prop) :
  (∀ ok b', expected b' = expected b → shareds b' = shareds b → draining_ b' = draining_ b → sendFn b' = sendFn b →
     live b' = live b → (ok = true → ∃ n, live b = true ∧ sent b' = sent b ++ [(n, msg)]) → (ok = false → b' = b) → Φ ok b') →
  wp (send msg) Φ b.
Proof.
  intros H. unfold send. wp_steps. destruct (sendFn b) as [n|] eqn:Hs.
  - destruct (live b) eqn:Hl; wp_steps; apply H; try done. intros _. exists n. done.
  - wp_steps. by apply H.
Qed.

Definition due (pred : Expected.t → bool) (e : Expected.t) : bool := negb (Expected.claimed e) && pred e.

(** What [takeUnclaimed] takes from the table, and what it leaves. *)
Lemma wp_takeUnclaimed order pred b (Φ : list (string * N * nat) → builder → Prop) :
  order ≡ₚ map_to_list (expected b) →
  (∀ taken b', shareds b' = shareds b → draining_ b' = draining_ b → sendFn b' = sendFn b → live b' = live b →
     sent b' = sent b →
     (∀ d e, expected b' !! d = Some e ↔ expected b !! d = Some e ∧ due pred e = false) →
     (∀ d aid s, (d, aid, s) ∈ taken ↔ ∃ e, expected b !! d = Some e ∧ due pred e = true ∧ aid = Expected.assignId e ∧ s = Expected.shared e) →
     leases_of (expected b) ≡ₚ leases_of (expected b') ++ taken.*2 → Φ taken b') →
  wp (takeUnclaimed order pred) Φ b.
Proof.
  intros Hord HΦ. unfold takeUnclaimed.
  assert (NoDup order.*1) as Hnd by (rewrite Hord; apply NoDup_fst_map_to_list).
  assert (∀ d e, (d, e) ∈ order ↔ expected b !! d = Some e) as Hin
    by (intros d e; rewrite Hord; apply elem_of_map_to_list).
  eapply wp_mono; [apply (wp_foldM_prefix _ (λ done taken b',
    (shareds b' = shareds b ∧ draining_ b' = draining_ b ∧ sendFn b' = sendFn b ∧ live b' = live b ∧ sent b' = sent b) ∧
    (∀ d e, expected b' !! d = Some e ↔ expected b !! d = Some e ∧ ((d, e) ∈ done → due pred e = false)) ∧
    (∀ d aid s, (d, aid, s) ∈ taken ↔
       ∃ e, (d, e) ∈ done ∧ due pred e = true ∧ aid = Expected.assignId e ∧ s = Expected.shared e) ∧
    leases_of (expected b) ≡ₚ leases_of (expected b') ++ taken.*2))|].
  - split_and!; try done; [intros d e; split; [by intros ?; split; [|intros []%not_elem_of_nil]|by intros []]| |].
    + intros d aid s. split; [by intros []%not_elem_of_nil|by intros (e & []%not_elem_of_nil & _)].
    + by rewrite app_nil_r.
  - intros done [d0 e0] rest taken b' Horder (Hsame & Hexp & Htk & Hls). cbn [fst snd]. fold (due pred e0).
    assert (d0 ∉ done.*1) as Hd0.
    { rewrite Horder, fmap_app in Hnd. csimpl in Hnd. apply NoDup_app in Hnd as (_ & Hn & _).
      intros Hd. apply (Hn d0 Hd). by left. }
    assert (∀ e, (d0, e) ∉ done) as Hd0'.
    { intros e He. apply Hd0, list_elem_of_fmap. by exists (d0, e). }
    assert (expected b !! d0 = Some e0) as Hb0 by (apply Hin; rewrite Horder; apply elem_of_app; right; by left).
    assert (expected b' !! d0 = Some e0) as He0.
    { apply Hexp. split; [done|]. intros He. by apply Hd0' in He. }
    destruct (due pred e0) eqn:Hdue; wp_steps.
    + split_and!; try apply Hsame.
      * intros d e. simpl. rewrite lookup_delete_Some, Hexp, elem_of_app, list_elem_of_singleton. split.
        -- intros [Hne [? Hd]]. split; [done|]. intros [?|[= -> ->]]; [by apply Hd|done].
        -- intros [He Hd]. split; [|split; [done|intros; apply Hd; by left]].
           intros <-. rewrite Hb0 in He. injection He as <-. rewrite Hd in Hdue; [done|by right].
      * intros d aid s. rewrite elem_of_app, list_elem_of_singleton, Htk. setoid_rewrite elem_of_app.
        setoid_rewrite list_elem_of_singleton. split.
        -- intros [(e & ? & ? & -> & ->)|[= -> -> ->]]; [by exists e; auto|]. exists e0. auto.
        -- intros (e & [?|[= -> ->]] & ? & -> & ->); [left; by exists e|by right].
      * simpl. rewrite fmap_app. simpl. rewrite Hls, (leases_delete (expected b') d0 e0) by done. solve_Permutation.
    + split_and!; try apply Hsame; try done.
      * intros d e. rewrite Hexp, elem_of_app, list_elem_of_singleton. split.
        -- intros [? Hd]. split; [done|]. by intros [?|[= -> ->]]; [apply Hd|].
        -- intros [? Hd]. split; [done|]. intros; apply Hd; by left.
      * intros d aid s. rewrite Htk. setoid_rewrite elem_of_app. setoid_rewrite list_elem_of_singleton. split.
        -- intros (e & ? & ?). exists e. auto.
        -- intros (e & [?|[= -> ->]] & Hd & ?); [by exists e|congruence].
  - intros taken b' ((Hs & Hdr & Hsf & Hlv & Hst) & Hexp & Htk & Hls). apply HΦ; try done.
    + intros d e. rewrite Hexp. split; intros [He Hd]; (split; [done|]); [apply Hd; by apply Hin|done].
    + intros d aid s. rewrite Htk. setoid_rewrite Hin. done.
Qed.

Section Sections.
Context {BuildDone : Type} (serialize : BuildDone → string) (parse : string → option BuildDone).
Context (opts : WorkerOptions) (workerName : string).
Implicit Types (b : builder) (p : point BuildDone) (rest : list (point BuildDone)).

Abbreviation inv := (inv serialize).

(** A section that changes the table alone. *)
Lemma inv_table b p rest lost res rep b' next rep' X :
  inv b (p :: rest) lost res rep → shareds b' = shareds b → X ⊆ owner p →
  (∀ d e, expected b !! d = Some e → Expected.running e = true → Expected.shared e ∉ X →
     ∃ e', expected b' !! d = Some e' ∧ Expected.shared e' = Expected.shared e ∧
       Expected.assignId e' = Expected.assignId e ∧ Expected.running e' = true) →
  leases_of (expected b') ++ (next ≫= owed) ++ rep' ≡ₚ leases_of (expected b) ++ owed p →
  owner p ++ running_of (expected b') ≡ₚ (next ≫= owner) ++ running_of (expected b) →
  (∀ d e', expected b' !! d = Some e' → ∃ e, expected b !! d = Some e ∧ Expected.shared e' = Expected.shared e ∧
     (Expected.running e' = false → Expected.running e = false) ∧
     (Expected.running e' = true → Expected.claimed e' = true)) →
  (point_ok b res p → Forall (point_ok b' res) next) →
  inv b' (next ++ rest) (lost ++ []) res (rep ++ rep').
Proof.
  intros Hi Hs HX Hrun Hacc Hown Hent Hok. pose proof (iv_points _ _ _ _ _ _ Hi) as Hp. apply Forall_cons in Hp as [Hp _].
  eapply (inv_step serialize b p rest lost res rep b' next [] res rep' X); [exact Hi| |exact HX|..]; rewrite ?Hs.
  - constructor; rewrite ?Hs; eauto 10.
  - exists 0. split; [lia|]. by rewrite Hacc, app_nil_r.
  - done.
  - intros d e He. by destruct (Hent d e He) as (? & _ & _ & _ & ?).
  - intros d e' He'. destruct (Hent d e' He') as (e & He & Hse & Hr & _).
    destruct (iv_entry _ _ _ _ _ _ Hi d e He) as (sh & Hsh & Hd & Hres). exists sh. rewrite Hse. auto.
  - by apply Hok.
  - apply Hi.
  - apply Hi.
Qed.

(** A section that changes the shared part of one lease alone. *)
Lemma inv_upd_shared b p rest lost res rep sid sh sh' next rep' X :
  inv b (p :: rest) lost res rep → shareds b !! sid = Some sh → X ⊆ owner p →
  Shared.drv sh' = Shared.drv sh → (Shared.finished sh = true → Shared.finished sh' = true) →
  (sid ∈ X ∨ Shared.settings sh' = Shared.settings sh) → shared_ok serialize res sid sh' →
  (next ≫= owed) ++ rep' ≡ₚ owed p → owner p ≡ₚ next ≫= owner →
  (point_ok b res p → Forall (point_ok (with_shareds (<[sid := sh']> (shareds b)) b) res) next) →
  inv (with_shareds (<[sid := sh']> (shareds b)) b) (next ++ rest) (lost ++ []) res (rep ++ rep').
Proof.
  intros Hi Hsh HX Hd Hfin Hset Hok' Hacc Hown Hok.
  pose proof (iv_points _ _ _ _ _ _ Hi) as Hp. apply Forall_cons in Hp as [Hp _].
  assert (sid < length (shareds b)) as Hlt by (by eapply lookup_lt_Some).
  eapply (inv_step serialize b p rest lost res rep _ next [] res rep' X); [exact Hi| |exact HX|..]; cbn [with_shareds shareds expected].
  - constructor; cbn [with_shareds shareds expected]; eauto 10. intros s' sh0 Hs0.
    destruct (decide (s' = sid)) as [->|Hne].
    + rewrite list_lookup_insert_eq by done. exists sh'. rewrite Hsh in Hs0. injection Hs0 as <-.
      split_and!; try done. intros Hn. by destruct Hset.
    + rewrite list_lookup_insert_ne by done. by exists sh0.
  - exists 0. rewrite length_insert. split; [lia|]. by rewrite Hacc, app_nil_r.
  - by rewrite Hown.
  - apply Hi.
  - intros d e He. destruct (iv_entry _ _ _ _ _ _ Hi d e He) as (sh0 & Hsh0 & Hd0 & Hres).
    destruct (decide (Expected.shared e = sid)) as [Heq|Hne].
    + rewrite Heq, list_lookup_insert_eq by done. exists sh'. rewrite Heq, Hsh in Hsh0. injection Hsh0 as <-.
      rewrite <- Heq. split_and!; [done|congruence|done].
    + rewrite list_lookup_insert_ne by done. by exists sh0.
  - by apply Hok.
  - intros s' sh0 Hs0. apply list_lookup_insert_Some in Hs0 as [(<- & <- & _)|[_ Hs0]]; [done|]. by apply Hi.
  - rewrite length_insert. apply Hi.
Qed.

(** The shared part of a lease exists. *)
Lemma wp_get_shared sid sh b (Φ : Shared.t → builder → Prop) :
  shareds b !! sid = Some sh → Φ sh b → wp (get_shared sid) Φ b.
Proof. intros Hs HΦ. unfold get_shared. by wp_steps. Qed.
Lemma wp_upd_shared sid sh f b (Φ : () → builder → Prop) :
  shareds b !! sid = Some sh → Φ tt (with_shareds (<[sid := f sh]> (shareds b)) b) → wp (upd_shared sid f) Φ b.
Proof. intros Hs HΦ. unfold upd_shared. by wp_steps. Qed.

(** ** The table's sections *)

Lemma expect_put_inv b drv aid now aid0 rest lost res rep :
  inv b (PExpectPut drv aid0 :: rest) lost res rep →
  wp (expect_put drv aid now) (λ _ b', inv b' ([] ++ rest) (lost ++ []) res (rep ++ [])) b.
Proof.
  intros Hi. unfold expect_put. wp_steps. destruct (expected b !! drv) as [ent|] eqn:He.
  - destruct (Expected.claimed ent) eqn:Hc; wp_steps.
    { eapply inv_pass; [exact Hi|done..]. }
    assert (Expected.running ent = false) as Hr.
    { destruct (Expected.running ent) eqn:Hr; [|done]. by rewrite (iv_claimed _ _ _ _ _ _ Hi drv ent) in Hc. }
    eapply (inv_table _ _ _ _ _ _ _ [] [] []); [exact Hi|done|apply list_subseteq_nil|..]; cbn [with_expected expected owed owner].
    + intros d e Hd Hrun _. destruct (decide (d = drv)) as [->|]; [congruence|]. rewrite lookup_insert_ne by done. by exists e.
    + rewrite app_nil_r. simpl. rewrite !app_nil_r. by apply (leases_upd _ drv ent).
    + by apply (running_upd _ drv ent).
    + intros d e'. rewrite lookup_insert_Some. intros [[<- <-]|[? Hd]]; [exists ent; simpl; split_and!; auto; congruence|].
      exists e'. split_and!; try done. by apply (iv_claimed _ _ _ _ _ _ Hi d).
    + constructor.
  - wp_steps. set (b' := with_expected _ _).
    assert (length (shareds b') = length (shareds b) + 1) as Hlen by (simpl; by rewrite length_app).
    eapply (inv_step _ _ _ _ _ _ _ b' [] [] res [] []); [exact Hi| |apply list_subseteq_nil|..]; cbn [owed owner].
    + constructor; try done.
      * intros sid sh Hs. simpl. rewrite (lookup_app_l_Some _ _ _ _ Hs). by exists sh.
      * intros d e Hd Hr _. simpl. rewrite lookup_insert_ne by congruence. by exists e.
    + exists 1. split; [done|]. simpl. rewrite leases_insert by done. simpl. rewrite !app_nil_r. solve_Permutation.
    + simpl. by rewrite running_insert.
    + intros d e. simpl. rewrite lookup_insert_Some. intros [[<- <-]|[? Hd]]; [done|by apply (iv_claimed _ _ _ _ _ _ Hi d)].
    + intros d e. simpl. rewrite lookup_insert_Some. intros [[<- <-]|[? Hd]]; simpl.
      * exists (Shared.fresh drv). rewrite lookup_app_r, Nat.sub_diag by done. split_and!; [done..|]. intros _.
        destruct (res !! length (shareds b)) eqn:Hres; [|done]. apply (iv_results _ _ _ _ _ _ Hi) in Hres. lia.
      * destruct (iv_entry _ _ _ _ _ _ Hi d e Hd) as (sh & Hsh & Hd' & Hres). exists sh.
        by rewrite (lookup_app_l_Some _ _ _ _ Hsh).
    + constructor.
    + intros sid sh. simpl. rewrite lookup_app_Some. intros [Hs|[Hge Hs]]; [by apply Hi|].
      apply list_lookup_singleton_Some in Hs as [Hs <-]. split; [|done]. intros st done Hres.
      apply (iv_results _ _ _ _ _ _ Hi) in Hres. lia.
    + intros sid r Hr. rewrite Hlen. apply (iv_results _ _ _ _ _ _ Hi) in Hr. lia.
Qed.

(** [claim] and [admits] mark an entry; what is running stays so. *)
Lemma inv_mark b p rest lost res rep drv ent ent' next :
  inv b (p :: rest) lost res rep → expected b !! drv = Some ent →
  Expected.shared ent' = Expected.shared ent → Expected.assignId ent' = Expected.assignId ent →
  Expected.claimed ent' = true → (Expected.running ent = true → Expected.running ent' = true) →
  owed p = [] → owner p = [] → next ≫= owed = [] →
  (if Expected.running ent' && negb (Expected.running ent) then [Expected.shared ent] else []) = next ≫= owner →
  Forall (point_ok (with_expected (<[drv := ent']> (expected b)) b) res) next →
  inv (with_expected (<[drv := ent']> (expected b)) b) (next ++ rest) (lost ++ []) res (rep ++ []).
Proof.
  intros Hi He Hs Ha Hc Hr Howed Howner Hnext Hown Hok.
  eapply (inv_table _ _ _ _ _ _ _ next [] []); [exact Hi|done|apply list_subseteq_nil|..];
    rewrite ?Howed, ?Howner, ?Hnext; cbn [with_expected expected].
  - intros d e Hd Hrun _. destruct (decide (d = drv)) as [->|]; [|rewrite lookup_insert_ne by done; by exists e].
    rewrite lookup_insert_eq. exists ent'. rewrite He in Hd. injection Hd as <-. auto.
  - rewrite !app_nil_r. by apply (leases_upd _ drv ent).
  - rewrite <- Hown. simpl. rewrite (running_delete (expected b) drv ent) by done.
    rewrite <- insert_delete_eq, running_insert by apply lookup_delete_eq. rewrite Hs.
    destruct (Expected.running ent') eqn:E', (Expected.running ent) eqn:E; simpl; try done. by specialize (Hr eq_refl).
  - intros d e'. rewrite lookup_insert_Some. intros [[<- <-]|[? Hd]].
    + exists ent. split_and!; try done. intros Hf. destruct (Expected.running ent); [|done]. by rewrite Hr in Hf.
    + exists e'. split_and!; try done. by apply (iv_claimed _ _ _ _ _ _ Hi d).
  - done.
Qed.

Lemma claim_inv b c rest lost res rep :
  inv b (PClaim c :: rest) lost res rep →
  wp (claim (Call.drv c)) (λ _ b', inv b' ([PValid c] ++ rest) (lost ++ []) res (rep ++ [])) b.
Proof.
  intros Hi. unfold claim. wp_steps. destruct (expected b !! Call.drv c) as [ent|] eqn:He; wp_steps.
  - eapply (inv_mark _ (PClaim c) _ _ _ _ _ ent); try done; [|by repeat constructor]. simpl. by destruct (Expected.running ent).
  - eapply inv_pass; [exact Hi|done..|]. intros _. by repeat constructor.
Qed.

Lemma admit_inv b c rest lost res rep next :
  inv b (PAdmit c :: rest) lost res rep →
  (∀ adm, next (Some adm) = if adm_attach adm then [PAttach c (adm_shared adm)] else [POwn c (adm_shared adm) (adm_assignId adm)]) →
  (∃ code msg, next None = [PReturned c (Refused code msg)]) →
  wp (admits (Call.drv c)) (λ adm b', inv b' (next adm ++ rest) (lost ++ []) res (rep ++ [])) b.
Proof.
  intros Hi Hsome (code & msg & Hnone). unfold admits. wp_steps.
  destruct (expected b !! Call.drv c) as [ent|] eqn:He; wp_steps.
  - rewrite Hsome. cbn [adm_attach adm_shared adm_assignId].
    destruct (iv_entry _ _ _ _ _ _ Hi _ _ He) as (sh & Hsh & Hd & Hres).
    eapply (inv_mark _ (PAdmit c) _ _ _ _ _ ent); try done.
    + by destruct (Expected.running ent).
    + simpl. by destruct (Expected.running ent).
    + destruct (Expected.running ent) eqn:Hr; repeat constructor; simpl.
      * by exists sh.
      * exists (Expected.with_running ent). simpl. rewrite lookup_insert_eq. done.
      * auto.
  - rewrite Hnone. eapply inv_pass; [exact Hi|done..|]. intros _. by repeat constructor.
Qed.

Lemma revoke_inv b drv rest lost res rep :
  inv b (PRevoke drv :: rest) lost res rep →
  wp (revoke_take drv) (λ taken b',
    inv b' (match taken with Some (aid, lease) => [PRevoked drv aid lease] | None => [] end ++ rest) (lost ++ []) res (rep ++ [])) b.
Proof.
  intros Hi. unfold revoke_take. wp_steps. destruct (expected b !! drv) as [ent|] eqn:He; wp_steps.
  2: { eapply inv_pass; [exact Hi|done..]. }
  destruct (Expected.running ent) eqn:Hr; wp_steps.
  - destruct (iv_entry _ _ _ _ _ _ Hi _ _ He) as (sh & Hsh & Hd & _). eapply wp_upd_shared; [exact Hsh|]. wp_steps.
    eapply (inv_upd_shared _ _ _ _ _ _ _ _ _ [] [] []); [exact Hi|done|apply list_subseteq_nil|..]; try done; [by right|].
    apply (iv_shared _ _ _ _ _ _ Hi _ _ Hsh).
  - eapply (inv_table _ _ _ _ _ _ _ [PRevoked drv _ _] [] []); [exact Hi|done|apply list_subseteq_nil|..]; cbn [with_expected expected].
    + intros d e Hd Hrun _. exists e. rewrite lookup_delete_ne by congruence. done.
    + simpl. rewrite (leases_delete (expected b) drv ent) by done. solve_Permutation.
    + simpl. rewrite (running_delete (expected b) drv ent) by done. by rewrite Hr.
    + intros d e' Hd. apply lookup_delete_Some in Hd as [_ Hd]. exists e'. split_and!; try done.
      by apply (iv_claimed _ _ _ _ _ _ Hi d).
    + intros _. by repeat constructor.
Qed.

Lemma running_of_subset m m' :
  (∀ d e, m !! d = Some e → Expected.running e = true → m' !! d = Some e) →
  (∀ d e, m' !! d = Some e → m !! d = Some e) → NoDup (leases_of m) → NoDup (leases_of m') → running_of m' ≡ₚ running_of m.
Proof.
  intros H1 H2 Hn Hn'. apply NoDup_Permutation; [by apply NoDup_running..|]. intros s. rewrite !elem_of_running.
  split; intros (d & e & He & Hr & Hs); exists d, e; auto.
Qed.

Lemma give_back_owed (taken : list (string * N * nat)) reason :
  owed (PGiveBack (BuildDone:=BuildDone) ((λ t, (t.1, Some t.2)) <$> taken) reason) = taken.*2.
Proof. simpl. induction taken as [|t l IH]; [done|]. csimpl. by f_equal. Qed.

Lemma take_inv i b p rest lost res rep pred reason :
  inv b (p :: rest) lost res rep → owed p = [] → owner p = [] →
  wp (takeUnclaimed (i_order (BuildDone:=BuildDone) i (expected b)) pred) (λ taken b',
    inv b' ([PGiveBack ((λ t, (t.1, Some t.2)) <$> taken) reason] ++ rest) (lost ++ []) res (rep ++ [])) b.
Proof.
  intros Hi Howed Howner. apply wp_takeUnclaimed; [apply i_order_perm|].
  intros taken b' Hs _ _ _ _ Hexp Htk Hls. pose proof (inv_leases_nodup _ _ _ _ _ _ Hi) as Hnd.
  assert (∀ d e, expected b !! d = Some e → Expected.running e = true → expected b' !! d = Some e) as Hkeep.
  { intros d e He Hr. apply Hexp. split; [done|]. unfold due. by rewrite (iv_claimed _ _ _ _ _ _ Hi d e). }
  assert (∀ d e, expected b' !! d = Some e → expected b !! d = Some e) as Hsub by (intros d e He; by apply Hexp in He as []).
  eapply (inv_table _ _ _ _ _ _ _ [_] [] []); [exact Hi|exact Hs|apply list_subseteq_nil|..]; rewrite ?Howed, ?Howner.
  - intros d e He Hr _. exists e. split; [by apply Hkeep|done].
  - cbn [mbind list_bind]. rewrite give_back_owed, !app_nil_r. by rewrite Hls.
  - simpl. apply running_of_subset; try done. rewrite Hls in Hnd. by apply NoDup_app in Hnd as [? _].
  - intros d e' He'. exists e'. split_and!; [by apply Hsub|done..|]. intros Hr.
    apply (iv_claimed _ _ _ _ _ _ Hi d e'); auto.
  - intros _. by repeat constructor.
Qed.

(** The owner's entry is its own: nobody else takes it from the table. *)
Lemma finish_inv b c sid aid a rest lost res rep next :
  inv b (PFinish c sid aid a :: rest) lost res rep →
  (∀ found, next (Some found) = [PShare c sid found a]) →
  wp (finish_take (Call.drv c)) (λ found b',
    found = Some (aid, sid) ∧ inv b' (next found ++ rest) (lost ++ []) res (rep ++ [])) b.
Proof.
  intros Hi Hnext. unfold finish_take. wp_steps.
  pose proof (iv_points _ _ _ _ _ _ Hi) as Hp. apply Forall_cons in Hp as [[Hb Hret] _].
  destruct Hb as (e & He & Hs & Ha & Hr). rewrite He. wp_steps. rewrite Hs, Ha, Hnext. split; [done|].
  destruct (iv_entry _ _ _ _ _ _ Hi _ _ He) as (sh & Hsh & Hd & _). rewrite Hs in Hsh.
  pose proof (inv_leases_nodup _ _ _ _ _ _ Hi) as Hnd. rewrite (leases_delete _ _ e) in Hnd by done.
  apply NoDup_cons in Hnd as [Hni _].
  eapply (inv_table _ _ _ _ _ _ _ [PShare c sid (aid, sid) a] [] [sid]); [exact Hi|done|done|..]; cbn [with_expected expected].
  - intros d e0 Hd0 Hrun Hn. exists e0. split; [|done]. apply lookup_delete_Some. split; [|done].
    intros <-. rewrite He in Hd0. injection Hd0 as <-. rewrite Hs in Hn. by apply Hn, list_elem_of_singleton.
  - simpl. rewrite (leases_delete (expected b) _ e) by done. rewrite Hs. solve_Permutation.
  - simpl. rewrite (running_delete (expected b) _ e) by done. by rewrite Hr, Hs.
  - intros d e' Hd'. apply lookup_delete_Some in Hd' as [_ Hd']. exists e'. split_and!; try done.
    by apply (iv_claimed _ _ _ _ _ _ Hi d).
  - intros _. constructor; [|constructor]. split; [done|]. split; [by exists sh|done].
Qed.

(** ** The sections of an attached caller and of an owner *)

(** The shared part of the thread's lease. *)
Lemma inv_shares b p rest lost res rep c sid P :
  inv b (p :: rest) lost res rep → (point_ok b res p → shares b c sid P) →
  ∃ sh, shareds b !! sid = Some sh ∧ Shared.drv sh = Call.drv c ∧ P sh ∧ shared_ok serialize res sid sh.
Proof.
  intros Hi H. pose proof (iv_points _ _ _ _ _ _ Hi) as Hp. apply Forall_cons in Hp as [Hp _].
  destruct (H Hp) as (sh & Hsh & Hd & HP). exists sh. split_and!; try done. by apply (iv_shared _ _ _ _ _ _ Hi).
Qed.

Lemma shares_insert b c sid sh' (P : Shared.t → Prop) :
  sid < length (shareds b) → Shared.drv sh' = Call.drv c → P sh' →
  shares (with_shareds (<[sid := sh']> (shareds b)) b) c sid P.
Proof. intros. exists sh'. simpl. by rewrite list_lookup_insert_eq. Qed.

Lemma attach_count_inv b p c sid sh n rest lost res rep next (P : Shared.t → Prop) :
  inv b (p :: rest) lost res rep → shareds b !! sid = Some sh → Shared.drv sh = Call.drv c →
  owed p = [] → owner p = [] → next ≫= owed = [] → next ≫= owner = [] → shared_ok serialize res sid sh →
  (P (Shared.with_attached n sh)) →
  (∀ b', shares b' c sid P → Forall (point_ok b' res) next) →
  inv (with_shareds (<[sid := Shared.with_attached n sh]> (shareds b)) b) (next ++ rest) (lost ++ []) res (rep ++ []).
Proof.
  intros Hi Hsh Hd H1 H2 H3 H4 Hok HP Hnext.
  eapply (inv_upd_shared _ _ _ _ _ _ _ _ _ next [] []); [exact Hi|exact Hsh|apply list_subseteq_nil|..]; try done; [by right|..].
  - by rewrite H1, H3.
  - by rewrite H2, H4.
  - intros _. apply Hnext, shares_insert; [by eapply lookup_lt_Some|done..].
Qed.

Lemma own_inv b c sid aid sh rest lost res rep :
  inv b (POwn c sid aid :: rest) lost res rep → shareds b !! sid = Some sh → Shared.drv sh = Call.drv c →
  inv (with_shareds (<[sid := Shared.with_settings (Call.settings c) sh]> (shareds b)) b)
    ([PRelay c sid aid] ++ rest) (lost ++ []) res (rep ++ []).
Proof.
  intros Hi Hsh Hd. pose proof (iv_points _ _ _ _ _ _ Hi) as Hp. apply Forall_cons in Hp as [[Hb Hn] _].
  destruct (iv_shared _ _ _ _ _ _ Hi _ _ Hsh) as [_ Hwire].
  eapply (inv_upd_shared _ _ _ _ _ _ _ _ _ [_] [] [sid]); [exact Hi|exact Hsh|done|..]; try done; [by left; left|..].
  - split; [intros st done Hr; congruence|]. simpl. intros Hw. destruct (Hwire Hw) as (done & Hr & _). congruence.
  - intros _. constructor; [|constructor]. split; [exact Hb|]. split; [done|].
    apply shares_insert; [by eapply lookup_lt_Some|done..].
Qed.

Lemma build_inv b c sid aid a sh rest lost res rep :
  inv b (PBuild c sid aid :: rest) lost res rep → shareds b !! sid = Some sh → Shared.settings sh = Call.settings c →
  inv b ([PFinish c sid aid a] ++ rest) (lost ++ []) (result_of [PFinish c sid aid a] res) (rep ++ []).
Proof.
  intros Hi Hsh Hset. pose proof (iv_points _ _ _ _ _ _ Hi) as Hp. apply Forall_cons in Hp as [(Hb & Hn & _) _].
  simpl. destruct (a_end a) as [[done|st]|r] eqn:Ha.
  2-3: eapply (inv_pass _ _ _ _ _ _ _ _ [_]); [exact Hi|done..|]; intros _; constructor; [|constructor];
    split; [exact Hb|]; intros ? ?; congruence.
  assert (frame b res b (<[sid:=(Call.settings c, done)]> res) [sid]) as Hf.
  { constructor; eauto 10.
    - intros s r Hr. rewrite lookup_insert_ne; [done|congruence].
    - intros s Hs. rewrite lookup_insert_ne; [done|]. intros ->. by apply Hs, list_elem_of_singleton. }
  eapply (inv_step _ _ _ _ _ _ _ b [_] [] _ []); [exact Hi|exact Hf|done|..]; try apply Hi.
  - exists 0. split; [lia|]. simpl. by rewrite !app_nil_r.
  - done.
  - intros d e He. destruct (iv_entry _ _ _ _ _ _ Hi d e He) as (sh0 & Hsh0 & Hd & Hres). exists sh0.
    split_and!; try done. intros Hr. rewrite lookup_insert_ne; [by apply Hres|]. intros ->.
    destruct Hb as (e' & He' & Hse & _ & Hr'). pose proof (inv_leases_nodup _ _ _ _ _ _ Hi) as Hnd.
    destruct (decide (d = Call.drv c)) as [->|Hne]; [congruence|].
    rewrite (leases_delete _ _ e' He') in Hnd. apply NoDup_cons in Hnd as [Hnd _]. apply Hnd, elem_of_leases.
    exists d, e. split; [by rewrite lookup_delete_ne|done].
  - constructor; [|constructor]. split; [exact Hb|]. intros d Hd. rewrite Ha in Hd. injection Hd as <-. apply lookup_insert_eq.
  - intros s sh0 Hs. destruct (iv_shared _ _ _ _ _ _ Hi s sh0 Hs) as [H1 H2].
    destruct (decide (s = sid)) as [->|Hne]; [|by unfold shared_ok; rewrite lookup_insert_ne].
    rewrite Hsh in Hs. injection Hs as <-. split.
    + intros st d. rewrite lookup_insert_eq. by intros [= <- <-].
    + intros Hw. destruct (H2 Hw) as (d & Hr & _). congruence.
  - intros s r. rewrite lookup_insert_Some. intros [[<- _]|[_ Hr]]; [by eapply lookup_lt_Some|].
    by eapply (iv_results _ _ _ _ _ _ Hi).
Qed.

Lemma share_inv b c sid aid a sh rest lost res rep :
  inv b (PShare c sid (aid, sid) a :: rest) lost res rep → shareds b !! sid = Some sh → Shared.drv sh = Call.drv c →
  inv (with_shareds (<[sid := Shared.with_result (report_of serialize a).2 sh]> (shareds b)) b)
    ([PDone c sid aid (Some sid) a] ++ rest) (lost ++ []) res (rep ++ []).
Proof.
  intros Hi Hsh Hd. pose proof (iv_points _ _ _ _ _ _ Hi) as Hp. apply Forall_cons in Hp as [(_ & _ & Hret) _].
  destruct (iv_shared _ _ _ _ _ _ Hi _ _ Hsh) as [Hst _].
  eapply (inv_upd_shared _ _ _ _ _ _ _ _ _ [_] [] []); [exact Hi|exact Hsh|apply list_subseteq_nil|..]; try done; [by right|..].
  - split; [done|]. simpl. unfold report_of. destruct (a_end a) as [[done|[code msg]]|r] eqn:Ha.
    + intros _. exists done. pose proof (Hret done Ha) as Hr. by rewrite (Hst _ _ Hr).
    + by destruct (giveBackReason code).
    + by destruct r.
  - intros _. constructor; [|constructor]. split; [done|]. split; [|done].
    apply shares_insert; [by eapply lookup_lt_Some|done..].
Qed.

(** ** All sections *)

Context (parse_serialize : ∀ done, parse (serialize done) = Some done).

Lemma attached_reply_ok i b c sid sh res completed :
  shareds b !! sid = Some sh → Shared.drv sh = Call.drv c → shared_ok serialize res sid sh →
  point_ok b res (PReturned c (attached_reply parse workerName i c sh completed)).
Proof.
  intros Hsh Hd [_ Hw]. unfold attached_reply. destruct (Shared.revoked sh); [done|].
  destruct completed; [|done]. simpl. case_bool_decide as Hwire; [done|]. case_bool_decide as Hset; [done|].
  destruct (Hw Hwire) as (done & Hr & ->). rewrite parse_serialize. exists sid. split; [by exists sh|].
  rewrite Hr. destruct (decide (Shared.settings sh = Call.settings c)) as [->|]; done.
Qed.

Definition results_after p (next : list (point BuildDone)) (res : gmap nat (settings_t * BuildDone)) :=
  match p with PBuild _ _ _ => result_of next res | _ => res end.

Ltac pass Hi := eapply inv_pass; [exact Hi|done..|]; intros ?; repeat constructor; try done.

(** Which part of the program a point belongs to: the table, a call before its build ends, or after. *)
Definition part (p : point BuildDone) : nat :=
  match p with
  | PFinish _ _ _ _ | PShare _ _ _ _ | PDone _ _ _ _ _ | PAnswer _ _ _ | PRelayEnd _ _ _ _ | PReturned _ _ => 2
  | PEnter _ | PClaim _ | PValid _ | PAdmit _ | PAttach _ _ | PFollow _ _ | PFollowed _ _ _ | PAttached _ _ _
  | POwn _ _ _ | PRelay _ _ _ | PBuild _ _ _ => 1
  | _ => 0
  end.

Lemma table_inv i p b rest lost res rep :
  part p = 0 → inv b (p :: rest) lost res rep →
  wp (section serialize parse opts workerName i p) (λ next b',
    inv b' (next ++ rest) (lost ++ loses i p) (results_after p next res) (rep ++ paid p)) b.
Proof.
  intros Hk Hi. destruct p; try done; cbn [section loses results_after paid]; open_section.
  - case_bool_decide; wp_steps; [pass Hi|]. destruct (draining_ b); wp_steps; pass Hi.
  - apply wp_bind. eapply wp_mono; [by eapply expect_put_inv|]. intros [] b' ?. by wp_steps.
  - apply wp_bind. eapply wp_mono; [by eapply revoke_inv|]. intros taken b' ?. by wp_steps.
  - wp_steps. pass Hi.
  - apply wp_bind, wp_get, wp_bind. eapply wp_mono; [by eapply take_inv|]. intros taken b' Hi'. wp_steps. apply Hi'.
  - wp_steps. case_bool_decide; pass Hi.
  - apply wp_bind, wp_send. intros ok b' He Hs _ _ _ _ _. wp_steps. destruct draining; pass Hi.
  - apply wp_bind, wp_get, wp_bind. eapply wp_mono; [by eapply take_inv|]. intros taken b' Hi'. wp_steps. apply Hi'.
  - unfold setSend. wp_steps. pass Hi.
  - wp_steps. pass Hi.
  - apply wp_bind, wp_send. intros ok b' He Hs _ _ _ _ _. wp_steps. destruct ok; pass Hi.
  - wp_steps. destruct (draining_ b); pass Hi.
  - apply wp_bind, wp_send. intros ok b' He Hs _ _ _ _ _. wp_steps. pass Hi.
  - destruct drvs as [|[[drv aid] lease] drvs]; [wp_steps; pass Hi|].
    apply wp_bind, wp_send. intros ok b' He Hs _ _ _ _ _. wp_steps.
    eapply inv_pass; [exact Hi|done..| |done|by repeat constructor]. simpl. solve_Permutation.
  - apply wp_bind, wp_send. intros ok b' He Hs _ _ _ _ _. wp_steps. pass Hi.
Qed.

Lemma call_inv i p b rest lost res rep :
  part p = 1 → inv b (p :: rest) lost res rep →
  wp (section serialize parse opts workerName i p) (λ next b',
    inv b' (next ++ rest) (lost ++ loses i p) (results_after p next res) (rep ++ paid p)) b.
Proof.
  intros Hk Hi. destruct p; try done; cbn [section loses results_after paid]; open_section.
  - wp_steps. destruct (Call.static c); cbn [negb]; [|pass Hi]. destruct (Call.lacks c); pass Hi.
  - apply wp_bind. eapply wp_mono; [by eapply claim_inv|]. intros [] b' ?. by wp_steps.
  - wp_steps. destruct (i_valid i) as [|?|[]]; pass Hi; simpl; by repeat case_match.
  - apply wp_bind. eapply wp_mono; [eapply (admit_inv _ _ _ _ _ _ (λ adm, match adm with
      | Some adm => if adm_attach adm then [PAttach c (adm_shared adm)] else [POwn c (adm_shared adm) (adm_assignId adm)]
      | None => [PReturned c (refuse workerName FAILED_PRECONDITION ("not scheduled here: " +:+ Call.drv c))] end));
      [exact Hi|done|by eexists _, _]|]. intros adm b' Hi'. by wp_steps.
  - destruct (inv_shares _ _ _ _ _ _ c sid (λ _, True) Hi) as (sh & Hsh & Hd & _ & Hok); [done|].
    eapply wp_bind, wp_get_shared; [exact Hsh|]. eapply wp_bind, wp_upd_shared; [exact Hsh|]. wp_steps.
    eapply (attach_count_inv _ _ c sid sh _ _ _ _ _ _ (λ _, True)); [exact Hi|done..|]. intros b' ?. by repeat constructor.
  - destruct (inv_shares _ _ _ _ _ _ c sid (λ _, True) Hi) as (sh & Hsh & Hd & _ & Hok); [done|].
    eapply wp_bind, wp_get_shared; [exact Hsh|]. wp_steps.
    destruct (Shared.finished sh && i_drained i) eqn:Hf;
      [|destruct (i_cancelled i || _)]; (eapply inv_pass; [exact Hi|done..|]); intros ?; constructor; try done; exists sh;
      split_and!; try done. by apply andb_prop in Hf as [? _].
  - destruct (inv_shares _ _ _ _ _ _ c sid (λ sh, completed = true → Shared.finished sh = true) Hi)
      as (sh & Hsh & Hd & Hfin & Hok); [done|].
    eapply wp_bind, wp_get_shared; [exact Hsh|]. eapply wp_bind, wp_upd_shared; [exact Hsh|]. wp_steps.
    eapply (attach_count_inv _ _ c sid sh _ _ _ _ _ _ (λ sh, completed = true → Shared.finished sh = true));
      [exact Hi|done..|]. intros b' ?. by repeat constructor.
  - destruct (inv_shares _ _ _ _ _ _ c sid (λ sh, completed = true → Shared.finished sh = true) Hi)
      as (sh & Hsh & Hd & Hfin & Hok); [done|].
    eapply wp_bind, wp_get_shared; [exact Hsh|]. wp_steps. eapply inv_pass; [exact Hi|done..|]. intros _.
    constructor; [|constructor]. by eapply attached_reply_ok.
  - pose proof (iv_points _ _ _ _ _ _ Hi) as Hp. apply Forall_cons in Hp as [[(e & He & Hs & _) _] _].
    destruct (iv_entry _ _ _ _ _ _ Hi _ _ He) as (sh & Hsh & Hd & _). rewrite Hs in Hsh.
    eapply wp_bind, wp_upd_shared; [exact Hsh|]. wp_steps. by apply own_inv.
  - wp_steps. destruct (i_relay i); [eapply inv_pass; [exact Hi|done..|]; intros ?; by constructor|].
    eapply inv_pass; [exact Hi|done..|]. intros _. constructor; [|constructor]. unfold guarded.
    destruct (negb _); [done|]. by destruct (i_gone i).
  - destruct (inv_shares _ _ _ _ _ _ c sid (λ sh, Shared.settings sh = Call.settings c) Hi)
      as (sh & Hsh & Hd & Hset & Hok); [by intros (_ & _ & ?)|].
    eapply wp_bind, wp_get_shared; [exact Hsh|]. wp_steps. by eapply build_inv.
Qed.

Lemma report_inv i p b rest lost res rep :
  part p = 2 → inv b (p :: rest) lost res rep →
  wp (section serialize parse opts workerName i p) (λ next b',
    inv b' (next ++ rest) (lost ++ loses i p) (results_after p next res) (rep ++ paid p)) b.
Proof.
  intros Hk Hi. destruct p; try done; cbn [section loses results_after paid]; open_section.
  - eapply wp_bind, wp_mono; [eapply (finish_inv _ _ _ _ _ _ _ _ _ (λ found, match found with
      | Some found => [PShare c sid found a] | None => [PDone c sid 0 None a] end)); [exact Hi|done]|]. intros found b' [-> Hi']. wp_steps. apply Hi'.
  - destruct found as [aid lease]. destruct (inv_shares _ _ _ _ _ _ c sid (λ _, lease = sid) Hi)
      as (sh & Hsh & Hd & -> & Hok); [by intros (? & (sh & ? & ? & _) & _); exists sh|].
    destruct (report_of serialize a) as [[outcome reason] wire] eqn:Hrep.
    eapply wp_bind, wp_upd_shared; [exact Hsh|]. wp_steps.
    pose proof (share_inv b c sid aid a sh rest lost res rep Hi Hsh Hd) as H. by rewrite Hrep in H.
  - destruct (report_of serialize a) as [[outcome reason] wire].
    apply wp_bind, wp_send. intros ok b' He Hs _ _ _ _ _. wp_steps. eapply inv_pass; [exact Hi|done..|].
    intros (_ & ? & ?). constructor; [|constructor]. done.
  - destruct (inv_shares _ _ _ _ _ _ c sid (λ sh, Shared.finished sh = true) Hi) as (sh & Hsh & Hd & Hf & Hok); [by intros []|].
    eapply wp_bind, wp_get_shared; [exact Hsh|]. wp_steps. eapply inv_pass; [exact Hi|done..|].
    intros ?. constructor; [|constructor]. done.
  - destruct (inv_shares _ _ _ _ _ _ c sid (λ sh, Shared.finished sh = true) Hi) as (sh & Hsh & Hd & Hf & Hok); [by intros []|].
    eapply wp_bind, wp_upd_shared; [exact Hsh|]. wp_steps.
    eapply (inv_upd_shared _ _ _ _ _ _ _ _ _ [_] [] []); [exact Hi|exact Hsh|apply list_subseteq_nil|..]; try done; [by right|].
    intros [_ Hret]. constructor; [|constructor]. unfold owner_reply. destruct (a_end a) as [[done|[code msg]]|r] eqn:Ha.
    + exists sid. split; [|by apply Hret]. apply shares_insert; [by eapply lookup_lt_Some|done..].
    + done.
    + destruct r; simpl; repeat case_match; done.
  - wp_steps. pass Hi.
Qed.

Lemma section_inv i p b rest lost res rep :
  inv b (p :: rest) lost res rep →
  wp (section serialize parse opts workerName i p) (λ next b',
    inv b' (next ++ rest) (lost ++ loses i p) (results_after p next res) (rep ++ paid p)) b.
Proof.
  intros Hi. assert (part p = 0 ∨ part p = 1 ∨ part p = 2) as [?|[?|?]] by (destruct p; simpl; tauto);
    [by apply table_inv|by apply call_inv|by apply report_inv].
Qed.
End Sections.
