(* ===== verification/BuilderView.v ===== *)
(** * The worker: what the scheduler makes of its messages

    Every derivation the scheduler takes to be with the worker, after the messages of
    the current session, is in the worker's table or on its way into it or out of it. *)

From S2P Require Import Prelude Dispatcher Builder BuilderInv BuilderSections.

Section View.
Context {BuildDone : Type} (serialize : BuildDone → string) (parse : string → option BuildDone).
Context (opts : WorkerOptions) (workerName : string).
Implicit Types (b : builder) (p : point BuildDone) (ths : list (point BuildDone)).

(** A thread that enters the derivation into the table or reports it next. *)
Definition concerns (d : string) p : Prop :=
  match p with
  | PExpect drv _ | PExpectPut drv _ | PRevoked drv _ _ => d = drv
  | PGiveBack drvs _ => d ∈ drvs.*1.*1
  | PShare c _ _ _ | PDone c _ _ _ _ => d = Call.drv c
  | _ => False
  end.

Definition covered b ths (d : string) : Prop := is_Some (expected b !! d) ∨ Exists (concerns d) ths.

(** The message a section sends. *)
Definition says p : option Report :=
  match p with
  | PLoad draining => Some (RLoad draining)
  | PHello msg => Some msg
  | PGreetLoad => Some (RLoad true)
  | PGiveBack ((drv, aid, _) :: _) reason => Some (RDone drv aid GIVEN_BACK reason [])
  | PRevoked drv aid _ => Some (RDone drv aid CANCELLED REASON_UNSPECIFIED [])
  | PDone c _ aid _ a => let '(outcome, reason, _) := report_of serialize a in Some (RDone (Call.drv c) aid outcome reason (a_outputs a))
  | _ => None
  end.

Definition says_done p (d : string) : Prop := ∃ aid outcome reason outputs, says p = Some (RDone d aid outcome reason outputs).

Definition connects p : bool := match p with PConnect _ => true | _ => false end.

(** A section, as the session sees it. *)
Record told (i : input BuildDone) p b (next : list (point BuildDone)) b' : Prop := {
  td_session : if connects p then live b' = true ∧ is_Some (sendFn b') else live b' = live b ∧ sendFn b' = sendFn b;
  td_sent : match says p, sendFn b with
            | Some msg, Some n => sent b' = if live b then sent b ++ [(n, msg)] else sent b
            | _, _ => sent b' = sent b
            end;
  td_covers : ∀ d, is_Some (expected b !! d) ∨ concerns d p →
    is_Some (expected b' !! d) ∨ Exists (concerns d) next ∨ says_done p d ∨ ∃ aid, p = PExpect EmptyString aid;
  td_hello : ∀ msg, PHello msg ∈ next → p = PGreet ∧ msg = hello opts (i_order i (expected b)) ∧ b' = b;
  td_greets : ∀ q, q ∈ next → greeting q = true → greeting p = true ∧ (q = PGreet → connects p = true) ∧ length next = 1;
  td_expect : ∀ drv aid, PExpect drv aid ∉ next;
}.

(** The operations, when they return. *)
Lemma send_ok msg b b' ok :
  send msg b = (b', Ok ok) →
  expected b' = expected b ∧ live b' = live b ∧ sendFn b' = sendFn b ∧
  match sendFn b with Some n => sent b' = if live b then sent b ++ [(n, msg)] else sent b | None => sent b' = sent b end.
Proof.
  unfold send, mbind, M_bind, get, mret, M_ret. destruct (sendFn b) eqn:Hs; [destruct (live b) eqn:Hl|];
    intros; simplify_eq/=; by rewrite ?Hs, ?Hl.
Qed.

Lemma upd_shared_ok sid f b b' u :
  upd_shared sid f b = (b', Ok u) → expected b' = expected b ∧ live b' = live b ∧ sendFn b' = sendFn b ∧ sent b' = sent b.
Proof.
  unfold upd_shared, mbind, M_bind, get. destruct (shareds b !! sid) as [sh|]; [|done].
  intros H. by injection H as <- <-.
Qed.
Lemma get_shared_ok sid b b' sh : get_shared sid b = (b', Ok sh) → b' = b.
Proof. unfold get_shared, mbind, M_bind, get. destruct (shareds b !! sid); [|done]. intros H. by injection H. Qed.

Lemma take_ok i b b' pred taken :
  takeUnclaimed (i_order (BuildDone:=BuildDone) i (expected b)) pred b = (b', Ok taken) →
  live b' = live b ∧ sendFn b' = sendFn b ∧ sent b' = sent b ∧
  ∀ d, is_Some (expected b !! d) → is_Some (expected b' !! d) ∨ d ∈ taken.*1.*1.
Proof.
  intros Hrun. edestruct (wp_takeUnclaimed (i_order i (expected b)) pred b (λ taken b',
    live b' = live b ∧ sendFn b' = sendFn b ∧ sent b' = sent b ∧
    ∀ d, is_Some (expected b !! d) → is_Some (expected b' !! d) ∨ d ∈ taken.*1.*1)) as (t & b2 & Hr & H).
  - apply i_order_perm.
  - intros t b2 _ _ Hsf Hlv Hst Hexp Htk _. split_and!; try done. intros d [e He].
    destruct (due pred e) eqn:Hd; [right|left; exists e; by apply Hexp].
    apply list_elem_of_fmap. exists (d, Expected.assignId e). split; [done|]. apply list_elem_of_fmap.
    exists (d, Expected.assignId e, Expected.shared e). split; [done|]. apply Htk. by exists e.
  - rewrite Hrun in Hr. by injection Hr as <- <-.
Qed.

Lemma bind_ok {S A C} (m : M S A) (f : A → M S C) s s' c :
  (m ≫= f) s = (s', Ok c) → ∃ a s1, m s = (s1, Ok a) ∧ f a s1 = (s', Ok c).
Proof. unfold mbind, M_bind. destruct (m s) as [s1 [a|e]]; [|done]. intros H. by exists a, s1. Qed.

(** Neither a point of the session thread nor a new Expect. *)
Definition quiet p : bool := negb (greeting p) && match p with PExpect _ _ => false | _ => true end.

Lemma told_quiet i p b next b' :
  connects p = false → live b' = live b → sendFn b' = sendFn b →
  match says p, sendFn b with
  | Some msg, Some n => sent b' = if live b then sent b ++ [(n, msg)] else sent b
  | _, _ => sent b' = sent b
  end →
  (∀ d, is_Some (expected b !! d) ∨ concerns d p →
     is_Some (expected b' !! d) ∨ Exists (concerns d) next ∨ says_done p d ∨ ∃ aid, p = PExpect EmptyString aid) →
  Forall (λ q, quiet q = true) next → told i p b next b'.
Proof.
  intros Hc Hl Hs Hm Hcov Hq. rewrite Forall_forall in Hq.
  constructor; try done; [by rewrite Hc|..].
  - intros msg Hin. by apply Hq in Hin.
  - intros q Hin Hg. apply Hq in Hin. unfold quiet in Hin. by rewrite Hg in Hin.
  - intros drv aid Hin. apply Hq in Hin. unfold quiet in Hin. by rewrite andb_false_r in Hin.
Qed.

(** Nothing is sent and the table keeps its keys. *)
Lemma told_still i p b next b' :
  connects p = false → says p = None → live b' = live b → sendFn b' = sendFn b → sent b' = sent b →
  (∀ d, is_Some (expected b !! d) → is_Some (expected b' !! d)) → (∀ d, concerns d p → Exists (concerns d) next) →
  Forall (λ q, quiet q = true) next → told i p b next b'.
Proof.
  intros Hc Hs Hl Hf Hm Hd Hcon Hq. apply told_quiet; try done; [by rewrite Hs|].
  intros d [?|Hp]; [left; by apply Hd|right; left; by apply Hcon].
Qed.

Lemma says_done_intro p d aid outcome reason outputs :
  says p = Some (RDone d aid outcome reason outputs) → says_done p d.
Proof. intros H. by exists aid, outcome, reason, outputs. Qed.

Ltac returned H := unfold mret, M_ret in H; injection H as <- <-.
Ltac still := apply told_still; try done; try by repeat constructor.

Lemma told_expect i drv aid b b' next :
  section serialize parse opts workerName i (PExpect drv aid) b = (b', Ok next) → told i (PExpect drv aid) b next b'.
Proof.
  cbn [section]; open_section. case_bool_decide as Hd; intros H.
  - returned H. apply told_quiet; [done..| |by constructor]. intros d [?|Hc]; [by left|]. right. right. right. exists aid. congruence.
  - unfold mbind, M_bind, get in H. destruct (draining_ b); returned H; still.
    intros d Hc. left. simpl in *. subst. by left.
Qed.

Lemma told_put i drv aid b b' next :
  section serialize parse opts workerName i (PExpectPut drv aid) b = (b', Ok next) → told i (PExpectPut drv aid) b next b'.
Proof.
  cbn [section]; open_section. intros H. apply bind_ok in H as ([] & b1 & H1 & H). returned H. unfold expect_put, mbind, M_bind, get in H1.
  destruct (expected b !! drv) as [ent|] eqn:He; [destruct (Expected.claimed ent)|];
    injection H1 as <-; apply told_quiet; try done; try (by constructor); intros d Hd; left;
    cbn [with_expected with_shareds expected]; rewrite ?lookup_insert_is_Some'; destruct Hd as [?|Hd]; auto; simpl in Hd; subst; eauto.
Qed.

Lemma told_revoke i drv b b' next :
  section serialize parse opts workerName i (PRevoke drv) b = (b', Ok next) → told i (PRevoke drv) b next b'.
Proof.
  cbn [section]; open_section. intros H. apply bind_ok in H as (taken & b1 & H1 & H). returned H. unfold revoke_take in H1.
  apply bind_ok in H1 as (? & ? & [= <- <-] & H1). destruct (expected b !! drv) as [ent|] eqn:He; [|by returned H1; still].
  destruct (Expected.running ent).
  - apply bind_ok in H1 as ([] & b2 & H1 & H2). returned H2. apply upd_shared_ok in H1 as (Heq & ? & ? & ?). still. by rewrite Heq.
  - injection H1 as <- <-. apply told_quiet; [done..| |by repeat constructor]. intros d [Hd|[]].
    destruct (decide (d = drv)) as [->|]; [right; left; by left|]. left. simpl. by rewrite lookup_delete_ne.
Qed.

Lemma told_take i p b b' next pred reason :
  connects p = false → says p = None → (∀ d, ¬ concerns d p) →
  (b0 ← get;
   taken ← takeUnclaimed (i_order i (expected b0)) pred;
   mret [PGiveBack ((λ t, (t.1, Some t.2)) <$> taken) reason]) b = (b', Ok next) → told i p b next b'.
Proof.
  intros Hc Hs Hn H. apply bind_ok in H as (? & ? & [= <- <-] & H). apply bind_ok in H as (taken & b1 & H1 & H). returned H.
  apply take_ok in H1 as (? & ? & ? & Hcov). apply told_quiet; try done; [by rewrite Hs| |by repeat constructor].
  intros d [Hd|Hd]; [|by apply Hn in Hd]. destruct (Hcov d Hd) as [?|Hd']; [by left|right; left; left]. simpl.
  apply list_elem_of_fmap in Hd' as (t & -> & Ht). apply list_elem_of_fmap in Ht as (u & -> & Hu).
  apply list_elem_of_fmap. exists (u.1). split; [done|]. apply list_elem_of_fmap. exists (u.1, Some u.2). split; [done|].
  apply list_elem_of_fmap. by exists u.
Qed.

Lemma told_finish i c sid aid a b b' next :
  section serialize parse opts workerName i (PFinish c sid aid a) b = (b', Ok next) → told i (PFinish c sid aid a) b next b'.
Proof.
  cbn [section]; open_section. intros H. apply bind_ok in H as (found & b1 & H1 & H). returned H. unfold finish_take in H1.
  apply bind_ok in H1 as (? & ? & [= <- <-] & H1). destruct (expected b !! Call.drv c) as [ent|] eqn:He.
  - injection H1 as <- <-. apply told_quiet; [done..| |by repeat constructor]. intros d [Hd|[]].
    destruct (decide (d = Call.drv c)) as [->|]; [right; left; by left|]. left. simpl. by rewrite lookup_delete_ne.
  - returned H1. by still.
Qed.

(** The sections that send. *)
Lemma told_send i p b b' next k msg :
  (∀ d, concerns d p → Exists (concerns d) next ∨ says_done p d) → connects p = false → says p = Some msg →
  (∀ q, q ∈ next → quiet q = true ∨ (greeting p = true ∧ greeting q = true ∧ q ≠ PGreet ∧ (∀ m, q ≠ PHello m) ∧ length next = 1)) →
  (∀ ok, k ok = next ∨ k ok = []) →
  (ok ← send msg; mret (k ok)) b = (b', Ok next) → told i p b next b'.
Proof.
  intros Hc Hp Hm Hq Hk H. apply bind_ok in H as (ok & b1 & H1 & H). injection H as <- <-.
  apply send_ok in H1 as (He & Hl & Hs & Hsent). constructor.
  - by rewrite Hp.
  - by rewrite Hm.
  - rewrite He. intros d [?|Hd]; [by left|]. destruct (Hc d Hd); auto.
  - intros m Hin. destruct (Hq _ Hin) as [?|(_ & _ & _ & Hn & _)]; [done|by destruct (Hn m)].
  - intros q Hin Hg. destruct (Hq q Hin) as [Hqq|(? & ? & ? & _ & ?)]; [|done].
    unfold quiet in Hqq. by rewrite Hg in Hqq.
  - intros drv aid Hin. destruct (Hq _ Hin) as [?|(_ & ? & _)]; done.
Qed.

Ltac one_next := intros q Hq; try (apply list_elem_of_singleton in Hq as ->); try (by apply not_elem_of_nil in Hq).

Lemma told_sends i p b b' next :
  is_Some (says p) → section serialize parse opts workerName i p b = (b', Ok next) → told i p b next b'.
Proof.
  intros [msg Hm] H. destruct p; try done; cbn [section] in H; open_section in H.
  - apply (told_send i _ b b' next (λ _, if draining then [PDrainTake] else []) msg); try done; [| |by injection Hm as <-].
    + apply bind_ok in H as (? & ? & _ & H). returned H. destruct draining; one_next. by left.
    + apply bind_ok in H as (? & ? & _ & H). returned H. auto.
  - apply bind_ok in H as (ok & b1 & H1 & H). returned H. injection Hm as <-.
    apply (told_send i _ b b1 _ (λ _, if ok then [PGreeted] else []) msg0); try done.
    + destruct ok; one_next. right. done.
    + auto.
    + unfold mbind, M_bind. by rewrite H1.
  - apply (told_send i _ b b' next (λ _, []) msg); try done; [|auto|by injection Hm as <-].
    apply bind_ok in H as (? & ? & _ & H). returned H. one_next.
  - destruct drvs as [|[[drv aid] lease] drvs]; [done|]. injection Hm as <-.
    apply bind_ok in H as (ok & b1 & H1 & H). returned H.
    apply (told_send i _ b b1 _ (λ _, [PGiveBack drvs reason]) (RDone drv aid GIVEN_BACK reason [])); try done.
    + intros d Hd. apply list_elem_of_fmap in Hd as (t & -> & Ht). apply list_elem_of_fmap in Ht as (u & -> & Hu).
      apply list_elem_of_In in Hu. destruct Hu as [<-|Hu]; [right; by eapply says_done_intro|left; left].
      simpl. rewrite <- list_elem_of_In in Hu. by do 2 apply list_elem_of_fmap_2.
    + one_next. by left.
    + auto.
    + unfold mbind, M_bind. unfold sendDone in H1. by rewrite H1.
  - injection Hm as <-. apply bind_ok in H as (ok & b1 & H1 & H). returned H.
    apply (told_send i _ b b1 _ (λ _, []) (RDone drv aid CANCELLED REASON_UNSPECIFIED [])); try done; [|one_next|auto|].
    + intros d Hd. simpl in Hd. subst. right. by eapply says_done_intro.
    + unfold mbind, M_bind. unfold sendDone in H1. by rewrite H1.
  - destruct (report_of serialize a) as [[outcome reason] wire] eqn:Hr.
    apply bind_ok in H as (ok & b1 & H1 & H). returned H. pose proof Hm as Hm'. simpl in Hm'. rewrite Hr in Hm'. injection Hm' as <-.
    apply (told_send i _ b b1 _ (λ _, [PAnswer c sid a]) (RDone (Call.drv c) aid outcome reason (a_outputs a))); try done; [|one_next; by left|auto|].
    + intros d Hd. simpl in Hd. subst. right. by eapply says_done_intro.
    + unfold mbind, M_bind. unfold sendDone in H1. by rewrite H1.
Qed.

(** Steps of a section that read or change a shared part. *)
Ltac shared_step H :=
  match type of H with
  | (_ ≫= _) _ = _ => let H1 := fresh in apply bind_ok in H as (? & ? & H1 & H);
      first [apply get_shared_ok in H1 as -> | apply upd_shared_ok in H1 as (? & ? & ? & ?) | unfold get in H1; injection H1 as <- <-]
  end.

Ltac members :=
  intros; try match goal with |- _ ∉ _ => intros ? end; repeat match goal with
  | H : _ ∈ [_] |- _ => apply list_elem_of_singleton in H; simplify_eq
  | H : _ ∈ [] |- _ => by apply not_elem_of_nil in H
  end; try done.
Ltac greets := constructor; try done; try (by intros d [?|[]]; left); members.

Ltac shares_only H := repeat shared_step H; returned H; still; (congruence || (intros d; congruence)).

Lemma section_told i p b b' next :
  section serialize parse opts workerName i p b = (b', Ok next) → told i p b next b'.
Proof.
  intros H. destruct (says p) as [msg|] eqn:Hsay; [apply told_sends; [by rewrite Hsay|done]|].
  destruct p; try done; try (by apply told_expect); try (by apply told_put); try (by apply told_revoke);
    try (by apply told_finish); try (by eapply told_take; [done|done|by intros ? []|exact H]); cbn [section] in H; open_section in H.
  - shared_step H. returned H. by still.
  - shared_step H. apply bind_ok in H as ([] & b1 & H1 & H). unfold modify in H1. injection H1 as <-. returned H. case_bool_decide; by still.
  - apply bind_ok in H as ([] & b1 & H1 & H). unfold setSend, modify in H1. injection H1 as <-. returned H. greets.
  - shared_step H. returned H. greets.
  - shared_step H. returned H. destruct (draining_ b); greets.
  - destruct drvs as [|[[]]]; [|done]. returned H. still. intros d Hd. by apply not_elem_of_nil in Hd.
  - returned H. destruct (Call.static c); [destruct (Call.lacks c)|]; by still.
  - apply bind_ok in H as ([] & b1 & H1 & H). returned H. unfold claim in H1. shared_step H1.
    destruct (expected b !! Call.drv c); injection H1 as <-; still. intros d Hd. simpl. apply lookup_insert_is_Some'. by right.
  - returned H. destruct (i_valid i); by still.
  - apply bind_ok in H as (adm & b1 & H1 & H). returned H. unfold admits in H1. shared_step H1.
    destruct (expected b !! Call.drv c) as [ent|]; injection H1 as <- <-; [|by still].
    simpl. destruct (Expected.running ent); still; intros d Hd; apply lookup_insert_is_Some'; by right.
  - shares_only H.
  - repeat shared_step H. returned H. destruct (Shared.finished _ && _); [|destruct (i_cancelled i || _)]; by still.
  - shares_only H.
  - shares_only H.
  - shares_only H.
  - returned H. destruct (i_relay i); by still.
  - shares_only H.
  - destruct found as [aid lease]. destruct (report_of serialize a) as [[outcome reason] wire].
    repeat shared_step H. returned H. still; try congruence; try (intros d; congruence).
  - simpl in Hsay. by destruct (report_of serialize a) as [[outcome reason] wire].
  - shares_only H.
  - shares_only H.
  - by returned H; still.
Qed.
End View.
