(* ===== verification/BuilderSystem.v ===== *)
(** * The worker: what holds of it

    Theorems about the worker of Builder.v in every interleaving of its threads. *)

From S2P Require Import Prelude Dispatcher Builder BuilderInv BuilderSections BuilderView.

Section System.
Context {BuildDone : Type} (serialize : BuildDone → string) (parse : string → option BuildDone).
Context (opts : WorkerOptions) (workerName : string).
Context (parse_serialize : ∀ done, parse (serialize done) = Some done).
Implicit Types w : worker BuildDone.

Abbreviation reachable := (reachable serialize parse opts workerName).
Abbreviation run_event := (run_event serialize parse opts workerName).
Abbreviation run_thread := (run_thread serialize parse opts workerName).

Definition worker_inv w : Prop := inv serialize (bld w) (threads w) (lost w) (results w) (reported w).

Lemma inv_fresh : worker_inv fresh_worker.
Proof. by constructor. Qed.

Lemma thread_perm w k p : threads w !! k = Some p → threads w ≡ₚ p :: delete k (threads w).
Proof. apply delete_Permutation. Qed.

(** A thread's next section returns, and keeps the account. *)
Lemma run_thread_inv w k i : worker_inv w → wp (run_thread k i) (λ _ w', worker_inv w') w.
Proof.
  intros Hi. unfold wp, Builder.run_thread. destruct (threads w !! k) as [p|] eqn:Hk; [|by exists tt, w].
  destruct (section_inv serialize parse opts workerName parse_serialize i p (bld w) (delete k (threads w))
    (lost w) (results w) (reported w)) as (next & b' & Hs & Hi').
  { eapply inv_perm; [by apply thread_perm|exact Hi]. }
  rewrite Hs. eexists tt, _. split; [done|]. unfold worker_inv. simpl. by destruct p.
Qed.

Lemma spawn_inv w p : may_spawn p w = true → worker_inv w → worker_inv (exec (run_event (Spawn p)) w).
Proof.
  intros Hp []. unfold worker_inv. constructor; simpl; try done; destruct p; try done; by constructor.
Qed.

Lemma event_inv w ev : worker_inv w → enabled ev w → wp (run_event ev) (λ _ w', worker_inv w') w.
Proof.
  intros Hi Hen. destruct ev as [p|k i|]; simpl.
  - wp_steps. by apply spawn_inv.
  - by apply run_thread_inv.
  - wp_steps. destruct Hi. by constructor.
Qed.

Lemma worker_reachable_inv w : reachable w → worker_inv w.
Proof.
  induction 1 as [|w ev Hw IH Hen]; [apply inv_fresh|].
  by destruct (wp_exec _ _ _ (event_inv w ev IH Hen)) as (? & _ & ?).
Qed.

(** ** What the scheduler makes of the messages *)

Definition listed (msg : Report) : gset string :=
  match msg with RHello _ _ _ _ running => list_to_set running.*1 | _ => ∅ end.

Record view_inv w : Prop := {
  vi_session : live (bld w) = true → is_Some (sendFn (bld w));
  vi_named : ∀ drv aid, PExpect drv aid ∈ threads w → drv ≠ EmptyString;
  vi_one : length (filter (λ p, greeting p = true) (threads w)) ≤ 1;
  vi_msg : ∀ msg, PHello msg ∈ threads w → ∃ order, msg = hello opts order;
  vi_greet : ∀ p, p ∈ threads w → p = PGreet ∨ (∃ msg, p = PHello msg) → ∀ v, view w ≠ Knows v;
  vi_told : live (bld w) = true → ∀ v d, view w = Knows v → d ∈ v → covered (bld w) (threads w) d;
  vi_telling : live (bld w) = true → view w = Silent → ∀ msg d, PHello msg ∈ threads w → d ∈ listed msg →
    covered (bld w) (threads w) d;
}.

Lemma covered_perm b (ths ths' : list (point BuildDone)) d : ths ≡ₚ ths' → covered b ths d → covered b ths' d.
Proof. intros Hp [?|He]; [by left|right]. by rewrite <- Hp. Qed.

(** One thread greets at a time. *)
Lemma greeting_alone w p (rest : list (point BuildDone)) :
  view_inv w → threads w ≡ₚ p :: rest → greeting p = true → ∀ q, q ∈ rest → greeting q = false.
Proof.
  intros Hv Hp Hg q Hq. destruct (greeting q) eqn:Hgq; [|done].
  pose proof (vi_one w Hv) as H1. rewrite Hp in H1. rewrite filter_cons_True in H1 by done. simpl in H1.
  assert (q ∈ filter (λ p, greeting p = true) rest) as Hin by by apply list_elem_of_filter.
  destruct (filter _ rest); [by apply not_elem_of_nil in Hin|simpl in H1; lia].
Qed.

Lemma listed_hello order d : d ∈ listed (hello opts order) → d ∈ order.*1.
Proof.
  simpl. rewrite elem_of_list_to_set, <- list_fmap_compose. intros H. apply list_elem_of_fmap in H as ([d' e] & -> & Hin).
  apply list_elem_of_fmap. by exists (d', e).
Qed.

(** The view after a section: it hears what the section says, if the session is up. *)
Lemma view_after_told i p b next b' v :
  told serialize opts i p b next b' → (live b = true → is_Some (sendFn b)) →
  view_after p b b' v =
    match says serialize p with
    | Some msg => if live b then tell v msg else v
    | None => if connects p then Silent else v
    end.
Proof.
  intros Ht Hl. unfold view_after. pose proof (td_sent _ _ _ _ _ _ _ Ht) as Hs.
  assert (∀ v0 : View, foldl tell v0 (drop (length (sent b)) (sent b)).*2 = v0) as Hnone by (intros; by rewrite drop_all).
  destruct (says serialize p) as [msg|] eqn:Hsay.
  - assert (match p with PConnect _ => Silent | _ => v end = v) as -> by by destruct p.
    destruct (live b) eqn:Hlv.
    + destruct (Hl eq_refl) as [n Hn]. rewrite Hn in Hs. rewrite Hs, drop_app_length. done.
    + destruct (sendFn b); by rewrite Hs, Hnone.
  - rewrite Hs, Hnone. by destruct p.
Qed.

(** Coverage goes on, but for the derivation that is reported. *)
Lemma covered_step i p b next b' (rest : list (point BuildDone)) d :
  told serialize opts i p b next b' → (∀ aid, p ≠ PExpect EmptyString aid) → ¬ says_done serialize p d →
  covered b (p :: rest) d → covered b' (next ++ rest) d.
Proof.
  intros Ht Hne Hnd Hc. unfold covered. rewrite Exists_app.
  assert (Exists (concerns d) rest ∨ (is_Some (expected b !! d) ∨ concerns d p)) as [?|Hd].
  { destruct Hc as [?|Hc]; [by right; left|]. apply Exists_cons in Hc as [?|?]; auto. }
  - auto.
  - destruct (td_covers _ _ _ _ _ _ _ Ht d Hd) as [?|[?|[?|[aid Hp]]]]; auto; [done|by destruct (Hne aid)].
Qed.

(** What the view makes of a message. *)
Lemma tell_knows v msg u : tell v msg = Knows u →
  (∃ v', v = Knows v' ∧ u ⊆ v' ∧ ∀ d aid o r l, msg = RDone d aid o r l → d ∉ u) ∨
  (u = listed msg ∧ v ≠ Rejected ∧ ∃ addr systems features jobs running, msg = RHello addr systems features jobs running).
Proof.
  destruct v as [| |v], msg as [addr systems features jobs running|drv aid o r l|dr]; simpl; intros [= <-].
  - right. split_and!; [done..|]. by eexists _, _, _, _, _.
  - right. split_and!; [done..|]. by eexists _, _, _, _, _.
  - left. exists v. split_and!; [done|set_solver|]. intros d ????[= <-]. set_solver.
  - left. exists v. done.
Qed.
Lemma tell_not_silent v msg : tell v msg ≠ Silent.
Proof. by destruct v, msg. Qed.

Section Step.
Context (w : worker BuildDone) (p : point BuildDone) (rest next : list (point BuildDone)) (i : input BuildDone) (b' : builder).
Context (Hv : view_inv w) (Hp : threads w ≡ₚ p :: rest) (Ht : told serialize opts i p (bld w) next b').

Let v' := view_after p (bld w) b' (view w).

Lemma step_view : v' =
  match says serialize p with
  | Some msg => if live (bld w) then tell (view w) msg else view w
  | None => if connects p then Silent else view w
  end.
Proof. eapply view_after_told; [exact Ht|apply Hv]. Qed.

Lemma step_session : connects p = false → live b' = live (bld w).
Proof. intros Hc. pose proof (td_session _ _ _ _ _ _ _ Ht) as H. rewrite Hc in H. apply H. Qed.

Lemma step_named aid : p ≠ PExpect EmptyString aid.
Proof. intros ->. apply (vi_named w Hv EmptyString aid); [|done]. rewrite Hp. by left. Qed.

Lemma step_hello msg : says serialize p = Some msg → (∃ a s f j r, msg = RHello a s f j r) → p = PHello msg.
Proof.
  intros Hs (? & ? & ? & ? & ? & ->). destruct p; simpl in Hs; simplify_eq; try done.
  - destruct drvs as [|[[]]]; simplify_eq.
  - by destruct (report_of serialize a) as [[]].
Qed.

(** The section says that a derivation is done, and the session hears it. *)
Lemma step_done d : live (bld w) = true → says_done serialize p d → v' ≠ Silent ∧ ∀ u, v' = Knows u → d ∉ u.
Proof.
  intros Hl (aid & o & r & l & Hs). rewrite step_view, Hs, Hl. split; [apply tell_not_silent|].
  intros u Hu. apply tell_knows in Hu as [(v0 & _ & _ & H)|(_ & _ & ? & ? & ? & ? & ? & ?)]; [by eapply H|done].
Qed.

Lemma step_told v d : live b' = true → v' = Knows v → d ∈ v → covered b' (next ++ rest) d.
Proof.
  intros Hl' Hk Hd. destruct (connects p) eqn:Hc.
  { rewrite step_view, Hc in Hk. by destruct p. }
  pose proof (step_session Hc) as Hl. rewrite Hl' in Hl. symmetry in Hl.
  eapply covered_step; [exact Ht|apply step_named|by intros Hs; apply (step_done d Hl Hs) in Hk|].
  eapply covered_perm; [exact Hp|]. rewrite step_view, Hl, Hc in Hk.
  destruct (says serialize p) as [msg|] eqn:Hs; [|by eapply (vi_told w Hv)].
  apply tell_knows in Hk as [(v0 & Hv0 & Hsub & _)|(-> & Hrej & Hm)].
  - eapply (vi_told w Hv); [done..|set_solver].
  - pose proof (step_hello msg Hs Hm) as ->. assert (PHello msg ∈ threads w) as Hin by (rewrite Hp; by left).
    destruct (view w) as [| |v0] eqn:Hview.
    + by eapply (vi_telling w Hv).
    + done.
    + by destruct (vi_greet w Hv _ Hin (or_intror (ex_intro _ msg eq_refl)) v0).
Qed.

Lemma step_telling msg d :
  live b' = true → v' = Silent → PHello msg ∈ next ++ rest → d ∈ listed msg → covered b' (next ++ rest) d.
Proof.
  intros Hl' Hsil Hin Hd. apply elem_of_app in Hin as [Hin|Hin].
  - destruct (td_hello _ _ _ _ _ _ _ Ht msg Hin) as (_ & -> & ->). apply listed_hello in Hd. left.
    apply list_elem_of_fmap in Hd as ([d' e] & -> & Hd). exists e. rewrite i_order_perm in Hd. by apply elem_of_map_to_list in Hd.
  - destruct (connects p) eqn:Hc.
    { assert (greeting p = true) as Hg by by destruct p. by pose proof (greeting_alone w p rest Hv Hp Hg _ Hin). }
    pose proof (step_session Hc) as Hl. rewrite Hl' in Hl. symmetry in Hl.
    eapply covered_step; [exact Ht|apply step_named|by intros Hs; destruct (step_done d Hl Hs)|].
    eapply covered_perm; [exact Hp|]. rewrite step_view, Hl, Hc in Hsil.
    destruct (says serialize p); [by apply tell_not_silent in Hsil|].
    eapply (vi_telling w Hv); [done..| |exact Hd]. rewrite Hp. by right.
Qed.

Lemma step_greet q v : q ∈ next ++ rest → q = PGreet ∨ (∃ msg, q = PHello msg) → v' ≠ Knows v.
Proof.
  intros Hin Hq Hk. assert (greeting q = true) as Hgq by by destruct Hq as [->|[msg ->]].
  rewrite step_view in Hk. apply elem_of_app in Hin as [Hin|Hin].
  - destruct (td_greets _ _ _ _ _ _ _ Ht q Hin Hgq) as (Hg & Hcon & _). destruct Hq as [->|[msg ->]].
    + rewrite Hcon in Hk by done. specialize (Hcon eq_refl). by destruct p.
    + destruct (td_hello _ _ _ _ _ _ _ Ht msg Hin) as (-> & _). simpl in Hk.
      eapply (vi_greet w Hv PGreet); [rewrite Hp; by left|by left|exact Hk].
  - assert (greeting p = false) as Hg.
    { destruct (greeting p) eqn:Hg; [|done]. by rewrite (greeting_alone w p rest Hv Hp Hg q Hin) in Hgq. }
    assert (connects p = false) as Hc by by destruct p. rewrite Hc in Hk.
    assert (q ∈ threads w) as Hin' by (rewrite Hp; by right). pose proof (vi_greet w Hv q Hin' Hq) as Hn.
    destruct (says serialize p) as [msg|] eqn:Hs; [|by eapply Hn]. destruct (live (bld w)); [|by eapply Hn].
    apply tell_knows in Hk as [(v0 & Hv0 & _)|(_ & _ & Hm)]; [by eapply Hn|].
    by rewrite (step_hello msg Hs Hm) in Hg.
Qed.
End Step.

Lemma next_one w p rest next i b' :
  view_inv w → threads w ≡ₚ p :: rest → told serialize opts i p (bld w) next b' →
  length (filter (λ q, greeting q = true) (next ++ rest)) ≤ 1.
Proof.
  intros Hv Hp Ht. rewrite filter_app, length_app.
  pose proof (vi_one w Hv) as H1. rewrite Hp in H1.
  destruct (filter (λ q, greeting q = true) next) as [|q l] eqn:Hf; simpl.
  - rewrite filter_cons in H1. destruct (decide _); simpl in H1; lia.
  - assert (q ∈ filter (λ q, greeting q = true) next) as Hq by (rewrite Hf; by left).
    apply list_elem_of_filter in Hq as [Hgq Hq]. destruct (td_greets _ _ _ _ _ _ _ Ht q Hq Hgq) as (Hg & _ & Hlen).
    rewrite filter_cons_True in H1 by done. simpl in H1.
    assert (length (filter (λ q, greeting q = true) next) ≤ length next) as Hle by apply length_filter.
    rewrite Hf in Hle. simpl in Hle. lia.
Qed.

Lemma run_thread_view w k i : worker_inv w → view_inv w → view_inv (exec (run_thread k i) w).
Proof.
  intros Hi Hv. unfold exec, Builder.run_thread. destruct (threads w !! k) as [p|] eqn:Hk; [|done].
  destruct (section_inv serialize parse opts workerName parse_serialize i p (bld w) (delete k (threads w))
    (lost w) (results w) (reported w)) as (next & b' & Hs & _).
  { eapply inv_perm; [by apply thread_perm|exact Hi]. }
  rewrite Hs. pose proof (section_told _ _ _ _ _ _ _ _ _ Hs) as Ht. pose proof (thread_perm w k p Hk) as Hp.
  constructor; cbn [bld threads view fst].
  - intros Hl. pose proof (td_session _ _ _ _ _ _ _ Ht) as Hses. destruct (connects p); [by destruct Hses|].
    destruct Hses as [Hl' ->]. apply (vi_session w Hv). congruence.
  - intros drv aid Hin. apply elem_of_app in Hin as [Hin|Hin]; [by apply (td_expect _ _ _ _ _ _ _ Ht) in Hin|].
    apply (vi_named w Hv drv aid). rewrite Hp. by right.
  - by eapply next_one.
  - intros msg Hin. apply elem_of_app in Hin as [Hin|Hin].
    + destruct (td_hello _ _ _ _ _ _ _ Ht msg Hin) as (_ & -> & _). by eexists.
    + apply (vi_msg w Hv). rewrite Hp. by right.
  - intros q Hin Hq v. by eapply step_greet.
  - intros Hl v d Hk' Hd. by eapply step_told.
  - intros Hl Hsil msg d Hin Hd. by eapply step_telling.
Qed.

Lemma spawn_view w p : may_spawn p w = true → view_inv w → view_inv (exec (run_event (Spawn p)) w).
Proof.
  intros Hm Hv. assert (∀ msg, p ≠ PHello msg) as Hh by by destruct p.
  assert (∀ d, covered (bld w) (threads w) d → covered (bld w) (p :: threads w) d) as Hcov
    by (intros d [?|?]; [by left|right; by right]).
  assert ((∃ drv aid, p = PExpect drv aid) ∨ spawned p (view w) = view w) as Hsp by (destruct p; simpl; eauto).
  constructor; simpl.
  - apply Hv.
  - intros drv aid Hin. apply list_elem_of_In in Hin as [->|Hin]; [|by eapply (vi_named w Hv), list_elem_of_In].
    simpl in Hm. apply andb_prop in Hm as [Hm _]. by case_bool_decide.
  - rewrite filter_cons. destruct (decide (greeting p = true)) as [Hg|]; [|apply Hv]. simpl.
    assert (filter (λ q, greeting q = true) (threads w) = []) as ->; [|simpl; lia].
    destruct p; try done. simpl in Hm. apply negb_true_iff in Hm.
    destruct (filter (λ q, greeting q = true) (threads w)) as [|q l] eqn:Hf; [done|].
    assert (q ∈ filter (λ q, greeting q = true) (threads w)) as Hq by (rewrite Hf; by left).
    apply list_elem_of_filter in Hq as [Hgq Hq].
    assert (existsb greeting (threads w) = true) by (apply existsb_exists; exists q; by rewrite <- list_elem_of_In).
    congruence.
  - intros msg Hin. apply list_elem_of_In in Hin as [->|Hin]; [by destruct (Hh msg)|].
    by apply (vi_msg w Hv), list_elem_of_In.
  - intros q Hin Hq v. apply list_elem_of_In in Hin as [->|Hin].
    + destruct Hq as [->|[msg ->]]; done.
    + apply list_elem_of_In in Hin. pose proof (vi_greet w Hv q Hin Hq) as Hn. destruct Hsp as [(drv & aid & ->)| ->]; [|done].
      simpl. destruct (view w) as [| |v0]; try done. by destruct (Hn v0).
  - intros Hl v d Hk Hd. destruct Hsp as [(drv & aid & ->)|Heq].
    + simpl in Hk. destruct (view w) as [| |v0] eqn:Hview; try done. injection Hk as <-.
      apply elem_of_union in Hd as [Hd|Hd]; [right; left; set_solver|]. by eapply Hcov, (vi_told w Hv).
    + rewrite Heq in Hk. by eapply Hcov, (vi_told w Hv).
  - intros Hl Hsil msg d Hin Hd. apply list_elem_of_In in Hin as [->|Hin]; [by destruct (Hh msg)|].
    apply list_elem_of_In in Hin. apply Hcov. eapply (vi_telling w Hv); [done| |done..].
    destruct Hsp as [(drv & aid & ->)|Heq]; [|congruence]. simpl in Hsil. by destruct (view w).
Qed.

Lemma view_fresh : view_inv fresh_worker.
Proof. constructor; simpl; try done; try lia; by intros; exfalso; eapply not_elem_of_nil. Qed.

Lemma reachable_view w : reachable w → view_inv w.
Proof.
  induction 1 as [|w ev Hw IH Hen]; [apply view_fresh|]. destruct ev as [p|k i|].
  - by apply spawn_view.
  - apply run_thread_view; [by apply worker_reachable_inv|done].
  - destruct IH. by constructor.
Qed.

(** ** Theorems *)

(** Every lease the worker has ever taken is in its table, in the hands of a thread that
    reports it next, or reported. *)
Definition accounted w : Prop :=
  leases_of (expected (bld w)) ++ (threads w ≫= owed) ++ reported w ≡ₚ seq 0 (length (shareds (bld w))).

(** Every build that runs has an owner, the thread that builds and will report it, or is lost. *)
Definition owned w : Prop := (threads w ≫= owner) ++ lost w ≡ₚ running_of (expected (bld w)).


(** Some build of the call's derivation, with the call's mode and limits, has returned it. *)
Definition built_here w (c : Call.t) (done : BuildDone) : Prop :=
  ∃ sid sh, shareds (bld w) !! sid = Some sh ∧ Shared.drv sh = Call.drv c ∧ results w !! sid = Some (Call.settings c, done).

(** C11.  A caller that is answered with a result, whether it built or was attached to a build
    that was running, is answered with what a build of its derivation on this worker returned,
    and that build ran with the caller's mode and limits. *)
Theorem answered_by_build w c done : reachable w → PReturned c (Replied done) ∈ threads w → built_here w c done.
Proof.
  intros Hw Hin. pose proof (iv_points _ _ _ _ _ _ (worker_reachable_inv w Hw)) as Hp. rewrite Forall_forall in Hp.
  destruct (Hp _ Hin) as (sid & (sh & Hsh & Hd & _) & Hr). by exists sid, sh.
Qed.

(** The scheduler's idea of the worker is right about a derivation, or is about to be
    put right. *)
Definition held_or_told w (d : string) : Prop :=
  is_Some (expected (bld w) !! d) ∨ ∃ p, p ∈ threads w ∧ concerns d p.

(** C12.  No lease haunts the scheduler: while the session takes messages and was opened with a
    Hello, every derivation that the scheduler takes to be with the worker, by the Hello, the
    Expects it has sent and the Dones it has heard on this session, is in the worker's table, or
    a thread is about to enter it or to report it. *)
Theorem no_ghost_lease w v d :
  reachable w → live (bld w) = true → view w = Knows v → d ∈ v → held_or_told w d.
Proof.
  intros Hw Hl Hv Hd. destruct (vi_told w (reachable_view w Hw) Hl v d Hv Hd) as [?|He]; [by left|right].
  by apply Exists_exists in He.
Qed.
End System.

(** * The worker: draining

    A worker that drains takes nothing new, gives back what nobody has come for, and keeps
    what a client has claimed until it is reported. *)

Section Drain.
Context {BuildDone : Type} (serialize : BuildDone → string) (parse : string → option BuildDone).
Context (opts : WorkerOptions) (workerName : string).
Implicit Types (b : builder) (p : point BuildDone) (w : worker BuildDone).

Definition is_put p : bool := match p with PExpectPut _ _ => true | _ => false end.
Definition resumes p : bool := match p with PSetDraining false => true | _ => false end.

(** Entries only go or are claimed. *)
Definition shrinks b b' : Prop :=
  draining_ b' = draining_ b ∧
  ∀ d e', expected b' !! d = Some e' → Expected.claimed e' = true ∨ expected b !! d = Some e'.

#[local] Instance shrinks_refl : Reflexive shrinks.
Proof. intros b. by split; auto. Qed.

Lemma send_shrinks msg : keeps shrinks (send msg).
Proof. intros b. unfold exec, send, mbind, M_bind, get. destruct (sendFn b); [destruct (live b)|]; split; simpl; auto. Qed.
Lemma upd_shared_shrinks sid f : keeps shrinks (upd_shared sid f).
Proof. intros b. unfold exec, upd_shared, mbind, M_bind, get. destruct (shareds b !! sid); split; simpl; auto. Qed.
Lemma get_shared_shrinks sid : keeps shrinks (get_shared sid).
Proof. intros b. unfold exec, get_shared, mbind, M_bind, get. destruct (shareds b !! sid); split; simpl; auto. Qed.

#[local] Instance shrinks_preorder : PreOrder shrinks.
Proof.
  split; [apply _|]. intros b1 b2 b3 [H1 H2] [H3 H4]. split; [congruence|]. intros d e He.
  destruct (H4 d e He) as [?|He']; [by left|by apply H2].
Qed.

Lemma claim_shrinks drv : keeps shrinks (claim drv).
Proof.
  intros b. unfold exec, claim, mbind, M_bind, get. destruct (expected b !! drv) as [ent|]; split; simpl; auto.
  intros d e. rewrite lookup_insert_Some. intros [[<- <-]|[? ?]]; auto.
Qed.
Lemma admit_shrinks drv : keeps shrinks (admits drv).
Proof.
  intros b. unfold exec, admits, mbind, M_bind, get. destruct (expected b !! drv) as [ent|]; split; simpl; auto.
  intros d e. rewrite lookup_insert_Some. intros [[<- <-]|[? ?]]; auto.
Qed.
Lemma finish_shrinks drv : keeps shrinks (finish_take drv).
Proof.
  intros b. unfold exec, finish_take, mbind, M_bind, get. destruct (expected b !! drv) as [ent|]; split; simpl; auto.
  intros d e. rewrite lookup_delete_Some. intros [? ?]; auto.
Qed.
Lemma revoke_shrinks drv : keeps shrinks (revoke_take drv).
Proof.
  intros b. unfold exec, revoke_take, mbind, M_bind, get. destruct (expected b !! drv) as [ent|] eqn:He; [|done].
  destruct (Expected.running ent).
  - pose proof (upd_shared_shrinks (Expected.shared ent) Shared.with_revoked b) as H. unfold exec in H.
    by destruct (upd_shared _ _ b) as [b1 [|]].
  - split; simpl; [done|]. intros d e. rewrite lookup_delete_Some. intros []; auto.
Qed.
Lemma take_shrinks order pred : keeps shrinks (takeUnclaimed order pred).
Proof.
  unfold takeUnclaimed. apply keeps_foldM; [apply _|]. intros taken [d e]. destruct (negb _ && _); [|apply keeps_ret, _].
  apply keeps_bind; [apply _| |intros; apply keeps_ret, _]. apply keeps_modify. intros b. split; simpl; [done|].
  intros d' e'. rewrite lookup_delete_Some. intros []; auto.
Qed.

Lemma section_shrinks i p :
  is_put p = false → (∀ dr, p ≠ PSetDraining dr) → keeps shrinks (section serialize parse opts workerName i p).
Proof.
  intros Hp Hs. destruct p; try done; cbn [section]; open_section.
  all: repeat case_match; try by destruct (Hs draining).
  all: repeat first
    [ apply send_shrinks | apply upd_shared_shrinks | apply get_shared_shrinks | apply claim_shrinks | apply admit_shrinks
    | apply finish_shrinks | apply revoke_shrinks | apply take_shrinks
    | apply keeps_bind; [apply _| |intros] | apply keeps_ret, _ | apply keeps_get, _ | case_match ].
  all: apply keeps_modify; intros b; split; simpl; auto.
Qed.

(** While the worker drains, no thread goes on to enter an Expect. *)
Lemma section_no_put i p b b' next :
  section serialize parse opts workerName i p b = (b', Ok next) → draining_ b = true →
  Forall (λ q, is_put q = false) next.
Proof.
  intros H Hd. destruct p; cbn [section] in H; open_section in H.
  { case_bool_decide; [injection H as <- <-; constructor|]. unfold mbind, M_bind, get in H. rewrite Hd in H.
    injection H as <- <-. by repeat constructor. }
  all: repeat (case_match; try (injection H as <- <-; constructor; fail)).
  all: repeat (apply bind_ok in H as (? & ? & _ & H)).
  all: unfold mret, M_ret in H; injection H as <- <-; repeat case_match; by repeat constructor.
Qed.

Context (parse_serialize : ∀ done, parse (serialize done) = Some done).
Abbreviation reachable := (reachable serialize parse opts workerName).
Abbreviation run_event := (run_event serialize parse opts workerName).
Abbreviation run_thread := (run_thread serialize parse opts workerName).

(** The worker drains, no Expect is on its way into the table, and all that is in it has been
    claimed. *)
Definition drained_table w : Prop :=
  draining_ (bld w) = true ∧ Forall (λ p, is_put p = false) (threads w) ∧
  ∀ d e, expected (bld w) !! d = Some e → Expected.claimed e = true.

(** A thread that gives back what is not claimed because the worker drains. *)
Definition takes_unclaimed p : bool := match p with PDrainTake | PTickTake _ true => true | _ => false end.

Lemma run_thread_section w k i p :
  reachable w → threads w !! k = Some p → ∃ b' next, section serialize parse opts workerName i p (bld w) = (b', Ok next) ∧
    bld (exec (run_thread k i) w) = b' ∧ threads (exec (run_thread k i) w) = next ++ delete k (threads w).
Proof.
  intros Hw Hk. destruct (section_inv serialize parse opts workerName parse_serialize i p (bld w) (delete k (threads w))
    (lost w) (results w) (reported w)) as (next & b' & Hs & _).
  { eapply inv_perm; [by apply thread_perm|by apply (worker_reachable_inv serialize parse opts workerName)]. }
  exists b', next. split; [done|]. unfold exec, Builder.run_thread. by rewrite Hk, Hs.
Qed.

Lemma rest_no_put (ths : list (point BuildDone)) next k :
  Forall (λ p, is_put p = false) ths → Forall (λ p, is_put p = false) next →
  Forall (λ p, is_put p = false) (next ++ delete k ths).
Proof. intros H1 H2. apply Forall_app. split; [done|by apply Forall_delete]. Qed.

Lemma drain_kept w ev :
  reachable w → drained_table w → enabled ev w →
  (∀ k i, ev = Run k i → threads w !! k ≠ Some (PSetDraining false)) → drained_table (exec (run_event ev) w).
Proof.
  intros Hw (Hd & Hput & Hcl) Hen Hres. destruct ev as [p|k i|].
  - split; [done|]. split; [|done]. constructor; [|done]. by destruct p.
  - simpl. destruct (threads w !! k) as [p|] eqn:Hk; [|by unfold exec, Builder.run_thread; rewrite Hk].
    destruct (run_thread_section w k i p Hw Hk) as (b' & next & Hs & Hb & Ht).
    pose proof (section_no_put i p _ _ _ Hs Hd) as Hnp.
    assert (draining_ b' = true ∧ ∀ d e, expected b' !! d = Some e → Expected.claimed e = true) as [Hd' Hcl'].
    { destruct (is_put p) eqn:Hip.
      { rewrite Forall_forall in Hput. rewrite Hput in Hip; [done|by eapply list_elem_of_lookup_2]. }
      assert ((∃ dr, p = PSetDraining dr) ∨ ∀ dr, p ≠ PSetDraining dr) as [[dr ->]|Hns] by (destruct p; eauto).
      - destruct dr; [|by destruct (Hres k i eq_refl)]. by injection Hs as <- <-.
      - pose proof (section_shrinks i p Hip Hns (bld w)) as [H1 H2]. unfold exec in H1, H2. rewrite Hs in H1, H2. cbn [fst] in H1, H2.
        split; [by rewrite H1|]. intros d e He. destruct (H2 d e He); eauto. }
    split; [by rewrite Hb|]. split; [rewrite Ht; by apply rest_no_put|by rewrite Hb].
  - done.
Qed.

Lemma drain_takes w k i p :
  reachable w → draining_ (bld w) = true → Forall (λ p, is_put p = false) (threads w) →
  threads w !! k = Some p → takes_unclaimed p = true →
  drained_table (exec (run_thread k i) w) ∧
  ∀ d e, expected (bld (exec (run_thread k i) w)) !! d = Some e ↔ expected (bld w) !! d = Some e ∧ Expected.claimed e = true.
Proof.
  intros Hw Hd Hput Hk Htk. destruct (run_thread_section w k i p Hw Hk) as (b' & next & Hs & Hb & Ht).
  pose proof (section_no_put i p _ _ _ Hs Hd) as Hnp.
  assert (∃ pred taken, (∀ e, pred e = true) ∧ takeUnclaimed (i_order i (expected (bld w))) pred (bld w) = (b', Ok taken))
    as (pred & taken & Hpred & Hrun).
  { destruct p; try done; cbn [section] in Hs; open_section in Hs; apply bind_ok in Hs as (? & ? & [= <- <-] & Hs);
      apply bind_ok in Hs as (taken & b1 & H1 & Hs); injection Hs as <- <-; [destruct draining; [|done]|]; eexists _, taken;
      (split; [|exact H1]); done. }
  edestruct (wp_takeUnclaimed (i_order i (expected (bld w))) pred (bld w) (λ _ b', draining_ b' = draining_ (bld w) ∧
    ∀ d e, expected b' !! d = Some e ↔ expected (bld w) !! d = Some e ∧ Expected.claimed e = true))
    as (t2 & b2 & Hrun2 & Hd2 & He2).
  { apply i_order_perm. }
  { intros t b2 _ Hdr _ _ _ Hexp _ _. split; [done|]. intros d e. rewrite Hexp. unfold due. rewrite Hpred, andb_true_r.
    by rewrite negb_false_iff. }
  rewrite Hrun in Hrun2. injection Hrun2 as <- <-. rewrite Hb. split; [|done].
  split; [by rewrite Hb, Hd2|]. split; [rewrite Ht; by apply rest_no_put|]. rewrite Hb. intros d e He. by apply He2 in He as [].
Qed.

End Drain.
