(* ===== verification/BuilderDemo.v ===== *)
(** * The worker: runs

    Concrete runs of the worker of Builder.v, and a run of a node that is scheduler and
    worker in one. *)

From S2P Require Import Prelude Double Sched Reactor Dispatcher Builder BuilderInv BuilderSections BuilderView BuilderSystem.

Definition demo_opts : WorkerOptions := mkOptions "10.0.0.1:50052" "x86_64-linux" [] [] [] 2.

(** A result is its own wire form. *)
Definition demo_serialize (done : string) : string := done.
Definition demo_parse (wire : string) : option string := Some wire.
Lemma demo_parse_serialize done : demo_parse (demo_serialize done) = Some done.
Proof. done. Qed.

Definition demo_env (done : string) : BuildEnv :=
  mkEnv None None None (inl (mkRes true false None)) ([("out", 1%N)], None) None (inl done).

Definition demo_input (now : Z) (env : BuildEnv) : input string :=
  mkInput now map_to_list (λ m, reflexivity _) DrvValid true false 0 false true env.

Definition demo_event : Type := event string.
Abbreviation demo_run_event := (run_event demo_serialize demo_parse demo_opts "w").

Definition ok_event (ev : event string) (w : worker string) : bool :=
  match ev with Spawn p => may_spawn p w | _ => true end.

(** A run, which stops at an event that cannot happen. *)
Fixpoint run_all (evs : list (event string)) (w : worker string) : worker string :=
  match evs with
  | [] => w
  | ev :: evs => if ok_event ev w then run_all evs (exec (demo_run_event ev) w) else w
  end.

Lemma run_all_reachable evs w :
  reachable demo_serialize demo_parse demo_opts "w" w → reachable demo_serialize demo_parse demo_opts "w" (run_all evs w).
Proof.
  revert w. induction evs as [|ev evs IH]; intros w Hw; [done|]. simpl. destruct (ok_event ev w) eqn:Hok; [|done].
  apply IH, reach_event; [done|]. by destruct ev.
Qed.

Definition step0 : event string := Run 0 (demo_input 0 (demo_env "built")).
Definition call (drv : string) : Call.t := Call.mk drv (0, 0, 0)%N true true None.

(** A session is opened, a derivation expected, built by one caller and asked for by another. *)
Definition greeted_run : list (event string) := [Spawn (PConnect 0); step0; step0; step0; step0].
Definition expected_run : list (event string) := greeted_run ++ [Spawn (PExpect "d.drv" 7); step0; step0].
Definition built_run : list (event string) :=
  expected_run ++ Spawn (PEnter (call "d.drv")) :: repeat step0 6          (* the owner builds *)
  ++ Spawn (PEnter (call "d.drv")) :: repeat step0 5                       (* attached, and follows *)
  ++ repeat (Run 1 (demo_input 0 (demo_env "built"))) 1.

(** The owner reports and returns; then the other caller returns. *)
Definition answered_run : list (event string) :=
  built_run ++ repeat step0 5 ++ [Run 1 (demo_input 0 (demo_env "built")); step0; step0].

(** Of two derivations one is claimed when the worker starts to drain. *)
Definition draining_run : list (event string) :=
  expected_run ++ [Spawn (PExpect "e.drv" 8); step0; step0; Spawn (PEnter (call "d.drv")); step0; step0]
  ++ [Spawn (PSetDraining true); step0; step0].

Definition after (evs : list (event string)) : worker string := run_all evs fresh_worker.

Lemma after_reachable evs : reachable demo_serialize demo_parse demo_opts "w" (after evs).
Proof. apply run_all_reachable, reach_fresh. Qed.


Lemma answered_by_build_witness :
  threads (after answered_run) = [PReturned (call "d.drv") (Replied "built"); PReturned (call "d.drv") (Replied "built")] ∧
  built_here (after answered_run) (call "d.drv") "built".
Proof.
  assert (threads (after answered_run) =
    [PReturned (call "d.drv") (Replied "built"); PReturned (call "d.drv") (Replied "built")]) as Ht
    by (vm_compute; reflexivity).
  split; [exact Ht|].
  apply (answered_by_build demo_serialize demo_parse demo_opts "w" demo_parse_serialize); [apply after_reachable|].
  rewrite Ht. left.
Defined.

Lemma no_ghost_lease_witness : held_or_told (after built_run) "d.drv".
Proof.
  apply (no_ghost_lease demo_serialize demo_parse demo_opts "w" demo_parse_serialize _ {["d.drv"]});
    [apply after_reachable|vm_compute; reflexivity|vm_compute; reflexivity|set_solver].
Defined.


(** ** A node that is scheduler and worker

    The worker greets, a client comes and wants a derivation, which is placed; then the worker starts to drain, and has not
    told the scheduler yet. *)
Definition node_clock (n : nat) : double := double_of_Z 5.
Definition node_ord (n : nat) : map_order := list_order.
Abbreviation node_send := (loop_send node_clock node_ord "x86_64-linux" 0 0).
Abbreviation node_hold := (hold 0 0 (node_send 1)).
Definition node_want (path : string) : D () :=
  apply_chunk node_clock node_ord "x86_64-linux" 1 [(MWant (Want.mk path ["out.narinfo"] [] 7 0 [] "x86_64-linux"), false)].
Definition node_start : node := mkNode (disp (initial Config.default)) (bld (@fresh_worker string)) false.
Definition node_run : M node () :=
  node_hold (newSession 0);;
  node_send 2 (hello demo_opts []);;
  node_hold connectClient;;
  node_hold (node_want "a.drv");;
  on_bld (setDraining (BuildDone:=string) true);;
  mret tt.

(** C40.  A node that is scheduler and worker in one can lock its scheduler for good, and exactly how.  Whatever an operation of the
    dispatcher does in a hold of its mutex, if it returns, then the hold ends with the mutex free, unless the operation
    has sent the worker an Expect and the worker drains: then the worker gives the
    build back at once, and the Done takes the mutex that the thread holds.  This happens: the worker starts to drain, and
    before the scheduler hears of it a client asks for another derivation. *)
Theorem loopback_drain_relocks :
  (∀ clock ord defaultSystem sid now depth A (m : D A) d b d' a, m d = (d', Ok a) →
     let after := hold sid now (loop_send clock ord defaultSystem sid now (S depth)) m (mkNode d b false) in
     (draining_ b && existsb bounces (queued_cmds sid d') = true → after.2 = Throw Undefined) ∧
     (draining_ b && existsb bounces (queued_cmds sid d') = false → ∃ b', after = (mkNode (take_cmds sid d') b' false, Ok a))) ∧
  (let s := exec node_run node_start in
   (node_run node_start).2 = Ok tt ∧ nd_held s = false ∧ dom (expected (nd_bld s)) = {["a.drv"]} ∧ draining_ (nd_bld s) = true ∧
   Worker.draining <$> workers (core_ (nd_disp s)) = [false] ∧
   (node_hold (node_want "b.drv") s).2 = Throw Undefined).
Proof.
  split; [|cbv zeta; split_and!; vm_compute; reflexivity].
  intros clock ord defaultSystem sid now depth A m d b d' a Hm after. subst after.
  destruct (loop_cmds_held clock ord defaultSystem sid now depth (queued_cmds sid d') (take_cmds sid d') b) as [Hstop Hgo].
  rewrite hold_eq, Hm. split; intros Hc.
  - specialize (Hstop Hc). destruct (forM_ _ _ _) as [s' r]. simpl in Hstop. by subst r.
  - destruct (Hgo Hc) as (b' & ->). by exists b'.
Qed.

(** If the thread that relays the log cannot be started, the lease is never reported: it stays in
    the table, marked as running, and no thread owns it. *)
Theorem relay_failure_keeps_lease :
  let w := after (expected_run ++ Spawn (PEnter (call "d.drv")) :: repeat step0 5 ++
    [Run 0 (mkInput 0 map_to_list (λ m, reflexivity _) DrvValid true false 0 false false (demo_env "built")); step0]) in
  threads w = [] ∧ lost w = [0] ∧ running_of (expected (bld w)) = [0] ∧ reported w = [].
Proof. by vm_compute. Qed.
