(* ===== verification/Spill.v ===== *)
(** * The build log's spill file

    src/src/daemon/log-spill.hh: [LogSpill], a file of log records that the build's owner
    appends to while any number of readers replay it, and [followSpill], what a reader does.

    The owner and the readers share the file and [written_] alone.  An owner or reader is at a
    point, and a step takes it past one system call, one access of an atomic, or one hold of
    the mutex.  [pwrite] and [pread] may be interrupted, fail, or transfer a part: their
    answers are the events' arguments.  Bytes are [ascii]s. *)

From Stdlib Require Import Ascii.
From S2P Require Import Prelude.

Abbreviation bytes := (list ascii).
Definition blen (l : bytes) : N := N.of_nat (length l).

(** ** Records *)

Inductive SpillKind := line | phase.
#[export] Instance SpillKind_eq_dec : EqDecision SpillKind.
Proof. solve_decision. Defined.

Definition kind_code (k : SpillKind) : N := match k with line => 0 | phase => 1 end.
Definition kind_of (n : N) : option SpillKind := if (n =? 0)%N then Some line else if (n =? 1)%N then Some phase else None.

(** [std::bit_cast] between a [uint32_t] and its bytes, lowest first. *)
Definition le32 (n : N) : bytes :=
  [ascii_of_N (n mod 256); ascii_of_N (n / 256 mod 256); ascii_of_N (n / 65536 mod 256); ascii_of_N (n / 16777216 mod 256)]%N.
Definition of_le32 (l : bytes) : N := foldr (λ c n, N_of_ascii c + 256 * n)%N 0%N l.

Definition kHeader : N := 5.
Definition kMaxText : N := (2 ^ 20)%N.
Definition kDefaultCap : N := (64 * 2 ^ 20)%N.
Definition kTruncated : bytes := String.list_ascii_of_string "[log truncated by the worker]".

Abbreviation rec := (SpillKind * bytes)%type.
Definition header (r : rec) : bytes := ascii_of_N (kind_code r.1) :: le32 (u32 (blen r.2)).
Definition encode_rec (r : rec) : bytes := header r ++ r.2.
Definition encode (log : list rec) : bytes := log ≫= encode_rec.

(** ** The file *)

Inductive io := Interrupted | Failed | Moved (n : N).

(** [pwrite] of [data] at [off], past the end filled with zeros. *)
Definition pwrite (file : bytes) (off : N) (data : bytes) : bytes :=
  let o := N.to_nat off in
  take o (file ++ replicate (o - length file) Ascii.zero) ++ data ++ drop (o + length data) file.

(** At most [want] bytes at [off], and at most [n]. *)
Definition pread (file : bytes) (off : N) (want n : N) : bytes :=
  take (N.to_nat (N.min want n)) (drop (N.to_nat off) file).

(** ** The owner *)

Record spill := mkSpill {
  cap_ : N;
  fd_ : bool;       (* the file is open *)
  file : bytes;
  written_ : N;
  ended_ : bool;
}.
Definition fresh_spill (cap : N) : spill := mkSpill cap false [] 0 false.
Definition with_ended s := mkSpill (cap_ s) (fd_ s) (file s) (written_ s) true.
Definition with_fd s := mkSpill (cap_ s) true [] (written_ s) (ended_ s).
Definition with_file f s := mkSpill (cap_ s) (fd_ s) f (written_ s) (ended_ s).
Definition with_written n s := mkSpill (cap_ s) (fd_ s) (file s) n (ended_ s).

Inductive opoint :=
  | OIdle
  | OOpen (r : rec)
  | OHeader (r : rec) (todo : bytes) (off : N)
  | OText (r : rec) (todo : bytes) (off : N)
  | OPublish (r : rec).

(** [append] up to the first system call. *)
Definition append (kind : SpillKind) (text : bytes) (s : spill) : spill * opoint :=
  if ended_ s then (s, OIdle)
  else
    let text := take (N.to_nat kMaxText) text in
    let tail := written_ s in
    let '(s, r) :=
      if (cap_ s <? u64 (tail + kHeader + blen text))%N then (with_ended s, (line, kTruncated)) else (s, (kind, text)) in
    (s, if fd_ s then OHeader r (header r) tail else OOpen r).

(** An iteration of [writeAt]'s loop; [None] if it returns false. *)
Definition writeAt (todo : bytes) (off : N) (answer : io) (s : spill) : spill * option (bytes * N) :=
  match answer with
  | Interrupted => (s, Some (todo, off))
  | Failed | Moved 0 => (s, None)
  | Moved n =>
      let n := N.min n (blen todo) in
      (with_file (pwrite (file s) off (take (N.to_nat n) todo)) s, Some (drop (N.to_nat n) todo, (off + n)%N))
  end.

Definition owner_step (answer : io) (p : opoint) (s : spill) : spill * opoint :=
  match p with
  | OIdle => (s, OIdle)
  | OOpen r =>
      match answer with
      | Failed => (with_ended s, OIdle)
      | _ => (with_fd s, OHeader r (header r) (written_ s))
      end
  | OHeader r [] _ => (s, OText r r.2 (written_ s + kHeader))
  | OHeader r todo off =>
      match writeAt todo off answer s with
      | (s, Some (todo, off)) => (s, OHeader r todo off)
      | (s, None) => (with_ended s, OIdle)
      end
  | OText r [] _ => (s, OPublish r)
  | OText r todo off =>
      match writeAt todo off answer s with
      | (s, Some (todo, off)) => (s, OText r todo off)
      | (s, None) => (with_ended s, OIdle)
      end
  | OPublish r => (with_written (u64 (written_ s + kHeader + blen r.2)) s, OIdle)
  end.

(** ** A reader *)

Inductive rpoint :=
  | RDrain
  | RNext (end_ : N)
  | RHeader (end_ : N) (got : bytes)
  | RText (end_ : N) (kind : SpillKind) (len : N) (got : bytes)
  | RCheck
  | RWait
  | RReturned (completed : bool).

Record reader := mkReader { offset : N; emitted : list rec; at_point : rpoint }.
Definition fresh_reader : reader := mkReader 0 [] RDrain.
Definition goto p (r : reader) : reader := mkReader (offset r) (emitted r) p.
(** A record that cannot be read is skipped along with everything after it. *)
Definition skip_rest (end_ : N) (r : reader) : reader := mkReader end_ (emitted r) RCheck.

(** What an iteration of [readAt]'s loop adds to what it has; [None] if it returns false. *)
Definition readAt (file : bytes) (off want : N) (got : bytes) (answer : io) : option bytes :=
  match answer with
  | Interrupted => Some got
  | Failed => None
  | Moved n =>
      match pread file (off + blen got) (want - blen got) n with
      | [] => None
      | more => Some (got ++ more)
      end
  end.

(** Once the header is there. *)
Definition parse_header (end_ : N) (got : bytes) (r : reader) : reader :=
  match got with
  | code :: raw =>
      let len := of_le32 raw in
      match kind_of (N_of_ascii code) with
      | Some kind => if (kMaxText <? len)%N then skip_rest end_ r else goto (RText end_ kind len []) r
      | None => skip_rest end_ r
      end
  | [] => skip_rest end_ r
  end.

(** [drain], from [written()] on. *)
Definition drain_step (answer : io) (s : spill) (r : reader) : reader :=
  match at_point r with
  | RDrain => goto (RNext (written_ s)) r
  | RNext end_ => if (offset r <? end_)%N then goto (RHeader end_ []) r else goto RCheck r
  | RHeader end_ got =>
      if (blen got =? kHeader)%N then parse_header end_ got r
      else match readAt (file s) (offset r) kHeader got answer with
           | Some got => goto (RHeader end_ got) r
           | None => skip_rest end_ r
           end
  | RText end_ kind len got =>
      if (blen got =? len)%N then mkReader (offset r + kHeader + len) (emitted r ++ [(kind, got)]) (RNext end_)
      else match readAt (file s) (offset r + kHeader) len got answer with
           | Some got => goto (RText end_ kind len got) r
           | None => skip_rest end_ r
           end
  | _ => r
  end.

(** [followSpill] *)
Definition reader_step (answer : io) (cancelled finished : bool) (s : spill) (r : reader) : reader :=
  match at_point r with
  | RCheck =>
      if finished && (written_ s <=? offset r)%N then goto (RReturned true) r
      else if cancelled then goto (RReturned false) r
      else goto RWait r
  | RWait => goto RDrain r   (* woken, or after [poll] *)
  | RReturned b => r
  | _ => drain_step answer s r
  end.

(** ** One owner and one reader

    [asked] is what the owner was given to log, [log] the records it has published; [torn] and
    [missed] tell whether a write or a read has failed. *)

Record system := mkSystem {
  sp : spill;
  owner : opoint;
  finished : bool;
  rdr : reader;
  asked : list rec;
  log : list rec;
  torn : bool;
  missed : bool;
}.
Definition initial (cap : N) : system := mkSystem (fresh_spill cap) OIdle false fresh_reader [] [] false false.

Inductive event :=
  | Log (kind : SpillKind) (text : bytes)
  | Owner (answer : io)
  | Finish
  | Reader (answer : io) (cancelled : bool).

Definition fails (answer : io) : bool := match answer with Failed | Moved 0 => true | _ => false end.
Definition writes (p : opoint) : bool :=
  match p with OOpen _ => true | OHeader _ (_ :: _) _ | OText _ (_ :: _) _ => true | _ => false end.
Definition gives_up (r r' : reader) : bool :=
  match at_point r with
  | RHeader _ _ | RText _ _ _ _ => match at_point r' with RCheck => true | _ => false end
  | _ => false
  end.

Definition step (ev : event) (y : system) : system :=
  match ev with
  | Log kind text =>
      let '(s, p) := append kind text (sp y) in
      mkSystem s p (finished y) (rdr y) (asked y ++ [(kind, text)]) (log y) (torn y) (missed y)
  | Owner answer =>
      let '(s, p) := owner_step answer (owner y) (sp y) in
      mkSystem s p (finished y) (rdr y) (asked y)
        (match owner y with OPublish r => log y ++ [r] | _ => log y end)
        (torn y || writes (owner y) && match p with OIdle => true | _ => false end) (missed y)
  | Finish => mkSystem (sp y) (owner y) true (rdr y) (asked y) (log y) (torn y) (missed y)
  | Reader answer cancelled =>
      let r := reader_step answer cancelled (finished y) (sp y) (rdr y) in
      mkSystem (sp y) (owner y) (finished y) r (asked y) (log y) (torn y) (missed y || gives_up (rdr y) r)
  end.

(** The owner logs one event after the other, and nothing after it has finished. *)
Definition enabled (ev : event) (y : system) : Prop :=
  match ev with
  | Log _ _ | Finish => owner y = OIdle ∧ finished y = false
  | _ => True
  end.

Inductive reachable (cap : N) : system → Prop :=
  | reach_initial : reachable cap (initial cap)
  | reach_step y ev : reachable cap y → enabled ev y → reachable cap (step ev y).

(** ** What the log should hold *)

Definition clip (r : rec) : rec := (r.1, take (N.to_nat kMaxText) r.2).
#[global] Arguments clip : simpl never.

(** The events up to the cap, and then the marker. *)
Fixpoint recorded (cap tail : N) (evs : list rec) : list rec :=
  match evs with
  | [] => []
  | r :: evs =>
      let tail' := (tail + kHeader + blen (clip r).2)%N in
      if (cap <? tail')%N then [(line, kTruncated)] else clip r :: recorded cap tail' evs
  end.
