(* ===== verification/SpillTheorems.v ===== *)
(** * The build log's spill file: what readers see *)

From Stdlib Require Import Ascii.
From S2P Require Import Prelude Spill.

(** ** Bytes and records *)

Lemma blen_app a b : blen (a ++ b) = (blen a + blen b)%N.
Proof. unfold blen. rewrite length_app. lia. Qed.
Lemma blen_take n (l : bytes) : blen (take n l) = N.min (N.of_nat n) (blen l).
Proof. unfold blen. rewrite length_take. lia. Qed.
Lemma blen_drop n (l : bytes) : blen (drop n l) = (blen l - N.of_nat n)%N.
Proof. unfold blen. rewrite length_drop. lia. Qed.
Lemma blen_nil l : blen l = 0%N ↔ l = [].
Proof. unfold blen. destruct l; simpl; split; (done || lia). Qed.

Lemma of_le32_le32 n : (n < 2 ^ 32)%N → of_le32 (le32 n) = n.
Proof.
  intros Hn. unfold of_le32, le32. cbn [foldr]. rewrite !N_ascii_embedding by (apply N.mod_upper_bound; done).
  rewrite (N.mod_small (n / 16777216)) by (apply N.Div0.div_lt_upper_bound; lia).
  pose proof (N.div_mod n 256 ltac:(done)). pose proof (N.div_mod (n / 256) 256 ltac:(done)).
  pose proof (N.div_mod (n / 65536) 256 ltac:(done)). rewrite N.Div0.div_div in *.
  change (256 * 256)%N with 65536%N in *. change (65536 * 256)%N with 16777216%N in *. lia.
Qed.

Lemma blen_header r : blen (header r) = kHeader.
Proof. done. Qed.
Lemma blen_encode_rec r : blen (encode_rec r) = (kHeader + blen r.2)%N.
Proof. unfold encode_rec. by rewrite blen_app, blen_header. Qed.
Lemma encode_app a b : encode (a ++ b) = encode a ++ encode b.
Proof. apply bind_app. Qed.
Lemma encode_snoc a r : encode (a ++ [r]) = encode a ++ encode_rec r.
Proof. rewrite encode_app. unfold encode at 2. csimpl. by rewrite app_nil_r. Qed.

(** The record at [k] in the encoded log. *)
Lemma encode_split log k r :
  log !! k = Some r → encode log = encode (take k log) ++ encode_rec r ++ encode (drop (S k) log).
Proof.
  intros Hk. rewrite <- (take_drop_middle log k r Hk) at 1. rewrite encode_app. unfold encode at 2. done.
Qed.
Lemma encode_take_S log k r : log !! k = Some r → encode (take (S k) log) = encode (take k log) ++ encode_rec r.
Proof. intros Hk. rewrite (take_S_r _ _ _ Hk). apply encode_snoc. Qed.

Definition short (r : rec) : Prop := (blen r.2 ≤ kMaxText)%N.

Lemma header_parse r : short r → ∃ raw, header r = ascii_of_N (kind_code r.1) :: raw ∧ of_le32 raw = blen r.2 ∧
  kind_of (N_of_ascii (ascii_of_N (kind_code r.1))) = Some r.1.
Proof.
  intros Hs. eexists. split; [done|]. unfold short, kMaxText in Hs. split.
  - unfold u32. rewrite N.mod_small by (change (2 ^ 32)%N with 4294967296%N; lia). apply of_le32_le32.
    change (2 ^ 32)%N with 4294967296%N. lia.
  - destruct r as [[] t]; done.
Qed.

(** ** The file *)

Lemma pwrite_prefix f off data n :
  (N.of_nat n ≤ off)%N → (off ≤ blen f)%N → take n (pwrite f off data) = take n f.
Proof.
  intros Hn Hoff. unfold pwrite, blen in *. rewrite take_app_le by (rewrite length_take, length_app; lia).
  rewrite take_take, Nat.min_l by lia. by rewrite take_app_le by lia.
Qed.

(** What was written ends with the new data. *)
Lemma pwrite_extends f off data pre :
  take (length pre) f = pre → off = blen pre → take (length (pre ++ data)) (pwrite f off data) = pre ++ data.
Proof.
  intros Hpre ->. unfold pwrite, blen. rewrite Nat2N.id.
  assert (length pre ≤ length f) as Hle by (rewrite <- Hpre at 1; rewrite length_take; lia).
  replace (length pre - length f) with 0 by lia. simpl. rewrite app_nil_r, Hpre, app_assoc.
  rewrite take_app_le by lia. by rewrite take_ge.
Qed.

Lemma pread_within f off want n pre l :
  take (length pre) f = pre → (∃ a c, pre = a ++ l ++ c ∧ off = blen a) → (want ≤ blen l)%N →
  pread f off want n = take (N.to_nat (N.min want n)) l.
Proof.
  intros Hpre (a & c & -> & ->) Hw. unfold pread, blen in *. rewrite Nat2N.id.
  rewrite <- (take_drop (length (a ++ l ++ c)) f), Hpre. rewrite <- !app_assoc, drop_app_length.
  rewrite take_app_le by lia. done.
Qed.

(** The file starts with these bytes. *)
Definition holds (pre : bytes) (f : bytes) : Prop := take (length pre) f = pre.

Lemma holds_app a b f : holds (a ++ b) f → holds a f.
Proof.
  unfold holds. intros H. assert (take (length a) (take (length (a ++ b)) f) = take (length a) (a ++ b)) as H' by by rewrite H.
  rewrite take_take, length_app, Nat.min_l in H' by lia. by rewrite take_app_length in H'.
Qed.
Lemma holds_length pre f : holds pre f → length pre ≤ length f.
Proof. unfold holds. intros H. rewrite <- H at 1. rewrite length_take. lia. Qed.

(** ** The owner *)

Definition pending (p : opoint) : list rec :=
  match p with OIdle => [] | OOpen r | OHeader r _ _ | OText r _ _ | OPublish r => [r] end.

(** What has been written of the record that is on its way. *)
Definition partial (s : spill) (log : list rec) (p : opoint) : Prop :=
  match p with
  | OHeader r todo off => ∃ done, header r = done ++ todo ∧ off = (written_ s + blen done)%N ∧ holds (encode log ++ done) (file s)
  | OText r todo off => ∃ done, r.2 = done ++ todo ∧ off = (written_ s + kHeader + blen done)%N ∧
      holds (encode log ++ header r ++ done) (file s)
  | OPublish r => holds (encode log ++ encode_rec r) (file s)
  | _ => True
  end.

Definition marker : rec := (line, kTruncated).
Definition slack : N := (kHeader + blen kTruncated)%N.

Record owner_ok (cap : N) (s : spill) (p : opoint) (log : list rec) : Prop := {
  oo_cap : cap_ s = cap;
  oo_written : written_ s = blen (encode log);
  oo_prefix : holds (encode log) (file s);
  oo_partial : partial s log p;
  oo_fd : match p with OIdle => fd_ s = false → log = [] | OOpen _ => fd_ s = false ∧ log = [] | _ => fd_ s = true end;
  oo_short : Forall short (log ++ pending p);
  oo_room : if ended_ s then (p = OIdle ∧ (blen (encode log) ≤ cap + slack)%N) ∨ (pending p = [marker] ∧ (blen (encode log) ≤ cap)%N)
            else (blen (encode (log ++ pending p)) ≤ cap)%N;
}.

Lemma owner_ok_ended cap s p log : owner_ok cap s p log → owner_ok cap (with_ended s) OIdle log.
Proof.
  intros []. constructor; try done.
  - simpl. intros Hf. destruct p; try congruence; [by apply oo_fd0|by destruct oo_fd0].
  - simpl. rewrite app_nil_r. by apply Forall_app in oo_short0 as [? _].
  - simpl. left. split; [done|]. unfold slack. destruct (ended_ s).
    + destruct oo_room0 as [[_ ?]|[_ ?]]; [done|lia].
    + rewrite encode_app, blen_app in oo_room0. lia.
Qed.

Lemma short_clip r : short (clip r).
Proof. unfold short, clip. simpl. rewrite blen_take. unfold kMaxText. lia. Qed.
Lemma short_marker : short marker.
Proof. by vm_compute. Qed.

Lemma append_ok cap kind text s log :
  (cap < 2 ^ 63)%N → owner_ok cap s OIdle log →
  let '(s', p') := append kind text s in owner_ok cap s' p' log.
Proof.
  intros Hcap Ho. unfold append. destruct (ended_ s) eqn:He; [done|].
  pose proof (oo_cap _ _ _ _ Ho) as Hc. pose proof (oo_written _ _ _ _ Ho) as Hw. pose proof (oo_room _ _ _ _ Ho) as Hr.
  rewrite He in Hr. simpl in Hr. rewrite app_nil_r in Hr.
  assert (blen (take (N.to_nat kMaxText) text) ≤ kMaxText)%N as Hs by (rewrite blen_take; lia).
  pose proof (oo_short _ _ _ _ Ho) as Hsh. simpl in Hsh. rewrite app_nil_r in Hsh.
  generalize dependent (take (N.to_nat kMaxText) text). intros t Hs.
  assert (u64 (written_ s + kHeader + blen t) = (written_ s + kHeader + blen t)%N) as Hu.
  { unfold u64. apply N.mod_small. rewrite Hw. unfold kHeader, kMaxText in *.
    change (2 ^ 63)%N with 9223372036854775808%N in Hcap. change (2 ^ 64)%N with 18446744073709551616%N.
    change (2 ^ 20)%N with 1048576%N in Hs. lia. }
  rewrite Hu, Hc. destruct (N.ltb_spec cap (written_ s + kHeader + blen t)).
  - change (fd_ (with_ended s)) with (fd_ s). pose proof (oo_fd _ _ _ _ Ho) as Hlog. simpl in Hlog.
    assert (Forall short (log ++ [marker])) by (apply Forall_app; split; [done|]; constructor; [apply short_marker|done]).
    destruct (fd_ s) eqn:Hfd; (constructor; simpl; try apply Ho; try done); auto.
    exists []. rewrite app_nil_r. split_and!; [done|unfold blen; simpl; lia|apply Ho].
  - pose proof (oo_fd _ _ _ _ Ho) as Hlog. simpl in Hlog.
    assert (Forall short (log ++ [(kind, t)])) by (apply Forall_app; split; [done|]; by constructor).
    assert (blen (encode (log ++ [(kind, t)])) ≤ cap)%N by (rewrite encode_snoc, blen_app, blen_encode_rec; simpl; lia).
    destruct (fd_ s) eqn:Hfd; (constructor; simpl; rewrite ?He; try apply Ho; try done); auto.
    exists []. rewrite app_nil_r. split_and!; [done|unfold blen; simpl; lia|apply Ho].
Qed.

(** An iteration of the write loop moves bytes from what is left to the file. *)
Lemma writeAt_ok pre done todo off answer s s' next :
  holds (pre ++ done) (file s) → off = (blen pre + blen done)%N → writeAt todo off answer s = (s', next) →
  match next with
  | Some (todo', off') => ∃ more f, s' = with_file f s ∧ todo = more ++ todo' ∧ off' = (blen pre + blen (done ++ more))%N ∧
      holds (pre ++ done ++ more) f
  | None => s' = s
  end.
Proof.
  intros Hh -> Hw. unfold writeAt in Hw. destruct answer as [| |n]; [| |destruct n as [|n']]; injection Hw as <- <-; try done.
  { exists [], (file s). rewrite !app_nil_r. by destruct s. }
  set (n := N.min (N.pos n') (blen todo)). exists (take (N.to_nat n) todo), (pwrite (file s) (blen pre + blen done) (take (N.to_nat n) todo)).
  split_and!; [done|by rewrite take_drop| |].
  - rewrite blen_app, blen_take. lia.
  - rewrite app_assoc. apply pwrite_extends; [done|by rewrite blen_app].
Qed.

(** The owner goes on with the same record. *)
Lemma owner_ok_next cap s p log s' p' :
  owner_ok cap s p log → (∃ f, s' = with_file f s) → pending p ≠ [] → pending p' = pending p → partial s' log p' →
  holds (encode log) (file s') → fd_ s = true → match p' with OIdle | OOpen _ => False | _ => True end →
  owner_ok cap s' p' log.
Proof.
  intros [] [f ->] Hne Hp Hpart Hh Hfd Hp'. constructor; try done.
  - destruct p'; done.
  - by rewrite Hp.
  - simpl. rewrite Hp. destruct (ended_ s); [|done]. destruct oo_room0 as [[-> _]|?]; [done|by right].
Qed.

Lemma owner_publish_ok cap s r log :
  (cap < 2 ^ 63)%N → owner_ok cap s (OPublish r) log →
  owner_ok cap (with_written (u64 (written_ s + kHeader + blen r.2)) s) OIdle (log ++ [r]).
Proof.
  intros Hcap Ho. pose proof (oo_written _ _ _ _ Ho) as Hw. pose proof (oo_room _ _ _ _ Ho) as Hr. simpl in Hr.
  assert (blen (encode (log ++ [r])) = written_ s + kHeader + blen r.2)%N as Hlen.
  { rewrite encode_snoc, blen_app, blen_encode_rec. lia. }
  assert (if ended_ s then (blen (encode (log ++ [r])) ≤ cap + slack)%N else (blen (encode (log ++ [r])) ≤ cap)%N) as Hroom.
  { destruct (ended_ s); [|done]. destruct Hr as [[? _]|[[= ->] Hle]]; [done|]. rewrite Hlen, Hw. unfold slack. simpl. lia. }
  assert (blen (encode (log ++ [r])) < 2 ^ 64)%N as Hlt.
  { change (2 ^ 63)%N with 9223372036854775808%N in Hcap. change (2 ^ 64)%N with 18446744073709551616%N.
    assert (slack = 34%N) as Hsl by done. destruct (ended_ s); lia. }
  constructor; try apply Ho; try done.
  - simpl. unfold u64. rewrite N.mod_small by lia. lia.
  - simpl. rewrite encode_snoc. apply (oo_partial _ _ _ _ Ho).
  - simpl. pose proof (oo_fd _ _ _ _ Ho) as Hfd. simpl in Hfd. congruence.
  - simpl. rewrite app_nil_r. apply (oo_short _ _ _ _ Ho).
  - simpl. rewrite app_nil_r. destruct (ended_ s); auto.
Qed.

Lemma owner_step_ok cap answer s p log :
  (cap < 2 ^ 63)%N → owner_ok cap s p log →
  let '(s', p') := owner_step answer p s in
  owner_ok cap s' p' (match p with OPublish r => log ++ [r] | _ => log end).
Proof.
  intros Hcap Ho. pose proof (oo_written _ _ _ _ Ho) as Hw. pose proof (oo_fd _ _ _ _ Ho) as Hfd.
  pose proof (oo_partial _ _ _ _ Ho) as Hpart. destruct p as [|r|r todo off|r todo off|r]; cbn [owner_step partial] in Hfd, Hpart |- *.
  - done.
  - destruct Hfd as [Hfd ->].
    assert (owner_ok cap (with_fd s) (OHeader r (header r) (written_ s)) []) as Hopen.
    { constructor; simpl; try apply Ho; try done.
      - exists []. split_and!; [done|unfold blen; simpl; lia|done].
      - pose proof (oo_room _ _ _ _ Ho) as Hr. simpl in Hr. destruct (ended_ s); [|done]. destruct Hr as [[? _]|?]; [done|by right]. }
    destruct answer; [done|by eapply owner_ok_ended|done].
  - destruct Hpart as (done & Hhd & Hoff & Hh). destruct todo as [|c todo].
    + eapply (owner_ok_next _ _ _ _ s); [exact Ho| |done|done| | |done|done].
      * exists (file s). by destruct s.
      * exists []. rewrite app_nil_r in Hhd. rewrite app_nil_r, Hhd. split_and!; [done|unfold blen; simpl; lia|done].
      * apply Ho.
    + destruct (writeAt (c :: todo) off answer s) as [s' next] eqn:Hwr.
      assert (off = blen (encode log) + blen done)%N as Hoff' by lia.
      pose proof (writeAt_ok (encode log) done _ _ _ _ _ _ Hh Hoff' Hwr) as Hn.
      destruct next as [[todo' off']|]; [|subst; by eapply owner_ok_ended]. destruct Hn as (more & f & -> & Hm & -> & Hf).
      eapply (owner_ok_next _ _ _ _ (with_file f s)); [exact Ho|by eexists|done|done| | |done|done].
      * exists (done ++ more). rewrite <- app_assoc, <- Hm. split_and!; [done|simpl; lia|done].
      * simpl. by eapply holds_app.
  - destruct Hpart as (done & Hhd & Hoff & Hh). destruct todo as [|c todo].
    + eapply (owner_ok_next _ _ _ _ s); [exact Ho| |done|done| | |done|done].
      * exists (file s). by destruct s.
      * simpl. unfold encode_rec. by rewrite Hhd, app_nil_r.
      * apply Ho.
    + destruct (writeAt (c :: todo) off answer s) as [s' next] eqn:Hwr. rewrite app_assoc in Hh.
      assert (off = blen (encode log ++ header r) + blen done)%N as Hoff' by (rewrite blen_app, blen_header; lia).
      pose proof (writeAt_ok (encode log ++ header r) done _ _ _ _ _ _ Hh Hoff' Hwr) as Hn.
      destruct next as [[todo' off']|]; [|subst; by eapply owner_ok_ended]. destruct Hn as (more & f & -> & Hm & -> & Hf).
      eapply (owner_ok_next _ _ _ _ (with_file f s)); [exact Ho|by eexists|done|done| | |done|done].
      * exists (done ++ more). rewrite <- app_assoc, <- Hm. rewrite <- app_assoc in Hf.
        split_and!; [done|simpl; rewrite blen_app, blen_header; lia|done].
      * simpl. rewrite <- app_assoc in Hf. by eapply holds_app.
  - by apply owner_publish_ok.
Qed.

(** ** The size of the file *)

Lemma pwrite_length f off data : (off ≤ blen f)%N → blen (pwrite f off data) = N.max (blen f) (off + blen data).
Proof. intros Hoff. unfold pwrite, blen in *. rewrite !length_app, length_take, length_app, length_replicate, length_drop. lia. Qed.

Lemma writeAt_size limit pre done todo off answer s :
  holds (pre ++ done) (file s) → off = blen (pre ++ done) → (blen (file s) ≤ limit)%N → (off + blen todo ≤ limit)%N →
  (blen (file (writeAt todo off answer s).1) ≤ limit)%N.
Proof.
  intros Hh -> Hf Hl. assert (blen (pre ++ done) ≤ blen (file s))%N as Hle by (apply holds_length in Hh; unfold blen; lia).
  unfold writeAt. destruct answer as [| |[|n]]; try done. simpl. rewrite pwrite_length, blen_take by done. lia.
Qed.

(** What is on its way to the file fits. *)
Lemma pending_room cap s p log r : owner_ok cap s p log → pending p = [r] → (written_ s + kHeader + blen r.2 ≤ cap + slack)%N.
Proof.
  intros Ho Hp. rewrite (oo_written _ _ _ _ Ho). pose proof (oo_room _ _ _ _ Ho) as Hroom. rewrite Hp in Hroom. destruct (ended_ s).
  - destruct Hroom as [[-> _]|[[= ->] ?]]; [done|]. unfold slack. simpl. lia.
  - rewrite encode_snoc, blen_app, blen_encode_rec in Hroom. lia.
Qed.

Lemma owner_step_size cap answer s p log :
  owner_ok cap s p log → (blen (file s) ≤ cap + slack)%N → (blen (file (owner_step answer p s).1) ≤ cap + slack)%N.
Proof.
  intros Ho Hf. pose proof (oo_partial _ _ _ _ Ho) as Hp. pose proof (oo_written _ _ _ _ Ho) as Hw.
  destruct p as [|r|r [|c todo] off|r [|c todo] off|r]; try done; cbn [owner_step].
  - destruct answer; done || (simpl; unfold blen; simpl; lia).
  - destruct Hp as (done & Hhd & -> & Hh). pose proof (pending_room _ _ _ _ r Ho eq_refl) as Hr.
    pose proof (f_equal blen Hhd) as Hl. rewrite blen_app, blen_header in Hl.
    pose proof (writeAt_size (cap + slack) (encode log) done (c :: todo) (written_ s + blen done) answer s Hh) as Hs.
    rewrite blen_app, Hw in Hs. specialize (Hs eq_refl Hf ltac:(lia)). rewrite Hw. by destruct (writeAt _ _ _ _) as [s' [[]|]].
  - destruct Hp as (done & Htx & -> & Hh). pose proof (pending_room _ _ _ _ r Ho eq_refl) as Hr.
    pose proof (f_equal blen Htx) as Hl. rewrite blen_app in Hl. rewrite app_assoc in Hh.
    pose proof (writeAt_size (cap + slack) (encode log ++ header r) done (c :: todo) (written_ s + kHeader + blen done) answer s Hh) as Hs.
    rewrite !blen_app, blen_header, Hw in Hs. specialize (Hs eq_refl Hf ltac:(lia)). rewrite Hw. by destruct (writeAt _ _ _ _) as [s' [[]|]].
Qed.

(** ** What is recorded of what was logged *)

Definition fits (cap : N) (evs : list rec) : Prop := (blen (encode (clip <$> evs)) ≤ cap)%N.

Lemma encode_cons r l : blen (encode (r :: l)) = (kHeader + blen r.2 + blen (encode l))%N.
Proof. change (encode (r :: l)) with (encode_rec r ++ encode l). by rewrite blen_app, blen_encode_rec. Qed.

Lemma recorded_all cap tail evs :
  (tail + blen (encode (clip <$> evs)) ≤ cap)%N → recorded cap tail evs = clip <$> evs.
Proof.
  revert tail. induction evs as [|r evs IH]; intros tail Hle; [done|]. cbn [recorded]. rewrite fmap_cons, encode_cons in Hle.
  destruct (N.ltb_spec cap (tail + kHeader + blen (clip r).2)); [lia|]. rewrite fmap_cons. f_equal. apply IH. lia.
Qed.

Lemma recorded_cut cap tail evs r rest :
  (tail + blen (encode (clip <$> evs)) ≤ cap)%N → (cap < tail + blen (encode (clip <$> evs ++ [r])))%N →
  recorded cap tail (evs ++ r :: rest) = (clip <$> evs) ++ [marker].
Proof.
  revert tail. induction evs as [|r' evs IH]; intros tail Hle Hlt; cbn [app recorded].
  - cbn [app fmap list_fmap] in Hlt. rewrite encode_cons in Hlt. change (blen (encode [])) with 0%N in Hlt.
    destruct (N.ltb_spec cap (tail + kHeader + blen (clip r).2)); [done|lia].
  - rewrite fmap_cons, encode_cons in Hle. rewrite <- app_comm_cons, fmap_cons, encode_cons in Hlt.
    destruct (N.ltb_spec cap (tail + kHeader + blen (clip r').2)); [lia|]. rewrite fmap_cons. cbn [app]. f_equal. apply IH; lia.
Qed.

(** The records so far, with the one on its way, are what the log should hold. *)
Definition told (cap : N) (s : spill) (p : opoint) (asked log : list rec) : Prop :=
  if ended_ s then ∃ evs r rest, asked = evs ++ r :: rest ∧ log ++ pending p = (clip <$> evs) ++ [marker] ∧
    fits cap evs ∧ ¬ fits cap (evs ++ [r])
  else log ++ pending p = clip <$> asked ∧ fits cap asked.

Lemma told_recorded cap s asked log : told cap s OIdle asked log → log = recorded cap 0 asked.
Proof.
  unfold told, fits. simpl. rewrite app_nil_r. destruct (ended_ s).
  - intros (evs & r & rest & -> & -> & Hf & Hn). symmetry. apply recorded_cut; lia.
  - intros [-> Hf]. symmetry. apply recorded_all. lia.
Qed.

Lemma append_told cap kind text s asked log :
  (cap < 2 ^ 63)%N → owner_ok cap s OIdle log → told cap s OIdle asked log →
  let '(s', p') := append kind text s in told cap s' p' (asked ++ [(kind, text)]) log.
Proof.
  intros Hcap Ho Ht. unfold append, told in *. destruct (ended_ s) eqn:He.
  - rewrite He. destruct Ht as (evs & r & rest & -> & Hlog & Hf & Hn). exists evs, r, (rest ++ [(kind, text)]).
    by rewrite <- app_assoc.
  - simpl in Ht. rewrite app_nil_r in Ht. destruct Ht as [Hlog Hf].
    rewrite (oo_cap _ _ _ _ Ho), (oo_written _ _ _ _ Ho), Hlog.
    assert (blen (encode (clip <$> asked ++ [(kind, text)])) =
      blen (encode (clip <$> asked)) + kHeader + blen (take (N.to_nat kMaxText) text))%N as Hlen.
    { rewrite fmap_app, encode_app, blen_app. cbn [fmap list_fmap]. rewrite encode_cons. change (blen (encode [])) with 0%N.
      unfold clip. cbn [snd]. lia. }
    assert (blen (take (N.to_nat kMaxText) text) ≤ kMaxText)%N as Hs by (rewrite blen_take; lia).
    assert (u64 (blen (encode (clip <$> asked)) + kHeader + blen (take (N.to_nat kMaxText) text)) =
      blen (encode (clip <$> asked ++ [(kind, text)])))%N as ->.
    { rewrite Hlen. unfold u64. apply N.mod_small. unfold fits, kHeader in *. assert (kMaxText = 1048576)%N by done.
      change (2 ^ 63)%N with 9223372036854775808%N in Hcap. change (2 ^ 64)%N with 18446744073709551616%N. lia. }
    destruct (N.ltb_spec cap (blen (encode (clip <$> asked ++ [(kind, text)])))) as [Hlt|Hle].
    + destruct (fd_ (with_ended s)); cbn [ended_ with_ended pending]; exists asked, (kind, text), []; unfold fits;
        (split_and!; [done|done|done|lia]).
    + destruct (fd_ s); rewrite He; cbn [pending]; rewrite fmap_app; (split; [done|unfold fits; lia]).
Qed.

Lemma owner_step_told cap answer s p asked log :
  owner_ok cap s p log → told cap s p asked log →
  let '(s', p') := owner_step answer p s in
  writes p && match p' with OIdle => true | _ => false end = false →
  told cap s' p' asked (match p with OPublish r => log ++ [r] | _ => log end).
Proof.
  intros Ho Ht. destruct p as [|r|r [|c todo] off|r [|c todo] off|r]; cbn [owner_step writes andb]; try done.
  - destruct answer; done.
  - destruct (writeAt (c :: todo) off answer s) as [s' next] eqn:Hwr.
    assert (ended_ s' = ended_ s) as He by (unfold writeAt in Hwr; repeat case_match; by injection Hwr as <- _).
    unfold told in *. destruct next as [[]|]; [|done]. by rewrite He.
  - destruct (writeAt (c :: todo) off answer s) as [s' next] eqn:Hwr.
    assert (ended_ s' = ended_ s) as He by (unfold writeAt in Hwr; repeat case_match; by injection Hwr as <- _).
    unfold told in *. destruct next as [[]|]; [|done]. by rewrite He.
  - intros _. unfold told in *. simpl in *. by rewrite app_nil_r.
Qed.

(** ** A reader *)

Lemma encode_take_le log j k : (j ≤ k)%nat → (blen (encode (take j log)) ≤ blen (encode (take k log)))%N.
Proof.
  intros Hjk. replace (take j log) with (take j (take k log)) by (by rewrite take_take, Nat.min_l).
  rewrite <- (take_drop j (take k log)) at 2. rewrite encode_app, blen_app. lia.
Qed.
Lemma encode_take_lt log j k : (j < k ≤ length log)%nat → (blen (encode (take j log)) < blen (encode (take k log)))%N.
Proof.
  intros [Hjk Hk]. destruct (lookup_lt_is_Some_2 log j) as [r Hr]; [lia|].
  pose proof (encode_take_le log (S j) k ltac:(lia)) as H. rewrite (encode_take_S _ _ _ Hr), blen_app, blen_encode_rec in H.
  unfold kHeader in H. lia.
Qed.

Definition bound (log : list rec) (k : nat) (end_ : N) (j : nat) : Prop :=
  k ≤ j ≤ length log ∧ end_ = blen (encode (take j log)).

Definition point_ok (log : list rec) (fin : bool) (k : nat) (p : rpoint) : Prop :=
  match p with
  | RNext end_ => ∃ j, bound log k end_ j
  | RHeader end_ got => ∃ j r rest, bound log (S k) end_ j ∧ log !! k = Some r ∧ header r = got ++ rest
  | RText end_ kind len got => ∃ j r rest, bound log (S k) end_ j ∧ log !! k = Some r ∧ r.1 = kind ∧ blen r.2 = len ∧
      r.2 = got ++ rest
  | RReturned true => fin = true ∧ k = length log
  | _ => True
  end.

(** The reader stands before record [k]; what it has given out are the records before. *)
Record reader_ok (log : list rec) (fin missed : bool) (r : reader) (k : nat) : Prop := {
  ro_k : k ≤ length log;
  ro_offset : offset r = blen (encode (take k log));
  ro_sub : emitted r `sublist_of` take k log;
  ro_all : missed = false → emitted r = take k log;
  ro_point : point_ok log fin k (at_point r);
}.

(** The log grows under the reader. *)
Lemma reader_ok_grow log rec0 missed r k :
  reader_ok log false missed r k → reader_ok (log ++ [rec0]) false missed r k.
Proof.
  intros []. assert (∀ j, j ≤ length log → take j (log ++ [rec0]) = take j log) as Ht by (intros; by apply take_app_le).
  assert (∀ k' e j, bound log k' e j → bound (log ++ [rec0]) k' e j) as Hb.
  { intros k' e j [[? ?] ->]. split; [rewrite length_app; simpl; lia|by rewrite Ht]. }
  constructor; rewrite ?Ht by done; try done.
  - rewrite length_app. lia.
  - destruct (at_point r) as [|e|e got|e kind len got| | |[]]; simpl in *; try done.
    + destruct ro_point0 as (j & ?). exists j. auto.
    + destruct ro_point0 as (j & r0 & rest & ? & Hl & ?). exists j, r0, rest. split; [auto|]. split; [by apply lookup_app_l_Some|done].
    + destruct ro_point0 as (j & r0 & rest & ? & Hl & ?). exists j, r0, rest. split; [auto|]. split; [by apply lookup_app_l_Some|done].
    + by destruct ro_point0.
Qed.

Lemma reader_ok_goto log fin missed r k p :
  reader_ok log fin missed r k → point_ok log fin k p → reader_ok log fin missed (goto p r) k.
Proof. intros [] Hp. by constructor. Qed.

(** It skips to [end_]. *)
Lemma reader_ok_give_up log fin missed r k end_ j :
  reader_ok log fin missed r k → bound log k end_ j → reader_ok log fin true (skip_rest end_ r) j.
Proof.
  intros [] [[Hkj Hj] ->]. constructor; try done. simpl. etrans; [exact ro_sub0|].
  replace (take k log) with (take k (take j log)) by (by rewrite take_take, Nat.min_l). apply sublist_take.
Qed.

(** What is read belongs to the record. *)
Lemma readAt_ok f log off pre want part got rest answer c :
  holds (encode log) f → encode log = pre ++ part ++ c → off = blen pre → want = blen part → part = got ++ rest →
  match readAt f off want got answer with
  | Some got' => ∃ rest', part = got' ++ rest' ∧ (got' = got ∨ length got < length got')
  | None => True
  end.
Proof.
  intros Hh He -> -> Hpart. unfold readAt. destruct answer as [| |n]; [by exists rest; auto|done|].
  destruct (pread f (blen pre + blen got) (blen part - blen got) n) as [|x more] eqn:Hr; [done|].
  rewrite (pread_within f _ _ n (encode log) rest) in Hr; [|done| |by rewrite Hpart, blen_app; lia].
  - exists (drop (N.to_nat (N.min (blen part - blen got) n)) rest). split; [|right; rewrite length_app; simpl; lia].
    by rewrite <- app_assoc, <- Hr, take_drop.
  - exists (pre ++ got), c. split; [|by rewrite blen_app]. rewrite He, Hpart. by rewrite <- !app_assoc.
Qed.

(** A record is complete. *)
Lemma reader_ok_record log fin missed r k r0 end_ j :
  reader_ok log fin missed r k → log !! k = Some r0 → bound log (S k) end_ j →
  reader_ok log fin missed (mkReader (offset r + kHeader + blen r0.2) (emitted r ++ [r0]) (RNext end_)) (S k).
Proof.
  intros Hr Hr0 Hb. pose proof (lookup_lt_Some _ _ _ Hr0). constructor; cbn [offset emitted at_point].
  - lia.
  - rewrite (encode_take_S log k r0 Hr0), blen_app, blen_encode_rec, (ro_offset _ _ _ _ _ Hr). lia.
  - rewrite (take_S_r _ _ _ Hr0). by apply sublist_app; [apply (ro_sub _ _ _ _ _ Hr)|].
  - intros Hm. by rewrite (take_S_r _ _ _ Hr0), (ro_all _ _ _ _ _ Hr Hm).
  - by exists j.
Qed.

Lemma bound_S log k end_ j : bound log (S k) end_ j → bound log k end_ j.
Proof. intros [[] ->]. split; [lia|done]. Qed.

Lemma log_short cap s p log (k : nat) r0 : owner_ok cap s p log → log !! k = Some r0 → short r0.
Proof. intros Ho Hr0. pose proof (oo_short _ _ _ _ Ho) as Hs. apply Forall_app in Hs as [Hs _]. by eapply Forall_lookup_1. Qed.

Lemma header_step_ok cap answer cancelled fin s p log missed r k end_ got :
  owner_ok cap s p log → reader_ok log fin missed r k → at_point r = RHeader end_ got →
  let r' := reader_step answer cancelled fin s r in ∃ k', reader_ok log fin (missed || gives_up r r') r' k'.
Proof.
  intros Ho Hr Hat. pose proof (ro_point _ _ _ _ _ Hr) as Hp. rewrite Hat in Hp.
  destruct Hp as (j & r0 & rest & Hb & Hr0 & Hhd). pose proof (log_short _ _ _ _ _ _ Ho Hr0) as Hs.
  unfold reader_step, drain_step, gives_up. rewrite Hat. destruct (N.eqb_spec (blen got) kHeader) as [Hlen|Hlen].
  - assert (rest = []) as -> by (apply blen_nil; pose proof (f_equal blen Hhd) as H; rewrite blen_app, blen_header in H; lia).
    rewrite app_nil_r in Hhd. destruct (header_parse r0 Hs) as (raw & Hraw & Hlen' & Hkind). exists k.
    unfold parse_header. rewrite <- Hhd, Hraw, Hkind, Hlen'. destruct (N.ltb_spec kMaxText (blen r0.2)); [unfold short in Hs; lia|].
    simpl. rewrite orb_false_r. apply reader_ok_goto; [done|]. by exists j, r0, r0.2.
  - pose proof (readAt_ok (file s) log (offset r) (encode (take k log)) kHeader (header r0) got rest answer
      (r0.2 ++ encode (drop (S k) log)) (oo_prefix _ _ _ _ Ho)) as Hread.
    rewrite (encode_split log k r0 Hr0) in Hread. unfold encode_rec in Hread. rewrite <- app_assoc in Hread.
    specialize (Hread eq_refl (ro_offset _ _ _ _ _ Hr) eq_refl Hhd).
    destruct (readAt _ _ _ _ _) as [got'|].
    + exists k. simpl. rewrite orb_false_r. destruct Hread as (rest' & Hhd' & _). apply reader_ok_goto; [done|]. by exists j, r0, rest'.
    + exists j. simpl. rewrite orb_true_r. by eapply reader_ok_give_up, bound_S.
Qed.

Lemma text_step_ok cap answer cancelled fin s p log missed r k end_ kind len got :
  owner_ok cap s p log → reader_ok log fin missed r k → at_point r = RText end_ kind len got →
  let r' := reader_step answer cancelled fin s r in ∃ k', reader_ok log fin (missed || gives_up r r') r' k'.
Proof.
  intros Ho Hr Hat. pose proof (ro_point _ _ _ _ _ Hr) as Hp. rewrite Hat in Hp.
  destruct Hp as (j & r0 & rest & Hb & Hr0 & Hk0 & Hlen0 & Htx). pose proof (ro_offset _ _ _ _ _ Hr) as Hoff.
  unfold reader_step, drain_step, gives_up. rewrite Hat. destruct (N.eqb_spec (blen got) len) as [Hlen|Hlen].
  - assert (rest = []) as -> by (apply blen_nil; pose proof (f_equal blen Htx) as H; rewrite blen_app in H; lia).
    rewrite app_nil_r in Htx. exists (S k). simpl. rewrite orb_false_r.
    assert ((kind, got) = r0) as -> by (destruct r0; simpl in *; congruence). rewrite <- Hlen0. by eapply reader_ok_record.
  - pose proof (readAt_ok (file s) log (offset r + kHeader) (encode (take k log) ++ header r0) len r0.2 got rest answer
      (encode (drop (S k) log)) (oo_prefix _ _ _ _ Ho)) as Hread.
    rewrite (encode_split log k r0 Hr0) in Hread. unfold encode_rec in Hread. rewrite <- !app_assoc in Hread.
    specialize (Hread eq_refl). rewrite blen_app, blen_header, Hoff in Hread.
    specialize (Hread eq_refl ltac:(done) Htx). rewrite Hoff. destruct (readAt _ _ _ _ _) as [got'|].
    + exists k. simpl. rewrite orb_false_r. destruct Hread as (rest' & Htx' & _). apply reader_ok_goto; [done|]. by exists j, r0, rest'.
    + exists j. simpl. rewrite orb_true_r. by eapply reader_ok_give_up, bound_S.
Qed.

Lemma reader_step_ok cap answer cancelled fin s p log missed r k :
  owner_ok cap s p log → reader_ok log fin missed r k →
  let r' := reader_step answer cancelled fin s r in ∃ k', reader_ok log fin (missed || gives_up r r') r' k'.
Proof.
  intros Ho Hr. pose proof (ro_point _ _ _ _ _ Hr) as Hp. pose proof (ro_k _ _ _ _ _ Hr) as Hk.
  pose proof (ro_offset _ _ _ _ _ Hr) as Hoff.
  destruct (at_point r) as [|end_|end_ got|end_ kind len got| | |b] eqn:Hat;
    [| |by eapply header_step_ok|by eapply text_step_ok|..]; unfold reader_step, drain_step, gives_up; rewrite Hat, ?orb_false_r.
  - exists k. apply reader_ok_goto; [done|]. exists (length log). rewrite (oo_written _ _ _ _ Ho). split; [lia|].
    by rewrite firstn_all.
  - destruct Hp as (j & [Hkj Hj] & ->). exists k. destruct (N.ltb_spec (offset r) (blen (encode (take j log)))) as [Hlt|Hge].
    + apply reader_ok_goto; [done|]. assert (k < j) as Hkj' by (destruct (decide (k = j)) as [->|]; lia).
      destruct (lookup_lt_is_Some_2 log k) as [r0 Hr0]; [lia|]. exists j, r0, (header r0). split; [split; [lia|done]|done].
    + by apply reader_ok_goto.
  - exists k. destruct (fin && (written_ s <=? offset r)%N) eqn:Hf; [|destruct cancelled; by apply reader_ok_goto].
    apply reader_ok_goto; [done|]. apply andb_prop in Hf as [Hfin Hle]. apply N.leb_le in Hle. split; [done|].
    destruct (decide (k = length log)) as [|Hne]; [done|]. exfalso.
    pose proof (encode_take_lt log k (length log) ltac:(lia)) as Hlt. rewrite firstn_all in Hlt.
    rewrite (oo_written _ _ _ _ Ho) in Hle. lia.
  - exists k. by apply reader_ok_goto.
  - by exists k.
Qed.

(** ** The owner and a reader *)

Record sys_ok (cap : N) (y : system) : Prop := {
  so_owner : owner_ok cap (sp y) (owner y) (log y);
  so_told : torn y = false → told cap (sp y) (owner y) (asked y) (log y);
  so_reader : ∃ k, reader_ok (log y) (finished y) (missed y) (rdr y) k;
  so_finished : finished y = true → owner y = OIdle;
  so_size : (blen (file (sp y)) ≤ cap + slack)%N;
}.

Lemma reader_ok_fin log missed r k : reader_ok log false missed r k → reader_ok log true missed r k.
Proof. intros []. constructor; try done. destruct (at_point r) as [| | | | | |[]]; simpl in *; try done. by destruct ro_point0. Qed.

Lemma step_ok cap y ev : (cap < 2 ^ 63)%N → sys_ok cap y → enabled ev y → sys_ok cap (step ev y).
Proof.
  intros Hcap [Ho Ht [k Hr] Hf Hsz] Hen. destruct ev as [kind text|answer| |answer cancelled]; simpl in *.
  - destruct Hen as [Hidle Hfin]. rewrite Hidle in *. pose proof (append_ok cap kind text _ _ Hcap Ho) as Ha.
    pose proof (append_told cap kind text (sp y) (asked y) (log y) Hcap Ho) as Hat.
    assert (file (append kind text (sp y)).1 = file (sp y)) as Hfile 
      by (unfold append; destruct (ended_ (sp y)); [done|]; by destruct (_ <? _)%N).
    destruct (append kind text (sp y)) as [s p]. constructor; simpl in *; eauto; congruence.
  - pose proof (owner_step_ok cap answer _ _ _ Hcap Ho) as Ha.
    pose proof (owner_step_told cap answer (sp y) (owner y) (asked y) (log y) Ho) as Hat.
    pose proof (owner_step_size cap answer _ _ _ Ho Hsz) as Hsize.
    destruct (owner_step answer (owner y) (sp y)) as [s p] eqn:Hs. constructor; simpl; [..|done].
    + done.
    + intros Htorn. apply orb_false_iff in Htorn as [? ?]. by apply Hat; [apply Ht|].
    + exists k. destruct (owner y) eqn:Hown; try done.
      destruct (finished y) eqn:Hfin; [by specialize (Hf eq_refl)|]. by apply reader_ok_grow.
    + intros Hfin. rewrite (Hf Hfin) in Hs. by injection Hs as <- <-.
  - destruct Hen as [Hidle Hfin]. constructor; simpl; eauto. exists k. rewrite Hfin in Hr. by apply reader_ok_fin.
  - destruct (reader_step_ok cap answer cancelled (finished y) (sp y) (owner y) (log y) (missed y) (rdr y) k Ho Hr) as [k' Hr'].
    constructor; simpl; eauto.
Qed.

Lemma initial_ok cap : sys_ok cap (initial cap).
Proof.
  constructor; try done.
  - constructor; simpl; try done. unfold blen. simpl. lia.
  - intros _. split; [done|]. unfold fits, blen. simpl. lia.
  - exists 0. by constructor.
  - simpl. unfold blen. simpl. lia.
Qed.

Lemma reachable_ok cap y : (cap < 2 ^ 63)%N → reachable cap y → sys_ok cap y.
Proof. intros Hcap. induction 1; [apply initial_ok|by apply step_ok]. Qed.

(** A reader gives out records of the log in their order, and all of them by the time it returns. *)
Definition replayed (cap : N) (y : system) : Prop :=
  emitted (rdr y) `sublist_of` log y ∧
  (at_point (rdr y) = RReturned true → missed y = false → emitted (rdr y) = log y).

(** The log holds what the owner logged, up to the cap. *)
Definition faithful (cap : N) (y : system) : Prop :=
  (written_ (sp y) ≤ blen (file (sp y)) ≤ cap + slack)%N ∧ (owner y = OIdle → torn y = false → log y = recorded cap 0 (asked y)).


(** ** The reader comes to an end

    Once the owner has finished, the reader gets there however its reads are interrupted, cut short or failed: a step
    that is not interrupted brings it closer. *)

Definition interrupted (answer : io) : bool := match answer with Interrupted => true | _ => false end.
Definition interruptions (answers : list io) : nat := length (filter (λ a, interrupted a = true) answers).
Definition read_on (answers : list io) (y : system) : system := foldl (λ y answer, step (Reader answer false) y) y answers.

(** The steps a record takes at most: a read for each of its bytes, and three more. *)
Definition cost (r : rec) : nat := 8 + length r.2.
Definition costs (l : list rec) : nat := sum_list (cost <$> l).

Lemma costs_at log (k : nat) r : log !! k = Some r → costs (drop k log) = cost r + costs (drop (S k) log).
Proof. intros Hk. by rewrite (drop_S _ _ _ Hk). Qed.
Lemma costs_later log j k : j ≤ k → costs (drop k log) ≤ costs (drop j log).
Proof.
  intros Hle. replace k with (j + (k - j)) by lia. rewrite <-drop_drop. generalize (drop j log), (k - j). clear.
  intros l n. revert n. induction l as [|r l IH]; intros [|n]; [done..|].
  change (costs (drop n l) ≤ cost r + costs l). specialize (IH n). lia.
Qed.

(** Steps to go, for a reader before record [k]. *)
Definition stale (end_ written : N) : nat := if (end_ =? written)%N then 2 else 6.
Definition to_go (log : list rec) (k : nat) (written : N) (p : rpoint) : nat :=
  let rest := costs (drop k log) in
  match p with
  | RReturned _ => 0
  | RCheck => if k =? length log then 1 else rest + 5
  | RWait => rest + 4
  | RDrain => rest + 3
  | RNext end_ => rest + stale end_ written
  | RHeader end_ got => rest + stale end_ written - (1 + length got)
  | RText end_ _ _ got => rest + stale end_ written - (7 + length got)
  end.

(** What a step of the reader does when the owner has finished. *)
Record nearer (answer : io) (s : spill) (log : list rec) (missed : bool) (r : reader) (k : nat) : Prop := {
  nr_goes : at_point (reader_step answer false true s r) ≠ RReturned false;
  nr_reads : fails answer = false → gives_up r (reader_step answer false true s r) = false;
  nr_left : ∃ k', reader_ok log true (missed || gives_up r (reader_step answer false true s r)) (reader_step answer false true s r) k' ∧
    to_go log k' (written_ s) (at_point (reader_step answer false true s r)) + (if interrupted answer then 0 else 1) ≤
      to_go log k (written_ s) (at_point r);
}.

Lemma nearer_goto answer s log missed r k p :
  reader_ok log true missed r k → reader_step answer false true s r = goto p r → p ≠ RReturned false → gives_up r (goto p r) = false →
  point_ok log true k p →
  to_go log k (written_ s) p + (if interrupted answer then 0 else 1) ≤ to_go log k (written_ s) (at_point r) →
  nearer answer s log missed r k.
Proof.
  intros Hr Hs Hp Hg Hpt Hlt. constructor; rewrite Hs; [done|done|]. rewrite Hg, orb_false_r. exists k. split; [by apply reader_ok_goto|done].
Qed.

(** A reader that skips the rest is at the end, or starts again later on. *)
Lemma skipped_left cap s p log k r0 end_ j :
  owner_ok cap s p log → log !! k = Some r0 → bound log (S k) end_ j →
  to_go log j (written_ s) RCheck + 7 + length r0.2 < costs (drop k log) + stale end_ (written_ s).
Proof.
  intros Ho Hr0 [[Hkj Hj] ->]. rewrite (costs_at log k r0 Hr0), (oo_written _ _ _ _ Ho). pose proof (costs_later log (S k) j Hkj).
  unfold to_go, cost, stale. destruct (Nat.eqb_spec j (length log)) as [->|Hne]; [rewrite firstn_all, N.eqb_refl; lia|].
  pose proof (encode_take_lt log j (length log) ltac:(lia)) as Hlt. rewrite firstn_all in Hlt.
  destruct (N.eqb_spec (blen (encode (take j log))) (blen (encode log))); lia.
Qed.

(** Something is read, unless the read fails. *)
Lemma readAt_more f log off pre want part got rest answer c :
  holds (encode log) f → encode log = pre ++ part ++ c → off = blen pre → want = blen part → part = got ++ rest → rest ≠ [] →
  fails answer = false → ∃ got', readAt f off want got answer = Some got' ∧ (interrupted answer = false → length got < length got').
Proof.
  intros Hh He -> -> Hpart Hne Hf. unfold readAt. destruct answer as [| |n]; [by exists got|done|].
  assert (n ≠ 0%N) by (by intros ->).
  rewrite (pread_within f _ _ n (encode log) rest); [|done| |by rewrite Hpart, blen_app; lia].
  - destruct rest as [|x rest]; [done|]. destruct (N.to_nat (N.min (blen part - blen got) n)) as [|m] eqn:Em.
    { rewrite Hpart, blen_app in Em. unfold blen in Em. simpl in Em. lia. }
    simpl. eexists. split; [done|]. intros _. rewrite length_app. simpl. lia.
  - exists (pre ++ got), c. split; [|by rewrite blen_app]. rewrite He, Hpart. by rewrite <- !app_assoc.
Qed.

Lemma readAt_fails f off want got answer : fails answer = true → readAt f off want got answer = None.
Proof. destruct answer as [| |[|n]]; try done. intros _. unfold readAt, pread. by rewrite N.min_0_r. Qed.

(** A read of the reader, of a part of the record it is at, with [p got] where it is when it has [got]. *)
Lemma read_nearer cap answer s p log missed r k r0 end_ j pre want part got rest c (pt : bytes → rpoint) :
  owner_ok cap s p log → reader_ok log true missed r k → log !! k = Some r0 → bound log (S k) end_ j →
  encode log = pre ++ part ++ c → want = blen part → part = got ++ rest → rest ≠ [] → at_point r = pt got →
  reader_step answer false true s r =
    match readAt (file s) (blen pre) want got answer with Some got => goto (pt got) r | None => skip_rest end_ r end →
  (∀ got, match pt got with RHeader _ _ | RText _ _ _ _ => True | _ => False end) →
  (∀ got' rest', part = got' ++ rest' → point_ok log true k (pt got')) →
  (∃ n, n ≤ 7 + length r0.2 - length part ∧ ∀ got, to_go log k (written_ s) (pt got) = costs (drop k log) + stale end_ (written_ s) - (n + length got)) →
  length part ≤ 7 + length r0.2 → nearer answer s log missed r k.
Proof.
  intros Ho Hr Hr0 Hb He Hw Hpart Hne Hat Hs Hpt Hok (n & Hn & Hgo) Hlen.
  pose proof (skipped_left _ _ _ _ _ _ _ _ Ho Hr0 Hb) as Hskip.
  assert (length part = length got + length rest) as Hlp by (rewrite Hpart; apply length_app).
  pose proof (readAt_ok (file s) log (blen pre) pre want part got rest answer c (oo_prefix _ _ _ _ Ho) He eq_refl Hw Hpart) as Hread.
  pose proof (readAt_more (file s) log (blen pre) pre want part got rest answer c (oo_prefix _ _ _ _ Ho) He eq_refl Hw Hpart Hne) as Hmore.
  destruct (readAt (file s) (blen pre) want got answer) as [got'|] eqn:Hres.
  - destruct Hread as (rest' & Hp' & Hcase). assert (length part = length got' + length rest') as Hlp' by (rewrite Hp'; apply length_app).
    apply (nearer_goto _ _ _ _ _ _ (pt got')); [done|done| | |by eapply Hok|].
    + intros Heq. specialize (Hpt got'). by rewrite Heq in Hpt.
    + unfold gives_up. rewrite Hat. specialize (Hpt got) as H1. specialize (Hpt got'). destruct (pt got); try done; simpl; by destruct (pt got').
    + rewrite Hat, !Hgo. destruct (interrupted answer) eqn:Hint; [destruct Hcase as [->|]; lia|].
      assert (length got < length got'); [|lia]. destruct (fails answer) eqn:Hf; [|by destruct (Hmore eq_refl) as (? & [= <-] & ?); auto].
      by rewrite readAt_fails in Hres.
  - assert (gives_up r (skip_rest end_ r) = true) as Hg.
    { unfold gives_up. rewrite Hat. specialize (Hpt got). by destruct (pt got). }
    constructor; rewrite Hs.
    + done.
    + intros Hf. by destruct (Hmore Hf) as (? & ? & _).
    + rewrite Hg, orb_true_r. exists j. split; [by eapply reader_ok_give_up, bound_S|]. rewrite Hat, Hgo.
      assert (0 < length rest) by (destruct rest; [done|simpl; lia]). cbn [at_point skip_rest]. destruct (interrupted answer); lia.
Qed.

Lemma header_nearer cap answer s p log missed r k end_ got :
  owner_ok cap s p log → reader_ok log true missed r k → at_point r = RHeader end_ got → nearer answer s log missed r k.
Proof.
  intros Ho Hr Hat. pose proof (ro_point _ _ _ _ _ Hr) as Hp. rewrite Hat in Hp. destruct Hp as (j & r0 & rest & Hb & Hr0 & Hhd).
  pose proof (log_short _ _ _ _ _ _ Ho Hr0) as Hs. pose proof (costs_at log k r0 Hr0) as Hcost. unfold cost in Hcost.
  pose proof (f_equal blen Hhd) as Hlen. rewrite blen_app, blen_header in Hlen.
  destruct (N.eqb_spec (blen got) kHeader) as [Hfull|Hpart].
  - assert (rest = []) as -> by (apply blen_nil; lia). rewrite app_nil_r in Hhd.
    destruct (header_parse r0 Hs) as (raw & Hraw & Hlen' & Hkind).
    apply (nearer_goto _ _ _ _ _ _ (RText end_ r0.1 (blen r0.2) [])); try done.
    + unfold reader_step, drain_step. rewrite Hat, Hfull. simpl. unfold parse_header. rewrite <- Hhd, Hraw, Hkind, Hlen'.
      destruct (N.ltb_spec kMaxText (blen r0.2)); [unfold short in Hs; lia|done].
    + unfold gives_up. by rewrite Hat.
    + by exists j, r0, r0.2.
    + rewrite Hat. cbn [to_go length]. assert (length got = 5) as -> by (unfold blen, kHeader in Hfull; lia).
      destruct (interrupted answer); lia.
  - eapply (read_nearer cap answer s p log missed r k r0 end_ j (encode (take k log)) kHeader (header r0) got rest
      (r0.2 ++ encode (drop (S k) log)) (RHeader end_)); try done.
    + rewrite (encode_split log k r0 Hr0). unfold encode_rec. by rewrite <- app_assoc.
    + intros ->. apply Hpart. change (blen []) with 0%N in Hlen. lia.
    + unfold reader_step, drain_step. rewrite Hat. destruct (N.eqb_spec (blen got) kHeader); [done|]. by rewrite <-(ro_offset _ _ _ _ _ Hr).
    + intros got' rest' Hgr. by exists j, r0, rest'.
    + exists 1. split; [change (length (header r0)) with 5; lia|done].
    + change (length (header r0)) with 5. lia.
Qed.

Lemma text_nearer cap answer s p log missed r k end_ kind len got :
  owner_ok cap s p log → reader_ok log true missed r k → at_point r = RText end_ kind len got → nearer answer s log missed r k.
Proof.
  intros Ho Hr Hat. pose proof (ro_point _ _ _ _ _ Hr) as Hp. rewrite Hat in Hp.
  destruct Hp as (j & r0 & rest & Hb & Hr0 & Hk0 & Hlen0 & Htx). pose proof (costs_at log k r0 Hr0) as Hcost. unfold cost in Hcost.
  pose proof (f_equal blen Htx) as Hlen. rewrite blen_app in Hlen. destruct (N.eqb_spec (blen got) len) as [Hfull|Hpart].
  - assert (rest = []) as -> by (apply blen_nil; lia). rewrite app_nil_r in Htx.
    assert (reader_step answer false true s r = mkReader (offset r + kHeader + blen r0.2) (emitted r ++ [r0]) (RNext end_)) as Hstep.
    { unfold reader_step, drain_step. rewrite Hat, (proj2 (N.eqb_eq _ _) Hfull), Hlen0. destruct r0; simpl in *; congruence. }
    assert (gives_up r (mkReader (offset r + kHeader + blen r0.2) (emitted r ++ [r0]) (RNext end_)) = false) as Hg.
    { unfold gives_up. by rewrite Hat. }
    constructor; rewrite Hstep; [done|done|]. rewrite Hg, orb_false_r. exists (S k). split; [by eapply reader_ok_record|].
    rewrite Hat. cbn [to_go at_point]. rewrite <-Htx. destruct (interrupted answer); lia.
  - eapply (read_nearer cap answer s p log missed r k r0 end_ j (encode (take k log) ++ header r0) len r0.2 got rest
      (encode (drop (S k) log)) (RText end_ kind len)); try done.
    + rewrite (encode_split log k r0 Hr0). unfold encode_rec. by rewrite <- !app_assoc.
    + intros ->. apply Hpart. change (blen []) with 0%N in Hlen. lia.
    + unfold reader_step, drain_step. rewrite Hat. destruct (N.eqb_spec (blen got) len); [done|].
      by rewrite (ro_offset _ _ _ _ _ Hr), blen_app, blen_header.
    + intros got' rest' Hgr. by exists j, r0, rest'.
    + exists 7. split; [lia|done].
    + lia.
Qed.

Lemma stale_bounds a b : 2 ≤ stale a b ≤ 6.
Proof. unfold stale. destruct (a =? b)%N; lia. Qed.

(** [drain] looks for another record, or has none left before its end. *)
Lemma next_nearer cap answer s p log missed r k end_ :
  owner_ok cap s p log → reader_ok log true missed r k → at_point r = RNext end_ → nearer answer s log missed r k.
Proof.
  intros Ho Hr Hat. pose proof (ro_point _ _ _ _ _ Hr) as Hp. rewrite Hat in Hp. destruct Hp as (j & [Hkj Hj] & ->).
  pose proof (ro_offset _ _ _ _ _ Hr) as Hoff. pose proof (stale_bounds (blen (encode (take j log))) (written_ s)) as Hst.
  destruct (N.ltb_spec (offset r) (blen (encode (take j log)))) as [Hlt|Hge].
  - assert (k < j) as Hkj' by (destruct (decide (k = j)) as [->|]; lia).
    destruct (lookup_lt_is_Some_2 log k) as [r0 Hr0]; [lia|].
    apply (nearer_goto _ _ _ _ _ _ (RHeader (blen (encode (take j log))) [])); try done.
    + unfold reader_step, drain_step. rewrite Hat. by apply N.ltb_lt in Hlt as ->.
    + unfold gives_up. by rewrite Hat.
    + exists j, r0, (header r0). split; [split; [lia|done]|done].
    + rewrite Hat. cbn [to_go length]. destruct (interrupted answer); lia.
  - apply (nearer_goto _ _ _ _ _ _ RCheck); try done.
    + unfold reader_step, drain_step. rewrite Hat. by apply N.ltb_ge in Hge as ->.
    + unfold gives_up. by rewrite Hat.
    + rewrite Hat. cbn [to_go]. destruct (Nat.eqb_spec k (length log)); [destruct (interrupted answer); lia|].
      assert (j = k) as ->.
      { destruct (decide (j = k)) as [|]; [done|]. pose proof (encode_take_lt log k j ltac:(lia)). lia. }
      unfold stale. rewrite (oo_written _ _ _ _ Ho). destruct (N.eqb_spec (blen (encode (take k log))) (blen (encode log))).
      * pose proof (encode_take_lt log k (length log) ltac:(lia)) as Hlt. rewrite firstn_all in Hlt. lia.
      * destruct (interrupted answer); lia.
Qed.

Lemma reader_nearer cap answer s p log missed r k :
  owner_ok cap s p log → reader_ok log true missed r k → (∀ b, at_point r ≠ RReturned b) → nearer answer s log missed r k.
Proof.
  intros Ho Hr Hn. pose proof (ro_k _ _ _ _ _ Hr) as Hk.
  pose proof (ro_offset _ _ _ _ _ Hr) as Hoff. pose proof (oo_written _ _ _ _ Ho) as Hw.
  destruct (at_point r) as [|end_|end_ got|end_ kind len got| | |b] eqn:Hat;
    [|by eapply next_nearer|by eapply header_nearer|by eapply text_nearer| | |by destruct (Hn b)].
  - apply (nearer_goto _ _ _ _ _ _ (RNext (written_ s))); try done; [by unfold reader_step, drain_step; rewrite Hat|by unfold gives_up; rewrite Hat|..].
    + exists (length log). split; [lia|]. by rewrite firstn_all.
    + rewrite Hat. cbn [to_go]. unfold stale. rewrite N.eqb_refl. destruct (interrupted answer); lia.
  - destruct (decide (k = length log)) as [Hend|Hmore].
    + apply (nearer_goto _ _ _ _ _ _ (RReturned true)); try done.
      * unfold reader_step, drain_step. rewrite Hat. assert (written_ s ≤ offset r)%N as Hle by (rewrite Hw, Hoff, Hend, firstn_all; lia).
        by apply N.leb_le in Hle as ->.
      * unfold gives_up. by rewrite Hat.
      * rewrite Hat. cbn [to_go]. apply Nat.eqb_eq in Hend as ->. destruct (interrupted answer); lia.
    + apply (nearer_goto _ _ _ _ _ _ RWait); try done.
      * unfold reader_step, drain_step. rewrite Hat. pose proof (encode_take_lt log k (length log) ltac:(lia)) as Hlt. rewrite firstn_all in Hlt.
        destruct (N.leb_spec (written_ s) (offset r)); [lia|done].
      * unfold gives_up. by rewrite Hat.
      * rewrite Hat. cbn [to_go]. apply Nat.eqb_neq in Hmore as ->. destruct (interrupted answer); lia.
  - apply (nearer_goto _ _ _ _ _ _ RDrain); try done; [by unfold reader_step, drain_step; rewrite Hat|by unfold gives_up; rewrite Hat|].
    rewrite Hat. cbn [to_go]. destruct (interrupted answer); lia.
Qed.

Lemma to_go_zero cap y k :
  owner_ok cap (sp y) (owner y) (log y) → reader_ok (log y) true (missed y) (rdr y) k →
  to_go (log y) k (written_ (sp y)) (at_point (rdr y)) = 0 → ∃ b, at_point (rdr y) = RReturned b.
Proof.
  intros Ho Hr Hz. destruct (at_point (rdr y)) as [| | | | | |b] eqn:Hat; [..|by exists b].
  all: pose proof (reader_nearer cap (Moved 1) _ _ _ _ _ k Ho Hr) as Hn; rewrite Hat in Hn; destruct Hn as [_ _ (k' & _ & Hle)]; [done|].
  all: rewrite Hat, Hz in Hle; simpl in Hle; lia.
Qed.

Lemma read_on_returns cap answers y k :
  (cap < 2 ^ 63)%N → sys_ok cap y → finished y = true → reader_ok (log y) true (missed y) (rdr y) k →
  to_go (log y) k (written_ (sp y)) (at_point (rdr y)) + interruptions answers ≤ length answers → at_point (rdr y) ≠ RReturned false →
  at_point (rdr (read_on answers y)) = RReturned true ∧ log (read_on answers y) = log y ∧ sys_ok cap (read_on answers y) ∧
  (Forall (λ a, fails a = false) answers → missed (read_on answers y) = missed y).
Proof.
  intros Hcap. revert y k. induction answers as [|answer answers IH]; intros y k Hy Hf Hr Hle Hnf; cbn [read_on foldl].
  { destruct (to_go_zero cap y k (so_owner _ _ Hy) Hr) as [[] Hb]; [simpl in Hle; lia| |by rewrite Hb in Hnf]. done. }
  fold (read_on answers (step (Reader answer false) y)).
  assert (interruptions (answer :: answers) = (if interrupted answer then 1 else 0) + interruptions answers) as Hi.
  { unfold interruptions. rewrite filter_cons. by destruct (interrupted answer). }
  rewrite Hi in Hle. simpl in Hle.
  assert (at_point (rdr y) = RReturned true ∨ ∀ b, at_point (rdr y) ≠ RReturned b) as [Hret|Hret]
    by (destruct (at_point (rdr y)) as [| | | | | |[]]; (by left) || by right).
  - assert (step (Reader answer false) y = y) as ->.
    { destruct y as [s p fin r a l t m]. simpl in *. unfold gives_up, reader_step. rewrite Hret. by rewrite orb_false_r. }
    assert (interruptions answers ≤ length answers) by (apply length_filter).
    destruct (IH y k) as (H1 & H2 & H3 & H4); try done; [rewrite Hret; simpl; lia|]. split_and!; [done..|].
    intros [_ Hrest]%Forall_cons. by apply H4.
  - destruct (reader_nearer cap answer (sp y) (owner y) (log y) (missed y) (rdr y) k (so_owner _ _ Hy) Hr Hret) as [Hn Hg (k' & Hr' & Hlt)].
    destruct (IH (step (Reader answer false) y) k') as (H1 & H2 & H3 & H4); try done.
    + by apply step_ok.
    + simpl. by rewrite Hf.
    + simpl. rewrite Hf. destruct (interrupted answer); lia.
    + simpl. by rewrite Hf.
    + split_and!; [done..|]. intros [Hok Hrest]%Forall_cons. rewrite (H4 Hrest). simpl. rewrite Hf, (Hg Hok). apply orb_false_r.
Qed.

(** C15.  Once the build's owner has finished, a reader that is not cancelled returns, however its reads are cut short, interrupted
    or failed: after as many steps as the log has bytes, with three more for each record and six, not counting those in which a read was
    interrupted.  If no read failed, then or earlier, it has given out the whole log. *)
Theorem follow_returns cap y answers :
  (cap < 2 ^ 63)%N → reachable cap y → finished y = true → at_point (rdr y) ≠ RReturned false →
  length (encode (log y)) + 3 * length (log y) + 6 + interruptions answers ≤ length answers →
  at_point (rdr (read_on answers y)) = RReturned true ∧
  (missed y = false → Forall (λ a, fails a = false) answers → emitted (rdr (read_on answers y)) = log y).
Proof.
  intros Hcap Hy Hf Hnf Hn. pose proof (reachable_ok cap y Hcap Hy) as Hok. destruct (so_reader _ _ Hok) as [k Hr]. rewrite Hf in Hr.
  assert (costs (log y) = length (encode (log y)) + 3 * length (log y)) as Hcosts.
  { generalize (log y). clear. induction l as [|r l IH]; [done|]. change (encode (r :: l)) with (encode_rec r ++ encode l).
    unfold encode_rec. rewrite !length_app. change (length (header r)) with 5. change (costs (r :: l)) with (cost r + costs l). rewrite IH. unfold cost. simpl. lia. }
  destruct (read_on_returns cap answers y k) as (H1 & H2 & Hok' & H3); try done.
  - pose proof (costs_later (log y) 0 k ltac:(lia)) as Hc. rewrite drop_0 in Hc.
    etrans; [|exact Hn]. apply Nat.add_le_mono_r. pose proof (λ e, stale_bounds e (written_ (sp y))) as Hst.
    destruct (at_point (rdr y)); cbn [to_go]; try destruct (_ =? _); try (specialize (Hst end_)); lia.
  - split; [done|]. intros Hm Hfine. destruct (so_reader _ _ Hok') as [k' Hr']. rewrite (ro_all _ _ _ _ _ Hr'), H2 by (by rewrite H3).
    pose proof (ro_point _ _ _ _ _ Hr') as Hp. rewrite H1 in Hp. destruct Hp as [_ ->]. by rewrite H2, firstn_all.
Qed.

(** ** A run

    The owner logs a line, whose text takes two writes, and a phase that no longer fits; the reader
    starts in the middle. *)

Definition enabledb (ev : event) (y : system) : bool :=
  match ev with
  | Log _ _ | Finish => match owner y with OIdle => negb (finished y) | _ => false end
  | _ => true
  end.

Fixpoint run (evs : list event) (y : system) : system :=
  match evs with
  | [] => y
  | ev :: evs => if enabledb ev y then run evs (step ev y) else y
  end.

Lemma run_reachable cap evs y : reachable cap y → reachable cap (run evs y).
Proof.
  revert y. induction evs as [|ev evs IH]; intros y Hy; [done|]. simpl. destruct (enabledb ev y) eqn:He; [|done].
  apply IH, reach_step; [done|]. destruct ev; simpl in *; try done; by destruct (owner y), (finished y).
Qed.

Definition whole : io := Moved (kMaxText + kHeader).
Definition text (s : string) : bytes := String.list_ascii_of_string s.
Definition log_run : list event :=
  [Log line (text "configuring"); Owner whole; Owner whole; Owner whole; Owner (Moved 4); Reader whole false; Owner Interrupted;
   Owner whole; Owner whole; Owner whole; Reader whole false; Log phase (text "buildPhase and more")] ++ repeat (Owner whole) 6 ++ [Finish].

(** Reads of a byte each, one of them interrupted. *)
Definition slow_reads : list io := Moved 1 :: Moved 1 :: Interrupted :: repeat (Moved 1) 60.

Lemma follow_returns_witness :
  log (run log_run (initial 20)) = [(line, text "configuring"); marker] ∧
  at_point (rdr (read_on slow_reads (run log_run (initial 20)))) = RReturned true ∧
  (missed (run log_run (initial 20)) = false → Forall (λ a, fails a = false) slow_reads →
     emitted (rdr (read_on slow_reads (run log_run (initial 20)))) = log (run log_run (initial 20))).
Proof.
  split; [vm_compute; reflexivity|].
  apply (follow_returns 20 (run log_run (initial 20)) slow_reads); [lia|apply run_reachable, reach_initial|vm_compute; reflexivity| |].
  - vm_compute. discriminate.
  - vm_compute. lia.
Defined.

Lemma read_on_reachable cap answers y : reachable cap y → reachable cap (read_on answers y).
Proof. revert y. induction answers as [|a answers IH]; intros y Hy; [done|]. by apply IH, (reach_step _ _ (Reader a false)). Qed.

