(* ===== verification/Retry.v ===== *)
(** * What the client retries, and for how long

    src/src/client/retry.hh, the loop [retrying] of src/src/client/store.hh and the loop
    [scheduleUntilDone] of src/src/client/build.cc, which keeps a Schedule stream open until the
    run is done.  Times are milliseconds of the steady clock.  A loop is given what each of its
    rounds meets, by the round's number; [OutOfRounds] stands for a loop that has not ended
    within the rounds the model lets it run. *)

From Stdlib Require Import String.
From S2P Require Import Prelude.

(** [msg.contains(needle)] *)
Definition contains (msg needle : string) : bool :=
  match String.index 0 needle msg with Some _ => true | None => false end.

Definition needles : list string :=
  ["Connection refused"; "Connection reset"; "No route"; "unreachable"; "timed out"; "handshaker shutdown"; "DNS"; "GOAWAY"].
Definition transportError (msg : string) : bool := existsb (contains msg) needles.

Inductive StatusCode := OK | CANCELLED | UNKNOWN | INTERNAL | UNAVAILABLE | OtherCode (n : N).
#[export] Instance StatusCode_eq_dec : EqDecision StatusCode.
Proof. solve_decision. Defined.

Record Status := mkStatus { code : StatusCode; message : string }.
Definition ok (st : Status) : bool := bool_decide (code st = OK).

Definition goneAway (st : Status) : bool :=
  match code st with
  | UNAVAILABLE => transportError (message st) || (negb (contains (message st) "andshake") && negb (contains (message st) "certificate"))
  | CANCELLED => bool_decide (message st = EmptyString) || contains (message st) "Cancelling all calls"
  | _ => false
  end.

Definition streamBroken (st : Status) : bool := contains (message st) "Stream removed".

(** [schedulerGone] of build.cc *)
Definition schedulerGone (st : Status) : bool :=
  goneAway st || bool_decide (code st = UNKNOWN) || bool_decide (code st = INTERNAL).

(** ** Backoff *)

Definition firstPause : Z := 500.
Definition maxPause : Z := 4000.

Module Backoff.
Record t := mk { deadline : Z; pause : Z }.
Definition make (budget now : Z) : t := mk (now + budget) firstPause.
Definition exhausted (b : t) (now : Z) : bool := (deadline b <? now + pause b)%Z.
Definition next (b : t) : Z * t := (pause b, mk (deadline b) (Z.min (pause b * 2) maxPause)).
End Backoff.

(** [RetryPolicy::shouldRetry]; no function never retries. *)
Definition shouldRetry (retryable : option (Status → bool)) (st : Status) (b : Backoff.t) (now : Z) : bool :=
  negb (ok st) && match retryable with Some f => f st | None => false end && negb (Backoff.exhausted b now).

(** ** [retrying] *)

Inductive outcome := Returned | Threw (st : Status) | Interrupted_ | OutOfRounds.

Module Attempt.
Record t := mk {
  status : Status;
  interrupted : bool;
  made : Z;     (* the clock when a [Backoff] is made *)
  now : Z;      (* and when it is asked *)
}.
End Attempt.

(** [checkStatus] *)
Definition checkStatus (st : Status) : outcome := if ok st then Returned else Threw st.

(** [budget] is what [retryBudget] says, which depends on [everConnected]. *)
Fixpoint retrying (budget : bool → Z) (rounds : nat) (attempt : nat → Attempt.t) (i : nat) (backoff : option Backoff.t)
    (everConnected : bool) : outcome * bool * nat :=
  match rounds with
  | 0 => (OutOfRounds, everConnected, i)
  | S rounds =>
      let a := attempt i in
      let st := Attempt.status a in
      if Attempt.interrupted a then (Interrupted_, everConnected, i)
      else
        let everConnected := everConnected || ok st in
        if negb (goneAway st) then (checkStatus st, everConnected, i)
        else
          let b := match backoff with Some b => b | None => Backoff.make (budget everConnected) (Attempt.made a) end in
          if Backoff.exhausted b (Attempt.now a) then (checkStatus st, everConnected, i)
          else retrying budget rounds attempt (S i) (Some (Backoff.next b).2) everConnected
  end.

(** ** [scheduleUntilDone] *)

Definition healthyStream : Z := 30000.

Module Stream.
Record t := mk {
  answered : bool;
  restarting : bool;
  status : Status;
  left : N;            (* what [detach] returns: the jobs that are not done *)
  interrupted : bool;
  progressed : bool;   (* [run.progress() != before] *)
  opened : Z;
  closed : Z;
  made : Z;
  now : Z;
}.
End Stream.

Definition recovered (s : Stream.t) : bool :=
  Stream.progressed s || (Stream.answered s && (healthyStream <=? Stream.closed s - Stream.opened s)%Z).

(** The status it returns, and whether the last reconnect belonged to an announced restart. *)
Fixpoint scheduleUntilDone (restartGrace : Z) (rounds : nat) (stream : nat → Stream.t) (i : nat) (backoff : option Backoff.t)
    (handover : bool) : option Status * bool * nat :=
  match rounds with
  | 0 => (None, handover, i)
  | S rounds =>
      let s := stream i in
      if (Stream.left s =? 0)%N then (Some (mkStatus OK EmptyString), handover, i)
      else if Stream.interrupted s || negb (Stream.restarting s || schedulerGone (Stream.status s))
      then (Some (Stream.status s), handover, i)
      else
        let b := match backoff with
                 | Some b => if recovered s then Backoff.make restartGrace (Stream.made s) else b
                 | None => Backoff.make restartGrace (Stream.made s)
                 end in
        if Backoff.exhausted b (Stream.now s) then (Some (Stream.status s), handover, i)
        else
          let handover := if recovered s then Stream.restarting s else handover || Stream.restarting s in
          scheduleUntilDone restartGrace rounds stream (S i) (Some (Backoff.next b).2) handover
  end.

(** ** Backoff *)

(** Pauses stay within their limits. *)
Definition sane (b : Backoff.t) : Prop := (firstPause ≤ Backoff.pause b ≤ maxPause)%Z.

Lemma sane_make budget now : sane (Backoff.make budget now).
Proof. unfold sane. simpl. unfold firstPause, maxPause. lia. Qed.
Lemma sane_next b : sane b → sane (Backoff.next b).2.
Proof. unfold sane. simpl. unfold firstPause, maxPause. lia. Qed.

(** ** [retrying] ends *)

Section Retrying.
Context (budget : bool → Z) (attempt : nat → Attempt.t).

(** Asked after it was made; and from one round to the next at least the pause goes by. *)
Definition ticking (made now : nat → Z) : Prop := ∀ i, (made i ≤ now i ∧ now i + firstPause ≤ made (S i))%Z.

Lemma ticking_steps made now i n : ticking made now → (now i + Z.of_nat n * firstPause ≤ now (i + n)%nat)%Z.
Proof.
  intros Ht. induction n as [|n IH]; [rewrite Nat.add_0_r; lia|].
  pose proof (Ht (i + n)%nat) as [_ H1]. pose proof (Ht (S (i + n))) as [H2 _]. rewrite <- plus_n_Sm. lia.
Qed.

(** How the loop ended, given the number of its last round. *)
Definition ended_right (limit : Z) (out : outcome) (i : nat) : Prop :=
  let st := Attempt.status (attempt i) in
  (∀ j, j < i → goneAway (Attempt.status (attempt j)) = true ∧ Attempt.interrupted (attempt j) = false) ∧
  match out with
  | Returned => ok st = true
  | Threw st' => st' = st ∧ ok st = false ∧
      (goneAway st = true → (Attempt.made (attempt 0) + limit < Attempt.now (attempt i) + maxPause)%Z)
  | Interrupted_ => Attempt.interrupted (attempt i) = true
  | OutOfRounds => False
  end.

Lemma goneAway_not_ok st : goneAway st = true → ok st = false.
Proof. unfold goneAway, ok. intros H. apply bool_decide_false. intros Hc. by rewrite Hc in H. Qed.

(** The backoff of round [i]: made in the first one. *)
Definition on_time (i : nat) (b : option Backoff.t) : Prop :=
  match b with
  | Some b => sane b ∧ ∃ c, Backoff.deadline b = (Attempt.made (attempt 0) + budget c)%Z ∧ (Z.of_nat i * firstPause ≤ budget c)%Z
  | None => i = 0
  end.

Lemma retrying_spec limit rounds i b ever :
  ticking (λ i, Attempt.made (attempt i)) (λ i, Attempt.now (attempt i)) → (∀ c, (0 ≤ limit ≤ budget c)%Z) →
  (∀ j, j < i → goneAway (Attempt.status (attempt j)) = true ∧ Attempt.interrupted (attempt j) = false) →
  on_time i b → (∀ c, (budget c < Z.of_nat (i + rounds) * firstPause)%Z) →
  let '(out, _, n) := retrying budget rounds attempt i b ever in
  ended_right limit out n ∧ ∃ c, (Z.of_nat n * firstPause ≤ budget c)%Z.
Proof.
  intros Ht Hlim. revert i b ever. induction rounds as [|rounds IH]; intros i b ever Hgone Hb Hr; simpl.
  - exfalso. destruct b as [b|].
    + destruct Hb as (_ & c & _ & Hc). specialize (Hr c). rewrite Nat.add_0_r in Hr. lia.
    + simpl in Hb. subst. specialize (Hr true). specialize (Hlim true). unfold firstPause in *. lia.
  - assert (∃ c, (Z.of_nat i * firstPause ≤ budget c)%Z) as Hi.
    { destruct b as [b|]; [destruct Hb as (_ & c & _ & ?); by exists c|]. exists true. rewrite Hb. specialize (Hlim true). lia. }
    destruct (Attempt.interrupted (attempt i)) eqn:Hint; [done|].
    destruct (goneAway (Attempt.status (attempt i))) eqn:Hg; simpl.
    2: { split; [|done]. unfold checkStatus. destruct (ok _) eqn:Hok; split; try done. rewrite Hg. done. }
    set (b' := match b with Some b => b | None => _ end).
    assert (sane b' ∧ ∃ c, Backoff.deadline b' = (Attempt.made (attempt 0) + budget c)%Z) as (Hs & c & Hd).
    { destruct b as [b|]; [destruct Hb as (? & c & ? & _); eauto|]. split; [apply sane_make|]. simpl in Hb. subst. eauto. }
    destruct (Backoff.exhausted b' (Attempt.now (attempt i))) eqn:Hex.
    + split; [|done]. unfold checkStatus. rewrite (goneAway_not_ok _ Hg). split; [done|]. split_and!; [done|by apply goneAway_not_ok|].
      intros _. apply Z.ltb_lt in Hex. unfold sane in Hs. specialize (Hlim c). lia.
    + apply Z.ltb_ge in Hex. apply IH.
      * intros j Hj. destruct (decide (j = i)) as [->|]; [done|]. apply Hgone. lia.
      * split; [by apply sane_next|]. exists c. split; [done|].
        pose proof (ticking_steps _ _ 0 i Ht) as Hst. simpl in Hst. pose proof (Ht 0) as [H0 _]. unfold sane, firstPause in *. lia.
      * intros c'. specialize (Hr c'). rewrite <- plus_n_Sm in Hr. done.
Qed.

(** A call that is retried does not retry forever and loses no result: from the first failure on it is
    tried again only while its status says that the server went away or cannot be reached and one more pause still
    ends before the budget does, at most once per half second of the budget; it ends with the result of its last
    attempt, an error of which is reported, and one that says the server is gone only when less than the longest
    pause is left of the budget. *)
Theorem retrying_ends limit rounds ever :
  ticking (λ i, Attempt.made (attempt i)) (λ i, Attempt.now (attempt i)) → (∀ c, (0 ≤ limit ≤ budget c)%Z) →
  (∀ c, (budget c < Z.of_nat rounds * firstPause)%Z) →
  let '(out, _, n) := retrying budget rounds attempt 0 None ever in
  ended_right limit out n ∧ ∃ c, (Z.of_nat n * firstPause ≤ budget c)%Z.
Proof. intros Ht Hlim Hr. by apply retrying_spec; [| |lia| |]. Qed.
End Retrying.

(** ** [scheduleUntilDone] ends *)

Section Schedule.
Context (grace : Z) (stream : nat → Stream.t).

(** A stream after which the loop may go on. *)
Definition reconnects (s : Stream.t) : bool :=
  negb (Stream.left s =? 0)%N && negb (Stream.interrupted s) && (Stream.restarting s || schedulerGone (Stream.status s)).

(** It is the last stream's status that is returned, or OK if it left nothing to do; a status that is worth a
    reconnect only when the grace of the last recovery, at [m], is used up. *)
Definition schedule_right (st : Status) (i : nat) : Prop :=
  (∀ j, j < i → reconnects (stream j) = true) ∧
  (Stream.left (stream i) = 0%N ∧ st = mkStatus OK EmptyString ∨
   Stream.left (stream i) ≠ 0%N ∧ st = Stream.status (stream i) ∧
   (reconnects (stream i) = true → ∃ m, m ≤ i ∧ (m = 0 ∨ recovered (stream m) = true) ∧
      (Stream.made (stream m) + grace < Stream.now (stream i) + maxPause)%Z)).

(** The backoff of round [i] was made in round [m]. *)
Definition made_at (i : nat) (b : option Backoff.t) : Prop :=
  match b with
  | Some b => sane b ∧ ∃ m, m < i ∧ (m = 0 ∨ recovered (stream m) = true) ∧
      Backoff.deadline b = (Stream.made (stream m) + grace)%Z ∧ (Z.of_nat (i - m) * firstPause ≤ grace)%Z
  | None => i = 0
  end.

Lemma schedule_spec l rounds i b h :
  ticking (λ i, Stream.made (stream i)) (λ i, Stream.now (stream i)) → (0 ≤ grace)%Z →
  (∀ j, l < j → recovered (stream j) = false) →
  (∀ j, j < i → reconnects (stream j) = true) → made_at i b → (grace < (Z.of_nat (i + rounds) - Z.of_nat l) * firstPause)%Z →
  let '(out, _, n) := scheduleUntilDone grace rounds stream i b h in
  ∃ st, out = Some st ∧ schedule_right st n ∧ ((Z.of_nat n - Z.of_nat l) * firstPause ≤ grace)%Z.
Proof.
  intros Ht Hgr Hrec. revert i b h. induction rounds as [|rounds IH]; intros i b h Hgone Hb Hr.
  - exfalso. rewrite Nat.add_0_r in Hr. destruct b as [b|]; [|simpl in Hb; subst; unfold firstPause in *; lia].
    destruct Hb as (_ & m & Hm & Hm0 & _ & Hle). assert (m ≤ l).
    { destruct (decide (l < m)) as [Hlt|]; [|lia]. apply Hrec in Hlt. destruct Hm0 as [->|]; [lia|congruence]. }
    unfold firstPause in *. lia.
  - cbn [scheduleUntilDone].
    assert ((Z.of_nat i - Z.of_nat l) * firstPause ≤ grace)%Z as Hi.
    { destruct b as [b|]; [|simpl in Hb; subst; unfold firstPause; lia]. destruct Hb as (_ & m & Hm & Hm0 & _ & Hle).
      assert (m ≤ l); [|unfold firstPause in *; lia].
      destruct (decide (l < m)) as [Hlt|]; [|lia]. apply Hrec in Hlt. destruct Hm0 as [->|]; [lia|congruence]. }
    destruct (N.eqb_spec (Stream.left (stream i)) 0) as [Hleft|Hleft]; [eexists; split; [done|split; [split; [done|by left]|done]]|].
    destruct (Stream.interrupted (stream i) || negb _) eqn:Hstop.
    { eexists. split; [done|]. split; [|done]. split; [done|]. right. split_and!; [done..|]. unfold reconnects.
      apply N.eqb_neq in Hleft as ->. apply orb_true_iff in Hstop as [->|Hn]; [done|].
      apply negb_true_iff in Hn as ->. by rewrite andb_false_r. }
    assert (reconnects (stream i) = true) as Hgo.
    { unfold reconnects. apply N.eqb_neq in Hleft as ->. apply orb_false_iff in Hstop as [-> Hn]. by apply negb_false_iff in Hn as ->. }
    set (b' := match b with Some b => _ | None => _ end).
    assert (sane b' ∧ ∃ m, m ≤ i ∧ (m = 0 ∨ recovered (stream m) = true) ∧ Backoff.deadline b' = (Stream.made (stream m) + grace)%Z)
      as (Hs & m & Hmi & Hm0 & Hd).
    { destruct b as [b|]; subst b'.
      - destruct (recovered (stream i)) eqn:Hrc; [split; [apply sane_make|]; exists i; auto|].
        destruct Hb as (? & m & ? & ? & ? & _). split; [done|]. exists m. split_and!; [lia|done..].
      - split; [apply sane_make|]. simpl in Hb. subst. exists 0. auto. }
    destruct (Backoff.exhausted b' (Stream.now (stream i))) eqn:Hex.
    + eexists. split; [done|]. split; [|done]. split; [done|]. right. split_and!; [done..|]. intros _. exists m. split_and!; [done..|].
      apply Z.ltb_lt in Hex. unfold sane in Hs. lia.
    + apply Z.ltb_ge in Hex. apply IH.
      * intros j Hj. destruct (decide (j = i)) as [->|]; [done|]. apply Hgone. lia.
      * split; [by apply sane_next|]. exists m. split_and!; [lia|done|done|].
        pose proof (ticking_steps _ _ m (i - m) Ht) as Hst. replace (m + (i - m)) with i in Hst by lia.
        pose proof (Ht m) as [H0 _]. unfold sane, firstPause in *. cbn beta in *. lia.
      * rewrite <- plus_n_Sm in Hr. done.
Qed.

(** The loop that keeps a Schedule stream open for a run ends: if no stream after the [l]th brings progress or
    lasts, it gives up after at most one reconnect per half second of the grace.  It reconnects only while
    jobs are left, nobody interrupts it and the stream ended by an announced restart or because the scheduler
    went away; it returns OK exactly when nothing is left, and otherwise the last stream's status. *)
Theorem schedule_ends l rounds h :
  ticking (λ i, Stream.made (stream i)) (λ i, Stream.now (stream i)) → (0 ≤ grace)%Z →
  (∀ j, l < j → recovered (stream j) = false) → (grace < (Z.of_nat rounds - Z.of_nat l) * firstPause)%Z →
  let '(out, _, n) := scheduleUntilDone grace rounds stream 0 None h in
  ∃ st, out = Some st ∧ schedule_right st n ∧ ((Z.of_nat n - Z.of_nat l) * firstPause ≤ grace)%Z.
Proof. intros Ht Hg Hrec Hr. by apply schedule_spec; [| | |lia| |]. Qed.
End Schedule.

(** ** Examples *)

(** A server that never answers, asked for three seconds. *)
Definition down (i : nat) : Attempt.t :=
  Attempt.mk (mkStatus UNAVAILABLE "Connection refused") false (Z.of_nat i * 4000) (Z.of_nat i * 4000).

Lemma down_ticking : ticking (λ i, Attempt.made (down i)) (λ i, Attempt.now (down i)).
Proof. intros i. unfold down, firstPause. simpl. lia. Qed.

Lemma retrying_ends_witness :
  let '(out, _, n) := retrying (λ _, 9000%Z) 20 down 0 None false in
  ended_right down 9000 out n ∧ ∃ c, (Z.of_nat n * firstPause ≤ (λ _ : bool, 9000) c)%Z.
Proof. apply (retrying_ends (λ _, 9000%Z) down 9000 20 false); [apply down_ticking|lia|unfold firstPause; lia]. Defined.

(** The scheduler restarts, then comes back and the run ends. *)
Definition restart (i : nat) : Stream.t :=
  Stream.mk true (bool_decide (i = 0)) (mkStatus UNAVAILABLE "") (if decide (i < 3)%nat then 1%N else 0%N) false (bool_decide (i = 1))
    (Z.of_nat i * 1000) (Z.of_nat i * 1000) (Z.of_nat i * 1000) (Z.of_nat i * 1000).

Lemma restart_ticking : ticking (λ i, Stream.made (restart i)) (λ i, Stream.now (restart i)).
Proof. intros i. unfold restart, firstPause. simpl. lia. Qed.

Lemma schedule_ends_witness :
  let '(out, _, n) := scheduleUntilDone 60000 200 restart 0 None false in
  ∃ st, out = Some st ∧ schedule_right 60000 restart st n ∧ ((Z.of_nat n - Z.of_nat 1) * firstPause ≤ 60000)%Z.
Proof.
  apply (schedule_ends 60000 restart 1 200 false); [apply restart_ticking|lia| |unfold firstPause; lia].
  intros j Hj. unfold recovered, restart, healthyStream. simpl. rewrite bool_decide_false by lia. simpl. apply Z.leb_gt. lia.
Defined.
