(* ===== verification/NarFetch.v ===== *)
(** * Downloading NARs

    src/src/client/nar-fetcher.hh.  Paths that are asked for in bulk are spread over sessions; the thread of
    a session reads one stream of tagged frames after the other and appends what they decompress to into a
    file, a range per path; whoever wants a path reads its range while it grows.

    A session's thread and the readers are at points; a step takes one past one system call, one call of the
    decompressor, or one hold of a mutex.  A spool's range is written by the session's thread alone, before
    the count that readers look at under the spool's mutex.  [notes] is what an observer of the streams sees, which the
    program does not keep: the requests, the frames as they come, and what they decompress to; [heard] reads them by what the
    frames say, not by what the session does with them.  zstd is an argument: [decompress] takes the context and
    what is left of a frame to the new context, the bytes consumed and the bytes produced, at most [outSize]. *)

From Stdlib Require Import Ascii.
From S2P Require Import Prelude Retry.

Abbreviation bytes := (list ascii).
Definition blen (l : bytes) : N := N.of_nat (length l).

(** ** The spool of a path *)

Module NarSpool.
Record t := mk { base : N; written : N; eof : bool; failure : option string }.
Definition fresh : t := mk 0 0 false None.

Definition failed (s : t) : bool := match failure s with Some _ => true | None => false end.
Definition untouched (s : t) : bool := (written s =? 0)%N && negb (eof s) && negb (failed s).
Definition fail (cause : string) (s : t) : t := if eof s || failed s then s else mk (base s) (written s) (eof s) (Some cause).
End NarSpool.

(** The file of a session and the spools in it. *)
Record store := mkStore { file : bytes; tail : N; spools : list NarSpool.t }.

(** [pwrite] at the file's end; [n] bytes were written there before, by an append that failed. *)
Definition pwrite (f : bytes) (off : N) (data : bytes) : bytes := take (N.to_nat off) f ++ data ++ drop (N.to_nat off + length data) f.

(** [NarSpool::append]; [cut] is the number of bytes after which a write fails. *)
Definition append (sid : nat) (data : bytes) (cut : option N) : M store () :=
  s ← get;
  sp ← expect Undefined (spools s !! sid);
  if NarSpool.eof sp then throw (NixError "gRPC FetchNars sent data after EOF for a path")
  else
    let base := if (NarSpool.written sp =? 0)%N then tail s else NarSpool.base sp in
    if negb (base + NarSpool.written sp =? tail s)%N then throw (NixError "gRPC FetchNars interleaved paths")
    else
      let sp := NarSpool.mk base (NarSpool.written sp) false (NarSpool.failure sp) in
      match cut with
      | Some n =>
          modify (λ s, mkStore (pwrite (file s) (tail s) (take (N.to_nat n) data)) (tail s) (<[sid := sp]> (spools s)));;
          throw (NixError "writing NAR spool file")
      | None =>
          modify (λ s, mkStore (pwrite (file s) (tail s) data) (tail s + blen data)
            (<[sid := NarSpool.mk base (NarSpool.written sp + blen data) false (NarSpool.failure sp)]> (spools s)))
      end.

Definition finish (sid : nat) : M store () :=
  s ← get;
  sp ← expect Undefined (spools s !! sid);
  if NarSpool.eof sp then throw (NixError "gRPC FetchNars sent duplicate EOF for a path")
  else modify (λ s, mkStore (file s) (tail s) (<[sid := NarSpool.mk (NarSpool.base sp) (NarSpool.written sp) true (NarSpool.failure sp)]> (spools s))).

Definition fail_one (cause : string) (s : store) (sid : nat) : store :=
  match spools s !! sid with
  | Some sp => mkStore (file s) (tail s) (<[sid := NarSpool.fail cause sp]> (spools s))
  | None => s
  end.
Definition fail_all (cause : string) (sids : list nat) (s : store) : store := foldl (fail_one cause) s sids.

(** ** The session's thread *)

Module Frame.
Record t := mk { path_index : N; data : bytes; eof : bool }.
End Frame.

(** ** What the streams carry *)

Inductive note :=
  | Asked (paths : list nat)                        (* a stream was opened with this request *)
  | Carried (path_index : N) (eof : bool)           (* a frame was read *)
  | Gave (out : bytes).                             (* of that frame *)

(** The number of streams, the request of the last one and the path its last frame names; the data, with its stream and path; the
    paths that were ended. *)
Module Heard.
Record t := mk { opened : nat; request : list nat; named : option nat; log : list (nat * nat * bytes); ends : list nat }.
Definition none : t := mk 0 [] None [] [].
Definition hear (w : t) (n : note) : t :=
  match n with
  | Asked paths => mk (S (opened w)) paths None (log w) (ends w)
  | Carried idx eof =>
      let sid := request w !! N.to_nat idx in
      mk (opened w) (request w) sid (log w) (if eof then ends w ++ option_list sid else ends w)
  | Gave out => mk (opened w) (request w) (named w) (log w ++ ((λ sid, (opened w, sid, out)) <$> option_list (named w))) (ends w)
  end.
End Heard.
Definition heard (l : list note) : Heard.t := foldl Heard.hear Heard.none l.

Section Session.
Context {dctx : Type} (dctx0 : dctx) (decompress : dctx → bytes → (dctx * nat * bytes) + string) (outSize : nat).
Context (retryable : option (Status → bool)) (budget : Z).

Inductive wpoint :=
  | WStart
  | WOpen
  | WRead
  | WInflate (idx : nat) (zin : bytes) (eof : bool)
  | WFinish (idx : nat)
  | WStatus (st : Status)
  | WSleep (cause : string)
  | WCatch (cause : string)
  | WDone.

Record session := mkSession {
  st : store;
  pending : list nat;       (* the spools of the paths to ask for, in their order *)
  at_ : wpoint;
  ctx : dctx;
  backoff : Backoff.t;
  notes : list note;
}.
Definition hist (s : session) : list (nat * nat * bytes) := Heard.log (heard (notes s)).
Definition streams (s : session) : nat := Heard.opened (heard (notes s)).

(** What a step of the thread meets. *)
Record winput := mkInput {
  stop : bool;
  opened : bool;                   (* a stream was opened *)
  read : option Frame.t;           (* the next message, or the stream is over *)
  status : Status;                 (* what Finish says *)
  interrupted : bool;
  cut : option N;
  now : Z;
}.

Definition at_point p s := mkSession (st s) (pending s) p (ctx s) (backoff s) (notes s).
Definition with_store v s := mkSession v (pending s) (at_ s) (ctx s) (backoff s) (notes s).

(** The body of [demuxNarFrames]' inner loop. *)
Definition inflate (i : winput) (idx : nat) (zin : bytes) (eof : bool) (s : session) : session :=
  match decompress (ctx s) zin with
  | inr err => at_point (WCatch ("zstd decompress: " +:+ err)) s
  | inl (ctx', consumed, out) =>
      let rest := drop consumed zin in
      let next := if bool_decide (rest = []) && (length out <? outSize) then (if eof then WFinish idx else WRead)
                  else WInflate idx rest eof in
      let s := mkSession (st s) (pending s) next ctx' (backoff s) (notes s) in
      match out with
      | [] => s
      | _ =>
          match pending s !! idx with
          | None => at_point (WCatch "out of range") s
          | Some sid =>
              match append sid out (cut i) (st s) with
              | (st', Ok _) => mkSession st' (pending s) next ctx' (backoff s) (notes s ++ [Gave out])
              | (st', Throw (NixError msg)) => at_point (WCatch msg) (with_store st' s)
              | (st', Throw _) => at_point (WCatch "undefined") (with_store st' s)
              end
          end
      end
  end.

Definition cause_of (st : Status) : string :=
  if ok st then "gRPC FetchNars stream ended early" else "gRPC FetchNars failed: " +:+ message st.

Definition is_untouched (s : store) (sid : nat) : bool :=
  match spools s !! sid with Some sp => NarSpool.untouched sp | None => false end.

(** [fetchOnce] up to the first read. *)
Definition fetchOnce (i : winput) (s : session) : session :=
  if stop i then at_point (WStatus (mkStatus CANCELLED "NAR fetcher shut down")) s
  else if negb (opened i) then at_point (WCatch "failed to open gRPC FetchNars stream") s
  else mkSession (st s) (pending s) WRead dctx0 (backoff s) (notes s ++ [Asked (pending s)]).

(** The reads of [demuxNarFrames], and what it does with the end of a path. *)
Definition demux_read (i : winput) (s : session) : session :=
  match read i with
  | None => at_point (WStatus (status i)) s
  | Some frame =>
      if (N.of_nat (length (pending s)) <=? Frame.path_index frame)%N
      then at_point (WCatch "gRPC FetchNars sent a path index out of range") s
      else mkSession (st s) (pending s) (WInflate (N.to_nat (Frame.path_index frame)) (Frame.data frame) (Frame.eof frame)) (ctx s) (backoff s)
             (notes s ++ [Carried (Frame.path_index frame) (Frame.eof frame)])
  end.

Definition demux_finish (idx : nat) (s : session) : session :=
  match pending s !! idx with
  | None => at_point (WCatch "out of range") s
  | Some sid =>
      match finish sid (st s) with
      | (st', Ok _) => at_point WRead (with_store st' s)
      | (st', Throw (NixError msg)) => at_point (WCatch msg) (with_store st' s)
      | (st', Throw _) => at_point (WCatch "undefined") (with_store st' s)
      end
  end.

(** [attempts], when an attempt has ended with a status. *)
Definition attempt_ended (i : winput) (status : Status) (s : session) : session :=
  if negb (ok status) && interrupted i then at_point (WCatch "interrupted by the user") s
  else
    let cause := cause_of status in
    let left := filter (λ sid, is_untouched (st s) sid = true) (pending s) in
    let cutOff := filter (λ sid, is_untouched (st s) sid = false) (pending s) in
    let st' := fail_all cause cutOff (st s) in
    if negb (bool_decide (left = [])) && shouldRetry retryable status (backoff s) (now i)
    then mkSession st' left (WSleep cause) (ctx s) (backoff s) (notes s)
    else mkSession (fail_all cause left st') [] WDone (ctx s) (backoff s) (notes s).

(** [run] *)
Definition session_step (i : winput) (s : session) : session :=
  match at_ s with
  | WStart => mkSession (st s) (pending s) WOpen (ctx s) (Backoff.make budget (now i)) (notes s)
  | WOpen => fetchOnce i s
  | WRead => demux_read i s
  | WInflate idx zin eof => inflate i idx zin eof s
  | WFinish idx => demux_finish idx s
  | WStatus status => attempt_ended i status s
  | WSleep cause =>
      let b := (Backoff.next (backoff s)).2 in
      if stop i then mkSession (fail_all cause (pending s) (st s)) [] WDone (ctx s) b (notes s)
      else mkSession (st s) (pending s) WOpen (ctx s) b (notes s)
  | WCatch cause => mkSession (fail_all cause (pending s) (st s)) [] WDone (ctx s) (backoff s) (notes s)
  | WDone => s
  end.

(** [startSession]: a spool per path. *)
Definition new_session (n : nat) : session :=
  mkSession (mkStore [] 0 (replicate n NarSpool.fresh)) (seq 0 n) WStart dctx0 (Backoff.make budget 0) [].

(** ** A reader *)

Inductive rpoint :=
  | RWait
  | RCopy (avail : N)
  | RReturned
  | RThrew (cause : string).

Record reader := mkReader { rspool : nat; pos : N; sink : bytes; rat : rpoint }.
Definition kChunkSize : N := 256 * 1024.

(** [NarSpool::readInto]; [io] is what a [pread] returns, [None] if it fails. *)
Definition reader_step (io : option N) (s : store) (r : reader) : reader :=
  match spools s !! rspool r with
  | None => r
  | Some sp =>
      match rat r with
      | RWait =>
          if (pos r <? NarSpool.written sp)%N || NarSpool.eof sp || NarSpool.failed sp then
            match NarSpool.failure sp with
            | Some cause => mkReader (rspool r) (pos r) (sink r) (RThrew cause)
            | None =>
                if (NarSpool.written sp =? pos r)%N && NarSpool.eof sp then mkReader (rspool r) (pos r) (sink r) RReturned
                else mkReader (rspool r) (pos r) (sink r) (RCopy (NarSpool.written sp))
            end
          else r
      | RCopy avail =>
          if (pos r <? avail)%N then
            let want := N.min kChunkSize (avail - pos r) in
            let got := match io with
                       | Some n => take (N.to_nat (N.min want n)) (drop (N.to_nat (NarSpool.base sp + pos r)) (file s))
                       | None => []
                       end in
            match got with
            | [] => mkReader (rspool r) (pos r) (sink r) (RThrew "reading NAR spool file")
            | _ => mkReader (rspool r) (pos r + blen got) (sink r ++ got) (RCopy avail)
            end
          else mkReader (rspool r) (pos r) (sink r) RWait
      | _ => r
      end
  end.

(** ** A session and its readers *)

Record system := mkSystem { ses : session; readers : list reader }.

Inductive event :=
  | Thread (i : winput)
  | NewReader (sid : nat)
  | Reads (k : nat) (io : option N).

Definition step (ev : event) (y : system) : system :=
  match ev with
  | Thread i => mkSystem (session_step i (ses y)) (readers y)
  | NewReader sid => mkSystem (ses y) (readers y ++ [mkReader sid 0 [] RWait])
  | Reads k io =>
      match readers y !! k with
      | Some r => mkSystem (ses y) (<[k := reader_step io (st (ses y)) r]> (readers y))
      | None => y
      end
  end.

Inductive reachable (n : nat) : system → Prop :=
  | reach_new : reachable n (mkSystem (new_session n) [])
  | reach_step y ev : reachable n y → reachable n (step ev y).

(** What the streams have carried for a spool. *)
Definition data_of (sid : nat) (h : list (nat * nat * bytes)) : bytes :=
  h ≫= λ e, if decide (e.1.2 = sid) then e.2 else [].
End Session.
