(* ===== verification/NarFetchTheorems.v ===== *)
(** * Downloading NARs: readers get what was sent *)

From Stdlib Require Import Ascii.
From S2P Require Import Prelude Retry NarFetch.

Lemma nar_blen_app a b : blen (a ++ b) = (blen a + blen b)%N.
Proof. unfold blen. rewrite length_app. lia. Qed.
Lemma nar_blen_nil l : blen l = 0%N ↔ l = [].
Proof. unfold blen. destruct l; simpl; split; (done || lia). Qed.

(** The bytes of a range. *)
Definition slice (f : bytes) (off len : N) : bytes := take (N.to_nat len) (drop (N.to_nat off) f).

(** A write at the end leaves the ranges before it, and extends the one that ends there. *)
Lemma pwrite_split f t d : (t ≤ blen f)%N → ∃ g, pwrite f t d = take (N.to_nat t) f ++ d ++ g.
Proof. intros _. by eexists. Qed.

Lemma slice_pwrite f t d off len :
  (t ≤ blen f)%N → (off + len ≤ t)%N → slice (pwrite f t d) off len = slice f off len.
Proof.
  intros Ht Hle. destruct (pwrite_split f t d Ht) as [g ->]. unfold slice, blen in *.
  rewrite drop_app_le by (rewrite length_take; lia). rewrite take_app_le by (rewrite length_drop, length_take; lia).
  rewrite skipn_firstn_comm, take_take. f_equal. lia.
Qed.

Lemma slice_pwrite_end f t d off len :
  (t ≤ blen f)%N → (off + len = t)%N → slice (pwrite f t d) off (len + blen d) = slice f off len ++ d.
Proof.
  intros Ht <-. destruct (pwrite_split f (off + len) d Ht) as [g ->]. unfold slice, blen in *.
  rewrite drop_app_le by (rewrite length_take; lia). rewrite skipn_firstn_comm.
  replace (N.to_nat (off + len) - N.to_nat off) with (N.to_nat len) by lia.
  replace (N.to_nat (len + N.of_nat (length d))) with (length (take (N.to_nat len) (drop (N.to_nat off) f) ++ d)).
  - rewrite app_assoc, take_app_length. done.
  - rewrite length_app, length_take, length_drop. lia.
Qed.

Lemma blen_pwrite f t d : (t ≤ blen f)%N → (t + blen d ≤ blen (pwrite f t d))%N ∧ (t ≤ blen (pwrite f t d))%N.
Proof.
  intros Ht. destruct (pwrite_split f t d Ht) as [g ->]. rewrite !nar_blen_app. unfold blen in *. rewrite length_take. lia.
Qed.

Lemma data_of_app sid h h' : data_of sid (h ++ h') = data_of sid h ++ data_of sid h'.
Proof. apply bind_app. Qed.
Lemma data_of_snoc sid h a sid' d : data_of sid (h ++ [(a, sid', d)]) = data_of sid h ++ if decide (sid' = sid) then d else [].
Proof. rewrite data_of_app. unfold data_of at 2. csimpl. by rewrite app_nil_r. Qed.
Lemma data_of_nil sid h : (∀ a d, (a, sid, d) ∉ h) → data_of sid h = [].
Proof.
  induction h as [|[[a s] d] h IH]; intros Hn; [done|]. unfold data_of. csimpl. destruct (decide (s = sid)) as [->|].
  - destruct (Hn a d). by left.
  - apply IH. intros a' d' Hin. apply (Hn a' d'). by right.
Qed.

Section Session.
Context {dctx : Type} (dctx0 : dctx) (decompress : dctx → bytes → (dctx * nat * bytes) + string) (outSize : nat).
Context (retryable : option (Status → bool)) (budget : Z).

Abbreviation session := (session (dctx:=dctx)).
Abbreviation system := (system (dctx:=dctx)).
Implicit Types (s : session) (y : system).

(** A stream is open, or its end has not been dealt with. *)
Definition in_stream (p : wpoint) : bool :=
  match p with WRead | WInflate _ _ _ | WFinish _ | WStatus _ | WCatch _ => true | _ => false end.

Lemma heard_snoc l e : heard (l ++ [e]) = Heard.hear (heard l) e.
Proof. unfold heard. by rewrite foldl_app. Qed.

(** The thread deals with what the last frame says: it is of the request's paths, and ended if the frame says so. *)
Definition tracks (p : wpoint) (pend : list nat) (w : Heard.t) : Prop :=
  match p with
  | WRead => Heard.request w = pend
  | WInflate idx _ eof => Heard.request w = pend ∧ Heard.named w = pend !! idx ∧ (eof = true → ∀ sid, pend !! idx = Some sid → sid ∈ Heard.ends w)
  | WFinish idx => Heard.request w = pend ∧ ∀ sid, pend !! idx = Some sid → sid ∈ Heard.ends w
  | _ => True
  end.

(** What a spool holds. *)
Record spool_ok (f : bytes) (tl : N) (data : bytes) (sp : NarSpool.t) : Prop := {
  sk_written : NarSpool.written sp = blen data;
  sk_range : NarSpool.written sp ≠ 0%N → (NarSpool.base sp + NarSpool.written sp ≤ tl)%N ∧
    slice f (NarSpool.base sp) (NarSpool.written sp) = data;
}.

Record sess_ok (n : nat) s : Prop := {
  sn_len : length (spools (st s)) = n;
  sn_pending : Forall (λ sid, sid < n) (pending s);
  sn_ended : ∀ (sid : nat) sp, spools (st s) !! sid = Some sp → sid ∉ pending s → NarSpool.eof sp || NarSpool.failed sp = true;
  sn_fail : ∀ (sid : nat) sp, spools (st s) !! sid = Some sp → NarSpool.failed sp = true → NarSpool.eof sp = false ∧ sid ∉ pending s;
  sn_tail : (tail (st s) ≤ blen (file (st s)))%N;
  sn_spool : ∀ (sid : nat) sp, spools (st s) !! sid = Some sp → spool_ok (file (st s)) (tail (st s)) (data_of sid (hist s)) sp;
  sn_hist : ∀ a sid d, (a, sid, d) ∈ hist s → d ≠ [] ∧ a ≤ streams s ∧ (sid ∈ pending s → a = streams s ∧ in_stream (at_ s) = true);
  sn_one : ∀ a b sid d e, (a, sid, d) ∈ hist s → (b, sid, e) ∈ hist s → a = b;
  sn_done : at_ s = WDone → pending s = [];
  sn_tracks : tracks (at_ s) (pending s) (heard (notes s));
  sn_ends : ∀ (sid : nat) sp, spools (st s) !! sid = Some sp → NarSpool.eof sp = true → sid ∈ Heard.ends (heard (notes s));
}.

(** What a step of the session's thread may do to a spool. *)
Definition grows s s' : Prop :=
  ∀ (sid : nat) sp, spools (st s) !! sid = Some sp → ∃ sp' more, spools (st s') !! sid = Some sp' ∧
    data_of sid (hist s') = data_of sid (hist s) ++ more ∧
    (NarSpool.eof sp = true → NarSpool.eof sp' = true ∧ more = []) ∧
    (NarSpool.written sp ≠ 0%N → NarSpool.base sp' = NarSpool.base sp).

Lemma grows_same s s' : st s' = st s → hist s' = hist s → grows s s'.
Proof. intros Hs Hh sid sp Hsp. exists sp, []. by rewrite Hs, Hh, app_nil_r. Qed.

Lemma sess_ok_point n s p :
  sess_ok n s → (in_stream (at_ s) = true → in_stream p = true) → p ≠ WDone → tracks p (pending s) (heard (notes s)) → sess_ok n (at_point p s).
Proof.
  intros [] Hp Hd Htr. constructor; try done. intros a sid d Hin. destruct (sn_hist0 a sid d Hin) as (? & ? & Hpe).
  split_and!; [done..|]. intros Hs. destruct (Hpe Hs). auto.
Qed.

(** ** Failing spools *)

Lemma fail_idem cause cause' sp : NarSpool.fail cause (NarSpool.fail cause' sp) = NarSpool.fail cause' sp.
Proof. unfold NarSpool.fail, NarSpool.failed. destruct (NarSpool.eof sp) eqn:He; simpl; [by rewrite He|].
  destruct (NarSpool.failure sp) eqn:Hf; simpl; rewrite ?He, ?Hf; done. Qed.

Lemma fail_all_ok cause sids v0 :
  file (fail_all cause sids v0) = file v0 ∧ tail (fail_all cause sids v0) = tail v0 ∧
  length (spools (fail_all cause sids v0)) = length (spools v0) ∧
  ∀ (k : nat) sp, spools v0 !! k = Some sp →
    spools (fail_all cause sids v0) !! k = Some (if decide (k ∈ sids) then NarSpool.fail cause sp else sp).
Proof.
  unfold fail_all. revert v0. induction sids as [|sid sids IH]; intros v0; cbn [foldl].
  - split_and!; [done..|]. intros k sp Hk. rewrite decide_False; [done|intros []%elem_of_nil].
  - destruct (IH (fail_one cause v0 sid)) as (Hf & Ht & Hl & Hk). split_and!.
    + rewrite Hf. unfold fail_one. by destruct (spools v0 !! sid).
    + rewrite Ht. unfold fail_one. by destruct (spools v0 !! sid).
    + rewrite Hl. unfold fail_one. destruct (spools v0 !! sid); simpl; [by rewrite length_insert|done].
    + intros k sp Hsp.
      assert (spools (fail_one cause v0 sid) !! k = Some (if decide (k = sid) then NarSpool.fail cause sp else sp)) as Hone.
      { unfold fail_one. destruct (decide (k = sid)) as [->|Hne].
        - rewrite Hsp. simpl. apply list_lookup_insert_eq. by eapply lookup_lt_Some.
        - destruct (spools v0 !! sid); simpl; [|done]. by rewrite list_lookup_insert_ne. }
      rewrite (Hk _ _ Hone). f_equal. destruct (decide (k = sid)) as [->|Hne].
      * rewrite (decide_True (P:=sid ∈ sid :: sids)) by (by left). destruct (decide (sid ∈ sids)); [apply fail_idem|done].
      * destruct (decide (k ∈ sids)) as [Hin|Hin]; [rewrite decide_True; [done|by right]|].
        rewrite decide_False; [done|]. rewrite elem_of_cons. naive_solver.
Qed.

Lemma fail_ends cause sp : NarSpool.eof (NarSpool.fail cause sp) || NarSpool.failed (NarSpool.fail cause sp) = true.
Proof. unfold NarSpool.fail. destruct (NarSpool.eof sp || NarSpool.failed sp) eqn:H; [done|]. simpl. by rewrite orb_true_r. Qed.
Lemma fail_fails cause sp : NarSpool.failed (NarSpool.fail cause sp) = true →
  (NarSpool.failed sp = true → NarSpool.eof sp = false) → NarSpool.eof (NarSpool.fail cause sp) = false.
Proof. unfold NarSpool.fail. destruct (NarSpool.eof sp) eqn:H, (NarSpool.failed sp) eqn:H'; simpl; rewrite ?H, ?H'; naive_solver. Qed.
Lemma fail_keeps cause sp : NarSpool.base (NarSpool.fail cause sp) = NarSpool.base sp ∧
  NarSpool.written (NarSpool.fail cause sp) = NarSpool.written sp ∧ NarSpool.eof (NarSpool.fail cause sp) = NarSpool.eof sp ∧
  (NarSpool.eof sp || NarSpool.failed sp = true → NarSpool.fail cause sp = sp).
Proof. unfold NarSpool.fail. by destruct (NarSpool.eof sp || NarSpool.failed sp). Qed.

Lemma spool_ok_fail f tl data cause sp : spool_ok f tl data sp → spool_ok f tl data (NarSpool.fail cause sp).
Proof. destruct (fail_keeps cause sp) as (Hb & Hw & _). intros []. constructor; by rewrite ?Hb, Hw. Qed.

(** The paths of [dead] fail; [left] stay for a new stream, none of them begun. *)
Lemma fail_step n s cause dead left p b :
  sess_ok n s → pending s ⊆ dead ++ left → left ⊆ pending s → (p = WDone → left = []) → (∀ l w, tracks p l w) →
  (∀ sid, sid ∈ left → is_untouched (st s) sid = true ∧ sid ∉ dead) →
  let s' := mkSession (fail_all cause dead (st s)) left p (ctx s) b (notes s) in
  sess_ok n s' ∧ grows s s'.
Proof.
  intros [] Hcov Hsub Hdone Htr Hun s'. destruct (fail_all_ok cause dead (st s)) as (Hf & Ht & Hl & Hk).
  assert (∀ (k : nat) sp', spools (fail_all cause dead (st s)) !! k = Some sp' → ∃ sp, spools (st s) !! k = Some sp ∧
    sp' = if decide (k ∈ dead) then NarSpool.fail cause sp else sp) as Hback.
  { intros k sp' Hsp'. destruct (lookup_lt_is_Some_2 (spools (st s)) k) as [sp Hsp].
    - rewrite <-Hl. by eapply lookup_lt_Some.
    - exists sp. rewrite (Hk _ _ Hsp) in Hsp'. by simplify_eq. }
  split.
  - constructor; simpl; rewrite ?Hf, ?Ht; try done.
    + congruence.
    + rewrite Forall_forall in *. intros sid Hin. by apply sn_pending0, Hsub.
    + intros sid sp' Hsp' Hni. destruct (Hback sid sp' Hsp') as (sp & Hsp & ->). destruct (decide (sid ∈ dead)); [apply fail_ends|].
      apply (sn_ended0 sid); [done|]. intros Hin%Hcov. apply elem_of_app in Hin. tauto.
    + intros sid sp' Hsp' Hfd. destruct (Hback sid sp' Hsp') as (sp & Hsp & ->). destruct (decide (sid ∈ dead)).
      * split; [apply (fail_fails _ _ Hfd); intros H; by destruct (sn_fail0 sid sp Hsp H)|]. by intros [_ ?]%Hun.
      * destruct (sn_fail0 sid sp Hsp Hfd). split; [done|]. by intros ?%Hsub.
    + intros sid sp' Hsp'. destruct (Hback sid sp' Hsp') as (sp & Hsp & ->). destruct (decide (sid ∈ dead)); [apply spool_ok_fail|]; by apply sn_spool0.
    + intros a sid d Hin. change (hist s') with (hist s) in Hin. destruct (sn_hist0 a sid d Hin) as (Hd & Ha & _). split_and!; [done..|]. intros Hl'.
      destruct (Hun sid Hl') as [Hun' _]. unfold is_untouched in Hun'. destruct (spools (st s) !! sid) as [sp|] eqn:Hsp; [|done].
      exfalso. destruct (sn_spool0 sid sp Hsp) as [Hw _]. unfold NarSpool.untouched in Hun'.
      rewrite !andb_true_iff, N.eqb_eq in Hun'. destruct Hun' as [[Hz _] _]. rewrite Hz in Hw. symmetry in Hw.
      rewrite nar_blen_nil in Hw. apply elem_of_Permutation in Hin as [h Hh].
      assert (d ⊆ data_of sid (hist s)) as Hds.
      { unfold data_of. rewrite Hh. csimpl. rewrite decide_True by done. set_solver. }
      rewrite Hw in Hds. destruct d as [|c d]; [done|]. specialize (Hds c). set_solver.
    + intros sid sp' Hsp' He. destruct (Hback sid sp' Hsp') as (sp & Hsp & ->). apply (sn_ends0 sid sp Hsp).
      destruct (decide (sid ∈ dead)); [|done]. by destruct (fail_keeps cause sp) as (_ & _ & <- & _).
  - intros sid sp Hsp. simpl. rewrite (Hk _ _ Hsp). eexists _, []. split_and!; [done|by rewrite app_nil_r|..].
    + destruct (decide (sid ∈ dead)); [|done]. by destruct (fail_keeps cause sp) as (_ & _ & -> & _).
    + destruct (decide (sid ∈ dead)); [|done]. by destruct (fail_keeps cause sp) as (-> & _).
Qed.

(** ** Appending *)

Definition logged (more : bytes) (sid : nat) s : list (nat * nat * bytes) :=
  match more with [] => hist s | _ => hist s ++ [(streams s, sid, more)] end.

Definition noted (more : bytes) s : list note := match more with [] => notes s | _ => notes s ++ [Gave more] end.

Lemma noted_heard more sid s :
  (more ≠ [] → Heard.named (heard (notes s)) = Some sid) →
  let w := heard (noted more s) in
  Heard.log w = logged more sid s ∧ Heard.opened w = streams s ∧ Heard.request w = Heard.request (heard (notes s)) ∧
  Heard.named w = Heard.named (heard (notes s)) ∧ Heard.ends w = Heard.ends (heard (notes s)).
Proof.
  intros Hn. destruct more as [|b more]; [done|]. simpl. rewrite heard_snoc. cbn [Heard.hear Heard.log Heard.opened Heard.request Heard.named Heard.ends].
  by rewrite Hn.
Qed.

Lemma tracks_same p l w w' :
  Heard.request w' = Heard.request w → Heard.named w' = Heard.named w → Heard.ends w' = Heard.ends w → tracks p l w → tracks p l w'.
Proof. intros H1 H2 H3. destruct p; simpl; by rewrite ?H1, ?H2, ?H3. Qed.

Lemma logged_data more sid s k : data_of k (logged more sid s) = data_of k (hist s) ++ if decide (sid = k) then more else [].
Proof. destruct more; simpl; [by destruct (decide (sid = k)); rewrite app_nil_r|apply data_of_snoc]. Qed.
Lemma logged_in more sid s e : e ∈ logged more sid s → e ∈ hist s ∨ e = (streams s, sid, more) ∧ more ≠ [].
Proof. destruct more; simpl; [auto|]. rewrite elem_of_app, list_elem_of_singleton. naive_solver. Qed.

(** One spool takes [more] bytes, at the end of the file. *)
Lemma write_step n s (sid : nat) sp sp' f' tl' more p c :
  sess_ok n s → in_stream (at_ s) = true → in_stream p = true → sid ∈ pending s →
  spools (st s) !! sid = Some sp → NarSpool.eof sp = false →
  (tail (st s) ≤ tl' ≤ blen f')%N →
  (∀ off len, (off + len ≤ tail (st s))%N → slice f' off len = slice (file (st s)) off len) →
  spool_ok f' tl' (data_of sid (hist s) ++ more) sp' →
  (NarSpool.written sp ≠ 0%N → NarSpool.base sp' = NarSpool.base sp) → NarSpool.failure sp' = NarSpool.failure sp →
  (more ≠ [] → Heard.named (heard (notes s)) = Some sid) → tracks p (pending s) (heard (notes s)) →
  (NarSpool.eof sp' = true → sid ∈ Heard.ends (heard (notes s))) →
  let s' := mkSession (mkStore f' tl' (<[sid := sp']> (spools (st s)))) (pending s) p c (backoff s) (noted more s) in
  sess_ok n s' ∧ grows s s'.
Proof.
  intros [] Hat Hp Hpe Hsp Heof [Htl Hlen] Hrange Hsp' Hbase Hfl Hnamed Htr Hends s'.
  destruct (noted_heard more sid s Hnamed) as (Hlog & Hop & Hrq & Hnm & Hen). change (Heard.log (heard (noted more s))) with (hist s') in Hlog.
  assert (sid < length (spools (st s))) as Hlt by by eapply lookup_lt_Some. split.
  - constructor; simpl.
    + by rewrite length_insert.
    + done.
    + intros k spk Hk Hni. rewrite list_lookup_insert_ne in Hk by (intros ->; done). by eapply sn_ended0.
    + intros k spk Hk Hf. destruct (decide (sid = k)) as [<-|Hne].
      * rewrite list_lookup_insert_eq in Hk by done. simplify_eq. unfold NarSpool.failed in Hf. rewrite Hfl in Hf.
        by destruct (sn_fail0 sid sp Hsp Hf).
      * rewrite list_lookup_insert_ne in Hk by done. by eapply sn_fail0.
    + done.
    + intros k spk. rewrite Hlog, logged_data. destruct (decide (sid = k)) as [<-|Hne].
      * rewrite list_lookup_insert_eq by done. by intros [= <-].
      * rewrite list_lookup_insert_ne, app_nil_r by done. intros Hk. destruct (sn_spool0 k spk Hk) as [Hw Hr].
        constructor; [done|]. intros [? <-]%Hr. split; [lia|]. by apply Hrange.
    + intros a k d. rewrite Hlog. replace (streams s') with (streams s) by done. intros [Hin|[[= -> -> ->] Hm]]%logged_in; [|done]. destruct (sn_hist0 a k d Hin) as (? & ? & Hk).
      split_and!; [done..|]. intros [? _]%Hk. done.
    + intros a b k d e. rewrite Hlog. intros Ha Hb. apply logged_in in Ha, Hb.
      destruct Ha as [Ha|[[= -> -> ->] _]], Hb as [Hb|[Hb _]]; simplify_eq; [by eapply sn_one0|..|done].
      * by destruct (sn_hist0 a sid d Ha) as (_ & _ & []).
      * by destruct (sn_hist0 b sid e Hb) as (_ & _ & []).
    + intros ->. done.
    + by eapply tracks_same.
    + intros k spk Hk He. rewrite Hen. destruct (decide (sid = k)) as [<-|Hne].
      * rewrite list_lookup_insert_eq in Hk by done. simplify_eq. by apply Hends.
      * rewrite list_lookup_insert_ne in Hk by done. by eapply sn_ends0.
  - intros k spk Hk. simpl. rewrite Hlog, logged_data. destruct (decide (sid = k)) as [<-|Hne].
    + exists sp', more. rewrite list_lookup_insert_eq by done. simplify_eq. split_and!; [done..| |done]. by rewrite Heof.
    + exists spk, []. by rewrite list_lookup_insert_ne by done.
Qed.

Lemma append_step n s (sid : nat) out k p p' c :
  sess_ok n s → in_stream (at_ s) = true → in_stream p = true → in_stream p' = true → sid ∈ pending s → out ≠ [] →
  Heard.named (heard (notes s)) = Some sid → tracks p (pending s) (heard (notes s)) → tracks p' (pending s) (heard (notes s)) →
  match append sid out k (st s) with
  | (st', Ok _) => let s' := mkSession st' (pending s) p c (backoff s) (notes s ++ [Gave out]) in
      sess_ok n s' ∧ grows s s'
  | (st', Throw _) => let s' := mkSession st' (pending s) p' c (backoff s) (notes s) in sess_ok n s' ∧ grows s s'
  end.
Proof.
  intros Hok Hat Hp Hp' Hpe Hout Hnamed Htr Htr'. pose proof Hok as [Hlen Hfor _ Hfl Htl Hsps _ _ _ _ _].
  destruct (lookup_lt_is_Some_2 (spools (st s)) sid) as [sp Hsp].
  { rewrite Hlen. rewrite Forall_forall in Hfor. by apply Hfor. }
  assert (sess_ok n (mkSession (st s) (pending s) p' c (backoff s) (notes s)) ∧
    grows s (mkSession (st s) (pending s) p' c (backoff s) (notes s))) as Hsame.
  { split; [|by apply grows_same]. destruct Hok. constructor; try done; simpl.
    - intros a d e Hin. destruct (sn_hist0 a d e Hin) as (? & ? & Hd). split_and!; [done..|]. by intros [? _]%Hd.
    - intros ->. done. }
  unfold append, mbind, M_bind, get, expect. rewrite Hsp. simpl. destruct (NarSpool.eof sp) eqn:Heof; [done|].
  set (b := if (NarSpool.written sp =? 0)%N then tail (st s) else NarSpool.base sp).
  destruct (b + NarSpool.written sp =? tail (st s))%N eqn:Hend; simpl; [|done]. apply N.eqb_eq in Hend.
  destruct (Hsps sid sp Hsp) as [Hw Hr].
  assert (∀ off len d, (off + len ≤ tail (st s))%N →
    slice (pwrite (file (st s)) (tail (st s)) d) off len = slice (file (st s)) off len) as Hkeep.
  { intros off len d. by apply slice_pwrite. }
  assert (NarSpool.written sp ≠ 0%N → b = NarSpool.base sp) as Hb.
  { unfold b. intros Hz. by rewrite (proj2 (N.eqb_neq _ _) Hz). }
  assert (slice (file (st s)) b (NarSpool.written sp) = data_of sid (hist s)) as Hd.
  { destruct (decide (NarSpool.written sp = 0%N)) as [Hz|Hz].
    - rewrite Hz in Hw. symmetry in Hw. rewrite nar_blen_nil in Hw. by rewrite Hz, Hw.
    - destruct (Hr Hz) as [_ <-]. by rewrite Hb. }
  destruct k as [k|]; simpl.
  - destruct (blen_pwrite (file (st s)) (tail (st s)) (take (N.to_nat k) out) Htl).
    eapply (write_step n s sid sp _ _ _ []); try done; [by intros; apply Hkeep|]. rewrite app_nil_r. constructor; simpl; [done|].
    intros Hz. rewrite Hkeep by lia. split; [lia|done].
  - destruct (blen_pwrite (file (st s)) (tail (st s)) out Htl).
    assert (notes s ++ [Gave out] = noted out s) as -> by by destruct out.
    eapply (write_step n s sid sp); try done; [lia|by intros; apply Hkeep|]. constructor; simpl; [by rewrite nar_blen_app, Hw|].
    intros _. rewrite slice_pwrite_end, Hd by done. split; [lia|done].
Qed.

Lemma finish_step n s (sid : nat) p p' :
  sess_ok n s → in_stream (at_ s) = true → in_stream p = true → in_stream p' = true → sid ∈ pending s →
  tracks p (pending s) (heard (notes s)) → tracks p' (pending s) (heard (notes s)) → sid ∈ Heard.ends (heard (notes s)) →
  match finish sid (st s) with
  | (st', Ok _) => sess_ok n (at_point p (with_store st' s)) ∧ grows s (at_point p (with_store st' s))
  | (st', Throw _) => sess_ok n (at_point p' (with_store st' s)) ∧ grows s (at_point p' (with_store st' s))
  end.
Proof.
  intros Hok Hat Hp Hp' Hpe Htr Htr' Hend. pose proof Hok as [Hlen Hfor _ Hfl Htl Hsps _ _ _ _ _].
  destruct (lookup_lt_is_Some_2 (spools (st s)) sid) as [sp Hsp].
  { rewrite Hlen. rewrite Forall_forall in Hfor. by apply Hfor. }
  unfold finish, mbind, M_bind, get, expect. rewrite Hsp. simpl. destruct (NarSpool.eof sp) eqn:Heof; simpl.
  - split; [|by apply grows_same]. apply (sess_ok_point n s p'); [done..| |done]. by intros ->.
  - destruct (Hsps sid sp Hsp) as [Hw Hr]. apply (write_step n s sid sp _ _ _ []); try done.
    rewrite app_nil_r. by constructor.
Qed.

(** ** The thread's steps *)

Lemma inflate_step n i idx zin eof s :
  sess_ok n s → at_ s = WInflate idx zin eof →
  sess_ok n (inflate decompress outSize i idx zin eof s) ∧ grows s (inflate decompress outSize i idx zin eof s).
Proof.
  intros Hok Hat. assert (in_stream (at_ s) = true) as Hin by by rewrite Hat.
  unfold inflate. destruct (decompress (ctx s) zin) as [[[c consumed] out]|err].
  2:{ split; [by apply sess_ok_point|by apply grows_same]. }
  set (p := if bool_decide (drop consumed zin = []) && (length out <? outSize) then if eof then WFinish idx else WRead
            else WInflate idx (drop consumed zin) eof).
  assert (in_stream p = true) as Hp.
  { unfold p. by destruct (_ && _), eof. }
  pose proof (sn_tracks _ _ Hok) as Htr. rewrite Hat in Htr. destruct Htr as (Hrq & Hnm & Hen).
  assert (tracks p (pending s) (heard (notes s))) as Htp.
  { unfold p. destruct (_ && _); [destruct eof|]; simpl; auto. }
  assert (∀ q, in_stream q = true → tracks q (pending s) (heard (notes s)) → let s' := mkSession (st s) (pending s) q c (backoff s) (notes s) in
    sess_ok n s' ∧ grows s s') as Hsame.
  { intros q Hq Htq. split; [|by apply grows_same]. destruct (sess_ok_point n s q Hok) as []; [done|by intros ->|done|]. by constructor. }
  destruct out as [|o out]; [by apply Hsame|]. cbn [pending st]. destruct (pending s !! idx) as [sid|] eqn:Hsid.
  - pose proof (append_step n s sid (o :: out) (cut i) p) as Happ.
    destruct (append sid (o :: out) (cut i) (st s)) as [st' [?|e]] eqn:Happend.
    + apply (Happ WRead); try done. by eapply list_elem_of_lookup_2.
    + destruct e; apply (Happ (WCatch _)); try done; by eapply list_elem_of_lookup_2.
  - by apply Hsame.
Qed.

(** Opening a stream, and reading a frame. *)
Lemma asked_step n s :
  sess_ok n s → in_stream (at_ s) = false →
  let s' := mkSession (st s) (pending s) WRead dctx0 (backoff s) (notes s ++ [Asked (pending s)]) in sess_ok n s' ∧ grows s s'.
Proof.
  intros [] Hat s'. assert (heard (notes s') = Heard.hear (heard (notes s)) (Asked (pending s))) as Hh by apply heard_snoc.
  assert (hist s' = hist s) as Hh' by (unfold hist; by rewrite Hh). split; [|by apply grows_same].
  constructor; rewrite ?Hh'; try done; simpl; [| |by rewrite heard_snoc].
  - intros a sid d Hin. unfold streams. rewrite Hh. destruct (sn_hist0 a sid d Hin) as (? & ? & Hd). split_and!; [done|simpl; unfold streams in *; lia|].
    intros [_ Hc]%Hd. by rewrite Hat in Hc.
  - by rewrite heard_snoc.
Qed.

Lemma carried_step n s frame :
  sess_ok n s → at_ s = WRead →
  let s' := mkSession (st s) (pending s) (WInflate (N.to_nat (Frame.path_index frame)) (Frame.data frame) (Frame.eof frame)) (ctx s) (backoff s)
    (notes s ++ [Carried (Frame.path_index frame) (Frame.eof frame)]) in sess_ok n s' ∧ grows s s'.
Proof.
  intros [] Hat s'. assert (heard (notes s') = Heard.hear (heard (notes s)) (Carried (Frame.path_index frame) (Frame.eof frame))) as Hh by apply heard_snoc.
  assert (hist s' = hist s) as Hh' by (unfold hist; by rewrite Hh). assert (streams s' = streams s) as Hs' by (unfold streams; by rewrite Hh).
  rewrite Hat in sn_tracks0. simpl in sn_tracks0. split; [|by apply grows_same].
  constructor; rewrite ?Hh', ?Hs'; try done; simpl; rewrite ?heard_snoc; simpl; rewrite ?sn_tracks0.
  - intros a sid d Hin. destruct (sn_hist0 a sid d Hin) as (? & ? & Hd). split_and!; [done..|]. by intros [? _]%Hd.
  - split_and!; [done..|]. intros -> sid ->. apply elem_of_app. right. by left.
  - intros sid sp Hsp He. specialize (sn_ends0 sid sp Hsp He). destruct (Frame.eof frame); [apply elem_of_app; by left|done].
Qed.

Lemma session_step_ok n i s :
  sess_ok n s →
  sess_ok n (session_step dctx0 decompress outSize retryable budget i s) ∧
  grows s (session_step dctx0 decompress outSize retryable budget i s).
Proof.
  intros Hok.
  assert (∀ p, (in_stream (at_ s) = true → in_stream p = true) → p ≠ WDone → tracks p (pending s) (heard (notes s)) →
    sess_ok n (at_point p s) ∧ grows s (at_point p s)) as Hpoint.
  { intros p Hp Hd Htr. split; [by apply sess_ok_point|by apply grows_same]. }
  unfold session_step, fetchOnce, demux_read, demux_finish, attempt_ended. destruct (at_ s) as [| | |idx zin eof|idx|status|cause|cause|] eqn:Hat.
  - split; [|by apply grows_same]. destruct (sess_ok_point n s WOpen Hok); [by rewrite Hat|done|done|]. by constructor.
  - destruct (stop i); [by apply Hpoint|]. destruct (opened i); simpl; [|by apply Hpoint].
    apply asked_step; [done|by rewrite Hat].
  - destruct (read i) as [frame|]; [|by apply Hpoint]. destruct (_ <=? _)%N; [by apply Hpoint|]. by apply carried_step.
  - by apply inflate_step.
  - destruct (pending s !! idx) as [sid|] eqn:Hsid; [|by apply Hpoint].
    pose proof (finish_step n s sid WRead) as Hfin. rewrite Hat in Hfin. pose proof (sn_tracks _ _ Hok) as Htr. rewrite Hat in Htr.
    destruct Htr as [Hrq Hen].
    destruct (finish sid (st s)) as [st' [?|e]] eqn:Hf.
    + apply (Hfin WRead); try done; [by eapply list_elem_of_lookup_2|by apply Hen].
    + destruct e; apply (Hfin (WCatch _)); try done; (by apply Hen) || by eapply list_elem_of_lookup_2.
  - destruct (negb _ && interrupted i); [by apply Hpoint|]. cbv zeta.
    set (left := filter (λ sid, is_untouched (st s) sid = true) (pending s)).
    set (cutOff := filter (λ sid, is_untouched (st s) sid = false) (pending s)).
    assert (pending s ⊆ cutOff ++ left) as Hcov.
    { intros sid Hin. apply elem_of_app. destruct (is_untouched (st s) sid) eqn:Hu; [right|left]; by apply list_elem_of_filter. }
    destruct (negb _ && _).
    + apply fail_step; try done; intros sid; unfold left, cutOff; rewrite !list_elem_of_filter; naive_solver congruence.
    + unfold fail_all. rewrite <-foldl_app. apply fail_step; try done; set_solver.
  - destruct (stop i).
    + apply fail_step; try done; set_solver.
    + split; [|by apply grows_same]. destruct (sess_ok_point n s WOpen Hok); [by rewrite Hat|done|done|]. by constructor.
  - apply fail_step; try done; set_solver.
  - split; [done|by apply grows_same].
Qed.

(** ** Readers *)

(** What a reader has passed on is the beginning of what its path's stream has carried. *)
Record reader_ok s (r : reader) : Prop := {
  ro_spool : ∀ sp, spools (st s) !! rspool r = Some sp →
    (pos r ≤ NarSpool.written sp)%N ∧ (∀ a, rat r = RCopy a → pos r ≤ a ≤ NarSpool.written sp)%N ∧
    (rat r = RReturned → NarSpool.eof sp = true ∧ pos r = NarSpool.written sp);
  ro_sink : sink r = take (N.to_nat (pos r)) (data_of (rspool r) (hist s));
  ro_none : spools (st s) !! rspool r = None → pos r = 0%N ∧ rat r = RWait;
}.

Lemma reader_ok_grows n s s' r : sess_ok n s → sess_ok n s' → grows s s' → reader_ok s r → reader_ok s' r.
Proof.
  intros Hs Hs' Hg [Hsp Hsink Hnone]. destruct (spools (st s) !! rspool r) as [sp|] eqn:Hr.
  - destruct (Hg _ _ Hr) as (sp' & more & Hr' & Hdata & Heof & _).
    destruct (sn_spool _ _ Hs _ _ Hr) as [Hw _], (sn_spool _ _ Hs' _ _ Hr') as [Hw' _].
    destruct (Hsp sp eq_refl) as (Hpos & Hcopy & Hret). rewrite Hdata, nar_blen_app in Hw'. constructor.
    + rewrite Hr'. intros ? [= <-]. split_and!; [lia| |].
      * intros a Ha. specialize (Hcopy a Ha). lia.
      * intros [He ->]%Hret. destruct (Heof He) as [-> ->]. split; [done|]. unfold blen in *. simpl in *. lia.
    + rewrite Hdata, Hsink, take_app_le; [done|]. unfold blen in *. lia.
    + by rewrite Hr'.
  - destruct (Hnone eq_refl) as [Hp Hw]. constructor; [|by rewrite Hsink, Hp|done].
    intros sp Hlt%lookup_lt_Some. apply lookup_ge_None in Hr. rewrite (sn_len _ _ Hs') in Hlt. rewrite (sn_len _ _ Hs) in Hr. lia.
Qed.

Lemma take_more {A} (l : list A) p k : take (p + k) l = take p l ++ take k (drop p l).
Proof. symmetry. apply take_take_drop. Qed.

Lemma reader_copy n s r (sp : NarSpool.t) w :
  sess_ok n s → spools (st s) !! rspool r = Some sp → (pos r + w ≤ NarSpool.written sp)%N → w ≠ 0%N →
  let got := slice (file (st s)) (NarSpool.base sp + pos r) w in
  blen got = w ∧ take (N.to_nat (pos r + w)) (data_of (rspool r) (hist s)) = take (N.to_nat (pos r)) (data_of (rspool r) (hist s)) ++ got.
Proof.
  intros Hs Hr Hw Hz. destruct (sn_spool _ _ Hs _ _ Hr) as [Hwr Hra]. destruct Hra as [Hle Hd]; [lia|].
  pose proof (sn_tail _ _ Hs) as Ht. simpl.
  assert (slice (file (st s)) (NarSpool.base sp + pos r) w = take (N.to_nat w) (drop (N.to_nat (pos r)) (data_of (rspool r) (hist s)))) as ->.
  { rewrite <-Hd. unfold slice. rewrite skipn_firstn_comm, take_take, drop_drop. f_equal; [lia|]. f_equal. lia. }
  split.
  - unfold blen in *. rewrite length_take, length_drop. lia.
  - rewrite N2Nat.inj_add. apply take_more.
Qed.

Lemma nar_reader_step_ok n s r io : sess_ok n s → reader_ok s r → reader_ok s (reader_step io (st s) r).
Proof.
  intros Hs Hok. unfold reader_step. destruct (spools (st s) !! rspool r) as [sp|] eqn:Hr; [|done].
  pose proof Hok as [Hsp Hsink Hnone]. destruct (Hsp sp Hr) as (Hpos & Hcopy & Hret).
  assert (∀ p, (∀ a, p = RCopy a → pos r ≤ a ≤ NarSpool.written sp)%N →
    (p = RReturned → NarSpool.eof sp = true ∧ pos r = NarSpool.written sp) → reader_ok s (mkReader (rspool r) (pos r) (sink r) p)) as Hat.
  { intros p Hc Hp. constructor; simpl; rewrite ?Hr; try done. by intros ? [= <-]. }
  destruct (rat r) as [|avail| |] eqn:Hrat; try done.
  - destruct (_ || _); [|done]. destruct (NarSpool.failure sp); [by apply Hat|].
    destruct ((_ =? _)%N && _) eqn:He; apply Hat; try done.
    + intros _. apply andb_true_iff in He as [He%N.eqb_eq ?]. by split.
    + intros a [= <-]. lia.
  - destruct (N.ltb_spec (pos r) avail); [|by apply Hat]. destruct (Hcopy avail eq_refl) as [_ Hav].
    set (w := match io with Some k => N.min (N.min kChunkSize (avail - pos r)) k | None => 0%N end).
    assert (match io with Some k => take (N.to_nat (N.min (N.min kChunkSize (avail - pos r)) k)) (drop (N.to_nat (NarSpool.base sp + pos r)) (file (st s)))
            | None => [] end = slice (file (st s)) (NarSpool.base sp + pos r) w) as ->.
    { unfold w. by destruct io. }
    destruct (decide (w = 0%N)) as [->|Hz]; [by apply Hat|].
    assert (w ≤ avail - pos r)%N by (unfold w in *; destruct io; lia).
    destruct (reader_copy n s r sp w Hs Hr) as [Hlen Htake]; [lia|done|].
    destruct (slice _ _ w) as [|c got] eqn:Hgot; [by apply Hat|]. constructor; cbn [rspool pos sink rat]; rewrite ?Hlen.
    + intros ? ?. simplify_eq. split_and!; [lia| |done]. intros a [= <-]. lia.
    + by rewrite Htake, Hsink.
    + by rewrite Hr.
Qed.

(** ** The system *)

Abbreviation reachable := (reachable dctx0 decompress outSize retryable budget).

Lemma new_session_ok n : sess_ok n (new_session dctx0 budget n).
Proof.
  constructor; simpl; try done.
  - by rewrite length_replicate.
  - apply Forall_forall. intros sid. rewrite elem_of_seq. lia.
  - intros sid sp [_ Hlt]%lookup_replicate Hni. destruct Hni. rewrite elem_of_seq. lia.
  - intros sid sp [-> _]%lookup_replicate. done.
  - intros sid sp [-> _]%lookup_replicate. by constructor.
  - intros a sid d []%elem_of_nil.
  - intros a b sid d e []%elem_of_nil.
  - by intros sid sp [-> _]%lookup_replicate.
Qed.

Lemma fetch_reachable_ok n y : reachable n y → sess_ok n (ses y) ∧ Forall (reader_ok (ses y)) (readers y).
Proof.
  induction 1 as [|y ev _ [Hs Hr]]; simpl.
  { split; [apply new_session_ok|constructor]. }
  destruct ev as [i|sid|k io]; simpl.
  - destruct (session_step_ok n i (ses y) Hs) as [Hs' Hg]. split; [done|].
    eapply Forall_impl; [exact Hr|]. intros r. by eapply reader_ok_grows.
  - split; [done|]. apply Forall_app. split; [done|]. constructor; [|constructor]. constructor; simpl; try done.
    intros. split_and!; [lia|done..].
  - destruct (readers y !! k) as [r|] eqn:Hk; [|done]. split; [done|]. simpl. apply Forall_insert; [done|].
    eapply nar_reader_step_ok; [done|]. by eapply Forall_lookup_1.
Qed.

(** What a reader has got is a beginning of what the frames of one stream that named its path held; all of it when it returns, and
    then a frame has ended the path. *)
Definition delivered s (r : reader) : Prop :=
  sink r `prefix_of` data_of (rspool r) (hist s) ∧
  (rat r = RReturned → sink r = data_of (rspool r) (hist s) ∧ rspool r ∈ Heard.ends (heard (notes s)) ∧
    ∃ sp, spools (st s) !! rspool r = Some sp ∧ NarSpool.eof sp = true ∧ NarSpool.failure sp = None) ∧
  (∀ a b d e, (a, rspool r, d) ∈ hist s → (b, rspool r, e) ∈ hist s → a = b).

(** Bytes of one stream, never of another path: whatever the streams carried before, whichever of them broke
    off, and whichever writes failed. *)
Lemma reader_delivered n y (k : nat) r : reachable n y → readers y !! k = Some r → delivered (ses y) r.
Proof.
  intros [Hs Hr]%fetch_reachable_ok Hk. destruct (Forall_lookup_1 _ _ _ _ Hr Hk) as [Hsp Hsink Hnone]. split_and!.
  - rewrite Hsink. apply prefix_take.
  - intros Hret. destruct (spools (st (ses y)) !! rspool r) as [sp|] eqn:Hlk; [|destruct (Hnone eq_refl); congruence].
    destruct (Hsp sp eq_refl) as (_ & _ & [He Hp]%(λ f, f Hret)). destruct (sn_spool _ _ Hs _ _ Hlk) as [Hw _]. split.
    + rewrite Hsink, Hp, Hw. unfold blen. rewrite Nat2N.id. by apply take_ge.
    + split; [by eapply (sn_ends _ _ Hs)|]. exists sp. split_and!; [done..|]. destruct (NarSpool.failure sp) eqn:Hf; [|done].
      destruct (sn_fail _ _ Hs _ _ Hlk); [unfold NarSpool.failed; by rewrite Hf|congruence].
  - intros a b d e. apply (sn_one _ _ Hs).
Qed.

(** A reader, left to itself. *)
Definition run_reader (ios : list (option N)) (f : store) (r : reader) : reader := foldl (λ r io, reader_step io f r) r ios.
Definition reads_some (io : option N) : bool := match io with Some k => (0 <? k)%N | None => false end.
Definition ended (r : reader) : Prop := rat r = RReturned ∨ ∃ cause, rat r = RThrew cause.

(** How many steps a reader may still take. *)
Definition steps_left (sp : NarSpool.t) (r : reader) : nat :=
  match rat r with
  | RWait => 3 * N.to_nat (NarSpool.written sp - pos r) + 1
  | RCopy a => 3 * N.to_nat (NarSpool.written sp - pos r) + (if (pos r <? a)%N then 0 else 2)
  | _ => 0
  end.

Lemma reader_moves n s r (sp : NarSpool.t) io :
  sess_ok n s → reader_ok s r → spools (st s) !! rspool r = Some sp → NarSpool.eof sp || NarSpool.failed sp = true → 
  let r' := reader_step io (st s) r in
  rspool r' = rspool r ∧ (ended r → r' = r) ∧ (ended r' ∨ steps_left sp r' < steps_left sp r) ∧
  (NarSpool.eof sp = true → reads_some io = true → ∀ cause, rat r' = RThrew cause → rat r = RThrew cause).
Proof.
  intros Hs Hok Hr Hend. pose proof Hok as [Hsp Hsink _]. destruct (Hsp sp Hr) as (Hpos & Hcopy & _).
  assert (NarSpool.eof sp = true → NarSpool.failure sp = None) as Hnf.
  { intros He. destruct (NarSpool.failure sp) eqn:Hf; [|done].
    destruct (sn_fail _ _ Hs _ _ Hr); [unfold NarSpool.failed; by rewrite Hf|congruence]. }
  assert (∀ p, p = RReturned ∨ (∃ cause, p = RThrew cause) ↔ match p with RReturned | RThrew _ => True | _ => False end) as Hends.
  { clear. intros []; naive_solver. }
  unfold reader_step, ended, steps_left. rewrite Hr. destruct (rat r) as [|avail| |cause] eqn:Hrat; rewrite !Hends.
  - rewrite <-orb_assoc, Hend, orb_true_r. destruct (NarSpool.failure sp) as [cause|] eqn:Hf.
    { cbn [rspool rat pos]. split_and!; [done|done|by left|]. by intros Heof%Hnf. }
    assert (NarSpool.eof sp = true) as He. { unfold NarSpool.failed in Hend. rewrite Hf, orb_false_r in Hend. done. }
    rewrite He, andb_true_r. destruct (N.eqb_spec (NarSpool.written sp) (pos r)); cbn [rspool rat pos].
    { split_and!; [done|done|by left|done]. }
    split_and!; [done|done| |done]. right. destruct (N.ltb_spec (pos r) (NarSpool.written sp)); lia.
  - destruct (N.ltb_spec (pos r) avail) as [Hlt|].
    2:{ cbn [rspool rat pos]. split_and!; [done|done|right; lia|done]. }
    destruct (Hcopy avail eq_refl) as [_ Hav]. destruct io as [k|]; cbn [reads_some].
    2:{ cbn [rspool rat pos]. split_and!; [done|done|by left|done]. }
    assert (∃ w, w = N.min (N.min kChunkSize (avail - pos r)) k ∧ w ≤ avail - pos r ∧ (w = 0 → k = 0))%N as (w & <- & Hw & Hk).
    { eexists. split; [done|]. unfold kChunkSize. lia. }
    destruct (decide (w = 0%N)) as [->|Hz].
    { cbn [N.to_nat take rspool rat pos]. split_and!; [done|done|by left|].
      intros _ Hlt'%N.ltb_lt. specialize (Hk eq_refl). lia. }
    destruct (reader_copy n s r sp w Hs Hr) as [Hlen _]; [lia|done|]. unfold slice in Hlen.
    destruct (take (N.to_nat w) _) as [|c got]; [unfold blen in Hlen; simpl in Hlen; lia|].
    cbn [rspool rat pos]. rewrite Hlen. split_and!; [done|done| |done]. right.
    destruct (N.ltb_spec (pos r + w) avail); lia.
  - rewrite Hrat. by split_and!; [..|left|].
  - rewrite Hrat. by split_and!; [..|left|].
Qed.

Lemma run_reader_ends n s (sp : NarSpool.t) ios r :
  sess_ok n s → NarSpool.eof sp || NarSpool.failed sp = true → reader_ok s r → spools (st s) !! rspool r = Some sp →
  steps_left sp r ≤ length ios →
  ended (run_reader ios (st s) r) ∧
  (NarSpool.eof sp = true → Forall (λ io, reads_some io = true) ios → ∀ cause, rat (run_reader ios (st s) r) = RThrew cause → rat r = RThrew cause).
Proof.
  intros Hs Hend. unfold run_reader. revert r. induction ios as [|io ios IH]; intros r Hok Hr Hle; cbn [foldl length] in *.
  { unfold steps_left, ended in *. destruct (rat r) as [|a| |cause] eqn:Hrat; [lia| |by split; [left|]|by split; [right; eexists|]].
    destruct (ro_spool _ _ Hok sp Hr) as (_ & Hc & _). specialize (Hc a Hrat). destruct (N.ltb_spec (pos r) a); lia. }
  destruct (reader_moves n s r sp io Hs Hok Hr Hend) as (Hrs & Hstay & Hdec & Hthrow).
  assert (steps_left sp (reader_step io (st s) r) ≤ length ios) as Hle'.
  { destruct Hdec as [[He|[cause He]]|]; [unfold steps_left; rewrite He; lia..|lia]. }
  destruct (IH (reader_step io (st s) r)) as [Hended Hno]; [by eapply nar_reader_step_ok|by rewrite Hrs|done|].
  split; [done|]. intros Heof [Hio Hios]%Forall_cons cause Hc. apply Hthrow; [done..|]. by apply Hno.
Qed.

(** A spool that nobody writes to any more says so. *)
Definition settled (p : store) (r : reader) (ios : list (option N)) : Prop :=
  ∃ sp, spools p !! rspool r = Some sp ∧ NarSpool.eof sp || NarSpool.failed sp = true ∧
    ended (run_reader ios p r) ∧
    (NarSpool.eof sp = true → Forall (λ io, reads_some io = true) ios → (∀ cause, rat r ≠ RThrew cause) →
     rat (run_reader ios p r) = RReturned).

End Session.
