(* ===== verification/NarFetcher.v ===== *)
(** * Downloads in bulk

    [NarFetcher] of src/src/client/nar-fetcher.hh: paths are recorded, spread over sessions when one of them
    is asked for, and read from the session that has them.  Sessions and their readers are those of NarFetch;
    a step of the system is a step of one of them, or one hold of [narMutex].

    A session is named by its number.  [sessions] are those the fetcher still holds; one that [reap] let go
    stays in [started], which is what the shared pointers to its spools keep. *)

From Stdlib Require Import Ascii.
From S2P Require Import Prelude Retry NarFetch.

Abbreviation StorePath := string.

(** ** Spreading paths over connections *)

Definition narSizeOf (narSizes : gmap StorePath N) (path : StorePath) : N := default 0%N (narSizes !! path).

(** [std::ranges::stable_sort], the largest first. *)
Fixpoint insert_sized (size : StorePath → N) (p : StorePath) (l : list StorePath) : list StorePath :=
  match l with
  | [] => [p]
  | q :: l' => if (size p <? size q)%N then q :: insert_sized size p l' else p :: l
  end.
Definition stable_sort (size : StorePath → N) (l : list StorePath) : list StorePath := foldr (insert_sized size) [] l.

(** [std::ranges::min_element]: the position of the first of the least. *)
Fixpoint min_element (load : list N) : nat :=
  match load with
  | [] => 0
  | x :: l => let k := min_element l in match l !! k with Some y => if (y <? x)%N then S k else 0 | None => 0 end
  end.

(** The loop of [startPending]. *)
Definition assign (size : StorePath → N) (acc : list (list StorePath) * list N) (path : StorePath) : list (list StorePath) * list N :=
  let '(groups, load) := acc in
  let smallest := min_element load in
  (alter (λ g, g ++ [path]) smallest groups, alter (λ n, u64 (n + size path)) smallest load).
Definition spread (size : StorePath → N) (connections : N) (pending : list StorePath) : list (list StorePath) * list N :=
  foldl (assign size) (replicate (N.to_nat connections) [], replicate (N.to_nat connections) 0%N) (stable_sort size pending).

(** ** The fetcher *)

Section Fetcher.
Context {dctx : Type} (dctx0 : dctx) (decompress : dctx → bytes → (dctx * nat * bytes) + string) (outSize : nat).
Context (retryable : option (Status → bool)) (budget : Z).

Abbreviation system := (system (dctx:=dctx)).

(** A call of [fetchInto] past its first hold of the mutex: the session and the spool it reads. *)
Record fetch := mkFetch { fpath : StorePath; fsession : nat; fspool : nat; freader : nat; fdone : bool }.

Record fetcher := mkFetcher {
  connections : N;
  sessions : list nat;
  buffers : gmap StorePath (nat * nat);
  fpending : list StorePath;
  narSizes : gmap StorePath N;
  started : list (list StorePath * system);
  fetches : list fetch;
}.

Definition new_fetcher (n : N) : fetcher := mkFetcher (N.max 1 n) [] ∅ [] ∅ [] [].

Definition with_buffers b f := mkFetcher (connections f) (sessions f) b (fpending f) (narSizes f) (started f) (fetches f).
Definition with_sessions l f := mkFetcher (connections f) l (buffers f) (fpending f) (narSizes f) (started f) (fetches f).
Definition with_started l f := mkFetcher (connections f) (sessions f) (buffers f) (fpending f) (narSizes f) l (fetches f).
Definition with_pending l f := mkFetcher (connections f) (sessions f) (buffers f) l (narSizes f) (started f) (fetches f).
Definition with_sizes m f := mkFetcher (connections f) (sessions f) (buffers f) (fpending f) m (started f) (fetches f).
Definition with_fetches l f := mkFetcher (connections f) (sessions f) (buffers f) (fpending f) (narSizes f) (started f) l.

Definition session_done (f : fetcher) (j : nat) : bool :=
  match started f !! j with Some (_, y) => match at_ (ses y) with WDone => true | _ => false end | None => false end.

Definition spool_at (f : fetcher) (b : nat * nat) : option NarSpool.t :=
  e ← started f !! b.1; spools (st (ses e.2)) !! b.2.

Definition reap : M fetcher () := modify (λ f, with_sessions (filter (λ j, session_done f j = false) (sessions f)) f).

Definition sessionCount : M fetcher N := reap;; f ← get; mret (vlen (sessions f)).

Definition live (path : StorePath) : M fetcher bool :=
  f ← get;
  match buffers f !! path with
  | None => mret false
  | Some b =>
      sp ← expect Undefined (spool_at f b);
      if NarSpool.failed sp then modify (λ f, with_buffers (delete path (buffers f)) f);; mret false else mret true
  end.

Definition recordOrder (order : list StorePath) (sizes : gmap StorePath N) : M fetcher () :=
  forM_ order (λ path, l ← live path; if l : bool then mret () else modify (λ f, with_pending (fpending f ++ [path]) f));;
  modify (λ f, with_sizes (narSizes f ∪ sizes) f).

(** [spawn] is whether a thread could be started. *)
Definition startSession (spawn : bool) (paths : list StorePath) : M fetcher () :=
  reap;;
  if negb spawn then throw (NixError "Resource temporarily unavailable")
  else
    f ← get;
    let j := length (started f) in
    modify (with_started (started f ++ [(paths, mkSystem (new_session dctx0 budget (length paths)) [])]));;
    modify (λ f, with_sessions (sessions f ++ [j]) f);;
    modify (λ f, with_buffers (foldl (λ b e, <[e.2 := (j, e.1)]> b) (buffers f) (imap pair paths)) f).

(** [spawns] has whether the thread of the k-th group could be started. *)
Definition startPending (spawns : list bool) : M fetcher () :=
  f ← get;
  if bool_decide (fpending f = []) then mret ()
  else
    let groups := (spread (narSizeOf (narSizes f)) (connections f) (fpending f)).1 in
    modify (with_pending []);;
    forM_ (imap pair groups) (λ e : nat * list StorePath,
      if bool_decide (e.2 = []) then mret () else startSession (default true (spawns !! e.1)) e.2).

(** A step of a session's thread or of one of its readers. *)
Definition run_session (j : nat) (ev : event) : M fetcher () :=
  modify (λ f, with_started (alter (λ e, (e.1, step dctx0 decompress outSize retryable budget ev e.2)) j (started f)) f).

(** [fetchInto] up to its reading: it has found a buffer. *)
Definition fetch_join (path : StorePath) : M fetcher () :=
  f ← get;
  b ← expect Undefined (buffers f !! path);
  e ← expect Undefined (started f !! b.1);
  run_session b.1 (NewReader b.2);;
  modify (λ f, with_fetches (fetches f ++ [mkFetch path b.1 b.2 (length (readers e.2)) false]) f).

Definition fetch_begin (spawns : list bool) (path : StorePath) : M fetcher () :=
  l ← live path;
  (if l : bool then mret () else startPending spawns);;
  f ← get;
  (match buffers f !! path with Some _ => mret () | None => startSession (default true (spawns !! N.to_nat (connections f))) [path] end);;
  fetch_join path.

(** [fetchInto] after its reading, which returned or threw. *)
Definition fetch_end (k : nat) : M fetcher () :=
  f ← get;
  c ← expect Undefined (fetches f !! k);
  (if bool_decide (buffers f !! fpath c = Some (fsession c, fspool c)) then modify (λ f, with_buffers (delete (fpath c) (buffers f)) f) else mret ());;
  modify (λ f, with_fetches (<[k := mkFetch (fpath c) (fsession c) (fspool c) (freader c) true]> (fetches f)) f).

(** ** The system *)

Inductive fevent :=
  | FRecord (order : list StorePath) (sizes : gmap StorePath N)
  | FCount
  | FBegin (spawns : list bool) (path : StorePath)
  | FRun (j : nat) (ev : event)        (* a session's thread or one of its readers *)
  | FEnd (k : nat).

Definition fetch_of (f : fetcher) (c : fetch) : option reader :=
  e ← started f !! fsession c; readers e.2 !! freader c.

Definition over (r : reader) : bool := match rat r with RReturned | RThrew _ => true | _ => false end.

Definition fenabled (ev : fevent) (f : fetcher) : bool :=
  match ev with
  | FRun _ (NewReader _) => false
  | FEnd k =>
      match fetches f !! k with
      | Some c => negb (fdone c) && match fetch_of f c with Some r => over r | None => false end
      | None => false
      end
  | _ => true
  end.

Definition fstep (ev : fevent) : M fetcher () :=
  match ev with
  | FRecord order sizes => recordOrder order sizes
  | FCount => sessionCount;; mret ()
  | FBegin spawns path => fetch_begin spawns path
  | FRun j ev => run_session j ev
  | FEnd k => fetch_end k
  end.

Inductive freachable (n : N) : fetcher → Prop :=
  | freach_new : freachable n (new_fetcher n)
  | freach_step f ev : freachable n f → fenabled ev f = true → freachable n (exec (fstep ev) f).
End Fetcher.
