(* ===== verification/NarFetcherSystem.v ===== *)
(** * Downloads in bulk: what a call of [fetchInto] gets *)

From Stdlib Require Import Ascii.
From stdpp Require Import sorting.
From S2P Require Import Prelude Retry NarFetch NarFetchTheorems NarFetcher.

(** ** Operations that return or throw an error *)

Definition yields {S A} (m : M S A) (Φ : A → S → Prop) (E : S → Prop) (s : S) : Prop :=
  match m s with
  | (s', Ok a) => Φ a s'
  | (s', Throw (NixError _)) => E s'
  | (_, Throw _) => False
  end.

Lemma yields_bind {S A B} (m : M S A) (k : A → M S B) Φ E s :
  yields m (λ a, yields (k a) Φ E) E s → yields (m ≫= k) Φ E s.
Proof. unfold yields, mbind, M_bind. destruct (m s) as [s' [a|[]]]; auto. Qed.
Lemma yields_mono {S A} (m : M S A) (Φ Φ' : A → S → Prop) (E E' : S → Prop) s :
  yields m Φ E s → (∀ a s', Φ a s' → Φ' a s') → (∀ s', E s' → E' s') → yields m Φ' E' s.
Proof. unfold yields. destruct (m s) as [s' [a|[]]]; auto. Qed.
Lemma yields_forM {S A} (l : list A) (f : A → M S ()) (I : list A → S → Prop) (E : S → Prop) s :
  I [] s → (∀ k x l' s', l = k ++ x :: l' → I k s' → yields (f x) (λ _, I (k ++ [x])) E s') → yields (forM_ l f) (λ _, I l) E s.
Proof.
  intros HI Hstep. cut (∀ k l', l = k ++ l' → ∀ s, I k s → yields (forM_ l' f) (λ _, I l) E s).
  { intros H. by apply (H [] l). }
  clear s HI. intros k l'. revert k. induction l' as [|x l' IH]; intros k Heq s HI; cbn [forM_].
  - rewrite app_nil_r in Heq. by subst.
  - apply yields_bind. eapply yields_mono; [by eapply Hstep| |done]. intros [] s' Hs'. apply (IH (k ++ [x])); [|done].
    by rewrite <-app_assoc.
Qed.

Section Fetcher.
Context {dctx : Type} (dctx0 : dctx) (decompress : dctx → bytes → (dctx * nat * bytes) + string) (outSize : nat).
Context (retryable : option (Status → bool)) (budget : Z).

Abbreviation fetcher := (fetcher (dctx:=dctx)).
Abbreviation system := (system (dctx:=dctx)).
Abbreviation reachable := (reachable dctx0 decompress outSize retryable budget).
Abbreviation step := (step dctx0 decompress outSize retryable budget).
Implicit Types (f : fetcher) (y : system).

(** ** The invariant *)

(** A call reads the spool of its own path. *)
Definition reads_own f (c : fetch) : Prop :=
  ∃ paths y r, started f !! fsession c = Some (paths, y) ∧ paths !! fspool c = Some (fpath c) ∧
    readers y !! freader c = Some r ∧ rspool r = fspool c.

Record finv f : Prop := {
  fi_sys : ∀ (j : nat) paths y, started f !! j = Some (paths, y) → reachable (length paths) y;
  fi_buf : ∀ p (b : nat * nat), buffers f !! p = Some b → ∃ paths y, started f !! b.1 = Some (paths, y) ∧ paths !! b.2 = Some p;
  fi_fetch : ∀ (k : nat) c, fetches f !! k = Some c → reads_own f c;
  fi_held : ∀ (j : nat), j < length (started f) → j ∈ sessions f ∨ session_done f j = true;
}.

(** The path's buffer, if it has one, has not failed. *)
Definition usable (p : StorePath) f : Prop :=
  ∀ b, buffers f !! p = Some b → ∃ sp, spool_at f b = Some sp ∧ NarSpool.failed sp = false.

Lemma spool_at_some f p b : finv f → buffers f !! p = Some b → ∃ sp, spool_at f b = Some sp.
Proof.
  intros Hf Hb. destruct (fi_buf f Hf p b Hb) as (paths & y & Hst & Hp). unfold spool_at. rewrite Hst. simpl.
  apply lookup_lt_is_Some_2. destruct (fetch_reachable_ok _ _ _ _ _ _ _ (fi_sys f Hf _ _ _ Hst)) as [Hs _].
  rewrite (sn_len _ _ Hs). by eapply lookup_lt_Some.
Qed.

(** A reader keeps its place and its spool; a thread that is done stays done. *)
Lemma step_reader ev y (k : nat) r : readers y !! k = Some r → ∃ r', readers (step ev y) !! k = Some r' ∧ rspool r' = rspool r.
Proof.
  intros Hr. destruct ev as [i|sid|k' io]; simpl; [eauto|by exists r; split; [apply lookup_app_l_Some|]|].
  destruct (readers y !! k') as [r'|] eqn:Hr'; [|eauto]. simpl. destruct (decide (k = k')) as [->|Hne].
  - rewrite list_lookup_insert_eq by by eapply lookup_lt_Some. simplify_eq. eexists. split; [done|]. unfold reader_step.
    repeat case_match; done.
  - rewrite list_lookup_insert_ne by done. eauto.
Qed.
Lemma nar_step_done ev y : match at_ (ses y) with WDone => true | _ => false end = true → match at_ (ses (step ev y)) with WDone => true | _ => false end = true.
Proof.
  intros Hd. destruct (at_ (ses y)) eqn:Ha; try done. destruct ev as [i|sid|k io]; simpl.
  - unfold session_step. rewrite Ha. simpl. by rewrite Ha.
  - by rewrite Ha.
  - destruct (readers y !! k); simpl; by rewrite Ha.
Qed.

(** ** The operations *)

Lemma reap_ok f : finv f → finv (exec reap f) ∧ buffers (exec reap f) = buffers f ∧ started (exec reap f) = started f ∧
  connections (exec reap f) = connections f ∧ fetches (exec reap f) = fetches f.
Proof.
  intros []. split; [|done]. constructor; try done. intros j Hj. destruct (fi_held0 j Hj) as [Hin|]; [|by right].
  destruct (session_done f j) eqn:Hd; [by right|]. left. by apply list_elem_of_filter.
Qed.

Lemma with_buffers_ok f b :
  finv f → (∀ p v, b !! p = Some v → ∃ paths y, started f !! v.1 = Some (paths, y) ∧ paths !! v.2 = Some p) → finv (with_buffers b f).
Proof. intros [] Hb. by constructor. Qed.

Lemma delete_ok f p : finv f → finv (with_buffers (delete p (buffers f)) f).
Proof. intros Hf. apply with_buffers_ok; [done|]. intros q v [_ Hv]%lookup_delete_Some. by apply (fi_buf f Hf). Qed.

Lemma live_ok p f : finv f → yields (live p) (λ (l : bool) f', finv f' ∧ usable p f' ∧ (l = false → buffers f' !! p = None) ∧
   (f' = f ∨ f' = with_buffers (delete p (buffers f)) f)) (λ _, False) f.
Proof.
  intros Hf. unfold live, yields, mbind, M_bind, get. destruct (buffers f !! p) as [b|] eqn:Hb.
  - destruct (spool_at_some f p b Hf Hb) as [sp Hsp]. unfold expect. rewrite Hsp. simpl. destruct (NarSpool.failed sp) eqn:Hfl; simpl.
    + split_and!; [by apply delete_ok| |intros _; by rewrite lookup_delete_eq|by right].
      intros b'. simpl. by rewrite lookup_delete_eq.
    + split_and!; [done| |done|by left]. intros b'. rewrite Hb. intros [= <-]. eauto.
  - simpl. split_and!; [done| |done|by left]. intros b'. by rewrite Hb.
Qed.

(** What a session adds to [buffers]. *)
Lemma buffers_add (j : nat) paths (b : gmap StorePath (nat * nat)) p :
  let b' := foldl (λ b e, <[e.2 := (j, e.1)]> b) b (imap pair paths) in
  (p ∈ paths ∧ ∃ i, b' !! p = Some (j, i) ∧ paths !! i = Some p) ∨ (p ∉ paths ∧ b' !! p = b !! p).
Proof.
  cbv zeta. induction paths as [|x paths IH] using rev_ind; [right; split; [apply not_elem_of_nil|done]|].
  rewrite imap_app, foldl_app. cbn [imap foldl fst snd]. destruct (decide (x = p)) as [->|Hne].
  - left. split; [set_solver|]. exists (length paths). rewrite lookup_insert_eq, lookup_app_r, Nat.sub_diag by done.
    split; [|done]. by rewrite Nat.add_0_r.
  - rewrite lookup_insert_ne by done. destruct IH as [(Hin & i & Hb & Hi)|[Hin Hb]].
    + left. split; [set_solver|]. exists i. split; [done|]. by apply lookup_app_l_Some.
    + right. split; [set_solver|done].
Qed.

Lemma spool_at_app f l b sp : spool_at f b = Some sp → spool_at (with_started (started f ++ l) f) b = Some sp.
Proof.
  unfold spool_at. simpl. destruct (started f !! b.1) as [e|] eqn:He; [|done].
  by rewrite (lookup_app_l_Some _ _ _ _ He).
Qed.

(** What starting sessions keeps. *)
Record keeps_bufs f f' : Prop := {
  kb_usable : ∀ p, usable p f → usable p f';
  kb_fetches : fetches f' = fetches f;
  kb_some : ∀ p, is_Some (buffers f !! p) → is_Some (buffers f' !! p);
}.
#[local] Instance keeps_bufs_trans : Transitive keeps_bufs.
Proof. intros f g h [] []. constructor; [auto|congruence|auto]. Qed.
#[local] Instance keeps_bufs_refl : Reflexive keeps_bufs.
Proof. by constructor. Qed.

Lemma session_added_ok f paths :
  finv f → let j := length (started f) in
  let f' := mkFetcher (connections f) (sessions f ++ [j]) (foldl (λ b e, <[e.2 := (j, e.1)]> b) (buffers f) (imap pair paths))
    (fpending f) (narSizes f) (started f ++ [(paths, mkSystem (new_session dctx0 budget (length paths)) [])]) (fetches f) in
  finv f' ∧ keeps_bufs f f' ∧ (∀ p, p ∈ paths → is_Some (buffers f' !! p) ∧ usable p f').
Proof.
  intros Hf j f'.
  assert (∀ (k : nat) e, started f !! k = Some e → started f' !! k = Some e) as Hst.
  { intros k e Hk. by apply lookup_app_l_Some. }
  assert (started f' !! j = Some (paths, mkSystem (new_session dctx0 budget (length paths)) [])) as Hj.
  { unfold j. simpl. by rewrite lookup_app_r, Nat.sub_diag by done. }
  assert (∀ p, p ∈ paths → is_Some (buffers f' !! p) ∧ usable p f') as Hnew.
  { intros p Hp. destruct (buffers_add j paths (buffers f) p) as [(_ & i & Hb & Hi)|[]]; [|done]. split; [by eexists|].
    intros b. simpl. rewrite Hb. intros [= <-]. exists NarSpool.fresh. split; [|done]. unfold spool_at. cbn [fst snd].
    rewrite Hj. simpl. apply lookup_replicate_2. by eapply lookup_lt_Some. }
  split_and!; [|constructor; [|done|]|done].
  - constructor.
    + intros k ps y Hk. apply lookup_snoc_Some in Hk as [[_ Hk]|[_ [= <- <-]]]; [by eapply fi_sys|]. apply reach_new.
    + intros p b. destruct (buffers_add j paths (buffers f) p) as [(_ & i & Hb & Hi)|[_ Hb]]; simpl; rewrite Hb.
      * intros [= <-]. by eauto.
      * intros (ps & y & ? & ?)%(fi_buf f Hf). eauto.
    + intros k c (ps & y & r & Hs & Hrest)%(fi_fetch f Hf). exists ps, y, r. split; [by apply Hst|done].
    + intros k. simpl. rewrite length_app. simpl. intros Hk. destruct (decide (k = j)) as [->|Hne]; [left; set_solver|].
      destruct (fi_held f Hf k) as [|Hd]; [unfold j in Hne; lia|left; set_solver|]. right. unfold session_done in *.
      destruct (started f !! k) eqn:Hk'; [|done]. by rewrite (Hst _ _ Hk').
  - intros p Hu. destruct (decide (p ∈ paths)) as [Hp|Hp]; [by apply Hnew|].
    destruct (buffers_add j paths (buffers f) p) as [[]|[_ Hb]]; [done|]. intros b. simpl. rewrite Hb. intros (sp & Hsp & ?)%Hu.
    exists sp. split; [|done]. by apply (spool_at_app f _ b sp).
  - intros p Hs. destruct (decide (p ∈ paths)) as [Hp|Hp]; [by apply Hnew|].
    destruct (buffers_add j paths (buffers f) p) as [[]|[_ Hb]]; [done|]. simpl. by rewrite Hb.
Qed.

Lemma startSession_ok spawn paths f :
  finv f → yields (startSession dctx0 budget spawn paths) (λ _ f', finv f' ∧ keeps_bufs f f' ∧ connections f' = connections f ∧ 
    (∀ p, p ∈ paths → is_Some (buffers f' !! p) ∧ usable p f')) (λ f', spawn = false ∧ finv f') f.
Proof.
  intros Hf. destruct (reap_ok f Hf) as (Hr & Hb & Hs & Hc & _). unfold startSession. apply yields_bind.
  change (yields _ ?P ?E f) with (P tt (exec reap f)). cbv beta. destruct spawn; simpl; [|by split].
  unfold yields. simpl. destruct (session_added_ok (exec reap f) paths Hr) as (Hf' & Hk & Hn). split_and!; try done.
  by destruct Hk; constructor.
Qed.

Lemma startPending_ok spawns f :
  finv f → yields (startPending dctx0 budget spawns) (λ _ f', finv f' ∧ keeps_bufs f f' ∧ connections f' = connections f)
    (λ f', false ∈ spawns ∧ finv f') f.
Proof.
  intros Hf. unfold startPending. apply yields_bind. change (yields get ?P ?E f) with (P f f). cbv beta.
  destruct (bool_decide _); [done|]. set (f0 := with_pending [] f).
  assert (finv f0) as Hf0 by by destruct Hf. apply yields_bind. change (yields (modify ?g) ?P ?E ?x) with (P tt (g x)). cbv beta. fold f0.
  eapply yields_mono; [apply (yields_forM _ _ (λ _ f', finv f' ∧ keeps_bufs f f' ∧ connections f' = connections f)
    (λ f', false ∈ spawns ∧ finv f'))| |]; [done|..|done|done].
  intros k [i g] l' f' _ (Hf' & Hk & Hc). cbn [fst snd]. destruct (bool_decide _); [done|].
  eapply yields_mono; [by apply startSession_ok|..].
  - intros [] f'' (? & Hk' & ? & _). split_and!; [done|by etrans|congruence].
  - intros f'' [Hfalse ?]. split; [|done]. destruct (spawns !! i) as [[]|] eqn:Hi; simpl in Hfalse; try done. by eapply list_elem_of_lookup_2.
Qed.

(** A step of a session, of its thread or of a reader. *)
Lemma run_ok f (j : nat) ev :
  finv f → finv (with_started (alter (λ e, (e.1, step ev e.2)) j (started f)) f).
Proof.
  intros Hf. assert (∀ (k : nat) ps y, started f !! k = Some (ps, y) → ∃ y', alter (λ e, (e.1, step ev e.2)) j (started f) !! k = Some (ps, y') ∧
    (y' = y ∨ y' = step ev y)) as Hfw.
  { intros k ps y Hk. destruct (decide (k = j)) as [->|Hne].
    - rewrite list_lookup_alter_eq, Hk. simpl. eauto.
    - rewrite list_lookup_alter_ne by done. eauto. }
  constructor; simpl.
  - intros k ps y. destruct (decide (k = j)) as [->|Hne].
    + rewrite list_lookup_alter_eq. destruct (started f !! j) as [[ps' y']|] eqn:Hj; [|done]. intros [= <- <-].
      apply reach_step. by eapply fi_sys.
    + rewrite list_lookup_alter_ne by done. by apply fi_sys.
  - intros p b (ps & y & Hs & Hp)%(fi_buf f Hf). destruct (Hfw _ _ _ Hs) as (y' & Hs' & _). eauto.
  - intros k c (ps & y & r & Hs & Hp & Hr & Hsp)%(fi_fetch f Hf). destruct (Hfw _ _ _ Hs) as (y' & Hs' & Hy).
    assert (∃ r', readers y' !! freader c = Some r' ∧ rspool r' = fspool c) as (r' & Hr' & Hsp').
    { destruct Hy as [->| ->]; [eauto|]. rewrite <-Hsp. by apply step_reader. }
    by exists ps, y', r'.
  - intros k. rewrite length_alter. intros [Hin|Hd]%(fi_held f Hf); [by left|]. right. unfold session_done in *. simpl.
    destruct (started f !! k) as [[ps y]|] eqn:Hk; [|done]. destruct (Hfw _ _ _ Hk) as (y' & -> & Hy).
    destruct Hy as [->| ->]; [done|]. by apply nar_step_done.
Qed.

Lemma recordOrder_ok order sizes f : finv f → yields (recordOrder order sizes) (λ _, finv) (λ _, False) f.
Proof.
  intros Hf. unfold recordOrder. apply yields_bind. eapply yields_mono; [apply (yields_forM _ _ (λ _, finv) (λ _, False))| |].
  - done.
  - intros k p l' f' _ Hf'. apply yields_bind. eapply yields_mono; [by apply live_ok| |done].
    intros [] f'' (Hf'' & _); [done|]. by destruct Hf''.
  - intros [] f' Hf'. by destruct Hf'.
  - done.
Qed.

(** A call that has just begun: it reads its path's spool from the start, and that had not failed. *)
Definition begun (path : StorePath) f f' : Prop :=
  ∃ c sp r, fetches f' = fetches f ++ [c] ∧ fpath c = path ∧ buffers f' !! path = Some (fsession c, fspool c) ∧
    spool_at f' (fsession c, fspool c) = Some sp ∧ NarSpool.failed sp = false ∧
    fetch_of f' c = Some r ∧ r = mkReader (fspool c) 0 [] RWait.

Lemma fetch_join_ok path f b :
  finv f → buffers f !! path = Some b → usable path f →
  yields (fetch_join dctx0 decompress outSize retryable budget path) (λ _ f', finv f' ∧ begun path f f') (λ _, False) f.
Proof.
  intros Hf Hb Hu. destruct (fi_buf f Hf path b Hb) as (ps & y & Hs & Hp). destruct (Hu b Hb) as (sp & Hsp & Hfl).
  unfold fetch_join. apply yields_bind. change (yields get ?P ?E f) with (P f f). cbv beta. rewrite Hb. simpl.
  apply yields_bind. unfold yields at 1. simpl. apply yields_bind. unfold yields at 1. simpl.
  rewrite Hs. simpl.
  pose proof (run_ok f b.1 (NewReader b.2) Hf) as Hrun.
  set (l := alter _ _ _) in *.
  assert (l !! b.1 = Some (ps, step (NewReader b.2) y)) as Hl by (unfold l; by rewrite list_lookup_alter_eq, Hs).
  assert (readers (step (NewReader b.2) y) !! length (readers y) = Some (mkReader b.2 0 [] RWait)) as Hnew.
  { simpl. by rewrite lookup_app_r, Nat.sub_diag by done. }
  split.
  - destruct Hrun as [H1 H2 H3 H4]. constructor; [done..| |done]. intros k c Hk. simpl in Hk.
    apply lookup_snoc_Some in Hk as [[_ Hk]|[_ <-]]; [by apply (H3 k)|]. by eexists _, _, _.
  - eexists _, sp, _. split_and!; [done|done|by destruct b| |done| |done].
    + unfold spool_at in *. simpl. rewrite list_lookup_alter_eq. by rewrite Hs in *.
    + unfold fetch_of. simpl. rewrite list_lookup_alter_eq, Hs. exact Hnew.
Qed.

Lemma fetch_begin_ok spawns path f :
  finv f → yields (fetch_begin dctx0 decompress outSize retryable budget spawns path)
    (λ _ f', finv f' ∧ begun path f f') (λ f', false ∈ spawns ∧ finv f') f.
Proof.
  intros Hf. unfold fetch_begin. apply yields_bind. eapply yields_mono; [by apply live_ok| |done].
  intros l f1 (Hf1 & Hu1 & Hl1 & Hf1'). assert (fetches f1 = fetches f) as Hft by by destruct Hf1' as [->| ->].
  apply yields_bind. apply yields_mono with (Φ := λ _ f', finv f' ∧ keeps_bufs f1 f') (E := λ f', false ∈ spawns ∧ finv f'); [|clear l Hl1|done].
  { destruct l; [done|]. eapply yields_mono; [by apply startPending_ok| |done]. by intros ? ? (? & ? & _). }
  intros [] f2 (Hf2 & [Hku Hkf _]). apply yields_bind. change (yields get ?P ?E f2) with (P f2 f2). cbv beta. apply yields_bind.
  apply yields_mono with (Φ := λ _ f', finv f' ∧ usable path f' ∧ is_Some (buffers f' !! path) ∧ fetches f' = fetches f)
    (E := λ f', false ∈ spawns ∧ finv f'); [| |done].
  - destruct (buffers f2 !! path) as [b|] eqn:Hb.
    { simpl. split_and!; [done|by apply Hku|by rewrite Hb|congruence]. }
    eapply yields_mono; [by apply startSession_ok|..].
    + intros [] f3 (Hf3 & [_ Hkf' _] & _ & Hin). destruct (Hin path) as [? ?]; [by left|]. split_and!; [done..|congruence].
    + intros f3 [Hsp ?]. split; [|done]. destruct (spawns !! _) as [[]|] eqn:Hi; try done. by eapply list_elem_of_lookup_2.
  - intros [] f3 (Hf3 & Hu3 & [b Hb] & Hft3). eapply yields_mono; [by eapply fetch_join_ok| |done].
    intros [] f4 [? Hbeg]. split; [done|]. unfold begun in *. by rewrite Hft3 in Hbeg.
Qed.

Lemma fetch_end_ok (k : nat) c f : finv f → fetches f !! k = Some c → yields (fetch_end k) (λ _, finv) (λ _, False) f.
Proof.
  intros Hf Hk. assert (∀ g, finv g → fetches g = fetches f →
    finv (with_fetches (<[k := mkFetch (fpath c) (fsession c) (fspool c) (freader c) true]> (fetches g)) g)) as Hset.
  { intros g Hg Hgf. pose proof Hg as [H1 H2 H3 H4]. constructor; [done..| |done]. intros k' c' Hk'. simpl in Hk'.
    apply list_lookup_insert_Some in Hk' as [(<- & <- & _)|[_ Hk']]; [|exact (H3 k' c' Hk')]. rewrite <-Hgf in Hk. exact (H3 k c Hk). }
  unfold fetch_end, yields, mbind, M_bind, get, expect. rewrite Hk. simpl. destruct (bool_decide _); simpl.
  - by apply (Hset (with_buffers (delete (fpath c) (buffers f)) f)), eq_refl; apply delete_ok.
  - by apply Hset.
Qed.

Lemma freachable_inv n f : freachable dctx0 decompress outSize retryable budget n f → finv f.
Proof.
  assert (∀ (m : M fetcher ()) P (E : fetcher → Prop) f, yields m (λ _ f', finv f' ∧ P f') (λ f', E f' ∧ finv f') f → finv (exec m f)) as Hexec.
  { intros m P E g. unfold yields, exec. destruct (m g) as [g' [?|[]]]; simpl; tauto. }
  induction 1 as [|f ev _ Hf He].
  { constructor; simpl; try done. intros; lia. }
  destruct ev as [order sizes| |spawns path|j ev|k]; simpl.
  - apply (Hexec _ (λ _, True) (λ _, True)). eapply yields_mono; [by apply recordOrder_ok|done|done].
  - by apply (reap_ok f Hf).
  - eapply Hexec. by apply fetch_begin_ok.
  - by apply run_ok.
  - simpl in He. destruct (fetches f !! k) as [c|] eqn:Hk; [|done].
    apply (Hexec _ (λ _, True) (λ _, True)). eapply yields_mono; [by eapply fetch_end_ok|done|done].
Qed.

(** ** The theorems *)


(** A call of [fetchInto] always finds a buffer to read, from its beginning, one whose download has not failed: [found->second] is never looked up at
    [end()], and the failure of an earlier download of the path is not handed out again.  The one way it does
    not begin is that the thread of a session could not be started, which is thrown. *)
Theorem fetch_begins n f spawns path :
  freachable dctx0 decompress outSize retryable budget n f →
  yields (fetch_begin dctx0 decompress outSize retryable budget spawns path) (λ _ f', begun path f f') (λ _, false ∈ spawns) f.
Proof.
  intros Hf%freachable_inv. eapply yields_mono; [by apply fetch_begin_ok|..]; [by intros ? ? [? ?]|by intros ? [? ?]].
Qed.
End Fetcher.

(** * Downloads in bulk: paths are spread evenly, and each reader gets its own *)

(** ** Spreading *)

Definition total (size : StorePath → N) (l : list StorePath) : N := foldr (λ p n, (size p + n)%N) 0%N l.

Section Spread.
Context (size : StorePath → N).
Abbreviation total := (total size).

Lemma total_app l k : total (l ++ k) = (total l + total k)%N.
Proof. induction l as [|p l IH]; simpl; [done|]. unfold total in *. rewrite IH. lia. Qed.
#[local] Instance total_perm : Proper ((≡ₚ) ==> (=)) total.
Proof. intros l k. induction 1; simpl; unfold total in *; lia. Qed.

Lemma insert_sized_perm p l : insert_sized size p l ≡ₚ p :: l.
Proof. induction l as [|q l IH]; simpl; [done|]. destruct (_ <? _)%N; [|done]. rewrite IH. apply Permutation_swap. Qed.
Lemma stable_sort_perm l : stable_sort size l ≡ₚ l.
Proof. induction l as [|p l IH]; simpl; [done|]. by rewrite insert_sized_perm, IH. Qed.

Abbreviation desc := (λ p q, (size q ≤ size p)%N).
Lemma insert_sized_sorted p l : StronglySorted desc l → StronglySorted desc (insert_sized size p l).
Proof.
  induction 1 as [|q l Hs IH Hq]; simpl; [by repeat constructor|]. destruct (N.ltb_spec (size p) (size q)).
  - constructor; [done|]. rewrite insert_sized_perm. constructor; [lia|done].
  - constructor; [by constructor|]. constructor; [done|]. eapply Forall_impl; [exact Hq|]. simpl. lia.
Qed.
Lemma stable_sort_sorted l : StronglySorted desc (stable_sort size l).
Proof. induction l; simpl; [constructor|by apply insert_sized_sorted]. Qed.

Lemma min_element_min load :
  load ≠ [] → ∃ x, load !! min_element load = Some x ∧ Forall (λ y, (x ≤ y)%N) load.
Proof.
  induction load as [|x l IH]; intros Hne; [done|]. destruct (decide (l = [])) as [->|Hl]; [exists x; split; [done|by constructor]|].
  destruct (IH Hl) as (z & Hz & Hall). cbn [min_element]. rewrite Hz. destruct (N.ltb_spec z x).
  - exists z. split; [done|]. constructor; [lia|done].
  - exists x. split; [done|]. constructor; [done|]. eapply Forall_impl; [exact Hall|]. simpl. lia.
Qed.

Lemma concat_alter_snoc (groups : list (list StorePath)) k p :
  k < length groups → concat (alter (λ g, g ++ [p]) k groups) ≡ₚ p :: concat groups.
Proof.
  revert k. induction groups as [|g groups IH]; intros [|k] Hk; simpl in Hk; [lia..| |].
  - change (alter _ 0 (g :: groups)) with ((g ++ [p]) :: groups). simpl. rewrite <-app_assoc. symmetry. apply Permutation_middle.
  - change (alter _ (S k) (g :: groups)) with (g :: alter (λ g, g ++ [p]) k groups). cbn [concat].
    rewrite IH by lia. symmetry. apply Permutation_middle.
Qed.

(** A group without its last path is no heavier than any group, and its last path is its smallest. *)
Definition even (groups : list (list StorePath)) : Prop :=
  ∀ (i j : nat) g x h, groups !! i = Some (g ++ [x]) → groups !! j = Some h → (total g ≤ total h)%N ∧ Forall (λ p, (size x ≤ size p)%N) g.

Record assigned (done todo : list StorePath) (groups : list (list StorePath)) (load : list N) : Prop := {
  as_perm : concat groups ≡ₚ done;
  as_load : load = total <$> groups;
  as_even : even groups;
  as_least : ∀ p q, p ∈ done → q ∈ todo → (size q ≤ size p)%N;
}.

Lemma assign_step done q todo groups load :
  (total (done ++ q :: todo) < 2 ^ 64)%N → StronglySorted desc (q :: todo) → groups ≠ [] → assigned done (q :: todo) groups load →
  let '(groups', load') := assign size (groups, load) q in assigned (q :: done) todo groups' load' ∧ length groups' = length groups.
Proof.
  intros Hsum Hsorted Hne [Hperm Hload Heven Hleast]. unfold assign.
  destruct (min_element_min load) as (m & Hm & Hmin). { rewrite Hload. by destruct groups. }
  set (k := min_element load) in *. pose proof Hm as Hg. rewrite Hload, list_lookup_fmap, fmap_Some in Hg.
  destruct Hg as (g & Hg & ->). assert (k < length groups) as Hk by by eapply lookup_lt_Some.
  assert (total g ≤ total done)%N as Hgd.
  { rewrite <-Hperm. apply list_elem_of_lookup_2, list_elem_of_split in Hg as (l & l' & ->).
    rewrite concat_app, !total_app. simpl. rewrite total_app. lia. }
  split; [constructor|by rewrite length_alter].
  - by rewrite concat_alter_snoc, Hperm.
  - apply list_eq. intros i. rewrite list_lookup_fmap. destruct (decide (i = k)) as [->|Hi].
    + rewrite !list_lookup_alter_eq, Hm, Hg. simpl. rewrite total_app. simpl. f_equal. unfold u64.
      rewrite total_app in Hsum. simpl in Hsum. unfold total in *. rewrite N.mod_small; lia.
    + rewrite !list_lookup_alter_ne, Hload, list_lookup_fmap by done. done.
  - assert (∀ (j : nat) h, alter (λ g, g ++ [q]) k groups !! j = Some h → ∃ h0, groups !! j = Some h0 ∧ (total h0 ≤ total h)%N) as Hgrow.
    { intros j h. destruct (decide (j = k)) as [->|Hj].
      - rewrite list_lookup_alter_eq, Hg. intros [= <-]. exists g. rewrite total_app. split; [done|lia].
      - rewrite list_lookup_alter_ne by done. eauto. }
    intros i j g' x h Hi (h0 & Hj & Hle)%Hgrow. destruct (decide (i = k)) as [->|Hne'].
    + rewrite list_lookup_alter_eq, Hg in Hi. apply (inj Some) in Hi. apply app_inj_tail in Hi as [<- <-]. split.
      * rewrite Hload, Forall_fmap, Forall_lookup in Hmin. specialize (Hmin j h0 Hj). simpl in Hmin. lia.
      * apply Forall_forall. intros p Hp. apply Hleast; [|by left]. rewrite <-Hperm.
        apply list_elem_of_lookup_2, list_elem_of_split in Hg as (l & l' & ->). rewrite concat_app. simpl. set_solver +Hp.
    + rewrite list_lookup_alter_ne in Hi by done. destruct (Heven i j g' x h0 Hi Hj). split; [lia|done].
  - inversion Hsorted as [|? ? _ Hall]. subst. rewrite Forall_forall in Hall.
    intros p r [->|Hp]%elem_of_cons Hr; [by apply Hall|]. apply Hleast; [done|by right].
Qed.

Lemma assign_all done todo groups load :
  (total (done ++ todo) < 2 ^ 64)%N → StronglySorted desc todo → groups ≠ [] → assigned done todo groups load →
  ∃ groups' load', foldl (assign size) (groups, load) todo = (groups', load') ∧
    assigned (reverse todo ++ done) [] groups' load' ∧ length groups' = length groups.
Proof.
  revert done groups load. induction todo as [|q todo IH]; intros done groups load Hsum Hs Hne Ha.
  { by exists groups, load. }
  pose proof (assign_step done q todo groups load Hsum Hs Hne Ha) as Hstep. cbn [foldl].
  destruct (assign size (groups, load) q) as [groups' load']. destruct Hstep as [Ha' Hl].
  destruct (IH (q :: done) groups' load') as (g & l & -> & Hg & Hlen); try done.
  - eapply N.le_lt_trans; [|exact Hsum]. rewrite !total_app. simpl. unfold total. lia.
  - by inversion Hs.
  - intros ->. by destruct groups.
  - exists g, l. split_and!; [done| |lia]. by rewrite reverse_cons, <-app_assoc.
Qed.

(** C18. [startPending] puts every recorded path into exactly one of the groups, one group per connection, and the groups
    are as even as taking the largest first makes them: a group without the path it was given last is no
    heavier than any other group, and that path is no larger than the others of its group.  (The sum of the sizes has to
    fit 64 bits.) *)
Theorem spread_balanced n pending :
  (1 ≤ n)%N → (total pending < 2 ^ 64)%N →
  let groups := (spread size n pending).1 in
  concat groups ≡ₚ pending ∧ length groups = N.to_nat n ∧ even groups.
Proof.
  intros Hn Hsum. unfold spread.
  destruct (assign_all [] (stable_sort size pending) (replicate (N.to_nat n) []) (replicate (N.to_nat n) 0%N))
    as (g & l & -> & Ha & Hl).
  - by rewrite stable_sort_perm.
  - apply stable_sort_sorted.
  - destruct (N.to_nat n) eqn:?; [lia|done].
  - constructor.
    + clear. induction (N.to_nat n); simpl; [done|]. done.
    + by rewrite fmap_replicate.
    + intros i j g x h [Hg _]%lookup_replicate. by destruct g.
    + intros p q []%elem_of_nil.
  - destruct Ha as [Hperm _ Heven _]. rewrite app_nil_r, reverse_Permutation, stable_sort_perm in Hperm.
    rewrite length_replicate in Hl. by split_and!.
Qed.
End Spread.
