(* ===== verification/NarFetcherDemo.v ===== *)
(** * Downloads in bulk: a run

    Two paths on one connection; the stream breaks off after the first, and the second comes over a new one. *)

From Stdlib Require Import Ascii String.
From S2P Require Import Prelude Retry NarFetch NarFetchTheorems NarFetcher NarFetcherSystem.

(** Frames that are not compressed. *)
Definition stored (_ : ()) (zin : bytes) : (() * nat * bytes) + string := inl ((), List.length zin, zin).
Abbreviation demo_step := (fstep tt stored 1000 (Some goneAway) 60000).
Abbreviation demo_reachable := (freachable tt stored 1000 (Some goneAway) 60000).

Fixpoint demo_run (evs : list fevent) (f : fetcher) : fetcher :=
  match evs with
  | [] => f
  | ev :: evs => if fenabled ev f then demo_run evs (exec (demo_step ev) f) else f
  end.

Lemma demo_run_reachable n evs f : demo_reachable n f → demo_reachable n (demo_run evs f).
Proof.
  revert f. induction evs as [|ev evs IH]; intros f Hf; [done|]. cbn [demo_run].
  destruct (fenabled ev f) eqn:He; [|done]. by apply IH, freach_step.
Qed.

Definition nar (s : string) : bytes := list_ascii_of_string s.
Definition meets (frame : option Frame.t) : winput := mkInput false true frame (mkStatus UNAVAILABLE "Socket closed") false None 0.
Definition frame (k : N) (s : string) (eof : bool) : fevent := FRun 0 (Thread (meets (Some (Frame.mk k (nar s) eof)))).
Definition no_frame : fevent := FRun 0 (Thread (meets None)).

Definition demo_head : list fevent :=
  [FRecord ["a"; "b"] {[ "a" := 1%N; "b" := 2%N ]}; FBegin [] "a"; no_frame; no_frame; frame 0 "first" true; no_frame; no_frame;
   no_frame; no_frame; no_frame; no_frame; frame 0 "sec" false; no_frame; FRun 0 (Reads 0 None); FRun 0 (Reads 0 (Some 100%N));
   frame 0 "ond" true; no_frame; no_frame].
Definition demo_evs : list fevent := demo_head ++ repeat (FRun 0 (Reads 0 (Some 2%N))) 6.
Definition demo : fetcher := demo_run demo_evs (new_fetcher 1).

Lemma demo_ends : option_map (λ r, (string_of_list_ascii (sink r), rat r)) (fetches demo !! 0 ≫= fetch_of demo) = Some ("second", RReturned).
Proof. vm_compute. reflexivity. Qed.

Lemma demo_reached : demo_reachable 1 demo.
Proof. apply demo_run_reachable, freach_new. Qed.


Lemma fetch_begins_witness :
  yields (fetch_begin tt stored 1000 (Some goneAway) 60000 [false] "b") (λ _ f', begun "b" demo f') (λ _, false ∈ [false]) demo.
Proof. apply (fetch_begins tt stored 1000 (Some goneAway) 60000 1). apply demo_reached. Defined.

Definition demo_size (p : StorePath) : N := N.of_nat (String.length p).
Lemma spread_balanced_witness :
  let groups := (spread demo_size 2 ["x"; "xxxx"; "xx"; "xxx"]).1 in
  groups = [["xxxx"; "x"]; ["xxx"; "xx"]] ∧
  (concat groups ≡ₚ ["x"; "xxxx"; "xx"; "xxx"] ∧ List.length groups = N.to_nat 2 ∧ even demo_size groups).
Proof. cbv zeta. split; [reflexivity|]. apply spread_balanced; [lia|vm_compute; reflexivity]. Defined.

(** The session of the run, by itself. *)
Definition demo_session : list event := [NewReader 1] ++ (demo_head ≫= λ ev, match ev with FRun _ ev => [ev] | _ => [] end) ++
  repeat (Thread (mkInput true true None (mkStatus UNAVAILABLE "Socket closed") false None 0)) 3.
Definition demo_system : system := foldl (λ y ev, step tt stored 1000 (Some goneAway) 60000 ev y) (mkSystem (new_session tt 60000 2) []) demo_session.

Lemma demo_system_reached : reachable tt stored 1000 (Some goneAway) 60000 2 demo_system.
Proof.
  unfold demo_system. generalize (reach_new tt stored 1000 (Some goneAway) 60000 2). generalize (mkSystem (new_session tt 60000 2) []).
  induction demo_session as [|ev evs IH]; intros y Hy; [exact Hy|]. apply IH. by apply reach_step.
Qed.

