(* ===== verification/Uploads.v ===== *)
(** * Concurrent uploads

    src/src/daemon/upload-claims.hh ([UploadClaims]), upload-spool.hh ([NarSpool]) and
    [importUploads] of src/src/daemon/main.cc.  Uploads that bring the same path share the work: the first
    to read it claims it and imports it, the others wait for its promise.

    A promise is named by its number; its state is what the shared futures of it see, and dropping it
    unfulfilled breaks it.  An upload is at a point, and a step takes it past one hold of the claims'
    mutex, one look at a future, one import with the substitution of its references, or one drop of a promise.  What the stream and the store answer is in
    the [input] of a step.  [log] has the claims an upload has met, in order, which the program does
    not keep. *)

From Stdlib Require Import Ascii.
From S2P Require Import Prelude.

Abbreviation bytes := (list ascii).

(** ** Claims *)

Inductive promise := Unset | Kept | Dropped.
#[export] Instance promise_eq_dec : EqDecision promise.
Proof. solve_decision. Defined.

Record claims := mkClaims {
  promises : list (string * promise);   (* with the path it was made for *)
  active_ : gmap string nat;
}.

Definition promise_of (c : claims) (id : nat) : promise := from_option snd Dropped (promises c !! id).

(** [finished] *)
Definition ready (c : claims) (id : nat) : bool := negb (bool_decide (promise_of c id = Unset)).

Definition set_promise (v : promise) (id : nat) (c : claims) : claims :=
  mkClaims (alter (λ p, (p.1, v)) id (promises c)) (active_ c).

(** [UploadClaims::enter]: the promise to wait for, and whether it is the caller's own. *)
Definition enter (path : string) : M claims (nat * bool) :=
  modify (λ c, mkClaims (promises c) (filter (λ kv, ready c kv.2 = false) (active_ c)));;
  c ← get;
  match active_ c !! path with
  | Some id => mret (id, false)
  | None =>
      let id := length (promises c) in
      modify (λ c, mkClaims (promises c ++ [(path, Unset)]) (<[path := id]> (active_ c)));;
      mret (id, true)
  end.

(** ** The spool of an upload *)

Module SpoolRange.
Record t := mk { offset : nat; size : nat }.
End SpoolRange.

Record NarSpool := mkSpool { file_ : bytes; tail_ : nat }.

Definition kChunk : N := 1048576.

(** [NarSpool::copy]: the pieces a NAR is passed on in. *)
Fixpoint copy (fuel : nat) (nar : bytes) : list bytes :=
  match fuel, nar with
  | _, [] | 0, _ => []
  | S fuel, _ =>
      let want := N.to_nat (N.min kChunk (N.of_nat (length nar))) in
      take want nar :: copy fuel (drop want nar)
  end.

Definition spool_add (nar : bytes) (s : NarSpool) : SpoolRange.t * NarSpool :=
  (SpoolRange.mk (tail_ s) (length nar), mkSpool (foldl app (file_ s) (copy (length nar) nar)) (tail_ s + length nar)).

Module RangeSource.
Record t := mk { pos_ : nat; end_ : nat }.
End RangeSource.

Definition reader (range : SpoolRange.t) : RangeSource.t :=
  RangeSource.mk (SpoolRange.offset range) (SpoolRange.offset range + SpoolRange.size range).

(** [RangeSource::read], when [pread] gives at most [got] bytes or, with [None], fails. *)
Definition range_read (file : bytes) (len : nat) (got : option nat) : M RangeSource.t bytes :=
  r ← get;
  let pos := RangeSource.pos_ r in
  if bool_decide (pos = RangeSource.end_ r) then throw (NixError "end of spooled NAR")
  else
    let want := Nat.min len (RangeSource.end_ r - pos) in
    match got with
    | None => throw (NixError "reading a spooled NAR")
    | Some got =>
        let data := take (Nat.min got want) (drop pos file) in
        if bool_decide (data = []) then throw (NixError "spool file is shorter than expected")
        else modify (λ r, RangeSource.mk (pos + length data) (RangeSource.end_ r));; mret data
    end.

(** What a reader of the range gives until its end, see [range_source_gives]. *)
Definition spool_read (r : SpoolRange.t) (s : NarSpool) : bytes := take (SpoolRange.size r) (drop (SpoolRange.offset r) (file_ s)).

(** ** An upload *)

Module Item.
Record t := mk { path : string; references : list string; nar : bytes }.
End Item.

Module Owned.
Record t := mk { info : Item.t; id : nat; range : SpoolRange.t }.
End Owned.

Inductive why := BadStream | NotSpooled | Cancelled | OtherFailed (path : string) | NotAdded.

Inductive upoint :=
  | UReading
  | UAwait (k : nat) (refs : list string)     (* of the k-th of [owned] *)
  | URest (rest : list (string * nat))
  | UDrop (ids : list nat) (w : why)
  | UReturned
  | UThrew (w : why).

Record upload := mkUpload {
  stream : list Item.t;         (* what it brings *)
  reads : nat;                  (* how many were read *)
  seen : gset string;
  spool : NarSpool;
  owned : list Owned.t;
  theirs : gmap string nat;
  imported : list string;
  at_ : upoint;
  log : list (string * nat * bool);
}.

Definition new_upload (s : list Item.t) : upload := mkUpload s 0 ∅ (mkSpool [] 0) [] ∅ [] UReading [].
Definition at_point p u := mkUpload (stream u) (reads u) (seen u) (spool u) (owned u) (theirs u) (imported u) p (log u).
Definition have_imported path u := mkUpload (stream u) (reads u) (seen u) (spool u) (owned u) (theirs u) (imported u ++ [path]) (at_ u) (log u).

Record input := mkInput {
  fine : bool;           (* what is read, written or added now succeeds *)
  cancelled : bool;
  stores : gmap string bytes → string → bytes → gmap string bytes;     (* the store's [addToStore] *)
  stores_ok : ∀ m path nar,
    (stores m path nar !! path = Some nar ∨ (is_Some (m !! path) ∧ stores m path nar !! path = m !! path)) ∧
    ∀ other, other ≠ path → stores m path nar !! other = m !! other;
  remote : bool;         (* the daemon has a cache *)
  ensurePath : gmap string bytes → string → gmap string bytes * bool;     (* what substituting a path adds; whether it returns *)
  ensurePath_ok : ∀ m path, (ensurePath m path).2 = true → is_Some (m !! path) ∨ is_Some ((ensurePath m path).1 !! path);
  order : gmap string nat → list (string * nat);     (* of [theirs] *)
  order_perm : ∀ m, order m ≡ₚ map_to_list m;
}.

(** The exception that leaves [importUploads]: the promises of [owned] go with it. *)
Definition throws (w : why) (ids : list nat) (u : upload) : upload := at_point (UDrop ids w) u.
Definition owned_ids (u : upload) : list nat := Owned.id <$> owned u.
Definition unkept (k : nat) (u : upload) : list nat := drop k (owned_ids u).

(** The state all uploads share: the claims and the store.  [fetched] has what the store was asked to substitute and what
    that added, which the program does not keep. *)
Record shared := mkShared { cl : claims; valid : gmap string bytes; fetched : list (string * gmap string bytes) }.
Definition on_claims {A} (m : M claims A) : M shared A := zoom cl (λ c s, mkShared c (valid s) (fetched s)) m.

(** After the last of [importPaths], or of [owned]. *)
Definition next_owned (i : input) (k : nat) (u : upload) : upload :=
  match owned u !! k with
  | Some o => at_point (UAwait k (Item.references (Owned.info o))) u
  | None => at_point (URest (order i (theirs u))) u
  end.

(** One path of the stream: the callback of [importPaths]. *)
Definition read_one (i : input) (u : upload) : M shared upload :=
  match stream u !! reads u with
  | None => mret (next_owned i 0 u)
  | Some item =>
      let path := Item.path item in
      let u := mkUpload (stream u) (S (reads u)) (seen u) (spool u) (owned u) (theirs u) (imported u) (at_ u) (log u) in
      if bool_decide (path ∈ seen u) then
        mret (if fine i then u else throws BadStream (owned_ids u) u)
      else
        entry ← on_claims (enter path);
        let '(id, owner) := entry in
        let u := mkUpload (stream u) (reads u) ({[path]} ∪ seen u) (spool u) (owned u) (theirs u) (imported u) (at_ u) (log u ++ [(path, id, owner)]) in
        if owner : bool then
          if fine i then
            let '(range, spool) := spool_add (Item.nar item) (spool u) in
            mret (mkUpload (stream u) (reads u) (seen u) spool (owned u ++ [Owned.mk item id range]) (theirs u) (imported u) (at_ u) (log u))
          else mret (throws NotSpooled (id :: owned_ids u) u)
        else
          mret (if fine i then mkUpload (stream u) (reads u) (seen u) (spool u) (owned u) (<[path := id]> (theirs u)) (imported u) (at_ u) (log u)
                else throws BadStream (owned_ids u) u)
  end.

(** A round of [await]: [None] while it goes on. *)
Definition await (i : input) (path : string) (id : nat) (c : claims) : option (option why) :=
  match promise_of c id with
  | Kept => Some None
  | Dropped => Some (Some (OtherFailed path))
  | Unset => if cancelled i then Some (Some Cancelled) else None
  end.

(** [Cache::substitute]: the answer is whether it returns.  What was valid keeps its contents. *)
Definition substitute (i : input) (path : string) : M shared bool :=
  s ← get;
  if bool_decide (is_Some (valid s !! path)) then mret true
  else
    let '(added, ok) := ensurePath i (valid s) path in
    modify (λ s, mkShared (cl s) (valid s ∪ added) (fetched s ++ [(path, added)]));;
    mret ok.

(** [Cache::completeRefs] *)
Fixpoint complete_each (i : input) (path : string) (refs : list string) : M shared bool :=
  match refs with
  | [] => mret true
  | ref :: refs =>
      ok ← (if bool_decide (ref = path) then mret true else substitute i ref);
      if ok : bool then complete_each i path refs else mret false
  end.
Definition completeRefs (i : input) (info : Item.t) : M shared bool :=
  if remote i then complete_each i (Item.path info) (Item.references info) else mret true.

(** The import of one of [owned]. *)
Definition import_one (i : input) (k : nat) (o : Owned.t) (u : upload) : M shared upload :=
  complete ← completeRefs i (Owned.info o);
  if complete && fine i then
    let path := Item.path (Owned.info o) in
    modify (λ s, mkShared (cl s) (stores i (valid s) path (spool_read (Owned.range o) (spool u))) (fetched s));;
    on_claims (modify (set_promise Kept (Owned.id o)));;
    mret (next_owned i (S k) (have_imported path u))
  else mret (throws NotAdded (unkept k u) u).

Definition upload_step (i : input) (u : upload) : M shared upload :=
  match at_ u with
  | UReading => if fine i || bool_decide (reads u < length (stream u)) then read_one i u else mret (throws BadStream (owned_ids u) u)
  | UAwait k [] => o ← expect Undefined (owned u !! k); import_one i k o u
  | UAwait k (ref :: refs) =>
      s ← get;
      match theirs u !! ref with
      | None => mret (at_point (UAwait k refs) u)
      | Some id =>
          mret match await i ref id (cl s) with
               | Some None => at_point (UAwait k refs) u
               | Some (Some w) => throws w (unkept k u) u
               | None => u
               end
      end
  | URest [] => mret (at_point UReturned u)
  | URest ((path, id) :: rest) =>
      s ← get;
      mret match await i path id (cl s) with
           | Some None => at_point (URest rest) (have_imported path u)
           | Some (Some w) => throws w [] u
           | None => u
           end
  | UDrop [] w => mret (at_point (UThrew w) u)
  | UDrop (id :: ids) w => on_claims (modify (set_promise Dropped id));; mret (at_point (UDrop ids w) u)
  | UReturned | UThrew _ => mret u
  end.

(** ** All uploads *)

Record system := mkSystem { sh : shared; ups : list upload }.
Definition no_uploads (store : gmap string bytes) : system := mkSystem (mkShared (mkClaims [] ∅) store []) [].

Inductive event :=
  | Begin (s : list Item.t)
  | Run (k : nat) (i : input).

Definition step (ev : event) : M system () :=
  match ev with
  | Begin s => modify (λ y, mkSystem (sh y) (ups y ++ [new_upload s]))
  | Run k i =>
      y ← get;
      match ups y !! k with
      | None => mret tt
      | Some u =>
          u' ← zoom sh (λ s y, mkSystem s (ups y)) (upload_step i u);
          modify (λ y, mkSystem (sh y) (<[k := u']> (ups y)))
      end
  end.

(** The references of a path that the stream also brings come before it. *)
Definition sorted (s : list Item.t) : Prop :=
  ∀ (j : nat) item r, s !! j = Some item → r ∈ Item.references item → r ∈ Item.path <$> s →
    r = Item.path item ∨ r ∈ Item.path <$> take j s.

Inductive reachable (P : list Item.t → Prop) (store : gmap string bytes) : system → Prop :=
  | reach_none : reachable P store (no_uploads store)
  | reach_step y ev : reachable P store y → (∀ s, ev = Begin s → P s) → reachable P store (exec (step ev) y).
