(* ===== verification/UploadsSystem.v ===== *)
(** * Concurrent uploads: all of them together *)

From Stdlib Require Import Ascii.
From S2P Require Import Prelude Uploads.

(** * Concurrent uploads: nobody waits forever, and what returned is in the store *)

(** ** Promises *)

Lemma set_promise_of v id c k :
  promise_of (set_promise v id c) k = if decide (k = id) then (if decide (id < length (promises c)) then v else Dropped) else promise_of c k.
Proof.
  unfold promise_of, set_promise. simpl. destruct (decide (k = id)) as [->|Hne].
  - rewrite list_lookup_alter_eq. destruct (decide (id < length (promises c))) as [Hlt|Hge].
    + destruct (lookup_lt_is_Some_2 _ _ Hlt) as [p ->]. done.
    + by rewrite (lookup_ge_None_2 (promises c) id) by lia.
  - by rewrite list_lookup_alter_ne.
Qed.

(** The path a promise was made for. *)
Definition path_of (c : claims) (id : nat) : option string := fst <$> promises c !! id.
Lemma set_promise_path v id c k : path_of (set_promise v id c) k = path_of c k.
Proof.
  unfold path_of, set_promise. simpl. destruct (decide (k = id)) as [->|Hne].
  - rewrite list_lookup_alter_eq. by destruct (promises c !! id).
  - by rewrite list_lookup_alter_ne.
Qed.

(** ** The spool *)

Lemma copy_concat fuel nar : length nar ≤ fuel → concat (copy fuel nar) = nar.
Proof.
  revert nar. induction fuel as [|fuel IH]; intros [|b nar] Hf; try (simpl in *; lia); [done..|].
  cbn [copy]. cbv zeta. set (w := N.to_nat _). assert (1 ≤ w) by (subst w; unfold kChunk; simpl; lia). cbn [concat].
  rewrite IH by (rewrite length_drop; lia). apply take_drop.
Qed.
Lemma foldl_app (file : bytes) l : foldl app file l = file ++ concat l.
Proof. revert file. induction l as [|x l IH]; intros file; simpl; [by rewrite app_nil_r|]. by rewrite IH, <-app_assoc. Qed.
Lemma spool_add_eq nar s : spool_add nar s = (SpoolRange.mk (tail_ s) (length nar), mkSpool (file_ s ++ nar) (tail_ s + length nar)).
Proof. unfold spool_add. by rewrite foldl_app, copy_concat. Qed.

Definition in_spool (r : SpoolRange.t) (s : NarSpool) : Prop := SpoolRange.offset r + SpoolRange.size r ≤ length (file_ s).

(** What was added can be read, and adding more does not change it. *)
Lemma spool_add_read nar s :
  tail_ s = length (file_ s) →
  let '(new, s') := spool_add nar s in
  spool_read new s' = nar ∧ in_spool new s' ∧ tail_ s' = length (file_ s') ∧
  ∀ r, in_spool r s → spool_read r s' = spool_read r s ∧ in_spool r s'.
Proof.
  intros Ht. rewrite spool_add_eq. unfold spool_read, in_spool in *. simpl. rewrite !length_app, Ht, drop_app_length, take_ge by done.
  split_and!; [done|done|done|]. intros r Hr. rewrite drop_app_le, take_app_le by (rewrite ?length_drop; lia). split; [done|lia].
Qed.

(** Reads in any sizes give what is left of the range in order, then its end, and no other error of their own. *)
Lemma range_source_gives file r len got :
  RangeSource.pos_ r ≤ RangeSource.end_ r ≤ length file → 0 < len → 0 < got →
  let rest q := take (RangeSource.end_ q - RangeSource.pos_ q) (drop (RangeSource.pos_ q) file) in
  match range_read file len (Some got) r with
  | (r', Ok data) => data ≠ [] ∧ data ++ rest r' = rest r ∧ RangeSource.pos_ r' ≤ RangeSource.end_ r' ≤ length file
  | (_, Throw e) => e = NixError "end of spooled NAR" ∧ rest r = []
  end.
Proof.
  intros [Hle Hlen] Hl Hg rest. unfold range_read, mbind, M_bind, get. destruct r as [pos stop]. simpl in *. case_bool_decide as Hend.
  { subst. unfold rest. simpl. by rewrite Nat.sub_diag. }
  set (n := Nat.min got _). assert (0 < n ≤ stop - pos) as Hn by (subst n; lia).
  assert (length (take n (drop pos file)) = n) as Hlt by (rewrite length_take, length_drop; lia).
  case_bool_decide as Hemp; [by rewrite Hemp in Hlt; simpl in Hlt; lia|]. unfold modify. simpl. split; [done|]. unfold rest. simpl.
  rewrite Hlt. split; [|lia]. rewrite <-(take_drop n (take (stop - pos) (drop pos file))), take_take, Nat.min_l by lia. f_equal.
  by rewrite skipn_firstn_comm, drop_drop, Nat.sub_add_distr.
Qed.

(** ** The invariant of an upload *)

(** The promises an upload has yet to settle. *)
Definition holds (u : upload) : list nat :=
  match at_ u with
  | UReading => owned_ids u
  | UAwait k _ => unkept k u
  | UDrop ids _ => ids
  | _ => []
  end.

Definition opaths (u : upload) : list string := (λ o, Item.path (Owned.info o)) <$> owned u.
Definition kept (c : claims) (o : Owned.t) : Prop := promise_of c (Owned.id o) = Kept.

Definition point_ok (c : claims) (u : upload) : Prop :=
  match at_ u with
  | UReading => imported u = []
  | UAwait k refs => reads u = length (stream u) ∧ (∃ o, owned u !! k = Some o ∧ refs ⊆ Item.references (Owned.info o)) ∧
      imported u = take k (opaths u) ∧ Forall (kept c) (take k (owned u))
  | URest rest => reads u = length (stream u) ∧ Forall (kept c) (owned u) ∧
      imported u ++ rest.*1 ≡ₚ opaths u ++ (map_to_list (theirs u)).*1 ∧
      (∀ p id, theirs u !! p = Some id → (p, id) ∈ rest ∨ promise_of c id = Kept) ∧ rest ⊆ map_to_list (theirs u)
  | UReturned => reads u = length (stream u) ∧ Forall (kept c) (owned u) ∧
      imported u ≡ₚ opaths u ++ (map_to_list (theirs u)).*1 ∧ (∀ p id, theirs u !! p = Some id → promise_of c id = Kept)
  | UDrop _ _ | UThrew _ => True
  end.

Definition failing (u : upload) : bool := match at_ u with UDrop _ _ | UThrew _ => true | _ => false end.

Record upload_ok (c : claims) (u : upload) : Prop := {
  uo_reads : reads u ≤ length (stream u);
  uo_seen : ∀ p, p ∈ seen u ↔ p ∈ Item.path <$> take (reads u) (stream u);
  uo_owned : ∀ (k : nat) o, owned u !! k = Some o → path_of c (Owned.id o) = Some (Item.path (Owned.info o)) ∧
    Owned.info o ∈ take (reads u) (stream u) ∧ spool_read (Owned.range o) (spool u) = Item.nar (Owned.info o) ∧
    in_spool (Owned.range o) (spool u);
  uo_spool : tail_ (spool u) = length (file_ (spool u));
  uo_rising : ∀ (j k : nat) o o', j < k → owned u !! j = Some o → owned u !! k = Some o' → Owned.id o < Owned.id o';
  uo_theirs : ∀ p id, theirs u !! p = Some id → path_of c id = Some p;
  uo_split : ∀ p, (p ∈ opaths u → p ∈ seen u ∧ theirs u !! p = None) ∧ (is_Some (theirs u !! p) → p ∈ seen u) ∧
    (failing u = false → p ∈ seen u → is_Some (theirs u !! p) ∨ p ∈ opaths u);
  uo_nodup : NoDup (opaths u);
  uo_sorted : sorted (stream u) → ∀ o r id, o ∈ owned u → r ∈ Item.references (Owned.info o) → theirs u !! r = Some id → id < Owned.id o;
  uo_point : point_ok c u;
}.

(** What others may do to the promises an upload knows of. *)
Record later (c c' : claims) : Prop := {
  lt_path : ∀ id p, path_of c id = Some p → path_of c' id = Some p;
  lt_kept : ∀ id, promise_of c id = Kept → promise_of c' id = Kept;
}.
#[export] Instance later_refl : Reflexive later.
Proof. by constructor. Qed.

Lemma point_ok_later c c' u : later c c' → point_ok c u → point_ok c' u.
Proof.
  intros [_ Hk]. assert (∀ l, Forall (kept c) l → Forall (kept c') l) as Hf.
  { intros l Hl. eapply Forall_impl; [exact Hl|]. intros o. apply Hk. }
  unfold point_ok. destruct (at_ u); try done.
  - intros (? & ? & ? & ?). auto.
  - intros (? & ? & ? & Ht & ?). split_and!; auto. intros p id Hp. destruct (Ht p id Hp); auto.
  - intros (? & ? & ? & ?). split_and!; eauto.
Qed.
Lemma upload_ok_later c c' u : later c c' → upload_ok c u → upload_ok c' u.
Proof.
  intros Hl []. pose proof Hl as [Hp _]. constructor; try done.
  - intros k o Hk. destruct (uo_owned0 k o Hk) as (? & ? & ? & ?). auto.
  - auto.
  - by eapply point_ok_later.
Qed.

(** Moving on without touching anything else. *)
Definition goes im p u := mkUpload (stream u) (reads u) (seen u) (spool u) (owned u) (theirs u) im p (log u).
Lemma upload_ok_goes c u im p :
  upload_ok c u → point_ok c (goes im p u) → (failing (goes im p u) = false → failing u = false) → upload_ok c (goes im p u).
Proof. intros [] Hp Hf. constructor; try done. intros q. destruct (uo_split0 q) as (? & ? & ?). split_and!; auto. Qed.
Lemma upload_ok_at c u p : upload_ok c u → point_ok c (at_point p u) → (failing (at_point p u) = false → failing u = false) → upload_ok c (at_point p u).
Proof. apply upload_ok_goes. Qed.

(** ** The claims *)

Record claims_ok (c : claims) : Prop := {
  co_active : ∀ p id, active_ c !! p = Some id → path_of c id = Some p;
  co_unset : ∀ id p, path_of c id = Some p → promise_of c id = Unset → active_ c !! p = Some id;
}.

Definition unset_ids (c : claims) : list nat := filter (λ id, promise_of c id = Unset) (seq 0 (length (promises c))).

Lemma path_of_lt c id p : path_of c id = Some p → id < length (promises c).
Proof. unfold path_of. intros (x & Hx & _)%fmap_Some. by eapply lookup_lt_Some. Qed.

Lemma set_promise_later v id c : promise_of c id = Unset → later c (set_promise v id c).
Proof.
  intros Hu. constructor; intros k; [by rewrite set_promise_path|]. rewrite set_promise_of. destruct (decide (k = id)) as [->|]; [congruence|done].
Qed.
Lemma set_promise_ok v id c : v ≠ Unset → claims_ok c → claims_ok (set_promise v id c).
Proof.
  intros Hv [Ha Hu]. constructor; simpl.
  - intros p k. rewrite set_promise_path. apply Ha.
  - intros k p. rewrite set_promise_path, set_promise_of. intros Hp. destruct (decide (k = id)) as [->|]; [|auto].
    by destruct (decide _).
Qed.
Lemma unset_ids_settle v id c : v ≠ Unset → promise_of c id = Unset → unset_ids c ≡ₚ id :: unset_ids (set_promise v id c).
Proof.
  intros Hv Hu. assert (id < length (promises c)) as Hlt.
  { unfold promise_of in Hu. destruct (promises c !! id) eqn:H; [by eapply lookup_lt_Some|done]. }
  apply NoDup_Permutation.
  - apply NoDup_filter, NoDup_seq.
  - constructor; [|apply NoDup_filter, NoDup_seq]. unfold unset_ids. rewrite list_elem_of_filter, set_promise_of, decide_True by done.
    destruct (decide _); [naive_solver|done].
  - intros k. unfold unset_ids. rewrite elem_of_cons, !list_elem_of_filter, !elem_of_seq, set_promise_of. simpl. rewrite length_alter.
    destruct (decide (k = id)) as [->|]; [|naive_solver]. split; [auto|]. intros _. split; [done|lia].
Qed.

Lemma enter_ok p c :
  claims_ok c → wp (enter p) (λ r c', claims_ok c' ∧ later c c' ∧
    if r.2 : bool then r.1 = length (promises c) ∧ promises c' = promises c ++ [(p, Unset)]
    else promises c' = promises c ∧ path_of c r.1 = Some p) c.
Proof.
  intros [Ha Hu]. unfold enter. wp_steps. set (c0 := mkClaims (promises c) _).
  assert (∀ q id, active_ c0 !! q = Some id ↔ active_ c !! q = Some id ∧ promise_of c id = Unset) as Hact.
  { intros q id. unfold c0, ready. simpl. rewrite map_lookup_filter_Some. simpl. rewrite negb_false_iff, bool_decide_eq_true. done. }
  assert (claims_ok c0) as Hc0.
  { constructor; [intros q id [H _]%Hact; by apply Ha|]. intros id q Hp Hun. apply Hact. split; [by apply Hu|done]. }
  destruct (active_ c0 !! p) as [id|] eqn:Hp; wp_steps; simpl.
  - split_and!; [done|by constructor|done|]. apply Ha. by apply Hact in Hp as [? _].
  - assert (∀ id q, path_of c id = Some q → path_of (mkClaims (promises c ++ [(p, Unset)]) (<[p := length (promises c)]> (active_ c0))) id = Some q ∧
      promise_of (mkClaims (promises c ++ [(p, Unset)]) (<[p := length (promises c)]> (active_ c0))) id = promise_of c id) as Hold.
    { intros id q Hq. pose proof (path_of_lt c id q Hq). unfold path_of, promise_of in *. simpl. by rewrite lookup_app_l. }
    split_and!; [|constructor|done|done].
    + constructor; simpl.
      * intros q id. rewrite lookup_insert_Some. intros [[<- <-]|[_ [Hq _]%Hact]].
        -- unfold path_of. simpl. by rewrite lookup_app_r, Nat.sub_diag by done.
        -- by apply Hold, Ha.
      * intros id q Hq Hun. rewrite lookup_insert_Some. destruct (decide (id < length (promises c))) as [Hlt|Hge].
        -- assert (path_of c id = Some q) as Hq' by (unfold path_of in *; simpl in Hq; by rewrite lookup_app_l in Hq).
           right. destruct (Hold id q Hq') as [_ Hpr].
           assert (active_ c0 !! q = Some id) as Hin by (apply (co_unset c0 Hc0); [done|]; by etrans; [symmetry; exact Hpr|]).
           split; [congruence|done].
        -- left. pose proof (path_of_lt _ _ _ Hq) as Hlt. simpl in Hlt. rewrite length_app in Hlt. simpl in Hlt.
           assert (id = length (promises c)) as -> by lia. unfold path_of in Hq. simpl in Hq.
           rewrite lookup_app_r, Nat.sub_diag in Hq by done. by simplify_eq/=.
    + intros id q Hq. by apply Hold.
    + intros id Hk. unfold promise_of in *. simpl. destruct (promises c !! id) as [x|] eqn:Hx; [|done].
      by rewrite (lookup_app_l_Some _ _ _ _ Hx).
Qed.

(** One promise more. *)
Section NewPromise.
Context (c c' : claims) (p : string) (Hp : promises c' = promises c ++ [(p, Unset)]).

Lemma new_promise id : promise_of c' id = if decide (id = length (promises c)) then Unset else promise_of c id.
Proof.
  unfold promise_of. rewrite Hp. destruct (decide (id = length (promises c))) as [->|].
  - by rewrite lookup_app_r, Nat.sub_diag by done.
  - destruct (decide (id < length (promises c))); [by rewrite lookup_app_l|].
    rewrite lookup_app_r by lia. rewrite (lookup_ge_None_2 (promises c) id) by lia.
    by rewrite (lookup_ge_None_2 [_]) by (simpl; lia).
Qed.
Lemma new_path id : path_of c' id = if decide (id = length (promises c)) then Some p else path_of c id.
Proof.
  unfold path_of. rewrite Hp. destruct (decide (id = length (promises c))) as [->|].
  - by rewrite lookup_app_r, Nat.sub_diag by done.
  - destruct (decide (id < length (promises c))); [by rewrite lookup_app_l|].
    rewrite lookup_app_r by lia. rewrite (lookup_ge_None_2 (promises c) id) by lia.
    by rewrite (lookup_ge_None_2 [_]) by (simpl; lia).
Qed.
Lemma unset_ids_new : unset_ids c' ≡ₚ length (promises c) :: unset_ids c.
Proof.
  apply NoDup_Permutation.
  - apply NoDup_filter, NoDup_seq.
  - constructor; [|apply NoDup_filter, NoDup_seq]. unfold unset_ids. rewrite list_elem_of_filter, elem_of_seq. lia.
  - intros id. unfold unset_ids. rewrite elem_of_cons, !list_elem_of_filter, !elem_of_seq, new_promise, Hp, length_app. simpl.
    destruct (decide (id = length (promises c))) as [->|]; [split; [auto|]; intros _; split; [done|lia]|].
    split; [intros [? ?]; right; split; [done|lia]|intros [?|[? ?]]; [done|split; [done|lia]]].
Qed.
End NewPromise.

(** ** Steps *)

Definition stored (s : shared) : Prop :=
  ∀ id p, path_of (cl s) id = Some p → promise_of (cl s) id = Kept → is_Some (valid s !! p).

Record moved (s s' : shared) (u u' : upload) : Prop := {
  mv_claims : claims_ok (cl s');
  mv_stored : stored s';
  mv_later : later (cl s) (cl s');
  mv_upload : upload_ok (cl s') u';
  mv_stream : stream u' = stream u;
  mv_balance : holds u' ++ unset_ids (cl s) ≡ₚ holds u ++ unset_ids (cl s');
  mv_bytes : ∀ p b, valid s' !! p = Some b →
    valid s !! p = Some b ∨ (∃ item, item ∈ stream u ∧ Item.path item = p ∧ Item.nar item = b) ∨
    ∃ r added, (r, added) ∈ fetched s' ∧ added !! p = Some b;
  mv_fetched : ∀ r added, (r, added) ∈ fetched s' → (r, added) ∈ fetched s ∨ ∃ item, item ∈ stream u ∧ r ∈ Item.references item;
  mv_remembers : fetched s ⊆ fetched s';
}.

(** What the substitution of references does. *)
Record completed (refs : list string) (s s' : shared) : Prop := {
  cp_claims : cl s' = cl s;
  cp_valid : valid s ⊆ valid s';
  cp_bytes : ∀ p b, valid s' !! p = Some b → valid s !! p = Some b ∨ ∃ r added, (r, added) ∈ fetched s' ∧ added !! p = Some b;
  cp_fetched : ∀ r added, (r, added) ∈ fetched s' → (r, added) ∈ fetched s ∨ r ∈ refs;
  cp_remembers : fetched s ⊆ fetched s';
}.
#[export] Instance completed_refl refs : Reflexive (completed refs).
Proof. constructor; auto. Qed.
#[export] Instance completed_trans refs : Transitive (completed refs).
Proof.
  intros s1 s2 s3 [c1 v1 b1 f1 r1] [c2 v2 b2 f2 r2]. constructor; [congruence|by etrans| | |by etrans].
  - intros p b [[?|(r & added & ? & ?)]%b1|?]%b2; [by left| |by right]. right. exists r, added. auto.
  - intros r added [?%f1|?]%f2; [done|by right].
Qed.

Lemma substitute_completes i path refs s : path ∈ refs →
  wp (substitute i path) (λ ok s', completed refs s s' ∧ (ok = true → is_Some (valid s' !! path))) s.
Proof.
  intros Hin. unfold substitute. wp_steps. case_bool_decide as Hv; wp_steps; [done|].
  pose proof (ensurePath_ok i (valid s) path) as Hok. destruct (ensurePath i (valid s) path) as [added ok]. wp_steps. split.
  - constructor; simpl; [done|apply map_union_subseteq_l| | |by intros x Hx; apply elem_of_app; left].
    + intros p b [?|[_ Hb]]%lookup_union_Some_raw; [by left|right]. exists path, added. rewrite elem_of_app, list_elem_of_singleton. auto.
    + intros r a [?|[= -> _]%list_elem_of_singleton]%elem_of_app; auto.
  - intros ->. simpl in *. apply lookup_union_is_Some. by apply Hok.
Qed.

Lemma complete_each_completes i path refs all s : refs ⊆ all →
  wp (complete_each i path refs) (λ ok s', completed all s s' ∧ (ok = true → ∀ r, r ∈ refs → r ≠ path → is_Some (valid s' !! r))) s.
Proof.
  revert s. induction refs as [|ref refs IH]; intros s Hsub; cbn [complete_each].
  { wp_steps. split; [done|]. by intros _ r ?%elem_of_nil. }
  assert (ref ∈ all ∧ refs ⊆ all) as [Hin Hsub'] by (split; [apply Hsub; left|intros x Hx; apply Hsub; by right]).
  apply wp_bind. apply wp_mono with (λ ok s', completed all s s' ∧ (ok = true → ref ≠ path → is_Some (valid s' !! ref))).
  { case_bool_decide; [by wp_steps|]. eapply wp_mono; [by apply substitute_completes|]. naive_solver. }
  intros ok s1 [Hc1 Hr1]. destruct ok; [|by wp_steps]. eapply wp_mono; [by apply IH|]. intros ok s2 [Hc2 Hr2].
  split; [by etrans|]. intros Hok r [->|Hr]%elem_of_cons Hne; [|by apply Hr2].
  destruct (Hr1 eq_refl Hne) as [b Hb]. exists b. by eapply lookup_weaken; [|apply Hc2].
Qed.

(** With a cache the references of a path are in the store when it is added. *)
Lemma completeRefs_completes i info s :
  wp (completeRefs i info) (λ ok s', completed (Item.references info) s s' ∧
    (ok = true → remote i = true → ∀ r, r ∈ Item.references info → r ≠ Item.path info → is_Some (valid s' !! r))) s.
Proof.
  unfold completeRefs. destruct (remote i); [|by wp_steps].
  eapply wp_mono; [by apply complete_each_completes|]. naive_solver.
Qed.

Lemma completed_moved item s s1 s' u u' :
  item ∈ stream u → completed (Item.references item) s s1 → moved s1 s' u u' → moved s s' u u'.
Proof.
  intros Hin [cc cv cb cf cr] []. rewrite cc in *. constructor; try done.
  - intros p b [[?|(r & added & ? & ?)]%cb|[?|?]]%mv_bytes0; auto. right. right. exists r, added. auto.
  - intros r added [[?|?]%cf|?]%mv_fetched0; eauto.
  - by etrans.
Qed.

Section Steps.
Context (s : shared) (Hc : claims_ok (cl s)) (Hst : stored s).

Lemma moved_same u u' : upload_ok (cl s) u' → stream u' = stream u → holds u' = holds u → moved s s u u'.
Proof. intros Hu Hs Hh. constructor; try done; [by rewrite Hh|auto..]. Qed.

Lemma throws_moved u w ids : upload_ok (cl s) u → ids = holds u → moved s s u (throws w ids u).
Proof. intros Hu Hh. apply moved_same; [|done|done]. by apply upload_ok_at. Qed.

Lemma next_owned_ok c i k im u :
  upload_ok c u → failing u = false → reads u = length (stream u) → im = take k (opaths u) → Forall (kept c) (take k (owned u)) →
  let u' := next_owned i k (goes im (at_ u) u) in
  upload_ok c u' ∧ stream u' = stream u ∧ holds u' = unkept k u.
Proof.
  intros Hu Hf Hr Him Hk. unfold next_owned. cbn [owned goes]. destruct (owned u !! k) as [o|] eqn:Ho.
  - split; [|done]. apply (upload_ok_goes c u im (UAwait k _)); [done| |done]. split_and!; [done|by exists o|done|done].
  - apply lookup_ge_None in Ho. split_and!; [|done|].
    + apply (upload_ok_goes c u im (URest _)); [done| |done]. rewrite take_ge in Hk by lia. rewrite take_ge in Him by (unfold opaths; rewrite length_fmap; lia).
      unfold point_ok. simpl. pose proof (order_perm i (theirs u)) as Hp.
      split_and!; [done|done|rewrite Him; apply Permutation_app_head; by rewrite Hp| |].
      * intros p id Hpi. left. rewrite Hp. by apply elem_of_map_to_list.
      * intros x. by rewrite Hp.
    + unfold holds, unkept, owned_ids. simpl. rewrite drop_ge; [done|]. rewrite length_fmap. lia.
Qed.

(** The upload has read one more path, which was new. *)
Lemma seen_more u item p :
  upload_ok (cl s) u → stream u !! reads u = Some item → p ∈ {[Item.path item]} ∪ seen u ↔ p ∈ Item.path <$> take (S (reads u)) (stream u).
Proof.
  intros Hu Hi. rewrite (take_S_r _ _ _ Hi), fmap_app, elem_of_app, elem_of_union, elem_of_singleton, (uo_seen _ _ Hu).
  simpl. rewrite list_elem_of_singleton. tauto.
Qed.

Lemma sorted_fresh u item o :
  sorted (stream u) → upload_ok (cl s) u → at_ u = UReading → stream u !! reads u = Some item → Item.path item ∉ seen u → o ∈ owned u →
  Item.path item ∉ Item.references (Owned.info o).
Proof.
  intros Hs Hu Hat Hi Hn Ho Hr. apply Hn. apply list_elem_of_lookup in Ho as [k Ho].
  destruct (uo_owned _ _ Hu k o Ho) as (_ & Hin & _). apply list_elem_of_lookup in Hin as [j Hj].
  apply lookup_take_Some in Hj as [Hj Hlt]. apply (uo_seen _ _ Hu).
  assert (Item.path item ∈ Item.path <$> stream u) as Hps by (apply list_elem_of_fmap_2; by eapply list_elem_of_lookup_2).
  destruct (Hs j _ _ Hj Hr Hps) as [->|Hb].
  - apply list_elem_of_fmap_2. apply list_elem_of_lookup. exists j. by apply lookup_take_Some.
  - revert Hb. rewrite !list_elem_of_fmap. intros (x & -> & Hx). exists x. split; [done|].
    apply elem_of_take in Hx as (k' & Hk' & ?). apply elem_of_take. exists k'. split; [done|lia].
Qed.

(** The path is the upload's to import. *)
Lemma own_moved u item c' :
  at_ u = UReading → upload_ok (cl s) u → stream u !! reads u = Some item → Item.path item ∉ seen u →
  claims_ok c' → later (cl s) c' → promises c' = promises (cl s) ++ [(Item.path item, Unset)] →
  let id := length (promises (cl s)) in
  let '(range, sp) := spool_add (Item.nar item) (spool u) in
  moved s (mkShared c' (valid s) (fetched s)) u (mkUpload (stream u) (S (reads u)) ({[Item.path item]} ∪ seen u) sp (owned u ++ [Owned.mk item id range])
    (theirs u) (imported u) (at_ u) (log u ++ [(Item.path item, id, true)])).
Proof.
  intros Hat Hu Hi Hn Hc' Hl Hp id. pose proof (spool_add_read (Item.nar item) (spool u) (uo_spool _ _ Hu)) as Hsp.
  destruct (spool_add _ _) as [range sp]. destruct Hsp as (Hnew & Hspooled & Htail & Hold).
  assert (∀ k o, (owned u ++ [Owned.mk item id range]) !! k = Some o →
    (owned u !! k = Some o ∧ Owned.id o < id) ∨ (k = length (owned u) ∧ o = Owned.mk item id range)) as Hown.
  { intros k o [[_ Hk]|[-> <-]]%lookup_snoc_Some; [left|by right]. split; [done|].
    destruct (uo_owned _ _ Hu k o Hk) as (Hpo & _). by eapply path_of_lt. }
  pose proof (upload_ok_later _ _ _ Hl Hu) as Hu'. constructor; simpl; [done| |done| |done| |auto..].
  - intros k q. simpl. rewrite (new_path _ _ _ Hp), (new_promise _ _ _ Hp). destruct (decide _); [done|]. apply Hst.
  - constructor; simpl; [..|done| | | | | |].
    + by apply lookup_lt_Some in Hi.
    + intros p. by apply seen_more.
    + intros k o [[Hk _]|[-> ->]]%Hown; simpl; rewrite (take_S_r _ _ _ Hi), elem_of_app, ?list_elem_of_singleton.
      * destruct (uo_owned _ _ Hu' k o Hk) as (? & Ho & Hrd & Hle). destruct (Hold _ Hle) as [-> ?]. by split_and!; [|left|..].
      * rewrite (new_path _ _ _ Hp), decide_True by done. by split_and!; [|right|..].
    + intros j k o o' Hjk [[Hj Hlt]|[-> ->]]%Hown [[Hk _]|[-> ->]]%Hown; simpl.
      * exact (uo_rising _ _ Hu j k o o' Hjk Hj Hk).
      * done.
      * apply lookup_lt_Some in Hk. lia.
      * lia.
    + apply Hu'.
    + intros p. unfold opaths. simpl. rewrite fmap_app, elem_of_app. simpl. rewrite list_elem_of_singleton.
      destruct (uo_split _ _ Hu p) as (H1 & H2 & H3). assert (theirs u !! Item.path item = None) as Hnone.
      { destruct (theirs u !! Item.path item) eqn:Ht; [|done]. destruct Hn. apply (uo_split _ _ Hu). by rewrite Ht. }
      split_and!.
      * intros [Hin| ->]; [destruct (H1 Hin); split; [set_solver|done]|split; [set_solver|done]].
      * set_solver.
      * unfold failing in *. simpl in *. rewrite Hat in *. intros _ [Hin%elem_of_singleton|Hin]%elem_of_union; [auto|].
        destruct (H3 eq_refl Hin); auto.
    + unfold opaths. simpl. rewrite fmap_app. apply NoDup_app. split_and!; [apply Hu| |apply NoDup_singleton].
      intros p Hin Hp'. apply list_elem_of_singleton in Hp'. subst p. simpl in Hin. destruct (uo_split _ _ Hu (Item.path item)) as (H1 & _).
      by destruct (H1 Hin).
    + intros Hs o r k [Ho|Ho]%elem_of_app Hr Ht; [by eapply (uo_sorted _ _ Hu)|].
      apply list_elem_of_singleton in Ho. subst o. simpl.
      eapply path_of_lt. by apply (uo_theirs _ _ Hu).
    + pose proof (uo_point _ _ Hu) as Hpt. unfold point_ok in *. simpl. by rewrite Hat in *.
  - unfold holds, owned_ids. simpl. rewrite Hat, (unset_ids_new _ _ _ Hp), fmap_app. simpl. by rewrite <-app_assoc.
Qed.

(** A path was read, and nothing came of it; or it was one already seen. *)
Lemma read_ok c u item ids w lg :
  later (cl s) c → upload_ok (cl s) u → stream u !! reads u = Some item →
  upload_ok c (mkUpload (stream u) (S (reads u)) ({[Item.path item]} ∪ seen u) (spool u) (owned u) (theirs u) (imported u) (UDrop ids w) lg).
Proof.
  intros Hl Hu Hi. pose proof (upload_ok_later _ _ _ Hl Hu) as Hu'. constructor; simpl; try apply Hu'.
  - by apply lookup_lt_Some in Hi.
  - intros p. by apply seen_more.
  - intros k o Hk. destruct (uo_owned _ _ Hu' k o Hk) as (? & ? & ? & ?). split_and!; try done.
    rewrite (take_S_r _ _ _ Hi), elem_of_app. by left.
  - intros p. destruct (uo_split _ _ Hu p) as (H1 & H2 & _). unfold opaths in *. simpl. split_and!; [|set_solver|done].
    intros Hin. destruct (H1 Hin). split; [set_solver|done].
  - done.
Qed.

Lemma repeat_moved u item lg :
  at_ u = UReading → upload_ok (cl s) u → stream u !! reads u = Some item → Item.path item ∈ seen u →
  moved s s u (mkUpload (stream u) (S (reads u)) (seen u) (spool u) (owned u) (theirs u) (imported u) (at_ u) lg).
Proof.
  intros Hat Hu Hi Hn. apply moved_same; [|done|done]. pose proof (read_ok (cl s) u item [] BadStream lg) as [].
  { done. } { done. } { done. }
  constructor; simpl in *; try done.
  - intros p. rewrite <-uo_seen0. set_solver.
  - intros p. apply (uo_split _ _ Hu).
  - pose proof (uo_point _ _ Hu) as Hpt. unfold point_ok in *. simpl. by rewrite Hat in *.
Qed.

Lemma theirs_moved u item id c' :
  at_ u = UReading → upload_ok (cl s) u → stream u !! reads u = Some item → Item.path item ∉ seen u →
  claims_ok c' → later (cl s) c' → promises c' = promises (cl s) → path_of (cl s) id = Some (Item.path item) →
  moved s (mkShared c' (valid s) (fetched s)) u (mkUpload (stream u) (S (reads u)) ({[Item.path item]} ∪ seen u) (spool u) (owned u)
    (<[Item.path item := id]> (theirs u)) (imported u) (at_ u) (log u ++ [(Item.path item, id, false)])).
Proof.
  intros Hat Hu Hi Hn Hc' Hl Hp Hid. pose proof (read_ok c' u item [] BadStream (log u) Hl Hu Hi) as [].
  constructor; simpl in *; [done| |done| |done| |auto..].
  - intros k q. unfold path_of, promise_of. simpl. rewrite Hp. apply Hst.
  - constructor; simpl in *; try done.
    + intros p k. rewrite lookup_insert_Some. intros [[<- <-]|[_ Ht]]; [by apply Hl|by apply uo_theirs0].
    + intros p. destruct (uo_split _ _ Hu p) as (H1 & H2 & H3). unfold opaths, failing in *. simpl in *. rewrite Hat in *. split_and!.
      * intros Hin. destruct (H1 Hin) as [Hs Ht]. rewrite lookup_insert_ne; [split; [set_solver|done]|]. by intros <-.
      * rewrite lookup_insert_is_Some'. intros [<-|?]; set_solver.
      * rewrite lookup_insert_is_Some'. intros _ [Hin%elem_of_singleton|Hin]%elem_of_union; [by left; left|]. destruct (H3 eq_refl Hin); auto.
    + intros Hs o r k Ho Hr. rewrite lookup_insert_Some. intros [[<- <-]|[_ Ht]]; [|by eapply (uo_sorted _ _ Hu)].
      exfalso. by eapply sorted_fresh.
    + pose proof (uo_point _ _ Hu) as Hpt. unfold point_ok in *. simpl. by rewrite Hat in *.
  - unfold holds, unset_ids, promise_of, owned_ids. simpl. by rewrite Hp.
Qed.

Lemma read_failed_moved u item ids w lg c' :
  at_ u = UReading → upload_ok (cl s) u → stream u !! reads u = Some item → claims_ok c' → later (cl s) c' →
  (promises c' = promises (cl s) ∧ ids = owned_ids u ∨
   promises c' = promises (cl s) ++ [(Item.path item, Unset)] ∧ ids = length (promises (cl s)) :: owned_ids u) →
  moved s (mkShared c' (valid s) (fetched s)) u (mkUpload (stream u) (S (reads u)) ({[Item.path item]} ∪ seen u) (spool u) (owned u)
    (theirs u) (imported u) (UDrop ids w) lg).
Proof.
  intros Hat Hu Hi Hc' Hl Hp. constructor; simpl; [done| |done|by apply read_ok|done| |auto..].
  - intros k q. simpl. destruct Hp as [[Hp _]|[Hp _]].
    + unfold path_of, promise_of. rewrite Hp. apply Hst.
    + rewrite (new_path _ _ _ Hp), (new_promise _ _ _ Hp). destruct (decide _); [done|]. apply Hst.
  - unfold holds. simpl. rewrite Hat. destruct Hp as [[Hp ->]|[Hp ->]].
    + unfold unset_ids, promise_of. by rewrite Hp.
    + rewrite (unset_ids_new _ _ _ Hp). by rewrite <-Permutation_middle.
Qed.

(** ** Settling *)

Lemma import_moved i k o u :
  at_ u = UAwait k [] → owned u !! k = Some o → upload_ok (cl s) u → (∀ id, id ∈ holds u → promise_of (cl s) id = Unset) →
  let path := Item.path (Owned.info o) in
  let v := stores i (valid s) path (spool_read (Owned.range o) (spool u)) in
  moved s (mkShared (set_promise Kept (Owned.id o) (cl s)) v (fetched s)) u (next_owned i (S k) (have_imported path u)).
Proof.
  intros Hat Ho Hu Hun path v. destruct (uo_owned _ _ Hu k o Ho) as (Hpath & Hin & Hrd & _).
  destruct (stores_ok i (valid s) path (spool_read (Owned.range o) (spool u))) as [Hv Hoth]. fold v in Hv, Hoth.
  assert (holds u = Owned.id o :: unkept (S k) u) as Hh.
  { unfold holds. rewrite Hat. unfold unkept, owned_ids. rewrite (drop_S _ (Owned.id o) k); [done|]. by rewrite list_lookup_fmap, Ho. }
  assert (promise_of (cl s) (Owned.id o) = Unset) as Hset by (apply Hun; rewrite Hh; by left).
  pose proof (set_promise_later Kept (Owned.id o) (cl s) Hset) as Hl.
  assert (promise_of (set_promise Kept (Owned.id o) (cl s)) (Owned.id o) = Kept) as Hkept.
  { rewrite set_promise_of, decide_True, decide_True by (done || by eapply path_of_lt). done. }
  pose proof (uo_point _ _ Hu) as Hpt. unfold point_ok in Hpt. rewrite Hat in Hpt. destruct Hpt as (Hr & _ & Him & Hk).
  destruct (next_owned_ok (set_promise Kept (Owned.id o) (cl s)) i (S k) (imported u ++ [path]) u) as (Hok & Hs & Hho).
  - by eapply upload_ok_later.
  - unfold failing. by rewrite Hat.
  - done.
  - rewrite Him. unfold opaths. rewrite (take_S_r _ k (Item.path (Owned.info o))); [done|]. by rewrite list_lookup_fmap, Ho.
  - rewrite (take_S_r _ _ _ Ho). apply Forall_app. split; [|by constructor].
    eapply Forall_impl; [exact Hk|]. intros o' Ho'. by apply Hl.
  - constructor; simpl.
    + by apply set_promise_ok.
    + intros id q. simpl. rewrite set_promise_path, set_promise_of. intros Hq Hkp. destruct (decide (q = path)) as [->|Hne].
      { destruct Hv as [->|[? ->]]; [by eexists|done]. }
      rewrite Hoth by done. destruct (decide (id = Owned.id o)) as [->|]; [destruct Hne; unfold path; congruence|]. by eapply Hst.
    + done.
    + done.
    + done.
    + unfold have_imported. change (holds (next_owned i (S k) _)) with (holds (next_owned i (S k) (goes (imported u ++ [path]) (at_ u) u))).
      rewrite Hho, Hh, (unset_ids_settle Kept (Owned.id o) (cl s)) by done. symmetry. apply Permutation_middle.
    + intros q b Hq. destruct (decide (q = path)) as [->|Hne]; [|left; by rewrite <-Hoth].
      destruct Hv as [Hv|[_ Hv]]; rewrite Hv in Hq; [|by left]. right. left. simplify_eq. exists (Owned.info o).
      split_and!; [by eapply subseteq_take|done|done].
    + auto.
    + done.
Qed.

Lemma drop_moved u id ids w :
  at_ u = UDrop (id :: ids) w → upload_ok (cl s) u → promise_of (cl s) id = Unset →
  moved s (mkShared (set_promise Dropped id (cl s)) (valid s) (fetched s)) u (at_point (UDrop ids w) u).
Proof.
  intros Hat Hu Hset. pose proof (set_promise_later Dropped id (cl s) Hset) as Hl. constructor; simpl; [| | | |done| |auto..].
  - by apply set_promise_ok.
  - intros k q. simpl. rewrite set_promise_path, set_promise_of. intros Hq. destruct (decide (k = id)); [by destruct (decide _)|]. by apply Hst.
  - done.
  - apply upload_ok_at; [by eapply upload_ok_later|done|done].
  - unfold holds. simpl. rewrite Hat, (unset_ids_settle Dropped id (cl s)) by done. symmetry. apply Permutation_middle.
Qed.

Lemma read_one_ok i u : at_ u = UReading → upload_ok (cl s) u → wp (read_one i u) (λ u' s', moved s s' u u') s.
Proof.
  intros Hat Hu. pose proof (uo_point _ _ Hu) as Hpt. unfold point_ok in Hpt. rewrite Hat in Hpt.
  assert (mkShared (cl s) (valid s) (fetched s) = s) as Es by by destruct s.
  unfold read_one. destruct (stream u !! reads u) as [item|] eqn:Hi.
  2:{ wp_steps. destruct (next_owned_ok (cl s) i 0 (imported u) u) as (Hok & Hs & Hh); try done.
      - unfold failing. by rewrite Hat.
      - pose proof (uo_reads _ _ Hu). apply lookup_ge_None in Hi. lia.
      - apply moved_same; [done|done|]. unfold holds at 2. rewrite Hat. exact Hh. }
  cbn [seen]. case_bool_decide as Hin.
  - wp_steps. destruct (fine i); [by eapply repeat_moved|].
    pose proof (read_failed_moved u item (owned_ids u) BadStream (log u) (cl s) Hat Hu Hi Hc) as H. rewrite Es in H.
    replace ({[Item.path item]} ∪ seen u) with (seen u) in H by set_solver. apply H; [done|by left].
  - apply wp_bind. unfold on_claims. apply wp_zoom. eapply wp_mono; [by apply enter_ok|].
    intros [id owner] c' (Hc' & Hl & Hp). cbn [fst snd] in Hp. destruct owner.
    + destruct Hp as [-> Hp]. destruct (fine i); wp_steps.
      * pose proof (own_moved u item c' Hat Hu Hi Hin Hc' Hl Hp) as Hm. cbn [spool]. destruct (spool_add _ _). by wp_steps.
      * apply (read_failed_moved u item _ NotSpooled); try done. by right.
    + destruct Hp as [Hp Hid]. wp_steps. destruct (fine i).
      * exact (theirs_moved u item id c' Hat Hu Hi Hin Hc' Hl Hp Hid).
      * apply (read_failed_moved u item _ BadStream); try done. by left.
Qed.

Lemma await_moved i p id u pt :
  upload_ok (cl s) u → (promise_of (cl s) id = Kept → moved s s u pt) →
  moved s s u match await i p id (cl s) with
              | Some None => pt
              | Some (Some w) => throws w (holds u) u
              | None => u
              end.
Proof.
  intros Hu Hpt. unfold await. destruct (promise_of (cl s) id); [destruct (cancelled i)|..]; auto using throws_moved, moved_same.
Qed.

Lemma rest_moved u p id rest :
  at_ u = URest ((p, id) :: rest) → upload_ok (cl s) u → promise_of (cl s) id = Kept →
  moved s s u (at_point (URest rest) (have_imported p u)).
Proof.
  intros Hat Hu Hk. apply moved_same; [|done|by unfold holds; rewrite Hat].
  apply (upload_ok_goes _ u (imported u ++ [p]) (URest rest)); [done| |by unfold failing; rewrite Hat].
  pose proof (uo_point _ _ Hu) as Hpt. unfold point_ok in *. rewrite Hat in Hpt. destruct Hpt as (Hr & Ho & Him & Hth & Hsub). simpl.
  split_and!; [done|done| | |].
  - by rewrite <-app_assoc.
  - intros q id' Hq. destruct (Hth q id' Hq) as [[[= -> ->]|?]%elem_of_cons|]; auto.
  - intros x Hx. apply Hsub. by right.
Qed.

End Steps.

Lemma import_one_ok s i k o u :
  claims_ok (cl s) → stored s → at_ u = UAwait k [] → owned u !! k = Some o → upload_ok (cl s) u →
  (∀ id, id ∈ holds u → promise_of (cl s) id = Unset) → wp (import_one i k o u) (λ u' s', moved s s' u u') s.
Proof.
  intros Hc Hst Hat Ho Hu Hun. unfold import_one. apply wp_bind. eapply wp_mono; [apply completeRefs_completes|].
  intros complete s1 [Hcp _]. pose proof (cp_claims _ _ _ Hcp) as Hcl.
  assert (stored s1) as Hst1.
  { intros id p. rewrite Hcl. intros Hp [b Hb]%(Hst id p Hp). exists b. by eapply lookup_weaken; [|apply Hcp]. }
  assert (Owned.info o ∈ stream u) as Hin by (eapply subseteq_take, (uo_owned _ _ Hu k o Ho)).
  eapply wp_mono; [|intros u' s'; by apply (completed_moved (Owned.info o) s s1)]. rewrite <-Hcl in Hc, Hu, Hun.
  destruct (complete && fine i); wp_steps.
  - unfold on_claims. apply wp_zoom. wp_steps. simpl. by apply import_moved.
  - apply throws_moved; [done..|]. unfold holds. by rewrite Hat.
Qed.

Section UploadStep.
Context (s : shared) (Hc : claims_ok (cl s)) (Hst : stored s).

Lemma upload_step_ok i u :
  upload_ok (cl s) u → (∀ id, id ∈ holds u → promise_of (cl s) id = Unset) →
  wp (upload_step i u) (λ u' s', moved s s' u u') s.
Proof.
  intros Hu Hun. pose proof (uo_point _ _ Hu) as Hpt. unfold point_ok in Hpt. unfold upload_step.
  destruct (at_ u) as [|k refs|rest|ids w| |w] eqn:Hat.
  - destruct (_ || _); [by apply (read_one_ok s Hc Hst)|]. wp_steps. apply (throws_moved s Hc Hst); [done|]. unfold holds. by rewrite Hat.
  - destruct Hpt as (Hr & (o & Ho & Hsub) & Him & Hk).
    assert (unkept k u = holds u) as Hh by (unfold holds; by rewrite Hat). destruct refs as [|ref refs].
    + eapply wp_bind, wp_expect; [exact Ho|]. by apply import_one_ok.
    + assert (moved s s u (at_point (UAwait k refs) u)) as Hnext.
      { apply (moved_same s Hc Hst); [|done|by unfold holds; rewrite Hat]. apply upload_ok_at; [done| |by unfold failing; rewrite Hat].
        split_and!; [done| |done|done]. exists o. split; [done|]. intros x Hx. apply Hsub. by right. }
      wp_steps. destruct (theirs u !! ref) as [id|]; wp_steps; [|done]. rewrite Hh. by apply (await_moved s Hc Hst).
  - destruct rest as [|[p id] rest]; wp_steps.
    + apply (moved_same s Hc Hst); [|done|by unfold holds; rewrite Hat]. apply upload_ok_at; [done| |by unfold failing; rewrite Hat].
      destruct Hpt as (? & ? & Him & Hth & _). rewrite app_nil_r in Him. split_and!; [done..|]. intros p id Hp.
      destruct (Hth p id Hp) as [[]%elem_of_nil|]; done.
    + assert (holds u = []) as <- by (unfold holds; by rewrite Hat). apply (await_moved s Hc Hst); [done|]. by apply (rest_moved s Hc Hst).
  - destruct ids as [|id ids]; wp_steps.
    + apply (moved_same s Hc Hst); [|done|by unfold holds; rewrite Hat]. by apply upload_ok_at.
    + unfold on_claims. apply wp_zoom. wp_steps. apply (drop_moved s Hc Hst) with (id:=id); [done|done|]. apply Hun. unfold holds. rewrite Hat. by left.
  - wp_steps. by apply (moved_same s Hc Hst).
  - wp_steps. by apply (moved_same s Hc Hst).
Qed.
End UploadStep.

Definition all_holds (y : system) : list nat := ups y ≫= holds.

(** Some upload brings these contents for a path. *)
Definition brought (y : system) (p : string) (b : bytes) : Prop :=
  ∃ u item, u ∈ ups y ∧ item ∈ stream u ∧ Item.path item = p ∧ Item.nar item = b.

(** Some upload brings a path that refers to this one. *)
Definition asked_for (y : system) (r : string) : Prop := ∃ u item, u ∈ ups y ∧ item ∈ stream u ∧ r ∈ Item.references item.

(** The store substituted these contents, when it was asked for a reference. *)
Definition substituted (y : system) (p : string) (b : bytes) : Prop :=
  ∃ r added, (r, added) ∈ fetched (sh y) ∧ added !! p = Some b ∧ asked_for y r.

Lemma stream_kept y (k : nat) u u' s' v :
  ups y !! k = Some u → stream u' = stream u → v ∈ ups y → ∃ v', v' ∈ ups (mkSystem s' (<[k := u']> (ups y))) ∧ stream v' = stream v.
Proof.
  intros Hk Hs [j Hj]%list_elem_of_lookup. destruct (decide (j = k)) as [->|Hne].
  - exists u'. split; [|congruence]. apply list_elem_of_lookup. exists k. apply list_lookup_insert_eq. by eapply lookup_lt_Some.
  - exists v. split; [|done]. apply list_elem_of_lookup. exists j. simpl. by rewrite list_lookup_insert_ne.
Qed.

Record sys_inv (store : gmap string bytes) (y : system) : Prop := {
  si_claims : claims_ok (cl (sh y));
  si_stored : stored (sh y);
  si_uploads : Forall (upload_ok (cl (sh y))) (ups y);
  si_holds : all_holds y ≡ₚ unset_ids (cl (sh y));
  si_bytes : ∀ p b, valid (sh y) !! p = Some b → store !! p = Some b ∨ brought y p b ∨ substituted y p b;
  si_fetched : ∀ r added, (r, added) ∈ fetched (sh y) → asked_for y r;
}.

Lemma unset_ids_in c id : id ∈ unset_ids c → promise_of c id = Unset.
Proof. unfold unset_ids. rewrite list_elem_of_filter. tauto. Qed.

Lemma ups_split y (k : nat) u : ups y !! k = Some u → all_holds y ≡ₚ holds u ++ (delete k (ups y) ≫= holds).
Proof. intros Hk. unfold all_holds. pose proof (delete_Permutation (ups y) k u Hk) as H.
  revert H. generalize (delete k (ups y)). intros rest H. by rewrite H.
Qed.

Lemma held_unset store y (k : nat) u id : sys_inv store y → ups y !! k = Some u → id ∈ holds u → promise_of (cl (sh y)) id = Unset.
Proof.
  intros Hi Hk Hin. apply unset_ids_in. rewrite <-(si_holds _ _ Hi), (ups_split y k u Hk), elem_of_app. by left.
Qed.

Lemma delete_inserted {A} (l : list A) (k : nat) x : delete k (<[k := x]> l) = delete k l.
Proof. revert k. induction l as [|y l IH]; intros [|k]; simpl; [done..|]. f_equal. apply IH. Qed.

Lemma uploads_run_ok store y (k : nat) i u :
  sys_inv store y → ups y !! k = Some u →
  wp (step (Run k i)) (λ _ y', sys_inv store y' ∧ ∃ u' s', y' = mkSystem s' (<[k := u']> (ups y)) ∧ upload_step i u (sh y) = (s', Ok u') ∧ stream u' = stream u) y.
Proof.
  intros Hi Hk. pose proof (Forall_lookup_1 _ _ _ _ (si_uploads _ _ Hi) Hk) as Hu.
  destruct (upload_step_ok (sh y) (si_claims _ _ Hi) (si_stored _ _ Hi) i u Hu) as (u' & s' & Hstep & Hm).
  { intros id. by eapply held_unset. }
  unfold step. wp_steps. rewrite Hk. exists tt, (mkSystem s' (<[k := u']> (ups y))). split.
  { unfold mbind, M_bind, zoom. by rewrite Hstep. }
  split; [|by exists u', s'; split_and!; [..|apply Hm]].
  assert (k < length (ups y)) as Hlt by by eapply lookup_lt_Some. destruct Hm as [mvc mvs mvl mvu mvst mvba mvby mvf mvre].
  assert (∀ p b, brought y p b → brought (mkSystem s' (<[k := u']> (ups y))) p b) as Hbrought.
  { intros p b (v & item & Hv & H). destruct (stream_kept y k u u' s' v Hk mvst Hv) as (v' & ? & Hs). exists v', item. by rewrite Hs. }
  assert (∀ r, asked_for y r → asked_for (mkSystem s' (<[k := u']> (ups y))) r) as Hasked.
  { intros r (v & item & Hv & H). destruct (stream_kept y k u u' s' v Hk mvst Hv) as (v' & ? & Hs). exists v', item. by rewrite Hs. }
  assert (u' ∈ <[k := u']> (ups y)) as Hmine by (apply list_elem_of_lookup; exists k; by apply list_lookup_insert_eq).
  assert (∀ r added, (r, added) ∈ fetched s' → asked_for (mkSystem s' (<[k := u']> (ups y))) r) as Hfetched.
  { intros r added [Hr|(item & ? & ?)]%mvf; [eauto using si_fetched|]. exists u', item. by rewrite mvst. }
  constructor; simpl; [done|done|..].
  - apply Forall_insert; [|done]. eapply Forall_impl; [apply (si_uploads _ _ Hi)|]. intros v. by apply upload_ok_later.
  - rewrite (ups_split (mkSystem s' (<[k := u']> (ups y))) k u') by by apply list_lookup_insert_eq. simpl. rewrite delete_inserted.
    apply (Permutation_app_inv_l (holds u)). rewrite <-mvba, (Permutation_app_comm (holds u')), <-(si_holds _ _ Hi), (ups_split y k u Hk).
    solve_Permutation.
  - intros p b [Hb|[(item & ?)|(r & added & Hr & Ha)]]%mvby.
    + destruct (si_bytes _ _ Hi p b Hb) as [?|[Hbr|(r & added & Hr & Ha & Has)]]; [by left|right; left; eauto|right; right].
      exists r, added. split_and!; [by apply mvre|done|eauto].
    + right. left. exists u', item. rewrite mvst. split; [done|naive_solver].
    + right. right. exists r, added. eauto.
  - done.
Qed.

Lemma event_ok store y ev : sys_inv store y → wp (step ev) (λ _, sys_inv store) y.
Proof.
  intros Hi. destruct ev as [st|k i].
  - unfold step. wp_steps. destruct Hi. constructor; simpl; try done.
    + apply Forall_app. split; [done|]. constructor; [|constructor]. constructor; simpl; try done; try lia.
      * intros p. rewrite elem_of_nil. set_solver.
      * intros p. unfold opaths. simpl. rewrite elem_of_nil, lookup_empty. split_and!; [done|by intros []|set_solver].
      * constructor.
    + unfold all_holds in *. simpl. rewrite bind_app. simpl. by rewrite app_nil_r.
    + assert (∀ r, asked_for y r → asked_for (mkSystem (sh y) (ups y ++ [new_upload st])) r) as Hasked.
      { intros r (u & item & ? & ?). exists u, item. split; [by apply elem_of_app; left|done]. }
      intros p b [?|[(u & item & ? & ?)|(r & added & ? & ? & ?)]]%si_bytes0; [by left|right; left|right; right].
      * exists u, item. split; [by apply elem_of_app; left|done].
      * exists r, added. auto.
    + intros r added (u & item & ? & ?)%si_fetched0. exists u, item. split; [by apply elem_of_app; left|done].
  - destruct (ups y !! k) as [u|] eqn:Hk.
    + eapply wp_mono; [by eapply uploads_run_ok|]. by intros ? ? [? _].
    + unfold step. wp_steps. rewrite Hk. by wp_steps.
Qed.

Lemma uploads_reachable_inv P store y : reachable P store y → sys_inv store y.
Proof.
  induction 1 as [|y ev _ Hi]; [|by destruct (wp_exec _ _ _ (event_ok store y ev Hi)) as (? & ? & ?)].
  constructor; simpl; try done; [by left|]. by intros r added ?%elem_of_nil.
Qed.
Lemma uploads_reachable_streams P store y : reachable P store y → Forall (λ u, P (stream u)) (ups y).
Proof.
  induction 1 as [|y ev Hr IH HP]; [by constructor|]. pose proof (uploads_reachable_inv _ _ _ Hr) as Hi. destruct ev as [st|k i].
  - unfold exec, step. simpl. apply Forall_app. split; [done|]. constructor; [by apply HP|constructor].
  - destruct (ups y !! k) as [u|] eqn:Hk.
    + destruct (uploads_run_ok store y k i u Hi Hk) as ([] & y' & He & _ & u' & s' & -> & _ & Hs). unfold exec. rewrite He. simpl.
      apply Forall_insert; [done|]. rewrite Hs. by apply (Forall_lookup_1 _ _ _ _ IH Hk).
    + unfold exec, step, mbind, M_bind, get. simpl. by rewrite Hk.
Qed.

(** ** Progress *)

Definition ended (u : upload) : bool := match at_ u with UReturned | UThrew _ => true | _ => false end.

(** The promise an upload waits for now. *)
Definition awaits (u : upload) : option nat :=
  match at_ u with
  | UAwait _ (ref :: _) => theirs u !! ref
  | URest ((_, id) :: _) => Some id
  | _ => None
  end.
Definition blocked (c : claims) (u : upload) : bool :=
  match awaits u with Some id => bool_decide (promise_of c id = Unset) | None => false end.

(** At most so many steps are left to an upload. *)
Definition weigh (refs : Item.t → nat) (l : list Item.t) : nat := foldr (λ it n, refs it + n) 0 l.
Definition refs_of (it : Item.t) : nat := length (Item.references it).
Definition left_to_do (u : upload) : nat :=
  match at_ u with
  | UReading => weigh (λ it, refs_of it + 5) (drop (reads u) (stream u)) + weigh (λ it, refs_of it + 3) (Owned.info <$> owned u) + size (theirs u) + 3
  | UAwait k refs => length refs + 3 + weigh (λ it, refs_of it + 3) (Owned.info <$> drop (S k) (owned u)) + size (theirs u) + 2
  | URest rest => length rest + 2
  | UDrop ids _ => length ids + 1
  | UReturned | UThrew _ => 0
  end.

Lemma weigh_cons f it l : weigh f (it :: l) = f it + weigh f l.
Proof. done. Qed.
Lemma weigh_app f l k : weigh f (l ++ k) = weigh f l + weigh f k.
Proof. induction l; simpl; lia. Qed.
Lemma weigh_length (f : Item.t → nat) n l : (∀ it, n ≤ f it) → n * length l ≤ weigh f l.
Proof. intros Hf. induction l as [|it l IH]; simpl; [lia|]. specialize (Hf it). lia. Qed.

Lemma next_owned_left i k u :
  left_to_do (next_owned i k u) ≤ weigh (λ it, refs_of it + 3) (Owned.info <$> drop k (owned u)) + size (theirs u) + 2.
Proof.
  unfold next_owned, left_to_do. destruct (owned u !! k) as [o|] eqn:Ho; cbn [at_ at_point owned theirs].
  - rewrite (drop_S _ _ _ Ho), fmap_cons, weigh_cons. unfold refs_of. lia.
  - rewrite (Permutation_length (order_perm i (theirs u))), length_map_to_list. lia.
Qed.

Lemma unkept_S k u o : owned u !! k = Some o → length (unkept k u) = S (length (unkept (S k) u)).
Proof. intros Ho%lookup_lt_Some. unfold unkept, owned_ids. rewrite !length_drop, !length_fmap. lia. Qed.
Lemma unkept_length k u : 3 * length (unkept k u) ≤ weigh (λ it, refs_of it + 3) (Owned.info <$> drop k (owned u)).
Proof.
  unfold unkept, owned_ids. rewrite length_drop, length_fmap. etrans; [|apply (weigh_length _ 3); lia].
  rewrite length_fmap, length_drop. lia.
Qed.

Ltac shape := cbn [left_to_do throws at_point have_imported at_ owned theirs length stream reads].

Lemma read_closer i u s s' u' : at_ u = UReading → read_one i u s = (s', Ok u') → left_to_do u' < left_to_do u.
Proof.
  intros Hat. pose proof (unkept_length 0 u) as Hall. rewrite drop_0 in Hall.
  assert (length (owned_ids u) = length (unkept 0 u)) as Hlen by (unfold unkept; by rewrite drop_0).
  unfold left_to_do at 2. rewrite Hat. unfold read_one. destruct (stream u !! reads u) as [item|] eqn:Hi.
  2:{ intros [= <- <-]. pose proof (next_owned_left i 0 u) as Hn. rewrite drop_0 in Hn. lia. }
  rewrite (drop_S _ _ _ Hi), weigh_cons. cbn [seen]. case_bool_decide.
  { intros [= <- <-]. destruct (fine i); [unfold left_to_do; shape; rewrite Hat|]; shape; [lia|]. unfold owned_ids in *. shape. lia. }
  unfold mbind, M_bind, on_claims, zoom. destruct (enter (Item.path item) (cl s)) as [c' [[id owner]|e]]; [|done].
  destruct owner; [destruct (fine i)|].
  - destruct (spool_add _ _). intros [= <- <-]. unfold left_to_do. shape. rewrite Hat, fmap_app, weigh_app. cbn [fmap list_fmap Owned.info]. rewrite weigh_cons. simpl. lia.
  - intros [= <- <-]. unfold owned_ids in *. shape. lia.
  - destruct (fine i); intros [= <- <-].
    + unfold left_to_do. shape. rewrite Hat. pose proof (map_size_insert (Item.path item) id (theirs u)) as Hsz. destruct (theirs u !! Item.path item); simpl in Hsz; lia.
    + unfold owned_ids in *. shape. lia.
Qed.

(** A step of an upload that does not wait brings it closer to its end, whatever it meets. *)
Lemma step_closer i u s s' u' :
  upload_step i u s = (s', Ok u') → ended u = false → (blocked (cl s) u = false ∨ cancelled i = true) → left_to_do u' < left_to_do u.
Proof.
  intros Hstep He Hb. unfold upload_step in Hstep.
  pose proof (unkept_length 0 u) as Hall. rewrite drop_0 in Hall. unfold unkept in Hall. rewrite drop_0 in Hall.
  destruct (at_ u) as [|k refs|rest|ids w| |w] eqn:Hat; try (unfold ended in He; by rewrite Hat in He).
  - destruct (_ || _); [by eapply read_closer|]. injection Hstep as <- <-. unfold left_to_do. rewrite Hat. shape. unfold owned_ids in *. lia.
  - pose proof (unkept_length (S k) u) as Hk. destruct refs as [|ref refs].
    + unfold mbind, M_bind, expect in Hstep. destruct (owned u !! k) as [o|] eqn:Ho; [|done]. simpl in Hstep.
      unfold import_one in Hstep. destruct (completeRefs_completes i (Owned.info o) s) as (complete & s1 & Hcr & _).
      unfold mbind, M_bind in Hstep. rewrite Hcr in Hstep. destruct (complete && fine i).
      * unfold on_claims, zoom, modify in Hstep. injection Hstep as <- <-.
        pose proof (next_owned_left i (S k) (have_imported (Item.path (Owned.info o)) u)) as Hn. cbn [owned theirs have_imported] in Hn.
        unfold left_to_do at 2. rewrite Hat. shape. lia.
      * injection Hstep as <- <-. unfold left_to_do. rewrite Hat. shape. rewrite (unkept_S k u o Ho). lia.
    + unfold blocked, awaits in Hb. rewrite Hat in Hb. unfold mbind, M_bind, get in Hstep.
      assert (length (unkept k u) ≤ S (length (unkept (S k) u))) as Hle by (unfold unkept; rewrite !length_drop; lia).
      destruct (theirs u !! ref) as [id|]; injection Hstep as <- <-; unfold left_to_do at 2; rewrite Hat; [|shape; lia].
      unfold await. destruct (promise_of (cl s) id); shape; [|lia..].
      destruct (cancelled i); [shape; lia|]. destruct Hb as [Hb|]; [|done]. by rewrite bool_decide_true in Hb.
  - destruct rest as [|[p id] rest].
    + injection Hstep as <- <-. unfold left_to_do. rewrite Hat. simpl. lia.
    + unfold blocked, awaits in Hb. rewrite Hat in Hb. unfold mbind, M_bind, get in Hstep. injection Hstep as <- <-.
      unfold await. unfold left_to_do at 2. rewrite Hat. destruct (promise_of (cl s) id); shape; [|lia..].
      destruct (cancelled i); [shape; lia|]. destruct Hb as [Hb|]; [|done]. by rewrite bool_decide_true in Hb.
  - destruct ids as [|id ids].
    + injection Hstep as <- <-. unfold left_to_do. rewrite Hat. simpl. lia.
    + unfold mbind, M_bind, on_claims, zoom, modify in Hstep. injection Hstep as <- <-. unfold left_to_do. rewrite Hat. simpl. lia.
Qed.

Lemma step_idle i u s s' u' :
  upload_step i u s = (s', Ok u') → ended u = true ∨ (blocked (cl s) u = true ∧ cancelled i = false) → s' = s ∧ u' = u.
Proof.
  unfold upload_step, ended, blocked, awaits. intros Hstep H.
  destruct (at_ u) as [|k [|ref refs]|[|[p id] rest]|ids w| |w]; try (by destruct H as [|[]]); try (by injection Hstep as <- <-).
  - unfold mbind, M_bind, get in Hstep. destruct H as [|[Hb Hc]]; [done|]. destruct (theirs u !! ref); [|done].
    apply bool_decide_eq_true in Hb. unfold await in Hstep. rewrite Hb, Hc in Hstep. by injection Hstep as <- <-.
  - unfold mbind, M_bind, get in Hstep. destruct H as [|[Hb Hc]]; [done|].
    apply bool_decide_eq_true in Hb. unfold await in Hstep. rewrite Hb, Hc in Hstep. by injection Hstep as <- <-.
Qed.

Lemma step_never_farther i u s s' u' : upload_step i u s = (s', Ok u') → left_to_do u' ≤ left_to_do u.
Proof.
  intros Hs. destruct (ended u) eqn:He; [by destruct (step_idle _ _ _ _ _ Hs (or_introl He)) as [_ ->]|].
  destruct (blocked (cl s) u) eqn:Hb; [destruct (cancelled i) eqn:Hc|].
  - apply Nat.lt_le_incl. eapply step_closer; eauto.
  - by destruct (step_idle _ _ _ _ _ Hs (or_intror (conj Hb Hc))) as [_ ->].
  - apply Nat.lt_le_incl. eapply step_closer; eauto.
Qed.

Definition work (y : system) : nat := sum_list (left_to_do <$> ups y).

Lemma work_insert s l (k : nat) u u' : l !! k = Some u → work (mkSystem s (<[k := u']> l)) + left_to_do u = sum_list (left_to_do <$> l) + left_to_do u'.
Proof.
  intros Hk. unfold work. simpl. rewrite list_fmap_insert.
  assert ((left_to_do <$> l) !! k = Some (left_to_do u)) as Hl by by rewrite list_lookup_fmap, Hk.
  revert Hl. generalize (left_to_do <$> l), (left_to_do u'). clear. intros l n. revert k.
  induction l as [|m l IH]; intros [|k] Hl; simpl in *; try done; [injection Hl as ->; lia|]. specialize (IH k Hl). lia.
Qed.

(** Some upload holds every promise that is open. *)
Lemma holder store y id : sys_inv store y → promise_of (cl (sh y)) id = Unset → ∃ (k : nat) u, ups y !! k = Some u ∧ id ∈ holds u.
Proof.
  intros Hi Hun. assert (id ∈ all_holds y) as Hin.
  { rewrite (si_holds _ _ Hi). unfold unset_ids. rewrite list_elem_of_filter, elem_of_seq. split; [done|].
    unfold promise_of in Hun. destruct (promises (cl (sh y)) !! id) eqn:Hl; [|done]. apply lookup_lt_Some in Hl. lia. }
  apply list_elem_of_bind in Hin as (u & Hin & [k Hk]%list_elem_of_lookup). eauto.
Qed.

Definition free (c : claims) (u : upload) : bool := negb (ended u) && negb (blocked c u).

(** An upload that waits holds claims younger than the one it waits for. *)
Lemma waits_for_older c u id id' :
  upload_ok c u → sorted (stream u) → id ∈ holds u → awaits u = Some id' → id' < id.
Proof.
  intros Hu Hs Hin Ha. pose proof (uo_point _ _ Hu) as Hp. unfold holds, awaits, point_ok in *.
  destruct (at_ u) as [|k [|ref refs]|rest|ids w| |w]; try done; try (by apply elem_of_nil in Hin).
  destruct Hp as (_ & (o & Ho & Hrefs) & _).
  assert (id' < Owned.id o) as Hlt.
  { apply (uo_sorted _ _ Hu Hs o ref); [by eapply list_elem_of_lookup_2| |done]. apply Hrefs. left. }
  unfold unkept, owned_ids in Hin. apply list_elem_of_lookup in Hin as [j Hj]. rewrite lookup_drop, list_lookup_fmap in Hj.
  destruct (owned u !! (k + j)) as [o'|] eqn:Ho'; [|done]. injection Hj as <-. destruct j as [|j].
  - rewrite Nat.add_0_r in Ho'. by simplify_eq.
  - pose proof (uo_rising _ _ Hu k (k + S j) o o' ltac:(lia) Ho Ho'). lia.
Qed.

Lemma held_some_free store y id :
  sys_inv store y → Forall (λ u, sorted (stream u)) (ups y) → promise_of (cl (sh y)) id = Unset →
  ∃ (k : nat) u, ups y !! k = Some u ∧ free (cl (sh y)) u = true.
Proof.
  intros Hi Hs. induction (lt_wf id) as [id _ IH]. intros Hun. destruct (holder _ _ _ Hi Hun) as (k & u & Hk & Hin).
  assert (ended u = false) as He by (unfold ended, holds in *; destruct (at_ u); try done; by apply elem_of_nil in Hin).
  destruct (blocked (cl (sh y)) u) eqn:Hb; [|exists k, u; unfold free; by rewrite He, Hb].
  unfold blocked in Hb. destruct (awaits u) as [id'|] eqn:Ha; [|done]. apply bool_decide_eq_true in Hb. apply (IH id'); [|done].
  apply (waits_for_older (cl (sh y)) u); [|by apply (Forall_lookup_1 _ _ _ _ Hs Hk)|done..]. by apply (Forall_lookup_1 _ _ _ _ (si_uploads _ _ Hi) Hk).
Qed.

Lemma some_free store y u :
  sys_inv store y → Forall (λ u, sorted (stream u)) (ups y) → u ∈ ups y → ended u = false →
  ∃ (k : nat) u, ups y !! k = Some u ∧ free (cl (sh y)) u = true.
Proof.
  intros Hi Hs [k Hk]%list_elem_of_lookup He. destruct (blocked (cl (sh y)) u) eqn:Hb; [|exists k, u; unfold free; by rewrite He, Hb].
  unfold blocked in Hb. destruct (awaits u) as [id|]; [|done]. apply bool_decide_eq_true in Hb. by eapply held_some_free.
Qed.

Lemma run_work store y (k : nat) i : sys_inv store y → ∃ y', step (Run k i) y = (y', Ok tt) ∧ work y' ≤ work y ∧
  (∀ u, ups y !! k = Some u → free (cl (sh y)) u = true → work y' < work y).
Proof.
  intros Hi. destruct (ups y !! k) as [u|] eqn:Hk.
  - destruct (uploads_run_ok store y k i u Hi Hk) as ([] & y' & Hstep & _ & u' & s' & -> & Hu & _). eexists. split; [done|].
    pose proof (work_insert s' (ups y) k u u' Hk) as Hw. change (sum_list (left_to_do <$> ups y)) with (work y) in Hw. pose proof (step_never_farther _ _ _ _ _ Hu).
    split; [lia|]. intros v [= <-] [He%negb_true_iff Hb%negb_true_iff]%andb_prop.
    assert (left_to_do u' < left_to_do u) by eauto using step_closer. lia.
  - exists y. split; [|done]. unfold step, mbind, M_bind, get. by rewrite Hk.
Qed.

(** C19. Uploads do not wait for each other for ever.  If every stream brings references before what refers to
    them then, whatever claims the uploads hold and wait for, every step of theirs returns and none adds to the
    work that is left to them; and as long as some upload has not ended there is one whose next step takes from it, whatever
    the stream, the store and the caller do. *)
Theorem uploads_progress store y : reachable sorted store y →
  (∀ k i, ∃ y', step (Run k i) y = (y', Ok tt) ∧ work y' ≤ work y) ∧
  (∀ u, u ∈ ups y → ended u = false → ∃ k, ∀ i, work (exec (step (Run k i)) y) < work y).
Proof.
  intros Hr. pose proof (uploads_reachable_inv _ _ _ Hr) as Hi. split.
  - intros k i. destruct (run_work _ _ k i Hi) as (y' & ? & ? & _). eauto.
  - intros u Hu He. destruct (some_free _ _ _ Hi (uploads_reachable_streams _ _ _ Hr) Hu He) as (k & v & Hk & Hf). exists k. intros i.
    destruct (run_work _ _ k i Hi) as (y' & Hy & _ & Hlt). unfold exec. rewrite Hy. by apply (Hlt v).
Qed.

(** ** What an upload that returned has done *)

(** C20. An upload that returned names every path of its stream once and nothing else, each of them
    is valid in the store whoever imported it, and its contents are what the store had before, what some upload
    brought for this very path, or what the store itself substituted from the cache when it was asked for a
    reference of a path that some upload brings. *)
Theorem upload_returned P store y u :
  reachable P store y → u ∈ ups y → at_ u = UReturned →
  NoDup (imported u) ∧ (∀ p, p ∈ imported u ↔ p ∈ Item.path <$> stream u) ∧
  ∀ p, p ∈ Item.path <$> stream u → ∃ b, valid (sh y) !! p = Some b ∧
    (store !! p = Some b ∨ brought y p b ∨ substituted y p b).
Proof.
  intros Hi%uploads_reachable_inv Hin Hat. pose proof (proj1 (Forall_forall _ _) (si_uploads _ _ Hi) u Hin) as Hu.
  pose proof (uo_point _ _ Hu) as Hp. unfold point_ok in Hp. rewrite Hat in Hp. destruct Hp as (Hall & Hown & Him & Hth).
  assert (∀ p, p ∈ imported u ↔ p ∈ opaths u ∨ is_Some (theirs u !! p)) as Hmem.
  { intros p. rewrite Him, elem_of_app. f_equiv. rewrite list_elem_of_fmap. split.
    - intros ([q id] & -> & Hq%elem_of_map_to_list). by exists id.
    - intros [id Hid]. exists (p, id). by rewrite elem_of_map_to_list. }
  pose proof (uo_seen _ _ Hu) as Hseen. rewrite Hall, take_ge in Hseen by lia.
  assert (∀ p, p ∈ imported u ↔ p ∈ Item.path <$> stream u) as Hiff.
  { intros p. rewrite Hmem, <-Hseen. destruct (uo_split _ _ Hu p) as (Ho & Ht & Hs). split; [naive_solver|].
    intros Hp. destruct Hs as [|]; [by unfold failing; rewrite Hat|done|by right|by left]. }
  split_and!; [|done|].
  - rewrite Him. apply NoDup_app. split_and!; [apply (uo_nodup _ _ Hu)| |apply NoDup_fst_map_to_list].
    intros p [_ Hnone]%(uo_split _ _ Hu) ([q id] & -> & Hq%elem_of_map_to_list)%list_elem_of_fmap. simpl in Hnone. by rewrite Hq in Hnone.
  - intros p Hp. assert (is_Some (valid (sh y) !! p)) as [b Hb].
    { apply Hiff, Hmem in Hp as [(o & -> & Ho)%list_elem_of_fmap|[id Hid]].
      - pose proof (proj1 (Forall_forall _ _) Hown o Ho) as Hk. apply list_elem_of_lookup in Ho as [j Hj].
        by apply (si_stored _ _ Hi (Owned.id o)); [apply (uo_owned _ _ Hu j o Hj)|].
      - by apply (si_stored _ _ Hi id); [apply (uo_theirs _ _ Hu)|apply (Hth p)]. }
    exists b. split; [done|]. by apply (si_bytes _ _ Hi).
Qed.

(** No two uploads import the same path at the same time: the claims that are held are for different paths, and a
    promise that somebody waits for is settled or held by an upload. *)
Theorem claims_exclusive P store y : reachable P store y →
  NoDup (path_of (cl (sh y)) <$> all_holds y) ∧
  ∀ u p id, u ∈ ups y → theirs u !! p = Some id → ready (cl (sh y)) id = true ∨ id ∈ all_holds y.
Proof.
  intros Hi%uploads_reachable_inv. split.
  - rewrite (si_holds _ _ Hi). apply NoDup_fmap_2_strong.
    2:{ apply NoDup_filter, NoDup_seq. }
    intros a b Ha%unset_ids_in Hb%unset_ids_in Heq. destruct (path_of (cl (sh y)) a) as [p|] eqn:Hp.
    + symmetry in Heq. apply (co_unset _ (si_claims _ _ Hi) _ _ Hp) in Ha. apply (co_unset _ (si_claims _ _ Hi) _ _ Heq) in Hb. congruence.
    + unfold promise_of, path_of in *. by destruct (promises (cl (sh y)) !! a).
  - intros u p id _ _. unfold ready. case_bool_decide as Hun; [right|by left].
    destruct (holder _ _ _ Hi Hun) as (k & v & Hk & Hin). apply list_elem_of_bind. exists v. split; [done|]. by eapply list_elem_of_lookup_2.
Qed.
