(* ===== verification/UploadsDemo.v ===== *)
(** * Concurrent uploads: runs

    Two uploads that share a path, and two that wait for each other because their streams are not sorted. *)

From Stdlib Require Import Ascii String.
From S2P Require Import Prelude Uploads UploadsSystem.

(** A store that keeps what it has. *)
Definition add_new (m : gmap string bytes) (path : string) (nar : bytes) : gmap string bytes :=
  match m !! path with Some _ => m | None => <[path := nar]> m end.
Lemma add_new_ok m path nar :
  (add_new m path nar !! path = Some nar ∨ (is_Some (m !! path) ∧ add_new m path nar !! path = m !! path)) ∧
  ∀ other, other ≠ path → add_new m path nar !! other = m !! other.
Proof.
  unfold add_new. destruct (m !! path) as [b|] eqn:Hm; [by split; [right; rewrite Hm|]|].
  split; [left; by rewrite lookup_insert_eq|]. intros other Hne. by rewrite lookup_insert_ne.
Qed.

(** A cache that has one path, which refers to another. *)
Definition from_cache (m : gmap string bytes) (path : string) : gmap string bytes * bool :=
  if bool_decide (path = "z0") then ({["z0" := list_ascii_of_string "z0z0"; "libc" := list_ascii_of_string "cc"]}, true) else (∅, false).
Lemma from_cache_ok m path : (from_cache m path).2 = true → is_Some (m !! path) ∨ is_Some ((from_cache m path).1 !! path).
Proof. unfold from_cache. case_bool_decide as H; [|done]. intros _. right. subst. by eexists. Qed.

Definition answer (fine cancelled : bool) : input :=
  mkInput fine cancelled add_new add_new_ok true from_cache from_cache_ok map_to_list (λ m, reflexivity _).
Definition runs (k n : nat) : list event := repeat (Run k (answer true false)) n.
Definition run (evs : list event) (y : system) : system := foldl (λ y ev, exec (step ev) y) y evs.

Lemma uploads_run_reachable (P : list Item.t → Prop) store evs y :
  Forall (λ ev, match ev with Begin s => P s | _ => True end) evs → reachable P store y → reachable P store (run evs y).
Proof.
  intros Hevs. revert y. induction Hevs as [|ev evs Hev _ IH]; intros y Hy; [done|]. apply IH, reach_step; [done|]. by intros s ->.
Qed.

Definition item (path : string) (references : list string) (nar : string) : Item.t := Item.mk path references (list_ascii_of_string nar).

Definition stream_a := [item "z" [] "zz"; item "x" ["z"] "xx"].
Definition stream_b := [item "z" [] "zz"; item "y" ["z"; "z0"] "yy"].

(** b claims z first, and a has to wait for it. *)
Definition halfway : system := run ([Begin stream_a; Begin stream_b] ++ runs 1 3 ++ runs 0 5) (no_uploads ∅).
Definition finished : system := run (runs 1 5 ++ runs 0 9) halfway.

Lemma streams_sorted : Forall (λ ev, match ev with Begin s => sorted s | _ => True end) ([Begin stream_a; Begin stream_b] ++ runs 1 3 ++ runs 0 5).
Proof.
  apply Forall_app. split; [|by repeat constructor].
  apply Forall_cons. split; [|apply Forall_singleton]; intros [|[|j]] it r [= <-] Hr Hin; simpl in *; set_solver.
Qed.
Lemma halfway_reached : reachable sorted ∅ halfway.
Proof. apply uploads_run_reachable; [apply streams_sorted|constructor]. Qed.
Lemma finished_reached : reachable sorted ∅ finished.
Proof. apply uploads_run_reachable; [by repeat constructor|apply halfway_reached]. Qed.

Lemma uploads_progress_witness :
  (blocked (cl (sh halfway)) <$> ups halfway) = [true; false] ∧
  (∀ k i, ∃ y', step (Run k i) halfway = (y', Ok tt) ∧ work y' ≤ work halfway) ∧
  (∀ u, u ∈ ups halfway → ended u = false → ∃ k, ∀ i, work (exec (step (Run k i)) halfway) < work halfway).
Proof. split; [vm_compute; reflexivity|]. apply (uploads_progress ∅ halfway), halfway_reached. Defined.

Definition upload_a : upload := from_option id (new_upload []) (ups finished !! 0).
Lemma upload_returned_witness :
  imported upload_a = ["x"; "z"] ∧ fst <$> fetched (sh finished) = ["z0"] ∧
  is_Some (valid (sh finished) !! "y") ∧ valid (sh finished) !! "libc" = Some (list_ascii_of_string "cc") ∧ NoDup (imported upload_a) ∧ (∀ p, p ∈ imported upload_a ↔ p ∈ Item.path <$> stream upload_a) ∧
  ∀ p, p ∈ Item.path <$> stream upload_a → ∃ b, valid (sh finished) !! p = Some b ∧
    ((∅ : gmap string bytes) !! p = Some b ∨ brought finished p b ∨ substituted finished p b).
Proof.
  split; [vm_compute; reflexivity|]. split; [vm_compute; reflexivity|]. split; [vm_compute; by eexists|]. split; [vm_compute; reflexivity|].
  apply (upload_returned sorted ∅ finished upload_a); [apply finished_reached| |vm_compute; reflexivity].
  apply list_elem_of_lookup. exists 0. vm_compute. reflexivity.
Defined.

Lemma claims_exclusive_witness :
  all_holds halfway = [2; 0; 1] ∧ NoDup (path_of (cl (sh halfway)) <$> all_holds halfway) ∧
  ∀ u p id, u ∈ ups halfway → theirs u !! p = Some id → ready (cl (sh halfway)) id = true ∨ id ∈ all_holds halfway.
Proof. split; [vm_compute; reflexivity|]. apply (claims_exclusive sorted ∅ halfway), halfway_reached. Defined.

(** ** Streams that are not sorted *)

Definition stream_c := [item "x" ["y"] "xx"; item "z" [] "zz"; item "y" ["z"] "yy"].
Definition stream_d := [item "y" ["z"] "yy"; item "z" [] "zz"].
Definition stuck : system := run ([Begin stream_c; Begin stream_d] ++ runs 0 2 ++ runs 1 1 ++ runs 0 3 ++ runs 1 5) (no_uploads ∅).

Lemma all_blocked_idle store y k i :
  sys_inv store y → forallb (blocked (cl (sh y))) (ups y) = true → cancelled i = false → exec (step (Run k i)) y = y.
Proof.
  intros Hi Hb Hc. destruct (ups y !! k) as [u|] eqn:Hk.
  - destruct (uploads_run_ok store y k i u Hi Hk) as ([] & y' & Hstep & _ & u' & s' & -> & Hu & _). unfold exec. rewrite Hstep. simpl.
    rewrite forallb_forall in Hb. specialize (Hb u). destruct (step_idle _ _ _ _ _ Hu) as [-> ->].
    { right. split; [|done]. apply Hb, list_elem_of_In. by eapply list_elem_of_lookup_2. }
    rewrite list_insert_id by done. by destruct y.
  - unfold exec, step, mbind, M_bind, get. by rewrite Hk.
Qed.

(** Without the order of the streams two uploads can wait for each other: from this state on nothing happens until a caller
    gives up. *)
Lemma unsorted_uploads_stuck :
  reachable (λ _, True) ∅ stuck ∧ (ended <$> ups stuck) = [false; false] ∧
  ∀ k i, cancelled i = false → exec (step (Run k i)) stuck = stuck.
Proof.
  assert (reachable (λ _, True) ∅ stuck) as Hr.
  { apply uploads_run_reachable; [|constructor]. apply Forall_forall. by intros []. }
  split; [exact Hr|]. split; [vm_compute; reflexivity|]. intros k i.
  apply (all_blocked_idle ∅); [exact (uploads_reachable_inv _ _ _ Hr)|vm_compute; reflexivity].
Qed.
