(* ===== verification/Push.v ===== *)
(** * Publishing: the requests to a [niks3 push] child

    src/src/daemon/push.hh ([PushProcess]).  Threads that call [pushWait] share one child process: a request is a line on its
    standard input, and one reader thread hands the child's answers to whom they name.

    A request is at a point, and a step takes it past one hold of a mutex or one write; so for the reader.  What the
    operating system, the child and the caller do is in the inputs of a step.  A [Pending] is a shared object, named by its
    number; [count], [got], [failed] and [born] of it, [log] and [children] are not kept by the program: the size of the request, the acks that
    reached it, why it was failed, how much had been read when it was made, everything read, and how many children were started. *)

From S2P Require Import Prelude.

(** ** Pending *)

Module Ack.
Record t := mk { status : string; message : string; path : string; signatures : gset string }.
End Ack.

Module Result.
Record t := mk { status : string; message : string; signatures : gmap string (gset string) }.
Definition fresh : t := mk "ok" "" ∅.
End Result.

Module Pending.
Record t := mk {
  left_ : N;
  res : Result.t;
  count : N;
  got : list Ack.t;
  failed : option string;
  born : nat;
}.

Definition make (n : N) (born : nat) : t := mk n Result.fresh n [] None born.

Definition take_in (msg : Ack.t) (r : Result.t) : Result.t :=
  if bool_decide (Ack.status msg ≠ "ok") then Result.mk (Ack.status msg) (Ack.message msg) (Result.signatures r)
  else if bool_decide (Ack.signatures msg ≠ ∅) then
    Result.mk (Result.status r) (Result.message r) (<[Ack.path msg := Ack.signatures msg]> (Result.signatures r))
  else r.

Definition ack (msg : Ack.t) (p : t) : t * bool :=
  let left := if (0 <? left_ p)%N then (left_ p - 1)%N else left_ p in
  (mk left (take_in msg (res p)) (count p) (got p ++ [msg]) (failed p) (born p), (left =? 0)%N).

Definition fail (message : string) (p : t) : t :=
  mk 0 (Result.mk "error" message (Result.signatures (res p))) (count p) (got p) (Some message) (born p).

(** A round of [wait]: [None] while it goes on. *)
Definition wait (cancelled : bool) (p : t) : option Result.t :=
  if (0 <? left_ p)%N then
    if cancelled then Some (Result.mk "cancelled" "gave up waiting for niks3 push" ∅) else None
  else Some (res p).
End Pending.

(** ** The process *)

(** A field of a JSON object; reading one of another type throws. *)
Inductive field (A : Type) := Missing | Value (a : A) | WrongType (what : string).
Arguments Missing {_}.
Arguments Value {_} _.
Arguments WrongType {_} _.
Definition value {S A} (dflt : A) (f : field A) : M S A :=
  match f with Missing => mret dflt | Value a => mret a | WrongType what => throw (NixError what) end.

Module Object.
Record t := mk { id : field N; status : field string; message : field string; path : field string; signatures : field (gset string) }.
End Object.

Inductive rpoint := RReading | REnding (why : string) | RReturned.
Module Reader.
Record t := mk { child : nat; point : rpoint }.
End Reader.

Record process := mkProcess {
  pid : option nat;
  stdinFd : option nat;            (* of which child *)
  lastId : N;
  waiting : gmap N nat;
  pendings : list Pending.t;
  reader : option Reader.t;
  children : nat;
  log : list (N * Object.t);
}.
Definition new_process : process := mkProcess None None 0 ∅ [] None 0 [].
Definition with_child c p := mkProcess c c (lastId p) (waiting p) (pendings p) (reader p) (children p) (log p).
Definition with_stdin c p := mkProcess (pid p) c (lastId p) (waiting p) (pendings p) (reader p) (children p) (log p).
Definition with_waiting w p := mkProcess (pid p) (stdinFd p) (lastId p) w (pendings p) (reader p) (children p) (log p).
Definition with_pendings l p := mkProcess (pid p) (stdinFd p) (lastId p) (waiting p) l (reader p) (children p) (log p).
Definition with_reader r p := mkProcess (pid p) (stdinFd p) (lastId p) (waiting p) (pendings p) r (children p) (log p).
Definition with_log l p := mkProcess (pid p) (stdinFd p) (lastId p) (waiting p) (pendings p) (reader p) (children p) l.
Definition one_more_child p := mkProcess (pid p) (stdinFd p) (lastId p) (waiting p) (pendings p) (reader p) (S (children p)) (log p).
Definition next_id p := mkProcess (pid p) (stdinFd p) (u64 (lastId p + 1)) (waiting p) (pendings p) (reader p) (children p) (log p).

(** [try], with a handler of [std::exception]. *)
Definition catching {S A} (m : M S A) (handler : string → M S A) : M S A := λ s,
  match m s with
  | (s', Throw (NixError what)) => handler what s'
  | r => r
  end.

(** What starting a child meets. *)
Inductive spawn := Spawned | NoPipe (what : string) | NoChild (what : string) | NoThread (what : string).

(** A [join] of a reader that has not returned would wait for ever, as the reader needs the lock: [Undefined]. *)
Definition ensureChild (sp : spawn) : M process () :=
  p ← get;
  match stdinFd p with
  | Some _ => mret tt
  | None =>
      match reader p with
      | Some (Reader.mk _ RReturned) => modify (with_reader None)
      | Some _ => throw Undefined
      | None => mret tt
      end;;
      match sp with
      | NoPipe what | NoChild what => throw (NixError what)
      | Spawned | NoThread _ =>
          let child := children p in
          modify one_more_child;;
          modify (with_child (Some child));;
          match sp with
          | NoThread what => throw (NixError what)
          | _ => modify (with_reader (Some (Reader.mk child RReading)))
          end
      end
  end.

(** The fields of an ack, in the order they are read. *)
Definition ack_fields {S} (o : Object.t) : M S Ack.t :=
  status ← value "error" (Object.status o);
  message ← value "" (Object.message o);
  path ← value "" (Object.path o);
  signatures ← value ∅ (Object.signatures o);
  mret (Ack.mk status message path signatures).

(** One object of the child's output, in [readAcks]. *)
Definition readAcks_object (o : Object.t) : M process () :=
  id ← value 0%N (Object.id o);
  modify (λ p, with_log (log p ++ [(id, o)]) p);;
  p ← get;
  match waiting p !! id with
  | None => mret tt
  | Some h =>
      a ← ack_fields o;
      pending ← expect Undefined (pendings p !! h);
      let '(pending, done) := Pending.ack a pending in
      modify (λ p, with_pendings (<[h := pending]> (pendings p)) p);;
      if done : bool then modify (λ p, with_waiting (delete id (waiting p)) p) else mret tt
  end.

(** The end of [readAcks], under one lock. *)
Definition readAcks_end (why : string) : M process () :=
  modify (with_child None);;
  p ← get;
  forM_ (map_to_list (waiting p)).*2 (λ h, modify (λ p, with_pendings (alter (Pending.fail why) h (pendings p)) p));;
  modify (with_waiting ∅).

Inductive output := Line (o : option Object.t) | Eof | ReadFails (what : string).     (* [None]: not an object *)

Definition reader_goes (pt : rpoint) : M process () :=
  modify (λ p, with_reader ((λ r, Reader.mk (Reader.child r) pt) <$> reader p) p).

Definition readAcks (out : output) : M process () :=
  p ← get;
  match Reader.point <$> reader p with
  | Some RReading =>
      match out with
      | Line None => mret tt
      | Line (Some o) => catching (readAcks_object o) (λ why, reader_goes (REnding why))
      | Eof => reader_goes (REnding "niks3 push exited")
      | ReadFails why => reader_goes (REnding why)
      end
  | Some (REnding why) => readAcks_end why;; reader_goes RReturned
  | _ => mret tt
  end.

(** ** Requests *)

Inductive thrown := Failed (message : string) | CancelledWait (message : string).

Inductive qpoint :=
  | QEnter
  | QWrite (id : N) (h : nat) (fd : nat)
  | QUnwritten (id : N) (h : nat) (what : string)
  | QWait (id : N) (h : nat)
  | QCancelled (id : N) (h : nat) (message : string)
  | QReturned (id : N) (h : nat) (s : gmap string (gset string))
  | QThrew (e : thrown).

Record request := mkRequest { paths : list string; at_ : qpoint }.

Record input := mkInput {
  starting : spawn;
  unwritten : option string;     (* why the write fails *)
  cancelled : bool;
}.

(** The first section of [pushWait]. *)
Definition enter (sp : spawn) (paths : list string) : M process qpoint :=
  ensureChild sp;;
  modify next_id;;
  p ← get;
  let id := lastId p in
  let h := length (pendings p) in
  modify (λ p, with_pendings (pendings p ++ [Pending.make (vlen paths) (length (log p))]) p);;
  modify (λ p, with_waiting (<[id := h]> (waiting p)) p);;
  fd ← expect Undefined (stdinFd p);
  mret (QWrite id h fd).

(** What [pushWait] makes of a result. *)
Definition conclude (id : N) (h : nat) (res : Result.t) : qpoint :=
  let message := "niks3 push: " +:+ Result.message res in
  if bool_decide (Result.status res = "cancelled") then QCancelled id h message
  else if bool_decide (Result.status res ≠ "ok") then QThrew (Failed message)
  else QReturned id h (Result.signatures res).

Definition pushWait (i : input) (q : request) : M process qpoint :=
  match at_ q with
  | QEnter => catching (enter (starting i) (paths q)) (λ what, mret (QThrew (Failed what)))
  | QWrite id h fd => mret match unwritten i with None => QWait id h | Some what => QUnwritten id h what end
  | QUnwritten id h what => modify (λ p, with_waiting (delete id (waiting p)) p);; mret (QThrew (Failed what))
  | QWait id h =>
      p ← get;
      pending ← expect Undefined (pendings p !! h);
      mret match Pending.wait (cancelled i) pending with
           | None => QWait id h
           | Some res => conclude id h res
           end
  | QCancelled id h message => modify (λ p, with_waiting (delete id (waiting p)) p);; mret (QThrew (CancelledWait message))
  | QReturned _ _ _ | QThrew _ => mret (at_ q)
  end.

Definition ended (q : request) : bool := match at_ q with QReturned _ _ _ | QThrew _ => true | _ => false end.

(** ** All threads *)

Record system := mkSystem { proc : process; requests : list request; destroyed : bool }.
Definition new_system : system := mkSystem new_process [] false.
Definition on_proc {A} (m : M process A) : M system A := zoom proc (λ p y, mkSystem p (requests y) (destroyed y)) m.

Inductive event :=
  | Begin (paths : list string)
  | Run (k : nat) (i : input)
  | Read (out : output)
  | Destroy.      (* the destructor, up to the join *)

(** An object is not used once its destructor runs. *)
Definition enabled (ev : event) (y : system) : bool :=
  match ev with
  | Begin _ => negb (destroyed y)
  | Run _ _ | Read _ => true
  | Destroy => negb (destroyed y) && forallb ended (requests y)
  end.

Definition step (ev : event) : M system () :=
  match ev with
  | Begin paths => modify (λ y, mkSystem (proc y) (requests y ++ [mkRequest paths QEnter]) (destroyed y))
  | Run k i =>
      y ← get;
      match requests y !! k with
      | None => mret tt
      | Some q =>
          pt ← on_proc (pushWait i q);
          modify (λ y, mkSystem (proc y) (<[k := mkRequest (paths q) pt]> (requests y)) (destroyed y))
      end
  | Read out => on_proc (readAcks out)
  | Destroy => modify (λ y, mkSystem (with_stdin None (proc y)) (requests y) true)
  end.

(** [ok] says which events there are. *)
Inductive reachable (ok : event → Prop) : system → Prop :=
  | reach_new : reachable ok new_system
  | reach_step y ev : reachable ok y → ok ev → enabled ev y = true → reachable ok (exec (step ev) y).
