(* ===== verification/PushSystem.v ===== *)
(** * Publishing: all requests together *)

From S2P Require Import Prelude Push.

(** * Publishing: what a step keeps *)

(** ** Acks *)

Definition given {A} (dflt : A) (f : field A) : option A :=
  match f with Missing => Some dflt | Value a => Some a | WrongType _ => None end.
Definition ack_of (o : Object.t) : option Ack.t :=
  status ← given "error" (Object.status o);
  message ← given "" (Object.message o);
  path ← given "" (Object.path o);
  signatures ← given ∅ (Object.signatures o);
  Some (Ack.mk status message path signatures).

(** The acks among what was read that name a request. *)
Definition acks_for (id : N) (l : list (N * Object.t)) : list Ack.t :=
  omap (λ x, if bool_decide (x.1 = id) then ack_of x.2 else None) l.

Definition good (a : Ack.t) : Prop := Ack.status a = "ok".

(** The result of a request with these acks. *)
Definition taken (l : list Ack.t) : Result.t := foldl (λ r a, Pending.take_in a r) Result.fresh l.

Lemma taken_snoc l a : taken (l ++ [a]) = Pending.take_in a (taken l).
Proof. unfold taken. by rewrite foldl_app. Qed.
Lemma taken_good l : Result.status (taken l) = "ok" ↔ Forall good l.
Proof.
  induction l as [|a l IH] using rev_ind; [by split|]. rewrite taken_snoc, Forall_app, Forall_singleton, <-IH. unfold Pending.take_in, good.
  case_bool_decide as Hs; [simpl; split; [done|by intros [_ ?]]|]. case_bool_decide; simpl; tauto.
Qed.

(** ** The invariant *)

Definition id_of (h : nat) : N := N.of_nat h + 1.

Record pending_ok (p : process) (h : nat) (d : Pending.t) : Prop := {
  po_born : Pending.born d ≤ length (log p);
  po_got : Pending.got d `prefix_of` acks_for (id_of h) (drop (Pending.born d) (log p));
  po_waits : waiting p !! id_of h = Some h →
    Pending.failed d = None ∧ Pending.got d = acks_for (id_of h) (drop (Pending.born d) (log p)) ∧
    (Pending.count d = 0 ∨ vlen (Pending.got d) < Pending.count d)%N;
  po_left : Pending.failed d = None → Pending.left_ d = (Pending.count d - vlen (Pending.got d))%N ∧ Pending.res d = taken (Pending.got d);
  po_failed : ∀ m, Pending.failed d = Some m → Pending.left_ d = 0%N ∧ Result.status (Pending.res d) = "error" ∧ Result.message (Pending.res d) = m;
  po_bound : (Pending.count d = 0 ∨ vlen (Pending.got d) ≤ Pending.count d)%N;
}.

Record proc_ok (p : process) : Prop := {
  pr_lastId : lastId p = vlen (pendings p);
  pr_waiting : ∀ id h, waiting p !! id = Some h → id = id_of h ∧ h < length (pendings p);
  pr_pendings : ∀ (h : nat) d, pendings p !! h = Some d → pending_ok p h d;
}.

Definition alive (p : process) : Prop := ∃ r, reader p = Some r ∧ Reader.point r ≠ RReturned.
(** Without a child nobody reads and nobody waits. *)
Definition idle_ok (p : process) : Prop := stdinFd p = None → ¬ alive p ∧ waiting p = ∅.
(** With one somebody reads. *)
Definition read_ok (p : process) : Prop := stdinFd p ≠ None → alive p.

Definition handle (q : request) : option nat :=
  match at_ q with
  | QWrite _ h _ | QUnwritten _ h _ | QWait _ h | QCancelled _ h _ | QReturned _ h _ => Some h
  | QEnter | QThrew _ => None
  end.

(** An open request is registered. *)
Definition registered (p : process) (q : request) (id : N) (h : nat) : Prop :=
  id = id_of h ∧ ∃ d, pendings p !! h = Some d ∧ Pending.count d = vlen (paths q) ∧ ((0 < Pending.left_ d)%N → waiting p !! id = Some h).
(** A request that returned has all its acks, and they were good. *)
Definition answered (p : process) (q : request) (id : N) (h : nat) (s : gmap string (gset string)) : Prop :=
  id = id_of h ∧ ∃ d l, pendings p !! h = Some d ∧ Pending.count d = vlen (paths q) ∧ l `prefix_of` Pending.got d ∧
    (Pending.count d ≤ vlen l)%N ∧ Forall good l ∧ s = Result.signatures (taken l).
Definition request_ok (p : process) (q : request) : Prop :=
  match at_ q with
  | QWrite id h _ | QUnwritten id h _ | QWait id h | QCancelled id h _ => registered p q id h
  | QReturned id h s => answered p q id h s
  | QEnter | QThrew _ => True
  end.

(** What others do to a request; [mine] is the pending of the one who steps. *)
Record later (mine : option nat) (p p' : process) : Prop := {
  lt_more : length (pendings p) ≤ length (pendings p');
  lt_kept : ∀ (h : nat) d, pendings p !! h = Some d → ∃ d', pendings p' !! h = Some d' ∧ Pending.count d' = Pending.count d ∧
    Pending.got d `prefix_of` Pending.got d' ∧ (Pending.left_ d' ≤ Pending.left_ d)%N ∧
    (mine ≠ Some h → (0 < Pending.left_ d')%N → waiting p !! id_of h = Some h → waiting p' !! id_of h = Some h);
}.
#[export] Instance later_refl mine : Reflexive (later mine).
Proof. constructor; [done|]. eauto 10. Qed.

Lemma request_ok_later mine p p' q : handle q ≠ mine ∨ mine = None → later mine p p' → request_ok p q → request_ok p' q.
Proof.
  intros Hne [_ Hl]. unfold request_ok, handle in *.
  assert (∀ id h, Some h ≠ mine ∨ mine = None → registered p q id h → registered p' q id h) as Hreg.
  { intros id h Hh (-> & d & Hd & Hc & Hw). split; [done|]. destruct (Hl h d Hd) as (d' & Hd' & Hc' & _ & Hle & Hk). exists d'.
    split_and!; [done|congruence|]. intros Hlt. apply Hk; [destruct Hh as [? | ->]; congruence|done|apply Hw; lia]. }
  destruct (at_ q); auto. intros (-> & d & l & Hd & Hc & Hpre & Hle & Hg & ->). split; [done|].
  destruct (Hl h d Hd) as (d' & Hd' & Hc' & Hgot & _). exists d', l. split_and!; [done|congruence| |by rewrite Hc'|done|done]. by etrans.
Qed.

(** ** Sections of a request *)

(** The part of the state that the requests are about. *)
Record same (p p' : process) : Prop := {
  sm_lastId : lastId p' = lastId p;
  sm_waiting : waiting p' = waiting p;
  sm_pendings : pendings p' = pendings p;
  sm_log : log p' = log p;
}.
#[export] Instance same_refl : Reflexive same.
Proof. by constructor. Qed.

Lemma pending_ok_same p p' h d : waiting p' = waiting p → log p' = log p → pending_ok p h d → pending_ok p' h d.
Proof. intros Hw Hl []. constructor; by rewrite ?Hw, ?Hl. Qed.
Lemma proc_ok_same p p' : same p p' → proc_ok p → proc_ok p'.
Proof.
  intros [] []. constructor; [congruence|rewrite sm_waiting0, sm_pendings0; done|].
  intros h d. rewrite sm_pendings0. intros Hd. by apply (pending_ok_same p); [..|apply pr_pendings0].
Qed.
Lemma later_same mine p p' : same p p' → later mine p p'.
Proof. intros [_ Hw Hp _]. constructor; [by rewrite Hp|]. intros h d Hd. exists d. rewrite Hp, Hw. auto. Qed.

Definition starts_thread (sp : spawn) : Prop := ∀ what, sp ≠ NoThread what.

(** What starting a child leaves. *)
Record has_child (sp : spawn) (p p' : process) : Prop := {
  hc_same : same p p';
  hc_idle : idle_ok p';
  hc_read : read_ok p → starts_thread sp → read_ok p';
  hc_reader : ∀ r, reader p' = Some r → reader p = Some r ∨ Reader.point r = RReading;
}.

Lemma ensureChild_ok sp p : idle_ok p →
  ∃ p', has_child sp p p' ∧ ((ensureChild sp p = (p', Ok tt) ∧ is_Some (stdinFd p')) ∨ (sp ≠ Spawned ∧ ∃ what, ensureChild sp p = (p', Throw (NixError what)))).
Proof.
  intros Hi. unfold ensureChild, mbind, M_bind, get. destruct (stdinFd p) as [c|] eqn:Hs.
  { exists p. split; [constructor; [done|done|done|by left]|left; by rewrite Hs]. }
  destruct (Hi Hs) as [Hdead Hw]. set (p1 := with_reader None p).
  assert (has_child sp p p1) as Hp1.
  { constructor; [done| |by intros ? ? ?|done]. intros _. split; [by intros (r & ? & ?)|done]. }
  assert (reader p = None → p = p1) as Hnone by (intros H; subst p1; destruct p; simpl in *; by subst).
  assert (match reader p with Some (Reader.mk _ RReturned) => modify (with_reader None) | Some _ => throw Undefined | None => mret tt end p = (p1, Ok tt)) as ->.
  { destruct (reader p) as [[c pt]|] eqn:Hr; [|by rewrite <-Hnone]. destruct pt; [..|done]; destruct Hdead; eexists; (split; [exact Hr|done]). }
  destruct sp as [|what|what|what]; [|exists p1; split; [done|right; eauto]..|]; unfold modify, throw.
  - eexists. split; [constructor|left; split; [done|by eexists]]; [done|done| |]; simpl.
    + intros _ _ _. eexists. by split.
    + intros r [= <-]. by right.
  - eexists. split; [constructor|right; split; [done|eauto]]; [done|done| |done]. intros _ Ht. by destruct (Ht what).
Qed.

(** The process with one more request, as [enter] leaves it. *)
Definition register (n : N) (p : process) : process :=
  let h := length (pendings p) in
  with_waiting (<[id_of h := h]> (waiting p)) (with_pendings (pendings p ++ [Pending.make n (length (log p))]) (next_id p)).

Lemma register_ok n p : (vlen (pendings p) + 1 < 2 ^ 64)%N → proc_ok p → proc_ok (register n p) ∧ later None p (register n p).
Proof.
  intros Hsmall Hp. pose proof Hp as [Hid Hw Hd].
  split; constructor; simpl.
  - rewrite Hid, u64_small by done. by rewrite vlen_app.
  - intros id h. rewrite length_app. simpl. intros [[<- <-]|[_ [-> ?]%Hw]]%lookup_insert_Some; split; (done || lia).
  - intros h d [[Hlt Hh]|[-> <-]]%lookup_snoc_Some.
    + destruct (Hd h d Hh). constructor; try done. simpl. rewrite lookup_insert_ne; [done|]. unfold id_of. lia.
    + constructor; simpl; try done; rewrite ?drop_all; change (vlen []) with 0%N.
      * apply prefix_nil.
      * intros _. split_and!; [done|done|lia].
      * intros _. split; [lia|done].
      * lia.
  - rewrite length_app. lia.
  - intros h d Hh. exists d. split_and!; try done.
    + by apply lookup_app_l_Some.
    + intros _ _ Hwh. rewrite lookup_insert_ne; [done|]. apply lookup_lt_Some in Hh. unfold id_of. lia.
Qed.

(** What a request keeps beside its own point. *)
Record stepped (mine : option nat) (p p' : process) : Prop := {
  sd_proc : proc_ok p';
  sd_later : later mine p p';
  sd_idle : idle_ok p → idle_ok p';
}.

Lemma enter_eq sp l p : (vlen (pendings p) + 1 < 2 ^ 64)%N → proc_ok p → idle_ok p →
  ∃ p1, has_child sp p p1 ∧
    ((∃ c, stdinFd p1 = Some c ∧ enter sp l p = (register (vlen l) p1, Ok (QWrite (id_of (length (pendings p))) (length (pendings p)) c))) ∨
     (sp ≠ Spawned ∧ ∃ what, enter sp l p = (p1, Throw (NixError what)))).
Proof.
  intros Hsmall Hp Hi. destruct (ensureChild_ok sp p Hi) as (p1 & Hc & Hout). exists p1. split; [done|].
  destruct Hout as [[He [c Hfd]]|[Hne [what He]]]; [left|right; split; [done|]; exists what; unfold enter, mbind, M_bind; by rewrite He]. exists c. split; [done|]. pose proof (hc_same _ _ _ Hc) as [Hl _ Hpd _].
  assert (u64 (lastId p1 + 1) = id_of (length (pendings p1))) as Hid by (by rewrite Hl, Hpd, (pr_lastId _ Hp), u64_small).
  unfold enter, mbind, M_bind. rewrite He. unfold modify, get, expect. simpl. rewrite Hfd. unfold register, with_waiting, with_pendings, next_id. simpl. by rewrite Hid, Hpd.
Qed.

Lemma push_enter_ok sp l p : (vlen (pendings p) + 1 < 2 ^ 64)%N → proc_ok p → idle_ok p →
  wp (catching (enter sp l) (λ what, mret (QThrew (Failed what))))
    (λ pt p', stepped None p p' ∧ (read_ok p → starts_thread sp → read_ok p') ∧ request_ok p' (mkRequest l pt) ∧
      (handle (mkRequest l pt) = None ∨ handle (mkRequest l pt) = Some (length (pendings p)))) p.
Proof.
  intros Hsmall Hp Hi. destruct (enter_eq sp l p Hsmall Hp Hi) as (p1 & [Hs Hi1 Hr1 _] & Hout). unfold wp, catching.
  destruct Hout as [(c & Hc & ->)|[_ [what ->]]].
  - pose proof Hs as [_ _ Hpd _]. rewrite <-Hpd in *. destruct (register_ok (vlen l) p1 Hsmall (proc_ok_same _ _ Hs Hp)) as [Hp2 Hl2].
    do 2 eexists. split; [done|]. split_and!; [constructor|..].
    + done.
    + destruct Hl2 as [Hm Hk]. rewrite Hpd in *. constructor; [done|]. intros h d Hd. rewrite (sm_waiting _ _ Hs) in Hk. by apply Hk.
    + intros _ Hnone. simpl in Hnone. congruence.
    + intros Hr Ht _. destruct (Hr1 Hr Ht) as (r & ? & ?); [by rewrite Hc|]. by exists r.
    + split; [done|]. exists (Pending.make (vlen l) (length (log p1))). simpl. split_and!; [|done|].
      * by rewrite lookup_app_r, Nat.sub_diag.
      * intros _. by rewrite lookup_insert_eq.
    + by right.
  - exists (QThrew (Failed what)), p1. split; [done|]. split_and!; [constructor|..]; [by eapply proc_ok_same|by apply later_same|done|done|done|by left].
Qed.

(** A request takes its registration back. *)
Lemma erase_ok h p : proc_ok p → stepped (Some h) p (with_waiting (delete (id_of h) (waiting p)) p).
Proof.
  intros [Hid Hw Hd]. constructor; [constructor|constructor|]; simpl; try done.
  - intros id k [_ ?]%lookup_delete_Some. by apply Hw.
  - intros k d Hk. destruct (Hd k d Hk). constructor; try done. simpl. by intros [_ ?]%lookup_delete_Some; apply po_waits0.
  - intros k d Hk. exists d. split_and!; try done. intros Hne _ Hwk. apply lookup_delete_Some. split; [|done]. unfold id_of. intros ?. apply Hne. f_equal. lia.
  - intros Hi Hn. destruct (Hi Hn) as [? ->]. split; [done|]. simpl. by rewrite delete_empty.
Qed.

Lemma conclude_ok p q h d :
  pendings p !! h = Some d → pending_ok p h d → Pending.count d = vlen (paths q) → Pending.left_ d = 0%N →
  request_ok p (mkRequest (paths q) (conclude (id_of h) h (Pending.res d))).
Proof.
  intros Hd Hok Hc Hl. unfold conclude. case_bool_decide as Hcan; [|case_bool_decide as Hs]; [|done|].
  - split; [done|]. exists d. split_and!; [done|done|]. lia.
  - split; [done|]. exists d, (Pending.got d). destruct (Pending.failed d) as [m|] eqn:Hf.
    + destruct (po_failed _ _ _ Hok m Hf) as (_ & He & _). congruence.
    + destruct (po_left _ _ _ Hok Hf) as [Hleft Hres]. rewrite Hres in *. split_and!; [done|done|done|lia|by apply taken_good|done].
Qed.

Lemma pushWait_ok i q p : (vlen (pendings p) + 1 < 2 ^ 64)%N → proc_ok p → request_ok p q → (ended q = false → idle_ok p) →
  wp (pushWait i q) (λ pt p', let q' := mkRequest (paths q) pt in
    stepped (handle q) p p' ∧ (read_ok p → starts_thread (starting i) → read_ok p') ∧ request_ok p' q' ∧
    (handle q' = None ∨ handle q' = handle q ∨ (at_ q = QEnter ∧ handle q' = Some (length (pendings p))))) p.
Proof.
  intros Hsmall Hp Hq Hi. unfold pushWait, request_ok, handle, ended in *. cbv zeta.
  assert (∀ mine, stepped mine p p) as Hsame by by constructor.
  destruct (at_ q) as [|id h fd|id h what|id h|id h m|id h s|e] eqn:Hat.
  - eapply wp_mono; [apply push_enter_ok; [done|done|by apply Hi]|]. intros pt p' (? & ? & ? & [?|?]); split_and!; try done; eauto.
  - wp_steps. destruct (unwritten i); split_and!; eauto.
  - destruct Hq as [-> _]. wp_steps. split_and!; [by apply erase_ok|by destruct p|done|by left].
  - destruct Hq as (-> & d & Hd & Hc & Hw). wp_steps.  unfold Pending.wait.
    destruct (N.ltb_spec 0 (Pending.left_ d)) as [Hlt|Hle].
    + destruct (cancelled i); simpl; (split_and!; [done|done| |eauto]); (split; [done|]); exists d; eauto.
    + split_and!; [done|done| |].
      * apply conclude_ok; [done|by apply (pr_pendings _ Hp)|done|lia].
      * simpl. unfold conclude. repeat case_bool_decide; eauto.
  - destruct Hq as [-> _]. wp_steps. split_and!; [by apply erase_ok|by destruct p|done|by left].
  - wp_steps. split_and!; eauto.
  - wp_steps. split_and!; eauto.
Qed.

(** ** The reader *)

Lemma value_given {S A} (dflt : A) f (s : S) :
  match given dflt f with Some a => value dflt f s = (s, Ok a) | None => ∃ what, value dflt f s = (s, Throw (NixError what)) end.
Proof. by destruct f; [..|eexists]. Qed.

Lemma ack_fields_given {S} o (s : S) :
  match ack_of o with Some a => ack_fields o s = (s, Ok a) | None => ∃ what, ack_fields o s = (s, Throw (NixError what)) end.
Proof.
  unfold ack_of, ack_fields, mbind, M_bind. by destruct (Object.status o); [..|eexists]; (destruct (Object.message o); [..|by eexists]);
    (destruct (Object.path o); [..|by eexists]); (destruct (Object.signatures o); [..|by eexists]).
Qed.

Definition read_object (id : N) (o : Object.t) (p : process) : process := with_log (log p ++ [(id, o)]) p.
(** The process after an ack reached a pending. *)
Definition acked (id : N) (h : nat) (d : Pending.t) (done : bool) (p : process) : process :=
  let p := with_pendings (<[h := d]> (pendings p)) p in
  if done then with_waiting (delete id (waiting p)) p else p.

(** What [readAcks_object] does. *)
Inductive object_case (o : Object.t) (p : process) : process * Prelude.result () → Prop :=
  | oc_bad what : object_case o p (p, Throw (NixError what))
  | oc_other id : waiting p !! id = None → object_case o p (read_object id o p, Ok tt)
  | oc_garbled id h what : waiting p !! id = Some h → ack_of o = None → object_case o p (read_object id o p, Throw (NixError what))
  | oc_ack id h d a : waiting p !! id = Some h → pendings p !! h = Some d → ack_of o = Some a →
      object_case o p (acked id h (Pending.ack a d).1 (Pending.ack a d).2 (read_object id o p), Ok tt).

Lemma readAcks_object_case o p : proc_ok p → object_case o p (readAcks_object o p).
Proof.
  intros Hp. unfold readAcks_object, mbind at 1, M_bind at 1. pose proof (value_given 0%N (Object.id o) p) as Hid.
  destruct (given 0%N (Object.id o)) as [id|]; [rewrite Hid|by destruct Hid as [what ->]; constructor].
  unfold mbind at 1, M_bind at 1, modify. fold (read_object id o p). set (p1 := read_object id o p). unfold mbind at 1, M_bind at 1, get.
  change (waiting p1) with (waiting p). destruct (waiting p !! id) as [h|] eqn:Hw; [|by constructor].
  destruct (pr_waiting _ Hp _ _ Hw) as [_ [d Hd]%lookup_lt_is_Some].
  pose proof (ack_fields_given o p1) as Hf. unfold mbind, M_bind, expect. change (pendings p1) with (pendings p).
  destruct (ack_of o) as [a|] eqn:Ha; [|by destruct Hf as [what ->]; econstructor].
  rewrite Hf, Hd. pose proof (oc_ack o p id h d a Hw Hd Ha) as Hc. unfold mret, M_ret. destruct (Pending.ack a d) as [d1 []]; exact Hc.
Qed.

Lemma acks_for_snoc id l x : acks_for id (l ++ [x]) = acks_for id l ++ (if bool_decide (x.1 = id) then option_list (ack_of x.2) else []).
Proof. unfold acks_for. rewrite omap_app. f_equal. simpl. case_bool_decide; [|done]. by destruct (ack_of x.2). Qed.

(** An object that reaches nobody, or that cannot be used. *)
Lemma read_object_ok id o p : proc_ok p → (∀ h, waiting p !! id = Some h → ack_of o = None) →
  proc_ok (read_object id o p) ∧ later None p (read_object id o p).
Proof.
  intros [Hid Hw Hd] Hno. split; [|by apply (Build_later _ p (read_object id o p)); [|eauto 10]].
  constructor; simpl; [done|done|]. intros h d Hh. destruct (Hd h d Hh). constructor; simpl; try done.
  - rewrite length_app. lia.
  - rewrite drop_app_le, acks_for_snoc by done. by apply prefix_app_r.
  - intros Hwh. destruct (po_waits0 Hwh) as (? & Hgot & ?). split_and!; [done| |done]. rewrite drop_app_le, acks_for_snoc by done. simpl.
    case_bool_decide as Hn; [|by rewrite app_nil_r]. subst id. by rewrite (Hno h Hwh), app_nil_r.
Qed.

(** One that is an ack for a request. *)
Lemma acked_pending_ok id h d a o p : proc_ok p → waiting p !! id = Some h → pendings p !! h = Some d → ack_of o = Some a →
  pending_ok (acked id h (Pending.ack a d).1 (Pending.ack a d).2 (read_object id o p)) h (Pending.ack a d).1.
Proof.
  intros Hp Hwh Hh Ha. destruct (pr_waiting _ Hp _ _ Hwh) as [-> _]. destruct (pr_pendings _ Hp h d Hh) as [Hborn _ Hwaits Hleft _ _].
  destruct (Hwaits Hwh) as (Hf & Hgot & Hlt). destruct (Hleft Hf) as [Hl Hr].
  assert (acks_for (id_of h) (drop (Pending.born d) (log p ++ [(id_of h, o)])) = Pending.got d ++ [a]) as Hacks.
  { rewrite drop_app_le, acks_for_snoc by done. simpl. by rewrite bool_decide_true, Ha, Hgot by done. }
  assert (log (acked (id_of h) h (Pending.ack a d).1 (Pending.ack a d).2 (read_object (id_of h) o p)) = log p ++ [(id_of h, o)]) as Hlog by by destruct (Pending.ack a d).2.
  assert (vlen (Pending.got d ++ [a]) = vlen (Pending.got d) + 1)%N as Hlen by by rewrite vlen_app.
  constructor; rewrite ?Hlog; cbn [Pending.ack fst snd Pending.born Pending.got Pending.failed Pending.left_ Pending.count Pending.res]; rewrite ?Hacks, ?Hlen, ?taken_snoc, ?Hr, ?Hl.
  - rewrite length_app. lia.
  - done.
  - destruct (N.eqb_spec (if (0 <? Pending.count d - vlen (Pending.got d))%N then (Pending.count d - vlen (Pending.got d) - 1)%N else (Pending.count d - vlen (Pending.got d))%N) 0) as [He|Hne].
    + unfold acked. cbn [waiting with_waiting with_pendings read_object with_log]. by rewrite lookup_delete_eq.
    + intros _. split_and!; [done|done|]. destruct (N.ltb_spec 0 (Pending.count d - vlen (Pending.got d))); lia.
  - intros _. split; [|done]. destruct (N.ltb_spec 0 (Pending.count d - vlen (Pending.got d))); lia.
  - by rewrite Hf.
  - lia.
Qed.

Lemma acked_ok id h d a o p : proc_ok p → waiting p !! id = Some h → pendings p !! h = Some d → ack_of o = Some a →
  let p' := acked id h (Pending.ack a d).1 (Pending.ack a d).2 (read_object id o p) in proc_ok p' ∧ later None p p'.
Proof.
  intros Hp Hwh Hh Ha p'. pose proof (acked_pending_ok id h d a o p Hp Hwh Hh Ha) as Hnew. fold p' in Hnew.
  destruct (pr_waiting _ Hp _ _ Hwh) as [-> Hlt]. pose proof Hp as [Hid Hw Hd].
  assert (pendings p' = <[h := (Pending.ack a d).1]> (pendings p)) as Hpd by (subst p'; by destruct (Pending.ack a d).2).
  assert (lastId p' = lastId p ∧ log p' = log p ++ [(id_of h, o)]) as [Hli Hlog] by (subst p'; by destruct (Pending.ack a d).2).
  assert (∀ k, k ≠ id_of h → waiting p' !! k = waiting p !! k) as Hoth.
  { intros k Hne. subst p'. unfold acked. destruct (Pending.ack a d).2; [|done]. cbn [waiting with_waiting]. by rewrite lookup_delete_ne. }
  assert (waiting p' !! id_of h = Some h ∨ (Pending.left_ (Pending.ack a d).1 = 0%N ∧ waiting p' !! id_of h = None)) as Hme.
  { subst p'. unfold acked. destruct (Pending.ack a d).2 eqn:Hdone; [right|by left]. split; [by apply N.eqb_eq in Hdone|apply lookup_delete_eq]. }
  assert (∀ k, id_of k = id_of h → k = h) as Hinj by (unfold id_of; lia).
  split; constructor.
  - rewrite Hli, Hpd, Hid. unfold vlen. by rewrite length_insert.
  - intros k h'. rewrite Hpd, length_insert. destruct (decide (k = id_of h)) as [->|Hne]; [|rewrite Hoth by done; apply Hw].
    intros Hk. destruct Hme as [Hm|[_ Hm]]; [|congruence]. rewrite Hm in Hk. by injection Hk as <-.
  - intros k d'. rewrite Hpd. intros [(-> & <- & _)|[Hne Hk]]%list_lookup_insert_Some; [done|].
    destruct (Hd k d' Hk). assert (id_of k ≠ id_of h) as Hn by (intros E; by apply Hne, eq_sym, Hinj). constructor; rewrite ?Hlog, ?Hoth by done; try done.
    + rewrite length_app. lia.
    + rewrite drop_app_le, acks_for_snoc by done. by apply prefix_app_r.
    + intros Hwk. destruct (po_waits0 Hwk) as (? & Hgot & ?). split_and!; [done| |done]. rewrite drop_app_le, acks_for_snoc by done. simpl.
      rewrite bool_decide_false by done. by rewrite app_nil_r.
  - by rewrite Hpd, length_insert.
  - intros k d' Hk. rewrite Hpd. destruct (decide (k = h)) as [->|Hne].
    + assert (d' = d) as -> by congruence. exists (Pending.ack a d).1. rewrite list_lookup_insert_eq by done. split_and!; [done|done|by apply prefix_app_r| |].
      * simpl. destruct (0 <? Pending.left_ d)%N; lia.
      * intros _ Hpos _. destruct Hme as [|[Hz _]]; [done|lia].
    + exists d'. rewrite list_lookup_insert_ne by done. split_and!; try done. intros _ _ Hwk. rewrite Hoth; [done|]. by intros ?%Hinj.
Qed.

(** The pendings after those that wait were failed. *)
Lemma fail_all_lookup why (hs : list nat) (l : list Pending.t) (h : nat) :
  foldl (λ l h, alter (Pending.fail why) h l) l hs !! h = (if bool_decide (h ∈ hs) then Pending.fail why <$> l !! h else l !! h).
Proof.
  revert l. induction hs as [|k hs IH]; intros l; simpl; [done|]. rewrite IH. destruct (decide (h = k)) as [->|Hne].
  - rewrite list_lookup_alter_eq. rewrite (bool_decide_true (k ∈ k :: hs)) by by left. case_bool_decide; [|done]. by destruct (l !! k).
  - rewrite list_lookup_alter_ne by done. by rewrite (bool_decide_ext (h ∈ hs) (h ∈ k :: hs)) by set_solver.
Qed.

Definition fail_all (why : string) (p : process) : process :=
  with_waiting ∅ (with_pendings (foldl (λ l h, alter (Pending.fail why) h l) (pendings p) (map_to_list (waiting p)).*2) (with_child None p)).

Lemma readAcks_end_eq why p : readAcks_end why p = (fail_all why p, Ok tt).
Proof.
  unfold readAcks_end, mbind, M_bind, modify, get. simpl. change (waiting (with_child None p)) with (waiting p).
  assert (∀ hs q, forM_ hs (λ h, modify (λ p, with_pendings (alter (Pending.fail why) h (pendings p)) p)) q =
    (with_pendings (foldl (λ l h, alter (Pending.fail why) h l) (pendings q) hs) q, Ok tt)) as Hall.
  { induction hs as [|h hs IH]; intros q; simpl; [by destruct q|]. unfold mbind, M_bind, modify. by rewrite IH. }
  unfold modify in Hall. by rewrite Hall.
Qed.

Lemma push_fail_all_ok why p : proc_ok p → proc_ok (fail_all why p) ∧ later None p (fail_all why p).
Proof.
  intros [Hid Hw Hd].
  assert (∀ hs (l : list Pending.t), length (foldl (λ l h, alter (Pending.fail why) h l) l hs) = length l) as Hlen.
  { induction hs as [|h hs IH]; intros l; simpl; [done|]. by rewrite IH, length_alter. }
  assert (∀ (h : nat) d, pendings p !! h = Some d → waiting p !! id_of h = Some h → h ∈ (map_to_list (waiting p)).*2) as Hin.
  { intros h d _ Hwh. apply list_elem_of_fmap. exists (id_of h, h). by rewrite elem_of_map_to_list. }
  split; constructor; simpl.
  - rewrite Hid. unfold vlen. by rewrite Hlen.
  - done.
  - intros h d. rewrite fail_all_lookup. case_bool_decide as Hh.
    + intros (d0 & Hd0 & ->)%fmap_Some. destruct (Hd h d0 Hd0). constructor; simpl; try done. by intros m [= <-].
    + intros Hd0. destruct (Hd h d Hd0). constructor; simpl; done.
  - by rewrite Hlen.
  - intros h d Hh. rewrite fail_all_lookup, Hh. case_bool_decide as Hm; simpl.
    + exists (Pending.fail why d). simpl. split_and!; [done|done|done|lia|]. intros _ ?. lia.
    + exists d. split_and!; try done. intros _ _ Hwh. destruct Hm. by eapply Hin.
Qed.

Lemma reader_goes_eq pt p : reader_goes pt p = (with_reader ((λ r, Reader.mk (Reader.child r) pt) <$> reader p) p, Ok tt).
Proof. done. Qed.

(** The reader turns: still there unless it returned. *)
Lemma goes_alive pt p : pt ≠ RReturned → alive p → alive (with_reader ((λ r, Reader.mk (Reader.child r) pt) <$> reader p) p).
Proof. intros Hpt (r & Hr & _). exists (Reader.mk (Reader.child r) pt). simpl. by rewrite Hr. Qed.

Lemma readAcks_ok out p : proc_ok p →
  wp (readAcks out) (λ _ p', stepped None p p' ∧ (read_ok p → read_ok p')) p.
Proof.
  intros Hp. unfold readAcks. wp_steps. destruct (reader p) as [r|] eqn:Hr; [|simpl; wp_steps; by split].
  destruct r as [c pt]. cbn [fmap option_fmap option_map Reader.point]. destruct pt as [|why|]; [|..|wp_steps; by split].
  - assert (alive p) as Ha by (exists (Reader.mk c RReading); by rewrite Hr).
    assert (∀ q, proc_ok q → later None p q → stdinFd q = stdinFd p → reader q = reader p → stepped None p q ∧ (read_ok p → read_ok q)) as Hstill.
    { intros q Hq Hl Hs Hrq. split; [constructor; [done|done|]|].
      - intros Hi Hn. rewrite Hs in Hn. by destruct (Hi Hn) as [? _].
      - intros _ _. destruct Ha as (r & Hr' & ?). exists r. by rewrite Hrq. }
    assert (∀ q w, proc_ok q → later None p q → stdinFd q = stdinFd p → reader q = reader p →
      wp (reader_goes (REnding w)) (λ _ p', stepped None p p' ∧ (read_ok p → read_ok p')) q) as Hends.
    { intros q w Hq Hl Hs Hrq. exists tt. eexists. split; [apply reader_goes_eq|]. split; [constructor|].
      - by apply (proc_ok_same q).
      - destruct Hl. by constructor.
      - intros Hi Hn. simpl in Hn. rewrite Hs in Hn. by destruct (Hi Hn) as [? _].
      - intros _ _. apply goes_alive; [done|]. destruct Ha as (r & Hr' & ?). exists r. by rewrite Hrq. }
    destruct out as [[o|]| |w]; [|wp_steps; by apply Hstill|by apply Hends|by apply Hends].
    unfold wp, catching. destruct (readAcks_object_case o p Hp) as [what|id Hw|id h what Hw Ha'|id h d a Hw Hd Ha'].
    + by apply Hends.
    + exists tt. eexists. split; [done|]. apply Hstill; [..|done|done]; by apply read_object_ok; [|congruence].
    + apply Hends; [..|done|done]; by apply read_object_ok.
    + exists tt. eexists. split; [done|]. destruct (acked_ok id h d a o p Hp Hw Hd Ha') as [H1 H2].
      apply Hstill; [done|done|by destruct (Pending.ack a d).2..].
  - exists tt. eexists. split; [unfold mbind, M_bind; rewrite readAcks_end_eq; apply reader_goes_eq|].
    destruct (push_fail_all_ok why p Hp) as [H1 [H2 H3]]. split; [constructor|].
    + by apply (proc_ok_same (fail_all why p)).
    + by constructor.
    + intros _ _. simpl. split; [|done]. rewrite Hr. intros (r & [= <-] & Hne). done.
    + by intros _ Hn.
Qed.

(** ** The number of requests only grows *)

Definition grows (p p' : process) : Prop := length (pendings p) ≤ length (pendings p').
#[export] Instance grows_preorder : PreOrder grows.
Proof. unfold grows. split; [by intros p|intros p q r; lia]. Qed.

Lemma keeps_catching {S A} (P : S → S → Prop) `{!PreOrder P} (m : M S A) handler :
  keeps P m → (∀ w, keeps P (handler w)) → keeps P (catching m handler).
Proof.
  intros Hm Hh s. specialize (Hm s). unfold exec, catching in *. destruct (m s) as [s' [a|[]]]; try done. etrans; [exact Hm|]. apply Hh.
Qed.

Ltac growing :=
  repeat first
    [ apply grows_preorder | apply keeps_ret | apply keeps_throw | apply keeps_get | apply keeps_expect | apply keeps_catching | apply keeps_forM
    | apply keeps_bind | match goal with |- ∀ _, _ => intro end
    | match goal with |- keeps _ (match ?x with _ => _ end) => destruct x end
    | apply keeps_modify; intros ?; unfold grows; simpl; rewrite ?length_app, ?length_insert, ?length_alter; lia ].

Lemma pushWait_grows i q : keeps grows (pushWait i q).
Proof. unfold pushWait, enter, ensureChild. growing. Qed.
Lemma readAcks_grows out : keeps grows (readAcks out).
Proof. unfold readAcks, readAcks_object, ack_fields, value, readAcks_end, reader_goes. growing. Qed.

Lemma step_grows ev y : grows (proc y) (proc (exec (step ev) y)).
Proof.
  destruct ev as [l|k i|out|]; unfold exec, step, on_proc.
  - reflexivity.
  - unfold mbind, M_bind, get, zoom, modify. destruct (requests y !! k) as [q|]; [|reflexivity].
    pose proof (pushWait_grows i q (proc y)) as H. unfold exec in H. by destruct (pushWait i q (proc y)) as [p' []].
  - unfold zoom. pose proof (readAcks_grows out (proc y)) as H. unfold exec in H. by destruct (readAcks out (proc y)) as [p' []].
  - apply Nat.le_refl.
Qed.

(** ** The invariant *)

(** Fewer requests than there are numbers. *)
Definition small (y : system) : Prop := (vlen (pendings (proc y)) + 1 < 2 ^ 64)%N.

Lemma small_before ev y : small (exec (step ev) y) → small y.
Proof. pose proof (step_grows ev y) as Hg. unfold small, grows, vlen in *. lia. Qed.

Record sys_inv (y : system) : Prop := {
  ps_proc : proc_ok (proc y);
  ps_requests : Forall (request_ok (proc y)) (requests y);
  ps_handles : ∀ (k k' : nat) q q' h, requests y !! k = Some q → requests y !! k' = Some q' → handle q = Some h → handle q' = Some h → k = k';
  ps_idle : destroyed y = false → idle_ok (proc y);
  ps_destroyed : destroyed y = true → Forall (λ q, ended q = true) (requests y);
}.

Lemma handle_lt p q h : request_ok p q → handle q = Some h → h < length (pendings p).
Proof.
  unfold request_ok, handle. destruct (at_ q); try done; intros Hr [= <-].
  all: first [destruct Hr as (_ & d & l & Hd & _); by eapply lookup_lt_Some|destruct Hr as (_ & d & Hd & _); by eapply lookup_lt_Some].
Qed.

Definition ev_starts (ev : event) : Prop := ∀ k i, ev = Run k i → starts_thread (starting i).

Lemma run_inv k i y q : small y → sys_inv y → requests y !! k = Some q →
  wp (step (Run k i)) (λ _ y', sys_inv y' ∧ (read_ok (proc y) → starts_thread (starting i) → read_ok (proc y')) ∧
    ∃ p' pt, y' = mkSystem p' (<[k := mkRequest (paths q) pt]> (requests y)) (destroyed y) ∧ pushWait i q (proc y) = (p', Ok pt)) y.
Proof.
  intros Hs Hy Hq. pose proof Hy as [Hp Hr Hh Hi Hd]. pose proof (Forall_lookup_1 _ _ _ _ Hr Hq) as Hrq.
  destruct (pushWait_ok i q (proc y)) as (pt & p' & Hw & [Hp' Hl Hi'] & Hread & Hq' & Hhd); [done|done|done| |].
  { intros He. apply Hi. destruct (destroyed y); [|done]. pose proof (Forall_lookup_1 _ _ _ _ (Hd eq_refl) Hq). simpl in *. congruence. }
  unfold step. wp_steps. rewrite Hq. exists tt, (mkSystem p' (<[k := mkRequest (paths q) pt]> (requests y)) (destroyed y)).
  split; [unfold mbind, M_bind, on_proc, zoom; by rewrite Hw|]. split; [|split; [done|eauto]].
  assert (∀ (j : nat) v, j ≠ k → requests y !! j = Some v → ∀ h, handle v = Some h → handle (mkRequest (paths q) pt) ≠ Some h) as Hother.
  { intros j v Hj Hv h Hvh Hqh. destruct Hhd as [Hn|[Hn|[_ Hn]]]; [congruence| |].
    - apply Hj. eapply Hh; [done..|congruence].
    - apply (handle_lt (proc y)) in Hvh; [|by apply (Forall_lookup_1 _ _ _ _ Hr Hv)]. rewrite Hn in Hqh. injection Hqh. lia. }
  constructor; simpl; [done|..].
  - apply Forall_lookup. intros j v [(-> & <- & _)|[Hne Hv]]%list_lookup_insert_Some; [done|].
    apply (request_ok_later (handle q) (proc y)); [|done|by apply (Forall_lookup_1 _ _ _ _ Hr Hv)].
    destruct (handle q) as [h|] eqn:Hhq; [left|by right]. intros Hv'. destruct Hne. by eapply Hh.
  - intros j j' v v' h [(-> & <- & _)|[Hne Hv]]%list_lookup_insert_Some [(-> & <- & _)|[Hne' Hv']]%list_lookup_insert_Some H1 H2.
    + done.
    + by destruct (Hother j' v' (not_eq_sym Hne') Hv' h H2).
    + by destruct (Hother j v (not_eq_sym Hne) Hv h H1).
    + by eapply Hh.
  - auto.
  - intros Hdd. apply Forall_insert; [by apply Hd|]. pose proof (Forall_lookup_1 _ _ _ _ (Hd Hdd) Hq) as He. simpl in He.
    unfold pushWait, ended in *. destruct (at_ q); try done; unfold mret, M_ret in Hw; injection Hw as <- <-; done.
Qed.

Lemma step_inv ev y : small y → sys_inv y → enabled ev y = true →
  wp (step ev) (λ _ y', sys_inv y' ∧ (ev_starts ev → ev ≠ Destroy → read_ok (proc y) → read_ok (proc y'))) y.
Proof.
  intros Hs Hy Hen. pose proof Hy as [Hp Hr Hh Hi Hd]. destruct ev as [l|k i|out|].
  - unfold step. wp_steps. simpl in Hen. split; [|done]. constructor; simpl; [done| | |done|].
    + apply Forall_app. split; [done|by constructor].
    + intros k k' q q' h [[_ Hk]|[-> <-]]%lookup_snoc_Some [[_ Hk']|[-> <-]]%lookup_snoc_Some; try done. by apply Hh.
    + intros He. by rewrite He in Hen.
  - destruct (requests y !! k) as [q|] eqn:Hq.
    + eapply wp_mono; [by apply run_inv|]. intros _ y' (? & Hrd & _). split; [done|]. intros He _ Ha. apply Hrd; [done|]. by eapply He.
    + unfold step. wp_steps. rewrite Hq. by wp_steps.
  - unfold step, on_proc. apply wp_zoom. eapply wp_mono; [by apply readAcks_ok|]. intros _ p' [[Hp' Hl Hi'] Hrd]. split; [|auto]. constructor; simpl; auto.
    eapply Forall_impl; [exact Hr|]. intros q. apply (request_ok_later None); [by right|done].
  - unfold step. wp_steps. simpl in Hen. apply andb_prop in Hen as [_ Hen]. split; [|done]. constructor; simpl; try done.
    + by apply (proc_ok_same (proc y)).
    + intros _. apply Forall_forall. intros q Hq. rewrite forallb_forall in Hen. apply Hen. by apply list_elem_of_In.
Qed.

Lemma push_reachable_inv ok y : reachable ok y → small y → sys_inv y.
Proof.
  induction 1 as [|y ev Hr IH Hok Hen]; intros Hs.
  - constructor; simpl; [by constructor|done|done| |done]. intros _ _. split; [by intros (r & ? & ?)|done].
  - assert (small y) as Hs' by by eapply small_before.
    destruct (wp_exec _ _ _ (step_inv ev y Hs' (IH Hs') Hen)) as (? & ? & ? & _). done.
Qed.

Lemma push_reachable_read (ok : event → Prop) y :
  (∀ ev, ok ev → ev_starts ev) → reachable ok y → small y → destroyed y = false → read_ok (proc y).
Proof.
  intros Hst. induction 1 as [|y ev Hr IH Hok Hen]; intros Hs; [by intros _ Hn|].
  assert (small y) as Hs' by by eapply small_before.
  destruct (wp_exec _ _ _ (step_inv ev y Hs' (push_reachable_inv _ _ Hr Hs') Hen)) as (a & Ha & _ & Hread).
  assert (ev = Destroy ∨ (ev ≠ Destroy ∧ destroyed (exec (step ev) y) = destroyed y)) as [->|[Hne ->]]; [|done|].
  - destruct ev as [l|k i|out|]; [right; split; [done|]..|by left]; [done| |].
    + unfold exec, step, on_proc, mbind, M_bind, get, zoom, modify. destruct (requests y !! k) as [q|]; [|done]. by destruct (pushWait i q (proc y)) as [p' []].
    + unfold exec, step, on_proc, zoom. by destruct (readAcks out (proc y)).
  - intros Hd. auto.
Qed.

(** ** Nobody is forgotten *)

Lemma reader_ends_fails out why p (h : nat) d :
  Reader.point <$> reader p = Some (REnding why) → waiting p !! id_of h = Some h → pendings p !! h = Some d →
  pendings (exec (readAcks out) p) !! h = Some (Pending.fail why d).
Proof.
  intros Hr Hw Hd. unfold readAcks, exec, mbind, M_bind, get. rewrite Hr, readAcks_end_eq. simpl. rewrite fail_all_lookup, Hd, bool_decide_true; [done|].
  apply list_elem_of_fmap. exists (id_of h, h). by rewrite elem_of_map_to_list.
Qed.

Lemma readAcks_left out p (h : nat) d : proc_ok p → pendings p !! h = Some d →
  ∃ d', pendings (exec (readAcks out) p) !! h = Some d' ∧ (Pending.left_ d' ≤ Pending.left_ d)%N.
Proof.
  intros Hp Hd. destruct (wp_exec _ _ _ (readAcks_ok out p Hp)) as (_ & _ & [_ [_ Hl] _] & _).
  destruct (Hl h d Hd) as (d' & ? & _ & _ & ? & _). eauto.
Qed.

(** After the child's output ended the next step of the reader leaves nothing open. *)
Lemma eof_closes out p (h : nat) d : proc_ok p → pendings p !! h = Some d →
  (Pending.left_ d = 0%N ∨ (waiting p !! id_of h = Some h ∧ alive p)) →
  ∃ d', pendings (exec (readAcks out) (exec (readAcks Eof) p)) !! h = Some d' ∧ Pending.left_ d' = 0%N.
Proof.
  intros Hp Hd Hcase. destruct (wp_exec _ _ _ (readAcks_ok Eof p Hp)) as (_ & _ & [Hp1 _ _] & _).
  destruct (readAcks_left Eof p h d Hp Hd) as (d1 & Hd1 & Hle). destruct (readAcks_left out _ h d1 Hp1 Hd1) as (d2 & Hd2 & Hle2).
  destruct Hcase as [Hz|[Hw (r & Hr & Hpt)]]; [exists d2; split; [done|lia]|]. destruct r as [c pt]. destruct pt as [|why|]; [| |done].
  - rewrite (reader_ends_fails out "niks3 push exited" _ h d); [by eexists| | |]; unfold exec, readAcks, mbind, M_bind, get; rewrite Hr; simpl; by rewrite ?Hr.
  - assert (d1 = Pending.fail why d) as ->; [|simpl in Hle2; exists d2; split; [done|lia]].
    rewrite (reader_ends_fails Eof why p h d) in Hd1; [by injection Hd1|by rewrite Hr|done|done].
Qed.

(** C21. No request waits without a reason, and none outlives the child.  If reader threads can be started, a request with acks
    outstanding is registered under its number and the child's reader is at work; every step of every thread returns (so the join
    of an earlier reader never waits for the lock its caller holds); and when the child's output ends,
    the reader's next step leaves every request that waits with an answer at its next look. *)
Theorem push_waiters_answered y (k : nat) q id h :
  reachable ev_starts y → small y → requests y !! k = Some q → at_ q = QWait id h →
  (∃ d, pendings (proc y) !! h = Some d ∧ ((0 < Pending.left_ d)%N → waiting (proc y) !! id = Some h ∧ alive (proc y))) ∧
  (∀ ev, enabled ev y = true → ∃ y', step ev y = (y', Ok tt)) ∧
  ∀ out i, ∃ pt p', let p2 := exec (readAcks out) (exec (readAcks Eof) (proc y)) in pushWait i q p2 = (p', Ok pt) ∧ pt ≠ QWait id h.
Proof.
  intros Hr Hs Hq Hat. pose proof (push_reachable_inv _ _ Hr Hs) as Hy. pose proof Hy as [Hp Hrs _ Hi Hd].
  pose proof (Forall_lookup_1 _ _ _ _ Hrs Hq) as Hrq. unfold request_ok in Hrq. rewrite Hat in Hrq. destruct Hrq as (-> & d & Hh & Hc & Hw).
  assert (destroyed y = false) as Hnd.
  { destruct (destroyed y); [|done]. pose proof (Forall_lookup_1 _ _ _ _ (Hd eq_refl) Hq) as He. unfold ended in He. by rewrite Hat in He. }
  assert ((0 < Pending.left_ d)%N → waiting (proc y) !! id_of h = Some h ∧ alive (proc y)) as Hopen.
  { intros Hlt. split; [by apply Hw|]. apply (push_reachable_read _ _ (λ ev H, H) Hr Hs Hnd). intros Hn.
    destruct (Hi Hnd Hn) as [_ He]. specialize (Hw Hlt). by rewrite He in Hw. }
  split_and!; [by exists d| |].
  - intros ev Hen. destruct (step_inv ev y Hs Hy Hen) as ([] & y' & ? & _). eauto.
  - intros out i. destruct (eof_closes out (proc y) h d Hp Hh) as (d' & Hd' & Hz).
    { destruct (decide (Pending.left_ d = 0%N)); [by left|right; apply Hopen; lia]. }
    set (p2 := exec (readAcks out) _) in *.
    exists (conclude (id_of h) h (Pending.res d')), p2. cbv zeta. split; [|unfold conclude; by repeat case_bool_decide].
    unfold pushWait. rewrite Hat. unfold mbind, M_bind, get, expect. rewrite Hd'. unfold mret, M_ret, Pending.wait. by rewrite Hz.
Qed.

(** ** What a request returns *)

(** The answer to a request: as many good acks for its number as it has paths, the first since it was made, and their
    signatures.  If the child acks a path of a request no more often than the request names it, and no other path, then these acks
    are for the paths of the request. *)
Definition answer (y : system) (id : N) (paths : list string) (s : gmap string (gset string)) : Prop :=
  ∃ born l, l `prefix_of` acks_for id (drop born (log (proc y))) ∧ length paths ≤ length l ∧ (paths ≠ [] → length l = length paths) ∧
    Forall good l ∧ s = Result.signatures (taken l) ∧
    (Ack.path <$> acks_for id (drop born (log (proc y))) ⊆+ paths → Ack.path <$> l ≡ₚ paths).

(** C22. pushWait returns only after the child has sent as many acks for the number of this very request as it has paths, all of
    them good, however requests and acks interleave; the signatures it returns are those of these acks.  The program does not
    compare the paths of the acks with those of the request: if the child acks no path of it twice, and no other, every
    path was acked. *)
Theorem push_returned ok y (k : nat) q id h s :
  reachable ok y → small y → requests y !! k = Some q → at_ q = QReturned id h s → answer y id (paths q) s.
Proof.
  intros Hr Hs Hq Hat. destruct (push_reachable_inv _ _ Hr Hs) as [Hp Hrs _ _ _].
  pose proof (Forall_lookup_1 _ _ _ _ Hrs Hq) as Hrq. unfold request_ok in Hrq. rewrite Hat in Hrq. destruct Hrq as (-> & d & l & Hd & Hc & Hpre & Hle & Hg & ->).
  destruct (pr_pendings _ Hp h d Hd) as [_ Hgot _ _ _ Hb]. exists (Pending.born d), l. unfold vlen in *.
  apply prefix_length in Hpre as Hlen. assert (length (paths q) ≤ length l) as Hn by lia.
  assert (l `prefix_of` acks_for (id_of h) (drop (Pending.born d) (log (proc y)))) as Hall by by etrans.
  split_and!; [done|done| |done|done|].
  - intros Hne. assert (0 < length (paths q)) by (destruct (paths q); simpl; [done|lia]). lia.
  - intros Hsub. apply submseteq_length_Permutation; [|by rewrite length_fmap].
    etrans; [|exact Hsub]. apply fmap_submseteq. destruct Hall as [rest ->]. apply submseteq_inserts_r. done.
Qed.
