(* ===== verification/PushRefine.v ===== *)
(** * Publishing: the code does what its model says

    Runs of [PushProcess] with a child that acks each path of each request once, and in which nobody gives up, are runs of the abstract
    protocol of src/spec/push.qnt that routes acks by number. *)

From S2P Require Import Prelude Push PushSystem.

(** * Publishing: the abstract protocol

    src/spec/push.qnt, a model kept beside the code: requests name paths, the child acks each of them, and acks are routed by
    the number of the request or, as an earlier version did, by path.  Here for any requests and paths. *)

Module PushSpec.

Record state := mk {
  sent : gmap N (gset string);
  left_ : gmap N Z;
  inflight : gset (N * string);
  byPath : gmap string N;
}.

Definition init : state := mk ∅ ∅ ∅ ∅.

Definition asked (r : N) (ps : gset string) : gset (N * string) := set_map (pair r) ps.

Definition send (r : N) (ps : gset string) (s : state) : option state :=
  if bool_decide (sent s !! r = None ∧ ps ≠ ∅) then
    Some (mk (<[r := ps]> (sent s)) (<[r := Z.of_nat (size ps)]> (left_ s)) (inflight s ∪ asked r ps)
      (set_fold (λ p m, <[p := r]> m) (byPath s) ps))
  else None.

Definition ack (KEY_BY_ID : bool) (r : N) (p : string) (s : state) : option state :=
  if bool_decide ((r, p) ∈ inflight s) then
    let rest := inflight s ∖ {[(r, p)]} in
    if KEY_BY_ID then
      n ← left_ s !! r;
      Some (mk (sent s) (<[r := (n - 1)%Z]> (left_ s)) rest (byPath s))
    else
      match byPath s !! p with
      | Some r' => n ← left_ s !! r'; Some (mk (sent s) (<[r' := (n - 1)%Z]> (left_ s)) rest (delete p (byPath s)))
      | None => Some (mk (sent s) (left_ s) rest (byPath s))
      end
  else None.

Inductive reachable (KEY_BY_ID : bool) : state → Prop :=
  | reach_init : reachable KEY_BY_ID init
  | reach_send s s' r ps : reachable KEY_BY_ID s → send r ps s = Some s' → reachable KEY_BY_ID s'
  | reach_ack s s' r p : reachable KEY_BY_ID s → ack KEY_BY_ID r p s = Some s' → reachable KEY_BY_ID s'.

(** Once the child has answered everything, no request may still be waiting. *)
Definition allAnswered (s : state) : Prop := inflight s = ∅ → ∀ r n, left_ s !! r = Some n → n = 0%Z.
Definition noOverCount (s : state) : Prop := ∀ r n, left_ s !! r = Some n → (0 <= n)%Z.
Definition safety (s : state) : Prop := allAnswered s ∧ noOverCount s.

(** ** Routing by number is safe *)

(** What the child owes a request. *)
Definition owed (r : N) (fl : gset (N * string)) : gset (N * string) := filter (λ x, x.1 = r) fl.

Record counted (s : state) : Prop := {
  ct_sent : ∀ r, is_Some (sent s !! r) ↔ is_Some (left_ s !! r);
  ct_known : ∀ r p, (r, p) ∈ inflight s → is_Some (left_ s !! r);
  ct_left : ∀ r n, left_ s !! r = Some n → n = Z.of_nat (size (owed r (inflight s)));
}.

Lemma owed_asked r ps fl : (∀ p, (r, p) ∉ fl) → size (owed r (fl ∪ asked r ps)) = size ps.
Proof.
  intros Hno. replace (owed r (fl ∪ asked r ps)) with (asked r ps).
  - unfold asked, set_map. rewrite size_list_to_set, length_fmap; [done|]. apply NoDup_fmap; [by intros ? ? [= ->]|apply NoDup_elements].
  - apply set_eq. intros [r' p]. unfold owed, asked. rewrite elem_of_filter, elem_of_union, !elem_of_map. simpl. naive_solver.
Qed.
Lemma owed_asked_ne r r' ps fl : r' ≠ r → owed r' (fl ∪ asked r ps) = owed r' fl.
Proof. intros Hne. apply set_eq. intros [a p]. unfold owed, asked. rewrite !elem_of_filter, elem_of_union, elem_of_map. simpl. naive_solver. Qed.
Lemma owed_acked r p fl : (r, p) ∈ fl → size (owed r fl) = S (size (owed r (fl ∖ {[(r, p)]}))).
Proof.
  intros Hin. replace (owed r fl) with ({[(r, p)]} ∪ owed r (fl ∖ {[(r, p)]})).
  - rewrite size_union, size_singleton by (unfold owed; set_solver). done.
  - apply set_eq. intros x. unfold owed. rewrite elem_of_union, !elem_of_filter, elem_of_difference, elem_of_singleton.
    destruct (decide (x = (r, p))) as [->|]; naive_solver.
Qed.
Lemma owed_acked_ne r r' p fl : r' ≠ r → owed r' (fl ∖ {[(r, p)]}) = owed r' fl.
Proof. intros Hne. apply set_eq. intros [a q]. unfold owed. rewrite !elem_of_filter, elem_of_difference, elem_of_singleton. naive_solver. Qed.

Lemma send_counted r ps s s' : counted s → send r ps s = Some s' → counted s'.
Proof.
  intros [Hs Hk Hl]. unfold send. case_bool_decide as Hg; [|done]. intros [= <-]. destruct Hg as [Hnew _].
  assert (left_ s !! r = None) as Hnone by (apply eq_None_not_Some; rewrite <-Hs, Hnew; by intros []).
  constructor; simpl.
  - intros r'. destruct (decide (r' = r)) as [->|Hne]; [by rewrite !lookup_insert_eq|]. rewrite !lookup_insert_ne by done. apply Hs.
  - intros r' p [Hin|(? & [= -> ->] & _)%elem_of_map]%elem_of_union; [|by rewrite lookup_insert_eq].
    destruct (decide (r' = r)) as [->|Hne]; [by rewrite lookup_insert_eq|]. rewrite lookup_insert_ne by done. by eapply Hk.
  - intros r' n. destruct (decide (r' = r)) as [->|Hne].
    + rewrite lookup_insert_eq. intros [= <-]. rewrite owed_asked; [done|]. intros p Hin%Hk. by rewrite Hnone in Hin; destruct Hin.
    + rewrite lookup_insert_ne by done. rewrite owed_asked_ne by done. apply Hl.
Qed.

Lemma ack_counted r p s s' : counted s → ack true r p s = Some s' → counted s'.
Proof.
  intros [Hs Hk Hl]. unfold ack. case_bool_decide as Hin; [|done]. simpl. destruct (left_ s !! r) as [m|] eqn:Hm; [|done]. intros [= <-].
  assert (∀ r', is_Some (<[r := (m - 1)%Z]> (left_ s) !! r') ↔ is_Some (left_ s !! r')) as Hdom.
  { intros r'. rewrite lookup_insert_is_Some'. split; [intros [->|?]; [by rewrite Hm|done]|by right]. }
  constructor; cbn [left_ sent inflight].
  - intros r'. by rewrite Hdom.
  - intros r' q [? _]%elem_of_difference. rewrite Hdom. by eapply Hk.
  - intros r' n. destruct (decide (r' = r)) as [->|Hne].
    + rewrite lookup_insert_eq. intros [= <-]. rewrite (Hl r m Hm), (owed_acked r p) by done. lia.
    + rewrite lookup_insert_ne by done. rewrite owed_acked_ne by done. apply Hl.
Qed.

Lemma reachable_counted s : reachable true s → counted s.
Proof.
  induction 1; [|by eapply send_counted|by eapply ack_counted].
  constructor; simpl; [by intros r; rewrite !lookup_empty|set_solver|done].
Qed.

(** The model is safe with any number of requests and paths if acks are routed by number. *)
Lemma push_spec_safe s : reachable true s → safety s.
Proof.
  intros [_ _ Hl]%reachable_counted. split.
  - intros Hno r n Hr. rewrite (Hl r n Hr), Hno. done.
  - intros r n Hr. rewrite (Hl r n Hr). lia.
Qed.

(** Routed by path, a request can be left waiting: two requests for one path. *)
Definition both_sent : state := default init (send 1 {[ "a" ]} init ≫= send 2 {[ "a" ]}).
Definition both_acked : state := default init (ack false 1 "a" both_sent ≫= ack false 2 "a").
Lemma push_by_path_unsafe : reachable false both_acked ∧ ¬ allAnswered both_acked.
Proof.
  split.
  - eapply (reach_ack _ (default init (ack false 1 "a" both_sent)) _ 2 "a"); [|vm_compute; reflexivity].
    eapply (reach_ack _ both_sent _ 1 "a"); [|vm_compute; reflexivity].
    eapply (reach_send _ (default init (send 1 {[ "a" ]} init)) _ 2 {[ "a" ]}); [|vm_compute; reflexivity].
    eapply (reach_send _ init _ 1 {[ "a" ]}); [constructor|vm_compute; reflexivity].
  - intros Hall. assert (inflight both_acked = ∅) as He by (vm_compute; reflexivity).
    assert (left_ both_acked !! 1%N = Some 1%Z) as Hl by (vm_compute; reflexivity). by specialize (Hall He _ _ Hl).
Qed.

End PushSpec.

Definition quiet (i : input) : Prop := starting i = Spawned ∧ unwritten i = None ∧ cancelled i = false.

(** What the child has to answer once this request has entered. *)
Definition new_asked (k : nat) (y : system) : gset (N * string) :=
  match requests y !! k with
  | Some (mkRequest l QEnter) => PushSpec.asked (u64 (lastId (proc y) + 1)) (list_to_set l)
  | _ => ∅
  end.

(** Runs with such a child: the acks it owes go along. *)
Inductive dutiful : system → gset (N * string) → Prop :=
  | du_new : dutiful new_system ∅
  | du_begin y o l : dutiful y o → NoDup l → l ≠ [] → dutiful (exec (step (Begin l)) y) o
  | du_run y o k i : dutiful y o → quiet i → dutiful (exec (step (Run k i)) y) (o ∪ new_asked k y)
  | du_noise y o : dutiful y o → dutiful (exec (step (Read (Line None))) y) o
  | du_ack y o obj id p : dutiful y o → (id, p) ∈ o → Object.id obj = Value id → Object.path obj = Value p → is_Some (ack_of obj) →
      dutiful (exec (step (Read (Line (Some obj)))) y) (o ∖ {[(id, p)]}).

Lemma read_keeps y out : destroyed (exec (step (Read out)) y) = destroyed y ∧ requests (exec (step (Read out)) y) = requests y.
Proof. unfold exec, step, on_proc, zoom. by destruct (readAcks out (proc y)). Qed.

Lemma dutiful_reachable y o : dutiful y o → reachable ev_starts y ∧ destroyed y = false ∧ Forall (λ q, NoDup (paths q) ∧ paths q ≠ []) (requests y).
Proof.
  induction 1 as [|y o l _ (Hr & Hd & Hp) Hn Hne|y o k i _ (Hr & Hd & Hp) (Hs & _)|y o _ (Hr & Hd & Hp)|y o obj id p _ (Hr & Hd & Hp)].
  - split_and!; [constructor|done|done].
  - split_and!; [apply reach_step; [done|done|by simpl; rewrite Hd]|done|]. apply Forall_app. split; [done|by apply Forall_singleton].
  - split; [apply reach_step; [done| |done]|].
    { intros ? ? [= <- <-] w. by rewrite Hs. }
    unfold exec, step, on_proc, mbind, M_bind, get, zoom, modify. destruct (requests y !! k) as [q|] eqn:Hq; [|done].
    destruct (pushWait i q (proc y)) as [p' []]; [|done]. simpl. split; [done|]. apply Forall_insert; [done|]. by apply (Forall_lookup_1 _ _ _ _ Hp Hq).
  - destruct (read_keeps y (Line None)) as [-> ->]. split_and!; [by apply reach_step|done|done].
  - destruct (read_keeps y (Line (Some obj))) as [-> ->]. split_and!; [by apply reach_step|done|done].
Qed.

(** ** The simulation *)

Record mirrors (p : process) (s : PushSpec.state) : Prop := {
  mi_left : ∀ (h : nat) d, pendings p !! h = Some d → PushSpec.left_ s !! id_of h = Some (Z.of_N (Pending.left_ d));
  mi_known : ∀ id, is_Some (PushSpec.left_ s !! id) → ∃ h, id = id_of h ∧ h < length (pendings p);
  mi_open : ∀ (h : nat) d, pendings p !! h = Some d → (0 < Pending.left_ d)%N → waiting p !! id_of h = Some h;
  mi_reader : ∀ r, reader p = Some r → Reader.point r = RReading;
}.

(** No request gives up. *)
Definition steady (p : process) (q : request) : Prop :=
  match at_ q with
  | QUnwritten _ _ _ => False
  | QCancelled _ h _ => ∃ d, pendings p !! h = Some d ∧ Pending.left_ d = 0%N
  | _ => True
  end.

Lemma mirrors_same p p' s : same p p' → (∀ r, reader p' = Some r → Reader.point r = RReading) → mirrors p s → mirrors p' s.
Proof. intros [_ Hw Hp _] Hr [Hl Hk Ho _]. constructor; rewrite ?Hp, ?Hw; done. Qed.

Lemma register_mirrors p s l s' : NoDup l →
  mirrors p s → PushSpec.send (id_of (length (pendings p))) (list_to_set l) s = Some s' → mirrors (register (vlen l) p) s'.
Proof.
  intros Hnd [Hl Hk Ho Hr]. unfold PushSpec.send. case_bool_decide; [|done]. intros [= <-].
  assert (∀ h : nat, h < length (pendings p) → id_of h ≠ id_of (length (pendings p))) as Hne by (unfold id_of; lia).
  constructor; simpl; [..|done].
  - intros h d [[Hlt Hd]|[-> <-]]%lookup_snoc_Some; [rewrite lookup_insert_ne by (symmetry; by apply Hne); by apply Hl|].
    rewrite lookup_insert_eq. simpl. rewrite size_list_to_set by done. unfold vlen. f_equal. lia.
  - intros id. rewrite lookup_insert_is_Some'. rewrite length_app. simpl. intros [<-|(h & -> & Hlt)%Hk]; [exists (length (pendings p))|exists h]; (split; [done|lia]).
  - intros h d [[Hlt Hd]|[-> <-]]%lookup_snoc_Some Hpos; [rewrite lookup_insert_ne by (symmetry; by apply Hne); by eapply Ho|]. by rewrite lookup_insert_eq.
Qed.

Lemma acked_mirrors p s (h : nat) d a o :
  mirrors p s → pendings p !! h = Some d → (0 < Pending.left_ d)%N → waiting p !! id_of h = Some h →
  ∀ s', PushSpec.left_ s' = <[id_of h := (Z.of_N (Pending.left_ d) - 1)%Z]> (PushSpec.left_ s) →
  mirrors (acked (id_of h) h (Pending.ack a d).1 (Pending.ack a d).2 (read_object (id_of h) o p)) s'.
Proof.
  intros [Hl Hk Ho Hr] Hd Hpos Hw s' Hs'. set (p' := acked _ _ _ _ _).
  assert (pendings p' = <[h := (Pending.ack a d).1]> (pendings p)) as Hpd by (subst p'; unfold acked; by destruct (Pending.ack a d).2).
  assert (reader p' = reader p) as Hrd by (subst p'; unfold acked; by destruct (Pending.ack a d).2).
  assert (Pending.left_ (Pending.ack a d).1 = Pending.left_ d - 1)%N as Hleft by (simpl; destruct (N.ltb_spec 0 (Pending.left_ d)); lia).
  assert (∀ k : nat, k ≠ h → id_of k ≠ id_of h) as Hne by (unfold id_of; lia).
  constructor; rewrite ?Hpd, ?Hs', ?Hrd, ?length_insert; [..|done].
  - intros k e [(-> & <- & _)|[Hkh Hk']]%list_lookup_insert_Some.
    + rewrite lookup_insert_eq, Hleft. f_equal. lia.
    + rewrite lookup_insert_ne by (symmetry; by apply Hne, not_eq_sym). by apply Hl.
  - intros id. rewrite lookup_insert_is_Some'. intros [<-|?%Hk]; [|done]. exists h. split; [done|by eapply lookup_lt_Some].
  - intros k e [(-> & <- & _)|[Hkh Hk']]%list_lookup_insert_Some Hp.
    + subst p'. unfold acked. destruct (Pending.ack a d).2 eqn:Hdone; [|done]. apply N.eqb_eq in Hdone. simpl in Hdone, Hp. lia.
    + assert (waiting p !! id_of k = Some k) as Hwk by by eapply Ho. subst p'. unfold acked. destruct (Pending.ack a d).2; [|done]. cbn [waiting with_waiting].
      by rewrite lookup_delete_ne by (symmetry; by apply Hne, not_eq_sym).
Qed.

Lemma enter_sim i q p s : (vlen (pendings p) + 1 < 2 ^ 64)%N → proc_ok p → idle_ok p → quiet i → at_ q = QEnter → NoDup (paths q) → paths q ≠ [] →
  mirrors p s → PushSpec.reachable true s →
  ∃ p' pt s', pushWait i q p = (p', Ok pt) ∧ PushSpec.reachable true s' ∧
    PushSpec.inflight s' = PushSpec.inflight s ∪ PushSpec.asked (u64 (lastId p + 1)) (list_to_set (paths q)) ∧ mirrors p' s' ∧ steady p' (mkRequest (paths q) pt).
Proof.
  intros Hs Hp Hi (Hsp & _) Hat Hnd Hne Hm Hr. destruct (enter_eq (starting i) (paths q) p Hs Hp Hi) as (p1 & [Hsame _ _ Hrd] & [(c & Hc & He)|[? _]]); [|done].
  pose proof (PushSpec.reachable_counted _ Hr) as [Hsent _ _]. pose proof Hsame as [_ _ Hpd _].
  assert (u64 (lastId p + 1) = id_of (length (pendings p))) as -> by (by rewrite (pr_lastId _ Hp), u64_small).
  destruct (PushSpec.send (id_of (length (pendings p))) (list_to_set (paths q)) s) as [s'|] eqn:Hsend.
  - exists (register (vlen (paths q)) p1), (QWrite (id_of (length (pendings p))) (length (pendings p)) c), s'. split_and!.
    + unfold pushWait. rewrite Hat. unfold catching. by rewrite He.
    + by eapply PushSpec.reach_send.
    + unfold PushSpec.send in Hsend. case_bool_decide; [|done]. by injection Hsend as <-.
    + apply (register_mirrors _ s); [done| |by rewrite Hpd]. apply (mirrors_same p); [done| |done].
      intros r [Hr'|?]%Hrd; [by apply (mi_reader _ _ Hm)|done].
    + done.
  - unfold PushSpec.send in Hsend. case_bool_decide as Hg; [done|]. destruct Hg. split.
    + apply eq_None_not_Some. rewrite Hsent. intros (h & Heq & Hlt)%(mi_known _ _ Hm). unfold id_of in Heq. lia.
    + destruct (paths q) as [|x l]; [done|]. simpl. set_solver.
Qed.

Lemma run_sim y (k : nat) i q s : small y → sys_inv y → destroyed y = false → requests y !! k = Some q → quiet i → NoDup (paths q) → paths q ≠ [] →
  mirrors (proc y) s → steady (proc y) q → PushSpec.reachable true s →
  ∃ p' pt s', pushWait i q (proc y) = (p', Ok pt) ∧ PushSpec.reachable true s' ∧
    PushSpec.inflight s' = PushSpec.inflight s ∪ new_asked k y ∧ mirrors p' s' ∧ steady p' (mkRequest (paths q) pt).
Proof.
  intros Hs [Hp Hrs _ Hi _] Hd Hq Hqt Hnd Hne Hm Hst Hr. pose proof (Forall_lookup_1 _ _ _ _ Hrs Hq) as Hrq.
  pose proof Hqt as (_ & Hw & Hc). unfold new_asked. rewrite Hq. destruct q as [l pt]. unfold steady, request_ok in *.
  destruct pt as [|id h fd|id h what|id h|id h m|id h sg|e]; simpl in *; rewrite ?union_empty_r_L.
  - apply (enter_sim i (mkRequest l QEnter)); auto.
  - exists (proc y), (QWait id h), s. unfold pushWait. simpl. by rewrite Hw.
  - done.
  - destruct Hrq as (-> & d & Hh & _). unfold pushWait, mbind, M_bind, get, expect. simpl. rewrite Hh, Hc. unfold mret, M_ret, Pending.wait.
    destruct (N.ltb_spec 0 (Pending.left_ d)).
    + by exists (proc y), (QWait (id_of h) h), s.
    + exists (proc y), (conclude (id_of h) h (Pending.res d)), s. split_and!; try done. unfold steady, conclude. simpl.
      repeat case_bool_decide; try done. exists d. split; [done|lia].
  - destruct Hrq as [-> _]. destruct Hst as (d & Hh & Hz). exists (with_waiting (delete (id_of h) (waiting (proc y))) (proc y)), (QThrew (CancelledWait m)), s.
    split_and!; try done. destruct Hm as [Hl Hk Ho Hrd]. constructor; simpl; try done. intros h' d' Hh' Hpos. rewrite lookup_delete_ne; [by eapply Ho|].
    unfold id_of. intros Heq. assert (h = h') as <- by lia. simplify_eq. lia.
  - by exists (proc y), (QReturned id h sg), s.
  - by exists (proc y), (QThrew e), s.
Qed.

Lemma ack_sim p obj id path s : proc_ok p → mirrors p s → PushSpec.reachable true s → read_ok p → idle_ok p →
  (id, path) ∈ PushSpec.inflight s → Object.id obj = Value id → Object.path obj = Value path → is_Some (ack_of obj) →
  ∃ p' s', readAcks (Line (Some obj)) p = (p', Ok tt) ∧ PushSpec.reachable true s' ∧ PushSpec.inflight s' = PushSpec.inflight s ∖ {[(id, path)]} ∧ mirrors p' s'.
Proof.
  intros Hp Hm Hr Hrd Hid Hin Hoid Hopath [a Ha]. pose proof (PushSpec.reachable_counted _ Hr) as [_ Hknown Hcount].
  destruct (Hknown _ _ Hin) as [n Hn]. destruct (mi_known _ _ Hm id) as (h & -> & [d Hd]%lookup_lt_is_Some); [by rewrite Hn|].
  pose proof (mi_left _ _ Hm h d Hd) as Hl. rewrite Hn in Hl. injection Hl as ->.
  assert (0 < Pending.left_ d)%N as Hpos by (specialize (Hcount _ _ Hn); rewrite (PushSpec.owed_acked _ _ _ Hin) in Hcount; lia).
  pose proof (mi_open _ _ Hm h d Hd Hpos) as Hw.
  assert (Reader.point <$> reader p = Some RReading) as Hreading.
  { destruct Hrd as (r & Hr' & _); [|rewrite Hr'; simpl; by rewrite (mi_reader _ _ Hm r Hr')]. intros Hn'. destruct (Hid Hn') as [_ He]. by rewrite He in Hw. }
  exists (acked (id_of h) h (Pending.ack a d).1 (Pending.ack a d).2 (read_object (id_of h) obj p)).
  eexists (PushSpec.mk (PushSpec.sent s) (<[id_of h := (Z.of_N (Pending.left_ d) - 1)%Z]> (PushSpec.left_ s)) (PushSpec.inflight s ∖ {[(id_of h, path)]}) (PushSpec.byPath s)).
  split_and!; [| |done|by apply (acked_mirrors p s)].
  - unfold readAcks, mbind, M_bind, get. rewrite Hreading. unfold catching, readAcks_object, mbind, M_bind. rewrite Hoid. simpl.
    rewrite Hw. pose proof (ack_fields_given obj (with_log (log p ++ [(id_of h, obj)]) p)) as Hf. rewrite Ha in Hf. rewrite Hf. unfold expect. rewrite Hd.
    unfold acked, read_object. unfold mret, M_ret, modify. simpl. by destruct (_ =? _)%N.
  - apply (PushSpec.reach_ack _ s _ (id_of h) path); [done|]. unfold PushSpec.ack. rewrite bool_decide_true by done. by rewrite Hn.
Qed.

Lemma steady_later mine p p' q : later mine p p' → steady p q → steady p' q.
Proof.
  intros [_ Hl]. unfold steady. destruct (at_ q); try done. intros (d & Hd & Hz). destruct (Hl h d Hd) as (d' & Hd' & _ & _ & Hle & _). exists d'. split; [done|lia].
Qed.

(** A run of the model goes along. *)
Definition simulated (y : system) (o : gset (N * string)) : Prop :=
  ∃ s, PushSpec.reachable true s ∧ PushSpec.inflight s = o ∧ mirrors (proc y) s ∧ Forall (steady (proc y)) (requests y).

Lemma run_simulated y o k i : dutiful y o → small y → quiet i → simulated y o → simulated (exec (step (Run k i)) y) (o ∪ new_asked k y).
Proof.
  intros Hdu Hs Hqt (s & Hr & <- & Hm & Hst). destruct (dutiful_reachable _ _ Hdu) as (Hreach & Hd & Hpaths).
  pose proof (push_reachable_inv _ _ Hreach Hs) as Hy. destruct (requests y !! k) as [q|] eqn:Hq.
  - destruct (Forall_lookup_1 _ _ _ _ Hpaths Hq) as [Hnd Hne].
    destruct (run_sim y k i q s) as (p' & pt & s' & Hw & Hr' & Hfl & Hm' & Hst'); try done; [by apply (Forall_lookup_1 _ _ _ _ Hst Hq)|].
    destruct (pushWait_ok i q (proc y) Hs (ps_proc _ Hy)) as (pt' & p'' & Hw' & [_ Hl _] & _);
      [by apply (Forall_lookup_1 _ _ _ _ (ps_requests _ Hy) Hq)|intros _; by apply (ps_idle _ Hy)|]. rewrite Hw in Hw'. injection Hw' as <- <-.
    exists s'. unfold exec, step, mbind, M_bind, get, on_proc, zoom, modify. rewrite Hq, Hw. simpl. split_and!; [done|done|done|].
    apply Forall_insert; [|done]. eapply Forall_impl; [exact Hst|]. intros v. by apply steady_later with (handle q).
  - exists s. unfold exec, step, mbind, M_bind, get, new_asked. rewrite Hq. simpl. by rewrite union_empty_r_L.
Qed.

Lemma ack_simulated y o obj id path : dutiful y o → small y → (id, path) ∈ o → Object.id obj = Value id → Object.path obj = Value path → is_Some (ack_of obj) →
  simulated y o → simulated (exec (step (Read (Line (Some obj)))) y) (o ∖ {[(id, path)]}).
Proof.
  intros Hdu Hs Hin Hoid Hop Ha (s & Hr & <- & Hm & Hst). destruct (dutiful_reachable _ _ Hdu) as (Hreach & Hd & _).
  pose proof (push_reachable_inv _ _ Hreach Hs) as Hy.
  destruct (ack_sim (proc y) obj id path s) as (p' & s' & He & Hr' & Hfl & Hm'); try done;
    [apply Hy|by apply (push_reachable_read ev_starts)|by apply (ps_idle _ Hy)|].
  destruct (wp_exec _ _ _ (readAcks_ok (Line (Some obj)) (proc y) (ps_proc _ Hy))) as (_ & _ & [_ Hl _] & _).
  unfold exec in Hl. rewrite He in Hl. exists s'. unfold exec, step, on_proc, zoom. rewrite He. simpl. split_and!; try done.
  eapply Forall_impl; [exact Hst|]. intros v. by apply steady_later with None.
Qed.

Lemma dutiful_simulated y o : dutiful y o → small y → simulated y o.
Proof.
  induction 1 as [|y o l Hdu IH Hn Hne|y o k i Hdu IH Hqt|y o Hdu IH|y o obj id p Hdu IH Hin Hoid Hop Ha]; intros Hs.
  - exists PushSpec.init. split_and!; [constructor|done| |done]. constructor; simpl; try done. intros id. rewrite lookup_empty. by intros [].
  - destruct (IH Hs) as (s & ? & ? & ? & Hst). exists s. split_and!; try done. apply Forall_app. by split; [|apply Forall_singleton].
  - apply small_before in Hs. apply run_simulated; auto.
  - apply small_before in Hs. destruct (IH Hs) as (s & ? & ? & Hm & ?). exists s.
    assert (proc (exec (step (Read (Line None))) y) = proc y ∧ requests (exec (step (Read (Line None))) y) = requests y) as [-> ->]; [|done].
    unfold exec, step, on_proc, zoom, readAcks, mbind, M_bind, get. destruct (reader (proc y)) as [r|] eqn:Hrd; [|done]. simpl.
    by rewrite (mi_reader _ _ Hm r Hrd).
  - apply small_before in Hs. eapply ack_simulated; eauto.
Qed.

(** C23. The code refines the protocol model it was designed with.  In every run with a child that acks each path of each request
    once, the acks outstanding per request are those of a run of the model that routes by number, with the same acks owed by the child; so,
    as the model is safe for any number of requests and paths, once the child has answered everything no request waits. *)
Theorem push_refines_spec y o : dutiful y o → small y →
  (∃ s, PushSpec.reachable true s ∧ PushSpec.inflight s = o ∧ mirrors (proc y) s) ∧
  (o = ∅ → ∀ (h : nat) d, pendings (proc y) !! h = Some d → Pending.left_ d = 0%N).
Proof.
  intros Hdu Hs. destruct (dutiful_simulated _ _ Hdu Hs) as (s & Hr & Ho & Hm & _). split; [by exists s|].
  intros -> h d Hd. destruct (PushSpec.push_spec_safe s Hr) as [Hall _]. specialize (Hall Ho _ _ (mi_left _ _ Hm h d Hd)). lia.
Qed.
