(* ===== verification/PushDemo.v ===== *)
(** * Publishing: runs *)

From S2P Require Import Prelude Push PushSystem PushRefine.

Definition calm : input := mkInput Spawned None false.
Definition ok_ack (id : N) (p : string) : Object.t := Object.mk (Value id) (Value "ok") Missing (Value p) (Value {[ "key:" +:+ p ]}).

Definition run (evs : list event) (y : system) : system := foldl (λ y ev, exec (step ev) y) y evs.

(** Two requests share a path; the acks of the second come first. *)
Definition asking : system := run [Begin ["a"; "b"]; Run 0 calm; Begin ["b"]; Run 1 calm; Run 0 calm; Run 1 calm] new_system.
Definition acked_all : system := run [Read (Line (Some (ok_ack 2 "b"))); Read (Line (Some (ok_ack 1 "b"))); Read (Line (Some (ok_ack 1 "a")))] asking.
Definition returned : system := run [Run 0 calm; Run 1 calm] acked_all.

Lemma asking_owed : dutiful asking ({[(1, "a"); (1, "b"); (2, "b")]}%N).
Proof.
  assert (quiet calm) as Hq by done. unfold asking, run. cbn [foldl].
  pose proof (du_begin _ _ ["a"; "b"] du_new ltac:(by apply (bool_decide_unpack _); vm_compute) ltac:(done)) as H.
  apply (du_run _ _ 0 calm) in H; [|done]. apply (du_begin _ _ ["b"]) in H; [|apply NoDup_singleton|done]. apply (du_run _ _ 1 calm) in H; [|done].
  apply (du_run _ _ 0 calm) in H; [|done]. apply (du_run _ _ 1 calm) in H; [|done].
  match type of H with dutiful _ ?o => replace o with ({[(1, "a"); (1, "b"); (2, "b")]}%N : gset (N * string)) in H end; [exact H|]. vm_compute. reflexivity.
Qed.
Lemma asking_reached : reachable ev_starts asking.
Proof. by apply (dutiful_reachable _ _ asking_owed). Qed.

Lemma acked_all_owed : dutiful acked_all ∅.
Proof.
  pose proof asking_owed as H. unfold acked_all, run. cbn [foldl].
  apply (du_ack _ _ (ok_ack 2 "b") 2 "b") in H; [|set_solver|done|done|by eexists].
  apply (du_ack _ _ (ok_ack 1 "b") 1 "b") in H; [|set_solver|done|done|by eexists].
  apply (du_ack _ _ (ok_ack 1 "a") 1 "a") in H; [|set_solver|done|done|by eexists].
  match type of H with dutiful _ ?o => replace o with (∅ : gset (N * string)) in H end; [exact H|]. vm_compute. reflexivity.
Qed.

Lemma push_refines_spec_witness :
  (∃ s, PushSpec.reachable true s ∧ PushSpec.inflight s = ∅ ∧ mirrors (proc acked_all) s) ∧
  (∅ = (∅ : gset (N * string)) → ∀ (h : nat) d, pendings (proc acked_all) !! h = Some d → Pending.left_ d = 0%N).
Proof. apply (push_refines_spec acked_all ∅); [apply acked_all_owed|vm_compute; reflexivity]. Defined.

Lemma push_waiters_answered_witness :
  let q := mkRequest ["a"; "b"] (QWait 1 0) in
  requests asking !! 0 = Some q ∧
  (∃ d, pendings (proc asking) !! 0 = Some d ∧ ((0 < Pending.left_ d)%N → waiting (proc asking) !! 1%N = Some 0 ∧ alive (proc asking))) ∧
  (∀ ev, enabled ev asking = true → ∃ y', step ev asking = (y', Ok tt)) ∧
  ∀ out i, ∃ pt p', let p2 := exec (readAcks out) (exec (readAcks Eof) (proc asking)) in pushWait i q p2 = (p', Ok pt) ∧ pt ≠ QWait 1 0.
Proof.
  cbv zeta. split; [vm_compute; reflexivity|].
  apply (push_waiters_answered asking 0 (mkRequest ["a"; "b"] (QWait 1 0)) 1 0); [apply asking_reached|vm_compute; reflexivity|vm_compute; reflexivity|reflexivity].
Defined.

Lemma returned_reached : reachable ev_starts returned.
Proof.
  pose proof (dutiful_reachable _ _ acked_all_owed) as (Hr & Hd & _). unfold returned, run. cbn [foldl].
  assert (ev_starts (Run 0 calm) ∧ ev_starts (Run 1 calm)) as [H0 H1] by (split; intros ? ? [= <- <-]; done).
  by apply reach_step; [apply reach_step|..].
Qed.

Lemma push_returned_witness :
  let s := {[ "a" := {[ "key:a" ]}; "b" := {[ "key:b" ]} ]} in
  requests returned !! 0 = Some (mkRequest ["a"; "b"] (QReturned 1 0 s)) ∧
  Ack.path <$> acks_for 1 (log (proc returned)) = ["b"; "a"] ∧ answer returned 1 ["a"; "b"] s.
Proof.
  cbv zeta. split; [vm_compute; reflexivity|]. split; [vm_compute; reflexivity|].
  apply (push_returned ev_starts returned 0 (mkRequest ["a"; "b"] (QReturned 1 0 {[ "a" := {[ "key:a" ]}; "b" := {[ "key:b" ]} ]})) 1 0);
    [apply returned_reached|vm_compute; reflexivity|vm_compute; reflexivity|reflexivity].
Defined.

(** ** A reader that could not be started *)

Definition stranded (p : process) : Prop := is_Some (stdinFd p) ∧ reader p = None.

(** A request that waits, in a process without a reader. *)
Definition waits_on (k : nat) (y : system) : Prop :=
  stranded (proc y) ∧ ∃ q id h d, requests y !! k = Some q ∧ at_ q = QWait id h ∧ pendings (proc y) !! h = Some d ∧ (0 < Pending.left_ d)%N.

Definition goes_on (ev : event) : Prop := ev ≠ Destroy ∧ ∀ k i, ev = Run k i → cancelled i = false.

Definition keeps_on (p p' : process) : Prop := stranded p → stranded p' ∧ ∃ l, pendings p' = pendings p ++ l.
Lemma pushWait_stranded i q p : keeps_on p (exec (pushWait i q) p).
Proof.
  intros Hs. assert (stranded p ∧ ∃ l, pendings p = pendings p ++ l) as Hsame by (split; [done|exists []; by rewrite app_nil_r]).
  destruct Hs as [[c Hc] Hr]. unfold exec, pushWait. destruct (at_ q); try done.
  - unfold catching, enter, mbind, M_bind. assert (ensureChild (starting i) p = (p, Ok tt)) as -> by (unfold ensureChild, mbind, M_bind, get; by rewrite Hc).
    unfold modify, get, expect. simpl. rewrite Hc. simpl. split; [by split|eauto].
  - unfold mbind, M_bind, get, expect. by destruct (pendings p !! h).
Qed.

Lemma waits_on_stays k ev y : goes_on ev → waits_on k y → waits_on k (exec (step ev) y).
Proof.
  intros [Hnd Hc] [Hs (q & id & h & d & Hq & Hat & Hd & Hpos)]. destruct ev as [l|j i|out|]; [| | |done].
  - split; [done|]. exists q, id, h, d. split_and!; try done. simpl. by apply lookup_app_l_Some.
  - unfold exec, step, mbind, M_bind, get, on_proc, zoom, modify. destruct (requests y !! j) as [v|] eqn:Hj.
    2:{ split; [done|]. by exists q, id, h, d. }
    pose proof (pushWait_stranded i v (proc y) Hs) as [Hs' [l Hl]]. unfold exec in Hs', Hl. destruct (pushWait i v (proc y)) as [p' [pt|e]] eqn:Hw; simpl in *.
    2:{ split; [done|]. exists q, id, h, d. split_and!; try done. simpl. rewrite Hl. by apply lookup_app_l_Some. }
    split; [done|]. destruct (decide (j = k)) as [->|Hne].
    + assert (v = q) as -> by congruence. exists (mkRequest (paths q) (QWait id h)), id, h, d. simpl. rewrite Hl. split_and!; try done; [|by apply lookup_app_l_Some].
      unfold pushWait, mbind, M_bind, get, expect in Hw. rewrite Hat, Hd in Hw. unfold mret, M_ret, Pending.wait in Hw.
      rewrite (proj2 (N.ltb_lt _ _) Hpos), (Hc _ _ eq_refl) in Hw. injection Hw as _ <-. apply list_lookup_insert_eq. by eapply lookup_lt_Some.
    + exists q, id, h, d. simpl. rewrite Hl. split_and!; try done; [by rewrite list_lookup_insert_ne|by apply lookup_app_l_Some].
  - destruct Hs as [Hc' Hr]. unfold exec, step, on_proc, zoom, readAcks, mbind, M_bind, get. rewrite Hr. simpl. split; [by split|]. by exists q, id, h, d.
Qed.

(** The first request fails as no thread can be started; the second waits, whatever happens, until its caller gives up. *)
Definition lost : system := run [Begin ["a"]; Run 0 (mkInput (NoThread "Resource temporarily unavailable") None false); Begin ["b"]; Run 1 calm; Run 1 calm] new_system.
Lemma lost_reader_strands :
  reachable (λ _, True) lost ∧ ∀ evs, Forall goes_on evs → waits_on 1 (run evs lost).
Proof.
  split; [unfold lost, run; cbn [foldl]; by repeat (apply reach_step; [|done|done]); constructor|].
  intros evs. assert (waits_on 1 lost) as H0.
  { split; [split; [by eexists|done]|]. exists (mkRequest ["b"] (QWait 1 0)), 1%N, 0, (Pending.make 1 0). split_and!; vm_compute; reflexivity. }
  revert H0. generalize lost. induction evs as [|ev evs IH]; intros y Hy Hevs; [done|]. apply Forall_cons in Hevs as [Hev Hevs].
  apply IH; [by apply waits_on_stays|done].
Qed.
