(* ===== verification/Eds.v ===== *)
(** * Endpoint discovery

    [EdsReactor] and [EdsService] of src/src/daemon/eds.cc and eds.hh: a stream on which a balancer is sent the workers of the
    systems it names, again whenever they change.

    One stream is modelled, with every thread that runs code of its reactor: gRPC's reactions, and the wake-ups the dispatcher queues when its
    membership changes, which gRPC does not know of.  A thread is at a point, and a step takes it past one hold of a
    mutex or one call of gRPC.  Membership objects are named by their number, as their pointers are; [sent] has
    what was written, with the names and the membership it was made from.  Breaking a rule of gRPC (two writes at a time, a write
    or a read after [Finish], two [Finish]es) and using the reactor after its deletion are [Undefined]. *)

From Stdlib Require Import Ascii.
From S2P Require Import Xfcc Acl Oidc Auth Prelude Dispatcher.

(** * Endpoint lists for a balancer

    The functions of src/src/daemon/eds.cc that turn the dispatcher's membership into what Envoy is sent: [parseAddr],
    [assignment], [collectNames] and what [EdsService::render] computes.  A string is the list of its bytes where it is taken apart.
    [inet_pton] and protobuf's serialisation are arguments. *)

Definition maxNames : nat := 32.
Definition maxNameLen : nat := 64.
Definition maxAddrLen : nat := 64.
Definition maxEndpoints : N := 4096.
Definition maxPortDigits : nat := 5.
Definition maxPort : N := 65535.

Module Endpoint.
Record t := mk { host : bytes; port : N }.
End Endpoint.

Definition colon : ascii := ascii_of_N 58.
Definition open_bracket : ascii := ascii_of_N 91.
Definition close_bracket : ascii := ascii_of_N 93.

(** What is before and after the last occurrence: [rfind] and [substr]. *)
Fixpoint rsplit (chr : ascii) (l : bytes) : option (bytes * bytes) :=
  match l with
  | [] => None
  | x :: l =>
      match rsplit chr l with
      | Some (a, b) => Some (x :: a, b)
      | None => if decide (x = chr) then Some ([], l) else None
      end
  end.

Definition is_digit (chr : ascii) : bool := ((48 <=? N_of_ascii chr) && (N_of_ascii chr <=? 57))%N.
(** [absl::SimpleAtoi] of a few digits. *)
Definition atoi (digits : bytes) : N := foldl (λ n chr, n * 10 + (N_of_ascii chr - 48))%N 0%N digits.

Definition is_bracketed (host : bytes) : bool :=
  bool_decide (head host = Some open_bracket) && bool_decide (last host = Some close_bracket).
(** [substr(1, size - 2)] *)
Definition strip (host : bytes) : bytes := take (length host - 2) (drop 1 host).

Section Endpoints.
Context (inet_pton : bool → bytes → bool).     (* [true]: AF_INET6 *)

Definition parseAddr (addr : bytes) : string + Endpoint.t :=
  if bool_decide (addr = []) || bool_decide (maxAddrLen < length addr) || bool_decide (NUL ∈ addr) then inl "bad length or NUL"
  else
    match rsplit colon addr with
    | None => inl "no port"
    | Some (host, digits) =>
        let bracketed := is_bracketed host in
        let host := if bracketed then strip host else host in
        let numeric := bool_decide (digits ≠ []) && bool_decide (length digits ≤ maxPortDigits) && forallb is_digit digits in
        let port := atoi digits in
        if negb numeric || (port =? 0)%N || (maxPort <? port)%N then inl "bad port"
        else if negb (inet_pton bracketed host) then inl "not an IP literal"
        else inr (Endpoint.mk host port)
    end.

(** ** Assignments *)

Inductive HealthStatus := HEALTHY | DRAINING.
Record LbEndpoint := mkLb { health_status : HealthStatus; socket_address : Endpoint.t }.
Record ClusterLoadAssignment := mkCla { cluster_name : string; lb_endpoints : list LbEndpoint }.

Fixpoint add_endpoints (members : list (string * bool)) (l : list LbEndpoint) : list LbEndpoint :=
  match members with
  | [] => l
  | (addr, draining) :: members =>
      if (maxEndpoints <=? vlen l)%N then l
      else
        match parseAddr (str addr) with
        | inl _ => add_endpoints members l
        | inr e => add_endpoints members (l ++ [mkLb (if draining : bool then DRAINING else HEALTHY) e])
        end
  end.

Context {Any : Type} (serialize : ClusterLoadAssignment → option Any).

Definition assignment (system : string) (members : list (string * bool)) : option Any :=
  serialize (mkCla system (add_endpoints members [])).

(** The loop of [EdsService::render]. *)
Definition render_all (members : Membership) : gmap string Any := map_imap assignment members.

(** The loop of [EdsReactor::send] over the names: [None] if a list cannot be serialised. *)
Definition fill (shared : gmap string Any) (want : list string) : option (list Any) :=
  mapM (λ system, match shared !! system with Some res => Some res | None => assignment system [] end) want.
End Endpoints.

(** The names a request subscribes to, [None] if they are refused. *)
Definition collectNames (resource_names : list string) : option (gset string) :=
  if bool_decide (maxNames < length resource_names) then None
  else foldr (λ name names,
    if bool_decide (name = "") || bool_decide (maxNameLen < String.length name) then None else ({[name]} ∪.) <$> names) (Some ∅) resource_names.

(** ** What the parser accepts *)

Lemma rsplit_Some chr l a b : rsplit chr l = Some (a, b) ↔ l = a ++ chr :: b ∧ chr ∉ b.
Proof.
  revert a b. induction l as [|x l IH]; intros a b; simpl; [split; [done|by intros [? _]; destruct a]|]. split.
  - destruct (rsplit chr l) as [[a' b']|] eqn:Hs.
    + intros [= <- <-]. destruct (proj1 (IH a' b') eq_refl) as [-> ?]. done.
    + case_decide as Hx; [|done]. intros [= <- <-]. subst x. split; [done|]. intros Hin.
      apply list_elem_of_split in Hin as (l1 & l2 & ->).
      clear -Hs. revert Hs. induction l1 as [|y l1 IH']; simpl.
      * destruct (rsplit chr l2) as [[]|]; [done|]. by rewrite decide_True.
      * destruct (rsplit chr (l1 ++ chr :: l2)) as [[]|]; [done|]. case_decide; [done|]. intros _. by apply IH'.
  - intros [Heq Hno]. destruct a as [|y a]; injection Heq as -> ->.
    + destruct (rsplit chr b) as [[a' b']|] eqn:Hs; [|by rewrite decide_True].
      destruct (proj1 (IH a' b') eq_refl) as [-> _]. destruct Hno. rewrite elem_of_app. right. by left.
    + by rewrite (proj2 (IH a b) (conj eq_refl Hno)).
Qed.

(** An address as it is written. *)
Definition printed (v6 : bool) (host : bytes) : bytes := if v6 then open_bracket :: host ++ [close_bracket] else host.

Lemma is_bracketed_printed host : is_bracketed (printed true host) = true.
Proof. unfold is_bracketed, printed. by rewrite app_comm_cons, last_snoc, !bool_decide_true. Qed.
Lemma strip_printed host : strip (printed true host) = host.
Proof. unfold strip, printed. simpl. rewrite length_app, drop_0. simpl. replace (length host + 1 - 1) with (length host) by lia. by rewrite take_app_length. Qed.
Lemma bracketed_printed host : is_bracketed host = true → host = printed true (strip host).
Proof.
  unfold is_bracketed. intros [Hh%bool_decide_eq_true Hl%bool_decide_eq_true]%andb_prop. destruct host as [|x host]; [done|]. injection Hh as ->.
  destruct host as [|y host _] using rev_ind; [done|]. rewrite app_comm_cons, last_snoc in Hl. injection Hl as ->.
  change (open_bracket :: host ++ [close_bracket]) with (printed true host). by rewrite strip_printed.
Qed.

Definition digits_ok (digits : bytes) : Prop := digits ≠ [] ∧ length digits ≤ maxPortDigits ∧ forallb is_digit digits = true.
Lemma digits_no_colon digits : digits_ok digits → colon ∉ digits.
Proof. intros (_ & _ & Hd) Hin%list_elem_of_In. rewrite forallb_forall in Hd. by specialize (Hd _ Hin). Qed.

Section Laws.
Context (inet_pton : bool → bytes → bool).

(** The addresses that are accepted, and as what: exactly the literals in their usual notation with a port. *)
Record addr_of (addr : bytes) (e : Endpoint.t) (v6 : bool) (digits : bytes) : Prop := {
  ad_eq : addr = printed v6 (Endpoint.host e) ++ colon :: digits;
  ad_len : length addr ≤ maxAddrLen;
  ad_nul : NUL ∉ addr;
  ad_digits : digits_ok digits;
  ad_port : Endpoint.port e = atoi digits;
  ad_range : (0 < Endpoint.port e <= maxPort)%N;
  ad_literal : inet_pton v6 (Endpoint.host e) = true;
  ad_plain : v6 = false → is_bracketed (Endpoint.host e) = false;
}.

Lemma parseAddr_exact addr e : parseAddr inet_pton addr = inr e ↔ ∃ v6 digits, addr_of addr e v6 digits.
Proof.
  unfold parseAddr. split.
  - case_bool_decide; [done|]. case_bool_decide; [done|]. case_bool_decide; [done|]. simpl. destruct (rsplit colon addr) as [[host digits]|] eqn:Hs; [|done].
    apply rsplit_Some in Hs as [Heq _]. destruct (bool_decide (digits ≠ []) && _ && _) eqn:Hn; [|done]. simpl.
    apply andb_prop in Hn as [[Hne%bool_decide_eq_true Hl%bool_decide_eq_true]%andb_prop Hd].
    destruct (N.eqb_spec (atoi digits) 0); [done|]. destruct (N.ltb_spec maxPort (atoi digits)); [done|]. simpl.
    destruct (inet_pton (is_bracketed host) (if is_bracketed host then strip host else host)) eqn:Hi; [|done]. simpl. intros [= <-].
    exists (is_bracketed host), digits. constructor; simpl; try done; [|lia|lia|].
    + destruct (is_bracketed host) eqn:Hb; [by rewrite <-(bracketed_printed host Hb)|done].
    + by intros Hb; rewrite Hb.
  - intros (v6 & digits & [Heq Hlen Hnul Hdig Hport Hrange Hlit Hplain]). pose proof (digits_no_colon _ Hdig) as Hno. destruct Hdig as (Hne & Hl & Hd).
    rewrite (bool_decide_false (addr = [])) by (rewrite Heq; by destruct (printed _ _)). rewrite (bool_decide_false (maxAddrLen < _)) by lia.
    rewrite (bool_decide_false (NUL ∈ addr)) by done. simpl. rewrite (proj2 (rsplit_Some colon addr (printed v6 (Endpoint.host e)) digits)) by done.
    rewrite !bool_decide_true, Hd by done. simpl. rewrite <-Hport, (proj2 (N.eqb_neq _ _)), (proj2 (N.ltb_ge _ _)) by lia. simpl.
    destruct e as [host port]. simpl in *. destruct v6; [rewrite is_bracketed_printed, strip_printed, Hlit; done|]. simpl. by rewrite Hplain, Hlit.
Qed.

(** ** Lists of endpoints *)

Definition endpoint_of (m : string * bool) : option LbEndpoint :=
  match parseAddr inet_pton (str m.1) with inl _ => None | inr e => Some (mkLb (if m.2 then DRAINING else HEALTHY) e) end.

Lemma add_endpoints_eq members l : (vlen l <= maxEndpoints)%N →
  add_endpoints inet_pton members l = take (N.to_nat maxEndpoints) (l ++ omap endpoint_of members).
Proof.
  revert l. induction members as [|[addr draining] members IH]; intros l Hl; cbn [add_endpoints omap list_omap].
  - rewrite app_nil_r, take_ge; [done|]. unfold vlen in Hl. lia.
  - destruct (N.leb_spec maxEndpoints (vlen l)) as [Hm|Hm].
    + rewrite take_app_le, take_ge; [done|unfold vlen in *; lia..].
    + unfold endpoint_of at 1. cbn [fst snd]. destruct (parseAddr inet_pton (str addr)) as [w|e]; [by rewrite IH|].
      rewrite IH by (rewrite vlen_app; unfold vlen in *; simpl; lia). by rewrite <-app_assoc.
Qed.

(** The list a system is given: its members with an address that parses, in order, the first 4096 of them, each under its own health. *)
Lemma assignment_exact system members :
  lb_endpoints (mkCla system (add_endpoints inet_pton members [])) = take (N.to_nat maxEndpoints) (omap endpoint_of members).
Proof. simpl. by rewrite add_endpoints_eq. Qed.

Lemma assignment_bounds members : let l := add_endpoints inet_pton members [] in
  (vlen l <= maxEndpoints)%N ∧ Forall (λ b, (0 < Endpoint.port (socket_address b) <= maxPort)%N) l.
Proof.
  cbv zeta. rewrite add_endpoints_eq by done. split; [unfold vlen; rewrite length_take; lia|]. apply Forall_take, Forall_forall.
  intros b (m & _ & Hm)%list_elem_of_omap. unfold endpoint_of in Hm.
  destruct (parseAddr inet_pton (str m.1)) as [w|e] eqn:Hp; [done|]. injection Hm as <-. by apply parseAddr_exact in Hp as (v6 & digits & []).
Qed.
End Laws.

Inductive Phase := Open | Closed | ReadsDone | Finished.
#[export] Instance Phase_eq_dec : EqDecision Phase.
Proof. solve_decision. Defined.

Inductive status := OK | INVALID_ARGUMENT (message : string).

Record request := mkRequest { type_url : string; resource_names : list string }.
Definition assignmentType : string := "type.googleapis.com/envoy.config.endpoint.v3.ClusterLoadAssignment".

Section Eds.
Context (inet_pton : bool → bytes → bool) {Any : Type} (serialize : ClusterLoadAssignment → option Any).

Inductive point :=
  | ReadDone (req : option request)          (* in [OnReadDone], [None]: not ok *)
  | InFinish (fin : status)
  | Restart (run : bool)
  | WriteDone (isOk : bool)
  | Woken                                     (* a wake-up that is queued *)
  | InSend
  | Rendering (want : gset string)
  | Filling (want : gset string) (members : nat)
  | Starting (want : gset string) (members : nat) (out : list Any)
  | SendFailed
  | Cancelling
  | MaybeDone
  | Finishing (fin : status)
  | DoneBegin | DoneUnlink | DoneDelete       (* in [OnDone] *)
  | Over.

Record thread := mkThread { reaction : bool; at_ : point }.

Record reactor := mkReactor {
  names : gset string;
  status_ : status;
  dirty : bool;
  writing : bool;
  phase : Phase;
  version : N;
}.

(** [EdsService::renderedFrom] and [rendered]. *)
Record cache := mkCache { renderedFrom : option nat; rendered : gmap string Any }.

Record system := mkSystem {
  rx : reactor;
  svc : cache;
  active_ : bool;
  membership : list Membership;       (* the last is current *)
  threads : list thread;
  watched : bool;
  linked : bool;                       (* [Stream::reactor] is not null *)
  deleted : bool;
  reading : bool;                      (* a read is outstanding *)
  written : bool;                      (* a write is outstanding *)
  finishes : list status;
  cancelled : bool;
  done : bool;                         (* [OnDone] was called *)
  sent : list (gset string * nat * list Any * N);
}.
Definition with_rx r y := mkSystem r (svc y) (active_ y) (membership y) (threads y) (watched y) (linked y) (deleted y) (reading y) (written y) (finishes y) (cancelled y) (done y) (sent y).
Definition with_svc c y := mkSystem (rx y) c (active_ y) (membership y) (threads y) (watched y) (linked y) (deleted y) (reading y) (written y) (finishes y) (cancelled y) (done y) (sent y).
Definition with_active b y := mkSystem (rx y) (svc y) b (membership y) (threads y) (watched y) (linked y) (deleted y) (reading y) (written y) (finishes y) (cancelled y) (done y) (sent y).
Definition with_membership l y := mkSystem (rx y) (svc y) (active_ y) l (threads y) (watched y) (linked y) (deleted y) (reading y) (written y) (finishes y) (cancelled y) (done y) (sent y).
Definition with_threads l y := mkSystem (rx y) (svc y) (active_ y) (membership y) l (watched y) (linked y) (deleted y) (reading y) (written y) (finishes y) (cancelled y) (done y) (sent y).
Definition with_watched b y := mkSystem (rx y) (svc y) (active_ y) (membership y) (threads y) b (linked y) (deleted y) (reading y) (written y) (finishes y) (cancelled y) (done y) (sent y).
Definition with_linked b y := mkSystem (rx y) (svc y) (active_ y) (membership y) (threads y) (watched y) b (deleted y) (reading y) (written y) (finishes y) (cancelled y) (done y) (sent y).
Definition with_deleted b y := mkSystem (rx y) (svc y) (active_ y) (membership y) (threads y) (watched y) (linked y) b (reading y) (written y) (finishes y) (cancelled y) (done y) (sent y).
Definition with_reading b y := mkSystem (rx y) (svc y) (active_ y) (membership y) (threads y) (watched y) (linked y) (deleted y) b (written y) (finishes y) (cancelled y) (done y) (sent y).
Definition with_written b y := mkSystem (rx y) (svc y) (active_ y) (membership y) (threads y) (watched y) (linked y) (deleted y) (reading y) b (finishes y) (cancelled y) (done y) (sent y).
Definition with_finishes l y := mkSystem (rx y) (svc y) (active_ y) (membership y) (threads y) (watched y) (linked y) (deleted y) (reading y) (written y) l (cancelled y) (done y) (sent y).
Definition with_cancelled b y := mkSystem (rx y) (svc y) (active_ y) (membership y) (threads y) (watched y) (linked y) (deleted y) (reading y) (written y) (finishes y) b (done y) (sent y).
Definition with_done b y := mkSystem (rx y) (svc y) (active_ y) (membership y) (threads y) (watched y) (linked y) (deleted y) (reading y) (written y) (finishes y) (cancelled y) b (sent y).
Definition with_sent l y := mkSystem (rx y) (svc y) (active_ y) (membership y) (threads y) (watched y) (linked y) (deleted y) (reading y) (written y) (finishes y) (cancelled y) (done y) l.

Definition set_names n r := mkReactor n (status_ r) true (writing r) (phase r) (version r).
Definition set_dirty b r := mkReactor (names r) (status_ r) b (writing r) (phase r) (version r).
Definition set_writing b r := mkReactor (names r) (status_ r) (dirty r) b (phase r) (version r).
Definition set_phase p r := mkReactor (names r) (status_ r) (dirty r) (writing r) p (version r).
Definition set_status s r := mkReactor (names r) s (dirty r) (writing r) (phase r) (version r).
Definition next_version r := mkReactor (names r) (status_ r) (dirty r) (writing r) (phase r) (u64 (version r + 1)).

(** ** The reactor's functions *)

Definition early (p : Phase) : bool := match p with Open | Closed => true | _ => false end.

Definition claimWriter (r : reactor) : reactor * bool :=
  if writing r || bool_decide (phase r ≠ Open) || bool_decide (names r = ∅) then (r, false) else (set_writing true r, true).

Definition close (r : reactor) : reactor := match phase r with Open => set_phase Closed r | _ => r end.

(** Code of the reactor runs. *)
Definition touch : M system () := y ← get; if deleted y then throw Undefined else mret tt.
Definition on_rx (f : reactor → reactor) : M system () := modify (λ y, with_rx (f (rx y)) y).

Definition StartRead : M system () :=
  y ← get; if reading y || bool_decide (finishes y ≠ []) then throw Undefined else modify (with_reading true).
Definition StartWrite (want : gset string) (members : nat) (out : list Any) : M system () :=
  y ← get;
  if written y || bool_decide (finishes y ≠ []) then throw Undefined
  else modify (with_written true);; modify (λ y, with_sent (sent y ++ [(want, members, out, version (rx y))]) y).
Definition Finish (fin : status) : M system () :=
  y ← get; if bool_decide (finishes y ≠ []) then throw Undefined else modify (λ y, with_finishes (finishes y ++ [fin]) y).

Definition current (y : system) : nat := length (membership y) - 1.

(** [EdsService::render] *)
Definition render (members : nat) : M system (gmap string Any) :=
  y ← get;
  if bool_decide (renderedFrom (svc y) = Some members) then mret (rendered (svc y))
  else
    m ← expect Undefined (membership y !! members);
    let next := render_all inet_pton serialize m in
    modify (with_svc (mkCache (Some members) next));;
    mret next.

(** [OnReadDone] up to [StartRead]. *)
Definition OnReadDone (req : option request) : M system point :=
  match req with
  | None => mret (InFinish OK)
  | Some req =>
      if negb (bool_decide (type_url req = "")) && negb (bool_decide (type_url req = assignmentType)) then
        mret (InFinish (INVALID_ARGUMENT "only ClusterLoadAssignment is served"))
      else
        match collectNames (resource_names req) with
        | None => mret (InFinish (INVALID_ARGUMENT "bad resource_names"))
        | Some want =>
            y ← get;
            if bool_decide (want ≠ names (rx y)) then
              let '(r, run) := claimWriter (set_names want (rx y)) in
              modify (with_rx r);; mret (Restart run)
            else mret (Restart false)
        end
  end.

Definition OnWriteDone (isOk : bool) : M system point :=
  if isOk then
    y ← get;
    let again := dirty (rx y) && bool_decide (phase (rx y) = Open) in
    on_rx (set_writing again);; mret (if again then InSend else MaybeDone)
  else on_rx (λ r, set_writing false (close r));; mret Cancelling.

Definition beginWake : M system bool :=
  y ← get;
  if negb (active_ y) then modify (with_cancelled true);; mret false
  else
    let '(r, run) := claimWriter (set_dirty true (rx y)) in
    modify (with_rx r);; mret run.

(** The callback given to [watchMembership]; the reactor is used under [Stream::mutex]. *)
Definition wake : M system point :=
  y ← get;
  if linked y then touch;; run ← beginWake; mret (if run : bool then InSend else Over) else mret Over.

Definition send_section : M system point :=
  y ← get;
  let r := rx y in
  if bool_decide (phase r ≠ Open) || negb (dirty r) || bool_decide (names r = ∅) then on_rx (set_writing false);; mret MaybeDone
  else on_rx (set_dirty false);; mret (Rendering (names r)).

Definition send_fill (want : gset string) (members : nat) : M system point :=
  shared ← render members;
  mret match fill inet_pton serialize shared (elements want) with
       | Some out => Starting want members out
       | None => SendFailed
       end.

Definition finish (fin : status) : M system point :=
  on_rx (λ r, if early (phase r) then set_phase ReadsDone (set_status fin r) else r);; mret MaybeDone.

Definition maybeDone : M system point :=
  y ← get;
  if bool_decide (phase (rx y) = ReadsDone) && negb (writing (rx y)) then on_rx (set_phase Finished);; mret (Finishing (status_ (rx y)))
  else mret Over.

Definition thread_step (p : point) : M system point :=
  match p with
  | ReadDone req => touch;; OnReadDone req
  | InFinish fin => touch;; finish fin
  | Restart run => touch;; StartRead;; mret (if run then InSend else Over)
  | WriteDone isOk => touch;; OnWriteDone isOk
  | Woken => wake
  | InSend => touch;; send_section
  | Rendering want => touch;; y ← get; mret (Filling want (current y))
  | Filling want members => touch;; send_fill want members
  | Starting want members out => touch;; on_rx next_version;; StartWrite want members out;; mret Over
  | SendFailed => touch;; on_rx (λ r, set_writing false (close r));; mret Cancelling
  | Cancelling => touch;; modify (with_cancelled true);; mret MaybeDone
  | MaybeDone => touch;; maybeDone
  | Finishing fin => touch;; Finish fin;; mret Over
  | DoneBegin => touch;; modify (with_watched false);; mret DoneUnlink
  | DoneUnlink => touch;; modify (with_linked false);; mret DoneDelete
  | DoneDelete => touch;; modify (with_deleted true);; mret Over
  | Over => mret Over
  end.

(** ** All threads *)

Definition new_reactor : reactor := mkReactor ∅ OK false false Open 0.
(** After the constructor. *)
Definition new_system (m : Membership) : system :=
  mkSystem new_reactor (mkCache None ∅) true [m] [] true true false true false [] false false [].

Inductive event :=
  | Change (m : Membership)
  | OtherStream (members : nat)        (* another stream renders *)
  | SetActive (b : bool)
  | GrpcRead (req : option request)
  | GrpcWrote (isOk : bool)
  | GrpcDone
  | Run (k : nat).

Definition is_over (p : point) : bool := match p with Over => true | _ => false end.
Definition quiet (t : thread) : bool := negb (reaction t) || is_over (at_ t).

(** gRPC calls [OnDone] when the stream was finished and nothing it started is left. *)
Definition enabled (ev : event) (y : system) : bool :=
  match ev with
  | GrpcRead _ => reading y
  | GrpcWrote _ => written y
  | GrpcDone => negb (done y) && bool_decide (finishes y ≠ []) && negb (reading y) && negb (written y) && forallb quiet (threads y)
  | OtherStream members => bool_decide (members < length (membership y))
  | _ => true
  end.

Definition spawn (t : thread) : M system () := modify (λ y, with_threads (threads y ++ [t]) y).

Definition step (ev : event) : M system () :=
  match ev with
  | Change m => modify (λ y, with_membership (membership y ++ [m]) y);; y ← get; if watched y then spawn (mkThread false Woken) else mret tt
  | OtherStream members => render members;; mret tt
  | SetActive b => modify (with_active b)
  | GrpcRead req => modify (with_reading false);; spawn (mkThread true (ReadDone req))
  | GrpcWrote isOk => modify (with_written false);; spawn (mkThread true (WriteDone isOk))
  | GrpcDone => modify (with_done true);; spawn (mkThread false DoneBegin)
  | Run k =>
      y ← get;
      match threads y !! k with
      | None => mret tt
      | Some t =>
          p ← thread_step (at_ t);
          modify (λ y, with_threads (<[k := mkThread (reaction t) p]> (threads y)) y)
      end
  end.

Inductive reachable (m : Membership) : system → Prop :=
  | reach_new : reachable m (new_system m)
  | reach_step y ev : reachable m y → enabled ev y = true → reachable m (exec (step ev) y).
End Eds.

(** ** The number of streams: [EdsService::acquire] and [release] *)

Definition maxStreams : N := 64.

(** A caller of [acquire], which on success has a stream until it is released. *)
Inductive apoint := ALoad | AExchange (open : N) | AGot | ARefused | AReleased.

(** [compare_exchange_weak] may fail for no reason, and loads the value when it fails. *)
Definition acquire_step (spurious : bool) (p : apoint) : M N apoint :=
  let again := λ open : N, if (open <? maxStreams)%N then AExchange open else ARefused in
  match p with
  | ALoad => open ← get; mret (again open)
  | AExchange seen =>
      open ← get;
      if (open =? seen)%N && negb spurious then modify (λ open, u32 (open + 1));; mret AGot else mret (again open)
  | AGot => modify (λ open, u32 (open + 2 ^ 32 - 1));; mret AReleased
  | ARefused | AReleased => mret p
  end.

Inductive areachable : N → list apoint → Prop :=
  | areach_new : areachable 0 []
  | areach_call open l : areachable open l → areachable open (l ++ [ALoad])
  | areach_step open l (k : nat) p spurious open' p' : areachable open l → l !! k = Some p → acquire_step spurious p open = (open', Ok p') →
      areachable open' (<[k := p']> l).

(** ** Opening a stream: [EdsService::StreamEndpoints] *)

Inductive refusal := Passive | Denied (status : Auth.Status) | TooMany.

Definition StreamEndpoints (fnmatch : bytes → bytes → bool) (auth : Auth.t) (context : Call.t) (active acquired : bool) : refusal + () :=
  if negb active then inl Passive
  else
    let caller := Auth.identifyDirect fnmatch auth context in
    let status := Auth.authorize caller (str "StreamEndpoints") trusted in
    match status.1 with
    | Auth.OK => if negb acquired then inl TooMany else inr tt
    | _ => inl (Denied status)
    end.

(** Only the certificate of a trusted peer opens a stream. *)
Lemma stream_trusted fnmatch auth context active acquired :
  StreamEndpoints fnmatch auth context active acquired = inr tt →
  active = true ∧ acquired = true ∧ Acl.roleFor fnmatch (Auth.acl auth) (clientCommonName context) = Some trusted.
Proof.
  unfold StreamEndpoints, Auth.authorize, Auth.identifyDirect, Auth.by_cert. destruct active; [|done]. simpl.
  destruct (Acl.roleFor fnmatch (Auth.acl auth) (clientCommonName context)) as [[]|]; simpl; [done|done| |by destruct (clientCommonName context)].
  by destruct acquired.
Qed.
