(* ===== verification/EdsTheorems.v ===== *)
(** * Endpoint discovery: what every interleaving keeps *)

From Stdlib Require Import Ascii.
From S2P Require Import Xfcc Acl Oidc Auth Prelude Dispatcher Eds.

(** ** Counting threads *)

Section Counting.
Context {A : Type} (f : A → bool).

Fixpoint cnt (l : list A) : nat := match l with [] => 0 | x :: l => Nat.b2n (f x) + cnt l end.

Lemma cnt_snoc l x : cnt (l ++ [x]) = cnt l + Nat.b2n (f x).
Proof. induction l as [|y l IH]; simpl; [lia|]. rewrite IH. lia. Qed.
Lemma cnt_insert l (k : nat) x y : l !! k = Some x → cnt (<[k := y]> l) + Nat.b2n (f x) = cnt l + Nat.b2n (f y).
Proof. revert k. induction l as [|z l IH]; intros [|k] Hk; simplify_eq/=; [lia|]. specialize (IH k Hk). lia. Qed.
Lemma cnt_le l (k : nat) x : l !! k = Some x → Nat.b2n (f x) ≤ cnt l.
Proof. revert k. induction l as [|z l IH]; intros [|k] Hk; simplify_eq/=; [lia|]. specialize (IH k Hk). lia. Qed.
Lemma cnt_zero l : cnt l = 0 ↔ Forall (λ x, f x = false) l.
Proof.
  induction l as [|x l IH]; simpl; [split; [by constructor|done]|]. rewrite Forall_cons, <-IH. destruct (f x); simpl; split; [lia|by intros [? _]|intros; split; [done|lia]|lia].
Qed.
Lemma cnt_pos l : 0 < cnt l → ∃ x, x ∈ l ∧ f x = true.
Proof.
  induction l as [|x l IH]; simpl; [lia|]. destruct (f x) eqn:Hf; [intros _; exists x; by split; [left|]|]. intros (y & ? & ?)%IH. exists y. by split; [right|].
Qed.
End Counting.

Lemma cnt_ext {A} (f g : A → bool) l : (∀ x, f x = g x) → cnt f l = cnt g l.
Proof. intros H. induction l as [|x l IH]; simpl; [done|]. by rewrite H, IH. Qed.

Section EdsTheorems.
Context (inet_pton : bool → bytes → bool) {Any : Type} (serialize : ClusterLoadAssignment → option Any).
#[local] Abbreviation system := (@system Any).
#[local] Abbreviation thread := (@thread Any).
#[local] Abbreviation point := (@point Any).

(** Points that hold [writing], that hold the right to read, that will finish, and so on. *)
Definition holds (t : thread) : bool :=
  match at_ t with InSend | Rendering _ | Filling _ _ | Starting _ _ _ | SendFailed | WriteDone _ => true | Restart run => run | _ => false end.
Definition reads (t : thread) : bool := match at_ t with ReadDone _ | Restart _ | InFinish _ => true | _ => false end.
Definition fins (t : thread) : bool := match at_ t with Finishing _ => true | _ => false end.
Definition maybes (t : thread) : bool := match at_ t with MaybeDone | Cancelling => true | _ => false end.
Definition cancels (t : thread) : bool := match at_ t with Cancelling => true | _ => false end.
Definition wokens (t : thread) : bool := match at_ t with Woken => true | _ => false end.
Definition dones (t : thread) : bool := match at_ t with DoneBegin | DoneUnlink | DoneDelete => true | _ => false end.
Definition busy (t : thread) : bool := negb (quiet t).
(** A response is on its way. *)
Definition inflight (t : thread) : bool := match at_ t with Rendering _ | Filling _ _ | Starting _ _ _ | SendFailed => true | _ => false end.
(** It is one for these names and this membership, or ends the stream. *)
Definition uptodate (n : gset string) (cur : nat) (t : thread) : bool :=
  match at_ t with
  | Rendering want => bool_decide (want = n)
  | Filling want members | Starting want members _ => bool_decide (want = n) && bool_decide (members = cur)
  | SendFailed => true
  | _ => false
  end.

(** A response made from a membership. *)
Definition made (l : list Membership) (want : gset string) (members : nat) (out : list Any) : Prop :=
  ∃ m, l !! members = Some m ∧ fill inet_pton serialize (render_all inet_pton serialize m) (elements want) = Some out.

Definition thread_ok (y : system) (t : thread) : Prop :=
  match at_ t with
  | Filling _ members => members < length (membership y)
  | Starting want members out => made (membership y) want members out
  | DoneUnlink => watched y = false
  | DoneDelete => linked y = false
  | _ => True
  end.

(** The balancer has, or is about to get, what is current for its names; or the stream is being cancelled. *)
Definition fresh (y : system) : Prop :=
  names (rx y) = ∅ ∨ dirty (rx y) = true ∨ cancelled y = true ∨ 0 < cnt wokens (threads y) ∨
  0 < cnt (uptodate (names (rx y)) (current y)) (threads y) ∨
  (cnt inflight (threads y) = 0 ∧ ∃ out v, last (sent y) = Some (names (rx y), current y, out, v)).

Record eds_inv (y : system) : Prop := {
  ei_hold : cnt holds (threads y) + Nat.b2n (written y) = Nat.b2n (writing (rx y));
  ei_read : cnt reads (threads y) + Nat.b2n (reading y) = Nat.b2n (early (phase (rx y)));
  ei_fin : cnt fins (threads y) + length (finishes y) = Nat.b2n (bool_decide (phase (rx y) = Finished));
  ei_pending : phase (rx y) = ReadsDone → 0 < Nat.b2n (writing (rx y)) + cnt maybes (threads y);
  ei_claimed : phase (rx y) = Open → dirty (rx y) = true → names (rx y) ≠ ∅ → writing (rx y) = true;
  ei_finished : phase (rx y) = Finished → writing (rx y) = false;
  ei_closed : phase (rx y) = Closed → cancelled y = true ∨ 0 < cnt cancels (threads y);
  ei_done : done y = true → finishes y ≠ [] ∧ cnt busy (threads y) = 0;
  ei_dones : cnt dones (threads y) = Nat.b2n (done y && negb (deleted y));
  ei_deleted : deleted y = true → linked y = false ∧ done y = true;
  ei_linked : linked y = false → watched y = false;
  ei_watched : watched y = false → done y = true;
  ei_members : membership y ≠ [];
  ei_cache : ∀ k, renderedFrom (svc y) = Some k → ∃ m, membership y !! k = Some m ∧ rendered (svc y) = render_all inet_pton serialize m;
  ei_threads : Forall (thread_ok y) (threads y);
  ei_sent : Forall (λ x, made (membership y) x.1.1.1 x.1.1.2 x.1.2) (sent y);
  ei_fresh : phase (rx y) = Open → fresh y;
}.

(** ** Who may use a deleted reactor *)

Lemma not_deleted y (k : nat) t : eds_inv y → threads y !! k = Some t → deleted y = true →
  at_ t = Woken ∨ at_ t = Over ∨ (reaction t = false ∧ maybes t = true).
Proof.
  intros Hi Hk Hd. destruct (ei_deleted _ Hi Hd) as [_ Hdone]. destruct (ei_done _ Hi Hdone) as [Hfin Hbusy].
  pose proof (ei_fin _ Hi) as Hf. destruct (finishes y) as [|s l]; [done|]. simpl in Hf. case_bool_decide as Hph; [|simpl in Hf; lia].
  pose proof (ei_hold _ Hi) as Hh. rewrite (ei_finished _ Hi Hph) in Hh. pose proof (ei_read _ Hi) as Hr. rewrite Hph in Hr.
  pose proof (ei_dones _ Hi) as Hdn. rewrite Hdone, Hd in Hdn. simpl in *.
  pose proof (cnt_le holds _ _ _ Hk). pose proof (cnt_le reads _ _ _ Hk). pose proof (cnt_le fins _ _ _ Hk). pose proof (cnt_le dones _ _ _ Hk).
  pose proof (cnt_le busy _ _ _ Hk) as Hb. unfold holds, reads, fins, dones, busy, quiet, maybes in *. destruct t as [re p]; simpl in *.
  destruct p; simpl in *; try lia; auto; destruct re; simpl in *; try lia; auto.
  all: destruct run; simpl in *; lia.
Qed.

(** ** Freshness moves along *)

Lemma cnt_mono {A} (f g : A → bool) l : (∀ x, f x = true → g x = true) → cnt f l ≤ cnt g l.
Proof. intros H. induction l as [|x l IH]; simpl; [done|]. specialize (H x). destruct (f x); simpl; [rewrite H by done; simpl|]; lia. Qed.

Lemma fresh_move y y' (k : nat) t t' :
  threads y !! k = Some t → threads y' = <[k := t']> (threads y) →
  names (rx y') = names (rx y) → current y' = current y → sent y' = sent y →
  (dirty (rx y) = true → dirty (rx y') = true) → (cancelled y = true → cancelled y' = true) →
  wokens t = false → (uptodate (names (rx y)) (current y) t = true → uptodate (names (rx y)) (current y) t' = true) →
  (inflight t' = true → inflight t = true) → fresh y → fresh y'.
Proof.
  intros Hk Hth Hn Hc Hs Hd Hca Hw Hu Hi. unfold fresh. rewrite Hn, Hc, Hs, Hth.
  pose proof (cnt_insert wokens _ _ _ t' Hk) as Hcw. pose proof (cnt_insert (uptodate (names (rx y)) (current y)) _ _ _ t' Hk) as Hcu.
  pose proof (cnt_insert inflight _ _ _ t' Hk) as Hci. rewrite Hw in Hcw. simpl in Hcw.
  intros [?|[?|[?|[?|[?|[? ?]]]]]]; [by left|by right; left; auto|by right; right; left; auto|do 3 right; left; lia|do 4 right; left|do 5 right; split; [|done]].
  - destruct (uptodate _ _ t); [rewrite Hu in Hcu by done|]; simpl in *; lia.
  - destruct (inflight t'); [rewrite Hi in Hci by done|]; simpl in *; lia.
Qed.

Lemma inflight_holds (t : thread) : inflight t = true → holds t = true.
Proof. unfold inflight, holds. by destruct (at_ t). Qed.
Lemma uptodate_inflight n c (t : thread) : uptodate n c t = true → inflight t = true.
Proof. unfold uptodate, inflight. by destruct (at_ t). Qed.

(** The response that was on its way is sent. *)
Lemma fresh_sent y y' (k : nat) t want members out v b :
  threads y !! k = Some t → at_ t = Starting want members out → cnt holds (threads y) ≤ 1 →
  threads y' = <[k := mkThread b Over]> (threads y) → names (rx y') = names (rx y) → current y' = current y → dirty (rx y') = dirty (rx y) →
  cancelled y' = cancelled y → sent y' = sent y ++ [(want, members, out, v)] → fresh y → fresh y'.
Proof.
  intros Hk Hat Hh Hth Hn Hc Hd Hca Hs. unfold fresh. rewrite Hn, Hc, Hd, Hca, Hs, Hth, last_snoc.
  pose proof (cnt_insert wokens _ _ _ (mkThread b Over) Hk) as Hcw. pose proof (cnt_insert (uptodate (names (rx y)) (current y)) _ _ _ (mkThread b Over) Hk) as Hcu.
  pose proof (cnt_insert inflight _ _ _ (mkThread b Over) Hk) as Hci. pose proof (cnt_mono _ _ (threads y) inflight_holds).
  pose proof (cnt_mono _ _ (<[k := mkThread b Over]> (threads y)) (uptodate_inflight (names (rx y)) (current y))).
  assert (wokens t = false ∧ inflight t = true ∧ uptodate (names (rx y)) (current y) t = bool_decide (want = names (rx y)) && bool_decide (members = current y))
    as (Hwt & Hit & Hut) by (unfold wokens, inflight, uptodate; by rewrite Hat).
  rewrite Hwt in Hcw. rewrite Hit in Hci. rewrite Hut in Hcu. cbn [Nat.b2n wokens uptodate inflight at_] in Hcw, Hcu, Hci.
  intros [?|[?|[?|[?|[?|[? _]]]]]]; [by left|by right; left|by right; right; left|do 3 right; left; lia| |lia].
  do 5 right. split; [lia|]. case_bool_decide as Hw; [|simpl in Hcu; lia]. case_bool_decide as Hm; [|simpl in Hcu; lia]. subst. eauto.
Qed.

(** ** Steps of a thread *)

Abbreviation put k t y := (with_threads (<[k := t]> (threads y)) y).

Ltac counts Hk t' :=
  pose proof (cnt_insert holds _ _ _ t' Hk); pose proof (cnt_insert reads _ _ _ t' Hk); pose proof (cnt_insert fins _ _ _ t' Hk);
  pose proof (cnt_insert maybes _ _ _ t' Hk); pose proof (cnt_insert cancels _ _ _ t' Hk); pose proof (cnt_insert dones _ _ _ t' Hk);
  pose proof (cnt_insert busy _ _ _ t' Hk); pose proof (cnt_le maybes _ _ _ Hk); pose proof (cnt_le cancels _ _ _ Hk).
Ltac opened Hi := pose proof Hi as [Hhold Hread Hfin Hpend Hclaim Hfinished Hclosed Hdone Hdones Hdel Hlink Hwatch Hmem Hcache Hthreads Hsent Hfresh].

(** What only gRPC's calls, [OnDone] and the dispatcher change. *)
Record framed (y y' : system) : Prop := {
  fr_svc : svc y' = svc y; fr_membership : membership y' = membership y; fr_watched : watched y' = watched y; fr_linked : linked y' = linked y;
  fr_deleted : deleted y' = deleted y; fr_done : done y' = done y; fr_sent : sent y' = sent y; fr_finishes : finishes y' = finishes y;
}.

(** A thread moves on and changes the reactor, a read, a write or the cancellation. *)
Lemma act_ok y y' (k : nat) t t' : eds_inv y → threads y !! k = Some t → at_ t ≠ Over → reaction t' = reaction t →
  threads y' = <[k := t']> (threads y) → framed y y' →
  Nat.b2n (holds t') + Nat.b2n (written y') + Nat.b2n (writing (rx y)) = Nat.b2n (holds t) + Nat.b2n (written y) + Nat.b2n (writing (rx y')) →
  Nat.b2n (reads t') + Nat.b2n (reading y') + Nat.b2n (early (phase (rx y))) = Nat.b2n (reads t) + Nat.b2n (reading y) + Nat.b2n (early (phase (rx y'))) →
  Nat.b2n (fins t') + Nat.b2n (bool_decide (phase (rx y) = Finished)) = Nat.b2n (fins t) + Nat.b2n (bool_decide (phase (rx y') = Finished)) →
  dones t' = dones t →
  (phase (rx y') = ReadsDone → maybes t' = true ∨ writing (rx y') = true ∨ (phase (rx y) = ReadsDone ∧ maybes t = false ∧ (writing (rx y) = true → writing (rx y') = true))) →
  (phase (rx y') = Open → dirty (rx y') = true → names (rx y') ≠ ∅ → writing (rx y') = true) →
  (phase (rx y') = Finished → writing (rx y') = false) →
  (phase (rx y') = Closed → cancelled y' = true ∨ cancels t' = true ∨ (phase (rx y) = Closed ∧ cancels t = false ∧ (cancelled y = true → cancelled y' = true))) →
  thread_ok y t' → (phase (rx y') = Open → fresh y') → eds_inv y'.
Proof.
  intros Hi Hk Hno Hre Hth [F1 F2 F3 F4 F5 F6 F7 F8] Hh Hr Hf Hd Hpe Hcl Hfi Hcd Hok Hfr. opened Hi. counts Hk t'. rewrite Hd in *.
  constructor; rewrite ?Hth, ?F1, ?F2, ?F3, ?F4, ?F5, ?F6, ?F7, ?F8; try done; try lia.
  - intros Hp. destruct (Hpe Hp) as [Hm|[Hm|(Hp' & Hm & Hw)]]; rewrite ?Hm in *; simpl in *; [lia|lia|]. specialize (Hpend Hp').
    destruct (writing (rx y)); [rewrite Hw by done; simpl; lia|simpl in *; lia].
  - intros Hp. destruct (Hcd Hp) as [?|[Hm|(Hp' & Hm & Hw)]]; [by left|rewrite Hm in *; simpl in *; right; lia|].
    destruct (Hclosed Hp'); [left; auto|right; rewrite Hm in *; simpl in *; lia].
  - intros Hdn. destruct (Hdone Hdn) as [? Hz]. split; [done|]. pose proof (cnt_le busy _ _ _ Hk) as Hle. unfold busy, quiet in *. rewrite Hre in *.
    destruct (reaction t); simpl in *; [|lia]. destruct (at_ t); simpl in *; done || lia.
  - apply Forall_insert; [|unfold thread_ok in *; rewrite F2, F3, F4; done].
    eapply Forall_impl; [exact Hthreads|]. intros x. unfold thread_ok. by rewrite F2, F3, F4.
Qed.

(** What a step of a thread comes to. *)
Definition lands (y : system) (k : nat) (re : bool) (p : point) (y1 : system) : Prop :=
  threads y1 = threads y ∧ eds_inv (put k (mkThread re p) y1).

Section Thread.
Context (y : system) (k : nat) (re : bool) (Hi : eds_inv y) (Hlive : deleted y = false).

Ltac alive := unfold thread_step, touch; wp_steps; rewrite Hlive; wp_steps.

(** Stays as fresh as it was. *)
Lemma fresh_same t t' y1 : threads y !! k = Some t → threads y1 = threads y → names (rx y1) = names (rx y) → current y1 = current y → sent y1 = sent y →
  dirty (rx y1) = dirty (rx y) → (cancelled y = true → cancelled y1 = true) → wokens t = false → inflight t = false → inflight t' = false →
  fresh y → fresh (put k t' y1).
Proof.
  intros Hk Hth Hn Hc Hs Hd Hca Hw Hif Hif'. apply (fresh_move y _ k t t'); simpl; try done.
  - by rewrite Hth.
  - by rewrite Hd.
  - intros Hu%uptodate_inflight. congruence.
  - congruence.
Qed.

Lemma finish_lands fin : threads y !! k = Some (mkThread re (InFinish fin)) → wp (thread_step inet_pton serialize (InFinish fin)) (lands y k re) y.
Proof.
  intros Hk. alive. unfold finish, on_rx. wp_steps. split; [done|]. opened Hi. pose proof (cnt_le reads _ _ _ Hk) as Hle. simpl in Hle.
  destruct (early (phase (rx y))) eqn:He; [|simpl in Hread; lia].
  apply (act_ok y _ k (mkThread re (InFinish fin)) (mkThread re MaybeDone) Hi Hk); simpl; try done; rewrite ?He; simpl; try done; try lia.
  - destruct (phase (rx y)); done.
  - by left.
Qed.

Lemma restart_lands run : threads y !! k = Some (mkThread re (Restart run)) → wp (thread_step inet_pton serialize (Restart run)) (lands y k re) y.
Proof.
  intros Hk. alive. unfold StartRead. wp_steps. opened Hi. pose proof (cnt_le reads _ _ _ Hk) as Hle. simpl in Hle.
  destruct (reading y) eqn:Hrd; [destruct (early (phase (rx y))); simpl in Hread; lia|].
  destruct (early (phase (rx y))) eqn:He; [|simpl in Hread; lia].
  assert (finishes y = []) as Hno by (rewrite bool_decide_false in Hfin by (by intros E; rewrite E in He); destruct (finishes y); [done|simpl in Hfin; lia]).
  rewrite Hno, bool_decide_false by (by intros []). simpl. wp_steps. split; [done|].
  apply (act_ok y _ k (mkThread re (Restart run)) (mkThread re (if run then InSend else Over)) Hi Hk); simpl; try done.
  - destruct run; simpl; lia.
  - rewrite Hrd. destruct run; simpl; lia.
  - by destruct run.
  - by destruct run.
  - intros Hp. rewrite Hp in He. done.
  - intros Hp. destruct (Hclosed Hp) as [?|?]; [by left|right; right]. by destruct run.
  - by destruct run.
  - intros Hp. apply (fresh_same (mkThread re (Restart run)) _ (with_reading true y)); simpl; auto; by destruct run.
Qed.

Lemma maybe_lands : threads y !! k = Some (mkThread re MaybeDone) → wp (thread_step inet_pton serialize MaybeDone) (lands y k re) y.
Proof.
  intros Hk. alive. unfold maybeDone, on_rx. wp_steps. case_bool_decide as Hp; [destruct (writing (rx y)) eqn:Hw|]; cbn [negb andb]; wp_steps; (split; [done|]); opened Hi.
  - apply (act_ok y _ k (mkThread re MaybeDone) (mkThread re Over) Hi Hk); simpl; try done; rewrite ?Hw; try done; [by auto|by rewrite Hp..].
  - apply (act_ok y _ k (mkThread re MaybeDone) (mkThread re (Finishing (status_ (rx y)))) Hi Hk); simpl; try done; rewrite ?Hp; done.
  - apply (act_ok y _ k (mkThread re MaybeDone) (mkThread re Over) Hi Hk); simpl; try done.
    + intros Hc. right; right. done.
    + intros Ho. apply (fresh_same (mkThread re MaybeDone) _ y); auto.
Qed.

Lemma cancelling_lands : threads y !! k = Some (mkThread re Cancelling) → wp (thread_step inet_pton serialize Cancelling) (lands y k re) y.
Proof.
  intros Hk. alive. split; [done|]. opened Hi.
  apply (act_ok y _ k (mkThread re Cancelling) (mkThread re MaybeDone) Hi Hk); simpl; try done; [by left..|].
  intros Ho. apply (fresh_same (mkThread re Cancelling) _ (with_cancelled true y)); auto.
Qed.

(** What [claimWriter] does. *)
Lemma claimed r : let '(r', run) := claimWriter r in
  names r' = names r ∧ dirty r' = dirty r ∧ phase r' = phase r ∧ Nat.b2n (writing r') = Nat.b2n run + Nat.b2n (writing r) ∧
  (phase r = Open → names r ≠ ∅ → writing r' = true) ∧ (phase r ≠ Open → r' = r).
Proof.
  unfold claimWriter. destruct (writing r) eqn:Hw; simpl; [by rewrite Hw|].
  case_bool_decide as Hp; simpl; [by rewrite Hw|]. case_bool_decide as Hn; simpl; [by rewrite Hw|]. by split_and!.
Qed.

(** A point from which nothing but the thread moves. *)
Lemma move_lands t p : threads y !! k = Some t → at_ t ≠ Over → reaction t = re →
  holds (mkThread re p) = holds t → reads (mkThread re p) = reads t → fins (mkThread re p) = fins t → dones (mkThread re p) = dones t →
  maybes t = false → cancels t = false → thread_ok y (mkThread re p) → (phase (rx y) = Open → fresh (put k (mkThread re p) y)) → lands y k re p y.
Proof.
  clear Hlive.
  intros Hk Ho Hre H1 H2 H3 H4 H5 H6 Hok Hfr. split; [done|]. opened Hi.
  apply (act_ok y _ k t (mkThread re p) Hi Hk); simpl; try done; rewrite ?H1, ?H2, ?H3; try done; intros Hp; right; right; auto.
Qed.

Lemma read_lands req : threads y !! k = Some (mkThread re (ReadDone req)) → wp (thread_step inet_pton serialize (ReadDone req)) (lands y k re) y.
Proof.
  intros Hk.
  assert (∀ p, holds (mkThread re p) = false → reads (mkThread re p) = true → fins (mkThread re p) = false → dones (mkThread re p) = false →
    thread_ok y (mkThread re p) → inflight (mkThread re p) = false → lands y k re p y) as Hmove.
  { intros p ??????. apply (move_lands (mkThread re (ReadDone req))); try done. intros Ho. apply (fresh_same (mkThread re (ReadDone req)) _ y); try done. by apply Hi. }
  alive. unfold OnReadDone. destruct req as [req|]; [|wp_steps; by apply Hmove].
  destruct (negb _ && negb _); [wp_steps; by apply Hmove|]. destruct (collectNames _) as [want|]; [|wp_steps; by apply Hmove].
  wp_steps. case_bool_decide as Hw; [|wp_steps; by apply Hmove]. pose proof (claimed (set_names want (rx y))) as Hc.
  destruct (claimWriter (set_names want (rx y))) as [r run]. destruct Hc as (Hn & Hd & Hp & Hwr & Hcl & Hno). wp_steps. split; [done|]. opened Hi.
  simpl in Hn, Hd, Hp, Hwr, Hcl. apply (act_ok y _ k (mkThread re (ReadDone (Some req))) (mkThread re (Restart run)) Hi Hk); simpl; try done; rewrite ?Hp; try done.
  - unfold holds. simpl. lia.
  - intros Hr. right; right. split_and!; try done. intros Hw'. rewrite Hno; [done|]. simpl. by rewrite Hr.
  - rewrite Hn. auto.
  - intros Hf. rewrite Hno; [by apply Hfinished|]. simpl. by rewrite Hf.
  - intros Hcd. right; right. by split_and!.
  - intros _. right; left. done.
Qed.

(** The holder of [writing] closes the stream. *)
Lemma close_ok p : threads y !! k = Some (mkThread re p) → p = WriteDone false ∨ p = SendFailed → writing (rx y) = true →
  eds_inv (put k (mkThread re Cancelling) (with_rx (set_writing false (close (rx y))) y)).
Proof.
  clear Hlive.
  intros Hk Hp Hw. opened Hi.
  apply (act_ok y _ k (mkThread re p) (mkThread re Cancelling) Hi Hk); destruct Hp as [-> | ->]; unfold close; destruct (phase (rx y)) eqn:Hph; simpl; try done;
    rewrite ?Hph; simpl; try done; try (by left); try (by right; left); cbn; rewrite Hw; cbn; lia.
Qed.

Lemma holder_writing t : threads y !! k = Some t → holds t = true → writing (rx y) = true ∧ written y = false ∧ cnt holds (threads y) = 1.
Proof.
  clear Hlive.
  intros Hk Ht. pose proof (ei_hold _ Hi). pose proof (cnt_le holds _ _ _ Hk) as Hle. rewrite Ht in Hle.
  destruct (writing (rx y)), (written y); simpl in *; split_and!; done || lia.
Qed.

Lemma failed_lands : threads y !! k = Some (mkThread re SendFailed) → wp (thread_step inet_pton serialize SendFailed) (lands y k re) y.
Proof.
  intros Hk. destruct (holder_writing _ Hk eq_refl) as (Hw & _). alive. unfold on_rx. wp_steps. split; [done|]. apply (close_ok SendFailed); auto.
Qed.

Lemma wrote_lands isOk : threads y !! k = Some (mkThread re (WriteDone isOk)) → wp (thread_step inet_pton serialize (WriteDone isOk)) (lands y k re) y.
Proof.
  intros Hk. opened Hi. pose proof (cnt_le holds _ _ _ Hk) as Hle. simpl in Hle.
  assert (writing (rx y) = true) as Hw by (destruct (writing (rx y)); [done|simpl in Hhold; lia]).
  assert (phase (rx y) ≠ Finished) as Hnf by (intros Hf; rewrite Hfinished in Hw; done).
  alive. unfold OnWriteDone, on_rx. destruct isOk; wp_steps; (split; [done|]).
  - destruct (dirty (rx y) && bool_decide (phase (rx y) = Open)) eqn:Ha.
    + apply andb_prop in Ha as [Hd Hp%bool_decide_eq_true].
      apply (act_ok y _ k (mkThread re (WriteDone true)) (mkThread re InSend) Hi Hk); simpl; try done; rewrite ?Hw, ?Hp; try done.
      intros _. right; left. done.
    + apply (act_ok y _ k (mkThread re (WriteDone true)) (mkThread re MaybeDone) Hi Hk); simpl; try done; rewrite ?Hw; try done.
      * by left.
      * intros Hp Hd. by rewrite Hd, bool_decide_true in Ha.
      * intros Hc. right; right. by split_and!.
      * intros Hp. apply (fresh_same (mkThread re (WriteDone true)) _ (with_rx (set_writing false (rx y)) y)); auto.
  - apply (close_ok (WriteDone false)); auto.
Qed.

Lemma done_finished : done y = true → phase (rx y) = Finished.
Proof.
  clear Hlive.
  intros [Hf _]%(ei_done _ Hi). pose proof (ei_fin _ Hi) as Hc. case_bool_decide; [done|]. simpl in Hc. destruct (finishes y); [done|simpl in Hc; lia].
Qed.

Lemma send_lands : threads y !! k = Some (mkThread re InSend) → wp (thread_step inet_pton serialize InSend) (lands y k re) y.
Proof.
  intros Hk. destruct (holder_writing _ Hk eq_refl) as (Hw & _). alive. unfold send_section, on_rx. wp_steps. opened Hi.
  destruct (bool_decide (phase (rx y) ≠ Open) || negb (dirty (rx y)) || bool_decide (names (rx y) = ∅)) eqn:Hstop; wp_steps; (split; [done|]).
  - apply (act_ok y _ k (mkThread re InSend) (mkThread re MaybeDone) Hi Hk); simpl; try done; rewrite ?Hw; try done.
    + by left.
    + intros Hp Hd Hn. by rewrite Hd, Hp, !bool_decide_false in Hstop by naive_solver.
    + intros Hc. right; right. by split_and!.
    + intros Hp. apply (fresh_same (mkThread re InSend) _ (with_rx (set_writing false (rx y)) y)); auto.
  - apply orb_false_iff in Hstop as [[Hp Hd]%orb_false_iff Hn]. apply bool_decide_eq_false in Hp, Hn.
    apply (act_ok y _ k (mkThread re InSend) (mkThread re (Rendering (names (rx y)))) Hi Hk); simpl; try done.
    + intros Hr. right; left. done.
    + intros Hc. right; right. by split_and!.
    + intros _. unfold fresh. simpl. do 4 right. left. pose proof (cnt_insert (uptodate (names (rx y)) (current y)) _ _ _ (mkThread re (Rendering (names (rx y)))) Hk) as Hc.
      unfold uptodate in Hc at 2 4. simpl in Hc. rewrite bool_decide_true in Hc by done. simpl in Hc. unfold current in *. simpl. lia.
Qed.

Lemma rendering_lands want : threads y !! k = Some (mkThread re (Rendering want)) → wp (thread_step inet_pton serialize (Rendering want)) (lands y k re) y.
Proof.
  intros Hk. alive. apply (move_lands (mkThread re (Rendering want))); try done.
  - unfold thread_ok, current. simpl. pose proof (ei_members _ Hi). destruct (membership y); [done|simpl; lia].
  - intros Ho. apply (fresh_move y _ k (mkThread re (Rendering want)) (mkThread re (Filling want (current y)))); simpl; try done; [|by apply Hi].
    unfold uptodate. simpl. intros ->. by rewrite bool_decide_true.
Qed.

(** [render] gives what it would compute from the membership, cached or not. *)
Lemma render_ok members : members < length (membership y) → ∃ c m, membership y !! members = Some m ∧
  render inet_pton serialize members y = (with_svc c y, Ok (render_all inet_pton serialize m)) ∧ eds_inv (with_svc c y).
Proof.
  clear Hlive.
  intros [m Hm]%lookup_lt_is_Some. pose proof (ei_cache _ Hi members) as Hc. unfold render, mbind, M_bind, get. case_bool_decide as Hr.
  - destruct (Hc Hr) as (m' & Hm' & ->). simplify_eq. exists (svc y), m. split_and!; [done|by destruct y|]. opened Hi. by constructor.
  - unfold expect. rewrite Hm. eexists _, m. split_and!; [done|done|]. opened Hi. constructor; simpl; try done. intros j [= <-]. eauto.
Qed.
End Thread.

Lemma filling_lands y (k : nat) re want members : eds_inv y → deleted y = false → threads y !! k = Some (mkThread re (Filling want members)) →
  wp (thread_step inet_pton serialize (Filling want members)) (lands y k re) y.
Proof.
  intros Hi Hlive Hk. pose proof (Forall_lookup_1 _ _ _ _ (ei_threads _ Hi) Hk) as Hlt. unfold thread_ok in Hlt. simpl in Hlt.
  destruct (render_ok y Hi members Hlt) as (c & m & Hm & He & Hi1). unfold thread_step, touch. wp_steps. rewrite Hlive. wp_steps.
  unfold send_fill. apply wp_bind. exists (render_all inet_pton serialize m), (with_svc c y). split; [done|]. wp_steps.
  change (lands (with_svc c y) k re (match fill inet_pton serialize (render_all inet_pton serialize m) (elements want) with
    | Some out => Starting want members out | None => SendFailed end) (with_svc c y)).
  destruct (fill _ _ _ _) as [out|] eqn:Hf; apply (move_lands (with_svc c y) k re Hi1 (mkThread re (Filling want members))); try done.
  - by exists m.
  - intros Ho. by apply (fresh_move (with_svc c y) _ k (mkThread re (Filling want members)) (mkThread re (Starting want members out))); [..|apply Hi1].
  - intros Ho. by apply (fresh_move (with_svc c y) _ k (mkThread re (Filling want members)) (mkThread re SendFailed)); [..|apply Hi1].
Qed.

Section Grpc.
Context (y : system) (k : nat) (re : bool) (Hi : eds_inv y) (Hlive : deleted y = false).

Ltac alive := unfold thread_step, touch; wp_steps; rewrite Hlive; wp_steps.



Lemma thread_ok_insert (y' : system) p : membership y' = membership y → watched y' = watched y → linked y' = linked y → thread_ok y (mkThread re p) →
  Forall (thread_ok y') (<[k := mkThread re p]> (threads y)).
Proof.
  clear Hlive. intros Hm Hw Hl Hok. apply Forall_insert; [|unfold thread_ok in *; by rewrite Hm, Hw, Hl].
  eapply Forall_impl; [apply (ei_threads _ Hi)|]. intros x. unfold thread_ok. by rewrite Hm, Hw, Hl.
Qed.

Lemma starting_lands want members out : threads y !! k = Some (mkThread re (Starting want members out)) →
  wp (thread_step inet_pton serialize (Starting want members out)) (lands y k re) y.
Proof.
  intros Hk. destruct (holder_writing y k Hi _ Hk eq_refl) as (Hw & Hwr & Hone). opened Hi.
  assert (finishes y = []) as Hno.
  { destruct (finishes y); [done|]. rewrite bool_decide_false in Hfin; [simpl in Hfin; lia|]. intros Hf. rewrite Hfinished in Hw; done. }
  alive. unfold on_rx, StartWrite. wp_steps. cbn [written finishes with_rx]. rewrite Hwr, Hno, bool_decide_false by (by intros []). simpl. wp_steps. split; [done|].
  pose proof (Forall_lookup_1 _ _ _ _ Hthreads Hk) as Hmade. counts Hk (mkThread (Any:=Any) re Over). simpl in *.
  constructor; simpl; rewrite ?Hno, ?Hwr in *; try done; try lia.
  - rewrite Hw. simpl. lia.
  - intros Hp. destruct (Hclosed Hp); [by left|right; lia].
  - intros Hdn. by destruct (Hdone Hdn).
  - by apply thread_ok_insert.
  - apply Forall_app. split; [done|]. apply Forall_singleton. exact Hmade.
  - intros Ho. by eapply (fresh_sent y _ k _ want members out _ re Hk); [done|rewrite Hone|..|apply Hfresh].
Qed.

Lemma finishing_lands fin : threads y !! k = Some (mkThread re (Finishing fin)) → wp (thread_step inet_pton serialize (Finishing fin)) (lands y k re) y.
Proof.
  intros Hk. opened Hi. pose proof (cnt_le fins _ _ _ Hk) as Hle. cbn in Hle.
  assert (finishes y = [] ∧ phase (rx y) = Finished) as [Hno Hf].
  { case_bool_decide; simpl in Hfin; [|lia]. destruct (finishes y); simpl in Hfin; [done|lia]. }
  alive. unfold Finish. wp_steps. rewrite Hno, bool_decide_false by (by intros []). wp_steps. split; [done|]. counts Hk (mkThread (Any:=Any) re Over). simpl in *.
  constructor; simpl; rewrite ?Hno, ?Hf in *; simpl in *; try done; try lia.
  - intros Hdn. by destruct (Hdone Hdn).
  - by apply thread_ok_insert.
Qed.

(** A thread that ends [OnDone]'s next part; the stream is finished by then. *)
Lemma done_lands p p' wt lk dl : threads y !! k = Some (mkThread re p) → dones (mkThread re p) = true →
  (lk = false → wt = false) → (watched y = false → wt = false) → (linked y = false → lk = false) → (dl = true → lk = false) →
  dones (mkThread re p') = negb dl → holds (mkThread re p') = false → reads (mkThread re p') = false → fins (mkThread re p') = false →
  maybes (mkThread re p') = false → cancels (mkThread re p') = false →
  match p' with DoneUnlink => wt = false | DoneDelete => lk = false | Over => True | _ => False end →
  eds_inv (put k (mkThread re p') (with_deleted dl (with_linked lk (with_watched wt y)))).
Proof.
  intros Hk Hd Hlw Hww Hll Hdl H1 H2 H3 H4 H5 H6 Hp'. opened Hi. pose proof (cnt_le dones _ _ _ Hk) as Hle. rewrite Hd in Hle.
  assert (done y = true) as Hdn by (destruct (done y); [done|simpl in *; lia]).
  assert (holds (mkThread re p) = false ∧ reads (mkThread re p) = false ∧ fins (mkThread re p) = false ∧ maybes (mkThread re p) = false ∧ cancels (mkThread re p) = false)
    as (P1 & P2 & P3 & P4 & P5) by (by destruct p).
  pose proof (done_finished y Hi Hdn) as Hph. counts Hk (mkThread re p'). rewrite ?Hd, ?H1, ?H2, ?H3, ?H4, ?H5, ?H6, ?P1, ?P2, ?P3, ?P4, ?P5 in *.
  constructor; simpl; rewrite ?Hph in *; try done; try lia; auto.
  - destruct (Hdone Hdn) as [? Hz]. intros _. split; [done|]. pose proof (cnt_le busy _ _ _ Hk) as Hb. unfold busy, quiet in *. simpl in *.
    destruct re; simpl in *; [destruct p; done || (simpl in *; lia)|lia].
  - rewrite Hdn, Hlive in *. destruct dl; simpl in *; lia.
  - apply Forall_insert; [|unfold thread_ok; simpl; by destruct p'].
    eapply Forall_impl; [exact Hthreads|]. intros x. unfold thread_ok. simpl. destruct (at_ x); auto.
Qed.

Lemma done_steps p : threads y !! k = Some (mkThread re p) → p = DoneBegin ∨ p = DoneUnlink ∨ p = DoneDelete →
  wp (thread_step inet_pton serialize p) (lands y k re) y.
Proof.
  intros Hk Hp. pose proof (Forall_lookup_1 _ _ _ _ (ei_threads _ Hi) Hk) as Hok. unfold thread_ok in Hok. simpl in Hok.
  destruct Hp as [->|[->| ->]]; alive; (split; [done|]).
  - pose proof (done_lands DoneBegin DoneUnlink false (linked y) false Hk eq_refl) as H. destruct y as [??????? dl ??????]; simpl in *; subst dl. by apply H.
  - pose proof (done_lands DoneUnlink DoneDelete (watched y) false false Hk eq_refl) as H. destruct y as [??????? dl ??????]; simpl in *; subst dl. by apply H.
  - pose proof (done_lands DoneDelete Over (watched y) (linked y) true Hk eq_refl) as H. pose proof (ei_linked _ Hi) as Hl.
    destruct y as [??????? dl ??????]; simpl in *; subst dl. by apply H.
Qed.
End Grpc.

Lemma woken_lands y (k : nat) re : eds_inv y → threads y !! k = Some (mkThread re Woken) → wp (thread_step inet_pton serialize Woken) (lands y k re) y.
Proof.
  intros Hi Hk. unfold thread_step, wake. wp_steps. opened Hi. destruct (linked y) eqn:Hl; wp_steps.
  - assert (deleted y = false) as Hlive by (destruct (deleted y); [by destruct Hdel|done]). unfold touch. wp_steps. rewrite Hlive. wp_steps.
    unfold beginWake. wp_steps. destruct (active_ y); simpl.
    + pose proof (claimed (set_dirty true (rx y))) as Hc. destruct (claimWriter (set_dirty true (rx y))) as [r run].
      destruct Hc as (Hn & Hd & Hp & Hwr & Hcl & Hno). simpl in *. wp_steps. split; [done|].
      apply (act_ok y _ k (mkThread re Woken) (mkThread re (if run then InSend else Over)) Hi Hk); simpl; rewrite ?Hp; try done.
      * destruct run; simpl in *; lia.
      * by destruct run.
      * by destruct run.
      * by destruct run.
      * intros Hr. right; right. split_and!; try done. intros Hw. rewrite Hno; [done|]. by rewrite Hr.
      * rewrite Hn. auto.
      * intros Hf. rewrite Hno; [by apply Hfinished|]. by rewrite Hf.
      * intros Hcd. right; right. by split_and!.
      * by destruct run.
      * intros _. right; left. done.
    + wp_steps. split; [done|]. apply (act_ok y _ k (mkThread re Woken) (mkThread re Over) Hi Hk); simpl; try done.
      * intros Hr. right; right. by split_and!.
      * by left.
      * intros _. right; right; left. done.
  - split; [done|]. apply (move_lands y k re Hi (mkThread re Woken)); try done. intros Ho. rewrite (done_finished y Hi) in Ho; [done|]. auto.
Qed.

(** ** Everything together *)

(** The one use of a reactor that is gone: a wake-up that has let go of [writing] and not yet returned. *)
Definition strays (y : system) (t : thread) : Prop := deleted y = true ∧ reaction t = false ∧ maybes t = true.

Lemma eds_run_ok y (k : nat) t : eds_inv y → threads y !! k = Some t → ¬ strays y t → wp (step inet_pton serialize (Run k)) (λ _, eds_inv) y.
Proof.
  intros Hi Hk Hns. unfold step. wp_steps. rewrite Hk. apply wp_bind.
  eapply (wp_mono _ (lands y k (reaction t))); [|by intros p y1 [Hth ?]; wp_steps].
  assert (at_ t = Over ∨ at_ t = Woken ∨ (at_ t ≠ Over ∧ at_ t ≠ Woken)) as [Ho|[Hw|[Hno Hnw]]] by (destruct (at_ t); auto; right; right; by split).
  - rewrite Ho. unfold thread_step. wp_steps. split; [done|]. destruct t as [re p]. simpl in *. subst p.
    replace (put k (mkThread re Over) y) with y; [done|]. rewrite list_insert_id by done. by destruct y.
  - rewrite Hw. apply woken_lands; [done|]. destruct t. simpl in *. by subst.
  - assert (deleted y = false) as Hlive.
    { destruct (deleted y) eqn:Hd; [|done]. destruct (not_deleted y k t Hi Hk Hd) as [?|[?|[? ?]]]; [done|done|]. by destruct Hns. }
    destruct t as [re p]. simpl in *. destruct p; try done;
      [by apply read_lands|by apply finish_lands|by apply restart_lands|by apply wrote_lands|by apply send_lands|by apply rendering_lands|by apply filling_lands
      |by apply starting_lands|by apply failed_lands|by apply cancelling_lands|by apply maybe_lands|by apply finishing_lands|apply done_steps; auto..].
Qed.

Lemma made_more l m want members out : made l want members out → made (l ++ [m]) want members out.
Proof. intros (m' & Hm & ?). exists m'. split; [by apply lookup_app_l_Some|done]. Qed.

Section Events.
Context (y : system) (Hi : eds_inv y).

(** A new thread that has nothing to send yet. *)
Lemma fresh_spawn y' t : threads y' = threads y ++ [t] → names (rx y') = names (rx y) → current y' = current y → sent y' = sent y → dirty (rx y') = dirty (rx y) →
  cancelled y' = cancelled y → inflight t = false → fresh y → fresh y'.
Proof.
  clear Hi. intros Hth Hn Hc Hs Hd Hca Ht. unfold fresh. rewrite Hn, Hc, Hs, Hd, Hca, Hth, !cnt_snoc, Ht. simpl.
  intros [?|[?|[?|[?|[?|[? ?]]]]]]; [by left|by right; left|by right; right; left|do 3 right; left; lia|do 4 right; left; lia|do 5 right; split; [lia|done]].
Qed.

Lemma thread_ok_spawn y' t : membership y' = membership y → watched y' = watched y → linked y' = linked y → thread_ok y t → Forall (thread_ok y') (threads y ++ [t]).
Proof.
  intros Hm Hw Hl Hok. apply Forall_app. split; [eapply Forall_impl; [apply (ei_threads _ Hi)|]; intros x|apply Forall_singleton; revert Hok]; unfold thread_ok; by rewrite Hm, Hw, Hl.
Qed.

Lemma change_ok m : wp (step inet_pton serialize (Change m)) (λ _, eds_inv) y.
Proof.
  unfold step. wp_steps. cbn [watched with_membership].
  assert (∀ y', membership y' = membership y ++ [m] → watched y' = watched y → linked y' = linked y → ∀ t, thread_ok y t → thread_ok y' t) as Hok.
  { intros y' Hm Hw Hl t. unfold thread_ok. rewrite Hm, Hw, Hl. destruct (at_ t); auto; [rewrite length_app; lia|apply made_more]. }
  destruct (watched y) eqn:Hw; [unfold spawn|]; wp_steps; opened Hi.
  - constructor; simpl; rewrite ?cnt_snoc; simpl; rewrite ?Nat.add_0_r; auto; try done.
    + by intros [? _]%app_eq_nil.
    + intros j Hj. destruct (Hcache j Hj) as (m' & ? & ?). exists m'. split; [by apply lookup_app_l_Some|done].
    + apply Forall_app. split; [|by apply Forall_singleton]. eapply Forall_impl; [exact Hthreads|]. by apply Hok.
    + eapply Forall_impl; [exact Hsent|]. intros x. apply made_more.
    + intros _. do 3 right. left. simpl. rewrite cnt_snoc. simpl. lia.
  - pose proof (done_finished y Hi (Hwatch Hw)) as Hf. constructor; simpl; auto; try done.
    + by intros [? _]%app_eq_nil.
    + intros j Hj. destruct (Hcache j Hj) as (m' & ? & ?). exists m'. split; [by apply lookup_app_l_Some|done].
    + eapply Forall_impl; [exact Hthreads|]. by apply Hok.
    + eapply Forall_impl; [exact Hsent|]. intros x. apply made_more.
    + by rewrite Hf.
Qed.

Lemma grpc_read_ok req : reading y = true → wp (step inet_pton serialize (GrpcRead req)) (λ _, eds_inv) y.
Proof.
  intros Hr. unfold step, spawn. wp_steps. opened Hi. rewrite Hr in Hread.
  assert (done y = false) as Hnd by (destruct (done y) eqn:Hd; [|done]; rewrite (done_finished y Hi Hd) in Hread; simpl in Hread; lia).
  constructor; simpl; rewrite ?cnt_snoc; simpl; rewrite ?Nat.add_0_r; auto; try done; try lia; rewrite ?Hnd in *; try done.
  - by apply thread_ok_spawn.
  - intros Ho. by eapply (fresh_spawn _ (mkThread true (ReadDone req))); [..|apply Hfresh].
Qed.

Lemma grpc_wrote_ok isOk : written y = true → wp (step inet_pton serialize (GrpcWrote isOk)) (λ _, eds_inv) y.
Proof.
  intros Hr. unfold step, spawn. wp_steps. opened Hi. rewrite Hr in Hhold.
  assert (done y = false) as Hnd by (destruct (done y) eqn:Hd; [|done]; rewrite Hfinished in Hhold by (by apply done_finished); simpl in Hhold; lia).
  constructor; simpl; rewrite ?cnt_snoc; simpl; rewrite ?Nat.add_0_r; auto; try done; try lia; rewrite ?Hnd in *; try done.
  - by apply thread_ok_spawn.
  - intros Ho. by eapply (fresh_spawn _ (mkThread true (WriteDone isOk))); [..|apply Hfresh].
Qed.

Lemma grpc_done_ok : enabled GrpcDone y = true → wp (step inet_pton serialize GrpcDone) (λ _, eds_inv) y.
Proof.
  intros [[[[Hnd%negb_true_iff Hf%bool_decide_eq_true]%andb_prop Hr%negb_true_iff]%andb_prop Hw%negb_true_iff]%andb_prop Hq]%andb_prop.
  unfold step, spawn. wp_steps. opened Hi. rewrite forallb_forall in Hq.
  assert (cnt busy (threads y) = 0) as Hb.
  { apply cnt_zero, Forall_forall. intros t Ht. unfold busy. rewrite Hq; [done|]. by apply list_elem_of_In. }
  assert (deleted y = false) as Hlive by (destruct (deleted y); [|done]; destruct Hdel; congruence).
  constructor; simpl; rewrite ?cnt_snoc; simpl; rewrite ?Nat.add_0_r; auto; try done; rewrite ?Hnd, ?Hlive in *; simpl in *; try lia; try done.
  - by apply thread_ok_spawn.
  - intros Ho. by eapply (fresh_spawn _ (mkThread false DoneBegin)); [..|apply Hfresh].
Qed.

Lemma eds_event_ok ev : enabled ev y = true → (∀ k t, ev = Run k → threads y !! k = Some t → ¬ strays y t) → wp (step inet_pton serialize ev) (λ _, eds_inv) y.
Proof.
  intros Hen Hns. destruct ev as [m|members|b|req|isOk| |k].
  - apply change_ok.
  - apply bool_decide_eq_true in Hen. destruct (render_ok y Hi members Hen) as (c & m & _ & He & Hi1). unfold step. apply wp_bind. do 2 eexists. split; [done|]. by wp_steps.
  - unfold step. wp_steps. opened Hi. by constructor.
  - by apply grpc_read_ok.
  - by apply grpc_wrote_ok.
  - by apply grpc_done_ok.
  - destruct (threads y !! k) as [t|] eqn:Hk; [by apply (eds_run_ok y k t); [..|apply (Hns k)]|]. unfold step. wp_steps. rewrite Hk. by wp_steps.
Qed.
End Events.

Lemma stray_undefined y (k : nat) t : threads y !! k = Some t → strays y t → step inet_pton serialize (Run k) y = (y, Throw Undefined).
Proof.
  intros Hk (Hd & _ & Hm). unfold step, mbind, M_bind, get. rewrite Hk. unfold maybes in Hm.
  destruct (at_ t); try done; unfold thread_step, touch, mbind, M_bind, get; by rewrite Hd.
Qed.

Lemma strays_dec y t : strays y t ∨ ¬ strays y t.
Proof. unfold strays. destruct (deleted y), (reaction t), (maybes t); (by left) || (right; by intros (? & ? & ?)). Qed.

Lemma eds_new_inv m : eds_inv (new_system m).
Proof. constructor; simpl; try done. intros _. by left. Qed.

Lemma eds_reachable_inv m y : reachable inet_pton serialize m y → eds_inv y.
Proof.
  induction 1 as [|y ev _ Hi Hen]; [apply eds_new_inv|].
  assert ((∃ k t, ev = Run k ∧ threads y !! k = Some t ∧ strays y t) ∨ ∀ k t, ev = Run k → threads y !! k = Some t → ¬ strays y t) as [(k & t & -> & Hk & Hs)|Hns].
  { destruct ev as [| | | | | |k]; try (right; intros ? ? [=]; fail). destruct (threads y !! k) as [t|] eqn:Hk.
    - destruct (strays_dec y t); [left; eauto|right; intros ? ? [= <-]; congruence].
    - right. intros ? ? [= <-]. congruence. }
  - unfold exec. by rewrite (stray_undefined y k t Hk Hs).
  - by destruct (wp_exec _ _ _ (eds_event_ok y Hi ev Hen Hns)) as (? & ? & ?).
Qed.

(** C25. A stream keeps gRPC's rules in every interleaving of its reactions and of the dispatcher's wake-ups: every step returns,
    so there is never a second write or read at a time, none after Finish, and one Finish.  The one exception is a
    wake-up that lets go of the stream while a reaction finishes it: it may use the reactor after its deletion. *)
Theorem eds_protocol m y ev :
  reachable inet_pton serialize m y → enabled ev y = true →
  (∃ y', step inet_pton serialize ev y = (y', Ok tt)) ∨ (∃ k t, ev = Run k ∧ threads y !! k = Some t ∧ strays y t).
Proof.
  intros Hi%eds_reachable_inv Hen. destruct ev as [| | | | | |k]; try (left; destruct (eds_event_ok y Hi _ Hen) as ([] & y' & ? & _); [done|eauto]; fail).
  destruct (threads y !! k) as [t|] eqn:Hk; [destruct (strays_dec y t) as [Hs|Hs]; [right; eauto|]|]; left.
  - destruct (eds_run_ok y k t Hi Hk Hs) as ([] & y' & ? & _). eauto.
  - destruct (eds_event_ok y Hi (Run k) Hen) as ([] & y' & ? & _); [|eauto]. intros ? ? [= <-]. congruence.
Qed.

(** The last thing that was sent is for what is subscribed now, made from the workers as they are now. *)
Definition up_to_date (y : system) : Prop :=
  ∃ mem out v, last (membership y) = Some mem ∧ last (sent y) = Some (names (rx y), current y, out, v) ∧
    fill inet_pton serialize (render_all inet_pton serialize mem) (elements (names (rx y))) = Some out.

End EdsTheorems.

(** ** The number of streams *)

Definition got (p : apoint) : bool := match p with AGot => true | _ => false end.
(** A caller that is about to take a place knows there is one. *)
Definition saw_room (p : apoint) : bool := match p with AExchange seen => (seen <? maxStreams)%N | _ => true end.

(** However callers race, the counter is the number of streams that are open, which stays within its bound. *)
Lemma eds_streams_bounded open l : areachable open l → open = N.of_nat (cnt got l) ∧ (open <= maxStreams)%N.
Proof.
  intros H. cut (open = N.of_nat (cnt got l) ∧ (open <= maxStreams)%N ∧ Forall (λ p, saw_room p = true) l); [tauto|].
  induction H as [|open l _ (Ho & Hb & Hs)|open l k p spurious open' p' _ (Ho & Hb & Hs) Hk Hstep]; [done|by rewrite cnt_snoc, Nat.add_0_r, Forall_app, Forall_singleton|].
  pose proof (cnt_insert got _ _ _ p' Hk) as Hc. pose proof (cnt_le got _ _ _ Hk) as Hle. pose proof (Forall_lookup_1 _ _ _ _ Hs Hk) as Hp.
  assert (∀ o : N, saw_room (if (o <? maxStreams)%N then AExchange o else ARefused) = true ∧ got (if (o <? maxStreams)%N then AExchange o else ARefused) = false) as Hagain.
  { intros o. destruct (o <? maxStreams)%N eqn:E; by split. }
  destruct p as [|seen| | |]; unfold acquire_step, mbind, M_bind, get, modify in Hstep.
  - injection Hstep as <- <-. destruct (Hagain open) as [Ha Hg]. rewrite Hg in Hc. simpl in Hc. split_and!; [lia|done|by apply Forall_insert].
  - destruct (N.eqb_spec open seen) as [->|Hne]; [destruct spurious|]; injection Hstep as <- <-.
    + destruct (Hagain seen) as [Ha Hg]. simpl in Hc. rewrite Hg in Hc. simpl in Hc. split_and!; [lia|done|by apply Forall_insert].
    + simpl in Hc, Hp. apply N.ltb_lt in Hp. rewrite u32_small by (unfold maxStreams in *; lia). split_and!; [lia|lia|by apply Forall_insert].
    + destruct (Hagain open) as [Ha Hg]. rewrite Hg in Hc. simpl in Hc. split_and!; [lia|done|by apply Forall_insert].
  - injection Hstep as <- <-. simpl in *. assert (u32 (open + 2 ^ 32 - 1) = open - 1)%N as ->.
    { unfold u32. replace (open + 2 ^ 32 - 1)%N with (open - 1 + 1 * 2 ^ 32)%N by lia. rewrite N.Div0.mod_add. apply N.mod_small. unfold maxStreams in *. lia. }
    split_and!; [lia|lia|by apply Forall_insert].
  - injection Hstep as <- <-. simpl in *. split_and!; [lia|done|by apply Forall_insert].
  - injection Hstep as <- <-. simpl in *. split_and!; [lia|done|by apply Forall_insert].
Qed.
