(* ===== verification/EdsDemo.v ===== *)
(** * Endpoint discovery: runs

    A stream that is served, and one whose reactor is used after its deletion. *)

From Stdlib Require Import Ascii.
From S2P Require Import Xfcc Acl Oidc Auth Prelude Dispatcher Eds EdsTheorems.

(** Literals by their letters, and a serialisation that never fails. *)
Definition literal (v6 : bool) (host : bytes) : bool :=
  forallb (λ chr, is_digit chr || bool_decide (chr = ascii_of_N 46) || (v6 && bool_decide (chr = colon))) host.
Definition as_is (cla : ClusterLoadAssignment) : option ClusterLoadAssignment := Some cla.

#[local] Abbreviation demo_step := (step literal as_is).
#[local] Abbreviation demo_reachable := (reachable literal as_is).

Definition demo_members (draining : bool) : Membership := {[ "x86_64-linux" := [("10.0.0.1:50052", draining); ("worker:50052", false); ("[::1]:7", false)] ]}.

Fixpoint run (evs : list event) (y : system) : system :=
  match evs with
  | [] => y
  | ev :: evs => if enabled ev y then run evs (exec (demo_step ev) y) else y
  end.
Lemma eds_run_reachable m evs y : demo_reachable m y → demo_reachable m (run evs y).
Proof.
  revert y. induction evs as [|ev evs IH]; intros y Hy; [done|]. cbn [run]. destruct (enabled ev y) eqn:He; [|done]. by apply IH, reach_step.
Qed.

Definition subscribe : option request := Some (mkRequest "" ["x86_64-linux"; "riscv64-linux"]).
Definition served : system := run ([GrpcRead subscribe] ++ repeat (Run 0) 6 ++ [GrpcWrote true; Run 1; Run 1]) (new_system (demo_members false)).
Lemma served_reached : demo_reachable (demo_members false) served.
Proof. apply eds_run_reachable, reach_new. Qed.


Lemma eds_protocol_witness :
  let ev := Change (demo_members true) in
  (∃ y', demo_step ev served = (y', Ok tt)) ∨ (∃ k t, ev = Run k ∧ threads served !! k = Some t ∧ strays served t).
Proof. cbv zeta. apply (eds_protocol literal as_is (demo_members false) served); [apply served_reached|reflexivity]. Defined.

(** What is sent: the addresses that parse. *)
Definition shown (b : LbEndpoint) : string * N := (String.string_of_list_ascii (Endpoint.host (socket_address b)), Endpoint.port (socket_address b)).
Lemma demo_list : List.map shown (add_endpoints literal [("10.0.0.1:50052", true); ("worker:50052", false); ("[::1]:7", false); ("10.0.0.2:0", false)] []) = [("10.0.0.1", 50052%N); ("::1", 7%N)].
Proof. vm_compute. reflexivity. Qed.

(** ** A wake-up that outlives its reactor *)

(** A wake-up (thread 2) claims the stream; the client goes (thread 3), the wake-up lets go, and before it looks whether the stream
    is to be finished the reaction has finished it and gRPC has called [OnDone] (thread 4). *)
Definition orphaned : system :=
  run [Change (demo_members true); Run 2; GrpcRead None; Run 3; Run 3; Run 2; Run 3; Run 3; GrpcDone; Run 4; Run 4; Run 4] served.

Lemma wake_outlives_reactor :
  demo_reachable (demo_members false) orphaned ∧ at_ <$> threads orphaned !! 2 = Some MaybeDone ∧ deleted orphaned = true ∧
  (demo_step (Run 2) orphaned).2 = Throw Undefined.
Proof. split; [apply eds_run_reachable, served_reached|]. split_and!; vm_compute; reflexivity. Qed.
