(* ===== verification/Pump.v ===== *)
(** * Compressed streams

    src/src/pump.hh: the two directions of the tunnel that carries the worker protocol, and the sink and source that carry
    NARs.  zstd is an interface: [Zstd] has the calls that are used and [ZstdLaws] what its manual promises of them, on a
    context whose calls so far are [compressed] or [decompressed].  When the peer stops taking messages, and what [poll] and
    [read] return, are inputs. *)

From Stdlib Require Import Ascii.
From S2P Require Import Prelude Retry NarFetch.

(** ** zstd *)

Inductive Directive := ZSTD_e_continue | ZSTD_e_flush | ZSTD_e_end.
Definition is_continue (d : Directive) : bool := match d with ZSTD_e_continue => true | _ => false end.

Class Zstd := {
  CCtx : Type;
  DCtx : Type;
  createCCtx : CCtx;
  createDCtx : DCtx;
  (** With room for [ZSTD_CStreamOutSize] bytes: the context, how much of the input was taken, the output, and what is still to be flushed. *)
  compressStream2 : CCtx → bytes → Directive → (CCtx * nat * bytes * nat) + string;
  (** With room for so many bytes: the context, how much of the input was taken, and the output. *)
  decompressStream : DCtx → bytes → nat → (DCtx * nat * bytes) + string;
  DStreamOutSize : nat;
  (** Not a call: how often a call may have to be repeated, the fuel of the loop that does. *)
  repeats : CCtx → nat → Directive → nat;
}.

(** All calls on a compressor so far: what went in, what came out, and whether the last call flushed everything. *)
Inductive compressed `{Zstd} : CCtx → bytes → bytes → bool → Prop :=
  | compressed_new : compressed createCCtx [] [] true
  | compressed_more c inp z fl data dir c' n out left_ :
      compressed c inp z fl → compressStream2 c data dir = inl (c', n, out, left_) →
      compressed c' (inp ++ take n data) (z ++ out) (negb (is_continue dir) && (left_ =? 0)).

(** All calls on a decompressor so far: what went in, what came out, and whether the last call took all its input and had room to spare. *)
Inductive decompressed `{Zstd} : DCtx → bytes → bytes → bool → Prop :=
  | decompressed_new : decompressed createDCtx [] [] true
  | decompressed_more d z out dr data cap d' n o :
      decompressed d z out dr → decompressStream d data cap = inl (d', n, o) →
      decompressed d' (z ++ take n data) (out ++ o) ((length data <=? n) && (length o <? cap)).

(** What the manual promises. *)
Class ZstdLaws `{Zstd} := {
  zl_size : 0 < DStreamOutSize;
  (** A compressor in use does not fail, flushing everything takes all input, and repeating a call comes to an end. *)
  zl_compress c inp z fl data dir : compressed c inp z fl → ∃ r, compressStream2 c data dir = inl r;
  zl_flush c inp z fl data dir c' n out : compressed c inp z fl → compressStream2 c data dir = inl (c', n, out, 0) → is_continue dir = false → length data <= n;
  zl_ends c inp z fl data dir c' n out left_ : compressed c inp z fl → compressStream2 c data dir = inl (c', n, out, left_) →
    (if is_continue dir then n < length data else left_ ≠ 0) → repeats c' (length data - n) dir < repeats c (length data) dir;
  (** The output of a compressor, cut anywhere, decompresses without failure to a beginning of its input, to all of it if it
      was flushed, and every call makes progress.  (zstd also gives up on a context after sixteen calls in a row that moved neither input
      nor output.  On messages that are not empty, as the sender's are, the program makes no two such calls in a row.) *)
  zl_decompress c inp z fl d z' out dr data cap : compressed c inp z fl → decompressed d z' out dr → z' ++ data `prefix_of` z →
    ∃ r, decompressStream d data cap = inl r;
  zl_fits d z out dr data cap d' n o : decompressed d z out dr → decompressStream d data cap = inl (d', n, o) → n <= length data ∧ length o <= cap;
  zl_prefix c inp z fl d z' out dr : compressed c inp z fl → decompressed d z' out dr → z' `prefix_of` z → out `prefix_of` inp;
  zl_all c inp z d out : compressed c inp z true → decompressed d z out true → out = inp;
  zl_progress d z out dr data cap d' n o : decompressed d z out dr → decompressStream d data cap = inl (d', n, o) → 0 < cap → data ≠ [] → 0 < n ∨ o ≠ [];
}.

(** ** Sending: [zstdCompressInto] *)

(** The writer's side of a stream: the context, the message in preparation, the messages sent, and how many more the peer
    takes, [None] for all. *)
Section Writing.
Context `{Zstd} {Msg : Type}.

Record writer := mkWriter { cctx : CCtx; msg : bytes; sent : list Msg; room : option nat }.
Definition new_writer (r : option nat) : writer := mkWriter createCCtx [] [] r.
Definition with_msg m s := mkWriter (cctx s) m (sent s) (room s).

Definition Write (m : Msg) : M writer bool :=
  s ← get;
  match room s with
  | Some 0 => mret false
  | r => modify (λ s, mkWriter (cctx s) (msg s) (sent s ++ [m]) (pred <$> r));; mret true
  end.

Fixpoint zstdCompressInto (fuel : nat) (input : bytes) (dir : Directive) (ship : M writer ()) : M writer () :=
  match fuel with
  | 0 => throw OutOfFuel
  | S fuel =>
      s ← get;
      match compressStream2 (cctx s) input dir with
      | inr err => throw (NixError ("zstd compress: " +:+ err))
      | inl (c', n, out, remaining) =>
          modify (λ s, mkWriter c' (msg s ++ out) (sent s) (room s));;
          s ← get;
          (if (kChunkSize <=? blen (msg s))%N then ship else mret tt);;
          let rest := drop n input in
          let done := if is_continue dir then bool_decide (rest = []) else remaining =? 0 in
          if done then mret tt else zstdCompressInto fuel rest dir ship
      end
  end.

Definition compressInto (input : bytes) (dir : Directive) (ship : M writer ()) : M writer () :=
  s ← get; zstdCompressInto (S (repeats (cctx s) (length input) dir)) input dir ship.
End Writing.
Arguments writer {_} Msg.

(** ** The tunnel *)

(** What [poll] and the [read] after it return: [poll] fails, or times out if it may, or [read] fails, or returns some bytes of
    what is still to come, none at its end. *)
Inductive io := PollFails (eintr : bool) | NotReady | ReadFails (eintr : bool) | Reads (atMost : nat).

Inductive coalesced := Batch (b : bytes) | ReadError | Blocks.

(** [readCoalesced], with what is left to come and of the answers.  Without answers, nothing is ready: the first [poll] waits
    for ever, a later one times out. *)
Fixpoint readCoalesced (cap : nat) (ios : list io) (input got : bytes) : coalesced * bytes * list io :=
  if length got <? cap then
    let failed := if bool_decide (got = []) then ReadError else Batch got in
    match ios with
    | [] => (if bool_decide (got = []) then Blocks else Batch got, input, [])
    | PollFails eintr :: ios => if eintr then readCoalesced cap ios input got else (failed, input, ios)
    | NotReady :: ios => if bool_decide (got = []) then readCoalesced cap ios input got else (Batch got, input, ios)
    | ReadFails eintr :: ios => if eintr then readCoalesced cap ios input got else (failed, input, ios)
    | Reads n :: ios =>
        let count := S n `min` (cap - length got) in
        match input with
        | [] => (Batch got, [], ios)
        | _ => readCoalesced cap ios (drop count input) (got ++ take count input)
        end
    end
  else (Batch got, input, ios).

(** How a pump ends: its source is at the end or broken, the peer is gone, or it waits for its source. *)
Inductive pumped := PumpEnded | PeerGone | PumpWaits.

Section Tunnel.
Context `{Zstd}.

Definition encode (zin : bytes) (dir : Directive) : M (writer bytes) () := modify (with_msg []);; compressInto zin dir (mret tt).

(** The loop of [pumpFdToStream]; the result is how it ended, the bytes forwarded and what is left to come. *)
Fixpoint pump_loop (fuel : nat) (ios : list io) (input : bytes) (total : N) : M (writer bytes) (pumped * N * bytes) :=
  match fuel with
  | 0 => throw OutOfFuel
  | S fuel =>
      let '(count, input', ios') := readCoalesced (N.to_nat kChunkSize) ios input [] in
      match count with
      | Blocks => mret (PumpWaits, total, input')
      | ReadError | Batch [] => mret (PumpEnded, total, input')
      | Batch batch =>
          let total := u64 (total + blen batch) in
          encode batch ZSTD_e_flush;;
          s ← get;
          ok ← Write (msg s);
          if ok : bool then pump_loop fuel ios' input' total else mret (PeerGone, total, input')
      end
  end.

Definition pumpFdToStream (ios : list io) (input : bytes) : M (writer bytes) (pumped * N * bytes) :=
  r ← pump_loop (S (length ios)) ios input 0;
  match r.1.1 with
  | PumpEnded =>
      encode [] ZSTD_e_end;;
      s ← get;
      (if bool_decide (msg s = []) then mret tt else Write (msg s);; mret tt);;
      mret r
  | _ => mret r
  end.

(** The inner loop of [pumpStreamToFd]: the state is the context, what was written and how much. *)
Record receiver := mkReceiver { dctx : DCtx; sinkFd : bytes; total : N }.
Definition new_receiver : receiver := mkReceiver createDCtx [] 0.
Fixpoint pump_message (fuel : nat) (zin : bytes) : M receiver () :=
  match fuel with
  | 0 => throw OutOfFuel
  | S fuel =>
      s ← get;
      match decompressStream (dctx s) zin DStreamOutSize with
      | inr err => throw (NixError ("zstd decompress: " +:+ err))
      | inl (d', n, out) =>
          modify (λ s, mkReceiver d' (sinkFd s ++ out) (u64 (total s + blen out)));;
          let rest := drop n zin in
          if bool_decide (rest = []) && (length out <? DStreamOutSize) then mret tt else pump_message fuel rest
      end
  end.
Definition pumpStreamToFd (fuel : nat) (messages : list bytes) : M receiver N := forM_ messages (pump_message fuel);; gets total.
End Tunnel.

(** ** Bulk data *)

Module ZstdWriterSink.
Section Sink.
Context `{Zstd} {Msg : Type} (wrap : bytes → Msg).

Definition ship : M (writer Msg) () :=
  s ← get;
  if bool_decide (msg s = []) then mret tt
  else
    ok ← Write (wrap (msg s));
    if ok : bool then modify (with_msg []) else throw (NixError "gRPC stream closed by peer during bulk import").
Definition compress (input : bytes) (dir : Directive) : M (writer Msg) () := compressInto input dir ship.

Definition write (data : bytes) : M (writer Msg) () := compress data ZSTD_e_continue.
Definition flush : M (writer Msg) () := compress [] ZSTD_e_flush;; ship.
Definition finish : M (writer Msg) () := compress [] ZSTD_e_end;; ship.
End Sink.
End ZstdWriterSink.

Module ZstdReaderSource.
Section Source.
Context `{Zstd}.

(** The context, what is left of the message, and the messages still to come. *)
Record t := mk { dctx : DCtx; zin : bytes; reader : list bytes }.
Definition make (messages : list bytes) (initial : bytes) : t := mk createDCtx initial messages.

Fixpoint read (fuel len : nat) : M t bytes :=
  match fuel with
  | 0 => throw OutOfFuel
  | S fuel =>
      s ← get;
      match decompressStream (dctx s) (zin s) len with
      | inr err => throw (NixError ("zstd decompress: " +:+ err))
      | inl (d', n, out) =>
          let rest := drop n (zin s) in
          modify (λ s, mk d' rest (reader s));;
          if bool_decide (out ≠ []) then mret out
          else if bool_decide (rest = []) then
            match reader s with
            | [] => throw (NixError "gRPC stream ended")
            | m :: ms => modify (λ s, mk (dctx s) m ms);; read fuel len
            end
          else read fuel len
      end
  end.
End Source.
End ZstdReaderSource.

(** ** The writer's side *)

Section Sending.
Context `{HZ : Zstd, HL : !ZstdLaws} {Msg : Type} (wrap : bytes → Msg).

(** Besides [pre], messages with some data were sent; with [zs] before it and the message in preparation after it, the data is
    what the compressor made of [inp]. *)
Definition sends (pre : list Msg) (zs inp : bytes) (fl : bool) (s : writer Msg) : Prop :=
  room s = None ∧ ∃ ds, sent s = pre ++ (wrap <$> ds) ∧ compressed (cctx s) inp (zs ++ mjoin ds ++ msg s) fl.

Lemma zstdCompressInto_sends ship pre zs inp fl fuel input dir s :
  (∀ inp fl s, sends pre zs inp fl s → wp ship (λ _ s', sends pre zs inp fl s' ∧ cctx s' = cctx s) s) →
  sends pre zs inp fl s → repeats (cctx s) (length input) dir < fuel →
  wp (zstdCompressInto fuel input dir ship) (λ _ s', ∃ fl', sends pre zs (inp ++ input) fl' s' ∧ (is_continue dir = false → fl' = true)) s.
Proof.
  intros Hship. revert inp fl input s. induction fuel as [|fuel IH]; intros inp fl input s Hs Hfuel; [lia|].
  destruct Hs as (Hroom & ds & Hsent & Hz). destruct (zl_compress _ _ _ _ input dir Hz) as ([[[c' n] out] left_] & Hc).
  simpl. wp_steps. rewrite Hc. wp_steps. set (s1 := mkWriter _ _ _ _).
  assert (sends pre zs (inp ++ take n input) (negb (is_continue dir) && (left_ =? 0)) s1) as Hs1.
  { split; [done|]. exists ds. split; [done|]. subst s1. simpl. rewrite (assoc_L app (mjoin ds)), (assoc_L app zs). by eapply compressed_more. }
  assert (wp (if (kChunkSize <=? blen (msg s1))%N then ship else mret tt)
    (λ _ s', sends pre zs (inp ++ take n input) (negb (is_continue dir) && (left_ =? 0)) s' ∧ cctx s' = c') s1) as Hw.
  { destruct (_ <=? _)%N; [by apply (Hship _ _ _ Hs1)|]. by apply wp_ret. }
  eapply wp_mono; [exact Hw|]. intros _ s' [Hs' Hc']. simpl.
  destruct (if is_continue dir then _ else _) eqn:Hdone.
  - apply wp_ret. exists (negb (is_continue dir) && (left_ =? 0)).
    assert (length input <= n) as Hn.
    { destruct (is_continue dir) eqn:Hd; [|apply Nat.eqb_eq in Hdone; subst left_; by eapply zl_flush].
      apply bool_decide_eq_true, (f_equal length) in Hdone. rewrite length_drop in Hdone. simpl in Hdone. lia. }
    rewrite take_ge in Hs' by done. split; [done|]. intros Hd. by rewrite Hd in Hdone |- *.
  - eapply wp_mono; [eapply IH; [exact Hs'|]|].
    2:{ intros _ s2 (fl2 & Hs2 & Hfl2). exists fl2. by rewrite <- (assoc_L app), take_drop in Hs2. }
    rewrite Hc', length_drop. enough (repeats c' (length input - n) dir < repeats (cctx s) (length input) dir) by lia.
    eapply zl_ends; [exact Hz|exact Hc|]. destruct (is_continue dir); [|by apply Nat.eqb_neq].
    apply bool_decide_eq_false in Hdone. destruct (decide (n < length input)); [done|]. by rewrite drop_ge in Hdone by lia.
Qed.

Lemma compressInto_sends ship pre zs inp fl input dir s :
  (∀ inp fl s, sends pre zs inp fl s → wp ship (λ _ s', sends pre zs inp fl s' ∧ cctx s' = cctx s) s) →
  sends pre zs inp fl s →
  wp (compressInto input dir ship) (λ _ s', ∃ fl', sends pre zs (inp ++ input) fl' s' ∧ (is_continue dir = false → fl' = true)) s.
Proof. intros Hship Hs. unfold compressInto. wp_steps. eapply zstdCompressInto_sends; [done..|]. lia. Qed.

Lemma Write_open (m : Msg) (s : writer Msg) :
  room s = None → wp (Write m) (λ ok s', ok = true ∧ s' = mkWriter (cctx s) (msg s) (sent s ++ [m]) None) s.
Proof. intros Hr. unfold Write. wp_steps. rewrite Hr. by wp_steps. Qed.

Lemma ship_sends pre zs inp fl s :
  sends pre zs inp fl s → wp (ZstdWriterSink.ship wrap) (λ _ s', (sends pre zs inp fl s' ∧ cctx s' = cctx s) ∧ msg s' = []) s.
Proof.
  intros Hs. pose proof Hs as (Hr & ds & Hsent & Hz). unfold ZstdWriterSink.ship. wp_steps. case_bool_decide; [by apply wp_ret|].
  wp_steps. eapply wp_mono; [by apply Write_open|]. intros ? ? [-> ->]. wp_steps. split; [|done]. split; [|done].
  split; [done|]. exists (ds ++ [msg s]). simpl. split; [by rewrite Hsent, fmap_app, (assoc_L app)|].
  by rewrite join_app, app_nil_r; simpl; rewrite app_nil_r.
Qed.

Lemma sink_write_sends pre zs inp fl data s :
  sends pre zs inp fl s → wp (ZstdWriterSink.write wrap data) (λ _ s', ∃ fl', sends pre zs (inp ++ data) fl' s') s.
Proof.
  intros Hs. eapply wp_mono; [eapply compressInto_sends; [|exact Hs]|naive_solver].
  intros ? ? ? H'. eapply wp_mono; [by apply ship_sends|]. naive_solver.
Qed.

Lemma sink_end_sends pre zs inp fl dir s :
  is_continue dir = false → sends pre zs inp fl s →
  wp (ZstdWriterSink.compress wrap [] dir;; ZstdWriterSink.ship wrap) (λ _ s', sends pre zs inp true s' ∧ msg s' = []) s.
Proof.
  intros Hd Hs. wp_steps. eapply wp_mono; [eapply compressInto_sends; [|exact Hs]|].
  { intros ? ? ? H'. eapply wp_mono; [by apply ship_sends|]. naive_solver. }
  intros _ s' (fl' & Hs' & Hfl). rewrite app_nil_r, (Hfl Hd) in Hs'. eapply wp_mono; [by apply ship_sends|]. naive_solver.
Qed.
End Sending.

(** ** The reader's side *)

Section Receiving.
Context `{HZ : Zstd, HL : !ZstdLaws}.

(** A call of the decompressor on a beginning [z' ++ data] of a compressor's output: it makes some of what is left of its input,
    and all of it once the output was flushed and the call took all there is and had room to spare. *)
Lemma decompress_call c inp z fl d z' out dr data cap :
  compressed c inp z fl → decompressed d z' out dr → z' ++ data `prefix_of` z →
  ∃ d' n o, decompressStream d data cap = inl (d', n, o) ∧
    decompressed d' (z' ++ take n data) (out ++ o) (bool_decide (drop n data = []) && (length o <? cap)) ∧
    out ++ o `prefix_of` inp ∧ (0 < cap → bool_decide (drop n data = []) && (length o <? cap) = false → length data - n + (length inp - length (out ++ o)) < length data + (length inp - length out)).
Proof.
  intros Hz Hd Hp. destruct (zl_decompress _ _ _ _ _ _ _ _ _ cap Hz Hd Hp) as ([[d' n] o] & Hc). exists d', n, o. split; [done|].
  pose proof (decompressed_more _ _ _ _ _ _ _ _ _ Hd Hc) as Hd'. destruct (zl_fits _ _ _ _ _ _ _ _ _ Hd Hc) as [Hn Ho].
  assert ((length data <=? n) = bool_decide (drop n data = [])) as Hb.
  { apply eq_bool_prop_intro. rewrite Is_true_true, Nat.leb_le, bool_decide_spec. split; [apply drop_ge|].
    intros He%(f_equal length). rewrite length_drop in He. simpl in He. lia. }
  rewrite Hb in Hd'. split; [done|].
  assert (out ++ o `prefix_of` inp) as Hpre.
  { eapply zl_prefix; [exact Hz|exact Hd'|]. etrans; [|exact Hp]. apply prefix_app. exists (drop n data). by rewrite take_drop. }
  split; [done|]. intros Hcap Hmore. apply prefix_length in Hpre. rewrite length_app in *.
  rewrite <- Hb in Hmore. apply andb_false_iff in Hmore as [Hl%Nat.leb_gt|Hl%Nat.ltb_ge]; [|lia].
  destruct (zl_progress _ _ _ _ _ _ _ _ _ Hd Hc Hcap) as [?|Hne]; [by intros ->; simpl in Hl; lia|lia|].
  destruct o; [done|]. simpl in *. lia.
Qed.

Lemma pump_message_ok c inp z fl z' out dr chunk fuel s :
  compressed c inp z fl → decompressed (dctx s) z' out dr → z' ++ chunk `prefix_of` z → sinkFd s = out → total s = u64 (blen out) →
  length chunk + (length inp - length out) < fuel →
  wp (pump_message fuel chunk) (λ _ s', ∃ out', decompressed (dctx s') (z' ++ chunk) out' true ∧ sinkFd s' = out' ∧ total s' = u64 (blen out') ∧ out' `prefix_of` inp ∧ length out <= length out') s.
Proof.
  intros Hz. revert z' out dr chunk s. induction fuel as [|fuel IH]; intros z' out dr chunk s Hd Hp Hout Htot Hfuel; [lia|].
  destruct (decompress_call _ _ _ _ _ _ _ _ _ DStreamOutSize Hz Hd Hp) as (d' & n & o & Hc & Hd' & Hpre & Hprog).
  simpl. wp_steps. rewrite Hc. wp_steps. set (s1 := mkReceiver _ _ _).
  assert (sinkFd s1 = out ++ o) as Hout1 by (subst s1; simpl; by rewrite Hout).
  assert (total s1 = u64 (blen (out ++ o))) as Htot1.
  { subst s1; simpl. rewrite Htot. unfold u64, blen. rewrite length_app, Nat2N.inj_add. by rewrite N.Div0.add_mod_idemp_l. }
  destruct (bool_decide _ && _) eqn:Hdone.
  - apply wp_ret. exists (out ++ o). apply andb_true_iff in Hdone as [He%bool_decide_eq_true _].
    rewrite length_app. rewrite <- (take_drop n chunk), He, app_nil_r. repeat split; [done..|]. lia.
  - eapply wp_mono; [eapply (IH (z' ++ take n chunk) (out ++ o))|].
    + exact Hd'.
    + by rewrite <- (assoc_L app), take_drop.
    + done.
    + done.
    + rewrite length_drop. pose proof (Hprog zl_size eq_refl). lia.
    + intros _ s' (out' & H1 & H2 & H3 & H4 & H5). exists out'. rewrite <- (assoc_L app), take_drop in H1. rewrite length_app in H5. repeat split; [done..|]. lia.
Qed.

Lemma pump_messages_ok c inp z fl chunks fuel z' out s :
  compressed c inp z fl → decompressed (dctx s) z' out true → z' ++ mjoin chunks `prefix_of` z → sinkFd s = out → total s = u64 (blen out) →
  length z + length inp < fuel →
  wp (forM_ chunks (pump_message fuel)) (λ _ s', ∃ out', decompressed (dctx s') (z' ++ mjoin chunks) out' true ∧ sinkFd s' = out' ∧ total s' = u64 (blen out')) s.
Proof.
  intros Hz. revert z' out s. induction chunks as [|chunk chunks IH]; intros z' out s Hd Hp Hout Htot Hfuel; simpl.
  - apply wp_ret. exists out. by rewrite app_nil_r.
  - simpl in Hp. rewrite (assoc_L app) in Hp |- *. wp_steps.
    assert (z' ++ chunk `prefix_of` z) as Hp1 by (etrans; [|exact Hp]; by apply prefix_app_r).
    eapply wp_mono; [eapply (pump_message_ok _ _ _ _ _ _ _ _ _ _ Hz Hd Hp1 Hout Htot)|].
    + apply prefix_length in Hp1. rewrite length_app in Hp1. lia.
    + intros _ s' (out' & Hd' & Hout' & Htot' & _). eapply IH; done.
Qed.
End Receiving.

(** ** The tunnel carries all that was read *)

Section TunnelTheorems.
Context `{HZ : Zstd, HL : !ZstdLaws}.

Definition failing (i : io) : bool := match i with PollFails false | ReadFails false => true | _ => false end.
Fixpoint reads (ios : list io) : nat := match ios with [] => 0 | Reads _ :: ios => S (reads ios) | _ :: ios => reads ios end.

(** Reads enough for what is to come and for its end. *)
Definition enough (got input : bytes) (ios : list io) : Prop := length input + (if decide (got = [] ∧ input = []) then 1 else 2) <= reads ios.

Definition coalesced_ok (got input : bytes) (ios : list io) (r : coalesced * bytes * list io) : Prop :=
  let '(count, input', ios') := r in
  ∃ more, input = more ++ input' ∧
    match count with
    | Batch b => b = got ++ more ∧ (b = [] → input' = [])
    | _ => got = [] ∧ more = []
    end ∧
    (∃ used, ios = used ++ ios' ∧ (got = [] → (∃ b, count = Batch b) → used ≠ [])) ∧
    (Forall (λ i, failing i = false) ios → count ≠ ReadError) ∧
    (Forall (λ i, failing i = false) ios → enough got input ios → count ≠ Blocks ∧ (count = Batch [] ∨ enough [] input' ios')).

Lemma enough_more got input ios : got ≠ [] → enough got input ios → enough [] input ios ∧ enough [] [] ios ∧ 2 <= reads ios.
Proof. intros Hg. unfold enough. repeat case_decide; naive_solver lia. Qed.

Lemma coalesced_full got input used ios :
  got ≠ [] → (enough got input (used ++ ios) → enough [] input ios) → coalesced_ok got input (used ++ ios) (Batch got, input, ios).
Proof.
  intros Hg He. exists []. split; [done|]. split; [by rewrite app_nil_r|]. split; [exists used; naive_solver|].
  split; [done|]. intros _ H. split; [done|]. right. by apply He.
Qed.

Lemma coalesced_fails got input i ios :
  failing i = true → coalesced_ok got input (i :: ios) (if bool_decide (got = []) then ReadError else Batch got, input, ios).
Proof.
  intros Hi. exists []. split; [done|]. split; [rewrite app_nil_r; case_bool_decide; naive_solver|].
  split; [by exists [i]|]. split; intros [Hf _]%Forall_cons; congruence.
Qed.

Lemma coalesced_skip got input i ios r :
  failing i = false → reads (i :: ios) = reads ios → coalesced_ok got input ios r → coalesced_ok got input (i :: ios) r.
Proof.
  intros Hi Hr. destruct r as [[count input'] ios']. intros (more & H1 & H2 & (used & H3 & H3') & H4 & H5). exists more.
  split; [done|]. split; [done|]. split; [exists (i :: used); by rewrite H3|]. unfold enough in *. rewrite Hr.
  split; intros [_ ?]%Forall_cons; auto.
Qed.

Lemma coalesced_read got data input n ios r :
  data ≠ [] → coalesced_ok (got ++ data) input ios r → coalesced_ok got (data ++ input) (Reads n :: ios) r.
Proof.
  intros Hd. destruct r as [[count input'] ios']. intros (more & -> & H2 & (used & -> & _) & H4 & H5). exists (data ++ more).
  split; [by rewrite (assoc_L app)|].
  assert (got ++ data ≠ []) as Hne by (by intros [_ ?]%app_eq_nil).
  split; [destruct count; [by rewrite (assoc_L app)|naive_solver..]|]. split; [by exists (Reads n :: used)|].
  split; intros [_ Hf]%Forall_cons; [auto|]. intros He. apply H5; [done|]. unfold enough in *. simpl in He. rewrite length_app in He.
  destruct data; [done|]. simpl in *. repeat case_decide; naive_solver lia.
Qed.

Lemma readCoalesced_ok cap ios input got : 0 < cap → coalesced_ok got input ios (readCoalesced cap ios input got).
Proof.
  intros Hcap. revert input got. induction ios as [|i ios IH]; intros input got.
  - simpl. destruct (length got <? cap) eqn:Hlt; [case_bool_decide; subst|].
    + exists []. split; [done|]. split; [done|]. split; [exists []; naive_solver|]. split; [done|].
      intros _ He. unfold enough in He. simpl in He. repeat case_decide; lia.
    + by apply (coalesced_full _ _ []); [|intros [? _]%enough_more].
    + apply Nat.ltb_ge in Hlt. assert (got ≠ []) by (intros ->; simpl in Hlt; lia).
      by apply (coalesced_full _ _ []); [|intros [? _]%enough_more].
  - cbn [readCoalesced]. destruct (length got <? cap) eqn:Hlt.
    2:{ apply Nat.ltb_ge in Hlt. assert (got ≠ []) by (intros ->; simpl in Hlt; lia).
        by apply (coalesced_full _ _ []); [|intros [? _]%enough_more]. }
    apply Nat.ltb_lt in Hlt. destruct i as [[]| |[]|n]; [by apply coalesced_skip|by apply coalesced_fails| |by apply coalesced_skip|by apply coalesced_fails|].
    + case_bool_decide; [by apply coalesced_skip|]. by apply (coalesced_full _ _ [NotReady]); [|intros [? _]%enough_more].
    + destruct input as [|x input].
      * destruct (decide (got = [])) as [->|Hg].
        -- exists []. split; [done|]. split; [done|]. split; [by exists [Reads n]|]. split; [done|]. intros _ _. split; [done|]. by left.
        -- apply (coalesced_full _ _ [Reads n]); [done|]. intros (_ & _ & He)%enough_more; [|done]. unfold enough. simpl in *. lia.
      * set (count := S n `min` (cap - length got)). rewrite <- (take_drop count (x :: input)) at 1.
        apply coalesced_read; [|apply IH]. destruct count eqn:Hc; [lia|done].
Qed.

(** All that was read is in the messages sent, flushed. *)
Definition forwarded (inp : bytes) (s : writer bytes) : Prop := room s = None ∧ compressed (cctx s) inp (mjoin (sent s)) true.

Lemma encode_forwards inp zin dir s :
  is_continue dir = false → forwarded inp s →
  wp (encode zin dir) (λ _ s', room s' = None ∧ compressed (cctx s') (inp ++ zin) (mjoin (sent s') ++ msg s') true) s.
Proof.
  intros Hd [Hr Hz]. unfold encode. wp_steps. eapply wp_mono; [eapply (compressInto_sends id _ (sent s) (mjoin (sent s)) inp true)|].
  - intros. by wp_steps.
  - split; [done|]. exists []. simpl. by rewrite !app_nil_r.
  - intros _ s' (fl' & (Hr' & ds & Hs' & Hz') & Hfl). rewrite (Hfl Hd) in Hz'. split; [done|].
    by rewrite Hs', join_app, list_fmap_id, <- (assoc_L app).
Qed.

Lemma Write_forwards inp s :
  room s = None → compressed (cctx s) inp (mjoin (sent s) ++ msg s) true → wp (Write (msg s)) (λ ok s', ok = true ∧ forwarded inp s') s.
Proof.
  intros Hr Hz. eapply wp_mono; [by apply Write_open|]. intros ok ? [-> ->]. split; [done|]. split; [done|].
  simpl. rewrite join_app. simpl. by rewrite app_nil_r.
Qed.

Lemma kChunkSize_pos : 0 < N.to_nat kChunkSize.
Proof. unfold kChunkSize. lia. Qed.

Lemma pump_loop_forwards fuel ios done_ input s :
  length ios < fuel → forwarded done_ s →
  wp (pump_loop fuel ios input (u64 (blen done_))) (λ r s', ∃ e more rest, r = (e, u64 (blen (done_ ++ more)), rest) ∧ input = more ++ rest ∧
    forwarded (done_ ++ more) s' ∧ e ≠ PeerGone ∧
    (Forall (λ i, failing i = false) ios → (e = PumpEnded → rest = []) ∧ (enough [] input ios → e = PumpEnded))) s.
Proof.
  revert ios done_ input s. induction fuel as [|fuel IH]; intros ios done_ input s Hfuel Hs; [lia|]. cbn [pump_loop].
  pose proof (readCoalesced_ok _ ios input [] kChunkSize_pos) as Hr.
  destruct (readCoalesced _ ios input []) as [[count input'] ios']. destruct Hr as (more & -> & Hcount & (used & -> & Hused) & Hnf & Hen).
  destruct count as [[|x b]| |].
  - destruct Hcount as [Hb Hin]. simpl in Hb. subst more. wp_steps. exists PumpEnded, [], input'. rewrite app_nil_r. split_and!; [done..|]. intros _. split; [intros _; by apply Hin|done].
  - destruct Hcount as [Hb _]. simpl in Hb. wp_steps. eapply wp_mono; [by apply encode_forwards|]. intros _ s1 [Hr1 Hz1]. wp_steps.
    eapply wp_mono; [by apply Write_forwards|]. intros ok s2 [-> Hs2].
    replace (u64 (u64 (blen done_) + blen (x :: b))) with (u64 (blen (done_ ++ x :: b))).
    2:{ unfold u64, blen. rewrite length_app, Nat2N.inj_add. by rewrite N.Div0.add_mod_idemp_l. }
    eapply wp_mono; [apply IH; [|exact Hs2]|].
    + rewrite length_app in Hfuel. destruct used; [by destruct Hused; eauto|]. simpl in Hfuel. lia.
    + intros r s3 (e & more2 & rest & -> & -> & Hs3 & He & Hall). exists e, (more ++ more2), rest.
      rewrite <- Hb, <- !(assoc_L app) in *. split_and!; [done..|]. intros Hf. apply Forall_app in Hf as Hf'. destruct Hf' as [_ Hf'].
      split; [by apply Hall|]. intros Hen1. destruct (Hen Hf Hen1) as [_ [?|Hen2]]; [done|]. by apply Hall.
  - destruct Hcount as [_ ->]. wp_steps. exists PumpEnded, [], input'. rewrite app_nil_r. split_and!; [done..|]. intros Hf. by destruct (Hnf Hf).
  - destruct Hcount as [_ ->]. wp_steps. exists PumpWaits, [], input'. rewrite app_nil_r. split_and!; [done..|]. intros Hf.
    split; [done|]. intros Hen1. by destruct (Hen Hf Hen1).
Qed.

Lemma pumpFdToStream_forwards ios input s :
  forwarded [] s →
  wp (pumpFdToStream ios input) (λ r s', ∃ e fd rest, r = (e, u64 (blen fd), rest) ∧ input = fd ++ rest ∧ forwarded fd s' ∧ e ≠ PeerGone ∧
    (Forall (λ i, failing i = false) ios → (e = PumpEnded → rest = []) ∧ (length input + 2 <= reads ios → e = PumpEnded))) s.
Proof.
  intros Hs. unfold pumpFdToStream. wp_steps. eapply wp_mono; [apply (pump_loop_forwards _ ios []); [lia|done]|].
  intros r s' (e & fd & rest & -> & -> & Hs' & He & Hall). simpl in *.
  assert (Forall (λ i, failing i = false) ios → (e = PumpEnded → rest = []) ∧ (length (fd ++ rest) + 2 <= reads ios → e = PumpEnded)) as Hall'.
  { intros Hf. destruct (Hall Hf) as [H1 H2]. split; [done|]. intros Hr. apply H2. unfold enough. case_decide; lia. }
  destruct e; [|done|wp_steps; by exists PumpWaits, fd, rest].
  wp_steps. eapply wp_mono; [by apply encode_forwards|]. intros _ s1 [Hr1 Hz1]. rewrite app_nil_r in Hz1. wp_steps.
  assert (wp (if bool_decide (msg s1 = []) then mret tt else Write (msg s1);; mret tt) (λ _, forwarded fd) s1) as Hw.
  { case_bool_decide as Hm; wp_steps; [by rewrite Hm, app_nil_r in Hz1|]. eapply wp_mono; [by apply Write_forwards|].
    intros ? ? [_ ?]. by wp_steps. }
  eapply wp_mono; [exact Hw|]. intros ? s2 Hs2. wp_steps. by exists PumpEnded, fd, rest.
Qed.

(** C27. Bytes that go into one end of the tunnel come out of the other.  However [poll] and [read] answer, the sender returns or
    waits for more input; what the receiver then writes, without an error, is exactly what the sender has read, so no byte
    stays behind in a compressor while a peer waits for it, and both report this many bytes.  If no call failed the sender has ended only
    at the end of its input, and gets there if it can read that often. *)
Theorem tunnel_roundtrip ios input :
  wp (pumpFdToStream ios input) (λ r s, ∃ e fd rest, r = (e, u64 (blen fd), rest) ∧ input = fd ++ rest ∧ e ≠ PeerGone ∧
    (Forall (λ i, failing i = false) ios → (e = PumpEnded → rest = []) ∧ (length input + 2 <= reads ios → e = PumpEnded)) ∧
    ∀ fuel, length (mjoin (sent s)) + length fd < fuel →
      wp (pumpStreamToFd fuel (sent s)) (λ total s', total = u64 (blen fd) ∧ sinkFd s' = fd) new_receiver) (new_writer None).
Proof.
  eapply wp_mono; [apply pumpFdToStream_forwards; split; [done|apply compressed_new]|].
  intros r s (e & fd & rest & -> & -> & [_ Hz] & He & Hall). exists e, fd, rest. split_and!; [done..|].
  intros fuel Hfuel. unfold pumpStreamToFd. wp_steps.
  eapply wp_mono; [eapply (pump_messages_ok _ _ _ _ (sent s) fuel [] [] _ Hz); [apply decompressed_new|done..]|].
  intros _ s' (out & Hd & Ho & Ht). wp_steps. rewrite (zl_all _ _ _ _ _ Hz Hd) in *. by subst.
Qed.
End TunnelTheorems.

(** ** The source gives back what went into the sink *)

Section BulkTheorems.
Context `{HZ : Zstd, HL : !ZstdLaws} {Msg : Type} (wrap : bytes → Msg).
Import ZstdReaderSource.

Lemma sink_pieces_sends pre zs inp fl pieces s :
  sends wrap pre zs inp fl s →
  wp (forM_ pieces (ZstdWriterSink.write wrap)) (λ _ s', ∃ fl', sends wrap pre zs (inp ++ mjoin pieces) fl' s') s.
Proof.
  intros Hs. apply (wp_forM_prefix _ (λ done s', ∃ fl', sends wrap pre zs (inp ++ mjoin done) fl' s')).
  - exists fl. simpl. by rewrite app_nil_r.
  - intros done x rest s' _ [fl' Hs']. eapply wp_mono; [by eapply sink_write_sends|]. intros _ s2 [fl2 Hs2]. exists fl2.
    rewrite join_app. simpl. by rewrite app_nil_r, (assoc_L app).
Qed.

(** What a source has given out, of a stream that is complete. *)
Definition gives (data out : bytes) (s : t) : Prop :=
  ∃ c z' dr, compressed c data (z' ++ zin s ++ mjoin (reader s)) true ∧ decompressed (dctx s) z' out dr ∧ out `prefix_of` data.
Definition left_over (s : t) : nat := length (zin s) + length (mjoin (reader s)) + length (reader s).

Lemma source_read_ok data out len fuel s :
  0 < len → gives data out s → left_over s < fuel →
  match read fuel len s with
  | (s', Ok o) => o ≠ [] ∧ length o <= len ∧ gives data (out ++ o) s' ∧ left_over s' <= left_over s
  | (_, Throw e) => e = NixError "gRPC stream ended" ∧ out = data
  end.
Proof.
  intros Hlen. revert s. induction fuel as [|fuel IH]; intros s (c & z' & dr & Hz & Hd & Hp) Hfuel; [lia|].
  destruct (decompress_call _ _ _ _ _ _ _ _ (zin s) len Hz Hd) as (d' & n & o & Hc & Hd' & Hp' & _).
  { rewrite (assoc_L app). by apply prefix_app_r. }
  destruct (zl_fits _ _ _ _ _ _ _ _ _ Hd Hc) as [Hn Ho].
  cbn [read]. unfold mbind, M_bind, get, modify. rewrite Hc. cbn beta iota.
  assert (∀ r, r = mk d' (drop n (zin s)) (reader s) → gives data (out ++ o) r) as Hg.
  { intros r ->. exists c, (z' ++ take n (zin s)). eexists. split_and!; [|done..]. simpl. rewrite <- (assoc_L app).
    by rewrite (assoc_L app (take n _)), take_drop. }
  assert (∀ r, gives data out r → left_over r < left_over s →
    match read fuel len r with
    | (s', Ok o) => o ≠ [] ∧ length o <= len ∧ gives data (out ++ o) s' ∧ left_over s' <= left_over s
    | (_, Throw e) => e = NixError "gRPC stream ended" ∧ out = data
    end) as IH'.
  { intros r Hr Hlt. specialize (IH r Hr ltac:(lia)). destruct (read fuel len r) as [s' [|]]; [|done]. naive_solver lia. }
  destruct (bool_decide (o ≠ [])) eqn:Hne.
  - apply bool_decide_eq_true in Hne. unfold mret, M_ret. split_and!; [done..|by apply Hg|]. unfold left_over. simpl. rewrite length_drop. lia.
  - apply bool_decide_eq_false, dec_stable in Hne. subst o. rewrite app_nil_r in *. destruct (bool_decide (drop n (zin s) = [])) eqn:Hrest.
    + apply bool_decide_eq_true in Hrest. destruct (reader s) as [|m ms] eqn:Hr; cbn beta iota.
      * split; [done|]. simpl in Hd'. replace (0 <? len) with true in Hd' by (symmetry; by apply Nat.ltb_lt).
        simpl in Hz. rewrite app_nil_r in Hz. rewrite <- (take_drop n (zin s)), Hrest, app_nil_r in Hz. by eapply zl_all.
      * destruct (Hg _ eq_refl) as (c2 & z2 & dr2 & Hz2 & Hd2 & Hp2). simpl in Hz2. rewrite Hrest in Hz2.
        apply IH'; [by exists c2, z2, dr2|]. unfold left_over. rewrite Hr. simpl. rewrite length_app. lia.
    + apply bool_decide_eq_false in Hrest. apply IH'; [by apply Hg|].
      destruct (zl_progress _ _ _ _ _ _ _ _ _ Hd Hc Hlen) as [?|?]; [intros E; by rewrite E, drop_nil in Hrest| |done].
      unfold left_over. simpl. rewrite length_drop. lia.
Qed.

(** A caller that reads so much, then so much, until the source is at its end: what it got, and what was thrown. *)
Fixpoint read_each (fuel : nat) (lens : list nat) (s : t) : bytes * option exn :=
  match lens with
  | [] => ([], None)
  | len :: lens =>
      match read fuel len s with
      | (s', Ok o) => let '(got, e) := read_each fuel lens s' in (o ++ got, e)
      | (_, Throw e) => ([], Some e)
      end
  end.

Lemma read_each_ok data out lens fuel s :
  Forall (λ len, 0 < len) lens → gives data out s → left_over s < fuel →
  ∃ got e, read_each fuel lens s = (got, e) ∧ out ++ got `prefix_of` data ∧
    match e with None => length lens <= length got | Some e => e = NixError "gRPC stream ended" ∧ out ++ got = data end.
Proof.
  intros Hl. revert out s. induction Hl as [|len lens Hlen Hl IH]; intros out s Hg Hfuel; simpl.
  - exists [], None. split; [done|]. rewrite app_nil_r. destruct Hg as (? & ? & ? & _ & _ & ?). by split; [|simpl; lia].
  - pose proof (source_read_ok data out len fuel s Hlen Hg Hfuel) as Hr. destruct (read fuel len s) as [s' [o|e]].
    + destruct Hr as (Ho & _ & Hg' & Hlo). destruct (IH (out ++ o) s' Hg' ltac:(lia)) as (got & e & -> & Hp & He).
      exists (o ++ got), e. rewrite (assoc_L app). split; [done|]. split; [done|]. destruct e; [done|].
      rewrite length_app. destruct o; [done|]. simpl. lia.
    + destruct Hr as [-> ->]. exists [], (Some (NixError "gRPC stream ended")). by rewrite app_nil_r.
Qed.

(** C28. What is written into a [ZstdWriterSink] and finished comes out of a [ZstdReaderSource] on the other side, in whatever pieces it
    was written and however much each read asks for: no read fails or comes back empty, what was read is a beginning of what
    was written, and the end of the stream is met exactly when all of it was read. *)
Theorem bulk_roundtrip pieces :
  wp (forM_ pieces (ZstdWriterSink.write wrap);; ZstdWriterSink.finish wrap) (λ _ s, ∃ ds, sent s = wrap <$> ds ∧
    ∀ initial messages lens fuel, initial :: messages = ds ∨ initial = [] ∧ messages = ds → Forall (λ len, 0 < len) lens →
      length (mjoin ds) + length ds < fuel →
      let '(got, e) := read_each fuel lens (make messages initial) in
      got `prefix_of` mjoin pieces ∧
      match e with None => length lens <= length got | Some e => e = NixError "gRPC stream ended" ∧ got = mjoin pieces end) (new_writer None).
Proof.
  wp_steps. eapply wp_mono; [apply (sink_pieces_sends [] [] [] true)|].
  { split; [done|]. exists []. split; [done|]. apply compressed_new. }
  intros _ s [fl Hs]. eapply wp_mono; [by eapply sink_end_sends|]. intros _ s' [(_ & ds & Hsent & Hz) Hm]. simpl in *.
  rewrite Hm, app_nil_r in Hz. exists ds. split; [done|]. intros initial messages lens fuel Hi Hl Hfuel.
  assert (mjoin ds = initial ++ mjoin messages ∧ length messages <= length ds) as [Hj Hlen].
  { destruct Hi as [<-|[-> ->]]; simpl; split; (done || lia). }
  destruct (read_each_ok (mjoin pieces) [] lens fuel (make messages initial) Hl) as (got & e & -> & ? & ?); [| |done].
  - exists (cctx s'), [], true. simpl. rewrite <- Hj. split_and!; [done|apply decompressed_new|apply prefix_nil].
  - unfold left_over. simpl. rewrite Hj, length_app in Hfuel. lia.
Qed.
End BulkTheorems.

(** ** The laws can hold

    A codec that stores: the compressor keeps its input until it is flushed, four bytes a call; the decompressor
    takes all input at once and keeps what there is no room for. *)

#[local] Instance storing : Zstd := {|
  CCtx := bytes; DCtx := bytes; createCCtx := []; createDCtx := []; DStreamOutSize := 3;
  compressStream2 := λ c data dir,
    let all := c ++ data in
    if is_continue dir then inl (all, length data, [], 0) else inl (drop 4 all, length data, take 4 all, length (drop 4 all));
  decompressStream := λ d data cap, let all := d ++ data in inl (drop cap all, length data, take cap all);
  repeats := λ c n _, length c + n;
|}.

Lemma storing_compressed c inp z fl : compressed c inp z fl → inp = z ++ c ∧ (fl = true → c = []).
Proof.
  induction 1 as [|c inp z fl data dir c' n out left_ _ [-> _] Hc]; [done|]. simpl in Hc. destruct (is_continue dir); simplify_eq; simpl.
  - rewrite firstn_all, app_nil_r, (assoc_L app). done.
  - rewrite firstn_all, <- !(assoc_L app), take_drop. split; [done|]. intros Hl%Nat.eqb_eq. by apply nil_length_inv.
Qed.

Lemma storing_decompressed d z out dr : decompressed d z out dr → z = out ++ d ∧ (dr = true → d = []).
Proof.
  induction 1 as [|d z out dr data cap d' n o _ [-> _] Hc]; [done|]. simpl in Hc. simplify_eq.
  rewrite firstn_all, <- !(assoc_L app), take_drop. split; [done|]. intros [_ Hl%Nat.ltb_lt]%andb_true_iff.
  rewrite length_take in Hl. apply drop_ge. lia.
Qed.

#[local] Instance storing_laws : ZstdLaws.
Proof.
  split.
  - simpl. lia.
  - intros. simpl. destruct (is_continue dir); by eexists.
  - intros * _ Hc Hd. simpl in Hc. rewrite Hd in Hc. by simplify_eq.
  - intros * _ Hc Hd. simpl in *. destruct (is_continue dir); simplify_eq; [lia|]. rewrite length_drop, length_app in *. lia.
  - intros. simpl. by eexists.
  - intros * _ Hc. simpl in Hc. simplify_eq. rewrite length_take. lia.
  - intros * Hz Hd Hp. apply storing_compressed in Hz as [-> _]. apply storing_decompressed in Hd as [-> _].
    apply prefix_app_r. etrans; [|exact Hp]. by apply prefix_app_r.
  - intros * Hz Hd. apply storing_compressed in Hz as [-> Hc]. apply storing_decompressed in Hd as [-> Hd]. rewrite Hc, Hd by done. by rewrite !app_nil_r.
  - intros * _ Hc _ Hne. simpl in Hc. simplify_eq. left. destruct data; [done|]. simpl. lia.
Qed.

Definition sample : bytes := String.list_ascii_of_string "hello, world".

(** Five bytes, an interruption, the rest and the end. *)
Definition sample_ios : list io := [Reads 4; ReadFails true; NotReady; PollFails true; Reads 100] ++ replicate 12 (Reads 0).

Lemma tunnel_roundtrip_witness :
  ∃ s, pumpFdToStream sample_ios sample (new_writer None) = (s, Ok (PumpEnded, 12%N, [])) ∧ length (sent s) = 2 ∧
    ∃ s', pumpStreamToFd 100 (sent s) new_receiver = (s', Ok 12%N) ∧ sinkFd s' = sample.
Proof.
  destruct (tunnel_roundtrip sample_ios sample) as (r & s & Hrun & e & fd & rest & -> & Hin & _ & Hall & Hback).
  destruct Hall as [Hrest Hend]; [by repeat constructor|]. rewrite Hend in Hrun by (vm_compute; lia). rewrite Hrest in * by (apply Hend; vm_compute; lia).
  rewrite app_nil_r in Hin. subst fd. exists s. assert (Hs : s = exec (pumpFdToStream sample_ios sample) (new_writer None)) by (unfold exec; by rewrite Hrun).
  split; [exact Hrun|]. split; [by rewrite Hs; vm_compute|].
  destruct (Hback 100) as (n & s' & Hrun' & -> & Hfd); [rewrite Hs; vm_compute; lia|]. exists s'. by split.
Defined.

Lemma bulk_roundtrip_witness :
  ∃ s, (forM_ [take 5 sample; drop 5 sample] (ZstdWriterSink.write id);; ZstdWriterSink.finish id) (new_writer None) = (s, Ok tt) ∧
    ∀ lens, lens = replicate 13 2 → (read_each 100 lens (ZstdReaderSource.make (sent s) [])).1 = sample.
Proof.
  destruct (bulk_roundtrip id [take 5 sample; drop 5 sample]) as ([] & s & Hrun & ds & Hsent & Hread).
  exists s. split; [exact Hrun|]. intros lens Hl. rewrite list_fmap_id in Hsent. subst ds.
  assert (Hs : s = exec (forM_ [take 5 sample; drop 5 sample] (ZstdWriterSink.write id);; ZstdWriterSink.finish id) (new_writer None))
    by (unfold exec; by rewrite Hrun).
  specialize (Hread [] (sent s) lens 100). destruct (read_each 100 lens _) as [got e].
  destruct Hread as [Hp He]; [by right|subst lens; by repeat constructor; lia|rewrite Hs; vm_compute; lia|].
  destruct e as [e|]; [by destruct He as [_ ->]|]. apply prefix_length in Hp. subst lens. rewrite length_replicate in He.
  replace (length (mjoin _)) with 12 in Hp by done. lia.
Defined.
