(* ===== verification/NarRoundtrip.v ===== *)
(** * NARs from a server to a reader

    [FetchNars] of src/src/daemon/main.cc, and its composition with the client of NarFetch.v: what a store writes as a path's NAR
    is what the client's reader of that path passes on. *)

From Stdlib Require Import Ascii.
From S2P Require Import Prelude Retry NarFetch NarFetchTheorems Pump.

(** ** The server: [FetchNars] *)

Section Server.
Context `{HZ : Zstd}.

Definition set_path_index (idx : nat) (data : bytes) : Frame.t := Frame.mk (u32 (N.of_nat idx)) data false.
Definition eofFrame (idx : nat) : Frame.t := Frame.mk (u32 (N.of_nat idx)) [] true.

(** What [StorePath], [substituteIfRemote] and [narFromPath] do for a path: pieces of the NAR, and why there are no more if they throw. *)
Definition given := (list bytes * option string)%type.

Definition send_path (idx : nat) (path : given) : M (writer Frame.t) () :=
  forM_ path.1 (ZstdWriterSink.write (set_path_index idx));;
  match path.2 with
  | Some why => throw (NixError why)
  | None =>
      ZstdWriterSink.flush (set_path_index idx);;
      ok ← Write (eofFrame idx);
      if ok : bool then mret tt else throw (NixError "gRPC stream closed by peer")
  end.

Fixpoint send_paths (idx : nat) (paths : list given) : M (writer Frame.t) () :=
  match paths with
  | [] => mret tt
  | path :: paths => send_path idx path;; send_paths (S idx) paths
  end.
Definition FetchNars (paths : list given) : M (writer Frame.t) () := send_paths 0 paths.
End Server.

(** A path whose NAR the store has. *)
Definition whole (pieces : list bytes) : given := (pieces, None).
Definition nar_of (pieces : list bytes) : bytes := mjoin pieces.

(** ** What the server sends *)

Section ServerSends.
Context `{HZ : Zstd, HL : !ZstdLaws}.

(** The frames of whole NARs: each NAR's data ends with a flush, then comes its end. *)
Inductive frames_of : list bytes → bytes → list Frame.t → Prop :=
  | frames_none : frames_of [] [] []
  | frames_path nars nar z fs ds c :
      frames_of nars z fs → compressed c (mjoin (nars ++ [nar])) (z ++ mjoin ds) true →
      frames_of (nars ++ [nar]) (z ++ mjoin ds) (fs ++ (set_path_index (length nars) <$> ds) ++ [eofFrame (length nars)]).

Definition served (nars : list bytes) (s : writer Frame.t) : Prop :=
  room s = None ∧ msg s = [] ∧ ∃ z, compressed (cctx s) (mjoin nars) z true ∧ frames_of nars z (sent s).

Lemma send_path_served nars pieces s :
  served nars s → wp (send_path (length nars) (whole pieces)) (λ _, served (nars ++ [mjoin pieces])) s.
Proof.
  intros (Hr & Hm & z & Hz & Hf). unfold send_path, whole. cbn [fst snd]. wp_steps.
  eapply wp_mono; [apply (sink_pieces_sends _ (sent s) z (mjoin nars) true)|].
  { split; [done|]. exists []. simpl. by rewrite Hm, !app_nil_r. }
  intros _ s1 [fl Hs1]. wp_steps. eapply wp_mono; [by eapply sink_end_sends|].
  intros _ s2 [(Hr2 & ds & Hsent & Hz2) Hm2]. rewrite Hm2, app_nil_r in Hz2. wp_steps.
  eapply wp_mono; [by apply Write_open|]. intros ok ? [-> ->]. wp_steps.
  assert (mjoin nars ++ mjoin pieces = mjoin (nars ++ [mjoin pieces])) as Hj by (rewrite join_app; simpl; by rewrite app_nil_r).
  rewrite Hj in Hz2. split; [done|]. split; [done|]. exists (z ++ mjoin ds). split; [done|]. simpl. rewrite Hsent, <- (assoc_L app).
  by eapply frames_path.
Qed.

Lemma send_paths_served nars (paths : list (list bytes)) s :
  served nars s → wp (send_paths (length nars) (fmap (M := list) whole paths)) (λ _, served (nars ++ fmap (M := list) nar_of paths)) s.
Proof.
  revert nars s. induction paths as [|pieces paths IH]; intros nars s Hs; csimpl.
  - apply wp_ret. by rewrite app_nil_r.
  - wp_steps. eapply wp_mono; [by apply send_path_served|]. intros ? s' Hs'. simpl in Hs'. specialize (IH _ _ Hs').
    rewrite length_app, Nat.add_comm, <- (assoc_L app) in IH. exact IH.
Qed.
End ServerSends.

(** ** The client, on these frames *)

Section Client.
Context `{HZ : Zstd, HL : !ZstdLaws} (retryable : option (Status → bool)) (budget now : Z).

Abbreviation session := (session (dctx := DCtx)).
Abbreviation session_step := (session_step createDCtx (λ d zin, decompressStream d zin DStreamOutSize) DStreamOutSize retryable budget).
Implicit Types s : session.

(** The session's thread runs undisturbed and reads the frames that are there, then the end of a stream that is OK. *)
Definition meets (frame : option Frame.t) : winput := mkInput false true frame (mkStatus OK "") false None now.
Definition turn (x : session * list Frame.t) : session * list Frame.t :=
  match at_ x.1, x.2 with
  | WRead, frame :: frames => (session_step (meets (Some frame)) x.1, frames)
  | _, frames => (session_step (meets None) x.1, frames)
  end.
Definition gets_to (x y : session * list Frame.t) : Prop := ∃ k, Nat.iter k turn x = y.

Lemma gets_refl x : gets_to x x.
Proof. by exists 0. Qed.
Lemma gets_step x y : gets_to (turn x) y → gets_to x y.
Proof. intros [k Hk]. exists (S k). by rewrite Nat.iter_succ_r. Qed.
Lemma gets_trans x y z : gets_to x y → gets_to y z → gets_to x z.
Proof. intros [k <-] [l <-]. exists (l + k). by rewrite Nat.iter_add. Qed.

Lemma turn_ok n x : sess_ok n x.1 → sess_ok n (turn x).1.
Proof. intros Hs. unfold turn. by destruct (at_ x.1), x.2; apply session_step_ok. Qed.
Lemma gets_ok n x y : gets_to x y → sess_ok n x.1 → sess_ok n y.1.
Proof. intros [k <-] Hs. induction k; [done|]. rewrite Nat.iter_succ. by apply turn_ok. Qed.

(** The first paths have come whole, and some of the next. *)
Record received (n : nat) (nars : list bytes) (cur : bytes) s : Prop := {
  rc_pending : pending s = seq 0 n;
  rc_len : length (spools (st s)) = n;
  rc_spool : ∀ (k : nat) sp, spools (st s) !! k = Some sp →
    NarSpool.failure sp = None ∧ NarSpool.eof sp = bool_decide (k < length nars) ∧
    data_of k (hist s) = default [] ((nars ++ [cur]) !! k) ∧ NarSpool.written sp = blen (data_of k (hist s)) ∧
    (k = length nars → NarSpool.written sp ≠ 0%N → (NarSpool.base sp + NarSpool.written sp = tail (st s))%N);
}.

Lemma received_point n nars cur s p c b l :
  Heard.log (heard l) = hist s → received n nars cur s → received n nars cur (mkSession (st s) (pending s) p c b l).
Proof. intros Hl [H1 H2 H3]. constructor; [done..|]. intros k sp Hk. unfold hist. simpl. rewrite Hl. by apply H3. Qed.

Lemma received_append n nars cur o s :
  length nars < n → o ≠ [] → Heard.named (heard (notes s)) = Some (length nars) → received n nars cur s →
  ∃ st', append (length nars) o None (st s) = (st', Ok tt) ∧
    ∀ p c, received n nars (cur ++ o) (mkSession st' (pending s) p c (backoff s) (notes s ++ [Gave o])).
Proof.
  intros Hlt Ho Hnm [H1 H2 H3]. destruct (lookup_lt_is_Some_2 (spools (st s)) (length nars)) as [sp Hsp]; [by rewrite H2|].
  destruct (H3 _ _ Hsp) as (Hf & He & Hd & Hw & Ht). rewrite bool_decide_eq_false_2 in He by lia.
  unfold append, mbind, M_bind, get, expect. rewrite Hsp. unfold mret, M_ret. rewrite He.
  set (base := if (NarSpool.written sp =? 0)%N then tail (st s) else NarSpool.base sp).
  assert (base + NarSpool.written sp = tail (st s))%N as Hb.
  { subst base. destruct (N.eqb_spec (NarSpool.written sp) 0) as [->|]; [lia|by apply Ht]. }
  replace (base + NarSpool.written sp =? tail (st s))%N with true by (symmetry; by apply N.eqb_eq). cbn. eexists. split; [done|].
  intros p c. constructor; cbn [st pending hist spools tail file at_point with_store]; [done|by rewrite length_insert|]. intros k sp' Hk.
  assert (hist (mkSession (dctx := DCtx) (st s) (pending s) p c (backoff s) (notes s ++ [Gave o])) = hist s ++ [(streams s, length nars, o)]) as Hh.
  { unfold hist. simpl. rewrite heard_snoc. simpl. by rewrite Hnm. }
  unfold hist at 1 2. cbn [notes]. change (Heard.log (heard (notes s ++ [Gave o]))) with (hist (mkSession (dctx := DCtx) (st s) (pending s) p c (backoff s) (notes s ++ [Gave o]))).
  rewrite Hh, data_of_snoc.
  destruct (decide (length nars = k)) as [<-|Hne].
  - rewrite list_lookup_insert_eq in Hk by (by rewrite H2). simplify_eq. simpl. rewrite bool_decide_eq_false_2 by lia.
    rewrite Hd, Hw, !list_lookup_middle by done. simpl. rewrite Hd, list_lookup_middle in Hw by done. simpl in Hw.
    rewrite nar_blen_app. split_and!; [done..|by rewrite Hd, list_lookup_middle|]. intros _ _. rewrite <- Hb, Hw. rewrite Hd, list_lookup_middle by done. simpl. lia.
  - rewrite list_lookup_insert_ne in Hk by done. destruct (H3 _ _ Hk) as (? & ? & Hdk & ? & _). rewrite app_nil_r. split_and!; [done..| |done|done].
    rewrite Hdk. destruct (decide (k < length nars)); [by rewrite !lookup_app_l by done|].
    rewrite !lookup_ge_None_2; [done|rewrite length_app; simpl; lia..].
Qed.

Lemma received_finish n nars cur s :
  length nars < n → received n nars cur s →
  ∃ st', finish (length nars) (st s) = (st', Ok tt) ∧
    received n (nars ++ [cur]) [] (at_point WRead (with_store st' s)).
Proof.
  intros Hlt [H1 H2 H3]. destruct (lookup_lt_is_Some_2 (spools (st s)) (length nars)) as [sp Hsp]; [by rewrite H2|].
  destruct (H3 _ _ Hsp) as (Hf & He & Hd & Hw & Ht). rewrite bool_decide_eq_false_2 in He by lia.
  unfold finish, mbind, M_bind, get, expect. rewrite Hsp. unfold mret, M_ret. rewrite He. cbn. eexists. split; [done|].
  constructor; cbn [st pending hist spools tail file at_point with_store]; [done|by rewrite length_insert|]. rewrite length_app. intros k sp' Hk.
  assert (default [] (((nars ++ [cur]) ++ [[]]) !! k) = default [] ((nars ++ [cur]) !! k)) as ->.
  { destruct (decide (k < length (nars ++ [cur]))); [by rewrite lookup_app_l|].
    rewrite (lookup_ge_None_2 (nars ++ [cur])) by lia. rewrite lookup_app_r by lia. by destruct (_ - _). }
  destruct (decide (length nars = k)) as [<-|Hne].
  - rewrite list_lookup_insert_eq in Hk by (by rewrite H2). simplify_eq. simpl. rewrite bool_decide_eq_true_2 by lia.
    split_and!; [done..|]. lia.
  - rewrite list_lookup_insert_ne in Hk by done. destruct (H3 _ _ Hk) as (? & Hek & Hdk & Hwk & _). split_and!; [done| |done..|].
    + rewrite Hek. apply bool_decide_ext. simpl. lia.
    + simpl. intros -> Hnz. rewrite Hwk, Hdk, lookup_ge_None_2 in Hnz; [done|]. rewrite length_app. simpl. lia.
Qed.

Lemma turn_other s frames : at_ s ≠ WRead → turn (s, frames) = (session_step (meets None) s, frames).
Proof. unfold turn. simpl. by destruct (at_ s). Qed.

Lemma inflate_received c inp z fl n nars cur z' dr zin eof s :
  compressed c inp z fl → length nars < n → sess_ok n s → at_ s = WInflate (length nars) zin eof →
  received n nars cur s → decompressed (ctx s) z' (mjoin nars ++ cur) dr → z' ++ zin `prefix_of` z →
  ∃ k o, let more := bool_decide (drop k zin = []) && (length o <? DStreamOutSize) in
    let s' := session_step (meets None) s in
    at_ s' = (if more then if eof then WFinish (length nars) else WRead else WInflate (length nars) (drop k zin) eof) ∧
    received n nars (cur ++ o) s' ∧ decompressed (ctx s') (z' ++ take k zin) (mjoin nars ++ cur ++ o) more ∧
    mjoin nars ++ cur ++ o `prefix_of` inp ∧
    (more = false → length zin - k + (length inp - length (mjoin nars ++ cur ++ o)) < length zin + (length inp - length (mjoin nars ++ cur))).
Proof.
  intros Hz Hlt Hok Hat Hrc Hd Hp. destruct (decompress_call _ _ _ _ _ _ _ _ _ DStreamOutSize Hz Hd Hp) as (d' & k & o & Hc & Hd' & Hpre & Hprog).
  rewrite <- (assoc_L app) in Hd', Hpre, Hprog. exists k, o. cbn zeta. unfold NarFetch.session_step. rewrite Hat. unfold inflate. rewrite Hc.
  cbn [pending]. assert (pending s !! length nars = Some (length nars)) as Hpe by (by rewrite (rc_pending _ _ _ _ Hrc), lookup_seq_lt).
  assert (0 < DStreamOutSize) as Hsize by apply zl_size.
  destruct o as [|x o].
  - rewrite app_nil_r in *. cbn. split_and!; [done|by apply received_point|done..|by apply Hprog].
  - destruct (received_append n nars cur (x :: o) s Hlt ltac:(done)) as (st' & Ha & Hrc'); [|done|].
    { pose proof (sn_tracks _ _ Hok) as Htr. rewrite Hat in Htr. destruct Htr as (_ & -> & _). done. }
    rewrite Hpe. cbn [st cut meets]. rewrite Ha.
    split_and!; [done|apply Hrc'|done..|by apply Hprog].
Qed.

Lemma inflate_frame c inp z fl n nars frames eof fuel cur z' dr zin s :
  compressed c inp z fl → length nars < n → length zin + (length inp - length (mjoin nars ++ cur)) < fuel → sess_ok n s →
  at_ s = WInflate (length nars) zin eof → received n nars cur s → decompressed (ctx s) z' (mjoin nars ++ cur) dr → z' ++ zin `prefix_of` z →
  ∃ s' cur', gets_to (s, frames) (s', frames) ∧ at_ s' = (if eof then WFinish (length nars) else WRead) ∧ received n nars cur' s' ∧
    decompressed (ctx s') (z' ++ zin) (mjoin nars ++ cur') true ∧ mjoin nars ++ cur' `prefix_of` inp.
Proof.
  intros Hz Hlt. revert cur z' dr zin s. induction fuel as [|fuel IH]; intros cur z' dr zin s Hfuel Hok Hat Hrc Hd Hp; [lia|].
  destruct (inflate_received _ _ _ _ _ _ _ _ _ _ _ _ Hz Hlt Hok Hat Hrc Hd Hp) as (k & o & Hat' & Hrc' & Hd' & Hpre & Hprog).
  set (s1 := session_step (meets None) s) in *.
  assert (gets_to (s, frames) (s1, frames)) as Hto by (apply gets_step; rewrite turn_other by (by rewrite Hat); apply gets_refl).
  destruct (bool_decide _ && _) eqn:Hdone.
  - exists s1, (cur ++ o). apply andb_true_iff in Hdone as [He%bool_decide_eq_true _].
    rewrite <- (take_drop k zin), He, app_nil_r. by split_and!.
  - destruct (IH (cur ++ o) (z' ++ take k zin) false (drop k zin) s1) as (s' & cur' & Hto' & Hs').
    + rewrite length_drop. specialize (Hprog eq_refl). lia.
    + by apply (gets_ok n _ _ Hto).
    + done.
    + done.
    + done.
    + by rewrite <- (assoc_L app), take_drop.
    + exists s', cur'. rewrite <- (assoc_L app), take_drop in Hs'. split; [by eapply gets_trans|done].
Qed.

(** Reading a frame of the path that is coming. *)
Definition took (idx : nat) (data : bytes) (eof : bool) s : session :=
  mkSession (st s) (pending s) (WInflate idx data eof) (ctx s) (backoff s) (notes s ++ [Carried (N.of_nat idx) eof]).
Lemma took_received n nars cur idx data eof s : received n nars cur s → received n nars cur (took idx data eof s).
Proof. apply received_point. by rewrite heard_snoc. Qed.

Lemma read_frame n idx data eof frames s :
  idx < n → (N.of_nat n < 2^32)%N → at_ s = WRead → pending s = seq 0 n →
  turn (s, Frame.mk (u32 (N.of_nat idx)) data eof :: frames) = (took idx data eof s, frames).
Proof.
  intros Hlt Hn Hat Hp. unfold turn. cbn [fst snd]. rewrite Hat. unfold NarFetch.session_step. rewrite Hat. unfold demux_read.
  cbn [NarFetch.read meets]. rewrite Hp, length_seq. cbn [Frame.path_index Frame.data Frame.eof].
  assert (u32 (N.of_nat idx) = N.of_nat idx) as -> by (unfold u32; apply N.mod_small; lia).
  destruct (N.leb_spec (N.of_nat n) (N.of_nat idx)); [lia|]. unfold took. by rewrite Nat2N.id, Hp.
Qed.

Lemma data_frames c inp z fl n nars ds frames cur z' s :
  compressed c inp z fl → length nars < n → (N.of_nat n < 2^32)%N → sess_ok n s → at_ s = WRead → received n nars cur s →
  decompressed (ctx s) z' (mjoin nars ++ cur) true → z' ++ mjoin ds `prefix_of` z →
  ∃ s' cur', gets_to (s, (set_path_index (length nars) <$> ds) ++ frames) (s', frames) ∧ at_ s' = WRead ∧ received n nars cur' s' ∧
    decompressed (ctx s') (z' ++ mjoin ds) (mjoin nars ++ cur') true.
Proof.
  intros Hz Hlt Hn. revert cur z' s. induction ds as [|chunk ds IH]; intros cur z' s Hok Hat Hrc Hd Hp; csimpl.
  { exists s, cur. rewrite app_nil_r. split_and!; [apply gets_refl|done..]. }
  simpl in Hp. rewrite (assoc_L app) in Hp |- *.
  assert (∀ fs, gets_to (s, set_path_index (length nars) chunk :: fs) (took (length nars) chunk false s, fs)) as Hread.
  { intros fs. apply gets_step. unfold set_path_index. rewrite (read_frame n) by (done || apply Hrc). apply gets_refl. }
  pose proof (Hread ((set_path_index (length nars) <$> ds) ++ frames)) as Hrd.
  destruct (inflate_frame _ _ _ _ n nars ((set_path_index (length nars) <$> ds) ++ frames) false
    (S (length chunk + (length inp - length (mjoin nars ++ cur)))) cur z' true chunk (took (length nars) chunk false s) Hz Hlt)
    as (s1 & cur1 & Hto & Hat1 & Hrc1 & Hd1 & _); [lia|by apply (gets_ok n _ _ Hrd)|done|by apply took_received|done|etrans; [|exact Hp]; by apply prefix_app_r|].
  destruct (IH cur1 (z' ++ chunk) s1 (gets_ok n _ _ (gets_trans _ _ _ Hrd Hto) Hok) Hat1 Hrc1 Hd1 Hp) as (s' & cur' & Hto' & Hs').
  exists s', cur'. split; [|done]. eapply gets_trans; [exact Hrd|]. by eapply gets_trans.
Qed.

Lemma path_frames c n nars nar ds frames z s :
  compressed c (mjoin (nars ++ [nar])) (z ++ mjoin ds) true → length nars < n → (N.of_nat n < 2^32)%N → sess_ok n s → at_ s = WRead → received n nars [] s →
  decompressed (ctx s) z (mjoin nars) true →
  ∃ s', gets_to (s, (set_path_index (length nars) <$> ds) ++ [eofFrame (length nars)] ++ frames) (s', frames) ∧ at_ s' = WRead ∧
    received n (nars ++ [nar]) [] s' ∧ decompressed (ctx s') (z ++ mjoin ds) (mjoin (nars ++ [nar])) true.
Proof.
  intros Hz Hlt Hn Hok Hat Hrc Hd.
  assert (∀ d cur, decompressed d (z ++ mjoin ds) (mjoin nars ++ cur) true → cur = nar) as Hall.
  { intros d cur Hd'. pose proof (zl_all _ _ _ _ _ Hz Hd') as He. rewrite join_app in He. simpl in He. rewrite app_nil_r in He. by simplify_list_eq. }
  destruct (data_frames _ _ _ _ n nars ds (eofFrame (length nars) :: frames) [] z s Hz) as (s1 & cur1 & Hto1 & Hat1 & Hrc1 & Hd1);
    [done..|by rewrite app_nil_r|done|].
  assert (gets_to (s1, eofFrame (length nars) :: frames) (took (length nars) [] true s1, frames)) as Hrd.
  { apply gets_step. unfold eofFrame. rewrite (read_frame n) by (done || apply Hrc1). apply gets_refl. }
  destruct (inflate_frame _ _ _ _ n nars frames true (S (length (mjoin (nars ++ [nar]) ))) cur1 (z ++ mjoin ds) true []
    (took (length nars) [] true s1) Hz Hlt) as (s2 & cur2 & Hto2 & Hat2 & Hrc2 & Hd2 & _);
    [simpl; lia|by apply (gets_ok n _ _ (gets_trans _ _ _ Hto1 Hrd))|done|by apply took_received|done|by rewrite app_nil_r|].
  rewrite app_nil_r in Hd2. pose proof (Hall _ _ Hd2). subst cur2.
  destruct (received_finish n nars nar s2 Hlt Hrc2) as (st' & Hfin & Hrc3).
  exists (at_point WRead (with_store st' s2)). split_and!; [|done|done|by rewrite join_app; simpl; rewrite app_nil_r].
  eapply gets_trans; [exact Hto1|]. eapply gets_trans; [exact Hrd|].
  eapply gets_trans; [exact Hto2|]. apply gets_step. rewrite turn_other by (by rewrite Hat2). unfold NarFetch.session_step. rewrite Hat2.
  unfold demux_finish. rewrite (rc_pending _ _ _ _ Hrc2), lookup_seq_lt by done. cbn [Nat.add]. rewrite Hfin. apply gets_refl.
Qed.

Lemma all_frames n nars z fs frames s :
  frames_of nars z fs → length nars <= n → (N.of_nat n < 2^32)%N → sess_ok n s → at_ s = WRead → received n [] [] s → ctx s = createDCtx →
  ∃ s', gets_to (s, fs ++ frames) (s', frames) ∧ at_ s' = WRead ∧ received n nars [] s' ∧ decompressed (ctx s') z (mjoin nars) true.
Proof.
  intros Hf Hle Hn Hok Hat Hrc Hc. revert frames. induction Hf as [|nars nar z fs ds c _ IH Hz]; intros frames.
  - exists s. rewrite Hc. split_and!; [apply gets_refl|done..|apply decompressed_new].
  - rewrite length_app in Hle. simpl in Hle. rewrite <- !(assoc_L app).
    destruct (IH ltac:(lia) ((set_path_index (length nars) <$> ds) ++ [eofFrame (length nars)] ++ frames)) as (s1 & Hto1 & Hat1 & Hrc1 & Hd1).
    destruct (path_frames c n nars nar ds frames z s1 Hz ltac:(lia) Hn (gets_ok n _ _ Hto1 Hok) Hat1 Hrc1 Hd1) as (s2 & Hto2 & Hs2).
    exists s2. split; [by eapply gets_trans|done].
Qed.

(** ** From end to end *)

Abbreviation fresh_session := (new_session createDCtx budget).

Lemma fresh_received n : received n [] [] (fresh_session n).
Proof.
  constructor; simpl; [done|by rewrite length_replicate|]. intros k sp [-> _]%lookup_replicate. split_and!; [done..| |done|done].
  by destruct k.
Qed.

(** A stream that has brought everything ends its session. *)
Lemma ends_received n nars s :
  at_ s = WRead → received n nars [] s → length nars = n → ∃ s', gets_to (s, []) (s', []) ∧ at_ s' = WDone ∧ st s' = st s ∧ hist s' = hist s.
Proof.
  intros Hat Hrc Hn.
  assert (∀ (k : nat) sp, spools (st s) !! k = Some sp → NarSpool.eof sp = true) as Heof.
  { intros k sp Hk. destruct (rc_spool _ _ _ _ Hrc _ _ Hk) as (_ & -> & _). apply bool_decide_eq_true_2.
    rewrite Hn, <- (rc_len _ _ _ _ Hrc). by eapply lookup_lt_Some. }
  assert (∀ cause sids, fail_all cause sids (st s) = st s) as Hfail.
  { intros cause sids. unfold fail_all. induction sids as [|sid sids IH]; [done|]. simpl.
    replace (fail_one cause (st s) sid) with (st s); [done|]. unfold fail_one. destruct (spools (st s) !! sid) as [sp|] eqn:Hsp; [|done].
    unfold NarSpool.fail. rewrite (Heof _ _ Hsp). simpl. rewrite list_insert_id by done. by destruct (st s). }
  assert (filter (λ sid, is_untouched (st s) sid = true) (pending s) = []) as Hleft.
  { apply elem_of_nil_inv. intros sid [Hu _]%list_elem_of_filter. unfold is_untouched, NarSpool.untouched in Hu.
    destruct (spools (st s) !! sid) as [sp|] eqn:Hsp; [|done]. by rewrite (Heof _ _ Hsp), andb_false_r in Hu. }
  exists (attempt_ended retryable (meets None) (mkStatus OK "") s). split.
  - apply gets_step. unfold turn at 1. cbn [fst snd]. rewrite Hat. unfold NarFetch.session_step. rewrite Hat. apply gets_step. apply gets_refl.
  - unfold attempt_ended. cbn [st pending]. rewrite Hleft, !Hfail. done.
Qed.

Lemma run_reader_ok n ios s r : sess_ok n s → reader_ok s r → reader_ok s (run_reader ios (st s) r) ∧ rspool (run_reader ios (st s) r) = rspool r.
Proof.
  intros Hs. unfold run_reader. revert r. induction ios as [|io ios IH]; intros r Hr; [done|]. simpl.
  destruct (IH (reader_step io (st s) r)) as [H1 ->]; [by eapply nar_reader_step_ok|]. split; [done|].
  unfold reader_step. destruct (spools (st s) !! rspool r); [|done]. repeat case_match; done.
Qed.

(** Whoever reads the path's spool gets these bytes. *)
Definition reads_back s (i : nat) (nar : bytes) : Prop :=
  ∀ ios, 3 * length nar + 2 <= length ios → Forall (λ io, reads_some io = true) ios →
    let r := run_reader ios (st s) (mkReader i 0 [] RWait) in rat r = RReturned ∧ sink r = nar.

Lemma received_reads_back n s (i : nat) sp :
  sess_ok n s → spools (st s) !! i = Some sp → NarSpool.eof sp = true → reads_back s i (data_of i (hist s)).
Proof.
  intros Hs Hsp Heof ios Hlen Hios r.
  assert (reader_ok s (mkReader i 0 [] RWait)) as Hr0.
  { constructor; simpl; [|done..]. intros. split_and!; [lia|done..]. }
  destruct (run_reader_ok n ios s _ Hs Hr0) as [[Hr Hsink _] Hi]. fold r in Hr, Hsink, Hi. cbn [rspool] in Hi. rewrite Hi in *.
  destruct (sn_spool _ _ Hs _ _ Hsp) as [Hw _].
  destruct (run_reader_ends n s sp ios _ Hs ltac:(by rewrite Heof) Hr0 Hsp) as [Hended Hno].
  { unfold steps_left, blen in *. simpl. lia. }
  fold r in Hended, Hno. assert (rat r = RReturned) as Hret.
  { destruct Hended as [|[cause Hc]]; [done|]. by specialize (Hno Heof Hios cause Hc). }
  split; [done|]. destruct (Hr sp Hsp) as (_ & _ & [_ Hpos]%(λ f, f Hret)). rewrite Hsink, Hpos, Hw. unfold blen. rewrite Nat2N.id. by apply take_ge.
Qed.

(** C26. NARs arrive as they were sent.  When [FetchNars] is asked for paths that its store has, it sends all of them without an error, and
    a session of the client that asked for these paths, fed the frames, gets to its end with every path complete: whoever
    reads a path, with reads cut as one likes, returns with exactly the bytes that the store wrote as its NAR, whatever pieces it
    wrote them in, although the paths share one compressed stream and one file. *)
Theorem nars_roundtrip (paths : list (list bytes)) :
  (N.of_nat (length paths) < 2^31)%N →
  wp (FetchNars (fmap (M := list) whole paths)) (λ _ (s : writer Frame.t), ∃ s', gets_to (fresh_session (length paths), sent s) (s', []) ∧ at_ s' = WDone ∧
    ∀ i pieces, paths !! i = Some pieces → reads_back s' i (nar_of pieces)) (new_writer None).
Proof.
  intros Hn. eapply wp_mono; [apply (send_paths_served [])|].
  { split; [done|]. split; [done|]. exists []. split; [apply compressed_new|apply frames_none]. }
  intros ? s (_ & _ & z & _ & Hf). cbn [app] in Hf. set (n := length paths) in *. set (nars := fmap nar_of paths) in *.
  assert (length nars = n) as Hlen by apply length_fmap.
  set (s0 := session_step (meets None) (session_step (meets None) (fresh_session n))).
  destruct (all_frames n nars z (sent s) [] s0 Hf) as (s1 & Hto1 & Hat1 & Hrc1 & _);
    [lia|lia|by apply session_step_ok, session_step_ok, new_session_ok|done|exact (received_point _ _ _ (fresh_session n) _ _ _ [Asked (seq 0 n)] eq_refl (fresh_received n))|done|].
  destruct (ends_received n nars s1 Hat1 Hrc1 Hlen) as (s' & Hto2 & Hat' & Hst & Hh). rewrite app_nil_r in Hto1.
  assert (gets_to (fresh_session n, sent s) (s', [])) as Hto.
  { do 2 apply gets_step. rewrite (turn_other (fresh_session n)) by done. rewrite turn_other by done. by eapply gets_trans. }
  exists s'. split_and!; [done..|]. intros i pieces Hi.
  assert (nars !! i = Some (nar_of pieces)) as Hi' by (unfold nars; by rewrite list_lookup_fmap, Hi).
  destruct (lookup_lt_is_Some_2 (spools (st s1)) i) as [sp Hsp]; [rewrite (rc_len _ _ _ _ Hrc1); by eapply lookup_lt_Some|].
  destruct (rc_spool _ _ _ _ Hrc1 _ _ Hsp) as (_ & He & Hd & _).
  rewrite lookup_app_l, Hi' in Hd by (by eapply lookup_lt_Some). simpl in Hd. rewrite <- Hd, <- Hh.
  eapply (received_reads_back n); [eapply (gets_ok n _ _ Hto), new_session_ok|by rewrite Hst|].
  rewrite He. apply bool_decide_eq_true_2. by eapply lookup_lt_Some.
Qed.
End Client.

(** Two NARs, in pieces, through the codec that stores. *)
Definition two_nars : list (list bytes) := [[take 5 sample; drop 5 sample]; [sample; sample; take 3 sample]].
Definition two_sent : list Frame.t := sent (exec (FetchNars (HZ := storing) (fmap (M := list) whole two_nars)) (new_writer None)).

Lemma nars_roundtrip_witness :
  length two_sent = 4 ∧
  ∃ s', gets_to (HZ := storing) None 0 0 (new_session createDCtx 0 2, two_sent) (s', []) ∧ at_ s' = WDone ∧ reads_back (HZ := storing) s' 1 (nar_of [sample; sample; take 3 sample]).
Proof.
  split; [vm_compute; reflexivity|].
  destruct (nars_roundtrip (HZ := storing) (HL := storing_laws) None 0 0 two_nars) as (u & s & Hrun & s' & Hto & Hat & Hback); [vm_compute; reflexivity|].
  exists s'. unfold two_sent, exec. rewrite Hrun. split; [exact Hto|]. split; [exact Hat|]. by apply Hback.
Defined.
